(* ===== verification/_CoqProject ===== *)
-Q . S2P
Prelude.v
Ord.v
QuorumSet.v
ScpMsg.v
Predicates.v
QuorumSearch.v
SlotState.v
SlotVoting.v
VotingProps.v
Slot.v
SlotInv.v
SlotRuns.v
SlotTermination.v
SlotProps.v
Node.v
NodeProps.v
Bytes.v
Lmdb.v
TxOut.v
Membership.v
TxOutStore.v
MerkleTree.v
TxOutStoreProps.v
BlockVersion.v
MaskedAmount.v
Tx.v
TxValidation.v
Multisig.v
Mint.v
MintOrd.v
MintStore.v
MintStoreProps.v
Block.v
LedgerDb.v
LedgerFrame.v
LedgerProps.v
LedgerAccept.v
LedgerApi.v
MintTxManager.v
MintTxManagerProps.v
CtArith.v
MessageCipher.v
Config.v
Ristretto.v
OnetimeKeys.v
Mlsag.v
RingCt.v
RingCtProps.v
EnclaveError.v
TxManager.v
TxManagerProps.v
ConsensusMsg.v
ConsensusMsgProps.v
PendingValues.v
NetworkState.v
Worker.v
WorkerProps.v
Enclave.v
EnclaveProps.v
LedgerSync.v
LedgerSyncProps.v
LightClient.v
LightClientProps.v
Memo.v
MemoBuilder.v
MemoProps.v
Digestible.v
DigestibleProps.v
ChainBinding.v
CryptoBox.v
Sci.v
TxBuilder.v
SciBuilder.v
TxBuilderProps.v
TxBuilderValid.v
SciProps.v
TxSummary.v
TxSummaryProps.v
