(* ===== verification/Prelude.v ===== *)
(** * Verification of the MobileCoin consensus core

    MobileCoin is a payments network: its nodes agree on blocks of private
    transactions by the Stellar Consensus Protocol and keep them in a ledger.
    This library models the part of the repository (under [src/]) that decides
    what enters the ledger, and proves it correct.

    ** The program and its model

    A client's transaction reaches a node encrypted; the enclave finds it well
    formed and the node caches it.  The consensus worker proposes the hashes of
    cached transactions (and mint transactions) to SCP, exchanges messages with
    its peers, and when a slot has externalized values it has a block formed from
    them and appends it to the ledger.  A node that falls behind copies blocks
    from its peers.  The files, in the order in which they build on each other:

    - General: [Prelude] (machine integers, panics, results, hash iteration,
      tactics and hints), [Ord] (Rust's [Ord], sorting, ordered sets), [Bytes].
    - SCP ([consensus/scp/types/src/quorum_set.rs], [consensus/scp/src]):
      [QuorumSet], [ScpMsg] (ballot.rs, msg.rs), [Predicates], [QuorumSearch]
      (quorum_set_ext.rs), [SlotState], [SlotVoting] and [Slot] (slot.rs), [Node]
      (node/node_impl.rs).  Properties in [VotingProps] (federated voting),
      [SlotInv], [SlotRuns], [SlotTermination], [SlotProps], [NodeProps].
    - Merkle tree of outputs: [Membership]
      ([transaction/core/src/membership_proofs]), [Lmdb] (the interface of the
      third-party database), [TxOutStore] ([ledger/db/src/tx_out_store.rs]);
      properties in [MerkleTree] and [TxOutStoreProps].
    - Transactions ([transaction/types/src], [transaction/core/src]): [TxOut],
      [BlockVersion], [MaskedAmount], [Tx] (tx.rs, input_rules.rs,
      util/u64-ratio), [TxValidation] (validation/validate.rs).
    - Minting: [Multisig] ([crypto/multisig]), [Mint]
      ([transaction/core/src/mint]), [MintOrd] (derived orders), [MintStore]
      ([ledger/db/src/mint_config_store.rs], mint_tx_store.rs), properties in
      [MintStoreProps].
    - The ledger: [Block] ([blockchain/types/src]), [LedgerDb]
      ([ledger/db/src/ledger_db.rs], ledger_trait.rs); [LedgerFrame],
      [LedgerProps], [LedgerAccept].
    - The consensus service ([consensus/service/src]): [LedgerApi] (the trait
      [Ledger] as a class, with [LedgerDB] as an instance), [MintTxManager]
      (mint_tx_manager, enclave/api/src/governors_map.rs), [TxManager]
      (tx_manager, validators.rs, the contexts of enclave/api/src/lib.rs),
      [ConsensusMsg] ([peers/src/consensus_msg.rs] and the callbacks in
      byzantine_ledger/mod.rs), [PendingValues], [NetworkState]
      ([ledger/sync/src/network_state/scp_network_state.rs]), [Worker]
      (byzantine_ledger/worker.rs); properties in the files named [...Props].
    - Keys and signatures: [Ristretto] (the curve as the class [Curve], hashes to
      points and scalars, Pedersen generators), [OnetimeKeys] ([account-keys],
      [core/src/subaddress.rs], one-time keys, memos and the construction of
      outputs), [Mlsag] ([crypto/ring-signature]), [RingCt]
      ([transaction/core/src/ring_ct], range_proofs, tx_summary.rs and the ring
      signers); properties in [RingCtProps].
    - The enclave: [CtArith] (constant-time division and token map),
      [MessageCipher] ([crypto/message-cipher]), [Config] (fee_map.rs,
      enclave/api/src/config.rs), [EnclaveError], [Enclave]
      ([consensus/enclave/impl/src/lib.rs]: proposing and checking transactions,
      forming blocks), which is an instance of the interface [ConsensusEnclave]
      that [TxManager] uses; properties in [EnclaveProps].
    - Synchronization: [LedgerSync] ([ledger/sync/src/ledger_sync],
      polling_network_state.rs, metadata_provider.rs), an instance of the
      interface [LedgerSync] that [Worker] uses; properties in [LedgerSyncProps].
    - The light client: [LightClient] ([light-client/verifier/src],
      [light-client/relayer/src], block_metadata.rs, [blockchain/validators],
      burn_address.rs); properties in [LightClientProps].
    - Memos: [Memo] ([transaction/extra/src/memo], [crypto/memo-mac]: the kinds of
      memo, their layouts, the authentication of senders), [MemoBuilder]
      ([transaction/builder/src/memo_builder]); properties in [MemoProps].
    - Digests: [Digestible] ([crypto/digestible]: the trait, what is derived for a
      struct, and the transcript of every type of transactions and blocks that is
      hashed), which gives instances of the classes of digests of the other
      files; properties in [DigestibleProps] and [ChainBinding].
    - Building transactions: [CryptoBox] ([crypto/box], fog hints), [Sci]
      ([transaction/extra/src/signed_contingent_input.rs], confirmation numbers),
      [TxBuilder] ([transaction/builder/src/transaction_builder.rs], credentials
      and materials of inputs, unsigned transactions), [SciBuilder]
      (signed_contingent_input_builder.rs); properties in [TxBuilderProps] (the
      invariant of the builder), [TxBuilderValid] (built transactions), [SciProps].
    - Hardware wallets: [TxSummary] ([transaction/summary/src], [util/vec-map]: the
      streaming verifier and its report); properties in [TxSummaryProps].

    ** How code becomes definitions

    A struct is a record, an enum an inductive type, a method a function that
    takes the state and returns the new one.  The model is the release build:
    [u32] and [u64] are naturals with the wrap-around written out, and
    [debug_assert!] is absent.  A failed [assert!], [unwrap], [expect] or index is
    [Panic] of the type [exec]; an error is [Err] of [result]; database code is in
    a state monad over both.  [HashMap]s and [HashSet]s are finite maps and sets,
    and code that iterates over one takes the order from the class [HashIter],
    so that theorems hold for every order.  [Instant::now()] is an argument, read
    once for each call of an entry point (the code reads it again within some);
    contexts that the worker inserts in parallel are inserted one after another;
    a thread that panics while contents are fetched makes the whole call [Panic].
    Third-party code (curve and hash functions, signatures, LMDB, protobuf) and
    the traits of the source are classes; a law they need is a field of a class
    or a hypothesis, and has a concrete instance wherever a witness uses it.

    ** What is proved

    - SCP: searches find a quorum or blocking set exactly when there is one; what
      a slot accepts or confirms follows the rules of federated voting; reachable
      slots satisfy their invariants, never go back, emit valid messages, and
      externalize only values that are valid and that a quorum accepted to
      commit, for good; the node reports externalized values without gaps.
    - Outputs: the store refines a list of outputs with its Merkle tree; its
      proofs are accepted, and an accepted proof is for an output of the tree
      unless there is a hash collision; validated rings are outputs of the ledger.
    - Transactions: validation accepts exactly the transactions that follow the
      rules of their block version; input rules bind in exact arithmetic.
    - Minting: multi-signatures verify exactly when their thresholds are met;
      what is recorded as minted is what was minted, within the limits.
    - The ledger refines a chain of blocks: appending is refused or extends the
      chain, acceptable blocks are accepted, what was appended is read back, no
      key image is spent and no output key created in two blocks;
      blocks are assumed to keep to limits that the code does not check
      ([appendable]: 2^63 outputs, 64-bit integers, no configuration twice).
    - The service: combining chooses a deterministic, bounded selection without
      clashes, whose transactions the ledger takes; the cache is keyed by the
      hashes of its transactions; the worker keeps its invariant from tick to
      tick, appends one block per completed slot, keeps only valid pending
      values, and follows the state machine of synchronization.
    - Keys and signatures: an output reaches the subaddress it was made for and
      can be spent with the recovered key; a ring signature and a whole RingCT
      signature that was made verifies; value checks pass what is balanced.
    - The enclave: a block it forms on the last block of a ledger is appended to
      it, if its contents are new there and the ledger's limits hold; it is made
      of validated transactions without repetition, with fee outputs worth
      the fees; contexts tell the truth about transactions; what it accepted it
      can decrypt ever after; nonces are not reused; every request is answered.
    - Synchronization extends the ledger only by blocks that a blocking set and
      quorum of peers sent, with their contents and unspent key images, whatever
      the peers answer and however threads are scheduled; fetching ends.
    - The light client accepts exactly what a slice of its validators signed; what
      it accepts does not fork and is in the ledger of honest validators; the
      relayer forwards each block with burned outputs once; these are found.
    - Memos: every kind reads back; an authenticated memo names its sender to the
      recipient and validates; destination memos hold the exact totals.
    - Digests: the transcript of a value determines the value, so hashes bind
      transactions, signatures bind what is signed, and the identifier of the last
      block binds the whole ledger, unless transcripts that were digested collide.
    - Building: whatever the calls, a transaction that the builder returns passes
      validation, partial fills of presigned inputs included; a presigned input
      that its builder returns validates and can be filled; outputs reach their
      recipients, whose confirmation numbers are valid; fog hints round trip.
    - Hardware wallets: the streaming verifier computes the digest that is signed
      and reports exact balances of openings it has checked; honest summaries are
      accepted; but it does not check that an output it calls its own is.
    - Several theorems show that the code does something its comments or callers
      do not expect; PROJECT.json lists them as findings.

    ** Bounds and fuel

    Quorum sets and signer sets recurse through lists: equality, hashing and
    verification take the depth of the set as fuel, the searches the size of the
    remaining members and messages ([find_quorum_fuel], [qs_size]), and each is
    shown to be enough.  The ballot protocol takes its depth of recursion as an
    argument; two levels are enough ([SlotTermination]), unless a peer is at the
    maximal ballot counter, where the source wraps around.  Walks in the Merkle
    tree are bounded by its height.  [chunks] takes the length of the list.  The
    cipher draws keys until one is new: its fuel is the number of draws, and
    [encrypt_terminates] says which is enough.  Fee outputs are split with the
    quotient of the total by [u64::MAX] as fuel.

    ** What is not modelled

    Logging, metrics, tracing and debug snapshots; gRPC services, threads and
    locks (a component's steps are sequential here, as its thread makes them,
    except that the threads that fetch contents of blocks interleave);
    attestation, key exchange and sealing (the class [Ake]); the arithmetic of the
    curve, of range proofs and of authenticated encryption (the classes [Curve],
    [Bulletproofs], [Aead] and [BoxAead]: what is shown of them is functional, not that they
    are secure); protobuf conversions; opening databases; the fog services,
    mobilecoind and the watcher, which are clients of this core. *)

From stdpp Require Export base tactics numbers option list gmap sets sorting.
From Stdlib Require Export NArith Lia.

Set Default Proof Using "Type".

(** ** Machine integers

    [u32], [u64] and [usize] values are naturals of type [N]; the operations
    below are those of a build with overflow checks off (the release profile
    of the workspace), so they wrap. *)

Definition u32_modulus : N := 4294967296.
Definition u64_modulus : N := 18446744073709551616.
Definition u32_max : N := 4294967295.
Definition u64_max : N := 18446744073709551615.

Definition u32_add (a b : N) : N := (a + b) mod u32_modulus.
Definition u32_sub (a b : N) : N := (a + (u32_modulus - b mod u32_modulus)) mod u32_modulus.
Definition u32_mul (a b : N) : N := (a * b) mod u32_modulus.
Definition as_u32 (n : N) : N := n mod u32_modulus.

Definition u64_add (a b : N) : N := (a + b) mod u64_modulus.
Definition u64_sub (a b : N) : N := (a + (u64_modulus - b mod u64_modulus)) mod u64_modulus.

(** [u64::checked_add]. *)
Definition u64_checked_add (a b : N) : option N :=
  if (a + b <? u64_modulus)%N then Some (a + b)%N else None.

(** [u32::saturating_add]. *)
Definition u32_saturating_add (a b : N) : N := N.min (a + b) u32_max.

(** The length of a [Vec], as a [usize]. *)
Definition len {A} (l : list A) : N := N.of_nat (length l).

Lemma u32_add_small a b : (a + b < u32_modulus)%N → u32_add a b = (a + b)%N.
Proof. intros. unfold u32_add. by rewrite N.mod_small. Qed.

Lemma u32_add_lt a b : (u32_add a b < u32_modulus)%N.
Proof. unfold u32_add. apply N.mod_lt. done. Qed.

Lemma u32_sub_small a b :
  (b <= a)%N → (a < u32_modulus)%N → u32_sub a b = (a - b)%N.
Proof.
  unfold u32_sub, u32_modulus. intros Hle Hlt.
  rewrite (N.mod_small b) by lia.
  replace (a + (4294967296 - b))%N with ((a - b) + 1 * 4294967296)%N by lia.
  rewrite N.Div0.mod_add. apply N.mod_small. lia.
Qed.

Lemma as_u32_small n : (n < u32_modulus)%N → as_u32 n = n.
Proof. intros. unfold as_u32. by rewrite N.mod_small. Qed.

Lemma u64_add_small a b : (a + b < u64_modulus)%N → u64_add a b = (a + b)%N.
Proof. intros. unfold u64_add. by rewrite N.mod_small. Qed.

Lemma len_nil {A} : len (@nil A) = 0%N.
Proof. done. Qed.

Lemma len_cons {A} (x : A) l : len (x :: l) = (1 + len l)%N.
Proof. unfold len. simpl. lia. Qed.

(** ** Results and panics *)

(** Rust's [Result<A, E>]. *)
Inductive result (A E : Type) : Type :=
| Ok (a : A)
| Err (e : E).
Arguments Ok {A E} _.
Arguments Err {A E} _.

Definition is_ok {A E} (r : result A E) : bool :=
  match r with Ok _ => true | Err _ => false end.

(** The outcome of code that may panic ([assert!], [unwrap], [expect],
    indexing) or, for the recursions that carry fuel, run out of it. *)
Inductive exec (A : Type) : Type :=
| Done (a : A)
| Panic
| NoFuel.
Arguments Done {A} _.
Arguments Panic {A}.
Arguments NoFuel {A}.

Definition exec_bind {A B} (e : exec A) (k : A → exec B) : exec B :=
  match e with
  | Done a => k a
  | Panic => Panic
  | NoFuel => NoFuel
  end.

Definition result_bind {A B E} (e : result A E) (k : A → result B E) : result B E :=
  match e with
  | Ok a => k a
  | Err x => Err x
  end.

Declare Scope rust_scope.
Delimit Scope rust_scope with rust.

Notation "'let!' x := e 'in' k" := (exec_bind e (λ x, k))
  (at level 10, x pattern, e at level 200, k at level 200) : rust_scope.
Notation "'assert!' b 'in' k" := (if (b : bool) then k else Panic)
  (at level 10, b at level 200, k at level 200) : rust_scope.
Notation "'let?' x := e 'in' k" := (result_bind e (λ x, k))
  (at level 10, x pattern, e at level 200, k at level 200) : rust_scope.
Open Scope rust_scope.

(** [Option::unwrap]/[expect]. *)
Definition unwrap {A} (o : option A) : exec A :=
  match o with Some a => Done a | None => Panic end.

Lemma exec_bind_Done {A B} (e : exec A) (k : A → exec B) b :
  exec_bind e k = Done b ↔ ∃ a, e = Done a ∧ k a = Done b.
Proof. destruct e; naive_solver. Qed.

Lemma result_bind_Ok {A B E} (e : result A E) (k : A → result B E) b :
  result_bind e k = Ok b ↔ ∃ a, e = Ok a ∧ k a = Ok b.
Proof. destruct e; naive_solver. Qed.

(** ** Results that may panic *)

Definition ebind {A B E} (m : exec (result A E)) (k : A → exec (result B E)) : exec (result B E) :=
  match m with
  | Done (Ok a) => k a
  | Done (Err e) => Done (Err e)
  | Panic => Panic
  | NoFuel => NoFuel
  end.
Notation "'let^' x := e 'in' k" := (ebind e (λ x, k))
  (at level 10, x pattern, e at level 200, k at level 200) : rust_scope.

(** [Result::map_err]. *)
Definition map_err {A E F} (f : E → F) (r : result A E) : result A F :=
  match r with Ok a => Ok a | Err e => Err (f e) end.
Definition emap_err {A E F} (f : E → F) (m : exec (result A E)) : exec (result A F) :=
  let! r := m in Done (map_err f r).

(** [expect] of a result. *)
Definition eexpect {A E} (m : exec (result A E)) : exec A :=
  let! r := m in
  match r with Ok a => Done a | Err _ => Panic end.

Lemma ebind_Ok {A B E} (m : exec (result A E)) (k : A → exec (result B E)) b :
  ebind m k = Done (Ok b) ↔ ∃ a, m = Done (Ok a) ∧ k a = Done (Ok b).
Proof. destruct m as [[]| |]; naive_solver. Qed.

Lemma emap_err_Ok {A E F} (f : E → F) (m : exec (result A E)) a :
  emap_err f m = Done (Ok a) ↔ m = Done (Ok a).
Proof. destruct m as [[]| |]; naive_solver. Qed.

Lemma eexpect_Done {A E} (m : exec (result A E)) a :
  eexpect m = Done a ↔ m = Done (Ok a).
Proof. destruct m as [[]| |]; naive_solver. Qed.

(** [iter().map(f).collect::<Result<_>>()]. *)
Fixpoint emap {A B E} (f : A → exec (result B E)) (l : list A) : exec (result (list B) E) :=
  match l with
  | [] => Done (Ok [])
  | x :: l => let^ y := f x in let^ ys := emap f l in Done (Ok (y :: ys))
  end.

(** [Iterator::partition] with a closure that updates what it captured: the
    elements it accepts, in order, those it rejects, and what it captured. *)
Fixpoint partition_mut {A S} (f : S → A → exec (bool * S)) (s : S) (l : list A) :
    exec (list A * list A * S) :=
  match l with
  | [] => Done ([], [], s)
  | x :: l =>
      let! (b, s) := f s x in
      let! (yes, no, s) := partition_mut f s l in
      Done (if b : bool then (x :: yes, no, s) else (yes, x :: no, s))
  end.

(** ** Iteration order of hash containers

    [HashMap] and [HashSet] are keyed by a randomly seeded hasher: the order
    in which they are iterated is arbitrary.  Code whose result may depend on
    it takes the order as a parameter, which only has to enumerate the
    elements, each one once. *)

Class HashIter : Type := {
  hs_iter : ∀ {A : Type} `{Countable A}, gset A → list A;
  hs_iter_perm : ∀ {A : Type} `{Countable A} (s : gset A), hs_iter s ≡ₚ elements s
}.

(** One concrete order, used when definitions are evaluated. *)
Program Definition elements_iter : HashIter :=
  {| hs_iter := λ A _ _ s, elements s |}.
Next Obligation. done. Qed.

Section hash_iter.
Context `{HI : HashIter}.

Lemma elem_of_hs_iter `{Countable A} (s : gset A) x : x ∈ hs_iter s ↔ x ∈ s.
Proof. rewrite hs_iter_perm. apply elem_of_elements. Qed.

(** Iteration over the entries of a [HashMap]. *)
Definition hm_iter `{Countable K} {A} (m : gmap K A) : list (K * A) :=
  omap (λ k, pair k <$> m !! k) (hs_iter (dom m)).

Lemma elem_of_hm_iter `{Countable K} {A} (m : gmap K A) k a :
  (k, a) ∈ hm_iter m ↔ m !! k = Some a.
Proof.
  unfold hm_iter. rewrite list_elem_of_omap. setoid_rewrite elem_of_hs_iter.
  split.
  - intros (k' & _ & Hk). destruct (m !! k') eqn:E; simpl in Hk; naive_solver.
  - intros Hk. exists k. split; [by apply elem_of_dom_2 in Hk|]. by rewrite Hk.
Qed.
End hash_iter.

(** ** Automation *)

Create HintDb rust.
#[export] Hint Resolve u32_add_lt : rust.

(** Decompose [e = Done r] hypotheses along the binds of a definition. *)
Ltac exec_inv :=
  repeat match goal with
  | H : exec_bind _ _ = Done _ |- _ =>
      apply exec_bind_Done in H; let a := fresh "r" in
      let E := fresh "E" in destruct H as (a & E & H)
  | H : (if ?b then _ else Panic) = Done _ |- _ =>
      let E := fresh "Eb" in destruct b eqn:E; [|discriminate H]
  | H : Done _ = Done _ |- _ => injection H as H; subst
  | H : unwrap ?o = Done _ |- _ =>
      let E := fresh "Eo" in destruct o eqn:E; [|discriminate H]; simpl in H
  end.

Ltac result_inv :=
  repeat match goal with
  | H : result_bind _ _ = Ok _ |- _ =>
      apply result_bind_Ok in H; let a := fresh "r" in
      let E := fresh "E" in destruct H as (a & E & H)
  | H : Ok _ = Ok _ |- _ => injection H as H; subst
  end.

(** ** Lists *)

Lemma forallb_Forall {A} (f : A → bool) l : forallb f l = true ↔ Forall (λ x, f x = true) l.
Proof. rewrite forallb_forall, List.Forall_forall. done. Qed.

Lemma set_empty_dec_neq `{Countable A} (s : gset A) x : x ∈ s → s ≠ ∅.
Proof. set_solver. Qed.
