(* ===== verification/Ord.v ===== *)
(** * Rust's [Ord]

    [Ord::cmp] as an operational class, the laws that make an instance a total
    order as a separate class (some of the [impl Ord]s of the consensus
    messages do not have them), the derived instances the code relies on
    ([Vec], [Option], tuples, [BTreeSet]), and the order-based iterator
    functions: [max], [min], [sort], [sort_by]. *)

From S2P Require Import Prelude.

(** ** The classes *)

Class Ord (A : Type) : Type := cmp : A → A → comparison.

Class TotalOrd (A : Type) `{Ord A} : Prop := {
  cmp_eq_iff : ∀ x y : A, cmp x y = Eq ↔ x = y;
  cmp_opp : ∀ x y : A, cmp y x = CompOpp (cmp x y);
  cmp_lt_trans : ∀ x y z : A, cmp x y = Lt → cmp y z = Lt → cmp x z = Lt
}.

Definition ord_ltb `{Ord A} (x y : A) : bool :=
  match cmp x y with Lt => true | _ => false end.
Definition ord_leb `{Ord A} (x y : A) : bool :=
  match cmp x y with Gt => false | _ => true end.
Definition ord_gtb `{Ord A} (x y : A) : bool := ord_ltb y x.
Definition ord_geb `{Ord A} (x y : A) : bool := ord_leb y x.

(** The (non-strict) order as a relation. *)
Definition ord_le `{Ord A} (x y : A) : Prop := cmp x y ≠ Gt.
Definition ord_lt `{Ord A} (x y : A) : Prop := cmp x y = Lt.

#[export] Instance ord_le_dec `{Ord A} : RelDecision (ord_le (A:=A)).
Proof. unfold RelDecision, ord_le. solve_decision. Defined.

Section total_ord.
Context `{TotalOrd A}.
Implicit Types x y z : A.

Lemma cmp_refl x : cmp x x = Eq.
Proof. by apply cmp_eq_iff. Qed.

Lemma cmp_gt_lt x y : cmp x y = Gt ↔ cmp y x = Lt.
Proof. rewrite (cmp_opp x y). destruct (cmp x y); simpl; naive_solver. Qed.

#[export] Instance ord_le_refl : Reflexive (ord_le (A:=A)).
Proof. intros x. unfold ord_le. by rewrite cmp_refl. Qed.

#[export] Instance ord_le_trans : Transitive (ord_le (A:=A)).
Proof.
  intros x y z. unfold ord_le. intros H1 H2.
  destruct (cmp x y) eqn:E1; [apply cmp_eq_iff in E1 as ->; done| |done].
  destruct (cmp y z) eqn:E2; [apply cmp_eq_iff in E2 as <-; by rewrite E1| |done].
  by rewrite (cmp_lt_trans _ _ _ E1 E2).
Qed.

#[export] Instance ord_le_antisym : AntiSymm (=) (ord_le (A:=A)).
Proof.
  intros x y. unfold ord_le. rewrite (cmp_opp x y).
  destruct (cmp x y) eqn:E; simpl; try done. intros _ _. by apply cmp_eq_iff.
Qed.

#[export] Instance ord_le_total : Total (ord_le (A:=A)).
Proof.
  intros x y. unfold ord_le. rewrite (cmp_opp x y).
  destruct (cmp x y); simpl; auto.
Qed.

Lemma ord_leb_le x y : ord_leb x y = true ↔ ord_le x y.
Proof. unfold ord_leb, ord_le. destruct (cmp x y); naive_solver. Qed.

Lemma ord_ltb_lt x y : ord_ltb x y = true ↔ ord_lt x y.
Proof. unfold ord_ltb, ord_lt. destruct (cmp x y); naive_solver. Qed.

Lemma ord_ltb_ge x y : ord_ltb x y = false ↔ ord_le y x.
Proof.
  unfold ord_ltb, ord_le. rewrite (cmp_opp x y).
  destruct (cmp x y); simpl; naive_solver.
Qed.

Lemma ord_leb_gt x y : ord_leb x y = false ↔ ord_lt y x.
Proof.
  unfold ord_leb, ord_lt. rewrite (cmp_opp x y).
  destruct (cmp x y); simpl; naive_solver.
Qed.

Lemma ord_lt_le x y : ord_lt x y → ord_le x y.
Proof. unfold ord_lt, ord_le. congruence. Qed.

Lemma ord_lt_not_le x y : ord_lt x y ↔ ¬ ord_le y x.
Proof. rewrite <-ord_ltb_lt, <-ord_ltb_ge. destruct (ord_ltb x y); naive_solver. Qed.

Lemma ord_lt_irrefl x : ¬ ord_lt x x.
Proof. unfold ord_lt. by rewrite cmp_refl. Qed.

Lemma ord_le_lt_trans x y z : ord_le x y → ord_lt y z → ord_lt x z.
Proof.
  rewrite !ord_lt_not_le. intros Hxy Hyz Hzx. apply Hyz. by transitivity x.
Qed.

Lemma ord_lt_le_trans x y z : ord_lt x y → ord_le y z → ord_lt x z.
Proof.
  rewrite !ord_lt_not_le. intros Hxy Hyz Hzx. apply Hxy. by transitivity z.
Qed.

Lemma ord_le_lt_or_eq x y : ord_le x y → ord_lt x y ∨ x = y.
Proof.
  unfold ord_le, ord_lt. intros Hle.
  destruct (cmp x y) eqn:E; [right; by apply cmp_eq_iff|by left|done].
Qed.
End total_ord.

(** ** Instances of the standard library *)

#[export] Instance N_ord : Ord N := N.compare.
#[export] Instance N_total_ord : TotalOrd N.
Proof.
  split; unfold cmp, N_ord.
  - intros x y. apply N.compare_eq_iff.
  - intros x y. apply N.compare_antisym.
  - intros x y z. rewrite !N.compare_lt_iff. lia.
Qed.

Lemma N_ord_le x y : ord_le (A:=N) x y ↔ (x <= y)%N.
Proof. done. Qed.

Lemma N_ord_lt x y : ord_lt (A:=N) x y ↔ (x < y)%N.
Proof. done. Qed.

(** Lexicographic composition, [Ordering::then]. *)
Definition cmp_then (c d : comparison) : comparison :=
  match c with Eq => d | _ => c end.

(** Lexicographic order of slices, given the order of the elements. *)
Section list_cmp.
Context {A : Type} (f : A → A → comparison).

Fixpoint list_cmp (l1 l2 : list A) : comparison :=
  match l1, l2 with
  | [], [] => Eq
  | [], _ :: _ => Lt
  | _ :: _, [] => Gt
  | x :: l1, y :: l2 => cmp_then (f x y) (list_cmp l1 l2)
  end.

Lemma list_cmp_eq l1 :
  Forall (λ x, ∀ y, f x y = Eq ↔ x = y) l1 →
  ∀ l2, list_cmp l1 l2 = Eq ↔ l1 = l2.
Proof.
  induction 1 as [|x l1 Hx _ IH]; intros [|y l2]; simpl; try done.
  specialize (Hx y). specialize (IH l2).
  destruct (f x y); simpl; naive_solver.
Qed.

Lemma list_cmp_opp l1 :
  Forall (λ x, ∀ y, f y x = CompOpp (f x y)) l1 →
  ∀ l2, list_cmp l2 l1 = CompOpp (list_cmp l1 l2).
Proof.
  induction 1 as [|x l1 Hx _ IH]; intros [|y l2]; simpl; try done.
  rewrite Hx, IH. by destruct (f x y).
Qed.

Lemma list_cmp_trans l1 :
  Forall (λ x, (∀ y, f x y = Eq ↔ x = y) ∧
               (∀ y z, f x y = Lt → f y z = Lt → f x z = Lt)) l1 →
  ∀ l2 l3, Forall (λ y, ∀ z, f y z = Eq ↔ y = z) l2 →
  list_cmp l1 l2 = Lt → list_cmp l2 l3 = Lt → list_cmp l1 l3 = Lt.
Proof.
  induction 1 as [|x l1 [Hx1 Hx2] _ IH]; intros [|y l2] [|z l3] Hl2; simpl; try done.
  inversion Hl2 as [|? ? Hy Hl2']; subst.
  specialize (Hx1 y) as Hxy. specialize (Hy z) as Hyz. specialize (Hx2 y z) as Hxyz.
  destruct (f x y) eqn:E1; simpl; try done.
  - assert (x = y) as -> by naive_solver. intros ?.
    destruct (f y z) eqn:E2; simpl; try done. by apply IH.
  - intros _. destruct (f y z) eqn:E2; simpl; try done.
    + assert (y = z) as -> by naive_solver. by rewrite E1.
    + intros _. by rewrite Hxyz.
Qed.
End list_cmp.

#[export] Instance list_ord `{Ord A} : Ord (list A) := list_cmp cmp.
#[export] Instance list_total_ord `{TotalOrd A} : TotalOrd (list A).
Proof.
  split; unfold cmp, list_ord.
  - intros x y. apply list_cmp_eq, Forall_true. intros a b. apply cmp_eq_iff.
  - intros x y. apply list_cmp_opp, Forall_true. intros a b. apply cmp_opp.
  - intros x y z. apply list_cmp_trans; apply Forall_true; [|intros a b; apply cmp_eq_iff].
    intros a. split; [apply cmp_eq_iff|apply cmp_lt_trans].
Qed.

(** [None] is less than every [Some]. *)
Definition option_cmp {A} (f : A → A → comparison) (x y : option A) : comparison :=
  match x, y with
  | None, None => Eq
  | None, Some _ => Lt
  | Some _, None => Gt
  | Some a, Some b => f a b
  end.

#[export] Instance option_ord `{Ord A} : Ord (option A) := option_cmp cmp.
#[export] Instance option_total_ord `{TotalOrd A} : TotalOrd (option A).
Proof.
  split; unfold cmp, option_ord, option_cmp.
  - intros [x|] [y|]; try done. rewrite cmp_eq_iff. naive_solver.
  - intros [x|] [y|]; try done. apply cmp_opp.
  - intros [x|] [y|] [z|]; try done. apply cmp_lt_trans.
Qed.

#[export] Instance prod_ord `{Ord A, Ord B} : Ord (A * B) :=
  λ p q, cmp_then (cmp p.1 q.1) (cmp p.2 q.2).
#[export] Instance prod_total_ord `{TotalOrd A, TotalOrd B} : TotalOrd (A * B).
Proof.
  split; unfold cmp, prod_ord.
  - intros [a b] [c d]; simpl. destruct (cmp a c) eqn:E; simpl.
    + apply cmp_eq_iff in E as ->. rewrite cmp_eq_iff. naive_solver.
    + split; [done|]. intros [= -> ->]. by rewrite cmp_refl in E.
    + split; [done|]. intros [= -> ->]. by rewrite cmp_refl in E.
  - intros [a b] [c d]; simpl. rewrite (cmp_opp a c), (cmp_opp b d). by destruct (cmp a c).
  - intros [a b] [c d] [e f]; simpl.
    destruct (cmp a c) eqn:E1; simpl; try done.
    + apply cmp_eq_iff in E1 as ->. destruct (cmp c e) eqn:E2; simpl; try done.
      apply cmp_lt_trans.
    + intros _. destruct (cmp c e) eqn:E2; simpl; try done.
      * apply cmp_eq_iff in E2 as ->. by rewrite E1.
      * intros _. by rewrite (cmp_lt_trans _ _ _ E1 E2).
Qed.

(** ** [max], [min] *)

(** [core::cmp::max]: the second argument on ties. *)
Definition ord_max `{Ord A} (x y : A) : A := if ord_leb x y then y else x.

(** [Iterator::max]: the last maximal element. *)
Definition iter_max_by {A} (f : A → A → comparison) (l : list A) : option A :=
  match l with
  | [] => None
  | x :: l => Some (foldl (λ m y, match f m y with Gt => m | _ => y end) x l)
  end.
Definition iter_max `{Ord A} : list A → option A := iter_max_by cmp.

(** [Iterator::min]: the first minimal element. *)
Definition iter_min_by {A} (f : A → A → comparison) (l : list A) : option A :=
  match l with
  | [] => None
  | x :: l => Some (foldl (λ m y, match f m y with Gt => y | _ => m end) x l)
  end.
Definition iter_min `{Ord A} : list A → option A := iter_min_by cmp.

Section max.
Context `{TotalOrd A}.
Implicit Types (x y m : A) (l : list A).

Lemma foldl_max_spec x l :
  let m := foldl (λ m y, match cmp m y with Gt => m | _ => y end) x l in
  (m = x ∨ m ∈ l) ∧ ord_le x m ∧ ∀ y, y ∈ l → ord_le y m.
Proof.
  revert x. induction l as [|y l IH]; intros x; simpl.
  { split_and!; [auto|reflexivity|]. by intros y ?%elem_of_nil. }
  set (z := match cmp x y with Gt => x | _ => y end).
  assert (z = x ∨ z = y) as Hz by (unfold z; destruct (cmp x y); auto).
  assert (ord_le x z ∧ ord_le y z) as [Hx Hy].
  { unfold z. destruct (cmp x y) eqn:E; (split; [|try reflexivity]);
      try (unfold ord_le; by rewrite E); try reflexivity.
    apply cmp_gt_lt in E. by apply ord_lt_le. }
  destruct (IH z) as (Hin & Hle & Hall). split_and!.
  - destruct Hin as [->|?]; [|right; by right].
    destruct Hz as [->| ->]; [by left|right; by left].
  - by transitivity z.
  - intros w [->|Hw]%elem_of_cons; [by transitivity z|by apply Hall].
Qed.

Lemma iter_max_Some l m :
  iter_max l = Some m → m ∈ l ∧ ∀ y, y ∈ l → ord_le y m.
Proof.
  destruct l as [|x l]; [done|]. unfold iter_max; simpl. intros [= <-].
  destruct (foldl_max_spec x l) as (Hin & Hle & Hall).
  split; [rewrite elem_of_cons; naive_solver|].
  intros y [->|Hy]%elem_of_cons; auto.
Qed.

Lemma iter_max_None l : iter_max l = None ↔ l = [].
Proof. by destruct l. Qed.

Lemma foldl_min_spec x l :
  let m := foldl (λ m y, match cmp m y with Gt => y | _ => m end) x l in
  (m = x ∨ m ∈ l) ∧ ord_le m x ∧ ∀ y, y ∈ l → ord_le m y.
Proof.
  revert x. induction l as [|y l IH]; intros x; simpl.
  { split_and!; [auto|reflexivity|]. by intros y ?%elem_of_nil. }
  set (z := match cmp x y with Gt => y | _ => x end).
  assert (z = x ∨ z = y) as Hz by (unfold z; destruct (cmp x y); auto).
  assert (ord_le z x ∧ ord_le z y) as [Hx Hy].
  { unfold z. destruct (cmp x y) eqn:E; (split; [try reflexivity|]);
      try (unfold ord_le; by rewrite E); try reflexivity.
    apply cmp_gt_lt in E. by apply ord_lt_le. }
  destruct (IH z) as (Hin & Hle & Hall). split_and!.
  - destruct Hin as [->|?]; [|right; by right].
    destruct Hz as [->| ->]; [by left|right; by left].
  - by transitivity z.
  - intros w [->|Hw]%elem_of_cons; [by transitivity z|by apply Hall].
Qed.

Lemma iter_min_Some l m :
  iter_min l = Some m → m ∈ l ∧ ∀ y, y ∈ l → ord_le m y.
Proof.
  destruct l as [|x l]; [done|]. unfold iter_min; simpl. intros [= <-].
  destruct (foldl_min_spec x l) as (Hin & Hle & Hall).
  split; [rewrite elem_of_cons; naive_solver|].
  intros y [->|Hy]%elem_of_cons; auto.
Qed.

Lemma iter_min_None l : iter_min l = None ↔ l = [].
Proof. by destruct l. Qed.

Lemma ord_max_ub x y : ord_le x (ord_max x y) ∧ ord_le y (ord_max x y).
Proof.
  unfold ord_max. destruct (ord_leb x y) eqn:E.
  - apply ord_leb_le in E. split; [done|reflexivity].
  - apply ord_leb_gt in E. split; [reflexivity|by apply ord_lt_le].
Qed.

Lemma ord_max_choice x y : ord_max x y = x ∨ ord_max x y = y.
Proof. unfold ord_max. destruct (ord_leb x y); auto. Qed.
End max.

(** ** Stable sorting *)

Section sort_by.
Context {A : Type} (f : A → A → comparison).

Fixpoint insert_by (x : A) (l : list A) : list A :=
  match l with
  | [] => [x]
  | y :: l' => match f x y with Gt => y :: insert_by x l' | _ => x :: l end
  end.

(** [slice::sort_by] (stable). *)
Definition sort_by (l : list A) : list A := foldr insert_by [] l.

Lemma insert_by_perm x l : insert_by x l ≡ₚ x :: l.
Proof.
  induction l as [|y l IH]; simpl; [done|].
  destruct (f x y); try done. rewrite IH. apply Permutation_swap.
Qed.

Lemma sort_by_perm l : sort_by l ≡ₚ l.
Proof. induction l as [|x l IH]; simpl; [done|]. by rewrite insert_by_perm, IH. Qed.

Lemma elem_of_sort_by x l : x ∈ sort_by l ↔ x ∈ l.
Proof. by rewrite sort_by_perm. Qed.

Lemma length_sort_by l : length (sort_by l) = length l.
Proof. by rewrite sort_by_perm. Qed.
End sort_by.

Definition sort `{Ord A} : list A → list A := sort_by cmp.

Section sort.
Context `{TotalOrd A}.
Implicit Types l : list A.

Lemma sort_perm l : sort l ≡ₚ l.
Proof. apply sort_by_perm. Qed.

Lemma insert_by_sorted x l : Sorted ord_le l → Sorted ord_le (insert_by cmp x l).
Proof.
  induction 1 as [|y l Hl IH Hhd]; simpl; [by repeat constructor|].
  destruct (cmp x y) eqn:E.
  - constructor; [by constructor|]. constructor. unfold ord_le. by rewrite E.
  - constructor; [by constructor|]. constructor. unfold ord_le. by rewrite E.
  - constructor; [done|].
    assert (ord_le y x) by (apply cmp_gt_lt in E; by apply ord_lt_le).
    destruct l as [|z l]; simpl; [by constructor|].
    inversion Hhd; subst. destruct (cmp x z); by constructor.
Qed.

Lemma sort_sorted l : Sorted ord_le (sort l).
Proof. induction l as [|x l IH]; simpl; [constructor|by apply insert_by_sorted]. Qed.

(** Sorting by a total order forgets exactly the order of the input. *)
Lemma sort_perm_eq l1 l2 : l1 ≡ₚ l2 → sort l1 = sort l2.
Proof.
  intros Hp. apply (Sorted_unique ord_le); [apply sort_sorted..|].
  by rewrite !sort_perm.
Qed.

Lemma sort_eq_iff l1 l2 : sort l1 = sort l2 ↔ l1 ≡ₚ l2.
Proof.
  split; [|apply sort_perm_eq]. intros Heq.
  by rewrite <-(sort_perm l1), Heq, sort_perm.
Qed.

Lemma sort_idemp l : sort (sort l) = sort l.
Proof. apply sort_perm_eq, sort_perm. Qed.
End sort.

(** ** [BTreeSet]: a set iterated in increasing order, compared as sequences. *)

Definition btree_iter `{Ord A, Countable A} (s : gset A) : list A := sort (elements s).

#[export] Instance btree_ord `{Ord A, Countable A} : Ord (gset A) :=
  λ s t, cmp (btree_iter s) (btree_iter t).

#[export] Instance btree_total_ord `{TotalOrd A, Countable A} : TotalOrd (gset A).
Proof.
  split; unfold cmp, btree_ord.
  - intros s t. rewrite cmp_eq_iff. unfold btree_iter. rewrite sort_eq_iff.
    split; [|by intros ->]. intros Hp. apply set_eq. intros x.
    by rewrite <-!elem_of_elements, Hp.
  - intros s t. apply cmp_opp.
  - intros s t u. apply cmp_lt_trans.
Qed.

Lemma elem_of_btree_iter `{Ord A, Countable A} (s : gset A) x :
  x ∈ btree_iter s ↔ x ∈ s.
Proof. unfold btree_iter, sort. rewrite elem_of_sort_by. apply elem_of_elements. Qed.

#[export] Hint Resolve ord_lt_le : rust.

(** The entries of a [BTreeMap], in the order of the keys. *)
Definition btree_entries {A} (m : gmap N A) : list (N * A) :=
  omap (λ k, pair k <$> m !! k) (btree_iter (dom m)).

Lemma elem_of_btree_entries {A} (m : gmap N A) k v : (k, v) ∈ btree_entries m ↔ m !! k = Some v.
Proof.
  unfold btree_entries. rewrite list_elem_of_omap. split.
  - intros (k' & _ & Hk). apply fmap_Some in Hk as (x & Hx & [= -> ->]). done.
  - intros Hk. exists k. unfold btree_iter. rewrite sort_perm, elem_of_elements, elem_of_dom, Hk. by split.
Qed.

Lemma btree_entries_keys {A} (m : gmap N A) : (btree_entries m).*1 = btree_iter (dom m).
Proof.
  unfold btree_entries. assert (∀ k, k ∈ btree_iter (dom m) → is_Some (m !! k)) as Hall.
  { intros k. unfold btree_iter. by rewrite sort_perm, elem_of_elements, elem_of_dom. }
  induction (btree_iter (dom m)) as [|k l IH]; [done|]. simpl.
  destruct (Hall k ltac:(by left)) as [v ->]. simpl. f_equal. apply IH. intros k' ?. apply Hall. by right.
Qed.

Lemma NoDup_btree_entries {A} (m : gmap N A) : NoDup (btree_entries m).*1.
Proof. rewrite btree_entries_keys. unfold btree_iter. rewrite sort_perm. apply NoDup_elements. Qed.
