(* ===== verification/QuorumSet.v ===== *)
(** * Quorum sets

    The model of [consensus/scp/types/src/quorum_set.rs] and of the [weight]
    function of [consensus/scp/src/quorum_set_ext.rs]: the nested structure, its
    constructors, validity, recursive sorting, the order-insensitive [PartialEq]
    and [Hash], the flattened node set and the conversion to responder ids.

    The specification side is [is_slice]: the node sets that satisfy a quorum
    set.  It is what the searches of the file [QuorumSearch] are measured
    against. *)

From S2P Require Import Prelude Ord.

Local Open Scope N_scope.

(** ** Data *)

Inductive QuorumSetMember (ID Q : Type) : Type :=
| Node (id : ID)
| InnerSet (qs : Q).
Arguments Node {ID Q} _.
Arguments InnerSet {ID Q} _.

Inductive QuorumSet (ID : Type) : Type :=
| QSet (threshold : N) (members : list (option (QuorumSetMember ID (QuorumSet ID)))).
Arguments QSet {ID} _ _.

(** [QuorumSetMemberWrapper]: an optional member (the protobuf oneof). *)
Abbreviation Member ID := (QuorumSetMember ID (QuorumSet ID)).
Abbreviation MemberWrapper ID := (option (QuorumSetMember ID (QuorumSet ID))).

Definition threshold {ID} (q : QuorumSet ID) : N :=
  match q with QSet t _ => t end.
Definition members {ID} (q : QuorumSet ID) : list (MemberWrapper ID) :=
  match q with QSet _ ms => ms end.

Definition member_inner {ID} (P : QuorumSet ID → Prop) (m : MemberWrapper ID) : Prop :=
  match m with Some (InnerSet q) => P q | _ => True end.

(** Induction over the nesting. *)
Lemma QuorumSet_nested_ind {ID} (P : QuorumSet ID → Prop)
    (HQ : ∀ t ms, Forall (member_inner P) ms → P (QSet t ms)) :
  ∀ q, P q.
Proof.
  fix IH 1. intros [t ms]. apply HQ.
  induction ms as [|[[id|q]|] ms IHms]; constructor; simpl; auto.
Qed.

(** Number of members at every level: the measure of the recursions. *)
Section members_size.
Context {ID : Type} (sz : QuorumSet ID → nat).
Fixpoint members_size_with (ms : list (MemberWrapper ID)) : nat :=
  match ms with
  | [] => 0
  | m :: ms => S (match m with Some (InnerSet q) => sz q | _ => 0 end + members_size_with ms)
  end.
End members_size.

Fixpoint qs_size {ID} (q : QuorumSet ID) : nat :=
  match q with QSet _ ms => S (members_size_with qs_size ms) end.

Abbreviation members_size := (members_size_with qs_size).

(** Counting the members of a slice. *)
Section countb.
Context {A : Type} (f : A → bool).
Fixpoint countb (l : list A) : N :=
  match l with
  | [] => 0
  | x :: l => (if f x then 1 else 0) + countb l
  end.

Lemma countb_le_len l : countb l <= len l.
Proof. induction l; simpl; rewrite ?len_cons; [done|]. destruct (f a); lia. Qed.

Lemma countb_app l1 l2 : countb (l1 ++ l2) = countb l1 + countb l2.
Proof. induction l1; simpl; [done|]. rewrite IHl1. lia. Qed.

Lemma countb_perm l1 l2 : l1 ≡ₚ l2 → countb l1 = countb l2.
Proof. induction 1; simpl; try lia. Qed.
End countb.

Lemma countb_mono {A} (f g : A → bool) l :
  Forall (λ x, f x = true → g x = true) l → countb f l <= countb g l.
Proof.
  induction 1 as [|x l Hx _ IH]; simpl; [done|].
  destruct (f x); [rewrite Hx by done|]; destruct (g x); lia.
Qed.

Lemma countb_ext {A} (f g : A → bool) l :
  Forall (λ x, f x = g x) l → countb f l = countb g l.
Proof. induction 1 as [|x l Hx _ IH]; simpl; [done|]. by rewrite Hx, IH. Qed.

Lemma countb_negb {A} (f : A → bool) l : countb f l + countb (λ x, negb (f x)) l = len l.
Proof.
  induction l as [|x l IH]; [done|]. rewrite len_cons. simpl. destruct (f x); simpl; lia.
Qed.

(** ** Constructors *)

Module Ctor.
Section ctor.
Context {ID : Type}.

(** [QuorumSet::new]. *)
Definition new (t : N) (ms : list (Member ID)) : QuorumSet ID :=
  QSet t (Some <$> ms).

Definition new_with_node_ids (t : N) (node_ids : list ID) : QuorumSet ID :=
  new t (Node <$> node_ids).

Definition new_with_inner_sets (t : N) (inner_sets : list (QuorumSet ID)) : QuorumSet ID :=
  new t (InnerSet <$> inner_sets).

Definition empty : QuorumSet ID := new 0 [].
End ctor.
End Ctor.

(** ** Operations *)

(** [is_valid]: enough members at every level, and every member present. *)
Fixpoint is_valid {ID} (q : QuorumSet ID) : bool :=
  match q with
  | QSet t ms =>
      (t <=? len ms) &&
      forallb (λ m, match m with
                    | None => false
                    | Some (InnerSet qs) => is_valid qs
                    | Some (Node _) => true
                    end) ms
  end.

(** [nodes]: the flattened set of nodes. *)
Section nodes_with.
Context {ID : Type} `{Countable ID} (f : QuorumSet ID → gset ID).
Fixpoint nodes_with (ms : list (MemberWrapper ID)) : gset ID :=
  match ms with
  | [] => ∅
  | Some (Node id) :: ms => {[ id ]} ∪ nodes_with ms
  | Some (InnerSet qs) :: ms => f qs ∪ nodes_with ms
  | None :: ms => nodes_with ms
  end.
End nodes_with.

Fixpoint nodes {ID : Type} `{Countable ID} (q : QuorumSet ID) : gset ID :=
  match q with QSet _ ms => nodes_with nodes ms end.

(** The derived [Ord]: threshold first, then the members in sequence; a node is
    less than an inner set. *)
Fixpoint qs_cmp {ID : Type} `{Ord ID} (a b : QuorumSet ID) : comparison :=
  match a, b with
  | QSet t1 m1, QSet t2 m2 =>
      cmp_then (N.compare t1 t2)
        (list_cmp (option_cmp (λ x y,
           match x, y with
           | Node i, Node j => cmp i j
           | Node _, InnerSet _ => Lt
           | InnerSet _, Node _ => Gt
           | InnerSet p, InnerSet q => qs_cmp p q
           end)) m1 m2)
  end.

#[export] Instance QuorumSet_ord {ID : Type} `{Ord ID} : Ord (QuorumSet ID) := qs_cmp.

#[export] Instance member_ord {ID : Type} `{Ord ID} : Ord (Member ID) := λ x y,
  match x, y with
  | Node i, Node j => cmp i j
  | Node _, InnerSet _ => Lt
  | InnerSet _, Node _ => Gt
  | InnerSet p, InnerSet q => qs_cmp p q
  end.

(** [sort]: inner sets first, then the members. *)
Fixpoint qs_sort {ID : Type} `{Ord ID} (q : QuorumSet ID) : QuorumSet ID :=
  match q with
  | QSet t ms =>
      QSet t (sort ((λ m, match m with
                          | Some (InnerSet qs) => Some (InnerSet (qs_sort qs))
                          | _ => m
                          end) <$> ms))
  end.

(** Nesting depth: how often equality and hashing recurse. *)
Section depth_with.
Context {ID : Type} (f : QuorumSet ID → nat).
Fixpoint depth_with (ms : list (MemberWrapper ID)) : nat :=
  match ms with
  | [] => 0%nat
  | Some (InnerSet q) :: ms => Nat.max (f q) (depth_with ms)
  | _ :: ms => depth_with ms
  end.
End depth_with.

Fixpoint qs_depth {ID} (q : QuorumSet ID) : nat :=
  match q with QSet _ ms => S (depth_with qs_depth ms) end.

(** [PartialEq::eq]: compares sorted clones; the members of the clones are
    compared by the same function, recursively. *)
Fixpoint list_eqb {A} (f : A → A → bool) (l1 l2 : list A) : bool :=
  match l1, l2 with
  | [], [] => true
  | x :: l1, y :: l2 => f x y && list_eqb f l1 l2
  | _, _ => false
  end.

Section equality.
Context {ID : Type} `{Ord ID, EqDecision ID}.

Definition member_eqb (f : QuorumSet ID → QuorumSet ID → bool) (x y : MemberWrapper ID) : bool :=
  match x, y with
  | None, None => true
  | Some (Node i), Some (Node j) => bool_decide (i = j)
  | Some (InnerSet p), Some (InnerSet q) => f p q
  | _, _ => false
  end.

Fixpoint qs_eq_fuel (fuel : nat) (a b : QuorumSet ID) : bool :=
  match fuel with
  | O => false
  | S n =>
      if (threshold a =? threshold b) && (len (members a) =? len (members b))
      then list_eqb (member_eqb (qs_eq_fuel n)) (members (qs_sort a)) (members (qs_sort b))
      else false
  end.

(** The depth of the nesting is enough fuel ([qs_eq_spec]). *)
Definition qs_eq (a b : QuorumSet ID) : bool := qs_eq_fuel (qs_depth a) a b.
End equality.

(** [Hash::hash]: feeds the threshold and the members of a sorted clone to the
    hasher, of which only the write operations are used. *)
Class Hasher (ID St : Type) : Type := {
  write_u32 : N → St → St;
  write_length : N → St → St;
  write_discriminant : N → St → St;
  write_id : ID → St → St
}.

Section hash.
Context {ID : Type} `{Ord ID} {St : Type} `{Hasher ID St}.

Definition member_hash (f : QuorumSet ID → St → St) (m : MemberWrapper ID) (st : St) : St :=
  match m with
  | None => write_discriminant 0 st
  | Some (Node i) => write_id i (write_discriminant 0 (write_discriminant 1 st))
  | Some (InnerSet q) => f q (write_discriminant 1 (write_discriminant 1 st))
  end.

Definition members_hash (f : QuorumSet ID → St → St) (ms : list (MemberWrapper ID)) (st : St) : St :=
  foldl (λ st m, member_hash f m st) (write_length (len ms) st) ms.

Fixpoint qs_hash_fuel (fuel : nat) (q : QuorumSet ID) (st : St) : St :=
  match fuel with
  | O => st
  | S n => members_hash (qs_hash_fuel n) (members (qs_sort q)) (write_u32 (threshold (qs_sort q)) st)
  end.

Definition qs_hash (q : QuorumSet ID) (st : St) : St := qs_hash_fuel (qs_depth q) q st.
End hash.

(** [From<&QuorumSet<ID>> for QuorumSet<ResponderId>]: absent members are
    dropped. *)
Fixpoint to_responder_ids {ID RID} (as_ref : ID → RID) (q : QuorumSet ID) : QuorumSet RID :=
  match q with
  | QSet t ms =>
      Ctor.new t (omap (λ m, match m with
                             | Some (Node id) => Some (Node (as_ref id))
                             | Some (InnerSet qs) => Some (InnerSet (to_responder_ids as_ref qs))
                             | None => None
                             end) ms)
  end.

(** [QuorumSetExt::weight]. *)
Section weight_with.
Context {ID : Type} `{EqDecision ID} (f : QuorumSet ID → N * N) (node_id : ID) (t n : N).
Fixpoint weight_with (ms : list (MemberWrapper ID)) : N * N :=
  match ms with
  | [] => (0, 1)
  | Some (Node id) :: ms =>
      if bool_decide (id = node_id) then (t, as_u32 n) else weight_with ms
  | Some (InnerSet Q) :: ms =>
      let '(num2, denom2) := f Q in
      if 0 <? num2 then (u32_mul t num2, u32_mul (as_u32 n) denom2) else weight_with ms
  | None :: ms => weight_with ms
  end.
End weight_with.

Fixpoint weight {ID : Type} `{EqDecision ID} (q : QuorumSet ID) (node_id : ID) : N * N :=
  match q with
  | QSet t ms => weight_with (λ Q, weight Q node_id) node_id t (len ms) ms
  end.

(** ** Specification: the slices of a quorum set *)

(** [U] satisfies [q]: at least [threshold] members are nodes of [U] or inner
    sets that [U] satisfies. *)
Fixpoint is_slice {ID : Type} `{Countable ID} (U : gset ID) (q : QuorumSet ID) : bool :=
  match q with
  | QSet t ms =>
      t <=? countb (λ m, match m with
                         | Some (Node id) => bool_decide (id ∈ U)
                         | Some (InnerSet qs) => is_slice U qs
                         | None => false
                         end) ms
  end.

Definition member_sat {ID : Type} `{Countable ID} (U : gset ID) (m : MemberWrapper ID) : bool :=
  match m with
  | Some (Node id) => bool_decide (id ∈ U)
  | Some (InnerSet qs) => is_slice U qs
  | None => false
  end.

Lemma is_slice_unfold {ID : Type} `{Countable ID} (U : gset ID) t ms :
  is_slice U (QSet t ms) = (t <=? countb (member_sat U) ms).
Proof. done. Qed.

(** ** The derived order is total *)

Lemma cmp_then_eq c d : cmp_then c d = Eq ↔ c = Eq ∧ d = Eq.
Proof. destruct c; simpl; naive_solver. Qed.

Section total.
Context {ID : Type} `{TotalOrd ID}.
Implicit Types p q : QuorumSet ID.

Lemma qs_cmp_unfold t1 m1 t2 m2 :
  qs_cmp (QSet t1 m1) (QSet t2 m2) =
    cmp_then (N.compare t1 t2) (list_cmp (option_cmp member_ord) m1 m2).
Proof. done. Qed.

Lemma qs_cmp_eq p : ∀ q, qs_cmp p q = Eq ↔ p = q.
Proof.
  induction p as [t1 m1 IH] using QuorumSet_nested_ind. intros [t2 m2].
  rewrite qs_cmp_unfold, cmp_then_eq, N.compare_eq_iff, list_cmp_eq; [naive_solver|].
  eapply Forall_impl; [exact IH|]. clear IH.
  intros [[i|p]|] Hm [[j|q]|]; simpl in *; try done.
  - rewrite cmp_eq_iff. naive_solver.
  - rewrite Hm. naive_solver.
Qed.

Lemma qs_cmp_opp p : ∀ q, qs_cmp q p = CompOpp (qs_cmp p q).
Proof.
  induction p as [t1 m1 IH] using QuorumSet_nested_ind. intros [t2 m2].
  rewrite !qs_cmp_unfold, (N.compare_antisym t1 t2), (list_cmp_opp _ m1); [by destruct (t1 ?= t2)|].
  eapply Forall_impl; [exact IH|]. clear IH.
  intros [[i|p]|] Hm [[j|q]|]; simpl in *; try done. apply cmp_opp.
Qed.

Lemma member_cmp_eq (m m' : MemberWrapper ID) : option_cmp member_ord m m' = Eq ↔ m = m'.
Proof.
  destruct m as [[i|p]|], m' as [[j|q]|]; simpl; try done.
  - rewrite cmp_eq_iff. naive_solver.
  - rewrite qs_cmp_eq. naive_solver.
Qed.

Lemma qs_cmp_trans p : ∀ q r, qs_cmp p q = Lt → qs_cmp q r = Lt → qs_cmp p r = Lt.
Proof.
  induction p as [t1 m1 IH] using QuorumSet_nested_ind. intros [t2 m2] [t3 m3].
  rewrite !qs_cmp_unfold.
  assert (Hl : list_cmp (option_cmp member_ord) m1 m2 = Lt →
               list_cmp (option_cmp member_ord) m2 m3 = Lt →
               list_cmp (option_cmp member_ord) m1 m3 = Lt).
  { apply list_cmp_trans; [|apply Forall_true; apply member_cmp_eq].
    eapply Forall_impl; [exact IH|]. clear IH. intros m Hm.
    split; [apply member_cmp_eq|].
    destruct m as [[i|p]|]; intros [[j|q]|] [[k|r]|]; simpl in *; try done.
    - apply cmp_lt_trans.
    - apply Hm. }
  destruct (N.compare_spec t1 t2), (N.compare_spec t2 t3); simpl; try done; subst.
  - by rewrite N.compare_refl.
  - intros _ _. by rewrite (proj2 (N.compare_lt_iff _ _)).
  - intros _ _. by rewrite (proj2 (N.compare_lt_iff _ _)).
  - intros _ _. by rewrite (proj2 (N.compare_lt_iff t1 t3)) by lia.
Qed.

#[export] Instance QuorumSet_total_ord : TotalOrd (QuorumSet ID).
Proof. split; [apply qs_cmp_eq|intros; apply qs_cmp_opp|apply qs_cmp_trans]. Qed.

#[export] Instance member_total_ord : TotalOrd (Member ID).
Proof.
  split.
  - intros x y. pose proof (member_cmp_eq (Some x) (Some y)) as Hc. simpl in Hc.
    unfold cmp. rewrite Hc. naive_solver.
  - intros [i|p] [j|q]; unfold cmp; simpl; try done; [apply cmp_opp|apply qs_cmp_opp].
  - intros [i|p] [j|q] [k|r]; unfold cmp; simpl; try done; [apply cmp_lt_trans|apply qs_cmp_trans].
Qed.
End total.

(** ** Sorting *)

Definition sort_member {ID : Type} `{Ord ID} (m : MemberWrapper ID) : MemberWrapper ID :=
  match m with
  | Some (InnerSet qs) => Some (InnerSet (qs_sort qs))
  | _ => m
  end.

Section sorting.
Context {ID : Type} `{TotalOrd ID}.
Implicit Types p q : QuorumSet ID.
Implicit Types ms : list (MemberWrapper ID).

Lemma qs_sort_unfold t ms : qs_sort (QSet t ms) = QSet t (sort (sort_member <$> ms)).
Proof. done. Qed.

(** Sorting is idempotent: the clone compared and hashed is canonical. *)
Lemma qs_sort_idemp q : qs_sort (qs_sort q) = qs_sort q.
Proof.
  induction q as [t ms IH] using QuorumSet_nested_ind.
  rewrite qs_sort_unfold, qs_sort_unfold. f_equal.
  transitivity (sort (sort (sort_member <$> ms))); [|apply sort_idemp].
  f_equal. apply list_eq_Forall2, Forall2_fmap_l, Forall_Forall2_diag.
  eapply Permutation_Forall; [symmetry; apply sort_perm|].
  apply Forall_fmap. eapply Forall_impl; [exact IH|].
  intros [[i|q]|]; simpl; [done| |done]. by intros ->.
Qed.

Lemma qs_sort_threshold q : threshold (qs_sort q) = threshold q.
Proof. by destruct q. Qed.

Lemma members_qs_sort q : members (qs_sort q) ≡ₚ sort_member <$> members q.
Proof. destruct q as [t ms]. simpl. apply sort_perm. Qed.

Lemma len_members_sort q : len (members (qs_sort q)) = len (members q).
Proof. unfold len. rewrite (members_qs_sort q). by rewrite length_fmap. Qed.

(** Sorting keeps validity. *)
Lemma is_valid_sort q : is_valid (qs_sort q) = is_valid q.
Proof.
  induction q as [t ms IH] using QuorumSet_nested_ind.
  pose proof (len_members_sort (QSet t ms)) as Hlen.
  rewrite qs_sort_unfold in *. simpl in Hlen |- *. rewrite Hlen. clear Hlen. f_equal.
  apply eq_true_iff_eq. rewrite !forallb_Forall.
  rewrite (sort_perm (sort_member <$> ms)), Forall_fmap.
  induction IH as [|m ms Hm _ IHms]; [by rewrite !Forall_nil|].
  rewrite !Forall_cons, IHms.
  apply and_iff_compat_r. destruct m as [[i|q]|]; simpl in *; try done. by rewrite Hm.
Qed.
End sorting.

(** ** The sorted clone keeps what a quorum set means *)

Section sort_meaning.
Context {ID : Type} `{Countable ID} `{!Ord ID, !TotalOrd ID}.
Implicit Types p q : QuorumSet ID.

Lemma elem_of_nodes_with f ms x :
  x ∈ nodes_with f ms ↔
    Exists (λ m : MemberWrapper ID,
      match m with Some (Node id) => x = id | Some (InnerSet q) => x ∈ f q | None => False end) ms.
Proof.
  induction ms as [|[[i|q]|] ms IH]; simpl; rewrite ?Exists_nil, ?Exists_cons; set_solver.
Qed.

Lemma nodes_sort q : nodes (qs_sort q) = nodes q.
Proof.
  induction q as [t ms IH] using QuorumSet_nested_ind. rewrite qs_sort_unfold.
  apply set_eq. intros x. simpl. rewrite !elem_of_nodes_with.
  rewrite (sort_perm (sort_member <$> ms)), Exists_fmap.
  induction IH as [|m ms Hm _ IHms]; [by rewrite !Exists_nil|].
  rewrite !Exists_cons, IHms. apply or_iff_compat_r.
  destruct m as [[i|q]|]; simpl in *; try done. by rewrite Hm.
Qed.

Lemma is_slice_sort U q : is_slice U (qs_sort q) = is_slice U q.
Proof.
  induction q as [t ms IH] using QuorumSet_nested_ind. rewrite qs_sort_unfold.
  rewrite !is_slice_unfold. f_equal.
  rewrite (countb_perm _ _ _ (sort_perm (sort_member <$> ms))).
  induction IH as [|m ms Hm _ IHms]; [done|]. rewrite fmap_cons. cbn [countb].
  rewrite IHms. f_equal.
  destruct m as [[i|q]|]; simpl in *; try done. by rewrite Hm.
Qed.

Lemma qs_depth_sort q : qs_depth (qs_sort q) = qs_depth q.
Proof.
  induction q as [t ms IH] using QuorumSet_nested_ind. rewrite qs_sort_unfold. simpl. f_equal.
  assert (Hp : ∀ l1 l2 : list (MemberWrapper ID), l1 ≡ₚ l2 →
    depth_with qs_depth l1 = depth_with qs_depth l2).
  { induction 1 as [|[[i|q]|] l1 l2 _ IHp|[[i|q]|] [[j|r]|] l|]; simpl; lia. }
  rewrite (Hp _ _ (sort_perm (sort_member <$> ms))).
  induction IH as [|m ms Hm _ IHms]; [done|]. rewrite fmap_cons.
  destruct m as [[i|q]|]; cbn [depth_with sort_member] in *; rewrite ?IHms; try done.
  simpl in Hm. by rewrite Hm.
Qed.

(** *** Equality *)

Lemma list_eqb_spec {A} (f : A → A → bool) l1 :
  Forall (λ x, ∀ y, f x y = true ↔ x = y) l1 → ∀ l2, list_eqb f l1 l2 = true ↔ l1 = l2.
Proof.
  induction 1 as [|x l1 Hx _ IH]; intros [|y l2]; simpl; try done.
  rewrite andb_true_iff, Hx, IH. naive_solver.
Qed.

Lemma depth_member_lt (ms : list (MemberWrapper ID)) q :
  Some (InnerSet q) ∈ ms → (qs_depth q <= depth_with qs_depth ms)%nat.
Proof.
  induction ms as [|m ms IH]; simpl; [by rewrite elem_of_nil|].
  rewrite elem_of_cons. intros [<-|Hin]; [lia|].
  specialize (IH Hin). destruct m as [[i|p]|]; lia.
Qed.

(** The inner sets of a sorted set are themselves sorted. *)
Lemma inner_of_sorted q r : Some (InnerSet r) ∈ members (qs_sort q) → qs_sort r = r.
Proof.
  rewrite members_qs_sort. intros ([[i|p]|] & Hr & Hin)%list_elem_of_fmap; simplify_eq/=.
  apply qs_sort_idemp.
Qed.

(** On members of sorted sets, the comparison function of the code is
    equality, as soon as it is on their inner sets. *)
Lemma member_eqb_spec (f : QuorumSet ID → QuorumSet ID → bool) (x y : MemberWrapper ID) :
  (∀ p q, x = Some (InnerSet p) → y = Some (InnerSet q) → f p q = true ↔ p = q) →
  member_eqb f x y = true ↔ x = y.
Proof.
  destruct x as [[i|p]|], y as [[j|q]|]; simpl; try done.
  - rewrite bool_decide_eq_true. naive_solver.
  - intros Hf. rewrite Hf by done. naive_solver.
Qed.

Lemma list_eqb_members_spec (f : QuorumSet ID → QuorumSet ID → bool)
    (l1 l2 : list (MemberWrapper ID)) :
  (∀ p q, Some (InnerSet p) ∈ l1 → Some (InnerSet q) ∈ l2 → f p q = true ↔ p = q) →
  list_eqb (member_eqb f) l1 l2 = true ↔ l1 = l2.
Proof.
  revert l2. induction l1 as [|x l1 IH]; intros [|y l2] Hf; simpl; try done.
  rewrite andb_true_iff, IH, member_eqb_spec; [naive_solver| |].
  - intros p q -> ->. apply Hf; by left.
  - intros p q Hp Hq. apply Hf; by right.
Qed.

Lemma qs_eq_fuel_spec n p q :
  (qs_depth p <= n)%nat → qs_eq_fuel n p q = true ↔ qs_sort p = qs_sort q.
Proof.
  revert p q. induction n as [|n IH]; intros p q Hn; [by destruct p; simpl in Hn; lia|].
  assert (Hms : list_eqb (member_eqb (qs_eq_fuel n)) (members (qs_sort p)) (members (qs_sort q))
                = true ↔ members (qs_sort p) = members (qs_sort q)).
  { apply list_eqb_members_spec. intros r s Hr Hs. rewrite IH.
    - by rewrite (inner_of_sorted _ _ Hr), (inner_of_sorted _ _ Hs).
    - apply depth_member_lt in Hr. rewrite <-qs_depth_sort in Hn.
      destruct (qs_sort p); simpl in *. lia. }
  simpl. destruct ((threshold p =? threshold q) && (len (members p) =? len (members q))) eqn:E.
  - rewrite Hms. apply andb_true_iff in E as [Ht%N.eqb_eq _].
    rewrite <-(qs_sort_threshold p), <-(qs_sort_threshold q) in Ht.
    clear Hms. destruct (qs_sort p) as [t1 m1], (qs_sort q) as [t2 m2]; simpl in *.
    split; [by intros ->; rewrite Ht|by intros [= _ ->]].
  - split; [done|]. intros Heq. exfalso. rewrite <-(qs_sort_threshold p), <-(qs_sort_threshold q),
      <-(len_members_sort p), <-(len_members_sort q), Heq, !N.eqb_refl in E. done.
Qed.

(** [PartialEq::eq] decides equality of the sorted clones. *)
Lemma qs_eq_spec p q : qs_eq p q = true ↔ qs_sort p = qs_sort q.
Proof. by apply qs_eq_fuel_spec. Qed.

(** Equal quorum sets have the same slices: equality never identifies quorum
    sets that differ in what they require. *)
Lemma qs_eq_is_slice p q U : qs_eq p q = true → is_slice U p = is_slice U q.
Proof. intros Heq%qs_eq_spec. by rewrite <-is_slice_sort, Heq, is_slice_sort. Qed.
End sort_meaning.

(** ** Specification of equality: reordering at every level *)

(** [q] is [p] with the members of the set, and recursively of its inner sets,
    listed in another order. *)
Inductive qs_reorder {ID : Type} : QuorumSet ID → QuorumSet ID → Prop :=
| qs_reorder_intro t ms ms' ms'' :
    Forall2 member_reorder ms ms' → ms' ≡ₚ ms'' → qs_reorder (QSet t ms) (QSet t ms'')
with member_reorder {ID : Type} : MemberWrapper ID → MemberWrapper ID → Prop :=
| member_reorder_none : member_reorder None None
| member_reorder_node i : member_reorder (Some (Node i)) (Some (Node i))
| member_reorder_inner p q :
    qs_reorder p q → member_reorder (Some (InnerSet p)) (Some (InnerSet q)).

Section reorder.
Context {ID : Type} `{Countable ID} `{!Ord ID, !TotalOrd ID}.
Implicit Types p q : QuorumSet ID.

Lemma qs_reorder_sort p : ∀ q, qs_reorder p q → qs_sort p = qs_sort q.
Proof.
  induction p as [t ms IH] using QuorumSet_nested_ind. intros q Hpq.
  inversion Hpq as [? ? ms' ms'' Hms Hp]; subst. rewrite !qs_sort_unfold. f_equal.
  apply sort_perm_eq. rewrite <-Hp. clear Hp Hpq.
  replace (sort_member <$> ms') with (sort_member <$> ms); [done|].
  induction Hms as [|m m' ms ms' Hm Hms IHms]; [done|].
  inversion IH as [|? ? IHm IH']; subst. rewrite !fmap_cons, (IHms IH'). f_equal.
  inversion Hm; subst; simpl; try done. by rewrite (IHm _ H0).
Qed.

Lemma qs_sort_reorder p : ∀ q, qs_sort p = qs_sort q → qs_reorder p q.
Proof.
  induction p as [t ms IH] using QuorumSet_nested_ind. intros [t2 ms2].
  rewrite !qs_sort_unfold. intros [= -> Hp%sort_eq_iff].
  apply Permutation_map_inv in Hp as (ms' & Hms & Hp).
  econstructor; [|symmetry; exact Hp]. clear Hp. revert ms' Hms.
  induction IH as [|m ms Hm _ IHms]; intros [|m' ms'] Hms; try done. simpl in Hms.
  injection Hms as Hm' Hms. constructor; [|by apply IHms].
  destruct m as [[i|p]|], m' as [[j|q]|]; simplify_eq/=; constructor. by apply Hm.
Qed.

(** *** Hashing *)

Lemma qs_hash_fuel_sort {St} `{!Hasher ID St} n q (st : St) :
  qs_hash_fuel n (qs_sort q) st = qs_hash_fuel n q st.
Proof. destruct n; [done|]. simpl. by rewrite qs_sort_idemp. Qed.

Lemma qs_hash_canonical {St} `{!Hasher ID St} p q (st : St) :
  qs_sort p = qs_sort q → qs_hash p st = qs_hash q st.
Proof.
  intros Heq. unfold qs_hash.
  rewrite <-(qs_depth_sort p), <-(qs_depth_sort q), Heq.
  rewrite <-(qs_hash_fuel_sort _ p), <-(qs_hash_fuel_sort _ q). by rewrite Heq.
Qed.
End reorder.

(** ** Slices *)

Section slices.
Context {ID : Type} `{Countable ID}.
Implicit Types (U W : gset ID) (q : QuorumSet ID).

Lemma is_slice_mono U W q : U ⊆ W → is_slice U q = true → is_slice W q = true.
Proof.
  intros HUW. induction q as [t ms IH] using QuorumSet_nested_ind.
  rewrite !is_slice_unfold, !N.leb_le. intros Ht.
  etransitivity; [exact Ht|]. apply countb_mono.
  eapply Forall_impl; [exact IH|]. intros [[i|q]|]; simpl; auto.
  rewrite !bool_decide_eq_true. set_solver.
Qed.

Lemma member_sat_mono U W (m : MemberWrapper ID) :
  U ⊆ W → member_sat U m = true → member_sat W m = true.
Proof.
  intros HUW. destruct m as [[i|q]|]; simpl; [|by apply is_slice_mono|done].
  rewrite !bool_decide_eq_true. set_solver.
Qed.

Lemma count_sat_mono U W (ms : list (MemberWrapper ID)) :
  U ⊆ W → countb (member_sat U) ms <= countb (member_sat W) ms.
Proof. intros. apply countb_mono, Forall_true. intros m. by apply member_sat_mono. Qed.

(** Only the nodes of the quorum set matter. *)
Lemma is_slice_nodes U q : is_slice (U ∩ nodes q) q = is_slice U q.
Proof.
  assert (Hgen : ∀ q (W : gset ID), nodes q ⊆ W → is_slice (U ∩ W) q = is_slice U q).
  { clear q. induction q as [t ms IH] using QuorumSet_nested_ind. intros W HW.
    rewrite !is_slice_unfold. f_equal. apply countb_ext. simpl in HW.
    induction IH as [|m ms Hm _ IHms]; constructor.
    - destruct m as [[i|q]|]; simpl in *; [|apply Hm; set_solver|done].
      apply bool_decide_ext. set_solver.
    - apply IHms. destruct m as [[i|q]|]; simpl in *; set_solver. }
  by apply Hgen.
Qed.
End slices.

#[export] Hint Resolve is_slice_mono member_sat_mono : rust.

(** ** The weight of a node *)

Section weight_facts.
Context {ID : Type} `{Countable ID}.
Implicit Types q : QuorumSet ID.

(** The largest product of member counts along a path of the nesting. *)
Section span_with.
Context (f : QuorumSet ID → N).
Fixpoint span_with (ms : list (MemberWrapper ID)) : N :=
  match ms with
  | [] => 1
  | Some (InnerSet q) :: ms => N.max (f q) (span_with ms)
  | _ :: ms => span_with ms
  end.
End span_with.
Fixpoint qs_span (q : QuorumSet ID) : N :=
  match q with QSet _ ms => N.max 1 (len ms) * span_with qs_span ms end.

Lemma weight_loop (f : QuorumSet ID → N * N) node_id t n (ms : list (MemberWrapper ID)) :
  t <= n → 0 < n → n * span_with qs_span ms < u32_modulus →
  Forall (member_inner (λ q, let '(a, b) := f q in a <= b ∧ 0 < b ∧ b <= qs_span q)) ms →
  let '(a, b) := weight_with f node_id t n ms in
  a <= b ∧ 0 < b ∧ b <= n * span_with qs_span ms.
Proof.
  intros Htn Hn Hspan Hf.
  assert (Hpos : ∀ l : list (MemberWrapper ID), 1 <= span_with qs_span l).
  { induction l as [|[[i|p]|] l IH]; simpl; lia. }
  induction Hf as [|m ms Hm Hf IH]; [simpl; lia|].
  destruct m as [[i|q]|]; simpl in *; [|destruct (f q) as [a b]|by apply IH].
  - case_bool_decide; [|by apply IH]. rewrite as_u32_small by (specialize (Hpos ms); nia).
    specialize (Hpos ms). nia.
  - assert (Hle : n * qs_span q <= n * N.max (qs_span q) (span_with qs_span ms)) by nia.
    assert (Hle2 : n * span_with qs_span ms <= n * N.max (qs_span q) (span_with qs_span ms)) by nia.
    destruct Hm as (Hab & Hb & Hspanq). destruct (N.ltb_spec 0 a).
    + unfold u32_mul. rewrite as_u32_small by nia. rewrite !N.mod_small by nia. nia.
    + specialize (IH ltac:(lia)). destruct (weight_with f node_id t n ms). lia.
Qed.

Lemma weight_fraction q node_id :
  is_valid q = true → qs_span q < u32_modulus →
  let '(num, denom) := weight q node_id in num <= denom ∧ 0 < denom ∧ denom <= qs_span q.
Proof.
  revert node_id. induction q as [t ms IH] using QuorumSet_nested_ind. intros node_id.
  cbn [is_valid weight qs_span]. rewrite andb_true_iff, N.leb_le, forallb_Forall.
  intros [Ht Hval] Hspan. destruct ms as [|m ms']; [simpl; lia|].
  remember (m :: ms') as ms eqn:Hms.
  assert (Hlen : 0 < len ms) by (subst; rewrite len_cons; lia). clear Hms m ms'.
  replace (N.max 1 (len ms)) with (len ms) in * by lia.
  apply weight_loop; auto.
  assert (Hsub : ∀ q, Some (InnerSet q) ∈ ms → qs_span q <= span_with qs_span ms).
  { clear. intros q. induction ms as [|m ms IH]; [by rewrite elem_of_nil|].
    rewrite elem_of_cons. intros [<-|Hin]; simpl; [lia|].
    specialize (IH Hin). destruct m as [[i|p]|]; simpl; lia. }
  rewrite List.Forall_forall in IH, Hval |- *. intros [[i|q]|] Hin; simpl; try done.
  apply (IH _ Hin); [apply (Hval _ Hin)|].
  apply list_elem_of_In, Hsub in Hin. nia.
Qed.

(** A node outside the quorum set has weight zero. *)
Lemma weight_outside q node_id : node_id ∉ nodes q → weight q node_id = (0, 1).
Proof.
  induction q as [t ms IH] using QuorumSet_nested_ind. simpl. generalize (len ms) as n.
  intros n Hn. induction IH as [|m ms Hm _ IHms]; [done|].
  destruct m as [[i|q]|]; simpl in *; [| |by apply IHms].
  - rewrite bool_decide_eq_false_2 by set_solver. apply IHms. set_solver.
  - rewrite Hm by set_solver. apply IHms. set_solver.
Qed.
End weight_facts.

(** ** Properties *)

Module QuorumSetProps.
Section props.
Context {ID : Type} `{Countable ID} `{!Ord ID, !TotalOrd ID}.
Implicit Types p q : QuorumSet ID.

(** [PartialEq] for quorum sets holds exactly of quorum sets that are
    reorderings of each other at every level of nesting; no quorum sets with a
    different threshold, node or inner set are identified. *)
Theorem quorum_set_eq_iff_reorder p q : qs_eq p q = true ↔ qs_reorder p q.
Proof. rewrite qs_eq_spec. split; [apply qs_sort_reorder|apply qs_reorder_sort]. Qed.

(** Quorum sets that are equal hash equally for every hasher (the
    contract between [Eq] and [Hash]), are valid together, name the same nodes
    and accept the same node sets. *)
Theorem quorum_set_eq_congruence {St} `{!Hasher ID St} p q (st : St) U :
  qs_eq p q = true →
  qs_hash p st = qs_hash q st ∧ is_valid p = is_valid q ∧
  nodes p = nodes q ∧ is_slice U p = is_slice U q.
Proof.
  intros Heq%qs_eq_spec. split_and!.
  - by apply qs_hash_canonical.
  - by rewrite <-is_valid_sort, Heq, is_valid_sort.
  - by rewrite <-nodes_sort, Heq, nodes_sort.
  - by rewrite <-is_slice_sort, Heq, is_slice_sort.
Qed.

(** The weight of a node in a valid quorum set, when the product of the
    member counts along a nesting path fits in 32 bits, is a fraction between 0
    and 1 with a non-zero denominator; a node outside the set has weight 0. *)
Theorem weight_is_fraction q node_id num denom :
  is_valid q = true → qs_span q < u32_modulus → weight q node_id = (num, denom) →
  num <= denom ∧ 0 < denom < u32_modulus ∧ (node_id ∉ nodes q → num = 0).
Proof.
  intros Hv Hs Hw. pose proof (weight_fraction q node_id Hv Hs) as Hf. rewrite Hw in Hf.
  split_and!; [lia..|]. intros Hn%weight_outside. congruence.
Qed.
End props.

(** A three-level example over numeric node ids. *)
Definition ex_qs : QuorumSet N :=
  Ctor.new 2 [Node 1; InnerSet (Ctor.new_with_node_ids 2 [3; 4; 2]); Node 7].
Definition ex_qs_reordered : QuorumSet N :=
  Ctor.new 2 [Node 7; Node 1; InnerSet (Ctor.new_with_node_ids 2 [2; 3; 4])].

#[local] Instance N_hasher : Hasher N (list N) := {|
  write_u32 := λ n st, n :: st;
  write_length := λ n st, n :: st;
  write_discriminant := λ n st, n :: st;
  write_id := λ n st, n :: st
|}.

Lemma quorum_set_eq_congruence_witness :
  qs_eq ex_qs ex_qs_reordered = true ∧
  qs_hash ex_qs [] = qs_hash ex_qs_reordered [] ∧ is_valid ex_qs = is_valid ex_qs_reordered ∧
  nodes ex_qs = nodes ex_qs_reordered ∧
  is_slice {[ 1; 7 ]} ex_qs = is_slice {[ 1; 7 ]} ex_qs_reordered.
Proof.
  split; [by vm_compute|].
  apply (quorum_set_eq_congruence ex_qs ex_qs_reordered []). by vm_compute.
Defined.

Lemma quorum_set_eq_iff_reorder_witness : qs_reorder ex_qs ex_qs_reordered.
Proof. apply (quorum_set_eq_iff_reorder ex_qs ex_qs_reordered). by vm_compute. Defined.

Lemma weight_is_fraction_witness :
  weight ex_qs 3 = (4, 9) ∧ 4 <= 9 ∧ 0 < 9 < u32_modulus ∧ (3 ∉ nodes ex_qs → 4 = 0).
Proof.
  split; [by vm_compute|].
  apply (weight_is_fraction ex_qs 3 4 9); by vm_compute.
Defined.
End QuorumSetProps.
