(* ===== verification/ScpMsg.v ===== *)
(** * Ballots and SCP messages

    The model of [consensus/scp/src/ballot.rs] and [consensus/scp/src/msg.rs]:
    ballots and their order, the payloads of the five message topics with the
    order that decides which message of a node is the newest, the structural
    validation of messages, and the statements (vote, accept) a message conveys. *)

From S2P Require Import Prelude Ord QuorumSet.

Local Open Scope N_scope.

(** The highest possible ballot counter. *)
Definition INFINITY : N := u32_max.

(** ** Ballots *)

Record Ballot (V : Type) : Type := mkBallot {
  bal_N : N;
  bal_X : list V
}.
Arguments mkBallot {V} _ _.
Arguments bal_N {V} _.
Arguments bal_X {V} _.

#[export] Instance Ballot_eq_dec `{EqDecision V} : EqDecision (Ballot V).
Proof. solve_decision. Defined.

#[export] Program Instance Ballot_countable `{Countable V} : Countable (Ballot V) :=
  inj_countable' (λ b, (bal_N b, bal_X b)) (λ p, mkBallot p.1 p.2) _.
Next Obligation. by intros V ? ? []. Qed.

(** [Ballot::new]. *)
Definition Ballot_new {V} (counter : N) (values : list V) : Ballot V := mkBallot counter values.

(** [Ballot::is_zero]. *)
Definition is_zero {V} (b : Ballot V) : bool :=
  (bal_N b =? 0) && match bal_X b with [] => true | _ => false end.

(** [Ord for Ballot]: the counter is more significant than the values. *)
#[export] Instance Ballot_ord `{Ord V} : Ord (Ballot V) := λ a b,
  if negb (bal_N a =? bal_N b) then cmp (bal_N a) (bal_N b) else cmp (bal_X a) (bal_X b).

Lemma Ballot_cmp_lex `{Ord V} (a b : Ballot V) :
  cmp a b = cmp_then (bal_N a ?= bal_N b) (cmp (bal_X a) (bal_X b)).
Proof.
  unfold cmp at 1, Ballot_ord. destruct (N.eqb_spec (bal_N a) (bal_N b)) as [->|Hne]; simpl.
  - by rewrite N.compare_refl.
  - unfold cmp, N_ord. destruct (N.compare_spec (bal_N a) (bal_N b)); done.
Qed.

#[export] Instance Ballot_total_ord `{TotalOrd V} : TotalOrd (Ballot V).
Proof.
  assert (Hlex : ∀ a b : Ballot V, cmp a b = cmp (bal_N a, bal_X a) (bal_N b, bal_X b)).
  { intros. rewrite Ballot_cmp_lex. done. }
  split.
  - intros [n x] [m y]. rewrite Hlex, cmp_eq_iff. naive_solver.
  - intros a b. rewrite !Hlex. apply cmp_opp.
  - intros a b c. rewrite !Hlex. apply cmp_lt_trans.
Qed.

Lemma Ballot_le_counter `{TotalOrd V} (a b : Ballot V) : ord_le a b → bal_N a <= bal_N b.
Proof.
  unfold ord_le. rewrite Ballot_cmp_lex.
  destruct (N.compare_spec (bal_N a) (bal_N b)); simpl; naive_solver lia.
Qed.

Lemma Ballot_lt_counter `{TotalOrd V} (a b : Ballot V) : bal_N a < bal_N b → ord_lt a b.
Proof. intros Hlt. unfold ord_lt. rewrite Ballot_cmp_lex. by rewrite (proj2 (N.compare_lt_iff _ _)). Qed.

Lemma Ballot_le_same `{TotalOrd V} (a b : Ballot V) :
  bal_X a = bal_X b → ord_le a b ↔ bal_N a <= bal_N b.
Proof.
  intros HX. unfold ord_le. rewrite Ballot_cmp_lex, HX, cmp_refl.
  destruct (N.compare_spec (bal_N a) (bal_N b)); simpl; naive_solver lia.
Qed.

(** ** Payloads *)

Section payloads.
Context {V : Type} `{Countable V} `{!Ord V}.

(** The voted and the accepted values ([BTreeSet]s). *)
Record NominatePayload : Type := mkNominate {
  nom_X : gset V;
  nom_Y : gset V
}.

#[export] Instance NominatePayload_eq_dec : EqDecision NominatePayload.
Proof. solve_decision. Defined.

(** [NominatePayload::new]. *)
Definition NominatePayload_new (x y : gset V) : NominatePayload := mkNominate x y.

#[export] Instance NominatePayload_ord : Ord NominatePayload := λ a b,
  if negb (bool_decide (size (nom_Y a) = size (nom_Y b)))
  then N.compare (N.of_nat (size (nom_Y a))) (N.of_nat (size (nom_Y b)))
  else if negb (bool_decide (nom_Y a = nom_Y b)) then cmp (nom_Y a) (nom_Y b)
  else if negb (bool_decide (size (nom_X a) = size (nom_X b)))
  then N.compare (N.of_nat (size (nom_X a))) (N.of_nat (size (nom_X b)))
  else if negb (bool_decide (nom_X a = nom_X b)) then cmp (nom_X a) (nom_X b)
  else Eq.

Record PreparePayload : Type := mkPrepare {
  prep_B : Ballot V;
  prep_P : option (Ballot V);
  prep_PP : option (Ballot V);
  prep_CN : N;
  prep_HN : N
}.

#[export] Instance PreparePayload_eq_dec : EqDecision PreparePayload.
Proof. solve_decision. Defined.

(** (b, p, p', h); the counter [CN] is not compared. *)
#[export] Instance PreparePayload_ord : Ord PreparePayload := λ a b,
  if negb (bool_decide (prep_B a = prep_B b)) then cmp (prep_B a) (prep_B b)
  else if negb (bool_decide (prep_P a = prep_P b)) then cmp (prep_P a) (prep_P b)
  else if negb (bool_decide (prep_PP a = prep_PP b)) then cmp (prep_PP a) (prep_PP b)
  else cmp (prep_HN a) (prep_HN b).

Record CommitPayload : Type := mkCommit {
  com_B : Ballot V;
  com_PN : N;
  com_CN : N;
  com_HN : N
}.

#[export] Instance CommitPayload_eq_dec : EqDecision CommitPayload.
Proof. solve_decision. Defined.

#[export] Instance CommitPayload_ord : Ord CommitPayload := λ a b,
  if negb (bool_decide (com_B a = com_B b)) then cmp (com_B a) (com_B b)
  else if negb (com_PN a =? com_PN b) then cmp (com_PN a) (com_PN b)
  else cmp (com_HN a) (com_HN b).

Record ExternalizePayload : Type := mkExternalize {
  ext_C : Ballot V;
  ext_HN : N
}.

#[export] Instance ExternalizePayload_eq_dec : EqDecision ExternalizePayload.
Proof. solve_decision. Defined.

#[export] Instance ExternalizePayload_ord : Ord ExternalizePayload := λ a b,
  cmp (ext_HN a) (ext_HN b).

(** ** Topics *)

Inductive Topic : Type :=
| Nominate (payload : NominatePayload)
| NominatePrepare (nominate_payload : NominatePayload) (prepare_payload : PreparePayload)
| Prepare (payload : PreparePayload)
| Commit (payload : CommitPayload)
| Externalize (payload : ExternalizePayload).

#[export] Instance Topic_eq_dec : EqDecision Topic.
Proof. solve_decision. Defined.

#[export] Instance Topic_ord : Ord Topic := λ a b,
  match a with
  | Nominate payload =>
      match b with
      | Nominate other_payload => cmp payload other_payload
      | _ => Lt
      end
  | NominatePrepare nominate_payload prepare_payload =>
      match b with
      | Nominate _ => Gt
      | NominatePrepare other_nominate_payload other_prepare_payload =>
          if negb (bool_decide (prepare_payload = other_prepare_payload))
          then cmp prepare_payload other_prepare_payload
          else cmp nominate_payload other_nominate_payload
      | _ => Lt
      end
  | Prepare payload =>
      match b with
      | Nominate _ | NominatePrepare _ _ => Gt
      | Prepare other_payload => cmp payload other_payload
      | _ => Lt
      end
  | Commit payload =>
      match b with
      | Nominate _ | NominatePrepare _ _ | Prepare _ => Gt
      | Commit other_payload => cmp payload other_payload
      | _ => Lt
      end
  | Externalize payload =>
      match b with
      | Externalize other_payload => cmp payload other_payload
      | _ => Gt
      end
  end.
End payloads.

Arguments NominatePayload V {_ _} : assert.
Arguments PreparePayload V : assert, clear implicits.
Arguments CommitPayload V : assert, clear implicits.
Arguments ExternalizePayload V : assert, clear implicits.
Arguments Topic V {_ _} : assert.

(** ** Messages *)

Record Msg (V ID : Type) `{Countable V} : Type := mkMsg {
  sender_id : ID;
  msg_slot_index : N;
  msg_quorum_set : QuorumSet ID;
  topic : Topic V
}.
Arguments mkMsg {V ID _ _} _ _ _ _.
Arguments sender_id {V ID _ _} _.
Arguments msg_slot_index {V ID _ _} _.
Arguments msg_quorum_set {V ID _ _} _.
Arguments topic {V ID _ _} _.

(** The reasons for which [Msg::validate] rejects a message. *)
Inductive MsgError : Type :=
| InvalidQuorumSet
| X_intersects_Y
| B_lt_P
| PP_ge_P
| CN_gt_HN
| HN_gt_BN.

Section msg.
Context {V ID : Type} `{Countable V} `{!Ord V} `{Countable ID} `{!Ord ID}.
Implicit Types m : Msg V ID.

(** [Msg::new]. *)
Definition Msg_new (sender : ID) (qs : QuorumSet ID) (slot_index : N) (t : Topic V) : Msg V ID :=
  mkMsg sender slot_index qs t.

(** The derived [PartialEq]; quorum sets are compared by their own [eq]. *)
Definition msg_eqb (a b : Msg V ID) : bool :=
  bool_decide (sender_id a = sender_id b) && (msg_slot_index a =? msg_slot_index b) &&
  qs_eq (msg_quorum_set a) (msg_quorum_set b) && bool_decide (topic a = topic b).

Definition validate_nominate (payload : NominatePayload V) : result unit MsgError :=
  if bool_decide (nom_X payload ∩ nom_Y payload ≠ ∅) then Err X_intersects_Y else Ok tt.

Definition validate_prepare (payload : PreparePayload V) : result unit MsgError :=
  let? _ := (match prep_P payload with
             | None => Ok tt
             | Some P =>
                 if ord_ltb (prep_B payload) P then Err B_lt_P
                 else match prep_PP payload with
                      | None => Ok tt
                      | Some PP => if ord_geb PP P then Err PP_ge_P else Ok tt
                      end
             end) in
  if prep_HN payload <? prep_CN payload then Err CN_gt_HN
  else if bal_N (prep_B payload) <? prep_HN payload then Err HN_gt_BN
  else Ok tt.

(** [Msg::validate]. *)
Definition validate m : result unit MsgError :=
  if negb (is_valid (msg_quorum_set m)) then Err InvalidQuorumSet
  else match topic m with
       | Nominate payload => validate_nominate payload
       | NominatePrepare nominate_payload prepare_payload =>
           let? _ := validate_nominate nominate_payload in validate_prepare prepare_payload
       | Prepare payload => validate_prepare payload
       | Commit payload => if com_HN payload <? com_CN payload then Err CN_gt_HN else Ok tt
       | Externalize _ => Ok tt
       end.

(** [Msg::bN]: the ballot counter used to see whether this node is behind. *)
Definition bN m : N :=
  match topic m with
  | Nominate _ => 0
  | NominatePrepare _ payload => bal_N (prep_B payload)
  | Prepare payload => bal_N (prep_B payload)
  | Commit payload => bal_N (com_B payload)
  | Externalize _ => INFINITY
  end.

Definition votes_or_accepts_nominated m : option (gset V) :=
  match topic m with
  | Nominate payload | NominatePrepare payload _ => Some (nom_X payload ∪ nom_Y payload)
  | _ => None
  end.

Definition accepts_nominated m : option (gset V) :=
  match topic m with
  | Nominate payload | NominatePrepare payload _ => Some (nom_Y payload)
  | _ => None
  end.

(** [P] and, when there is one, [PP]. *)
Definition prepared_ballots (payload : PreparePayload V) : gset (Ballot V) :=
  match prep_P payload with
  | None => ∅
  | Some P => {[ P ]} ∪ match prep_PP payload with Some PP => {[ PP ]} | None => ∅ end
  end.

Definition votes_or_accepts_prepared m : gset (Ballot V) :=
  match topic m with
  | NominatePrepare _ payload | Prepare payload =>
      {[ prep_B payload ]} ∪ prepared_ballots payload
  | Commit payload => {[ Ballot_new INFINITY (bal_X (com_B payload)) ]}
  | Externalize payload => {[ Ballot_new INFINITY (bal_X (ext_C payload)) ]}
  | Nominate _ => ∅
  end.

Definition accepts_prepared m : gset (Ballot V) :=
  match topic m with
  | NominatePrepare _ payload | Prepare payload => prepared_ballots payload
  | Commit payload => {[ Ballot_new (com_PN payload) (bal_X (com_B payload)) ]}
  | Externalize payload => {[ Ballot_new INFINITY (bal_X (ext_C payload)) ]}
  | Nominate _ => ∅
  end.

(** The closure at the end of [votes_or_accepts_commits] and
    [accepts_commits]: the overlap of a range with [[min, max]]. *)
Definition range_overlap (range : option (N * N)) (min max : N) : exec (option (N * N)) :=
  match range with
  | None => Done None
  | Some (a, b) =>
      if (a <=? max) && (min <=? b)
      then let intersection := (N.max a min, N.min b max) in
           assert! (intersection.1 <=? intersection.2) in Done (Some intersection)
      else Done None
  end.

(** [Msg::votes_or_accepts_commits]. *)
Definition votes_or_accepts_commits m (value : list V) (min max : N) : exec (option (N * N)) :=
  assert! (min <=? max) in
  range_overlap
    (match topic m with
     | NominatePrepare _ payload | Prepare payload =>
         if bool_decide (bal_X (prep_B payload) = value) && negb (prep_CN payload =? 0)
         then Some (prep_CN payload, prep_HN payload) else None
     | Commit payload =>
         if bool_decide (bal_X (com_B payload) = value) then Some (com_CN payload, INFINITY) else None
     | Externalize payload =>
         if bool_decide (bal_X (ext_C payload) = value)
         then Some (bal_N (ext_C payload), INFINITY) else None
     | Nominate _ => None
     end) min max.

(** [Msg::accepts_commits]. *)
Definition accepts_commits m (value : list V) (min max : N) : exec (option (N * N)) :=
  assert! (min <=? max) in
  range_overlap
    (match topic m with
     | Commit payload =>
         if bool_decide (bal_X (com_B payload) = value)
         then Some (com_CN payload, com_HN payload) else None
     | Externalize payload =>
         if bool_decide (bal_X (ext_C payload) = value)
         then Some (bal_N (ext_C payload), INFINITY) else None
     | _ => None
     end) min max.

Definition opt_values (b : option (Ballot V)) : gset V :=
  match b with Some b => list_to_set (bal_X b) | None => ∅ end.

(** [Msg::values]: all the values a message refers to. *)
Definition msg_values m : gset V :=
  match topic m with
  | Nominate payload => nom_X payload ∪ nom_Y payload
  | NominatePrepare nominate_payload prepare_payload =>
      nom_X nominate_payload ∪ nom_Y nominate_payload ∪
      list_to_set (bal_X (prep_B prepare_payload)) ∪
      opt_values (prep_P prepare_payload) ∪ opt_values (prep_PP prepare_payload)
  | Prepare payload =>
      list_to_set (bal_X (prep_B payload)) ∪
      opt_values (prep_P payload) ∪ opt_values (prep_PP payload)
  | Commit payload => list_to_set (bal_X (com_B payload))
  | Externalize payload => list_to_set (bal_X (ext_C payload))
  end.
End msg.

(** ** Which statements imply which *)

Section msg_facts.
Context {V ID : Type} `{Countable V} `{!Ord V, !TotalOrd V} `{Countable ID} `{!Ord ID}.
Implicit Types m : Msg V ID.

(** The counters of a message are [u32]s. *)
Definition opt_ballot_u32 (b : option (Ballot V)) : Prop :=
  match b with Some b => bal_N b <= u32_max | None => True end.
Definition prepare_u32 (p : PreparePayload V) : Prop :=
  bal_N (prep_B p) <= u32_max ∧ opt_ballot_u32 (prep_P p) ∧ opt_ballot_u32 (prep_PP p) ∧
  prep_CN p <= u32_max ∧ prep_HN p <= u32_max.
Definition msg_u32 m : Prop :=
  match topic m with
  | Nominate _ => True
  | NominatePrepare _ p | Prepare p => prepare_u32 p
  | Commit p => bal_N (com_B p) <= u32_max ∧ com_PN p <= u32_max ∧
                com_CN p <= u32_max ∧ com_HN p <= u32_max
  | Externalize p => bal_N (ext_C p) <= u32_max ∧ ext_HN p <= u32_max
  end.

Lemma range_overlap_Some range min max a b :
  range_overlap range min max = Done (Some (a, b)) →
  (min <= a ∧ a <= b ∧ b <= max) ∧ ∃ lo hi, range = Some (lo, hi) ∧ lo <= a ∧ b <= hi.
Proof.
  unfold range_overlap. destruct range as [[lo hi]|]; [|done].
  destruct ((lo <=? max) && (min <=? hi)); [|done]. simpl.
  destruct (N.leb_spec (N.max lo min) (N.min hi max)); [|done].
  intros [= <- <-]. split; [lia|]. exists lo, hi. split_and!; [done|lia..].
Qed.

Lemma range_overlap_total range min max :
  min <= max → (∀ a b, range = Some (a, b) → a <= b) →
  ∃ r, range_overlap range min max = Done r.
Proof.
  intros Hmm Hab. unfold range_overlap. destruct range as [[lo hi]|]; [|by eexists].
  specialize (Hab lo hi eq_refl).
  destruct (N.leb_spec lo max), (N.leb_spec min hi); simpl; try by eexists.
  destruct (N.leb_spec (N.max lo min) (N.min hi max)); [by eexists|lia].
Qed.

(** Validated messages have well-ordered commit ranges. *)
Lemma validate_commit_range m p :
  validate m = Ok tt → topic m = Commit p → com_CN p <= com_HN p.
Proof.
  unfold validate. destruct (negb _); [done|]. intros Hv Ht. rewrite Ht in Hv.
  destruct (N.ltb_spec (com_HN p) (com_CN p)); naive_solver.
Qed.

Lemma accepts_commits_Some m value min max a b :
  accepts_commits m value min max = Done (Some (a, b)) →
  min <= a ∧ a <= b ∧ b <= max.
Proof.
  unfold accepts_commits. destruct (min <=? max); [|done].
  intros Hr. by apply range_overlap_Some in Hr as [? _].
Qed.

Lemma votes_or_accepts_commits_Some m value min max a b :
  votes_or_accepts_commits m value min max = Done (Some (a, b)) →
  min <= a ∧ a <= b ∧ b <= max.
Proof.
  unfold votes_or_accepts_commits. destruct (min <=? max); [|done].
  intros Hr. by apply range_overlap_Some in Hr as [? _].
Qed.

(** On a validated message the assertions of [accepts_commits] never fail. *)
Lemma accepts_commits_total m value min max :
  validate m = Ok tt → msg_u32 m → min <= max →
  ∃ r, accepts_commits m value min max = Done r.
Proof.
  intros Hv Hu Hmm. unfold accepts_commits. rewrite (proj2 (N.leb_le _ _) Hmm).
  apply range_overlap_total; [done|]. unfold msg_u32 in Hu.
  destruct (topic m) as [p|p p'|p|p|p] eqn:Et; try done; case_bool_decide; try done.
  - intros ? ? [= <- <-]. by apply (validate_commit_range m).
  - intros ? ? [= <- <-]. unfold INFINITY. lia.
Qed.

Lemma validate_prepare_range (p : PreparePayload V) :
  validate_prepare p = Ok tt → prep_CN p <= prep_HN p ∧ prep_HN p <= bal_N (prep_B p).
Proof.
  unfold validate_prepare. intros (? & _ & Hp)%result_bind_Ok.
  destruct (N.ltb_spec (prep_HN p) (prep_CN p)); [done|].
  destruct (N.ltb_spec (bal_N (prep_B p)) (prep_HN p)); [done|]. lia.
Qed.

Lemma validate_nominate_iff (n : NominatePayload V) :
  validate_nominate n = Ok tt ↔ nom_X n ## nom_Y n.
Proof. unfold validate_nominate. case_bool_decide; set_solver. Qed.

Lemma validate_prepare_iff (p : PreparePayload V) :
  validate_prepare p = Ok tt ↔
    (∀ P, prep_P p = Some P →
       ord_le P (prep_B p) ∧ (∀ PP, prep_PP p = Some PP → ord_lt PP P)) ∧
    prep_CN p <= prep_HN p ∧ prep_HN p <= bal_N (prep_B p).
Proof.
  split.
  - intros Hp. split; [|by apply validate_prepare_range].
    unfold validate_prepare in Hp. apply result_bind_Ok in Hp as ([] & Hp & _).
    intros P HP. rewrite HP in Hp.
    destruct (ord_ltb (prep_B p) P) eqn:EB; [done|]. apply ord_ltb_ge in EB.
    split; [done|]. intros PP HPP. rewrite HPP in Hp.
    unfold ord_geb in Hp. destruct (ord_leb P PP) eqn:EP; [done|]. by apply ord_leb_gt.
  - intros (HP & HC & HH). unfold validate_prepare.
    apply result_bind_Ok. exists tt. split.
    + destruct (prep_P p) as [P|]; [|done]. destruct (HP P eq_refl) as [HB HPP].
      apply ord_ltb_ge in HB as ->. destruct (prep_PP p) as [PP|]; [|done].
      specialize (HPP PP eq_refl). apply ord_leb_gt in HPP. unfold ord_geb. by rewrite HPP.
    + rewrite (proj2 (N.ltb_ge _ _) HC). by rewrite (proj2 (N.ltb_ge _ _) HH).
Qed.

Lemma validate_prepare_payload m p :
  validate m = Ok tt → (topic m = Prepare p ∨ ∃ n, topic m = NominatePrepare n p) →
  validate_prepare p = Ok tt.
Proof.
  unfold validate. destruct (negb _); [done|]. intros Hv [Ht|[n Ht]]; rewrite Ht in Hv; [done|].
  by apply result_bind_Ok in Hv as (? & _ & ?).
Qed.

Lemma votes_or_accepts_commits_total m value min max :
  validate m = Ok tt → msg_u32 m → min <= max →
  ∃ r, votes_or_accepts_commits m value min max = Done r.
Proof.
  intros Hv Hu Hmm. unfold votes_or_accepts_commits. rewrite (proj2 (N.leb_le _ _) Hmm).
  apply range_overlap_total; [done|]. unfold msg_u32 in Hu.
  destruct (topic m) as [p|p p'|p|p|p] eqn:Et; try done.
  - destruct (_ && _); [|done]. intros ? ? [= <- <-].
    apply validate_prepare_range. eapply validate_prepare_payload; eauto.
  - destruct (_ && _); [|done]. intros ? ? [= <- <-].
    apply validate_prepare_range. eapply validate_prepare_payload; eauto.
  - case_bool_decide; [|done]. intros ? ? [= <- <-]. unfold INFINITY. lia.
  - case_bool_decide; [|done]. intros ? ? [= <- <-]. unfold INFINITY. lia.
Qed.

(** The statement "accept commit" over a whole range. *)
Definition accepts_commit_range m (value : list V) (lo hi : N) : Prop :=
  match topic m with
  | Commit p => bal_X (com_B p) = value ∧ com_CN p <= lo ∧ hi <= com_HN p
  | Externalize p => bal_X (ext_C p) = value ∧ bal_N (ext_C p) <= lo ∧ hi <= INFINITY
  | _ => False
  end.

Lemma accepts_commits_sound m value min max a b :
  accepts_commits m value min max = Done (Some (a, b)) →
  accepts_commit_range m value a b ∧ min <= a ∧ a <= b ∧ b <= max.
Proof.
  unfold accepts_commits, accepts_commit_range. destruct (min <=? max); [|done].
  intros [? (lo & hi & Hr & ? & ?)]%range_overlap_Some. split; [|done].
  destruct (topic m) as [p|p p'|p|p|p]; try done; case_bool_decide; simplify_eq; done.
Qed.

Lemma accepts_commit_range_sub m value lo hi lo' hi' :
  accepts_commit_range m value lo hi → lo <= lo' → hi' <= hi →
  accepts_commit_range m value lo' hi'.
Proof. unfold accepts_commit_range. destruct (topic m); naive_solver lia. Qed.

(** Every value of a ballot a message mentions is among its values. *)
Lemma prepared_ballots_values (p : PreparePayload V) b v :
  b ∈ prepared_ballots p → v ∈ bal_X b → v ∈ opt_values (prep_P p) ∪ opt_values (prep_PP p).
Proof.
  unfold prepared_ballots, opt_values. destruct (prep_P p), (prep_PP p); set_solver.
Qed.

Lemma accepts_prepared_values m b v :
  b ∈ accepts_prepared m → v ∈ bal_X b → v ∈ msg_values m.
Proof.
  unfold accepts_prepared, msg_values. destruct (topic m) as [p|p p'|p|p|p]; try set_solver.
  - intros Hb Hv. pose proof (prepared_ballots_values _ _ _ Hb Hv). set_solver.
  - intros Hb Hv. pose proof (prepared_ballots_values _ _ _ Hb Hv). set_solver.
Qed.

Lemma accepts_nominated_values m s v :
  accepts_nominated m = Some s → v ∈ s → v ∈ msg_values m.
Proof. unfold accepts_nominated, msg_values. destruct (topic m); set_solver. Qed.

Lemma votes_or_accepts_nominated_values m s v :
  votes_or_accepts_nominated m = Some s → v ∈ s → v ∈ msg_values m.
Proof. unfold votes_or_accepts_nominated, msg_values. destruct (topic m); set_solver. Qed.

(** *** The order of messages *)

Lemma NominatePayload_cmp_key (a b : NominatePayload V) :
  cmp a b = cmp ((N.of_nat (size (nom_Y a)), nom_Y a), (N.of_nat (size (nom_X a)), nom_X a))
                ((N.of_nat (size (nom_Y b)), nom_Y b), (N.of_nat (size (nom_X b)), nom_X b)).
Proof.
  unfold cmp at 1, NominatePayload_ord. unfold cmp at 3, prod_ord. cbn [fst snd].
  unfold cmp at 3, prod_ord. cbn [fst snd]. unfold cmp at 5, prod_ord. cbn [fst snd].
  unfold cmp at 3 5, N_ord.
  destruct (decide (size (nom_Y a) = size (nom_Y b))) as [HY|HY].
  - rewrite bool_decide_eq_true_2 by done. rewrite HY, N.compare_refl. simpl.
    destruct (decide (nom_Y a = nom_Y b)) as [HY'|HY'].
    + rewrite bool_decide_eq_true_2 by done. rewrite HY', cmp_refl. simpl.
      destruct (decide (size (nom_X a) = size (nom_X b))) as [HX|HX].
      * rewrite bool_decide_eq_true_2 by done. rewrite HX, N.compare_refl. simpl.
        destruct (decide (nom_X a = nom_X b)) as [HX'|HX'].
        -- rewrite bool_decide_eq_true_2 by done. by rewrite HX', cmp_refl.
        -- by rewrite bool_decide_eq_false_2.
      * rewrite bool_decide_eq_false_2 by done. simpl.
        destruct (N.compare_spec (N.of_nat (size (nom_X a))) (N.of_nat (size (nom_X b)))); lia || done.
    + rewrite bool_decide_eq_false_2 by done. simpl.
      destruct (cmp (nom_Y a) (nom_Y b)) eqn:E; [apply cmp_eq_iff in E; done|done|done].
  - rewrite bool_decide_eq_false_2 by done. simpl.
    destruct (N.compare_spec (N.of_nat (size (nom_Y a))) (N.of_nat (size (nom_Y b)))); lia || done.
Qed.

#[export] Instance NominatePayload_total_ord : TotalOrd (NominatePayload V).
Proof.
  split.
  - intros [x y] [x' y']. rewrite NominatePayload_cmp_key, cmp_eq_iff. simpl. naive_solver.
  - intros a b. rewrite !NominatePayload_cmp_key. apply cmp_opp.
  - intros a b c. rewrite !NominatePayload_cmp_key. apply cmp_lt_trans.
Qed.

Lemma if_neq_cmp `{TotalOrd A, !EqDecision A} (x y : A) (c : comparison) :
  (if negb (bool_decide (x = y)) then cmp x y else c) = cmp_then (cmp x y) c.
Proof.
  case_bool_decide as E; simpl; [by rewrite E, cmp_refl|].
  destruct (cmp x y) eqn:E'; [by apply cmp_eq_iff in E'|done|done].
Qed.

(** The key by which prepare payloads are compared: everything but [CN]. *)
Definition prepare_key (p : PreparePayload V) : Ballot V * (option (Ballot V) * (option (Ballot V) * N)) :=
  (prep_B p, (prep_P p, (prep_PP p, prep_HN p))).

Lemma PreparePayload_cmp_key (a b : PreparePayload V) :
  cmp a b = cmp (prepare_key a) (prepare_key b).
Proof.
  unfold cmp at 1, PreparePayload_ord. rewrite !if_neq_cmp. done.
Qed.

Definition commit_key (p : CommitPayload V) : Ballot V * (N * N) :=
  (com_B p, (com_PN p, com_HN p)).

Lemma CommitPayload_cmp_key (a b : CommitPayload V) :
  cmp a b = cmp (commit_key a) (commit_key b).
Proof.
  transitivity (cmp_then (cmp (com_B a) (com_B b))
    (cmp_then (cmp (com_PN a) (com_PN b)) (cmp (com_HN a) (com_HN b)))); [|done].
  unfold cmp at 1, CommitPayload_ord. rewrite if_neq_cmp. f_equal.
  rewrite <-if_neq_cmp. destruct (N.eqb_spec (com_PN a) (com_PN b)); by case_bool_decide.
Qed.

(** Swapping the arguments reverses the result. *)
Lemma Topic_cmp_opp (a b : Topic V) : cmp b a = CompOpp (cmp a b).
Proof.
  destruct a as [p|n p|p|p|p], b as [q|n' q|q|q|q];
    unfold cmp at 1 2, Topic_ord; try done.
  - apply cmp_opp.
  - rewrite (bool_decide_ext (q = p) (p = q)) by done.
    case_bool_decide; simpl; [apply cmp_opp|].
    rewrite !PreparePayload_cmp_key. apply cmp_opp.
  - rewrite !PreparePayload_cmp_key. apply cmp_opp.
  - rewrite !CommitPayload_cmp_key. apply cmp_opp.
  - unfold cmp, ExternalizePayload_ord. apply cmp_opp.
Qed.

(** What distinguishes the topics the order can tell apart: two topics with
    the same key compare equal. *)
Definition topic_phase (t : Topic V) : N :=
  match t with
  | Nominate _ => 0 | NominatePrepare _ _ => 1 | Prepare _ => 2 | Commit _ => 3 | Externalize _ => 4
  end.

(** Topics as the slot of an honest node emits them while nominating: no
    ballot is confirmed prepared yet, so the commit counter is zero
    (proved of [out_msg] in [SlotProps]). *)
Definition nominate_prepare_cn_zero (t : Topic V) : Prop :=
  match t with NominatePrepare _ p => prep_CN p = 0 | _ => True end.

Lemma prepare_key_inj (p q : PreparePayload V) :
  prepare_key p = prepare_key q → prep_CN p = prep_CN q → p = q.
Proof. destruct p, q. unfold prepare_key. simpl. intros. by simplify_eq. Qed.

(** On such topics the comparison is by phase, then by payload key, then by
    the nominated sets. *)
Definition topic_key (t : Topic V) :
    N * (option (Ballot V * (option (Ballot V) * (option (Ballot V) * N))) *
         (option (NominatePayload V) * (option (Ballot V * (N * N)) * N))) :=
  match t with
  | Nominate n => (0, (None, (Some n, (None, 0))))
  | NominatePrepare n p => (1, (Some (prepare_key p), (Some n, (None, 0))))
  | Prepare p => (2, (Some (prepare_key p), (None, (None, 0))))
  | Commit p => (3, (None, (None, (Some (commit_key p), 0))))
  | Externalize p => (4, (None, (None, (None, ext_HN p))))
  end.

Lemma cmp_then_eq_r c : cmp_then c Eq = c.
Proof. by destruct c. Qed.

Lemma Topic_cmp_key (a b : Topic V) :
  nominate_prepare_cn_zero a → nominate_prepare_cn_zero b →
  cmp a b = cmp (topic_key a) (topic_key b).
Proof.
  intros Ha Hb.
  destruct a as [p|n p|p|p|p], b as [q|n' q|q|q|q]; try done; simpl in Ha, Hb.
  - transitivity (cmp_then (cmp p q) Eq); [by rewrite cmp_then_eq_r|done].
  - transitivity (cmp_then (cmp (prepare_key p) (prepare_key q)) (cmp_then (cmp n n') Eq)); [|done].
    rewrite cmp_then_eq_r. unfold cmp at 1, Topic_ord. case_bool_decide as Epq; simpl.
    + by rewrite Epq, cmp_refl.
    + rewrite PreparePayload_cmp_key.
      destruct (cmp (prepare_key p) (prepare_key q)) eqn:E; try done.
      apply cmp_eq_iff in E. destruct Epq. apply prepare_key_inj; congruence.
  - transitivity (cmp_then (cmp (prepare_key p) (prepare_key q)) Eq); [|done].
    rewrite cmp_then_eq_r. apply PreparePayload_cmp_key.
  - transitivity (cmp_then (cmp (commit_key p) (commit_key q)) Eq); [|done].
    rewrite cmp_then_eq_r. apply CommitPayload_cmp_key.
Qed.
End msg_facts.

(** ** Properties *)

Module MsgProps.
Section props.
Context {V ID : Type} `{Countable V} `{!Ord V, !TotalOrd V} `{Countable ID} `{!Ord ID}.

(** On the topics honest nodes emit (a NOMINATE/PREPARE message has
    commit counter 0) the message order is a total preorder: it is total,
    transitive, and reversing the arguments reverses the result. *)
Theorem topic_order_total_preorder (a b c : Topic V) :
  nominate_prepare_cn_zero a → nominate_prepare_cn_zero b → nominate_prepare_cn_zero c →
  cmp b a = CompOpp (cmp a b) ∧
  (ord_le a b ∨ ord_le b a) ∧
  (ord_le a b → ord_le b c → ord_le a c).
Proof.
  intros Ha Hb Hc. unfold ord_le. rewrite !Topic_cmp_key by done.
  split_and!; [apply cmp_opp|apply (ord_le_total (topic_key a) (topic_key b))|].
  apply (ord_le_trans (topic_key a) (topic_key b) (topic_key c)).
Qed.

(** A message is accepted by [validate] exactly when its quorum set is
    valid and its payload is consistent: nominated sets disjoint, [PP < P <= B],
    [CN <= HN <= B.N] while preparing and [CN <= HN] while committing. *)
Theorem validate_ok_iff (m : Msg V ID) :
  let nominate_ok n := nom_X n ## nom_Y n in
  let prepare_ok p :=
    (∀ P, prep_P p = Some P →
       ord_le P (prep_B p) ∧ (∀ PP, prep_PP p = Some PP → ord_lt PP P)) ∧
    prep_CN p <= prep_HN p ∧ prep_HN p <= bal_N (prep_B p) in
  validate m = Ok tt ↔
    is_valid (msg_quorum_set m) = true ∧
    match topic m with
    | Nominate n => nominate_ok n
    | NominatePrepare n p => nominate_ok n ∧ prepare_ok p
    | Prepare p => prepare_ok p
    | Commit p => com_CN p <= com_HN p
    | Externalize _ => True
    end.
Proof.
  simpl. unfold validate.
  destruct (is_valid (msg_quorum_set m)); simpl; [|by split; [|intros []]].
  transitivity (match topic m with
    | Nominate n => nom_X n ## nom_Y n
    | NominatePrepare n p => nom_X n ## nom_Y n ∧ validate_prepare p = Ok tt
    | Prepare p => validate_prepare p = Ok tt
    | Commit p => com_CN p <= com_HN p
    | Externalize _ => True
    end); [|destruct (topic m) as [n|n p|p|p|p]; rewrite ?validate_prepare_iff; naive_solver].
  destruct (topic m) as [n|n p|p|p|p].
  - apply validate_nominate_iff.
  - rewrite <-validate_nominate_iff.
    destruct (validate_nominate n) as [[]|] eqn:E; simpl; [|by split; [|intros []]].
    split; [done|by intros []].
  - done.
  - destruct (N.ltb_spec (com_HN p) (com_CN p)); split; try done; lia.
  - done.
Qed.

(** "accept commit" implies "vote or accept commit": on a validated
    message neither query panics for a non-empty range, and the range of
    counters a message accepts committed is contained in the range it votes
    for or accepts. *)
Theorem accept_commit_implies_vote (m : Msg V ID) value min max :
  validate m = Ok tt → msg_u32 m → min <= max →
  ∃ r s, accepts_commits m value min max = Done r ∧
    votes_or_accepts_commits m value min max = Done s ∧
    ∀ a b, r = Some (a, b) →
      ∃ c d, s = Some (c, d) ∧ min <= c ∧ c <= a ∧ a <= b ∧ b <= d ∧ d <= max.
Proof.
  intros Hv Hu Hmm.
  destruct (accepts_commits_total m value min max) as [r Hr]; [done..|].
  destruct (votes_or_accepts_commits_total m value min max) as [s Hs]; [done..|].
  exists r, s. split_and!; [done..|]. intros a b ->.
  revert Hr Hs. unfold accepts_commits, votes_or_accepts_commits.
  rewrite (proj2 (N.leb_le _ _) Hmm). unfold msg_u32 in Hu.
  intros [Hab (lo & hi & Hr & Hlo & Hhi)]%range_overlap_Some Hs.
  assert (∃ hi', match topic m with
     | NominatePrepare _ payload | Prepare payload =>
         if bool_decide (bal_X (prep_B payload) = value) && negb (prep_CN payload =? 0)
         then Some (prep_CN payload, prep_HN payload) else None
     | Commit payload =>
         if bool_decide (bal_X (com_B payload) = value) then Some (com_CN payload, INFINITY) else None
     | Externalize payload =>
         if bool_decide (bal_X (ext_C payload) = value)
         then Some (bal_N (ext_C payload), INFINITY) else None
     | Nominate _ => None
     end = Some (lo, hi') ∧ hi <= hi') as (hi' & Hrange & Hhi').
  { destruct (topic m) as [n|n p|p|p|p]; try done; case_bool_decide; simplify_eq;
      (eexists; split; [done|]); unfold INFINITY; lia. }
  rewrite Hrange in Hs. unfold range_overlap in Hs.
  rewrite (proj2 (N.leb_le lo max)), (proj2 (N.leb_le min hi')) in Hs by lia. simpl in Hs.
  rewrite (proj2 (N.leb_le (N.max lo min) (N.min hi' max))) in Hs by lia.
  injection Hs as <-. do 2 eexists. split; [done|]. lia.
Qed.
End props.

Definition ex_prepare (cn hn : N) : PreparePayload N :=
  mkPrepare (mkBallot 5 [7]) (Some (mkBallot 4 [7])) None cn hn.
Definition ex_nominate (v : N) : NominatePayload N := mkNominate {[ v ]} ∅.

(** Without that restriction the message order is not an order:
      there are messages, all of them accepted by [validate], that compare
      equal pairwise along a chain although the first is less than the last,
      and distinct messages that compare equal (the commit counter is ignored). *)
Theorem topic_order_not_transitive :
  ∃ a b c : Topic N,
    Forall (λ t, validate (mkMsg 1 1 (Ctor.new_with_node_ids 1 [2]) t) = Ok tt) [a; b; c] ∧
    cmp a b = Eq ∧ cmp b c = Eq ∧ cmp a c = Lt ∧ a ≠ b.
Proof.
  exists (NominatePrepare (ex_nominate 1) (ex_prepare 2 3)),
         (NominatePrepare (ex_nominate 1) (ex_prepare 1 3)),
         (NominatePrepare (ex_nominate 2) (ex_prepare 2 3)).
  split; [repeat constructor; by vm_compute|]. split_and!; [by vm_compute..|].
  intros [=].
Qed.

Lemma topic_order_total_preorder_witness :
  let a := NominatePrepare (ex_nominate 1) (ex_prepare 0 3) in
  let b := NominatePrepare (ex_nominate 2) (ex_prepare 0 3) in
  let c := Prepare (ex_prepare 1 3) in
  cmp b a = CompOpp (cmp a b) ∧ (ord_le a b ∨ ord_le b a) ∧
  (ord_le a b → ord_le b c → ord_le a c).
Proof. by apply topic_order_total_preorder. Defined.

Definition ex_commit_msg : Msg N N :=
  mkMsg 1 1 (Ctor.new_with_node_ids 1 [2]) (Commit (mkCommit (mkBallot 9 [7]) 8 3 6)).

Lemma accept_commit_implies_vote_witness :
  ∃ r s, accepts_commits ex_commit_msg [7] 4 8 = Done r ∧
    votes_or_accepts_commits ex_commit_msg [7] 4 8 = Done s ∧
    ∀ a b, r = Some (a, b) →
      ∃ c d, s = Some (c, d) ∧ 4 <= c ∧ c <= a ∧ a <= b ∧ b <= d ∧ d <= 8.
Proof.
  apply (accept_commit_implies_vote ex_commit_msg [7] 4 8); [by vm_compute| |lia].
  by vm_compute.
Defined.

Definition ex_prepare_msg : Msg N N :=
  mkMsg 1 1 (Ctor.new_with_node_ids 1 [2]) (Prepare (ex_prepare 2 3)).

Lemma validate_ok_iff_witness :
  validate ex_prepare_msg = Ok tt ∧
  (is_valid (msg_quorum_set ex_prepare_msg) = true ∧
   (∀ P, prep_P (ex_prepare 2 3) = Some P →
      ord_le P (prep_B (ex_prepare 2 3)) ∧
      (∀ PP, prep_PP (ex_prepare 2 3) = Some PP → ord_lt PP P)) ∧
   prep_CN (ex_prepare 2 3) <= prep_HN (ex_prepare 2 3) ∧
   prep_HN (ex_prepare 2 3) <= bal_N (prep_B (ex_prepare 2 3))).
Proof.
  split; [by vm_compute|].
  apply (proj1 (validate_ok_iff ex_prepare_msg)). by vm_compute.
Defined.
End MsgProps.
