(* ===== verification/Predicates.v ===== *)
(** * Predicates on messages

    The model of [consensus/scp/src/predicates.rs]: the [Predicate] trait that
    quorum and blocking-set searches are generic in, and its four
    implementations.  A predicate is stateful: testing a message narrows the set
    of ballots, ranges or values that remain. *)

From S2P Require Import Prelude Ord QuorumSet ScpMsg.

Local Open Scope N_scope.

(** The [Predicate] trait.  Testing a message may panic: the test functions of
    the ballot-range predicates assert on the ranges they are given. *)
Class Predicate (V ID : Type) `{Countable V} (P R : Type) : Type := {
  test : P → Msg V ID → exec (option P);
  presult : P → R
}.

Section predicates.
Context {V ID : Type} `{Countable V} `{!Ord V} `{Countable ID}.

(** ** Narrowing a set of ballots *)

Record BallotSetPredicate : Type := mkBallotSet {
  bs_ballots : gset (Ballot V);
  bs_test_fn : Msg V ID → gset (Ballot V) → gset (Ballot V)
}.

Definition BallotSet_test (p : BallotSetPredicate) (msg : Msg V ID) : exec (option BallotSetPredicate) :=
  if bool_decide (bs_ballots p = ∅) then Done None
  else let nextBallots := bs_test_fn p msg (bs_ballots p) in
       if bool_decide (nextBallots = ∅) then Done None
       else Done (Some (mkBallotSet nextBallots (bs_test_fn p))).

#[export] Instance BallotSet_predicate :
  Predicate V ID BallotSetPredicate (gset (Ballot V)) :=
  {| test := BallotSet_test; presult := bs_ballots |}.

(** ** Narrowing ranges of ballot counters *)

Record BallotRangePredicate : Type := mkBallotRange {
  br_ballot_ranges : gmap (list V) (N * N);
  br_test_fn : Msg V ID → gmap (list V) (N * N) → exec (gmap (list V) (N * N))
}.

Definition BallotRange_test (p : BallotRangePredicate) (msg : Msg V ID) :
    exec (option BallotRangePredicate) :=
  if bool_decide (br_ballot_ranges p = ∅) then Done None
  else let! ballot_ranges := br_test_fn p msg (br_ballot_ranges p) in
       if bool_decide (ballot_ranges = ∅) then Done None
       else Done (Some (mkBallotRange ballot_ranges (br_test_fn p))).

#[export] Instance BallotRange_predicate :
  Predicate V ID BallotRangePredicate (gmap (list V) (N * N)) :=
  {| test := BallotRange_test; presult := br_ballot_ranges |}.

(** ** Narrowing a set of values *)

Record ValueSetPredicate : Type := mkValueSet {
  vs_values : gset V;
  vs_test_fn : Msg V ID → gset V → gset V
}.

Definition ValueSet_test (p : ValueSetPredicate) (msg : Msg V ID) : exec (option ValueSetPredicate) :=
  if bool_decide (vs_values p = ∅) then Done None
  else let next_values := vs_test_fn p msg (vs_values p) in
       if bool_decide (next_values = ∅) then Done None
       else Done (Some (mkValueSet next_values (vs_test_fn p))).

#[export] Instance ValueSet_predicate : Predicate V ID ValueSetPredicate (gset V) :=
  {| test := ValueSet_test; presult := vs_values |}.

(** [ValueSetPredicate::filter_to_max_values]. *)
Definition filter_to_max_values (results : list (gset ID * gset V)) : option (gset V) :=
  snd <$> iter_max_by
    (λ a b, let '(a_node_ids, a_values) := a in
            let '(b_node_ids, b_values) := b in
            if negb (bool_decide (size a_node_ids = size b_node_ids))
            then N.compare (N.of_nat (size a_node_ids)) (N.of_nat (size b_node_ids))
            else cmp a_values b_values) results.

(** ** A stateless condition *)

Record FuncPredicate : Type := mkFunc { fp_test_fn : Msg V ID → bool }.

Definition Func_test (p : FuncPredicate) (msg : Msg V ID) : exec (option FuncPredicate) :=
  Done (if fp_test_fn p msg then Some p else None).

#[export] Instance Func_predicate : Predicate V ID FuncPredicate unit :=
  {| test := Func_test; presult := λ _, tt |}.
End predicates.

Arguments BallotSetPredicate V ID {_ _} : assert.
Arguments BallotRangePredicate V ID {_ _} : assert.
Arguments ValueSetPredicate V ID {_ _} : assert.
Arguments FuncPredicate V ID {_ _} : assert.

(** ** What a search knows about the messages a predicate accepted *)

(** An invariant of a predicate: [Q msg p] holds right after [msg] was tested
    and is kept by every later test, so at the end of a search it holds of
    every message that was accepted. *)
Class PredicateInv {V ID : Type} `{Countable V} {P R : Type} `{!Predicate V ID P R}
    (Q : Msg V ID → P → Prop) : Prop := {
  pinv_tested : ∀ p msg p', test p msg = Done (Some p') → Q msg p';
  pinv_stable : ∀ p msg msg' p', Q msg p → test p msg' = Done (Some p') → Q msg p'
}.

#[export] Instance trivial_inv {V ID : Type} `{Countable V} {P R : Type} `{!Predicate V ID P R} :
  PredicateInv (λ (_ : Msg V ID) (_ : P), True).
Proof. done. Qed.

Section invariants.
Context {V ID : Type} `{Countable V} `{!Ord V} `{Countable ID}.

(** A stateless predicate: the accepted messages satisfy the condition. *)
Lemma Func_inv (f : Msg V ID → bool) :
  PredicateInv (λ msg (p : FuncPredicate V ID), fp_test_fn p = f → f msg = true).
Proof.
  split.
  - intros p msg p'. simpl. unfold Func_test. destruct (fp_test_fn p msg) eqn:E; [|done].
    intros [= <-]. intros <-. done.
  - intros p msg msg' p' HQ. simpl. unfold Func_test.
    destruct (fp_test_fn p msg'); [|done]. by intros [= <-].
Qed.

(** A set predicate whose test function intersects with what a message says:
    the result is contained in what every accepted message says. *)
Lemma ValueSet_inv (f : Msg V ID → gset V → gset V) (said : Msg V ID → gset V → Prop)
    (Hsaid : ∀ msg s, said msg (f msg s)) (Hsub : ∀ msg s, f msg s ⊆ s)
    (Hmono : ∀ msg s s', said msg s → s' ⊆ s → said msg s') :
  PredicateInv (λ msg (p : ValueSetPredicate V ID), vs_test_fn p = f → said msg (vs_values p)).
Proof using All.
  split.
  - intros p msg p'. simpl. unfold ValueSet_test. do 2 (case_bool_decide; [done|]).
    intros [= <-]. simpl. intros ->. apply Hsaid.
  - intros p msg msg' p' HQ. simpl. unfold ValueSet_test. do 2 (case_bool_decide; [done|]).
    intros [= <-]. simpl. intros Hf. rewrite Hf. eapply Hmono; [by apply HQ|apply Hsub].
Qed.
End invariants.

(** ** Properties *)

Module PredicateProps.
(** [filter_to_max_values] returns the value set of the candidate with
    the most nodes, not the largest value set its documentation announces: a
    candidate with more nodes wins over one with more values. *)
Theorem filter_to_max_values_by_nodes :
  ∃ results : list (gset N * gset N), ∃ chosen other : gset N,
    filter_to_max_values results = Some chosen ∧
    other ∈ (snd <$> results) ∧ (size chosen < size other)%nat.
Proof.
  exists [({[ 1; 2 ]}, {[ 7 ]}); ({[ 3 ]}, {[ 7; 8; 9 ]})], {[ 7 ]}, {[ 7; 8; 9 ]}.
  split_and!; [by vm_compute|right; left|vm_compute; lia].
Qed.
End PredicateProps.
