(* ===== verification/QuorumSearch.v ===== *)
(** * Searching for quorums and blocking sets

    The model of [findQuorum] and [findBlockingSet] of
    [consensus/scp/src/quorum_set_ext.rs], with their helpers, and the proof that
    they are right: a quorum search that succeeds returns a quorum (every member's
    quorum set is satisfied inside the set) whose messages the predicate accepted,
    and on stateless predicates it succeeds whenever there is one; a blocking-set
    search succeeds exactly when the accepting nodes meet every slice.

    The recursions carry fuel; [find_quorum_fuel] and [qs_size] bound the depth
    of the calls, and [findQuorum_total], [findBlockingSet_total] show that the
    bounds are enough. *)

From S2P Require Import Prelude Ord QuorumSet ScpMsg Predicates.

Local Open Scope N_scope.

Section search.
Context {V ID : Type} `{Countable V} `{Countable ID}.
Context {P R : Type} `{!Predicate V ID P R}.
Implicit Types msgs : gmap ID (Msg V ID).

(** [findQuorumHelper]. *)
Fixpoint findQuorumHelper (fuel : nat) (threshold : N) (members : list (MemberWrapper ID))
    (msgs : gmap ID (Msg V ID)) (pred : P) (nodes_so_far : gset ID) : exec (gset ID * P) :=
  match fuel with
  | O => NoFuel
  | S fuel =>
      if threshold =? 0 then Done (nodes_so_far, pred)
      else if len members <? threshold then Done (∅, pred)
      else match members with
           | [] => Panic
           | m :: rest =>
               match m with
               | Some (Node N) =>
                   if bool_decide (N ∈ nodes_so_far) then
                     findQuorumHelper fuel (threshold - 1) rest msgs pred nodes_so_far
                   else
                     match msgs !! N with
                     | Some msg =>
                         let! next := test pred msg in
                         match next with
                         | Some nextPred =>
                             let! (nodes_so_far2, pred2) :=
                               findQuorumHelper fuel
                                 (QuorumSet.threshold (msg_quorum_set msg))
                                 (QuorumSet.members (msg_quorum_set msg))
                                 msgs nextPred ({[ N ]} ∪ nodes_so_far) in
                             if bool_decide (nodes_so_far2 ≠ ∅) then
                               findQuorumHelper fuel (threshold - 1) rest msgs pred2 nodes_so_far2
                             else findQuorumHelper fuel threshold rest msgs pred nodes_so_far
                         | None => findQuorumHelper fuel threshold rest msgs pred nodes_so_far
                         end
                     | None => findQuorumHelper fuel threshold rest msgs pred nodes_so_far
                     end
               | Some (InnerSet Q) =>
                   let! (nodes_so_far2, pred2) :=
                     findQuorumHelper fuel (QuorumSet.threshold Q) (QuorumSet.members Q)
                       msgs pred nodes_so_far in
                   if bool_decide (nodes_so_far2 ≠ ∅) then
                     findQuorumHelper fuel (threshold - 1) rest msgs pred2 nodes_so_far2
                   else findQuorumHelper fuel threshold rest msgs pred nodes_so_far
               | None => findQuorumHelper fuel threshold rest msgs pred nodes_so_far
               end
           end
  end.

(** [findBlockingSetHelper]. *)
Fixpoint findBlockingSetHelper (fuel : nat) (needed : N) (members : list (MemberWrapper ID))
    (msgs : gmap ID (Msg V ID)) (pred : P) (nodes_so_far : gset ID) : exec (gset ID * P) :=
  match fuel with
  | O => NoFuel
  | S fuel =>
      if needed =? 0 then Done (nodes_so_far, pred)
      else if len members <? needed then Done (∅, pred)
      else match members with
           | [] => Panic
           | m :: rest =>
               match m with
               | Some (Node N) =>
                   match msgs !! N with
                   | Some msg =>
                       let! next := test pred msg in
                       match next with
                       | Some nextPred =>
                           findBlockingSetHelper fuel (needed - 1) rest msgs nextPred
                             ({[ N ]} ∪ nodes_so_far)
                       | None => findBlockingSetHelper fuel needed rest msgs pred nodes_so_far
                       end
                   | None => findBlockingSetHelper fuel needed rest msgs pred nodes_so_far
                   end
               | Some (InnerSet Q) =>
                   let! (nodes_so_far2, pred2) :=
                     findBlockingSetHelper fuel
                       (u32_add (u32_sub (as_u32 (len (QuorumSet.members Q))) (QuorumSet.threshold Q)) 1)
                       (QuorumSet.members Q) msgs pred nodes_so_far in
                   if bool_decide (nodes_so_far2 ≠ ∅) then
                     findBlockingSetHelper fuel (needed - 1) rest msgs pred2 nodes_so_far2
                   else findBlockingSetHelper fuel needed rest msgs pred nodes_so_far
               | None => findBlockingSetHelper fuel needed rest msgs pred nodes_so_far
               end
           end
  end.

(** *** Fuel *)

(** The largest quorum set among the messages. *)
Definition max_qs_size msgs : nat :=
  max_list ((λ kv, members_size (QuorumSet.members (msg_quorum_set kv.2))) <$> map_to_list msgs).

(** Every call either consumes a member or adds a node with a message. *)
Definition find_quorum_fuel (members : list (MemberWrapper ID)) msgs (nodes_so_far : gset ID) : nat :=
  S (members_size members + size (dom msgs ∖ nodes_so_far) * S (max_qs_size msgs)).

(** *** Entry points *)

(** [QuorumSetExt::findQuorum]. *)
Definition findQuorum (q : QuorumSet ID) (node_id : ID) msgs (pred : P) : exec (gset ID * P) :=
  findQuorumHelper (find_quorum_fuel (members q) msgs {[ node_id ]})
    (threshold q) (members q) msgs pred {[ node_id ]}.

(** [QuorumSetExt::findBlockingSet]. *)
Definition findBlockingSet (q : QuorumSet ID) msgs (pred : P) : exec (gset ID * P) :=
  findBlockingSetHelper (S (members_size (members q)))
    (u32_add (u32_sub (as_u32 (len (members q))) (threshold q)) 1)
    (members q) msgs pred ∅.
End search.

(** ** Termination *)

Section termination.
Context {V ID : Type} `{Countable V} `{Countable ID}.
Context {P R : Type} `{!Predicate V ID P R}.
Implicit Types msgs : gmap ID (Msg V ID).

Lemma max_qs_size_ge msgs n msg :
  msgs !! n = Some msg →
  (members_size (members (msg_quorum_set msg)) <= max_qs_size msgs)%nat.
Proof.
  intros Hn. apply max_list_elem_of_le. apply list_elem_of_fmap.
  exists (n, msg). split; [done|]. by apply elem_of_map_to_list.
Qed.

Lemma size_undecided_mono msgs (S1 S2 : gset ID) :
  S1 ⊆ S2 → (size (dom msgs ∖ S2) <= size (dom msgs ∖ S1))%nat.
Proof. intros. apply subseteq_size. set_solver. Qed.

Lemma size_undecided_lt msgs (S1 : gset ID) n :
  n ∉ S1 → is_Some (msgs !! n) →
  (S (size (dom msgs ∖ ({[ n ]} ∪ S1))) <= size (dom msgs ∖ S1))%nat.
Proof.
  intros Hn Hd%elem_of_dom. apply Nat.le_succ_l, subset_size. set_solver.
Qed.

(** A search neither panics nor runs out of fuel when the tests it makes do
    not, which may rest on an invariant [I] of the predicate's state. *)
Definition tests_total msgs (I : P → Prop) : Prop :=
  ∀ p n msg, I p → msgs !! n = Some msg →
    ∃ o, test p msg = Done o ∧ ∀ p', o = Some p' → I p'.

Context (msgs : gmap ID (Msg V ID)) (I : P → Prop) (Htests : tests_total msgs I).

Lemma findQuorumHelper_total fuel t (ms : list (MemberWrapper ID)) pred S0 :
  (find_quorum_fuel ms msgs S0 <= fuel)%nat → I pred →
  ∃ U p', findQuorumHelper fuel t ms msgs pred S0 = Done (U, p') ∧ (U = ∅ ∨ S0 ⊆ U) ∧ I p'.
Proof using Htests.
  revert t ms pred S0.
  induction fuel as [|fuel IH]; intros t ms pred S0 Hfuel HI;
    [by unfold find_quorum_fuel in Hfuel; lia|].
  cbn [findQuorumHelper]. destruct (N.eqb_spec t 0) as [Ht0|Ht0]; [by eauto 6|].
  destruct (N.ltb_spec (len ms) t); [by eauto 6|].
  destruct ms as [|m rest]; [unfold len in *; simpl in *; lia|].
  unfold find_quorum_fuel in *. cbn [members_size_with] in Hfuel.
  assert (Hrest : ∀ t' p' S', S0 ⊆ S' → I p' → ∃ U p,
    findQuorumHelper fuel t' rest msgs p' S' = Done (U, p) ∧ (U = ∅ ∨ S0 ⊆ U) ∧ I p).
  { intros t' p' S' HS HI'. pose proof (size_undecided_mono msgs _ _ HS).
    destruct (IH t' rest p' S') as (U & p & HU & Hsub & HIp); [nia|done|].
    exists U, p. split_and!; [done| |done]. destruct Hsub; [by left|right; set_solver]. }
  destruct m as [[n|q]|]; [| |by apply Hrest].
  - case_bool_decide as Hn; [by apply Hrest|].
    destruct (msgs !! n) as [msg|] eqn:Emsg; [|by apply Hrest].
    destruct (Htests pred n msg HI Emsg) as ([pred'|] & Et & HI'); rewrite Et; simpl;
      [|by apply Hrest].
    destruct (IH (threshold (msg_quorum_set msg)) (members (msg_quorum_set msg)) pred'
                ({[ n ]} ∪ S0)) as (U2 & p2 & -> & Hsub & HI2); [|by auto|].
    { pose proof (max_qs_size_ge _ _ _ Emsg).
      pose proof (size_undecided_lt msgs S0 n Hn (mk_is_Some _ _ Emsg)). nia. }
    simpl. case_bool_decide as HU; apply Hrest; auto. destruct Hsub; set_solver.
  - destruct (IH (threshold q) (members q) pred S0) as (U2 & p2 & -> & Hsub & HI2); [|done|].
    { destruct q as [t' ms']. simpl in *. nia. }
    simpl. case_bool_decide as HU; apply Hrest; auto. destruct Hsub; set_solver.
Qed.

Lemma findQuorum_total q node_id pred :
  I pred → ∃ U p', findQuorum q node_id msgs pred = Done (U, p') ∧ I p'.
Proof using Htests.
  intros HI. unfold findQuorum.
  destruct (findQuorumHelper_total (find_quorum_fuel (members q) msgs {[ node_id ]})
    (threshold q) (members q) pred {[ node_id ]}) as (U & p' & ? & _ & ?); eauto.
Qed.

Lemma findBlockingSetHelper_total fuel t (ms : list (MemberWrapper ID)) pred S0 :
  (S (members_size ms) <= fuel)%nat → I pred →
  ∃ U p', findBlockingSetHelper fuel t ms msgs pred S0 = Done (U, p') ∧ I p'.
Proof using Htests.
  revert t ms pred S0.
  induction fuel as [|fuel IH]; intros t ms pred S0 Hfuel HI; [by lia|].
  cbn [findBlockingSetHelper]. destruct (N.eqb_spec t 0) as [Ht0|Ht0]; [by eauto|].
  destruct (N.ltb_spec (len ms) t); [by eauto|].
  destruct ms as [|m rest]; [unfold len in *; simpl in *; lia|].
  cbn [members_size_with] in Hfuel.
  assert (Hrest : ∀ t' p' S', I p' → ∃ U p,
    findBlockingSetHelper fuel t' rest msgs p' S' = Done (U, p) ∧ I p).
  { intros t' p' S' HI'. apply IH; [lia|done]. }
  destruct m as [[n|q]|]; [| |by apply Hrest].
  - destruct (msgs !! n) as [msg|] eqn:Emsg; [|by apply Hrest].
    destruct (Htests pred n msg HI Emsg) as ([pred'|] & Et & HI'); rewrite Et; simpl;
      apply Hrest; auto.
  - match goal with |- context [findBlockingSetHelper fuel ?k (members q) _ _ _] =>
      destruct (IH k (members q) pred S0) as (U2 & p2 & -> & HI2) end; [|done|].
    { destruct q as [t' ms']. simpl in *. lia. }
    simpl. case_bool_decide; by apply Hrest.
Qed.

Lemma findBlockingSet_total q pred :
  I pred → ∃ U p', findBlockingSet q msgs pred = Done (U, p') ∧ I p'.
Proof using Htests. intros HI. by apply findBlockingSetHelper_total. Qed.
End termination.

(** ** Quorums: soundness of the search *)

(** [U] is a quorum for node [self] with quorum set [q], as far as the messages
    tell: it satisfies [q] and the quorum set of each of its other members. *)
Definition is_quorum {V ID : Type} `{Countable V} `{Countable ID}
    (msgs : gmap ID (Msg V ID)) (self : ID) (q : QuorumSet ID) (U : gset ID) : Prop :=
  self ∈ U ∧ is_slice U q = true ∧
  ∀ n, n ∈ U → n ≠ self →
    ∃ msg, msgs !! n = Some msg ∧ is_slice U (msg_quorum_set msg) = true.

Section quorum_sound.
Context {V ID : Type} `{Countable V} `{Countable ID}.
Context {P R : Type} `{!Predicate V ID P R} (Q : Msg V ID → P → Prop) `{!PredicateInv Q}.
Implicit Types msgs : gmap ID (Msg V ID).

(** What a call adds to the nodes [S0] it starts from. *)
Definition quorum_extension msgs (S0 U : gset ID) (p p' : P) : Prop :=
  S0 ⊆ U ∧
  (∀ n, n ∈ U → n ∉ S0 →
     ∃ msg, msgs !! n = Some msg ∧ is_slice U (msg_quorum_set msg) = true ∧ Q msg p') ∧
  (∀ msg, Q msg p → Q msg p').

Lemma quorum_extension_trans msgs (S0 S1 U : gset ID) p p1 p' :
  quorum_extension msgs S0 S1 p p1 → quorum_extension msgs S1 U p1 p' →
  quorum_extension msgs S0 U p p'.
Proof.
  intros (Hs & Hn & HQ) (Hs' & Hn' & HQ'). split_and!; [set_solver| |auto].
  intros n HnU HnS. destruct (decide (n ∈ S1)) as [Hin|Hin]; [|by apply Hn'].
  destruct (Hn n Hin HnS) as (msg & ? & ? & ?). exists msg. eauto with rust.
Qed.

Lemma findQuorumHelper_sound fuel t (ms : list (MemberWrapper ID)) msgs pred S0 U p' :
  findQuorumHelper fuel t ms msgs pred S0 = Done (U, p') → U ≠ ∅ →
  quorum_extension msgs S0 U pred p' ∧ t <= countb (member_sat U) ms.
Proof using Type*.
  revert t ms pred S0 U p'.
  induction fuel as [|fuel IH]; intros t ms pred S0 U p'; [done|].
  cbn [findQuorumHelper]. destruct (N.eqb_spec t 0) as [->|Ht].
  { intros [= <- <-] _. split; [|lia]. split_and!; [done|done|auto]. }
  destruct (N.ltb_spec (len ms) t); [by intros [= <- <-]|].
  destruct ms as [|m rest]; [done|]. intros Hcall HU.
  (* Skipping the member. *)
  assert (Hskip : findQuorumHelper fuel t rest msgs pred S0 = Done (U, p') →
    quorum_extension msgs S0 U pred p' ∧ t <= countb (member_sat U) (m :: rest)).
  { intros Hr. destruct (IH _ _ _ _ _ _ Hr HU) as [? ?]. split; [done|]. simpl. lia. }
  (* Counting the member in, the search going on from [S1]. *)
  assert (Hcount : ∀ S1 p1, quorum_extension msgs S0 S1 pred p1 → member_sat S1 m = true →
    findQuorumHelper fuel (t - 1) rest msgs p1 S1 = Done (U, p') →
    quorum_extension msgs S0 U pred p' ∧ t <= countb (member_sat U) (m :: rest)).
  { intros S1 p1 Hext Hm Hr. destruct (IH _ _ _ _ _ _ Hr HU) as [Hext' ?].
    split; [by eapply quorum_extension_trans|]. simpl.
    rewrite (member_sat_mono S1 U m) by (try apply Hext'; done). lia. }
  destruct m as [[n|q]|]; [| |by apply Hskip].
  - case_bool_decide as Hn.
    { apply (Hcount S0 pred); [|simpl; by apply bool_decide_eq_true_2|exact Hcall].
      split_and!; [done|done|auto]. }
    destruct (msgs !! n) as [msg|] eqn:Emsg; [|by apply Hskip].
    exec_inv. destruct r as [pred'|]; [|by apply Hskip]. exec_inv.
    destruct r as [U2 p2]. case_bool_decide as HU2; [|by apply Hskip].
    destruct (IH _ _ _ _ _ _ E0 HU2) as [(Hs & Hn' & HQ) Hc].
    apply (Hcount U2 p2); [|simpl; apply bool_decide_eq_true_2; set_solver|exact Hcall].
    split_and!; [set_solver| |].
    + intros n' Hn'U Hn'S. destruct (decide (n' = n)) as [->|Hne]; [|apply Hn'; set_solver].
      exists msg. split_and!; [done| |].
      * destruct (msg_quorum_set msg). rewrite is_slice_unfold. by apply N.leb_le.
      * apply HQ. by eapply pinv_tested.
    + intros msg' HQ'. apply HQ. by eapply pinv_stable.
  - exec_inv. destruct r as [U2 p2]. case_bool_decide as HU2; [|by apply Hskip].
    destruct (IH _ _ _ _ _ _ E HU2) as [Hext Hc].
    apply (Hcount U2 p2); [exact Hext| |exact Hcall].
    destruct q. simpl. by apply N.leb_le.
Qed.

(** A successful search returns a quorum all of whose other members sent a
    message the predicate accepted, in the sense of its invariant. *)
Lemma findQuorum_sound q node_id msgs pred U p' :
  findQuorum q node_id msgs pred = Done (U, p') → U ≠ ∅ →
  is_quorum msgs node_id q U ∧
  ∀ n, n ∈ U → n ≠ node_id → ∃ msg, msgs !! n = Some msg ∧ Q msg p'.
Proof using Type*.
  unfold findQuorum. intros Hf HU.
  destruct (findQuorumHelper_sound _ _ _ _ _ _ _ _ Hf HU) as [(Hs & Hn & _) Hc].
  split; [split_and!|].
  - set_solver.
  - destruct q. simpl. by apply N.leb_le.
  - intros n HnU Hne. destruct (Hn n HnU) as (msg & ? & ? & ?); [set_solver|]. eauto.
  - intros n HnU Hne. destruct (Hn n HnU) as (msg & ? & ? & ?); [set_solver|]. eauto.
Qed.
End quorum_sound.

(** ** Quorums: completeness for stateless predicates *)

(** Properties of the predicate state that tests keep, searches keep. *)
Section state_kept.
Context {V ID : Type} `{Countable V} `{Countable ID}.
Context {P R : Type} `{!Predicate V ID P R} (J : P → Prop).
Context (HJ : ∀ p msg p', J p → test p msg = Done (Some p') → J p').

Lemma findQuorumHelper_state fuel t (ms : list (MemberWrapper ID)) msgs pred S0 U p' :
  J pred → findQuorumHelper fuel t ms msgs pred S0 = Done (U, p') → J p'.
Proof using HJ.
  revert t ms pred S0 U p'.
  induction fuel as [|fuel IH]; intros t ms pred S0 U p' Hp; [done|].
  cbn [findQuorumHelper]. destruct (t =? 0); [by intros [= <- <-]|].
  destruct (len ms <? t); [by intros [= <- <-]|].
  destruct ms as [|[[n|q]|] rest]; [done| | |by apply IH].
  - case_bool_decide; [by apply IH|]. destruct (msgs !! n) as [msg|]; [|by apply IH].
    intros Hc. exec_inv. destruct r as [pred'|]; [|by eapply IH]. exec_inv.
    destruct r as [U2 p2]. case_bool_decide; eauto.
  - intros Hc. exec_inv. destruct r as [U2 p2]. case_bool_decide; eauto.
Qed.

Lemma findBlockingSetHelper_state fuel t (ms : list (MemberWrapper ID)) msgs pred S0 U p' :
  J pred → findBlockingSetHelper fuel t ms msgs pred S0 = Done (U, p') → J p'.
Proof using HJ.
  revert t ms pred S0 U p'.
  induction fuel as [|fuel IH]; intros t ms pred S0 U p' Hp; [done|].
  cbn [findBlockingSetHelper]. destruct (t =? 0); [by intros [= <- <-]|].
  destruct (len ms <? t); [by intros [= <- <-]|].
  destruct ms as [|[[n|q]|] rest]; [done| | |by apply IH].
  - destruct (msgs !! n) as [msg|]; [|by apply IH].
    intros Hc. exec_inv. destruct r as [pred'|]; eauto.
  - intros Hc. exec_inv. destruct r as [U2 p2]. case_bool_decide; eauto.
Qed.
End state_kept.

Section quorum_complete.
Context {V ID : Type} `{Countable V} `{Countable ID}.
Context (f : Msg V ID → bool) (msgs : gmap ID (Msg V ID)).

Lemma func_state p msg p' :
  p = mkFunc f → test p msg = Done (Some p') → p' = mkFunc f.
Proof. intros ->. simpl. unfold Func_test. simpl. destruct (f msg); naive_solver. Qed.

Lemma func_tests_total : tests_total msgs (λ p : FuncPredicate V ID, p = mkFunc f).
Proof.
  intros p n msg -> _. simpl. unfold Func_test. eexists. split; [done|].
  simpl. destruct (f msg); naive_solver.
Qed.

(** [G]: nodes whose messages satisfy [f] and whose quorum sets are satisfied
    by [G] and the nodes [base] the search takes for granted. *)
Context (base G : gset ID).
Context (HG : ∀ n, n ∈ G → n ∉ base →
  ∃ msg, msgs !! n = Some msg ∧ f msg = true ∧ is_slice (G ∪ base) (msg_quorum_set msg) = true).

Lemma findQuorumHelper_complete fuel t (ms : list (MemberWrapper ID)) S0 U p' :
  base ⊆ S0 → S0 ≠ ∅ → t <= countb (member_sat (G ∪ S0)) ms →
  findQuorumHelper fuel t ms msgs (mkFunc f) S0 = Done (U, p') → U ≠ ∅.
Proof using HG.
  revert t ms S0 U p'.
  induction fuel as [|fuel IH]; intros t ms S0 U p' Hbase HS0 Ht; [done|].
  cbn [findQuorumHelper]. destruct (N.eqb_spec t 0) as [->|Ht0]; [by intros [= <- _]|].
  destruct (N.ltb_spec (len ms) t) as [Hlen|Hlen].
  { pose proof (countb_le_len (member_sat (G ∪ S0)) ms). lia. }
  destruct ms as [|m rest]; [done|]. cbn [countb] in Ht. intros Hcall.
  assert (Hskip : member_sat (G ∪ S0) m = false →
    findQuorumHelper fuel t rest msgs (mkFunc f) S0 = Done (U, p') → U ≠ ∅).
  { intros Hm. rewrite Hm in Ht. by apply IH. }
  assert (Hcount : ∀ S1 p1, S0 ⊆ S1 → p1 = mkFunc f →
    findQuorumHelper fuel (t - 1) rest msgs p1 S1 = Done (U, p') → U ≠ ∅).
  { intros S1 p1 HS1 ->. apply IH; [set_solver..|].
    assert (Hle : countb (member_sat (G ∪ S0)) rest <= countb (member_sat (G ∪ S1)) rest)
      by (apply count_sat_mono; set_solver).
    destruct (member_sat (G ∪ S0) m); lia. }
  assert (Hsub : ∀ t' ms' S1 U2 p2, S0 ⊆ S1 →
    findQuorumHelper fuel t' ms' msgs (mkFunc f) S1 = Done (U2, p2) → U2 ≠ ∅ →
    findQuorumHelper fuel (t - 1) rest msgs p2 U2 = Done (U, p') → U ≠ ∅).
  { intros t' ms' S1 U2 p2 HS1 E HU2. apply Hcount.
    - pose proof (findQuorumHelper_sound (λ _ _, True) fuel _ _ _ _ _ _ _ E HU2) as [[? _] _].
      by transitivity S1.
    - eapply (findQuorumHelper_state (λ p, p = mkFunc f) func_state); [|exact E]. done. }
  destruct m as [[n|q]|]; [| |by apply Hskip].
  - case_bool_decide as Hn; [by eapply Hcount|].
    assert (HnG : n ∉ G → member_sat (G ∪ S0) (Some (Node n)) = false).
    { intros. simpl. apply bool_decide_eq_false_2. set_solver. }
    destruct (decide (n ∈ G)) as [Hin|Hnin].
    + destruct (HG n Hin) as (msg & Emsg & Hf & Hsl); [set_solver|].
      rewrite Emsg in Hcall. simpl in Hcall. rewrite Hf in Hcall. simpl in Hcall.
      exec_inv. destruct r as [U2 p2].
      assert (HU2 : U2 ≠ ∅).
      { eapply IH; [| | |exact E]; [set_solver..|].
        destruct (msg_quorum_set msg) as [t' ms']. simpl. rewrite is_slice_unfold in Hsl.
        apply N.leb_le in Hsl. etransitivity; [exact Hsl|]. apply count_sat_mono. set_solver. }
      rewrite bool_decide_eq_true_2 in Hcall by done.
      eapply Hsub; [|exact E|done|exact Hcall]; set_solver.
    + specialize (HnG Hnin). destruct (msgs !! n) as [msg|] eqn:Emsg; [|by apply Hskip].
      simpl in Hcall. destruct (f msg); simpl in Hcall; [|by apply Hskip].
      exec_inv. destruct r as [U2 p2]. case_bool_decide as HU2; [|by apply Hskip].
      eapply Hsub; [|exact E|done|exact Hcall]; set_solver.
  - exec_inv. destruct r as [U2 p2]. case_bool_decide as HU2.
    + by eapply Hsub; [|exact E|done|exact Hcall].
    + apply Hskip; [|done]. simpl. destruct (is_slice (G ∪ S0) q) eqn:Esl; [|done].
      exfalso. cut (U2 ≠ ∅); [by intros ?|]. eapply IH; [| | |exact E]; [done..|].
      destruct q as [t' ms']. rewrite is_slice_unfold in Esl. by apply N.leb_le.
Qed.
End quorum_complete.

(** ** Blocking sets *)

(** [U] blocks [q]: the members blocked by [U] reach the count the code asks
    for, at every level. *)
Fixpoint blocks {ID : Type} `{Countable ID} (U : gset ID) (q : QuorumSet ID) : bool :=
  match q with
  | QSet t ms =>
      u32_add (u32_sub (as_u32 (len ms)) t) 1 <=?
      countb (λ m, match m with
                   | Some (Node id) => bool_decide (id ∈ U)
                   | Some (InnerSet qs) => blocks U qs
                   | None => false
                   end) ms
  end.

Definition member_blocked {ID : Type} `{Countable ID} (U : gset ID) (m : MemberWrapper ID) : bool :=
  match m with
  | Some (Node id) => bool_decide (id ∈ U)
  | Some (InnerSet qs) => blocks U qs
  | None => false
  end.

(** The member counts of a quorum set fit in a [u32] with room to spare. *)
Fixpoint qs_small {ID : Type} (q : QuorumSet ID) : bool :=
  match q with
  | QSet t ms =>
      (len ms <? u32_max) &&
      forallb (λ m, match m with Some (InnerSet qs) => qs_small qs | _ => true end) ms
  end.

Section blocking.
Context {ID : Type} `{Countable ID}.
Implicit Types (U W : gset ID) (q : QuorumSet ID).

Lemma blocks_unfold U t (ms : list (MemberWrapper ID)) :
  blocks U (QSet t ms) =
    (u32_add (u32_sub (as_u32 (len ms)) t) 1 <=? countb (member_blocked U) ms).
Proof. done. Qed.

Lemma blocks_mono U W q : U ⊆ W → blocks U q = true → blocks W q = true.
Proof.
  intros HUW. induction q as [t ms IH] using QuorumSet_nested_ind.
  rewrite !blocks_unfold, !N.leb_le. intros Ht. etransitivity; [exact Ht|]. apply countb_mono.
  eapply Forall_impl; [exact IH|]. intros [[i|q]|]; simpl; auto.
  rewrite !bool_decide_eq_true. set_solver.
Qed.

Lemma member_blocked_mono U W (m : MemberWrapper ID) :
  U ⊆ W → member_blocked U m = true → member_blocked W m = true.
Proof.
  intros HUW. destruct m as [[i|q]|]; simpl; [|by apply blocks_mono|done].
  rewrite !bool_decide_eq_true. set_solver.
Qed.

(** On valid quorum sets the count is [n - k + 1]. *)
Lemma needed_exact t (ms : list (MemberWrapper ID)) :
  t <= len ms → len ms < u32_max →
  u32_add (u32_sub (as_u32 (len ms)) t) 1 = len ms - t + 1.
Proof.
  unfold u32_max. intros. assert (len ms < u32_modulus) by (unfold u32_modulus; lia).
  rewrite as_u32_small by done. rewrite u32_sub_small by done.
  apply u32_add_small. unfold u32_modulus. lia.
Qed.

Lemma valid_small_inv t (ms : list (MemberWrapper ID)) :
  is_valid (QSet t ms) = true → qs_small (QSet t ms) = true →
  t <= len ms ∧ len ms < u32_max ∧
  Forall (λ m, m ≠ None ∧
    member_inner (λ q, is_valid q = true ∧ qs_small q = true) m) ms.
Proof.
  cbn [is_valid qs_small]. rewrite !andb_true_iff, N.leb_le, N.ltb_lt, !forallb_Forall.
  intros [? Hv] [? Hs]. split_and!; [done..|].
  apply List.Forall_forall. intros m Hm.
  rewrite List.Forall_forall in Hv, Hs. specialize (Hv m Hm). specialize (Hs m Hm).
  by destruct m as [[i|q]|].
Qed.

Lemma countb_exclusive {A} (f g : A → bool) l :
  Forall (λ x, f x = true → g x = true → False) l → countb f l + countb g l <= len l.
Proof.
  induction 1 as [|x l Hx _ IH]; [done|]. rewrite len_cons. simpl.
  destruct (f x), (g x); [by destruct Hx|lia..].
Qed.

Lemma countb_covering {A} (f g : A → bool) l :
  Forall (λ x, f x = false → g x = true) l → len l <= countb f l + countb g l.
Proof.
  induction 1 as [|x l Hx _ IH]; [done|]. rewrite len_cons. simpl.
  destruct (f x); [|rewrite Hx by done]; destruct (g x); lia.
Qed.

(** A blocking set meets every slice... *)
Lemma blocks_meets U W q :
  is_valid q = true → qs_small q = true →
  blocks U q = true → is_slice W q = true → U ## W → False.
Proof.
  intros Hv Hs Hb Hw Hd. revert Hv Hs Hb Hw.
  induction q as [t ms IH] using QuorumSet_nested_ind. intros Hv Hs.
  destruct (valid_small_inv _ _ Hv Hs) as (Ht & Hl & Hms).
  rewrite blocks_unfold, is_slice_unfold, !N.leb_le, needed_exact by done.
  intros Hb Hw.
  assert (countb (member_blocked U) ms + countb (member_sat W) ms <= len ms); [|lia].
  apply countb_exclusive. apply List.Forall_forall. intros m Hm.
  rewrite List.Forall_forall in IH, Hms. specialize (IH m Hm). destruct (Hms m Hm) as [_ Hvm].
  destruct m as [[i|q]|]; simpl in *; [|naive_solver|done].
  rewrite !bool_decide_eq_true. set_solver.
Qed.

(** ... and a set that meets every slice blocks. *)
Lemma not_blocks_avoids U W q :
  is_valid q = true → qs_small q = true → nodes q ∖ U ⊆ W →
  blocks U q = false → is_slice W q = true.
Proof.
  revert W. induction q as [t ms IH] using QuorumSet_nested_ind. intros W Hv Hs HW.
  destruct (valid_small_inv _ _ Hv Hs) as (Ht & Hl & Hms).
  rewrite blocks_unfold, is_slice_unfold, N.leb_gt, N.leb_le, needed_exact by done.
  intros Hb.
  assert (len ms <= countb (member_blocked U) ms + countb (member_sat W) ms); [|lia].
  apply countb_covering. simpl in HW. clear Ht Hl Hv Hs Hb.
  induction IH as [|m ms Hm _ IHms]; constructor.
  - apply Forall_cons in Hms as [[Hn Hvm] _]. destruct m as [[i|q]|]; simpl in *; [| |done].
    + rewrite bool_decide_eq_false, bool_decide_eq_true. set_solver.
    + intros. destruct Hvm. apply Hm; [done..|set_solver|done].
  - apply IHms; [|by apply Forall_cons in Hms as [_ ?]].
    destruct m as [[i|q]|]; simpl in *; set_solver.
Qed.

Lemma blocks_iff U q :
  is_valid q = true → qs_small q = true →
  blocks U q = true ↔ ∀ W, is_slice W q = true → ¬ (U ## W).
Proof.
  intros Hv Hs. split.
  - intros Hb W Hw Hd. by eapply blocks_meets.
  - intros Hall. destruct (blocks U q) eqn:E; [done|].
    destruct (Hall (nodes q ∖ U)); [|set_solver].
    apply (not_blocks_avoids U); [done|done|set_solver|done].
Qed.
End blocking.

Section blocking_search.
Context {V ID : Type} `{Countable V} `{Countable ID}.
Implicit Types msgs : gmap ID (Msg V ID).

Section sound.
Context {P R : Type} `{!Predicate V ID P R} (Q : Msg V ID → P → Prop) `{!PredicateInv Q}.

Definition blocking_extension msgs (S0 U : gset ID) (p p' : P) : Prop :=
  S0 ⊆ U ∧
  (∀ n, n ∈ U → n ∉ S0 → ∃ msg, msgs !! n = Some msg ∧ Q msg p') ∧
  (∀ msg, Q msg p → Q msg p').

Lemma blocking_extension_trans msgs (S0 S1 U : gset ID) p p1 p' :
  blocking_extension msgs S0 S1 p p1 → blocking_extension msgs S1 U p1 p' →
  blocking_extension msgs S0 U p p'.
Proof.
  intros (Hs & Hn & HQ) (Hs' & Hn' & HQ'). split_and!; [set_solver| |auto].
  intros n HnU HnS. destruct (decide (n ∈ S1)) as [Hin|Hin]; [|by apply Hn'].
  destruct (Hn n Hin HnS) as (msg & ? & ?). eauto.
Qed.

Lemma findBlockingSetHelper_sound fuel t (ms : list (MemberWrapper ID)) msgs pred S0 U p' :
  findBlockingSetHelper fuel t ms msgs pred S0 = Done (U, p') → U ≠ ∅ →
  blocking_extension msgs S0 U pred p' ∧ t <= countb (member_blocked U) ms.
Proof using Type*.
  revert t ms pred S0 U p'.
  induction fuel as [|fuel IH]; intros t ms pred S0 U p'; [done|].
  cbn [findBlockingSetHelper]. destruct (N.eqb_spec t 0) as [->|Ht].
  { intros [= <- <-] _. split; [|lia]. split_and!; [done|done|auto]. }
  destruct (N.ltb_spec (len ms) t); [by intros [= <- <-]|].
  destruct ms as [|m rest]; [done|]. intros Hcall HU.
  assert (Hskip : findBlockingSetHelper fuel t rest msgs pred S0 = Done (U, p') →
    blocking_extension msgs S0 U pred p' ∧ t <= countb (member_blocked U) (m :: rest)).
  { intros Hr. destruct (IH _ _ _ _ _ _ Hr HU) as [? ?]. split; [done|]. simpl. lia. }
  assert (Hcount : ∀ S1 p1, blocking_extension msgs S0 S1 pred p1 → member_blocked S1 m = true →
    findBlockingSetHelper fuel (t - 1) rest msgs p1 S1 = Done (U, p') →
    blocking_extension msgs S0 U pred p' ∧ t <= countb (member_blocked U) (m :: rest)).
  { intros S1 p1 Hext Hm Hr. destruct (IH _ _ _ _ _ _ Hr HU) as [Hext' ?].
    split; [by eapply blocking_extension_trans|]. simpl.
    rewrite (member_blocked_mono S1 U m) by (try apply Hext'; done). lia. }
  destruct m as [[n|q]|]; [| |by apply Hskip].
  - destruct (msgs !! n) as [msg|] eqn:Emsg; [|by apply Hskip].
    exec_inv. destruct r as [pred'|]; [|by apply Hskip].
    apply (Hcount ({[ n ]} ∪ S0) pred');
      [|simpl; apply bool_decide_eq_true_2; set_solver|exact Hcall].
    split_and!; [set_solver| |].
    + intros n' Hn'U Hn'S. assert (n' = n) as -> by set_solver.
      exists msg. split; [done|]. by eapply pinv_tested.
    + intros msg' HQ'. by eapply pinv_stable.
  - exec_inv. destruct r as [U2 p2]. case_bool_decide as HU2; [|by apply Hskip].
    destruct (IH _ _ _ _ _ _ E HU2) as [Hext Hc].
    apply (Hcount U2 p2); [exact Hext| |exact Hcall].
    destruct q. simpl. by apply N.leb_le.
Qed.

(** A successful search returns a set that blocks the quorum set and all of
    whose members sent a message the predicate accepted. *)
Lemma findBlockingSet_sound q msgs pred U p' :
  findBlockingSet q msgs pred = Done (U, p') → U ≠ ∅ →
  blocks U q = true ∧ ∀ n, n ∈ U → ∃ msg, msgs !! n = Some msg ∧ Q msg p'.
Proof using Type*.
  unfold findBlockingSet. intros Hf HU.
  destruct (findBlockingSetHelper_sound _ _ _ _ _ _ _ _ Hf HU) as [(_ & Hn & _) Hc].
  split; [|intros n Hin; apply Hn; set_solver].
  destruct q. simpl. by apply N.leb_le.
Qed.
End sound.

Section complete.
Context (f : Msg V ID → bool) (msgs : gmap ID (Msg V ID)) (F : gset ID).
Context (HF : ∀ n, n ∈ F → ∃ msg, msgs !! n = Some msg ∧ f msg = true).

Lemma findBlockingSetHelper_complete fuel t (ms : list (MemberWrapper ID)) S0 U p' :
  t ≠ 0 ∨ S0 ≠ ∅ →
  Forall (member_inner (λ q, is_valid q = true ∧ qs_small q = true)) ms →
  t <= countb (member_blocked F) ms →
  findBlockingSetHelper fuel t ms msgs (mkFunc f) S0 = Done (U, p') → U ≠ ∅.
Proof using HF.
  revert t ms S0 U p'.
  induction fuel as [|fuel IH]; intros t ms S0 U p' Hne Hms Ht; [done|].
  cbn [findBlockingSetHelper]. destruct (N.eqb_spec t 0) as [->|Ht0].
  { intros [= <- _]. by destruct Hne. }
  destruct (N.ltb_spec (len ms) t) as [Hlen|Hlen].
  { pose proof (countb_le_len (member_blocked F) ms). lia. }
  destruct ms as [|m rest]; [done|]. cbn [countb] in Ht. intros Hcall.
  apply Forall_cons in Hms as [Hm Hms].
  assert (Hskip : member_blocked F m = false →
    findBlockingSetHelper fuel t rest msgs (mkFunc f) S0 = Done (U, p') → U ≠ ∅).
  { intros HmF. rewrite HmF in Ht. apply IH; auto. }
  assert (Hcount : ∀ S1, S1 ≠ ∅ →
    findBlockingSetHelper fuel (t - 1) rest msgs (mkFunc f) S1 = Done (U, p') → U ≠ ∅).
  { intros S1 HS1. apply IH; [by right|done|]. destruct (member_blocked F m); lia. }
  destruct m as [[n|q]|]; [| |by apply Hskip].
  - destruct (decide (n ∈ F)) as [Hin|Hnin].
    + destruct (HF n Hin) as (msg & Emsg & Hf). rewrite Emsg in Hcall.
      simpl in Hcall. unfold Func_test in Hcall. simpl in Hcall. rewrite Hf in Hcall.
      eapply Hcount; [|exact Hcall]. set_solver.
    + assert (HnF : member_blocked F (Some (Node n)) = false)
        by (simpl; by apply bool_decide_eq_false_2).
      destruct (msgs !! n) as [msg|]; [|by apply Hskip].
      simpl in Hcall. destruct (f msg); simpl in Hcall; [|by apply Hskip].
      eapply Hcount; [|exact Hcall]. set_solver.
  - exec_inv. destruct r as [U2 p2]. case_bool_decide as HU2.
    + eapply Hcount; [exact HU2|].
      replace p2 with (mkFunc f) in Hcall; [done|]. symmetry.
      eapply (findBlockingSetHelper_state (λ p, p = mkFunc f) (func_state f)); [|exact E]. done.
    + apply Hskip; [|done]. simpl. destruct (blocks F q) eqn:Eb; [|done].
      exfalso. cut (U2 ≠ ∅); [by intros ?|].
      destruct Hm as [Hv Hs]. destruct q as [t' ms'].
      destruct (valid_small_inv _ _ Hv Hs) as (Hle & Hl & Hms').
      rewrite blocks_unfold in Eb. apply N.leb_le in Eb.
      eapply IH; [| | |exact E]; simpl.
      * left. rewrite needed_exact by done. lia.
      * eapply Forall_impl; [exact Hms'|]. by intros ? [_ ?].
      * done.
Qed.

Lemma findBlockingSet_complete q U p' :
  is_valid q = true → qs_small q = true → blocks F q = true →
  findBlockingSet q msgs (mkFunc f) = Done (U, p') → U ≠ ∅.
Proof using HF.
  intros Hv Hs Hb HU. destruct q as [t ms]. destruct (valid_small_inv _ _ Hv Hs) as (Ht & Hl & Hms).
  rewrite blocks_unfold in Hb. apply N.leb_le in Hb.
  eapply findBlockingSetHelper_complete; [| | |exact HU]; simpl.
  - left. rewrite needed_exact by done. lia.
  - eapply Forall_impl; [exact Hms|]. by intros ? [_ ?].
  - done.
Qed.
End complete.
End blocking_search.

(** ** What the searches decide *)

Section decides.
Context {V ID : Type} `{Countable V} `{Countable ID}.
Implicit Types (msgs : gmap ID (Msg V ID)) (q : QuorumSet ID).

Lemma findQuorum_spec q node_id msgs (f : Msg V ID → bool) :
  ∃ U, findQuorum q node_id msgs (mkFunc f) = Done (U, mkFunc f) ∧
    (U ≠ ∅ ↔ ∃ W, is_quorum msgs node_id q W ∧
      ∀ n, n ∈ W → n ≠ node_id → ∃ msg, msgs !! n = Some msg ∧ f msg = true) ∧
    (U ≠ ∅ → is_quorum msgs node_id q U ∧
      ∀ n, n ∈ U → n ≠ node_id → ∃ msg, msgs !! n = Some msg ∧ f msg = true).
Proof.
  destruct (findQuorum_total msgs _ (func_tests_total f msgs) q node_id (mkFunc f))
    as (U & p' & HU & ->); [done|].
  exists U. split; [done|].
  assert (Hsound : U ≠ ∅ → is_quorum msgs node_id q U ∧
    ∀ n, n ∈ U → n ≠ node_id → ∃ msg, msgs !! n = Some msg ∧ f msg = true).
  { intros Hne. pose proof (Func_inv (ID:=ID) f) as Hinv.
    destruct (findQuorum_sound _ _ _ _ _ _ _ HU Hne) as [Hq Hn].
    split; [done|]. intros n HnU Hn'. destruct (Hn n HnU Hn') as (msg & ? & HQ). eauto. }
  split; [split|done].
  - intros Hne. exists U. auto.
  - intros (W & (Hself & Hsl & Hothers) & Hf). unfold findQuorum in HU.
    eapply (findQuorumHelper_complete f msgs {[ node_id ]} W); [|done|set_solver| |exact HU].
    + intros n HnW Hn. destruct (Hothers n HnW) as (msg & Hmsg & Hs); [set_solver|].
      destruct (Hf n HnW) as (msg' & Hmsg' & Hfm); [set_solver|]. simplify_eq.
      exists msg. split_and!; [done..|]. eapply is_slice_mono; [|exact Hs]. set_solver.
    + destruct q as [t ms]. apply (is_slice_mono W (W ∪ {[node_id]})) in Hsl; [|set_solver].
      by apply N.leb_le.
Qed.

Lemma findBlockingSet_spec q msgs (f : Msg V ID → bool) :
  is_valid q = true → qs_small q = true →
  ∃ U, findBlockingSet q msgs (mkFunc f) = Done (U, mkFunc f) ∧
    (U ≠ ∅ ↔ ∀ W, is_slice W q = true →
       ∃ n msg, n ∈ W ∧ msgs !! n = Some msg ∧ f msg = true) ∧
    (U ≠ ∅ → (∀ n, n ∈ U → ∃ msg, msgs !! n = Some msg ∧ f msg = true) ∧
             ∀ W, is_slice W q = true → ¬ (U ## W)).
Proof.
  intros Hv Hs.
  destruct (findBlockingSet_total msgs _ (func_tests_total f msgs) q (mkFunc f))
    as (U & p' & HU & ->); [done|].
  exists U. split; [done|].
  assert (Hsound : U ≠ ∅ → (∀ n, n ∈ U → ∃ msg, msgs !! n = Some msg ∧ f msg = true) ∧
             ∀ W, is_slice W q = true → ¬ (U ## W)).
  { intros Hne. pose proof (Func_inv (ID:=ID) f) as Hinv.
    destruct (findBlockingSet_sound _ _ _ _ _ _ HU Hne) as [Hb Hn].
    split; [|by apply blocks_iff].
    intros n HnU. destruct (Hn n HnU) as (msg & ? & HQ). eauto. }
  split; [split|done].
  - intros Hne W HW. destruct (Hsound Hne) as [Hn Hmeet].
    destruct (decide (U ∩ W = ∅)) as [Hd|Hd]; [destruct (Hmeet W HW); set_solver|].
    apply set_choose_L in Hd as [n Hn']. destruct (Hn n) as (msg & ? & ?); [set_solver|].
    exists n, msg. set_solver.
  - intros Hall. set (F := dom (filter (λ kv : ID * Msg V ID, f kv.2 = true) msgs)).
    assert (HF : ∀ n, n ∈ F → ∃ msg, msgs !! n = Some msg ∧ f msg = true).
    { intros n [msg [??]%map_lookup_filter_Some]%elem_of_dom. eauto. }
    eapply (findBlockingSet_complete f msgs F HF); [done|done| |exact HU].
    apply blocks_iff; [done..|]. intros W HW Hd. destruct (Hall W HW) as (n & msg & Hn & Hm & Hf).
      apply (Hd n); [|done]. apply elem_of_dom. exists msg. by apply map_lookup_filter_Some.
Qed.
End decides.

(** ** Properties *)

Module SearchProps.
Section props.
Context {V ID : Type} `{Countable V} `{Countable ID}.
Implicit Types (msgs : gmap ID (Msg V ID)) (q : QuorumSet ID).

(** The quorum search for a condition on messages is total and decides
    the existence of a quorum: it returns a non-empty set exactly when some
    quorum of the node has all its other members send a message that satisfies
    the condition, and the set it returns is such a quorum. *)
Theorem findQuorum_decides q node_id msgs (f : Msg V ID → bool) :
  ∃ U, findQuorum q node_id msgs (mkFunc f) = Done (U, mkFunc f) ∧
    (U ≠ ∅ ↔ ∃ W, is_quorum msgs node_id q W ∧
      ∀ n, n ∈ W → n ≠ node_id → ∃ msg, msgs !! n = Some msg ∧ f msg = true) ∧
    (U ≠ ∅ → is_quorum msgs node_id q U ∧
      ∀ n, n ∈ U → n ≠ node_id → ∃ msg, msgs !! n = Some msg ∧ f msg = true).
Proof. apply findQuorum_spec. Qed.

(** The blocking-set search for a condition on messages is total and,
    for a valid quorum set, returns a non-empty set exactly when every slice of
    the quorum set has a node whose message satisfies the condition; the set it
    returns consists of such nodes and meets every slice. *)
Theorem findBlockingSet_decides q msgs (f : Msg V ID → bool) :
  is_valid q = true → qs_small q = true →
  ∃ U, findBlockingSet q msgs (mkFunc f) = Done (U, mkFunc f) ∧
    (U ≠ ∅ ↔ ∀ W, is_slice W q = true →
       ∃ n msg, n ∈ W ∧ msgs !! n = Some msg ∧ f msg = true) ∧
    (U ≠ ∅ → (∀ n, n ∈ U → ∃ msg, msgs !! n = Some msg ∧ f msg = true) ∧
             ∀ W, is_slice W q = true → ¬ (U ## W)).
Proof. apply findBlockingSet_spec. Qed.
End props.

(** The three-node cycle of the source's test utilities: node 1 trusts 2, node 2
    trusts 3, node 3 trusts 1; nodes 2 and 3 have voted for value 7. *)
Definition ex_nominate_msg (sender trusts : N) : Msg N N :=
  mkMsg sender 1 (Ctor.new_with_node_ids 1 [trusts]) (Nominate (mkNominate {[ 7 ]} ∅)).
Definition ex_msgs : gmap N (Msg N N) :=
  {[ 2 := ex_nominate_msg 2 3; 3 := ex_nominate_msg 3 1 ]}.
Definition ex_votes (m : Msg N N) : bool :=
  match votes_or_accepts_nominated m with Some s => bool_decide (7 ∈ s) | None => false end.

Lemma findBlockingSet_decides_witness :
  let q := Ctor.new_with_node_ids 1 [2] in
  ∃ U, findBlockingSet q ex_msgs (mkFunc ex_votes) = Done (U, mkFunc ex_votes) ∧
    (U ≠ ∅ ↔ ∀ W, is_slice W q = true →
       ∃ n msg, n ∈ W ∧ ex_msgs !! n = Some msg ∧ ex_votes msg = true) ∧
    (U ≠ ∅ → (∀ n, n ∈ U → ∃ msg, ex_msgs !! n = Some msg ∧ ex_votes msg = true) ∧
             ∀ W, is_slice W q = true → ¬ (U ## W)).
Proof. apply findBlockingSet_decides; by vm_compute. Defined.

Example findQuorum_three_node_cycle :
  findQuorum (Ctor.new_with_node_ids 1 [2]) 1 ex_msgs (mkFunc ex_votes)
  = Done ({[ 1; 2; 3 ]}, mkFunc ex_votes).
Proof. by vm_compute. Qed.
End SearchProps.
