(* ===== verification/SlotState.v ===== *)
(** * The state of a consensus slot

    The data of [consensus/scp/src/slot.rs]: the phases, the fields of [Slot] with
    one update function per mutable field, [SlotMetrics], and the salted hash of
    [consensus/scp/src/utils.rs] that drives leader selection. *)

From S2P Require Import Prelude Ord QuorumSet ScpMsg.

Local Open Scope N_scope.

(** [Phase]. *)
Inductive Phase : Type :=
| PhaseNominatePrepare
| PhasePrepare
| PhaseCommit
| PhaseExternalize.

#[export] Instance Phase_eq_dec : EqDecision Phase.
Proof. solve_decision. Defined.

(** The order in which a slot goes through the phases. *)
Definition phase_rank (p : Phase) : N :=
  match p with
  | PhaseNominatePrepare => 0
  | PhasePrepare => 1
  | PhaseCommit => 2
  | PhaseExternalize => 3
  end.

Section slot_state.
Context {V ID : Type} `{Countable V} `{Countable ID}.

(** The fields of [Slot]; the application functions and the logger are
    parameters of the section. *)
Record Slot : Type := mkSlot {
  s_slot_index : N; (* Current slot number. *)
  s_node_id : ID; (* Local node ID. *)
  s_quorum_set : QuorumSet ID; (* Local node quorum set. *)
  s_M : gmap ID (Msg V ID); (* Highest message from each node. *)
  s_W : gset V; (* Values proposed, not yet voted for. *)
  s_X : gset V; (* Values voted nominated. *)
  s_Y : gset V; (* Values accepted nominated. *)
  s_Z : gset V; (* Values confirmed nominated. *)
  s_B : Ballot V; (* Current ballot. *)
  s_P : option (Ballot V); (* Highest accepted prepared ballot. *)
  s_PP : option (Ballot V); (* Highest accepted prepared ballot below and incompatible with P. *)
  s_H : option (Ballot V); (* Highest ballot confirmed prepared / accepted committed / confirmed committed. *)
  s_C : option (Ballot V); (* Lowest ballot voted / accepted / confirmed committed. *)
  s_phase : Phase; (* Current phase. *)
  s_last_sent_msg : option (Msg V ID); (* Last message sent by us. *)
  s_max_priority_peers : gset ID; (* Nodes whose nominations we follow. *)
  s_nominate_round : N; (* Current nomination round. *)
  s_next_nominate_round_at : option N; (* Nomination timer. *)
  s_next_ballot_at : option N; (* Ballot timer. *)
  s_valid_values : gset V; (* Values already checked to be valid. *)
  s_base_round_interval : N; (* Base interval for round timeouts, in milliseconds. *)
  s_base_ballot_interval : N (* Base interval for ballot timeouts, in milliseconds. *)
}.

(** Field updates. *)
Definition set_M (v : gmap ID (Msg V ID)) (s : Slot) : Slot :=
  mkSlot (s_slot_index s) (s_node_id s) (s_quorum_set s) v (s_W s) (s_X s) (s_Y s) (s_Z s)
    (s_B s) (s_P s) (s_PP s) (s_H s) (s_C s) (s_phase s) (s_last_sent_msg s)
    (s_max_priority_peers s) (s_nominate_round s) (s_next_nominate_round_at s)
    (s_next_ballot_at s) (s_valid_values s) (s_base_round_interval s) (s_base_ballot_interval s).
Definition set_W (v : gset V) (s : Slot) : Slot :=
  mkSlot (s_slot_index s) (s_node_id s) (s_quorum_set s) (s_M s) v (s_X s) (s_Y s) (s_Z s)
    (s_B s) (s_P s) (s_PP s) (s_H s) (s_C s) (s_phase s) (s_last_sent_msg s)
    (s_max_priority_peers s) (s_nominate_round s) (s_next_nominate_round_at s)
    (s_next_ballot_at s) (s_valid_values s) (s_base_round_interval s) (s_base_ballot_interval s).
Definition set_X (v : gset V) (s : Slot) : Slot :=
  mkSlot (s_slot_index s) (s_node_id s) (s_quorum_set s) (s_M s) (s_W s) v (s_Y s) (s_Z s)
    (s_B s) (s_P s) (s_PP s) (s_H s) (s_C s) (s_phase s) (s_last_sent_msg s)
    (s_max_priority_peers s) (s_nominate_round s) (s_next_nominate_round_at s)
    (s_next_ballot_at s) (s_valid_values s) (s_base_round_interval s) (s_base_ballot_interval s).
Definition set_Y (v : gset V) (s : Slot) : Slot :=
  mkSlot (s_slot_index s) (s_node_id s) (s_quorum_set s) (s_M s) (s_W s) (s_X s) v (s_Z s)
    (s_B s) (s_P s) (s_PP s) (s_H s) (s_C s) (s_phase s) (s_last_sent_msg s)
    (s_max_priority_peers s) (s_nominate_round s) (s_next_nominate_round_at s)
    (s_next_ballot_at s) (s_valid_values s) (s_base_round_interval s) (s_base_ballot_interval s).
Definition set_Z (v : gset V) (s : Slot) : Slot :=
  mkSlot (s_slot_index s) (s_node_id s) (s_quorum_set s) (s_M s) (s_W s) (s_X s) (s_Y s) v
    (s_B s) (s_P s) (s_PP s) (s_H s) (s_C s) (s_phase s) (s_last_sent_msg s)
    (s_max_priority_peers s) (s_nominate_round s) (s_next_nominate_round_at s)
    (s_next_ballot_at s) (s_valid_values s) (s_base_round_interval s) (s_base_ballot_interval s).
Definition set_B (v : Ballot V) (s : Slot) : Slot :=
  mkSlot (s_slot_index s) (s_node_id s) (s_quorum_set s) (s_M s) (s_W s) (s_X s) (s_Y s) (s_Z s)
    v (s_P s) (s_PP s) (s_H s) (s_C s) (s_phase s) (s_last_sent_msg s) (s_max_priority_peers s)
    (s_nominate_round s) (s_next_nominate_round_at s) (s_next_ballot_at s) (s_valid_values s)
    (s_base_round_interval s) (s_base_ballot_interval s).
Definition set_P (v : option (Ballot V)) (s : Slot) : Slot :=
  mkSlot (s_slot_index s) (s_node_id s) (s_quorum_set s) (s_M s) (s_W s) (s_X s) (s_Y s) (s_Z s)
    (s_B s) v (s_PP s) (s_H s) (s_C s) (s_phase s) (s_last_sent_msg s) (s_max_priority_peers s)
    (s_nominate_round s) (s_next_nominate_round_at s) (s_next_ballot_at s) (s_valid_values s)
    (s_base_round_interval s) (s_base_ballot_interval s).
Definition set_PP (v : option (Ballot V)) (s : Slot) : Slot :=
  mkSlot (s_slot_index s) (s_node_id s) (s_quorum_set s) (s_M s) (s_W s) (s_X s) (s_Y s) (s_Z s)
    (s_B s) (s_P s) v (s_H s) (s_C s) (s_phase s) (s_last_sent_msg s) (s_max_priority_peers s)
    (s_nominate_round s) (s_next_nominate_round_at s) (s_next_ballot_at s) (s_valid_values s)
    (s_base_round_interval s) (s_base_ballot_interval s).
Definition set_H (v : option (Ballot V)) (s : Slot) : Slot :=
  mkSlot (s_slot_index s) (s_node_id s) (s_quorum_set s) (s_M s) (s_W s) (s_X s) (s_Y s) (s_Z s)
    (s_B s) (s_P s) (s_PP s) v (s_C s) (s_phase s) (s_last_sent_msg s) (s_max_priority_peers s)
    (s_nominate_round s) (s_next_nominate_round_at s) (s_next_ballot_at s) (s_valid_values s)
    (s_base_round_interval s) (s_base_ballot_interval s).
Definition set_C (v : option (Ballot V)) (s : Slot) : Slot :=
  mkSlot (s_slot_index s) (s_node_id s) (s_quorum_set s) (s_M s) (s_W s) (s_X s) (s_Y s) (s_Z s)
    (s_B s) (s_P s) (s_PP s) (s_H s) v (s_phase s) (s_last_sent_msg s) (s_max_priority_peers s)
    (s_nominate_round s) (s_next_nominate_round_at s) (s_next_ballot_at s) (s_valid_values s)
    (s_base_round_interval s) (s_base_ballot_interval s).
Definition set_phase (v : Phase) (s : Slot) : Slot :=
  mkSlot (s_slot_index s) (s_node_id s) (s_quorum_set s) (s_M s) (s_W s) (s_X s) (s_Y s) (s_Z s)
    (s_B s) (s_P s) (s_PP s) (s_H s) (s_C s) v (s_last_sent_msg s) (s_max_priority_peers s)
    (s_nominate_round s) (s_next_nominate_round_at s) (s_next_ballot_at s) (s_valid_values s)
    (s_base_round_interval s) (s_base_ballot_interval s).
Definition set_last_sent_msg (v : option (Msg V ID)) (s : Slot) : Slot :=
  mkSlot (s_slot_index s) (s_node_id s) (s_quorum_set s) (s_M s) (s_W s) (s_X s) (s_Y s) (s_Z s)
    (s_B s) (s_P s) (s_PP s) (s_H s) (s_C s) (s_phase s) v (s_max_priority_peers s)
    (s_nominate_round s) (s_next_nominate_round_at s) (s_next_ballot_at s) (s_valid_values s)
    (s_base_round_interval s) (s_base_ballot_interval s).
Definition set_max_priority_peers (v : gset ID) (s : Slot) : Slot :=
  mkSlot (s_slot_index s) (s_node_id s) (s_quorum_set s) (s_M s) (s_W s) (s_X s) (s_Y s) (s_Z s)
    (s_B s) (s_P s) (s_PP s) (s_H s) (s_C s) (s_phase s) (s_last_sent_msg s) v
    (s_nominate_round s) (s_next_nominate_round_at s) (s_next_ballot_at s) (s_valid_values s)
    (s_base_round_interval s) (s_base_ballot_interval s).
Definition set_nominate_round (v : N) (s : Slot) : Slot :=
  mkSlot (s_slot_index s) (s_node_id s) (s_quorum_set s) (s_M s) (s_W s) (s_X s) (s_Y s) (s_Z s)
    (s_B s) (s_P s) (s_PP s) (s_H s) (s_C s) (s_phase s) (s_last_sent_msg s)
    (s_max_priority_peers s) v (s_next_nominate_round_at s) (s_next_ballot_at s)
    (s_valid_values s) (s_base_round_interval s) (s_base_ballot_interval s).
Definition set_next_nominate_round_at (v : option N) (s : Slot) : Slot :=
  mkSlot (s_slot_index s) (s_node_id s) (s_quorum_set s) (s_M s) (s_W s) (s_X s) (s_Y s) (s_Z s)
    (s_B s) (s_P s) (s_PP s) (s_H s) (s_C s) (s_phase s) (s_last_sent_msg s)
    (s_max_priority_peers s) (s_nominate_round s) v (s_next_ballot_at s) (s_valid_values s)
    (s_base_round_interval s) (s_base_ballot_interval s).
Definition set_next_ballot_at (v : option N) (s : Slot) : Slot :=
  mkSlot (s_slot_index s) (s_node_id s) (s_quorum_set s) (s_M s) (s_W s) (s_X s) (s_Y s) (s_Z s)
    (s_B s) (s_P s) (s_PP s) (s_H s) (s_C s) (s_phase s) (s_last_sent_msg s)
    (s_max_priority_peers s) (s_nominate_round s) (s_next_nominate_round_at s) v
    (s_valid_values s) (s_base_round_interval s) (s_base_ballot_interval s).
Definition set_valid_values (v : gset V) (s : Slot) : Slot :=
  mkSlot (s_slot_index s) (s_node_id s) (s_quorum_set s) (s_M s) (s_W s) (s_X s) (s_Y s) (s_Z s)
    (s_B s) (s_P s) (s_PP s) (s_H s) (s_C s) (s_phase s) (s_last_sent_msg s)
    (s_max_priority_peers s) (s_nominate_round s) (s_next_nominate_round_at s)
    (s_next_ballot_at s) v (s_base_round_interval s) (s_base_ballot_interval s).

(** [SlotMetrics] and [get_metrics]. *)
Record SlotMetrics : Type := mkSlotMetrics {
  sm_phase : Phase;
  sm_num_voted_nominated : nat;
  sm_num_accepted_nominated : nat;
  sm_num_confirmed_nominated : nat;
  sm_cur_nomination_round : N;
  sm_bN : N
}.

Definition get_metrics (s : Slot) : SlotMetrics :=
  mkSlotMetrics (s_phase s) (size (s_X s)) (size (s_Y s)) (size (s_Z s))
    (s_nominate_round s) (bal_N (s_B s)).

Definition get_index (s : Slot) : N := s_slot_index s.
Definition get_last_message_sent (s : Slot) : option (Msg V ID) := s_last_sent_msg s.
End slot_state.

Arguments Slot V ID {_ _ _ _} : assert.

(** ** The salted hash *)

(** The [k] bytes of [n], most significant first ([to_be_bytes]). *)
Fixpoint be_bytes (k : nat) (n : N) : list N :=
  match k with
  | O => []
  | S k => (n / 256 ^ N.of_nat k) mod 256 :: be_bytes k n
  end.

(** The number a big-endian byte string stands for ([U256::from]). *)
Definition be_value (bytes : list N) : N := foldl (λ acc b, acc * 256 + b) 0 bytes.

(** [slot_round_salted_keccak]; the hash function itself is a parameter. *)
Definition slot_round_salted_keccak (fast_hash : list N → list N)
    (slot_index extra_salt round_index : N) (bytes : list N) : N :=
  be_value (fast_hash (be_bytes 8 slot_index ++ [extra_salt] ++ be_bytes 4 round_index ++ bytes)).

Definition u256_max : N := 2 ^ 256 - 1.
Definition u512_max : N := 2 ^ 512 - 1.

Lemma be_bytes_length k n : length (be_bytes k n) = k.
Proof. induction k; simpl; auto. Qed.

(** Big-endian encoding loses nothing. *)
Lemma be_value_app l1 l2 :
  be_value (l1 ++ l2) = be_value l1 * 256 ^ N.of_nat (length l2) + be_value l2.
Proof.
  unfold be_value. induction l2 as [|b l2 IH] using rev_ind.
  - rewrite app_nil_r. simpl. lia.
  - rewrite app_assoc, !foldl_snoc, IH, length_app. simpl.
    rewrite Nat.add_comm. simpl. rewrite Nat2N.inj_succ, N.pow_succ_r'. lia.
Qed.

Lemma be_bytes_value k n : n < 256 ^ N.of_nat k → be_value (be_bytes k n) = n.
Proof.
  assert (Hgen : be_value (be_bytes k n) = n mod 256 ^ N.of_nat k).
  { induction k as [|k IH].
    - simpl. by rewrite N.mod_1_r.
    - cbn [be_bytes]. match goal with |- be_value (?x :: ?l) = _ => change (x :: l) with ([x] ++ l) end.
      rewrite be_value_app, be_bytes_length, IH.
      rewrite Nat2N.inj_succ, N.pow_succ_r'.
      set (e := 256 ^ N.of_nat k). assert (e ≠ 0) by (apply N.pow_nonzero; done).
      unfold be_value. simpl. rewrite (N.mul_comm 256 e), N.Div0.mod_mul_r. lia. }
  intros Hn. rewrite Hgen. by apply N.mod_small.
Qed.
