(* ===== verification/SlotVoting.v ===== *)
(** * Federated voting: what a slot may accept or confirm

    The helper methods of [consensus/scp/src/slot.rs] that query the messages
    received so far: values accepted and confirmed nominated, ballots accepted and
    confirmed prepared, ballot ranges accepted and confirmed committed. *)

From S2P Require Import Prelude Ord QuorumSet ScpMsg Predicates QuorumSearch SlotState.

Local Open Scope N_scope.

(** ** Loops that may panic *)

(** [for x in l { acc = f(acc, x) }]. *)
Fixpoint exec_foldl {A B} (f : A → B → exec A) (acc : A) (l : list B) : exec A :=
  match l with
  | [] => Done acc
  | x :: l => let! acc := f acc x in exec_foldl f acc l
  end.

(** Keep the elements for which the test succeeds. *)
Definition exec_filter {A} (f : A → exec bool) (l : list A) : exec (list A) :=
  exec_foldl (λ acc x, let! b := f x in Done (if b : bool then acc ++ [x] else acc)) [] l.

(** Counter ranges of ballots, by value: [HashMap<Vec<V>, (u32, u32)>]. *)
Abbreviation Ranges V := (gmap (list V) (N * N)).

Section voting.
Context {V ID : Type} `{Countable V} `{!Ord V} `{Countable ID} `{!Ord ID} `{HI : HashIter}.
Implicit Types s : Slot V ID.

(** [find_blocking_set] and [find_quorum]. *)
Definition find_blocking_set {P R} `{!Predicate V ID P R} s (pred : P) : exec (gset ID * P) :=
  findBlockingSet (s_quorum_set s) (s_M s) pred.

Definition find_quorum {P R} `{!Predicate V ID P R} s (pred : P) : exec (gset ID * P) :=
  findQuorum (s_quorum_set s) (s_node_id s) (s_M s) pred.

(** ** Nominated values *)

Definition accepts_nominated_fn (msg : Msg V ID) (values : gset V) : gset V :=
  match accepts_nominated msg with
  | None => ∅
  | Some values_accepted_nominated => values ∩ values_accepted_nominated
  end.

Definition votes_or_accepts_nominated_fn (msg : Msg V ID) (values : gset V) : gset V :=
  match votes_or_accepts_nominated msg with
  | None => ∅
  | Some values_voted_or_accepted => values ∩ values_voted_or_accepted
  end.

(** All values accepted nominated by nodes other than the local node. *)
Definition accept_nominated_candidates s : gset V :=
  foldl (λ acc kv, if bool_decide (kv.1 = s_node_id s) then acc
                   else match accepts_nominated kv.2 with Some vals => acc ∪ vals | None => acc end)
    ∅ (hm_iter (s_M s)).

(** [additional_values_accepted_nominated]. *)
Definition additional_values_accepted_nominated s : exec (gset V) :=
  let! from_blocking_set :=
    exec_filter (λ value,
      let! (nodeIDs, _) := find_blocking_set s (mkValueSet {[ value ]} accepts_nominated_fn) in
      Done (bool_decide (nodeIDs ≠ ∅))) (btree_iter (accept_nominated_candidates s)) in
  let! (nodeIDs, pred) := find_quorum s (mkValueSet (s_X s) votes_or_accepts_nominated_fn) in
  let from_quorum := if bool_decide (nodeIDs ≠ ∅) then presult pred else ∅ in
  Done (list_to_set from_blocking_set ∪ from_quorum).

(** [additional_values_confirmed_nominated]. *)
Definition additional_values_confirmed_nominated s : exec (gset V) :=
  let! (quorum_ids, pred) :=
    find_quorum s (mkValueSet (s_Y s ∖ s_Z s) accepts_nominated_fn) in
  Done (if bool_decide (quorum_ids ≠ ∅) then presult pred else ∅).

(** ** Prepared ballots *)

(** The ballots below a ballot of each set with the same value. *)
Definition ballot_intersections (bs cs : gset (Ballot V)) : gset (Ballot V) :=
  list_to_set (a ← elements bs; b ← elements cs;
    if bool_decide (bal_X a = bal_X b)
    then [Ballot_new (N.min (bal_N a) (bal_N b)) (bal_X a)] else []).

Definition accepts_prepared_fn (msg : Msg V ID) (candidates : gset (Ballot V)) : gset (Ballot V) :=
  ballot_intersections (accepts_prepared msg) candidates.

Definition votes_or_accepts_prepared_fn (msg : Msg V ID) (candidates : gset (Ballot V)) :
    gset (Ballot V) :=
  ballot_intersections (votes_or_accepts_prepared msg) candidates.

(** Ballots some node of the quorum set has accepted prepared. *)
Definition accept_prepared_candidates s : gset (Ballot V) :=
  foldl (λ acc node_id, match s_M s !! node_id with
                        | Some msg => acc ∪ accepts_prepared msg
                        | None => acc
                        end) ∅ (hs_iter (nodes (s_quorum_set s))).

(** Ballots for which the local node has issued vote-or-accept prepare. *)
Definition own_prepare_candidates s : gset (Ballot V) :=
  (if negb (is_zero (s_B s)) then {[ s_B s ]} else ∅) ∪
  match s_P s with
  | Some P => {[ P ]} ∪ match s_PP s with Some PP => {[ PP ]} | None => ∅ end
  | None => ∅
  end.

(** [ballots_accepted_prepared]. *)
Definition ballots_accepted_prepared s : exec (list (Ballot V)) :=
  let! from_blocking_set :=
    exec_filter (λ ballot,
      let! (nodeIDs, _) := find_blocking_set s (mkBallotSet {[ ballot ]} accepts_prepared_fn) in
      Done (bool_decide (nodeIDs ≠ ∅))) (hs_iter (accept_prepared_candidates s)) in
  let! (nodeIDs, pred) :=
    find_quorum s (mkBallotSet (own_prepare_candidates s) votes_or_accepts_prepared_fn) in
  let by_quorum := if bool_decide (nodeIDs ≠ ∅) then presult pred else ∅ in
  Done (hs_iter (list_to_set from_blocking_set ∪ by_quorum : gset (Ballot V))).

(** [ballots_confirmed_prepared]. *)
Definition ballots_confirmed_prepared s : exec (list (Ballot V)) :=
  let! accepted := ballots_accepted_prepared s in
  let! (node_ids, pred) :=
    find_quorum s (mkBallotSet (list_to_set accepted) accepts_prepared_fn) in
  Done (if bool_decide (node_ids ≠ ∅) then hs_iter (presult pred : gset (Ballot V)) else []).

(** ** Committed ballots *)

(** The test functions of the range predicates: overlap every range with what
    the message says. *)
Definition ranges_overlap (says : list V → N → N → exec (option (N * N))) (ballot_ranges : Ranges V) :
    exec (Ranges V) :=
  exec_foldl (λ (intersection : Ranges V) kv,
    let! o := says kv.1 kv.2.1 kv.2.2 in
    Done (match o with Some (a, b) => <[ kv.1 := (a, b) ]> intersection | None => intersection end))
    ∅ (hm_iter ballot_ranges).

Definition votes_or_accepts_commits_fn (msg : Msg V ID) (ballot_ranges : Ranges V) : exec (Ranges V) :=
  ranges_overlap (votes_or_accepts_commits msg) ballot_ranges.

(** This one asserts that the ranges it is given and returns are not empty. *)
Definition accepts_commits_fn (msg : Msg V ID) (ballot_ranges : Ranges V) : exec (Ranges V) :=
  ranges_overlap (λ values min max,
    assert! (min <=? max) in
    let! o := accepts_commits msg values min max in
    match o with
    | Some (a, b) => assert! (a <=? b) in Done (Some (a, b))
    | None => Done None
    end) ballot_ranges.

(** Ranges some node of the quorum set has accepted committed.  A later node
    overwrites an earlier one that accepted the same values. *)
Definition accept_committed_candidates s : exec (Ranges V) :=
  exec_foldl (λ (candidates : Ranges V) node_id,
    match s_M s !! node_id with
    | Some msg =>
        match topic msg with
        | Commit payload =>
            assert! (com_CN payload <=? com_HN payload) in
            Done (<[ bal_X (com_B payload) := (com_CN payload, com_HN payload) ]> candidates)
        | Externalize payload =>
            Done (<[ bal_X (ext_C payload) := (bal_N (ext_C payload), INFINITY) ]> candidates)
        | _ => Done candidates
        end
    | None => Done candidates
    end) ∅ (hs_iter (nodes (s_quorum_set s))).

(** The range for which the local node issues vote-or-accept commit. *)
Definition own_commit_candidates s : exec (Ranges V) :=
  match s_C s, s_H s with
  | Some C, Some H =>
      assert! (bal_N C <=? bal_N H) in
      Done (<[ bal_X (s_B s) := (bal_N C, bal_N H) ]> (∅ : Ranges V))
  | _, _ => Done ∅
  end.

(** "Upsert" of a range. *)
Definition upsert_range (ballot_ranges : Ranges V) (kv : list V * (N * N)) : Ranges V :=
  let '(values, (a, b)) := kv in
  match ballot_ranges !! values with
  | Some (c, d) => <[ values := (N.min a c, N.max b d) ]> ballot_ranges
  | None => <[ values := (a, b) ]> ballot_ranges
  end.

(** [ballots_accepted_committed]. *)
Definition ballots_accepted_committed s : exec (Ranges V) :=
  let! candidates := accept_committed_candidates s in
  let! from_blocking_set :=
    exec_filter (λ kv : list V * (N * N),
      let! (nodeIDs, _) :=
        find_blocking_set s (mkBallotRange {[ kv.1 := kv.2 ]} accepts_commits_fn) in
      Done (bool_decide (nodeIDs ≠ ∅))) (hm_iter candidates) in
  let! own := own_commit_candidates s in
  let! (nodeIDs, pred) := find_quorum s (mkBallotRange own votes_or_accepts_commits_fn) in
  let by_quorum : Ranges V := if bool_decide (nodeIDs ≠ ∅) then presult pred else ∅ in
  Done (foldl upsert_range ∅
          (hm_iter (list_to_map from_blocking_set : Ranges V) ++ hm_iter by_quorum)).

(** The ranges the local node itself accepts committed. *)
Definition confirm_committed_candidates s : exec (Ranges V) :=
  match s_phase s with
  | PhaseCommit =>
      let hn := match s_H s with Some h => bal_N h | None => 0 end in
      let cn := match s_C s with Some c => bal_N c | None => 0 end in
      Done (<[ bal_X (s_B s) := (cn, hn) ]> (∅ : Ranges V))
  | PhaseExternalize =>
      let! accepted := ballots_accepted_committed s in
      Done (match accepted !! bal_X (s_B s) with
            | Some (low, high) => <[ bal_X (s_B s) := (low, high) ]> (∅ : Ranges V)
            | None => ∅
            end)
  | _ => Done ∅
  end.

(** [ballots_confirmed_committed]. *)
Definition ballots_confirmed_committed s : exec (option (N * N)) :=
  if negb (bool_decide (s_phase s = PhaseCommit) || bool_decide (s_phase s = PhaseExternalize) ||
           match s_H s with None => true | Some _ => false end)
  then Done None
  else
    let! candidates := confirm_committed_candidates s in
    let! (node_ids, pred) := find_quorum s (mkBallotRange candidates accepts_commits_fn) in
    Done (if bool_decide (node_ids ≠ ∅) then presult pred !! bal_X (s_B s) else None).

(** ** Counters of other nodes *)

(** [get_unblocking_ballot_counter]: the lowest counter such that no blocking
    set is on a higher one.  The loop runs once per message at most. *)
Fixpoint unblocking_loop (fuel : nat) s (unblocking_counter : N) : exec N :=
  match fuel with
  | O => NoFuel
  | S fuel =>
      let! (blocking_set, _) :=
        find_blocking_set s (mkFunc (λ msg, unblocking_counter <? bN msg)) in
      if bool_decide (blocking_set = ∅) then Done unblocking_counter
      else
        let! counters :=
          exec_foldl (λ acc node_id, let! msg := unwrap (s_M s !! node_id) in Done (acc ++ [bN msg]))
            [] (hs_iter blocking_set) in
        let! min_ballot_counter := unwrap (iter_min counters) in
        unblocking_loop fuel s min_ballot_counter
  end.

Definition get_unblocking_ballot_counter s : exec N :=
  unblocking_loop (S (size (s_M s))) s (bal_N (s_B s)).
End voting.
