(* ===== verification/VotingProps.v ===== *)
(** * Federated voting: what the queries of a slot guarantee

    A node accepts a statement when a blocking set accepts it or a quorum votes
    for or accepts it, and confirms it when a quorum accepts it.  This file
    states these rules over the messages a slot holds ([federated_accept],
    [federated_confirm]) and proves that the queries of [SlotVoting] only return
    what the rules allow, that they do not panic on validated messages, and that
    the search for the unblocking counter ends with the least such counter. *)

From S2P Require Import Prelude Ord QuorumSet ScpMsg Predicates QuorumSearch SlotState SlotVoting.

Local Open Scope N_scope.

(** ** Loops *)

Section exec_loops.
Context {A B : Type}.

Lemma exec_foldl_inv (I : A → Prop) (f : A → B → exec A) acc l r :
  I acc → (∀ a x a', x ∈ l → I a → f a x = Done a' → I a') →
  exec_foldl f acc l = Done r → I r.
Proof.
  revert acc. induction l as [|x l IH]; simpl; intros acc Hacc Hf.
  - by intros [= <-].
  - intros (a' & Ea & Hr)%exec_bind_Done. eapply IH; [|intros; eapply Hf|exact Hr]; eauto.
    + eapply Hf; [left|exact Hacc|exact Ea].
    + by right.
Qed.

Lemma exec_foldl_total (I : A → Prop) (f : A → B → exec A) acc l :
  I acc → (∀ a x, x ∈ l → I a → ∃ a', f a x = Done a' ∧ I a') →
  ∃ r, exec_foldl f acc l = Done r ∧ I r.
Proof.
  revert acc. induction l as [|x l IH]; simpl; intros acc Hacc Hf; [by eauto|].
  destruct (Hf acc x) as (a' & -> & Ha'); [left|done|]. simpl.
  apply IH; [done|]. intros. apply Hf; [by right|done].
Qed.


Lemma exec_foldl_ext (f g : A → B → exec A) acc l :
  (∀ a x, x ∈ l → f a x = g a x) → exec_foldl f acc l = exec_foldl g acc l.
Proof.
  revert acc. induction l as [|x l IH]; simpl; intros acc Hfg; [done|].
  rewrite (Hfg acc x) by left. destruct (g acc x) as [a| |]; simpl; [|done|done].
  apply IH. intros. apply Hfg. by right.
Qed.
End exec_loops.

Section exec_filters.
Context {A : Type}.

Lemma exec_filter_elem (f : A → exec bool) l r x :
  exec_filter f l = Done r → x ∈ r → x ∈ l ∧ f x = Done true.
Proof.
  intros Hr. unfold exec_filter in Hr.
  eapply (exec_foldl_inv (λ r, x ∈ r → x ∈ l ∧ f x = Done true)); [|intros a y a'|exact Hr].
  - by intros ?%not_elem_of_nil.
  - intros Hy Ha (b & Eb & Hb)%exec_bind_Done. injection Hb as <-.
    destruct b; [|done]. rewrite elem_of_app, list_elem_of_singleton. naive_solver.
Qed.

Lemma exec_filter_total (f : A → exec bool) l :
  (∀ x, x ∈ l → ∃ b, f x = Done b) → ∃ r, exec_filter f l = Done r.
Proof.
  intros Hf. destruct (exec_foldl_total (λ _, True)
    (λ acc x, let! b := f x in Done (if b : bool then acc ++ [x] else acc)) [] l)
    as (r & Hr & _); [done| |by exists r].
  intros a x Hx _. destruct (Hf x Hx) as [b ->]. simpl. by eexists.
Qed.
End exec_filters.

(** ** The rules of federated voting *)

Section federated.
Context {V ID : Type} `{Countable V} `{!Ord V} `{Countable ID} `{!Ord ID}.
Implicit Types (s : Slot V ID) (St : Msg V ID → Prop).

(** Some quorum of the local node has all its other members say [St]. *)
Definition federated_confirm s St : Prop :=
  ∃ U, is_quorum (s_M s) (s_node_id s) (s_quorum_set s) U ∧
    ∀ n, n ∈ U → n ≠ s_node_id s → ∃ msg, s_M s !! n = Some msg ∧ St msg.

(** Some set that blocks the local node says [St]. *)
Definition federated_block s St : Prop :=
  ∃ U, U ≠ ∅ ∧ blocks U (s_quorum_set s) = true ∧
    ∀ n, n ∈ U → ∃ msg, s_M s !! n = Some msg ∧ St msg.

(** What a message says. *)
Definition says_accepted_nominated (v : V) (msg : Msg V ID) : Prop :=
  ∃ vals, accepts_nominated msg = Some vals ∧ v ∈ vals.
Definition says_voted_nominated (v : V) (msg : Msg V ID) : Prop :=
  ∃ vals, votes_or_accepts_nominated msg = Some vals ∧ v ∈ vals.
(** Preparing a ballot prepares the lower ballots with the same values. *)
Definition ballot_below (b a : Ballot V) : Prop := bal_X b = bal_X a ∧ bal_N b <= bal_N a.
Definition says_accepted_prepared (b : Ballot V) (msg : Msg V ID) : Prop :=
  ∃ a, a ∈ accepts_prepared msg ∧ ballot_below b a.
Definition says_voted_prepared (b : Ballot V) (msg : Msg V ID) : Prop :=
  ∃ a, a ∈ votes_or_accepts_prepared msg ∧ ballot_below b a.
(** The statement "vote or accept commit" over a whole range. *)
Definition votes_commit_range (msg : Msg V ID) (value : list V) (lo hi : N) : Prop :=
  match topic msg with
  | NominatePrepare _ p | Prepare p =>
      bal_X (prep_B p) = value ∧ prep_CN p ≠ 0 ∧ prep_CN p <= lo ∧ hi <= prep_HN p
  | Commit p => bal_X (com_B p) = value ∧ com_CN p <= lo ∧ hi <= INFINITY
  | Externalize p => bal_X (ext_C p) = value ∧ bal_N (ext_C p) <= lo ∧ hi <= INFINITY
  | Nominate _ => False
  end.

#[export] Instance ballot_below_trans : Transitive ballot_below.
Proof. intros a b c [? ?] [? ?]. split; [congruence|lia]. Qed.
#[export] Instance ballot_below_refl : Reflexive ballot_below.
Proof. intros a. split; [done|lia]. Qed.

Lemma votes_or_accepts_commits_sound (m : Msg V ID) value min max a b :
  votes_or_accepts_commits m value min max = Done (Some (a, b)) →
  votes_commit_range m value a b ∧ min <= a ∧ a <= b ∧ b <= max.
Proof.
  unfold votes_or_accepts_commits, votes_commit_range. destruct (min <=? max); [|done].
  intros [? (lo & hi & Hr & ? & ?)]%range_overlap_Some. split; [|done].
  destruct (topic m) as [p|p p'|p|p|p]; try done;
    case_bool_decide; simplify_eq; try done; simpl in Hr;
    match goal with Hr : context [?c =? 0] |- _ => destruct (N.eqb_spec c 0) end; naive_solver.
Qed.

Lemma votes_commit_range_sub (m : Msg V ID) value lo hi lo' hi' :
  votes_commit_range m value lo hi → lo <= lo' → hi' <= hi → votes_commit_range m value lo' hi'.
Proof. unfold votes_commit_range. destruct (topic m); naive_solver lia. Qed.

(** *** Searches *)

Section searches.
Context {P R : Type} `{!Predicate V ID P R} (Q : Msg V ID → P → Prop) `{!PredicateInv Q}.

Lemma find_quorum_sound s (pred : P) U p' :
  find_quorum s pred = Done (U, p') → U ≠ ∅ → federated_confirm s (λ msg, Q msg p').
Proof using Type*. intros Hf HU. exists U. by apply (findQuorum_sound Q) in Hf. Qed.

Lemma find_blocking_set_sound s (pred : P) U p' :
  find_blocking_set s pred = Done (U, p') → U ≠ ∅ → federated_block s (λ msg, Q msg p').
Proof using Type*. intros Hf HU. exists U. split; [done|]. by apply (findBlockingSet_sound Q) in Hf. Qed.
End searches.

Section search_states.
Context {P R : Type} `{!Predicate V ID P R} (J : P → Prop).
Context (HJ : ∀ p msg p', J p → test p msg = Done (Some p') → J p').

Lemma find_quorum_state s (pred : P) U p' :
  J pred → find_quorum s pred = Done (U, p') → J p'.
Proof using HJ. intros. by eapply (findQuorumHelper_state J HJ). Qed.

Lemma find_blocking_set_state s (pred : P) U p' :
  J pred → find_blocking_set s pred = Done (U, p') → J p'.
Proof using HJ. intros. by eapply (findBlockingSetHelper_state J HJ). Qed.
End search_states.

Lemma federated_confirm_impl s St St' :
  (∀ n msg, s_M s !! n = Some msg → St msg → St' msg) →
  federated_confirm s St → federated_confirm s St'.
Proof. intros HS (U & HU & Hn). exists U. split; [done|]. naive_solver. Qed.

Lemma federated_block_impl s St St' :
  (∀ n msg, s_M s !! n = Some msg → St msg → St' msg) →
  federated_block s St → federated_block s St'.
Proof. intros HS (U & HU & Hb & Hn). exists U. split_and!; [done|done|]. naive_solver. Qed.
End federated.

(** ** Set and range predicates *)

Section narrowing.
Context {V ID : Type} `{Countable V} `{!Ord V} `{Countable ID} `{!Ord ID}.
Implicit Types (s : Slot V ID).

(** Value sets: the test function keeps values the message speaks for. *)
Section values.
Context (f : Msg V ID → gset V → gset V) (says : V → Msg V ID → Prop).
Context (Hf : ∀ msg S v, v ∈ f msg S → v ∈ S ∧ says v msg).

Lemma values_inv :
  PredicateInv (λ msg (p : ValueSetPredicate V ID),
    vs_test_fn p = f → ∀ v, v ∈ vs_values p → says v msg).
Proof using Type* Hf.
  apply (ValueSet_inv f (λ msg S, ∀ v, v ∈ S → says v msg)).
  - intros msg S v. apply Hf.
  - intros msg S v. apply Hf.
  - intros msg S S' HS HSS v Hv. auto.
Qed.

Definition values_state (S0 : gset V) (p : ValueSetPredicate V ID) : Prop :=
  vs_test_fn p = f ∧ vs_values p ⊆ S0 ∧ (S0 ≠ ∅ → vs_values p ≠ ∅).

Lemma values_state_step S0 p msg p' :
  values_state S0 p → test p msg = Done (Some p') → values_state S0 p'.
Proof using Type* Hf.
  intros (Hp & HS & _). simpl. unfold ValueSet_test. do 2 (case_bool_decide; [done|]).
  intros [= <-]. split_and!; simpl; [done| |done]. intros v Hv. rewrite Hp in Hv. apply HS. by eapply Hf.
Qed.

Lemma find_quorum_values s S0 U p' v :
  find_quorum s (mkValueSet S0 f) = Done (U, p') → U ≠ ∅ → v ∈ vs_values p' →
  v ∈ S0 ∧ federated_confirm s (says v).
Proof using Type* Hf.
  intros Hq HU Hv.
  assert (values_state S0 p') as (Hp & HS & _)
    by (eapply find_quorum_state; [apply values_state_step| |exact Hq]; by split_and!). split; [by apply HS|].
  eapply federated_confirm_impl; [|by eapply (find_quorum_sound _ (PredicateInv0 := values_inv))].
  intros n msg _ HQ. by apply HQ.
Qed.

Lemma find_blocking_set_value s v U p' :
  find_blocking_set s (mkValueSet {[ v ]} f) = Done (U, p') → U ≠ ∅ →
  federated_block s (says v).
Proof using Type* Hf.
  intros Hb HU.
  assert (values_state {[ v ]} p') as (Hp & HS & Hne)
    by (eapply find_blocking_set_state; [apply values_state_step| |exact Hb]; by split_and!).
  eapply federated_block_impl; [|by eapply (find_blocking_set_sound _ (PredicateInv0 := values_inv))].
  intros n msg _ HQ. apply HQ; [done|]. destruct (set_choose_L (vs_values p')) as [v' Hv']; set_solver.
Qed.
End values.

(** Ballot sets: the test function returns ballots below those it is given
    that the message speaks for. *)
Section ballots.
Context (f : Msg V ID → gset (Ballot V) → gset (Ballot V)) (says : Ballot V → Msg V ID → Prop).
Context (Hf : ∀ msg S b, b ∈ f msg S → says b msg ∧ ∃ b0, b0 ∈ S ∧ ballot_below b b0).
Context (Hdown : ∀ msg b b', says b msg → ballot_below b' b → says b' msg).

Lemma ballots_inv :
  PredicateInv (λ msg (p : BallotSetPredicate V ID),
    bs_test_fn p = f → ∀ b, b ∈ bs_ballots p → says b msg).
Proof using Type* Hf Hdown.
  split.
  - intros p msg p'. simpl. unfold BallotSet_test. do 2 (case_bool_decide; [done|]).
    intros [= <-] Hp b Hb. simpl in *. rewrite Hp in Hb. by eapply Hf.
  - intros p msg msg' p' HQ. simpl. unfold BallotSet_test. do 2 (case_bool_decide; [done|]).
    intros [= <-] Hp b Hb. simpl in *. rewrite Hp in Hb.
    apply Hf in Hb as (_ & b0 & Hb0 & Hbelow). eauto.
Qed.

Definition ballots_state (S0 : gset (Ballot V)) (p : BallotSetPredicate V ID) : Prop :=
  bs_test_fn p = f ∧ (∀ b, b ∈ bs_ballots p → ∃ b0, b0 ∈ S0 ∧ ballot_below b b0) ∧
  (S0 ≠ ∅ → bs_ballots p ≠ ∅).

Lemma ballots_state_init S0 : ballots_state S0 (mkBallotSet S0 f).
Proof. split_and!; simpl; [done| |done]. intros b Hb. by exists b. Qed.

Lemma ballots_state_step S0 p msg p' :
  ballots_state S0 p → test p msg = Done (Some p') → ballots_state S0 p'.
Proof using Type* Hf.
  intros (Hp & HS & _). simpl. unfold BallotSet_test. do 2 (case_bool_decide; [done|]).
  intros [= <-]. split_and!; simpl; [done| |done]. intros b Hb. rewrite Hp in Hb.
  apply Hf in Hb as (_ & b1 & Hb1 & Hbelow). destruct (HS b1 Hb1) as (b0 & ? & ?).
  exists b0. split; [done|]. by etransitivity.
Qed.

Lemma find_quorum_ballots s S0 U p' b :
  find_quorum s (mkBallotSet S0 f) = Done (U, p') → U ≠ ∅ → b ∈ bs_ballots p' →
  (∃ b0, b0 ∈ S0 ∧ ballot_below b b0) ∧ federated_confirm s (says b).
Proof using Type* Hf Hdown.
  intros Hq HU Hb.
  assert (ballots_state S0 p') as (Hp & HS & _)
    by (eapply find_quorum_state; [apply ballots_state_step|apply ballots_state_init|exact Hq]).
  split; [by apply HS|].
  eapply federated_confirm_impl; [|by eapply (find_quorum_sound _ (PredicateInv0 := ballots_inv))].
  intros n msg _ HQ. by apply HQ.
Qed.

(** The blocking set speaks for some ballot below the one it was asked about. *)
Lemma find_blocking_set_ballot s b U p' :
  find_blocking_set s (mkBallotSet {[ b ]} f) = Done (U, p') → U ≠ ∅ →
  ∃ b', ballot_below b' b ∧ federated_block s (says b').
Proof using Type* Hf Hdown.
  intros Hb HU.
  assert (ballots_state {[ b ]} p') as (Hp & HS & Hne)
    by (eapply find_blocking_set_state; [apply ballots_state_step|apply ballots_state_init|exact Hb]).
  destruct (set_choose_L (bs_ballots p')) as [b' Hb']; [set_solver|].
  exists b'. split; [destruct (HS b' Hb') as (b0 & ->%elem_of_singleton & ?); done|].
  eapply federated_block_impl; [|by eapply (find_blocking_set_sound _ (PredicateInv0 := ballots_inv))].
  intros n msg _ HQ. by apply HQ.
Qed.
End ballots.

(** Ranges: the test function returns sub-ranges the message speaks for. *)
Section ranges.
Context (f : Msg V ID → Ranges V → exec (Ranges V)).
Context (says : Msg V ID → list V → N → N → Prop).

Definition sub_range (r r0 : N * N) : Prop := r0.1 <= r.1 ∧ r.2 <= r0.2.

Context (Hf : ∀ msg R R' x r, f msg R = Done R' → R' !! x = Some r →
  says msg x r.1 r.2 ∧ r.1 <= r.2 ∧ ∃ r0, R !! x = Some r0 ∧ sub_range r r0).
Context (Hdown : ∀ msg x lo hi lo' hi', says msg x lo hi → lo <= lo' → hi' <= hi →
  says msg x lo' hi').

Lemma ranges_inv :
  PredicateInv (λ msg (p : BallotRangePredicate V ID),
    br_test_fn p = f → ∀ x r, br_ballot_ranges p !! x = Some r → says msg x r.1 r.2).
Proof using Type* Hf Hdown.
  split.
  - intros p msg p'. simpl. unfold BallotRange_test. case_bool_decide; [done|].
    intros (R & ER & HR)%exec_bind_Done. case_bool_decide; [done|].
    injection HR as <-. simpl. intros Hp x r Hx. rewrite Hp in ER. by eapply Hf in ER as [? _].
  - intros p msg msg' p' HQ. simpl. unfold BallotRange_test. case_bool_decide; [done|].
    intros (R & ER & HR)%exec_bind_Done. case_bool_decide; [done|].
    injection HR as <-. simpl. intros Hp x r Hx. rewrite Hp in ER.
    eapply Hf in ER as (_ & _ & r0 & Hr0 & [? ?]); [|exact Hx]. eauto.
Qed.

Definition ranges_state (R0 : Ranges V) (p : BallotRangePredicate V ID) : Prop :=
  br_test_fn p = f ∧
  (∀ x r, br_ballot_ranges p !! x = Some r →
     ∃ r0, R0 !! x = Some r0 ∧ sub_range r r0 ∧ (r0.1 <= r0.2 → r.1 <= r.2)) ∧
  (R0 ≠ ∅ → br_ballot_ranges p ≠ ∅).

Lemma ranges_state_init R0 : ranges_state R0 (mkBallotRange R0 f).
Proof.
  split_and!; simpl; [done| |done]. intros x r Hx. exists r. unfold sub_range.
  split_and!; [done|lia..].
Qed.

Lemma ranges_state_step R0 p msg p' :
  ranges_state R0 p → test p msg = Done (Some p') → ranges_state R0 p'.
Proof using Type* Hf.
  intros (Hp & HS & _). simpl. unfold BallotRange_test. case_bool_decide; [done|].
  intros (R & ER & HR)%exec_bind_Done. case_bool_decide; [done|].
  injection HR as <-. split_and!; simpl; [done| |done]. intros x r Hx. rewrite Hp in ER.
  eapply Hf in ER as (_ & Hle & r1 & Hr1 & [? ?]); [|exact Hx].
  destruct (HS x r1 Hr1) as (r0 & ? & [? ?] & _). exists r0. unfold sub_range.
  split_and!; [done|lia..].
Qed.

Lemma find_quorum_ranges s R0 U p' x r :
  find_quorum s (mkBallotRange R0 f) = Done (U, p') → U ≠ ∅ →
  br_ballot_ranges p' !! x = Some r →
  (∃ r0, R0 !! x = Some r0 ∧ sub_range r r0 ∧ (r0.1 <= r0.2 → r.1 <= r.2)) ∧
  federated_confirm s (λ msg, says msg x r.1 r.2).
Proof using Type* Hf Hdown.
  intros Hq HU Hx.
  assert (ranges_state R0 p') as (Hp & HS & _)
    by (eapply find_quorum_state; [apply ranges_state_step|apply ranges_state_init|exact Hq]).
  split; [by apply HS|].
  eapply federated_confirm_impl; [|by eapply (find_quorum_sound _ (PredicateInv0 := ranges_inv))].
  intros n msg _ HQ. by apply (HQ Hp x r).
Qed.

(** The blocking set speaks for some part of the range it was asked about. *)
Lemma find_blocking_set_range s x r U p' :
  find_blocking_set s (mkBallotRange {[ x := r ]} f) = Done (U, p') → U ≠ ∅ →
  ∃ r', sub_range r' r ∧ (r.1 <= r.2 → r'.1 <= r'.2) ∧
    federated_block s (λ msg, says msg x r'.1 r'.2).
Proof using Type* Hf Hdown.
  intros Hb HU.
  assert (ranges_state {[ x := r ]} p') as (Hp & HS & Hne)
    by (eapply find_blocking_set_state; [apply ranges_state_step|apply ranges_state_init|exact Hb]).
  destruct (map_choose (br_ballot_ranges p')) as (x' & r' & Hx'); [by apply Hne, map_non_empty_singleton|].
  destruct (HS x' r' Hx') as (r0 & [<- <-]%lookup_singleton_Some & Hsub & Hle).
  exists r'. split_and!; [done|done|].
  eapply federated_block_impl; [|by eapply (find_blocking_set_sound _ (PredicateInv0 := ranges_inv))].
  intros n msg _ HQ. by apply (HQ Hp x r').
Qed.
End ranges.
End narrowing.

(** ** The queries *)

Section queries.
Context {V ID : Type} `{Countable V} `{!Ord V} `{Countable ID} `{!Ord ID} `{HI : HashIter}.
Implicit Types (s : Slot V ID).

Lemma accepts_nominated_fn_sound (msg : Msg V ID) S v :
  v ∈ accepts_nominated_fn msg S → v ∈ S ∧ says_accepted_nominated v msg.
Proof.
  unfold accepts_nominated_fn, says_accepted_nominated.
  destruct (accepts_nominated msg) as [vals|]; [|set_solver]. intros [? ?]%elem_of_intersection.
  eauto.
Qed.

Lemma votes_or_accepts_nominated_fn_sound (msg : Msg V ID) S v :
  v ∈ votes_or_accepts_nominated_fn msg S → v ∈ S ∧ says_voted_nominated v msg.
Proof.
  unfold votes_or_accepts_nominated_fn, says_voted_nominated.
  destruct (votes_or_accepts_nominated msg) as [vals|]; [|set_solver].
  intros [? ?]%elem_of_intersection. eauto.
Qed.

Lemma elem_of_ballot_intersections (bs cs : gset (Ballot V)) b :
  b ∈ ballot_intersections bs cs →
  (∃ a, a ∈ bs ∧ ballot_below b a) ∧ ∃ c, c ∈ cs ∧ ballot_below b c.
Proof.
  unfold ballot_intersections. rewrite elem_of_list_to_set, list_elem_of_bind.
  intros (a & Hb & Ha%elem_of_elements). apply list_elem_of_bind in Hb as (c & Hb & Hc%elem_of_elements).
  case_bool_decide as HX; [|by apply not_elem_of_nil in Hb].
  apply list_elem_of_singleton in Hb as ->. unfold ballot_below. simpl.
  split; [exists a|exists c]; split_and!; done || lia.
Qed.

Lemma says_accepted_prepared_down (msg : Msg V ID) b b' :
  says_accepted_prepared b msg → ballot_below b' b → says_accepted_prepared b' msg.
Proof. intros (a & ? & ?) ?. exists a. split; [done|]. by etransitivity. Qed.

Lemma says_voted_prepared_down (msg : Msg V ID) b b' :
  says_voted_prepared b msg → ballot_below b' b → says_voted_prepared b' msg.
Proof. intros (a & ? & ?) ?. exists a. split; [done|]. by etransitivity. Qed.

Lemma exec_foldl_ranges (says : list V → N → N → exec (option (N * N))) R R' x r :
  ranges_overlap says R = Done R' → R' !! x = Some r →
  ∃ r0, R !! x = Some r0 ∧ says x r0.1 r0.2 = Done (Some r).
Proof.
  unfold ranges_overlap. intros HR. revert r.
  eapply (exec_foldl_inv (λ R', ∀ r, R' !! x = Some r →
    ∃ r0, R !! x = Some r0 ∧ says x r0.1 r0.2 = Done (Some r))); [| |exact HR].
  - intros r. by rewrite lookup_empty.
  - intros acc [y r0] acc' Hy Hacc (o & Eo & Ho)%exec_bind_Done r Hr.
    injection Ho as <-. destruct o as [[a b]|]; [|by apply Hacc]. simpl in *.
    apply elem_of_hm_iter in Hy.
    apply lookup_insert_Some in Hr as [[-> <-]|[_ Hr]]; [by exists r0|by apply Hacc].
Qed.

Lemma votes_or_accepts_commits_fn_sound (msg : Msg V ID) R R' x r :
  votes_or_accepts_commits_fn msg R = Done R' → R' !! x = Some r →
  votes_commit_range msg x r.1 r.2 ∧ r.1 <= r.2 ∧ ∃ r0, R !! x = Some r0 ∧ sub_range r r0.
Proof.
  intros HR Hx. destruct (exec_foldl_ranges _ _ _ _ _ HR Hx) as (r0 & Hr0 & Hs).
  destruct r as [a b]. apply votes_or_accepts_commits_sound in Hs as (? & ? & ? & ?).
  split_and!; [done..|]. exists r0. by split_and!.
Qed.

Lemma accepts_commits_fn_sound (msg : Msg V ID) R R' x r :
  accepts_commits_fn msg R = Done R' → R' !! x = Some r →
  accepts_commit_range msg x r.1 r.2 ∧ r.1 <= r.2 ∧ ∃ r0, R !! x = Some r0 ∧ sub_range r r0.
Proof.
  intros HR Hx. destruct (exec_foldl_ranges _ _ _ _ _ HR Hx) as (r0 & Hr0 & Hs).
  exec_inv. destruct r1 as [[a b]|]; [|discriminate]. destruct (a <=? b); [|discriminate].
  injection Hs as <-. apply accepts_commits_sound in E as (? & ? & ? & ?).
  split_and!; [done..|]. exists r0. by split_and!.
Qed.

(** *** Nominated *)

Lemma accepted_nominated_spec s r v :
  additional_values_accepted_nominated s = Done r → v ∈ r →
  federated_block s (says_accepted_nominated v) ∨
  (v ∈ s_X s ∧ federated_confirm s (says_voted_nominated v)).
Proof.
  unfold additional_values_accepted_nominated. intros Hr Hv. exec_inv. destruct r1 as [U p].
  exec_inv. apply elem_of_union in Hv as [Hv%elem_of_list_to_set|Hv].
  - left. eapply exec_filter_elem in E as [_ Hb]; [|exact Hv]. exec_inv. destruct r as [U' p'].
    injection Hb as Hb. apply bool_decide_eq_true in Hb.
    eapply (find_blocking_set_value _ _ accepts_nominated_fn_sound); eauto.
  - right. case_bool_decide; [|set_solver].
    eapply (find_quorum_values _ _ votes_or_accepts_nominated_fn_sound); eauto.
Qed.

Lemma confirmed_nominated_spec s r v :
  additional_values_confirmed_nominated s = Done r → v ∈ r →
  v ∈ s_Y s ∖ s_Z s ∧ federated_confirm s (says_accepted_nominated v).
Proof.
  unfold additional_values_confirmed_nominated. intros Hr Hv. exec_inv. destruct r0 as [U p].
  exec_inv. case_bool_decide; [|set_solver].
  eapply (find_quorum_values _ _ accepts_nominated_fn_sound); eauto.
Qed.

(** *** Prepared *)

Lemma elem_of_accept_prepared_candidates s b :
  b ∈ accept_prepared_candidates s →
  ∃ n msg, n ∈ nodes (s_quorum_set s) ∧ s_M s !! n = Some msg ∧ b ∈ accepts_prepared msg.
Proof.
  unfold accept_prepared_candidates. setoid_rewrite <-(elem_of_hs_iter (nodes (s_quorum_set s))).
  induction (hs_iter _) as [|n l IH] using rev_ind; [set_solver|]. rewrite foldl_snoc.
  setoid_rewrite elem_of_app. destruct (s_M s !! n) as [msg|] eqn:En; [|naive_solver].
  rewrite elem_of_union. intros [Hb|Hb]; [naive_solver|]. exists n, msg. set_solver.
Qed.

Lemma accepts_prepared_fn_sound (msg : Msg V ID) S b :
  b ∈ accepts_prepared_fn msg S →
  says_accepted_prepared b msg ∧ ∃ b0, b0 ∈ S ∧ ballot_below b b0.
Proof. apply elem_of_ballot_intersections. Qed.

Lemma votes_or_accepts_prepared_fn_sound (msg : Msg V ID) S b :
  b ∈ votes_or_accepts_prepared_fn msg S →
  says_voted_prepared b msg ∧ ∃ b0, b0 ∈ S ∧ ballot_below b b0.
Proof. apply elem_of_ballot_intersections. Qed.

(** Either some node of the quorum set accepted [b] and a blocking set accepted
    a ballot below it, or a quorum and the local node vote for it. *)
Lemma accepted_prepared_spec s r b :
  ballots_accepted_prepared s = Done r → b ∈ r →
  (b ∈ accept_prepared_candidates s ∧
   ∃ b', ballot_below b' b ∧ federated_block s (says_accepted_prepared b')) ∨
  ((∃ b0, b0 ∈ own_prepare_candidates s ∧ ballot_below b b0) ∧
   federated_confirm s (says_voted_prepared b)).
Proof.
  unfold ballots_accepted_prepared. intros Hr Hb. exec_inv. destruct r1 as [U p].
  exec_inv. rewrite elem_of_hs_iter in Hb. apply elem_of_union in Hb as [Hb%elem_of_list_to_set|Hb].
  - left. eapply exec_filter_elem in E as [Hc Hd]; [|exact Hb]. exec_inv. destruct r as [U' p'].
    injection Hd as Hd. apply bool_decide_eq_true in Hd. split; [by apply elem_of_hs_iter in Hc|].
    eapply (find_blocking_set_ballot _ _ accepts_prepared_fn_sound); eauto.
    intros *. apply says_accepted_prepared_down.
  - right. case_bool_decide; [|set_solver].
    eapply (find_quorum_ballots _ _ votes_or_accepts_prepared_fn_sound); eauto.
    intros *. apply says_voted_prepared_down.
Qed.

Lemma confirmed_prepared_spec s r b :
  ballots_confirmed_prepared s = Done r → b ∈ r →
  (∃ acc b0, ballots_accepted_prepared s = Done acc ∧ b0 ∈ acc ∧ ballot_below b b0) ∧
  federated_confirm s (says_accepted_prepared b).
Proof.
  unfold ballots_confirmed_prepared. intros Hr Hb. exec_inv. destruct r1 as [U p].
  exec_inv. case_bool_decide; [|by apply not_elem_of_nil in Hb].
  apply elem_of_hs_iter in Hb.
  eapply (find_quorum_ballots _ _ accepts_prepared_fn_sound) in E0 as [(b0 & Hb0 & ?) ?];
    eauto; [|intros *; apply says_accepted_prepared_down].
  apply elem_of_list_to_set in Hb0. split; [|done]. by exists r0, b0.
Qed.

(** *** Committed *)

Lemma elem_of_accept_committed_candidates s R x r :
  accept_committed_candidates s = Done R → R !! x = Some r →
  ∃ n msg, n ∈ nodes (s_quorum_set s) ∧ s_M s !! n = Some msg ∧ accepts_commit_range msg x r.1 r.2.
Proof.
  unfold accept_committed_candidates. intros HR. revert r.
  eapply (exec_foldl_inv (λ R : Ranges V, ∀ r, R !! x = Some r →
    ∃ n msg, n ∈ nodes (s_quorum_set s) ∧ s_M s !! n = Some msg ∧
      accepts_commit_range msg x r.1 r.2)); [by intros r; rewrite lookup_empty| |exact HR].
  intros acc n acc' Hn%elem_of_hs_iter Hacc Hstep r Hr. cbv beta in Hstep.
  destruct (s_M s !! n) as [msg|] eqn:En; [|exec_inv; by apply Hacc].
  destruct (topic msg) as [p|p p'|p|p|p] eqn:Et; exec_inv; try by apply Hacc.
  - apply lookup_insert_Some in Hr as [[Hx <-]|[_ Hr]]; [|by apply Hacc].
    exists n, msg. unfold accepts_commit_range. rewrite Et. simpl. split_and!; done || lia.
  - apply lookup_insert_Some in Hr as [[Hx <-]|[_ Hr]]; [|by apply Hacc].
    exists n, msg. unfold accepts_commit_range. rewrite Et. simpl. split_and!; done || lia.
Qed.

(** The rule behind an entry of [ballots_accepted_committed]: some node accepted
    the range and a blocking set a part of it, or a quorum and the local node
    vote for it. *)
Definition range_accepted s (x : list V) (r : N * N) : Prop :=
  ((∃ n msg, n ∈ nodes (s_quorum_set s) ∧ s_M s !! n = Some msg ∧ accepts_commit_range msg x r.1 r.2) ∧
   ∃ r', sub_range r' r ∧ federated_block s (λ msg, accepts_commit_range msg x r'.1 r'.2)) ∨
  (x = bal_X (s_B s) ∧ federated_confirm s (λ msg, votes_commit_range msg x r.1 r.2)).

Lemma upsert_ends (L : list (list V * (N * N))) x lo hi :
  foldl upsert_range (∅ : Ranges V) L !! x = Some (lo, hi) →
  (∃ b, (x, (lo, b)) ∈ L) ∧ (∃ a, (x, (a, hi)) ∈ L).
Proof.
  revert lo hi. induction L as [|[y [a b]] L IH] using rev_ind; intros lo hi;
    [by simpl; rewrite lookup_empty|].
  rewrite foldl_snoc. unfold upsert_range at 1. setoid_rewrite elem_of_app.
  setoid_rewrite list_elem_of_singleton. set (F := foldl upsert_range ∅ L) in *.
  destruct (F !! y) as [[c d]|] eqn:Ey;
    (intros [[-> Heq]|[_ Hx]]%lookup_insert_Some; [|specialize (IH lo hi Hx); naive_solver]).
  - destruct (IH c d) as [[b' ?] [a' ?]]; [done|]. injection Heq as <- <-. split.
    + destruct (N.min_spec a c) as [[_ ->]|[_ ->]]; naive_solver.
    + destruct (N.max_spec b d) as [[_ ->]|[_ ->]]; naive_solver.
  - injection Heq as -> ->. naive_solver.
Qed.

Lemma own_commit_candidates_lookup s R x r :
  own_commit_candidates s = Done R → R !! x = Some r →
  x = bal_X (s_B s) ∧ r.1 <= r.2 ∧
  ∃ C H, s_C s = Some C ∧ s_H s = Some H ∧ r = (bal_N C, bal_N H).
Proof.
  unfold own_commit_candidates. destruct (s_C s) as [C|], (s_H s) as [h|]; intros HR Hx;
    exec_inv; try by rewrite lookup_empty in Hx.
  apply lookup_insert_Some in Hx as [[<- <-]|[_ Hx]]; [|by rewrite lookup_empty in Hx].
  apply N.leb_le in Eb. split_and!; [done|done|]. by exists C, h.
Qed.

(** Both ends of every accepted range obey the rule. *)
Lemma accepted_committed_spec s R x lo hi :
  ballots_accepted_committed s = Done R → R !! x = Some (lo, hi) →
  (∃ b, range_accepted s x (lo, b)) ∧ (∃ a, range_accepted s x (a, hi)).
Proof.
  unfold ballots_accepted_committed. intros HR Hx. exec_inv.
  destruct r2 as [U p]. rename E2 into Eq. exec_inv.
  match type of Hx with foldl _ _ ?L !! _ = _ => assert (Hent : ∀ r', (x, r') ∈ L → range_accepted s x r') end.
  { intros r' [Hr'|Hr']%elem_of_app; apply elem_of_hm_iter in Hr'.
    - left. apply elem_of_list_to_map_2 in Hr'.
      eapply exec_filter_elem in E0 as [Hc Hb]; [|exact Hr'].
      apply elem_of_hm_iter in Hc. apply exec_bind_Done in Hb as ([U' p'] & E2 & Hb).
      injection Hb as Hb. apply bool_decide_eq_true in Hb.
      split; [by eapply elem_of_accept_committed_candidates|].
      eapply (find_blocking_set_range _ _ accepts_commits_fn_sound) in E2 as (r'' & ? & _ & ?);
        [by exists r''| |done].
      intros *. apply accepts_commit_range_sub.
    - right. case_bool_decide; [|by rewrite lookup_empty in Hr'].
      eapply (find_quorum_ranges _ _ votes_or_accepts_commits_fn_sound) in Eq as [(q0 & Hr0 & _) ?];
        [|intros *; apply votes_commit_range_sub|done|exact Hr'].
      split; [|done]. by apply (own_commit_candidates_lookup _ _ _ _ E1) in Hr0 as [? _]. }
  apply upsert_ends in Hx as [[b Hb] [a Ha]]. split; eexists; by apply Hent.
Qed.

(** A confirmed range is accepted by a quorum, for the value of the ballot. *)
Lemma confirmed_committed_spec s lo hi :
  ballots_confirmed_committed s = Done (Some (lo, hi)) →
  federated_confirm s (λ msg, accepts_commit_range msg (bal_X (s_B s)) lo hi) ∧
  ∃ R r0, confirm_committed_candidates s = Done R ∧ R !! bal_X (s_B s) = Some r0 ∧
    sub_range (lo, hi) r0 ∧ (r0.1 <= r0.2 → lo <= hi).
Proof.
  unfold ballots_confirmed_committed. destruct (negb _); [done|]. intros Hr. exec_inv.
  destruct r0 as [U p]. rename E0 into Eq. injection Hr as Hr. case_bool_decide; [|done].
  eapply (find_quorum_ranges _ _ accepts_commits_fn_sound) in Eq as [(q0 & Hr0 & ? & ?) ?];
    [|intros *; apply accepts_commit_range_sub|done|exact Hr].
  split; [done|]. by exists r, q0.
Qed.
End queries.

(** ** The unblocking counter *)

Section unblocking.
Context {V ID : Type} `{Countable V} `{!Ord V} `{Countable ID} `{!Ord ID} `{HI : HashIter}.
Implicit Types (s : Slot V ID).

(** A blocking set is on a counter above [c]. *)
Definition blocked_above s (c : N) : Prop := federated_block s (λ msg, c < bN msg).

(** The nodes on a counter above [c]. *)
Definition nodes_above s (c : N) : gset ID :=
  dom (filter (λ kv : ID * Msg V ID, c < bN kv.2) (s_M s)).

Lemma elem_of_nodes_above s c n :
  n ∈ nodes_above s c ↔ ∃ msg, s_M s !! n = Some msg ∧ c < bN msg.
Proof.
  unfold nodes_above. rewrite elem_of_dom. unfold is_Some.
  by setoid_rewrite map_lookup_filter_Some.
Qed.

Lemma nodes_above_lt s c n msg :
  s_M s !! n = Some msg → c < bN msg →
  (size (nodes_above s (bN msg)) < size (nodes_above s c))%nat.
Proof.
  intros Hn Hc. apply subset_size. split.
  - intros m (msg' & Hm & Hlt)%elem_of_nodes_above.
    apply elem_of_nodes_above. exists msg'. split; [done|lia].
  - intros Hsub. assert (Hin : n ∈ nodes_above s c) by (apply elem_of_nodes_above; eauto).
    apply Hsub in Hin. apply elem_of_nodes_above in Hin as (msg' & Hm & Hlt).
    simplify_eq. lia.
Qed.

Lemma find_blocking_above s c :
  ∃ U, find_blocking_set s (mkFunc (λ msg, c <? bN msg)) = Done (U, mkFunc (λ msg, c <? bN msg)) ∧
    (U ≠ ∅ → blocks U (s_quorum_set s) = true ∧
             ∀ n, n ∈ U → ∃ msg, s_M s !! n = Some msg ∧ c < bN msg).
Proof.
  set (f := λ msg : Msg V ID, c <? bN msg).
  destruct (findBlockingSet_total (s_M s) _ (func_tests_total f (s_M s)) (s_quorum_set s) (mkFunc f))
    as (U & p' & HU & ->); [done|].
  exists U. split; [exact HU|]. intros Hne.
  destruct (findBlockingSet_sound _ (PredicateInv0 := Func_inv (ID:=ID) f) _ _ _ _ _ HU Hne) as [Hb Hn].
  split; [done|]. intros n HnU. destruct (Hn n HnU) as (msg & ? & HQ).
  exists msg. split; [done|]. by apply N.ltb_lt, HQ.
Qed.

Lemma blocking_counters s (l : list ID) acc :
  (∀ n, n ∈ l → is_Some (s_M s !! n)) →
  ∃ counters, exec_foldl (λ acc node_id, let! msg := unwrap (s_M s !! node_id) in Done (acc ++ [bN msg]))
    acc l = Done (acc ++ counters) ∧ length counters = length l ∧
    (∀ c, c ∈ counters → ∃ n msg, n ∈ l ∧ s_M s !! n = Some msg ∧ c = bN msg) ∧
    (∀ n msg, n ∈ l → s_M s !! n = Some msg → bN msg ∈ counters).
Proof.
  revert acc. induction l as [|n l IH]; intros acc Hl.
  - exists []. split_and!; [by simpl; rewrite app_nil_r|done|set_solver|set_solver].
  - destruct (Hl n) as [msg Hn]; [set_solver|].
    destruct (IH (acc ++ [bN msg])) as (cs & Hcs & Hlen & Hfrom & Hto); [set_solver|].
    exists (bN msg :: cs). simpl. rewrite Hn. simpl. rewrite Hcs.
    split_and!; [by rewrite (cons_middle (bN msg) acc cs), app_assoc|by simpl; lia| |].
    + intros c [->|Hc]%elem_of_cons; [by exists n, msg; set_solver|].
      destruct (Hfrom c Hc) as (n' & msg' & ? & ? & ?). exists n', msg'. set_solver.
    + intros n' msg' [->|Hn']%elem_of_cons Hm; [set_solver|].
      apply elem_of_cons. right. eauto.
Qed.

Lemma unblocking_loop_spec fuel s u :
  (size (nodes_above s u) < fuel)%nat →
  ∃ c U, unblocking_loop fuel s u = Done c ∧ u <= c ∧
    (∀ c', u <= c' → c' < c → blocked_above s c') ∧
    (U = ∅ ∧ find_blocking_set s (mkFunc (λ msg, c <? bN msg)) = Done (U, mkFunc (λ msg, c <? bN msg))).
Proof.
  revert u. induction fuel as [|fuel IH]; intros u Hfuel; [lia|].
  destruct (find_blocking_above s u) as (U & HU & Hblock).
  cbn [unblocking_loop]. rewrite HU. cbn [exec_bind].
  case_bool_decide as HUe.
  - exists u, U. split_and!; [done|lia|lia|done|done].
  - destruct (Hblock HUe) as [Hb Hn].
    destruct (blocking_counters s (hs_iter U) []) as (cs & -> & Hlen & Hfrom & Hto).
    { intros n Hin%elem_of_hs_iter. destruct (Hn n Hin) as (msg & -> & _). done. }
    simpl. destruct (iter_min cs) as [m|] eqn:Em.
    2:{ apply iter_min_None in Em as ->. exfalso. apply set_choose_L in HUe as [n HnU].
        destruct (Hn n HnU) as (msg & Hmsg & _). apply elem_of_hs_iter in HnU.
        by apply (Hto n msg HnU), not_elem_of_nil in Hmsg. }
    apply iter_min_Some in Em as [Hmin Hle]. simpl.
    destruct (Hfrom m Hmin) as (n & msg & Hin%elem_of_hs_iter & Hmsg & ->).
    destruct (Hn n Hin) as (? & ? & Hu). simplify_eq.
    destruct (IH (bN msg)) as (c & U' & Hc & Hge & Hleast & Hend).
    { pose proof (nodes_above_lt s u n msg). naive_solver lia. }
    exists c, U'. split; [done|]. split; [lia|]. split; [|exact Hend].
    intros c' Hc' Hlt. destruct (decide (bN msg <= c')) as [|Hsmall]; [by apply Hleast|].
    exists U. split_and!; [done..|]. intros n' Hn'. destruct (Hn n' Hn') as (m' & Hm' & _).
    exists m'. split; [done|].
    assert (ord_le (bN msg) (bN m')) as Hle' by (apply Hle, (Hto n'); [by apply elem_of_hs_iter|done]).
    change (bN msg <= bN m') in Hle'. lia.
Qed.

Lemma unblocking_counter_spec s :
  is_valid (s_quorum_set s) = true → qs_small (s_quorum_set s) = true →
  ∃ c, get_unblocking_ballot_counter s = Done c ∧ bal_N (s_B s) <= c ∧
    ¬ blocked_above s c ∧
    ∀ c', bal_N (s_B s) <= c' → c' < c → blocked_above s c'.
Proof.
  intros Hv Hsm.
  destruct (unblocking_loop_spec (S (size (s_M s))) s (bal_N (s_B s))) as (c & U & Hc & Hge & Hleast & HU & HS).
  { unfold nodes_above. rewrite size_dom. apply Nat.lt_succ_r.
    apply map_subseteq_size, map_filter_subseteq. }
  exists c. split_and!; [done|done| |done].
  intros (F & HFne & HF & Hn). revert HU.
  eapply (findBlockingSet_complete _ _ F); [|done|done|exact HF|exact HS].
  intros n Hin. destruct (Hn n Hin) as (msg & ? & ?). exists msg. split; [done|]. by apply N.ltb_lt.
Qed.
End unblocking.

(** ** The queries do not panic *)

Section totality.
Context {V ID : Type} `{Countable V} `{!Ord V, !TotalOrd V} `{Countable ID} `{!Ord ID} `{HI : HashIter}.
Implicit Types (s : Slot V ID).

(** The messages a slot holds passed [Msg::validate], and their counters are
    [u32]s. *)
Definition M_validated s : Prop :=
  ∀ n msg, s_M s !! n = Some msg → validate msg = Ok tt ∧ msg_u32 msg.

Lemma values_tests_total s :
  tests_total (s_M s) (λ _ : ValueSetPredicate V ID, True).
Proof.
  intros p n msg _ _. simpl. unfold ValueSet_test.
  repeat case_bool_decide; by eexists.
Qed.

Lemma ballots_tests_total s :
  tests_total (s_M s) (λ _ : BallotSetPredicate V ID, True).
Proof.
  intros p n msg _ _. simpl. unfold BallotSet_test.
  repeat case_bool_decide; by eexists.
Qed.

Definition ranges_ok (R : Ranges V) : Prop := ∀ x r, R !! x = Some r → r.1 <= r.2.

Section ranges_total.
Context (f : Msg V ID → Ranges V → exec (Ranges V)).
Context (Hf : ∀ msg R, validate msg = Ok tt → msg_u32 msg → ranges_ok R →
  ∃ R', f msg R = Done R' ∧ ranges_ok R').

Lemma ranges_tests_total s :
  M_validated s →
  tests_total (s_M s) (λ p : BallotRangePredicate V ID,
    br_test_fn p = f ∧ ranges_ok (br_ballot_ranges p)).
Proof using Hf.
  intros HM p n msg [Hp HR] Hn. destruct (HM n msg Hn) as [Hv Hu].
  simpl. unfold BallotRange_test. case_bool_decide; [by eexists|]. rewrite Hp.
  destruct (Hf msg _ Hv Hu HR) as (R' & -> & HR'). simpl.
  case_bool_decide; eexists; (split; [done|]); [done|]. by intros p' [= <-].
Qed.
End ranges_total.

Lemma ranges_overlap_total (says : list V → N → N → exec (option (N * N))) (R : Ranges V) :
  (∀ x r, R !! x = Some r → ∃ o, says x r.1 r.2 = Done o ∧ ∀ r', o = Some r' → r'.1 <= r'.2) →
  ∃ R', ranges_overlap says R = Done R' ∧ ranges_ok R'.
Proof.
  intros Hsays. unfold ranges_overlap. apply exec_foldl_total.
  - intros x r. by rewrite lookup_empty.
  - intros acc [x r] Hx Hacc. apply elem_of_hm_iter in Hx.
    destruct (Hsays x r Hx) as (o & Ho & Hok). simpl. rewrite Ho. simpl. eexists. split; [done|].
    destruct o as [[a b]|]; [|done]. intros y r' [[_ <-]|[_ Hr']]%lookup_insert_Some; [|by eapply Hacc].
    by apply Hok.
Qed.

Lemma votes_fn_total (msg : Msg V ID) R :
  validate msg = Ok tt → msg_u32 msg → ranges_ok R →
  ∃ R', votes_or_accepts_commits_fn msg R = Done R' ∧ ranges_ok R'.
Proof using TotalOrd0.
  intros Hv Hu HR. apply ranges_overlap_total. intros x r Hr.
  destruct (votes_or_accepts_commits_total msg x r.1 r.2 Hv Hu (HR x r Hr)) as [o Ho].
  exists o. split; [done|]. intros [a b] ->. by apply votes_or_accepts_commits_Some in Ho as (? & ? & ?).
Qed.

Lemma accepts_fn_total (msg : Msg V ID) R :
  validate msg = Ok tt → msg_u32 msg → ranges_ok R →
  ∃ R', accepts_commits_fn msg R = Done R' ∧ ranges_ok R'.
Proof using TotalOrd0.
  intros Hv Hu HR. apply ranges_overlap_total. intros x r Hr.
  destruct (accepts_commits_total msg x r.1 r.2 Hv Hu (HR x r Hr)) as [o Ho].
  rewrite (proj2 (N.leb_le _ _) (HR x r Hr)), Ho. simpl. destruct o as [[a b]|]; [|by exists None].
  apply accepts_commits_Some in Ho as (? & Hab & ?). rewrite (proj2 (N.leb_le _ _) Hab).
  eexists. split; [done|]. by intros ? [= <-].
Qed.

Lemma accepted_prepared_total s : ∃ r, ballots_accepted_prepared s = Done r.
Proof.
  unfold ballots_accepted_prepared.
  match goal with |- context [exec_filter ?f ?l] => destruct (exec_filter_total f l) as [l' ->] end.
  { intros b _. unfold find_blocking_set.
    destruct (findBlockingSet_total _ _ (ballots_tests_total s) (s_quorum_set s)
      (mkBallotSet {[ b ]} accepts_prepared_fn)) as (U & p' & -> & _); [done|]. by eexists. }
  simpl. unfold find_quorum.
  destruct (findQuorum_total _ _ (ballots_tests_total s) (s_quorum_set s) (s_node_id s)
    (mkBallotSet (own_prepare_candidates s) votes_or_accepts_prepared_fn)) as (U & p' & -> & _); [done|].
  by eexists.
Qed.

Lemma confirmed_prepared_total s : ∃ r, ballots_confirmed_prepared s = Done r.
Proof.
  unfold ballots_confirmed_prepared. destruct (accepted_prepared_total s) as [r ->]. simpl.
  unfold find_quorum.
  destruct (findQuorum_total _ _ (ballots_tests_total s) (s_quorum_set s) (s_node_id s)
    (mkBallotSet (list_to_set r) accepts_prepared_fn)) as (U & p' & -> & _); [done|]. by eexists.
Qed.

Lemma accepted_nominated_total s : ∃ r, additional_values_accepted_nominated s = Done r.
Proof.
  unfold additional_values_accepted_nominated.
  match goal with |- context [exec_filter ?f ?l] => destruct (exec_filter_total f l) as [l' ->] end.
  { intros v _. unfold find_blocking_set.
    destruct (findBlockingSet_total _ _ (values_tests_total s) (s_quorum_set s)
      (mkValueSet {[ v ]} accepts_nominated_fn)) as (U & p' & -> & _); [done|]. by eexists. }
  simpl. unfold find_quorum.
  destruct (findQuorum_total _ _ (values_tests_total s) (s_quorum_set s) (s_node_id s)
    (mkValueSet (s_X s) votes_or_accepts_nominated_fn)) as (U & p' & -> & _); [done|].
  by eexists.
Qed.

Lemma confirmed_nominated_total s : ∃ r, additional_values_confirmed_nominated s = Done r.
Proof.
  unfold additional_values_confirmed_nominated, find_quorum.
  destruct (findQuorum_total _ _ (values_tests_total s) (s_quorum_set s) (s_node_id s)
    (mkValueSet (s_Y s ∖ s_Z s) accepts_nominated_fn)) as (U & p' & -> & _); [done|]. by eexists.
Qed.

Lemma accept_committed_candidates_total s :
  M_validated s → ∃ R, accept_committed_candidates s = Done R ∧ ranges_ok R.
Proof.
  intros HM. apply exec_foldl_total.
  - intros x r. by rewrite lookup_empty.
  - intros acc n _ Hacc. destruct (s_M s !! n) as [msg|] eqn:En; [|by eauto].
    destruct (HM n msg En) as [Hv Hu]. unfold msg_u32 in Hu.
    destruct (topic msg) as [p|p p'|p|p|p] eqn:Et; try by eauto.
    + pose proof (validate_commit_range _ _ Hv Et) as Hle.
      rewrite (proj2 (N.leb_le _ _) Hle). eexists. split; [done|].
      intros x r [[_ <-]|[_ Hr]]%lookup_insert_Some; [done|by eapply Hacc].
    + eexists. split; [done|].
      intros x r [[_ <-]|[_ Hr]]%lookup_insert_Some; [|by eapply Hacc]. apply Hu.
Qed.

(** [C.N <= H.N], the assertion of the query. *)
Definition CH_ordered s : Prop :=
  ∀ C h, s_C s = Some C → s_H s = Some h → bal_N C <= bal_N h.

Lemma own_commit_candidates_total s :
  CH_ordered s → ∃ R, own_commit_candidates s = Done R ∧ ranges_ok R.
Proof.
  intros HCH. unfold own_commit_candidates.
  destruct (s_C s) as [C|] eqn:EC, (s_H s) as [h|] eqn:EH; try by (eexists; split; [done|];
    intros x r; rewrite lookup_empty).
  rewrite (proj2 (N.leb_le _ _) (HCH C h EC EH)). eexists. split; [done|].
  intros x r [[_ <-]|[_ Hr]]%lookup_insert_Some; [by apply HCH|by rewrite lookup_empty in Hr].
Qed.

Lemma foldl_upsert_ok (L : list (list V * (N * N))) (R : Ranges V) :
  ranges_ok R → (∀ x r, (x, r) ∈ L → r.1 <= r.2) → ranges_ok (foldl upsert_range R L).
Proof.
  revert R. induction L as [|[x [a b]] L IH]; simpl; intros R HR HL; [done|]. apply IH; [|set_solver].
  assert (a <= b) by (apply (HL x (a, b)); left).
  destruct (R !! x) as [[c d]|] eqn:Ex; intros y r [[_ <-]|[_ Hr]]%lookup_insert_Some;
    simpl; try done; try by eapply HR.
  specialize (HR _ _ Ex). simpl in HR. lia.
Qed.

Lemma accepted_committed_total s :
  M_validated s → CH_ordered s → ∃ R, ballots_accepted_committed s = Done R ∧ ranges_ok R.
Proof using TotalOrd0.
  intros HM HCH. unfold ballots_accepted_committed.
  destruct (accept_committed_candidates_total s HM) as (R1 & -> & HR1). simpl.
  match goal with |- context [exec_filter ?f ?l] => destruct (exec_filter_total f l) as [l' Hl'] end.
  { intros [x r] Hx. unfold find_blocking_set. simpl.
    destruct (findBlockingSet_total _ _ (ranges_tests_total _ accepts_fn_total s HM) (s_quorum_set s)
      (mkBallotRange {[ x := r ]} accepts_commits_fn)) as (U & p' & -> & _); [|by eexists].
    split; [done|]. simpl. intros y r' [_ <-]%lookup_singleton_Some. eapply HR1.
    by apply elem_of_hm_iter. }
  rewrite Hl'. destruct (own_commit_candidates_total s HCH) as (R2 & -> & HR2). simpl. unfold find_quorum.
  destruct (findQuorum_total _ _ (ranges_tests_total _ votes_fn_total s HM) (s_quorum_set s) (s_node_id s)
    (mkBallotRange R2 votes_or_accepts_commits_fn)) as (U & p' & -> & _ & HR'); [done|].
  simpl. eexists. split; [done|]. apply foldl_upsert_ok.
  - intros x r. by rewrite lookup_empty.
  - intros x r [Hx|Hx]%elem_of_app; apply elem_of_hm_iter in Hx.
    + apply elem_of_list_to_map_2 in Hx. eapply exec_filter_elem in Hl' as [Hx' _]; [|exact Hx].
      apply elem_of_hm_iter in Hx'. by eapply HR1.
    + case_bool_decide; [by eapply HR'|by rewrite lookup_empty in Hx].
Qed.

Lemma confirmed_committed_total s :
  M_validated s → CH_ordered s →
  (s_phase s = PhaseCommit → is_Some (s_C s) ∧ is_Some (s_H s)) →
  ∃ o, ballots_confirmed_committed s = Done o.
Proof using TotalOrd0.
  intros HM HCH Hsome. unfold ballots_confirmed_committed. destruct (negb _); [by eexists|].
  assert (∃ R, confirm_committed_candidates s = Done R ∧ ranges_ok R) as (R & -> & HR).
  { unfold confirm_committed_candidates. destruct (s_phase s).
    1,2: by (eexists; split; [done|]; intros x r; rewrite lookup_empty).
    - destruct Hsome as [[C EC] [h EH]]; [done|]. rewrite EC, EH. eexists. split; [done|].
      intros x r [[_ <-]|[_ Hr]]%lookup_insert_Some; [by apply HCH|by rewrite lookup_empty in Hr].
    - destruct (accepted_committed_total s HM HCH) as (R & -> & HR). simpl. eexists. split; [done|].
      destruct (R !! bal_X (s_B s)) as [[low high]|] eqn:El; intros x r;
        [|by rewrite lookup_empty].
      intros [[_ <-]|[_ Hr]]%lookup_insert_Some; [by eapply HR|by rewrite lookup_empty in Hr]. }
  simpl. unfold find_quorum.
  destruct (findQuorum_total _ _ (ranges_tests_total _ accepts_fn_total s HM) (s_quorum_set s) (s_node_id s)
    (mkBallotRange R accepts_commits_fn)) as (U & p' & -> & _); [done|]. by eexists.
Qed.
End totality.

(** ** Properties *)

Module FederatedVoting.
Section props.
Context {V ID : Type} `{Countable V} `{!Ord V, !TotalOrd V} `{Countable ID} `{!Ord ID} `{HI : HashIter}.
Implicit Types (s : Slot V ID).

(** The nomination queries are total and follow the rules of federated
    voting: a value is newly accepted only if a blocking set accepts it, or the
    node voted for it and the other members of a quorum voted for or accepted
    it; a value is newly confirmed only if it is accepted by the node and by
    the other members of a quorum. *)
Theorem nominated_values_follow_voting_rules s :
  (∃ accepted, additional_values_accepted_nominated s = Done accepted ∧
     ∀ v, v ∈ accepted → federated_block s (says_accepted_nominated v) ∨
       (v ∈ s_X s ∧ federated_confirm s (says_voted_nominated v))) ∧
  (∃ confirmed, additional_values_confirmed_nominated s = Done confirmed ∧
     ∀ v, v ∈ confirmed → v ∈ s_Y s ∖ s_Z s ∧ federated_confirm s (says_accepted_nominated v)).
Proof.
  destruct (accepted_nominated_total s) as [acc Hacc], (confirmed_nominated_total s) as [conf Hconf].
  split; [exists acc|exists conf]; (split; [done|]); intros v Hv.
  - by eapply accepted_nominated_spec.
  - by eapply confirmed_nominated_spec.
Qed.

(** The prepare queries are total.  A ballot is accepted prepared only
    if the other members of a quorum vote for or accept it and the node does
    too, or some node of the quorum set accepted it and a blocking set accepted
    a ballot with the same values that is not above it; a ballot is confirmed
    prepared only if the other members of a quorum accepted it. *)
Theorem prepared_ballots_follow_voting_rules s :
  ∃ accepted confirmed,
    ballots_accepted_prepared s = Done accepted ∧
    ballots_confirmed_prepared s = Done confirmed ∧
    (∀ b, b ∈ accepted →
      ((∃ n msg, n ∈ nodes (s_quorum_set s) ∧ s_M s !! n = Some msg ∧ b ∈ accepts_prepared msg) ∧
       ∃ b', ballot_below b' b ∧ federated_block s (says_accepted_prepared b')) ∨
      ((∃ b0, b0 ∈ own_prepare_candidates s ∧ ballot_below b b0) ∧
       federated_confirm s (says_voted_prepared b))) ∧
    (∀ b, b ∈ confirmed →
      (∃ b0, b0 ∈ accepted ∧ ballot_below b b0) ∧ federated_confirm s (says_accepted_prepared b)).
Proof.
  destruct (accepted_prepared_total s) as [acc Hacc], (confirmed_prepared_total s) as [conf Hconf].
  exists acc, conf. split_and!; [done|done| |].
  - intros b Hb. destruct (accepted_prepared_spec s acc b Hacc Hb) as [[Hc ?]|?]; [left|by right].
    split; [by apply elem_of_accept_prepared_candidates|done].
  - intros b Hb. destruct (confirmed_prepared_spec s conf b Hconf Hb) as [(acc' & b0 & Ha & ? & ?) ?].
    rewrite Hacc in Ha. injection Ha as <-. split; [by exists b0|done].
Qed.

(** On validated messages and with [C.N <= H.N] the commit queries do
    not panic.  Both ends of an accepted range obey the acceptance rule
    ([range_accepted]), accepted ranges are not empty, and a confirmed range
    is accepted by the other members of a quorum for the value of the node's
    ballot. *)
Theorem committed_ranges_follow_voting_rules s :
  M_validated s → CH_ordered s →
  (s_phase s = PhaseCommit → is_Some (s_C s) ∧ is_Some (s_H s)) →
  ∃ accepted confirmed,
    ballots_accepted_committed s = Done accepted ∧
    ballots_confirmed_committed s = Done confirmed ∧
    (∀ x lo hi, accepted !! x = Some (lo, hi) → lo <= hi ∧
      (∃ b, range_accepted s x (lo, b)) ∧ (∃ a, range_accepted s x (a, hi))) ∧
    (∀ lo hi, confirmed = Some (lo, hi) →
      federated_confirm s (λ msg, accepts_commit_range msg (bal_X (s_B s)) lo hi)).
Proof.
  intros HM HCH Hsome.
  destruct (accepted_committed_total s HM HCH) as (acc & Hacc & Hok).
  destruct (confirmed_committed_total s HM HCH Hsome) as [conf Hconf].
  exists acc, conf. split_and!; [done|done| |].
  - intros x lo hi Hx. split; [by apply (Hok x (lo, hi))|]. by eapply accepted_committed_spec.
  - intros lo hi ->. by apply confirmed_committed_spec.
Qed.

(** The unblocking counter is what its documentation says, the lowest
    counter, from the node's own on, such that no blocking set is on a higher
    one; the loop that computes it ends and never panics. *)
Theorem unblocking_counter_least s :
  is_valid (s_quorum_set s) = true → qs_small (s_quorum_set s) = true →
  ∃ c, get_unblocking_ballot_counter s = Done c ∧ bal_N (s_B s) <= c ∧
    ¬ blocked_above s c ∧
    ∀ c', bal_N (s_B s) <= c' → c' < c → blocked_above s c'.
Proof.
  apply unblocking_counter_spec.
Qed.
End props.

(** *** A small network: node 0 with quorum set 3 of [1; 2; 3; 4] *)

#[local] Existing Instance elements_iter.

Definition ex_qs : QuorumSet N := Ctor.new_with_node_ids 3 [1; 2; 3; 4].

Definition ex_slot (M : gmap N (Msg N N)) (B : Ballot N) (C h : option (Ballot N)) (phase : Phase) : Slot N N :=
  mkSlot 7 0 ex_qs M ∅ ∅ ∅ ∅ B (Some B) None h C phase None ∅ 1 None None ∅ 1000 1000.

Definition ex_prepare (sender counter prepared : N) : Msg N N :=
  mkMsg sender 7 ex_qs (Prepare (mkPrepare (mkBallot counter [20]) (Some (mkBallot prepared [20])) None 0 0)).

Definition ex_commit (sender cn hn : N) : Msg N N :=
  mkMsg sender 7 ex_qs (Commit (mkCommit (mkBallot hn [20]) hn cn hn)).

(** The messages of a concrete slot, one by one. *)
Ltac slot_msgs Hn :=
  cbv [s_M ex_slot] in Hn;
  repeat (apply lookup_insert_Some in Hn as [[<- <-]|[_ Hn]]);
  try apply lookup_singleton_Some in Hn as [<- <-].

(** Three peers accepted commits for overlapping ranges. *)
Definition ex_commit_slot : Slot N N :=
  ex_slot {[ 1 := ex_commit 1 1 3; 2 := ex_commit 2 2 4; 3 := ex_commit 3 1 5 ]}
    (mkBallot 3 [20]) (Some (mkBallot 1 [20])) (Some (mkBallot 3 [20])) PhaseCommit.

Lemma committed_ranges_witness :
  ∃ accepted confirmed,
    ballots_accepted_committed ex_commit_slot = Done accepted ∧
    ballots_confirmed_committed ex_commit_slot = Done confirmed ∧
    (∀ x lo hi, accepted !! x = Some (lo, hi) → lo <= hi ∧
      (∃ b, range_accepted ex_commit_slot x (lo, b)) ∧ (∃ a, range_accepted ex_commit_slot x (a, hi))) ∧
    (∀ lo hi, confirmed = Some (lo, hi) →
      federated_confirm ex_commit_slot (λ msg, accepts_commit_range msg [20] lo hi)).
Proof.
  apply (committed_ranges_follow_voting_rules ex_commit_slot).
  - intros n msg Hn. unfold ex_commit_slot in Hn. slot_msgs Hn; by vm_compute.
  - intros C h [= <-] [= <-]. by vm_compute.
  - intros _. split; by eexists.
Defined.

Example confirmed_range_is_the_overlap :
  ballots_confirmed_committed ex_commit_slot = Done (Some (2, 3)).
Proof. by vm_compute. Qed.

(** Two peers, which block the node, have moved to counters 5 and 4. *)
Definition ex_ahead_slot : Slot N N :=
  ex_slot {[ 1 := ex_prepare 1 5 5; 2 := ex_prepare 2 4 4; 3 := ex_prepare 3 2 2 ]}
    (mkBallot 1 [20]) None None PhasePrepare.

Lemma unblocking_counter_witness :
  ∃ c, get_unblocking_ballot_counter ex_ahead_slot = Done c ∧ 1 <= c ∧
    ¬ blocked_above ex_ahead_slot c ∧ ∀ c', 1 <= c' → c' < c → blocked_above ex_ahead_slot c'.
Proof. apply (unblocking_counter_least ex_ahead_slot); by vm_compute. Defined.

(** One peer claims to have accepted counter 9, another only counter 1. *)
Definition ex_overclaim_slot : Slot N N :=
  ex_slot {[ 1 := ex_prepare 1 9 9; 2 := ex_prepare 2 1 1 ]} (mkBallot 1 [10]) None None PhasePrepare.

(** The only message of the slot that speaks for counter 9. *)
Lemma ex_overclaim_alone n msg :
  s_M ex_overclaim_slot !! n = Some msg →
  says_accepted_prepared (mkBallot 9 [20]) msg ∨ says_voted_prepared (mkBallot 9 [20]) msg → n = 1.
Proof.
  intros Hn. unfold ex_overclaim_slot in Hn. slot_msgs Hn; [done|].
  assert (Hbal : ∀ a : Ballot N, a ∈ {[ mkBallot 1 [20] ]} ∪ ({[ mkBallot 1 [20] ]} ∪ ∅ : gset (Ballot N)) →
    ballot_below (mkBallot 9 [20]) a → 2 = 1).
  { intros a Ha [_ Hle]. assert (a = mkBallot 1 [20]) as -> by set_solver. done. }
  intros [(a & Ha & Hle)|(a & Ha & Hle)]; apply (Hbal a); try done; unfold accepts_prepared in Ha; set_solver.
Qed.

(** [ballots_accepted_prepared] can return a ballot that no rule of
    federated voting allows: a blocking set is searched for the ballot or any
    lower one with the same values, but the ballot itself is kept.  Here one
    peer, which does not block the node, claims counter 9; a second peer that
    accepted counter 1 is enough to accept counter 9. *)
Theorem accepted_prepared_overclaims :
  ∃ (s : Slot N N) b accepted,
    ballots_accepted_prepared s = Done accepted ∧ b ∈ accepted ∧
    M_validated s ∧
    ¬ federated_block s (says_accepted_prepared b) ∧
    ¬ federated_confirm s (says_voted_prepared b).
Proof.
  exists ex_overclaim_slot, (mkBallot 9 [20]). eexists. split; [by vm_compute|].
  split; [|split; [|split]].
  - apply list_elem_of_In. vm_compute. tauto.
  - intros n msg Hn. unfold ex_overclaim_slot in Hn. slot_msgs Hn; by vm_compute.
  - intros (U & _ & Hb & Hn). apply (blocks_mono U {[ 1 ]}) in Hb; [by vm_compute in Hb|].
    intros n Hin. destruct (Hn n Hin) as (msg & Hm & Hs).
    rewrite (ex_overclaim_alone n msg Hm); [set_solver|by left].
  - intros (U & (_ & Hsl & _) & Hn). apply (is_slice_mono U {[ 0; 1 ]}) in Hsl; [by vm_compute in Hsl|].
    intros n Hin. destruct (decide (n = 0)) as [->|Hne]; [set_solver|].
    destruct (Hn n Hin Hne) as (msg & Hm & Hs). rewrite (ex_overclaim_alone n msg Hm); [set_solver|by right].
Qed.
End FederatedVoting.
