(* ===== verification/Slot.v ===== *)
(** * The slot state machine

    The methods of [Slot] in [consensus/scp/src/slot.rs]: leader selection,
    the nominate, prepare, commit and externalize phases, the message a slot
    sends, and the three entry points ([propose_values], [handle_messages],
    [process_timeouts]).

    Methods take the slot and return the updated slot in [exec]: a failed
    [assert!], [unwrap] or [expect] is [Panic].  The [Result]s of the entry
    points are always [Ok] in the source and are left out.  [Instant::now()] is
    the argument [now], in milliseconds, one reading per entry point. *)

From S2P Require Import Prelude Ord QuorumSet ScpMsg Predicates QuorumSearch SlotState SlotVoting.

Local Open Scope N_scope.

(** The application a slot runs for: validation and combination of values, the
    public key that identifies a node, and the hash function behind leader
    selection. *)
Class Application (V ID E : Type) : Type := {
  validity_fn : V → result unit E;
  combine_fn : list V → result (list V) E;
  public_key : ID → list N;
  fast_hash : list N → list N
}.

Definition eq_opt_ballot_X {V} `{EqDecision V} (a : Ballot V) (o : option (Ballot V)) : bool :=
  match o with Some b => bool_decide (bal_X a = bal_X b) | None => false end.

Section slot.
Context {V ID E : Type} `{Countable V} `{!Ord V} `{Countable ID} `{!Ord ID}.
Context `{HI : HashIter} `{App : !Application V ID E}.
Implicit Types s : Slot V ID.

(** ** Leader selection *)

(** [Slot::weight]. *)
Definition slot_weight s (node_id : ID) : N * N :=
  if bool_decide (node_id = s_node_id s) then (1, 1) else weight (s_quorum_set s) node_id.

(** The weight scaled to 256 bits: a zero denominator is a division by zero,
    a quotient over 256 bits fails the conversion. *)
Definition weight256 s (node_id : ID) : exec N :=
  let '(num, denom) := slot_weight s node_id in
  let tmp := N.min (u256_max * num) u512_max in
  if denom =? 0 then Panic
  else let tmp := tmp / denom in
       if u256_max <? tmp then Panic else Done tmp.

(** [neighbors]. *)
Definition neighbors s (slot_index nomination_round : N) : exec (list ID) :=
  exec_foldl (λ result node_id,
    let! w := weight256 s node_id in
    let gi_one := slot_round_salted_keccak fast_hash slot_index 1 nomination_round (public_key node_id) in
    Done (if gi_one <? w then result ++ [node_id] else result))
    [] (s_node_id s :: hs_iter (nodes (s_quorum_set s))).

(** [find_max_priority_peer]. *)
Definition find_max_priority_peer s (round : N) : exec ID :=
  let! ns := neighbors s (s_slot_index s) round in
  let '(result, _) :=
    foldl (λ acc node_id,
      let '(result, max_priority) := acc in
      if bool_decide (node_id ∈ s_max_priority_peers s) then acc
      else let node_priority :=
             slot_round_salted_keccak fast_hash (s_slot_index s) 2 round (public_key node_id) in
           if max_priority <? node_priority then (node_id, node_priority) else acc)
      (s_node_id s, 0) ns in
  Done result.

(** [Slot::new]. *)
Definition Slot_new (node_id : ID) (quorum_set : QuorumSet ID) (slot_index : N) : exec (Slot V ID) :=
  let slot := mkSlot slot_index node_id quorum_set ∅ ∅ ∅ ∅ ∅ (Ballot_new 0 []) None None None None
                PhaseNominatePrepare None ∅ 1 None None ∅ 1000 1000 in
  let! max_priority_peer := find_max_priority_peer slot (s_nominate_round slot) in
  Done (set_max_priority_peers ({[ max_priority_peer ]} ∪ s_max_priority_peers slot) slot).

(** [Slot::validate]: the verdict and the slot with the cache updated. *)
Definition slot_validate s (value : V) : result unit E * Slot V ID :=
  if bool_decide (value ∈ s_valid_values s) then (Ok tt, s)
  else match validity_fn (ID:=ID) value with
       | Ok _ => (Ok tt, set_valid_values ({[ value ]} ∪ s_valid_values s) s)
       | Err err => (Err err, s)
       end.

(** ** Timers *)

Definition schedule_next_nomination_round (now : N) s : Slot V ID :=
  match s_next_nominate_round_at s with
  | None => set_next_nominate_round_at
              (Some (now + s_base_round_interval s * s_nominate_round s)) s
  | Some _ => s
  end.

Definition cancel_next_nomination_round s : Slot V ID := set_next_nominate_round_at None s.

Definition cancel_next_ballot_timer s : Slot V ID := set_next_ballot_at None s.

(** [maybe_set_ballot_timer]. *)
Definition maybe_set_ballot_timer (now : N) s : exec (Slot V ID) :=
  if bool_decide (s_phase s = PhaseExternalize) then Done s
  else match s_next_ballot_at s with
       | Some _ => Done s
       | None =>
           let! (quorum_ids, _) :=
             find_quorum s (mkFunc (λ msg, bal_N (s_B s) <=? bN msg)) in
           if bool_decide (quorum_ids ≠ ∅)
           then Done (set_next_ballot_at
                  (Some (now + s_base_ballot_interval s * u32_saturating_add (bal_N (s_B s)) 1)) s)
           else Done s
       end.

(** ** Nominate *)

(** The nominate payloads of the other nodes. *)
Definition nominate_payloads s : gmap ID (NominatePayload V) :=
  foldl (λ acc kv, if bool_decide (kv.1 = s_node_id s) then acc
                   else match topic kv.2 with
                        | Nominate p | NominatePrepare p _ => <[ kv.1 := p ]> acc
                        | _ => acc
                        end) ∅ (hm_iter (s_M s)).

(** The values a node adds to its votes. *)
Definition new_votes s : gset V :=
  let X := if bool_decide (s_node_id s ∈ s_max_priority_peers s)
           then s_X s ∪ (s_W s ∖ s_Y s) else s_X s in
  foldl (λ X kv, if bool_decide (kv.1 ∈ s_max_priority_peers s)
                 then X ∪ ((nom_X kv.2 ∪ nom_Y kv.2) ∖ s_Y s) else X)
    X (hm_iter (nominate_payloads s)).

(** [update_YZ]. *)
Definition update_YZ s : exec (Slot V ID) :=
  let! accepted := additional_values_accepted_nominated s in
  let s := set_Y (s_Y s ∪ accepted) (set_X (s_X s ∖ accepted) s) in
  assert! (bool_decide (s_X s ## s_Y s)) in
  let! confirmed := additional_values_confirmed_nominated s in
  Done (set_Z (s_Z s ∪ confirmed) s).

(** [do_nominate_phase]. *)
Definition do_nominate_phase (now : N) s : exec (Slot V ID) :=
  assert! (bool_decide (s_phase s = PhaseNominatePrepare)) in
  let s := schedule_next_nomination_round now s in
  let! s :=
    (if bool_decide (s_Z s = ∅)
     then let s := set_X (new_votes s) s in
          assert! (bool_decide (s_X s ## s_Y s)) in Done s
     else Done s) in
  let! s := update_YZ s in
  Done (if bool_decide (s_Z s ≠ ∅) && is_zero (s_B s)
        then match combine_fn (ID:=ID) (hs_iter (s_Z s)) with
             | Ok values => set_B (Ballot_new 1 values) s
             | Err _ => s
             end
        else s).

(** ** Prepare *)

(** [get_next_ballot_values]. *)
Definition get_next_ballot_values s : exec (option (list V)) :=
  let! confirmed := ballots_confirmed_prepared s in
  match iter_max confirmed with
  | Some h => Done (Some (bal_X h))
  | None =>
      let otherwise :=
        (let! accepted := ballots_accepted_prepared s in
         Done (match iter_max accepted with
               | Some p => Some (bal_X p)
               | None => if negb (is_zero (s_B s)) then Some (bal_X (s_B s)) else None
               end)) in
      if bool_decide (s_Z s ≠ ∅)
      then match combine_fn (ID:=ID) (hs_iter (s_Z s)) with
           | Ok values => Done (Some values)
           | Err _ => otherwise
           end
      else otherwise
  end.

(** [check_prepare_phase_invariants]. *)
Definition check_prepare_phase_invariants s : bool :=
  (bool_decide (s_phase s = PhaseNominatePrepare) || bool_decide (s_phase s = PhasePrepare)) &&
  match s_P s, s_PP s with
  | Some P, Some PP => ord_ltb PP P && negb (bool_decide (bal_X PP = bal_X P))
  | _, _ => true
  end &&
  match s_C s with
  | Some C => match s_H s with
              | Some H => (bal_N C <=? bal_N H) && bool_decide (bal_X C = bal_X H)
              | None => false
              end
  | None => true
  end.

(** The assertion repeated between the steps: [C.N <= H.N]. *)
Definition C_le_H s : bool :=
  match s_C s, s_H s with
  | Some C, Some H => bal_N C <=? bal_N H
  | _, _ => true
  end.

(** [b] is greater than and incompatible with [c]. *)
Definition aborts (b : option (Ballot V)) (c : Ballot V) : bool :=
  match b with
  | Some p => ord_gtb p c && negb (bool_decide (bal_X p = bal_X c))
  | None => false
  end.

(** Step (1): [P] and [PP]; [None] is the early return on a decreasing [P]. *)
Definition prepare_step1 (accepted_prepared : list (Ballot V)) s : option (Slot V ID) :=
  match iter_max accepted_prepared with
  | None => Some s
  | Some new_P =>
      let set_both :=
        let s := set_P (Some new_P) s in
        set_PP (iter_max (filter (λ b, ord_ltb b new_P && negb (bool_decide (bal_X b = bal_X new_P)))
                            accepted_prepared)) s in
      match s_P s with
      | Some current_P => if ord_geb new_P current_P then Some set_both else None
      | None => Some set_both
      end
  end.

(** Clear [C] when [P] or [PP] aborts it. *)
Definition clear_aborted_C s : Slot V ID :=
  match s_C s with
  | Some c => if aborts (s_P s) c || aborts (s_PP s) c then set_C None s else s
  | None => s
  end.

(** Step (2): [H], and the end of nomination. *)
Definition prepare_step2 (h_opt : option (Ballot V)) s : Slot V ID :=
  match h_opt with
  | None => s
  | Some h =>
      let s := if bool_decide (s_phase s = PhaseNominatePrepare)
               then set_phase PhasePrepare (cancel_next_nomination_round s) else s in
      match s_H s with
      | Some current_h => set_H (Some (ord_max h current_h)) s
      | None => set_H (Some h) s
      end
  end.

(** If [p] aborts [c], the least counter from which it no longer does. *)
Definition raise_above (b : option (Ballot V)) (c : Ballot V) : Ballot V :=
  match b with
  | Some p =>
      if aborts (Some p) c
      then if ord_gtb (bal_X c) (bal_X p) then Ballot_new (bal_N p) (bal_X c)
           else Ballot_new (u32_add (bal_N p) 1) (bal_X c)
      else c
  | None => c
  end.

(** Step (3): [C], the lowest ballot the node votes to commit. *)
Definition prepare_step3 s : exec (Slot V ID) :=
  match s_C s, s_H s with
  | None, Some h =>
      if ord_leb (s_B s) h
      then if negb (aborts (s_P s) h) && negb (aborts (s_PP s) h)
           then let c := if ord_geb (bal_X h) (bal_X (s_B s))
                         then Ballot_new (bal_N (s_B s)) (bal_X h)
                         else Ballot_new (u32_add (bal_N (s_B s)) 1) (bal_X h) in
                let c := raise_above (s_P s) c in
                let c := raise_above (s_PP s) c in
                assert! (ord_leb (s_B s) c) in
                assert! (bool_decide (bal_X c = bal_X h)) in
                assert! (bal_N c <=? bal_N h) in
                Done (set_C (Some c) s)
           else Done s
      else Done s
  | _, _ => Done s
  end.

(** The ballot after [H] became [h]: changing the value needs a new counter. *)
Definition bump_B (h : Ballot V) s : Slot V ID :=
  if negb (bool_decide (bal_X (s_B s) = bal_X h))
  then set_B (Ballot_new (N.max (u32_add (bal_N (s_B s)) 1) (bal_N h)) (bal_X h)) s
  else set_B (Ballot_new (N.max (bal_N (s_B s)) (bal_N h)) (bal_X h)) s.

(** Step (4), when some ballot is accepted committed: enter the commit phase. *)
Definition prepare_step4 (accept_commits : Ranges V) (c : Ballot V) s : exec (Slot V ID) :=
  let s := set_C (Some c) s in
  let! h := unwrap (iter_max
    ((λ kv : list V * (N * N), Ballot_new kv.2.2 kv.1) <$>
       filter (λ kv : list V * (N * N), bool_decide (kv.1 = bal_X c)) (hm_iter accept_commits))) in
  let s := set_H (Some h) s in
  assert! (bal_N c <=? bal_N h) in
  let s := bump_B h s in
  let s := cancel_next_nomination_round (set_phase PhaseCommit s) in
  let! accepted_prepared := ballots_accepted_prepared s in
  let new_P := iter_max (filter (λ p, bool_decide (bal_X p = bal_X (s_B s))) accepted_prepared) in
  let s := set_P new_P s in
  assert! (match s_P s with Some _ => true | None => false end) in
  Done (set_PP None s).

(** [do_prepare_phase]. *)
Fixpoint do_prepare_phase (fuel : nat) (now : N) s : exec (Slot V ID) :=
  match fuel with
  | O => NoFuel
  | S fuel =>
      assert! (check_prepare_phase_invariants s) in
      let! accepted_prepared := ballots_accepted_prepared s in
      match prepare_step1 accepted_prepared s with
      | None => Done s
      | Some s =>
          assert! (match s_P s, s_PP s with
                   | Some p, Some pp => ord_ltb pp p && negb (bool_decide (bal_X p = bal_X pp))
                   | _, _ => true
                   end) in
          let s := clear_aborted_C s in
          let! confirmed_prepared := ballots_confirmed_prepared s in
          let s := prepare_step2 (iter_max confirmed_prepared) s in
          assert! (C_le_H s) in
          let! s := prepare_step3 s in
          assert! (C_le_H s) in
          let! accept_commits := ballots_accepted_committed s in
          let c_opt := iter_min ((λ kv : list V * (N * N), Ballot_new kv.2.1 kv.1)
                                   <$> hm_iter accept_commits) in
          match c_opt with
          | Some c => prepare_step4 accept_commits c s
          | None =>
              let s := match s_H s with Some h => bump_B h s | None => s end in
              let! unblocking_counter := get_unblocking_ballot_counter s in
              let! s :=
                (if bal_N (s_B s) <? unblocking_counter
                 then let! x_opt := get_next_ballot_values s in
                      match x_opt with
                      | Some x =>
                          let s := cancel_next_ballot_timer s in
                          let s := set_B (Ballot_new unblocking_counter x) s in
                          let! s := maybe_set_ballot_timer now s in
                          do_prepare_phase fuel now s
                      | None => Done s
                      end
                 else Done s) in
              assert! (check_prepare_phase_invariants s) in
              Done s
          end
      end
  end.

(** ** Commit *)

(** [check_commit_phase_invariants]. *)
Definition check_commit_phase_invariants s : bool :=
  bool_decide (s_phase s = PhaseCommit) && negb (is_zero (s_B s)) &&
  eq_opt_ballot_X (s_B s) (s_P s) &&
  match s_PP s with None => true | Some _ => false end &&
  eq_opt_ballot_X (s_B s) (s_H s) && eq_opt_ballot_X (s_B s) (s_C s).

(** [do_commit_phase]. *)
Fixpoint do_commit_phase (fuel : nat) s : exec (Slot V ID) :=
  match fuel with
  | O => NoFuel
  | S fuel =>
      assert! (check_commit_phase_invariants s) in
      (* (5) P *)
      let! accepted_prepared := ballots_accepted_prepared s in
      let! s :=
        (match iter_max (filter (λ p, bool_decide (bal_X p = bal_X (s_B s))) accepted_prepared) with
         | Some new_P => let! P := unwrap (s_P s) in
                         Done (if ord_ltb new_P P then s else set_P (Some new_P) s)
         | None => Done s
         end) in
      (* (6) accepted committed *)
      let! accepted_committed := ballots_accepted_committed s in
      let s := match accepted_committed !! bal_X (s_B s) with
               | Some (cn, hn) => set_H (Some (Ballot_new hn (bal_X (s_B s))))
                                    (set_C (Some (Ballot_new cn (bal_X (s_B s)))) s)
               | None => s
               end in
      (* (7) confirmed committed *)
      let! confirmed_committed := ballots_confirmed_committed s in
      match confirmed_committed with
      | Some (cn, hn) =>
          let s := set_C (Some (Ballot_new cn (bal_X (s_B s)))) s in
          let s := set_H (Some (Ballot_new hn (bal_X (s_B s)))) s in
          let s := cancel_next_ballot_timer (cancel_next_nomination_round s) in
          Done (set_phase PhaseExternalize s)
      | None =>
          (* (8) *)
          let s := match s_H s with
                   | Some h => if bal_N (s_B s) <? bal_N h
                               then set_B (Ballot_new (bal_N h) (bal_X (s_B s))) s else s
                   | None => s
                   end in
          (* (9) *)
          let! unblocking_counter := get_unblocking_ballot_counter s in
          let! s :=
            (if bal_N (s_B s) <? unblocking_counter
             then let s := cancel_next_ballot_timer s in
                  let s := set_B (Ballot_new unblocking_counter (bal_X (s_B s))) s in
                  do_commit_phase fuel s
             else Done s) in
          assert! (check_commit_phase_invariants s) in
          Done s
      end
  end.

(** ** Externalize *)

(** [check_externalize_phase_invariants]. *)
Definition check_externalize_phase_invariants s : bool :=
  bool_decide (s_phase s = PhaseExternalize) && negb (is_zero (s_B s)) &&
  eq_opt_ballot_X (s_B s) (s_H s) && eq_opt_ballot_X (s_B s) (s_C s) &&
  match s_PP s with None => true | Some _ => false end.

(** [do_externalize_phase]. *)
Definition do_externalize_phase s : exec (Slot V ID) :=
  assert! (check_externalize_phase_invariants s) in
  let! confirmed_committed := ballots_confirmed_committed s in
  let! s :=
    (match confirmed_committed with
     | Some (_, hn) =>
         let! H := unwrap (s_H s) in
         Done (if bal_N H <=? hn then set_H (Some (Ballot_new hn (bal_X H))) s else s)
     | None => Done s
     end) in
  assert! (check_externalize_phase_invariants s) in
  Done s.

(** [do_ballot_protocol]: fall through the phases.  The fuel is the depth of
    the recursive calls of the prepare and commit phases. *)
Definition do_ballot_protocol (fuel : nat) (now : N) s : exec (Slot V ID) :=
  let! s := maybe_set_ballot_timer now s in
  let! s := (if bool_decide (s_phase s = PhaseNominatePrepare) || bool_decide (s_phase s = PhasePrepare)
             then do_prepare_phase fuel now s else Done s) in
  let! s := (if bool_decide (s_phase s = PhaseCommit) then do_commit_phase fuel s else Done s) in
  if bool_decide (s_phase s = PhaseExternalize) then do_externalize_phase s else Done s.

(** ** The outgoing message *)

(** The highest accepted prepared ballot not exceeding [B]. *)
Definition clamped_P s : option (Ballot V) :=
  match s_P s with
  | Some P =>
      if ord_gtb P (s_B s)
      then if ord_gtb (bal_X P) (bal_X (s_B s))
           then Some (Ballot_new (u32_sub (bal_N (s_B s)) 1) (bal_X P))
           else Some (Ballot_new (bal_N (s_B s)) (bal_X P))
      else Some P
  | None => None
  end.

Definition clamped_PP s : option (Ballot V) :=
  match clamped_P s, s_PP s with
  | Some cP, Some PP =>
      if ord_gtb PP cP
      then if 0 <? bal_N PP
           then if ord_gtb (bal_X PP) (bal_X cP)
                then Some (Ballot_new (u32_sub (bal_N cP) 1) (bal_X PP))
                else Some (Ballot_new (bal_N cP) (bal_X PP))
           else None
      else Some PP
  | _, _ => None
  end.

Definition out_HN s : N :=
  match s_H s with
  | Some h => if bool_decide (bal_X h = bal_X (s_B s)) then bal_N h else 0
  | None => 0
  end.

Definition out_CN s : N :=
  match s_C s with
  | Some c => if negb (out_HN s =? 0) then bal_N c else 0
  | None => 0
  end.

Definition out_prepare s : PreparePayload V :=
  mkPrepare (s_B s) (clamped_P s) (clamped_PP s) (out_CN s) (out_HN s).

Definition out_topic s : exec (option (Topic V)) :=
  match s_phase s with
  | PhaseNominatePrepare =>
      Done (if is_zero (s_B s)
            then if bool_decide (s_X s ≠ ∅) || bool_decide (s_Y s ≠ ∅)
                 then Some (Nominate (NominatePayload_new (s_X s) (s_Y s)))
                 else None
            else Some (NominatePrepare (NominatePayload_new (s_X s) (s_Y s)) (out_prepare s)))
  | PhasePrepare => Done (Some (Prepare (out_prepare s)))
  | PhaseCommit =>
      Done (Some (Commit (mkCommit (s_B s)
        (match clamped_P s with Some p => bal_N p | None => 0 end)
        (match s_C s with Some c => bal_N c | None => 0 end)
        (match s_H s with Some h => bal_N h | None => 0 end))))
  | PhaseExternalize =>
      let! C := unwrap (s_C s) in
      let! H := unwrap (s_H s) in
      Done (Some (Externalize (mkExternalize C (bal_N H))))
  end.

(** [out_msg]: the message for the current state, unless it repeats the last. *)
Definition out_msg s : exec (option (Msg V ID) * Slot V ID) :=
  let! topic_opt := out_topic s in
  match topic_opt with
  | None => Done (None, s)
  | Some t =>
      let msg := Msg_new (s_node_id s) (s_quorum_set s) (s_slot_index s) t in
      assert! (is_ok (validate msg)) in
      match s_last_sent_msg s with
      | Some last_msg =>
          if negb (msg_eqb msg last_msg)
          then Done (Some msg, set_last_sent_msg (Some msg) s)
          else Done (None, s)
      | None => Done (Some msg, set_last_sent_msg (Some msg) s)
      end
  end.

(** ** Entry points *)

(** [process_timeouts]. *)
Definition process_timeouts (fuel : nat) (now : N) s : exec (list (Msg V ID) * Slot V ID) :=
  let nomination_timeout := match s_next_nominate_round_at s with Some t => t <? now | None => false end in
  let! s :=
    (if nomination_timeout
     then let s := cancel_next_nomination_round s in
          let s := set_nominate_round (u32_add (s_nominate_round s) 1) s in
          let! max_priority_peer := find_max_priority_peer s (s_nominate_round s) in
          let s := set_max_priority_peers ({[ max_priority_peer ]} ∪ s_max_priority_peers s) s in
          do_nominate_phase now s
     else Done s) in
  let ballot_timeout := match s_next_ballot_at s with Some t => t <? now | None => false end in
  let! s :=
    (if ballot_timeout
     then let s := cancel_next_ballot_timer s in
          let next_counter := u32_add (bal_N (s_B s)) 1 in
          let! s :=
            (match s_phase s with
             | PhaseNominatePrepare | PhasePrepare =>
                 let! x_opt := get_next_ballot_values s in
                 Done (match x_opt with
                       | Some x => set_B (Ballot_new next_counter x) s
                       | None => s
                       end)
             | PhaseCommit => Done (set_B (Ballot_new next_counter (bal_X (s_B s))) s)
             | PhaseExternalize => Done s
             end) in
          do_ballot_protocol fuel now s
     else Done s) in
  if nomination_timeout || ballot_timeout
  then let! (emitted, s) := out_msg s in
       Done (match emitted with Some m => [m] | None => [] end, s)
  else Done ([], s).

(** Validate values one after the other, keeping the valid ones. *)
Definition filter_valid (values : list V) s : list V * Slot V ID :=
  foldl (λ acc value,
    let '(kept, s) := acc in
    let '(r, s) := slot_validate s value in
    (if is_ok r then kept ++ [value] else kept, s)) ([], s) values.

(** [propose_values]. *)
Definition propose_values (fuel : nat) (now : N) (values : gset V) s :
    exec (option (Msg V ID) * Slot V ID) :=
  if negb (bool_decide (s_phase s = PhaseNominatePrepare) && bool_decide (s_Z s = ∅))
  then out_msg s
  else
    let '(valid, s) := filter_valid (btree_iter values) s in
    match valid with
    | [] => Done (None, s)
    | _ => let s := set_W (s_W s ∪ list_to_set valid) s in
           let! s := do_nominate_phase now s in
           let! s := do_ballot_protocol fuel now s in
           out_msg s
    end.

(** Validate every value of a message, stopping at the first invalid one. *)
Fixpoint all_valid (values : list V) s : bool * Slot V ID :=
  match values with
  | [] => (true, s)
  | v :: values =>
      let '(r, s) := slot_validate s v in
      if is_ok r then all_valid values s else (false, s)
  end.

(** One iteration of the message loop; the flag says whether some message was
    higher than the previous ones of its sender. *)
Definition receive_msg (acc : bool * Slot V ID) (msg : Msg V ID) : bool * Slot V ID :=
  let '(has_higher, s) := acc in
  let is_higher := match s_M s !! sender_id msg with
                   | Some existing => ord_gtb (topic msg) (topic existing)
                   | None => true
                   end in
  if is_higher && is_ok (validate msg)
  then let '(ok, s) := if bool_decide (s_phase s = PhaseExternalize) then (true, s)
                       else all_valid (btree_iter (msg_values msg)) s in
       if ok : bool then (true, set_M (<[ sender_id msg := msg ]> (s_M s)) s)
       else (has_higher, s)
  else (has_higher, s).

(** The messages of peers for this slot, highest topic first. *)
Definition msgs_for_slot (msgs : list (Msg V ID)) s : list (Msg V ID) :=
  sort_by (λ a b, cmp (topic b) (topic a))
    (filter (λ msg, msg_slot_index msg = s_slot_index s)
       (filter (λ msg, sender_id msg ≠ s_node_id s) msgs)).

(** [handle_messages]. *)
Definition handle_messages (fuel : nat) (now : N) (msgs : list (Msg V ID)) s :
    exec (option (Msg V ID) * Slot V ID) :=
  let '(has_higher_messages, s) := foldl receive_msg (false, s) (msgs_for_slot msgs s) in
  if has_higher_messages : bool
  then let! s := (if bool_decide (s_phase s = PhaseNominatePrepare)
                  then do_nominate_phase now s else Done s) in
       let! s := do_ballot_protocol fuel now s in
       out_msg s
  else Done (None, s).

(** [handle_message]. *)
Definition handle_message (fuel : nat) (now : N) (msg : Msg V ID) s :
    exec (option (Msg V ID) * Slot V ID) :=
  handle_messages fuel now [msg] s.
End slot.
