(* ===== verification/SlotInv.v ===== *)
(** * The invariant of a slot

    What holds of a slot between two calls of its entry points, for every
    sequence of messages, proposals and timeouts, and that each method of [Slot]
    keeps it.  The statements about values are made for any set [Adm] of
    admissible values that contains the values the application finds valid and is
    closed under its combine function. *)

From S2P Require Import Prelude Ord QuorumSet ScpMsg Predicates QuorumSearch SlotState SlotVoting VotingProps Slot.

Local Open Scope N_scope.

(** ** Frames *)

Section frames.
Context {V ID : Type} `{Countable V} `{Countable ID}.
Implicit Types s : Slot V ID.

(** Everything but the ballots, the phase and the timers: what the ballot
    protocol leaves alone. *)
Definition erase s : Slot V ID :=
  set_B (mkBallot 0 []) (set_P None (set_PP None (set_H None (set_C None
    (set_phase PhaseNominatePrepare (set_next_nominate_round_at None
      (set_next_ballot_at None s))))))).

Definition same_base s s' : Prop := erase s' = erase s.

#[export] Instance same_base_preorder : PreOrder same_base.
Proof. unfold same_base. split; [intros ?; done|intros ???; congruence]. Qed.

Lemma same_base_fields s s' :
  same_base s s' →
  s_slot_index s' = s_slot_index s ∧ s_node_id s' = s_node_id s ∧
  s_quorum_set s' = s_quorum_set s ∧ s_M s' = s_M s ∧ s_W s' = s_W s ∧ s_X s' = s_X s ∧
  s_Y s' = s_Y s ∧ s_Z s' = s_Z s ∧ s_last_sent_msg s' = s_last_sent_msg s ∧
  s_max_priority_peers s' = s_max_priority_peers s ∧ s_nominate_round s' = s_nominate_round s ∧
  s_valid_values s' = s_valid_values s ∧
  s_base_round_interval s' = s_base_round_interval s ∧
  s_base_ballot_interval s' = s_base_ballot_interval s.
Proof.
  unfold same_base. intros Hs. split_and!;
    match goal with |- ?f _ = ?f _ => exact (f_equal f Hs) end.
Qed.
End frames.

(** ** The invariant *)

Section invariant.
Context {V ID E : Type} `{Countable V} `{!Ord V, !TotalOrd V} `{Countable ID} `{!Ord ID}.
Context `{HI : HashIter} `{App : !Application V ID E}.
Context (Adm : V → Prop).
Implicit Types s : Slot V ID.

Definition adm_ballot (b : Ballot V) : Prop := Forall Adm (bal_X b).
Definition adm_opt (o : option (Ballot V)) : Prop := ∀ b, o = Some b → adm_ballot b.

(** The received messages: validated, from other nodes, for this slot. *)
Definition msg_ok s (n : ID) (msg : Msg V ID) : Prop :=
  sender_id msg = n ∧ n ≠ s_node_id s ∧ msg_slot_index msg = s_slot_index s ∧
  validate msg = Ok tt ∧ msg_u32 msg.

Definition adm_msgs s : Prop :=
  ∀ n msg v, s_M s !! n = Some msg → v ∈ msg_values msg → Adm v.

(** Nomination. *)
Record nom_inv s : Prop := {
  ni_disjoint : s_X s ## s_Y s;
  ni_Z_Y : s_Z s ⊆ s_Y s;
  ni_msgs : ∀ n msg, s_M s !! n = Some msg → msg_ok s n msg;
  ni_cache : ∀ v, v ∈ s_valid_values s → validity_fn (ID:=ID) (E:=E) v = Ok tt;
  ni_adm : ∀ v, v ∈ s_W s ∪ s_X s ∪ s_Y s → Adm v
}.

(** The ballots of the two prepare phases. *)
Record prep_inv s : Prop := {
  pi_phase : s_phase s = PhaseNominatePrepare ∨ s_phase s = PhasePrepare;
  pi_timer : s_phase s ≠ PhaseNominatePrepare → s_next_nominate_round_at s = None;
  pi_fresh : s_phase s = PhaseNominatePrepare → s_H s = None ∧ s_C s = None;
  pi_B : adm_ballot (s_B s);
  pi_P : adm_opt (s_P s);
  pi_PP : adm_opt (s_PP s);
  pi_H : adm_opt (s_H s);
  pi_msgs : adm_msgs s
}.

(** [o] is a ballot with the values of [B]. *)
Definition with_value (x : list V) (o : option (Ballot V)) : Prop :=
  ∃ b, o = Some b ∧ bal_X b = x.

Record commit_inv s : Prop := {
  ci_phase : s_phase s = PhaseCommit;
  ci_timer : s_next_nominate_round_at s = None;
  ci_P : with_value (bal_X (s_B s)) (s_P s);
  ci_PP : s_PP s = None;
  ci_H : with_value (bal_X (s_B s)) (s_H s);
  ci_C : with_value (bal_X (s_B s)) (s_C s);
  ci_CH : CH_ordered s;
  ci_B : adm_ballot (s_B s);
  ci_msgs : adm_msgs s
}.

Record ext_inv s : Prop := {
  ei_phase : s_phase s = PhaseExternalize;
  ei_timers : s_next_nominate_round_at s = None;
  ei_PP : s_PP s = None;
  ei_H : with_value (bal_X (s_B s)) (s_H s);
  ei_C : with_value (bal_X (s_B s)) (s_C s);
  ei_CH : CH_ordered s;
  ei_B : adm_ballot (s_B s)
}.

Definition ballot_inv s : Prop := prep_inv s ∨ commit_inv s ∨ ext_inv s.

Definition slot_inv s : Prop := nom_inv s ∧ ballot_inv s.

(** *** Admissible ballots *)

Lemma adm_below (b b' : Ballot V) : ballot_below b' b → adm_ballot b → adm_ballot b'.
Proof. intros [HX _]. unfold adm_ballot. by rewrite HX. Qed.

Lemma adm_accepted_prepared_msg s n msg b :
  adm_msgs s → s_M s !! n = Some msg → b ∈ accepts_prepared msg → adm_ballot b.
Proof.
  intros Hm Hn Hb. apply Forall_forall. intros v Hv. eapply Hm; [done|].
  by eapply accepts_prepared_values.
Qed.

Lemma adm_own_candidates s b :
  adm_ballot (s_B s) → adm_opt (s_P s) → adm_opt (s_PP s) →
  b ∈ own_prepare_candidates s → adm_ballot b.
Proof.
  intros HB HP HPP. unfold own_prepare_candidates. rewrite elem_of_union. intros [Hb|Hb].
  - destruct (negb _); [|set_solver]. by apply elem_of_singleton in Hb as ->.
  - destruct (s_P s) as [P|]; [|set_solver].
    apply elem_of_union in Hb as [->%elem_of_singleton|Hb]; [by apply HP|].
    destruct (s_PP s) as [PP|]; [|set_solver]. apply elem_of_singleton in Hb as ->. by apply HPP.
Qed.

Lemma adm_accepted_prepared s acc b :
  adm_msgs s → adm_ballot (s_B s) → adm_opt (s_P s) → adm_opt (s_PP s) →
  ballots_accepted_prepared s = Done acc → b ∈ acc → adm_ballot b.
Proof.
  intros Hm HB HP HPP Hacc Hb.
  destruct (accepted_prepared_spec s acc b Hacc Hb) as [[Hc _]|[(b0 & Hb0 & Hbelow) _]].
  - apply elem_of_accept_prepared_candidates in Hc as (n & msg & _ & Hn & Hin).
    by eapply adm_accepted_prepared_msg.
  - eapply adm_below; [done|]. by eapply adm_own_candidates.
Qed.

Lemma adm_confirmed_prepared s conf b :
  adm_msgs s → adm_ballot (s_B s) → adm_opt (s_P s) → adm_opt (s_PP s) →
  ballots_confirmed_prepared s = Done conf → b ∈ conf → adm_ballot b.
Proof.
  intros Hm HB HP HPP Hconf Hb.
  destruct (confirmed_prepared_spec s conf b Hconf Hb) as [(acc & b0 & Hacc & Hb0 & Hbelow) _].
  eapply adm_below; [done|]. by eapply (adm_accepted_prepared s acc).
Qed.

Lemma adm_range_accepted s x r :
  adm_msgs s → adm_ballot (s_B s) → range_accepted s x r → Forall Adm x.
Proof.
  intros Hm HB [[(n & msg & _ & Hn & Hr) _]|[-> _]]; [|done].
  apply Forall_forall. intros v Hv. eapply Hm; [done|]. unfold accepts_commit_range in Hr.
  unfold msg_values. destruct (topic msg) as [p|p p'|p|p|p]; try done;
    destruct Hr as [<- _]; by apply elem_of_list_to_set.
Qed.

(** *** The steps of the prepare phase *)

(** A step that stays within the prepare phases. *)
Definition prep_step s s' : Prop :=
  same_base s s' ∧ phase_rank (s_phase s) <= phase_rank (s_phase s') ∧ prep_inv s'.

Lemma adm_iter_max acc b :
  (∀ b, b ∈ acc → adm_ballot b) → iter_max acc = Some b → adm_ballot b.
Proof using TotalOrd0. intros Hacc Hb. apply iter_max_Some in Hb as [Hin _]. auto. Qed.

Lemma adm_iter_max_filter acc (f : Ballot V → bool) :
  (∀ b, b ∈ acc → adm_ballot b) → adm_opt (iter_max (filter f acc)).
Proof using TotalOrd0.
  intros Hacc b Hb. eapply adm_iter_max; [|done]. intros b' [_ Hb']%list_elem_of_filter. auto.
Qed.

Lemma prepare_step1_step acc s s' :
  prep_inv s → (∀ b, b ∈ acc → adm_ballot b) → prepare_step1 acc s = Some s' → prep_step s s'.
Proof using TotalOrd0.
  intros Hs Hacc. unfold prepare_step1. destruct (iter_max acc) as [newP|] eqn:EP.
  2:{ intros [= <-]. split_and!; [done|lia|done]. }
  assert (Hset : prep_step s (set_PP (iter_max (filter (λ b, ord_ltb b newP &&
    negb (bool_decide (bal_X b = bal_X newP))) acc)) (set_P (Some newP) s))).
  { split_and!; [done|simpl; lia|]. destruct Hs. constructor; simpl; auto.
    - intros b [= <-]. by eapply adm_iter_max.
    - by apply adm_iter_max_filter. }
  destruct (s_P s) as [P|]; [destruct (ord_geb newP P); [|done]|]; by intros [= <-].
Qed.

Lemma clear_aborted_C_step s : prep_inv s → prep_step s (clear_aborted_C s).
Proof.
  intros Hs. unfold clear_aborted_C. destruct (s_C s) as [c|] eqn:EC.
  2:{ split_and!; [done|lia|done]. }
  destruct (_ || _); (split_and!; [done|simpl; lia|]); [|done].
  destruct Hs. constructor; simpl; naive_solver.
Qed.

Lemma prepare_step2_step o s :
  prep_inv s → adm_opt o → prep_step s (prepare_step2 o s).
Proof.
  intros Hs Ho. unfold prepare_step2. destruct o as [h|]; [|split_and!; [done|lia|done]].
  assert (Hh : ∀ s', s_H s' = s_H s → adm_opt (match s_H s' with
    | Some current_h => Some (ord_max h current_h) | None => Some h end)).
  { intros s' ->. destruct Hs as [_ _ _ _ _ _ HH _]. destruct (s_H s) as [h'|]; intros b [= <-].
    - destruct (ord_max_choice h h') as [-> | ->]; auto.
    - by apply Ho. }
  case_bool_decide as Hp; simpl.
  - split_and!; [by destruct (s_H s)|by rewrite Hp; destruct (s_H s); simpl; lia|].
    specialize (Hh s eq_refl). destruct Hs.
    destruct (s_H s); constructor; simpl; auto; done.
  - assert (s_phase s = PhasePrepare) as Hph by (by destruct Hs as [[?|?]]).
    specialize (Hh s eq_refl).
    destruct (s_H s) eqn:EH; (split_and!; [done|simpl; lia|]); destruct Hs;
      constructor; simpl; auto; done.
Qed.

Lemma prepare_step3_step s s' :
  prep_inv s → prepare_step3 s = Done s' → prep_step s s'.
Proof.
  intros Hs. assert (Hrefl : prep_step s s) by (split_and!; [done|lia|done]).
  unfold prepare_step3. destruct (s_C s) as [c|] eqn:EC; [by intros [= <-]|].
  destruct (s_H s) as [h|] eqn:EH; [|by intros [= <-]].
  destruct (ord_leb _ _); [|by intros [= <-]]. destruct (_ && _); [|by intros [= <-]].
  intros Hr. exec_inv. split_and!; [done|simpl; lia|].
  destruct Hs. constructor; simpl; auto. intros Hp. destruct pi_fresh0; [done|]. congruence.
Qed.

Lemma set_B_step s b : prep_inv s → adm_ballot b → prep_step s (set_B b s).
Proof. intros Hs Hb. split_and!; [done|simpl; lia|]. destruct Hs; constructor; simpl; auto. Qed.

Lemma bump_B_step s h : prep_inv s → s_H s = Some h → prep_step s (bump_B h s).
Proof.
  intros Hs Hh. pose proof (pi_H _ Hs h Hh). unfold bump_B.
  destruct (negb _); by apply set_B_step.
Qed.

Lemma maybe_set_ballot_timer_spec now s s' :
  maybe_set_ballot_timer now s = Done s' →
  s' = s ∨ ∃ t, s' = set_next_ballot_at t s.
Proof.
  unfold maybe_set_ballot_timer. case_bool_decide; [intros [= <-]; auto|].
  destruct (s_next_ballot_at s); [intros [= <-]; auto|]. intros Hr. exec_inv. destruct r as [U p].
  case_bool_decide; exec_inv; eauto.
Qed.

Lemma set_next_ballot_at_step s t : prep_inv s → prep_step s (set_next_ballot_at t s).
Proof. intros Hs. split_and!; [done|simpl; lia|]. destruct Hs; constructor; simpl; auto. Qed.

Lemma prep_step_trans s1 s2 s3 : prep_step s1 s2 → prep_step s2 s3 → prep_step s1 s3.
Proof. intros (? & ? & ?) (? & ? & ?). split_and!; [by etransitivity|lia|done]. Qed.

(** Entering the commit phase. *)
Lemma prepare_step4_commit acc c s s' :
  prep_inv s → ballots_accepted_committed s = Done acc →
  iter_min ((λ kv : list V * (N * N), Ballot_new kv.2.1 kv.1) <$> hm_iter acc) = Some c →
  prepare_step4 acc c s = Done s' → same_base s s' ∧ commit_inv s'.
Proof using Ord1 TotalOrd0.
  intros Hs Hacc Hc Hr. unfold prepare_step4 in Hr. exec_inv.
  apply iter_min_Some in Hc as [Hc _]. apply list_elem_of_fmap in Hc as ([x [lo hi]] & -> & Hx).
  apply elem_of_hm_iter in Hx. simpl in *.
  assert (Forall Adm x) as Hadm.
  { destruct (accepted_committed_spec _ _ _ _ _ Hacc Hx) as [[b Hb] _].
    eapply adm_range_accepted; [apply Hs|apply Hs|exact Hb]. }
  apply iter_max_Some in Eo as [Hh _]. apply list_elem_of_fmap in Hh as ([x' [lo' hi']] & -> & Hh).
  apply list_elem_of_filter in Hh as [Hx' _]. apply bool_decide_unpack in Hx'. simpl in Hx'. subst x'. cbn [fst snd] in *.
  set (h := Ballot_new hi' x) in *. set (c := Ballot_new lo x) in *.
  set (s1 := bump_B h (set_H (Some h) (set_C (Some c) s))) in *.
  assert (HB : bal_X (s_B s1) = x) by (unfold s1, bump_B; by destruct (negb _)).
  assert (Hbase : same_base s s1) by (unfold s1, bump_B; by destruct (negb _)).
  assert (Hfields : s_H s1 = Some h ∧ s_C s1 = Some c) by (unfold s1, bump_B; by destruct (negb _)).
  destruct Hfields as [HH HC]. clearbody s1.
  split; [exact Hbase|]. constructor; simpl; [done|done| | | | | | |].
  - destruct (iter_max _) as [P|] eqn:EP; [|done]. exists P. split; [done|].
    apply iter_max_Some in EP as [HP _]. apply list_elem_of_filter in HP as [HP _].
    by apply bool_decide_unpack in HP.
  - done.
  - rewrite HH, HB. by exists h.
  - rewrite HC, HB. by exists c.
  - intros C' h'. simpl. rewrite HH, HC. intros [= <-] [= <-]. by apply N.leb_le.
  - unfold adm_ballot. by rewrite HB.
  - destruct (same_base_fields _ _ Hbase) as (_ & _ & _ & HM & _).
    intros n msg v. simpl. rewrite HM. apply Hs.
Qed.

Context (combine_adm : ∀ l r, Forall Adm l → combine_fn (ID:=ID) (E:=E) l = Ok r → Forall Adm r).

Definition adm_Z s : Prop := ∀ v, v ∈ s_Z s → Adm v.

Lemma get_next_ballot_values_adm s x :
  prep_inv s → adm_Z s → get_next_ballot_values s = Done (Some x) → Forall Adm x.
Proof using Ord1 TotalOrd0 combine_adm.
  intros Hs HZ. unfold get_next_ballot_values. intros Hr. exec_inv.
  destruct (iter_max r) as [h|] eqn:Eh.
  { injection Hr as <-. eapply (adm_iter_max r); [|done]. intros b Hb.
    eapply adm_confirmed_prepared; [..|exact E0|exact Hb]; apply Hs. }
  assert (Hother : (let! accepted := ballots_accepted_prepared s in
    Done (match iter_max accepted with
          | Some p => Some (bal_X p)
          | None => if negb (is_zero (s_B s)) then Some (bal_X (s_B s)) else None
          end)) = Done (Some x) → Forall Adm x).
  { intros (acc & Hacc & Ho)%exec_bind_Done. injection Ho as Ho.
    destruct (iter_max acc) as [p|] eqn:Ep.
    - injection Ho as <-. eapply (adm_iter_max acc); [|done]. intros b Hb.
      eapply adm_accepted_prepared; [..|exact Hacc|exact Hb]; apply Hs.
    - destruct (negb _); [|done]. injection Ho as <-. apply Hs. }
  case_bool_decide; [|by apply Hother].
  destruct (combine_fn _) as [vs|e] eqn:Ec; [|by apply Hother].
  injection Hr as <-. eapply combine_adm; [|exact Ec]. apply Forall_forall.
  intros v Hv%elem_of_hs_iter. by apply HZ.
Qed.

Lemma adm_Z_base s s' : same_base s s' → adm_Z s → adm_Z s'.
Proof.
  intros Hb HZ v. destruct (same_base_fields _ _ Hb) as (_ & _ & _ & _ & _ & _ & _ & -> & _). apply HZ.
Qed.

Lemma prep_rank s : prep_inv s → phase_rank (s_phase s) <= 1.
Proof. intros [[-> | ->]]; simpl; lia. Qed.

(** [do_prepare_phase] stays in the prepare phases or enters the commit phase,
    and touches nothing but the ballots, the phase and the timers. *)
Lemma do_prepare_phase_inv fuel now s s' :
  prep_inv s → adm_Z s → do_prepare_phase fuel now s = Done s' →
  same_base s s' ∧ phase_rank (s_phase s) <= phase_rank (s_phase s') ∧ (prep_inv s' ∨ commit_inv s').
Proof using Ord1 TotalOrd0 combine_adm.
  revert s. induction fuel as [|fuel IH]; intros s Hs HZ; [done|]. cbn [do_prepare_phase].
  intros Hr. exec_inv.
  destruct (prepare_step1 r s) as [s1|] eqn:E1; [|injection Hr as <-; split_and!; [done|lia|by left]].
  assert (H1 : prep_step s s1).
  { eapply prepare_step1_step; [done| |exact E1]. intros b Hb.
    eapply adm_accepted_prepared; [..|exact E0|exact Hb]; apply Hs. }
  exec_inv. pose proof (clear_aborted_C_step s1 (proj2 (proj2 H1))) as H2.
  set (s2 := clear_aborted_C s1) in *.
  assert (H3 : prep_step s2 (prepare_step2 (iter_max r0) s2)).
  { apply prepare_step2_step; [apply H2|]. intros h Hh. eapply adm_iter_max; [|exact Hh].
    intros b Hb. eapply adm_confirmed_prepared; [..|exact E2|exact Hb]; apply H2. }
  set (s3 := prepare_step2 (iter_max r0) s2) in *.
  pose proof (prepare_step3_step _ _ (proj2 (proj2 H3)) E3) as H4.
  pose proof (prep_step_trans _ _ _ (prep_step_trans _ _ _ (prep_step_trans _ _ _ H1 H2) H3) H4)
    as (Hbase & Hrank & Hs4). clear H1 H2 H3 H4.
  destruct (iter_min _) as [c|] eqn:Ec.
  { destruct (prepare_step4_commit _ _ _ _ Hs4 E4 Ec Hr) as [Hbase' Hc].
    split_and!; [by etransitivity| |by right]. rewrite (ci_phase _ Hc).
    pose proof (prep_rank _ Hs). simpl. lia. }
  set (s5 := match s_H r1 with Some h => bump_B h r1 | None => r1 end) in *.
  assert (H5 : prep_step r1 s5).
  { unfold s5. destruct (s_H r1) as [h|] eqn:EH; [by apply bump_B_step|]. split_and!; [done|lia|done]. }
  pose proof (prep_step_trans _ _ _ (conj Hbase (conj Hrank Hs4)) H5) as H6.
  exec_inv. destruct (bal_N (s_B s5) <? r3); [|exec_inv; destruct H6 as (? & ? & ?); by split_and!; auto].
  exec_inv. destruct r4 as [x|]; [|exec_inv; destruct H6 as (? & ? & ?); by split_and!; auto].
  exec_inv.
  assert (Hx : Forall Adm x).
  { eapply (get_next_ballot_values_adm s5); [apply H6|by eapply adm_Z_base; [apply H6|]|done]. }
  set (s6 := set_B (Ballot_new r3 x) (cancel_next_ballot_timer s5)) in *.
  assert (H7 : prep_step s5 s6).
  { apply (prep_step_trans _ (cancel_next_ballot_timer s5)); [apply set_next_ballot_at_step, H6|].
    apply set_B_step; [apply set_next_ballot_at_step, H6|done]. }
  assert (H8 : prep_step s6 r4).
  { destruct (maybe_set_ballot_timer_spec _ _ _ E8) as [-> | [t ->]];
      [split_and!; [done|lia|apply H7]|apply set_next_ballot_at_step, H7]. }
  pose proof (prep_step_trans _ _ _ H6 (prep_step_trans _ _ _ H7 H8)) as (Hb9 & Hr9 & Hs9).
  destruct (IH r4 Hs9) as (? & ? & ?); [by eapply adm_Z_base|done|].
  split_and!; [by etransitivity|lia|done].
Qed.

(** *** The commit and externalize phases *)

Lemma federated_confirm_base s s' (St : Msg V ID → Prop) :
  same_base s s' → federated_confirm s St → federated_confirm s' St.
Proof.
  intros Hb. destruct (same_base_fields _ _ Hb) as (_ & Hn & Hq & HM & _).
  unfold federated_confirm. by rewrite Hn, Hq, HM.
Qed.

(** The evidence for externalizing: a quorum accepted the commit of the
    ballot's values from [C] on, up to a counter not above [H]. *)
Definition ext_certificate s : Prop :=
  ∃ C h hi, s_C s = Some C ∧ s_H s = Some h ∧ bal_N C <= hi ∧ hi <= bal_N h ∧
    bal_X C = bal_X (s_B s) ∧ bal_X h = bal_X (s_B s) ∧
    federated_confirm s (λ msg, accepts_commit_range msg (bal_X (s_B s)) (bal_N C) hi).

Lemma adm_msgs_base s s' : same_base s s' → adm_msgs s → adm_msgs s'.
Proof.
  intros Hb Hm n msg v. destruct (same_base_fields _ _ Hb) as (_ & _ & _ & -> & _). apply Hm.
Qed.

Lemma M_validated_base s s' : same_base s s' → M_validated s → M_validated s'.
Proof.
  intros Hb Hm n msg. destruct (same_base_fields _ _ Hb) as (_ & _ & _ & -> & _). apply Hm.
Qed.

(** Updates of the commit phase. *)
Lemma commit_set_P s P :
  commit_inv s → bal_X P = bal_X (s_B s) → commit_inv (set_P (Some P) s).
Proof. intros Hs HP. destruct Hs. constructor; simpl; auto. by exists P. Qed.

Lemma commit_set_CH s cn hn :
  commit_inv s → cn <= hn →
  commit_inv (set_H (Some (Ballot_new hn (bal_X (s_B s)))) (set_C (Some (Ballot_new cn (bal_X (s_B s)))) s)).
Proof.
  intros Hs Hle. destruct Hs. constructor; simpl; auto.
  - by exists (Ballot_new hn (bal_X (s_B s))).
  - by exists (Ballot_new cn (bal_X (s_B s))).
  - intros C h [= <-] [= <-]. done.
Qed.

Lemma commit_set_N s n : commit_inv s → commit_inv (set_B (Ballot_new n (bal_X (s_B s))) s).
Proof. intros Hs. destruct Hs. constructor; simpl; auto. Qed.

Lemma commit_set_timer s t : commit_inv s → commit_inv (set_next_ballot_at t s).
Proof. intros Hs. destruct Hs. constructor; simpl; auto. Qed.

Lemma commit_confirm s lo hi :
  commit_inv s → ballots_confirmed_committed s = Done (Some (lo, hi)) →
  lo <= hi ∧ federated_confirm s (λ msg, accepts_commit_range msg (bal_X (s_B s)) lo hi).
Proof.
  intros Hs Hc. destruct (confirmed_committed_spec s lo hi Hc) as (Hf & R & r0 & HR & Hr0 & _ & Hle).
  split; [|done]. apply Hle. unfold confirm_committed_candidates in HR.
  destruct (ci_C _ Hs) as (C & HC & _), (ci_H _ Hs) as (h & HH & _).
  rewrite (ci_phase _ Hs), HC, HH in HR. injection HR as <-.
  apply lookup_insert_Some in Hr0 as [[_ <-]|[_ Hr0]]; [by apply (ci_CH _ Hs)|].
  by rewrite lookup_empty in Hr0.
Qed.

Lemma accepted_committed_ordered s R x r :
  M_validated s → CH_ordered s → ballots_accepted_committed s = Done R → R !! x = Some r → r.1 <= r.2.
Proof using Ord1 TotalOrd0.
  intros HM HCH HR. destruct (accepted_committed_total s HM HCH) as (R' & HR' & Hok).
  rewrite HR in HR'. injection HR' as <-. apply Hok.
Qed.

(** What a run of the commit phase from [s] to [s'] guarantees. *)
Definition commit_run s s' : Prop :=
  same_base s s' ∧ bal_X (s_B s') = bal_X (s_B s) ∧ bal_N (s_B s) <= bal_N (s_B s') ∧
  (commit_inv s' ∨ (ext_inv s' ∧ ext_certificate s')).

(** (5) and (6). *)
Lemma commit_steps56 s acc s1 R :
  commit_inv s → M_validated s →
  match iter_max (filter (λ p : Ballot V, bool_decide (bal_X p = bal_X (s_B s))) acc) with
  | Some new_P => let! P := unwrap (s_P s) in
                  Done (if ord_ltb new_P P then s else set_P (Some new_P) s)
  | None => Done s
  end = Done s1 →
  ballots_accepted_committed s1 = Done R →
  let s2 := match R !! bal_X (s_B s1) with
            | Some (cn, hn) => set_H (Some (Ballot_new hn (bal_X (s_B s1))))
                                 (set_C (Some (Ballot_new cn (bal_X (s_B s1)))) s1)
            | None => s1
            end in
  same_base s s2 ∧ s_B s2 = s_B s ∧ commit_inv s2.
Proof using Ord1 TotalOrd0.
  intros Hs HM H1 HR.
  assert (same_base s s1 ∧ s_B s1 = s_B s ∧ commit_inv s1) as (Hb1 & HB1 & Hs1).
  { destruct (iter_max _) as [newP|] eqn:EP; exec_inv; [|done].
    destruct (ord_ltb _ _); [done|]. split_and!; [done|done|]. apply commit_set_P; [done|].
    apply iter_max_Some in EP as [HP _]. apply list_elem_of_filter in HP as [HP _].
    by apply bool_decide_unpack in HP. }
  intros s2. subst s2. destruct (R !! bal_X (s_B s1)) as [[cn hn]|] eqn:El; [|done].
  split_and!; [exact Hb1|exact HB1|]. apply commit_set_CH; [done|].
  eapply (accepted_committed_ordered s1 R _ (cn, hn)); [by eapply M_validated_base|apply Hs1|done|done].
Qed.

(** (7). *)
Lemma commit_step7 s cn hn :
  commit_inv s → ballots_confirmed_committed s = Done (Some (cn, hn)) →
  commit_run s
    (set_phase PhaseExternalize (cancel_next_ballot_timer (cancel_next_nomination_round
      (set_H (Some (Ballot_new hn (bal_X (s_B s)))) (set_C (Some (Ballot_new cn (bal_X (s_B s)))) s))))).
Proof.
  intros Hs Hc. destruct (commit_confirm s cn hn Hs Hc) as [Hle Hf].
  unfold commit_run. simpl. split_and!; [done|done|lia|]. right. split.
  - destruct Hs. constructor; simpl; auto.
    + by exists (Ballot_new hn (bal_X (s_B s))).
    + by exists (Ballot_new cn (bal_X (s_B s))).
    + intros C h [= <-] [= <-]. done.
  - exists (Ballot_new cn (bal_X (s_B s))), (Ballot_new hn (bal_X (s_B s))), hn.
    split_and!; [done|done|done|simpl; lia|done|done|exact Hf].
Qed.

(** (8). *)
Lemma commit_step8 s :
  commit_inv s →
  let s' := match s_H s with
            | Some h => if bal_N (s_B s) <? bal_N h
                        then set_B (Ballot_new (bal_N h) (bal_X (s_B s))) s else s
            | None => s
            end in
  commit_run s s'.
Proof.
  intros Hs. simpl. assert (commit_run s s) by (split_and!; [done|done|lia|by left]).
  destruct (s_H s) as [h|]; [|done]. destruct (N.ltb_spec (bal_N (s_B s)) (bal_N h)); [|done].
  unfold commit_run. simpl. split_and!; [done|done|lia|]. left. by apply commit_set_N.
Qed.

Lemma commit_run_trans s1 s2 s3 :
  same_base s1 s2 → bal_X (s_B s2) = bal_X (s_B s1) → bal_N (s_B s1) <= bal_N (s_B s2) →
  commit_run s2 s3 → commit_run s1 s3.
Proof.
  intros Hb HX HN (Hb' & HX' & HN' & Hc). split_and!; [by etransitivity|congruence|lia|done].
Qed.

Lemma do_commit_phase_inv fuel s s' :
  commit_inv s → M_validated s → do_commit_phase fuel s = Done s' → commit_run s s'.
Proof using Ord1 TotalOrd0.
  revert s. induction fuel as [|fuel IH]; intros s Hs HM; [done|]. cbn [do_commit_phase].
  intros Hr. exec_inv.
  destruct (commit_steps56 s r r0 r1 Hs HM E1 E2) as (Hb2 & HB2 & Hs2).
  set (s2 := match r1 !! bal_X (s_B r0) with Some _ => _ | None => _ end) in *.
  apply (commit_run_trans s s2); [done|by rewrite HB2|by rewrite HB2|].
  destruct r2 as [[cn hn]|]; [injection Hr as <-; by apply commit_step7|].
  pose proof (commit_step8 s2 Hs2) as H3. cbv zeta in H3.
  set (s3 := match s_H s2 with Some h => _ | None => _ end) in *.
  destruct H3 as (Hb3 & HX3 & HN3 & [Hs3|[Hs3 _]]).
  2:{ exfalso. assert (Hp : s_phase s3 = PhaseCommit).
      { unfold s3. destruct (s_H s2) as [h|]; [destruct (_ <? _)|]; apply Hs2. }
      rewrite (ei_phase _ Hs3) in Hp. done. }
  apply (commit_run_trans s2 s3); [done|done|done|]. exec_inv.
  destruct (N.ltb_spec (bal_N (s_B s3)) r2) as [Hlt|Hge]; [|exec_inv; by split_and!; [done|done|lia|left]].
  eapply commit_run_trans; [| | |eapply IH; [| |exact E5]]; simpl; [done|done|lia| |].
  - apply (commit_set_N (cancel_next_ballot_timer s3)). by apply commit_set_timer.
  - eapply M_validated_base; [|exact HM]. transitivity s2; [done|]. exact Hb3.
Qed.

(** The externalize phase can only raise [H]. *)
Lemma do_externalize_phase_inv s s' :
  ext_inv s → do_externalize_phase s = Done s' →
  same_base s s' ∧ ext_inv s' ∧ s_B s' = s_B s ∧ s_C s' = s_C s ∧
  (∀ h, s_H s = Some h → ∃ h', s_H s' = Some h' ∧ bal_X h' = bal_X h ∧ bal_N h <= bal_N h').
Proof.
  intros Hs Hr. unfold do_externalize_phase in Hr. exec_inv.
  assert (Hrefl : same_base s s ∧ ext_inv s ∧ s_B s = s_B s ∧ s_C s = s_C s ∧
    (∀ h, s_H s = Some h → ∃ h', s_H s = Some h' ∧ bal_X h' = bal_X h ∧ bal_N h <= bal_N h')).
  { split_and!; try done. intros h Hh. exists h. split_and!; [done|done|lia]. }
  destruct (ei_H _ Hs) as (h0 & Hh0 & HX0).
  destruct r as [[lo hn]|]; [|exec_inv; exact Hrefl]. rewrite Hh0 in *. simpl in *. exec_inv.
  destruct (N.leb_spec (bal_N h0) hn) as [Hle|]; [|by rewrite Hh0].
  simpl. split_and!; [done| |done|done|].
  - destruct Hs. constructor; simpl; auto.
    + by exists (Ballot_new hn (bal_X h0)).
    + intros C h HC [= <-]. specialize (ei_CH0 C h0 HC Hh0). simpl. lia.
  - intros h [= <-]. exists (Ballot_new hn (bal_X h0)). by split_and!.
Qed.

(** *** Nomination *)

Lemma nominate_payloads_lookup s n p :
  nominate_payloads s !! n = Some p →
  ∃ msg, s_M s !! n = Some msg ∧ (topic msg = Nominate p ∨ ∃ q, topic msg = NominatePrepare p q).
Proof.
  unfold nominate_payloads.
  assert (Hsub : ∀ n msg, (n, msg) ∈ hm_iter (s_M s) → s_M s !! n = Some msg)
    by (intros; by apply elem_of_hm_iter).
  revert Hsub p. induction (hm_iter (s_M s)) as [|[k msg] l IH] using rev_ind; intros Hsub p;
    [by simpl; rewrite lookup_empty|].
  rewrite foldl_snoc. simpl. assert (Hk : s_M s !! k = Some msg) by (apply Hsub; set_solver).
  assert (Hl : ∀ n msg, (n, msg) ∈ l → s_M s !! n = Some msg) by (intros; apply Hsub; set_solver).
  case_bool_decide; [by apply IH|].
  destruct (topic msg) as [q|q q'|q|q|q] eqn:Et; try by apply IH.
  - intros [[<- <-]|[_ Hp]]%lookup_insert_Some; [by eauto|by eapply IH].
  - intros [[<- <-]|[_ Hp]]%lookup_insert_Some; [by eauto|by eapply IH].
Qed.

Lemma nominate_payloads_adm s n p v :
  adm_msgs s → nominate_payloads s !! n = Some p → v ∈ nom_X p ∪ nom_Y p → Adm v.
Proof.
  intros Hm Hp Hv. destruct (nominate_payloads_lookup s n p Hp) as (msg & Hn & Ht).
  eapply Hm; [done|]. unfold msg_values. destruct Ht as [-> | [q ->]]; set_solver.
Qed.

Lemma new_votes_adm s v :
  adm_msgs s → (∀ v, v ∈ s_W s ∪ s_X s → Adm v) → v ∈ new_votes s → Adm v.
Proof.
  intros Hm HW. unfold new_votes.
  assert (Hsub : ∀ n p, (n, p) ∈ hm_iter (nominate_payloads s) → nominate_payloads s !! n = Some p)
    by (intros; by apply elem_of_hm_iter).
  assert (HX0 : v ∈ (if bool_decide (s_node_id s ∈ s_max_priority_peers s)
           then s_X s ∪ (s_W s ∖ s_Y s) else s_X s) → Adm v).
  { case_bool_decide; intros Hv; apply HW; set_solver. }
  revert Hsub HX0. set (X0 := if bool_decide _ then _ else _). clearbody X0.
  induction (hm_iter (nominate_payloads s)) as [|[n p] l IH] using rev_ind; intros Hsub HX0; [done|].
  rewrite foldl_snoc. simpl.
  assert (Hl : v ∈ foldl (λ X kv, if bool_decide (kv.1 ∈ s_max_priority_peers s)
    then X ∪ ((nom_X kv.2 ∪ nom_Y kv.2) ∖ s_Y s) else X) X0 l → Adm v).
  { apply IH; [|done]. intros. apply Hsub. set_solver. }
  case_bool_decide; [|done]. rewrite elem_of_union. intros [Hv|Hv]; [by apply Hl|].
  eapply (nominate_payloads_adm s n p); [done|apply Hsub; set_solver|set_solver].
Qed.

(** The values a node says it accepts nominated are admissible. *)
Lemma accepted_nominated_adm s acc v :
  adm_msgs s → (∀ v, v ∈ s_X s → Adm v) →
  additional_values_accepted_nominated s = Done acc → v ∈ acc → Adm v.
Proof.
  intros Hm HX Hacc Hv.
  destruct (accepted_nominated_spec s acc v Hacc Hv) as [(U & HU & _ & Hn)|[? _]]; [|by apply HX].
  apply set_choose_L in HU as [n HnU]. destruct (Hn n HnU) as (msg & Hmsg & vals & Hvals & Hin).
  eapply Hm; [done|]. by eapply accepts_nominated_values.
Qed.

(** What a nomination step changes. *)
Definition nom_step s s' : Prop :=
  same_base (set_X ∅ (set_Y ∅ (set_Z ∅ s))) (set_X ∅ (set_Y ∅ (set_Z ∅ s'))) ∧
  s_phase s' = s_phase s ∧ s_Y s ⊆ s_Y s' ∧ s_Z s ⊆ s_Z s' ∧
  s_H s' = s_H s ∧ s_C s' = s_C s ∧ s_P s' = s_P s ∧ s_PP s' = s_PP s.

Lemma update_YZ_inv s s' :
  nom_inv s → adm_msgs s → update_YZ s = Done s' →
  nom_inv s' ∧ nom_step s s' ∧ s_B s' = s_B s ∧
  s_next_nominate_round_at s' = s_next_nominate_round_at s.
Proof.
  intros Hs Hm Hr. unfold update_YZ in Hr. exec_inv. apply bool_decide_eq_true in Eb. simpl in *.
  assert (Hacc : ∀ v, v ∈ r → Adm v).
  { intros v Hv. eapply (accepted_nominated_adm s r); [done| |done|done].
    intros v' Hv'. apply Hs. set_solver. }
  assert (Hconf : r0 ⊆ s_Y s ∪ r).
  { intros v Hv. destruct (confirmed_nominated_spec _ _ _ E1 Hv) as [Hin _]. simpl in Hin. set_solver. }
  split_and!; simpl; try done.
  - destruct Hs as [Hd HZ Hms Hcache Hadm]. constructor; simpl; auto; [set_solver|].
    intros v Hv. destruct (decide (v ∈ r)); [by apply Hacc|]. apply Hadm. set_solver.
  - unfold nom_step. simpl. split_and!; try done; set_solver.
Qed.

Lemma do_nominate_phase_inv now s s' :
  nom_inv s → prep_inv s → do_nominate_phase now s = Done s' →
  s_phase s = PhaseNominatePrepare ∧ nom_inv s' ∧ prep_inv s' ∧ nom_step s s'.
Proof using Ord1 TotalOrd0 combine_adm.
  intros Hn Hp Hr. unfold do_nominate_phase in Hr. exec_inv. apply bool_decide_eq_true in Eb.
  set (s1 := schedule_next_nomination_round now s) in *.
  assert (nom_inv s1 ∧ s_phase s1 = s_phase s ∧ s_B s1 = s_B s ∧ nom_step s s1) as (Hn1 & Hp1 & HB1 & Hst1).
  { unfold s1, schedule_next_nomination_round. unfold nom_step.
    destruct (s_next_nominate_round_at s); split_and!; done || (destruct Hn; constructor; simpl; auto). }
  assert (adm_msgs s1) as Hm1.
  { unfold s1, schedule_next_nomination_round. destruct (s_next_nominate_round_at s); apply Hp. }
  clearbody s1.
  assert (nom_inv r ∧ adm_msgs r ∧ s_B r = s_B s1 ∧ nom_step s1 r) as (Hn2 & Hm2 & HB2 & Hst2).
  { case_bool_decide as HZ; exec_inv; [|unfold nom_step; by split_and!].
    apply bool_decide_eq_true in Eb0. simpl in Eb0. unfold nom_step. split_and!; simpl; try done.
    destruct Hn1 as [Hd HZY Hms Hcache Hadm]. constructor; simpl; auto.
    intros v [[Hv|Hv]%elem_of_union|Hv]%elem_of_union; [apply Hadm; set_solver| |apply Hadm; set_solver].
    eapply new_votes_adm; [done| |done]. intros v' Hv'. apply Hadm. set_solver. }
  destruct (update_YZ_inv r r0 Hn2 Hm2 E1) as (Hn3 & Hst3 & HB3 & Ht3).
  assert (nom_step s r0) as Hst.
  { destruct Hst1 as (? & ? & ? & ? & ? & ? & ? & ?), Hst2 as (? & ? & ? & ? & ? & ? & ? & ?),
      Hst3 as (? & ? & ? & ? & ? & ? & ? & ?). unfold nom_step.
    split_and!; try congruence; try set_solver. }
  assert (HBr : s_B r0 = s_B s) by congruence.
  assert (Hp' : prep_inv r0).
  { destruct Hst as (Hbase & Hph & _ & _ & HH & HC & HP & HPP).
    destruct (same_base_fields _ _ Hbase) as (_ & _ & _ & HM & _). simpl in HM.
    destruct Hp. constructor; rewrite ?Hph, ?HH, ?HC, ?HP, ?HPP, ?HBr; auto; [done|].
    intros n msg v. rewrite HM. apply pi_msgs0. }
  destruct (bool_decide (s_Z r0 ≠ ∅) && is_zero (s_B r0)); [|done].
  destruct (combine_fn _) as [values|e] eqn:Ec; [|done].
  split_and!; [done|destruct Hn3; constructor; simpl; auto| |exact Hst].
  apply set_B_step; [done|]. eapply combine_adm; [|exact Ec]. apply Forall_forall.
  intros v Hv%elem_of_hs_iter. apply Hn3. pose proof (ni_Z_Y _ Hn3). set_solver.
Qed.

(** *** How a slot evolves *)

Record evolves s s' : Prop := {
  ev_index : s_slot_index s' = s_slot_index s;
  ev_node : s_node_id s' = s_node_id s;
  ev_qs : s_quorum_set s' = s_quorum_set s;
  ev_rank : phase_rank (s_phase s) <= phase_rank (s_phase s');
  ev_W : s_W s ⊆ s_W s';
  ev_Y : s_Y s ⊆ s_Y s';
  ev_Z : s_Z s ⊆ s_Z s';
  ev_valid : s_valid_values s ⊆ s_valid_values s';
  ev_peers : s_max_priority_peers s ⊆ s_max_priority_peers s';
  ev_senders : dom (s_M s) ⊆ dom (s_M s');
  (* From the commit phase on the values of the ballot are fixed... *)
  ev_value : 2 <= phase_rank (s_phase s) → bal_X (s_B s') = bal_X (s_B s);
  (* ...and once externalized so are the ballot and [C]; [H] can only rise. *)
  ev_final : s_phase s = PhaseExternalize →
    s_B s' = s_B s ∧ s_C s' = s_C s ∧
    ∀ h, s_H s = Some h → ∃ h', s_H s' = Some h' ∧ bal_X h' = bal_X h ∧ bal_N h <= bal_N h'
}.

Lemma phase_rank_ext p : 3 <= phase_rank p → p = PhaseExternalize.
Proof. destruct p; simpl; try lia; done. Qed.

#[export] Instance evolves_preorder : PreOrder evolves.
Proof.
  split.
  - intros s. constructor; try done; try lia. intros _. split_and!; [done|done|].
    intros h Hh. exists h. split_and!; [done|done|lia].
  - intros s1 s2 s3 H12 H23.
    pose proof (ev_rank _ _ H12). pose proof (ev_rank _ _ H23).
    destruct H12 as [? ? ? ? ? ? ? ? ? ? Hv Hf], H23 as [? ? ? ? ? ? ? ? ? ? Hv' Hf'].
    constructor; [congruence|congruence|congruence|lia|by etransitivity..| |].
    + intros Hr. rewrite Hv' by lia. by apply Hv.
    + intros Hp. destruct (Hf Hp) as (HB & HC & HH).
      assert (s_phase s2 = PhaseExternalize) as Hp2.
      { apply phase_rank_ext. rewrite Hp in *. simpl in *. lia. }
      destruct (Hf' Hp2) as (HB' & HC' & HH'). split_and!; [congruence|congruence|].
      intros h Hh. destruct (HH h Hh) as (h2 & Hh2 & ? & ?).
      destruct (HH' h2 Hh2) as (h3 & Hh3 & ? & ?). exists h3. split_and!; [done|congruence|lia].
Qed.

(** Steps that leave everything but the ballots alone. *)
Lemma base_evolves s s' :
  same_base s s' → phase_rank (s_phase s) <= phase_rank (s_phase s') →
  (2 <= phase_rank (s_phase s) → bal_X (s_B s') = bal_X (s_B s)) →
  (s_phase s = PhaseExternalize → s_B s' = s_B s ∧ s_C s' = s_C s ∧
    ∀ h, s_H s = Some h → ∃ h', s_H s' = Some h' ∧ bal_X h' = bal_X h ∧ bal_N h <= bal_N h') →
  evolves s s'.
Proof.
  intros Hb Hr Hv Hf.
  destruct (same_base_fields _ _ Hb) as (? & ? & ? & HM & HW & HX & HY & HZ & ? & Hpe & ? & Hva & ? & ?).
  constructor; auto; [by rewrite HW|by rewrite HY|by rewrite HZ|by rewrite Hva|by rewrite Hpe|by rewrite HM].
Qed.

(** Updates that leave the ballots alone. *)
Lemma nom_step_evolves s s' :
  s_phase s = PhaseNominatePrepare → nom_step s s' → evolves s s'.
Proof.
  intros Hp (Hb & Hp' & HY & HZ & HH & HC & HP & HPP).
  destruct (same_base_fields _ _ Hb) as (? & ? & ? & HM & HW & _ & _ & _ & ? & Hpe & ? & Hva & ? & ?).
  simpl in *. constructor; auto; try (by rewrite ?HW, ?Hva, ?Hpe, ?HM); rewrite ?Hp', ?Hp; simpl; done || lia.
Qed.

Lemma nom_inv_base s s' : same_base s s' → nom_inv s → nom_inv s'.
Proof.
  intros Hb [Hd HZ Hms Hca Had].
  destruct (same_base_fields _ _ Hb) as (Hi & Hn & Hq & HM & HW & HX & HY & HZ' & _ & _ & _ & Hva & _ & _).
  constructor; rewrite ?HX, ?HY, ?HZ', ?HW, ?Hva; auto.
  intros n msg. rewrite HM. unfold msg_ok. rewrite Hn, Hi. apply Hms.
Qed.

Lemma nom_inv_validated s : nom_inv s → M_validated s.
Proof. intros Hs n msg Hn. by destruct (ni_msgs _ Hs n msg Hn) as (_ & _ & _ & ? & ?). Qed.

Lemma prep_not_commit s : prep_inv s → s_phase s ≠ PhaseCommit ∧ s_phase s ≠ PhaseExternalize.
Proof. intros [[-> | ->]]; done. Qed.

(** The prepare part of the ballot protocol. *)
Lemma protocol_prepare fuel now s s' :
  nom_inv s → ballot_inv s →
  (if bool_decide (s_phase s = PhaseNominatePrepare) || bool_decide (s_phase s = PhasePrepare)
   then do_prepare_phase fuel now s else Done s) = Done s' →
  same_base s s' ∧ evolves s s' ∧ ballot_inv s' ∧
  (s_phase s' = PhaseExternalize → s_phase s = PhaseExternalize).
Proof using Ord1 TotalOrd0 combine_adm.
  intros Hn Hb. assert (adm_Z s) as HZ.
  { intros v Hv. apply Hn. pose proof (ni_Z_Y _ Hn). set_solver. }
  destruct Hb as [Hp|[Hc|He]].
  - assert (bool_decide (s_phase s = PhaseNominatePrepare) || bool_decide (s_phase s = PhasePrepare) = true) as ->.
    { destruct (pi_phase _ Hp) as [-> | ->]; done. }
    intros Hr. destruct (do_prepare_phase_inv fuel now s s' Hp HZ Hr) as (Hbase & Hrank & Hs').
    destruct (prep_not_commit _ Hp). split_and!; [done| |destruct Hs'; unfold ballot_inv; auto|].
    + apply base_evolves; [done|done| |done]. pose proof (prep_rank _ Hp). lia.
    + intros Hph. destruct Hs' as [Hs'|Hs']; [by destruct (prep_not_commit _ Hs')|].
      rewrite (ci_phase _ Hs') in Hph. done.
  - rewrite (ci_phase _ Hc). simpl. intros [= <-]. unfold ballot_inv. split_and!; [done|reflexivity|auto|].
    by rewrite (ci_phase _ Hc).
  - rewrite (ei_phase _ He). simpl. intros [= <-]. unfold ballot_inv. split_and!; [done|reflexivity|auto|done].
Qed.

(** The commit part. *)
Lemma protocol_commit fuel s s' :
  nom_inv s → ballot_inv s →
  (if bool_decide (s_phase s = PhaseCommit) then do_commit_phase fuel s else Done s) = Done s' →
  same_base s s' ∧ evolves s s' ∧ ballot_inv s' ∧
  (s_phase s ≠ PhaseExternalize → s_phase s' = PhaseExternalize → ext_certificate s').
Proof using Ord1 TotalOrd0.
  intros Hn Hb. case_bool_decide as Hph.
  - assert (commit_inv s) as Hc.
    { destruct Hb as [Hp|[Hc|He]]; [by destruct (prep_not_commit _ Hp)|done|].
      rewrite (ei_phase _ He) in Hph. done. }
    intros Hr. destruct (do_commit_phase_inv fuel s s' Hc (nom_inv_validated _ Hn) Hr)
      as (Hbase & HX & HN & Hs').
    assert (Hrank : phase_rank (s_phase s) <= phase_rank (s_phase s')).
    { rewrite Hph. destruct Hs' as [Hs'|[Hs' _]]; [rewrite (ci_phase _ Hs')|rewrite (ei_phase _ Hs')]; simpl; lia. }
    split_and!; [done| | |].
    + apply base_evolves; [done|done|done|]. rewrite Hph. done.
    + destruct Hs' as [Hs'|[Hs' _]]; unfold ballot_inv; auto.
    + intros _ Hph'. destruct Hs' as [Hs'|[_ Hcert]]; [|done]. rewrite (ci_phase _ Hs') in Hph'. done.
  - intros [= <-]. split_and!; [done|reflexivity|done|]. intros ? ?. done.
Qed.

Lemma ext_certificate_mono s s' :
  same_base s s' → s_B s' = s_B s → s_C s' = s_C s →
  (∀ h, s_H s = Some h → ∃ h', s_H s' = Some h' ∧ bal_X h' = bal_X h ∧ bal_N h <= bal_N h') →
  ext_certificate s → ext_certificate s'.
Proof.
  intros Hb HB HC HH (C & h & hi & HC' & Hh & ? & ? & ? & ? & Hf).
  destruct (HH h Hh) as (h' & Hh' & ? & ?). exists C, h', hi. rewrite HB, HC.
  split_and!; [done|done|done|lia|done|congruence|]. by eapply federated_confirm_base.
Qed.

(** [do_ballot_protocol] keeps the invariant; a slot it externalizes has the
    evidence for it. *)
Lemma do_ballot_protocol_inv fuel now s s' :
  nom_inv s → ballot_inv s → do_ballot_protocol fuel now s = Done s' →
  same_base s s' ∧ evolves s s' ∧ ballot_inv s' ∧
  (s_phase s ≠ PhaseExternalize → s_phase s' = PhaseExternalize → ext_certificate s').
Proof using Ord1 TotalOrd0 combine_adm.
  intros Hn Hb Hr. unfold do_ballot_protocol in Hr. exec_inv.
  assert (same_base s r ∧ evolves s r ∧ ballot_inv r ∧ s_phase r = s_phase s) as (Hb1 & He1 & Hi1 & Hp1).
  { destruct (maybe_set_ballot_timer_spec _ _ _ E0) as [-> | [t ->]]; [split_and!; [done|reflexivity|done|done]|].
    split_and!; [done| | |done].
    - apply base_evolves; [done|simpl; lia|done|]. intros _. split_and!; [done|done|].
      intros h Hh. exists h. split_and!; [done|done|lia].
    - destruct Hb as [Hp|[Hc|Hx]]; [left; by apply set_next_ballot_at_step|right; left; by apply commit_set_timer|].
      right. right. destruct Hx. constructor; auto. }
  destruct (protocol_prepare _ _ _ _ (nom_inv_base _ _ Hb1 Hn) Hi1 E1) as (Hb2 & He2 & Hi2 & Hp2).
  assert (same_base s r0) as Hb02 by (by etransitivity).
  destruct (protocol_commit _ _ _ (nom_inv_base _ _ Hb02 Hn) Hi2 E2) as (Hb3 & He3 & Hi3 & Hp3).
  assert (same_base s r1) as Hb03 by (by etransitivity).
  assert (evolves s r1) as He03 by (by do 2 (etransitivity; [done|])).
  assert (Hcert : s_phase s ≠ PhaseExternalize → s_phase r1 = PhaseExternalize → ext_certificate r1).
  { intros Hne. apply Hp3. intros Hx. apply Hne. rewrite <- Hp1. by apply Hp2. }
  case_bool_decide as Hph; [|exec_inv; done].
  assert (ext_inv r1) as Hx.
  { destruct Hi3 as [Hp|[Hc|Hx]]; [by destruct (prep_not_commit _ Hp)| |done].
    rewrite (ci_phase _ Hc) in Hph. done. }
  destruct (do_externalize_phase_inv _ _ Hx Hr) as (Hb4 & Hx4 & HB4 & HC4 & HH4).
  split_and!; [by etransitivity| |right; by right|].
  - etransitivity; [done|]. apply base_evolves; [done| | |done].
    + rewrite Hph, (ei_phase _ Hx4). done.
    + intros _. by rewrite HB4.
  - intros Hne _. eapply ext_certificate_mono; [done|done|done|done|]. by apply Hcert.
Qed.
End invariant.
