(* ===== verification/SlotRuns.v ===== *)
(** * Runs of a slot

    The entry points of [Slot] as steps, and the lemmas that carry the invariant
    of [SlotInv] and the relation [evolves] through each of them: receiving and
    validating messages, proposing values, timeouts, the outgoing message. *)

From S2P Require Import Prelude Ord QuorumSet ScpMsg Predicates QuorumSearch SlotState SlotVoting VotingProps Slot SlotInv.

Local Open Scope N_scope.

Section runs.
Context {V ID E : Type} `{Countable V} `{!Ord V, !TotalOrd V} `{Countable ID} `{!Ord ID}.
Context `{HI : HashIter} `{App : !Application V ID E}.
Implicit Types s : Slot V ID.

(** ** Steps *)

(** A call of an entry point, with the messages it emits. *)
Inductive slot_step s : list (Msg V ID) → Slot V ID → Prop :=
| step_propose fuel now values o s' :
    propose_values fuel now values s = Done (o, s') → slot_step s (option_list o) s'
| step_handle fuel now msgs o s' :
    Forall msg_u32 msgs → handle_messages fuel now msgs s = Done (o, s') →
    slot_step s (option_list o) s'
| step_timeout fuel now out s' :
    process_timeouts fuel now s = Done (out, s') → slot_step s out s'.

(** A sequence of calls and everything emitted. *)
Inductive slot_run s : list (Msg V ID) → Slot V ID → Prop :=
| run_nil : slot_run s [] s
| run_step out1 s1 out2 s2 :
    slot_run s out1 s1 → slot_step s1 out2 s2 → slot_run s (out1 ++ out2) s2.

(** Slots of a node: made by [Slot::new], then run. *)
Definition reachable s : Prop :=
  ∃ node_id q slot_index s0 out,
    Slot_new node_id q slot_index = Done s0 ∧ slot_run s0 out s.

(** ** The outgoing message *)

Lemma out_msg_spec s o s' :
  out_msg s = Done (o, s') →
  (o = None ∧ s' = s) ∨
  (∃ m, o = Some m ∧ s' = set_last_sent_msg (Some m) s ∧ out_topic s = Done (Some (topic m)) ∧
     sender_id m = s_node_id s ∧ msg_slot_index m = s_slot_index s ∧
     msg_quorum_set m = s_quorum_set s ∧ validate m = Ok tt ∧
     ∀ last, s_last_sent_msg s = Some last → msg_eqb m last = false).
Proof.
  intros Hr. unfold out_msg in Hr. exec_inv. destruct r as [t|]; exec_inv; [|by left].
  set (m := Msg_new _ _ _ t) in *.
  assert (Hv : validate m = Ok tt) by (by destruct (validate m) as [[]|]).
  destruct (s_last_sent_msg s) as [last|] eqn:El.
  - destruct (msg_eqb m last) eqn:Em; simpl in Hr; exec_inv; [by left|].
    right. exists m. split_and!; try done. by intros ? [= <-].
  - exec_inv. right. exists m. split_and!; done.
Qed.

(** ** Invariants through the entry points *)

Context (Adm : V → Prop).
Context (valid_adm : ∀ v, validity_fn (ID:=ID) (E:=E) v = Ok tt → Adm v).
Context (combine_adm : ∀ l r, Forall Adm l → combine_fn (ID:=ID) (E:=E) l = Ok r → Forall Adm r).

Abbreviation nom_inv := (nom_inv (E:=E) Adm).
Abbreviation ballot_inv := (ballot_inv Adm).
Abbreviation slot_inv := (slot_inv (E:=E) Adm).

(** Updates of fields the ballot invariant does not mention. *)
Definition same_ballots s s' : Prop :=
  s_B s' = s_B s ∧ s_P s' = s_P s ∧ s_PP s' = s_PP s ∧ s_H s' = s_H s ∧ s_C s' = s_C s ∧
  s_phase s' = s_phase s ∧ s_next_nominate_round_at s' = s_next_nominate_round_at s.

Lemma ballot_inv_same s s' :
  same_ballots s s' → (s_phase s ≠ PhaseExternalize → adm_msgs Adm s → adm_msgs Adm s') →
  ballot_inv s → ballot_inv s'.
Proof.
  intros (HB & HP & HPP & HH & HC & Hph & Ht) Hm [Hp|[Hc|He]].
  - left. assert (adm_msgs Adm s') by (apply Hm; [by destruct (prep_not_commit _ _ Hp)|apply Hp]).
    destruct Hp. constructor; rewrite ?HB, ?HP, ?HPP, ?HH, ?HC, ?Hph, ?Ht; auto.
  - right. left. assert (adm_msgs Adm s') by (apply Hm; [by rewrite (ci_phase _ _ Hc)|apply Hc]).
    destruct Hc. constructor; unfold CH_ordered; rewrite ?HB, ?HP, ?HPP, ?HH, ?HC, ?Hph, ?Ht; auto.
  - right. right. destruct He.
    constructor; unfold CH_ordered; rewrite ?HB, ?HP, ?HPP, ?HH, ?HC, ?Hph, ?Ht; auto.
Qed.

Lemma same_ballots_evolves s s' :
  same_ballots s s' →
  s_slot_index s' = s_slot_index s → s_node_id s' = s_node_id s → s_quorum_set s' = s_quorum_set s →
  s_W s ⊆ s_W s' → s_Y s ⊆ s_Y s' → s_Z s ⊆ s_Z s' → s_valid_values s ⊆ s_valid_values s' →
  s_max_priority_peers s ⊆ s_max_priority_peers s' → dom (s_M s) ⊆ dom (s_M s') →
  evolves s s'.
Proof.
  intros (HB & HP & HPP & HH & HC & Hph & Ht) **. constructor; rewrite ?Hph, ?HB; auto.
  intros _. split_and!; [done|done|]. intros h Hh. exists h. rewrite HH. split_and!; [done|done|lia].
Qed.

(** *** Validation of values *)

(** The cache only grows, by values the application accepts. *)
Definition cache_step s s' : Prop :=
  ∃ vs, s' = set_valid_values vs s ∧ s_valid_values s ⊆ vs ∧
    ∀ v, v ∈ vs → v ∈ s_valid_values s ∨ validity_fn (ID:=ID) (E:=E) v = Ok tt.

Lemma cache_step_refl s : cache_step s s.
Proof. exists (s_valid_values s). split_and!; [by destruct s|done|auto]. Qed.

Lemma cache_step_trans s1 s2 s3 : cache_step s1 s2 → cache_step s2 s3 → cache_step s1 s3.
Proof.
  intros (vs & -> & Hsub & Hv) (vs' & -> & Hsub' & Hv'). simpl in *. exists vs'.
  split_and!; [done|set_solver|]. intros v [?|?]%Hv'; auto.
Qed.

Lemma cache_step_inv s s' : cache_step s s' → slot_inv s → slot_inv s' ∧ evolves s s'.
Proof.
  intros (vs & -> & Hsub & Hv) [Hn Hb]. split; [split|].
  - destruct Hn as [? ? ? Hc ?]. constructor; simpl; auto. intros v [?|?]%Hv; auto.
  - by apply (ballot_inv_same s).
  - by apply same_ballots_evolves.
Qed.

Lemma slot_validate_spec s v r s' :
  slot_validate s v = (r, s') → slot_inv s →
  cache_step s s' ∧ (is_ok r = true → validity_fn (ID:=ID) (E:=E) v = Ok tt).
Proof.
  intros Hr [Hn _]. unfold slot_validate in Hr. case_bool_decide as Hin.
  - injection Hr as <- <-. split; [apply cache_step_refl|]. intros _. by apply Hn.
  - destruct (validity_fn v) as [[]|e] eqn:Ev; injection Hr as <- <-.
    + split; [|done]. eexists. split; [done|]. split; [set_solver|].
      intros v'. set_solver.
    + split; [apply cache_step_refl|done].
Qed.

Lemma filter_valid_spec values s kept s' :
  filter_valid values s = (kept, s') → slot_inv s →
  cache_step s s' ∧ ∀ v, v ∈ kept → validity_fn (ID:=ID) (E:=E) v = Ok tt.
Proof.
  unfold filter_valid. revert kept s'.
  induction values as [|v values IH] using rev_ind; intros kept s'; simpl.
  - intros [= <- <-] _. split; [apply cache_step_refl|set_solver].
  - rewrite foldl_snoc. destruct (foldl _ _ values) as [kept1 s1] eqn:Ef.
    destruct (slot_validate s1 v) as [r s2] eqn:Ev. intros [= <- <-] Hs.
    destruct (IH kept1 s1 eq_refl Hs) as [Hc1 Hk1].
    destruct (slot_validate_spec s1 v r s2 Ev) as [Hc2 Hr]; [by apply (cache_step_inv s)|].
    split; [by eapply cache_step_trans|]. intros v'.
    destruct (is_ok r); [|by apply Hk1]. rewrite elem_of_app, list_elem_of_singleton.
    intros [?| ->]; auto.
Qed.

Lemma all_valid_spec values s ok s' :
  all_valid values s = (ok, s') → slot_inv s →
  cache_step s s' ∧ (ok = true → ∀ v, v ∈ values → validity_fn (ID:=ID) (E:=E) v = Ok tt).
Proof.
  revert s. induction values as [|v values IH]; simpl; intros s Hr Hs.
  - injection Hr as <- <-. split; [apply cache_step_refl|set_solver].
  - destruct (slot_validate s v) as [r s1] eqn:Ev.
    destruct (slot_validate_spec s v r s1 Ev Hs) as [Hc1 Hv].
    destruct (is_ok r) eqn:Er; [|by injection Hr as <- <-].
    destruct (IH s1 Hr) as [Hc2 Hvs]; [by apply (cache_step_inv s)|].
    split; [by eapply cache_step_trans|]. intros Hok v' [->|?]%elem_of_cons; auto.
Qed.

(** *** Receiving messages *)

(** The messages the loop of [handle_messages] looks at. *)
Definition for_slot s (msg : Msg V ID) : Prop :=
  sender_id msg ≠ s_node_id s ∧ msg_slot_index msg = s_slot_index s ∧ msg_u32 msg.

Lemma set_M_inv s msg :
  slot_inv s → for_slot s msg → validate msg = Ok tt →
  (s_phase s ≠ PhaseExternalize → ∀ v, v ∈ msg_values msg → Adm v) →
  let s' := set_M (<[ sender_id msg := msg ]> (s_M s)) s in
  slot_inv s' ∧ evolves s s'.
Proof.
  intros [Hn Hb] (Hne & Hidx & Hu) Hv Hvals. simpl. split; [split|].
  - destruct Hn as [? ? Hms ? ?]. constructor; simpl; auto.
    intros n m [[<- <-]|[_ Hm]]%lookup_insert_Some; [by split_and!|by apply Hms].
  - apply (ballot_inv_same s); [done| |done]. intros Hph Ham n m v. simpl.
    intros [[<- <-]|[_ Hm]]%lookup_insert_Some; [by apply Hvals|by eapply Ham].
  - apply same_ballots_evolves; simpl; try done. rewrite dom_insert. set_solver.
Qed.

Lemma receive_msg_inv f s msg f' s' :
  receive_msg (f, s) msg = (f', s') → slot_inv s → for_slot s msg →
  slot_inv s' ∧ evolves s s' ∧ s_phase s' = s_phase s ∧
  s_last_sent_msg s' = s_last_sent_msg s.
Proof using All.
  intros Hr Hs Hfor. unfold receive_msg in Hr.
  set (is_higher := match s_M s !! sender_id msg with Some _ => _ | None => _ end) in *.
  destruct (is_higher && is_ok (validate msg)) eqn:Eh;
    [|injection Hr as <- <-; split_and!; [done|reflexivity|done|done]].
  apply andb_true_iff in Eh as [_ Hok].
  assert (Hv : validate msg = Ok tt) by (by destruct (validate msg) as [[]|]).
  case_bool_decide as Hph.
  - injection Hr as <- <-. destruct (set_M_inv s msg Hs Hfor Hv) as [? ?]; [done|]. by split_and!.
  - destruct (all_valid _ s) as [ok s1] eqn:Ea.
    destruct (all_valid_spec _ s ok s1 Ea Hs) as [Hc Hvals].
    destruct (cache_step_inv s s1 Hc Hs) as [Hs1 He1]. pose proof Hc as (vs & -> & _ & _).
    destruct ok; injection Hr as <- <-; [|by split_and!].
    destruct (set_M_inv (set_valid_values vs s) msg Hs1 Hfor Hv) as [Hs2 He2].
    { intros _ v Hin. apply valid_adm, Hvals; [done|]. by apply elem_of_btree_iter. }
    split_and!; [done|by etransitivity|done|done].
Qed.

Lemma receive_msgs_inv msgs f s f' s' :
  foldl receive_msg (f, s) msgs = (f', s') → slot_inv s → Forall (for_slot s) msgs →
  slot_inv s' ∧ evolves s s' ∧ s_phase s' = s_phase s ∧
  s_last_sent_msg s' = s_last_sent_msg s.
Proof using All.
  revert f s. induction msgs as [|msg msgs IH]; cbn [foldl]; intros f s Hr Hs Hfor.
  - injection Hr as <- <-. split_and!; [done|reflexivity|done|done].
  - apply Forall_cons in Hfor as [Hm Hms].
    destruct (receive_msg (f, s) msg) as [f1 s1] eqn:E1.
    destruct (receive_msg_inv f s msg f1 s1 E1 Hs Hm) as (Hs1 & He1 & Hp1 & Hl1).
    destruct (IH f1 s1 Hr Hs1) as (Hs2 & He2 & Hp2 & Hl2).
    { eapply Forall_impl; [exact Hms|]. intros m. unfold for_slot.
      by rewrite (ev_node _ _ He1), (ev_index _ _ He1). }
    split_and!; [done|by etransitivity|congruence|congruence].
Qed.

Lemma msgs_for_slot_for msgs s :
  Forall msg_u32 msgs → Forall (for_slot s) (msgs_for_slot msgs s).
Proof.
  rewrite !Forall_forall. intros Hu m Hm. unfold msgs_for_slot in Hm. rewrite elem_of_sort_by in Hm.
  apply list_elem_of_filter in Hm as [Hi [Hn Hin]%list_elem_of_filter]. split_and!; auto.
Qed.

Lemma nom_step_last s s' : nom_step s s' → s_last_sent_msg s' = s_last_sent_msg s.
Proof.
  intros (Hb & _). by destruct (same_base_fields _ _ Hb) as (_ & _ & _ & _ & _ & _ & _ & _ & Hl & _).
Qed.

(** *** The entry points *)

(** What every entry point guarantees. *)
Definition entry_ok s (out : list (Msg V ID)) s' : Prop :=
  slot_inv s' ∧ evolves s s' ∧
  (s_phase s ≠ PhaseExternalize → s_phase s' = PhaseExternalize → ext_certificate s') ∧
  ((out = [] ∧ s_last_sent_msg s' = s_last_sent_msg s) ∨
   ∃ m s1, out = [m] ∧ s_last_sent_msg s1 = s_last_sent_msg s ∧ out_msg s1 = Done (Some m, s')).

Lemma out_msg_emits s s1 o s2 :
  s_last_sent_msg s1 = s_last_sent_msg s → out_msg s1 = Done (o, s2) →
  (option_list o = [] ∧ s_last_sent_msg s2 = s_last_sent_msg s) ∨
  ∃ m s1, option_list o = [m] ∧ s_last_sent_msg s1 = s_last_sent_msg s ∧
     out_msg s1 = Done (Some m, s2).
Proof.
  intros Hl Hr. destruct o as [m|]; [right; by exists m, s1|left].
  destruct (out_msg_spec _ _ _ Hr) as [[_ ->]|(m & ? & _)]; done.
Qed.

Lemma out_msg_ok s o s' :
  out_msg s = Done (o, s') → slot_inv s →
  slot_inv s' ∧ evolves s s' ∧ s_phase s' = s_phase s ∧ (ext_certificate s → ext_certificate s').
Proof.
  intros Hr Hs. destruct (out_msg_spec s o s' Hr) as [[_ ->]|(m & _ & -> & _)];
    [split_and!; [done|reflexivity|done|done]|].
  destruct Hs as [Hn Hb]. split_and!; [split| |done|done].
  - destruct Hn. constructor; simpl; auto.
  - by apply (ballot_inv_same s).
  - by apply same_ballots_evolves.
Qed.

(** The ballot protocol followed by the outgoing message, as every entry point
    ends. *)
Lemma protocol_out_ok fuel now s0 s s1 o s2 :
  slot_inv s → evolves s0 s → (s_phase s = PhaseExternalize → s_phase s0 = PhaseExternalize) →
  s_last_sent_msg s = s_last_sent_msg s0 →
  do_ballot_protocol fuel now s = Done s1 → out_msg s1 = Done (o, s2) → entry_ok s0 (option_list o) s2.
Proof using All.
  intros [Hn Hb] He Hph Hlast H1 H2.
  destruct (do_ballot_protocol_inv Adm combine_adm fuel now s s1 Hn Hb H1) as (Hb1 & He1 & Hi1 & Hc1).
  assert (Hs1 : slot_inv s1) by (split; [by eapply nom_inv_base|done]).
  destruct (out_msg_ok s1 o s2 H2 Hs1) as (Hs2 & He2 & Hp2 & Hc2).
  destruct (same_base_fields _ _ Hb1) as (_ & _ & _ & _ & _ & _ & _ & _ & Hl1 & _).
  split_and!; [done|by do 2 (etransitivity; [done|])| |].
  - intros Hne Hx. apply Hc2, Hc1; [by auto|congruence].
  - apply (out_msg_emits _ s1); [congruence|done].
Qed.

Lemma handle_messages_ok fuel now msgs s o s' :
  slot_inv s → Forall msg_u32 msgs → handle_messages fuel now msgs s = Done (o, s') →
  entry_ok s (option_list o) s'.
Proof using All.
  intros Hs Hu Hr. unfold handle_messages in Hr.
  destruct (foldl receive_msg _ _) as [has s1] eqn:Ef.
  destruct (receive_msgs_inv _ _ _ _ _ Ef Hs) as (Hs1 & He1 & Hp1 & Hl1); [by apply msgs_for_slot_for|].
  destruct has.
  2:{ exec_inv. split_and!; [done|done| |by left]. intros ? Hx. congruence. }
  exec_inv. case_bool_decide as Hph.
  - destruct Hs1 as [Hn1 Hb1].
    assert (prep_inv Adm s1) as Hprep.
    { destruct Hb1 as [?|[Hc|Hx]]; [done|rewrite (ci_phase _ _ Hc) in Hph|rewrite (ei_phase _ _ Hx) in Hph]; done. }
    destruct (do_nominate_phase_inv Adm combine_adm now s1 r Hn1 Hprep E0) as (_ & Hn2 & Hp2 & Hst).
    eapply protocol_out_ok; [| | | |exact E1|exact Hr]; [by split; [|left]| | |].
    + etransitivity; [done|]. by apply nom_step_evolves.
    + intros Hx. destruct (prep_not_commit _ _ Hp2). done.
    + rewrite (nom_step_last _ _ Hst). done.
  - exec_inv. eapply protocol_out_ok; [done|done| |done|exact E1|exact Hr]. by rewrite Hp1.
Qed.

Lemma set_W_inv s vs :
  slot_inv s → (∀ v, v ∈ vs → Adm v) → slot_inv (set_W (s_W s ∪ vs) s) ∧ evolves s (set_W (s_W s ∪ vs) s).
Proof.
  intros [Hn Hb] Hvs. split; [split|].
  - destruct Hn as [? ? ? ? Ha]. constructor; simpl; auto.
    intros v Hv. destruct (decide (v ∈ vs)); [by apply Hvs|]. apply Ha. set_solver.
  - by apply (ballot_inv_same s).
  - apply same_ballots_evolves; simpl; try done. set_solver.
Qed.

Lemma propose_values_ok fuel now values s o s' :
  slot_inv s → propose_values fuel now values s = Done (o, s') → entry_ok s (option_list o) s'.
Proof using All.
  intros Hs Hr. unfold propose_values in Hr. destruct (negb _) eqn:Eg.
  { destruct (out_msg_ok s o s' Hr Hs) as (? & ? & Hp & _).
    split_and!; [done|done|congruence|by apply (out_msg_emits _ s)]. }
  apply negb_false_iff, andb_true_iff in Eg as [Hph _]. apply bool_decide_eq_true in Hph.
  destruct (filter_valid _ s) as [valid s1] eqn:Ev.
  destruct (filter_valid_spec _ _ _ _ Ev Hs) as [Hc Hvalid].
  destruct (cache_step_inv s s1 Hc Hs) as [Hs1 He1]. pose proof Hc as (vs & -> & _ & _).
  destruct valid as [|v valid].
  { exec_inv. split_and!; [done|done| |by left]. simpl. congruence. }
  destruct (set_W_inv (set_valid_values vs s) (list_to_set (v :: valid)) Hs1) as [Hs2 He2].
  { intros v' Hv'%elem_of_list_to_set. auto. }
  set (s2 := set_W _ _) in *. exec_inv. destruct Hs2 as [Hn2 Hb2].
  assert (prep_inv Adm s2) as Hprep.
  { destruct Hb2 as [?|[Hcm|Hx]]; [done| |]; exfalso;
      [pose proof (ci_phase _ _ Hcm) as Hq|pose proof (ei_phase _ _ Hx) as Hq];
      change (s_phase s2) with (s_phase s) in Hq; congruence. }
  destruct (do_nominate_phase_inv Adm combine_adm now s2 r Hn2 Hprep E0) as (_ & Hn3 & Hp3 & Hst).
  eapply protocol_out_ok; [| | | |exact E1|exact Hr]; [by split; [|left]| | |].
  - etransitivity; [exact He1|]. etransitivity; [exact He2|]. by apply nom_step_evolves.
  - intros Hx. destruct (prep_not_commit _ _ Hp3). done.
  - rewrite (nom_step_last _ _ Hst). done.
Qed.

(** The nomination part of [process_timeouts]. *)
Lemma nomination_timeout_ok now peer s s' :
  slot_inv s →
  do_nominate_phase now (set_max_priority_peers ({[ peer ]} ∪ s_max_priority_peers s)
    (set_nominate_round (u32_add (s_nominate_round s) 1) (cancel_next_nomination_round s))) = Done s' →
  slot_inv s' ∧ evolves s s' ∧ s_phase s' = s_phase s ∧
  s_last_sent_msg s' = s_last_sent_msg s.
Proof using All.
  intros [Hn Hb] Hr. set (s1 := set_max_priority_peers _ _) in *.
  assert (Hph : s_phase s = PhaseNominatePrepare).
  { unfold do_nominate_phase in Hr. exec_inv. by apply bool_decide_eq_true in Eb. }
  assert (Hn1 : nom_inv s1) by (destruct Hn; constructor; simpl; auto).
  assert (Hp1 : prep_inv Adm s1).
  { destruct Hb as [Hp|[Hc|Hx]];
      [|rewrite (ci_phase _ _ Hc) in Hph; done|rewrite (ei_phase _ _ Hx) in Hph; done].
    destruct Hp. constructor; simpl; auto. }
  assert (He1 : evolves s s1).
  { constructor; simpl; try done; try lia; try congruence. set_solver. }
  destruct (do_nominate_phase_inv Adm combine_adm now s1 s' Hn1 Hp1 Hr) as (Hph1 & Hn2 & Hp2 & Hst).
  split_and!; [by split; [|left]| |by destruct Hst as (_ & -> & _)|by rewrite (nom_step_last _ _ Hst)].
  etransitivity; [exact He1|]. by apply nom_step_evolves.
Qed.

(** The counter update of a ballot timeout. *)
Definition next_ballot (s : Slot V ID) : exec (Slot V ID) :=
  let next_counter := u32_add (bal_N (s_B s)) 1 in
  match s_phase s with
  | PhaseNominatePrepare | PhasePrepare =>
      let! x_opt := get_next_ballot_values s in
      Done (match x_opt with
            | Some x => set_B (Ballot_new next_counter x) s
            | None => s
            end)
  | PhaseCommit => Done (set_B (Ballot_new next_counter (bal_X (s_B s))) s)
  | PhaseExternalize => Done s
  end.

Lemma next_ballot_ok s s' :
  slot_inv s → next_ballot s = Done s' →
  slot_inv s' ∧ evolves s s' ∧ s_phase s' = s_phase s ∧
  s_last_sent_msg s' = s_last_sent_msg s.
Proof using All.
  intros [Hn Hb] Hr. assert (adm_Z Adm s) as HZ.
  { intros v Hv. apply Hn. pose proof (ni_Z_Y _ _ Hn). set_solver. }
  destruct Hb as [Hp|[Hc|Hx]].
  - assert (∃ b, adm_ballot Adm b ∧ (s' = s ∨ s' = set_B b s)) as (b & Hadm & Hs').
    { unfold next_ballot in Hr.
      destruct (pi_phase _ _ Hp) as [Hph|Hph]; rewrite Hph in Hr; exec_inv;
        (destruct r as [x|]; [|exists (s_B s); split; [apply Hp|by left]]);
        (eexists (Ballot_new _ x); split; [|by right]);
        by eapply (get_next_ballot_values_adm Adm combine_adm s). }
    destruct Hs' as [-> | ->]; [split_and!; [by split; [|left]|reflexivity|done|done]|].
    destruct (set_B_step Adm s b Hp Hadm) as (Hbase & Hrank & Hp').
    split_and!; [split; [by eapply nom_inv_base|by left]| |done|done].
    pose proof (prep_rank _ _ Hp). destruct (prep_not_commit _ _ Hp).
    apply base_evolves; [done|done|lia|done].
  - unfold next_ballot in Hr. rewrite (ci_phase _ _ Hc) in Hr. injection Hr as <-.
    split_and!; [split; [by apply (nom_inv_base Adm s)|right; left; by apply commit_set_N]| |done|done].
    apply base_evolves; [done|simpl; lia|done|]. by rewrite (ci_phase _ _ Hc).
  - unfold next_ballot in Hr. rewrite (ei_phase _ _ Hx) in Hr. injection Hr as <-.
    split_and!; [by split; [|right; right]|reflexivity|done|done].
Qed.

Lemma cancel_ballot_timer_ok s :
  slot_inv s → slot_inv (cancel_next_ballot_timer s) ∧ evolves s (cancel_next_ballot_timer s).
Proof.
  intros [Hn Hb]. split; [split|].
  - destruct Hn. constructor; simpl; auto.
  - by apply (ballot_inv_same s).
  - by apply same_ballots_evolves.
Qed.

Lemma process_timeouts_ok fuel now s out s' :
  slot_inv s → process_timeouts fuel now s = Done (out, s') → entry_ok s out s'.
Proof using All.
  intros Hs Hr. unfold process_timeouts in Hr. exec_inv.
  assert (slot_inv r ∧ evolves s r ∧ s_phase r = s_phase s ∧ s_last_sent_msg r = s_last_sent_msg s)
    as (Hs1 & He1 & Hp1 & Hl1).
  { destruct (match s_next_nominate_round_at s with Some t => t <? now | None => false end).
    - exec_inv. by eapply nomination_timeout_ok.
    - exec_inv. split_and!; [done|reflexivity|done|done]. }
  destruct (match s_next_ballot_at r with Some t => t <? now | None => false end).
  - rewrite orb_true_r in Hr. exec_inv. destruct r1 as [o s3]. injection Hr as <- <-.
    destruct (cancel_ballot_timer_ok r Hs1) as [Hs2 He2].
    change (next_ballot (cancel_next_ballot_timer r) = Done r2) in E3.
    destruct (next_ballot_ok _ _ Hs2 E3) as (Hs3 & He3 & Hp3 & Hl3).
    destruct o as [m|]; [change [m] with (option_list (Some m))|change [] with (option_list (@None (Msg V ID)))].
    all: eapply protocol_out_ok; [exact Hs3| | |by rewrite Hl3|exact E1|exact E2].
    all: try (by do 2 (etransitivity; [done|])).
    all: intros Hx; rewrite Hp3 in Hx; simpl in Hx; congruence.
  - exec_inv. rewrite orb_false_r in Hr.
    destruct (match s_next_nominate_round_at s with Some t => t <? now | None => false end).
    + exec_inv. destruct r as [o s3]. injection Hr as <- <-.
      destruct (out_msg_ok _ _ _ E1 Hs1) as (? & ? & Hp & _).
      split_and!; [done|by etransitivity|congruence|].
      destruct o as [m|]; by apply (out_msg_emits _ _ _ _ Hl1) in E1.
    + exec_inv. split_and!; [done|done|congruence|by left].
Qed.

Lemma slot_step_ok s out s' : slot_inv s → slot_step s out s' → entry_ok s out s'.
Proof using All.
  intros Hs [fuel now values o s1 Hr|fuel now msgs o s1 Hu Hr|fuel now out' s1 Hr].
  - by eapply propose_values_ok.
  - by eapply handle_messages_ok.
  - by eapply process_timeouts_ok.
Qed.

Lemma Slot_new_inv node_id q slot_index s : Slot_new node_id q slot_index = Done s → slot_inv s.
Proof.
  unfold Slot_new. intros Hr. exec_inv. split.
  - constructor; simpl; set_solver.
  - left. constructor; simpl; try done; [by left|by apply Forall_nil].
Qed.

Lemma slot_run_ok s out s' : slot_inv s → slot_run s out s' → slot_inv s' ∧ evolves s s'.
Proof using All.
  intros Hs. induction 1 as [|out1 s1 out2 s2 _ [Hs1 He1] Hstep]; [by split|].
  destruct (slot_step_ok s1 out2 s2 Hs1 Hstep) as (? & ? & _ & _). split; [done|by etransitivity].
Qed.

Lemma reachable_inv s : reachable s → slot_inv s.
Proof using All.
  intros (node_id & q & idx & s0 & out & Hnew & Hrun). eapply slot_run_ok; [|exact Hrun].
  by eapply Slot_new_inv.
Qed.
End runs.
