(* ===== verification/SlotTermination.v ===== *)
(** * Termination of the ballot protocol

    [do_prepare_phase] and [do_commit_phase] call themselves after raising the
    ballot counter to the unblocking counter.  No blocking set is above that
    counter, so the second call does not recurse: two levels are enough, for the
    commit phase always and for the prepare phase as long as no peer is at the
    maximal counter, where [B.N + 1] wraps around. *)

From S2P Require Import Prelude Ord QuorumSet ScpMsg Predicates QuorumSearch SlotState SlotVoting VotingProps Slot SlotInv.

Local Open Scope N_scope.

Section termination.
Context {V ID E : Type} `{Countable V} `{!Ord V, !TotalOrd V} `{Countable ID} `{!Ord ID}.
Context `{HI : HashIter} `{App : !Application V ID E}.
Implicit Types s : Slot V ID.

(** The quorum set of the slot is one the node would accept. *)
Definition qs_ok s : Prop := is_valid (s_quorum_set s) = true ∧ qs_small (s_quorum_set s) = true.

Lemma blocked_above_base s s' c : same_base s s' → blocked_above s' c ↔ blocked_above s c.
Proof.
  intros Hb. destruct (same_base_fields _ _ Hb) as (_ & _ & Hq & HM & _).
  unfold blocked_above, federated_block. by rewrite Hq, HM.
Qed.

Lemma blocked_above_mono s c c' : c <= c' → blocked_above s c' → blocked_above s c.
Proof. intros Hle. apply federated_block_impl. intros n msg _ Hlt. lia. Qed.

(** Above the unblocking counter nothing is left to do. *)
Lemma unblocked_counter s s0 :
  same_base s0 s → qs_ok s0 → ¬ blocked_above s0 (bal_N (s_B s)) →
  get_unblocking_ballot_counter s = Done (bal_N (s_B s)).
Proof.
  intros Hb [Hv Hsm] Hnb. destruct (same_base_fields _ _ Hb) as (_ & _ & Hq & _).
  destruct (unblocking_counter_spec s) as (c & Hc & Hge & _ & Hleast); [by rewrite Hq..|].
  rewrite Hc. f_equal. destruct (N.lt_eq_cases (bal_N (s_B s)) c) as [[Hlt|Heq] _]; [done| |done].
  exfalso. apply Hnb, (blocked_above_base s0 s); [done|]. apply Hleast; [lia|done].
Qed.

(** ** The commit phase *)

Definition commit_step5 (acc : list (Ballot V)) s : exec (Slot V ID) :=
  match iter_max (filter (λ p : Ballot V, bool_decide (bal_X p = bal_X (s_B s))) acc) with
  | Some new_P => let! P := unwrap (s_P s) in
                  Done (if ord_ltb new_P P then s else set_P (Some new_P) s)
  | None => Done s
  end.

Lemma commit_step5_total acc s :
  is_Some (s_P s) → ∃ s1, commit_step5 acc s = Done s1 ∧ (s1 = s ∨ ∃ P, s1 = set_P P s).
Proof.
  intros [P HP]. unfold commit_step5. destruct (iter_max _) as [newP|]; [|by eauto].
  rewrite HP. simpl. destruct (ord_ltb _ _); eauto.
Qed.

(** One call of the commit phase up to step (9): it returns, or goes on with a
    slot whose ballot counter has not decreased. *)
Lemma commit_upto_9 fuel s :
  commit_inv (λ _, True) s → M_validated s →
  (∃ r, do_commit_phase (S fuel) s = r ∧ r ≠ NoFuel) ∨
  ∃ s3, same_base s s3 ∧ bal_N (s_B s) <= bal_N (s_B s3) ∧ commit_inv (λ _, True) s3 ∧
    do_commit_phase (S fuel) s =
    (let! unblocking_counter := get_unblocking_ballot_counter s3 in
     let! s := (if bal_N (s_B s3) <? unblocking_counter
                then do_commit_phase fuel (set_B (Ballot_new unblocking_counter (bal_X (s_B s3)))
                       (cancel_next_ballot_timer s3))
                else Done s3) in
     assert! (check_commit_phase_invariants s) in Done s).
Proof using Ord1 TotalOrd0.
  intros Hs HM. cbn [do_commit_phase].
  destruct (check_commit_phase_invariants s); [|left; by eexists].
  destruct (accepted_prepared_total s) as [acc ->]. cbn [exec_bind].
  destruct (ci_P _ _ Hs) as (P0 & HP0 & _).
  destruct (commit_step5_total acc s) as (s1 & E1 & Hs1); [by eexists|].
  unfold commit_step5 in E1. rewrite E1. cbn [exec_bind].
  assert (Hq1 : M_validated s1 ∧ CH_ordered s1).
  { destruct Hs1 as [-> | [P ->]]; (split; [exact HM|apply (ci_CH _ _ Hs)]). }
  destruct (accepted_committed_total s1) as (R & HR & _); [apply Hq1..|].
  destruct (commit_steps56 (λ _, True) s acc s1 R Hs HM E1 HR) as (Hb2 & HB2 & Hs2).
  rewrite HR. cbn [exec_bind]. set (s2 := match R !! bal_X (s_B s1) with Some _ => _ | None => _ end) in *.
  clearbody s2.
  destruct (confirmed_committed_total s2) as [o ->]; [by eapply M_validated_base|apply Hs2| |].
  { intros _. destruct (ci_C _ _ Hs2) as (? & -> & _), (ci_H _ _ Hs2) as (? & -> & _). split; by eexists. }
  cbn [exec_bind]. destruct o as [[cn hn]|]; [left; by eexists|]. right.
  destruct (commit_step8 (λ _, True) s2 Hs2) as (Hb3 & HX3 & HN3 & Hs3).
  set (s3 := match s_H s2 with Some h => _ | None => _ end) in *.
  exists s3. split_and!; [by etransitivity|by rewrite <-HB2| |done].
  destruct Hs3 as [|[Hx _]]; [done|]. exfalso.
  assert (Hp : s_phase s3 = PhaseCommit).
  { unfold s3. destruct (s_H s2) as [h|]; [destruct (_ <? _)|]; apply Hs2. }
  rewrite (ei_phase _ _ Hx) in Hp. done.
Qed.

Lemma do_commit_phase_unblocked fuel s :
  commit_inv (λ _, True) s → M_validated s → qs_ok s → ¬ blocked_above s (bal_N (s_B s)) →
  do_commit_phase (S fuel) s ≠ NoFuel.
Proof using Ord1 TotalOrd0.
  intros Hs HM Hq Hnb. destruct (commit_upto_9 fuel s Hs HM) as [(r & -> & Hr)|(s3 & Hb & HN & _ & ->)]; [done|].
  rewrite (unblocked_counter s3 s); [|done|done|].
  - cbn [exec_bind]. rewrite N.ltb_irrefl. cbn [exec_bind]. by destruct (check_commit_phase_invariants s3).
  - intros Hb3. by apply Hnb, (blocked_above_mono s _ (bal_N (s_B s3))).
Qed.

Lemma do_commit_phase_fuel fuel s :
  commit_inv (λ _, True) s → M_validated s → qs_ok s → do_commit_phase (S (S fuel)) s ≠ NoFuel.
Proof using Ord1 TotalOrd0.
  intros Hs HM Hq. destruct (commit_upto_9 (S fuel) s Hs HM) as [(r & -> & Hr)|(s3 & Hb & HN & Hs3 & ->)]; [done|].
  destruct (same_base_fields _ _ Hb) as (_ & _ & Hqs & _).
  destruct (unblocking_counter_spec s3) as (c & -> & Hge & Hnb & _); [rewrite Hqs; apply Hq..|].
  cbn [exec_bind]. destruct (bal_N (s_B s3) <? c); [|simpl; by destruct (check_commit_phase_invariants s3)].
  set (s4 := set_B _ _).
  assert (Hin : do_commit_phase (S fuel) s4 ≠ NoFuel).
  { apply do_commit_phase_unblocked.
    - apply (commit_set_N _ (cancel_next_ballot_timer s3)). by apply commit_set_timer.
    - by apply (M_validated_base s).
    - unfold qs_ok. simpl. by rewrite Hqs.
    - exact Hnb. }
  destruct (do_commit_phase (S fuel) s4) as [s5| |]; [|done|done]. simpl.
  by destruct (check_commit_phase_invariants s5).
Qed.

(** ** The prepare phase *)

Definition same_B s s' : Prop := same_base s s' ∧ s_B s' = s_B s.

Lemma prepare_step1_same acc s s' : prepare_step1 acc s = Some s' → same_B s s'.
Proof.
  unfold prepare_step1. destruct (iter_max acc) as [newP|]; [|by intros [= <-]].
  destruct (s_P s) as [P|]; [destruct (ord_geb newP P); [|done]|]; by intros [= <-].
Qed.

Lemma clear_aborted_C_same s : same_B s (clear_aborted_C s).
Proof. unfold clear_aborted_C. destruct (s_C s); [destruct (_ || _)|]; done. Qed.

Lemma prepare_step2_same o s : same_B s (prepare_step2 o s).
Proof.
  unfold prepare_step2. destruct o as [h|]; [|done].
  case_bool_decide; simpl; destruct (s_H s); done.
Qed.

Lemma prepare_step3_cases s :
  prepare_step3 s = Panic ∨ ∃ s', prepare_step3 s = Done s' ∧ same_B s s'.
Proof.
  assert (same_B s s) by done. unfold prepare_step3.
  destruct (s_C s), (s_H s) as [h|]; try (right; by eexists).
  destruct (ord_leb _ _); [|right; by eexists].
  destruct (_ && _); [|right; by eexists].
  destruct (ord_leb _ _); [|by left]. destruct (bool_decide _); [|by left].
  destruct (_ <=? _); [|by left]. right. by eexists.
Qed.

Lemma prepare_step4_fuel acc c s : prepare_step4 acc c s ≠ NoFuel.
Proof.
  unfold prepare_step4. destruct (iter_max _) as [h|]; [|done]. cbn [unwrap exec_bind].
  destruct (_ <=? _); [|done].
  match goal with |- context [ballots_accepted_prepared ?s'] =>
    destruct (accepted_prepared_total s') as [acc' ->] end.
  cbn [exec_bind]. by case_match.
Qed.

Lemma bump_B_same s h :
  same_base s (bump_B h s) ∧ (bal_N (s_B s) < u32_max → bal_N (s_B s) <= bal_N (s_B (bump_B h s))).
Proof.
  unfold bump_B. destruct (negb _); (split; [done|]); simpl; intros Hlt; [|lia].
  rewrite u32_add_small by (unfold u32_max, u32_modulus in *; lia). lia.
Qed.

Lemma maybe_set_ballot_timer_total now s : ∃ s', maybe_set_ballot_timer now s = Done s'.
Proof.
  unfold maybe_set_ballot_timer. case_bool_decide; [by eexists|].
  destruct (s_next_ballot_at s); [by eexists|]. unfold find_quorum.
  destruct (findQuorum_total (s_M s) _ (func_tests_total (λ msg, bal_N (s_B s) <=? bN msg) (s_M s))
    (s_quorum_set s) (s_node_id s) (mkFunc (λ msg, bal_N (s_B s) <=? bN msg))) as (U & p & -> & _); [done|].
  simpl. case_bool_decide; by eexists.
Qed.

Lemma get_next_ballot_values_total s : ∃ o, get_next_ballot_values s = Done o.
Proof.
  unfold get_next_ballot_values. destruct (confirmed_prepared_total s) as [conf ->]. cbn [exec_bind].
  destruct (iter_max conf); [by eexists|]. destruct (accepted_prepared_total s) as [acc ->]. cbn [exec_bind].
  case_bool_decide; [|by eexists]. destruct (combine_fn _); by eexists.
Qed.

Definition prepare_tail fuel now s5 : exec (Slot V ID) :=
  let! unblocking_counter := get_unblocking_ballot_counter s5 in
  let! s :=
    (if bal_N (s_B s5) <? unblocking_counter
     then let! x_opt := get_next_ballot_values s5 in
          match x_opt with
          | Some x =>
              let! s := maybe_set_ballot_timer now
                (set_B (Ballot_new unblocking_counter x) (cancel_next_ballot_timer s5)) in
              do_prepare_phase fuel now s
          | None => Done s5
          end
     else Done s5) in
  assert! (check_prepare_phase_invariants s) in Done s.

(** One call up to step (9). *)
Lemma prepare_upto_9 fuel now s :
  M_validated s →
  (∃ r, do_prepare_phase (S fuel) now s = r ∧ r ≠ NoFuel) ∨
  ∃ s5, same_base s s5 ∧ (bal_N (s_B s) < u32_max → bal_N (s_B s) <= bal_N (s_B s5)) ∧
    do_prepare_phase (S fuel) now s = prepare_tail fuel now s5.
Proof using TotalOrd0.
  intros HM. cbn [do_prepare_phase].
  destruct (check_prepare_phase_invariants s); [|left; by eexists].
  destruct (accepted_prepared_total s) as [acc ->]. cbn [exec_bind].
  destruct (prepare_step1 acc s) as [s1|] eqn:E1; [|left; by eexists].
  apply prepare_step1_same in E1 as [Hb1 HB1].
  match goal with |- context [assert! ?b in _] => destruct b; [|left; by eexists] end.
  destruct (clear_aborted_C_same s1) as [Hb2 HB2]. set (s2 := clear_aborted_C s1) in *. clearbody s2.
  destruct (confirmed_prepared_total s2) as [conf ->]. cbn [exec_bind].
  destruct (prepare_step2_same (iter_max conf) s2) as [Hb3 HB3].
  set (s3 := prepare_step2 (iter_max conf) s2) in *. clearbody s3.
  destruct (C_le_H s3); [|left; by eexists].
  destruct (prepare_step3_cases s3) as [-> | (s4 & -> & Hb4 & HB4)]; [left; by eexists|]. cbn [exec_bind].
  destruct (C_le_H s4) eqn:ECH; [|left; by eexists].
  assert (Hb : same_base s s4) by (by do 3 (etransitivity; [|done])).
  destruct (accepted_committed_total s4) as (R & -> & _); [by eapply M_validated_base| |].
  { intros C h HC Hh. unfold C_le_H in ECH. rewrite HC, Hh in ECH. by apply N.leb_le. }
  cbn [exec_bind]. destruct (iter_min _) as [c|].
  { left. eexists. split; [done|]. apply prepare_step4_fuel. }
  right. exists (match s_H s4 with Some h => bump_B h s4 | None => s4 end).
  split_and!; [| |done].
  - destruct (s_H s4) as [h|]; [|done]. etransitivity; [done|]. apply bump_B_same.
  - assert (HBs : s_B s4 = s_B s) by congruence. destruct (s_H s4) as [h|]; [|rewrite HBs; lia].
    rewrite <-HBs. apply bump_B_same.
Qed.

Lemma do_prepare_phase_unblocked fuel now s :
  M_validated s → qs_ok s → bal_N (s_B s) < u32_max → ¬ blocked_above s (bal_N (s_B s)) →
  do_prepare_phase (S fuel) now s ≠ NoFuel.
Proof using TotalOrd0.
  intros HM Hq Hlt Hnb.
  destruct (prepare_upto_9 fuel now s HM) as [(r & -> & Hr)|(s5 & Hb & HN & ->)]; [done|].
  unfold prepare_tail. rewrite (unblocked_counter s5 s); [|done|done|].
  - cbn [exec_bind]. rewrite N.ltb_irrefl. cbn [exec_bind]. by destruct (check_prepare_phase_invariants s5).
  - intros Hb5. apply Hnb. apply (blocked_above_mono s _ (bal_N (s_B s5))); [by apply HN|done].
Qed.

(** No peer has reached the maximal ballot counter. *)
Definition counters_below_max s : Prop :=
  ∀ n msg, s_M s !! n = Some msg → bN msg < u32_max.

Lemma do_prepare_phase_fuel fuel now s :
  M_validated s → qs_ok s → counters_below_max s → do_prepare_phase (S (S fuel)) now s ≠ NoFuel.
Proof using TotalOrd0.
  intros HM Hq Hmax.
  destruct (prepare_upto_9 (S fuel) now s HM) as [(r & -> & Hr)|(s5 & Hb & HN & ->)]; [done|].
  destruct (same_base_fields _ _ Hb) as (_ & _ & Hqs & HM5 & _). unfold prepare_tail.
  destruct (unblocking_counter_spec s5) as (c & -> & Hge & Hnb & Hleast); [rewrite Hqs; apply Hq..|].
  cbn [exec_bind]. destruct (N.ltb_spec (bal_N (s_B s5)) c) as [Hlt|];
    [|simpl; by destruct (check_prepare_phase_invariants s5)].
  destruct (get_next_ballot_values_total s5) as [[x|] ->]; cbn [exec_bind];
    [|by destruct (check_prepare_phase_invariants s5)].
  set (s6 := set_B _ _). destruct (maybe_set_ballot_timer_total now s6) as [s7 Hs7].
  rewrite Hs7. cbn [exec_bind].
  assert (same_base s s7 ∧ s_B s7 = s_B s6) as [Hb7 HB7].
  { destruct (maybe_set_ballot_timer_spec _ _ _ Hs7) as [-> | [t ->]]; (split; [exact Hb|done]). }
  assert (Hc : c < u32_max).
  { destruct (Hleast (c - 1)) as (U & HU & _ & Hn); [lia|lia|]. apply set_choose_L in HU as [n HnU].
    destruct (Hn n HnU) as (msg & Hm & Hbn). rewrite HM5 in Hm. specialize (Hmax n msg Hm). lia. }
  destruct (same_base_fields _ _ Hb7) as (_ & _ & Hqs7 & _).
  assert (Hin : do_prepare_phase (S fuel) now s7 ≠ NoFuel).
  { apply do_prepare_phase_unblocked.
    - by apply (M_validated_base s).
    - unfold qs_ok. by rewrite Hqs7.
    - by rewrite HB7.
    - rewrite HB7. intros Hb8. apply Hnb. apply (blocked_above_base s s5); [done|].
      by apply (blocked_above_base s s7). }
  destruct (do_prepare_phase (S fuel) now s7) as [s8| |]; [|done|done]. simpl.
  by destruct (check_prepare_phase_invariants s8).
Qed.
End termination.
