(* ===== verification/SlotProps.v ===== *)
(** * Properties of the slot state machine

    The theorems about runs of a slot: its invariants, the monotonicity of its
    phases and the finality of what it externalizes, the quorum behind an
    externalized value, the validity of every value it votes for, the messages it
    emits, the termination of the ballot protocol, and a reachable panic. *)

From S2P Require Import Prelude Ord QuorumSet ScpMsg Predicates QuorumSearch SlotState SlotVoting VotingProps Slot SlotInv SlotRuns SlotTermination.

Local Open Scope N_scope.

(** ** Reachable slots and their outgoing messages *)

Section outgoing.
Context {V ID E : Type} `{Countable V} `{!Ord V, !TotalOrd V} `{Countable ID} `{!Ord ID}.
Context `{HI : HashIter} `{App : !Application V ID E}.
Implicit Types s : Slot V ID.

(** The topic a slot speaks with, phase by phase. *)
Definition topic_of_phase s (t : Topic V) : Prop :=
  match s_phase s with
  | PhaseNominatePrepare =>
      (t = Nominate (mkNominate (s_X s) (s_Y s)) ∧ is_zero (s_B s) = true) ∨
      (∃ p, t = NominatePrepare (mkNominate (s_X s) (s_Y s)) p ∧
         prep_B p = s_B s ∧ prep_CN p = 0 ∧ prep_HN p = 0)
  | PhasePrepare => ∃ p, t = Prepare p ∧ prep_B p = s_B s
  | PhaseCommit => ∃ p, t = Commit p ∧ com_B p = s_B s
  | PhaseExternalize => ∃ C h, s_C s = Some C ∧ s_H s = Some h ∧
      t = Externalize (mkExternalize C (bal_N h)) ∧ bal_X C = bal_X (s_B s)
  end.

Lemma out_topic_phase s t :
  ballot_inv (λ _, True) s → out_topic s = Done (Some t) → topic_of_phase s t.
Proof.
  intros Hb. unfold out_topic, topic_of_phase. destruct (s_phase s) eqn:Hph; intros Hr; exec_inv.
  - destruct (is_zero (s_B s)) eqn:Ez.
    + left. destruct (_ || _); by simplify_eq.
    + right. injection Hr as <-. eexists. split_and!; [done|done| |];
        destruct Hb as [Hp|[Hc|Hx]];
        try (by rewrite ?(ci_phase _ _ Hc) in Hph); try (by rewrite ?(ei_phase _ _ Hx) in Hph);
        destruct (pi_fresh _ _ Hp Hph) as [HH HC]; simpl; unfold out_CN, out_HN; by rewrite ?HH, ?HC.
  - by eexists.
  - by eexists.
  - destruct Hb as [Hp|[Hc|Hx]];
      [by destruct (prep_not_commit _ _ Hp)|by rewrite (ci_phase _ _ Hc) in Hph|].
    destruct (ei_C _ _ Hx) as (C & HC & HX), (ei_H _ _ Hx) as (h & HH & _).
    simplify_eq. by eexists _, _.
Qed.

(** With every value admissible the invariant needs no assumption. *)
Lemma reachable_slot_inv s : reachable s → slot_inv (E:=E) (λ _, True) s.
Proof. apply reachable_inv; [done|]. intros l r _ _. by apply Forall_true. Qed.

Lemma run_evolves s out s' : reachable s → slot_run s out s' → evolves s s'.
Proof.
  intros Hs%reachable_slot_inv Hrun.
  apply (slot_run_ok (E:=E) (λ _, True)) in Hrun as [_ ?]; try done.
  intros l r _ _. by apply Forall_true.
Qed.

Lemma step_ok s out s' : reachable s → slot_step s out s' →
  entry_ok (E:=E) (λ _, True) s out s'.
Proof.
  intros Hs%reachable_slot_inv Hstep. eapply slot_step_ok; try done.
  intros l r _ _. by apply Forall_true.
Qed.

Lemma step_emits s out s' :
  reachable s → slot_step s out s' →
  (out = [] ∧ s_last_sent_msg s' = s_last_sent_msg s) ∨
  ∃ m, out = [m] ∧ validate m = Ok tt ∧ sender_id m = s_node_id s' ∧
    msg_quorum_set m = s_quorum_set s' ∧ msg_slot_index m = s_slot_index s' ∧
    s_last_sent_msg s' = Some m ∧
    (∀ last, s_last_sent_msg s = Some last → msg_eqb m last = false) ∧
    topic_of_phase s' (topic m).
Proof.
  intros Hs Hstep.
  destruct (step_ok s out s' Hs Hstep) as ([_ Hb] & _ & _ & [?|(m & s1 & -> & Hlast & Hm)]); [by left|].
  right. exists m. destruct (out_msg_spec _ _ _ Hm) as [[? _]|(m' & Hmm & -> & Ht & ? & ? & ? & ? & Hl)]; [done|].
  injection Hmm as <-. simpl in *. split_and!; try done; [by rewrite Hlast in Hl|].
  eapply (out_topic_phase s1); [|done]. by apply (ballot_inv_same _ (set_last_sent_msg (Some m) s1)).
Qed.

Lemma reachable_step s out s' : reachable s → slot_step s out s' → reachable s'.
Proof.
  intros (i & q & idx & s0 & out0 & Hnew & Hrun) Hstep. exists i, q, idx, s0, (out0 ++ out).
  split; [done|]. by eapply run_step.
Qed.

Lemma reachable_new i q idx s : Slot_new i q idx = Done s → reachable s.
Proof. intros Hs. exists i, q, idx, s, []. split; [done|constructor]. Qed.
End outgoing.

Module SlotProps.
Section props.
Context {V ID E : Type} `{Countable V} `{!Ord V, !TotalOrd V} `{Countable ID} `{!Ord ID}.
Context `{HI : HashIter} `{App : !Application V ID E}.
Implicit Types s : Slot V ID.


(** C10: whatever messages, proposals and timeouts a slot goes through, it
    never returns to an earlier phase, never withdraws a value it accepted or
    confirmed nominated, and from the commit phase on never changes the values
    of its ballot. *)
Theorem slot_progress_monotone s out s' :
  reachable s → slot_run s out s' →
  phase_rank (s_phase s) <= phase_rank (s_phase s') ∧ s_Y s ⊆ s_Y s' ∧ s_Z s ⊆ s_Z s' ∧
  (s_phase s = PhaseCommit ∨ s_phase s = PhaseExternalize → bal_X (s_B s') = bal_X (s_B s)).
Proof.
  intros Hs Hrun. pose proof (run_evolves s out s' Hs Hrun) as He.
  split_and!; [apply He..|]. intros Hph. apply He. destruct Hph as [-> | ->]; simpl; lia.
Qed.

(** C5: externalizing is final: a slot in the externalize phase stays there,
    with the same ballot and the same lowest committed ballot [C], and its
    highest committed ballot [H] keeps its values and never goes down. *)
Theorem externalized_is_final s out s' :
  reachable s → s_phase s = PhaseExternalize → slot_run s out s' →
  s_phase s' = PhaseExternalize ∧ s_B s' = s_B s ∧ s_C s' = s_C s ∧
  ∃ h h', s_H s = Some h ∧ s_H s' = Some h' ∧ bal_X h' = bal_X h ∧ bal_N h <= bal_N h'.
Proof.
  intros Hs Hph Hrun. pose proof (run_evolves s out s' Hs Hrun) as He.
  destruct (ev_final _ _ He Hph) as (HB & HC & HH).
  split_and!; [|done|done|].
  - apply phase_rank_ext. pose proof (ev_rank _ _ He) as Hr. rewrite Hph in Hr. exact Hr.
  - destruct (reachable_slot_inv s Hs) as [_ [Hp|[Hc|Hx]]];
      [by destruct (prep_not_commit _ _ Hp)|by rewrite (ci_phase _ _ Hc) in Hph|].
    destruct (ei_H _ _ Hx) as (h & Hh & _). destruct (HH h Hh) as (h' & ? & ? & ?). by exists h, h'.
Qed.

(** C1: a call that externalizes a value leaves the evidence for it in the
    messages held: a quorum of the node, in which every other member accepted
    the commit of exactly the ballot's values, over a non-empty range of
    counters that starts at [C] and does not exceed [H]. *)
Theorem externalize_has_quorum s out s' :
  reachable s → slot_step s out s' →
  s_phase s ≠ PhaseExternalize → s_phase s' = PhaseExternalize →
  ∃ C h hi U, s_C s' = Some C ∧ s_H s' = Some h ∧ bal_N C <= hi ∧ hi <= bal_N h ∧
    bal_X C = bal_X (s_B s') ∧ bal_X h = bal_X (s_B s') ∧
    is_quorum (s_M s') (s_node_id s') (s_quorum_set s') U ∧
    ∀ n, n ∈ U → n ≠ s_node_id s' → ∃ msg, s_M s' !! n = Some msg ∧
      accepts_commit_range msg (bal_X (s_B s')) (bal_N C) hi.
Proof.
  intros Hs Hstep Hne Hph. destruct (step_ok s out s' Hs Hstep) as (_ & _ & Hcert & _).
  destruct (Hcert Hne Hph) as (C & h & hi & ? & ? & ? & ? & ? & ? & U & HU & Hn).
  by exists C, h, hi, U.
Qed.

(** C7: when the combine function only selects among the values it is
    given, every value a slot ever proposes, votes for, accepts, confirms or
    puts in its ballot, hence every value it externalizes, passed the node's
    own validity check. *)
Theorem slot_values_valid s :
  (∀ l r, combine_fn (ID:=ID) (E:=E) l = Ok r → ∀ v, v ∈ r → v ∈ l) →
  reachable s → ∀ v, v ∈ s_W s ∪ s_X s ∪ s_Y s ∪ s_Z s ∨ v ∈ bal_X (s_B s) →
  validity_fn (ID:=ID) (E:=E) v = Ok tt.
Proof.
  intros combine_selects Hs v.
  destruct (reachable_inv (λ v, validity_fn (ID:=ID) (E:=E) v = Ok tt)) with (s := s) as [Hn Hb]; [done| |done|].
  { intros l r Hl Hr. rewrite Forall_forall in *. intros v' Hv'. by eapply Hl, combine_selects. }
  pose proof (ni_Z_Y _ _ Hn) as HZ. intros [Hv|Hv]; [apply (ni_adm _ _ Hn); set_solver|].
  assert (HB : Forall (λ v, validity_fn (ID:=ID) (E:=E) v = Ok tt) (bal_X (s_B s)))
    by (destruct Hb as [Hp|[Hc|Hx]]; [apply Hp|apply Hc|apply Hx]).
  rewrite Forall_forall in HB. by apply HB.
Qed.

(** C26: a call emits at most one message; it passes the validation that
    peers apply, carries the node's identity, quorum set and slot, differs from
    the last message sent, and speaks with the topic of the phase the slot is
    in: while nominating it never claims a ballot confirmed prepared or voted
    committed, and once externalized it announces [C] and the counter of [H]. *)
Theorem emitted_messages_sound s out s' :
  reachable s → slot_step s out s' →
  out = [] ∨ ∃ m, out = [m] ∧ validate m = Ok tt ∧ sender_id m = s_node_id s' ∧
    msg_quorum_set m = s_quorum_set s' ∧ msg_slot_index m = s_slot_index s' ∧
    s_last_sent_msg s' = Some m ∧
    (∀ last, s_last_sent_msg s = Some last → msg_eqb m last = false) ∧
    topic_of_phase s' (topic m).
Proof.
  intros Hs Hstep. destruct (step_emits s out s' Hs Hstep) as [[? _]|?]; auto.
Qed.

Lemma do_externalize_phase_fuel s :
  ext_inv (λ _, True) s → M_validated s → do_externalize_phase s ≠ NoFuel.
Proof.
  intros Hx HM. unfold do_externalize_phase. destruct (check_externalize_phase_invariants s); [|done].
  destruct (confirmed_committed_total s) as [o ->]; [done|apply Hx|by rewrite (ei_phase _ _ Hx)|].
  destruct (ei_H _ _ Hx) as (h & -> & _). cbn [exec_bind unwrap].
  destruct o as [[lo hn]|]; cbn [exec_bind]; by case_match.
Qed.

(** C27: two levels of recursion are enough for the ballot protocol: on any
    reachable slot with a valid quorum set of a size that fits its integers, none
    of whose peers is at the maximal ballot counter, it comes to an end. *)
Theorem ballot_protocol_terminates fuel now s :
  reachable s → is_valid (s_quorum_set s) = true → qs_small (s_quorum_set s) = true →
  counters_below_max s → (2 <= fuel)%nat → do_ballot_protocol fuel now s ≠ NoFuel.
Proof.
  intros [Hn Hb]%reachable_slot_inv Hv Hsm Hmax Hfuel.
  destruct fuel as [|[|fuel]]; [lia|lia|]. unfold do_ballot_protocol.
  destruct (maybe_set_ballot_timer_total now s) as [s1 E1]. rewrite E1. cbn [exec_bind].
  assert (same_base s s1 ∧ ballot_inv (λ _, True) s1) as [Hb1 Hi1].
  { destruct (maybe_set_ballot_timer_spec _ _ _ E1) as [-> | [t ->]]; [done|]. split; [done|].
    by apply (ballot_inv_same _ s). }
  destruct (same_base_fields _ _ Hb1) as (_ & _ & Hq1 & HM1 & _).
  pose proof (nom_inv_base _ _ _ Hb1 Hn) as Hn1.
  set (prep := if bool_decide (s_phase s1 = PhaseNominatePrepare) || _ then _ else _).
  assert (Hprep : prep ≠ NoFuel).
  { unfold prep. destruct (_ || _); [|done]. apply do_prepare_phase_fuel; [by eapply nom_inv_validated|..].
    - by split; rewrite Hq1.
    - unfold counters_below_max. by rewrite HM1. }
  destruct prep as [s2| |] eqn:E2; [|done|done]. cbn [exec_bind].
  destruct (protocol_prepare (E:=E) _ (λ l r _ _, Forall_true _ r (λ _, I)) _ _ _ _ Hn1 Hi1 E2)
    as (Hb2 & _ & Hi2 & _).
  assert (Hb02 : same_base s s2) by (by etransitivity).
  destruct (same_base_fields _ _ Hb02) as (_ & _ & Hq2 & _).
  pose proof (nom_inv_base _ _ _ Hb02 Hn) as Hn2.
  set (com := if bool_decide (s_phase s2 = PhaseCommit) then _ else _).
  assert (Hcom : com ≠ NoFuel).
  { unfold com. case_bool_decide as Hph; [|done].
    apply do_commit_phase_fuel; [|by eapply nom_inv_validated|by split; rewrite Hq2].
    destruct Hi2 as [Hp|[Hc|Hx]]; [by destruct (prep_not_commit _ _ Hp)|done|].
    by rewrite (ei_phase _ _ Hx) in Hph. }
  destruct com as [s3| |] eqn:E3; [|done|done]. cbn [exec_bind].
  destruct (protocol_commit (E:=E) _ _ _ _ Hn2 Hi2 E3) as (Hb3 & _ & Hi3 & _).
  case_bool_decide as Hph; [|done].
  apply do_externalize_phase_fuel; [|eapply nom_inv_validated, (nom_inv_base _ s2); done].
  destruct Hi3 as [Hp|[Hc|Hx]]; [by destruct (prep_not_commit _ _ Hp)| |done].
  by rewrite (ci_phase _ _ Hc) in Hph.
Qed.
End props.

(** *** A concrete network

    Node 0 with quorum set 3 of [1; 2; 3; 4].  Values and node ids are numbers;
    values below 100 are valid and combining sorts them. *)

#[local] Existing Instance elements_iter.

#[local] Instance ex_app : Application N N unit := {|
  validity_fn := λ v, if v <? 100 then Ok tt else Err tt;
  combine_fn := λ vs, Ok (sort vs);
  public_key := λ i, [i];
  fast_hash := λ bytes, be_bytes 32 (be_value bytes)
|}.

Definition ex_qs : QuorumSet N := Ctor.new_with_node_ids 3 [1; 2; 3; 4].

(** The slot a run leads to; the runs below do not panic. *)
Definition slot_of {A} (e : exec (A * Slot N N)) : Slot N N :=
  match e with
  | Done (_, s) => s
  | _ => mkSlot 0 0 ex_qs ∅ ∅ ∅ ∅ ∅ (mkBallot 0 []) None None None None PhaseNominatePrepare None ∅ 1
           None None ∅ 1000 1000
  end.

Definition ex_new : exec (unit * Slot N N) := let! s := Slot_new 0 ex_qs 7 in Done (tt, s).
Definition ex_s0 : Slot N N := slot_of ex_new.

Definition ex_accept (i v : N) : Msg N N := Msg_new i ex_qs 7 (Nominate (mkNominate ∅ {[ v ]})).
Definition ex_prepared (i : N) : Msg N N :=
  Msg_new i ex_qs 7 (Prepare (mkPrepare (mkBallot 3 [20]) (Some (mkBallot 2 [20])) None 1 2)).
Definition ex_externalized (i : N) : Msg N N :=
  Msg_new i ex_qs 7 (Externalize (mkExternalize (mkBallot 1 [20]) 1)).

(** All peers accepted value 10 nominated: the node confirms it and starts
    balloting for it. *)
Definition ex_nominated : exec (option (Msg N N) * Slot N N) :=
  handle_messages 2 0 ((λ i, ex_accept i 10) <$> [1; 2; 3; 4]) ex_s0.
Definition ex_s1 : Slot N N := slot_of ex_nominated.

(** Three peers externalized value 20: so does the node. *)
Definition ex_finished : exec (option (Msg N N) * Slot N N) :=
  handle_messages 2 0 (ex_externalized <$> [1; 2; 3]) ex_s1.
Definition ex_s2 : Slot N N := slot_of ex_finished.

Lemma ex_s0_reachable : reachable ex_s0.
Proof. exists 0, ex_qs, 7, ex_s0, []. split; [by vm_compute|constructor]. Qed.

Lemma ex_step1 : slot_step ex_s0 (option_list (match ex_nominated with Done (o, _) => o | _ => None end)) ex_s1.
Proof.
  apply (step_handle ex_s0 2 0 ((λ i, ex_accept i 10) <$> [1; 2; 3; 4])); [|by vm_compute].
  repeat constructor.
Qed.

Lemma ex_step2 : slot_step ex_s1 (option_list (match ex_finished with Done (o, _) => o | _ => None end)) ex_s2.
Proof.
  apply (step_handle ex_s1 2 0 (ex_externalized <$> [1; 2; 3])); [|by vm_compute].
  repeat constructor; by vm_compute.
Qed.

Lemma ex_s1_reachable : reachable ex_s1.
Proof.
  exists 0, ex_qs, 7, ex_s0. eexists. split; [by vm_compute|].
  eapply run_step; [constructor|apply ex_step1].
Qed.

Lemma ex_s2_reachable : reachable ex_s2.
Proof.
  exists 0, ex_qs, 7, ex_s0. eexists. split; [by vm_compute|].
  eapply run_step; [eapply run_step; [constructor|apply ex_step1]|apply ex_step2].
Qed.


Lemma slot_progress_witness :
  phase_rank (s_phase ex_s1) <= phase_rank (s_phase ex_s2) ∧ s_Y ex_s1 ⊆ s_Y ex_s2.
Proof.
  destruct (slot_progress_monotone ex_s1 _ ex_s2 ex_s1_reachable
    (run_step _ _ _ _ _ (run_nil _) ex_step2)) as (Hr & HY & _).
  split; [exact Hr|exact HY].
Defined.

Lemma externalized_is_final_witness :
  s_phase ex_s2 = PhaseExternalize ∧ s_B ex_s2 = s_B ex_s2.
Proof.
  destruct (externalized_is_final ex_s2 [] ex_s2 ex_s2_reachable) as (Hp & HB & _);
    [by vm_compute|apply run_nil|]. split; [exact Hp|exact HB].
Defined.

(** Value 20 was externalized on the word of nodes 1, 2 and 3. *)
Lemma externalize_has_quorum_witness :
  s_phase ex_s1 = PhaseNominatePrepare ∧ s_phase ex_s2 = PhaseExternalize ∧ bal_X (s_B ex_s2) = [20] ∧
  ∃ U, is_quorum (s_M ex_s2) 0 ex_qs U.
Proof.
  destruct (externalize_has_quorum ex_s1 _ ex_s2 ex_s1_reachable ex_step2) as
    (C & h & hi & U & _ & _ & _ & _ & _ & _ & HU & _); [by vm_compute|by vm_compute|].
  split; [by vm_compute|]. split; [by vm_compute|]. split; [by vm_compute|].
  exists U. exact HU.
Defined.

Lemma ex_combine_selects (l r : list N) :
  combine_fn (ID:=N) (E:=unit) l = Ok r → ∀ v, v ∈ r → v ∈ l.
Proof. intros [= <-] v. unfold sort. by rewrite elem_of_sort_by. Qed.

Lemma slot_values_valid_witness :
  bal_X (s_B ex_s2) = [20] ∧ validity_fn (ID:=N) (E:=unit) 20 = Ok tt.
Proof.
  assert (HX : bal_X (s_B ex_s2) = [20]) by (by vm_compute). split; [exact HX|].
  apply (slot_values_valid ex_s2 ex_combine_selects ex_s2_reachable). right. rewrite HX. left.
Defined.

Lemma emitted_messages_witness :
  ∃ m, option_list (match ex_finished with Done (o, _) => o | _ => None end) = [m] ∧
    validate m = Ok tt ∧ topic_of_phase ex_s2 (topic m).
Proof.
  destruct (emitted_messages_sound ex_s1 _ ex_s2 ex_s1_reachable ex_step2) as [Hn|(m & Hm & Hv & _ & _ & _ & _ & _ & Ht)].
  - exfalso. vm_compute in Hn. discriminate Hn.
  - exists m. split; [exact Hm|]. split; [exact Hv|exact Ht].
Defined.

Lemma ballot_protocol_terminates_witness : do_ballot_protocol 2 0 ex_s1 ≠ NoFuel.
Proof.
  apply (ballot_protocol_terminates 2 0 ex_s1 ex_s1_reachable); [by vm_compute|by vm_compute| |lia].
  assert (Hall : forallb (λ kv, bN kv.2 <? u32_max) (map_to_list (s_M ex_s1)) = true) by (by vm_compute).
  intros n msg Hm%elem_of_map_to_list. rewrite forallb_Forall, Forall_forall in Hall.
  apply N.ltb_lt. exact (Hall (n, msg) Hm).
Defined.

(** C40: a node that lags behind can be made to panic by ordinary messages of
    honest peers.  The node confirmed value 10 nominated and is at ballot (1, 10)
    when three peers report ballot (3, 20), prepared and voted committed up to
    counter 2.  [do_prepare_phase] raises the ballot to (3, 20) and calls itself;
    the inner call accepts the commit and enters the commit phase; back in the
    outer call, [check_prepare_phase_invariants] asserts that the slot is still
    in a prepare phase. *)
Theorem prepare_recursion_panics fuel :
  reachable ex_s1 ∧ Forall (λ m, validate m = Ok tt ∧ msg_u32 m) (ex_prepared <$> [1; 2; 3]) ∧
  handle_messages (S (S fuel)) 0 (ex_prepared <$> [1; 2; 3]) ex_s1 = Panic.
Proof.
  split; [apply ex_s1_reachable|]. split; [|by vm_compute].
  repeat constructor; by vm_compute.
Qed.
End SlotProps.
