(* ===== verification/Node.v ===== *)
(** * The SCP node

    The model of [consensus/scp/src/node/node_impl.rs]: a node drives one current
    slot, keeps a bounded queue of externalized slots that still answer messages,
    and moves to the next slot when its current slot externalizes.

    The [Result]s of the trait are always [Ok] in the source and are left out, as
    are the debug snapshots and the logging. *)

From S2P Require Import Prelude Ord QuorumSet ScpMsg Predicates QuorumSearch SlotState SlotVoting Slot.

Local Open Scope N_scope.

Definition MAX_EXTERNALIZED_SLOTS : nat := 1.

Section node.
Context {V ID E : Type} `{Countable V} `{!Ord V} `{Countable ID} `{!Ord ID}.
Context `{HI : HashIter} `{App : !Application V ID E}.

(** [Node]; the application functions are parameters. *)
Record Node : Type := mkNode {
  n_ID : ID;
  n_Q : QuorumSet ID;
  n_current_slot : Slot V ID;
  n_max_externalized_slots : nat;
  n_externalized_slots : list (Slot V ID);
  n_scp_timebase : N
}.
Implicit Types n : Node.

Definition with_current_slot (slot : Slot V ID) n : Node :=
  mkNode (n_ID n) (n_Q n) slot (n_max_externalized_slots n) (n_externalized_slots n) (n_scp_timebase n).
Definition with_externalized_slots (slots : list (Slot V ID)) n : Node :=
  mkNode (n_ID n) (n_Q n) (n_current_slot n) (n_max_externalized_slots n) slots (n_scp_timebase n).

(** [Node::new]. *)
Definition Node_new (node_id : ID) (quorum_set : QuorumSet ID) (current_slot_index : N) : exec Node :=
  let! slot := Slot_new node_id quorum_set current_slot_index in
  Done (mkNode node_id quorum_set slot MAX_EXTERNALIZED_SLOTS [] 1000).

(** The loop of [push_externalized_slot]: drop the oldest slots. *)
Fixpoint drop_oldest (max_externalized_slots : nat) (slots : list (Slot V ID)) : list (Slot V ID) :=
  match slots with
  | [] => []
  | _ :: rest =>
      if (max_externalized_slots <? length slots)%nat then drop_oldest max_externalized_slots rest
      else slots
  end.

(** [push_externalized_slot]. *)
Definition push_externalized_slot (slot : Slot V ID) n : Node :=
  with_externalized_slots (drop_oldest (n_max_externalized_slots n) (n_externalized_slots n ++ [slot])) n.

(** [externalize]. *)
Definition externalize n : exec Node :=
  let slot_index := get_index (n_current_slot n) in
  let! next_slot := Slot_new (n_ID n) (n_Q n) (u64_add slot_index 1) in
  let externalized_slot := n_current_slot n in
  Done (push_externalized_slot externalized_slot (with_current_slot next_slot n)).

(** [get_externalized_slot]. *)
Definition get_externalized_slot n (slot_index : N) : option (Slot V ID) :=
  snd <$> list_find (λ slot, get_index slot = slot_index) (n_externalized_slots n).

Definition is_externalize (msg : Msg V ID) : bool :=
  match topic msg with Externalize _ => true | _ => false end.

(** [propose_values]. *)
Definition node_propose_values (fuel : nat) (now : N) (values : gset V) n :
    exec (option (Msg V ID) * Node) :=
  if bool_decide (values = ∅) then Done (None, n)
  else
    let! (o, slot) := propose_values fuel now values (n_current_slot n) in
    let n := with_current_slot slot n in
    match o with
    | None => Done (None, n)
    | Some msg =>
        let! n := (if is_externalize msg then externalize n else Done n) in
        Done (Some msg, n)
    end.

(** The messages of peers for slots that are not in the future, by slot. *)
Definition slot_index_to_msgs (msgs : list (Msg V ID)) n : gmap N (list (Msg V ID)) :=
  let msgs_from_peers := filter (λ msg, sender_id msg ≠ n_ID n) msgs in
  let msgs_to_process := filter (λ msg, msg_slot_index msg <= get_index (n_current_slot n)) msgs_from_peers in
  foldl (λ acc msg, <[ msg_slot_index msg := default [] (acc !! msg_slot_index msg) ++ [msg] ]> acc)
    ∅ msgs_to_process.

(** Externalized slots answer the messages for them. *)
Definition answer_externalized (fuel : nat) (now : N) (by_index : gmap N (list (Msg V ID)))
    (slots : list (Slot V ID)) : exec (list (Msg V ID) * list (Slot V ID)) :=
  exec_foldl (λ acc slot,
    match by_index !! get_index slot with
    | Some msgs =>
        let! (o, slot) := handle_messages fuel now msgs slot in
        Done (acc.1 ++ option_list o, acc.2 ++ [slot])
    | None => Done (acc.1, acc.2 ++ [slot])
    end) ([], []) slots.

(** [handle_messages]. *)
Definition node_handle_messages (fuel : nat) (now : N) (msgs : list (Msg V ID)) n :
    exec (list (Msg V ID) * Node) :=
  let by_index := slot_index_to_msgs msgs n in
  let! (outbound_msgs, slots) := answer_externalized fuel now by_index (n_externalized_slots n) in
  let n := with_externalized_slots slots n in
  match by_index !! get_index (n_current_slot n) with
  | Some msgs =>
      let! (o, slot) := handle_messages fuel now msgs (n_current_slot n) in
      let n := with_current_slot slot n in
      match o with
      | Some response =>
          let! n := (if is_externalize response then externalize n else Done n) in
          Done (outbound_msgs ++ [response], n)
      | None => Done (outbound_msgs, n)
      end
  | None => Done (outbound_msgs, n)
  end.

(** [handle_message]. *)
Definition node_handle_message (fuel : nat) (now : N) (msg : Msg V ID) n :
    exec (option (Msg V ID) * Node) :=
  let! (outgoing_messages, n) := node_handle_messages fuel now [msg] n in
  Done (head outgoing_messages, n).

(** [set_max_externalized_slots]. *)
Definition set_max_externalized_slots (max : nat) n : Node :=
  mkNode (n_ID n) (n_Q n) (n_current_slot n) max (n_externalized_slots n) (n_scp_timebase n).

(** [get_externalized_values]. *)
Definition get_externalized_values n (slot_index : N) : exec (option (list V)) :=
  match get_externalized_slot n slot_index with
  | None => Done None
  | Some slot =>
      let! msg := unwrap (get_last_message_sent slot) in
      match topic msg with
      | Externalize payload => Done (Some (bal_X (ext_C payload)))
      | _ => Panic
      end
  end.

(** [process_timeouts]. *)
Definition node_process_timeouts (fuel : nat) (now : N) n : exec (list (Msg V ID) * Node) :=
  let! (msgs, slot) := process_timeouts fuel now (n_current_slot n) in
  Done (msgs, with_current_slot slot n).

Definition current_slot_index n : N := get_index (n_current_slot n).
Definition get_current_slot_metrics n : SlotMetrics := get_metrics (n_current_slot n).

(** [reset_slot_index]. *)
Definition reset_slot_index (slot_index : N) n : exec Node :=
  let! slot := Slot_new (n_ID n) (n_Q n) slot_index in
  Done (with_externalized_slots [] (with_current_slot slot n)).
End node.

Arguments Node V ID {_ _ _ _} : assert.
