(* ===== verification/NodeProps.v ===== *)
(** * Properties of the SCP node

    Runs of a node: the index of the current slot, the queue of externalized
    slots, and the values reported for them. *)

From S2P Require Import Prelude Ord QuorumSet ScpMsg Predicates QuorumSearch SlotState SlotVoting VotingProps Slot SlotInv SlotRuns SlotProps Node.

Local Open Scope N_scope.

Section node_inv.
Context {V ID E : Type} `{Countable V} `{!Ord V, !TotalOrd V} `{Countable ID} `{!Ord ID}.
Context `{HI : HashIter} `{App : !Application V ID E}.
Implicit Types (n : Node V ID) (s : Slot V ID).

(** Calls of a node. *)
Inductive node_step n : Node V ID → Prop :=
| nstep_propose fuel now values o n' :
    node_propose_values fuel now values n = Done (o, n') → node_step n n'
| nstep_handle fuel now msgs out n' :
    Forall msg_u32 msgs → node_handle_messages fuel now msgs n = Done (out, n') → node_step n n'
| nstep_timeout fuel now out n' :
    node_process_timeouts fuel now n = Done (out, n') → node_step n n'
| nstep_max max : node_step n (set_max_externalized_slots max n).

Definition node_reachable n : Prop :=
  ∃ i q idx n0, Node_new i q idx = Done n0 ∧ rtc node_step n0 n.

(** A slot whose externalized values can be reported. *)
Definition announced s (x : list V) : Prop :=
  s_phase s = PhaseExternalize ∧ bal_X (s_B s) = x ∧
  ∃ m p, s_last_sent_msg s = Some m ∧ topic m = Externalize p ∧ bal_X (ext_C p) = x.

(** The distance of slot [i] of the queue from the current slot. *)
Definition slot_distance (slots : list (Slot V ID)) (i : nat) : N := N.of_nat (length slots - i).

Definition queue_inv (idx : N) (slots : list (Slot V ID)) : Prop :=
  ∀ i s, slots !! i = Some s →
    reachable s ∧ (∃ x, announced s x) ∧ u64_add (s_slot_index s) (slot_distance slots i) = idx.

Record node_inv n : Prop := {
  nv_current : reachable (n_current_slot n);
  nv_queue : queue_inv (s_slot_index (n_current_slot n)) (n_externalized_slots n)
}.

(** ** Slots *)

Lemma step_final s out s' :
  reachable s → slot_step s out s' → s_phase s = PhaseExternalize →
  s_phase s' = PhaseExternalize ∧ s_B s' = s_B s.
Proof.
  intros Hs Hstep Hph. destruct (step_ok s out s' Hs Hstep) as (_ & He & _).
  destruct (ev_final _ _ He Hph) as (HB & _). split; [|done].
  apply phase_rank_ext. pose proof (ev_rank _ _ He) as Hr. rewrite Hph in Hr. exact Hr.
Qed.

Lemma step_index s out s' : reachable s → slot_step s out s' → s_slot_index s' = s_slot_index s.
Proof. intros Hs Hstep. destruct (step_ok s out s' Hs Hstep) as (_ & He & _). apply He. Qed.

(** An announcement is only replaced by one of the same values. *)
Lemma announced_step s out s' x :
  reachable s → slot_step s out s' → announced s x → announced s' x.
Proof.
  intros Hs Hstep (Hph & HX & m & p & Hm & Ht & Hp).
  destruct (step_final s out s' Hs Hstep Hph) as [Hph' HB'].
  split; [done|]. split; [by rewrite HB'|].
  destruct (step_emits s out s' Hs Hstep) as [[_ Hl]|(m' & _ & _ & _ & _ & _ & Hl & _ & Htop)].
  - exists m, p. by rewrite Hl.
  - unfold topic_of_phase in Htop. rewrite Hph' in Htop. destruct Htop as (C & h & HC & Hh & Ht' & HXC).
    exists m', (mkExternalize C (bal_N h)). split_and!; [done|done|]. simpl. by rewrite HXC, HB'.
Qed.

(** Emitting an externalize message announces the values. *)
Lemma announced_emit s m s' :
  reachable s → slot_step s [m] s' → is_externalize m = true → announced s' (bal_X (s_B s')).
Proof.
  intros Hs Hstep Hext.
  destruct (step_emits s [m] s' Hs Hstep) as [[? _]|(m' & Hm & _ & _ & _ & _ & Hl & _ & Htop)]; [done|].
  injection Hm as <-. unfold is_externalize in Hext. unfold topic_of_phase in Htop.
  destruct (s_phase s') eqn:Hph.
  - destruct Htop as [[Ht _]|(p & Ht & _)]; by rewrite Ht in Hext.
  - destruct Htop as (p & Ht & _). by rewrite Ht in Hext.
  - destruct Htop as (p & Ht & _). by rewrite Ht in Hext.
  - destruct Htop as (C & h & HC & Hh & Ht & HX). split_and!; [done|done|].
    exists m, (mkExternalize C (bal_N h)). by split_and!.
Qed.

(** ** The queue *)

Lemma u64_add_assoc1 a b : u64_add (u64_add a b) 1 = u64_add a (b + 1).
Proof.
  unfold u64_add. rewrite N.Div0.add_mod_idemp_l. f_equal. lia.
Qed.

Lemma drop_oldest_suffix max (slots : list (Slot V ID)) : ∃ d, drop_oldest max slots = drop d slots.
Proof.
  induction slots as [|s slots [d IH]]; [by exists O|]. cbn [drop_oldest].
  destruct (_ <? _)%nat; [exists (S d); done|by exists O].
Qed.

Lemma drop_oldest_length max (slots : list (Slot V ID)) :
  length (drop_oldest max slots) = min max (length slots).
Proof.
  induction slots as [|s slots IH]; [simpl; lia|]. cbn [drop_oldest].
  destruct (Nat.ltb_spec max (length (s :: slots))); simpl in *; [rewrite IH; lia|lia].
Qed.

Lemma queue_inv_drop idx slots d : queue_inv idx slots → queue_inv idx (drop d slots).
Proof.
  intros Hq i s. rewrite lookup_drop. intros Hi. destruct (Hq _ _ Hi) as (? & ? & Hidx).
  split_and!; [done|done|]. rewrite <-Hidx. unfold slot_distance. rewrite length_drop.
  do 2 f_equal. apply lookup_lt_Some in Hi. lia.
Qed.

Lemma queue_inv_push idx slots s x :
  queue_inv idx slots → reachable s → announced s x → s_slot_index s = idx →
  queue_inv (u64_add idx 1) (slots ++ [s]).
Proof.
  intros Hq Hs Ha Hidx i s'. rewrite lookup_app_Some. intros [Hi|[Hge Hi]].
  - destruct (Hq _ _ Hi) as (? & ? & He). split_and!; [done|done|].
    rewrite <-He, u64_add_assoc1. f_equal. unfold slot_distance. rewrite length_app. simpl.
    apply lookup_lt_Some in Hi. lia.
  - apply list_lookup_singleton_Some in Hi as [Hi <-]. split_and!; [done|by exists x|].
    rewrite Hidx. f_equal. unfold slot_distance. rewrite length_app. simpl. lia.
Qed.

Lemma externalize_inv n n' :
  node_inv n → announced (n_current_slot n) (bal_X (s_B (n_current_slot n))) →
  externalize n = Done n' →
  node_inv n' ∧ s_slot_index (n_current_slot n') = u64_add (s_slot_index (n_current_slot n)) 1.
Proof.
  intros [Hc Hq] Ha Hr. unfold externalize in Hr. exec_inv.
  assert (Hidx : s_slot_index r = u64_add (s_slot_index (n_current_slot n)) 1).
  { unfold Slot_new in E0. exec_inv. done. }
  split; [|done]. split; simpl; [by eapply reachable_new|]. rewrite Hidx.
  destruct (drop_oldest_suffix (n_max_externalized_slots n) (n_externalized_slots n ++ [n_current_slot n])) as [d ->].
  apply queue_inv_drop. by eapply queue_inv_push.
Qed.

(** ** Grouping messages *)

(** What a node listens to: peers, and slots that are not in the future. *)
Definition relevant n (msg : Msg V ID) : Prop :=
  sender_id msg ≠ n_ID n ∧ msg_slot_index msg <= s_slot_index (n_current_slot n).

#[export] Instance relevant_dec n msg : Decision (relevant n msg).
Proof. apply _. Defined.

Lemma group_lookup (msgs : list (Msg V ID)) i :
  foldl (λ acc msg, <[ msg_slot_index msg := default [] (acc !! msg_slot_index msg) ++ [msg] ]> acc)
    (∅ : gmap N (list (Msg V ID))) msgs !! i =
  (if bool_decide (filter (λ msg, msg_slot_index msg = i) msgs = []) then None
   else Some (filter (λ msg, msg_slot_index msg = i) msgs)).
Proof.
  induction msgs as [|m msgs IH] using rev_ind; [done|].
  rewrite foldl_snoc, filter_app. set (F := foldl _ _ _) in *.
  destruct (decide (msg_slot_index m = i)) as [Hi|Hi].
  - rewrite (filter_cons_True _ m) by done. rewrite filter_nil, Hi, lookup_insert.
    rewrite bool_decide_eq_false_2 by (by intros [_ [=]]%app_eq_nil).
    rewrite decide_True, IH by done. case_bool_decide as Hf; simpl; [by rewrite Hf|done].
  - rewrite (filter_cons_False _ m) by done. rewrite filter_nil, app_nil_r.
    rewrite lookup_insert_ne by done. apply IH.
Qed.

Lemma slot_index_to_msgs_lookup msgs n i :
  slot_index_to_msgs msgs n !! i =
  (let l := filter (λ msg, relevant n msg ∧ msg_slot_index msg = i) msgs in
   if bool_decide (l = []) then None else Some l).
Proof.
  unfold slot_index_to_msgs. rewrite group_lookup, !list_filter_filter.
  assert (Heq : ∀ P Q `{∀ x : Msg V ID, Decision (P x)} `{∀ x, Decision (Q x)},
    (∀ x, P x ↔ Q x) → filter P msgs = filter Q msgs).
  { intros. by apply list_filter_iff. }
  erewrite (Heq _ (λ msg, relevant n msg ∧ msg_slot_index msg = i)); [done|].
  intros m. unfold relevant, get_index. tauto.
Qed.

Lemma slot_index_to_msgs_u32 msgs n i l :
  Forall msg_u32 msgs → slot_index_to_msgs msgs n !! i = Some l → Forall msg_u32 l.
Proof.
  intros Hu. rewrite slot_index_to_msgs_lookup. simpl. case_bool_decide; [done|]. intros [= <-].
  rewrite Forall_forall in *. intros m [_ Hm]%list_elem_of_filter. auto.
Qed.

(** ** The steps of a node *)

(** A slot that was left alone or handled messages. *)
Definition slot_kept s s' : Prop := s' = s ∨ ∃ out, slot_step s out s'.

Lemma answer_externalized_kept fuel now by_index slots out slots' :
  (∀ i l, by_index !! i = Some l → Forall msg_u32 l) →
  answer_externalized fuel now by_index slots = Done (out, slots') → Forall2 slot_kept slots slots'.
Proof.
  intros Hu. unfold answer_externalized.
  assert (Hgen : ∀ out0 pre pre' r, Forall2 slot_kept pre pre' →
    exec_foldl (λ acc slot, match by_index !! get_index slot with
      | Some msgs => let! (o, slot) := handle_messages fuel now msgs slot in
                     Done (acc.1 ++ option_list o, acc.2 ++ [slot])
      | None => Done (acc.1, acc.2 ++ [slot])
      end) (out0, pre') slots = Done r → Forall2 slot_kept (pre ++ slots) r.2).
  { induction slots as [|s slots IH]; intros out0 pre pre' r Hpre; simpl.
    - intros [= <-]. by rewrite app_nil_r.
    - intros (acc & Hacc & Hr)%exec_bind_Done.
      assert (∃ out1 s1, acc = (out1, pre' ++ [s1]) ∧ slot_kept s s1) as (out1 & s1 & -> & Hk).
      { destruct (by_index !! get_index s) as [msgs|] eqn:Ei; simpl in Hacc; exec_inv.
        - destruct r0 as [o s1]. injection Hacc as <-. eexists _, s1. split; [done|].
          right. exists (option_list o). eapply step_handle; [by eapply Hu|done].
        - eexists _, s. split; [done|]. by left. }
      rewrite (cons_middle s pre slots), app_assoc. eapply IH; [|exact Hr].
      apply Forall2_app; [done|]. constructor; [done|constructor]. }
  intros Hr. by apply (Hgen [] [] [] (out, slots')) in Hr.
Qed.

Lemma slot_kept_facts s s' x :
  reachable s → slot_kept s s' →
  reachable s' ∧ s_slot_index s' = s_slot_index s ∧ (announced s x → announced s' x).
Proof.
  intros Hs [->|[out Hstep]]; [done|].
  split_and!; [by eapply reachable_step|by eapply step_index|by eapply announced_step].
Qed.

Lemma queue_inv_kept idx slots slots' :
  queue_inv idx slots → Forall2 slot_kept slots slots' → queue_inv idx slots'.
Proof.
  intros Hq Hk i s' Hi. destruct (Forall2_lookup_r _ _ _ _ _ Hk Hi) as (s & His & Hks).
  destruct (Hq i s His) as (Hs & [x Hx] & Hidx).
  destruct (slot_kept_facts s s' x Hs Hks) as (? & Hix & Hax).
  split_and!; [done|by exists x; apply Hax|]. unfold slot_distance in *.
  by rewrite Hix, <-(Forall2_length _ _ _ Hk).
Qed.

(** How a call changes a node: the queue answers messages, the current slot
    takes a step, and if it announced its values it joins the queue. *)
Inductive node_change n n' : Prop :=
| change_stay :
    Forall2 slot_kept (n_externalized_slots n) (n_externalized_slots n') →
    slot_kept (n_current_slot n) (n_current_slot n') → node_change n n'
| change_advance slots s :
    Forall2 slot_kept (n_externalized_slots n) slots →
    (∃ m, slot_step (n_current_slot n) [m] s ∧ is_externalize m = true) →
    Slot_new (n_ID n) (n_Q n) (u64_add (s_slot_index s) 1) = Done (n_current_slot n') →
    n_externalized_slots n' = drop_oldest (n_max_externalized_slots n) (slots ++ [s]) →
    n_max_externalized_slots n' = n_max_externalized_slots n → node_change n n'.

Lemma kept_refl slots : Forall2 slot_kept slots slots.
Proof. induction slots; constructor; [by left|done]. Qed.

Lemma externalize_change n slots s m n' :
  Forall2 slot_kept (n_externalized_slots n) slots → slot_step (n_current_slot n) [m] s →
  (if is_externalize m then externalize (with_current_slot s (with_externalized_slots slots n))
   else Done (with_current_slot s (with_externalized_slots slots n))) = Done n' →
  node_change n n'.
Proof.
  intros Hk Hstep Hr. destruct (is_externalize m) eqn:Em.
  - unfold externalize in Hr. exec_inv. eapply (change_advance _ _ slots s); eauto.
  - injection Hr as <-. apply change_stay; simpl; [done|]. right. by eexists.
Qed.

Lemma node_step_change n n' : node_step n n' → node_change n n'.
Proof.
  intros [fuel now values o n1 Hr|fuel now msgs out n1 Hu Hr|fuel now out n1 Hr|max].
  - unfold node_propose_values in Hr. case_bool_decide.
    { exec_inv. apply change_stay; [apply kept_refl|by left]. }
    exec_inv. destruct r as [[m|] s]; exec_inv.
    + eapply (externalize_change n (n_externalized_slots n) s m);
        [apply kept_refl|exact (step_propose _ _ _ _ _ _ E0)|by destruct n].
    + apply change_stay; [apply kept_refl|]. right. eexists. exact (step_propose _ _ _ _ _ _ E0).
  - unfold node_handle_messages in Hr. exec_inv. destruct r as [out1 slots].
    apply answer_externalized_kept in E0; [|intros i l; by apply slot_index_to_msgs_u32].
    simpl in Hr. destruct (slot_index_to_msgs msgs n !! _) as [l|] eqn:El.
    2:{ exec_inv. apply change_stay; [done|by left]. }
    apply slot_index_to_msgs_u32 in El; [|done]. exec_inv. destruct r as [[m|] s]; exec_inv.
    + eapply (externalize_change n slots s m); [done|exact (step_handle _ _ _ _ _ _ El E1)|done].
    + apply change_stay; [done|]. right. eexists. exact (step_handle _ _ _ _ _ _ El E1).
  - unfold node_process_timeouts in Hr. exec_inv. destruct r as [out1 s]. injection Hr as <- <-.
    apply change_stay; [apply kept_refl|]. right. eexists. exact (step_timeout _ _ _ _ _ E0).
  - apply change_stay; [apply kept_refl|by left].
Qed.

Lemma node_change_inv n n' : node_inv n → node_change n n' → node_inv n'.
Proof.
  intros [Hc Hq] [Hk Hs|slots s Hk (m & Hstep & Hm) Hnew Hslots Hmax].
  - destruct (slot_kept_facts _ _ [] Hc Hs) as (Hc' & Hidx & _).
    split; [done|]. rewrite Hidx. by eapply queue_inv_kept.
  - assert (Hidx : s_slot_index (n_current_slot n') = u64_add (s_slot_index s) 1).
    { unfold Slot_new in Hnew. exec_inv. by rewrite <-Hnew. }
    pose proof (step_index _ _ _ Hc Hstep) as Hix.
    split; [by eapply reachable_new|]. rewrite Hslots, Hidx.
    destruct (drop_oldest_suffix (n_max_externalized_slots n) (slots ++ [s])) as [d ->].
    apply queue_inv_drop. eapply queue_inv_push; [|by eapply reachable_step|by eapply announced_emit|done].
    rewrite Hix. by eapply queue_inv_kept.
Qed.

Lemma node_reachable_inv n : node_reachable n → node_inv n.
Proof.
  intros (i & q & idx & n0 & Hnew & Hrun).
  assert (H0' : node_inv n0).
  { unfold Node_new in Hnew. exec_inv. split; simpl; [by eapply reachable_new|]. by intros j s. }
  clear Hnew. induction Hrun as [n|n1 n2 n3 Hstep _ IH]; [done|].
  apply IH. eapply node_change_inv; [done|]. by apply node_step_change.
Qed.
End node_inv.

(** ** Reported values *)

Section values.
Context {V ID E : Type} `{Countable V} `{!Ord V, !TotalOrd V} `{Countable ID} `{!Ord ID}.
Context `{HI : HashIter} `{App : !Application V ID E}.
Implicit Types (n : Node V ID) (s : Slot V ID).

Lemma get_externalized_slot_Some n idx s :
  get_externalized_slot n idx = Some s →
  ∃ i, n_externalized_slots n !! i = Some s ∧ s_slot_index s = idx.
Proof.
  unfold get_externalized_slot. intros ([i s'] & Hf & ->)%fmap_Some.
  apply list_find_Some in Hf as (? & ? & _). by exists i.
Qed.

Lemma get_externalized_slot_None n idx :
  get_externalized_slot n idx = None →
  ∀ i s, n_externalized_slots n !! i = Some s → s_slot_index s ≠ idx.
Proof.
  unfold get_externalized_slot. intros Hf%fmap_None i s Hi Hidx.
  apply list_find_None in Hf. rewrite Forall_lookup in Hf. by apply (Hf i s).
Qed.

Lemma get_values_announced n idx s x :
  get_externalized_slot n idx = Some s → announced s x →
  get_externalized_values n idx = Done (Some x).
Proof.
  intros Hs (_ & _ & m & p & Hm & Ht & Hp). unfold get_externalized_values, get_last_message_sent.
  rewrite Hs, Hm. simpl. by rewrite Ht, Hp.
Qed.

Lemma get_values_cases n idx :
  node_inv n →
  (get_externalized_slot n idx = None ∧ get_externalized_values n idx = Done None) ∨
  ∃ s x, get_externalized_slot n idx = Some s ∧ announced s x ∧ reachable s ∧
    get_externalized_values n idx = Done (Some x).
Proof.
  intros [_ Hq]. destruct (get_externalized_slot n idx) as [s|] eqn:Es.
  - right. destruct (get_externalized_slot_Some n idx s Es) as (i & Hi & _).
    destruct (Hq i s Hi) as (Hs & [x Hx] & _). exists s, x. split_and!; try done.
    by eapply get_values_announced.
  - left. split; [done|]. unfold get_externalized_values. by rewrite Es.
Qed.

(** The slots of the queue have different indices. *)
Lemma queue_index_unique idx (slots : list (Slot V ID)) i j s s' :
  queue_inv idx slots → (N.of_nat (length slots) < u64_modulus) →
  slots !! i = Some s → slots !! j = Some s' → s_slot_index s = s_slot_index s' → i = j.
Proof.
  intros Hq Hlen Hi Hj Heq.
  destruct (Hq i s Hi) as (_ & _ & Hdi), (Hq j s' Hj) as (_ & _ & Hdj).
  apply lookup_lt_Some in Hi, Hj. rewrite Heq in Hdi. rewrite <-Hdj in Hdi.
  unfold u64_add, slot_distance in Hdi.
  set (a := s_slot_index s') in *. set (ki := (length slots - i)%nat) in *. set (kj := (length slots - j)%nat) in *.
  assert (Hk : N.of_nat ki = N.of_nat kj); [|lia].
  apply (f_equal (λ z, (z + (u64_modulus - a mod u64_modulus)) mod u64_modulus)) in Hdi.
  assert (Hcancel : ∀ k, k < u64_modulus →
    ((a + k) mod u64_modulus + (u64_modulus - a mod u64_modulus)) mod u64_modulus = k).
  { intros k Hk. rewrite N.Div0.add_mod_idemp_l.
    pose proof (N.mod_lt a u64_modulus ltac:(done)). pose proof (N.Div0.div_mod a u64_modulus) as Hdm.
    replace (a + k + (u64_modulus - a mod u64_modulus)) with (k + (a / u64_modulus + 1) * u64_modulus) by lia.
    rewrite N.Div0.mod_add. by apply N.mod_small. }
  simpl in Hdi. rewrite !Hcancel in Hdi; [done|lia|lia].
Qed.

(** A queue entry and what a call makes of it. *)
Lemma queue_origin n n' i' s' :
  node_inv n → node_change n n' → n_externalized_slots n' !! i' = Some s' →
  (∃ i s, n_externalized_slots n !! i = Some s ∧ slot_kept s s') ∨
  (s_slot_index s' = s_slot_index (n_current_slot n) ∧
   s_slot_index (n_current_slot n') = u64_add (s_slot_index (n_current_slot n)) 1).
Proof.
  intros [Hc Hq] [Hk Hs|slots s Hk (m & Hstep & Hm) Hnew Hslots Hmax] Hi'.
  - left. destruct (Forall2_lookup_r _ _ _ _ _ Hk Hi') as (s & Hi & Hks). by exists i', s.
  - rewrite Hslots in Hi'.
    destruct (drop_oldest_suffix (n_max_externalized_slots n) (slots ++ [s])) as [d Hd].
    rewrite Hd, lookup_drop in Hi'. apply lookup_app_Some in Hi' as [Hi'|[_ Hi']].
    + left. destruct (Forall2_lookup_r _ _ _ _ _ Hk Hi') as (s0 & Hi & Hks). by exists (d + i')%nat, s0.
    + right. apply list_lookup_singleton_Some in Hi' as [_ <-].
      pose proof (step_index _ _ _ Hc Hstep) as Hix. split; [done|].
      unfold Slot_new in Hnew. exec_inv. rewrite <-Hnew. simpl. by rewrite Hix.
Qed.
End values.

Module NodeProps.
Section props.
Context {V ID E : Type} `{Countable V} `{!Ord V, !TotalOrd V} `{Countable ID} `{!Ord ID}.
Context `{HI : HashIter} `{App : !Application V ID E}.
Implicit Types (n : Node V ID) (s : Slot V ID).

(** In every state a node can reach, the queue of externalized slots
    holds the slots right before the current one, in order (the last entry has
    the index before the current one, and so on), each of them in the
    externalize phase; and asking for the externalized values of any slot never
    panics and reports the ballot values of the queued slot with that index. *)
Theorem node_queue_sound n idx :
  node_reachable n →
  (∀ i s, n_externalized_slots n !! i = Some s →
     s_phase s = PhaseExternalize ∧
     u64_add (s_slot_index s) (slot_distance (n_externalized_slots n) i) = current_slot_index n) ∧
  ((get_externalized_values n idx = Done None ∧
    ∀ i s, n_externalized_slots n !! i = Some s → s_slot_index s ≠ idx) ∨
   ∃ i s, n_externalized_slots n !! i = Some s ∧ s_slot_index s = idx ∧
     get_externalized_values n idx = Done (Some (bal_X (s_B s)))).
Proof.
  intros Hn%node_reachable_inv. split.
  - intros i s Hi. destruct (nv_queue _ Hn i s Hi) as (_ & [x (Hph & _)] & Hidx). done.
  - destruct (get_values_cases n idx Hn) as [[Hs Hv]|(s & x & Hs & Ha & _ & Hv)].
    + left. split; [done|]. by apply get_externalized_slot_None.
    + right. destruct (get_externalized_slot_Some n idx s Hs) as (i & Hi & Hidx).
      exists i, s. split_and!; [done|done|]. destruct Ha as (_ & -> & _). done.
Qed.

(** Values once reported for a slot are never reported differently: a
    call of the node leaves the report as it is or evicts the slot. *)
Theorem externalized_values_stable n n' idx x :
  node_reachable n → node_step n n' →
  N.of_nat (length (n_externalized_slots n)) + 1 < u64_modulus →
  idx ≠ current_slot_index n →
  get_externalized_values n idx = Done (Some x) →
  get_externalized_values n' idx = Done (Some x) ∨ get_externalized_values n' idx = Done None.
Proof.
  intros Hn%node_reachable_inv Hstep%node_step_change Hlen Hne Hx.
  pose proof (node_change_inv n n' Hn Hstep) as Hn'.
  destruct (get_values_cases n idx Hn) as [[_ Hv]|(s & x' & Hs & Ha & Hre & Hv)]; [by rewrite Hx in Hv|].
  assert (x' = x) as -> by (rewrite Hx in Hv; by injection Hv).
  destruct (get_values_cases n' idx Hn') as [[_ Hv']|(s' & x' & Hs' & Ha' & _ & Hv')]; [by right|].
  left. rewrite Hv'. do 2 f_equal.
  destruct (get_externalized_slot_Some n idx s Hs) as (i & Hi & Hix).
  destruct (get_externalized_slot_Some n' idx s' Hs') as (i' & Hi' & Hix').
  destruct (queue_origin n n' i' s' Hn Hstep Hi') as [(j & s0 & Hj & Hk)|[Hcur _]].
  - destruct (nv_queue _ Hn j s0 Hj) as (Hre0 & _).
    destruct (slot_kept_facts s0 s' x Hre0 Hk) as (_ & Hidx0 & Hann).
    assert (i = j) as <-.
    { eapply (queue_index_unique _ _ i j s s0 (nv_queue _ Hn)); [lia|done|done|congruence]. }
    assert (s0 = s) as -> by congruence.
    destruct (Hann Ha) as (_ & <- & _). by destruct Ha' as (_ & <- & _).
  - exfalso. apply Hne. unfold current_slot_index, get_index. congruence.
Qed.

(** The index of the current slot never skips: a call leaves it alone or
    increases it by one, and it increases only when the current slot announced
    the values it externalized, which are then reported under the old index
    (unless nothing is kept). *)
Theorem node_index_advances n n' :
  node_reachable n → node_step n n' →
  N.of_nat (length (n_externalized_slots n)) + 1 < u64_modulus →
  current_slot_index n' = current_slot_index n ∨
  (current_slot_index n' = u64_add (current_slot_index n) 1 ∧
   (length (n_externalized_slots n') <= n_max_externalized_slots n)%nat ∧
   (n_max_externalized_slots n ≠ 0%nat →
    ∃ x, get_externalized_values n' (current_slot_index n) = Done (Some x))).
Proof.
  intros Hn%node_reachable_inv Hstep%node_step_change Hlen.
  pose proof (node_change_inv n n' Hn Hstep) as Hn'.
  unfold current_slot_index, get_index.
  destruct Hstep as [Hk Hs|slots s Hk (m & Hstep & Hm) Hnew Hslots Hmax].
  - left. by destruct (slot_kept_facts _ _ [] (nv_current _ Hn) Hs) as (_ & Hidx & _).
  - right. pose proof (step_index _ _ _ (nv_current _ Hn) Hstep) as Hix.
    split_and!.
    + unfold Slot_new in Hnew. exec_inv. rewrite <-Hnew. simpl. by rewrite Hix.
    + rewrite Hslots, drop_oldest_length. lia.
    + intros Hmax0. destruct (get_values_cases n' (s_slot_index (n_current_slot n)) Hn')
        as [[Hs' _]|(s' & x & _ & _ & _ & Hv)]; [|by exists x]. exfalso.
      destruct (drop_oldest_suffix (n_max_externalized_slots n) (slots ++ [s])) as [d Hd].
      pose proof (drop_oldest_length (n_max_externalized_slots n) (slots ++ [s])) as Hl.
      rewrite Hd, length_drop, length_app in Hl. simpl in Hl.
      apply (get_externalized_slot_None _ _ Hs' (length slots - d) s); [|done].
      rewrite Hslots, Hd, lookup_drop. apply lookup_app_Some. right. split; [lia|].
      by replace (d + (length slots - d) - length slots)%nat with 0%nat by lia.
Qed.

(** A node acts only on messages from other nodes for its current slot
    or a slot still in its queue: two batches that agree on those have the same
    effect. *)
Theorem node_ignores_irrelevant_messages fuel now msgs msgs' n :
  (∀ i, i = current_slot_index n ∨ i ∈ (s_slot_index <$> n_externalized_slots n) →
     filter (λ msg, relevant n msg ∧ msg_slot_index msg = i) msgs =
     filter (λ msg, relevant n msg ∧ msg_slot_index msg = i) msgs') →
  node_handle_messages fuel now msgs n = node_handle_messages fuel now msgs' n.
Proof.
  intros Heq.
  assert (Hl : ∀ i, i = current_slot_index n ∨ i ∈ (s_slot_index <$> n_externalized_slots n) →
    slot_index_to_msgs msgs n !! i = slot_index_to_msgs msgs' n !! i).
  { intros i Hi. rewrite !slot_index_to_msgs_lookup. simpl. by rewrite (Heq i Hi). }
  assert (Ha : answer_externalized fuel now (slot_index_to_msgs msgs n) (n_externalized_slots n) =
               answer_externalized fuel now (slot_index_to_msgs msgs' n) (n_externalized_slots n)).
  { apply exec_foldl_ext. intros acc s Hs. cbv beta. rewrite (Hl (get_index s)); [reflexivity|].
    right. apply list_elem_of_fmap. by exists s. }
  unfold node_handle_messages. cbv zeta. rewrite Ha.
  destruct (answer_externalized _ _ (slot_index_to_msgs msgs' n) _) as [[out slots]| |];
    cbn [exec_bind]; [|reflexivity|reflexivity].
  change (get_index (n_current_slot (with_externalized_slots slots n))) with (current_slot_index n).
  by rewrite (Hl (current_slot_index n)) by (by left).
Qed.
End props.

(** *** A concrete node: node 9 with quorum set 1 of [1; 2] *)

#[local] Existing Instance elements_iter.

#[local] Instance ex_node_app : Application N N unit := {|
  validity_fn := λ _, Ok tt;
  combine_fn := λ vs, Ok (sort vs);
  public_key := λ i, [i];
  fast_hash := λ bytes, be_bytes 32 (be_value bytes)
|}.

Definition ex_node_qs : QuorumSet N := Ctor.new_with_node_ids 1 [1; 2].

Definition ex_node_accept (Y : gset N) : Msg N N := Msg_new 1 ex_node_qs 7 (Nominate (mkNominate ∅ Y)).
Definition ex_node_commit : Msg N N :=
  Msg_new 1 ex_node_qs 7 (Commit (mkCommit (mkBallot 3 [10; 20]) 3 1 3)).
Definition ex_node_externalize (idx sender : N) : Msg N N :=
  Msg_new sender ex_node_qs idx (Externalize (mkExternalize (mkBallot 1 [20]) 1)).

Definition node_of {A} (e : exec (A * Node N N)) : Node N N :=
  match e with
  | Done (_, n) => n
  | _ => mkNode 9 ex_node_qs (SlotProps.slot_of (A:=unit) Panic) 0 [] 0
  end.

Definition ex_n0 : Node N N := node_of (let! n := Node_new 9 ex_node_qs 7 in Done (tt, n)).

(** Both peers externalize slot 7. *)
Definition ex_n1 : Node N N := node_of (node_handle_messages 2 0 (ex_node_externalize 7 <$> [1; 2]) ex_n0).
(** ...and then slot 8. *)
Definition ex_n2 : Node N N := node_of (node_handle_messages 2 0 (ex_node_externalize 8 <$> [1; 2]) ex_n1).

Lemma ex_n0_reachable : node_reachable ex_n0.
Proof. exists 9, ex_node_qs, 7, ex_n0. split; [by vm_compute|constructor]. Qed.

Lemma ex_node_step1 : node_step ex_n0 ex_n1.
Proof.
  eapply (nstep_handle ex_n0 2 0 (ex_node_externalize 7 <$> [1; 2])); [|by vm_compute].
  repeat constructor; by vm_compute.
Qed.

Lemma ex_node_step2 : node_step ex_n1 ex_n2.
Proof.
  eapply (nstep_handle ex_n1 2 0 (ex_node_externalize 8 <$> [1; 2])); [|by vm_compute].
  repeat constructor; by vm_compute.
Qed.

Lemma ex_n1_reachable : node_reachable ex_n1.
Proof.
  exists 9, ex_node_qs, 7, ex_n0. split; [by vm_compute|]. apply rtc_once, ex_node_step1.
Qed.

Lemma node_queue_sound_witness :
  ∃ i s, n_externalized_slots ex_n1 !! i = Some s ∧ s_slot_index s = 7 ∧
    get_externalized_values ex_n1 7 = Done (Some (bal_X (s_B s))).
Proof.
  destruct (node_queue_sound ex_n1 7 ex_n1_reachable) as [_ [[Hn _]|Hs]]; [|exact Hs].
  exfalso. vm_compute in Hn. discriminate Hn.
Defined.

Lemma externalized_values_stable_witness :
  get_externalized_values ex_n2 7 = Done (Some [20]) ∨ get_externalized_values ex_n2 7 = Done None.
Proof.
  apply (externalized_values_stable ex_n1 ex_n2 7 [20] ex_n1_reachable ex_node_step2); by vm_compute.
Defined.

Lemma node_index_advances_witness :
  current_slot_index ex_n1 = 8 ∧ ∃ x, get_externalized_values ex_n1 7 = Done (Some x).
Proof.
  destruct (node_index_advances ex_n0 ex_n1 ex_n0_reachable ex_node_step1) as [Hs|(Hi & _ & Hx)];
    [by vm_compute|exfalso; vm_compute in Hs; discriminate Hs|].
  assert (H7 : current_slot_index ex_n0 = 7) by (by vm_compute). rewrite H7 in Hi, Hx.
  split; [exact Hi|]. apply Hx. vm_compute. discriminate.
Defined.

(** A message for slot 9 changes nothing for a node at slot 7. *)
Lemma node_ignores_irrelevant_witness :
  node_handle_messages 2 0 [ex_node_externalize 9 1] ex_n0 = node_handle_messages 2 0 [] ex_n0.
Proof.
  apply (node_ignores_irrelevant_messages 2 0 [ex_node_externalize 9 1] [] ex_n0).
  assert (H7 : current_slot_index ex_n0 = 7) by (by vm_compute).
  assert (Hq : n_externalized_slots ex_n0 = []) by (by vm_compute).
  rewrite H7, Hq. intros i [->|Hi]; [by vm_compute|]. by apply not_elem_of_nil in Hi.
Defined.

(** The node nominated 10 and 20, is at ballot (1, [10]) and has confirmed both
    when peer 1 commits [10; 20]. *)
Definition ex_timeout_run : exec (unit * Node N N) :=
  let! (_, n) := node_propose_values 2 0 {[ 10; 20 ]} ex_n0 in
  let! (_, n) := node_handle_messages 2 0 [ex_node_accept {[ 10 ]}] n in
  let! (_, n) := node_handle_messages 2 0 [ex_node_accept {[ 10; 20 ]}] n in
  let! (_, n) := node_handle_messages 2 0 [ex_node_commit] n in
  Done (tt, n).
Definition ex_waiting : Node N N := node_of ex_timeout_run.

(** A slot that externalizes in a timeout is not recorded: the node sends
    the externalize message but, unlike when handling messages or proposals, does
    not move to the next slot; the values are not reported, and proposing values
    afterwards still does not advance the node, since the slot suppresses the
    repeated message. *)
Theorem timeout_externalize_not_recorded :
  ∃ m n', node_process_timeouts 2 3000 ex_waiting = Done ([m], n') ∧
    is_externalize m = true ∧ s_phase (n_current_slot n') = PhaseExternalize ∧
    current_slot_index n' = current_slot_index ex_waiting ∧
    get_externalized_values n' (current_slot_index ex_waiting) = Done None ∧
    ∃ n'', node_propose_values 2 3000 {[ 5 ]} n' = Done (None, n'') ∧
      current_slot_index n'' = current_slot_index ex_waiting.
Proof.
  eexists _, _. split; [by vm_compute|]. split_and!; [by vm_compute..|].
  eexists. split; by vm_compute.
Qed.
End NodeProps.
