(* ===== verification/Bytes.v ===== *)
(** * Byte strings and 64-bit integers

    Bytes, fixed 32-byte arrays, the big-endian encoding of integers used for
    database keys, ASCII literals, and the operations on [u64] of the standard
    library that the Merkle code uses (shifts, complement, leading zeros, next
    power of two). *)

From Stdlib Require Import Strings.Byte.
From stdpp Require Import vector strings.
From S2P Require Import Prelude Ord.

Open Scope N_scope.

(** ** Bytes *)

Notation byte := Byte.byte.
Notation bytes := (list byte).

#[export] Instance byte_eq_dec : EqDecision byte := Byte.byte_eq_dec.

#[export] Program Instance byte_countable : Countable byte :=
  inj_countable Byte.to_N Byte.of_N _.
Next Obligation. intros b. apply Byte.of_to_N. Qed.

(** Arrays of bytes as keys of maps and sets: a coding that computes. *)
Fixpoint list_array (n : nat) (l : bytes) : option (vec byte n) :=
  match n, l with
  | O, [] => Some [#]
  | S n, b :: l => vcons b <$> list_array n l
  | _, _ => None
  end.

#[export] Instance array_countable n : Countable (vec byte n).
Proof.
  refine (inj_countable vec_to_list (list_array n) _).
  intros v. induction v as [|b n v IH]; simpl; [done|]. by rewrite IH.
Defined.

(** The [u8] with the value [n], modulo 256. *)
Definition u8 (n : N) : byte := default x00 (Byte.of_N (n mod 256)).

Lemma to_N_u8 n : Byte.to_N (u8 n) = n mod 256.
Proof.
  unfold u8. pose proof (N.mod_lt n 256 ltac:(done)).
  destruct (Byte.of_N (n mod 256)) as [b|] eqn:E; simpl.
  - by apply Byte.to_of_N.
  - apply Byte.of_N_None_iff in E. lia.
Qed.

Lemma to_N_lt (b : byte) : Byte.to_N b < 256.
Proof. pose proof (Byte.to_N_bounded b). lia. Qed.

(** The bytes of an ASCII literal. *)
Definition str_bytes (s : string) : bytes := String.list_byte_of_string s.

(** ** Big-endian encoding *)

(** [to_be_bytes] of a [k]-byte integer. *)
Fixpoint be_bytes (k : nat) (x : N) : bytes :=
  match k with
  | O => []
  | S k => be_bytes k (x / 256) ++ [u8 x]
  end.

(** [from_be_bytes]. *)
Definition be_value (l : bytes) : N := foldl (λ acc b, acc * 256 + Byte.to_N b) 0 l.

Lemma length_be_bytes k x : length (be_bytes k x) = k.
Proof. revert x. induction k as [|k IH]; intros x; simpl; [done|]. rewrite length_app, IH. simpl. lia. Qed.

Lemma be_value_snoc l b : be_value (l ++ [b]) = be_value l * 256 + Byte.to_N b.
Proof. unfold be_value. by rewrite foldl_app. Qed.

Lemma be_value_bytes k x : x < 256 ^ N.of_nat k → be_value (be_bytes k x) = x.
Proof.
  revert x. induction k as [|k IH]; intros x Hx; simpl.
  - simpl in Hx. unfold be_value. simpl. lia.
  - rewrite be_value_snoc, to_N_u8, IH.
    + pose proof (N.Div0.div_mod x 256). lia.
    + apply N.Div0.div_lt_upper_bound. by rewrite Nat2N.inj_succ, N.pow_succ_r' in Hx.
Qed.

Lemma be_bytes_inj k x y :
  x < 256 ^ N.of_nat k → y < 256 ^ N.of_nat k → be_bytes k x = be_bytes k y → x = y.
Proof. intros Hx Hy E. by rewrite <-(be_value_bytes k x), <-(be_value_bytes k y), E. Qed.

(** ** Fixed arrays *)

(** [[u8; 32]]. *)
Notation bytes32 := (vec byte 32).

(** [slice.try_into] a [[u8; 32]]: the slice must have 32 bytes. *)
Definition to_bytes32 (l : bytes) : option bytes32 :=
  match decide (length l = 32%nat) with
  | left E => Some (eq_rect (length l) (vec byte) (list_to_vec l) 32%nat E)
  | right _ => None
  end.

Lemma to_bytes32_vec (v : bytes32) : to_bytes32 (vec_to_list v) = Some v.
Proof.
  unfold to_bytes32. destruct (decide _) as [E|n].
  - f_equal. apply vec_to_list_inj2. revert E.
    generalize (list_to_vec (vec_to_list v)), (vec_to_list_to_vec (vec_to_list v)).
    intros w Hw E. destruct E. simpl. done.
  - exfalso. apply n. apply length_vec_to_list.
Qed.

(** ** Operations on [u64] *)

(** [1u64 << d], the shift taken modulo the width as in a release build. *)
Definition u64_shl (x d : N) : N := N.shiftl x (d mod 64) mod u64_modulus.

(** [!x]. *)
Definition u64_not (x : N) : N := N.lnot x 64.

(** [leading_zeros]. *)
Definition u64_leading_zeros (x : N) : N := 64 - N.size x.

(** [checked_next_power_of_two]: the smallest power of two that is at least
    [n], unless it exceeds the width. *)
Definition checked_next_power_of_two (n : N) : option N :=
  let p := 2 ^ N.log2_up n in
  if p <? u64_modulus then Some p else None.

Lemma u64_modulus_pow : u64_modulus = 2 ^ 64.
Proof. done. Qed.

Lemma log2_up_le_63 n : n <= 2 ^ 63 → N.log2_up n <= 63.
Proof. intros Hn. apply N.log2_up_le_mono in Hn. by rewrite N.log2_up_pow2 in Hn. Qed.

Lemma log2_up_bound n : n <= 2 ^ N.log2_up n.
Proof.
  destruct (decide (n <= 1)) as [Hle|Hgt].
  - rewrite N.log2_up_eqn0 by done. simpl. lia.
  - apply N.log2_up_spec. lia.
Qed.

Lemma log2_up_tight n : 1 < n → 2 ^ N.pred (N.log2_up n) < n.
Proof. intros. by apply N.log2_up_spec. Qed.

Lemma next_power_of_two_small n :
  n <= 2 ^ 63 → checked_next_power_of_two n = Some (2 ^ N.log2_up n).
Proof.
  intros Hn. unfold checked_next_power_of_two.
  rewrite (proj2 (N.ltb_lt _ _)); [done|]. rewrite u64_modulus_pow.
  apply N.pow_lt_mono_r; [lia|]. pose proof (log2_up_le_63 n Hn). lia.
Qed.

Lemma next_power_of_two_large n : 2 ^ 63 < n → checked_next_power_of_two n = None.
Proof.
  intros Hn. unfold checked_next_power_of_two.
  rewrite (proj2 (N.ltb_ge _ _)); [done|]. rewrite u64_modulus_pow.
  apply N.pow_le_mono_r; [lia|].
  destruct (decide (64 <= N.log2_up n)); [done|exfalso].
  pose proof (log2_up_bound n). 
  assert (2 ^ N.log2_up n <= 2 ^ 63) by (apply N.pow_le_mono_r; lia). lia.
Qed.

Lemma size_pow2 k : N.size (2 ^ k) = k + 1.
Proof.
  rewrite N.size_log2 by (apply N.pow_nonzero; lia). rewrite N.log2_pow2 by lia. lia.
Qed.

Lemma u64_sub_small a b : b <= a → a < u64_modulus → u64_sub a b = a - b.
Proof.
  unfold u64_sub, u64_modulus. intros Hle Hlt. rewrite (N.mod_small b) by lia.
  replace (a + (18446744073709551616 - b)) with ((a - b) + 1 * 18446744073709551616) by lia.
  rewrite N.Div0.mod_add. apply N.mod_small. lia.
Qed.

(** ** Little-endian encoding *)

(** [to_le_bytes] and [from_le_bytes]. *)
Definition le_bytes (k : nat) (x : N) : bytes := rev (be_bytes k x).
Definition le_value (l : bytes) : N := be_value (rev l).

Lemma le_value_bytes k x : x < 256 ^ N.of_nat k → le_value (le_bytes k x) = x.
Proof. intros. unfold le_value, le_bytes. rewrite rev_involutive. by apply be_value_bytes. Qed.

Lemma length_le_bytes k x : length (le_bytes k x) = k.
Proof. unfold le_bytes. by rewrite length_rev, length_be_bytes. Qed.

Lemma be_value_lt l : be_value l < 256 ^ N.of_nat (length l).
Proof.
  induction l as [|b l IH] using rev_ind; [done|]. rewrite be_value_snoc, length_app. simpl.
  rewrite Nat.add_1_r, Nat2N.inj_succ, N.pow_succ_r'. pose proof (to_N_lt b). lia.
Qed.

Lemma le_value_lt l : le_value l < 256 ^ N.of_nat (length l).
Proof. unfold le_value. rewrite <-length_rev. apply be_value_lt. Qed.

(** Masking with exclusive or. *)
Lemma xor_unmask a m : N.lxor (N.lxor a m) m = a.
Proof. by rewrite N.lxor_assoc, N.lxor_nilpotent, N.lxor_0_r. Qed.

Lemma lxor_lt a b k : a < 2 ^ k → b < 2 ^ k → N.lxor a b < 2 ^ k.
Proof.
  intros Ha Hb. destruct (N.eq_dec k 0) as [->|Hk].
  { assert (a = 0) as -> by (simpl in Ha; lia). by assert (b = 0) as -> by (simpl in Hb; lia). }
  assert (∀ x, x < 2 ^ k → N.log2 x < k) as Hlog.
  { intros x Hx. destruct (N.eq_dec x 0) as [->|]; [simpl; lia|]. apply N.log2_lt_pow2; lia. }
  destruct (N.eq_dec (N.lxor a b) 0) as [->|Hne]; [apply N.neq_0_lt_0, N.pow_nonzero; lia|].
  apply N.log2_lt_pow2; [lia|]. eapply N.le_lt_trans; [apply N.log2_lxor|].
  apply N.max_lub_lt; auto.
Qed.
