(* ===== verification/Lmdb.v ===== *)
(** * The key-value store under the ledger

    The ledger keeps its data in LMDB databases and accesses them in a
    read-write transaction.  LMDB is third-party code: here it is an interface,
    the class [Transaction], with the documented behaviour the ledger relies
    on, the class [TransactionLaws].  [map_transaction] is an implementation by
    a finite map, which satisfies the laws.

    The code of the ledger threads the transaction through calls that may
    return an error (the writes done so far stay in the transaction, which the
    caller drops) or panic: the monad [dbm]. *)

From stdpp Require Import vector strings.
From S2P Require Import Prelude Ord Bytes.

Open Scope N_scope.

(** ** Errors *)

(** [lmdb::Error], as far as the ledger distinguishes its cases. *)
Inductive lmdb_error :=
| LmdbKeyExist
| LmdbNotFound
| LmdbBadRslot
| LmdbOther (code : N).

(** [MetadataStoreError]. *)
Inductive MetadataStoreError :=
| MetadataLmdb (e : lmdb_error)
| MetadataVersionIncompatible (found expected : N)
| MetadataSerialization
| MetadataDeserialization.

(** [mc_ledger_db::Error]. *)
Inductive Error :=
| NotFound
| Serialization
| Deserialization
| NoTransactions
| InvalidBlockVersion (version : N)
| NoKeyImages
| InvalidBlockIndex (index : N)
| KeyImageAlreadySpent
| DuplicateOutputPublicKey
| InvalidBlockContents
| InvalidBlockID (id : bytes32)
| InvalidParentBlockID (id : bytes32)
| NoOutputs
| TooFewOutputs
| BadRslot
| CapacityExceeded
| TxOutIndexOutOfBounds (index : N)
| Lmdb (e : lmdb_error)
| RangeErr
| MetadataStore (e : MetadataStoreError)
| InvalidMintConfig (message : string)
| MintLimitExceeded (attempted minted limit : N)
| TotalMintedAmountCannotDecrease (new old : N)
| DuplicateMintTx
| DuplicateMintConfigTx
| BlockMetadataRequired
| MissingMaskedAmount.

(** [From<lmdb::Error> for Error]. *)
Definition Error_from_lmdb (e : lmdb_error) : Error :=
  match e with
  | LmdbNotFound => NotFound
  | LmdbBadRslot => BadRslot
  | err => Lmdb err
  end.

(** ** Transactions *)

(** A database handle ([MDB_dbi], an unsigned integer). *)
Notation Database := N (only parsing).

Inductive WriteFlags := FlagsEmpty | NO_OVERWRITE.

Class Transaction (T : Type) : Type := {
  db_get : T → Database → bytes → result bytes lmdb_error;
  db_put : T → Database → bytes → bytes → WriteFlags → result unit lmdb_error * T
}.

(** Keys have between 1 and 511 bytes. *)
Definition valid_key (k : bytes) : Prop := (0 < length k ∧ length k <= 511)%nat.

(** The documented behaviour: a write is seen by later reads of its key and
    only by them, and [NO_OVERWRITE] refuses to replace an entry. *)
Class TransactionLaws (T : Type) `{Transaction T} : Prop := {
  get_put_same t d k v f t' : db_put t d k v f = (Ok tt, t') → db_get t' d k = Ok v;
  get_put_other t d k v f t' d' k' :
    db_put t d k v f = (Ok tt, t') → (d', k') ≠ (d, k) → db_get t' d' k' = db_get t d' k';
  put_no_overwrite t d k v w :
    db_get t d k = Ok w → db_put t d k v NO_OVERWRITE = (Err LmdbKeyExist, t)
}.

(** There is room for every write: none fails but for [NO_OVERWRITE]. *)
Class TransactionRoom (T : Type) `{Transaction T} : Prop :=
  put_room t d k v f :
    valid_key k → f = FlagsEmpty ∨ db_get t d k = Err LmdbNotFound →
    ∃ t', db_put t d k v f = (Ok tt, t').

(** ** An implementation *)

Notation map_txn := (gmap (N * bytes) bytes).

#[export] Instance map_transaction : Transaction map_txn := {|
  db_get t d k := match t !! (d, k) with Some v => Ok v | None => Err LmdbNotFound end;
  db_put t d k v f :=
    match f, t !! (d, k) with
    | NO_OVERWRITE, Some _ => (Err LmdbKeyExist, t)
    | _, _ => (Ok tt, <[ (d, k) := v ]> t)
    end
|}.

#[export] Instance map_transaction_laws : TransactionLaws map_txn.
Proof.
  split; simpl.
  - intros t d k v f t' E.
    assert (t' = <[ (d, k) := v ]> t) as ->
      by (destruct f, (t !! (d, k)); congruence).
    by rewrite lookup_insert_eq.
  - intros t d k v f t' d' k' E Hne.
    assert (t' = <[ (d, k) := v ]> t) as ->
      by (destruct f, (t !! (d, k)); congruence).
    by rewrite lookup_insert_ne by congruence.
  - intros t d k v w E. destruct (t !! (d, k)); congruence.
Qed.

#[export] Instance map_transaction_room : TransactionRoom map_txn.
Proof.
  intros t d k v f _ [->|E]; simpl in *; [by eexists|].
  destruct f, (t !! (d, k)); naive_solver.
Qed.

(** ** Computations in a transaction *)

Definition dbm (T A : Type) : Type := T → exec (result A Error * T).

Section dbm.
Context {T : Type} `{Transaction T}.

Definition dret {A} (a : A) : dbm T A := λ t, Done (Ok a, t).
Definition dfail {A} (e : Error) : dbm T A := λ t, Done (Err e, t).
Definition dbind {A B} (m : dbm T A) (k : A → dbm T B) : dbm T B := λ t,
  match m t with
  | Done (Ok a, t) => k a t
  | Done (Err e, t) => Done (Err e, t)
  | Panic => Panic
  | NoFuel => NoFuel
  end.

(** Pure code that may panic, or return an error. *)
Definition dexec {A} (e : exec A) : dbm T A := λ t,
  match e with Done a => Done (Ok a, t) | Panic => Panic | NoFuel => NoFuel end.
Definition dresult {A} (r : result A Error) : dbm T A := λ t, Done (r, t).

(** [db_transaction.get(...)?] and [db_transaction.put(...)?]. *)
Definition get (d : Database) (k : bytes) : dbm T bytes := λ t,
  Done (match db_get t d k with Ok v => Ok v | Err e => Err (Error_from_lmdb e) end, t).
Definition put (d : Database) (k v : bytes) (f : WriteFlags) : dbm T unit := λ t,
  let (r, t) := db_put t d k v f in
  Done (match r with Ok _ => Ok tt | Err e => Err (Error_from_lmdb e) end, t).

(** A [for] loop whose body may return early with [?]. *)
Fixpoint dfor {A} (f : A → dbm T unit) (l : list A) : dbm T unit :=
  match l with
  | [] => dret tt
  | x :: l => dbind (f x) (λ _, dfor f l)
  end.

(** A [for] loop that pushes onto a vector. *)
Fixpoint dmap {A B} (f : A → dbm T B) (l : list A) : dbm T (list B) :=
  match l with
  | [] => dret []
  | x :: l => dbind (f x) (λ y, dbind (dmap f l) (λ ys, dret (y :: ys)))
  end.

Lemma dbind_Done {A B} (m : dbm T A) (k : A → dbm T B) t a t' :
  m t = Done (Ok a, t') → dbind m k t = k a t'.
Proof. unfold dbind. by intros ->. Qed.

Lemma dbind_Err {A B} (m : dbm T A) (k : A → dbm T B) t e t' :
  m t = Done (Err e, t') → dbind m k t = Done (Err e, t').
Proof. unfold dbind. by intros ->. Qed.

Lemma get_Ok d k t v : db_get t d k = Ok v → get d k t = Done (Ok v, t).
Proof. unfold get. by intros ->. Qed.

Lemma put_Ok d k v f t t' : db_put t d k v f = (Ok tt, t') → put d k v f t = Done (Ok tt, t').
Proof. unfold put. by intros ->. Qed.

Lemma dmap_Done {A B} (f : A → dbm T B) l ys t :
  Forall2 (λ x y, f x t = Done (Ok y, t)) l ys → dmap f l t = Done (Ok ys, t).
Proof.
  induction 1 as [|x y l ys Hx _ IH]; [done|]. simpl.
  rewrite (dbind_Done _ _ _ _ _ Hx), (dbind_Done _ _ _ _ _ IH). done.
Qed.
End dbm.

Notation "'let@' x := e 'in' k" := (dbind e (λ x, k))
  (at level 10, x pattern, e at level 200, k at level 200) : rust_scope.

(** Run the first step of a computation, given what it returns. *)
Ltac dstep H := rewrite (dbind_Done _ _ _ _ _ H); cbv beta.
