(* ===== verification/TxOut.v ===== *)
(** * Transaction outputs

    The data of a transaction output ([transaction/core/src/tx.rs] and
    [transaction/types/src/masked_amount]) and the two digests the ledger code
    computes: the Merlin digest of an output and BLAKE2b.  Both come from
    third-party crates and are parameters, the class [Digests]. *)

From stdpp Require Import vector.
From S2P Require Import Prelude Ord Bytes.

Open Scope N_scope.

(** Points and keys are kept compressed, as 32 bytes. *)
Notation CompressedRistrettoPublic := bytes32.
Notation CompressedCommitment := bytes32.

(** Compressed keys are ordered as byte strings. *)
#[export] Instance byte_ord : Ord byte := λ a b, N.compare (Byte.to_N a) (Byte.to_N b).
#[export] Instance bytes32_ord : Ord bytes32 := λ a b, cmp (vec_to_list a) (vec_to_list b).

#[export] Instance byte_total_ord : TotalOrd byte.
Proof.
  split; unfold cmp, byte_ord.
  - intros a b. rewrite N.compare_eq_iff. split; [|by intros ->].
    intros E. apply (inj Some). by rewrite <-(Byte.of_to_N a), <-(Byte.of_to_N b), E.
  - intros a b. apply N.compare_antisym.
  - intros a b c. rewrite !N.compare_lt_iff. lia.
Qed.

#[export] Instance bytes32_total_ord : TotalOrd bytes32.
Proof.
  split; unfold cmp, bytes32_ord.
  - intros a b. rewrite cmp_eq_iff. split; [apply vec_to_list_inj2|by intros ->].
  - intros a b. apply cmp_opp.
  - intros a b c. apply cmp_lt_trans.
Qed.

Record MaskedAmountV1 := mkMaskedAmountV1 {
  v1_commitment : CompressedCommitment;
  v1_masked_value : N;
  v1_masked_token_id : bytes
}.

Record MaskedAmountV2 := mkMaskedAmountV2 {
  v2_commitment : CompressedCommitment;
  v2_masked_value : N;
  v2_masked_token_id : bytes
}.

Inductive MaskedAmount :=
| V1 (a : MaskedAmountV1)
| V2 (a : MaskedAmountV2).

#[export] Instance MaskedAmountV1_eq_dec : EqDecision MaskedAmountV1.
Proof. solve_decision. Defined.
#[export] Instance MaskedAmountV2_eq_dec : EqDecision MaskedAmountV2.
Proof. solve_decision. Defined.
#[export] Instance MaskedAmount_eq_dec : EqDecision MaskedAmount.
Proof. solve_decision. Defined.

(** [MaskedAmount::masked_token_id]. *)
Definition masked_token_id (a : MaskedAmount) : bytes :=
  match a with V1 a => v1_masked_token_id a | V2 a => v2_masked_token_id a end.

(** [MaskedAmount::commitment]. *)
Definition commitment (a : MaskedAmount) : CompressedCommitment :=
  match a with V1 a => v1_commitment a | V2 a => v2_commitment a end.

(** [TxOut].  The encrypted fog hint and memo are byte arrays. *)
Record TxOut := mkTxOut {
  masked_amount : option MaskedAmount;
  target_key : CompressedRistrettoPublic;
  public_key : CompressedRistrettoPublic;
  e_fog_hint : bytes;
  e_memo : option bytes
}.

#[export] Instance TxOut_eq_dec : EqDecision TxOut.
Proof. solve_decision. Defined.

#[export] Instance MaskedAmountV1_countable : Countable MaskedAmountV1.
Proof.
  refine (inj_countable' (λ a, (v1_commitment a, v1_masked_value a, v1_masked_token_id a))
    (λ x, mkMaskedAmountV1 x.1.1 x.1.2 x.2) _). by intros [].
Defined.
#[export] Instance MaskedAmountV2_countable : Countable MaskedAmountV2.
Proof.
  refine (inj_countable' (λ a, (v2_commitment a, v2_masked_value a, v2_masked_token_id a))
    (λ x, mkMaskedAmountV2 x.1.1 x.1.2 x.2) _). by intros [].
Defined.
#[export] Instance MaskedAmount_countable : Countable MaskedAmount.
Proof.
  refine (inj_countable' (λ a, match a with V1 a => inl a | V2 a => inr a end)
    (λ x, match x with inl a => V1 a | inr a => V2 a end) _). by intros [].
Defined.
#[export] Instance TxOut_countable : Countable TxOut.
Proof.
  refine (inj_countable'
    (λ o, (masked_amount o, target_key o, public_key o, e_fog_hint o, e_memo o))
    (λ x, mkTxOut x.1.1.1.1 x.1.1.1.2 x.1.1.2 x.1.2 x.2) _). by intros [].
Defined.

Inductive TxOutConversionError := UnknownMaskedAmountVersion.

(** [TxOut::get_masked_amount]. *)
Definition get_masked_amount (o : TxOut) : result MaskedAmount TxOutConversionError :=
  match masked_amount o with
  | Some a => Ok a
  | None => Err UnknownMaskedAmountVersion
  end.

(** [TxOut::eq_ignoring_amount]. *)
Definition eq_ignoring_amount (this other : TxOut) : bool :=
  let clear o := mkTxOut None (target_key o) (public_key o) (e_fog_hint o) (e_memo o) in
  bool_decide (clear this = clear other).

(** ** Digests *)

Class Digests : Type := {
  (** [Blake2b256] of the concatenation of the updates. *)
  blake2b256 : bytes → bytes32;
  (** [TxOut::hash], the Merlin digest of an output. *)
  tx_out_hash : TxOut → bytes32
}.
