(* ===== verification/Membership.v ===== *)
(** * Merkle proofs of membership

    [transaction/core/src/membership_proofs]: ranges of leaf indices, the
    hashes of the nodes of the tree, and the verification of proofs of
    membership.  The module [MembershipProps] proves that a proof accepted for
    a root hash is a proof for that tree: the output is one of its leaves,
    unless two different strings hashed by the verifier and by the owner of
    the tree collide. *)

From stdpp Require Import vector strings.
From S2P Require Import Prelude Ord Bytes TxOut.

Open Scope N_scope.

(** ** Ranges *)

(** [Range]: the indices from [from] to [to], both included. *)
Record Range := mkRange { range_from : N; range_to : N }.

#[export] Instance Range_eq_dec : EqDecision Range.
Proof. solve_decision. Defined.

Inductive RangeError := mkRangeError.

(** [Range::new]. *)
Definition Range_new (from to : N) : result Range RangeError :=
  if from <=? to then Ok (mkRange from to) else Err mkRangeError.

(** [Range::len]. *)
Definition range_len (r : Range) : N :=
  if range_from r <=? range_to r
  then u64_add (u64_sub (range_to r) (range_from r)) 1
  else u64_add (u64_sub (range_from r) (range_to r)) 1.

(** Ranges are ordered by length, then by their ends. *)
#[export] Instance Range_ord : Ord Range := λ a b,
  if negb (range_len a =? range_len b) then cmp (range_len a) (range_len b)
  else cmp (range_from a, range_to a) (range_from b, range_to b).

(** ** Proofs *)

(** [TxOutMembershipElement]; the hash wraps a [[u8; 32]]. *)
Record TxOutMembershipElement := mkElement { el_range : Range; el_hash : bytes32 }.

(** [TxOutMembershipProof]. *)
Record TxOutMembershipProof := mkProof {
  proof_index : N;
  highest_index : N;
  proof_elements : list TxOutMembershipElement
}.

#[export] Instance TxOutMembershipElement_eq_dec : EqDecision TxOutMembershipElement.
Proof. solve_decision. Defined.

#[export] Instance TxOutMembershipProof_eq_dec : EqDecision TxOutMembershipProof.
Proof. solve_decision. Defined.

(** [membership_proofs::Error]. *)
Inductive MembershipProofError :=
| IncorrectLeafHash (index : N)
| MissingLeafHash (index : N)
| MembershipRangeError (e : RangeError)
| UnexpectedMembershipElement (position : N)
| HighestIndexMismatch
| RootNotCoveringZero
| TxOutSerializationError
| NumericLimitsExceeded.

Inductive RangesNotAdjacentError := mkRangesNotAdjacentError.

Section membership.
Context `{D : Digests}.

(** ** Hashes of the nodes *)

Definition TXOUT_MERKLE_LEAF_DOMAIN_TAG : bytes := str_bytes "mc_tx_out_merkle_leaf".
Definition TXOUT_MERKLE_NODE_DOMAIN_TAG : bytes := str_bytes "mc_tx_out_merkle_node".
Definition TXOUT_MERKLE_NIL_DOMAIN_TAG : bytes := str_bytes "mc_tx_out_merkle_nil".

(** What is hashed for a leaf and for an internal node. *)
Definition leaf_input (tx_out : TxOut) : bytes :=
  TXOUT_MERKLE_LEAF_DOMAIN_TAG ++ vec_to_list (tx_out_hash tx_out).
Definition node_input (left right : bytes32) : bytes :=
  TXOUT_MERKLE_NODE_DOMAIN_TAG ++ vec_to_list left ++ vec_to_list right.

Definition hash_leaf (tx_out : TxOut) : bytes32 := blake2b256 (leaf_input tx_out).
Definition hash_nodes (left right : bytes32) : bytes32 := blake2b256 (node_input left right).
Definition hash_nil : bytes32 := blake2b256 TXOUT_MERKLE_NIL_DOMAIN_TAG.
Definition NIL_HASH : bytes32 := hash_nil.

(** ** Verification *)

(** [conditional_assign_32_bytes]: byte by byte. *)
Definition conditional_assign_32_bytes (target src : bytes32) (cond : bool) : bytes32 :=
  vzip_with (λ t s, if cond then s else t) target src.

(** [compose_adjacent_membership_elements]. *)
Definition compose_adjacent_membership_elements (a b : TxOutMembershipElement) :
    result TxOutMembershipElement RangesNotAdjacentError :=
  let a_is_left := u64_add (range_to (el_range a)) 1 =? range_from (el_range b) in
  let b_is_left := u64_add (range_to (el_range b)) 1 =? range_from (el_range a) in
  if negb (xorb a_is_left b_is_left) then Err mkRangesNotAdjacentError
  else
    let from := if b_is_left then range_from (el_range b) else range_from (el_range a) in
    let to := if b_is_left then range_to (el_range a) else range_to (el_range b) in
    let left := conditional_assign_32_bytes (el_hash a) (el_hash b) b_is_left in
    let right := conditional_assign_32_bytes (el_hash b) (el_hash a) b_is_left in
    Ok (mkElement (mkRange from to) (hash_nodes left right)).

(** The [try_fold] over the elements after the first; [idx] is the position
    reported in the error. *)
Fixpoint fold_elements (prev : TxOutMembershipElement) (idx : N)
    (rest : list TxOutMembershipElement) : result TxOutMembershipElement MembershipProofError :=
  match rest with
  | [] => Ok prev
  | next :: rest =>
      match compose_adjacent_membership_elements prev next with
      | Ok e => fold_elements e (idx + 1) rest
      | Err _ => Err (UnexpectedMembershipElement (idx + 1))
      end
  end.

Definition bad_range (e : TxOutMembershipElement) : bool :=
  range_to (el_range e) <? range_from (el_range e).

Definition is_leaf_of (i : N) (e : TxOutMembershipElement) : bool :=
  (range_from (el_range e) =? i) && (range_to (el_range e) =? i).

(** [compute_implied_merkle_root]. *)
Definition compute_implied_merkle_root (proof : TxOutMembershipProof) :
    result TxOutMembershipElement MembershipProofError :=
  if existsb bad_range (proof_elements proof) then Err (MembershipRangeError mkRangeError)
  else
    match proof_elements proof with
    | [] => Err (MissingLeafHash (proof_index proof))
    | first :: rest =>
        if negb (is_leaf_of (proof_index proof) first) then Err (MissingLeafHash (proof_index proof))
        else fold_elements first 0 rest
    end.

(** [is_membership_proof_valid]. *)
Definition is_membership_proof_valid (tx_out : TxOut) (proof : TxOutMembershipProof)
    (known_root_hash : bytes32) : result bool MembershipProofError :=
  if highest_index proof <? proof_index proof then Err HighestIndexMismatch
  else
    match proof_elements proof with
    | [] => Err (MissingLeafHash (proof_index proof))
    | first :: _ =>
        if negb (is_leaf_of (proof_index proof) first) then Err (MissingLeafHash (proof_index proof))
        else if negb (bool_decide (el_hash first = hash_leaf tx_out))
        then Err (IncorrectLeafHash (range_from (el_range first)))
        else
          let? implied_root := compute_implied_merkle_root proof in
          if negb (range_from (el_range implied_root) =? 0) then Err RootNotCoveringZero
          else if range_to (el_range implied_root) <? highest_index proof
          then Err HighestIndexMismatch
          else Ok (bool_decide (el_hash implied_root = known_root_hash))
    end.

(** ** Rolling a proof back *)

(** The loop of [derive_proof_at_index] over the elements. *)
Fixpoint derive_elements (idx : N) (derived_root_range : Range) (position : N)
    (els : list TxOutMembershipElement) :
    result (list TxOutMembershipElement) MembershipProofError :=
  match els with
  | [] => Ok []
  | element :: els =>
      let r := el_range element in
      if ord_gtb r derived_root_range then derive_elements idx derived_root_range (position + 1) els
      else
        let? hash :=
          (if idx <? range_from r then Ok hash_nil
           else if range_from r =? range_to r then Ok (el_hash element)
           else if range_to r <=? idx then Ok (el_hash element)
           else Err (UnexpectedMembershipElement position)) in
        let? derived := derive_elements idx derived_root_range (position + 1) els in
        Ok (mkElement r hash :: derived)
  end.

(** [derive_proof_at_index]. *)
Definition derive_proof_at_index (initial_proof : TxOutMembershipProof) :
    result TxOutMembershipProof MembershipProofError :=
  let idx := proof_index initial_proof in
  match checked_next_power_of_two (u64_add idx 1) with
  | None => Err NumericLimitsExceeded
  | Some num_leaves_full_tree =>
      match Range_new 0 (num_leaves_full_tree - 1) with
      | Err e => Err (MembershipRangeError e)
      | Ok derived_root_range =>
          let? derived := derive_elements idx derived_root_range 0 (proof_elements initial_proof) in
          Ok (mkProof idx idx derived)
      end
  end.
End membership.

(** ** The tree *)

(** The Merkle hash of the subtree of depth [d] whose first leaf is [lo], in
    the tree of the outputs [txs]: empty subtrees hash to [NIL_HASH] whatever
    their depth. *)
Fixpoint merkle `{D : Digests} (txs : list TxOut) (d : nat) (lo : N) : bytes32 :=
  if len txs <=? lo then NIL_HASH
  else match d with
       | O => match txs !! N.to_nat lo with Some t => hash_leaf t | None => NIL_HASH end
       | S d => hash_nodes (merkle txs d lo) (merkle txs d (lo + 2 ^ N.of_nat d))
       end.

(** The depth of the smallest full tree with room for [n] leaves. *)
Definition tree_depth (n : N) : nat := N.to_nat (N.log2_up n).

Definition merkle_root `{D : Digests} (txs : list TxOut) : bytes32 :=
  merkle txs (tree_depth (len txs)) 0.

(** The strings hashed for a subtree. *)
Fixpoint tree_inputs `{D : Digests} (txs : list TxOut) (d : nat) (lo : N) : list bytes :=
  if len txs <=? lo then [TXOUT_MERKLE_NIL_DOMAIN_TAG]
  else match d with
       | O => match txs !! N.to_nat lo with
              | Some t => [leaf_input t]
              | None => [TXOUT_MERKLE_NIL_DOMAIN_TAG]
              end
       | S d => node_input (merkle txs d lo) (merkle txs d (lo + 2 ^ N.of_nat d))
                :: tree_inputs txs d lo ++ tree_inputs txs d (lo + 2 ^ N.of_nat d)
       end.

(** The strings hashed by the verifier of a proof. *)
Fixpoint fold_inputs `{D : Digests} (prev : TxOutMembershipElement)
    (rest : list TxOutMembershipElement) : list bytes :=
  match rest with
  | [] => []
  | next :: rest =>
      match compose_adjacent_membership_elements prev next with
      | Ok e =>
          let b_is_left := u64_add (range_to (el_range next)) 1 =? range_from (el_range prev) in
          (if b_is_left then node_input (el_hash next) (el_hash prev)
           else node_input (el_hash prev) (el_hash next)) :: fold_inputs e rest
      | Err _ => []
      end
  end.

Definition verifier_inputs `{D : Digests} (tx_out : TxOut) (proof : TxOutMembershipProof) :
    list bytes :=
  leaf_input tx_out ::
  match proof_elements proof with [] => [] | first :: rest => fold_inputs first rest end.

(** Two different strings of the lists with the same digest. *)
Definition collision `{D : Digests} (xs ys : list bytes) : Prop :=
  ∃ x y, x ∈ xs ∧ y ∈ ys ∧ x ≠ y ∧ blake2b256 x = blake2b256 y.

Section tree.
Context `{D : Digests}.
Implicit Types (txs : list TxOut) (d : nat) (lo : N) (e prev : TxOutMembershipElement).

Lemma conditional_assign_spec (target src : bytes32) cond :
  conditional_assign_32_bytes target src cond = if cond then src else target.
Proof.
  apply vec_eq. intros i. unfold conditional_assign_32_bytes.
  rewrite vlookup_zip_with. by destruct cond.
Qed.

Lemma node_input_inj l r l' r' : node_input l r = node_input l' r' → l = l' ∧ r = r'.
Proof.
  unfold node_input. intros E%app_inv_head. apply app_inj_1 in E as [El Er].
  - split; by apply vec_to_list_inj2.
  - by rewrite !length_vec_to_list.
Qed.

Lemma leaf_input_inj t t' : leaf_input t = leaf_input t' → tx_out_hash t = tx_out_hash t'.
Proof. unfold leaf_input. intros E%app_inv_head. by apply vec_to_list_inj2. Qed.

(** The domain tags separate the three kinds of nodes. *)
Lemma node_input_ne_leaf l r t : node_input l r ≠ leaf_input t.
Proof.
  intros E%(f_equal (lookup 17%nat)). unfold node_input, leaf_input in E.
  rewrite !lookup_app_l in E by (vm_compute; lia). by vm_compute in E.
Qed.

Lemma node_input_ne_nil l r : node_input l r ≠ TXOUT_MERKLE_NIL_DOMAIN_TAG.
Proof.
  intros E%(f_equal length). unfold node_input in E.
  rewrite !length_app, !length_vec_to_list in E. by vm_compute in E.
Qed.

Lemma leaf_input_ne_nil t : leaf_input t ≠ TXOUT_MERKLE_NIL_DOMAIN_TAG.
Proof.
  intros E%(f_equal length). unfold leaf_input in E.
  rewrite !length_app, !length_vec_to_list in E. by vm_compute in E.
Qed.

(** The hash of a subtree is the digest of one of three kinds of strings. *)
Lemma merkle_cases txs d lo :
  (merkle txs d lo = blake2b256 TXOUT_MERKLE_NIL_DOMAIN_TAG ∧
     TXOUT_MERKLE_NIL_DOMAIN_TAG ∈ tree_inputs txs d lo) ∨
  (∃ t, d = O ∧ txs !! N.to_nat lo = Some t ∧ merkle txs d lo = blake2b256 (leaf_input t) ∧
     leaf_input t ∈ tree_inputs txs d lo) ∨
  (∃ d', d = S d' ∧
     let y := node_input (merkle txs d' lo) (merkle txs d' (lo + 2 ^ N.of_nat d')) in
     merkle txs d lo = blake2b256 y ∧ y ∈ tree_inputs txs d lo ∧
     tree_inputs txs d' lo ⊆ tree_inputs txs d lo ∧
     tree_inputs txs d' (lo + 2 ^ N.of_nat d') ⊆ tree_inputs txs d lo).
Proof.
  destruct d as [|d]; simpl; destruct (len txs <=? lo).
  - left. split; [done|]. by apply list_elem_of_singleton.
  - destruct (txs !! N.to_nat lo) as [t|] eqn:Et.
    + right; left. exists t. by rewrite list_elem_of_singleton.
    + left. split; [done|]. by apply list_elem_of_singleton.
  - left. split; [done|]. by apply list_elem_of_singleton.
  - right; right. exists d. split_and!; [done|done|by left|..]; intros x Hx; right;
      apply elem_of_app; auto.
Qed.

Lemma collision_mono xs xs' ys ys' : xs ⊆ xs' → ys ⊆ ys' → collision xs ys → collision xs' ys'.
Proof. intros Hx Hy (x & y & ? & ? & ? & ?). exists x, y. auto. Qed.

Lemma compose_Ok a b e :
  compose_adjacent_membership_elements a b = Ok e →
  let b_is_left := u64_add (range_to (el_range b)) 1 =? range_from (el_range a) in
  el_hash e = if b_is_left then hash_nodes (el_hash b) (el_hash a)
              else hash_nodes (el_hash a) (el_hash b).
Proof.
  unfold compose_adjacent_membership_elements. destruct (negb _); [done|].
  intros [= <-]. simpl. rewrite !conditional_assign_spec. by destruct (_ =? _).
Qed.

(** If the elements fold to the hash of a subtree, then the first one is the
    hash of a subtree of it. *)
Lemma fold_descends txs rest : ∀ prev idx e d lo,
  fold_elements prev idx rest = Ok e → el_hash e = merkle txs d lo →
  (∃ d' lo', el_hash prev = merkle txs d' lo' ∧ tree_inputs txs d' lo' ⊆ tree_inputs txs d lo) ∨
  collision (fold_inputs prev rest) (tree_inputs txs d lo).
Proof.
  induction rest as [|next rest IH]; intros prev idx e d lo; simpl.
  { intros [= <-] He. left. by exists d, lo. }
  destruct (compose_adjacent_membership_elements prev next) as [e1|] eqn:Ec; [|done].
  intros Hf He. destruct (IH e1 _ e d lo Hf He) as [(d1 & lo1 & He1 & Hsub)|Hcol].
  2:{ right. eapply collision_mono; [|done|done]. intros x Hx. by right. }
  apply compose_Ok in Ec as Hh. simpl in Hh. rewrite He1 in Hh.
  set (x := if _ =? _ then node_input (el_hash next) (el_hash prev)
            else node_input (el_hash prev) (el_hash next)).
  assert (merkle txs d1 lo1 = blake2b256 x) as Hx by (subst x; rewrite Hh; by destruct (_ =? _)).
  assert (∃ l r, x = node_input l r ∧ (el_hash prev = l ∨ el_hash prev = r)) as (l & r & Exn & Hp).
  { subst x. destruct (_ =? _); do 2 eexists; auto. }
  assert (∀ y, merkle txs d1 lo1 = blake2b256 y → y ∈ tree_inputs txs d1 lo1 → x ≠ y →
    collision (x :: fold_inputs e1 rest) (tree_inputs txs d lo)) as Hcol.
  { intros y Hy Hin Hne. exists x, y. rewrite <-Hx, <-Hy. split_and!; [by left|auto|done..]. }
  destruct (merkle_cases txs d1 lo1) as [[Hm Hin]|[(t & _ & _ & Hm & Hin)|(d' & -> & Hm & Hin & Hl & Hr)]].
  - right. apply (Hcol _ Hm Hin). rewrite Exn. apply node_input_ne_nil.
  - right. apply (Hcol _ Hm Hin). rewrite Exn. apply node_input_ne_leaf.
  - destruct (decide (x = node_input (merkle txs d' lo1) (merkle txs d' (lo1 + 2 ^ N.of_nat d'))))
      as [Eq|Ne]; [|right; by apply (Hcol _ Hm Hin)].
    rewrite Exn in Eq. apply node_input_inj in Eq as [-> ->]. left.
    destruct Hp as [Hp|Hp]; [exists d', lo1|exists d', (lo1 + 2 ^ N.of_nat d')]; split; [done| |done|];
      by etrans.
Qed.
End tree.

Module MembershipProps.

(** Evaluating [is_membership_proof_valid] to [Ok true]. *)
Lemma valid_proof_inv `{D : Digests} tx_out proof root :
  is_membership_proof_valid tx_out proof root = Ok true →
  ∃ first rest e, proof_elements proof = first :: rest ∧
    is_leaf_of (proof_index proof) first = true ∧
    el_hash first = hash_leaf tx_out ∧ fold_elements first 0 rest = Ok e ∧ el_hash e = root ∧
    existsb bad_range (proof_elements proof) = false ∧
    proof_index proof <= highest_index proof ∧
    range_from (el_range e) = 0 ∧ highest_index proof <= range_to (el_range e).
Proof.
  unfold is_membership_proof_valid, compute_implied_merkle_root.
  destruct (N.ltb_spec (highest_index proof) (proof_index proof)) as [|Hi]; [done|].
  destruct (proof_elements proof) as [|first rest] eqn:Ee; [done|].
  destruct (is_leaf_of (proof_index proof) first) eqn:El; simpl; [|done].
  case_bool_decide as Hl; simpl; [|done].
  destruct (bad_range first || existsb bad_range rest) eqn:Eb; simpl; [done|].
  intros H. apply result_bind_Ok in H as (e & Hf & H).
  destruct (N.eqb_spec (range_from (el_range e)) 0) as [E0|]; simpl in H; [|done].
  destruct (N.ltb_spec (range_to (el_range e)) (highest_index proof)) as [|Hh]; [done|].
  injection H as H. apply bool_decide_eq_true in H.
  exists first, rest, e. done.
Qed.

(** A proof accepted for the root of a tree is for one of its leaves. *)
Lemma accepted_proof_member `{D : Digests} txs tx_out proof :
  is_membership_proof_valid tx_out proof (merkle_root txs) = Ok true →
  (∃ t, t ∈ txs ∧ tx_out_hash t = tx_out_hash tx_out) ∨
  collision (verifier_inputs tx_out proof) (tree_inputs txs (tree_depth (len txs)) 0).
Proof.
  intros H. apply valid_proof_inv in H as (first & rest & e & Ee & _ & Hl & Hf & Hr & _).
  unfold verifier_inputs. rewrite Ee.
  destruct (fold_descends txs rest first 0 e _ _ Hf Hr) as [(d & lo & Hm & Hsub)|Hcol].
  2:{ right. eapply collision_mono; [|done|done]. intros x Hx. by right. }
  rewrite Hl in Hm. unfold hash_leaf in Hm.
  assert (∀ y, merkle txs d lo = blake2b256 y → y ∈ tree_inputs txs d lo → leaf_input tx_out ≠ y →
    collision (leaf_input tx_out :: fold_inputs first rest)
      (tree_inputs txs (tree_depth (len txs)) 0)) as Hcol.
  { intros y Hy Hin Hne. exists (leaf_input tx_out), y. rewrite Hm, <-Hy.
    split_and!; [by left|auto|done..]. }
  destruct (merkle_cases txs d lo) as [[Hy Hin]|[(t & _ & Ht & Hy & Hin)|(d' & -> & Hy & Hin & _)]].
  - right. apply (Hcol _ Hy Hin). apply leaf_input_ne_nil.
  - destruct (decide (leaf_input tx_out = leaf_input t)) as [E|]; [|right; by apply (Hcol _ Hy Hin)].
    left. exists t. split; [by eapply list_elem_of_lookup_2|]. symmetry. by apply leaf_input_inj.
  - right. apply (Hcol _ Hy Hin). intros E. symmetry in E. by apply node_input_ne_leaf in E.
Qed.

(** C8: verification of membership proofs is sound.  A proof that
    [is_membership_proof_valid] accepts for the root hash of the tree of the
    outputs [txs] is a proof of membership: the output has the hash of one of
    [txs].  Otherwise a string hashed by the verifier and a different string
    hashed in the tree have the same BLAKE2b digest. *)
Theorem membership_proof_sound `{D : Digests} txs tx_out proof :
  is_membership_proof_valid tx_out proof (merkle_root txs) = Ok true →
  (∃ t, t ∈ txs ∧ tx_out_hash t = tx_out_hash tx_out) ∨
  collision (verifier_inputs tx_out proof) (tree_inputs txs (tree_depth (len txs)) 0).
Proof. apply accepted_proof_member. Qed.

(** The index of a proof is not authenticated: in a tree of two
    outputs, the second one is accepted under every index but 0. *)
Theorem membership_proof_index_unchecked `{D : Digests} t0 t1 i :
  0 < i → i < u64_max →
  ∃ proof, proof_index proof = i ∧ highest_index proof = i ∧
    is_membership_proof_valid t1 proof (merkle_root [t0; t1]) = Ok true.
Proof.
  intros Hi Hm. unfold u64_max in Hm.
  exists (mkProof i i [mkElement (mkRange i i) (hash_leaf t1);
                       mkElement (mkRange 0 (i - 1)) (hash_leaf t0)]).
  split_and!; [done..|]. unfold is_membership_proof_valid, compute_implied_merkle_root. simpl.
  rewrite N.ltb_irrefl. unfold is_leaf_of, bad_range. simpl. rewrite N.eqb_refl, N.ltb_irrefl. simpl.
  rewrite bool_decide_true by done. simpl.
  rewrite (proj2 (N.ltb_ge (i - 1) 0)) by lia. simpl.
  unfold compose_adjacent_membership_elements. simpl. unfold u64_add.
  rewrite (N.mod_small (i - 1 + 1)), (N.mod_small (i + 1)) by (unfold u64_modulus; lia).
  rewrite (proj2 (N.eqb_neq (i + 1) 0)) by lia. rewrite (proj2 (N.eqb_eq (i - 1 + 1) i)) by lia.
  simpl. rewrite N.ltb_irrefl, !conditional_assign_spec. f_equal. by apply bool_decide_true.
Qed.

(** A toy digest: the bytes summed up at 32 positions. *)
Definition toy_digest (l : bytes) : bytes32 :=
  fun_to_vec (λ i, u8 (foldl (λ acc b, 7 * acc + Byte.to_N b) (N.of_nat (fin_to_nat i)) l)).
#[local] Instance toy_digests : Digests :=
  {| blake2b256 := toy_digest; tx_out_hash := λ o, public_key o |}.
Definition toy_tx_out (k : N) : TxOut :=
  mkTxOut None (vreplicate 32 (u8 k)) (vreplicate 32 (u8 k)) [] None.

Definition toy_proof : TxOutMembershipProof :=
  mkProof 1 2 [mkElement (mkRange 1 1) (hash_leaf (toy_tx_out 11));
               mkElement (mkRange 0 0) (hash_leaf (toy_tx_out 10));
               mkElement (mkRange 2 3) (hash_nodes (hash_leaf (toy_tx_out 12)) NIL_HASH)].

Lemma membership_proof_sound_witness :
  is_membership_proof_valid (toy_tx_out 11) toy_proof
    (merkle_root [toy_tx_out 10; toy_tx_out 11; toy_tx_out 12]) = Ok true ∧
  ((∃ t, t ∈ [toy_tx_out 10; toy_tx_out 11; toy_tx_out 12] ∧
         tx_out_hash t = tx_out_hash (toy_tx_out 11)) ∨
   collision (verifier_inputs (toy_tx_out 11) toy_proof)
     (tree_inputs [toy_tx_out 10; toy_tx_out 11; toy_tx_out 12]
        (tree_depth (len [toy_tx_out 10; toy_tx_out 11; toy_tx_out 12])) 0)).
Proof.
  assert (is_membership_proof_valid (toy_tx_out 11) toy_proof
    (merkle_root [toy_tx_out 10; toy_tx_out 11; toy_tx_out 12]) = Ok true) as H by by vm_compute.
  split; [exact H|]. exact (membership_proof_sound _ _ _ H).
Defined.

Lemma membership_proof_index_unchecked_witness :
  ∃ proof, proof_index proof = 7 ∧ highest_index proof = 7 ∧
    is_membership_proof_valid (toy_tx_out 2) proof
      (merkle_root [toy_tx_out 1; toy_tx_out 2]) = Ok true.
Proof. apply (membership_proof_index_unchecked (toy_tx_out 1) (toy_tx_out 2) 7); by vm_compute. Defined.
End MembershipProps.
