(* ===== verification/TxOutStore.v ===== *)
(** * The store of transaction outputs

    [ledger/db/src/tx_out_store.rs]: outputs are appended to LMDB databases
    that index them by position, hash and public key, together with the hashes
    of the Merkle tree over them, from which proofs of membership are made.
    The serialization of outputs is third-party code, the class [TxOutCodec]. *)

From stdpp Require Import vector strings.
From S2P Require Import Prelude Ord Bytes Lmdb TxOut Membership.

Open Scope N_scope.

(** [mc_util_serial::encode] and [decode] of an output. *)
Class TxOutCodec : Type := {
  encode_tx_out : TxOut → bytes;
  decode_tx_out : bytes → option TxOut;
  decode_encode_tx_out : ∀ t, decode_tx_out (encode_tx_out t) = Some t
}.

(** ** Keys *)

Definition u64_to_key_bytes (value : N) : bytes := be_bytes 8 value.

Definition key_bytes_to_u64 (b : bytes) : exec N :=
  assert! (bool_decide (length b = 8%nat)) in Done (be_value b).

(** [range_to_key_bytes]. *)
Definition range_to_key_bytes (r : Range) : bytes :=
  be_bytes 8 (range_from r) ++ be_bytes 8 (range_to r).

Definition NUM_TX_OUTS_KEY : bytes := str_bytes "num_tx_outs".

(** ** Ranges of the tree *)

(** [containing_range]: clear or set the lowest [depth] bits of the index. *)
Definition containing_range (index depth : N) : N * N :=
  let mask := u64_sub (u64_shl 1 depth) 1 in
  let low := N.land index (u64_not mask) in
  let high := N.lor index mask in
  (low, high).

(** [containing_ranges]: the ranges around an index, from the leaf to the root. *)
Definition containing_ranges (index num_leaves : N) : result (list (N * N)) Error :=
  if num_leaves <=? index then Err (TxOutIndexOutOfBounds index)
  else match checked_next_power_of_two num_leaves with
       | Some num_leaves_full_tree =>
           let depth := u32_sub (u32_sub 64 (u64_leading_zeros num_leaves_full_tree)) 1 in
           Ok ((λ d, containing_range index (N.of_nat d)) <$> seq 0 (S (N.to_nat depth)))
       | None => Err CapacityExceeded
       end.

Definition from_range_error {A} (r : result A RangeError) : result A Error :=
  match r with Ok a => Ok a | Err _ => Err RangeErr end.

(** ** The store *)

Record TxOutStore := mkTxOutStore {
  counts : Database;
  tx_out_by_index : Database;
  tx_out_index_by_hash : Database;
  tx_out_index_by_public_key : Database;
  merkle_hashes : Database
}.

Section store.
Context {T : Type} `{Transaction T} `{D : Digests} `{C : TxOutCodec}.
Implicit Types (self : TxOutStore).

(** [create], after the databases have been created empty. *)
Definition create self : dbm T unit :=
  put (counts self) NUM_TX_OUTS_KEY (u64_to_key_bytes 0) FlagsEmpty.

Definition num_tx_outs self : dbm T N :=
  let@ b := get (counts self) NUM_TX_OUTS_KEY in
  dexec (key_bytes_to_u64 b).

Definition get_tx_out_index_by_hash self (hash : bytes32) : dbm T N :=
  let@ index_bytes := get (tx_out_index_by_hash self) (vec_to_list hash) in
  dexec (key_bytes_to_u64 index_bytes).

Definition get_tx_out_index_by_public_key self (key : CompressedRistrettoPublic) : dbm T N :=
  let@ index_bytes := get (tx_out_index_by_public_key self) (vec_to_list key) in
  dexec (key_bytes_to_u64 index_bytes).

Definition get_tx_out_by_index self (index : N) : dbm T TxOut :=
  let@ tx_out_bytes := get (tx_out_by_index self) (u64_to_key_bytes index) in
  match decode_tx_out tx_out_bytes with
  | Some tx_out => dret tx_out
  | None => dfail Deserialization
  end.

(** [write_merkle_hash]. *)
Definition write_merkle_hash self (range : Range) (hash : bytes32) : dbm T unit :=
  put (merkle_hashes self) (range_to_key_bytes range) (vec_to_list hash) FlagsEmpty.

(** [get_merkle_hash]. *)
Definition get_merkle_hash self (range : Range) : dbm T bytes32 :=
  let@ b := get (merkle_hashes self) (range_to_key_bytes range) in
  match to_bytes32 b with
  | Some merkle_hash => dret merkle_hash
  | None => dfail Deserialization
  end.

(** [get_root_merkle_hash]. *)
Definition get_root_merkle_hash self : dbm T bytes32 :=
  let@ num := num_tx_outs self in
  if num =? 0 then dret NIL_HASH
  else match checked_next_power_of_two num with
       | Some num_leaves_full_tree =>
           let@ range := dresult (from_range_error (Range_new 0 (num_leaves_full_tree - 1))) in
           get_merkle_hash self range
       | None => dfail CapacityExceeded
       end.

(** One iteration of the loop of [update_merkle_hashes]. *)
Definition update_merkle_hash self (index num : N) (r : N * N) : dbm T unit :=
  let '(low, high) := r in
  if low =? high then
    let@ tx_out := get_tx_out_by_index self index in
    let hash := hash_leaf tx_out in
    let@ range := dresult (from_range_error (Range_new low low)) in
    write_merkle_hash self range hash
  else
    let mid := u64_add low high / 2 in
    let@ left_child_range := dresult (from_range_error (Range_new low mid)) in
    let@ left_child_hash := get_merkle_hash self left_child_range in
    let@ right_child_hash :=
      (if num <=? u64_add mid 1 then dret NIL_HASH
       else
         let@ right_child_range := dresult (from_range_error (Range_new (u64_add mid 1) high)) in
         get_merkle_hash self right_child_range) in
    let hash := hash_nodes left_child_hash right_child_hash in
    let@ range := dresult (from_range_error (Range_new low high)) in
    write_merkle_hash self range hash.

(** [update_merkle_hashes]. *)
Definition update_merkle_hashes self (index : N) : dbm T unit :=
  let@ num := num_tx_outs self in
  if num <=? index then dfail (TxOutIndexOutOfBounds index)
  else
    let@ ranges := dresult (containing_ranges index num) in
    dfor (update_merkle_hash self index num) ranges.

(** The writes of [push] before the tree is updated: the count, and the
    output by hash, by public key and by index. *)
Definition push_entries self (tx_out : TxOut) : dbm T N :=
  let@ b := get (counts self) NUM_TX_OUTS_KEY in
  let@ num := dexec (key_bytes_to_u64 b) in
  let index := num in
  let@ _ := put (counts self) NUM_TX_OUTS_KEY (u64_to_key_bytes (u64_add num 1)) FlagsEmpty in
  let@ _ := put (tx_out_index_by_hash self) (vec_to_list (tx_out_hash tx_out))
              (u64_to_key_bytes index) NO_OVERWRITE in
  let@ _ := put (tx_out_index_by_public_key self) (vec_to_list (public_key tx_out))
              (u64_to_key_bytes index) NO_OVERWRITE in
  let tx_out_bytes := encode_tx_out tx_out in
  let@ _ := put (tx_out_by_index self) (u64_to_key_bytes index) tx_out_bytes NO_OVERWRITE in
  dret index.

(** [push]. *)
Definition push self (tx_out : TxOut) : dbm T N :=
  let@ index := push_entries self tx_out in
  let@ _ := update_merkle_hashes self index in
  dret index.

(** The half of a range around [index] that does not contain it. *)
Definition other_child (index : N) (r : N * N) : N * N :=
  let '(low, high) := r in
  let mid := u64_add low high / 2 in
  if index <=? mid then (u64_add mid 1, high) else (low, mid).

(** The element of a proof for a range. *)
Definition proof_element self (num : N) (r : N * N) : dbm T TxOutMembershipElement :=
  let '(low, high) := r in
  let@ range := dresult (from_range_error (Range_new low high)) in
  let@ hash := (if num <=? low then dret NIL_HASH else get_merkle_hash self range) in
  dret (mkElement range hash).

(** [get_merkle_proof_of_membership]. *)
Definition get_merkle_proof_of_membership self (index : N) : dbm T TxOutMembershipProof :=
  let@ num := num_tx_outs self in
  if num <=? index then dfail (TxOutIndexOutOfBounds index)
  else
    let@ ranges := dresult (containing_ranges index num) in
    let ranges_for_proof := (index, index) :: (other_child index <$> drop 1 ranges) in
    let@ els := dmap (proof_element self num) ranges_for_proof in
    dret (mkProof index (u64_sub num 1) els).
End store.
