(* ===== verification/MerkleTree.v ===== *)
(** * The nodes of the Merkle tree

    Arithmetic of the nodes around a leaf, the hashes of subtrees when outputs
    are appended, and the proofs that lead from a leaf to the root: folding the
    siblings of a leaf computes the hash of the tree, and rolling such a proof
    back gives a proof for the tree at the time the leaf was added. *)

From stdpp Require Import vector.
From S2P Require Import Prelude Ord Bytes TxOut Membership.

Open Scope N_scope.

(** The size of a subtree of depth [d], and the first leaf of the subtree of
    that depth around the leaf [i]. *)
Definition span (d : nat) : N := 2 ^ N.of_nat d.
Definition lo_of (i : N) (d : nat) : N := i / span d * span d.

(** The first leaf of the sibling of that subtree. *)
Definition sib_lo (i : N) (d : nat) : N :=
  if lo_of i d =? lo_of i (S d) then lo_of i d + span d else lo_of i (S d).

(** The range of a subtree. *)
Definition node_range (d : nat) (lo : N) : Range := mkRange lo (lo + span d - 1).

Lemma span_pos d : 0 < span d.
Proof. unfold span. apply N.neq_0_lt_0, N.pow_nonzero. lia. Qed.

Lemma span_S d : span (S d) = 2 * span d.
Proof. unfold span. rewrite Nat2N.inj_succ, N.pow_succ_r'. lia. Qed.

Lemma span_0 : span 0 = 1.
Proof. done. Qed.

Lemma span_mono d d' : (d <= d')%nat → span d <= span d'.
Proof. intros. apply N.pow_le_mono_r; lia. Qed.

Lemma span_inj d d' : span d = span d' → d = d'.
Proof. intros E. apply Nat2N.inj. apply (N.pow_inj_r 2); [lia|done]. Qed.

Lemma span_split d d' : (d <= d')%nat → ∃ k, span d' = k * span d.
Proof.
  intros Hd. exists (span (d' - d)). unfold span. rewrite <-N.pow_add_r. f_equal. lia.
Qed.

Lemma lo_of_0 i : lo_of i 0 = i.
Proof. unfold lo_of. rewrite span_0, N.div_1_r. lia. Qed.

Lemma lo_of_bounds i d : lo_of i d <= i ∧ i < lo_of i d + span d.
Proof.
  unfold lo_of. pose proof (span_pos d).
  pose proof (N.Div0.div_mod i (span d)) as E. pose proof (N.mod_lt i (span d) ltac:(lia)) as Hr.
  revert E Hr. generalize (i mod span d). intros r E Hr.
  rewrite (N.mul_comm (i / span d)). revert E. generalize (span d * (i / span d)). lia.
Qed.

Lemma lo_of_S i d : lo_of i d = lo_of i (S d) ∨ lo_of i d = lo_of i (S d) + span d.
Proof.
  unfold lo_of. rewrite span_S, (N.mul_comm 2), <-N.Div0.div_div.
  set (q := i / span d). pose proof (N.Div0.div_mod q 2) as E.
  pose proof (N.mod_lt q 2 ltac:(done)) as Hr.
  set (r := q mod 2) in *. set (h := q / 2) in *. set (s := span d) in *. clearbody r h s q.
  assert (r = 0 ∨ r = 1) as [->| ->] by lia; [left|right]; nia.
Qed.

Lemma lo_of_small i d : i < span d → lo_of i d = 0.
Proof. intros. unfold lo_of. by rewrite N.div_small. Qed.

(** An aligned block that contains [i] is the one around [i]. *)
Lemma lo_of_unique i d q : q * span d <= i → i < q * span d + span d → lo_of i d = q * span d.
Proof.
  intros H1 H2. unfold lo_of. f_equal. symmetry. apply (N.div_unique i (span d) q (i - q * span d)); lia.
Qed.

(** An aligned block that does not start after [i] is the one around [i], or
    ends before it. *)
Lemma aligned_cases i d q : q * span d <= i → q * span d = lo_of i d ∨ q * span d + span d <= i.
Proof.
  intros H. destruct (decide (i < q * span d + span d)); [|lia].
  left. symmetry. by apply lo_of_unique.
Qed.

Lemma sib_lo_cases i d :
  (lo_of i d = lo_of i (S d) ∧ sib_lo i d = lo_of i d + span d) ∨
  (lo_of i d = lo_of i (S d) + span d ∧ sib_lo i d = lo_of i (S d)).
Proof.
  unfold sib_lo. pose proof (span_pos d).
  destruct (N.eqb_spec (lo_of i d) (lo_of i (S d))) as [E|E]; [by left|right].
  destruct (lo_of_S i d); [lia|done].
Qed.

(** The ranges stay within the width. *)
Lemma lo_of_top i d D : i < span D → (d <= D)%nat → lo_of i d + span d <= span D.
Proof.
  intros Hi Hd. destruct (span_split d D Hd) as [k Hk].
  pose proof (lo_of_bounds i d) as [? ?]. unfold lo_of in *.
  pose proof (span_pos d).
  assert (i / span d < k) by (apply N.Div0.div_lt_upper_bound; lia). nia.
Qed.

(** The depth of the tree. *)
Lemma tree_depth_bound n : n <= span (tree_depth n).
Proof. unfold span, tree_depth. rewrite N2Nat.id. apply log2_up_bound. Qed.

Lemma tree_depth_le_63 n : n <= 2 ^ 63 → (tree_depth n <= 63)%nat.
Proof. intros H%log2_up_le_63. unfold tree_depth. lia. Qed.

Lemma tree_depth_span n : 2 ^ N.log2_up n = span (tree_depth n).
Proof. unfold span, tree_depth. by rewrite N2Nat.id. Qed.

Lemma tree_depth_mono n m : n <= m → (tree_depth n <= tree_depth m)%nat.
Proof. intros H%N.log2_up_le_mono. unfold tree_depth. lia. Qed.

Lemma span_le_depth d n : span d <= n → (d <= tree_depth n)%nat.
Proof.
  intros H. apply N.log2_up_le_mono in H. unfold span in H.
  rewrite N.log2_up_pow2 in H by lia. unfold tree_depth. lia.
Qed.

Lemma span_63 d : (d <= 63)%nat → span d <= 2 ^ 63.
Proof. intros. by apply (span_mono d 63). Qed.

(** ** Hashes of subtrees *)

Section tree.
Context `{D : Digests}.
Implicit Types (txs : list TxOut).

Lemma merkle_nil txs d lo : len txs <= lo → merkle txs d lo = NIL_HASH.
Proof. intros H. destruct d; simpl; by rewrite (proj2 (N.leb_le _ _) H). Qed.

Lemma merkle_S txs d lo :
  lo < len txs → merkle txs (S d) lo = hash_nodes (merkle txs d lo) (merkle txs d (lo + span d)).
Proof. intros H. simpl. by rewrite (proj2 (N.leb_gt _ _) H). Qed.

Lemma merkle_leaf txs lo t :
  txs !! N.to_nat lo = Some t → merkle txs 0 lo = hash_leaf t.
Proof.
  intros E. simpl. rewrite E. apply lookup_lt_Some in E. unfold len.
  rewrite (proj2 (N.leb_gt _ _)); [done|lia].
Qed.

(** A full subtree does not change when outputs are appended. *)
Lemma merkle_full txs more d : ∀ lo,
  lo + span d <= len txs → merkle (txs ++ more) d lo = merkle txs d lo.
Proof.
  induction d as [|d IH]; intros lo Hlo.
  - rewrite span_0 in Hlo. unfold len in Hlo.
    destruct (lookup_lt_is_Some_2 txs (N.to_nat lo) ltac:(lia)) as [t Ht].
    rewrite (merkle_leaf txs lo t), (merkle_leaf (txs ++ more) lo t); [done| |done].
    by apply lookup_app_l_Some.
  - rewrite span_S in Hlo. pose proof (span_pos d).
    rewrite !merkle_S, !IH by (unfold len in *; rewrite ?length_app; lia). done.
Qed.

(** A subtree is determined by the outputs below it. *)
Lemma merkle_take txs n d lo :
  lo + span d <= N.of_nat n ∨ N.of_nat n <= lo → (n <= length txs)%nat →
  merkle (take n txs) d lo = if N.of_nat n <=? lo then NIL_HASH else merkle txs d lo.
Proof.
  intros Hlo Hn. assert (len (take n txs) = N.of_nat n) as Hl.
  { unfold len. rewrite length_take. lia. }
  pose proof (span_pos d). destruct (N.leb_spec (N.of_nat n) lo).
  - apply merkle_nil. lia.
  - rewrite <-(take_drop n txs) at 2. symmetry. apply merkle_full. lia.
Qed.

(** ** Paths *)

(** The elements of a proof: the node of depth [d] around the leaf [i], and
    its sibling. *)
Definition node_el txs (i : N) (d : nat) : TxOutMembershipElement :=
  mkElement (node_range d (lo_of i d)) (merkle txs d (lo_of i d)).
Definition sib_el txs (i : N) (d : nat) : TxOutMembershipElement :=
  mkElement (node_range d (sib_lo i d)) (merkle txs d (sib_lo i d)).

Lemma compose_node_sib txs i d :
  i < len txs → lo_of i (S d) + span (S d) <= 2 ^ 63 →
  compose_adjacent_membership_elements (node_el txs i d) (sib_el txs i d)
  = Ok (node_el txs i (S d)).
Proof.
  intros Hi Htop. pose proof (span_pos d) as Hp. pose proof (lo_of_bounds i (S d)) as [? ?].
  unfold compose_adjacent_membership_elements, node_el, sib_el, node_range. simpl el_range. simpl el_hash.
  simpl range_from. simpl range_to. rewrite span_S in *. rewrite (merkle_S txs d) by lia.
  destruct (sib_lo_cases i d) as [[E1 E2]|[E1 E2]]; rewrite E2, E1;
    set (lo := lo_of i (S d)) in *; set (s := span d) in *; clearbody lo s;
    rewrite !u64_add_small by (unfold u64_modulus; lia).
  - rewrite (proj2 (N.eqb_eq (lo + s - 1 + 1) (lo + s))) by lia.
    rewrite (proj2 (N.eqb_neq (lo + s + s - 1 + 1) lo)) by lia. simpl.
    rewrite !conditional_assign_spec. do 3 f_equal. lia.
  - rewrite (proj2 (N.eqb_neq (lo + s + s - 1 + 1) lo)) by lia.
    rewrite (proj2 (N.eqb_eq (lo + s - 1 + 1) (lo + s))) by lia. simpl.
    rewrite !conditional_assign_spec. do 3 f_equal. lia.
Qed.

(** Folding the siblings of a leaf computes the hash of the subtree. *)
Lemma fold_path txs i k : ∀ d idx,
  i < len txs → i < span (d + k) → (d + k <= 63)%nat →
  fold_elements (node_el txs i d) idx (sib_el txs i <$> seq d k) = Ok (node_el txs i (d + k)).
Proof.
  induction k as [|k IH]; intros d idx Hi Htop H63; simpl; [by rewrite Nat.add_0_r|].
  rewrite compose_node_sib; [|done|].
  - rewrite IH; [do 2 f_equal; lia|done|..|lia]. by replace (S d + k)%nat with (d + S k)%nat by lia.
  - etrans; [apply (lo_of_top i (S d) (d + S k)); [done|lia]|]. by apply span_63.
Qed.

(** The proof for a leaf: the leaf and its siblings up to the depth [k]. *)
Definition path_proof txs (i : N) (highest : N) (k : nat) : TxOutMembershipProof :=
  mkProof i highest (node_el txs i 0 :: (sib_el txs i <$> seq 0 k)).

Lemma node_range_ok d lo : range_from (node_range d lo) <= range_to (node_range d lo).
Proof. pose proof (span_pos d). simpl. lia. Qed.

Lemma path_ranges_ok txs i highest k :
  existsb bad_range (proof_elements (path_proof txs i highest k)) = false.
Proof.
  apply not_true_iff_false. rewrite existsb_exists. intros (e & He & Hb).
  unfold bad_range in Hb. apply N.ltb_lt in Hb.
  assert (∃ d lo, el_range e = node_range d lo) as (d & lo & E).
  { apply list_elem_of_In in He. simpl in He.
    apply elem_of_cons in He as [->|(d & -> & _)%list_elem_of_fmap]; by do 2 eexists. }
  rewrite E in Hb. pose proof (node_range_ok d lo). lia.
Qed.

Lemma path_root txs i highest k :
  i < len txs → i < span k → (k <= 63)%nat →
  compute_implied_merkle_root (path_proof txs i highest k) = Ok (node_el txs i k).
Proof.
  intros Hi Hk H63. unfold compute_implied_merkle_root. rewrite path_ranges_ok. simpl.
  unfold is_leaf_of. simpl. rewrite lo_of_0, span_0, N.add_sub, N.eqb_refl. simpl.
  by apply (fold_path txs i k 0).
Qed.

(** ** Rolling back *)

Lemma range_len_node d lo : lo + span d <= 2 ^ 63 → range_len (node_range d lo) = span d.
Proof.
  intros H. pose proof (span_pos d). unfold range_len.
  rewrite (proj2 (N.leb_le _ _)) by apply node_range_ok. simpl.
  unfold u64_sub. rewrite (N.mod_small lo) by (unfold u64_modulus; lia).
  replace (lo + span d - 1 + (u64_modulus - lo))
    with (span d - 1 + 1 * u64_modulus) by (unfold u64_modulus; lia).
  rewrite N.Div0.mod_add, N.mod_small by (unfold u64_modulus; lia).
  rewrite u64_add_small by (unfold u64_modulus; lia). lia.
Qed.

(** Whether a node lies above the root of a smaller tree, by the order of
    ranges. *)
Lemma node_gt_root d lo K :
  lo + span d <= 2 ^ 63 → (K <= 63)%nat →
  ord_gtb (node_range d lo) (node_range K 0) = bool_decide ((K < d)%nat ∨ d = K ∧ lo ≠ 0).
Proof.
  intros H HK. unfold ord_gtb, ord_ltb, cmp, Range_ord.
  rewrite !range_len_node by (rewrite ?N.add_0_l; first [done|by apply span_63]).
  destruct (N.eqb_spec (span K) (span d)) as [E|E]; simpl.
  - apply span_inj in E as ->. unfold cmp, prod_ord, cmp, N_ord. simpl.
    destruct lo as [|p]; simpl.
    + rewrite N.compare_refl. symmetry. apply bool_decide_false. lia.
    + symmetry. apply bool_decide_true. lia.
  - unfold cmp, N_ord. destruct (N.compare_spec (span K) (span d)) as [|Hlt|Hgt]; [done|..].
    + symmetry. apply bool_decide_true. left.
      destruct (decide (K < d)%nat); [done|]. pose proof (span_mono d K ltac:(lia)). lia.
    + symmetry. apply bool_decide_false. intros [?|[-> _]]; [|done].
      pose proof (span_mono K d ltac:(lia)). lia.
Qed.

Lemma sib_lo_top i d K : i < span K → (S d <= K)%nat → sib_lo i d + span d <= span K.
Proof.
  intros Hi Hd. pose proof (lo_of_top i (S d) K Hi Hd). rewrite span_S in *.
  destruct (sib_lo_cases i d) as [[? ?]|[? ?]]; lia.
Qed.

(** What the loop of [derive_proof_at_index] keeps of the siblings. *)
Lemma derive_sibs txs i m : ∀ d pos,
  let K := tree_depth (i + 1) in
  i < len txs → i < span (d + m) → (d + m <= 63)%nat →
  derive_elements i (node_range K 0) pos (sib_el txs i <$> seq d m)
  = Ok (sib_el (take (N.to_nat (i + 1)) txs) i <$> seq d (m `min` (K - d))).
Proof.
  induction m as [|m IH]; intros d pos K Hi Htop H63; [done|]. simpl seq. rewrite fmap_cons. simpl.
  pose proof (tree_depth_bound (i + 1)) as HB. fold K in HB.
  assert (i < span K) as HiK by lia.
  assert (K <= 63)%nat as HK.
  { apply tree_depth_le_63. pose proof (span_63 (d + S m) H63). lia. }
  pose proof (span_63 (d + S m) H63).
  pose proof (sib_lo_top i d (d + S m) Htop ltac:(lia)).
  rewrite node_gt_root by (done || lia).
  assert (i < span (S d + m)) by (by replace (S d + m)%nat with (d + S m)%nat by lia).
  case_bool_decide as Hd.
  { rewrite IH by (done || lia). fold K.
    replace (K - S d)%nat with O by lia. replace (K - d)%nat with O by lia.
    by rewrite !Nat.min_0_r. }
  assert (d < K)%nat as HdK.
  { destruct (decide (d < K)%nat); [done|exfalso]. apply Hd. right. split; [lia|].
    pose proof (span_pos d). assert (d = K) as -> by lia.
    destruct (sib_lo_cases i K) as [[_ ->]|[E _]]; [lia|]. rewrite lo_of_small in E by done. lia. }
  rewrite IH by (done || lia). fold K.
  replace (K - d)%nat with (S (K - S d)) by lia. simpl.
  assert (merkle (take (N.to_nat (i + 1)) txs) d (sib_lo i d)
    = if i <? sib_lo i d then hash_nil else merkle txs d (sib_lo i d)) as Hm.
  { rewrite merkle_take by (unfold len in *; destruct (sib_lo_cases i d) as [[? ?]|[? ?]];
      pose proof (lo_of_bounds i d); pose proof (lo_of_bounds i (S d)); rewrite ?span_S in *; lia).
    rewrite N2Nat.id. by destruct (N.leb_spec (i + 1) (sib_lo i d)), (N.ltb_spec i (sib_lo i d)); try lia. }
  assert (sib_el (take (N.to_nat (i + 1)) txs) i d = mkElement (node_range d (sib_lo i d))
    (if i <? sib_lo i d then hash_nil else merkle txs d (sib_lo i d))) as -> by (unfold sib_el; by rewrite Hm).
  destruct (N.ltb_spec i (sib_lo i d)); [done|].
  destruct (sib_lo i d =? _); [done|]. rewrite (proj2 (N.leb_le _ i)); [done|].
  destruct (sib_lo_cases i d) as [[? ?]|[? ?]]; pose proof (lo_of_bounds i d); lia.
Qed.

(** Rolling back the proof of the leaf [i] gives its proof in the tree whose
    last leaf it is. *)
Lemma derive_path txs i highest k :
  i < len txs → i < span k → (k <= 63)%nat →
  derive_proof_at_index (path_proof txs i highest k)
  = Ok (path_proof (take (N.to_nat (i + 1)) txs) i i (tree_depth (i + 1))).
Proof.
  intros Hi Hk H63. pose proof (span_63 k H63).
  assert (tree_depth (i + 1) <= k)%nat as HK.
  { destruct (decide (tree_depth (i + 1) <= k)%nat) as [|Hn]; [done|exfalso].
    destruct (N.eq_dec i 0) as [->|]; [change (tree_depth (0 + 1)) with O in Hn; lia|].
    assert (1 < i + 1) as Hi1 by lia.
    pose proof (log2_up_tight (i + 1) Hi1) as Ht.
    assert (span k <= 2 ^ N.pred (N.log2_up (i + 1))); [|lia].
    unfold span, tree_depth in *. apply N.pow_le_mono_r; lia. }
  unfold derive_proof_at_index. simpl proof_index.
  rewrite u64_add_small by (unfold u64_modulus; lia).
  rewrite next_power_of_two_small, tree_depth_span by lia.
  unfold Range_new. rewrite (proj2 (N.leb_le _ _)) by lia.
  change (mkRange 0 (span (tree_depth (i + 1)) - 1)) with (mkRange 0 (0 + span (tree_depth (i + 1)) - 1)).
  fold (node_range (tree_depth (i + 1)) 0). simpl proof_elements.
  cbn [derive_elements]. unfold node_el at 1. simpl el_range. rewrite lo_of_0.
  rewrite node_gt_root by (rewrite ?span_0; lia).
  rewrite bool_decide_false.
  2:{ intros [?|[E ?]]; [lia|]. pose proof (tree_depth_bound (i + 1)).
      rewrite <-E, span_0 in *. lia. }
  simpl. rewrite N.ltb_irrefl, span_0, N.add_sub, N.eqb_refl. simpl.
  rewrite (derive_sibs txs i k 0) by done. simpl. do 2 f_equal. unfold node_el. rewrite lo_of_0.
  unfold path_proof, node_el. rewrite !lo_of_0. rewrite Nat.sub_0_r.
  replace (k `min` tree_depth (i + 1))%nat with (tree_depth (i + 1)) by lia. f_equal. f_equal.
  assert (∃ t, txs !! N.to_nat i = Some t) as [t Ht].
  { apply lookup_lt_is_Some_2. unfold len in Hi. lia. }
  f_equal. rewrite (merkle_leaf (take _ txs) i t) by (rewrite lookup_take_lt; [done|lia]).
  by apply (merkle_leaf txs i t).
Qed.
End tree.
