(* ===== verification/TxOutStoreProps.v ===== *)
(** * Correctness of the store of transaction outputs

    The store refines a list of outputs: [store_ok t txs] relates the contents
    of a transaction to the list, [push] appends to it, the lookups read it,
    the root hash and the proofs of membership are those of the Merkle tree
    over it. *)

From stdpp Require Import vector strings.
From S2P Require Import Prelude Ord Bytes Lmdb TxOut Membership TxOutStore MerkleTree.

Open Scope N_scope.

(** ** Ranges *)

Lemma lor_ones i m : N.lor i m = N.ldiff i m + m.
Proof.
  assert (N.land (N.ldiff i m) m = 0) as H0.
  { apply N.bits_inj. intros k. rewrite N.land_spec, N.ldiff_spec, N.bits_0.
    by destruct (N.testbit i k), (N.testbit m k). }
  rewrite N.add_nocarry_lxor, N.lxor_lor by done.
  apply N.bits_inj. intros k. rewrite !N.lor_spec, N.ldiff_spec.
  by destruct (N.testbit i k), (N.testbit m k).
Qed.

Lemma containing_range_spec i d :
  i < 2 ^ 64 → (d <= 63)%nat →
  containing_range i (N.of_nat d) = (lo_of i d, lo_of i d + span d - 1).
Proof.
  intros Hi Hd. pose proof (span_pos d). pose proof (span_63 d Hd).
  assert (u64_sub (u64_shl 1 (N.of_nat d)) 1 = N.ones (N.of_nat d)) as Em.
  { unfold u64_shl. rewrite (N.mod_small (N.of_nat d)) by lia. rewrite N.shiftl_1_l.
    fold (span d). rewrite N.mod_small, u64_sub_small by (unfold u64_modulus; lia).
    rewrite N.ones_equiv. fold (span d). lia. }
  unfold containing_range. rewrite Em.
  assert (N.ldiff i (N.ones (N.of_nat d)) = lo_of i d) as El.
  { by rewrite N.ldiff_ones_r, N.shiftr_div_pow2, N.shiftl_mul_pow2. }
  f_equal.
  - unfold u64_not. rewrite <-N.ldiff_land_low; [done|].
    destruct (decide (i = 0)) as [->|]; [done|]. apply N.log2_lt_pow2; lia.
  - rewrite lor_ones, El, N.ones_equiv. fold (span d). lia.
Qed.

Definition range_around (i : N) (d : nat) : N * N := (lo_of i d, lo_of i d + span d - 1).

Lemma containing_ranges_spec i n :
  i < n → n <= 2 ^ 63 → containing_ranges i n = Ok (range_around i <$> seq 0 (S (tree_depth n))).
Proof.
  intros Hi Hn. unfold containing_ranges. rewrite (proj2 (N.leb_gt _ _) Hi).
  rewrite next_power_of_two_small by done. f_equal.
  pose proof (log2_up_le_63 n Hn). unfold u64_leading_zeros. rewrite size_pow2.
  rewrite !u32_sub_small by (unfold u32_modulus; rewrite ?u32_sub_small; unfold u32_modulus; lia).
  replace (64 - (64 - (N.log2_up n + 1)) - 1) with (N.log2_up n) by lia. fold (tree_depth n).
  apply list_fmap_ext. intros j d [-> Hj]%lookup_seq.
  apply containing_range_spec; [lia|]. unfold tree_depth in *. lia.
Qed.

Lemma range_key_inj d lo d' lo' :
  lo + span d <= 2 ^ 63 → lo' + span d' <= 2 ^ 63 →
  range_to_key_bytes (node_range d lo) = range_to_key_bytes (node_range d' lo') → d = d' ∧ lo = lo'.
Proof.
  intros H H'. pose proof (span_pos d). pose proof (span_pos d').
  unfold range_to_key_bytes, node_range. cbn [range_from range_to]. intros E. apply app_inj_1 in E as [E1 E2];
    [|by rewrite !length_be_bytes].
  apply be_bytes_inj in E1; [|change (256 ^ N.of_nat 8) with (2 ^ 64); lia..].
  apply be_bytes_inj in E2; [|change (256 ^ N.of_nat 8) with (2 ^ 64); lia..].
  subst. split; [|done]. apply span_inj. lia.
Qed.

Lemma u64_key_inj i j :
  i < 2 ^ 64 → j < 2 ^ 64 → u64_to_key_bytes i = u64_to_key_bytes j → i = j.
Proof. intros. by apply (be_bytes_inj 8). Qed.

Lemma key_round_trip i : i < 2 ^ 64 → key_bytes_to_u64 (u64_to_key_bytes i) = Done i.
Proof.
  intros Hi. unfold key_bytes_to_u64, u64_to_key_bytes.
  rewrite bool_decide_true by apply length_be_bytes. by rewrite be_value_bytes.
Qed.

(** ** The abstraction *)

(** The nodes of the tree that contain a leaf: depth and first leaf. *)
Definition tree_node (n : N) (d : nat) (lo : N) : Prop :=
  (d <= tree_depth n)%nat ∧ lo < n ∧ ∃ q, lo = q * span d.

Lemma tree_node_top n d lo : n <= 2 ^ 63 → tree_node n d lo → lo + span d <= 2 ^ 63.
Proof.
  intros Hn (Hd & Hlo & q & ->). pose proof (tree_depth_bound n).
  pose proof (tree_depth_le_63 n Hn). pose proof (span_pos d).
  assert (lo_of (q * span d) d = q * span d) as E by (apply lo_of_unique; lia).
  pose proof (lo_of_top (q * span d) d (tree_depth n) ltac:(lia) Hd) as Ht.
  rewrite E in Ht. pose proof (span_63 (tree_depth n) ltac:(lia)). lia.
Qed.

Lemma tree_node_around n i d : i < n → (d <= tree_depth n)%nat → tree_node n d (lo_of i d).
Proof.
  intros Hi Hd. split; [done|]. pose proof (lo_of_bounds i d). split; [lia|]. by eexists.
Qed.

Section props.
Context {T : Type} `{Transaction T} `{!TransactionLaws T} `{D : Digests} `{C : TxOutCodec}.
Implicit Types (self : TxOutStore) (t : T) (txs : list TxOut).

(** The five databases are different. *)
Definition store_wf self : Prop :=
  NoDup [counts self; tx_out_by_index self; tx_out_index_by_hash self;
         tx_out_index_by_public_key self; merkle_hashes self].

(** The database [db] maps the key of every output to its position, and
    nothing else. *)
Definition indexed t (db : N) (key : TxOut → bytes32) txs : Prop :=
  (∀ i tx, txs !! i = Some tx →
     db_get t db (vec_to_list (key tx)) = Ok (u64_to_key_bytes (N.of_nat i))) ∧
  (∀ k : bytes32, (∀ tx, tx ∈ txs → key tx ≠ k) →
     db_get t db (vec_to_list k) = Err LmdbNotFound).

(** The hashes of the nodes of the tree are stored. *)
Definition merkle_stored self t txs (P : nat → N → Prop) : Prop :=
  ∀ d lo, P d lo → db_get t (merkle_hashes self) (range_to_key_bytes (node_range d lo))
                   = Ok (vec_to_list (merkle txs d lo)).

(** The entries for the outputs [txs], besides the tree. *)
Record store_entries self t txs : Prop := {
  so_count : db_get t (counts self) NUM_TX_OUTS_KEY = Ok (u64_to_key_bytes (len txs));
  so_index : ∀ i, i < 2 ^ 64 →
    db_get t (tx_out_by_index self) (u64_to_key_bytes i)
    = match txs !! N.to_nat i with Some tx => Ok (encode_tx_out tx) | None => Err LmdbNotFound end;
  so_hash : indexed t (tx_out_index_by_hash self) tx_out_hash txs;
  so_key : indexed t (tx_out_index_by_public_key self) public_key txs
}.

(** The store holds the outputs [txs] and their tree. *)
Record store_ok self t txs : Prop := {
  so_cap : len txs <= 2 ^ 63;
  so_entries : store_entries self t txs;
  so_merkle : merkle_stored self t txs (tree_node (len txs))
}.

Lemma len_snoc {A} (l : list A) x : len (l ++ [x]) = len l + 1.
Proof. unfold len. rewrite length_app. simpl. lia. Qed.

(** ** Frames *)

(** The database [db] has the same contents. *)
Definition same_db (db : N) t t' : Prop := ∀ k, db_get t' db k = db_get t db k.

Lemma put_same_db t db k v f t' db' :
  db_put t db k v f = (Ok tt, t') → db' ≠ db → same_db db' t t'.
Proof. intros Hp Hne k'. eapply get_put_other; [done|congruence]. Qed.

Lemma same_db_trans db t1 t2 t3 : same_db db t1 t2 → same_db db t2 t3 → same_db db t1 t3.
Proof. intros H1 H2 k. by rewrite H2. Qed.

Lemma indexed_same t t' db key txs :
  same_db db t t' → indexed t db key txs → indexed t' db key txs.
Proof. intros Hs [H1 H2]. split; intros; rewrite Hs; auto. Qed.

Lemma merkle_stored_same self t t' txs P :
  same_db (merkle_hashes self) t t' → merkle_stored self t txs P → merkle_stored self t' txs P.
Proof. intros Hs H1 d lo ?. rewrite Hs. auto. Qed.

(** Appending to an index. *)
Lemma indexed_append t db key txs tx f t' :
  indexed t db key txs → (∀ tx', tx' ∈ txs → key tx' ≠ key tx) →
  db_put t db (vec_to_list (key tx)) (u64_to_key_bytes (len txs)) f = (Ok tt, t') →
  indexed t' db key (txs ++ [tx]).
Proof.
  intros [H1 H2] Hf Hp. split.
  - intros i tx' [Hi|[Hi E]]%lookup_app_Some.
    + erewrite get_put_other; [by apply H1|done|].
      intros [= E%vec_to_list_inj2]. apply list_elem_of_lookup_2 in Hi. by apply (Hf tx').
    + destruct (i - length txs)%nat eqn:Ei; simpl in E; [|by rewrite lookup_nil in E].
      injection E as <-. erewrite get_put_same by done.
      unfold len. by replace i with (length txs) by lia.
  - intros k Hk. erewrite get_put_other; [|done|].
    + apply H2. intros tx' Htx. apply Hk. apply elem_of_app. by left.
    + intros [= E%vec_to_list_inj2]. apply (Hk tx); [|done]. apply elem_of_app. right. by left.
Qed.

(** ** Reading *)

Lemma num_tx_outs_ok self t n :
  n < 2 ^ 64 → db_get t (counts self) NUM_TX_OUTS_KEY = Ok (u64_to_key_bytes n) →
  num_tx_outs self t = Done (Ok n, t).
Proof.
  intros Hn Hc. unfold num_tx_outs. dstep (get_Ok _ _ _ _ Hc).
  by rewrite key_round_trip.
Qed.

Lemma get_merkle_hash_ok self t r h :
  db_get t (merkle_hashes self) (range_to_key_bytes r) = Ok (vec_to_list h) →
  get_merkle_hash self r t = Done (Ok h, t).
Proof.
  intros Hg. unfold get_merkle_hash. dstep (get_Ok _ _ _ _ Hg). by rewrite to_bytes32_vec.
Qed.

Lemma get_merkle_hash_node self t txs P d lo :
  merkle_stored self t txs P → P d lo →
  get_merkle_hash self (node_range d lo) t = Done (Ok (merkle txs d lo), t).
Proof. intros H1 H2. by apply get_merkle_hash_ok, H1. Qed.

Lemma Range_new_node d lo : Range_new lo (lo + span d - 1) = Ok (node_range d lo).
Proof. unfold Range_new. rewrite (proj2 (N.leb_le _ _)); [done|]. pose proof (span_pos d). lia. Qed.

Lemma range_step d lo t :
  dresult (from_range_error (Range_new lo (lo + span d - 1))) t = Done (Ok (node_range d lo), t).
Proof. by rewrite Range_new_node. Qed.

(** ** Updating the tree *)

Section room.
Context `{!TransactionRoom T}.

Lemma write_node self t txs P k lo :
  (∀ d l, P d l → l + span d <= 2 ^ 63) → lo + span k <= 2 ^ 63 → merkle_stored self t txs P →
  ∃ t', write_merkle_hash self (node_range k lo) (merkle txs k lo) t = Done (Ok tt, t') ∧
    merkle_stored self t' txs (λ d l, P d l ∨ d = k ∧ l = lo) ∧
    (∀ db, db ≠ merkle_hashes self → same_db db t t').
Proof.
  intros HP Hlo Hs. unfold write_merkle_hash.
  destruct (put_room t (merkle_hashes self) (range_to_key_bytes (node_range k lo))
    (vec_to_list (merkle txs k lo)) FlagsEmpty) as [t' Hp]; [|by left|].
  { unfold valid_key, range_to_key_bytes. rewrite length_app, !length_be_bytes. lia. }
  exists t'. split_and!; [by apply put_Ok| |intros db Hdb; by eapply put_same_db].
  intros d l Hdl. destruct (decide (d = k ∧ l = lo)) as [[-> ->]|Hne].
  - by eapply get_put_same.
  - destruct Hdl as [HPd|]; [|done].
    erewrite get_put_other; [by apply Hs|done|].
    intros E. apply Hne, (range_key_inj d l k lo); [by apply HP|done|congruence].
Qed.

(** The nodes known before the iteration for the depth [k]: those that do not
    contain the new leaf [n], and those of lower depth that do. *)
Definition updated (n : N) (k : nat) (d : nat) (lo : N) : Prop :=
  tree_node (n + 1) d lo ∧ (lo ≠ lo_of n d ∨ (d < k)%nat).

Lemma mid_point lo s : 0 < s → lo + 2 * s <= 2 ^ 63 → u64_add lo (lo + 2 * s - 1) / 2 = lo + s - 1.
Proof.
  intros Hs Ht. rewrite u64_add_small by (unfold u64_modulus; lia).
  symmetry. apply (N.div_unique _ 2 _ 1); lia.
Qed.

Lemma update_step self t txs tx k :
  let n := len txs in
  n + 1 <= 2 ^ 63 → (k <= tree_depth (n + 1))%nat →
  db_get t (tx_out_by_index self) (u64_to_key_bytes n) = Ok (encode_tx_out tx) →
  merkle_stored self t (txs ++ [tx]) (updated n k) →
  ∃ t', update_merkle_hash self n (n + 1) (range_around n k) t = Done (Ok tt, t') ∧
    merkle_stored self t' (txs ++ [tx]) (updated n (S k)) ∧
    (∀ db, db ≠ merkle_hashes self → same_db db t t').
Proof.
  intros n Hn Hk Hi Hs. pose proof (span_pos k).
  assert (len (txs ++ [tx]) = n + 1) as Hlen by (unfold n, len; rewrite length_app; simpl; lia).
  assert (tree_node (n + 1) k (lo_of n k)) as Hnode by (apply tree_node_around; [lia|done]).
  pose proof (tree_node_top _ _ _ Hn Hnode) as Htop.
  destruct (write_node self t (txs ++ [tx]) (updated n k) k (lo_of n k)) as (t' & Hw & Hs' & Hsame);
    [intros d l [? _]; by apply (tree_node_top (n + 1))|done|done|].
  exists t'. split; [|split; [|done]].
  2:{ intros d l [Hd Hor]. apply Hs'. destruct (decide (d = k ∧ l = lo_of n k)) as [|Hne]; [by right|].
      left. split; [done|]. destruct Hor as [|Hlt]; [by left|].
      destruct (decide (d = k)) as [->|]; [left|right; lia]. intros ->. by apply Hne. }
  unfold update_merkle_hash, range_around. destruct k as [|k].
  - rewrite lo_of_0, span_0, N.add_sub, N.eqb_refl in *.
    assert (get_tx_out_by_index self n t = Done (Ok tx, t)) as Hget.
    { unfold get_tx_out_by_index. dstep (get_Ok _ _ _ _ Hi). by rewrite decode_encode_tx_out. }
    dstep Hget. unfold Range_new. rewrite (proj2 (N.leb_le n n)) by lia. simpl.
    assert (node_range 0 n = mkRange n n) as E by (unfold node_range; by rewrite span_0, N.add_sub).
    rewrite E, (merkle_leaf _ n tx) in Hw; [exact Hw|].
    unfold n, len. rewrite Nat2N.id. by rewrite lookup_app_r, Nat.sub_diag by lia.
  - set (lo := lo_of n (S k)) in *. pose proof (span_pos k).
    destruct Hnode as (_ & Hlo & q & Hq). rewrite span_S in *.
    assert (∀ l, l < n + 1 → (l = lo ∨ l = lo + span k) → updated n (S k) k l) as Hchild.
    { intros l Hl El. split; [|right; lia]. split; [lia|split; [done|]].
      destruct El as [->| ->]; [exists (2 * q)|exists (2 * q + 1)]; lia. }
    rewrite (proj2 (N.eqb_neq lo (lo + 2 * span k - 1))) by lia.
    rewrite mid_point by done. dstep (range_step k lo t).
    dstep (get_merkle_hash_node self t _ _ k lo Hs (Hchild lo Hlo (or_introl eq_refl))).
    rewrite u64_add_small by (unfold u64_modulus; lia).
    replace (lo + span k - 1 + 1) with (lo + span k) by lia.
    replace (lo + 2 * span k - 1) with (lo + span k + span k - 1) by lia.
    rewrite merkle_S in Hw by lia.
    assert ((if n + 1 <=? lo + span k then dret NIL_HASH
             else let@ r := dresult (from_range_error (Range_new (lo + span k) (lo + span k + span k - 1))) in
                  get_merkle_hash self r) t
            = Done (Ok (merkle (txs ++ [tx]) k (lo + span k)), t)) as Hr.
    { destruct (N.leb_spec (n + 1) (lo + span k)).
      - by rewrite merkle_nil by lia.
      - dstep (range_step k (lo + span k) t).
        apply (get_merkle_hash_node self t _ _ k _ Hs), Hchild; [lia|by right]. }
    dstep Hr.
    replace (lo + span k + span k - 1) with (lo + span (S k) - 1) by (rewrite span_S; lia).
    dstep (range_step (S k) lo t). exact Hw.
Qed.

(** The whole loop. *)
Lemma update_loop self txs tx m : ∀ t k,
  let n := len txs in
  n + 1 <= 2 ^ 63 → (k + m = S (tree_depth (n + 1)))%nat →
  tx_out_by_index self ≠ merkle_hashes self →
  db_get t (tx_out_by_index self) (u64_to_key_bytes n) = Ok (encode_tx_out tx) →
  merkle_stored self t (txs ++ [tx]) (updated n k) →
  ∃ t', dfor (update_merkle_hash self n (n + 1)) (range_around n <$> seq k m) t = Done (Ok tt, t') ∧
    merkle_stored self t' (txs ++ [tx]) (tree_node (n + 1)) ∧
    (∀ db, db ≠ merkle_hashes self → same_db db t t').
Proof.
  induction m as [|m IH]; intros t k n Hn Hk Hdb Hi Hs; simpl.
  - exists t. split_and!; [done| |done]. intros d lo Hd. apply Hs. split; [done|right].
    destruct Hd as [? _]. lia.
  - destruct (update_step self t txs tx k) as (t1 & Hstep & Hs1 & Hsame1); [done|fold n; lia|done..|].
    dstep Hstep. destruct (IH t1 (S k)) as (t2 & Hrest & Hs2 & Hsame2); [done|fold n; lia|done| |done|].
    { by rewrite (Hsame1 _ Hdb). }
    exists t2. split_and!; [done..|]. intros db Hne. eapply same_db_trans; auto.
Qed.

(** Before the loop: the nodes without the new leaf are those of the old tree. *)
Lemma updated_0 self t txs tx :
  merkle_stored self t txs (tree_node (len txs)) →
  merkle_stored self t (txs ++ [tx]) (updated (len txs) 0).
Proof.
  intros Hs d lo [(Hd & Hlo & q & ->) [Hne|]]; [|lia].
  destruct (aligned_cases (len txs) d q ltac:(lia)) as [|Hfull]; [done|].
  rewrite merkle_full by done. apply Hs. pose proof (span_pos d).
  split; [|split; [lia|by eexists]]. apply span_le_depth. lia.
Qed.

(** ** Appending *)

Lemma store_wf_ne self :
  store_wf self →
  (tx_out_by_index self ≠ counts self ∧ tx_out_index_by_hash self ≠ counts self ∧
   tx_out_index_by_public_key self ≠ counts self ∧ merkle_hashes self ≠ counts self) ∧
  (tx_out_by_index self ≠ tx_out_index_by_hash self ∧
   tx_out_by_index self ≠ tx_out_index_by_public_key self ∧
   tx_out_by_index self ≠ merkle_hashes self) ∧
  tx_out_index_by_hash self ≠ tx_out_index_by_public_key self ∧
  tx_out_index_by_hash self ≠ merkle_hashes self ∧
  tx_out_index_by_public_key self ≠ merkle_hashes self.
Proof.
  unfold store_wf. rewrite !NoDup_cons, !not_elem_of_cons. intros H1.
  destruct H1 as ((?&?&?&?&?) & (?&?&?&?) & (?&?&?) & (?&?) & _). auto 20.
Qed.

(** A write that finds room: the transaction after it and what it keeps. *)
Lemma put_step t db k v f :
  valid_key k → f = FlagsEmpty ∨ db_get t db k = Err LmdbNotFound →
  ∃ t', put db k v f t = Done (Ok tt, t') ∧ db_put t db k v f = (Ok tt, t') ∧
    (∀ db', db' ≠ db → same_db db' t t').
Proof.
  intros Hk Hf. destruct (put_room t db k v f Hk Hf) as [t' Hp].
  exists t'. split_and!; [by apply put_Ok|done|]. intros db' Hne. by eapply put_same_db.
Qed.

Lemma valid_key_32 (k : bytes32) : valid_key (vec_to_list k).
Proof. unfold valid_key. rewrite length_vec_to_list. lia. Qed.

Lemma valid_key_u64 i : valid_key (u64_to_key_bytes i).
Proof. unfold valid_key, u64_to_key_bytes. rewrite length_be_bytes. lia. Qed.

(** The entries by position after an append. *)
Lemma index_append t t' db txs tx f :
  len txs + 1 <= 2 ^ 63 →
  (∀ i, i < 2 ^ 64 → db_get t db (u64_to_key_bytes i)
     = match txs !! N.to_nat i with Some tx => Ok (encode_tx_out tx) | None => Err LmdbNotFound end) →
  db_put t db (u64_to_key_bytes (len txs)) (encode_tx_out tx) f = (Ok tt, t') →
  ∀ i, i < 2 ^ 64 → db_get t' db (u64_to_key_bytes i)
     = match (txs ++ [tx]) !! N.to_nat i with
       | Some tx => Ok (encode_tx_out tx) | None => Err LmdbNotFound
       end.
Proof.
  intros Hn Hi Hp i Hi64. destruct (decide (i = len txs)) as [->|Hne].
  - erewrite get_put_same by done. unfold len. rewrite Nat2N.id.
    by rewrite lookup_app_r, Nat.sub_diag by lia.
  - erewrite get_put_other; [|done|].
    2:{ intros E. apply Hne. apply u64_key_inj; [done|lia|congruence]. }
    rewrite Hi by done. unfold len in *.
    destruct (decide (N.to_nat i < length txs)%nat); [by rewrite lookup_app_l by lia|].
    rewrite lookup_ge_None_2, lookup_ge_None_2; [done|rewrite length_app; simpl|]; lia.
Qed.

(** The writes of [push] before the tree is updated. *)
Lemma push_entries_ok self t txs tx :
  store_wf self → store_ok self t txs → len txs + 1 <= 2 ^ 63 →
  (∀ tx', tx' ∈ txs → tx_out_hash tx' ≠ tx_out_hash tx ∧ public_key tx' ≠ public_key tx) →
  ∃ t', push_entries self tx t = Done (Ok (len txs), t') ∧
    store_entries self t' (txs ++ [tx]) ∧ same_db (merkle_hashes self) t t'.
Proof.
  intros (Nc & Ni & Nhk & Nhm & Nkm)%store_wf_ne [Hcap [Hcount Hidx Hhash Hkey] _] Hn Hfresh.
  destruct Nc as (Nic & Nhc & Nkc & Nmc). destruct Ni as (Nih & Nik & Nim).
  unfold push_entries. dstep (get_Ok _ _ _ _ Hcount). rewrite key_round_trip by lia.
  unfold dbind at 1, dexec. rewrite u64_add_small by (unfold u64_modulus; lia).
  destruct (put_step t (counts self) NUM_TX_OUTS_KEY (u64_to_key_bytes (len txs + 1)) FlagsEmpty)
    as (t1 & E1 & P1 & S1); [unfold valid_key; vm_compute; lia|by left|]. dstep E1.
  destruct (put_step t1 (tx_out_index_by_hash self) (vec_to_list (tx_out_hash tx))
    (u64_to_key_bytes (len txs)) NO_OVERWRITE) as (t2 & E2 & P2 & S2); [apply valid_key_32|right|].
  { rewrite (S1 _ Nhc). apply Hhash. intros. by apply Hfresh. }
  dstep E2.
  destruct (put_step t2 (tx_out_index_by_public_key self) (vec_to_list (public_key tx))
    (u64_to_key_bytes (len txs)) NO_OVERWRITE) as (t3 & E3 & P3 & S3); [apply valid_key_32|right|].
  { rewrite (S2 _ (not_eq_sym Nhk)), (S1 _ Nkc). apply Hkey. intros. by apply Hfresh. }
  dstep E3.
  assert (same_db (tx_out_by_index self) t t3) as Hs3.
  { eapply same_db_trans; [apply (S1 _ Nic)|]. eapply same_db_trans; [apply (S2 _ Nih)|apply (S3 _ Nik)]. }
  destruct (put_step t3 (tx_out_by_index self) (u64_to_key_bytes (len txs)) (encode_tx_out tx) NO_OVERWRITE)
    as (t4 & E4 & P4 & S4); [apply valid_key_u64|right|].
  { rewrite Hs3, Hidx by lia. unfold len. by rewrite Nat2N.id, lookup_ge_None_2 by lia. }
  dstep E4. exists t4. split; [done|split; [split|]].
  - rewrite (S4 _ (not_eq_sym Nic)), (S3 _ (not_eq_sym Nkc)), (S2 _ (not_eq_sym Nhc)), len_snoc.
    by eapply get_put_same.
  - eapply index_append; [done| |done]. intros j Hj. rewrite Hs3. auto.
  - eapply indexed_same; [eapply same_db_trans; [apply (S3 _ Nhk)|apply (S4 _ (not_eq_sym Nih))]|].
    eapply indexed_append; [by eapply indexed_same; [apply (S1 _ Nhc)|]| |done].
    intros. by apply Hfresh.
  - eapply indexed_same; [apply (S4 _ (not_eq_sym Nik))|].
    eapply indexed_append; [eapply indexed_same; [|done];
      eapply same_db_trans; [apply (S1 _ Nkc)|apply (S2 _ (not_eq_sym Nhk))]| |done].
    intros. by apply Hfresh.
  - eapply same_db_trans; [apply (S1 _ Nmc)|]. eapply same_db_trans; [apply (S2 _ (not_eq_sym Nhm))|].
    eapply same_db_trans; [apply (S3 _ (not_eq_sym Nkm))|apply (S4 _ (not_eq_sym Nim))].
Qed.

Lemma push_ok self t txs tx :
  store_wf self → store_ok self t txs → len txs + 1 <= 2 ^ 63 →
  (∀ tx', tx' ∈ txs → tx_out_hash tx' ≠ tx_out_hash tx ∧ public_key tx' ≠ public_key tx) →
  ∃ t', push self tx t = Done (Ok (len txs), t') ∧ store_ok self t' (txs ++ [tx]).
Proof.
  intros Hwf Hok Hn Hfresh.
  destruct (push_entries_ok self t txs tx) as (t1 & E1 & [Hcount Hidx Hhash Hkey] & Hs1); [done..|].
  apply store_wf_ne in Hwf as ((Nic & Nhc & Nkc & Nmc) & (_ & _ & Nim) & _ & Nhm & Nkm).
  destruct (update_loop self txs tx (S (tree_depth (len txs + 1))) t1 0)
    as (t2 & E2 & Hm2 & S2); [done..| |apply updated_0; eapply merkle_stored_same, Hok; done|].
  { rewrite Hidx by lia. unfold len. by rewrite Nat2N.id, lookup_app_r, Nat.sub_diag by lia. }
  assert (update_merkle_hashes self (len txs) t1 = Done (Ok tt, t2)) as E2'.
  { unfold update_merkle_hashes. rewrite len_snoc in Hcount.
    dstep (num_tx_outs_ok self t1 (len txs + 1) ltac:(lia) Hcount).
    rewrite (proj2 (N.leb_gt _ _)) by lia. rewrite containing_ranges_spec by lia. exact E2. }
  unfold push. dstep E1. dstep E2'. exists t2. split; [done|]. split; [rewrite len_snoc; lia|split|].
  - by rewrite (S2 _ (not_eq_sym Nmc)).
  - intros i Hi64. rewrite (S2 _ Nim). auto.
  - by eapply indexed_same; [apply (S2 _ Nhm)|].
  - by eapply indexed_same; [apply (S2 _ Nkm)|].
  - by rewrite len_snoc.
Qed.
End room.

(** ** Proofs of membership *)

Lemma other_child_sib i d :
  lo_of i (S d) + span (S d) <= 2 ^ 63 →
  other_child i (range_around i (S d)) = (sib_lo i d, sib_lo i d + span d - 1).
Proof.
  intros Htop. pose proof (span_pos d). pose proof (lo_of_bounds i d).
  unfold other_child, range_around. rewrite span_S in *. rewrite mid_point by done.
  rewrite u64_add_small by (unfold u64_modulus; lia).
  destruct (sib_lo_cases i d) as [[E1 ->]|[E1 ->]].
  - rewrite (proj2 (N.leb_le _ _)) by lia. f_equal; lia.
  - rewrite (proj2 (N.leb_gt _ _)) by lia. f_equal; lia.
Qed.

Lemma proof_element_ok self t txs d lo :
  store_ok self t txs → (lo < len txs → tree_node (len txs) d lo) →
  proof_element self (len txs) (lo, lo + span d - 1) t
  = Done (Ok (mkElement (node_range d lo) (merkle txs d lo)), t).
Proof.
  intros [_ _ Hm] Hn. unfold proof_element. dstep (range_step d lo t).
  destruct (N.leb_spec (len txs) lo) as [Hle|Hlt].
  - by rewrite merkle_nil.
  - by dstep (get_merkle_hash_node self t txs _ d lo Hm (Hn Hlt)).
Qed.

Lemma sib_node n i d : i < n → (S d <= tree_depth n)%nat → sib_lo i d < n → tree_node n d (sib_lo i d).
Proof.
  intros Hi Hd Hs. split; [lia|split; [done|]].
  destruct (sib_lo_cases i d) as [[_ ->]|[_ ->]]; unfold lo_of.
  - exists (i / span d + 1). by rewrite N.mul_add_distr_r, N.mul_1_l.
  - exists (2 * (i / span (S d))). generalize (i / span (S d)). intros q. rewrite span_S. lia.
Qed.

(** The proof made for an output is the path from its leaf. *)
Lemma get_proof_ok self t txs i :
  store_ok self t txs → i < len txs →
  get_merkle_proof_of_membership self i t
  = Done (Ok (path_proof txs i (len txs - 1) (tree_depth (len txs))), t).
Proof.
  intros Hok Hi. pose proof Hok as [Hcap [Hcount _ _ _] _].
  unfold get_merkle_proof_of_membership. dstep (num_tx_outs_ok self t (len txs) ltac:(lia) Hcount).
  rewrite (proj2 (N.leb_gt _ _) Hi), containing_ranges_spec by done.
  unfold dbind at 1, dresult.
  assert (dmap (proof_element self (len txs))
    ((i, i) :: (other_child i <$> drop 1 (range_around i <$> seq 0 (S (tree_depth (len txs)))))) t
    = Done (Ok (node_el txs i 0 :: (sib_el txs i <$> seq 0 (tree_depth (len txs)))), t)) as Hmap.
  { apply dmap_Done. constructor.
    - pose proof (proof_element_ok self t txs 0 i Hok) as He. unfold node_el. rewrite lo_of_0.
      rewrite span_0, N.add_sub in He. apply He. intros _. rewrite <-(lo_of_0 i).
      apply tree_node_around; [done|lia].
    - simpl. rewrite drop_0, <-fmap_S_seq, <-list_fmap_compose, <-list_fmap_compose.
      apply Forall2_fmap, Forall_Forall2_diag, Forall_seq. intros d Hd. unfold compose.
      rewrite other_child_sib.
      + apply proof_element_ok; [done|]. intros ?. apply sib_node; [done|lia|done].
      + eapply tree_node_top; [done|]. apply tree_node_around; [done|lia]. }
  dstep Hmap. unfold dret. rewrite u64_sub_small by (unfold u64_modulus; lia). done.
Qed.

Lemma root_hash_ok self t txs :
  store_ok self t txs → get_root_merkle_hash self t = Done (Ok (merkle_root txs), t).
Proof.
  intros [Hcap [Hcount _ _ _] Hm]. unfold get_root_merkle_hash.
  dstep (num_tx_outs_ok self t (len txs) ltac:(lia) Hcount).
  destruct (N.eqb_spec (len txs) 0) as [E|E].
  - unfold merkle_root. by rewrite merkle_nil by lia.
  - rewrite next_power_of_two_small, tree_depth_span by done.
    rewrite <-(N.add_0_l (span _)). dstep (range_step (tree_depth (len txs)) 0 t).
    apply (get_merkle_hash_node self t txs _ _ _ Hm). split; [done|split; [lia|by exists 0]].
Qed.

(** Verifying the path of a leaf against the root. *)
Lemma path_proof_valid txs i tx highest :
  len txs <= 2 ^ 63 → txs !! N.to_nat i = Some tx → i <= highest → highest < len txs →
  is_membership_proof_valid tx (path_proof txs i highest (tree_depth (len txs))) (merkle_root txs)
  = Ok true.
Proof.
  intros Hcap Htx Hih Hh. pose proof (tree_depth_bound (len txs)).
  pose proof (tree_depth_le_63 _ Hcap).
  unfold is_membership_proof_valid. rewrite path_root by lia.
  cbn [path_proof highest_index proof_index proof_elements].
  rewrite (proj2 (N.ltb_ge _ _)) by done. unfold is_leaf_of, node_el at 1 2 3 4, node_range.
  cbn [el_range el_hash range_from range_to].
  rewrite lo_of_0, span_0, N.add_sub, N.eqb_refl, (merkle_leaf _ _ _ Htx).
  rewrite bool_decide_true by done. simpl.
  rewrite lo_of_small by lia. simpl.
  rewrite (proj2 (N.ltb_ge _ _)) by lia. f_equal. by apply bool_decide_true.
Qed.
End props.

Module StoreProps.
Section props.
Context {T : Type} `{Transaction T} `{!TransactionLaws T} `{D : Digests} `{C : TxOutCodec}.
Implicit Types (self : TxOutStore) (t : T) (txs : list TxOut).

Lemma push_duplicate `{!TransactionRoom T} self t txs tx tx' :
  store_wf self → store_ok self t txs → tx' ∈ txs →
  tx_out_hash tx' = tx_out_hash tx ∨ public_key tx' = public_key tx →
  ∃ t', push self tx t = Done (Err (Lmdb LmdbKeyExist), t').
Proof.
  intros Hwf [Hcap [Hcount _ Hhash Hkey] _] [i Hi]%list_elem_of_lookup Hdup.
  apply store_wf_ne in Hwf as ((Nic & Nhc & Nkc & _) & _ & Nhk & _).
  unfold push, push_entries.
  assert (∀ db k v w t1, db_get t1 db k = Ok w →
    put db k v NO_OVERWRITE t1 = Done (Err (Lmdb LmdbKeyExist), t1)) as Hput.
  { intros db k v w t1 Hg. unfold put. by rewrite (put_no_overwrite t1 db k v w). }
  unfold dbind at 1. dstep (get_Ok _ _ _ _ Hcount). rewrite key_round_trip by lia.
  unfold dbind at 1, dexec at 1.
  destruct (put_step t (counts self) NUM_TX_OUTS_KEY (u64_to_key_bytes (u64_add (len txs) 1)) FlagsEmpty)
    as (t1 & E1 & P1 & S1); [unfold valid_key; vm_compute; lia|by left|]. dstep E1.
  destruct (db_get t1 (tx_out_index_by_hash self) (vec_to_list (tx_out_hash tx))) as [w|e] eqn:Eh.
  { exists t1. by rewrite (dbind_Err _ _ _ _ _ (Hput _ _ _ _ _ Eh)). }
  rewrite (S1 _ Nhc) in Eh. destruct Hdup as [Hh|Hk].
  { destruct Hhash as [Hh1 _]. apply Hh1 in Hi. rewrite Hh in Hi. congruence. }
  destruct Hhash as [Hh1 Hh2].
  assert (db_get t (tx_out_index_by_hash self) (vec_to_list (tx_out_hash tx)) = Err LmdbNotFound) as En.
  { apply Hh2. intros tx1 [j Hj]%list_elem_of_lookup Heq. apply Hh1 in Hj. rewrite Heq in Hj. congruence. }
  destruct (put_step t1 (tx_out_index_by_hash self) (vec_to_list (tx_out_hash tx))
    (u64_to_key_bytes (len txs)) NO_OVERWRITE) as (t2 & E2 & P2 & S2); [apply valid_key_32|right|].
  { by rewrite (S1 _ Nhc). }
  dstep E2. exists t2. erewrite dbind_Err; [done|]. eapply Hput.
  rewrite (S2 _ (not_eq_sym Nhk)), (S1 _ Nkc). destruct Hkey as [Hk1 _]. rewrite <-Hk. by apply Hk1.
Qed.

(** C9: [push] refines appending to a list.  On a store that holds the
    outputs [txs], fewer than 2^63, and whose database has room, pushing an
    output whose hash and public key are new returns its position, and leaves a store that holds [txs ++ [tx]], with the whole
    Merkle tree over them up to date. *)
Theorem push_refines_append `{!TransactionRoom T} self t txs tx :
  store_wf self → store_ok self t txs → len txs < 2 ^ 63 →
  (∀ tx', tx' ∈ txs → tx_out_hash tx' ≠ tx_out_hash tx ∧ public_key tx' ≠ public_key tx) →
  ∃ t', push self tx t = Done (Ok (len txs), t') ∧ store_ok self t' (txs ++ [tx]).
Proof. intros. apply push_ok; [done..|lia|done]. Qed.

(** [push] refuses an output whose hash or public key is in the store
    already: it returns the error of the write that would overwrite. *)
Theorem push_rejects_duplicates `{!TransactionRoom T} self t txs tx tx' :
  store_wf self → store_ok self t txs → tx' ∈ txs →
  tx_out_hash tx' = tx_out_hash tx ∨ public_key tx' = public_key tx →
  ∃ t', push self tx t = Done (Err (Lmdb LmdbKeyExist), t').
Proof. apply push_duplicate. Qed.

(** The lookups of a store that holds the outputs [txs] read that
    list: its length, the output at a position (or [NotFound]), and the
    position of an output by its hash and by its public key. *)
Theorem store_lookups self t txs i :
  store_ok self t txs → i < 2 ^ 64 →
  num_tx_outs self t = Done (Ok (len txs), t) ∧
  get_tx_out_by_index self i t
    = Done (match txs !! N.to_nat i with Some tx => Ok tx | None => Err NotFound end, t) ∧
  (∀ tx, txs !! N.to_nat i = Some tx →
     get_tx_out_index_by_hash self (tx_out_hash tx) t = Done (Ok i, t) ∧
     get_tx_out_index_by_public_key self (public_key tx) t = Done (Ok i, t)).
Proof.
  intros [Hcap [Hcount Hidx [Hh _] [Hk _]] _] Hi. split; [|split].
  - apply num_tx_outs_ok; [lia|done].
  - unfold get_tx_out_by_index, dbind, get. rewrite (Hidx i Hi).
    destruct (txs !! N.to_nat i); [|done]. by rewrite decode_encode_tx_out.
  - intros tx Htx. apply Hh in Htx as Hg. apply Hk in Htx as Hg'. rewrite N2Nat.id in *.
    unfold get_tx_out_index_by_hash, get_tx_out_index_by_public_key.
    dstep (get_Ok _ _ _ _ Hg). dstep (get_Ok _ _ _ _ Hg'). by rewrite key_round_trip.
Qed.

(** Proofs of membership are complete.  For every output in the store,
    [get_merkle_proof_of_membership] returns a proof for its position that
    [is_membership_proof_valid] accepts for the output and the root hash the
    store reports; there is no proof for a position beyond the last. *)
Theorem membership_proof_complete self t txs i :
  store_ok self t txs →
  match txs !! N.to_nat i with
  | Some tx => ∃ proof root,
      get_merkle_proof_of_membership self i t = Done (Ok proof, t) ∧
      get_root_merkle_hash self t = Done (Ok root, t) ∧
      proof_index proof = i ∧ highest_index proof = len txs - 1 ∧
      is_membership_proof_valid tx proof root = Ok true
  | None => get_merkle_proof_of_membership self i t = Done (Err (TxOutIndexOutOfBounds i), t)
  end.
Proof.
  intros Hok. pose proof Hok as [Hcap [Hcount _ _ _] _].
  destruct (txs !! N.to_nat i) as [tx|] eqn:Etx.
  - assert (i < len txs) by (apply lookup_lt_Some in Etx; unfold len; lia).
    exists (path_proof txs i (len txs - 1) (tree_depth (len txs))), (merkle_root txs).
    split_and!; [by apply get_proof_ok|by apply root_hash_ok|done..|].
    apply path_proof_valid; [done..|lia|lia].
  - apply lookup_ge_None in Etx. unfold get_merkle_proof_of_membership.
    dstep (num_tx_outs_ok self t (len txs) ltac:(lia) Hcount).
    rewrite (proj2 (N.leb_le _ _)); [done|]. unfold len. lia.
Qed.

(** Rolling a proof back is correct.  From the proof of an output,
    [derive_proof_at_index] makes the proof the store would have given when the
    output was the last one: its implied root is the root hash of the outputs
    up to it, and it is accepted for that root. *)
Theorem derived_proof_rolls_back self t txs i tx :
  store_ok self t txs → txs !! N.to_nat i = Some tx →
  ∃ proof derived e,
    get_merkle_proof_of_membership self i t = Done (Ok proof, t) ∧
    derive_proof_at_index proof = Ok derived ∧
    compute_implied_merkle_root derived = Ok e ∧
    el_hash e = merkle_root (take (N.to_nat (i + 1)) txs) ∧
    is_membership_proof_valid tx derived (merkle_root (take (N.to_nat (i + 1)) txs)) = Ok true.
Proof.
  intros Hok Htx. pose proof Hok as [Hcap _ _].
  assert (i < len txs) as Hi by (apply lookup_lt_Some in Htx; unfold len; lia).
  pose proof (tree_depth_bound (len txs)). pose proof (tree_depth_le_63 _ Hcap).
  assert (len (take (N.to_nat (i + 1)) txs) = i + 1) as Hl.
  { unfold len in *. rewrite length_take. lia. }
  pose proof (tree_depth_bound (i + 1)). pose proof (tree_depth_le_63 (i + 1) ltac:(lia)).
  do 3 eexists. split; [by apply get_proof_ok|]. split; [apply derive_path; lia|].
  split; [apply path_root; lia|]. split.
  - simpl. unfold merkle_root. rewrite Hl, lo_of_small by lia. done.
  - pose proof (path_proof_valid (take (N.to_nat (i + 1)) txs) i tx i) as Hv. rewrite Hl in Hv.
    apply Hv; [lia| |lia..]. by rewrite lookup_take_lt by lia.
Qed.
End props.

(** ** An instance *)

(** Outputs as bytes: the bits of their code in a countable type. *)
Fixpoint pos_bytes (p : positive) : bytes :=
  match p with xH => [] | xO p => u8 0 :: pos_bytes p | xI p => u8 1 :: pos_bytes p end.
Fixpoint bytes_pos (l : bytes) : positive :=
  match l with
  | [] => xH
  | b :: l => if bool_decide (b = u8 0) then xO (bytes_pos l) else xI (bytes_pos l)
  end.

Lemma bytes_pos_bytes p : bytes_pos (pos_bytes p) = p.
Proof. induction p as [p IH|p IH|]; simpl; [by rewrite IH|by rewrite IH|done]. Qed.

#[local] Program Instance toy_codec : TxOutCodec :=
  {| encode_tx_out := λ o, pos_bytes (encode o); decode_tx_out := λ l, decode (bytes_pos l) |}.
Next Obligation. intros o. simpl. by rewrite bytes_pos_bytes, decode_encode. Qed.

#[local] Existing Instance MembershipProps.toy_digests.

Definition ex_store : TxOutStore := mkTxOutStore 0 1 2 3 4.
Definition ex_tx (k : N) : TxOut := MembershipProps.toy_tx_out k.

(** The store after [create]. *)
Definition ex_created : map_txn := {[ (0, NUM_TX_OUTS_KEY) := u64_to_key_bytes 0 ]}.

Lemma ex_store_wf : store_wf ex_store.
Proof. apply (bool_decide_unpack _). by vm_compute. Qed.

Lemma ex_created_other d k : d ≠ 0 → db_get ex_created d k = Err LmdbNotFound.
Proof. intros Hd. unfold db_get, map_transaction, ex_created. rewrite lookup_singleton_ne; [done|congruence]. Qed.

Lemma ex_created_ok : create ex_store ∅ = Done (Ok tt, ex_created) ∧ store_ok ex_store ex_created [].
Proof.
  split; [done|]. split; [by vm_compute| |].
  - split.
    + by vm_compute.
    + intros i _. by rewrite ex_created_other.
    + split; [intros ? ? E; by rewrite lookup_nil in E|]. intros k _. by apply ex_created_other.
    + split; [intros ? ? E; by rewrite lookup_nil in E|]. intros k _. by apply ex_created_other.
  - intros d lo (_ & Hlo & _). by apply N.nlt_0_r in Hlo.
Qed.

Lemma ex_tx_fresh j k tx' :
  j mod 256 ≠ k mod 256 → tx' = ex_tx j →
  tx_out_hash tx' ≠ tx_out_hash (ex_tx k) ∧ public_key tx' ≠ public_key (ex_tx k).
Proof.
  intros Hjk ->. assert (public_key (ex_tx j) ≠ public_key (ex_tx k)); [|done].
  intros E%(f_equal (λ v : bytes32, v !!! (Fin.F1 : fin 32))). simpl in E. apply (f_equal Byte.to_N) in E. rewrite !to_N_u8 in E. done.
Qed.

Lemma ex_two : ∃ t, store_ok ex_store t [ex_tx 7; ex_tx 8].
Proof.
  destruct (push_ok ex_store ex_created [] (ex_tx 7)) as (t1 & _ & H1);
    [apply ex_store_wf|apply ex_created_ok|by vm_compute|by intros ? ?%not_elem_of_nil|].
  destruct (push_ok ex_store t1 [ex_tx 7] (ex_tx 8)) as (t2 & _ & H2);
    [apply ex_store_wf|done|by vm_compute| |by exists t2].
  intros tx' ->%list_elem_of_singleton. by apply (ex_tx_fresh 7 8).
Qed.

Lemma push_refines_append_witness :
  ∃ t', push ex_store (ex_tx 7) ex_created = Done (Ok 0, t') ∧ store_ok ex_store t' [ex_tx 7].
Proof.
  apply (push_refines_append ex_store ex_created [] (ex_tx 7));
    [apply ex_store_wf|apply ex_created_ok|by vm_compute|by intros ? ?%not_elem_of_nil].
Defined.

Lemma push_rejects_duplicates_witness :
  ∃ t t', store_ok ex_store t [ex_tx 7; ex_tx 8] ∧
    push ex_store (ex_tx 8) t = Done (Err (Lmdb LmdbKeyExist), t').
Proof.
  destruct ex_two as [t Ht].
  destruct (push_rejects_duplicates ex_store t [ex_tx 7; ex_tx 8] (ex_tx 8) (ex_tx 8)) as [t' E];
    [apply ex_store_wf|done|right; by left|by left|by exists t, t'].
Defined.

Lemma store_lookups_witness :
  ∃ t, num_tx_outs ex_store t = Done (Ok 2, t) ∧
    get_tx_out_by_index ex_store 1 t = Done (Ok (ex_tx 8), t).
Proof.
  destruct ex_two as [t Ht]. exists t.
  destruct (store_lookups ex_store t [ex_tx 7; ex_tx 8] 1 Ht) as (E1 & E2 & _); [done|].
  split; [exact E1|exact E2].
Defined.

Lemma membership_proof_complete_witness :
  ∃ t proof root,
    get_merkle_proof_of_membership ex_store 1 t = Done (Ok proof, t) ∧
    get_root_merkle_hash ex_store t = Done (Ok root, t) ∧
    is_membership_proof_valid (ex_tx 8) proof root = Ok true.
Proof.
  destruct ex_two as [t Ht].
  destruct (membership_proof_complete ex_store t _ 1 Ht) as (proof & root & E1 & E2 & _ & _ & E3).
  by exists t, proof, root.
Defined.

Lemma derived_proof_rolls_back_witness :
  ∃ t proof derived e,
    get_merkle_proof_of_membership ex_store 0 t = Done (Ok proof, t) ∧
    derive_proof_at_index proof = Ok derived ∧
    compute_implied_merkle_root derived = Ok e ∧
    el_hash e = merkle_root [ex_tx 7].
Proof.
  destruct ex_two as [t Ht].
  destruct (derived_proof_rolls_back ex_store t _ 0 (ex_tx 7) Ht) as (p & d & e & E1 & E2 & E3 & E4 & _);
    [done|]. by exists t, p, d, e.
Defined.
End StoreProps.
