(* ===== verification/BlockVersion.v ===== *)
(** * Block versions

    [transaction/types/src/block_version.rs]: the version number of the rules
    and the features each version has. *)

From S2P Require Import Prelude.

Open Scope N_scope.

(** [BlockVersion] wraps a [u32]. *)
Notation BlockVersion := N (only parsing).

Definition VERSION_ZERO : BlockVersion := 0.
Definition VERSION_ONE : BlockVersion := 1.
Definition VERSION_TWO : BlockVersion := 2.
Definition VERSION_THREE : BlockVersion := 3.
Definition VERSION_FOUR : BlockVersion := 4.
Definition VERSION_MAX : BlockVersion := VERSION_FOUR.

Inductive BlockVersionError :=
| UnsupportedBlockVersion (version max : N)
| ParseBlockVersion.

(** [TryFrom<u32>]. *)
Definition BlockVersion_try_from (src : N) : result BlockVersion BlockVersionError :=
  if src <=? VERSION_MAX then Ok src else Err (UnsupportedBlockVersion src VERSION_MAX).

Definition e_memo_feature_is_supported (v : BlockVersion) : bool := VERSION_ONE <=? v.
Definition masked_token_id_feature_is_supported (v : BlockVersion) : bool := VERSION_TWO <=? v.
Definition validate_transaction_outputs_are_sorted (v : BlockVersion) : bool := VERSION_THREE <=? v.
Definition mint_transactions_are_supported (v : BlockVersion) : bool := VERSION_TWO <=? v.
Definition minting_to_fog_addresses_is_supported (v : BlockVersion) : bool := VERSION_THREE <=? v.
Definition mlsags_sign_extended_message_digest (v : BlockVersion) : bool := VERSION_TWO <=? v.
Definition mixed_transactions_are_supported (v : BlockVersion) : bool := VERSION_THREE <=? v.
Definition signed_input_rules_are_supported (v : BlockVersion) : bool := VERSION_THREE <=? v.
Definition masked_amount_v2_is_supported (v : BlockVersion) : bool := VERSION_THREE <=? v.
Definition require_block_metadata (v : BlockVersion) : bool := VERSION_THREE <=? v.
Definition mlsags_sign_extended_message_and_tx_summary_digest (v : BlockVersion) : bool :=
  VERSION_THREE <=? v.
Definition nested_multisigs_are_supported (v : BlockVersion) : bool := VERSION_THREE <=? v.

(** [BlockVersionIterator::next]: the item and the next state. *)
Definition BlockVersionIterator_next (state : N) : option BlockVersion * N :=
  if state <=? VERSION_MAX then (Some state, u32_add state 1) else (None, state).
