(* ===== verification/MaskedAmount.v ===== *)
(** * Masked amounts

    [transaction/types/src/masked_amount]: an output carries a commitment to
    its value and token id, and both masked with a secret its recipient can
    derive.  The key derivation, the hash to scalars and the Pedersen
    commitments come from third-party crates and are parameters, the class
    [AmountCrypto]. *)

From stdpp Require Import vector strings.
From S2P Require Import Prelude Ord Bytes BlockVersion TxOut.

Open Scope N_scope.

(** [Amount]; the token id wraps a [u64]. *)
Record Amount := mkAmount { value : N; token_id : N }.

#[export] Instance Amount_eq_dec : EqDecision Amount.
Proof. solve_decision. Defined.

(** [TokenId::NUM_BYTES]. *)
Definition TOKEN_ID_NUM_BYTES : nat := 8.

Inductive AmountError :=
| InconsistentCommitment
| InvalidMaskedTokenId
| MissingMaskedAmountError
| TokenIdNotSupportedAtBlockVersion
| AmountVersionTooOldForAmountSharedSecret.

Definition AMOUNT_VALUE_DOMAIN_TAG : bytes := str_bytes "mc_amount_value".
Definition AMOUNT_TOKEN_ID_DOMAIN_TAG : bytes := str_bytes "mc_amount_token_id".
Definition AMOUNT_BLINDING_DOMAIN_TAG : bytes := str_bytes "mc_amount_blinding".
Definition AMOUNT_SHARED_SECRET_DOMAIN_TAG : bytes := str_bytes "mc_amount_shared_secret".
Definition AMOUNT_BLINDING_FACTORS_DOMAIN_TAG : bytes := str_bytes "mc_amount_blinding_factors".

(** Shared secrets are curve points, kept as their 32 bytes. *)
Notation RistrettoPublic := bytes32.

Class AmountCrypto : Type := {
  Scalar : Type;
  (** The canonical bytes of a scalar. *)
  scalar_bytes : Scalar → bytes32;
  (** [Blake2b512], and the scalar of a 64-byte string. *)
  blake2b512 : bytes → vec byte 64;
  scalar_from_wide : vec byte 64 → Scalar;
  (** [Hkdf::<Sha512>::new(salt, ikm).expand(info, n)]. *)
  hkdf : bytes → bytes32 → bytes → ∀ n : nat, vec byte n;
  (** [CompressedCommitment::new(value, blinding, &generators(token_id))]. *)
  pedersen : N → Scalar → N → CompressedCommitment
}.

Section amounts.
Context `{K : AmountCrypto}.

(** ** Version 1 *)

Definition get_value_mask (ss : RistrettoPublic) : N :=
  let scalar := scalar_from_wide (blake2b512 (AMOUNT_VALUE_DOMAIN_TAG ++ vec_to_list ss)) in
  le_value (take 8 (vec_to_list (scalar_bytes scalar))).

Definition get_token_id_mask (ss : RistrettoPublic) : N :=
  le_value (take 8 (vec_to_list (blake2b512 (AMOUNT_TOKEN_ID_DOMAIN_TAG ++ vec_to_list ss)))).

Definition get_blinding (ss : RistrettoPublic) : Scalar :=
  scalar_from_wide (blake2b512 (AMOUNT_BLINDING_DOMAIN_TAG ++ vec_to_list ss)).

(** [MaskedAmountV1::new]. *)
Definition v1_new (amount : Amount) (ss : RistrettoPublic) : result MaskedAmountV1 AmountError :=
  let blinding := get_blinding ss in
  let commitment := pedersen (value amount) blinding (token_id amount) in
  let masked_value := N.lxor (value amount) (get_value_mask ss) in
  let masked_token_id_val := N.lxor (token_id amount) (get_token_id_mask ss) in
  Ok (mkMaskedAmountV1 commitment masked_value (le_bytes 8 masked_token_id_val)).

Definition v1_unmask_value (masked_value : N) (ss : RistrettoPublic) : N :=
  N.lxor masked_value (get_value_mask ss).

(** [unmask_token_id]: no bytes mean the token id 0. *)
Definition v1_unmask_token_id (masked_token_id : bytes) (ss : RistrettoPublic) : result N AmountError :=
  if bool_decide (length masked_token_id = 0%nat) then Ok 0
  else if bool_decide (length masked_token_id = TOKEN_ID_NUM_BYTES)
  then Ok (N.lxor (le_value masked_token_id) (get_token_id_mask ss))
  else Err InvalidMaskedTokenId.

Definition v1_compute_commitment (masked_value : N) (masked_token_id : bytes) (ss : RistrettoPublic) :
    result (CompressedCommitment * Amount * Scalar) AmountError :=
  let? token_id := v1_unmask_token_id masked_token_id ss in
  let value := v1_unmask_value masked_value ss in
  let blinding := get_blinding ss in
  Ok (pedersen value blinding token_id, mkAmount value token_id, blinding).

(** [MaskedAmountV1::get_value]. *)
Definition v1_get_value (a : MaskedAmountV1) (ss : RistrettoPublic) : result (Amount * Scalar) AmountError :=
  let? (expected_commitment, amount, blinding) :=
    v1_compute_commitment (v1_masked_value a) (v1_masked_token_id a) ss in
  if negb (bool_decide (v1_commitment a = expected_commitment)) then Err InconsistentCommitment
  else Ok (amount, blinding).

(** [MaskedAmountV1::reconstruct]. *)
Definition v1_reconstruct (masked_value : N) (masked_token_id : bytes) (ss : RistrettoPublic) :
    result (MaskedAmountV1 * Amount) AmountError :=
  let? (expected_commitment, amount, _) := v1_compute_commitment masked_value masked_token_id ss in
  Ok (mkMaskedAmountV1 expected_commitment masked_value masked_token_id, amount).

(** ** Version 2 *)

(** [get_blinding_factors]. *)
Definition get_blinding_factors (ss : bytes32) : N * N * Scalar :=
  let expand := hkdf AMOUNT_BLINDING_FACTORS_DOMAIN_TAG ss in
  (le_value (vec_to_list (expand AMOUNT_VALUE_DOMAIN_TAG 8%nat)),
   le_value (vec_to_list (expand AMOUNT_TOKEN_ID_DOMAIN_TAG 8%nat)),
   scalar_from_wide (expand AMOUNT_BLINDING_DOMAIN_TAG 64%nat)).

(** [MaskedAmountV2::new_from_amount_shared_secret]. *)
Definition v2_new_from_amount_shared_secret (amount : Amount) (ss : bytes32) :
    result MaskedAmountV2 AmountError :=
  let '(value_mask, token_id_mask, blinding) := get_blinding_factors ss in
  let commitment := pedersen (value amount) blinding (token_id amount) in
  let masked_value := N.lxor (value amount) value_mask in
  let masked_token_id_val := N.lxor (token_id amount) token_id_mask in
  Ok (mkMaskedAmountV2 commitment masked_value (le_bytes 8 masked_token_id_val)).

(** [MaskedAmountV2::compute_amount_shared_secret]: the first 32 bytes of the
    digest. *)
Definition v2_compute_amount_shared_secret (ss : RistrettoPublic) : bytes32 :=
  fun_to_vec (λ i : fin 32, blake2b512 (AMOUNT_SHARED_SECRET_DOMAIN_TAG ++ vec_to_list ss)
                     !!! (Fin.L 32 i : fin 64)).

Definition v2_new (amount : Amount) (ss : RistrettoPublic) : result MaskedAmountV2 AmountError :=
  v2_new_from_amount_shared_secret amount (v2_compute_amount_shared_secret ss).

(** [compute_commitment]: the masked token id must be present. *)
Definition v2_compute_commitment (masked_value : N) (masked_token_id : bytes) (ss : bytes32) :
    result (CompressedCommitment * Amount * Scalar) AmountError :=
  let '(value_mask, token_id_mask, blinding) := get_blinding_factors ss in
  if bool_decide (length masked_token_id = TOKEN_ID_NUM_BYTES)
  then
    let token_id := N.lxor (le_value masked_token_id) token_id_mask in
    let value := N.lxor masked_value value_mask in
    Ok (pedersen value blinding token_id, mkAmount value token_id, blinding)
  else Err InvalidMaskedTokenId.

(** [MaskedAmountV2::get_value_from_amount_shared_secret]. *)
Definition v2_get_value_from_amount_shared_secret (a : MaskedAmountV2) (ss : bytes32) :
    result (Amount * Scalar) AmountError :=
  let? (expected_commitment, amount, blinding) :=
    v2_compute_commitment (v2_masked_value a) (v2_masked_token_id a) ss in
  if negb (bool_decide (v2_commitment a = expected_commitment)) then Err InconsistentCommitment
  else Ok (amount, blinding).

Definition v2_get_value (a : MaskedAmountV2) (ss : RistrettoPublic) : result (Amount * Scalar) AmountError :=
  v2_get_value_from_amount_shared_secret a (v2_compute_amount_shared_secret ss).

(** [MaskedAmountV2::reconstruct]. *)
Definition v2_reconstruct (masked_value : N) (masked_token_id : bytes) (ss : RistrettoPublic) :
    result (MaskedAmountV2 * Amount) AmountError :=
  let? (expected_commitment, amount, _) :=
    v2_compute_commitment masked_value masked_token_id (v2_compute_amount_shared_secret ss) in
  Ok (mkMaskedAmountV2 expected_commitment masked_value masked_token_id, amount).

(** ** Either version *)

(** [MaskedAmount::new]. *)
Definition MaskedAmount_new (block_version : BlockVersion) (amount : Amount) (ss : RistrettoPublic) :
    result MaskedAmount AmountError :=
  if masked_amount_v2_is_supported block_version then
    let? a := v2_new amount ss in Ok (V2 a)
  else if negb (masked_token_id_feature_is_supported block_version) && negb (token_id amount =? 0)
  then Err TokenIdNotSupportedAtBlockVersion
  else
    let? a := v1_new amount ss in
    let a := if negb (masked_token_id_feature_is_supported block_version)
             then mkMaskedAmountV1 (v1_commitment a) (v1_masked_value a) [] else a in
    Ok (V1 a).

(** [MaskedAmount::new_from_amount_shared_secret]. *)
Definition MaskedAmount_new_from_amount_shared_secret (block_version : BlockVersion)
    (amount : Amount) (ss : bytes32) : result MaskedAmount AmountError :=
  if masked_amount_v2_is_supported block_version
  then let? a := v2_new_from_amount_shared_secret amount ss in Ok (V2 a)
  else Err AmountVersionTooOldForAmountSharedSecret.

(** [MaskedAmount::get_value]. *)
Definition get_value (a : MaskedAmount) (ss : RistrettoPublic) : result (Amount * Scalar) AmountError :=
  match a with V1 a => v1_get_value a ss | V2 a => v2_get_value a ss end.

(** [MaskedAmount::get_value_from_amount_shared_secret]. *)
Definition get_value_from_amount_shared_secret (a : MaskedAmount) (ss : bytes32) :
    result (Amount * Scalar) AmountError :=
  match a with
  | V1 _ => Err AmountVersionTooOldForAmountSharedSecret
  | V2 a => v2_get_value_from_amount_shared_secret a ss
  end.

(** [MaskedAmount::compute_amount_shared_secret]. *)
Definition compute_amount_shared_secret (block_version : BlockVersion) (ss : RistrettoPublic) :
    result bytes32 AmountError :=
  if masked_amount_v2_is_supported block_version then Ok (v2_compute_amount_shared_secret ss)
  else Err AmountVersionTooOldForAmountSharedSecret.

(** [MaskedAmount::reconstruct_v1] and [reconstruct_v2]. *)
Definition reconstruct_v1 (masked_value : N) (masked_token_id : bytes) (ss : RistrettoPublic) :
    result (MaskedAmount * Amount) AmountError :=
  let? (a, amount) := v1_reconstruct masked_value masked_token_id ss in Ok (V1 a, amount).
Definition reconstruct_v2 (masked_value : N) (masked_token_id : bytes) (ss : RistrettoPublic) :
    result (MaskedAmount * Amount) AmountError :=
  let? (a, amount) := v2_reconstruct masked_value masked_token_id ss in Ok (V2 a, amount).
End amounts.

Module MaskedAmountProps.
Section props.
Context `{K : AmountCrypto}.

Lemma mask_lt (l : bytes) : (length l <= 8)%nat → le_value l < 2 ^ 64.
Proof.
  intros Hl. eapply N.lt_le_trans; [apply le_value_lt|].
  change (2 ^ 64) with (256 ^ N.of_nat 8). apply N.pow_le_mono_r; lia.
Qed.

(** A masked token id in 8 bytes is unmasked. *)
Lemma unmask_token_id t mask :
  t < 2 ^ 64 → mask < 2 ^ 64 → N.lxor (le_value (le_bytes 8 (N.lxor t mask))) mask = t.
Proof.
  intros Ht Hm. rewrite le_value_bytes; [apply xor_unmask|].
  change (256 ^ N.of_nat 8) with (2 ^ 64). by apply lxor_lt.
Qed.

Lemma v1_round_trip amount ss a :
  token_id amount < 2 ^ 64 → v1_new amount ss = Ok a →
  v1_get_value a ss = Ok (amount, get_blinding ss) ∧
  (token_id amount = 0 →
   v1_get_value (mkMaskedAmountV1 (v1_commitment a) (v1_masked_value a) []) ss
   = Ok (amount, get_blinding ss)).
Proof.
  intros Ht [= <-]. unfold v1_get_value, v1_compute_commitment, v1_unmask_token_id, v1_unmask_value.
  simpl v1_masked_token_id. simpl v1_masked_value. simpl v1_commitment.
  rewrite !xor_unmask. rewrite length_le_bytes. simpl.
  rewrite unmask_token_id; [|done|].
  - destruct amount as [v t]. simpl. rewrite bool_decide_true by done. simpl.
    split; [done|]. intros ->. by rewrite bool_decide_true.
  - apply mask_lt. rewrite length_take. lia.
Qed.

Lemma v2_round_trip amount ss a :
  token_id amount < 2 ^ 64 → v2_new_from_amount_shared_secret amount ss = Ok a →
  v2_get_value_from_amount_shared_secret a ss = Ok (amount, (get_blinding_factors ss).2).
Proof.
  intros Ht. unfold v2_new_from_amount_shared_secret, v2_get_value_from_amount_shared_secret,
    v2_compute_commitment, get_blinding_factors.
  intros [= <-]. simpl v2_masked_token_id. simpl v2_masked_value. simpl v2_commitment.
  rewrite xor_unmask, length_le_bytes. simpl.
  rewrite unmask_token_id; [|done|apply mask_lt; by rewrite length_vec_to_list].
  destruct amount as [v t]. simpl. by rewrite bool_decide_true.
Qed.

(** Masking an amount can be undone with the shared secret.  At every
    block version [MaskedAmount::new] succeeds, except for a token id other
    than 0 before token ids were masked, and [get_value] returns the amount
    again, with the blinding of the commitment the output carries. *)
Theorem masked_amount_roundtrip block_version amount ss :
  token_id amount < 2 ^ 64 →
  if negb (masked_token_id_feature_is_supported block_version) && negb (token_id amount =? 0)
  then MaskedAmount_new block_version amount ss = Err TokenIdNotSupportedAtBlockVersion
  else ∃ a blinding, MaskedAmount_new block_version amount ss = Ok a ∧
         get_value a ss = Ok (amount, blinding) ∧
         commitment a = pedersen (value amount) blinding (token_id amount).
Proof.
  intros Ht. unfold MaskedAmount_new, masked_amount_v2_is_supported, masked_token_id_feature_is_supported.
  destruct (v2_new amount ss) as [a2|] eqn:E2; [|done].
  destruct (v1_new amount ss) as [a1|] eqn:E1; [|done].
  pose proof (v1_round_trip amount ss a1 Ht E1) as [Hv1 Hv1'].
  pose proof (v2_round_trip amount _ a2 Ht E2) as Hv2.
  destruct (N.leb_spec VERSION_TWO block_version) as [H2|H2]; simpl.
  - destruct (VERSION_THREE <=? block_version); do 2 eexists;
      (split; [reflexivity|]; split; [eassumption|]); [by injection E2 as <-|by injection E1 as <-].
  - rewrite (proj2 (N.leb_gt VERSION_THREE block_version)) by (unfold VERSION_TWO, VERSION_THREE in *; lia).
    destruct (N.eqb_spec (token_id amount) 0) as [E0|]; simpl; [|done].
    do 2 eexists. split; [reflexivity|]. split; [by apply Hv1'|]. by injection E1 as <-.
Qed.
End props.

#[local] Instance toy_amount_crypto : AmountCrypto := {|
  Scalar := N;
  scalar_bytes := λ s, vreplicate 32 (u8 s);
  blake2b512 := λ l, vreplicate 64 (u8 (be_value l));
  scalar_from_wide := λ v, be_value (vec_to_list v);
  hkdf := λ salt ikm info n, vreplicate n (u8 (be_value (vec_to_list ikm ++ info)));
  pedersen := λ v b t, vreplicate 32 (u8 (v + b + t))
|}.

Lemma masked_amount_roundtrip_witness :
  ∃ a blinding, MaskedAmount_new VERSION_THREE (mkAmount 100 8) (vreplicate 32 (u8 5)) = Ok a ∧
    get_value a (vreplicate 32 (u8 5)) = Ok (mkAmount 100 8, blinding).
Proof.
  destruct (masked_amount_roundtrip VERSION_THREE (mkAmount 100 8) (vreplicate 32 (u8 5)))
    as (a & b & E1 & E2 & _); [by vm_compute|]. by exists a, b.
Defined.
End MaskedAmountProps.
