(* ===== verification/Tx.v ===== *)
(** * Transactions

    The data of a transaction ([transaction/core/src/tx.rs]), the rules the
    signer of an input may impose ([input_rules.rs], [revealed_tx_out.rs]) and
    the ratio used by partial fills ([util/u64-ratio]).

    [InputRulesProps] shows what a verified set of rules guarantees to its
    signer, in terms of exact fractions. *)

From stdpp Require Import vector.
From S2P Require Import Prelude Ord Bytes BlockVersion TxOut Membership MaskedAmount.

Open Scope N_scope.

(** ** Data *)

Record RevealedTxOut := mkRevealedTxOut { rev_tx_out : TxOut; amount_shared_secret : bytes }.

Record InputRules := mkInputRules {
  required_outputs : list TxOut;
  max_tombstone_block : N;
  partial_fill_outputs : list RevealedTxOut;
  partial_fill_change : option RevealedTxOut;
  min_partial_fill_value : N
}.

Record TxIn := mkTxIn {
  ring : list TxOut;
  proofs : list TxOutMembershipProof;
  input_rules : option InputRules
}.

Record TxPrefix := mkTxPrefix {
  inputs : list TxIn;
  outputs : list TxOut;
  fee : N;
  tombstone_block : N;
  fee_token_id : N
}.

(** A ring signature; scalars and key images are 32 bytes. *)
Record RingMLSAG := mkRingMLSAG {
  c_zero : bytes32;
  responses : list bytes32;
  key_image : bytes32
}.

Record SignatureRctBulletproofs := mkSignature {
  ring_signatures : list RingMLSAG;
  pseudo_output_commitments : list CompressedCommitment;
  range_proof_bytes : bytes;
  range_proofs : list bytes;
  pseudo_output_token_ids : list N;
  output_token_ids : list N
}.

Record Tx := mkTx {
  prefix : TxPrefix;
  signature : SignatureRctBulletproofs;
  fee_map_digest : bytes
}.

(** [Tx::key_images], [Tx::output_public_keys] and
    [get_membership_proof_highest_indices]. *)
Definition key_images (tx : Tx) : list bytes32 := key_image <$> ring_signatures (signature tx).
Definition output_public_keys (tx : Tx) : list CompressedRistrettoPublic :=
  public_key <$> outputs (prefix tx).
Definition get_membership_proof_highest_indices (p : TxPrefix) : list N :=
  inputs p ≫= λ tx_in, highest_index <$> proofs tx_in.

(** [iter.map(f).collect::<Result<Vec<_>, _>>()]: stop at the first error. *)
Fixpoint result_map {A B E} (f : A → result B E) (l : list A) : result (list B) E :=
  match l with
  | [] => Ok []
  | x :: l => let? y := f x in let? ys := result_map f l in Ok (y :: ys)
  end.

Lemma result_map_Ok {A B E} (f : A → result B E) l ys :
  result_map f l = Ok ys ↔ Forall2 (λ x y, f x = Ok y) l ys.
Proof.
  revert ys. induction l as [|x l IH]; intros ys; simpl.
  - split; [intros [= <-]; constructor|]. by inversion 1.
  - rewrite result_bind_Ok. split.
    + intros (y & Hy & H). apply result_bind_Ok in H as (ys' & Hys & [= <-]).
      constructor; [done|]. by apply IH.
    + inversion 1 as [|x' y l' ys' Hy Hys]; subst. exists y. split; [done|].
      apply IH in Hys. by rewrite Hys.
Qed.

Lemma result_map_Err {A B E} (f : A → result B E) l e :
  result_map f l = Err e → ∃ x, x ∈ l ∧ f x = Err e.
Proof.
  induction l as [|x l IH]; simpl; [done|]. destruct (f x) as [y|e'] eqn:Ef; simpl.
  - destruct (result_map f l); simpl; [done|]. intros [= ->].
    destruct IH as (x' & ? & ?); [done|]. exists x'. split; [by right|done].
  - intros [= ->]. exists x. split; [by left|done].
Qed.

(** [TxPrefix::output_commitments]. *)
Definition output_commitments (p : TxPrefix) : result (list CompressedCommitment) TxOutConversionError :=
  result_map (λ o, let? a := get_masked_amount o in Ok (commitment a)) (outputs p).

Record ReducedTxOut := mkReducedTxOut {
  reduced_public_key : CompressedRistrettoPublic;
  reduced_target_key : CompressedRistrettoPublic;
  reduced_commitment : CompressedCommitment
}.

Record SignedInputRing := mkSignedInputRing {
  members : list ReducedTxOut;
  ring_signed_digest : option bytes32
}.

(** [TryFrom<&TxOut> for ReducedTxOut]. *)
Definition ReducedTxOut_try_from (src : TxOut) : result ReducedTxOut TxOutConversionError :=
  let? a := get_masked_amount src in
  Ok (mkReducedTxOut (public_key src) (target_key src) (commitment a)).

(** What transactions need of cryptography: the Merlin digest of an input, and
    the verification of the ring signatures and range proofs. *)
Class TxCrypto : Type := {
  tx_in_digest : TxIn → bytes32;
  RingCtError : Type;
  Rng : Type;
  signature_verify : SignatureRctBulletproofs → BlockVersion → TxPrefix → list SignedInputRing →
    list CompressedCommitment → Amount → Rng → result unit RingCtError
}.

(** [TxIn::signed_digest]: the digest without the membership proofs. *)
Definition signed_digest `{TxCrypto} (tx_in : TxIn) : option bytes32 :=
  match input_rules tx_in with
  | Some _ => Some (tx_in_digest (mkTxIn (ring tx_in) [] (input_rules tx_in)))
  | None => None
  end.

(** [TryFrom<&TxIn> for SignedInputRing] and [get_input_rings]. *)
Definition SignedInputRing_try_from `{TxCrypto} (src : TxIn) :
    result SignedInputRing TxOutConversionError :=
  let? ms := result_map ReducedTxOut_try_from (ring src) in
  Ok (mkSignedInputRing ms (signed_digest src)).
Definition get_input_rings `{TxCrypto} (p : TxPrefix) :
    result (list SignedInputRing) TxOutConversionError :=
  result_map SignedInputRing_try_from (inputs p).

(** ** Ratios *)

Definition u128_modulus : N := 2 ^ 128.
Definition u128_mul (a b : N) : N := (a * b) mod u128_modulus.
Definition u128_add (a b : N) : N := (a + b) mod u128_modulus.

(** [U64Ratio]: two [u64]s extended to [u128]s. *)
Record U64Ratio := mkU64Ratio { num : N; denom : N }.

Definition U64Ratio_new (num denom : N) : option U64Ratio :=
  if denom =? 0 then None else Some (mkU64Ratio num denom).

(** [TryInto<u64>]. *)
Definition try_into_u64 (n : N) : option N := if n <? u64_modulus then Some n else None.

Definition checked_mul_round_down (r : U64Ratio) (val : N) : option N :=
  try_into_u64 (u128_mul val (num r) / denom r).
Definition checked_mul_round_up (r : U64Ratio) (val : N) : option N :=
  try_into_u64 (u128_add (u128_mul val (num r)) (denom r - 1) / denom r).

Definition U64Ratio_eq (a b : U64Ratio) : bool :=
  u128_mul (num a) (denom b) =? u128_mul (num b) (denom a).
#[export] Instance U64Ratio_ord : Ord U64Ratio := λ a b,
  cmp (u128_mul (num a) (denom b)) (u128_mul (num b) (denom a)).

(** ** Input rules *)

Inductive RevealedTxOutError :=
| InvalidAmountSharedSecret
| TxOutConversion (e : TxOutConversionError)
| RevealedAmount (e : AmountError).

Inductive InputRuleError :=
| MissingRequiredOutput
| MaxTombstoneBlockExceeded
| PartialFillOutputsNotExpected
| MinPartialFillValueNotExpected
| MissingFractionalChangeOutput
| MissingFractionalOutput
| FractionalOutputTokenIdMismatch
| ZeroPartialFillChange
| MinPartialFillValueExceedsPartialFillChange
| FractionalOutputAmountDoesNotRespectFillFraction
| FractionalChangeOutputAmountExceedsLimit
| RevealedTxOutErr (e : RevealedTxOutError).

Definition ok_or {A E} (o : option A) (e : E) : result A E :=
  match o with Some a => Ok a | None => Err e end.

(** [Iterator::find]. *)
Definition find_first {A} (f : A → bool) (l : list A) : option A :=
  snd <$> list_find (λ x, f x = true) l.

(** [InputRules::associated_tx_outs]: a [BTreeMap] by public key, where a later
    output replaces an earlier one with the same key. *)
Definition associated_tx_outs (self : InputRules) : gmap CompressedRistrettoPublic TxOut :=
  foldl (λ result output, <[ public_key output := output ]> result) ∅
    (required_outputs self ++ (rev_tx_out <$> partial_fill_outputs self) ++
     (rev_tx_out <$> option_list (partial_fill_change self))).

Section rules.
Context `{K : AmountCrypto}.

(** [try_reveal_amount]. *)
Definition try_reveal_amount (tx_out : TxOut) (ss : bytes) :
    result (Amount * Scalar) RevealedTxOutError :=
  let? ss := ok_or (to_bytes32 ss) InvalidAmountSharedSecret in
  let? a := map_err TxOutConversion (get_masked_amount tx_out) in
  map_err RevealedAmount (get_value_from_amount_shared_secret a ss).

(** [RevealedTxOut::reveal_amount]. *)
Definition reveal_amount (r : RevealedTxOut) : result (Amount * Scalar) RevealedTxOutError :=
  try_reveal_amount (rev_tx_out r) (amount_shared_secret r).

(** [RevealedTxOut::change_committed_amount]. *)
Definition change_committed_amount (r : RevealedTxOut) (new_amount : Amount) :
    result TxOut RevealedTxOutError :=
  let o := rev_tx_out r in
  let? a := map_err TxOutConversion (get_masked_amount o) in
  match a with
  | V1 _ => Err (RevealedAmount AmountVersionTooOldForAmountSharedSecret)
  | V2 _ =>
      let? ss := ok_or (to_bytes32 (amount_shared_secret r)) InvalidAmountSharedSecret in
      let? new := map_err RevealedAmount (v2_new_from_amount_shared_secret new_amount ss) in
      Ok (mkTxOut (Some (V2 new)) (target_key o) (public_key o) (e_fog_hint o) (e_memo o))
  end.

(** One iteration of the loop over the partial fill outputs. *)
Definition verify_partial_fill_output (tx : Tx) (fill_fraction : U64Ratio)
    (partial_fill_output : RevealedTxOut) : result unit InputRuleError :=
  let? (partial_fill_output_amount, _) := map_err RevealedTxOutErr (reveal_amount partial_fill_output) in
  let? fractional_output :=
    ok_or (find_first (eq_ignoring_amount (rev_tx_out partial_fill_output)) (outputs (prefix tx)))
      MissingFractionalOutput in
  let? (fractional_output_amount, _) :=
    map_err RevealedTxOutErr
      (try_reveal_amount fractional_output (amount_shared_secret partial_fill_output)) in
  if negb (token_id fractional_output_amount =? token_id partial_fill_output_amount)
  then Err FractionalOutputTokenIdMismatch
  else
    let? this_output_fraction :=
      ok_or (U64Ratio_new (value fractional_output_amount) (value partial_fill_output_amount))
        FractionalOutputAmountDoesNotRespectFillFraction in
    if ord_ltb this_output_fraction fill_fraction
    then Err FractionalOutputAmountDoesNotRespectFillFraction
    else Ok tt.

(** A [for] loop that returns at the first error. *)
Fixpoint for_each {A E} (f : A → result unit E) (l : list A) : result unit E :=
  match l with [] => Ok tt | x :: l => let? _ := f x in for_each f l end.

(** [verify_partial_fill_rules]. *)
Definition verify_partial_fill_rules (self : InputRules) (tx : Tx) : result unit InputRuleError :=
  match partial_fill_change self with
  | Some change =>
      let? (change_amount, _) := map_err RevealedTxOutErr (reveal_amount change) in
      if value change_amount <? min_partial_fill_value self
      then Err MinPartialFillValueExceedsPartialFillChange
      else if value change_amount =? 0 then Err ZeroPartialFillChange
      else
        let? fractional_change :=
          ok_or (find_first (eq_ignoring_amount (rev_tx_out change)) (outputs (prefix tx)))
            MissingFractionalChangeOutput in
        let? (fractional_change_amount, _) :=
          map_err RevealedTxOutErr (try_reveal_amount fractional_change (amount_shared_secret change)) in
        if negb (token_id fractional_change_amount =? token_id change_amount)
        then Err FractionalOutputTokenIdMismatch
        else if u64_sub (value change_amount) (min_partial_fill_value self)
                  <? value fractional_change_amount
        then Err FractionalChangeOutputAmountExceedsLimit
        else
          let? fill_fraction :=
            ok_or (U64Ratio_new (u64_sub (value change_amount) (value fractional_change_amount))
                     (value change_amount)) ZeroPartialFillChange in
          for_each (verify_partial_fill_output tx fill_fraction) (partial_fill_outputs self)
  | None =>
      if negb (bool_decide (partial_fill_outputs self = [])) then Err PartialFillOutputsNotExpected
      else if negb (min_partial_fill_value self =? 0) then Err MinPartialFillValueNotExpected
      else Ok tt
  end.

(** [InputRules::verify]. *)
Definition rules_verify (self : InputRules) (block_version : BlockVersion) (tx : Tx) :
    result unit InputRuleError :=
  if negb (max_tombstone_block self =? 0) && (max_tombstone_block self <? tombstone_block (prefix tx))
  then Err MaxTombstoneBlockExceeded
  else
    let? _ := for_each (λ required, if negb (existsb (λ x, bool_decide (x = required))
                                                (outputs (prefix tx)))
                                    then Err MissingRequiredOutput else Ok tt)
                (required_outputs self) in
    verify_partial_fill_rules self tx.
End rules.

(** ** Lemmas *)

Lemma u128_mul_small a b : a < 2 ^ 64 → b < 2 ^ 64 → u128_mul a b = a * b.
Proof.
  intros Ha Hb. unfold u128_mul, u128_modulus. apply N.mod_small.
  change (2 ^ 128) with (2 ^ 64 * 2 ^ 64). nia.
Qed.

Lemma for_each_Ok {A E} (f : A → result unit E) l :
  for_each f l = Ok tt ↔ Forall (λ x, f x = Ok tt) l.
Proof.
  induction l as [|x l IH]; simpl; [by split; [constructor|]|].
  rewrite Forall_cons. destruct (f x) as [[]|]; simpl; [rewrite IH; naive_solver|naive_solver].
Qed.

Lemma ok_or_Ok {A E} (o : option A) (e : E) a : ok_or o e = Ok a ↔ o = Some a.
Proof. destruct o; naive_solver. Qed.

Lemma map_err_Ok {A E F} (f : E → F) (r : result A E) a : map_err f r = Ok a ↔ r = Ok a.
Proof. destruct r; naive_solver. Qed.

Lemma find_first_Some {A} (f : A → bool) l x : find_first f l = Some x → x ∈ l ∧ f x = true.
Proof.
  unfold find_first. intros ([i y] & E & ->)%fmap_Some. simpl.
  apply list_find_Some in E as (Hi & Hf & _). split; [by eapply list_elem_of_lookup_2|done].
Qed.

(** The masked value of an output is a [u64]. *)
Definition tx_out_u64 (o : TxOut) : Prop :=
  match masked_amount o with
  | Some (V1 a) => v1_masked_value a < 2 ^ 64
  | Some (V2 a) => v2_masked_value a < 2 ^ 64
  | None => True
  end.

Module InputRulesProps.
Section props.
Context `{K : AmountCrypto}.

Lemma revealed_lt o ss a b :
  tx_out_u64 o → try_reveal_amount o ss = Ok (a, b) → value a < 2 ^ 64.
Proof.
  unfold try_reveal_amount, get_masked_amount, tx_out_u64. intros Hu H.
  apply result_bind_Ok in H as (s & _ & H). apply result_bind_Ok in H as (m & Hm & H).
  apply map_err_Ok in Hm, H. destruct (masked_amount o) as [m'|]; [|done]. injection Hm as ->.
  destruct m as [m|m]; [done|]. simpl in H. unfold v2_get_value_from_amount_shared_secret in H.
  apply result_bind_Ok in H as ([[c a'] b'] & Hc & H).
  unfold v2_compute_commitment in Hc. destruct (get_blinding_factors s) as [[vm tm] bl] eqn:Eb.
  destruct (bool_decide (length (v2_masked_token_id m) = _)) in Hc; [|done]. injection Hc as <- <- <-. destruct (negb _); [done|].
  injection H as <- <-. simpl. apply lxor_lt; [done|].
  unfold get_blinding_factors in Eb. injection Eb as <- _ _. apply MaskedAmountProps.mask_lt. by rewrite length_vec_to_list.
Qed.

(** Comparing ratios of [u64]s. *)
Lemma ratio_lt_spec a b :
  num a < 2 ^ 64 → denom a < 2 ^ 64 → num b < 2 ^ 64 → denom b < 2 ^ 64 →
  ord_ltb a b = (num a * denom b <? num b * denom a).
Proof.
  intros. unfold ord_ltb, cmp, U64Ratio_ord. rewrite !u128_mul_small by done.
  unfold cmp, N_ord, N.ltb. done.
Qed.

Lemma partial_fill_output_Ok tx fill_fraction p :
  Forall tx_out_u64 (outputs (prefix tx)) → tx_out_u64 (rev_tx_out p) →
  num fill_fraction < 2 ^ 64 → denom fill_fraction < 2 ^ 64 →
  verify_partial_fill_output tx fill_fraction p = Ok tt →
  ∃ want got o b b', reveal_amount p = Ok (want, b) ∧ o ∈ outputs (prefix tx) ∧
    eq_ignoring_amount (rev_tx_out p) o = true ∧
    try_reveal_amount o (amount_shared_secret p) = Ok (got, b') ∧
    token_id got = token_id want ∧ 0 < value want ∧
    num fill_fraction * value want <= value got * denom fill_fraction.
Proof.
  intros Hout Hp Hn Hd H. unfold verify_partial_fill_output in H.
  apply result_bind_Ok in H as ([want b] & Hw & H). apply map_err_Ok in Hw.
  apply result_bind_Ok in H as (o & Ho & H). apply ok_or_Ok, find_first_Some in Ho as [Ho Heq].
  apply result_bind_Ok in H as ([got b'] & Hg & H). apply map_err_Ok in Hg.
  destruct (N.eqb_spec (token_id got) (token_id want)) as [Et|]; [|done]. simpl in H.
  apply result_bind_Ok in H as (r & Hr & H). apply ok_or_Ok in Hr. unfold U64Ratio_new in Hr.
  destruct (N.eqb_spec (value want) 0) as [|Hw0]; [done|]. injection Hr as <-.
  pose proof (revealed_lt _ _ _ _ Hp Hw). rewrite Forall_forall in Hout.
  pose proof (revealed_lt _ _ _ _ (Hout _ Ho) Hg).
  rewrite ratio_lt_spec in H by done. simpl in H.
  destruct (N.ltb_spec (value got * denom fill_fraction) (num fill_fraction * value want)); [done|].
  exists want, got, o, b, b'. split_and!; try done. lia.
Qed.

(** C30: rules that verify are respected, in exact arithmetic.  The
    transaction has every required output and respects the tombstone limit; if
    the rules allow partial fills, there is a change output of the same owner
    and token whose value leaves at least the minimum fill, and every partial
    fill output is matched by one of the same owner and token that is at least
    the filled fraction of it (the fraction of the change that was not
    returned), as fractions of integers, without overflow. *)
Theorem input_rules_enforced (self : InputRules) block_version tx :
  Forall tx_out_u64 (outputs (prefix tx)) →
  Forall (λ p, tx_out_u64 (rev_tx_out p))
    (partial_fill_outputs self ++ option_list (partial_fill_change self)) →
  rules_verify self block_version tx = Ok tt →
  (max_tombstone_block self = 0 ∨ tombstone_block (prefix tx) <= max_tombstone_block self) ∧
  (∀ o, o ∈ required_outputs self → o ∈ outputs (prefix tx)) ∧
  match partial_fill_change self with
  | None => partial_fill_outputs self = [] ∧ min_partial_fill_value self = 0
  | Some change =>
      ∃ full left o b b', reveal_amount change = Ok (full, b) ∧ o ∈ outputs (prefix tx) ∧
        eq_ignoring_amount (rev_tx_out change) o = true ∧
        try_reveal_amount o (amount_shared_secret change) = Ok (left, b') ∧
        token_id left = token_id full ∧ 0 < value full ∧
        value left + min_partial_fill_value self <= value full ∧
        ∀ p, p ∈ partial_fill_outputs self →
          ∃ want got o b b', reveal_amount p = Ok (want, b) ∧ o ∈ outputs (prefix tx) ∧
            eq_ignoring_amount (rev_tx_out p) o = true ∧
            try_reveal_amount o (amount_shared_secret p) = Ok (got, b') ∧
            token_id got = token_id want ∧ 0 < value want ∧
            (value full - value left) * value want <= value got * value full
  end.
Proof.
  intros Hout [Hpf Hch]%Forall_app H. unfold rules_verify in H.
  destruct (negb (max_tombstone_block self =? 0) && _) eqn:Et; [done|].
  apply result_bind_Ok in H as ([] & Hreq & H). split; [|split].
  - apply andb_false_iff in Et as [Et|Et].
    + apply negb_false_iff, N.eqb_eq in Et. by left.
    + apply N.ltb_ge in Et. by right.
  - intros o Ho. apply for_each_Ok in Hreq. rewrite Forall_forall in Hreq. apply Hreq in Ho.
    destruct (existsb _ _) eqn:Ex; [|done]. apply existsb_exists in Ex as (x & Hx & E).
    apply bool_decide_eq_true in E as ->. by apply list_elem_of_In.
  - unfold verify_partial_fill_rules in H. destruct (partial_fill_change self) as [change|].
    2:{ case_bool_decide; [|done]. destruct (N.eqb_spec (min_partial_fill_value self) 0); done. }
    apply result_bind_Ok in H as ([full b] & Hf & H). apply map_err_Ok in Hf.
    destruct (N.ltb_spec (value full) (min_partial_fill_value self)); [done|].
    destruct (N.eqb_spec (value full) 0); [done|].
    apply result_bind_Ok in H as (o & Ho & H). apply ok_or_Ok, find_first_Some in Ho as [Ho Heq].
    apply result_bind_Ok in H as ([left b'] & Hl & H). apply map_err_Ok in Hl.
    destruct (N.eqb_spec (token_id left) (token_id full)) as [Etk|]; [|done]. simpl in H.
    simpl in Hch. rewrite Forall_singleton in Hch. pose proof (revealed_lt _ _ _ _ Hch Hf) as Hfull.
    rewrite u64_sub_small in H by done.
    destruct (N.ltb_spec (value full - min_partial_fill_value self) (value left)); [done|].
    apply result_bind_Ok in H as (fr & Hfr & H). apply ok_or_Ok in Hfr. unfold U64Ratio_new in Hfr.
    destruct (N.eqb_spec (value full) 0); [done|]. injection Hfr as <-.
    exists full, left, o, b, b'. split_and!; try done; [lia|lia|].
    intros p Hp. apply for_each_Ok in H. rewrite Forall_forall in H, Hpf.
    rewrite u64_sub_small in H by (done || lia).
    apply (partial_fill_output_Ok tx _ p Hout (Hpf p Hp)) in H; simpl in H |- *; [|lia|done|done].
    done.
Qed.
End props.

#[local] Existing Instance MaskedAmountProps.toy_amount_crypto.

(** An output of value [v] whose amount is revealed by a secret. *)
Definition ex_revealed (k v : N) : RevealedTxOut :=
  let ss : bytes32 := vreplicate 32 (u8 k) in
  let a := match v2_new_from_amount_shared_secret (mkAmount v 0) ss with
           | Ok a => Some (V2 a) | Err _ => None
           end in
  mkRevealedTxOut (mkTxOut a ss ss [] None) (vec_to_list ss).

(** An offer to give up to 100 for 50, of which 60 are taken for 30. *)
Definition ex_rules : InputRules :=
  mkInputRules [rev_tx_out (ex_revealed 9 5)] 20 [ex_revealed 2 50] (Some (ex_revealed 1 100)) 10.
Definition ex_tx : Tx :=
  mkTx (mkTxPrefix [] [rev_tx_out (ex_revealed 9 5); rev_tx_out (ex_revealed 1 40);
                       rev_tx_out (ex_revealed 2 30)] 1 10 0)
    (mkSignature [] [] [] [] [] []) [].

Lemma input_rules_enforced_witness :
  rules_verify ex_rules VERSION_THREE ex_tx = Ok tt ∧
  ((max_tombstone_block ex_rules = 0 ∨ tombstone_block (prefix ex_tx) <= max_tombstone_block ex_rules) ∧
   (∀ o, o ∈ required_outputs ex_rules → o ∈ outputs (prefix ex_tx))).
Proof.
  assert (rules_verify ex_rules VERSION_THREE ex_tx = Ok tt) as H by by vm_compute.
  split; [exact H|].
  destruct (input_rules_enforced ex_rules VERSION_THREE ex_tx) as (H1 & H2 & _);
    [repeat constructor..|exact H|exact (conj H1 H2)].
Defined.
End InputRulesProps.

Module RatioProps.
(** The ratio of [u64]s computes with fractions exactly.  Comparison is
    comparison of fractions, multiplication rounds down (up) to the next
    integer, and fails only when the result exceeds a [u64], which it does not
    for a ratio of at most 1. *)
Theorem u64_ratio_exact (a b : U64Ratio) val :
  num a < 2 ^ 64 → 0 < denom a < 2 ^ 64 → num b < 2 ^ 64 → 0 < denom b < 2 ^ 64 → val < 2 ^ 64 →
  cmp a b = N.compare (num a * denom b) (num b * denom a) ∧
  U64Ratio_eq a b = (num a * denom b =? num b * denom a) ∧
  (∀ r, checked_mul_round_down a val = Some r →
     r * denom a <= val * num a ∧ val * num a < (r + 1) * denom a) ∧
  (∀ r, checked_mul_round_up a val = Some r →
     val * num a <= r * denom a ∧ r * denom a < val * num a + denom a) ∧
  (num a <= denom a →
     is_Some (checked_mul_round_down a val) ∧ is_Some (checked_mul_round_up a val)).
Proof.
  intros Hna [Hd0 Hda] Hnb [_ Hdb] Hv.
  unfold U64Ratio_eq, checked_mul_round_down, checked_mul_round_up, cmp, U64Ratio_ord, cmp, N_ord.
  rewrite !u128_mul_small by done.
  assert (u128_add (val * num a) (denom a - 1) = val * num a + (denom a - 1)) as ->.
  { unfold u128_add, u128_modulus. apply N.mod_small. change (2 ^ 128) with (2 ^ 64 * 2 ^ 64). nia. }
  set (p := val * num a). set (d := denom a) in *.
  assert (∀ x, x / d * d <= x ∧ x < (x / d + 1) * d) as Hdiv.
  { intros x. pose proof (N.Div0.div_mod x d) as E. pose proof (N.mod_lt x d ltac:(lia)) as Hm.
    set (q := x / d) in *. set (r := x mod d) in *. clearbody q r. nia. }
  assert (∀ x r, try_into_u64 (x / d) = Some r → r = x / d) as Htry.
  { intros x r. unfold try_into_u64. destruct (_ <? _); congruence. }
  split; [done|split; [done|split; [|split]]].
  - intros r ->%Htry. apply Hdiv.
  - intros r ->%Htry. pose proof (Hdiv (p + (d - 1))) as [? ?]. lia.
  - intros Hle. unfold try_into_u64. rewrite u64_modulus_pow.
    assert (∀ x, x < (val + 1) * d → is_Some (if x / d <? 2 ^ 64 then Some (x / d) else None)) as Hs.
    { intros x Hx. rewrite (proj2 (N.ltb_lt _ _)); [done|].
      apply (N.le_lt_trans _ val); [|done]. apply N.lt_succ_r, N.Div0.div_lt_upper_bound. lia. }
    split; apply Hs; subst p; nia.
Qed.

Lemma u64_ratio_exact_witness :
  checked_mul_round_up (mkU64Ratio 2 3) 10 = Some 7 ∧
  (10 * 2 <= 7 * 3 ∧ 7 * 3 < 10 * 2 + 3).
Proof.
  split; [by vm_compute|].
  destruct (u64_ratio_exact (mkU64Ratio 2 3) (mkU64Ratio 1 2) 10) as (_ & _ & _ & Hup & _);
    [by vm_compute..|]. by apply (Hup 7).
Defined.
End RatioProps.
