(* ===== verification/TxValidation.v ===== *)
(** * Validation of transactions

    [transaction/core/src/validation/validate.rs]: the checks a transaction
    passes in the enclave before it can enter consensus.  [ValidationProps]
    characterizes the transactions that pass, and shows that their ring members
    are outputs of the ledger when the root proofs come from the store. *)

From stdpp Require Import vector strings.
From S2P Require Import Prelude Ord Bytes Lmdb BlockVersion TxOut Membership MaskedAmount Tx TxOutStore MerkleTree TxOutStoreProps.

Open Scope N_scope.

(** ** Constants *)

Definition RING_SIZE : nat := 11.
Definition MAX_INPUTS : N := 16.
Definition MAX_OUTPUTS : N := 16.
Definition MAX_TOMBSTONE_BLOCKS : N := 20160.

Section validation.
Context `{D : Digests} `{K : AmountCrypto} `{X : TxCrypto}.

(** [TransactionValidationError]; the message of [Ledger] is left out. *)
Inductive TransactionValidationError :=
| InputsProofsLengthMismatch
| NoInputs
| TooManyInputs
| InsufficientInputSignatures
| InvalidInputSignature
| InvalidTransactionSignature (e : RingCtError)
| InvalidRangeProof
| InsufficientRingSize
| TombstoneBlockExceeded
| TombstoneBlockTooFar
| TxNoOutputs
| TooManyOutputs
| ExcessiveRingSize
| DuplicateRingElements
| UnsortedRingElements
| UnequalRingSizes
| UnsortedInputs
| UnsortedKeyImages
| ContainsSpentKeyImage
| DuplicateKeyImages
| TxDuplicateOutputPublicKey
| ContainsExistingOutputPublicKey
| MissingTxOutMembershipProof
| InvalidTxOutMembershipProof
| InvalidRistrettoPublicKey
| InvalidLedgerContext
| Ledger
| LedgerTxOutIndexOutOfBounds (index : N)
| MembershipProofValidationError
| TxFeeError
| KeyError
| MissingMemo
| MemosNotAllowed
| TokenNotYetConfigured
| MissingMaskedTokenId
| MaskedTokenIdNotAllowed
| UnsortedOutputs
| InputRulesNotAllowed
| InputRule (e : InputRuleError)
| TxUnknownMaskedAmountVersion.

Notation TransactionValidationResult := (result unit TransactionValidationError).

(** [From<TxOutConversionError>]. *)
Definition from_conversion_error (e : TxOutConversionError) : TransactionValidationError :=
  match e with UnknownMaskedAmountVersion => TxUnknownMaskedAmountVersion end.

(** ** Helpers *)

(** [values.windows(2).all(...)]. *)
Fixpoint windows_all {A} (ordered : A → A → bool) (l : list A) : bool :=
  match l with
  | a :: (b :: _) as l' => ordered a b && windows_all ordered l'
  | _ => true
  end.

(** [check_sorted]. *)
Definition check_sorted {A} (values : list A) (ordered : A → A → bool)
    (err : TransactionValidationError) : TransactionValidationResult :=
  if negb (windows_all ordered values) then Err err else Ok tt.

(** Inserting into a [HashSet] until an element is there already: the set
    after the loop, or [None].  The set is the list of its elements. *)
Fixpoint insert_all `{EqDecision A} (uniques : list A) (l : list A) : option (list A) :=
  match l with
  | [] => Some uniques
  | x :: l => if bool_decide (x ∈ uniques) then None else insert_all (x :: uniques) l
  end.

(** [check_unique]. *)
Definition check_unique `{EqDecision A} (values : list A) (err : TransactionValidationError) :
    TransactionValidationResult :=
  match insert_all [] values with Some _ => Ok tt | None => Err err end.

(** ** The checks *)

Definition validate_number_of_inputs (p : TxPrefix) (maximum_allowed_inputs : N) :
    TransactionValidationResult :=
  let num_inputs := len (inputs p) in
  if num_inputs =? 0 then Err NoInputs
  else if maximum_allowed_inputs <? num_inputs then Err TooManyInputs
  else Ok tt.

Definition validate_number_of_outputs (p : TxPrefix) (maximum_allowed_outputs : N) :
    TransactionValidationResult :=
  let num_outputs := len (outputs p) in
  if num_outputs =? 0 then Err TxNoOutputs
  else if maximum_allowed_outputs <? num_outputs then Err TooManyOutputs
  else Ok tt.

Definition validate_ring_sizes (p : TxPrefix) (ring_size : nat) : TransactionValidationResult :=
  for_each (λ input,
    if negb (length (ring input) =? ring_size)%nat
    then Err (if (ring_size <? length (ring input))%nat then ExcessiveRingSize else InsufficientRingSize)
    else Ok tt) (inputs p).

(** [validate_ring_elements_are_unique]: the set of ring elements without
    input rules is carried through the loop. *)
Fixpoint ring_elements_are_unique (without_rules : list TxOut) (l : list TxIn) :
    TransactionValidationResult :=
  match l with
  | [] => Ok tt
  | input :: l =>
      match input_rules input with
      | Some _ =>
          let? _ := check_unique (ring input) DuplicateRingElements in
          ring_elements_are_unique without_rules l
      | None =>
          match insert_all without_rules (ring input) with
          | Some without_rules => ring_elements_are_unique without_rules l
          | None => Err DuplicateRingElements
          end
      end
  end.

Definition validate_ring_elements_are_unique (p : TxPrefix) : TransactionValidationResult :=
  ring_elements_are_unique [] (inputs p).

Definition validate_ring_elements_are_sorted (p : TxPrefix) : TransactionValidationResult :=
  for_each (λ tx_in, check_sorted (ring tx_in) (λ a b, ord_ltb (public_key a) (public_key b))
                       UnsortedRingElements) (inputs p).

Definition validate_inputs_are_sorted (p : TxPrefix) : TransactionValidationResult :=
  check_sorted (inputs p) (λ a b,
    match ring a, ring b with
    | a0 :: _, b0 :: _ => ord_ltb (public_key a0) (public_key b0)
    | _, _ => false
    end) UnsortedInputs.

Definition validate_outputs_are_sorted (p : TxPrefix) : TransactionValidationResult :=
  check_sorted (outputs p) (λ a b, ord_ltb (public_key a) (public_key b)) UnsortedOutputs.

Definition validate_key_images_are_unique (tx : Tx) : TransactionValidationResult :=
  check_unique (key_images tx) DuplicateKeyImages.

Definition validate_outputs_public_keys_are_unique (tx : Tx) : TransactionValidationResult :=
  check_unique (output_public_keys tx) TxDuplicateOutputPublicKey.

Definition validate_that_no_memo_exists (o : TxOut) : TransactionValidationResult :=
  match e_memo o with Some _ => Err MemosNotAllowed | None => Ok tt end.

Definition validate_memo_exists (o : TxOut) : TransactionValidationResult :=
  match e_memo o with None => Err MissingMemo | Some _ => Ok tt end.

Definition validate_that_no_masked_token_id_exists (o : TxOut) : TransactionValidationResult :=
  let? a := map_err from_conversion_error (get_masked_amount o) in
  if negb (length (masked_token_id a) =? 0)%nat then Err MaskedTokenIdNotAllowed else Ok tt.

Definition validate_masked_token_id_exists (o : TxOut) : TransactionValidationResult :=
  let? a := map_err from_conversion_error (get_masked_amount o) in
  if negb (length (masked_token_id a) =? TOKEN_ID_NUM_BYTES)%nat then Err MissingMaskedTokenId
  else Ok tt.

(** [validate_tx_out]. *)
Definition validate_tx_out (block_version : BlockVersion) (o : TxOut) : TransactionValidationResult :=
  let? _ := (if e_memo_feature_is_supported block_version then validate_memo_exists o
             else validate_that_no_memo_exists o) in
  if masked_token_id_feature_is_supported block_version then validate_masked_token_id_exists o
  else validate_that_no_masked_token_id_exists o.

Definition validate_signature (block_version : BlockVersion) (tx : Tx) (rng : Rng) :
    TransactionValidationResult :=
  let? rings := map_err from_conversion_error (get_input_rings (prefix tx)) in
  let? commitments := map_err from_conversion_error (output_commitments (prefix tx)) in
  map_err InvalidTransactionSignature
    (signature_verify (signature tx) block_version (prefix tx) rings commitments
       (mkAmount (fee (prefix tx)) (fee_token_id (prefix tx))) rng).

Definition validate_transaction_fee (tx : Tx) (minimum_fee : N) : TransactionValidationResult :=
  if fee (prefix tx) <? minimum_fee then Err TxFeeError else Ok tt.

(** The check of one ring member with its proof and root proof. *)
Definition validate_membership_proof (e : TxOut * TxOutMembershipProof * TxOutMembershipProof) :
    TransactionValidationResult :=
  let '(tx_out, membership_proof, root_proof) := e in
  match derive_proof_at_index root_proof with
  | Err _ => Err InvalidLedgerContext
  | Ok derived_proof =>
      match compute_implied_merkle_root derived_proof with
      | Err _ => Err InvalidLedgerContext
      | Ok root_element =>
          match is_membership_proof_valid tx_out membership_proof (el_hash root_element) with
          | Err _ => Err MembershipProofValidationError
          | Ok is_valid => if negb is_valid then Err InvalidTxOutMembershipProof else Ok tt
          end
      end
  end.

(** The ring members with their proofs. *)
Definition tx_out_with_membership_proof (p : TxPrefix) : list (TxOut * TxOutMembershipProof) :=
  inputs p ≫= λ tx_in, zip (ring tx_in) (proofs tx_in).

(** [validate_membership_proofs]. *)
Definition validate_membership_proofs (p : TxPrefix) (root_proofs : list TxOutMembershipProof) :
    TransactionValidationResult :=
  let? _ := for_each (λ tx_in,
    if negb (length (ring tx_in) =? length (proofs tx_in))%nat then Err MissingTxOutMembershipProof
    else Ok tt) (inputs p) in
  if negb (length (tx_out_with_membership_proof p) =? length root_proofs)%nat
  then Err InvalidLedgerContext
  else
    let? _ := for_each (λ root_proof,
      if existsb bad_range (proof_elements root_proof) then Err MembershipProofValidationError
      else Ok tt) root_proofs in
    for_each validate_membership_proof (zip (tx_out_with_membership_proof p) root_proofs).

Definition validate_tombstone (current_block_index tombstone_block_index : N) :
    TransactionValidationResult :=
  if tombstone_block_index <=? current_block_index then Err TombstoneBlockExceeded
  else
    let limit := u64_add current_block_index MAX_TOMBSTONE_BLOCKS in
    if limit <? tombstone_block_index then Err TombstoneBlockTooFar else Ok tt.

Definition validate_all_input_rules (block_version : BlockVersion) (tx : Tx) :
    TransactionValidationResult :=
  for_each (λ input, match input_rules input with
                     | Some rules => map_err InputRule (rules_verify rules block_version tx)
                     | None => Ok tt
                     end) (inputs (prefix tx)).

Definition validate_that_no_input_rules_exist (tx : Tx) : TransactionValidationResult :=
  for_each (λ input, match input_rules input with Some _ => Err InputRulesNotAllowed | None => Ok tt end)
    (inputs (prefix tx)).

(** [validate]. *)
Definition validate (tx : Tx) (current_block_index : N) (block_version : BlockVersion)
    (root_proofs : list TxOutMembershipProof) (minimum_fee : N) (csprng : Rng) :
    TransactionValidationResult :=
  if VERSION_MAX <? block_version then Err Ledger
  else
    let? _ := validate_number_of_inputs (prefix tx) MAX_INPUTS in
    let? _ := validate_number_of_outputs (prefix tx) MAX_OUTPUTS in
    let? _ := validate_ring_sizes (prefix tx) RING_SIZE in
    let? _ := validate_ring_elements_are_unique (prefix tx) in
    let? _ := validate_ring_elements_are_sorted (prefix tx) in
    let? _ := validate_inputs_are_sorted (prefix tx) in
    let? _ := validate_membership_proofs (prefix tx) root_proofs in
    let? _ := validate_signature block_version tx csprng in
    let? _ := validate_transaction_fee tx minimum_fee in
    let? _ := validate_key_images_are_unique tx in
    let? _ := validate_outputs_public_keys_are_unique tx in
    let? _ := validate_tombstone current_block_index (tombstone_block (prefix tx)) in
    let? _ := for_each (validate_tx_out block_version) (outputs (prefix tx)) in
    let? _ := (if validate_transaction_outputs_are_sorted block_version
               then validate_outputs_are_sorted (prefix tx) else Ok tt) in
    if signed_input_rules_are_supported block_version
    then validate_all_input_rules block_version tx
    else validate_that_no_input_rules_exist tx.
End validation.

(** ** What the helpers decide *)

Section helpers.
Context `{X : TxCrypto}.

Lemma insert_all_Some `{EqDecision A} (l : list A) : ∀ s s',
  insert_all s l = Some s' ↔ NoDup l ∧ (∀ x, x ∈ l → x ∉ s) ∧ s' = reverse l ++ s.
Proof.
  induction l as [|x l IH]; intros s s'; simpl.
  - split.
    + intros [= <-]. split_and!; [constructor|by intros ? ?%not_elem_of_nil|done].
    + by intros (_ & _ & ->).
  - rewrite reverse_cons, <-app_assoc. case_bool_decide as Hx.
    + split; [done|]. intros (_ & Hd & _). exfalso. apply (Hd x); [by left|done].
    + rewrite IH, NoDup_cons. setoid_rewrite elem_of_cons. split.
      * intros (Hn & Hd & ->). split_and!; [|done| |done].
        -- intros Hin. apply (Hd x Hin). by left.
        -- intros y [->|Hy]; [done|]. intros ?. apply (Hd y Hy). by right.
      * intros ([Hnx Hn] & Hd & ->). split_and!; [done| |done].
        intros y Hy [->|?]; [done|]. apply (Hd y); [by right|done].
Qed.

Lemma check_unique_Ok `{EqDecision A} (l : list A) (err : TransactionValidationError) :
  check_unique l err = Ok tt ↔ NoDup l.
Proof.
  unfold check_unique. destruct (insert_all [] l) as [s|] eqn:E.
  - apply insert_all_Some in E as (? & _). done.
  - split; [done|]. intros Hn. assert (insert_all [] l = Some (reverse l ++ [])); [|congruence].
    apply insert_all_Some. split_and!; [done| |done]. intros x _. apply not_elem_of_nil.
Qed.

Lemma windows_all_Sorted {A} (f : A → A → bool) l :
  windows_all f l = true ↔ Sorted (λ a b, f a b = true) l.
Proof.
  induction l as [|a l IH]; simpl; [by split; [constructor|]|].
  destruct l as [|b l]; [by split; [repeat constructor|]|].
  rewrite andb_true_iff, IH. split.
  - intros [? ?]. constructor; [done|by constructor].
  - intros Hs. inversion Hs as [|? ? Hs' Hh]; subst. inversion Hh; subst. done.
Qed.

Lemma check_sorted_Ok {A} (R : A → A → Prop) (f : A → A → bool) l (err : TransactionValidationError) :
  (∀ a b, f a b = true ↔ R a b) → Transitive R →
  check_sorted l f err = Ok tt ↔ StronglySorted R l.
Proof.
  intros Hf HR. unfold check_sorted.
  transitivity (windows_all f l = true); [by destruct (windows_all f l)|].
  rewrite windows_all_Sorted. split.
  - intros Hs. apply Sorted_StronglySorted; [done|]. induction Hs as [|a l Hs IH Hh]; [done|].
    constructor; [done|]. destruct Hh; constructor. by apply Hf.
  - intros Hs. apply StronglySorted_Sorted in Hs. induction Hs as [|a l Hs IH Hh]; [done|].
    constructor; [done|]. destruct Hh; constructor. by apply Hf.
Qed.

(** Outputs in strictly ascending order of their public keys. *)
Definition key_lt (a b : TxOut) : Prop := ord_lt (public_key a) (public_key b).

#[export] Instance key_lt_trans : Transitive key_lt.
Proof. intros a b c. apply cmp_lt_trans. Qed.

Lemma key_ltb_spec (a b : TxOut) : ord_ltb (public_key a) (public_key b) = true ↔ key_lt a b.
Proof. unfold ord_ltb, key_lt, ord_lt. by destruct (cmp _ _). Qed.

(** Inputs in ascending order of the public keys of their first ring members. *)
Definition input_lt (a b : TxIn) : Prop :=
  ∃ oa ob, head (ring a) = Some oa ∧ head (ring b) = Some ob ∧ key_lt oa ob.

#[export] Instance input_lt_trans : Transitive input_lt.
Proof.
  intros a b c (oa & ob & Ha & Hb & H1) (ob' & oc & Hb' & Hc & H2).
  rewrite Hb in Hb'. injection Hb' as <-. exists oa, oc. split_and!; [done..|by etrans].
Qed.

Lemma input_ltb_spec (a b : TxIn) :
  match ring a, ring b with
  | a0 :: _, b0 :: _ => ord_ltb (public_key a0) (public_key b0)
  | _, _ => false
  end = true ↔ input_lt a b.
Proof.
  unfold input_lt. destruct (ring a) as [|a0 ?], (ring b) as [|b0 ?]; simpl;
    try (split; [done|by intros (? & ? & ? & ? & ?)]).
  rewrite key_ltb_spec. split; [by exists a0, b0|]. by intros (? & ? & [= ->] & [= ->] & ?).
Qed.

(** The ring members of the inputs without rules. *)
Definition free_members (l : list TxIn) : list TxOut :=
  l ≫= λ i, match input_rules i with Some _ => [] | None => ring i end.

Lemma ring_elements_are_unique_Ok l : ∀ s : list TxOut,
  ring_elements_are_unique s l = Ok tt ↔
  (∀ i, i ∈ l → input_rules i ≠ None → NoDup (ring i)) ∧
  NoDup (free_members l) ∧ (∀ o, o ∈ free_members l → o ∉ s).
Proof.
  induction l as [|i l IH]; intros s; simpl.
  - split; [|done]. intros _. split_and!; [by intros ? ?%not_elem_of_nil|constructor|
      by intros ? ?%not_elem_of_nil].
  - destruct (input_rules i) as [r|] eqn:Er.
    + transitivity (NoDup (ring i) ∧ ring_elements_are_unique s l = Ok tt).
      { rewrite <-(check_unique_Ok _ DuplicateRingElements).
        destruct (check_unique (ring i) DuplicateRingElements) as [[]|]; simpl; naive_solver. }
      rewrite IH. setoid_rewrite elem_of_cons. split.
      * intros (Hn & Hl & Hf & Hs). split; [|done]. intros j [->|Hj] ?; auto.
      * intros (Hl & Hf & Hs). split; [apply Hl; [by left|congruence]|]. split; [|done]. auto.
    + transitivity (NoDup (ring i) ∧ (∀ o, o ∈ ring i → o ∉ s) ∧
                    ring_elements_are_unique (reverse (ring i) ++ s) l = Ok tt).
      { destruct (insert_all s (ring i)) as [s'|] eqn:Ei.
        - apply insert_all_Some in Ei as (? & ? & ->). naive_solver.
        - split; [done|]. intros (Hn & Hd & _).
          assert (insert_all s (ring i) = Some (reverse (ring i) ++ s)); [|congruence].
          by apply insert_all_Some. }
      rewrite IH, NoDup_app. setoid_rewrite elem_of_cons. setoid_rewrite elem_of_app.
      setoid_rewrite elem_of_reverse. split.
      * intros (Hn & Hd & Hl & Hf & Hs). split; [|split].
        -- intros j [->|Hj] ?; [done|auto].
        -- split_and!; [done| |done]. intros o Ho Ho'. apply (Hs o Ho'). by left.
        -- intros o [Ho|Ho]; [auto|]. intros ?. apply (Hs o Ho). by right.
      * intros (Hl & (Hn & Hdis & Hf) & Hs). split_and!; [done|auto|auto|done|].
        intros o Ho [Ho'|?]; [by apply (Hdis o)|by apply (Hs o); [right|]].
Qed.
End helpers.

Module ValidationProps.
Section props.
Context `{D : Digests} `{K : AmountCrypto} `{X : TxCrypto}.

(** An output has the fields of its block version. *)
Definition tx_out_conforms (block_version : BlockVersion) (o : TxOut) : Prop :=
  (e_memo o ≠ None ↔ 1 <= block_version) ∧
  ∃ a, masked_amount o = Some a ∧
    length (masked_token_id a) = if 2 <=? block_version then 8%nat else 0%nat.

(** The rules for transactions. *)
Record valid_tx (tx : Tx) (current : N) (block_version : BlockVersion)
    (root_proofs : list TxOutMembershipProof) (minimum_fee : N) (rng : Rng) : Prop := {
  vt_version : block_version <= 4;
  vt_inputs : 1 <= len (inputs (prefix tx)) ∧ len (inputs (prefix tx)) <= 16;
  vt_outputs : 1 <= len (outputs (prefix tx)) ∧ len (outputs (prefix tx)) <= 16;
  vt_rings : ∀ i, i ∈ inputs (prefix tx) →
    length (ring i) = 11%nat ∧ length (proofs i) = 11%nat ∧ StronglySorted key_lt (ring i);
  vt_unique : NoDup (free_members (inputs (prefix tx)));
  vt_inputs_sorted : StronglySorted input_lt (inputs (prefix tx));
  vt_membership : validate_membership_proofs (prefix tx) root_proofs = Ok tt;
  vt_signature : validate_signature block_version tx rng = Ok tt;
  vt_fee : minimum_fee <= fee (prefix tx);
  vt_key_images : NoDup (key_images tx);
  vt_output_keys : NoDup (output_public_keys tx);
  vt_tombstone : current < tombstone_block (prefix tx) ∧
    tombstone_block (prefix tx) <= u64_add current 20160;
  vt_conforms : ∀ o, o ∈ outputs (prefix tx) → tx_out_conforms block_version o;
  vt_outputs_sorted : 3 <= block_version → StronglySorted key_lt (outputs (prefix tx));
  vt_rules : ∀ i r, i ∈ inputs (prefix tx) → input_rules i = Some r →
    3 <= block_version ∧ rules_verify r block_version tx = Ok tt
}.

Lemma key_lt_irrefl o : ¬ key_lt o o.
Proof. unfold key_lt, ord_lt. rewrite (proj2 (cmp_eq_iff _ _)) by done. done. Qed.

(** Members in strictly ascending order are distinct. *)
Lemma key_sorted_NoDup l : StronglySorted key_lt l → NoDup l.
Proof.
  induction 1 as [|o l _ IH Hh]; constructor; [|done].
  intros Hin. rewrite Forall_forall in Hh. by apply (key_lt_irrefl o), Hh.
Qed.

Lemma bind_unit_Ok {E} (r : result unit E) (k : result unit E) :
  result_bind r (λ _, k) = Ok tt ↔ r = Ok tt ∧ k = Ok tt.
Proof. destruct r as [[]|]; simpl; naive_solver. Qed.

Lemma if_Err_Ok {E} (b : bool) (e : E) (k : result unit E) :
  (if b then Err e else k) = Ok tt ↔ b = false ∧ k = Ok tt.
Proof. destruct b; naive_solver. Qed.

Lemma token_id_length_Ok o n (e : TransactionValidationError) :
  (let? a := map_err from_conversion_error (get_masked_amount o) in
   if negb (length (masked_token_id a) =? n)%nat then Err e else Ok tt) = Ok tt ↔
  ∃ a, masked_amount o = Some a ∧ length (masked_token_id a) = n.
Proof.
  unfold get_masked_amount. destruct (masked_amount o) as [a|]; simpl.
  - destruct (Nat.eqb_spec (length (masked_token_id a)) n) as [E|E]; simpl.
    + split; [by exists a|done].
    + split; [done|]. by intros (? & [= <-] & ?).
  - split; [done|]. by intros (? & ? & ?).
Qed.

Lemma validate_tx_out_Ok block_version o :
  validate_tx_out block_version o = Ok tt ↔ tx_out_conforms block_version o.
Proof.
  unfold validate_tx_out, tx_out_conforms. rewrite bind_unit_Ok. f_equiv.
  - unfold e_memo_feature_is_supported, VERSION_ONE, validate_memo_exists, validate_that_no_memo_exists.
    destruct (N.leb_spec 1 block_version) as [Hv|Hv], (e_memo o) as [m|].
    + by split; [intros _; split|].
    + split; [done|]. intros [_ Hn]. by destruct (Hn Hv).
    + split; [done|]. intros [Hn _]. assert (1 <= block_version) by (by apply Hn). lia.
    + split; [|done]. intros _. split; [done|lia].
  - unfold masked_token_id_feature_is_supported, VERSION_TWO, validate_masked_token_id_exists,
      validate_that_no_masked_token_id_exists.
    destruct (2 <=? block_version); apply token_id_length_Ok.
Qed.

Lemma membership_proofs_lengths p root_proofs :
  validate_membership_proofs p root_proofs = Ok tt →
  ∀ i, i ∈ inputs p → length (ring i) = length (proofs i).
Proof.
  unfold validate_membership_proofs. rewrite bind_unit_Ok, for_each_Ok, Forall_forall.
  intros [H _] i Hi. apply H in Hi. destruct (Nat.eqb_spec (length (ring i)) (length (proofs i))); done.
Qed.

Lemma count_Ok n max (e1 e2 : TransactionValidationError) :
  (if n =? 0 then Err e1 else if max <? n then Err e2 else Ok tt) = Ok tt ↔ 1 <= n ∧ n <= max.
Proof. rewrite !if_Err_Ok, N.eqb_neq, N.ltb_ge. split; [intros (? & ? & _)|intros [? ?]]; split_and?; lia || done. Qed.

Lemma ring_sizes_Ok p :
  validate_ring_sizes p RING_SIZE = Ok tt ↔ ∀ i, i ∈ inputs p → length (ring i) = 11%nat.
Proof.
  unfold validate_ring_sizes. rewrite for_each_Ok, Forall_forall. apply forall_proper. intros i.
  destruct (Nat.eqb_spec (length (ring i)) RING_SIZE); naive_solver.
Qed.

Lemma tombstone_Ok current tombstone :
  validate_tombstone current tombstone = Ok tt ↔
  current < tombstone ∧ tombstone <= u64_add current 20160.
Proof. unfold validate_tombstone. rewrite !if_Err_Ok, N.leb_gt, N.ltb_ge. naive_solver. Qed.

Lemma rings_sorted_Ok p :
  validate_ring_elements_are_sorted p = Ok tt ↔
  ∀ i, i ∈ inputs p → StronglySorted key_lt (ring i).
Proof.
  unfold validate_ring_elements_are_sorted. rewrite for_each_Ok, Forall_forall.
  apply forall_proper. intros i. rewrite check_sorted_Ok; [done|apply key_ltb_spec|apply _].
Qed.

Lemma rules_Ok block_version tx :
  (if signed_input_rules_are_supported block_version then validate_all_input_rules block_version tx
   else validate_that_no_input_rules_exist tx) = Ok tt ↔
  ∀ i r, i ∈ inputs (prefix tx) → input_rules i = Some r →
    3 <= block_version ∧ rules_verify r block_version tx = Ok tt.
Proof.
  unfold signed_input_rules_are_supported, VERSION_THREE, validate_all_input_rules,
    validate_that_no_input_rules_exist.
  destruct (N.leb_spec 3 block_version); rewrite for_each_Ok, Forall_forall; split.
  - intros H' i r Hi Hr. apply H' in Hi. rewrite Hr in Hi. by apply map_err_Ok in Hi.
  - intros H' i Hi. destruct (input_rules i) as [r|] eqn:Er; [|done].
    apply map_err_Ok. by eapply H'.
  - intros H' i r Hi Hr. apply H' in Hi. by rewrite Hr in Hi.
  - intros H' i Hi. destruct (input_rules i) as [r|] eqn:Er; [|done].
    destruct (H' i r Hi Er). lia.
Qed.

Lemma validate_Ok tx current block_version root_proofs minimum_fee rng :
  validate tx current block_version root_proofs minimum_fee rng = Ok tt ↔
  valid_tx tx current block_version root_proofs minimum_fee rng.
Proof.
  unfold validate, VERSION_MAX, VERSION_FOUR. rewrite if_Err_Ok, !bind_unit_Ok, N.ltb_ge.
  unfold validate_number_of_inputs, validate_number_of_outputs. rewrite !count_Ok, ring_sizes_Ok.
  unfold validate_ring_elements_are_unique. rewrite ring_elements_are_unique_Ok, rings_sorted_Ok.
  unfold validate_inputs_are_sorted. rewrite (check_sorted_Ok input_lt _ _ _ input_ltb_spec _).
  unfold validate_transaction_fee. rewrite if_Err_Ok, N.ltb_ge.
  unfold validate_key_images_are_unique, validate_outputs_public_keys_are_unique.
  rewrite !check_unique_Ok, tombstone_Ok, for_each_Ok, Forall_forall, rules_Ok.
  setoid_rewrite validate_tx_out_Ok.
  assert ((if validate_transaction_outputs_are_sorted block_version
    then validate_outputs_are_sorted (prefix tx) else Ok tt) = Ok tt ↔
    (3 <= block_version → StronglySorted key_lt (outputs (prefix tx)))) as ->.
  { unfold validate_transaction_outputs_are_sorted, VERSION_THREE, validate_outputs_are_sorted.
    destruct (N.leb_spec 3 block_version); [|split; [lia|done]].
    rewrite (check_sorted_Ok key_lt _ _ _ key_ltb_spec _). naive_solver. }
  split.
  - intros (Hv & Hi & Ho & Hr & (Hu1 & Hu2 & _) & Hs & His & Hm & Hsig & [Hf _] & Hk & Hp & Ht & Hc & Hos & Hrules).
    split; try done. intros i Hin. rewrite <-(membership_proofs_lengths _ _ Hm i Hin), Hr by done. auto.
  - intros [Hv Hi Ho Hr Hu His Hm Hsig Hf Hk Hp Ht Hc Hos Hrules].
    assert (∀ i, i ∈ inputs (prefix tx) → length (ring i) = 11%nat) by (intros i Hin; by apply Hr).
    assert (∀ i, i ∈ inputs (prefix tx) → StronglySorted key_lt (ring i)) by (intros i Hin; by apply Hr).
    repeat (split; [done|]). split; [|by repeat (split; [done|])].
    split; [|split; [done|]].
    + intros i Hin _. apply key_sorted_NoDup. auto.
    + intros o _. apply not_elem_of_nil.
Qed.

(** C29: [validate] accepts exactly the transactions that follow the rules:
    between 1 and 16 inputs and outputs, rings of 11 members in strictly
    ascending order with one membership proof each, inputs in ascending order,
    no ring member shared between inputs without rules, distinct key images
    and output keys, enough fee, a tombstone block in the allowed window,
    outputs with the fields of the block version (sorted from version 3 on),
    input rules respected and only from version 3 on, and valid membership
    proofs and signature. *)
Theorem validate_iff tx current block_version root_proofs minimum_fee rng :
  validate tx current block_version root_proofs minimum_fee rng = Ok tt ↔
  valid_tx tx current block_version root_proofs minimum_fee rng.
Proof. apply validate_Ok. Qed.

(** ** Membership in the ledger *)

(** The root the enclave derives from a root proof made by the store is that
    of an earlier state of the ledger. *)
Lemma derived_root {T} `{Transaction T} `{!TransactionLaws T} `{C : TxOutCodec}
    self (t : T) txs i root_proof :
  store_ok self t txs → get_merkle_proof_of_membership self i t = Done (Ok root_proof, t) →
  ∃ derived e n, derive_proof_at_index root_proof = Ok derived ∧
    compute_implied_merkle_root derived = Ok e ∧ el_hash e = merkle_root (take n txs).
Proof.
  intros Hok Hp. pose proof Hok as [Hcap [Hcount _ _ _] _].
  destruct (decide (i < len txs)) as [Hi|Hi].
  - rewrite (get_proof_ok self t txs i Hok Hi) in Hp. injection Hp as <-.
    pose proof (tree_depth_bound (len txs)). pose proof (tree_depth_le_63 _ Hcap).
    pose proof (tree_depth_bound (i + 1)). pose proof (tree_depth_le_63 (i + 1) ltac:(lia)).
    assert (len (take (N.to_nat (i + 1)) txs) = i + 1) as Hl by (unfold len in *; rewrite length_take; lia).
    do 2 eexists. exists (N.to_nat (i + 1)). split; [apply derive_path; lia|].
    split; [apply path_root; lia|]. simpl. unfold merkle_root. rewrite Hl, lo_of_small by lia. done.
  - unfold get_merkle_proof_of_membership in Hp.
    rewrite (dbind_Done _ _ _ _ _ (num_tx_outs_ok self t (len txs) ltac:(lia) Hcount)) in Hp.
    rewrite (proj2 (N.leb_le _ _)) in Hp by lia. done.
Qed.

(** C28: ring members are outputs of the ledger.  If the root proofs come
    from a store that holds the outputs [txs] and [validate_membership_proofs]
    accepts, then every ring member of every input has the hash of one of
    [txs]; otherwise a string hashed while verifying its proof collides with
    a different string hashed in the ledger's tree at an earlier time. *)
Theorem ring_members_in_ledger {T} `{Transaction T} `{!TransactionLaws T} `{C : TxOutCodec}
    self (t : T) txs p root_proofs :
  store_ok self t txs →
  Forall (λ rp, ∃ i, get_merkle_proof_of_membership self i t = Done (Ok rp, t)) root_proofs →
  validate_membership_proofs p root_proofs = Ok tt →
  ∀ tx_in k o, tx_in ∈ inputs p → ring tx_in !! k = Some o →
  ∃ proof, proofs tx_in !! k = Some proof ∧
    ((∃ tx, tx ∈ txs ∧ tx_out_hash tx = tx_out_hash o) ∨
     ∃ n, collision (verifier_inputs o proof)
            (tree_inputs (take n txs) (tree_depth (len (take n txs))) 0)).
Proof.
  intros Hok Hroots Hv tx_in k o Hin Ho.
  pose proof (membership_proofs_lengths _ _ Hv tx_in Hin) as Hlen.
  destruct (lookup_lt_is_Some_2 (proofs tx_in) k) as [proof Hp].
  { rewrite <-Hlen. by eapply lookup_lt_Some. }
  exists proof. split; [done|].
  unfold validate_membership_proofs in Hv. rewrite bind_unit_Ok, if_Err_Ok, bind_unit_Ok in Hv.
  destruct Hv as (_ & Hn & _ & Hv). apply negb_false_iff, Nat.eqb_eq in Hn.
  assert ((o, proof) ∈ tx_out_with_membership_proof p) as [j Hj]%list_elem_of_lookup.
  { apply list_elem_of_bind. exists tx_in. split; [|done].
    apply list_elem_of_lookup. exists k. apply lookup_zip_Some. done. }
  destruct (lookup_lt_is_Some_2 root_proofs j) as [rp Hrp].
  { rewrite <-Hn. by eapply lookup_lt_Some. }
  rewrite for_each_Ok, Forall_forall in Hv.
  assert (validate_membership_proof (o, proof, rp) = Ok tt) as Hm.
  { apply Hv, list_elem_of_lookup. exists j. by apply lookup_zip_Some. }
  rewrite Forall_forall in Hroots. destruct (Hroots rp) as [i Hi]; [by eapply list_elem_of_lookup_2|].
  destruct (derived_root self t txs i rp Hok Hi) as (derived & e & n & Hd & Hc & Hroot).
  unfold validate_membership_proof in Hm. rewrite Hd, Hc, Hroot in Hm.
  destruct (is_membership_proof_valid o proof (merkle_root (take n txs))) as [[]|] eqn:Ev; try done.
  destruct (MembershipProps.accepted_proof_member _ _ _ Ev) as [(tx & Htx & Eh)|Hcol].
  - left. exists tx. split; [|done]. apply list_elem_of_lookup in Htx as [q Hq]. apply lookup_take_Some in Hq as [Hq _]. by eapply list_elem_of_lookup_2.
  - right. by exists n.
Qed.
End props.

#[local] Existing Instance MembershipProps.toy_digests.
#[local] Existing Instance StoreProps.toy_codec.
#[local] Instance toy_tx_crypto : TxCrypto := {|
  tx_in_digest := λ _, vreplicate 32 (u8 0);
  RingCtError := unit;
  Rng := unit;
  signature_verify := λ _ _ _ _ _ _ _, Ok tt
|}.

(** A ring of the first output of a ledger of two, with the proof its owner
    got when it was the only one. *)
Definition ex_ledger : list TxOut := [StoreProps.ex_tx 7; StoreProps.ex_tx 8].
Definition ex_input : TxIn :=
  mkTxIn [StoreProps.ex_tx 7] [path_proof [StoreProps.ex_tx 7] 0 0 0] None.
Definition ex_prefix : TxPrefix := mkTxPrefix [ex_input] [] 0 0 0.
Definition ex_root_proof : TxOutMembershipProof := path_proof ex_ledger 0 1 1.

Lemma ring_members_in_ledger_witness :
  validate_membership_proofs ex_prefix [ex_root_proof] = Ok tt ∧
  ∃ proof, proofs ex_input !! 0%nat = Some proof ∧
    ((∃ tx, tx ∈ ex_ledger ∧ tx_out_hash tx = tx_out_hash (StoreProps.ex_tx 7)) ∨
     ∃ n, collision (verifier_inputs (StoreProps.ex_tx 7) proof)
            (tree_inputs (take n ex_ledger) (tree_depth (len (take n ex_ledger))) 0)).
Proof.
  assert (validate_membership_proofs ex_prefix [ex_root_proof] = Ok tt) as Hv by by vm_compute.
  split; [exact Hv|]. destruct StoreProps.ex_two as [t Ht].
  refine (ring_members_in_ledger StoreProps.ex_store t ex_ledger ex_prefix [ex_root_proof] Ht
    _ Hv ex_input 0%nat (StoreProps.ex_tx 7) _ _); [|by left|done].
  constructor; [|constructor]. exists 0.
  exact (get_proof_ok StoreProps.ex_store t ex_ledger 0 Ht eq_refl).
Defined.

#[local] Existing Instance MaskedAmountProps.toy_amount_crypto.

#[local] Instance small_digests : Digests :=
  {| blake2b256 := λ l, vreplicate 32 (u8 (foldl (λ acc b, (7 * acc + Byte.to_N b) mod 256) 0 l));
     tx_out_hash := λ o, public_key o |}.

(** A transaction that passes every check. *)
Definition ex_member (k : N) : TxOut :=
  mkTxOut (Some (V1 (mkMaskedAmountV1 (vreplicate 32 (u8 0)) 0 [])))
    (vreplicate 32 (u8 k)) (vreplicate 32 (u8 k)) [] None.
Definition ex_members : list TxOut := ex_member <$> (N.of_nat <$> seq 0 11).
Definition ex_valid : Tx :=
  mkTx (mkTxPrefix
          [mkTxIn ex_members ((λ i, path_proof ex_members (N.of_nat i) 10 4) <$> seq 0 11) None]
          [ex_member 99] 400 1000 0)
    (mkSignature [mkRingMLSAG (vreplicate 32 (u8 0)) [] (vreplicate 32 (u8 1))] [] [] [] [] []) [].

Example ex_valid_passes :
  validate ex_valid 999 VERSION_ZERO (replicate 11 (path_proof ex_members 10 10 4)) 400 tt = Ok tt.
Proof. by vm_compute. Qed.

(** The same transaction is rejected at its tombstone block, and with a fee
    that is too small. *)
Example ex_valid_expires :
  validate ex_valid 1000 VERSION_ZERO (replicate 11 (path_proof ex_members 10 10 4)) 400 tt
  = Err TombstoneBlockExceeded ∧
  validate ex_valid 999 VERSION_ZERO (replicate 11 (path_proof ex_members 10 10 4)) 401 tt
  = Err TxFeeError.
Proof. by vm_compute. Qed.
End ValidationProps.
