(* ===== verification/Multisig.v ===== *)
(** * Multi-signatures

    [crypto/multisig/src/lib.rs]: nested M-out-of-N sets of signers, and the
    verification of a collection of signatures against one.  The verification
    of a single signature is third-party code, the class [Verifier].

    The specification is [Satisfied]: the set is valid, and enough distinct
    members of it have signed, a nested set signing when it is satisfied. *)

From S2P Require Import Prelude Ord QuorumSet Bytes TxOut.

Open Scope N_scope.

(** [Vec::dedup]: drops an element equal to the one kept before it. *)
Section dedup.
Context {A : Type} `{EqDecision A}.

Fixpoint dedup_from (x : A) (l : list A) : list A :=
  match l with
  | [] => []
  | y :: l => if bool_decide (x = y) then dedup_from x l else y :: dedup_from y l
  end.

Definition dedup (l : list A) : list A :=
  match l with [] => [] | x :: l => x :: dedup_from x l end.

Lemma elem_of_dedup_from l : ∀ x y, y ∈ x :: dedup_from x l ↔ y ∈ x :: l.
Proof.
  induction l as [|z l IH]; intros x y; simpl; [done|].
  case_bool_decide as E; [subst|]; [rewrite IH|rewrite elem_of_cons, IH]; set_solver.
Qed.

Lemma elem_of_dedup l x : x ∈ dedup l ↔ x ∈ l.
Proof. destruct l; [done|]. apply elem_of_dedup_from. Qed.
End dedup.

(** A sorted list without repetitions is strictly increasing. *)
Section dedup_sorted.
Context `{TotalOrd A} `{EqDecision A}.

Lemma dedup_from_sorted l : ∀ x : A,
  StronglySorted ord_le (x :: l) → StronglySorted ord_lt (x :: dedup_from x l).
Proof.
  induction l as [|y l IH]; intros x Hs; simpl; [by repeat constructor|].
  apply StronglySorted_inv in Hs as [Hs Hx].
  apply Forall_cons in Hx as [Hxy Hx]. case_bool_decide as E.
  - subst y. by apply IH.
  - apply IH in Hs as Hs'. constructor; [done|]. apply Forall_forall. intros z Hz.
    assert (ord_lt x y) as Hlt by (destruct (ord_le_lt_or_eq _ _ Hxy); done).
    apply elem_of_cons in Hz as [->|Hz]; [done|].
    apply StronglySorted_inv in Hs' as [_ Hall]. rewrite Forall_forall in Hall.
    eapply cmp_lt_trans; [exact Hlt|by apply Hall].
Qed.

Lemma sort_dedup_sorted (l : list A) : StronglySorted ord_lt (dedup (sort l)).
Proof.
  pose proof (Sorted_StronglySorted _ _ (sort_sorted l)) as Hs.
  destruct (sort l); simpl; [constructor|by apply dedup_from_sorted].
Qed.

Lemma ord_lt_NoDup (l : list A) : StronglySorted ord_lt l → NoDup l.
Proof.
  induction 1 as [|x l _ IH Hx]; constructor; [|done]. intros Hin.
  rewrite Forall_forall in Hx. by apply (ord_lt_irrefl x), Hx.
Qed.

Lemma sort_dedup_NoDup (l : list A) : NoDup (dedup (sort l)).
Proof. apply ord_lt_NoDup, sort_dedup_sorted. Qed.

Lemma elem_of_sort_dedup (l : list A) x : x ∈ dedup (sort l) ↔ x ∈ l.
Proof. by rewrite elem_of_dedup, sort_perm. Qed.
End dedup_sorted.

(** ** Data *)

Definition MAX_SIGNATURES : N := 10.

Record MultiSig (S : Type) := mkMultiSig { signatures : list S }.
Arguments mkMultiSig {S} _.
Arguments signatures {S} _.

Inductive SignerSet (P : Type) : Type :=
| mkSignerSet (individual_signers : list P) (multi_signers : list (SignerSet P)) (threshold : N).
Arguments mkSignerSet {P} _ _ _.

Definition individual_signers {P} (s : SignerSet P) : list P :=
  match s with mkSignerSet i _ _ => i end.
Definition multi_signers {P} (s : SignerSet P) : list (SignerSet P) :=
  match s with mkSignerSet _ m _ => m end.
Definition signer_threshold {P} (s : SignerSet P) : N :=
  match s with mkSignerSet _ _ t => t end.

(** Induction over the nesting. *)
Lemma SignerSet_nested_ind {P} (Q : SignerSet P → Prop)
    (HQ : ∀ i m t, Forall Q m → Q (mkSignerSet i m t)) :
  ∀ s, Q s.
Proof.
  fix IH 1. intros [i m t]. apply HQ. induction m as [|s m IHm]; constructor; auto.
Qed.

(** [SignerSet::new], [new_with_multi], [num_signers]. *)
Definition new_with_multi {P} (i : list P) (m : list (SignerSet P)) (t : N) : SignerSet P :=
  mkSignerSet i m t.
Definition SignerSet_new {P} (i : list P) (t : N) : SignerSet P := new_with_multi i [] t.
Definition num_signers {P} (s : SignerSet P) : N :=
  len (individual_signers s) + len (multi_signers s).

(** [is_valid]. *)
Fixpoint signer_set_is_valid {P} (s : SignerSet P) : bool :=
  match s with
  | mkSignerSet i m t =>
      forallb signer_set_is_valid m && (0 <? t) && (t <=? num_signers (mkSignerSet i m t))
  end.

(** The derived [PartialEq] and [Ord], field by field. *)
#[export] Instance SignerSet_eq_dec {P} `{EqDecision P} : EqDecision (SignerSet P).
Proof.
  refine (fix go (a b : SignerSet P) : Decision (a = b) :=
    match a, b with
    | mkSignerSet i1 m1 t1, mkSignerSet i2 m2 t2 =>
        match decide (i1 = i2), @list_eq_dec _ go m1 m2, decide (t1 = t2) with
        | left Hi, left Hm, left Ht => left _
        | right H, _, _ => right _
        | _, right H, _ => right _
        | _, _, right H => right _
        end
    end); congruence.
Defined.

Fixpoint signer_set_cmp {P} `{Ord P} (a b : SignerSet P) : comparison :=
  match a, b with
  | mkSignerSet i1 m1 t1, mkSignerSet i2 m2 t2 =>
      cmp_then (cmp i1 i2) (cmp_then (list_cmp signer_set_cmp m1 m2) (N.compare t1 t2))
  end.

#[export] Instance SignerSet_ord {P} `{Ord P} : Ord (SignerSet P) := signer_set_cmp.

#[export] Instance SignerSet_total_ord {P} `{TotalOrd P} : TotalOrd (SignerSet P).
Proof.
  assert (∀ a b : SignerSet P, signer_set_cmp a b = Eq ↔ a = b) as Heq.
  { intros a. induction a as [i m t IH] using SignerSet_nested_ind. intros [i' m' t']. simpl.
    pose proof (list_cmp_eq signer_set_cmp m IH m') as Hm.
    pose proof (cmp_eq_iff i i') as Hi. pose proof (N.compare_eq_iff t t') as Ht.
    destruct (cmp i i'), (list_cmp signer_set_cmp m m'), (t ?= t'); simpl; naive_solver. }
  split; unfold cmp, SignerSet_ord; [done|..].
  - intros a. induction a as [i m t IH] using SignerSet_nested_ind. intros [i' m' t']. simpl.
    rewrite (cmp_opp i i'), (list_cmp_opp signer_set_cmp m IH m'), (N.compare_antisym t t').
    by destruct (cmp i i'), (list_cmp signer_set_cmp m m').
  - intros a. induction a as [i m t IH] using SignerSet_nested_ind.
    intros [i2 m2 t2] [i3 m3 t3]. simpl.
    assert (Forall (λ x, (∀ y, signer_set_cmp x y = Eq ↔ x = y) ∧
      (∀ y z, signer_set_cmp x y = Lt → signer_set_cmp y z = Lt → signer_set_cmp x z = Lt)) m)
      as IH' by (eapply Forall_impl; [exact IH|]; auto).
    pose proof (list_cmp_trans signer_set_cmp m IH' m2 m3 (Forall_true _ _ Heq)) as Hm.
    pose proof (list_cmp_eq signer_set_cmp m (Forall_true _ _ Heq) m2) as E1.
    pose proof (list_cmp_eq signer_set_cmp m2 (Forall_true _ _ Heq) m3) as E2.
    pose proof (cmp_eq_iff i i2) as F1. pose proof (cmp_eq_iff i2 i3) as F2.
    pose proof (cmp_lt_trans i i2 i3) as Fi.
    destruct (cmp i i2) eqn:Ei; [apply proj1 in F1; rewrite (F1 eq_refl) in *| |done]; simpl.
    + destruct (cmp i2 i3); simpl; try done.
      destruct (list_cmp signer_set_cmp m m2) eqn:Em; simpl; try done.
      * apply proj1 in E1. rewrite (E1 eq_refl) in *.
        destruct (list_cmp signer_set_cmp m2 m3); simpl; try done.
        rewrite !N.compare_lt_iff. lia.
      * intros _. destruct (list_cmp signer_set_cmp m2 m3) eqn:Em2; simpl; try done.
        -- apply proj1 in E2. rewrite <-(E2 eq_refl). by rewrite Em.
        -- intros _. by rewrite Hm.
    + intros _. destruct (cmp i2 i3) eqn:Ei2; simpl; try done.
      * apply proj1 in F2. rewrite <-(F2 eq_refl). by rewrite Ei.
      * intros _. by rewrite Fi.
Qed.

(** ** Verification *)

(** [Verifier<S>::verify(message, sig).is_ok()] of a public key, and the bytes
    of a signature. *)
Class Verifier (P S : Type) : Type := {
  sig_verify : P → bytes → S → bool;
  sig_bytes : S → bytes
}.

(** [signature::Error] carries no information. *)
Inductive SignatureError := mkSignatureError.

(** Nesting depth: how often [verify] recurses. *)
Section depth_with.
Context {P : Type} (f : SignerSet P → nat).
Fixpoint sets_depth (m : list (SignerSet P)) : nat :=
  match m with [] => 0%nat | s :: m => Nat.max (f s) (sets_depth m) end.
End depth_with.

Fixpoint set_depth {P} (s : SignerSet P) : nat :=
  match s with mkSignerSet _ m _ => S (sets_depth set_depth m) end.

Section verify.
Context {P S : Type} `{Ord P, EqDecision P, EqDecision S} `{V : Verifier P S}.

(** Sort and dedup the signatures, by their bytes. *)
Definition dedup_signatures (multi_sig : MultiSig S) : list S :=
  dedup (sort_by (λ a b, cmp (sig_bytes a) (sig_bytes b)) (signatures multi_sig)).

(** The loop over the individual signers: those that signed. *)
Definition matched_individuals (message : bytes) (sigs : list S) (l : list P) : list P :=
  filter (λ p, existsb (sig_verify p message) sigs = true) l.

(** The loop over the nested sets: the number that verified, and the identities
    they returned. *)
Fixpoint match_sets (f : SignerSet P → result (list P) SignatureError)
    (l : list (SignerSet P)) : N * list P :=
  match l with
  | [] => (0, [])
  | s :: l =>
      let (n, ids) := match_sets f l in
      match f s with
      | Ok signer_identities => (1 + n, signer_identities ++ ids)
      | Err _ => (n, ids)
      end
  end.

(** One call of [verify], given the recursive calls. *)
Definition verify_with (f : SignerSet P → result (list P) SignatureError)
    (self : SignerSet P) (message : bytes) (multi_sig : MultiSig S) :
    result (list P) SignatureError :=
  if negb (signer_set_is_valid self) then Err mkSignatureError
  else if MAX_SIGNATURES <? len (signatures multi_sig) then Err mkSignatureError
  else
    let potential_individual_signers := dedup (sort (individual_signers self)) in
    let potential_multi_signers := dedup (sort (multi_signers self)) in
    let sigs := dedup_signatures multi_sig in
    let matched := matched_individuals message sigs potential_individual_signers in
    let (n, ids) := match_sets f potential_multi_signers in
    if len matched + n <? signer_threshold self then Err mkSignatureError
    else Ok (dedup (sort (matched ++ ids))).

Fixpoint verify_fuel (fuel : nat) (self : SignerSet P) (message : bytes)
    (multi_sig : MultiSig S) : result (list P) SignatureError :=
  match fuel with
  | O => Err mkSignatureError
  | Datatypes.S n => verify_with (λ s, verify_fuel n s message multi_sig) self message multi_sig
  end.

(** The depth of the nesting is enough fuel ([verify_unfold]). *)
Definition verify (self : SignerSet P) (message : bytes) (multi_sig : MultiSig S) :
    result (list P) SignatureError :=
  verify_fuel (set_depth self) self message multi_sig.

Lemma match_sets_ext f g l :
  Forall (λ s, f s = g s) l → match_sets f l = match_sets g l.
Proof. induction 1 as [|s l E _ IH]; simpl; [done|]. by rewrite E, IH. Qed.

Lemma set_depth_elem (s : SignerSet P) m : s ∈ m → (set_depth s <= sets_depth set_depth m)%nat.
Proof. induction 1; simpl; lia. Qed.
End verify.

Section verify_total.
Context {P S : Type} `{TotalOrd P, EqDecision P, EqDecision S} `{V : Verifier P S}.

Lemma verify_with_ext (f g : SignerSet P → result (list P) SignatureError) s message
    (multi_sig : MultiSig S) :
  (∀ s', s' ∈ multi_signers s → f s' = g s') →
  verify_with f s message multi_sig = verify_with g s message multi_sig.
Proof.
  intros Hfg. unfold verify_with. do 2 (destruct (_ : bool); [done|]).
  erewrite (match_sets_ext f g); [done|]. apply Forall_forall. intros s' Hs'.
  by apply Hfg, elem_of_sort_dedup.
Qed.

Lemma verify_fuel_enough (s : SignerSet P) : ∀ n message (multi_sig : MultiSig S),
  (set_depth s <= n)%nat → verify_fuel n s message multi_sig = verify s message multi_sig.
Proof.
  induction s as [i m t IH] using SignerSet_nested_ind.
  intros [|n] message multi_sig Hn; unfold verify; simpl in *; [lia|].
  apply verify_with_ext. intros s' Hs'. simpl in Hs'.
  rewrite Forall_forall in IH. pose proof (set_depth_elem s' m Hs').
  by rewrite !IH by (done || lia).
Qed.

Lemma verify_unfold (s : SignerSet P) message (multi_sig : MultiSig S) :
  verify s message multi_sig =
  verify_with (λ s', verify s' message multi_sig) s message multi_sig.
Proof.
  rewrite <-(verify_fuel_enough s (Datatypes.S (set_depth s))) by lia. simpl.
  apply verify_with_ext. intros s' Hs'. apply verify_fuel_enough.
  destruct s as [i m t]. simpl in *. pose proof (set_depth_elem s' m Hs'). lia.
Qed.
End verify_total.

(** ** Specification *)

Section spec.
Context {P S : Type} `{V : Verifier P S} (message : bytes) (multi_sig : MultiSig S).

(** [p] has a signature of the message in the collection. *)
Definition Signed (p : P) : Prop :=
  ∃ sig, sig ∈ signatures multi_sig ∧ sig_verify p message sig = true.

(** Enough distinct members of the set have signed. *)
Inductive Satisfied : SignerSet P → Prop :=
| satisfied s (signers : list P) (sets : list (SignerSet P)) :
    NoDup signers → (∀ p, p ∈ signers → p ∈ individual_signers s ∧ Signed p) →
    NoDup sets → (∀ s', s' ∈ sets → s' ∈ multi_signers s ∧ Satisfied s') →
    signer_threshold s <= len signers + len sets →
    Satisfied s.

(** The individual signers that count towards a set. *)
Inductive Matched : SignerSet P → P → Prop :=
| matched_individual s p : p ∈ individual_signers s → Signed p → Matched s p
| matched_nested s s' p : s' ∈ multi_signers s → Satisfied s' → Matched s' p → Matched s p.
End spec.

(** ** Correctness *)

Module MultisigProps.
Section props.
Context {P S : Type} `{TotalOrd P, EqDecision P, EqDecision S} `{V : Verifier P S}.
Context (message : bytes) (multi_sig : MultiSig S).

Lemma match_sets_spec (f : SignerSet P → result (list P) SignatureError) l :
  (match_sets f l).1 = len (filter (λ s, is_ok (f s) = true) l) ∧
  ∀ p, p ∈ (match_sets f l).2 ↔ ∃ s ids, s ∈ l ∧ f s = Ok ids ∧ p ∈ ids.
Proof.
  induction l as [|s l [IH1 IH2]]; simpl; [set_solver|].
  destruct (match_sets f l) as [n ids]. simpl in *.
  destruct (f s) as [ids'|] eqn:E; simpl.
  - rewrite filter_cons_True, len_cons by (by rewrite E). split; [lia|]. intros p.
    rewrite elem_of_app, IH2. setoid_rewrite elem_of_cons. split; [naive_solver|].
    intros (s' & ids'' & [->|?] & ? & ?); [left; congruence|right; naive_solver].
  - rewrite filter_cons_False by (by rewrite E). split; [done|]. intros p. rewrite IH2.
    setoid_rewrite elem_of_cons. split; [naive_solver|].
    intros (s' & ids'' & [->|?] & ? & ?); [congruence|naive_solver].
Qed.

Lemma elem_of_matched l (p : P) :
  p ∈ matched_individuals message (dedup_signatures multi_sig) l ↔
  p ∈ l ∧ Signed message multi_sig p.
Proof.
  unfold matched_individuals, Signed, dedup_signatures.
  rewrite list_elem_of_filter, existsb_exists. split.
  - intros [(sig & Hin & Hv) Hp]. apply list_elem_of_In in Hin.
    rewrite elem_of_dedup, elem_of_sort_by in Hin. eauto.
  - intros [Hp (sig & Hin & Hv)]. split; [|done]. exists sig. split; [|done].
    by rewrite <-list_elem_of_In, elem_of_dedup, elem_of_sort_by.
Qed.

Lemma NoDup_incl_len {A} (l1 l2 : list A) :
  NoDup l1 → (∀ x, x ∈ l1 → x ∈ l2) → len l1 <= len l2.
Proof.
  intros Hnd Hin. unfold len. pose proof (submseteq_length l1 l2 (NoDup_submseteq _ _ Hnd Hin)).
  lia.
Qed.

Lemma valid_nested (s s' : SignerSet P) :
  signer_set_is_valid s = true → s' ∈ multi_signers s → signer_set_is_valid s' = true.
Proof.
  destruct s as [i m t]. simpl. rewrite !andb_true_iff, forallb_Forall, Forall_forall. naive_solver.
Qed.

Notation Sat := (Satisfied message multi_sig).

(** The two counts reach the threshold exactly when the set is satisfied. *)
Lemma threshold_iff (s : SignerSet P) (f : SignerSet P → result (list P) SignatureError) :
  (∀ s', s' ∈ multi_signers s → is_ok (f s') = true ↔ Sat s') →
  signer_threshold s <=
    len (matched_individuals message (dedup_signatures multi_sig)
           (dedup (sort (individual_signers s)))) +
    (match_sets f (dedup (sort (multi_signers s)))).1 ↔ Sat s.
Proof.
  intros Hf. destruct (match_sets_spec f (dedup (sort (multi_signers s)))) as [-> _]. split.
  - intros Ht. econstructor; [| | | |exact Ht].
    + apply NoDup_filter, sort_dedup_NoDup.
    + intros p Hp. by rewrite elem_of_matched, elem_of_sort_dedup in Hp.
    + apply NoDup_filter, sort_dedup_NoDup.
    + intros s' [Hok Hs']%list_elem_of_filter. rewrite elem_of_sort_dedup in Hs'.
      split; [done|by apply Hf].
  - intros Hs. inversion Hs as [s0 signers sets Hn1 H1 Hn2 H2 Ht]; subst. etransitivity; [exact Ht|].
    apply N.add_le_mono; (apply NoDup_incl_len; [done|]).
    + intros p Hp. rewrite elem_of_matched, elem_of_sort_dedup. by apply H1.
    + intros s' Hs'. rewrite list_elem_of_filter, elem_of_sort_dedup.
      destruct (H2 s' Hs') as [Hm Hsat]. split; [by apply Hf|done].
Qed.

Lemma verify_is_ok (s : SignerSet P) :
  len (signatures multi_sig) <= MAX_SIGNATURES → signer_set_is_valid s = true →
  is_ok (verify s message multi_sig) = true ↔ Sat s.
Proof.
  intros Hlen. induction s as [i m t IH] using SignerSet_nested_ind. intros Hv.
  rewrite Forall_forall in IH.
  rewrite verify_unfold. unfold verify_with. rewrite Hv. simpl negb. cbv iota.
  rewrite (proj2 (N.ltb_ge _ _) Hlen).
  rewrite <-(threshold_iff _ (λ s', verify s' message multi_sig)).
  2:{ intros s' Hs'. apply IH; [done|]. by eapply valid_nested. }
  destruct (match_sets _ _) as [n ids]. simpl fst.
  destruct (_ <? _) eqn:E; cbn [is_ok].
  - apply N.ltb_lt in E. split; [done|]. intros Hle. by apply N.lt_nge in E.
  - apply N.ltb_ge in E. done.
Qed.

Lemma verify_identities (s : SignerSet P) :
  len (signatures multi_sig) <= MAX_SIGNATURES → ∀ ids,
  verify s message multi_sig = Ok ids →
  signer_set_is_valid s = true ∧ StronglySorted ord_lt ids ∧
  ∀ p, p ∈ ids ↔ Matched message multi_sig s p.
Proof.
  intros Hlen. induction s as [i m t IH] using SignerSet_nested_ind. intros ids.
  rewrite Forall_forall in IH. rewrite verify_unfold. unfold verify_with.
  destruct (signer_set_is_valid _) eqn:Hv; simpl negb; cbv iota; [|done].
  rewrite (proj2 (N.ltb_ge _ _) Hlen).
  destruct (match_sets_spec (λ s', verify s' message multi_sig)
    (dedup (sort (multi_signers (mkSignerSet i m t))))) as [_ Hids].
  destruct (match_sets _ _) as [n ids']. simpl snd in Hids.
  destruct (_ <? _); [done|]. intros [= <-].
  split_and!; [done|apply sort_dedup_sorted|]. intros p.
  rewrite elem_of_sort_dedup, elem_of_app, elem_of_matched, elem_of_sort_dedup, Hids.
  setoid_rewrite elem_of_sort_dedup. split.
  - intros [[Hp Hs]|(s' & ids'' & Hs' & E & Hp)]; [by constructor|].
    destruct (IH s' Hs' _ E) as (Hv' & _ & Hm).
    apply (matched_nested _ _ _ s'); [done| |by apply Hm].
    apply (verify_is_ok s'); [done..|]. by rewrite E.
  - intros Hm. inversion Hm as [? ? ? ?|? s' ? Hs' Hsat Hm']; subst; [by left|right].
    assert (signer_set_is_valid s' = true) as Hv' by (by eapply valid_nested).
    apply (verify_is_ok s' Hlen Hv') in Hsat.
    destruct (verify s' message multi_sig) as [ids2|] eqn:E; [|done].
    exists s', ids2. split_and!; [done..|]. by apply (IH s' Hs').
Qed.

Lemma verify_len (s : SignerSet P) ids :
  verify s message multi_sig = Ok ids → len (signatures multi_sig) <= MAX_SIGNATURES.
Proof.
  rewrite verify_unfold. unfold verify_with. intros E.
  destruct (negb _); [done|]. destruct (MAX_SIGNATURES <? _) eqn:E'; [done|].
  by apply N.ltb_ge in E'.
Qed.

Lemma verify_ok_iff (s : SignerSet P) :
  is_ok (verify s message multi_sig) = true ↔
  signer_set_is_valid s = true ∧ len (signatures multi_sig) <= MAX_SIGNATURES ∧ Sat s.
Proof.
  split; [|intros (Hv & Hlen & Hs); by apply verify_is_ok].
  intros Hok. destruct (verify s message multi_sig) as [ids|] eqn:E; [|done].
  pose proof (verify_len s ids E) as Hlen.
  destruct (verify_identities s Hlen ids E) as (Hv & _ & _). split_and!; [done..|].
  apply verify_is_ok; [done..|]. by rewrite E.
Qed.

(** The verification of a multi-signature against a nested M-out-of-N
    set of signers succeeds exactly when the set is valid at every level, there
    are at most ten signatures, and at every level that counts the threshold is
    reached by distinct members, each of which signed the message or is itself a
    satisfied set; the identities it returns are strictly increasing (so without
    repetitions) and are exactly the individual signers that count. *)
Theorem verify_correct (s : SignerSet P) :
  match verify s message multi_sig with
  | Ok ids =>
      (signer_set_is_valid s = true ∧ len (signatures multi_sig) <= MAX_SIGNATURES ∧
       Satisfied message multi_sig s) ∧
      StronglySorted ord_lt ids ∧ ∀ p, p ∈ ids ↔ Matched message multi_sig s p
  | Err _ =>
      ¬ (signer_set_is_valid s = true ∧ len (signatures multi_sig) <= MAX_SIGNATURES ∧
         Satisfied message multi_sig s)
  end.
Proof.
  pose proof (verify_ok_iff s) as Hiff.
  destruct (verify s message multi_sig) as [ids|[]] eqn:E; simpl in Hiff; [|naive_solver].
  apply proj1 in Hiff. split; [by apply Hiff|].
  by apply (verify_identities s (verify_len s ids E) ids E).
Qed.
End props.

(** Two keys, each signing with its own number. *)
Definition ex_verifier : Verifier N N :=
  {| sig_verify p _ s := p =? s; sig_bytes s := be_bytes 1 s |}.
#[local] Existing Instance ex_verifier.
Definition ex_set : SignerSet N :=
  new_with_multi [3; 1; 3] [SignerSet_new [1; 2] 2; SignerSet_new [5; 6] 1] 2.

Lemma verify_correct_witness :
  verify ex_set [] (mkMultiSig [2; 1; 1]) = Ok [1; 2] ∧
  Satisfied [] (mkMultiSig [2; 1; 1]) ex_set.
Proof.
  assert (verify ex_set [] (mkMultiSig [2; 1; 1]) = Ok [1; 2]) as E by (vm_compute; reflexivity).
  split; [exact E|].
  pose proof (verify_correct [] (mkMultiSig [2; 1; 1]) ex_set) as Hc. rewrite E in Hc. apply Hc.
Defined.

(** Repeating a signer does not help to reach the threshold: the set is valid,
    and no collection of signatures satisfies it. *)
Example repeated_signer :
  signer_set_is_valid (SignerSet_new [3; 3] 2) = true ∧
  verify (SignerSet_new [3; 3] 2) [] (mkMultiSig [3; 3]) = Err mkSignatureError.
Proof. vm_compute. done. Qed.
End MultisigProps.
