(* ===== verification/Mint.v ===== *)
(** * Mint transactions and their validation

    [transaction/core/src/mint]: the transactions that set the minting
    configurations of a token ([config.rs]) and that mint tokens ([tx.rs]), and
    the checks made of each ([validation/common.rs], [validation/config.rs],
    [validation/tx.rs]).  Ed25519 and the digests of the transactions are
    third-party code: the classes [Verifier] and [MintDigests]. *)

From stdpp Require Import vector.
From S2P Require Import Prelude Ord Bytes TxOut BlockVersion MaskedAmount Tx TxValidation Multisig.

Open Scope N_scope.

Notation Ed25519Public := bytes32 (only parsing).
Notation Ed25519Signature := (vec byte 64) (only parsing).
Notation TokenId := N (only parsing).

Definition TOKEN_MOB : TokenId := 0.
Definition NONCE_LENGTH : nat := 64.
Definition MAX_MINT_TXS_PER_BLOCK : nat := 10.
Definition MAX_MINT_CONFIG_TXS_PER_BLOCK : nat := 10.

(** ** Data *)

Record MintConfig := mkMintConfig {
  config_token_id : N;
  config_signer_set : SignerSet Ed25519Public;
  mint_limit : N
}.

#[export] Instance MintConfig_eq_dec : EqDecision MintConfig.
Proof. solve_decision. Defined.

Record MintConfigTxPrefix := mkMintConfigTxPrefix {
  mct_token_id : N;
  mct_configs : list MintConfig;
  mct_nonce : bytes;
  mct_tombstone_block : N;
  total_mint_limit : N
}.

Record MintConfigTx := mkMintConfigTx {
  mct_prefix : MintConfigTxPrefix;
  mct_signature : MultiSig Ed25519Signature
}.

Record ValidatedMintConfigTx := mkValidatedMintConfigTx {
  mint_config_tx : MintConfigTx;
  validated_signer_set : SignerSet Ed25519Public
}.

Record MintTxPrefix := mkMintTxPrefix {
  mint_token_id : N;
  mint_amount : N;
  view_public_key : bytes32;
  spend_public_key : bytes32;
  mint_nonce : bytes;
  mint_tombstone_block : N;
  mint_e_fog_hint : option bytes
}.

Record MintTx := mkMintTx {
  mint_prefix : MintTxPrefix;
  mint_signature : MultiSig Ed25519Signature
}.

(** [MintConfigTxPrefix::hash] and [MintTxPrefix::hash], by the digestible
    derivation. *)
Class MintDigests : Type := {
  mint_config_tx_hash : MintConfigTxPrefix → bytes32;
  mint_tx_hash : MintTxPrefix → bytes32
}.

(** ** Errors *)

Module MintError.
Inductive Error :=
| InvalidBlockVersion (v : BlockVersion)
| InvalidTokenId (t : TokenId)
| InvalidNonceLength (n : nat)
| InvalidSignerSet
| InvalidSignature
| TombstoneBlockExceeded
| TombstoneBlockTooFar
| Unknown
| AmountExceedsMintLimit
| NoGovernors (t : TokenId)
| NonceAlreadyUsed
| NoMatchingMintConfig
| MintingToFogNotSupported.
End MintError.

(** ** [validation/common.rs] *)

Module MintValidation.
Notation Error := MintError.Error.

(** The errors of [TransactionValidationError] carry those of the ring
    signatures, hence the class. *)
Section common.
Context `{X : TxCrypto}.

Definition from_tombstone_error (err : TransactionValidationError) : Error :=
  match err with
  | TombstoneBlockExceeded => MintError.TombstoneBlockExceeded
  | TombstoneBlockTooFar => MintError.TombstoneBlockTooFar
  | _ => MintError.Unknown
  end.

Definition validate_tombstone (current_block_index tombstone_block_index : N) :
    result unit Error :=
  map_err from_tombstone_error
    (TxValidation.validate_tombstone current_block_index tombstone_block_index).
End common.

Definition validate_block_version (block_version : BlockVersion) : result unit Error :=
  if negb (mint_transactions_are_supported block_version) || (VERSION_MAX <? block_version)
  then Err (MintError.InvalidBlockVersion block_version) else Ok tt.

Definition validate_token_id (token_id : TokenId) : result unit Error :=
  if token_id =? TOKEN_MOB then Err (MintError.InvalidTokenId token_id) else Ok tt.

Definition validate_nonce (nonce : bytes) : result unit Error :=
  if negb (length nonce =? NONCE_LENGTH)%nat
  then Err (MintError.InvalidNonceLength (length nonce)) else Ok tt.

(** ** [validation/config.rs] *)

Definition validate_config (token_id : TokenId) (block_version : BlockVersion)
    (config : MintConfig) : result unit Error :=
  if negb (config_token_id config =? token_id)
  then Err (MintError.InvalidTokenId (config_token_id config))
  else if negb (signer_set_is_valid (config_signer_set config))
  then Err MintError.InvalidSignerSet
  else if negb (nested_multisigs_are_supported block_version) &&
          negb (bool_decide (multi_signers (config_signer_set config) = []))
  then Err MintError.InvalidSignerSet
  else Ok tt.

Definition validate_configs (token_id : TokenId) (configs : list MintConfig)
    (block_version : BlockVersion) : result unit Error :=
  for_each (validate_config token_id block_version) configs.

Section signed.
Context `{X : TxCrypto} `{V : Verifier Ed25519Public Ed25519Signature} `{DG : MintDigests}.

(** [verify(...).map_err(|_| Error::InvalidSignature).map(|_| ())] *)
Definition check_signature (signers : SignerSet Ed25519Public) (message : bytes)
    (sig : MultiSig Ed25519Signature) : result unit Error :=
  match verify signers message sig with
  | Ok _ => Ok tt
  | Err _ => Err MintError.InvalidSignature
  end.

Definition validate_config_signature (tx : MintConfigTx) (governors : SignerSet Ed25519Public) :
    result unit Error :=
  check_signature governors (vec_to_list (mint_config_tx_hash (mct_prefix tx))) (mct_signature tx).

Definition validate_mint_config_tx (tx : MintConfigTx) (current_block_index : option N)
    (block_version : BlockVersion) (governors : SignerSet Ed25519Public) : result unit Error :=
  let? _ := validate_block_version block_version in
  let token_id := mct_token_id (mct_prefix tx) in
  let? _ := validate_token_id token_id in
  let? _ := validate_configs token_id (mct_configs (mct_prefix tx)) block_version in
  let? _ := validate_nonce (mct_nonce (mct_prefix tx)) in
  let? _ := match current_block_index with
            | Some current_block_index =>
                validate_tombstone current_block_index (mct_tombstone_block (mct_prefix tx))
            | None => Ok tt
            end in
  validate_config_signature tx governors.

(** ** [validation/tx.rs] *)

Definition validate_signature (tx : MintTx) (signer_set : SignerSet Ed25519Public) :
    result unit Error :=
  check_signature signer_set (vec_to_list (mint_tx_hash (mint_prefix tx))) (mint_signature tx).

Definition validate_against_mint_config (tx : MintTx) (mint_config : MintConfig) :
    result unit Error :=
  if negb (mint_token_id (mint_prefix tx) =? config_token_id mint_config)
  then Err (MintError.InvalidTokenId (mint_token_id (mint_prefix tx)))
  else if mint_limit mint_config <? mint_amount (mint_prefix tx)
  then Err MintError.AmountExceedsMintLimit
  else validate_signature tx (config_signer_set mint_config).

Definition validate_e_fog_hint (block_version : BlockVersion) (tx : MintTx) : result unit Error :=
  if bool_decide (mint_e_fog_hint (mint_prefix tx) ≠ None) &&
     negb (minting_to_fog_addresses_is_supported block_version)
  then Err MintError.MintingToFogNotSupported else Ok tt.

Definition validate_mint_tx (tx : MintTx) (current_block_index : N)
    (block_version : BlockVersion) (mint_config : MintConfig) : result unit Error :=
  let? _ := validate_block_version block_version in
  let? _ := validate_token_id (mint_token_id (mint_prefix tx)) in
  let? _ := validate_nonce (mint_nonce (mint_prefix tx)) in
  let? _ := validate_tombstone current_block_index (mint_tombstone_block (mint_prefix tx)) in
  let? _ := validate_against_mint_config tx mint_config in
  validate_e_fog_hint block_version tx.
End signed.
End MintValidation.

(** ** Correctness of the validation *)

Module MintValidationProps.
Import MintValidation.
Section props.
Context `{X : TxCrypto} `{V : Verifier Ed25519Public Ed25519Signature} `{DG : MintDigests}.

(** The collection of signatures satisfies the set of signers. *)
Definition authorized (signers : SignerSet Ed25519Public) (message : bytes32)
    (sig : MultiSig Ed25519Signature) : Prop :=
  signer_set_is_valid signers = true ∧ len (signatures sig) <= MAX_SIGNATURES ∧
  Satisfied (vec_to_list message) sig signers.

(** What holds of the block, the token, the nonce and the tombstone of every
    mint transaction that is accepted. *)
Record mint_common (block_version : BlockVersion) (token_id : TokenId) (nonce : bytes) : Prop := {
  mc_version : 2 <= block_version ∧ block_version <= 4;
  mc_token : token_id ≠ 0;
  mc_nonce : length nonce = 64%nat
}.

Definition tombstone_in_range (current tombstone : N) : Prop :=
  current < tombstone ∧ tombstone <= u64_add current 20160.

Record valid_mint_config_tx (tx : MintConfigTx) (current : option N)
    (block_version : BlockVersion) (governors : SignerSet Ed25519Public) : Prop := {
  vmc_common : mint_common block_version (mct_token_id (mct_prefix tx)) (mct_nonce (mct_prefix tx));
  vmc_configs : ∀ c, c ∈ mct_configs (mct_prefix tx) →
    config_token_id c = mct_token_id (mct_prefix tx) ∧
    signer_set_is_valid (config_signer_set c) = true ∧
    (block_version < 3 → multi_signers (config_signer_set c) = []);
  vmc_tombstone : ∀ i, current = Some i → tombstone_in_range i (mct_tombstone_block (mct_prefix tx));
  vmc_signed : authorized governors (mint_config_tx_hash (mct_prefix tx)) (mct_signature tx)
}.

Record valid_mint_tx (tx : MintTx) (current : N) (block_version : BlockVersion)
    (c : MintConfig) : Prop := {
  vm_common : mint_common block_version (mint_token_id (mint_prefix tx)) (mint_nonce (mint_prefix tx));
  vm_tombstone : tombstone_in_range current (mint_tombstone_block (mint_prefix tx));
  vm_config : mint_token_id (mint_prefix tx) = config_token_id c;
  vm_limit : mint_amount (mint_prefix tx) <= mint_limit c;
  vm_signed : authorized (config_signer_set c) (mint_tx_hash (mint_prefix tx)) (mint_signature tx);
  vm_fog : block_version < 3 → mint_e_fog_hint (mint_prefix tx) = None
}.

Lemma check_signature_Ok signers message sig :
  check_signature signers (vec_to_list message) sig = Ok tt ↔ authorized signers message sig.
Proof.
  unfold check_signature, authorized. rewrite <-MultisigProps.verify_ok_iff.
  destruct (verify _ _ _); simpl; naive_solver.
Qed.

Lemma common_Ok block_version token_id nonce :
  validate_block_version block_version = Ok tt ∧ validate_token_id token_id = Ok tt ∧
  validate_nonce nonce = Ok tt ↔ mint_common block_version token_id nonce.
Proof.
  unfold validate_block_version, validate_token_id, validate_nonce,
    mint_transactions_are_supported, VERSION_MAX, VERSION_FOUR, VERSION_TWO, TOKEN_MOB, NONCE_LENGTH.
  rewrite !ValidationProps.if_Err_Ok, orb_false_iff, !negb_false_iff, N.leb_le, N.ltb_ge,
    N.eqb_neq, Nat.eqb_eq.
  split; [intros (([? ?] & _) & (? & _) & (? & _)); by split|intros [? ? ?]; naive_solver].
Qed.

Lemma mint_tombstone_Ok current tombstone :
  validate_tombstone current tombstone = Ok tt ↔ tombstone_in_range current tombstone.
Proof. unfold validate_tombstone. rewrite map_err_Ok. apply ValidationProps.tombstone_Ok. Qed.

Lemma config_Ok token_id block_version c :
  validate_config token_id block_version c = Ok tt ↔
  config_token_id c = token_id ∧ signer_set_is_valid (config_signer_set c) = true ∧
  (block_version < 3 → multi_signers (config_signer_set c) = []).
Proof.
  unfold validate_config, nested_multisigs_are_supported, VERSION_THREE.
  rewrite !ValidationProps.if_Err_Ok, !negb_false_iff, N.eqb_eq, andb_false_iff, !negb_false_iff,
    N.leb_le, bool_decide_eq_true.
  split; [intros (? & ? & [?|?] & _)|intros (? & ? & Hc)]; split_and?; try done; try lia.
  destruct (N.le_gt_cases 3 block_version) as [|Hlt]; [by left|right; by apply Hc].
Qed.

Lemma configs_Ok token_id configs block_version :
  validate_configs token_id configs block_version = Ok tt ↔
  ∀ c, c ∈ configs → config_token_id c = token_id ∧
    signer_set_is_valid (config_signer_set c) = true ∧
    (block_version < 3 → multi_signers (config_signer_set c) = []).
Proof.
  unfold validate_configs. rewrite for_each_Ok, Forall_forall.
  by setoid_rewrite config_Ok.
Qed.

(** A mint-config transaction is accepted exactly when the block version
    has minting, the token is not the native one, every configuration is for
    that token and has a valid set of signers (nested only from version 3 on),
    the nonce has 64 bytes, the tombstone is in the window after the current
    block, if one is given, and the governors' set is satisfied by signatures
    of its digest. *)
Theorem validate_mint_config_tx_iff tx current block_version governors :
  validate_mint_config_tx tx current block_version governors = Ok tt ↔
  valid_mint_config_tx tx current block_version governors.
Proof.
  unfold validate_mint_config_tx, validate_config_signature.
  rewrite !ValidationProps.bind_unit_Ok, configs_Ok, check_signature_Ok.
  assert ((match current with
           | Some i => validate_tombstone i (mct_tombstone_block (mct_prefix tx))
           | None => Ok tt
           end) = Ok tt ↔
    ∀ i, current = Some i → tombstone_in_range i (mct_tombstone_block (mct_prefix tx))) as ->.
  { destruct current as [i|]; [rewrite mint_tombstone_Ok|]; naive_solver. }
  pose proof (common_Ok block_version (mct_token_id (mct_prefix tx)) (mct_nonce (mct_prefix tx))) as Hc.
  split; [intros (? & ? & ? & ? & ? & ?); constructor; try done; by apply Hc|].
  intros [(? & ? & ?)%Hc ? ? ?]. done.
Qed.

(** A mint transaction is accepted against a configuration exactly when
    the block version has minting, the token is not the native one and is that
    of the configuration, the amount is within the limit of the configuration,
    the nonce has 64 bytes, the tombstone is in the window after the current
    block, the signers of the configuration are satisfied by signatures of its
    digest, and it mints to a fog address only from version 3 on. *)
Theorem validate_mint_tx_iff tx current block_version c :
  validate_mint_tx tx current block_version c = Ok tt ↔
  valid_mint_tx tx current block_version c.
Proof.
  unfold validate_mint_tx, validate_against_mint_config, validate_signature, validate_e_fog_hint,
    minting_to_fog_addresses_is_supported, VERSION_THREE.
  rewrite !ValidationProps.bind_unit_Ok, !ValidationProps.if_Err_Ok, check_signature_Ok, mint_tombstone_Ok,
    negb_false_iff, N.eqb_eq, N.ltb_ge, andb_false_iff, bool_decide_eq_false, negb_false_iff, N.leb_le.
  pose proof (common_Ok block_version (mint_token_id (mint_prefix tx)) (mint_nonce (mint_prefix tx))) as Hc.
  split.
  - intros (? & ? & ? & ? & (? & ? & ?) & Hf & _). constructor; try done; [by apply Hc|].
    intros Hlt. destruct Hf as [Hf|Hf]; [|lia]. by destruct (mint_e_fog_hint _); [destruct Hf|].
  - intros [(? & ? & ?)%Hc ? ? ? ? Hf]. split_and!; try done.
    destruct (N.le_gt_cases 3 block_version) as [|Hlt]; [by right|left]. rewrite Hf by done. naive_solver.
Qed.
End props.
End MintValidationProps.
