(* ===== verification/MintOrd.v ===== *)
(** * Derived orders of mint transactions

    The [derive(Ord, Eq, Hash)]s of [transaction/core/src/mint] and of
    [crypto/multisig]: mint transactions are sorted, and are the keys of hash
    maps and sets. *)

From stdpp Require Import vector.
From S2P Require Import Prelude Ord Bytes TxOut BlockVersion MaskedAmount Tx TxValidation Multisig Mint.

Open Scope N_scope.

(** An order given by a key that determines the element is total. *)
Lemma total_ord_key {A B} `{TotalOrd B} (f : A → B) `{!Inj (=) (=) f} :
  @TotalOrd A (λ x y, cmp (f x) (f y)).
Proof.
  split.
  - intros x y. change (cmp (f x) (f y) = Eq ↔ x = y).
    rewrite cmp_eq_iff. split; [apply (inj f)|by intros ->].
  - intros x y. apply (cmp_opp (f x) (f y)).
  - intros x y z. apply (cmp_lt_trans (f x) (f y) (f z)).
Qed.

#[export] Instance bytes64_ord : Ord Ed25519Signature := λ a b, cmp (vec_to_list a) (vec_to_list b).
#[export] Instance bytes64_total_ord : TotalOrd Ed25519Signature.
Proof.
  assert (Inj (=) (=) (@vec_to_list byte 64)) by (intros a b; apply vec_to_list_inj2).
  apply (total_ord_key vec_to_list).
Qed.

(** The fields of a derived [Ord], in order. *)
Definition MultiSig_key {S} (m : MultiSig S) : list S := signatures m.
Definition MintConfig_key (c : MintConfig) : N * (SignerSet Ed25519Public * N) :=
  (config_token_id c, (config_signer_set c, mint_limit c)).
Definition MintConfigTxPrefix_key (p : MintConfigTxPrefix) :
    N * (list MintConfig * (bytes * (N * N))) :=
  (mct_token_id p, (mct_configs p, (mct_nonce p, (mct_tombstone_block p, total_mint_limit p)))).
Definition MintConfigTx_key (t : MintConfigTx) : MintConfigTxPrefix * MultiSig Ed25519Signature :=
  (mct_prefix t, mct_signature t).
Definition MintTxPrefix_key (p : MintTxPrefix) :
    N * (N * (bytes32 * (bytes32 * (bytes * (N * option bytes))))) :=
  (mint_token_id p, (mint_amount p, (view_public_key p, (spend_public_key p,
    (mint_nonce p, (mint_tombstone_block p, mint_e_fog_hint p)))))).
Definition MintTx_key (t : MintTx) : MintTxPrefix * MultiSig Ed25519Signature :=
  (mint_prefix t, mint_signature t).

#[export] Instance MultiSig_ord {S} `{Ord S} : Ord (MultiSig S) := λ a b, cmp (MultiSig_key a) (MultiSig_key b).
#[export] Instance MintConfig_ord : Ord MintConfig := λ a b, cmp (MintConfig_key a) (MintConfig_key b).
#[export] Instance MintConfigTxPrefix_ord : Ord MintConfigTxPrefix :=
  λ a b, cmp (MintConfigTxPrefix_key a) (MintConfigTxPrefix_key b).
#[export] Instance MintConfigTx_ord : Ord MintConfigTx := λ a b, cmp (MintConfigTx_key a) (MintConfigTx_key b).
#[export] Instance MintTxPrefix_ord : Ord MintTxPrefix := λ a b, cmp (MintTxPrefix_key a) (MintTxPrefix_key b).
#[export] Instance MintTx_ord : Ord MintTx := λ a b, cmp (MintTx_key a) (MintTx_key b).

(** A record is determined by its fields. *)
Ltac key_inj := intros [] [] E; simpl in E; by simplify_eq.

#[export] Instance MultiSig_key_inj {S} : Inj (=) (=) (@MultiSig_key S).
Proof. key_inj. Qed.
#[export] Instance MintConfig_key_inj : Inj (=) (=) MintConfig_key.
Proof. key_inj. Qed.
#[export] Instance MintConfigTxPrefix_key_inj : Inj (=) (=) MintConfigTxPrefix_key.
Proof. key_inj. Qed.
#[export] Instance MintConfigTx_key_inj : Inj (=) (=) MintConfigTx_key.
Proof. key_inj. Qed.
#[export] Instance MintTxPrefix_key_inj : Inj (=) (=) MintTxPrefix_key.
Proof. key_inj. Qed.
#[export] Instance MintTx_key_inj : Inj (=) (=) MintTx_key.
Proof. key_inj. Qed.

#[export] Instance MultiSig_total_ord {S} `{TotalOrd S} : TotalOrd (MultiSig S).
Proof. apply (total_ord_key MultiSig_key). Qed.
#[export] Instance MintConfig_total_ord : TotalOrd MintConfig.
Proof. apply (total_ord_key MintConfig_key). Qed.
#[export] Instance MintConfigTxPrefix_total_ord : TotalOrd MintConfigTxPrefix.
Proof. apply (total_ord_key MintConfigTxPrefix_key). Qed.
#[export] Instance MintConfigTx_total_ord : TotalOrd MintConfigTx.
Proof. apply (total_ord_key MintConfigTx_key). Qed.
#[export] Instance MintTxPrefix_total_ord : TotalOrd MintTxPrefix.
Proof. apply (total_ord_key MintTxPrefix_key). Qed.
#[export] Instance MintTx_total_ord : TotalOrd MintTx.
Proof. apply (total_ord_key MintTx_key). Qed.

(** Hashing: the containers of the source are keyed by these types. *)
#[export] Instance MultiSig_eq_dec {S} `{EqDecision S} : EqDecision (MultiSig S).
Proof. solve_decision. Defined.
#[export] Instance MintConfigTxPrefix_eq_dec : EqDecision MintConfigTxPrefix.
Proof. solve_decision. Defined.
#[export] Instance MintConfigTx_eq_dec : EqDecision MintConfigTx.
Proof. solve_decision. Defined.
#[export] Instance MintTxPrefix_eq_dec : EqDecision MintTxPrefix.
Proof. solve_decision. Defined.
#[export] Instance MintTx_eq_dec : EqDecision MintTx.
Proof. solve_decision. Defined.

Fixpoint signer_set_tree {P} (s : SignerSet P) : gen_tree (list P * N) :=
  match s with
  | mkSignerSet i m t => GenNode 0 (GenLeaf (i, t) :: (signer_set_tree <$> m))
  end.

Fixpoint tree_signer_set {P} (t : gen_tree (list P * N)) : SignerSet P :=
  match t with
  | GenNode _ (GenLeaf (i, th) :: l) => mkSignerSet i (tree_signer_set <$> l) th
  | _ => mkSignerSet [] [] 0
  end.

#[export] Instance SignerSet_countable {P} `{Countable P} : Countable (SignerSet P).
Proof.
  refine (inj_countable' signer_set_tree tree_signer_set _).
  intros s. induction s as [i m t IH] using SignerSet_nested_ind. simpl. f_equal.
  rewrite <-list_fmap_compose. rewrite <-(list_fmap_id m) at 2.
  induction IH; simpl; f_equal; done.
Defined.
#[export] Instance MultiSig_countable {S} `{Countable S} : Countable (MultiSig S).
Proof. refine (inj_countable' MultiSig_key mkMultiSig _). by intros []. Defined.
#[export] Instance MintConfig_countable : Countable MintConfig.
Proof.
  refine (inj_countable' MintConfig_key (λ x, mkMintConfig x.1 x.2.1 x.2.2) _). by intros [].
Defined.
#[export] Instance MintConfigTxPrefix_countable : Countable MintConfigTxPrefix.
Proof.
  refine (inj_countable' MintConfigTxPrefix_key
    (λ x, mkMintConfigTxPrefix x.1 x.2.1 x.2.2.1 x.2.2.2.1 x.2.2.2.2) _). by intros [].
Defined.
#[export] Instance MintConfigTx_countable : Countable MintConfigTx.
Proof. refine (inj_countable' MintConfigTx_key (λ x, mkMintConfigTx x.1 x.2) _). by intros []. Defined.
#[export] Instance MintTxPrefix_countable : Countable MintTxPrefix.
Proof.
  refine (inj_countable' MintTxPrefix_key (λ x, mkMintTxPrefix x.1 x.2.1 x.2.2.1 x.2.2.2.1
    x.2.2.2.2.1 x.2.2.2.2.2.1 x.2.2.2.2.2.2) _). by intros [].
Defined.
#[export] Instance MintTx_countable : Countable MintTx.
Proof. refine (inj_countable' MintTx_key (λ x, mkMintTx x.1 x.2) _). by intros []. Defined.
