(* ===== verification/MintStore.v ===== *)
(** * The stores of mint configurations and of mint transactions

    [ledger/db/src/mint_config_store.rs] keeps, for each token, the minting
    configurations that are active and how much has been minted with each;
    [ledger/db/src/mint_tx_store.rs] keeps the mint transactions of each block,
    finds the configuration that authorizes each one and updates the amount
    minted with it.  The serialization is third-party code, the class
    [MintCodec]. *)

From stdpp Require Import vector strings.
From S2P Require Import Prelude Ord Bytes Lmdb TxOut Membership TxOutStore BlockVersion MaskedAmount Tx TxValidation Multisig Mint.

Open Scope N_scope.

(** ** Data *)

Record ActiveMintConfig := mkActiveMintConfig {
  amc_mint_config : MintConfig;
  amc_total_minted : N
}.

Record ActiveMintConfigs := mkActiveMintConfigs {
  amcs_configs : list ActiveMintConfig;
  amcs_mint_config_tx : MintConfigTx
}.

(** [ValidatedMintConfigTxList] and [MintTxList] wrap their list. *)
Notation ValidatedMintConfigTxList := (list ValidatedMintConfigTx) (only parsing).
Notation MintTxList := (list MintTx) (only parsing).

(** [mc_util_serial::encode] and [decode] of what the stores keep. *)
Class MintCodec : Type := {
  encode_active : ActiveMintConfigs → bytes;
  decode_active : bytes → option ActiveMintConfigs;
  decode_encode_active : ∀ a, decode_active (encode_active a) = Some a;
  encode_config_txs : ValidatedMintConfigTxList → bytes;
  decode_config_txs : bytes → option ValidatedMintConfigTxList;
  decode_encode_config_txs : ∀ l, decode_config_txs (encode_config_txs l) = Some l;
  encode_mint_txs : MintTxList → bytes;
  decode_mint_txs : bytes → option MintTxList;
  decode_encode_mint_txs : ∀ l, decode_mint_txs (encode_mint_txs l) = Some l
}.

(** ** Active configurations *)

Definition amcs_total_mint_limit (self : ActiveMintConfigs) : N :=
  total_mint_limit (mct_prefix (amcs_mint_config_tx self)).

(** [total_minted]: [Iterator::sum], which wraps. *)
Definition amcs_total_minted (self : ActiveMintConfigs) : N :=
  foldl u64_add 0 (amc_total_minted <$> amcs_configs self).

Definition can_mint (self : ActiveMintConfigs) (amount : N) : bool :=
  match u64_checked_add (amcs_total_minted self) amount with
  | Some new_total_minted => new_total_minted <=? amcs_total_mint_limit self
  | None => false
  end.

Section active.
Context `{V : Verifier Ed25519Public Ed25519Signature} `{DG : MintDigests}.

(** The loop of [get_active_mint_config_for_mint_tx]; [error] is the one
    returned when no configuration is found. *)
Fixpoint find_config (mint_tx : MintTx) (message : bytes) (error : Error)
    (l : list ActiveMintConfig) : result ActiveMintConfig Error :=
  match l with
  | [] => Err error
  | c :: l =>
      if negb (is_ok (verify (config_signer_set (amc_mint_config c)) message (mint_signature mint_tx)))
      then find_config mint_tx message error l
      else
        let next := find_config mint_tx message
          (MintLimitExceeded (mint_amount (mint_prefix mint_tx)) (amc_total_minted c)
             (mint_limit (amc_mint_config c))) l in
        match u64_checked_add (amc_total_minted c) (mint_amount (mint_prefix mint_tx)) with
        | Some new_total_minted =>
            if new_total_minted <=? mint_limit (amc_mint_config c) then Ok c else next
        | None => next
        end
  end.

Definition amcs_get_config_for_mint_tx (self : ActiveMintConfigs) (mint_tx : MintTx) :
    result ActiveMintConfig Error :=
  if negb (can_mint self (mint_amount (mint_prefix mint_tx)))
  then Err (MintLimitExceeded (mint_amount (mint_prefix mint_tx)) (amcs_total_minted self)
              (amcs_total_mint_limit self))
  else if bool_decide (amc_mint_config <$> amcs_configs self ≠
                       mct_configs (mct_prefix (amcs_mint_config_tx self)))
  then Err (InvalidMintConfig "MintConfigs do not match origianl transaction")
  else find_config mint_tx (vec_to_list (mint_tx_hash (mint_prefix mint_tx))) NotFound
         (amcs_configs self).
End active.

(** [From<&MintConfigTx>]. *)
Definition ActiveMintConfigs_from (tx : MintConfigTx) : ActiveMintConfigs :=
  mkActiveMintConfigs ((λ c, mkActiveMintConfig c 0) <$> mct_configs (mct_prefix tx)) tx.

(** [iter_mut().find(...)] and an assignment through the reference found: the
    element and the list with the new one in its place. *)
Fixpoint find_mut {A} (f : A → bool) (l : list A) : option (A * (A → list A)) :=
  match l with
  | [] => None
  | x :: l =>
      if f x then Some (x, λ y, y :: l)
      else match find_mut f l with
           | Some (y, k) => Some (y, λ z, x :: k z)
           | None => None
           end
  end.

(** ** The stores *)

Record MintConfigStore := mkMintConfigStore {
  active_mint_configs_by_token_id : Database;
  block_index_by_mint_config_tx_nonce_and_token_id : Database;
  validated_mint_config_txs_by_block : Database
}.

Record MintTxStore := mkMintTxStore {
  mint_txs_by_block : Database;
  block_index_by_mint_tx_nonce_and_token_id : Database
}.

(** [check_mint_config]. *)
Definition check_mint_config (tx : MintConfigTx) : result unit Error :=
  if existsb (λ c, negb (config_token_id c =? mct_token_id (mct_prefix tx)))
       (mct_configs (mct_prefix tx))
  then Err (InvalidMintConfig "All mint configurations must have the same token id")
  else Ok tt.

Definition nonce_key (nonce : bytes) (token_id : N) : bytes := nonce ++ u64_to_key_bytes token_id.

Section stores.
Context {T : Type} `{Transaction T} `{V : Verifier Ed25519Public Ed25519Signature}
  `{DG : MintDigests} `{C : MintCodec}.

(** A read whose error is matched on. *)
Definition try_get (d : Database) (k : bytes) : dbm T (result bytes lmdb_error) := λ t,
  Done (Ok (db_get t d k), t).

Definition decoded {A} (o : option A) : dbm T A :=
  match o with Some a => dret a | None => dfail Deserialization end.

(** *** [MintConfigStore] *)

Definition write_block_index_by_nonce_and_token_id (self : MintConfigStore) (tx : MintConfigTx)
    (block_index_bytes : bytes) : dbm T unit :=
  put (block_index_by_mint_config_tx_nonce_and_token_id self)
    (nonce_key (mct_nonce (mct_prefix tx)) (mct_token_id (mct_prefix tx)))
    block_index_bytes NO_OVERWRITE.

Definition write_active_mint_configs_by_token_id (self : MintConfigStore) (tx : MintConfigTx) :
    dbm T unit :=
  put (active_mint_configs_by_token_id self) (u64_to_key_bytes (mct_token_id (mct_prefix tx)))
    (encode_active (ActiveMintConfigs_from tx)) FlagsEmpty.

(** The body of the loop of [write_validated_mint_config_txs]. *)
Definition write_mint_config_tx (self : MintConfigStore) (block_index_bytes : bytes)
    (v : ValidatedMintConfigTx) : dbm T unit :=
  let tx := mint_config_tx v in
  let@ _ := dresult (check_mint_config tx) in
  let@ _ := write_block_index_by_nonce_and_token_id self tx block_index_bytes in
  write_active_mint_configs_by_token_id self tx.

Definition write_validated_mint_config_txs (self : MintConfigStore) (block_index : N)
    (txs : list ValidatedMintConfigTx) : dbm T unit :=
  let block_index_bytes := u64_to_key_bytes block_index in
  let@ _ := put (validated_mint_config_txs_by_block self) block_index_bytes
              (encode_config_txs txs) NO_OVERWRITE in
  dfor (write_mint_config_tx self block_index_bytes) txs.

Definition get_validated_mint_config_txs_by_block_index (self : MintConfigStore)
    (block_index : N) : dbm T (list ValidatedMintConfigTx) :=
  let@ b := get (validated_mint_config_txs_by_block self) (u64_to_key_bytes block_index) in
  decoded (decode_config_txs b).

Definition get_active_mint_configs (self : MintConfigStore) (token_id : TokenId) :
    dbm T (option ActiveMintConfigs) :=
  let@ r := try_get (active_mint_configs_by_token_id self) (u64_to_key_bytes token_id) in
  match r with
  | Ok b => let@ a := decoded (decode_active b) in dret (Some a)
  | Err LmdbNotFound => dret None
  | Err err => dfail (Error_from_lmdb err)
  end.

Definition get_active_mint_config_for_mint_tx (self : MintConfigStore) (mint_tx : MintTx) :
    dbm T ActiveMintConfig :=
  let@ o := get_active_mint_configs self (mint_token_id (mint_prefix mint_tx)) in
  let@ active_mint_configs := dresult (ok_or o NotFound) in
  dresult (amcs_get_config_for_mint_tx active_mint_configs mint_tx).

Definition update_total_minted (self : MintConfigStore) (mint_config : MintConfig) (amount : N) :
    dbm T unit :=
  let@ o := get_active_mint_configs self (config_token_id mint_config) in
  let@ active_mint_configs := dresult (ok_or o NotFound) in
  let@ (active_mint_config, set_config) :=
    dresult (ok_or (find_mut (λ c, bool_decide (amc_mint_config c = mint_config))
                      (amcs_configs active_mint_configs)) NotFound) in
  let minted := amc_total_minted active_mint_config in
  if amount <? minted then dfail (TotalMintedAmountCannotDecrease amount minted)
  else
    let mint_increase_amount := u64_sub amount minted in
    if mint_limit (amc_mint_config active_mint_config) <? amount
    then dfail (MintLimitExceeded mint_increase_amount minted
                  (mint_limit (amc_mint_config active_mint_config)))
    else
      let active_mint_configs :=
        mkActiveMintConfigs
          (set_config (mkActiveMintConfig (amc_mint_config active_mint_config) amount))
          (amcs_mint_config_tx active_mint_configs) in
      if amcs_total_mint_limit active_mint_configs <? amcs_total_minted active_mint_configs
      then dfail (MintLimitExceeded mint_increase_amount (amcs_total_minted active_mint_configs)
                    (amcs_total_mint_limit active_mint_configs))
      else
        put (active_mint_configs_by_token_id self) (u64_to_key_bytes (config_token_id mint_config))
          (encode_active active_mint_configs) FlagsEmpty.

Definition nonce_lookup (d : Database) (token_id : N) (nonce : bytes) : dbm T (option N) :=
  let@ r := try_get d (nonce_key nonce token_id) in
  match r with
  | Ok db_bytes => let@ i := dexec (key_bytes_to_u64 db_bytes) in dret (Some i)
  | Err LmdbNotFound => dret None
  | Err e => dfail (Lmdb e)
  end.

Definition check_mint_config_tx_nonce (self : MintConfigStore) (token_id : N) (nonce : bytes) :
    dbm T (option N) :=
  nonce_lookup (block_index_by_mint_config_tx_nonce_and_token_id self) token_id nonce.

(** *** [MintTxStore] *)

Definition get_mint_txs_by_block_index (self : MintTxStore) (block_index : N) :
    dbm T (list MintTx) :=
  let@ b := get (mint_txs_by_block self) (u64_to_key_bytes block_index) in
  decoded (decode_mint_txs b).

Definition write_block_index_by_mint_tx_nonce_and_token_id (self : MintTxStore) (mint_tx : MintTx)
    (block_index_bytes : bytes) : dbm T unit :=
  put (block_index_by_mint_tx_nonce_and_token_id self)
    (nonce_key (mint_nonce (mint_prefix mint_tx)) (mint_token_id (mint_prefix mint_tx)))
    block_index_bytes NO_OVERWRITE.

(** The body of the loop of [write_mint_txs]. *)
Definition write_mint_tx (self : MintTxStore) (mint_config_store : MintConfigStore)
    (block_index_bytes : bytes) (mint_tx : MintTx) : dbm T unit :=
  let@ active_mint_config := get_active_mint_config_for_mint_tx mint_config_store mint_tx in
  let@ new_total_minted :=
    dresult (ok_or (u64_checked_add (amc_total_minted active_mint_config)
                      (mint_amount (mint_prefix mint_tx))) NotFound) in
  let@ _ := update_total_minted mint_config_store (amc_mint_config active_mint_config)
              new_total_minted in
  write_block_index_by_mint_tx_nonce_and_token_id self mint_tx block_index_bytes.

Definition write_mint_txs (self : MintTxStore) (block_index : N) (mint_txs : list MintTx)
    (mint_config_store : MintConfigStore) : dbm T unit :=
  let block_index_bytes := u64_to_key_bytes block_index in
  let@ _ := put (mint_txs_by_block self) block_index_bytes (encode_mint_txs mint_txs)
              NO_OVERWRITE in
  dfor (write_mint_tx self mint_config_store block_index_bytes) mint_txs.

Definition check_mint_tx_nonce (self : MintTxStore) (token_id : N) (nonce : bytes) :
    dbm T (option N) :=
  nonce_lookup (block_index_by_mint_tx_nonce_and_token_id self) token_id nonce.
End stores.
