(* ===== verification/MintStoreProps.v ===== *)
(** * Correctness of the mint stores

    The amounts minted are kept in a database by token: [active_view] relates
    it to a finite map from tokens to active configurations, on which minting is
    the relation [mint_step].  Writing the mint transactions of a block is a
    sequence of such steps, which never exceed a limit as long as the
    configurations of a token are distinct ([active_ok]); the validation of a
    mint-config transaction does not ensure that they are. *)

From stdpp Require Import vector strings.
From S2P Require Import Prelude Ord Bytes Lmdb TxOut Membership MerkleTree TxOutStore TxOutStoreProps BlockVersion MaskedAmount Tx TxValidation Multisig Mint MintOrd MintStore.

Open Scope N_scope.

(** ** Sums and searches *)

Definition sum_N (l : list N) : N := foldr N.add 0 l.

Lemma sum_N_app l1 l2 : sum_N (l1 ++ l2) = sum_N l1 + sum_N l2.
Proof. induction l1 as [|x l1 IH]; simpl; [done|]. rewrite IH. lia. Qed.

Lemma foldl_u64_add l : ∀ a,
  a + sum_N l < u64_modulus → foldl u64_add a l = a + sum_N l.
Proof.
  induction l as [|x l IH]; intros a; simpl; [lia|]. intros Hlt.
  rewrite u64_add_small by lia. rewrite IH by lia. lia.
Qed.

(** What was minted with all the configurations of a token. *)
Definition minted_sum (a : ActiveMintConfigs) : N :=
  sum_N (amc_total_minted <$> amcs_configs a).

Lemma total_minted_sum a : minted_sum a < u64_modulus → amcs_total_minted a = minted_sum a.
Proof. intros. unfold amcs_total_minted. by rewrite foldl_u64_add. Qed.

Lemma can_mint_iff a amount :
  minted_sum a < u64_modulus → amcs_total_mint_limit a < u64_modulus →
  can_mint a amount = true ↔ minted_sum a + amount <= amcs_total_mint_limit a.
Proof.
  intros Hs Hl. unfold can_mint, u64_checked_add. rewrite total_minted_sum by done.
  destruct (N.ltb_spec (minted_sum a + amount) u64_modulus) as [Hlt|Hge].
  - apply N.leb_le.
  - split; [done|lia].
Qed.

Lemma find_mut_Some {A} (f : A → bool) l x k :
  find_mut f l = Some (x, k) →
  ∃ l1 l2, l = l1 ++ x :: l2 ∧ f x = true ∧ Forall (λ y, f y = false) l1 ∧
    ∀ y, k y = l1 ++ y :: l2.
Proof.
  revert x k. induction l as [|z l IH]; intros x k; simpl; [done|].
  destruct (f z) eqn:E.
  - intros [= -> <-]. exists [], l. done.
  - destruct (find_mut f l) as [[y k']|]; [|done]. intros [= -> <-].
    destruct (IH _ _ eq_refl) as (l1 & l2 & -> & ? & ? & Hk).
    exists (z :: l1), l2. split_and!; [done..|by constructor|]. intros y'. simpl. by rewrite Hk.
Qed.

Lemma find_mut_first {A} (f : A → bool) l1 x l2 :
  f x = true → Forall (λ y, f y = false) l1 →
  ∃ k, find_mut f (l1 ++ x :: l2) = Some (x, k) ∧ ∀ y, k y = l1 ++ y :: l2.
Proof.
  intros Hx. induction 1 as [|z l1 Hz _ IH]; simpl.
  - rewrite Hx. by eexists.
  - rewrite Hz. destruct IH as (k & -> & Hk). eexists. split; [done|]. intros y. simpl. by rewrite Hk.
Qed.

(** ** Minting, abstractly *)

Section abstract.
Context `{V : Verifier Ed25519Public Ed25519Signature} `{DG : MintDigests}.
Notation authorized := MintValidationProps.authorized.
Implicit Types (tx : MintTx) (m : gmap N ActiveMintConfigs).

Abbreviation amount_of tx := (mint_amount (mint_prefix tx)).
Abbreviation token_of tx := (mint_token_id (mint_prefix tx)).

(** The configuration authorizes the transaction and has room for it. *)
Definition mint_accepts tx (c : ActiveMintConfig) : Prop :=
  authorized (config_signer_set (amc_mint_config c)) (mint_tx_hash (mint_prefix tx))
    (mint_signature tx) ∧
  amc_total_minted c + amount_of tx <= mint_limit (amc_mint_config c).

Definition add_minted (c : ActiveMintConfig) (amount : N) : ActiveMintConfig :=
  mkActiveMintConfig (amc_mint_config c) (amc_total_minted c + amount).

(** One transaction is charged to the first configuration that accepts it. *)
Inductive mint_step m tx : gmap N ActiveMintConfigs → Prop :=
| mint_step_intro a l1 c l2 :
    m !! token_of tx = Some a → amcs_configs a = l1 ++ c :: l2 →
    mint_accepts tx c → Forall (λ c', ¬ mint_accepts tx c') l1 →
    minted_sum a + amount_of tx <= amcs_total_mint_limit a →
    mint_step m tx
      (<[ token_of tx := mkActiveMintConfigs (l1 ++ add_minted c (amount_of tx) :: l2)
                           (amcs_mint_config_tx a) ]> m).

(** The transactions of a block, one after another. *)
Inductive steps (R : gmap N ActiveMintConfigs → MintTx → gmap N ActiveMintConfigs → Prop) :
    gmap N ActiveMintConfigs → list MintTx → gmap N ActiveMintConfigs → Prop :=
| steps_nil m : steps R m [] m
| steps_cons m tx m' txs m'' : R m tx m' → steps R m' txs m'' → steps R m (tx :: txs) m''.

(** The invariant of the configurations of a token: they are those of the
    transaction that set them, for this token, pairwise distinct, and no limit
    has been exceeded. *)
Record active_ok (tok : N) (a : ActiveMintConfigs) : Prop := {
  ao_match : amc_mint_config <$> amcs_configs a = mct_configs (mct_prefix (amcs_mint_config_tx a));
  ao_token : Forall (λ c, config_token_id (amc_mint_config c) = tok) (amcs_configs a);
  ao_distinct : NoDup (amc_mint_config <$> amcs_configs a);
  ao_limits : Forall (λ c, amc_total_minted c <= mint_limit (amc_mint_config c) ∧
                           mint_limit (amc_mint_config c) < u64_modulus) (amcs_configs a);
  ao_total : minted_sum a <= amcs_total_mint_limit a;
  ao_u64 : amcs_total_mint_limit a < u64_modulus
}.

Definition map_ok m : Prop := ∀ tok a, m !! tok = Some a → active_ok tok a.

Lemma minted_sum_add l1 c amount l2 ctx :
  minted_sum (mkActiveMintConfigs (l1 ++ add_minted c amount :: l2) ctx) =
  minted_sum (mkActiveMintConfigs (l1 ++ c :: l2) ctx) + amount.
Proof.
  unfold minted_sum. cbn [amcs_configs]. rewrite !fmap_app, !fmap_cons, !sum_N_app. simpl. lia.
Qed.

Lemma active_ok_step tok a l1 c l2 amount :
  active_ok tok a → amcs_configs a = l1 ++ c :: l2 →
  amc_total_minted c + amount <= mint_limit (amc_mint_config c) →
  minted_sum a + amount <= amcs_total_mint_limit a →
  active_ok tok (mkActiveMintConfigs (l1 ++ add_minted c amount :: l2) (amcs_mint_config_tx a)).
Proof.
  intros [Hm Ht Hd Hl Hs Hu] E Hc Hsum. destruct a as [l ctx]. simpl in E. subst l.
  cbn [amcs_configs amcs_mint_config_tx] in *.
  assert (amc_mint_config <$> l1 ++ add_minted c amount :: l2 =
          amc_mint_config <$> l1 ++ c :: l2) as Ef by (by rewrite !fmap_app, !fmap_cons).
  constructor; cbn [amcs_configs amcs_mint_config_tx]; rewrite ?Ef; try done.
  - rewrite Forall_app, Forall_cons in *. naive_solver.
  - rewrite Forall_app, Forall_cons in *. naive_solver.
  - by rewrite minted_sum_add.
Qed.

Lemma map_ok_step m tx m' : map_ok m → mint_step m tx m' → map_ok m'.
Proof.
  intros Hm Hs. destruct Hs as [a l1 c l2 Ha E [_ Hc] _ Hsum].
  intros tok a' Ha'. apply lookup_insert_Some in Ha' as [[<- <-]|[_ Ha']]; [|by apply Hm].
  apply active_ok_step; auto.
Qed.

Lemma map_ok_steps m txs m' : map_ok m → steps mint_step m txs m' → map_ok m'.
Proof. intros Hm Hs. induction Hs; eauto using map_ok_step. Qed.

(** What was minted of a token, and what a block mints of it. *)
Definition minted m (tok : N) : N := from_option minted_sum 0 (m !! tok).
Definition block_mints (txs : list MintTx) (tok : N) : N :=
  sum_N ((λ tx, amount_of tx) <$> filter (λ tx, token_of tx = tok) txs).

Lemma minted_step m tx m' tok :
  mint_step m tx m' →
  minted m' tok = minted m tok + (if decide (token_of tx = tok) then amount_of tx else 0).
Proof.
  intros Hs. destruct Hs as [a l1 c l2 Ha E _ _ _]. unfold minted.
  destruct (decide (token_of tx = tok)) as [<-|Hne].
  - rewrite lookup_insert_eq, Ha. simpl. rewrite minted_sum_add, <-E. by destruct a.
  - rewrite lookup_insert_ne by done. lia.
Qed.

Lemma minted_steps m txs m' tok :
  steps mint_step m txs m' → minted m' tok = minted m tok + block_mints txs tok.
Proof.
  induction 1 as [m|m tx m' txs m'' Hs _ IH]; [unfold block_mints; simpl; lia|].
  rewrite IH, (minted_step _ _ _ tok Hs). unfold block_mints in *.
  destruct (decide (token_of tx = tok)).
  - rewrite filter_cons_True by done. rewrite fmap_cons. cbn [sum_N foldr]. unfold sum_N. lia.
  - rewrite filter_cons_False by done. lia.
Qed.

(** ** The search for a configuration *)

Lemma find_config_cons tx e c l :
  mint_limit (amc_mint_config c) < u64_modulus →
  let message := vec_to_list (mint_tx_hash (mint_prefix tx)) in
  (mint_accepts tx c ∧ find_config tx message e (c :: l) = Ok c) ∨
  (¬ mint_accepts tx c ∧ ∃ e', find_config tx message e (c :: l) = find_config tx message e' l).
Proof.
  intros Hu message. simpl. unfold mint_accepts, authorized, u64_checked_add.
  rewrite <-MultisigProps.verify_ok_iff. fold message.
  destruct (is_ok _); simpl; [|right; naive_solver].
  destruct (N.ltb_spec (amc_total_minted c + amount_of tx) u64_modulus) as [Hlt|Hge].
  - destruct (N.leb_spec (amc_total_minted c + amount_of tx) (mint_limit (amc_mint_config c)));
      [by left|right; split; [lia|by eexists]].
  - right. split; [lia|by eexists].
Qed.

Lemma find_config_Ok tx e l c :
  Forall (λ c, mint_limit (amc_mint_config c) < u64_modulus) l →
  find_config tx (vec_to_list (mint_tx_hash (mint_prefix tx))) e l = Ok c ↔
  ∃ l1 l2, l = l1 ++ c :: l2 ∧ mint_accepts tx c ∧ Forall (λ c', ¬ mint_accepts tx c') l1.
Proof.
  intros Hu. revert e. induction Hu as [|c' l Hu _ IH]; intros e.
  { split; [done|]. by intros ([] & ? & ? & _). }
  destruct (find_config_cons tx e c' l Hu) as [[Hc ->]|[Hc [e' ->]]]; [|rewrite IH]; split.
  - intros [= ->]. by exists [], l.
  - intros ([|c2 l1] & l2 & [= -> ->] & Ha & Hn); [done|]. by inversion Hn.
  - intros (l1 & l2 & -> & ? & ?). exists (c' :: l1), l2. split_and!; [done..|by constructor].
  - intros ([|c2 l1] & l2 & [= -> ->] & Ha & Hn); [done|]. inversion Hn; subst. by exists l1, l2.
Qed.

Lemma get_config_Ok tok tx a c :
  active_ok tok a →
  amcs_get_config_for_mint_tx a tx = Ok c ↔
  minted_sum a + amount_of tx <= amcs_total_mint_limit a ∧
  ∃ l1 l2, amcs_configs a = l1 ++ c :: l2 ∧ mint_accepts tx c ∧ Forall (λ c', ¬ mint_accepts tx c') l1.
Proof.
  intros [Hm Ht Hd Hl Hs Hu]. unfold amcs_get_config_for_mint_tx.
  rewrite <-can_mint_iff by lia.
  destruct (can_mint a (amount_of tx)); simpl; [|naive_solver].
  rewrite bool_decide_false by auto. rewrite find_config_Ok; [naive_solver|].
  eapply Forall_impl; [exact Hl|]. naive_solver.
Qed.
End abstract.

Section refinement.
Context {T : Type} `{Transaction T} `{!TransactionLaws T}.
Context `{V : Verifier Ed25519Public Ed25519Signature} `{DG : MintDigests} `{C : MintCodec}.
Implicit Types (t : T) (tx : MintTx) (m : gmap N ActiveMintConfigs) (cs : MintConfigStore) (ms : MintTxStore).

Lemma put_inv d k v f t r t' :
  put d k v f t = Done (Ok r, t') → db_put t d k v f = (Ok tt, t').
Proof. unfold put. destruct (db_put t d k v f) as [[[]|e] t2]; intros [=]; by subst. Qed.

Lemma dbind_inv {A B} (x : dbm T A) (k : A → dbm T B) t b t' :
  dbind x k t = Done (Ok b, t') → ∃ a t1, x t = Done (Ok a, t1) ∧ k a t1 = Done (Ok b, t').
Proof. unfold dbind. destruct (x t) as [[[a|e] t1]| |]; naive_solver. Qed.

(** The databases of the two stores are distinct. *)
Definition mint_dbs cs ms : list N :=
  [active_mint_configs_by_token_id cs; block_index_by_mint_config_tx_nonce_and_token_id cs;
   validated_mint_config_txs_by_block cs; mint_txs_by_block ms;
   block_index_by_mint_tx_nonce_and_token_id ms].

Lemma mint_dbs_ne cs ms :
  NoDup (mint_dbs cs ms) →
  active_mint_configs_by_token_id cs ≠ mint_txs_by_block ms ∧
  active_mint_configs_by_token_id cs ≠ block_index_by_mint_tx_nonce_and_token_id ms ∧
  block_index_by_mint_tx_nonce_and_token_id ms ≠ mint_txs_by_block ms ∧
  active_mint_configs_by_token_id cs ≠ block_index_by_mint_config_tx_nonce_and_token_id cs ∧
  active_mint_configs_by_token_id cs ≠ validated_mint_config_txs_by_block cs.
Proof. unfold mint_dbs. rewrite !NoDup_cons. set_solver. Qed.

(** The database by token holds the map. *)
Definition active_view cs t m : Prop :=
  ∀ tok, tok < u64_modulus →
    db_get t (active_mint_configs_by_token_id cs) (u64_to_key_bytes tok) =
    match m !! tok with Some a => Ok (encode_active a) | None => Err LmdbNotFound end.

Lemma active_view_same cs t t' m :
  same_db (active_mint_configs_by_token_id cs) t t' → active_view cs t m → active_view cs t' m.
Proof. intros Hs Hv tok Htok. by rewrite Hs, Hv. Qed.

Lemma active_view_put cs t t' m tok a :
  active_view cs t m → tok < u64_modulus →
  db_put t (active_mint_configs_by_token_id cs) (u64_to_key_bytes tok) (encode_active a) FlagsEmpty
    = (Ok tt, t') →
  active_view cs t' (<[ tok := a ]> m).
Proof.
  intros Hv Htok Hp tok' Htok'. destruct (decide (tok' = tok)) as [->|Hne].
  - rewrite lookup_insert_eq. by eapply get_put_same.
  - rewrite lookup_insert_ne by done. rewrite <-Hv by done. eapply get_put_other; [exact Hp|].
    intros [_ E]%pair_eq. by apply Hne, u64_key_inj.
Qed.

Lemma get_active_ok cs t m tok :
  active_view cs t m → tok < u64_modulus →
  get_active_mint_configs cs tok t = Done (Ok (m !! tok), t).
Proof.
  intros Hv Htok. unfold get_active_mint_configs, try_get, dbind. rewrite Hv by done.
  destruct (m !! tok) as [a|]; [|done]. by rewrite decode_encode_active.
Qed.

Lemma update_total_minted_ok cs t m tok a l1 c l2 amount :
  active_view cs t m → tok < u64_modulus → m !! tok = Some a → active_ok tok a →
  amcs_configs a = l1 ++ c :: l2 →
  amc_total_minted c + amount <= mint_limit (amc_mint_config c) →
  minted_sum a + amount <= amcs_total_mint_limit a →
  update_total_minted cs (amc_mint_config c) (amc_total_minted c + amount) t =
  put (active_mint_configs_by_token_id cs) (u64_to_key_bytes tok)
    (encode_active (mkActiveMintConfigs (l1 ++ add_minted c amount :: l2) (amcs_mint_config_tx a)))
    FlagsEmpty t.
Proof.
  intros Hv Htok Ha Hok E Hc Hsum.
  pose proof (active_ok_step _ _ _ _ _ _ Hok E Hc Hsum) as Hok'.
  destruct Hok as [Hm Ht Hd Hl Hs Hu]. rewrite E in Hm, Ht, Hd, Hl.
  apply Forall_app in Ht as [_ [Ht _]%Forall_cons]. apply Forall_app in Hl as [_ [Hl _]%Forall_cons].
  destruct (find_mut_first (λ c', bool_decide (amc_mint_config c' = amc_mint_config c)) l1 c l2)
    as (k & Hk & Hset).
  { by apply bool_decide_true. }
  { apply Forall_forall. intros c' Hc'. apply bool_decide_eq_false. intros Heq.
    rewrite fmap_app, fmap_cons, NoDup_app in Hd. destruct Hd as (_ & Hd & _).
    apply (Hd (amc_mint_config c')); [by apply list_elem_of_fmap_2|rewrite Heq; by left]. }
  unfold update_total_minted. rewrite Ht. dstep (get_active_ok cs t m tok Hv Htok).
  rewrite Ha. unfold dbind at 1. cbn [ok_or dresult].
  unfold dbind at 1. rewrite E, Hk. cbn [ok_or dresult].
  destruct (N.ltb_spec (amc_total_minted c + amount) (amc_total_minted c)); [lia|].
  destruct (N.ltb_spec (mint_limit (amc_mint_config c)) (amc_total_minted c + amount)); [lia|].
  rewrite Hset. fold (add_minted c amount).
  rewrite total_minted_sum; [|destruct Hok'; lia].
  destruct (N.ltb_spec (amcs_total_mint_limit (mkActiveMintConfigs (l1 ++ add_minted c amount :: l2)
    (amcs_mint_config_tx a))) (minted_sum (mkActiveMintConfigs (l1 ++ add_minted c amount :: l2)
    (amcs_mint_config_tx a)))); [destruct Hok'; lia|done].
Qed.

Lemma get_config_for_tx cs t m tx :
  active_view cs t m → mint_token_id (mint_prefix tx) < u64_modulus →
  get_active_mint_config_for_mint_tx cs tx t =
  Done (match m !! mint_token_id (mint_prefix tx) with
        | Some a => amcs_get_config_for_mint_tx a tx
        | None => Err NotFound
        end, t).
Proof.
  intros Hv Htok. unfold get_active_mint_config_for_mint_tx. dstep (get_active_ok cs t m _ Hv Htok).
  by destruct (m !! _).
Qed.

(** Writing one transaction: an error and no write, when no configuration
    accepts it; otherwise the step, and two writes. *)
Lemma write_mint_tx_cases ms cs b t m tx :
  active_view cs t m → map_ok m → mint_token_id (mint_prefix tx) < u64_modulus →
  (∃ e, write_mint_tx ms cs b tx t = Done (Err e, t) ∧ ∀ m', ¬ mint_step m tx m') ∨
  (∃ a', mint_step m tx (<[ mint_token_id (mint_prefix tx) := a' ]> m) ∧
    write_mint_tx ms cs b tx t =
    (let@ _ := put (active_mint_configs_by_token_id cs)
                 (u64_to_key_bytes (mint_token_id (mint_prefix tx))) (encode_active a') FlagsEmpty in
     write_block_index_by_mint_tx_nonce_and_token_id ms tx b) t).
Proof.
  intros Hv Hok Htok. unfold write_mint_tx.
  pose proof (get_config_for_tx cs t m tx Hv Htok) as Hget.
  destruct (m !! mint_token_id (mint_prefix tx)) as [a|] eqn:Ha.
  2:{ left. exists NotFound. split; [by apply dbind_Err|]. intros m' Hs. inversion Hs; congruence. }
  pose proof (Hok _ _ Ha) as Haok.
  destruct (amcs_get_config_for_mint_tx a tx) as [c|e] eqn:Ec.
  - right. apply (get_config_Ok _ _ _ _ Haok) in Ec as (Hsum & l1 & l2 & E & Hc & Hn).
    eexists. split; [by eapply mint_step_intro|]. dstep Hget.
    pose proof (proj2 Hc) as Hlim. pose proof (ao_limits _ _ Haok) as Hl.
    rewrite E in Hl. apply Forall_app in Hl as [_ [Hl _]%Forall_cons].
    unfold u64_checked_add. rewrite (proj2 (N.ltb_lt _ _)) by lia.
    unfold dbind at 1, dresult, ok_or. unfold dbind.
    erewrite update_total_minted_ok; done.
  - left. exists e. split; [by apply dbind_Err|]. intros m' Hs.
    inversion Hs as [a2 l1 c l2 Ha2 E Hc Hn Hsum]; subst.
    assert (a2 = a) as -> by congruence.
    assert (amcs_get_config_for_mint_tx a tx = Ok c); [|congruence].
    apply (get_config_Ok _ _ _ _ Haok). split; [done|]. by exists l1, l2.
Qed.

Lemma nonce_key_inj n1 k1 n2 k2 :
  k1 < u64_modulus → k2 < u64_modulus → nonce_key n1 k1 = nonce_key n2 k2 → (n1, k1) = (n2, k2).
Proof.
  intros H1 H2 E. unfold nonce_key in E. apply app_inj_2 in E as [-> E].
  - by apply u64_key_inj in E as ->.
  - unfold u64_to_key_bytes. by rewrite !length_be_bytes.
Qed.

(** The configurations of a token are replaced by those of the transaction. *)
Definition config_step m (v : ValidatedMintConfigTx) : gmap N ActiveMintConfigs :=
  let tx := mint_config_tx v in
  <[ mct_token_id (mct_prefix tx) := ActiveMintConfigs_from tx ]> m.

Lemma config_loop_sound cs b txs : ∀ t m t' r,
  active_mint_configs_by_token_id cs ≠ block_index_by_mint_config_tx_nonce_and_token_id cs →
  active_view cs t m →
  Forall (λ v, mct_token_id (mct_prefix (mint_config_tx v)) < u64_modulus) txs →
  dfor (write_mint_config_tx cs b) txs t = Done (Ok r, t') →
  active_view cs t' (foldl config_step m txs) ∧
  Forall (λ v, check_mint_config (mint_config_tx v) = Ok tt) txs.
Proof.
  induction txs as [|v txs IH]; intros t m t' r Hne Hv Htok; simpl.
  { by intros [= <- <-]. }
  apply Forall_cons in Htok as [Htok Htoks]. intros (r1 & t1 & E1 & E2)%dbind_inv.
  apply dbind_inv in E1 as (u & t0 & Ec & E1). injection Ec as Ec <-.
  apply dbind_inv in E1 as (u1 & t2 & Ep1%put_inv & Ep2%put_inv).
  destruct (IH t1 (config_step m v) t' r Hne) as [Hv' Hc]; [|done..|].
  { eapply active_view_put; [|done..]. eapply active_view_same; [by eapply put_same_db|done]. }
  split; [done|]. constructor; [|done]. by destruct u.
Qed.

(** The limits are [u64]s and no configuration is repeated. *)
Definition config_tx_ok (tx : MintConfigTx) : Prop :=
  NoDup (mct_configs (mct_prefix tx)) ∧
  Forall (λ c, mint_limit c < u64_modulus) (mct_configs (mct_prefix tx)) ∧
  total_mint_limit (mct_prefix tx) < u64_modulus.

Lemma check_mint_config_Ok (tx : MintConfigTx) c :
  check_mint_config tx = Ok tt → c ∈ mct_configs (mct_prefix tx) →
  config_token_id c = mct_token_id (mct_prefix tx).
Proof.
  unfold check_mint_config. destruct (existsb _ _) eqn:Ex; [done|]. intros _ Hin.
  apply N.eqb_eq, negb_false_iff, not_true_is_false. intros Hneg.
  apply not_true_iff_false in Ex. apply Ex, existsb_exists. exists c. by rewrite <-list_elem_of_In.
Qed.

Lemma active_from_ok (tx : MintConfigTx) :
  check_mint_config tx = Ok tt → config_tx_ok tx →
  active_ok (mct_token_id (mct_prefix tx)) (ActiveMintConfigs_from tx).
Proof.
  intros Hc (Hnd & Hl & Ht).
  assert (amc_mint_config <$> amcs_configs (ActiveMintConfigs_from tx) =
    mct_configs (mct_prefix tx)) as E.
  { unfold ActiveMintConfigs_from. cbn [amcs_configs]. rewrite <-list_fmap_compose.
    by apply list_fmap_id. }
  assert (minted_sum (ActiveMintConfigs_from tx) = 0) as Es.
  { unfold minted_sum, ActiveMintConfigs_from. cbn [amcs_configs].
    rewrite <-list_fmap_compose. clear. by induction (mct_configs (mct_prefix tx)). }
  constructor; rewrite ?E, ?Es; try done; [apply Forall_fmap..|apply N.le_0_l].
  - apply Forall_forall. intros c Hin. simpl. by apply check_mint_config_Ok.
  - eapply Forall_impl; [exact Hl|]. simpl. intros. split; [apply N.le_0_l|done].
Qed.

Lemma map_ok_config m txs :
  map_ok m → Forall (λ v, check_mint_config (mint_config_tx v) = Ok tt) txs →
  Forall (λ v, config_tx_ok (mint_config_tx v)) txs → map_ok (foldl config_step m txs).
Proof.
  intros Hm Hc. revert m Hm. induction Hc as [|v txs Hv _ IH]; intros m Hm Hok; [done|].
  apply Forall_cons in Hok as [Hok Hoks]. apply IH; [|done].
  intros tok a. unfold config_step. intros [[<- <-]|[_ Ha]]%lookup_insert_Some; [|by apply Hm].
  by apply active_from_ok.
Qed.

(** The nonces of the transactions, with their token. *)
Definition tx_nonce tx : bytes * N := (mint_nonce (mint_prefix tx), mint_token_id (mint_prefix tx)).
Definition nonce_recorded ms t (b : bytes) (n : bytes * N) : Prop :=
  db_get t (block_index_by_mint_tx_nonce_and_token_id ms) (nonce_key n.1 n.2) = Ok b.
Definition nonce_unused ms t (n : bytes * N) : Prop :=
  ∀ b, ¬ nonce_recorded ms t b n.

Lemma write_mint_tx_sound ms cs b t m tx r t' :
  active_mint_configs_by_token_id cs ≠ block_index_by_mint_tx_nonce_and_token_id ms →
  active_view cs t m → map_ok m → mint_token_id (mint_prefix tx) < u64_modulus →
  write_mint_tx ms cs b tx t = Done (Ok r, t') →
  ∃ m', mint_step m tx m' ∧ active_view cs t' m' ∧
    nonce_unused ms t (tx_nonce tx) ∧ nonce_recorded ms t' b (tx_nonce tx) ∧
    ∀ n b', nonce_recorded ms t b' n → nonce_recorded ms t' b' n.
Proof.
  intros Hne Hv Hok Htok Ew.
  destruct (write_mint_tx_cases ms cs b t m tx Hv Hok Htok) as [(e & E & _)|(a' & Hs & E)];
    [congruence|]. rewrite Ew in E. symmetry in E.
  apply dbind_inv in E as (r2 & t2 & Ep1%put_inv & Ep2%put_inv).
  assert (∀ n b', nonce_recorded ms t b' n → nonce_recorded ms t2 b' n) as Hk1.
  { intros n b' Hn. unfold nonce_recorded. by rewrite (put_same_db _ _ _ _ _ _ _ Ep1). }
  assert (∀ b', db_get t2 (block_index_by_mint_tx_nonce_and_token_id ms)
    (nonce_key (mint_nonce (mint_prefix tx)) (mint_token_id (mint_prefix tx))) ≠ Ok b') as Hfresh.
  { intros b' Hb'. by rewrite (put_no_overwrite _ _ _ _ _ Hb') in Ep2. }
  eexists. split_and!; [exact Hs|..].
  - eapply active_view_same; [by eapply put_same_db|]. by eapply active_view_put.
  - intros b' Hb'. by apply (Hfresh b'), (Hk1 (tx_nonce tx)).
  - unfold nonce_recorded. by eapply get_put_same.
  - intros n b' Hn%Hk1. unfold nonce_recorded in *.
    rewrite (get_put_other _ _ _ _ _ _ _ _ Ep2); [done|].
    intros [_ Ek]%pair_eq. rewrite Ek in Hn. by apply Hfresh in Hn.
Qed.

Lemma write_loop_sound ms cs b txs : ∀ t m t' r,
  active_mint_configs_by_token_id cs ≠ block_index_by_mint_tx_nonce_and_token_id ms →
  active_view cs t m → map_ok m →
  Forall (λ tx, mint_token_id (mint_prefix tx) < u64_modulus) txs →
  dfor (write_mint_tx ms cs b) txs t = Done (Ok r, t') →
  ∃ m', steps mint_step m txs m' ∧ active_view cs t' m' ∧
    NoDup (tx_nonce <$> txs) ∧
    (∀ n, n ∈ tx_nonce <$> txs → nonce_unused ms t n ∧ nonce_recorded ms t' b n) ∧
    (∀ n b', nonce_recorded ms t b' n → nonce_recorded ms t' b' n).
Proof.
  induction txs as [|tx txs IH]; intros t m t' r Hne Hv Hok Htok; simpl.
  { intros [= <- <-]. exists m. split_and!; [constructor|done|constructor|set_solver|done]. }
  apply Forall_cons in Htok as [Htok Htoks].
  intros (r1 & t1 & E1 & E2)%dbind_inv.
  destruct (write_mint_tx_sound ms cs b t m tx r1 t1 Hne Hv Hok Htok E1)
    as (m1 & Hs & Hv1 & Hun & Hrec & Hkeep).
  destruct (IH t1 m1 t' r Hne Hv1 (map_ok_step _ _ _ Hok Hs) Htoks E2)
    as (m' & Hsteps & Hv' & Hnd & Hall & Hkeep').
  exists m'. split_and!; [by econstructor|done|..|by auto].
  - constructor; [|done]. intros Hin. destruct (Hall _ Hin) as [Hu _]. by apply (Hu b).
  - intros n [->|Hin]%elem_of_cons; [split; [done|by apply Hkeep']|].
    destruct (Hall _ Hin) as [Hu Hr]. split; [|done]. intros b' Hb'. by apply (Hu b'), Hkeep.
Qed.

(** Determinism of the steps. *)
Lemma first_split {A} (Q : A → Prop) l1 x l2 l1' x' l2' :
  l1 ++ x :: l2 = l1' ++ x' :: l2' → Q x → Q x' →
  Forall (λ y, ¬ Q y) l1 → Forall (λ y, ¬ Q y) l1' → l1 = l1' ∧ x = x' ∧ l2 = l2'.
Proof.
  intros E Hx Hx' H1. revert l1' E. induction H1 as [|y l1 Hy _ IH]; intros [|y' l1'] E H2;
    simplify_eq/=; [done|by inversion H2|done|].
  apply Forall_cons in H2 as [_ H2]. destruct (IH l1') as (-> & -> & ->); done.
Qed.

Lemma mint_step_det m tx m1 m2 : mint_step m tx m1 → mint_step m tx m2 → m1 = m2.
Proof.
  intros [a l1 c l2 Ha E Hc Hn _] [a' l1' c' l2' Ha' E' Hc' Hn' _].
  assert (a' = a) as -> by congruence. rewrite E in E'.
  by destruct (first_split (mint_accepts tx) _ _ _ _ _ _ E' Hc Hc' Hn Hn') as (-> & -> & ->).
Qed.

(** The entry of a nonce is not there, and its key is one LMDB accepts. *)
Definition nonce_free ms t (n : bytes * N) : Prop :=
  db_get t (block_index_by_mint_tx_nonce_and_token_id ms) (nonce_key n.1 n.2) = Err LmdbNotFound ∧
  length n.1 = 64%nat.

Lemma valid_nonce_key n tok : length n = 64%nat → valid_key (nonce_key n tok).
Proof.
  intros Hn. unfold valid_key, nonce_key, u64_to_key_bytes.
  rewrite length_app, length_be_bytes, Hn. lia.
Qed.

Lemma write_mint_txs_sound (ms : MintTxStore) (cs : MintConfigStore) t m block_index txs t' :
  NoDup (mint_dbs cs ms) → active_view cs t m → map_ok m →
  Forall (λ tx, mint_token_id (mint_prefix tx) < u64_modulus) txs →
  write_mint_txs ms block_index txs cs t = Done (Ok tt, t') →
  ∃ m', steps mint_step m txs m' ∧ active_view cs t' m' ∧ map_ok m' ∧
    (∀ tok, minted m' tok = minted m tok + block_mints txs tok) ∧
    NoDup (tx_nonce <$> txs) ∧
    (∀ n, n ∈ tx_nonce <$> txs →
       nonce_unused ms t n ∧ nonce_recorded ms t' (u64_to_key_bytes block_index) n).
Proof.
  intros Hdb Hv Hok Htok (r1 & t1 & E1%put_inv & E2)%dbind_inv.
  destruct (mint_dbs_ne _ _ Hdb) as (Hn1 & Hn2 & Hn3 & _).
  destruct (write_loop_sound ms cs (u64_to_key_bytes block_index) txs t1 m t' tt Hn2)
    as (m' & Hsteps & Hv' & Hnd & Hall & _); [|done..|].
  { eapply active_view_same; [by eapply put_same_db|done]. }
  exists m'. split_and!; try done; [by eapply map_ok_steps|intros; by apply minted_steps|].
  intros n Hn. destruct (Hall n Hn) as [Hu Hr]. split; [|done]. intros b Hb. apply (Hu b).
  unfold nonce_recorded. by rewrite (put_same_db _ _ _ _ _ _ _ E1 Hn3).
Qed.

Lemma write_config_txs_sound (ms : MintTxStore) (cs : MintConfigStore) t m block_index txs t' :
  NoDup (mint_dbs cs ms) → active_view cs t m →
  Forall (λ v, mct_token_id (mct_prefix (mint_config_tx v)) < u64_modulus) txs →
  write_validated_mint_config_txs cs block_index txs t = Done (Ok tt, t') →
  active_view cs t' (foldl config_step m txs) ∧
  (∀ v c, v ∈ txs → c ∈ mct_configs (mct_prefix (mint_config_tx v)) →
     config_token_id c = mct_token_id (mct_prefix (mint_config_tx v))) ∧
  (map_ok m → Forall (λ v, config_tx_ok (mint_config_tx v)) txs →
     map_ok (foldl config_step m txs)).
Proof.
  intros Hdb Hv Htok (r1 & t1 & E1%put_inv & E2)%dbind_inv.
  destruct (mint_dbs_ne _ _ Hdb) as (_ & _ & _ & Hn1 & Hn2).
  destruct (config_loop_sound cs (u64_to_key_bytes block_index) txs t1 m t' tt Hn1) as [Hv' Hc];
    [|done..|].
  { eapply active_view_same; [by eapply put_same_db|done]. }
  split_and!; [done| |intros; by apply map_ok_config].
  intros v c Hvin Hcin. rewrite Forall_forall in Hc. by eapply check_mint_config_Ok; [apply Hc|].
Qed.

Section room.
Context `{!TransactionRoom T}.

(** The loop succeeds when each step [R] is the update of one token. *)
Lemma write_loop_complete (R : gmap N ActiveMintConfigs → MintTx → gmap N ActiveMintConfigs → Prop)
    (I : gmap N ActiveMintConfigs → Prop) ms cs b txs :
  active_mint_configs_by_token_id cs ≠ block_index_by_mint_tx_nonce_and_token_id ms →
  (∀ t m tx m', active_view cs t m → I m → mint_token_id (mint_prefix tx) < u64_modulus →
    R m tx m' → I m' ∧ ∃ a', m' = <[ mint_token_id (mint_prefix tx) := a' ]> m ∧
    write_mint_tx ms cs b tx t =
    (let@ _ := put (active_mint_configs_by_token_id cs)
                 (u64_to_key_bytes (mint_token_id (mint_prefix tx))) (encode_active a') FlagsEmpty in
     write_block_index_by_mint_tx_nonce_and_token_id ms tx b) t) →
  ∀ t m m', active_view cs t m → I m →
  Forall (λ tx, mint_token_id (mint_prefix tx) < u64_modulus) txs →
  NoDup (tx_nonce <$> txs) → (∀ n, n ∈ tx_nonce <$> txs → nonce_free ms t n) →
  steps R m txs m' →
  ∃ t', dfor (write_mint_tx ms cs b) txs t = Done (Ok tt, t') ∧ active_view cs t' m'.
Proof.
  intros Hne Hstep.
  induction txs as [|tx txs IH]; intros t m m' Hv Hok Htok Hnd Hfree Hsteps; simpl.
  { inversion Hsteps; subst. by exists t. }
  inversion Hsteps as [|? ? m1 ? ? Hs Hsteps']; subst.
  apply Forall_cons in Htok as [Htok Htoks].
  rewrite fmap_cons in Hnd. apply NoDup_cons in Hnd as [Hni Hnd].
  destruct (Hstep t m tx m1 Hv Hok Htok Hs) as (Hok1 & a' & -> & E).
  destruct (put_step t (active_mint_configs_by_token_id cs)
    (u64_to_key_bytes (mint_token_id (mint_prefix tx))) (encode_active a') FlagsEmpty)
    as (t1 & E1 & Hp1 & Hsame1); [apply valid_key_u64|by left|].
  destruct (Hfree (tx_nonce tx)) as [Hf Hlen]; [by left|].
  destruct (put_step t1 (block_index_by_mint_tx_nonce_and_token_id ms)
    (nonce_key (mint_nonce (mint_prefix tx)) (mint_token_id (mint_prefix tx))) b NO_OVERWRITE)
    as (t2 & E2 & Hp2 & Hsame2); [by apply valid_nonce_key|right; by rewrite Hsame1 by done|].
  assert (write_mint_tx ms cs b tx t = Done (Ok tt, t2)) as Ew.
  { rewrite E. by dstep E1. }
  dstep Ew. apply (IH t2 (<[mint_token_id (mint_prefix tx):=a']> m) m'); try done.
  - eapply active_view_same; [by apply Hsame2|]. by eapply active_view_put.
  - intros n Hn. destruct (Hfree n) as [Hf' Hlen']; [by right|]. split; [|done].
    rewrite (get_put_other _ _ _ _ _ _ _ _ Hp2); [by rewrite Hsame1 by done|].
    intros [_ Ek]%pair_eq. apply Hni.
    apply nonce_key_inj in Ek as Ek'; [by rewrite (surjective_pairing n), Ek' in Hn| |done].
    apply list_elem_of_fmap in Hn as (tx' & -> & Htx'). rewrite Forall_forall in Htoks.
    by apply Htoks.
Qed.

Lemma mint_step_update ms cs b t m tx m' :
  active_view cs t m → map_ok m → mint_token_id (mint_prefix tx) < u64_modulus →
  mint_step m tx m' → map_ok m' ∧ ∃ a', m' = <[ mint_token_id (mint_prefix tx) := a' ]> m ∧
    write_mint_tx ms cs b tx t =
    (let@ _ := put (active_mint_configs_by_token_id cs)
                 (u64_to_key_bytes (mint_token_id (mint_prefix tx))) (encode_active a') FlagsEmpty in
     write_block_index_by_mint_tx_nonce_and_token_id ms tx b) t.
Proof.
  intros Hv Hok Htok Hs. split; [by eapply map_ok_step|].
  destruct (write_mint_tx_cases ms cs b t m tx Hv Hok Htok) as [(e & _ & Hno)|(a' & Hs' & E)];
    [by destruct (Hno m')|].
  exists a'. split; [by eapply mint_step_det|done].
Qed.

(** The whole of [write_mint_txs], given its loop. *)
Lemma write_mint_txs_complete R I ms cs t m block_index txs m' :
  NoDup (mint_dbs cs ms) →
  (∀ t m tx m', active_view cs t m → I m → mint_token_id (mint_prefix tx) < u64_modulus →
    R m tx m' → I m' ∧ ∃ a', m' = <[ mint_token_id (mint_prefix tx) := a' ]> m ∧
    write_mint_tx ms cs (u64_to_key_bytes block_index) tx t =
    (let@ _ := put (active_mint_configs_by_token_id cs)
                 (u64_to_key_bytes (mint_token_id (mint_prefix tx))) (encode_active a') FlagsEmpty in
     write_block_index_by_mint_tx_nonce_and_token_id ms tx (u64_to_key_bytes block_index)) t) →
  active_view cs t m → I m →
  Forall (λ tx, mint_token_id (mint_prefix tx) < u64_modulus) txs →
  db_get t (mint_txs_by_block ms) (u64_to_key_bytes block_index) = Err LmdbNotFound →
  NoDup (tx_nonce <$> txs) → (∀ n, n ∈ tx_nonce <$> txs → nonce_free ms t n) →
  steps R m txs m' →
  ∃ t', write_mint_txs ms block_index txs cs t = Done (Ok tt, t') ∧ active_view cs t' m'.
Proof.
  intros Hdb Hstep Hv Hok Htok Hblk Hnd Hfree Hsteps.
  destruct (mint_dbs_ne _ _ Hdb) as (Hn1 & Hn2 & Hn3 & _). unfold write_mint_txs.
  destruct (put_step t (mint_txs_by_block ms) (u64_to_key_bytes block_index)
    (encode_mint_txs txs) NO_OVERWRITE) as (t1 & E1 & _ & Hsame); [apply valid_key_u64|by right|].
  dstep E1. apply (write_loop_complete R I ms cs _ txs Hn2 Hstep t1 m m'); try done.
  - eapply active_view_same; [by apply Hsame|done].
  - intros n Hn. destruct (Hfree n Hn). split; [by rewrite Hsame|done].
Qed.
End room.
End refinement.

(** ** Theorems *)

Module MintStoreProps.
Section props.
Context {T : Type} `{Transaction T} `{!TransactionLaws T}.
Context `{V : Verifier Ed25519Public Ed25519Signature} `{DG : MintDigests} `{C : MintCodec}.
Implicit Types (t : T) (m : gmap N ActiveMintConfigs).

(** Writing the mint-config transactions of a block makes the
    configurations of the last transaction for each token the active ones, with
    nothing minted yet, and leaves the other tokens alone; every configuration
    written is for the token of its transaction.  When none of them repeats a
    configuration, the invariant of the amounts minted holds afterwards. *)
Theorem mint_config_txs_replace (ms : MintTxStore) (cs : MintConfigStore) t m block_index txs t' :
  NoDup (mint_dbs cs ms) → active_view cs t m →
  Forall (λ v, mct_token_id (mct_prefix (mint_config_tx v)) < u64_modulus) txs →
  write_validated_mint_config_txs cs block_index txs t = Done (Ok tt, t') →
  active_view cs t' (foldl config_step m txs) ∧
  (∀ v c, v ∈ txs → c ∈ mct_configs (mct_prefix (mint_config_tx v)) →
     config_token_id c = mct_token_id (mct_prefix (mint_config_tx v))) ∧
  (map_ok m → Forall (λ v, config_tx_ok (mint_config_tx v)) txs →
     map_ok (foldl config_step m txs)).
Proof. apply write_config_txs_sound. Qed.

(** C6: when the configurations of every token are distinct (without that, see
    [duplicate_configs_overmint]), no limit is exceeded and token ids have 64 bits, writing the mint transactions of a block succeeds only if each one
    is charged to a configuration that it is authorized by and that has room for
    it; afterwards the amount recorded for every token has grown by exactly what
    the block mints of it, still no configuration has minted more than its own
    limit nor the token more than the total limit, and every nonce of the block
    was unused before, occurs once, and is recorded. *)
Theorem mint_txs_accounting (ms : MintTxStore) (cs : MintConfigStore) t m block_index txs t' :
  NoDup (mint_dbs cs ms) → active_view cs t m → map_ok m →
  Forall (λ tx, mint_token_id (mint_prefix tx) < u64_modulus) txs →
  write_mint_txs ms block_index txs cs t = Done (Ok tt, t') →
  ∃ m', steps mint_step m txs m' ∧ active_view cs t' m' ∧ map_ok m' ∧
    (∀ tok, minted m' tok = minted m tok + block_mints txs tok) ∧
    NoDup (tx_nonce <$> txs) ∧
    (∀ n, n ∈ tx_nonce <$> txs →
       nonce_unused ms t n ∧ nonce_recorded ms t' (u64_to_key_bytes block_index) n).
Proof. apply write_mint_txs_sound. Qed.

(** Conversely, with room in the database, a block of mint transactions
    that can be charged one after another, each to the first configuration that
    accepts it and within the total limit, and whose 64-byte nonces are unused
    and distinct, is written. *)
Theorem mint_txs_accepted `{!TransactionRoom T} (ms : MintTxStore) (cs : MintConfigStore)
    t m block_index txs m' :
  NoDup (mint_dbs cs ms) → active_view cs t m → map_ok m →
  Forall (λ tx, mint_token_id (mint_prefix tx) < u64_modulus) txs →
  db_get t (mint_txs_by_block ms) (u64_to_key_bytes block_index) = Err LmdbNotFound →
  NoDup (tx_nonce <$> txs) → (∀ n, n ∈ tx_nonce <$> txs → nonce_free ms t n) →
  steps mint_step m txs m' →
  ∃ t', write_mint_txs ms block_index txs cs t = Done (Ok tt, t') ∧ active_view cs t' m'.
Proof.
  intros. eapply (write_mint_txs_complete mint_step map_ok); try done.
  intros. by apply mint_step_update.
Qed.

(** *** Repeated configurations *)

(** A token whose configuration [c], with limit [limit], was given twice: what
    is recorded of the first copy is at most [limit], of the second nothing. *)
Definition dup_state (tok limit : N) (c : MintConfig) (ctx : MintConfigTx) m : Prop :=
  ∃ x, (x = 0 ∨ x = limit) ∧
    m !! tok = Some (mkActiveMintConfigs [mkActiveMintConfig c x; mkActiveMintConfig c 0] ctx).

(** The transactions mint the limit, authorized by the configuration. *)
Definition dup_step (tok limit : N) (c : MintConfig) (ctx : MintConfigTx) m (tx : MintTx) m' : Prop :=
  mint_token_id (mint_prefix tx) = tok ∧ mint_amount (mint_prefix tx) = limit ∧
  MintValidationProps.authorized (config_signer_set c) (mint_tx_hash (mint_prefix tx))
    (mint_signature tx) ∧
  m' = <[ tok := mkActiveMintConfigs [mkActiveMintConfig c limit; mkActiveMintConfig c 0] ctx ]> m.

(** A transaction whose two copies of [c] and limits are as in the theorem below. *)
Record dup_config (tok limit : N) (c : MintConfig) (ctx : MintConfigTx) : Prop := {
  dc_token : config_token_id c = tok;
  dc_limit : mint_limit c = limit;
  dc_pos : 0 < limit;
  dc_configs : mct_configs (mct_prefix ctx) = [c; c];
  dc_total : total_mint_limit (mct_prefix ctx) = 2 * limit;
  dc_u64 : 2 * limit < u64_modulus
}.

(** The configuration found: the first copy if nothing was minted with it,
    otherwise the second; nothing was minted with either. *)
Lemma dup_get_config tok limit c ctx x tx :
  dup_config tok limit c ctx → x = 0 ∨ x = limit → mint_amount (mint_prefix tx) = limit →
  MintValidationProps.authorized (config_signer_set c) (mint_tx_hash (mint_prefix tx))
    (mint_signature tx) →
  amcs_get_config_for_mint_tx
    (mkActiveMintConfigs [mkActiveMintConfig c x; mkActiveMintConfig c 0] ctx) tx =
  Ok (mkActiveMintConfig c 0).
Proof.
  intros [Ht Hl Hp Hc Htot Hu] Hx Ham Hauth.
  unfold amcs_get_config_for_mint_tx. rewrite Ham.
  assert (can_mint (mkActiveMintConfigs [mkActiveMintConfig c x; mkActiveMintConfig c 0] ctx) limit
    = true) as ->.
  { apply can_mint_iff; unfold minted_sum, amcs_total_mint_limit; simpl; lia. }
  simpl negb. cbv iota. rewrite bool_decide_false by (simpl; naive_solver).
  cbn [amcs_configs find_config amc_mint_config amc_total_minted].
  apply MultisigProps.verify_ok_iff in Hauth as ->. simpl negb. cbv iota.
  unfold u64_checked_add. rewrite Ham, Hl.
  rewrite !(proj2 (N.ltb_lt _ _)) by lia.
  rewrite N.add_0_l, (proj2 (N.leb_le limit limit)) by lia.
  destruct Hx as [->| ->]; [by rewrite N.add_0_l, (proj2 (N.leb_le limit limit)) by lia|].
  by rewrite (proj2 (N.leb_gt _ _)) by lia.
Qed.

Lemma dup_update cs t m tok limit c ctx x :
  dup_config tok limit c ctx → x = 0 ∨ x = limit → active_view cs t m → tok < u64_modulus →
  m !! tok = Some (mkActiveMintConfigs [mkActiveMintConfig c x; mkActiveMintConfig c 0] ctx) →
  update_total_minted cs c limit t =
  put (active_mint_configs_by_token_id cs) (u64_to_key_bytes tok)
    (encode_active (mkActiveMintConfigs [mkActiveMintConfig c limit; mkActiveMintConfig c 0] ctx))
    FlagsEmpty t.
Proof.
  intros [Ht Hl Hp Hc Htot Hu] Hx Hv Htok Hm.
  unfold update_total_minted. rewrite Ht. dstep (get_active_ok cs t m tok Hv Htok).
  rewrite Hm. unfold dbind at 1, dresult at 1, ok_or at 1. unfold dbind at 1.
  cbn [amcs_configs find_mut amc_mint_config]. rewrite bool_decide_true by done.
  unfold ok_or, dresult. cbn [amc_total_minted amc_mint_config].
  rewrite (proj2 (N.ltb_ge limit x)) by (destruct Hx; lia).
  rewrite Hl, N.ltb_irrefl. cbn [amcs_mint_config_tx].
  rewrite total_minted_sum by (unfold minted_sum; simpl; lia).
  rewrite (proj2 (N.ltb_ge _ _)); [done|].
  unfold minted_sum, amcs_total_mint_limit. simpl. lia.
Qed.

(** The limits do not hold when a configuration is given twice.  With two
    copies of a configuration with limit [limit] and a total limit of twice
    [limit], every block of transactions that mint [limit] each is written,
    however many there are, and afterwards only [limit] is recorded as minted. *)
Theorem duplicate_configs_overmint `{!TransactionRoom T} (ms : MintTxStore) (cs : MintConfigStore)
    t m block_index txs tok limit c ctx :
  NoDup (mint_dbs cs ms) → active_view cs t m → tok < u64_modulus →
  dup_config tok limit c ctx → m !! tok = Some (ActiveMintConfigs_from ctx) →
  db_get t (mint_txs_by_block ms) (u64_to_key_bytes block_index) = Err LmdbNotFound →
  NoDup (tx_nonce <$> txs) → (∀ n, n ∈ tx_nonce <$> txs → nonce_free ms t n) → txs ≠ [] →
  Forall (λ tx, mint_token_id (mint_prefix tx) = tok ∧ mint_amount (mint_prefix tx) = limit ∧
    MintValidationProps.authorized (config_signer_set c) (mint_tx_hash (mint_prefix tx))
      (mint_signature tx)) txs →
  ∃ t' m', write_mint_txs ms block_index txs cs t = Done (Ok tt, t') ∧ active_view cs t' m' ∧
    minted m' tok = limit ∧ block_mints txs tok = len txs * limit.
Proof.
  intros Hdb Hv Htok Hdc Hm Hblk Hnd Hfree Hne Htxs.
  set (a := mkActiveMintConfigs [mkActiveMintConfig c limit; mkActiveMintConfig c 0] ctx).
  assert (steps (dup_step tok limit c ctx) m txs (<[ tok := a ]> m)) as Hsteps.
  { clear -Hne Htxs. destruct txs as [|tx txs]; [done|]. clear Hne.
    revert m tx Htxs. induction txs as [|tx' txs IH]; intros m tx [Htx Htxs]%Forall_cons.
    - apply (steps_cons _ m tx (<[ tok := a ]> m)); [|constructor].
      unfold dup_step. destruct Htx as (? & ? & ?). by split_and!.
    - apply (steps_cons _ m tx (<[ tok := a ]> m)).
      { unfold dup_step. destruct Htx as (? & ? & ?). by split_and!. }
      specialize (IH (<[ tok := a ]> m) tx' Htxs). by rewrite insert_insert_eq in IH. }
  destruct (write_mint_txs_complete (dup_step tok limit c ctx) (dup_state tok limit c ctx) ms cs t m
    block_index txs (<[ tok := a ]> m)) as (t' & Ew & Hv'); try done.
  - intros t1 m1 tx m2 Hv1 (x & Hx & Hm1) _ (Et & Ea & Hauth & ->). split.
    { exists limit. split; [by right|]. by rewrite lookup_insert_eq. }
    rewrite Et. exists a. split; [done|]. unfold write_mint_tx.
    assert (get_active_mint_config_for_mint_tx cs tx t1 = Done (Ok (mkActiveMintConfig c 0), t1)) as Hg.
    { rewrite (get_config_for_tx cs t1 m1 tx) by (by rewrite ?Et). rewrite Et, Hm1.
      by rewrite (dup_get_config tok limit). }
    dstep Hg. unfold u64_checked_add. cbn [amc_total_minted amc_mint_config].
    rewrite Ea, N.add_0_l, (proj2 (N.ltb_lt _ _)) by (destruct Hdc; lia).
    unfold dbind at 1, dresult, ok_or. unfold dbind.
    by rewrite (dup_update cs t1 m1 tok limit c ctx x).
  - exists 0. split; [by left|]. rewrite Hm. unfold ActiveMintConfigs_from.
    by rewrite (dc_configs _ _ _ _ Hdc).
  - eapply Forall_impl; [exact Htxs|]. by intros tx (-> & _).
  - exists t', (<[ tok := a ]> m). split_and!; [done..| |].
    + unfold minted. rewrite lookup_insert_eq. simpl. unfold minted_sum. simpl. lia.
    + clear -Htxs. unfold block_mints. induction Htxs as [|tx txs (Et & Ea & _) _ IH]; [done|].
      rewrite filter_cons_True, fmap_cons, len_cons by done. cbn [sum_N foldr].
      unfold sum_N in IH. rewrite IH, Ea. lia.
Qed.
End props.

(** *** Witnesses *)

(** A codec: the bits of the code of a value in a countable type. *)
#[local] Instance ValidatedMintConfigTx_eq_dec : EqDecision ValidatedMintConfigTx.
Proof. solve_decision. Defined.
#[local] Instance ValidatedMintConfigTx_countable : Countable ValidatedMintConfigTx.
Proof.
  refine (inj_countable' (λ v, (mint_config_tx v, validated_signer_set v))
    (λ x, mkValidatedMintConfigTx x.1 x.2) _). by intros [].
Defined.
#[local] Instance ActiveMintConfigs_eq_dec : EqDecision ActiveMintConfigs.
Proof. assert (EqDecision ActiveMintConfig) by solve_decision. solve_decision. Defined.
#[local] Instance ActiveMintConfigs_countable : Countable ActiveMintConfigs.
Proof.
  refine (inj_countable'
    (λ a, ((λ c, (amc_mint_config c, amc_total_minted c)) <$> amcs_configs a, amcs_mint_config_tx a))
    (λ x, mkActiveMintConfigs ((λ y, mkActiveMintConfig y.1 y.2) <$> x.1) x.2) _).
  intros [l tx]. simpl. f_equal. rewrite <-list_fmap_compose.
  induction l as [|[] l IH]; [done|]. rewrite fmap_cons, IH. done.
Defined.

#[local] Program Instance toy_mint_codec : MintCodec := {|
  encode_active := λ a, StoreProps.pos_bytes (encode a);
  decode_active := λ l, decode (StoreProps.bytes_pos l);
  encode_config_txs := λ a, StoreProps.pos_bytes (encode a);
  decode_config_txs := λ l, decode (StoreProps.bytes_pos l);
  encode_mint_txs := λ a, StoreProps.pos_bytes (encode a);
  decode_mint_txs := λ l, decode (StoreProps.bytes_pos l)
|}.
Next Obligation. intros a. simpl. by rewrite StoreProps.bytes_pos_bytes, decode_encode. Qed.
Next Obligation. intros a. simpl. by rewrite StoreProps.bytes_pos_bytes, decode_encode. Qed.
Next Obligation. intros a. simpl. by rewrite StoreProps.bytes_pos_bytes, decode_encode. Qed.

(** A key signs with its own first byte. *)
#[local] Instance toy_ed25519 : Verifier Ed25519Public Ed25519Signature := {|
  sig_verify p _ s := bool_decide (p !!! 0%fin = s !!! 0%fin);
  sig_bytes s := vec_to_list s
|}.
#[local] Instance toy_mint_digests : MintDigests := {|
  mint_config_tx_hash _ := vreplicate 32 (u8 0);
  mint_tx_hash _ := vreplicate 32 (u8 0)
|}.
#[local] Existing Instance ValidationProps.toy_tx_crypto.

Definition ex_signers : SignerSet bytes32 := SignerSet_new [vreplicate 32 (u8 3)] 1.
Definition ex_sig : MultiSig (vec byte 64) := mkMultiSig [vreplicate 64 (u8 3)].
Definition ex_config (limit : N) : MintConfig := mkMintConfig 5 ex_signers limit.
Definition ex_config_tx (cs : list MintConfig) (total : N) : MintConfigTx :=
  mkMintConfigTx (mkMintConfigTxPrefix 5 cs (replicate 64 (u8 1)) 10 total) ex_sig.
Definition ex_mint (amount k : N) : MintTx :=
  mkMintTx (mkMintTxPrefix 5 amount (vreplicate 32 (u8 0)) (vreplicate 32 (u8 0))
    (replicate 64 (u8 k)) 10 None) ex_sig.
Definition ex_config_store : MintConfigStore := mkMintConfigStore 0 1 2.
Definition ex_mint_store : MintTxStore := mkMintTxStore 3 4.

Lemma ex_dbs : NoDup (mint_dbs ex_config_store ex_mint_store).
Proof. by apply (bool_decide_unpack _). Qed.

Lemma ex_authorized tx :
  mint_signature tx = ex_sig →
  MintValidationProps.authorized ex_signers (mint_tx_hash (mint_prefix tx)) (mint_signature tx).
Proof.
  intros ->. unfold MintValidationProps.authorized.
  rewrite <-MultisigProps.verify_ok_iff. vm_compute. done.
Qed.

(** The transaction after the configurations of token 5 have been set. *)
Definition ex_state (a : ActiveMintConfigs) : map_txn :=
  <[ (0, u64_to_key_bytes 5) := encode_active a ]> ∅.

Lemma ex_view a : active_view ex_config_store (ex_state a) {[ 5 := a ]}.
Proof.
  apply (active_view_put ex_config_store ∅ (ex_state a) ∅ 5 a); [|done..].
  intros tok _. simpl. by rewrite !lookup_empty.
Qed.

Lemma ex_get a d k : d ≠ 0 → db_get (ex_state a) d k = Err LmdbNotFound.
Proof.
  intros Hd. simpl. unfold ex_state. rewrite lookup_insert_ne by congruence. by rewrite lookup_empty.
Qed.

Lemma ex_nonces_free a txs :
  Forall (λ tx, length (mint_nonce (mint_prefix tx)) = 64%nat) txs →
  ∀ n, n ∈ tx_nonce <$> txs → nonce_free ex_mint_store (ex_state a) n.
Proof.
  intros Hl n (tx & -> & Htx)%list_elem_of_fmap. rewrite Forall_forall in Hl.
  split; [by apply ex_get|by apply Hl].
Qed.

Definition ex_active (x : N) : ActiveMintConfigs :=
  mkActiveMintConfigs [mkActiveMintConfig (ex_config 100) x] (ex_config_tx [ex_config 100] 90).

Lemma ex_active_ok x : x <= 90 → map_ok {[ 5 := ex_active x ]}.
Proof.
  intros Hx tok a [<- <-]%lookup_singleton_Some.
  constructor; try done; simpl.
  - by repeat constructor.
  - by apply NoDup_singleton.
  - repeat constructor; simpl; lia.
  - unfold minted_sum, amcs_total_mint_limit. simpl. lia.
Qed.

Lemma ex_steps : steps mint_step {[ 5 := ex_active 0 ]} [ex_mint 30 7; ex_mint 60 8] {[ 5 := ex_active 90 ]}.
Proof.
  apply (steps_cons _ _ _ {[ 5 := ex_active 30 ]}); [|apply (steps_cons _ _ _ {[ 5 := ex_active 90 ]})];
    [..|constructor].
  - rewrite <-(insert_singleton_eq 5 (ex_active 30) (ex_active 0)).
    apply (mint_step_intro _ (ex_mint 30 7) (ex_active 0) [] (mkActiveMintConfig (ex_config 100) 0) []);
      [by rewrite lookup_singleton_eq|done|split; [by apply ex_authorized|simpl; lia]|constructor|
       unfold minted_sum, amcs_total_mint_limit; simpl; lia].
  - rewrite <-(insert_singleton_eq 5 (ex_active 90) (ex_active 30)).
    apply (mint_step_intro _ (ex_mint 60 8) (ex_active 30) [] (mkActiveMintConfig (ex_config 100) 30) []);
      [by rewrite lookup_singleton_eq|done|split; [by apply ex_authorized|simpl; lia]|constructor|
       unfold minted_sum, amcs_total_mint_limit; simpl; lia].
Qed.

Lemma mint_txs_accepted_witness :
  ∃ t', write_mint_txs ex_mint_store 2 [ex_mint 30 7; ex_mint 60 8] ex_config_store
          (ex_state (ex_active 0)) = Done (Ok tt, t') ∧
        active_view ex_config_store t' {[ 5 := ex_active 90 ]}.
Proof.
  apply (mint_txs_accepted ex_mint_store ex_config_store _ {[ 5 := ex_active 0 ]});
    [exact ex_dbs|apply ex_view|apply ex_active_ok; lia|by repeat constructor|by apply ex_get|
     by apply (bool_decide_unpack _)|by apply ex_nonces_free; repeat constructor|apply ex_steps].
Defined.

Lemma mint_txs_accounting_witness :
  ∃ t' m', write_mint_txs ex_mint_store 2 [ex_mint 30 7; ex_mint 60 8] ex_config_store
             (ex_state (ex_active 0)) = Done (Ok tt, t') ∧
           active_view ex_config_store t' m' ∧ map_ok m' ∧
           minted m' 5 = minted {[ 5 := ex_active 0 ]} 5 + 90.
Proof.
  destruct (write_mint_txs_complete mint_step map_ok ex_mint_store ex_config_store
    (ex_state (ex_active 0)) {[ 5 := ex_active 0 ]} 2 [ex_mint 30 7; ex_mint 60 8]
    {[ 5 := ex_active 90 ]}) as (t' & E & _);
    [exact ex_dbs|intros; by apply mint_step_update|apply ex_view|apply ex_active_ok; lia|
     by repeat constructor|by apply ex_get|by apply (bool_decide_unpack _)|
     by apply ex_nonces_free; repeat constructor|apply ex_steps|].
  destruct (mint_txs_accounting ex_mint_store ex_config_store (ex_state (ex_active 0))
    {[ 5 := ex_active 0 ]} 2 [ex_mint 30 7; ex_mint 60 8] t' ex_dbs (ex_view _)
    (ex_active_ok 0 ltac:(lia))) as (m' & _ & Hv & Hok & Hm & _); [by repeat constructor|exact E|].
  exists t', m'. split_and!; [exact E|exact Hv|exact Hok|exact (Hm 5)].
Defined.

Lemma duplicate_configs_overmint_witness :
  let ctx := ex_config_tx [ex_config 40; ex_config 40] 80 in
  let txs := [ex_mint 40 7; ex_mint 40 8; ex_mint 40 9] in
  MintValidation.validate_mint_config_tx ctx (Some 1) 3 ex_signers = Ok tt ∧
  ∃ t' m', write_mint_txs ex_mint_store 2 txs ex_config_store
             (ex_state (ActiveMintConfigs_from ctx)) = Done (Ok tt, t') ∧
           active_view ex_config_store t' m' ∧ minted m' 5 = 40 ∧ block_mints txs 5 = 3 * 40.
Proof.
  intros ctx txs. split; [vm_compute; done|].
  apply (duplicate_configs_overmint ex_mint_store ex_config_store
    (ex_state (ActiveMintConfigs_from ctx)) {[ 5 := ActiveMintConfigs_from ctx ]} 2 txs 5 40
    (ex_config 40) ctx);
    [exact ex_dbs|apply ex_view|done|by constructor|by rewrite lookup_singleton_eq|by apply ex_get|
     by apply (bool_decide_unpack _)|by apply ex_nonces_free; repeat constructor|done|].
  repeat constructor; by apply ex_authorized.
Defined.

Lemma mint_config_txs_replace_witness :
  let v := mkValidatedMintConfigTx (ex_config_tx [ex_config 100] 90) ex_signers in
  ∃ t', write_validated_mint_config_txs ex_config_store 1 [v] (∅ : map_txn) = Done (Ok tt, t') ∧
        active_view ex_config_store t' {[ 5 := ex_active 0 ]} ∧ map_ok {[ 5 := ex_active 0 ]}.
Proof.
  intros v.
  assert (match write_validated_mint_config_txs ex_config_store 1 [v] (∅ : map_txn) with
          | Done (Ok _, _) => true | _ => false end = true) as Hok by (vm_compute; reflexivity).
  destruct (write_validated_mint_config_txs ex_config_store 1 [v] ∅) as [[[[]|e] t']| |] eqn:E;
    [|discriminate Hok..].
  exists t'. split; [done|].
  destruct (mint_config_txs_replace ex_mint_store ex_config_store ∅ ∅ 1 [v] t' ex_dbs)
    as (Hv & _ & Hm); [by intros tok _; simpl; rewrite !lookup_empty|by repeat constructor|exact E|].
  split; [exact Hv|]. apply Hm; [by intros tok a; rewrite lookup_empty|].
  constructor; [|constructor]. split_and!; [apply NoDup_singleton|by repeat constructor|done].
Defined.
End MintStoreProps.
