(* ===== verification/Block.v ===== *)
(** * Blocks

    [blockchain/types/src]: blocks, their contents and the data kept with them
    ([block.rs], [block_contents.rs], [block_data.rs]).  The Merlin digests that
    give a block and its contents their hashes are third-party code, the class
    [BlockDigests]; the signature and the metadata of a block are opaque here. *)

From stdpp Require Import vector.
From S2P Require Import Prelude Ord Bytes TxOut Membership BlockVersion Multisig Mint.

Open Scope N_scope.

Notation BlockID := bytes32 (only parsing).
Notation BlockContentsHash := bytes32 (only parsing).
Notation BlockIndex := N (only parsing).
Notation KeyImage := bytes32 (only parsing).

Definition MAX_BLOCK_VERSION : BlockVersion := VERSION_MAX.

(** [BlockID::default]. *)
Definition BlockID_default : BlockID := vreplicate 32 (u8 0).

Record BlockContents := mkBlockContents {
  key_images : list KeyImage;
  outputs : list TxOut;
  validated_mint_config_txs : list ValidatedMintConfigTx;
  mint_txs : list MintTx
}.

Record Block := mkBlock {
  id : BlockID;
  version : N;
  parent_id : BlockID;
  index : BlockIndex;
  cumulative_txo_count : N;
  root_element : TxOutMembershipElement;
  contents_hash : BlockContentsHash
}.
#[export] Instance Block_eq_dec : EqDecision Block.
Proof. solve_decision. Defined.

(** The digests: [BlockContents::hash], and [compute_block_id] of version,
    parent, index, cumulative count, root element and contents hash. *)
Class BlockDigests : Type := {
  contents_digest : BlockContents → BlockContentsHash;
  compute_block_id : N → BlockID → BlockIndex → N → TxOutMembershipElement →
    BlockContentsHash → BlockID
}.

(** [TxOutMembershipElement::default]: the range from 0 to 0 and the zero hash. *)
Definition root_element_default : TxOutMembershipElement :=
  mkElement (mkRange 0 0) (vreplicate 32 (u8 0)).

Section blocks.
Context `{BD : BlockDigests}.

(** [Block::new]. *)
Definition Block_new (version : BlockVersion) (parent_id : BlockID) (index : BlockIndex)
    (cumulative_txo_count : N) (root_element : TxOutMembershipElement)
    (block_contents : BlockContents) : Block :=
  let contents_hash := contents_digest block_contents in
  let id := compute_block_id version parent_id index cumulative_txo_count root_element
              contents_hash in
  mkBlock id version parent_id index cumulative_txo_count root_element contents_hash.

(** [Block::new_origin_block]. *)
Definition new_origin_block (outputs : list TxOut) : Block :=
  let version := 0 in
  let parent_id := BlockID_default in
  let index := 0 in
  let cumulative_txo_count := len outputs in
  let root_element := root_element_default in
  let block_contents := mkBlockContents [] outputs [] [] in
  let contents_hash := contents_digest block_contents in
  let id := compute_block_id version parent_id index cumulative_txo_count root_element
              contents_hash in
  mkBlock id version parent_id index cumulative_txo_count root_element contents_hash.

(** [Block::new_with_parent]. *)
Definition new_with_parent (version : BlockVersion) (parent : Block)
    (root_element : TxOutMembershipElement) (block_contents : BlockContents) : Block :=
  Block_new version (id parent) (u64_add (index parent) 1)
    (u64_add (cumulative_txo_count parent) (len (outputs block_contents)))
    root_element block_contents.

(** [is_block_id_valid]. *)
Definition is_block_id_valid (self : Block) : bool :=
  let expected_id := compute_block_id (version self) (parent_id self) (index self)
    (cumulative_txo_count self) (root_element self) (contents_hash self) in
  bool_decide (id self = expected_id).
End blocks.

(** [BlockData]. *)
Record BlockData (Sig Meta : Type) := mkBlockData {
  bd_block : Block;
  bd_contents : BlockContents;
  bd_signature : option Sig;
  bd_metadata : option Meta
}.
Arguments mkBlockData {Sig Meta} _ _ _ _.
Arguments bd_block {Sig Meta} _.
Arguments bd_contents {Sig Meta} _.
Arguments bd_signature {Sig Meta} _.
Arguments bd_metadata {Sig Meta} _.
