(* ===== verification/LedgerDb.v ===== *)
(** * The ledger

    [ledger/db/src/ledger_db.rs] and the default methods of
    [ledger/db/src/ledger_trait.rs]: an append-only chain of blocks with their
    contents, kept in LMDB databases.

    A method that takes no transaction opens a read-only one, which sees the
    committed state of the environment; [append_block] makes its writes in a
    read-write transaction and commits it at the end.  Here an environment is
    its committed state, [in_ro] runs a method on it, and [append_block] returns
    the state after the call. *)

From stdpp Require Import vector strings.
From S2P Require Import Prelude Ord Bytes Lmdb TxOut Membership TxOutStore BlockVersion MaskedAmount Tx TxValidation Multisig Mint MintStore Block.

Open Scope N_scope.

Definition NUM_BLOCKS_KEY : bytes := str_bytes "num_blocks".

Record TxOutsByBlockValue := mkTxOutsByBlockValue {
  first_tx_out_index : N;
  tbv_num_tx_outs : N
}.

Record LedgerDB := mkLedgerDB {
  ldb_counts : Database;
  blocks : Database;
  block_signatures : Database;
  block_metadata : Database;
  ldb_key_images : Database;
  key_images_by_block : Database;
  tx_out_store : TxOutStore;
  tx_outs_by_block : Database;
  block_number_by_tx_out_index : Database;
  mint_config_store : MintConfigStore;
  mint_tx_store : MintTxStore
}.

(** [mc_util_serial::encode] and [decode] of what the ledger keeps. *)
Class LedgerCodec (Sig Meta : Type) : Type := {
  encode_block : Block → bytes;
  decode_block : bytes → option Block;
  decode_encode_block : ∀ b, decode_block (encode_block b) = Some b;
  encode_signature : Sig → bytes;
  decode_signature : bytes → option Sig;
  decode_encode_signature : ∀ s, decode_signature (encode_signature s) = Some s;
  encode_metadata : Meta → bytes;
  decode_metadata : bytes → option Meta;
  decode_encode_metadata : ∀ x, decode_metadata (encode_metadata x) = Some x;
  encode_key_images : list KeyImage → bytes;
  decode_key_images : bytes → option (list KeyImage);
  decode_encode_key_images : ∀ l, decode_key_images (encode_key_images l) = Some l;
  encode_tx_outs_value : TxOutsByBlockValue → bytes;
  decode_tx_outs_value : bytes → option TxOutsByBlockValue;
  decode_encode_tx_outs_value : ∀ v, decode_tx_outs_value (encode_tx_outs_value v) = Some v
}.

(** [RwTransaction::commit]. *)
Class Commit (T : Type) : Type := db_commit : T → result unit lmdb_error.

(** The range [a..b]. *)
Definition N_range (a b : N) : list N := (λ i, a + N.of_nat i) <$> seq 0 (N.to_nat (b - a)).

Section ledger.
Context {T : Type} `{Transaction T} `{Commit T} `{D : Digests} `{C : TxOutCodec}.
Context `{V : Verifier Ed25519Public Ed25519Signature} `{DG : MintDigests} `{MC : MintCodec}.
Context {Sig Meta : Type} `{LC : LedgerCodec Sig Meta} `{BD : BlockDigests}.
Implicit Types (self : LedgerDB).

(** A method called on [self] while a read-write transaction is open: it reads
    the environment. *)
Definition in_ro {A} (env : T) (m : dbm T A) : dbm T A := λ t,
  match m env with
  | Done (r, _) => Done (r, t)
  | Panic => Panic
  | NoFuel => NoFuel
  end.

(** [match m { Ok(a) => Ok(Some(a)), Err(Error::NotFound) => Ok(None), Err(e) => Err(e) }] *)
Definition optional {A} (m : dbm T A) : dbm T (option A) := λ t,
  match m t with
  | Done (Ok a, t) => Done (Ok (Some a), t)
  | Done (Err NotFound, t) => Done (Ok None, t)
  | Done (Err e, t) => Done (Err e, t)
  | Panic => Panic
  | NoFuel => NoFuel
  end.

(** ** Reading *)

Definition num_blocks self : dbm T N :=
  let@ b := get (ldb_counts self) NUM_BLOCKS_KEY in dexec (key_bytes_to_u64 b).

Definition num_txos self : dbm T N := num_tx_outs (tx_out_store self).

(** [get_block_impl]. *)
Definition get_block self (block_number : N) : dbm T Block :=
  let@ block_bytes := get (blocks self) (u64_to_key_bytes block_number) in
  decoded (decode_block block_bytes).

Definition get_latest_block self : dbm T Block :=
  let@ num := num_blocks self in
  if num =? 0 then dfail NotFound else get_block self (u64_sub num 1).

(** [get_block_contents_impl]. *)
Definition get_block_contents self (block_number : N) : dbm T BlockContents :=
  let key := u64_to_key_bytes block_number in
  let@ b := get (tx_outs_by_block self) key in
  let@ value := decoded (decode_tx_outs_value b) in
  let@ outs := dmap (get_tx_out_by_index (tx_out_store self))
    (N_range (first_tx_out_index value) (u64_add (first_tx_out_index value) (tbv_num_tx_outs value))) in
  let@ b := get (key_images_by_block self) key in
  let@ images := decoded (decode_key_images b) in
  let@ configs := get_validated_mint_config_txs_by_block_index (mint_config_store self) block_number in
  let@ mints := get_mint_txs_by_block_index (mint_tx_store self) block_number in
  dret (mkBlockContents images outs configs mints).

(** [get_block_signature_impl], [get_block_metadata_impl]. *)
Definition get_block_signature self (block_number : N) : dbm T Sig :=
  let@ b := get (block_signatures self) (u64_to_key_bytes block_number) in
  decoded (decode_signature b).

Definition get_block_metadata self (block_number : N) : dbm T Meta :=
  let@ b := get (block_metadata self) (u64_to_key_bytes block_number) in
  decoded (decode_metadata b).

Definition get_block_data self (block_number : N) : dbm T (BlockData Sig Meta) :=
  let@ block := get_block self block_number in
  let@ contents := get_block_contents self block_number in
  let@ sig := optional (get_block_signature self block_number) in
  let@ meta := optional (get_block_metadata self block_number) in
  dret (mkBlockData block contents sig meta).

Definition get_block_index_by_tx_out_index self (tx_out_index : N) : dbm T N :=
  let@ b := get (block_number_by_tx_out_index self) (u64_to_key_bytes tx_out_index) in
  dexec (key_bytes_to_u64 b).

(** [contains_tx_out_public_key_impl]. *)
Definition contains_tx_out_public_key self (key : CompressedRistrettoPublic) : dbm T bool := λ t,
  match get_tx_out_index_by_public_key (tx_out_store self) key t with
  | Done (Ok _, t) => Done (Ok true, t)
  | Done (Err NotFound, t) => Done (Ok false, t)
  | Done (Err e, t) => Done (Err e, t)
  | Panic => Panic
  | NoFuel => NoFuel
  end.

(** [check_key_image_impl]. *)
Definition check_key_image self (key_image : KeyImage) : dbm T (option N) :=
  let@ r := try_get (ldb_key_images self) (vec_to_list key_image) in
  match r with
  | Ok db_bytes =>
      let@ _ := dexec (assert! (bool_decide (length db_bytes = 8%nat)) in Done tt) in
      dret (Some (le_value db_bytes))
  | Err LmdbNotFound => dret None
  | Err e => dfail (Lmdb e)
  end.

Definition contains_key_image self (key_image : KeyImage) : dbm T bool :=
  let@ x := check_key_image self key_image in
  dret (match x with Some _ => true | None => false end).

Definition get_key_images_by_block self (block_number : N) : dbm T (list KeyImage) :=
  let@ b := get (key_images_by_block self) (u64_to_key_bytes block_number) in
  decoded (decode_key_images b).

Definition get_tx_out_proof_of_memberships self (indexes : list N) :
    dbm T (list TxOutMembershipProof) :=
  dmap (get_merkle_proof_of_membership (tx_out_store self)) indexes.

Definition get_root_tx_out_membership_element self : dbm T TxOutMembershipElement :=
  let@ num := num_tx_outs (tx_out_store self) in
  if num =? 0 then dfail NoOutputs
  else
    let@ root_merkle_hash := get_root_merkle_hash (tx_out_store self) in
    let@ full := dresult (ok_or (checked_next_power_of_two num) CapacityExceeded) in
    let@ range := dresult (from_range_error (Range_new 0 (u64_sub full 1))) in
    dret (mkElement range root_merkle_hash).

(** ** Validation of a block to append *)

Definition validate_position self (env : T) (block : Block) : dbm T unit :=
  let@ num := in_ro env (num_blocks self) in
  if num =? 0 then
    if negb (version block =? 0) then dfail (InvalidBlockVersion (version block))
    else if negb (index block =? 0) then dfail (InvalidBlockIndex (index block))
    else if bool_decide (parent_id block ≠ BlockID_default)
    then dfail (InvalidParentBlockID (id block))
    else dret tt
  else
    let@ last_block := in_ro env (get_block self (u64_sub num 1)) in
    if (version block <? version last_block) || (MAX_BLOCK_VERSION <? version block)
    then dfail (InvalidBlockVersion (version block))
    else if negb (index block =? num) then dfail (InvalidBlockIndex (index block))
    else if bool_decide (parent_id block ≠ id last_block)
    then dfail (InvalidParentBlockID (parent_id block))
    else dret tt.

(** The checks that only look at the block and its contents, before those of
    key images, keys and nonces. *)
Definition validate_shape (block : Block) (block_contents : BlockContents) : result unit Error :=
  let no_configs := bool_decide (validated_mint_config_txs block_contents = []) in
  let no_mints := bool_decide (mint_txs block_contents = []) in
  if bool_decide (outputs block_contents = []) && no_configs then Err NoOutputs
  else if len (outputs block_contents) <? len (mint_txs block_contents) then Err TooFewOutputs
  else if negb (index block =? 0) && bool_decide (key_images block_contents = []) &&
          (no_configs && no_mints) then Err NoKeyImages
  else if bool_decide (contents_hash block ≠ contents_digest block_contents)
  then Err InvalidBlockContents
  else if existsb (λ o, negb (is_ok (get_masked_amount o))) (outputs block_contents)
  then Err MissingMaskedAmount
  else Ok tt.

(** The loops that refuse what is in the ledger already. *)
Definition refuse {A} (f : A → dbm T bool) (e : Error) (l : list A) : dbm T unit :=
  dfor (λ a, let@ b := f a in if b then dfail e else dret tt) l.

Definition mint_nonce_seen self (tx : MintTx) : dbm T bool :=
  let@ x := check_mint_tx_nonce (mint_tx_store self) (mint_token_id (mint_prefix tx))
              (mint_nonce (mint_prefix tx)) in
  dret (bool_decide (x ≠ None)).

Definition config_nonce_seen self (v : ValidatedMintConfigTx) : dbm T bool :=
  let@ x := check_mint_config_tx_nonce (mint_config_store self)
              (mct_token_id (mct_prefix (mint_config_tx v)))
              (mct_nonce (mct_prefix (mint_config_tx v))) in
  dret (bool_decide (x ≠ None)).

Definition validate_append_block self (env : T) (block : Block) (block_contents : BlockContents)
    (metadata : option Meta) : dbm T unit :=
  let@ _ := validate_position self env block in
  let@ _ := dresult (validate_shape block block_contents) in
  let@ _ := refuse (contains_key_image self) KeyImageAlreadySpent (key_images block_contents) in
  let@ _ := refuse (λ o, contains_tx_out_public_key self (public_key o)) DuplicateOutputPublicKey
              (outputs block_contents) in
  if negb (is_block_id_valid block) then dfail (InvalidBlockID (id block))
  else
    let@ _ := refuse (mint_nonce_seen self) DuplicateMintTx (mint_txs block_contents) in
    let@ _ := refuse (config_nonce_seen self) DuplicateMintConfigTx
                (validated_mint_config_txs block_contents) in
    let@ block_version := dresult (map_err (λ _, InvalidBlockVersion (version block))
                                     (BlockVersion_try_from (version block))) in
    if require_block_metadata block_version && bool_decide (metadata = None)
    then dfail BlockMetadataRequired
    else dret tt.

(** ** Writing *)

Definition write_block self (block : Block) (signature : option Sig) (metadata : option Meta) :
    dbm T unit :=
  let@ b := get (ldb_counts self) NUM_BLOCKS_KEY in
  let@ num_blocks_before := dexec (key_bytes_to_u64 b) in
  let@ _ := put (ldb_counts self) NUM_BLOCKS_KEY (u64_to_key_bytes (u64_add num_blocks_before 1))
              FlagsEmpty in
  let@ _ := put (blocks self) (u64_to_key_bytes (index block)) (encode_block block) FlagsEmpty in
  let@ _ := match signature with
            | Some sig => put (block_signatures self) (u64_to_key_bytes (index block))
                            (encode_signature sig) FlagsEmpty
            | None => dret tt
            end in
  match metadata with
  | Some meta => put (block_metadata self) (u64_to_key_bytes (index block))
                   (encode_metadata meta) FlagsEmpty
  | None => dret tt
  end.

(** One iteration of the loop of [write_key_images]: the test reads the
    environment, not the transaction. *)
Definition write_key_image self (env : T) (block_index : N) (key_image : KeyImage) : dbm T unit :=
  let@ b := in_ro env (contains_key_image self key_image) in
  if b then dfail KeyImageAlreadySpent
  else put (ldb_key_images self) (vec_to_list key_image) (le_bytes 8 block_index) FlagsEmpty.

Definition write_key_images self (env : T) (block_index : N) (images : list KeyImage) : dbm T unit :=
  let@ _ := dfor (write_key_image self env block_index) images in
  put (key_images_by_block self) (u64_to_key_bytes block_index) (encode_key_images images) FlagsEmpty.

(** One iteration of the loop of [write_tx_outs]. *)
Definition write_tx_out self (env : T) (block_index_bytes : bytes) (tx_out : TxOut) : dbm T unit :=
  let@ b := in_ro env (contains_tx_out_public_key self (public_key tx_out)) in
  if b then dfail DuplicateOutputPublicKey
  else
    let@ tx_out_index := push (tx_out_store self) tx_out in
    put (block_number_by_tx_out_index self) (u64_to_key_bytes tx_out_index) block_index_bytes
      NO_OVERWRITE.

Definition write_tx_outs self (env : T) (block_index : N) (tx_outs : list TxOut) : dbm T unit :=
  let@ next_tx_out_index := num_tx_outs (tx_out_store self) in
  let bytes := encode_tx_outs_value (mkTxOutsByBlockValue next_tx_out_index (len tx_outs)) in
  let@ _ := put (tx_outs_by_block self) (u64_to_key_bytes block_index) bytes FlagsEmpty in
  dfor (write_tx_out self env (u64_to_key_bytes block_index)) tx_outs.

(** The transaction of [append_block], up to the commit. *)
Definition append_block_txn self (env : T) (block : Block) (block_contents : BlockContents)
    (signature : option Sig) (metadata : option Meta) : dbm T unit :=
  let@ _ := validate_append_block self env block block_contents metadata in
  let@ _ := write_key_images self env (index block) (key_images block_contents) in
  let@ _ := write_tx_outs self env (index block) (outputs block_contents) in
  let@ _ := write_mint_txs (mint_tx_store self) (index block) (mint_txs block_contents)
              (mint_config_store self) in
  let@ _ := write_validated_mint_config_txs (mint_config_store self) (index block)
              (validated_mint_config_txs block_contents) in
  write_block self block signature metadata.

(** [append_block]: the environment changes when the transaction commits. *)
Definition append_block self (block : Block) (block_contents : BlockContents)
    (signature : option Sig) (metadata : option Meta) : dbm T unit := λ env,
  match append_block_txn self env block block_contents signature metadata env with
  | Done (Ok _, t) =>
      match db_commit t with
      | Ok _ => Done (Ok tt, t)
      | Err e => Done (Err (Error_from_lmdb e), env)
      end
  | Done (Err e, _) => Done (Err e, env)
  | Panic => Panic
  | NoFuel => NoFuel
  end.

Definition append_block_data self (d : BlockData Sig Meta) : dbm T unit :=
  append_block self (bd_block d) (bd_contents d) (bd_signature d) (bd_metadata d).

(** [LedgerDB::create], after the databases have been created empty. *)
Definition ledger_create self : dbm T unit :=
  let@ _ := create (tx_out_store self) in
  put (ldb_counts self) NUM_BLOCKS_KEY (u64_to_key_bytes 0) FlagsEmpty.
End ledger.
