(* ===== verification/LedgerFrame.v ===== *)
(** * What the ledger's writes leave alone

    [touches S m]: when the computation [m] succeeds, the databases outside [S]
    are as before.  The operations of the stores and of the ledger touch their
    own databases only; the tactic [frame] proves it. *)

From stdpp Require Import vector strings.
From S2P Require Import Prelude Ord Bytes Lmdb TxOut Membership MerkleTree TxOutStore TxOutStoreProps BlockVersion MaskedAmount Tx TxValidation Multisig Mint MintStore MintStoreProps Block LedgerDb.

Open Scope N_scope.

Section touches.
Context {T : Type} `{Transaction T} `{!TransactionLaws T}.

Definition touches {A} (S : list N) (m : dbm T A) : Prop :=
  ∀ t a t', m t = Done (Ok a, t') → ∀ db, db ∉ S → same_db db t t'.

Lemma touches_weaken {A} S S' (m : dbm T A) : touches S m → S ⊆ S' → touches S' m.
Proof. intros Hm Hs t a t' E db Hdb. eapply Hm; [done|set_solver]. Qed.

Lemma touches_ret {A} S (a : A) : touches S (dret a).
Proof. intros t b t' [= <- <-] db _ k. done. Qed.

Lemma touches_fail {A} S e : touches S (dfail e : dbm T A).
Proof. by intros t b t' [=]. Qed.

Lemma touches_result {A} S (r : result A Error) : touches S (dresult r).
Proof. intros t b t' [= -> <-] db _ k. done. Qed.

Lemma touches_exec {A} S (r : exec A) : touches S (dexec r).
Proof. intros t b t' E db _ k. unfold dexec in E. destruct r; simplify_eq. done. Qed.

Lemma touches_get S d k : touches S (get d k).
Proof. intros t b t' E db _ k'. unfold get in E. by simplify_eq. Qed.

Lemma touches_try_get S d k : touches S (try_get d k).
Proof. intros t b t' E db _ k'. unfold try_get in E. by simplify_eq. Qed.

Lemma touches_put S d k v f : d ∈ S → touches S (put d k v f).
Proof.
  intros Hd t a t' E%put_inv db Hdb. eapply put_same_db; [done|]. intros ->. done.
Qed.

Lemma touches_bind {A B} S (m : dbm T A) (k : A → dbm T B) :
  touches S m → (∀ a, touches S (k a)) → touches S (dbind m k).
Proof.
  intros Hm Hk t b t' (a & t1 & E1 & E2)%dbind_inv db Hdb.
  eapply same_db_trans; [by eapply Hm|by eapply Hk].
Qed.

Lemma touches_for {A} S (f : A → dbm T unit) l : (∀ a, touches S (f a)) → touches S (dfor f l).
Proof.
  intros Hf. induction l as [|x l IH]; [apply touches_ret|by apply touches_bind].
Qed.

Lemma touches_ro {A} S env (m : dbm T A) : touches S (in_ro env m).
Proof.
  intros t b t' E db _ k. unfold in_ro in E. destruct (m env) as [[r t1]| |]; simplify_eq. done.
Qed.

Lemma touches_decoded {A} S (o : option A) : touches S (decoded o).
Proof. destruct o; [apply touches_ret|apply touches_fail]. Qed.

End touches.

(** Computations that do not write. *)
Section reads.
Context {T : Type} `{Transaction T}.

Definition reads {A} (m : dbm T A) : Prop := ∀ t r t', m t = Done (r, t') → t' = t.

Lemma reads_ret {A} (a : A) : reads (dret a).
Proof. by intros t b t' [= <- <-]. Qed.
Lemma reads_fail {A} e : reads (dfail e : dbm T A).
Proof. by intros t b t' [=]. Qed.
Lemma reads_result {A} (r : result A Error) : reads (dresult r).
Proof. by intros t b t' [= -> <-]. Qed.
Lemma reads_exec {A} (r : exec A) : reads (dexec r).
Proof. intros t b t' E. unfold dexec in E. by destruct r; simplify_eq. Qed.
Lemma reads_get d k : reads (get d k).
Proof. intros t b t' E. unfold get in E. by simplify_eq. Qed.
Lemma reads_try_get d k : reads (try_get d k).
Proof. intros t b t' E. unfold try_get in E. by simplify_eq. Qed.
Lemma reads_decoded {A} (o : option A) : reads (decoded o).
Proof. destruct o; [apply reads_ret|apply reads_fail]. Qed.
Lemma reads_ro {A} env (m : dbm T A) : reads (in_ro env m).
Proof. intros t b t' E. unfold in_ro in E. by destruct (m env) as [[r t1]| |]; simplify_eq. Qed.

Lemma reads_bind {A B} (m : dbm T A) (k : A → dbm T B) :
  reads m → (∀ a, reads (k a)) → reads (dbind m k).
Proof.
  intros Hm Hk t r t' E. unfold dbind in E. destruct (m t) as [[[a|e] t1]| |] eqn:Em; [| |done|done].
  - apply Hm in Em as ->. by apply Hk in E.
  - apply Hm in Em as ->. by simplify_eq.
Qed.

Lemma reads_for {A} (f : A → dbm T unit) l : (∀ a, reads (f a)) → reads (dfor f l).
Proof. intros Hf. induction l as [|x l IH]; [apply reads_ret|by apply reads_bind]. Qed.

(** The steps of a computation that only reads happen in the same transaction. *)
Lemma reads_inv {A B} (m : dbm T A) (k : A → dbm T B) t b t' :
  reads m → dbind m k t = Done (Ok b, t') → ∃ a, m t = Done (Ok a, t) ∧ k a t = Done (Ok b, t').
Proof. intros Hm (a & t1 & E1 & E2)%dbind_inv. pose proof (Hm _ _ _ E1) as ->. eauto. Qed.
End reads.

(** Membership in an explicit list of databases. *)
Ltac in_dbs :=
  solve [ repeat first [apply list_elem_of_here | apply list_elem_of_further] ].

Ltac frame :=
  repeat (cbv beta zeta; match goal with
  | |- touches _ (dbind _ _) => apply touches_bind; [|intros ?]
  | |- touches _ (dret _) => apply touches_ret
  | |- touches _ (dfail _) => apply touches_fail
  | |- touches _ (dresult _) => apply touches_result
  | |- touches _ (dexec _) => apply touches_exec
  | |- touches _ (get _ _) => apply touches_get
  | |- touches _ (try_get _ _) => apply touches_try_get
  | |- touches _ (decoded _) => apply touches_decoded
  | |- touches _ (in_ro _ _) => apply touches_ro
  | |- touches _ (put _ _ _ _) => apply touches_put; in_dbs
  | |- touches _ (dfor _ _) => apply touches_for; intros ?
  | |- touches _ (if ?b then _ else _) => destruct b
  | |- touches _ (match ?x with _ => _ end) => destruct x
  | H : touches ?S ?m |- touches ?S ?m => exact H
  end).

Ltac reads :=
  repeat (cbv beta zeta; match goal with
  | |- reads (dbind _ _) => apply reads_bind; [|intros ?]
  | |- reads (dret _) => apply reads_ret
  | |- reads (dfail _) => apply reads_fail
  | |- reads (dresult _) => apply reads_result
  | |- reads (dexec _) => apply reads_exec
  | |- reads (get _ _) => apply reads_get
  | |- reads (try_get _ _) => apply reads_try_get
  | |- reads (decoded _) => apply reads_decoded
  | |- reads (in_ro _ _) => apply reads_ro
  | |- reads (dfor _ _) => apply reads_for; intros ?
  | |- reads (if ?b then _ else _) => destruct b
  | |- reads (match ?x with _ => _ end) => destruct x
  end).

Section frames.
Context {T : Type} `{Transaction T} `{!TransactionLaws T} `{D : Digests} `{C : TxOutCodec}.
Context `{V : Verifier Ed25519Public Ed25519Signature} `{DG : MintDigests} `{MC : MintCodec}.

Definition store_dbs (self : TxOutStore) : list N :=
  [counts self; tx_out_by_index self; tx_out_index_by_hash self; tx_out_index_by_public_key self;
   merkle_hashes self].

Lemma push_touches self tx_out : touches (T:=T) (store_dbs self) (push self tx_out).
Proof.
  unfold push, push_entries, update_merkle_hashes, num_tx_outs, store_dbs. frame.
  unfold update_merkle_hash, get_tx_out_by_index, get_merkle_hash, write_merkle_hash. frame.
Qed.

Lemma write_mint_tx_touches ms cs b tx :
  touches (T:=T) [active_mint_configs_by_token_id cs; block_index_by_mint_tx_nonce_and_token_id ms]
    (write_mint_tx ms cs b tx).
Proof.
  unfold write_mint_tx, get_active_mint_config_for_mint_tx, update_total_minted,
    get_active_mint_configs, write_block_index_by_mint_tx_nonce_and_token_id. frame.
Qed.

Lemma write_mint_config_tx_touches cs b v :
  touches (T:=T)
    [active_mint_configs_by_token_id cs; block_index_by_mint_config_tx_nonce_and_token_id cs]
    (write_mint_config_tx cs b v).
Proof.
  unfold write_mint_config_tx, write_block_index_by_nonce_and_token_id,
    write_active_mint_configs_by_token_id. frame.
Qed.
End frames.
