(* ===== verification/LedgerProps.v ===== *)
(** * Correctness of the ledger

    [ledger_ok self t chain]: the databases hold the chain of blocks [chain],
    which is well linked, and everything derived from it: the outputs and their
    Merkle tree, the spent key images, the nonces and the minting
    configurations.  Appending a block refines appending to that list, and what
    was appended is read back. *)

From stdpp Require Import vector strings.
From S2P Require Import Prelude Ord Bytes Lmdb TxOut Membership MerkleTree TxOutStore TxOutStoreProps BlockVersion MaskedAmount Tx TxValidation Multisig Mint MintStore MintStoreProps Block LedgerDb LedgerFrame.

Open Scope N_scope.

(** ** The databases *)

Definition ledger_dbs (self : LedgerDB) : list N :=
  [ldb_counts self; blocks self; block_signatures self; block_metadata self; ldb_key_images self;
   key_images_by_block self; tx_outs_by_block self; block_number_by_tx_out_index self] ++
  store_dbs (tx_out_store self) ++ mint_dbs (mint_config_store self) (mint_tx_store self).

Definition ledger_wf (self : LedgerDB) : Prop := NoDup (ledger_dbs self).

Lemma NoDup_ne {A} (l : list A) i j x y :
  NoDup l → l !! i = Some x → l !! j = Some y → i ≠ j → x ≠ y.
Proof. intros Hl Hi Hj Hij ->. by apply Hij, (NoDup_lookup l i j y). Qed.

Ltac index_of x l :=
  match l with
  | x :: _ => constr:(O)
  | _ :: ?l' => let n := index_of x l' in constr:(Datatypes.S n)
  end.

(** Two databases of a ledger are different. *)
Ltac db_ne :=
  match goal with
  | Hwf : ledger_wf ?self |- ?x ≠ ?y =>
      let l := eval cbv [ledger_dbs store_dbs mint_dbs app] in (ledger_dbs self) in
      let i := index_of x l in let j := index_of y l in
      exact (NoDup_ne l i j x y Hwf eq_refl eq_refl ltac:(discriminate))
  end.

Ltac db_notin :=
  unfold store_dbs; rewrite ?not_elem_of_cons; split_and?; first [by apply not_elem_of_nil | db_ne].

(** A database that no stage from [t] to [t'] touches. *)
Ltac frames :=
  match goal with
  | |- same_db _ ?t ?t => intros ?; reflexivity
  | F : ∀ db, db ∉ _ → same_db db ?t ?t1 |- same_db _ ?t _ =>
      eapply same_db_trans; [apply F; db_notin|frames]
  end.

Lemma ledger_wf_store self : ledger_wf self → store_wf (tx_out_store self).
Proof. unfold ledger_wf, ledger_dbs. rewrite !NoDup_app. intros (_ & _ & Hs & _). exact Hs. Qed.

Lemma ledger_wf_mint self : ledger_wf self → NoDup (mint_dbs (mint_config_store self) (mint_tx_store self)).
Proof. unfold ledger_wf, ledger_dbs. rewrite !NoDup_app. intros (_ & _ & _ & _ & Hs). exact Hs. Qed.

Section props.
Context {T : Type} `{Transaction T} `{!TransactionLaws T} `{Commit T} `{D : Digests} `{C : TxOutCodec}.
Context `{V : Verifier Ed25519Public Ed25519Signature} `{DG : MintDigests} `{MC : MintCodec}.
Context {Sig Meta : Type} `{LC : LedgerCodec Sig Meta} `{BD : BlockDigests}.
Notation BlockData := (BlockData Sig Meta).
Implicit Types (self : LedgerDB) (t : T) (d : BlockData) (chain : list BlockData).

Abbreviation d_outputs d := (outputs (bd_contents d)).
Abbreviation d_images d := (key_images (bd_contents d)).
Abbreviation d_mints d := (mint_txs (bd_contents d)).
Abbreviation d_configs d := (validated_mint_config_txs (bd_contents d)).

Definition chain_outputs chain : list TxOut := chain ≫= λ d, d_outputs d.

Lemma chain_outputs_snoc chain d : chain_outputs (chain ++ [d]) = chain_outputs chain ++ d_outputs d.
Proof. unfold chain_outputs. by rewrite bind_app, bind_singleton. Qed.

Lemma len_app {A} (l1 l2 : list A) : len (l1 ++ l2) = len l1 + len l2.
Proof. unfold len. rewrite length_app. lia. Qed.

(** ** Well-linked chains *)

(** What [append_block] demands of the block after [chain], besides that it
    spends and creates nothing twice. *)
Record valid_next chain d : Prop := {
  vn_origin : chain = [] →
    version (bd_block d) = 0 ∧ parent_id (bd_block d) = BlockID_default;
  vn_parent : ∀ p, last chain = Some p →
    version (bd_block p) <= version (bd_block d) ∧ parent_id (bd_block d) = id (bd_block p);
  vn_index : index (bd_block d) = len chain;
  vn_version : version (bd_block d) <= MAX_BLOCK_VERSION;
  vn_outputs : d_outputs d ≠ [] ∨ d_configs d ≠ [];
  vn_mints : len (d_mints d) <= len (d_outputs d);
  vn_images : chain ≠ [] → d_images d ≠ [] ∨ d_configs d ≠ [] ∨ d_mints d ≠ [];
  vn_contents : contents_hash (bd_block d) = contents_digest (bd_contents d);
  vn_amounts : ∀ o, o ∈ d_outputs d → masked_amount o ≠ None;
  vn_id : is_block_id_valid (bd_block d) = true;
  vn_metadata : 3 <= version (bd_block d) → bd_metadata d ≠ None
}.

(** ** What the databases hold *)

(** The keys of the nonces. *)
Definition mint_key (tx : MintTx) : bytes :=
  nonce_key (mint_nonce (mint_prefix tx)) (mint_token_id (mint_prefix tx)).
Definition config_key (v : ValidatedMintConfigTx) : bytes :=
  nonce_key (mct_nonce (mct_prefix (mint_config_tx v))) (mct_token_id (mct_prefix (mint_config_tx v))).

(** The entries of block [i], when the outputs of the blocks before it are [txs]. *)
Record stored self t (txs : list TxOut) (i : N) d : Prop := {
  st_block : db_get t (blocks self) (u64_to_key_bytes i) = Ok (encode_block (bd_block d));
  st_sig : db_get t (block_signatures self) (u64_to_key_bytes i) =
    match bd_signature d with Some s => Ok (encode_signature s) | None => Err LmdbNotFound end;
  st_meta : db_get t (block_metadata self) (u64_to_key_bytes i) =
    match bd_metadata d with Some x => Ok (encode_metadata x) | None => Err LmdbNotFound end;
  st_images : db_get t (key_images_by_block self) (u64_to_key_bytes i) =
    Ok (encode_key_images (d_images d));
  st_outs : db_get t (tx_outs_by_block self) (u64_to_key_bytes i) =
    Ok (encode_tx_outs_value (mkTxOutsByBlockValue (len txs) (len (d_outputs d))));
  st_mints : db_get t (mint_txs_by_block (mint_tx_store self)) (u64_to_key_bytes i) =
    Ok (encode_mint_txs (d_mints d));
  st_configs : db_get t (validated_mint_config_txs_by_block (mint_config_store self))
    (u64_to_key_bytes i) = Ok (encode_config_txs (d_configs d));
  st_numbers : ∀ j, j < len (d_outputs d) →
    db_get t (block_number_by_tx_out_index self) (u64_to_key_bytes (len txs + j)) =
    Ok (u64_to_key_bytes i);
  st_spent : ∀ k, k ∈ d_images d → db_get t (ldb_key_images self) (vec_to_list k) = Ok (le_bytes 8 i);
  st_nonces : ∀ tx, tx ∈ d_mints d →
    db_get t (block_index_by_mint_tx_nonce_and_token_id (mint_tx_store self)) (mint_key tx) =
    Ok (u64_to_key_bytes i);
  st_config_nonces : ∀ v, v ∈ d_configs d →
    db_get t (block_index_by_mint_config_tx_nonce_and_token_id (mint_config_store self)) (config_key v) =
    Ok (u64_to_key_bytes i)
}.

(** The minting configurations after a chain: each block mints, then replaces
    configurations. *)
Inductive chain_active : list BlockData → gmap N ActiveMintConfigs → Prop :=
| chain_active_nil : chain_active [] ∅
| chain_active_snoc chain m d m' :
    chain_active chain m → steps mint_step m (d_mints d) m' →
    chain_active (chain ++ [d]) (foldl config_step m' (d_configs d)).

Record ledger_ok self t chain : Prop := {
  lo_len : len chain < u64_modulus;
  lo_num : db_get t (ldb_counts self) NUM_BLOCKS_KEY = Ok (u64_to_key_bytes (len chain));
  lo_stored : ∀ i d, chain !! i = Some d →
    stored self t (chain_outputs (take i chain)) (N.of_nat i) d;
  lo_free : ∀ i, len chain <= i → i < u64_modulus →
    db_get t (block_signatures self) (u64_to_key_bytes i) = Err LmdbNotFound ∧
    db_get t (block_metadata self) (u64_to_key_bytes i) = Err LmdbNotFound ∧
    db_get t (mint_txs_by_block (mint_tx_store self)) (u64_to_key_bytes i) = Err LmdbNotFound ∧
    db_get t (validated_mint_config_txs_by_block (mint_config_store self)) (u64_to_key_bytes i) =
      Err LmdbNotFound;
  lo_numbers : ∀ i, len (chain_outputs chain) <= i → i < u64_modulus →
    db_get t (block_number_by_tx_out_index self) (u64_to_key_bytes i) = Err LmdbNotFound;
  lo_nonces : ∀ k, (∀ d tx, d ∈ chain → tx ∈ d_mints d → mint_key tx ≠ k) →
    db_get t (block_index_by_mint_tx_nonce_and_token_id (mint_tx_store self)) k = Err LmdbNotFound;
  lo_config_nonces : ∀ k, (∀ d v, d ∈ chain → v ∈ d_configs d → config_key v ≠ k) →
    db_get t (block_index_by_mint_config_tx_nonce_and_token_id (mint_config_store self)) k =
      Err LmdbNotFound;
  lo_store : store_ok (tx_out_store self) t (chain_outputs chain);
  lo_unspent : ∀ k : KeyImage, (∀ d, d ∈ chain → k ∉ d_images d) →
    db_get t (ldb_key_images self) (vec_to_list k) = Err LmdbNotFound;
  lo_active : ∃ m, chain_active chain m ∧ active_view (mint_config_store self) t m ∧ map_ok m;
  lo_valid : ∀ i d, chain !! i = Some d → valid_next (take i chain) d
}.

(** The limits the code does not check: the number of outputs the tree can
    take, the width of the integers in the mint transactions, and that no
    configuration is repeated. *)
Record appendable chain d : Prop := {
  ap_len : len chain + 1 < u64_modulus;
  ap_outputs : len (chain_outputs chain) + len (d_outputs d) <= 2 ^ 63;
  ap_mints : Forall (λ tx, mint_token_id (mint_prefix tx) < u64_modulus) (d_mints d);
  ap_config_tokens :
    Forall (λ v, mct_token_id (mct_prefix (mint_config_tx v)) < u64_modulus) (d_configs d);
  ap_configs : Forall (λ v, config_tx_ok (mint_config_tx v)) (d_configs d)
}.

(** ** Reading *)

Lemma key_eq_ne i j : i < u64_modulus → j < u64_modulus → i ≠ j → u64_to_key_bytes i ≠ u64_to_key_bytes j.
Proof. intros Hi Hj Hne E. by apply Hne, u64_key_inj. Qed.

Lemma num_blocks_ok self t chain :
  ledger_ok self t chain → num_blocks self t = Done (Ok (len chain), t).
Proof.
  intros Hok. unfold num_blocks. dstep (get_Ok _ _ _ _ (lo_num _ _ _ Hok)).
  by rewrite key_round_trip by apply (lo_len _ _ _ Hok).
Qed.

Lemma get_block_ok self t chain i d :
  ledger_ok self t chain → chain !! i = Some d →
  get_block self (N.of_nat i) t = Done (Ok (bd_block d), t).
Proof.
  intros Hok Hi. unfold get_block. dstep (get_Ok _ _ _ _ (st_block _ _ _ _ _ (lo_stored _ _ _ Hok i d Hi))).
  by rewrite decode_encode_block.
Qed.

Lemma last_block_ok self t chain d :
  ledger_ok self t chain → last chain = Some d →
  get_block self (u64_sub (len chain) 1) t = Done (Ok (bd_block d), t).
Proof.
  intros Hok Hd. assert (0 < len chain) as Hpos.
  { destruct chain; [done|]. rewrite len_cons. lia. }
  rewrite u64_sub_small by (pose proof (lo_len _ _ _ Hok); lia).
  rewrite last_lookup in Hd. apply (get_block_ok self t chain) in Hd; [|done].
  replace (len chain - 1) with (N.of_nat (pred (length chain))); [done|]. unfold len in *. lia.
Qed.

(** ** Validation *)

Lemma refuse_Ok {A} (f : A → dbm T bool) e l t r t' :
  (∀ a, reads (f a)) → refuse f e l t = Done (Ok r, t') →
  t' = t ∧ ∀ a, a ∈ l → f a t = Done (Ok false, t).
Proof.
  intros Hf. unfold refuse. induction l as [|x l IH]; simpl.
  - intros [= <- <-]. split; [done|]. by intros a ?%elem_of_nil.
  - intros (u & E & E2)%reads_inv; [|reads; apply Hf].
    apply reads_inv in E as (b & Eb & E); [|apply Hf]. destruct b; [done|].
    destruct (IH E2) as [-> Hl]. split; [done|].
    intros a [->|Ha]%elem_of_cons; [done|by apply Hl].
Qed.

Lemma contains_key_image_reads self k : reads (T:=T) (contains_key_image self k).
Proof. unfold contains_key_image, check_key_image. reads. Qed.

Lemma contains_key_image_false self k t :
  contains_key_image self k t = Done (Ok false, t) →
  db_get t (ldb_key_images self) (vec_to_list k) = Err LmdbNotFound.
Proof.
  unfold contains_key_image, check_key_image, try_get, dbind.
  destruct (db_get t (ldb_key_images self) (vec_to_list k)) as [v|[]]; simpl; try done.
  by destruct (bool_decide _).
Qed.

Lemma contains_tx_out_public_key_reads self k : reads (T:=T) (contains_tx_out_public_key self k).
Proof.
  intros t r t' E. unfold contains_tx_out_public_key in E.
  assert (reads (T:=T) (get_tx_out_index_by_public_key (tx_out_store self) k)) as Hr
    by (unfold get_tx_out_index_by_public_key; reads).
  destruct (get_tx_out_index_by_public_key (tx_out_store self) k t) as [[[i|e] t1]| |] eqn:Eg; [..|done|done];
    apply Hr in Eg; [|destruct e]; by simplify_eq.
Qed.

Lemma mint_nonce_seen_reads self tx : reads (T:=T) (mint_nonce_seen self tx).
Proof. unfold mint_nonce_seen, check_mint_tx_nonce, nonce_lookup. reads. Qed.

Lemma config_nonce_seen_reads self v : reads (T:=T) (config_nonce_seen self v).
Proof. unfold config_nonce_seen, check_mint_config_tx_nonce, nonce_lookup. reads. Qed.

Lemma refuse_reads {A} (f : A → dbm T bool) e l : (∀ a, reads (f a)) → reads (refuse f e l).
Proof. intros Hf. unfold refuse. reads. apply Hf. Qed.

#[local] Hint Resolve refuse_reads contains_key_image_reads contains_tx_out_public_key_reads
  mint_nonce_seen_reads config_nonce_seen_reads : core.

Lemma validate_position_Ok self env chain block t r t' :
  ledger_ok self env chain → validate_position self env block t = Done (Ok r, t') →
  index block = len chain ∧ version block <= MAX_BLOCK_VERSION ∧
  (chain = [] → version block = 0 ∧ parent_id block = BlockID_default) ∧
  (∀ p, last chain = Some p →
     version (bd_block p) <= version block ∧ parent_id block = id (bd_block p)).
Proof.
  intros Hok. unfold validate_position.
  intros (n & En & E)%reads_inv; [|apply reads_ro].
  unfold in_ro in En. rewrite (num_blocks_ok _ _ _ Hok) in En. injection En as <-.
  destruct (N.eqb_spec (len chain) 0) as [E0|Hne].
  - assert (chain = []) as -> by (destruct chain; [done|rewrite len_cons in E0; lia]).
    destruct (N.eqb_spec (version block) 0) as [Hv|]; [|done]. simpl in E.
    destruct (N.eqb_spec (index block) 0) as [Hi|]; [|done]. simpl in E.
    destruct (bool_decide _) eqn:Hp; [done|]. apply bool_decide_eq_false, dec_stable in Hp.
    split_and!; [done|rewrite Hv; by vm_compute|done|by intros p].
  - destruct (last chain) as [d|] eqn:El; [|apply last_None in El; by subst].
    apply reads_inv in E as (p & Ep & E); [|apply reads_ro].
    unfold in_ro in Ep. rewrite (last_block_ok self env chain d) in Ep by done. injection Ep as <-.
    destruct (_ || _) eqn:Hv; [done|]. apply orb_false_iff in Hv as [Hv1%N.ltb_ge Hv2%N.ltb_ge].
    destruct (N.eqb_spec (index block) (len chain)) as [Hi|]; [|done]. simpl in E.
    destruct (bool_decide _) eqn:Hp; [done|]. apply bool_decide_eq_false, dec_stable in Hp.
    split_and!; [done|done|intros ->; done|]. by intros p [= <-].
Qed.

Lemma validate_shape_Ok block contents :
  validate_shape block contents = Ok tt →
  (outputs contents ≠ [] ∨ validated_mint_config_txs contents ≠ []) ∧
  len (mint_txs contents) <= len (outputs contents) ∧
  (index block ≠ 0 → key_images contents ≠ [] ∨ validated_mint_config_txs contents ≠ [] ∨
     mint_txs contents ≠ []) ∧
  contents_hash block = contents_digest contents ∧
  (∀ o, o ∈ outputs contents → masked_amount o ≠ None).
Proof.
  unfold validate_shape. rewrite !ValidationProps.if_Err_Ok.
  intros (H1 & H2 & H3 & H4 & H5 & _).
  apply N.ltb_ge in H2. apply bool_decide_eq_false, dec_stable in H4.
  apply andb_false_iff in H1. rewrite !andb_false_iff, negb_false_iff, N.eqb_eq in H3.
  rewrite !bool_decide_eq_false in H1, H3. split_and!; [done|done| |done|].
  { intros Hne. destruct H3 as [[?|?]|[?|?%bool_decide_eq_false]]; auto; done. }
  intros o Ho Hm. apply not_true_iff_false in H5. apply H5, existsb_exists. exists o.
  rewrite <-list_elem_of_In. split; [done|]. unfold get_masked_amount. by rewrite Hm.
Qed.

Lemma validate_append_block_Ok self env chain d r t' :
  ledger_ok self env chain →
  validate_append_block self env (bd_block d) (bd_contents d) (bd_metadata d) env = Done (Ok r, t') →
  t' = env ∧ valid_next chain d ∧
  (∀ k, k ∈ d_images d → db_get env (ldb_key_images self) (vec_to_list k) = Err LmdbNotFound).
Proof.
  intros Hok. unfold validate_append_block. intros (u1 & E1 & E)%reads_inv;
    [|unfold validate_position; reads].
  destruct (validate_position_Ok _ _ _ _ _ _ _ Hok E1) as (Hi & Hv & Ho & Hp).
  apply reads_inv in E as (u2 & E2 & E); [|reads]. injection E2 as E2. destruct u2.
  destruct (validate_shape_Ok _ _ E2) as (S1 & S2 & S3 & S4 & S5).
  apply reads_inv in E as (u3 & E3 & E); [|auto].
  apply refuse_Ok in E3 as [_ H3]; [|auto].
  apply reads_inv in E as (u4 & _ & E); [|auto].
  destruct (is_block_id_valid (bd_block d)) eqn:Hid; [|done]. simpl in E.
  apply reads_inv in E as (u5 & _ & E); [|auto]. apply reads_inv in E as (u6 & _ & E); [|auto].
  apply reads_inv in E as (bv & Ebv & E); [|reads]. injection Ebv as Ebv.
  unfold BlockVersion_try_from in Ebv. destruct (version (bd_block d) <=? VERSION_MAX); [|done].
  injection Ebv as <-.
  destruct (require_block_metadata _ && _) eqn:Hm; [done|]. injection E as _ <-.
  split_and!; [done| |intros k Hk; by apply contains_key_image_false, H3].
  constructor; try done.
  - intros Hne. apply S3. rewrite Hi. destruct chain; [done|]. rewrite len_cons. lia.
  - intros H3v. unfold require_block_metadata, VERSION_THREE in Hm.
    rewrite (proj2 (N.leb_le _ _) H3v) in Hm. by apply bool_decide_eq_false in Hm.
Qed.

(** ** Writing *)

(** A write that must not overwrite keeps every entry. *)
Lemma put_keeps t db k v t' k' w :
  db_put t db k v NO_OVERWRITE = (Ok tt, t') → db_get t db k' = Ok w → db_get t' db k' = Ok w.
Proof.
  intros Hp Hw. destruct (decide (k' = k)) as [->|Hne].
  - by rewrite (put_no_overwrite _ _ _ _ _ Hw) in Hp.
  - rewrite (get_put_other _ _ _ _ _ _ _ _ Hp); [done|congruence].
Qed.

Lemma key_images_loop self env i l : ∀ t r t',
  dfor (write_key_image self env i) l t = Done (Ok r, t') →
  (∀ k, k ∈ l → db_get t' (ldb_key_images self) (vec_to_list k) = Ok (le_bytes 8 i)) ∧
  (∀ k : KeyImage, k ∉ l → db_get t' (ldb_key_images self) (vec_to_list k) =
     db_get t (ldb_key_images self) (vec_to_list k)).
Proof.
  induction l as [|k l IH]; intros t r t'; simpl.
  { intros [= <- <-]. split; [by intros k ?%elem_of_nil|done]. }
  intros (u & t1 & E1 & E2)%dbind_inv. apply reads_inv in E1 as (b & _ & E1); [|apply reads_ro].
  destruct b; [done|]. apply put_inv in E1. destruct (IH _ _ _ E2) as [Hin Hout].
  assert (∀ k' : KeyImage, k' ≠ k → db_get t1 (ldb_key_images self) (vec_to_list k') =
    db_get t (ldb_key_images self) (vec_to_list k')) as Hother.
  { intros k' Hne. rewrite (get_put_other _ _ _ _ _ _ _ _ E1); [done|].
    intros [_ E]%pair_eq. by apply Hne, vec_to_list_inj2. }
  split.
  - intros k' Hk'. destruct (decide (k' ∈ l)) as [|Hn]; [by apply Hin|].
    apply elem_of_cons in Hk' as [->|]; [|done]. rewrite Hout by done. by eapply get_put_same.
  - intros k' Hk'. apply not_elem_of_cons in Hk' as [Hne Hn]. by rewrite Hout, Hother.
Qed.

Lemma write_key_images_touches self env i l :
  touches (T:=T) [ldb_key_images self; key_images_by_block self] (write_key_images self env i l).
Proof. unfold write_key_images, write_key_image. frame. Qed.

Lemma write_key_images_sound self env i l t r t' :
  ledger_wf self → write_key_images self env i l t = Done (Ok r, t') →
  (∀ k, k ∈ l → db_get t' (ldb_key_images self) (vec_to_list k) = Ok (le_bytes 8 i)) ∧
  (∀ k : KeyImage, k ∉ l → db_get t' (ldb_key_images self) (vec_to_list k) =
     db_get t (ldb_key_images self) (vec_to_list k)) ∧
  db_get t' (key_images_by_block self) (u64_to_key_bytes i) = Ok (encode_key_images l) ∧
  (∀ k, k ≠ u64_to_key_bytes i →
     db_get t' (key_images_by_block self) k = db_get t (key_images_by_block self) k).
Proof.
  intros Hwf (u & t1 & E1 & E2%put_inv)%dbind_inv.
  destruct (key_images_loop _ _ _ _ _ _ _ E1) as [Hin Hout].
  assert (same_db (ldb_key_images self) t1 t') as Hs by (eapply put_same_db; [done|db_ne]).
  assert (touches (T:=T) [ldb_key_images self] (dfor (write_key_image self env i) l)) as Hf
    by (unfold write_key_image; frame).
  split_and!.
  - intros k Hk. rewrite Hs. by apply Hin.
  - intros k Hk. rewrite Hs. by apply Hout.
  - by eapply get_put_same.
  - intros k Hk. rewrite (get_put_other _ _ _ _ _ _ _ _ E2) by congruence.
    apply (Hf _ _ _ E1). db_notin.
Qed.

Lemma store_ok_same st t t' txs :
  (∀ db, db ∈ store_dbs st → same_db db t t') → store_ok st t txs → store_ok st t' txs.
Proof.
  intros Hs [Hcap [Hc Hi Hh Hk] Hm]. unfold store_dbs in Hs. split; [done|split|].
  - by rewrite Hs by in_dbs.
  - intros i Hi64. rewrite Hs by in_dbs. auto.
  - eapply indexed_same; [apply Hs; in_dbs|done].
  - eapply indexed_same; [apply Hs; in_dbs|done].
  - eapply merkle_stored_same; [apply Hs; in_dbs|done].
Qed.

Section room.
Context `{!TransactionRoom T}.

Lemma push_sound st t txs o i t' :
  store_wf st → store_ok st t txs → len txs + 1 <= 2 ^ 63 → push st o t = Done (Ok i, t') →
  i = len txs ∧ store_ok st t' (txs ++ [o]) ∧
  ∀ o', o' ∈ txs → tx_out_hash o' ≠ tx_out_hash o ∧ public_key o' ≠ public_key o.
Proof.
  intros Hwf Hok Hcap E.
  destruct (decide (Exists (λ o', tx_out_hash o' = tx_out_hash o ∨ public_key o' = public_key o) txs))
    as [(o' & Hin & Hdup)%Exists_exists|Hn].
  - destruct (StoreProps.push_duplicate st t txs o o') as (t2 & E2); [done..|congruence].
  - assert (∀ o', o' ∈ txs → tx_out_hash o' ≠ tx_out_hash o ∧ public_key o' ≠ public_key o) as Hf.
    { intros o' Ho'. rewrite Exists_exists in Hn. split; intros Heq; apply Hn; eauto. }
    destruct (push_ok st t txs o) as (t2 & E2 & Hok2); [done..|].
    rewrite E in E2. injection E2 as -> ->. done.
Qed.

Lemma tx_outs_loop self env b outs : ∀ t txs r t',
  ledger_wf self → store_ok (tx_out_store self) t txs → len txs + len outs <= 2 ^ 63 →
  dfor (write_tx_out self env b) outs t = Done (Ok r, t') →
  store_ok (tx_out_store self) t' (txs ++ outs) ∧
  (∀ j, j < len outs →
     db_get t' (block_number_by_tx_out_index self) (u64_to_key_bytes (len txs + j)) = Ok b) ∧
  (∀ k w, db_get t (block_number_by_tx_out_index self) k = Ok w →
     db_get t' (block_number_by_tx_out_index self) k = Ok w) ∧
  (∀ k, (∀ j, j < len outs → u64_to_key_bytes (len txs + j) ≠ k) →
     db_get t' (block_number_by_tx_out_index self) k = db_get t (block_number_by_tx_out_index self) k).
Proof.
  induction outs as [|o outs IH]; intros t txs r t' Hwf Hok Hcap; simpl.
  { intros [= <- <-]. rewrite app_nil_r. split_and!; [done| |done|done].
    intros j Hj. rewrite len_nil in Hj. lia. }
  rewrite len_cons in Hcap |- *. intros (u & t1 & E1 & E2)%dbind_inv.
  apply reads_inv in E1 as (c & _ & E1); [|apply reads_ro]. destruct c; [done|].
  apply dbind_inv in E1 as (i & t2 & Ep & Eput%put_inv).
  destruct (push_sound _ _ _ _ _ _ (ledger_wf_store _ Hwf) Hok ltac:(lia) Ep) as (-> & Hok2 & _).
  assert (store_ok (tx_out_store self) t1 (txs ++ [o])) as Hok1.
  { eapply store_ok_same; [|exact Hok2]. intros db Hdb. eapply put_same_db; [exact Eput|].
    intros ->. revert Hdb. change (block_number_by_tx_out_index self ∉ store_dbs (tx_out_store self)).
    db_notin. }
  destruct (IH t1 (txs ++ [o]) r t' Hwf Hok1) as (Hok' & Hnew & Hold & Hother);
    [rewrite len_snoc; lia|done|].
  rewrite <-app_assoc in Hok'. split_and!; [done| | |].
  - intros j Hj. destruct (decide (j = 0)) as [->|Hj0].
    + apply Hold. rewrite N.add_0_r. by eapply get_put_same.
    + specialize (Hnew (j - 1)). rewrite len_snoc in Hnew.
      replace (len txs + 1 + (j - 1)) with (len txs + j) in Hnew by lia. apply Hnew. lia.
  - intros k w Hw. apply Hold. eapply put_keeps; [exact Eput|].
    rewrite (push_touches _ _ _ _ _ Ep); [done|db_notin].
  - intros k Hk. rewrite Hother.
    + rewrite (get_put_other _ _ _ _ _ _ _ _ Eput); [apply (push_touches _ _ _ _ _ Ep); db_notin|].
      intros [_ E]%pair_eq. apply (Hk 0); [lia|]. by rewrite N.add_0_r.
    + intros j Hj. rewrite len_snoc, <-N.add_assoc. apply Hk. lia.
Qed.

Definition tx_outs_dbs self : list N :=
  tx_outs_by_block self :: block_number_by_tx_out_index self :: store_dbs (tx_out_store self).

Lemma write_tx_outs_touches self env i outs :
  touches (T:=T) (tx_outs_dbs self) (write_tx_outs self env i outs).
Proof.
  unfold write_tx_outs, write_tx_out, num_tx_outs, tx_outs_dbs. frame.
  eapply touches_weaken; [apply push_touches|]. intros db Hdb. by do 2 right.
Qed.

Lemma write_tx_outs_sound self env i outs t txs r t' :
  ledger_wf self → store_ok (tx_out_store self) t txs → len txs + len outs <= 2 ^ 63 →
  write_tx_outs self env i outs t = Done (Ok r, t') →
  store_ok (tx_out_store self) t' (txs ++ outs) ∧
  db_get t' (tx_outs_by_block self) (u64_to_key_bytes i) =
    Ok (encode_tx_outs_value (mkTxOutsByBlockValue (len txs) (len outs))) ∧
  (∀ k, k ≠ u64_to_key_bytes i →
     db_get t' (tx_outs_by_block self) k = db_get t (tx_outs_by_block self) k) ∧
  (∀ j, j < len outs →
     db_get t' (block_number_by_tx_out_index self) (u64_to_key_bytes (len txs + j)) =
     Ok (u64_to_key_bytes i)) ∧
  (∀ k w, db_get t (block_number_by_tx_out_index self) k = Ok w →
     db_get t' (block_number_by_tx_out_index self) k = Ok w) ∧
  (∀ k, (∀ j, j < len outs → u64_to_key_bytes (len txs + j) ≠ k) →
     db_get t' (block_number_by_tx_out_index self) k = db_get t (block_number_by_tx_out_index self) k).
Proof.
  intros Hwf Hok Hcap. unfold write_tx_outs.
  dstep (num_tx_outs_ok (tx_out_store self) t (len txs) ltac:(lia) (so_count _ _ _ (so_entries _ _ _ Hok))).
  intros (u & t1 & E1%put_inv & E2)%dbind_inv.
  assert (∀ db, db ≠ tx_outs_by_block self → same_db db t t1) as Hs by (intros; by eapply put_same_db).
  assert (same_db (tx_outs_by_block self) t1 t') as Hs2.
  { assert (touches (T:=T) (block_number_by_tx_out_index self :: store_dbs (tx_out_store self))
      (dfor (write_tx_out self env (u64_to_key_bytes i)) outs)) as Hf.
    { unfold write_tx_out. frame.
      eapply touches_weaken; [apply push_touches|]. intros db Hdb. by right. }
    apply (Hf _ _ _ E2). db_notin. }
  destruct (tx_outs_loop self env (u64_to_key_bytes i) outs t1 txs r t' Hwf)
    as (Hok' & Hnew & Hold & Hother); [|done|done|].
  { eapply store_ok_same; [|exact Hok]. intros db Hdb. apply Hs. intros ->. revert Hdb.
    change (tx_outs_by_block self ∉ store_dbs (tx_out_store self)). db_notin. }
  split_and!; [done| | |done| |].
  - rewrite Hs2. by eapply get_put_same.
  - intros k Hk. rewrite Hs2. rewrite (get_put_other _ _ _ _ _ _ _ _ E1); [done|congruence].
  - intros k w Hw. apply Hold. rewrite Hs; [done|db_ne].
  - intros k Hk. rewrite Hother by done. apply Hs. db_ne.
Qed.

(** A database of entries by block, of which one is written. *)
Definition put_one t t' db k (v : option bytes) : Prop :=
  (match v with Some v => db_get t' db k = Ok v | None => db_get t' db k = db_get t db k end) ∧
  ∀ k', k' ≠ k → db_get t' db k' = db_get t db k'.

Lemma put_one_put t db k v f t' : db_put t db k v f = (Ok tt, t') → put_one t t' db k (Some v).
Proof.
  intros Hp. split; [by eapply get_put_same|]. intros k' Hne.
  rewrite (get_put_other _ _ _ _ _ _ _ _ Hp); [done|congruence].
Qed.

Lemma put_one_same_l t1 t t' db k v : same_db db t1 t → put_one t t' db k v → put_one t1 t' db k v.
Proof.
  intros Hs [Hk Hother]. split; [destruct v; [done|by rewrite Hk]|]. intros k' Hne. by rewrite Hother.
Qed.

Lemma put_one_same_r t t' t2 db k v : put_one t t' db k v → same_db db t' t2 → put_one t t2 db k v.
Proof.
  intros [Hk Hother] Hs. split; [destruct v; by rewrite Hs|]. intros k' Hne. by rewrite Hs, Hother.
Qed.

Lemma put_one_opt t db k (o : option bytes) r t' :
  (match o with Some v => put db k v FlagsEmpty | None => dret tt end) t = Done (Ok r, t') →
  put_one t t' db k o ∧ ∀ db', db' ≠ db → same_db db' t t'.
Proof.
  destruct o as [v|].
  - intros E%put_inv. split; [by eapply put_one_put|]. intros. by eapply put_same_db.
  - intros [= _ <-]. done.
Qed.

(** A step that records [b] under a key that was free. *)
Definition adds_key {A} (f : A → dbm T unit) db (key : A → bytes) (b : bytes) : Prop :=
  ∀ x t r t', f x t = Done (Ok r, t') →
    (∀ w, db_get t db (key x) ≠ Ok w) ∧ put_one t t' db (key x) (Some b).

Lemma adds_key_loop {A} (f : A → dbm T unit) db key b l : ∀ t r t',
  adds_key f db key b → dfor f l t = Done (Ok r, t') →
  (∀ x, x ∈ l → db_get t' db (key x) = Ok b) ∧
  (∀ k w, db_get t db k = Ok w → db_get t' db k = Ok w) ∧
  (∀ k, k ∉ key <$> l → db_get t' db k = db_get t db k).
Proof.
  intros t r t' Hf. revert t r t'. induction l as [|x l IH]; intros t r t'; simpl.
  { intros [= <- <-]. split_and!; [by intros x ?%elem_of_nil|done|done]. }
  intros (u & t1 & E1 & E2)%dbind_inv. destruct (Hf _ _ _ _ E1) as [Hfree [Hx Hother]].
  destruct (IH _ _ _ E2) as (H1 & H2 & H3).
  assert (∀ k w, db_get t db k = Ok w → db_get t1 db k = Ok w) as Hkeep.
  { intros k w Hw. rewrite Hother; [done|]. intros ->. by apply Hfree in Hw. }
  split_and!.
  - intros y [->|Hy]%elem_of_cons; [by apply H2|by apply H1].
  - intros k w Hw. by apply H2, Hkeep.
  - intros k Hk. apply not_elem_of_cons in Hk as [Hne Hk]. rewrite H3 by done. by apply Hother.
Qed.

Lemma put_no_overwrite_free t db k v t' :
  db_put t db k v NO_OVERWRITE = (Ok tt, t') → ∀ w, db_get t db k ≠ Ok w.
Proof. intros Hp w Hw. by rewrite (put_no_overwrite _ _ _ _ _ Hw) in Hp. Qed.

Lemma mint_adds_key self b :
  ledger_wf self →
  adds_key (write_mint_tx (mint_tx_store self) (mint_config_store self) b)
    (block_index_by_mint_tx_nonce_and_token_id (mint_tx_store self)) mint_key b.
Proof.
  intros Hwf tx t r t' E. unfold write_mint_tx in E.
  apply reads_inv in E as (c & _ & E);
    [|unfold get_active_mint_config_for_mint_tx, get_active_mint_configs; reads].
  apply reads_inv in E as (n & _ & E); [|reads].
  apply dbind_inv in E as (u & t1 & E1 & E2%put_inv).
  assert (same_db (block_index_by_mint_tx_nonce_and_token_id (mint_tx_store self)) t t1) as Hs.
  { assert (touches (T:=T) [active_mint_configs_by_token_id (mint_config_store self)]
      (update_total_minted (mint_config_store self) (amc_mint_config c) n)) as Hf
      by (unfold update_total_minted, get_active_mint_configs; frame).
    apply (Hf _ _ _ E1). db_notin. }
  split; [|eapply put_one_same_l; [exact Hs|by eapply put_one_put]].
  intros w. rewrite <-Hs. by eapply put_no_overwrite_free.
Qed.

Lemma config_adds_key self b :
  ledger_wf self →
  adds_key (write_mint_config_tx (mint_config_store self) b)
    (block_index_by_mint_config_tx_nonce_and_token_id (mint_config_store self)) config_key b.
Proof.
  intros Hwf v t r t' E. unfold write_mint_config_tx in E.
  apply reads_inv in E as (c & _ & E); [|reads].
  apply dbind_inv in E as (u & t1 & E1%put_inv & E2%put_inv).
  split; [by eapply put_no_overwrite_free|].
  eapply put_one_same_r; [by eapply put_one_put|]. eapply put_same_db; [exact E2|db_ne].
Qed.

Lemma write_block_sound self block sig meta t n r t' :
  ledger_wf self → db_get t (ldb_counts self) NUM_BLOCKS_KEY = Ok (u64_to_key_bytes n) →
  n + 1 < u64_modulus → write_block self block sig meta t = Done (Ok r, t') →
  db_get t' (ldb_counts self) NUM_BLOCKS_KEY = Ok (u64_to_key_bytes (n + 1)) ∧
  put_one t t' (blocks self) (u64_to_key_bytes (index block)) (Some (encode_block block)) ∧
  put_one t t' (block_signatures self) (u64_to_key_bytes (index block)) (encode_signature <$> sig) ∧
  put_one t t' (block_metadata self) (u64_to_key_bytes (index block)) (encode_metadata <$> meta) ∧
  ∀ db, db ∉ [ldb_counts self; blocks self; block_signatures self; block_metadata self] →
    same_db db t t'.
Proof.
  intros Hwf Hn Hlt. unfold write_block. dstep (get_Ok _ _ _ _ Hn).
  rewrite key_round_trip by (change (2 ^ 64) with u64_modulus; lia).
  intros (n' & t0 & [= <- <-] & E)%dbind_inv. rewrite u64_add_small in E by lia.
  apply dbind_inv in E as (u1 & t1 & E1%put_inv & E).
  apply dbind_inv in E as (u2 & t2 & E2%put_inv & E).
  apply dbind_inv in E as (u3 & t3 & E3 & E4).
  assert (put_one t2 t3 (block_signatures self) (u64_to_key_bytes (index block)) (encode_signature <$> sig)
    ∧ ∀ db', db' ≠ block_signatures self → same_db db' t2 t3) as [P3 S3].
  { apply (put_one_opt _ _ _ _ u3). by destruct sig. }
  assert (put_one t3 t' (block_metadata self) (u64_to_key_bytes (index block)) (encode_metadata <$> meta)
    ∧ ∀ db', db' ≠ block_metadata self → same_db db' t3 t') as [P4 S4].
  { apply (put_one_opt _ _ _ _ r). by destruct meta. }
  pose proof (λ db, put_same_db _ _ _ _ _ _ db E1) as S1.
  pose proof (λ db, put_same_db _ _ _ _ _ _ db E2) as S2.
  split_and!.
  - rewrite S4, S3, S2 by db_ne. by eapply get_put_same.
  - eapply put_one_same_l; [apply S1; db_ne|]. eapply put_one_same_r; [by eapply put_one_put|].
    eapply same_db_trans; [apply S3; db_ne|apply S4; db_ne].
  - eapply put_one_same_l; [eapply same_db_trans; [apply S1; db_ne|apply S2; db_ne]|].
    eapply put_one_same_r; [exact P3|apply S4; db_ne].
  - eapply put_one_same_l; [|exact P4]. eapply same_db_trans; [apply S1; db_ne|].
    eapply same_db_trans; [apply S2; db_ne|apply S3; db_ne].
  - intros db Hdb. rewrite !not_elem_of_cons in Hdb. destruct Hdb as (N1 & N2 & N3 & N4 & _).
    eapply same_db_trans; [by apply S1|]. eapply same_db_trans; [by apply S2|].
    eapply same_db_trans; [by apply S3|by apply S4].
Qed.

(** A database of nonces to which the keys of a list are added. *)
Definition keys_added {A} t t' db (key : A → bytes) (l : list A) (b : bytes) : Prop :=
  (∀ x, x ∈ l → db_get t' db (key x) = Ok b) ∧
  (∀ k w, db_get t db k = Ok w → db_get t' db k = Ok w) ∧
  (∀ k, k ∉ key <$> l → db_get t' db k = db_get t db k).

Lemma keys_added_same {A} t0 t t' t2 db (key : A → bytes) l b :
  keys_added t t' db key l b → same_db db t0 t → same_db db t' t2 → keys_added t0 t2 db key l b.
Proof.
  intros (H1 & H2 & H3) S1 S2. split_and!.
  - intros x Hx. rewrite S2. by apply H1.
  - intros k w Hw. rewrite S2. apply H2. by rewrite S1.
  - intros k Hk. by rewrite S2, H3, S1.
Qed.

Lemma mint_stage self i txs t m r t' :
  ledger_wf self → active_view (mint_config_store self) t m → map_ok m →
  Forall (λ tx, mint_token_id (mint_prefix tx) < u64_modulus) txs →
  write_mint_txs (mint_tx_store self) i txs (mint_config_store self) t = Done (Ok r, t') →
  (∃ m', steps mint_step m txs m' ∧ active_view (mint_config_store self) t' m' ∧ map_ok m') ∧
  put_one t t' (mint_txs_by_block (mint_tx_store self)) (u64_to_key_bytes i)
    (Some (encode_mint_txs txs)) ∧
  keys_added t t' (block_index_by_mint_tx_nonce_and_token_id (mint_tx_store self)) mint_key txs
    (u64_to_key_bytes i) ∧
  ∀ db, db ∉ [mint_txs_by_block (mint_tx_store self);
              active_mint_configs_by_token_id (mint_config_store self);
              block_index_by_mint_tx_nonce_and_token_id (mint_tx_store self)] → same_db db t t'.
Proof.
  intros Hwf Hv Hok Htok (u & t1 & E1%put_inv & E2)%dbind_inv.
  pose proof (λ db, put_same_db _ _ _ _ _ _ db E1) as S1.
  destruct (write_loop_sound (mint_tx_store self) (mint_config_store self) (u64_to_key_bytes i) txs
    t1 m t' r) as (m' & Hsteps & Hv' & _); [db_ne| |done..|].
  { eapply active_view_same; [apply S1; db_ne|done]. }
  assert (touches (T:=T) [active_mint_configs_by_token_id (mint_config_store self);
    block_index_by_mint_tx_nonce_and_token_id (mint_tx_store self)]
    (dfor (write_mint_tx (mint_tx_store self) (mint_config_store self) (u64_to_key_bytes i)) txs)) as Hf
    by (apply touches_for; intros; apply write_mint_tx_touches).
  split_and!.
  - exists m'. split_and!; [done|done|by eapply map_ok_steps].
  - eapply put_one_same_r; [by eapply put_one_put|]. apply (Hf _ _ _ E2). db_notin.
  - eapply keys_added_same; [by eapply adds_key_loop; [apply mint_adds_key|]|apply S1; db_ne|by intros ?].
  - intros db [N1 N2]%not_elem_of_cons. eapply same_db_trans; [by apply S1|]. by apply (Hf _ _ _ E2).
Qed.

Lemma config_stage self i txs t m r t' :
  ledger_wf self → active_view (mint_config_store self) t m → map_ok m →
  Forall (λ v, mct_token_id (mct_prefix (mint_config_tx v)) < u64_modulus) txs →
  Forall (λ v, config_tx_ok (mint_config_tx v)) txs →
  write_validated_mint_config_txs (mint_config_store self) i txs t = Done (Ok r, t') →
  active_view (mint_config_store self) t' (foldl config_step m txs) ∧
  map_ok (foldl config_step m txs) ∧
  put_one t t' (validated_mint_config_txs_by_block (mint_config_store self)) (u64_to_key_bytes i)
    (Some (encode_config_txs txs)) ∧
  keys_added t t' (block_index_by_mint_config_tx_nonce_and_token_id (mint_config_store self))
    config_key txs (u64_to_key_bytes i) ∧
  ∀ db, db ∉ [validated_mint_config_txs_by_block (mint_config_store self);
              active_mint_configs_by_token_id (mint_config_store self);
              block_index_by_mint_config_tx_nonce_and_token_id (mint_config_store self)] →
    same_db db t t'.
Proof.
  intros Hwf Hv Hok Htok Hcfg (u & t1 & E1%put_inv & E2)%dbind_inv.
  pose proof (λ db, put_same_db _ _ _ _ _ _ db E1) as S1.
  destruct (config_loop_sound (mint_config_store self) (u64_to_key_bytes i) txs t1 m t' r)
    as [Hv' Hc]; [db_ne| |done..|].
  { eapply active_view_same; [apply S1; db_ne|done]. }
  assert (touches (T:=T) [active_mint_configs_by_token_id (mint_config_store self);
    block_index_by_mint_config_tx_nonce_and_token_id (mint_config_store self)]
    (dfor (write_mint_config_tx (mint_config_store self) (u64_to_key_bytes i)) txs)) as Hf
    by (apply touches_for; intros; apply write_mint_config_tx_touches).
  split_and!; [done|by apply map_ok_config| | |].
  - eapply put_one_same_r; [by eapply put_one_put|]. apply (Hf _ _ _ E2). db_notin.
  - eapply keys_added_same; [by eapply adds_key_loop; [apply config_adds_key|]|apply S1; db_ne|by intros ?].
  - intros db [N1 N2]%not_elem_of_cons. eapply same_db_trans; [by apply S1|]. by apply (Hf _ _ _ E2).
Qed.

(** ** Appending *)

(** What one [append_block] does to the databases. *)
Record appended self t t' (txs : list TxOut) d : Prop := {
  ad_block : put_one t t' (blocks self) (u64_to_key_bytes (index (bd_block d)))
    (Some (encode_block (bd_block d)));
  ad_sig : put_one t t' (block_signatures self) (u64_to_key_bytes (index (bd_block d)))
    (encode_signature <$> bd_signature d);
  ad_meta : put_one t t' (block_metadata self) (u64_to_key_bytes (index (bd_block d)))
    (encode_metadata <$> bd_metadata d);
  ad_images : put_one t t' (key_images_by_block self) (u64_to_key_bytes (index (bd_block d)))
    (Some (encode_key_images (d_images d)));
  ad_outs : put_one t t' (tx_outs_by_block self) (u64_to_key_bytes (index (bd_block d)))
    (Some (encode_tx_outs_value (mkTxOutsByBlockValue (len txs) (len (d_outputs d)))));
  ad_mints : put_one t t' (mint_txs_by_block (mint_tx_store self))
    (u64_to_key_bytes (index (bd_block d))) (Some (encode_mint_txs (d_mints d)));
  ad_configs : put_one t t' (validated_mint_config_txs_by_block (mint_config_store self))
    (u64_to_key_bytes (index (bd_block d))) (Some (encode_config_txs (d_configs d)));
  ad_numbers : ∀ j, j < len (d_outputs d) →
    db_get t' (block_number_by_tx_out_index self) (u64_to_key_bytes (len txs + j)) =
    Ok (u64_to_key_bytes (index (bd_block d)));
  ad_numbers_old : ∀ k w, db_get t (block_number_by_tx_out_index self) k = Ok w →
    db_get t' (block_number_by_tx_out_index self) k = Ok w;
  ad_spent : ∀ k, k ∈ d_images d →
    db_get t' (ldb_key_images self) (vec_to_list k) = Ok (le_bytes 8 (index (bd_block d)));
  ad_spent_old : ∀ k : KeyImage, k ∉ d_images d →
    db_get t' (ldb_key_images self) (vec_to_list k) = db_get t (ldb_key_images self) (vec_to_list k);
  ad_numbers_other : ∀ k, (∀ j, j < len (d_outputs d) → u64_to_key_bytes (len txs + j) ≠ k) →
    db_get t' (block_number_by_tx_out_index self) k = db_get t (block_number_by_tx_out_index self) k;
  ad_nonces : keys_added t t' (block_index_by_mint_tx_nonce_and_token_id (mint_tx_store self))
    mint_key (d_mints d) (u64_to_key_bytes (index (bd_block d)));
  ad_config_nonces :
    keys_added t t' (block_index_by_mint_config_tx_nonce_and_token_id (mint_config_store self))
      config_key (d_configs d) (u64_to_key_bytes (index (bd_block d)));
  ad_store : store_ok (tx_out_store self) t' (txs ++ d_outputs d)
}.

Lemma append_block_appended self env chain d t' :
  ledger_wf self → ledger_ok self env chain → appendable chain d →
  append_block_txn self env (bd_block d) (bd_contents d) (bd_signature d) (bd_metadata d) env
    = Done (Ok tt, t') →
  valid_next chain d ∧
  (∀ k, k ∈ d_images d → db_get env (ldb_key_images self) (vec_to_list k) = Err LmdbNotFound) ∧
  appended self env t' (chain_outputs chain) d ∧
  db_get t' (ldb_counts self) NUM_BLOCKS_KEY = Ok (u64_to_key_bytes (len chain + 1)) ∧
  ∃ m, chain_active (chain ++ [d]) m ∧ active_view (mint_config_store self) t' m ∧ map_ok m.
Proof.
  intros Hwf Hok [Hlen Hcap Hmt Hct Hcfg] (u0 & t0 & E0 & E)%dbind_inv.
  destruct (validate_append_block_Ok _ _ _ _ _ _ Hok E0) as (-> & Hnext & Hunspent).
  apply dbind_inv in E as (u1 & t1 & E1 & E).
  destruct (write_key_images_sound _ _ _ _ _ _ _ Hwf E1) as (K1 & K2 & K3 & K4).
  pose proof (write_key_images_touches _ _ _ _ _ _ _ E1) as F1.
  apply dbind_inv in E as (u2 & t2 & E2 & E).
  destruct (write_tx_outs_sound self env (index (bd_block d)) (d_outputs d) t1 (chain_outputs chain) u2 t2 Hwf)
    as (O1 & O2 & O3 & O4 & O5 & O6); [|done|done|].
  { eapply store_ok_same; [|apply (lo_store _ _ _ Hok)]. intros db Hdb. apply F1.
    unfold store_dbs in Hdb. rewrite !elem_of_cons, elem_of_nil in Hdb.
    destruct Hdb as [->|[->|[->|[->|[->|[]]]]]]; db_notin. }
  pose proof (write_tx_outs_touches _ _ _ _ _ _ _ E2) as F2. unfold tx_outs_dbs in F2.
  apply dbind_inv in E as (u3 & t3 & E3 & E).
  destruct (lo_active _ _ _ Hok) as (m0 & Hca & Hv0 & Hm0).
  destruct (mint_stage self (index (bd_block d)) (d_mints d) t2 m0 u3 t3 Hwf) as ((m1 & M1 & M2 & M3) & M4 & M5 & F3); [|done..|].
  { eapply active_view_same; [|exact Hv0]. frames. }
  apply dbind_inv in E as (u4 & t4 & E4 & E5).
  destruct (config_stage self (index (bd_block d)) (d_configs d) t3 m1 u4 t4 Hwf M2 M3 Hct Hcfg E4) as (C1 & C2 & C3 & C4 & F4).
  destruct (write_block_sound self (bd_block d) (bd_signature d) (bd_metadata d) t4 (len chain) tt t' Hwf)
    as (B1 & B2 & B3 & B4 & F5); [|done|done|].
  { rewrite F4, F3, F2, F1 by db_notin. apply (lo_num _ _ _ Hok). }
  split_and!; [done|done| |done|].
  2:{ exists (foldl config_step m1 (d_configs d)). split_and!; [by econstructor| |done].
      eapply active_view_same; [|exact C1]. frames. }
  constructor.
  - eapply put_one_same_l; [|exact B2]. frames.
  - eapply put_one_same_l; [|exact B3]. frames.
  - eapply put_one_same_l; [|exact B4]. frames.
  - eapply (put_one_same_r _ t1); [by split|frames].
  - eapply (put_one_same_l _ t1); [frames|]. eapply (put_one_same_r _ t2); [by split|frames].
  - eapply (put_one_same_l _ t2); [frames|]. eapply (put_one_same_r _ t3); [done|frames].
  - eapply (put_one_same_l _ t3); [frames|]. eapply (put_one_same_r _ t4); [done|frames].
  - intros j Hj. assert (same_db (block_number_by_tx_out_index self) t2 t') as -> by frames. by apply O4.
  - intros k w Hw. assert (same_db (block_number_by_tx_out_index self) t2 t') as -> by frames.
    apply O5. assert (same_db (block_number_by_tx_out_index self) env t1) as -> by frames. done.
  - intros k Hk. assert (same_db (ldb_key_images self) t1 t') as -> by frames. by apply K1.
  - intros k Hk. assert (same_db (ldb_key_images self) t1 t') as -> by frames. by apply K2.
  - intros k Hk. assert (same_db (block_number_by_tx_out_index self) t2 t') as -> by frames.
    rewrite O6 by done. assert (same_db (block_number_by_tx_out_index self) env t1) as -> by frames. done.
  - eapply keys_added_same; [exact M5|frames..].
  - eapply keys_added_same; [exact C4|frames..].
  - eapply store_ok_same; [|exact O1]. intros db Hdb.
    unfold store_dbs in Hdb. rewrite !elem_of_cons, elem_of_nil in Hdb.
    destruct Hdb as [->|[->|[->|[->|[->|[]]]]]]; frames.
Qed.

(** The entries of an older block stay. *)
Lemma stored_old self t t' txs txs' i d' d :
  appended self t t' txs d → stored self t txs' i d' →
  i < u64_modulus → index (bd_block d) < u64_modulus → i ≠ index (bd_block d) →
  (∀ k, k ∈ d_images d → db_get t (ldb_key_images self) (vec_to_list k) = Err LmdbNotFound) →
  stored self t' txs' i d'.
Proof.
  intros Ha Hs Hi Hd Hne Hun.
  pose proof (key_eq_ne i (index (bd_block d)) Hi Hd Hne) as Hk.
  destruct Hs as [Sb Ss Sm Si So Smi Sc Sn Sk Sno Scn]. constructor.
  - rewrite (proj2 (ad_block _ _ _ _ _ Ha)) by done. exact Sb.
  - rewrite (proj2 (ad_sig _ _ _ _ _ Ha)) by done. exact Ss.
  - rewrite (proj2 (ad_meta _ _ _ _ _ Ha)) by done. exact Sm.
  - rewrite (proj2 (ad_images _ _ _ _ _ Ha)) by done. exact Si.
  - rewrite (proj2 (ad_outs _ _ _ _ _ Ha)) by done. exact So.
  - rewrite (proj2 (ad_mints _ _ _ _ _ Ha)) by done. exact Smi.
  - rewrite (proj2 (ad_configs _ _ _ _ _ Ha)) by done. exact Sc.
  - intros j Hj. by apply (ad_numbers_old _ _ _ _ _ Ha), Sn.
  - intros k Hin. rewrite (ad_spent_old _ _ _ _ _ Ha); [by apply Sk|].
    intros Hnew. pose proof (Sk k Hin) as E. rewrite (Hun k Hnew) in E. done.
  - intros tx Htx. by apply (ad_nonces _ _ _ _ _ Ha), Sno.
  - intros v Hv. by apply (ad_config_nonces _ _ _ _ _ Ha), Scn.
Qed.

Lemma stored_new self t t' txs d :
  appended self t t' txs d →
  db_get t (block_signatures self) (u64_to_key_bytes (index (bd_block d))) = Err LmdbNotFound →
  db_get t (block_metadata self) (u64_to_key_bytes (index (bd_block d))) = Err LmdbNotFound →
  stored self t' txs (index (bd_block d)) d.
Proof.
  intros Ha Hs Hm. constructor; try apply Ha.
  - pose proof (proj1 (ad_sig _ _ _ _ _ Ha)) as E. destruct (bd_signature d); simpl in E; congruence.
  - pose proof (proj1 (ad_meta _ _ _ _ _ Ha)) as E. destruct (bd_metadata d); simpl in E; congruence.
Qed.

Lemma append_block_ok self env chain d t' :
  ledger_wf self → ledger_ok self env chain → appendable chain d →
  append_block_data self d env = Done (Ok tt, t') → ledger_ok self t' (chain ++ [d]).
Proof.
  intros Hwf Hok Hap E. unfold append_block_data, append_block in E.
  destruct (append_block_txn _ _ _ _ _ _ _) as [[[[]|e] t1]| |] eqn:Et; [|done..].
  destruct (db_commit t1); [|done]. injection E as <-.
  destruct (append_block_appended _ _ _ _ _ Hwf Hok Hap Et) as (Hnext & Hun & Ha & Hnum & Hact).
  pose proof (vn_index _ _ Hnext) as Hi. destruct Hap as [Hlen Hcap _ _ _].
  assert (∀ i d', (chain ++ [d]) !! i = Some d' →
    take i (chain ++ [d]) = take i chain ∧ (chain !! i = Some d' ∨ N.of_nat i = len chain ∧ d' = d ∧
      take i chain = chain)) as Hsplit.
  { intros i d' Hd'. apply lookup_app_Some in Hd' as [Hd'|[Hge Hd']].
    - pose proof (lookup_lt_Some _ _ _ Hd'). rewrite take_app_le by lia. auto.
    - apply list_lookup_singleton_Some in Hd' as [Hi0 <-].
      rewrite take_app_le by lia. split; [done|right].
      split_and!; [unfold len; lia|done|apply take_ge; lia]. }
  constructor.
  - rewrite len_snoc. lia.
  - by rewrite len_snoc.
  - intros i d' Hd'. destruct (Hsplit i d' Hd') as [-> [Hold|(Hin & -> & ->)]].
    + pose proof (lookup_lt_Some _ _ _ Hold) as Hlt.
      assert (N.of_nat i < len chain) by (unfold len; lia).
      eapply stored_old; [exact Ha|by apply (lo_stored _ _ _ Hok)|lia..|done].
    + rewrite Hin, <-Hi. destruct (lo_free _ _ _ Hok (len chain)) as (Hf1 & Hf2 & _); [lia..|].
      apply (stored_new self env); [done|by rewrite Hi..].
  - rewrite len_snoc. intros i Hge Hlt. destruct (lo_free _ _ _ Hok i) as (Hf1 & Hf2 & Hf3 & Hf4); [lia..|].
    assert (u64_to_key_bytes i ≠ u64_to_key_bytes (index (bd_block d))) by (apply key_eq_ne; lia).
    rewrite (proj2 (ad_sig _ _ _ _ _ Ha)), (proj2 (ad_meta _ _ _ _ _ Ha)),
      (proj2 (ad_mints _ _ _ _ _ Ha)), (proj2 (ad_configs _ _ _ _ _ Ha)) by done. done.
  - rewrite chain_outputs_snoc, len_app. intros i Hge Hlt. rewrite (ad_numbers_other _ _ _ _ _ Ha).
    + apply (lo_numbers _ _ _ Hok); lia.
    + intros j Hj. apply key_eq_ne; lia.
  - intros k Hk. rewrite (proj2 (proj2 (ad_nonces _ _ _ _ _ Ha))).
    + apply (lo_nonces _ _ _ Hok). intros d' tx Hd'. apply Hk, elem_of_app. by left.
    + intros (tx & -> & Htx)%list_elem_of_fmap. apply (Hk d tx); [|done..]. apply elem_of_app. right. by left.
  - intros k Hk. rewrite (proj2 (proj2 (ad_config_nonces _ _ _ _ _ Ha))).
    + apply (lo_config_nonces _ _ _ Hok). intros d' v Hd'. apply Hk, elem_of_app. by left.
    + intros (v & -> & Hv)%list_elem_of_fmap. apply (Hk d v); [|done..]. apply elem_of_app. right. by left.
  - rewrite chain_outputs_snoc. apply (ad_store _ _ _ _ _ Ha).
  - intros k Hk. rewrite (ad_spent_old _ _ _ _ _ Ha).
    + apply (lo_unspent _ _ _ Hok). intros d' Hd'. apply Hk. apply elem_of_app. by left.
    + apply Hk. apply elem_of_app. right. by left.
  - exact Hact.
  - intros i d' Hd'. destruct (Hsplit i d' Hd') as [-> [Hold|(_ & -> & ->)]]; [|done].
    by apply (lo_valid _ _ _ Hok).
Qed.
End room.

(** ** Reading back *)

Lemma get_tx_out_ok st t txs i o :
  store_ok st t txs → txs !! i = Some o →
  get_tx_out_by_index st (N.of_nat i) t = Done (Ok o, t).
Proof.
  intros [Hcap [_ Hidx _ _] _] Ho. pose proof (lookup_lt_Some _ _ _ Ho).
  unfold get_tx_out_by_index, dbind, get.
  rewrite Hidx, Nat2N.id, Ho by (unfold len in Hcap; lia). by rewrite decode_encode_tx_out.
Qed.

Lemma chain_outputs_split chain i d :
  chain !! i = Some d → ∃ rest,
  chain_outputs chain = chain_outputs (take i chain) ++ d_outputs d ++ rest.
Proof.
  intros Hd. exists (chain_outputs (drop (Datatypes.S i) chain)). unfold chain_outputs.
  rewrite <-(take_drop_middle chain i d Hd) at 1. by rewrite bind_app, bind_cons.
Qed.

Lemma get_outputs_ok st t txs1 outs rest :
  store_ok st t (txs1 ++ outs ++ rest) →
  dmap (get_tx_out_by_index st) (N_range (len txs1) (u64_add (len txs1) (len outs))) t =
  Done (Ok outs, t).
Proof.
  intros Hok. pose proof (so_cap _ _ _ Hok) as Hcap. unfold len in Hcap.
  rewrite !length_app in Hcap. apply dmap_Done. unfold N_range.
  rewrite u64_add_small by (unfold len, u64_modulus; lia).
  replace (N.to_nat (len txs1 + len outs - len txs1)) with (length outs) by (unfold len; lia).
  apply Forall2_fmap_l, Forall2_same_length_lookup. rewrite length_seq. split; [done|].
  intros j k o Hk Ho. apply lookup_seq in Hk as [-> Hj]. simpl.
  replace (len txs1 + N.of_nat j) with (N.of_nat (length txs1 + j)) by (unfold len; lia).
  apply (get_tx_out_ok st t (txs1 ++ outs ++ rest)); [done|].
  rewrite lookup_app_r by lia. replace (length txs1 + j - length txs1)%nat with j by lia.
  by rewrite lookup_app_l.
Qed.

Lemma get_block_contents_ok self t chain i d :
  ledger_ok self t chain → chain !! i = Some d →
  get_block_contents self (N.of_nat i) t = Done (Ok (bd_contents d), t).
Proof.
  intros Hok Hd. destruct (lo_stored _ _ _ Hok i d Hd) as [_ _ _ Si So Smi Sc _ _ _ _].
  unfold get_block_contents. dstep (get_Ok _ _ _ _ So). rewrite decode_encode_tx_outs_value.
  unfold decoded at 1. rewrite (dbind_Done _ _ t (mkTxOutsByBlockValue (len (chain_outputs (take i chain)))
    (len (d_outputs d))) t) by done. cbn [first_tx_out_index tbv_num_tx_outs].
  destruct (chain_outputs_split chain i d Hd) as [rest Hrest].
  pose proof (lo_store _ _ _ Hok) as Hst. rewrite Hrest in Hst.
  dstep (get_outputs_ok _ _ _ _ _ Hst). dstep (get_Ok _ _ _ _ Si). rewrite decode_encode_key_images.
  unfold decoded at 1. rewrite (dbind_Done _ _ t (d_images d) t) by done.
  unfold get_validated_mint_config_txs_by_block_index, get_mint_txs_by_block_index.
  unfold dbind at 1. dstep (get_Ok _ _ _ _ Sc). rewrite decode_encode_config_txs. cbn [decoded dret].
  unfold dbind at 1. dstep (get_Ok _ _ _ _ Smi). rewrite decode_encode_mint_txs. cbn [decoded dret].
  by destruct (bd_contents d).
Qed.

Lemma optional_get_ok {A} (m : dbm T A) t (o : option A) :
  m t = match o with Some a => Done (Ok a, t) | None => Done (Err NotFound, t) end →
  optional m t = Done (Ok o, t).
Proof. unfold optional. intros ->. by destruct o. Qed.

Lemma get_block_data_ok self t chain i d :
  ledger_ok self t chain → chain !! i = Some d →
  get_block_data self (N.of_nat i) t = Done (Ok d, t).
Proof.
  intros Hok Hd. destruct (lo_stored _ _ _ Hok i d Hd) as [_ Ss Sm _ _ _ _ _ _ _ _].
  unfold get_block_data. dstep (get_block_ok self t chain i d Hok Hd).
  dstep (get_block_contents_ok self t chain i d Hok Hd).
  assert (optional (get_block_signature self (N.of_nat i)) t = Done (Ok (bd_signature d), t)) as E1.
  { apply optional_get_ok. unfold get_block_signature, dbind, get. rewrite Ss.
    destruct (bd_signature d); [|done]. by rewrite decode_encode_signature. }
  assert (optional (get_block_metadata self (N.of_nat i)) t = Done (Ok (bd_metadata d), t)) as E2.
  { apply optional_get_ok. unfold get_block_metadata, dbind, get. rewrite Sm.
    destruct (bd_metadata d); [|done]. by rewrite decode_encode_metadata. }
  dstep E1. dstep E2. by destruct d.
Qed.

(** The block in which a key image was spent is the one the ledger reports. *)
Lemma check_key_image_ok self t chain i d k :
  ledger_ok self t chain → chain !! i = Some d → k ∈ d_images d →
  check_key_image self k t = Done (Ok (Some (N.of_nat i)), t).
Proof.
  intros Hok Hd Hk. pose proof (st_spent _ _ _ _ _ (lo_stored _ _ _ Hok i d Hd) k Hk) as E.
  pose proof (lookup_lt_Some _ _ _ Hd). pose proof (lo_len _ _ _ Hok) as Hlen.
  unfold check_key_image, try_get. unfold dbind at 1. rewrite E.
  rewrite bool_decide_true by apply length_le_bytes. simpl.
  rewrite le_value_bytes; [done|]. change (256 ^ N.of_nat 8) with u64_modulus. unfold len in Hlen. lia.
Qed.

Lemma check_key_image_unspent self t chain k :
  ledger_ok self t chain → (∀ d, d ∈ chain → k ∉ d_images d) →
  check_key_image self k t = Done (Ok None, t).
Proof.
  intros Hok Hk. unfold check_key_image, try_get, dbind. by rewrite (lo_unspent _ _ _ Hok k Hk).
Qed.
End props.

(** ** Theorems *)

Module LedgerProps.
Section props.
Context {T : Type} `{Transaction T} `{!TransactionLaws T} `{!TransactionRoom T} `{Commit T}.
Context `{D : Digests} `{C : TxOutCodec}.
Context `{V : Verifier Ed25519Public Ed25519Signature} `{DG : MintDigests} `{MC : MintCodec}.
Context {Sig Meta : Type} `{LC : LedgerCodec Sig Meta} `{BD : BlockDigests}.
Notation BlockData := (BlockData Sig Meta).
Implicit Types (self : LedgerDB) (t : T) (d : BlockData) (chain : list BlockData).

(** A database nothing has been written to. *)
Definition fresh t : Prop := ∀ db k, db_get t db k = Err LmdbNotFound.

(** The environments a ledger goes through: created, then blocks are appended;
    a call that fails leaves the chain as it is. *)
Inductive ledger_run self : T → list BlockData → Prop :=
| run_create t0 t : fresh t0 → ledger_create self t0 = Done (Ok tt, t) → ledger_run self t []
| run_append t chain d t' :
    ledger_run self t chain → appendable chain d →
    append_block_data self d t = Done (Ok tt, t') → ledger_run self t' (chain ++ [d])
| run_refused t chain d e t' :
    ledger_run self t chain → append_block_data self d t = Done (Err e, t') →
    ledger_run self t' chain.

Lemma create_ok self t0 t :
  ledger_wf self → fresh t0 → ledger_create self t0 = Done (Ok tt, t) → ledger_ok self t [].
Proof.
  intros Hwf Hf (u & t1 & E1%put_inv & E2%put_inv)%dbind_inv.
  assert (∀ db, db ≠ ldb_counts self → db ≠ counts (tx_out_store self) →
    ∀ k, db_get t db k = Err LmdbNotFound) as Hnone.
  { intros db N1 N2 k. rewrite (put_same_db _ _ _ _ _ _ _ E2 N1).
    rewrite (put_same_db _ _ _ _ _ _ _ E1 N2). apply Hf. }
  assert (∀ d i, ([] : list BlockData) !! i = Some d → False) as Hnil by (intros d i; by rewrite lookup_nil).
  constructor.
  - done.
  - by eapply get_put_same.
  - intros i d Hd. by apply Hnil in Hd.
  - intros i _ _. rewrite !Hnone by db_ne. done.
  - intros i _ _. by rewrite Hnone by db_ne.
  - intros k _. by rewrite Hnone by db_ne.
  - intros k _. by rewrite Hnone by db_ne.
  - change (chain_outputs []) with (@nil TxOut). split; [done|split|].
    + rewrite (put_same_db _ _ _ _ _ _ _ E2) by db_ne. by eapply get_put_same.
    + intros i _. by rewrite Hnone by db_ne.
    + split; [intros i o Ho; by rewrite lookup_nil in Ho|]. intros k _. by rewrite Hnone by db_ne.
    + split; [intros i o Ho; by rewrite lookup_nil in Ho|]. intros k _. by rewrite Hnone by db_ne.
    + intros d lo (_ & Hlo & _). by apply N.nlt_0_r in Hlo.
  - intros k _. by rewrite Hnone by db_ne.
  - exists ∅. split_and!; [constructor| |by intros tok a; rewrite lookup_empty].
    intros tok _. rewrite lookup_empty. by rewrite Hnone by db_ne.
  - intros i d Hd. by apply Hnil in Hd.
Qed.

Lemma refused_same self d t e t' : append_block_data self d t = Done (Err e, t') → t' = t.
Proof.
  unfold append_block_data, append_block. intros E.
  destruct (append_block_txn _ _ _ _ _ _ _) as [[[r|e'] t1]| |]; [destruct (db_commit t1)|..];
    by simplify_eq.
Qed.

Lemma ledger_run_ok self t chain : ledger_wf self → ledger_run self t chain → ledger_ok self t chain.
Proof.
  intros Hwf. induction 1 as [t0 t Hf E|t chain d t' _ IH Hap E|t chain d e t' _ IH E].
  - by eapply create_ok.
  - by eapply append_block_ok.
  - by apply refused_same in E as ->.
Qed.

(** C2: [append_block] refines appending to a chain.  On an environment that
    holds a well-linked chain, a successful call leaves one that holds the chain
    with the block appended, which is well linked again: the index is the next
    one, the parent is the last block, the version is neither lower than the
    parent's nor unknown, the hashes of the contents and of the block are right.
    Everything derived is up to date too: outputs and Merkle tree, spent key
    images, nonces, minting configurations.  A call that fails changes nothing.
    The block keeps to the limits [appendable], which the code does not check. *)
Theorem append_block_refines self env chain d r t' :
  ledger_wf self → ledger_ok self env chain → appendable chain d →
  append_block_data self d env = Done (r, t') →
  match r with
  | Ok _ => ledger_ok self t' (chain ++ [d]) ∧ valid_next chain d
  | Err _ => t' = env
  end.
Proof.
  intros Hwf Hok Hap E. destruct r as [[]|e]; [|by eapply refused_same].
  pose proof (append_block_ok _ _ _ _ _ Hwf Hok Hap E) as Hok'. split; [done|].
  pose proof (lo_valid _ _ _ Hok' (length chain) d) as Hv.
  rewrite take_app_length in Hv. apply Hv. by rewrite lookup_app_r, Nat.sub_diag by lia.
Qed.

(** C31: what was appended is read back: whatever calls were made, the ledger
    reports as many blocks as were appended, and each with the contents,
    signature and metadata it was appended with.  The blocks keep to the limits
    [appendable]. *)
Theorem ledger_roundtrip self t chain :
  ledger_wf self → ledger_run self t chain →
  num_blocks self t = Done (Ok (len chain), t) ∧
  ∀ i d, chain !! i = Some d → get_block_data self (N.of_nat i) t = Done (Ok d, t).
Proof.
  intros Hwf Hrun. pose proof (ledger_run_ok _ _ _ Hwf Hrun) as Hok.
  split; [by apply num_blocks_ok|]. intros i d Hd. by eapply get_block_data_ok.
Qed.

(** C3: nothing is spent or created twice.  However the ledger was built, a
    key image is in at most one block, which [check_key_image] reports, and no
    two outputs have the same public key.  The blocks that were appended keep to
    the limits [appendable]. *)
Theorem no_double_spend self t chain :
  ledger_wf self → ledger_run self t chain →
  (∀ i d k, chain !! i = Some d → k ∈ key_images (bd_contents d) →
     check_key_image self k t = Done (Ok (Some (N.of_nat i)), t) ∧
     ∀ j d', chain !! j = Some d' → k ∈ key_images (bd_contents d') → j = i) ∧
  (∀ k, (∀ d, d ∈ chain → k ∉ key_images (bd_contents d)) →
     check_key_image self k t = Done (Ok None, t)) ∧
  NoDup (public_key <$> chain_outputs chain).
Proof.
  intros Hwf Hrun. pose proof (ledger_run_ok _ _ _ Hwf Hrun) as Hok. split_and!.
  - intros i d k Hd Hk. split; [by eapply check_key_image_ok|]. intros j d' Hd' Hk'.
    pose proof (check_key_image_ok _ _ _ _ _ _ Hok Hd Hk) as E1.
    pose proof (check_key_image_ok _ _ _ _ _ _ Hok Hd' Hk') as E2.
    rewrite E1 in E2. injection E2. lia.
  - intros k Hk. by eapply check_key_image_unspent.
  - apply NoDup_alt. intros i j key Hi Hj.
    apply list_lookup_fmap_Some in Hi as (o & -> & Ho).
    apply list_lookup_fmap_Some in Hj as (o' & Heq & Ho').
    pose proof (lo_store _ _ _ Hok) as [Hcap [_ _ _ [Hkey _]] _].
    pose proof (lookup_lt_Some _ _ _ Ho). pose proof (lookup_lt_Some _ _ _ Ho').
    pose proof (Hkey _ _ Ho) as K1. pose proof (Hkey _ _ Ho') as K2. rewrite <-Heq, K1 in K2.
    assert (N.of_nat i = N.of_nat j); [|lia]. unfold len in Hcap.
    apply u64_key_inj; [lia..|congruence].
Qed.
End props.
End LedgerProps.
