(* ===== verification/LedgerAccept.v ===== *)
(** * The ledger accepts every acceptable block

    The converse of the refinement in [LedgerProps]: a block that continues the
    chain, spends no key image of it, creates no output and uses no nonce again,
    whose mint transactions can be charged and whose configurations are well
    formed is appended, within the limits [appendable] and as long as the database
    has room and commits.  One thing it does not look for is the same key image
    twice within the block. *)

From stdpp Require Import vector strings.
From S2P Require Import Prelude Ord Bytes Lmdb TxOut Membership MerkleTree TxOutStore TxOutStoreProps BlockVersion MaskedAmount Tx TxValidation Multisig Mint MintStore MintStoreProps Block LedgerDb LedgerFrame LedgerProps.

Open Scope N_scope.

Section accept.
Context {T : Type} `{Transaction T} `{!TransactionLaws T} `{!TransactionRoom T} `{Commit T}.
Context `{D : Digests} `{C : TxOutCodec}.
Context `{V : Verifier Ed25519Public Ed25519Signature} `{DG : MintDigests} `{MC : MintCodec}.
Context {Sig Meta : Type} `{LC : LedgerCodec Sig Meta} `{BD : BlockDigests}.
Notation BlockData := (BlockData Sig Meta).
Implicit Types (self : LedgerDB) (t : T) (d : BlockData) (chain : list BlockData).

Abbreviation d_outputs d := (outputs (bd_contents d)).
Abbreviation d_images d := (key_images (bd_contents d)).
Abbreviation d_mints d := (mint_txs (bd_contents d)).
Abbreviation d_configs d := (validated_mint_config_txs (bd_contents d)).

(** A block that can follow the chain. *)
Record acceptable chain d : Prop := {
  ac_valid : valid_next chain d;
  ac_images : ∀ d' k, d' ∈ chain → k ∈ d_images d → k ∉ d_images d';
  ac_hashes : NoDup (tx_out_hash <$> chain_outputs chain ++ d_outputs d);
  ac_keys : NoDup (public_key <$> chain_outputs chain ++ d_outputs d);
  ac_mints : ∃ m m', chain_active chain m ∧ steps mint_step m (d_mints d) m';
  ac_nonces : NoDup (tx_nonce <$> d_mints d) ∧
    ∀ tx, tx ∈ d_mints d → length (mint_nonce (mint_prefix tx)) = 64%nat ∧
      ∀ d' tx', d' ∈ chain → tx' ∈ d_mints d' → mint_key tx' ≠ mint_key tx;
  ac_configs : NoDup (config_key <$> d_configs d) ∧
    ∀ v, v ∈ d_configs d → check_mint_config (mint_config_tx v) = Ok tt ∧
      length (mct_nonce (mct_prefix (mint_config_tx v))) = 64%nat ∧
      ∀ d' v', d' ∈ chain → v' ∈ d_configs d' → config_key v' ≠ config_key v
}.

(** ** Validation *)

Lemma refuse_none {A} (f : A → dbm T bool) e l t :
  (∀ a, a ∈ l → f a t = Done (Ok false, t)) → refuse f e l t = Done (Ok tt, t).
Proof.
  unfold refuse. induction l as [|x l IH]; intros Hf; [done|]. simpl.
  assert ((let@ b := f x in if b then dfail e else dret tt) t = Done (Ok tt, t)) as E.
  { dstep (Hf x ltac:(by left)). done. }
  dstep E. apply IH. intros a Ha. apply Hf. by right.
Qed.

Lemma contains_key_image_unspent self chain t k :
  ledger_ok self t chain → (∀ d, d ∈ chain → k ∉ d_images d) →
  contains_key_image self k t = Done (Ok false, t).
Proof.
  intros Hok Hk. unfold contains_key_image.
  by dstep (check_key_image_unspent self t chain k Hok Hk).
Qed.

Lemma contains_key_fresh self t txs (key : CompressedRistrettoPublic) :
  store_ok (tx_out_store self) t txs → (∀ o, o ∈ txs → public_key o ≠ key) →
  contains_tx_out_public_key self key t = Done (Ok false, t).
Proof.
  intros [_ [_ _ _ [_ Hnone]] _] Hk. unfold contains_tx_out_public_key, get_tx_out_index_by_public_key.
  unfold dbind, get. by rewrite (Hnone key Hk).
Qed.

Lemma nonce_lookup_free db tok nonce t :
  db_get t db (nonce_key nonce tok) = Err LmdbNotFound → nonce_lookup db tok nonce t = Done (Ok None, t).
Proof. intros E. unfold nonce_lookup, try_get, dbind. by rewrite E. Qed.

Lemma validate_position_accepts self env chain d t :
  ledger_ok self env chain → valid_next chain d →
  validate_position self env (bd_block d) t = Done (Ok tt, t).
Proof.
  intros Hok Hv. destruct Hv as [Ho Hp Hi Hver _ _ _ _ _ _ _].
  assert (in_ro env (num_blocks self) t = Done (Ok (len chain), t)) as En
    by (unfold in_ro; by rewrite (num_blocks_ok _ _ _ Hok)).
  unfold validate_position. dstep En. rewrite Hi.
  destruct (last chain) as [p|] eqn:El.
  - assert (0 < len chain) as Hpos by (destruct chain; [done|rewrite len_cons; lia]).
    rewrite (proj2 (N.eqb_neq _ _)) by lia.
    assert (in_ro env (get_block self (u64_sub (len chain) 1)) t = Done (Ok (bd_block p), t)) as Eb
      by (unfold in_ro; by rewrite (last_block_ok self env chain p)).
    dstep Eb. destruct (Hp p eq_refl) as [Hle Hpar].
    rewrite (proj2 (N.ltb_ge _ _) Hle), (proj2 (N.ltb_ge _ _) Hver). simpl.
    rewrite N.eqb_refl. simpl. rewrite bool_decide_false; [done|]. rewrite Hpar. intros Hn. by apply Hn.
  - apply last_None in El. subst chain. destruct (Ho eq_refl) as [-> ->].
    rewrite bool_decide_false; [done|]. intros Hn. by apply Hn.
Qed.

Lemma validate_shape_accepts chain d : valid_next chain d → validate_shape (bd_block d) (bd_contents d) = Ok tt.
Proof.
  intros [_ _ Hi _ Hout Hm Him Hc Ham _ _]. unfold validate_shape.
  rewrite !ValidationProps.if_Err_Ok. split_and!; [..|done].
  - apply andb_false_iff. rewrite !bool_decide_eq_false. done.
  - by apply N.ltb_ge.
  - rewrite !andb_false_iff, negb_false_iff, N.eqb_eq, Hi.
    destruct chain as [|p chain]; [by left; left|]. destruct Him as [Hk|[Hk|Hk]]; [done|..].
    + left. right. by apply bool_decide_eq_false.
    + right. left. by apply bool_decide_eq_false.
    + right. right. by apply bool_decide_eq_false.
  - apply bool_decide_eq_false. rewrite Hc. intros Hn. by apply Hn.
  - apply not_true_iff_false. intros (o & Ho & Hneg)%existsb_exists.
    apply list_elem_of_In in Ho. apply Ham in Ho. unfold get_masked_amount in Hneg.
    by destruct (masked_amount o).
Qed.

Lemma validate_accepts self env chain d :
  ledger_ok self env chain → acceptable chain d →
  validate_append_block self env (bd_block d) (bd_contents d) (bd_metadata d) env = Done (Ok tt, env).
Proof.
  intros Hok [Hv Him _ Hkeys _ [_ Hn] [_ Hcn]]. unfold validate_append_block.
  dstep (validate_position_accepts self env chain d env Hok Hv).
  assert (dresult (validate_shape (bd_block d) (bd_contents d)) env = Done (Ok tt, env)) as Es
    by (unfold dresult; by rewrite (validate_shape_accepts chain)).
  dstep Es.
  rewrite (dbind_Done _ _ env tt env).
  2:{ apply refuse_none. intros k Hk. eapply contains_key_image_unspent; [done|].
      intros d' Hd'. by apply Him. }
  rewrite (dbind_Done _ _ env tt env).
  2:{ apply refuse_none. intros o Ho. eapply contains_key_fresh; [apply (lo_store _ _ _ Hok)|].
      intros o' Ho' E. rewrite fmap_app, NoDup_app in Hkeys. destruct Hkeys as (_ & Hdis & _).
      apply (Hdis (public_key o)); [rewrite <-E|]; by apply list_elem_of_fmap_2. }
  rewrite (vn_id _ _ Hv). simpl.
  rewrite (dbind_Done _ _ env tt env).
  2:{ apply refuse_none. intros tx Htx. unfold mint_nonce_seen, check_mint_tx_nonce.
      dstep (nonce_lookup_free _ _ _ _ (lo_nonces _ _ _ Hok (mint_key tx)
        (λ d' tx' Hd' Htx', proj2 (Hn tx Htx) d' tx' Hd' Htx'))). done. }
  rewrite (dbind_Done _ _ env tt env).
  2:{ apply refuse_none. intros v Hvin. unfold config_nonce_seen, check_mint_config_tx_nonce.
      dstep (nonce_lookup_free _ _ _ _ (lo_config_nonces _ _ _ Hok (config_key v)
        (λ d' v' Hd' Hv', proj2 (proj2 (Hcn v Hvin)) d' v' Hd' Hv'))). done. }
  unfold BlockVersion_try_from. pose proof (vn_version _ _ Hv) as Hver. unfold MAX_BLOCK_VERSION in Hver.
  rewrite (proj2 (N.leb_le _ _) Hver). unfold dbind, dresult, map_err.
  unfold require_block_metadata, VERSION_THREE.
  destruct (N.leb_spec 3 (version (bd_block d))) as [H3|]; [|done].
  rewrite bool_decide_false by (by apply (vn_metadata _ _ Hv)). done.
Qed.

(** ** Writing *)

(** A computation succeeds. *)
Definition succeeds {A} (m : dbm T A) t : Prop := ∃ a t', m t = Done (Ok a, t').

Lemma succeeds_bind {A B} (m : dbm T A) (k : A → dbm T B) t :
  succeeds m t → (∀ a t', m t = Done (Ok a, t') → succeeds (k a) t') → succeeds (dbind m k) t.
Proof. intros (a & t' & E) Hk. unfold succeeds. dstep E. by apply Hk. Qed.

Lemma put_succeeds t db k v f :
  valid_key k → f = FlagsEmpty ∨ db_get t db k = Err LmdbNotFound → succeeds (put db k v f) t.
Proof. intros Hk Hf. destruct (put_step t db k v f Hk Hf) as (t' & E & _). by exists tt, t'. Qed.

(** Writing key images looks for each of them in the environment only. *)
Lemma write_key_images_succeeds self env i l t :
  (∀ k, k ∈ l → contains_key_image self k env = Done (Ok false, env)) →
  succeeds (write_key_images self env i l) t.
Proof.
  intros Hl. unfold write_key_images. apply succeeds_bind; [|intros; apply put_succeeds;
    [apply valid_key_u64|by left]].
  revert t. induction l as [|k l IH]; intros t; [by exists tt, t|]. simpl.
  apply succeeds_bind; [|intros ? t1 _; apply IH; intros; apply Hl; by right].
  unfold write_key_image. unfold succeeds.
  assert (in_ro env (contains_key_image self k) t = Done (Ok false, t)) as E
    by (unfold in_ro; by rewrite (Hl k ltac:(by left))).
  dstep E. apply put_succeeds; [apply valid_key_32|by left].
Qed.

Lemma tx_outs_loop_succeeds self env b outs : ∀ t txs,
  ledger_wf self → store_ok (tx_out_store self) t txs → len txs + len outs <= 2 ^ 63 →
  (∀ o, o ∈ outs → contains_tx_out_public_key self (public_key o) env = Done (Ok false, env)) →
  NoDup (tx_out_hash <$> txs ++ outs) → NoDup (public_key <$> txs ++ outs) →
  (∀ i, len txs <= i → i < u64_modulus →
     db_get t (block_number_by_tx_out_index self) (u64_to_key_bytes i) = Err LmdbNotFound) →
  succeeds (dfor (write_tx_out self env b) outs) t.
Proof.
  induction outs as [|o outs IH]; intros t txs Hwf Hok Hcap Hnew Hh Hk Hfree; [by exists tt, t|].
  rewrite len_cons in Hcap. simpl.
  assert (∀ o', o' ∈ txs → tx_out_hash o' ≠ tx_out_hash o ∧ public_key o' ≠ public_key o) as Hf.
  { intros o' Ho'. rewrite fmap_app, NoDup_app in Hh, Hk. destruct Hh as (_ & Hh & _), Hk as (_ & Hk & _).
    split; intros E.
    - apply (Hh (tx_out_hash o')); [by apply list_elem_of_fmap_2|]. rewrite E. by left.
    - apply (Hk (public_key o')); [by apply list_elem_of_fmap_2|]. rewrite E. by left. }
  assert (len txs + 1 <= 2 ^ 63) as Hcap1 by lia.
  assert (in_ro env (contains_tx_out_public_key self (public_key o)) t = Done (Ok false, t)) as E0
    by (unfold in_ro; by rewrite (Hnew o ltac:(by left))).
  destruct (push_ok (tx_out_store self) t txs o) as (t1 & Ep & Hok1);
    [by apply ledger_wf_store|done..|].
  assert (same_db (block_number_by_tx_out_index self) t t1) as Hs
    by (apply (push_touches _ _ _ _ _ Ep); db_notin).
  destruct (put_step t1 (block_number_by_tx_out_index self) (u64_to_key_bytes (len txs)) b NO_OVERWRITE)
    as (t2 & E2 & P2 & S2); [apply valid_key_u64|right; rewrite Hs; apply Hfree; unfold u64_modulus; lia|].
  assert (write_tx_out self env b o t = Done (Ok tt, t2)) as Ew.
  { unfold write_tx_out. dstep E0. by dstep Ep. }
  unfold succeeds. dstep Ew.
  apply (IH t2 (txs ++ [o]) Hwf).
  - eapply store_ok_same; [|exact Hok1]. intros db Hdb. apply S2. intros ->. revert Hdb.
    change (block_number_by_tx_out_index self ∉ store_dbs (tx_out_store self)). db_notin.
  - rewrite len_snoc. lia.
  - intros o' Ho'. apply Hnew. by right.
  - by rewrite <-app_assoc.
  - by rewrite <-app_assoc.
  - rewrite len_snoc. intros i Hge Hlt. rewrite (get_put_other _ _ _ _ _ _ _ _ P2).
    + rewrite Hs. apply Hfree; lia.
    + intros [_ E]%pair_eq. revert E. apply key_eq_ne; unfold u64_modulus in *; lia.
Qed.

Lemma write_tx_outs_succeeds self env i outs t txs :
  ledger_wf self → store_ok (tx_out_store self) t txs → len txs + len outs <= 2 ^ 63 →
  (∀ o, o ∈ outs → contains_tx_out_public_key self (public_key o) env = Done (Ok false, env)) →
  NoDup (tx_out_hash <$> txs ++ outs) → NoDup (public_key <$> txs ++ outs) →
  (∀ i, len txs <= i → i < u64_modulus →
     db_get t (block_number_by_tx_out_index self) (u64_to_key_bytes i) = Err LmdbNotFound) →
  succeeds (write_tx_outs self env i outs) t.
Proof.
  intros Hwf Hok Hcap Hnew Hh Hk Hfree. unfold write_tx_outs, succeeds.
  dstep (num_tx_outs_ok (tx_out_store self) t (len txs) ltac:(lia) (so_count _ _ _ (so_entries _ _ _ Hok))).
  apply succeeds_bind; [apply put_succeeds; [apply valid_key_u64|by left]|].
  intros a t1 E1%put_inv. pose proof (λ db, put_same_db _ _ _ _ _ _ db E1) as S1.
  apply (tx_outs_loop_succeeds self env _ outs t1 txs); try done.
  - eapply store_ok_same; [|exact Hok]. intros db Hdb. apply S1. intros ->. revert Hdb.
    change (tx_outs_by_block self ∉ store_dbs (tx_out_store self)). db_notin.
  - intros j Hge Hlt. rewrite S1 by db_ne. by apply Hfree.
Qed.

Lemma config_loop_succeeds self b l : ∀ t,
  ledger_wf self → NoDup (config_key <$> l) →
  (∀ v, v ∈ l → check_mint_config (mint_config_tx v) = Ok tt ∧
     length (mct_nonce (mct_prefix (mint_config_tx v))) = 64%nat ∧
     db_get t (block_index_by_mint_config_tx_nonce_and_token_id (mint_config_store self)) (config_key v) =
       Err LmdbNotFound) →
  succeeds (dfor (write_mint_config_tx (mint_config_store self) b) l) t.
Proof.
  induction l as [|v l IH]; intros t Hwf Hnd Hl; [by exists tt, t|]. simpl.
  rewrite fmap_cons in Hnd. apply NoDup_cons in Hnd as [Hni Hnd].
  destruct (Hl v ltac:(by left)) as (Hc & Hlen & Hfree). apply succeeds_bind.
  - unfold write_mint_config_tx. apply succeeds_bind.
    { exists tt, t. unfold dresult. by rewrite Hc. }
    intros a t1 E1. injection E1 as _ <-. apply succeeds_bind.
    + apply put_succeeds; [by apply valid_nonce_key|by right].
    + intros a1 t2 _. apply put_succeeds; [apply valid_key_u64|by left].
  - intros a t1 E1. apply IH; [done..|]. intros v' Hv'.
    destruct (Hl v' ltac:(by right)) as (Hc' & Hlen' & Hfree'). split_and!; [done..|].
    destruct (config_adds_key self b Hwf _ _ _ _ E1) as [_ [_ Hother]].
    rewrite Hother; [done|]. intros E. apply Hni. rewrite <-E. by apply list_elem_of_fmap_2.
Qed.

Lemma write_block_succeeds self block sig meta t n :
  db_get t (ldb_counts self) NUM_BLOCKS_KEY = Ok (u64_to_key_bytes n) → n < u64_modulus →
  succeeds (write_block self block sig meta) t.
Proof.
  intros Hn Hlt. unfold write_block, succeeds. dstep (get_Ok _ _ _ _ Hn).
  rewrite key_round_trip by done. unfold dbind at 1, dexec.
  apply succeeds_bind; [apply put_succeeds; [unfold valid_key; vm_compute; lia|by left]|intros a1 t1 _].
  apply succeeds_bind; [apply put_succeeds; [apply valid_key_u64|by left]|intros a2 t2 _].
  apply succeeds_bind; [|intros a3 t3 _; destruct meta].
  - destruct sig; [apply put_succeeds; [apply valid_key_u64|by left]|by exists tt, t2].
  - apply put_succeeds; [apply valid_key_u64|by left].
  - by exists tt, t3.
Qed.

Lemma steps_det m txs m1 m2 : steps mint_step m txs m1 → steps mint_step m txs m2 → m1 = m2.
Proof.
  intros H1. revert m2. induction H1 as [m|m tx m' txs m'' Hs _ IH]; intros m2 H2;
    inversion H2 as [|? ? m3 ? ? Hs2 H3]; subst; [done|].
  apply IH. by rewrite (mint_step_det _ _ _ _ Hs Hs2).
Qed.

Lemma chain_active_det chain m1 m2 : chain_active chain m1 → chain_active chain m2 → m1 = m2.
Proof.
  intros H1. revert m2. induction H1 as [|chain m d m' _ IH Hs]; intros m2 H2; inversion H2 as [E|c m3 d3 m4 Hc Hs3 E].
  - done.
  - by destruct c.
  - by destruct chain.
  - apply app_inj_tail in E as [-> ->]. apply IH in Hc as ->. by rewrite (steps_det _ _ _ _ Hs Hs3).
Qed.

Lemma append_block_succeeds self env chain d :
  ledger_wf self → ledger_ok self env chain → appendable chain d → acceptable chain d →
  succeeds (append_block_txn self env (bd_block d) (bd_contents d) (bd_signature d) (bd_metadata d)) env.
Proof.
  intros Hwf Hok [Hlen Hcap Hmt Hct Hcfg] Hac.
  pose proof (validate_accepts self env chain d Hok Hac) as E0.
  destruct Hac as [Hv Him Hh Hk (m & m' & Hm & Hsteps) [Hnd Hn] [Hcnd Hcn]].
  destruct (lo_active _ _ _ Hok) as (m0 & Hm0 & Hview & Hmok).
  rewrite (chain_active_det _ _ _ Hm Hm0) in *. clear m Hm.
  pose proof (vn_index _ _ Hv) as Hi.
  destruct (lo_free _ _ _ Hok (len chain)) as (_ & _ & Hf3 & Hf4); [lia..|].
  unfold append_block_txn, succeeds. dstep E0.
  apply succeeds_bind.
  { apply write_key_images_succeeds. intros k Hin. eapply contains_key_image_unspent; [done|].
    intros d' Hd'. by apply Him. }
  intros u1 t1 E1. pose proof (write_key_images_touches _ _ _ _ _ _ _ E1) as F1.
  assert (store_ok (tx_out_store self) t1 (chain_outputs chain)) as Hst1.
  { eapply store_ok_same; [|apply (lo_store _ _ _ Hok)]. intros db Hdb. apply F1.
    unfold store_dbs in Hdb. rewrite !elem_of_cons, elem_of_nil in Hdb.
    destruct Hdb as [->|[->|[->|[->|[->|[]]]]]]; db_notin. }
  apply succeeds_bind.
  { apply (write_tx_outs_succeeds self env _ _ t1 (chain_outputs chain)); try done.
    - intros o Ho. eapply contains_key_fresh; [apply (lo_store _ _ _ Hok)|].
      intros o' Ho' E. rewrite fmap_app, NoDup_app in Hk. destruct Hk as (_ & Hdis & _).
      apply (Hdis (public_key o)); [rewrite <-E|]; by apply list_elem_of_fmap_2.
    - intros i Hge Hlt. rewrite F1 by db_notin. by apply (lo_numbers _ _ _ Hok). }
  intros u2 t2 E2. pose proof (write_tx_outs_touches _ _ _ _ _ _ _ E2) as F2. unfold tx_outs_dbs in F2.
  apply succeeds_bind.
  { destruct (write_mint_txs_complete mint_step map_ok (mint_tx_store self) (mint_config_store self)
      t2 m0 (index (bd_block d)) (d_mints d) m') as (t3 & E3 & _); try done; [..|by exists tt, t3].
    - by apply ledger_wf_mint.
    - intros. by apply mint_step_update.
    - eapply active_view_same; [|exact Hview]. frames.
    - rewrite F2, F1 by db_notin. by rewrite Hi.
    - intros n (tx & -> & Htx)%list_elem_of_fmap. destruct (Hn tx Htx) as [Hl Hfresh].
      split; [|done]. rewrite F2, F1 by db_notin.
      apply (lo_nonces _ _ _ Hok (mint_key tx)). intros d' tx' Hd' Htx'. by apply (Hfresh d'). }
  intros u3 t3 E3.
  destruct (mint_stage self (index (bd_block d)) (d_mints d) t2 m0 u3 t3 Hwf) as (_ & _ & _ & F3);
    [|done..|].
  { eapply active_view_same; [|exact Hview]. frames. }
  apply succeeds_bind.
  { unfold write_validated_mint_config_txs. apply succeeds_bind.
    - apply put_succeeds; [apply valid_key_u64|right]. rewrite F3, F2, F1 by db_notin. by rewrite Hi.
    - intros a t4 E4%put_inv. pose proof (λ db, put_same_db _ _ _ _ _ _ db E4) as S4.
      apply config_loop_succeeds; [done..|]. intros v Hvin. destruct (Hcn v Hvin) as (? & ? & Hfresh).
      split_and!; [done..|]. rewrite S4 by db_ne. rewrite F3, F2, F1 by db_notin.
      apply (lo_config_nonces _ _ _ Hok). intros d' v' Hd' Hv'. by apply (Hfresh d'). }
  intros u4 t4 E4.
  destruct (mint_stage self (index (bd_block d)) (d_mints d) t2 m0 u3 t3 Hwf)
    as ((m1 & _ & M2 & M3) & _); [eapply active_view_same; [|exact Hview]; frames|done..|].
  destruct (config_stage self (index (bd_block d)) (d_configs d) t3 m1 u4 t4 Hwf M2 M3 Hct Hcfg E4)
    as (_ & _ & _ & _ & F4).
  apply (write_block_succeeds self _ _ _ t4 (len chain)); [|lia].
  rewrite F4, F3, F2, F1 by db_notin. apply (lo_num _ _ _ Hok).
Qed.

Lemma append_block_data_succeeds self env chain d :
  (∀ t : T, db_commit t = Ok tt) →
  ledger_wf self → ledger_ok self env chain → appendable chain d → acceptable chain d →
  ∃ t', append_block_data self d env = Done (Ok tt, t') ∧ ledger_ok self t' (chain ++ [d]).
Proof.
  intros Hcommit Hwf Hok Hap Hac.
  destruct (append_block_succeeds self env chain d Hwf Hok Hap Hac) as ([] & t' & E).
  assert (append_block_data self d env = Done (Ok tt, t')) as Ea.
  { unfold append_block_data, append_block. rewrite E. by rewrite Hcommit. }
  exists t'. split; [done|]. by eapply append_block_ok.
Qed.
End accept.

(** ** Theorems *)

Module LedgerAcceptProps.
Section props.
Context {T : Type} `{Transaction T} `{!TransactionLaws T} `{!TransactionRoom T} `{Commit T}.
Context `{D : Digests} `{C : TxOutCodec}.
Context `{V : Verifier Ed25519Public Ed25519Signature} `{DG : MintDigests} `{MC : MintCodec}.
Context {Sig Meta : Type} `{LC : LedgerCodec Sig Meta} `{BD : BlockDigests}.
Notation BlockData := (BlockData Sig Meta).
Implicit Types (self : LedgerDB) (t : T) (d : BlockData) (chain : list BlockData).

(** C32: a block that meets all these conditions is appended, and the ledger
    then holds the chain with it:
    - it continues the chain ([valid_next]: index, parent, version, contents
      hash, block id, metadata, at least an output or a configuration, an output
      for each mint transaction, after the origin something that is not only
      outputs);
    - no earlier block spent one of its key images; the hashes and public keys of
      its outputs are distinct and new;
    - its mint transactions can be charged, in order, to the active
      configurations; each mint and configuration transaction has a nonce of 64
      bytes that neither an earlier block nor the block itself uses again for the
      token; the configurations of a configuration transaction are for its token
      ([check_mint_config]);
    - the limits that [append_block] does not check hold ([appendable]: at most
      2^63 outputs, integers of 64 bits, no configuration repeated within a
      transaction);
    - the database has room for every write, and its commits succeed. *)
Theorem append_block_accepts self env chain d :
  (∀ t : T, db_commit t = Ok tt) →
  ledger_wf self → ledger_ok self env chain → appendable chain d → acceptable chain d →
  ∃ t', append_block_data self d env = Done (Ok tt, t') ∧ ledger_ok self t' (chain ++ [d]).
Proof. apply append_block_data_succeeds. Qed.

(** A key image repeated within a block is not noticed.  The test that
    precedes each write reads the environment, which does not have the writes of
    the transaction, and the write may overwrite: writing [n] times a key image
    that no earlier block spent succeeds, and records it as spent. *)
Theorem repeated_key_image_accepted self env block_index k n t :
  ledger_wf self → contains_key_image self k env = Done (Ok false, env) →
  ∃ t', write_key_images self env block_index (replicate n k) t = Done (Ok tt, t') ∧
    (n ≠ 0%nat → db_get t' (ldb_key_images self) (vec_to_list k) = Ok (le_bytes 8 block_index)).
Proof.
  intros Hwf Hk.
  destruct (write_key_images_succeeds self env block_index (replicate n k) t) as ([] & t' & E).
  { by intros k' [-> _]%elem_of_replicate. }
  exists t'. split; [done|]. intros Hn.
  destruct (write_key_images_sound _ _ _ _ _ _ _ Hwf E) as (H1 & _).
  apply H1, elem_of_replicate. done.
Qed.
End props.

(** *** Witnesses *)

#[local] Existing Instance MembershipProps.toy_digests.
#[local] Existing Instance StoreProps.toy_codec.
#[local] Existing Instance MintStoreProps.toy_ed25519.
#[local] Existing Instance MintStoreProps.toy_mint_digests.
#[local] Existing Instance MintStoreProps.toy_mint_codec.

#[local] Instance Element_countable : Countable TxOutMembershipElement.
Proof.
  refine (inj_countable' (λ e, (range_from (el_range e), range_to (el_range e), el_hash e))
    (λ x, mkElement (mkRange x.1.1 x.1.2) x.2) _). by intros [[] ?].
Defined.
#[local] Instance Block_countable : Countable Block.
Proof.
  refine (inj_countable' (λ b, (id b, version b, parent_id b, index b, cumulative_txo_count b,
    root_element b, contents_hash b))
    (λ x, mkBlock x.1.1.1.1.1.1 x.1.1.1.1.1.2 x.1.1.1.1.2 x.1.1.1.2 x.1.1.2 x.1.2 x.2) _). by intros [].
Defined.

Lemma toy_round {A} `{Countable A} (a : A) :
  decode (StoreProps.bytes_pos (StoreProps.pos_bytes (encode a))) = Some a.
Proof. by rewrite StoreProps.bytes_pos_bytes, decode_encode. Qed.

Lemma toy_round_value v :
  (λ x : N * N, mkTxOutsByBlockValue x.1 x.2) <$> decode (StoreProps.bytes_pos
    (StoreProps.pos_bytes (encode (first_tx_out_index v, tbv_num_tx_outs v)))) = Some v.
Proof. rewrite toy_round. by destruct v. Qed.

#[local] Instance toy_ledger_codec : LedgerCodec unit unit := {|
  encode_block := λ a, StoreProps.pos_bytes (encode a);
  decode_block := λ l, decode (StoreProps.bytes_pos l);
  decode_encode_block := toy_round;
  encode_signature := λ a, StoreProps.pos_bytes (encode a);
  decode_signature := λ l, decode (StoreProps.bytes_pos l);
  decode_encode_signature := toy_round;
  encode_metadata := λ a, StoreProps.pos_bytes (encode a);
  decode_metadata := λ l, decode (StoreProps.bytes_pos l);
  decode_encode_metadata := toy_round;
  encode_key_images := λ a, StoreProps.pos_bytes (encode a);
  decode_key_images := λ l, decode (StoreProps.bytes_pos l);
  decode_encode_key_images := toy_round;
  encode_tx_outs_value := λ v, StoreProps.pos_bytes (encode (first_tx_out_index v, tbv_num_tx_outs v));
  decode_tx_outs_value := λ l, (λ x : N * N, mkTxOutsByBlockValue x.1 x.2) <$> decode (StoreProps.bytes_pos l);
  decode_encode_tx_outs_value := toy_round_value
|}.

#[local] Instance toy_block_digests : BlockDigests := {|
  contents_digest _ := vreplicate 32 (u8 5);
  compute_block_id _ _ i _ _ _ := vreplicate 32 (u8 i)
|}.
#[local] Instance map_commit : Commit map_txn := λ _, Ok tt.

Definition ex_ledger : LedgerDB :=
  mkLedgerDB 0 1 2 3 4 5 (mkTxOutStore 6 7 8 9 10) 11 12 (mkMintConfigStore 13 14 15)
    (mkMintTxStore 16 17).

Lemma ex_ledger_wf : ledger_wf ex_ledger.
Proof. by apply (bool_decide_unpack _). Qed.

(** An origin block that spends a key image twice. *)
Definition ex_out : TxOut :=
  mkTxOut (Some (V2 (mkMaskedAmountV2 (vreplicate 32 (u8 0)) 0 []))) (vreplicate 32 (u8 7))
    (vreplicate 32 (u8 7)) [] None.
Definition ex_image : KeyImage := vreplicate 32 (u8 9).
Definition ex_origin : BlockData unit unit :=
  let contents := mkBlockContents [ex_image; ex_image] [ex_out] [] [] in
  mkBlockData (Block_new 0 BlockID_default 0 1 root_element_default contents) contents (Some tt) None.

Definition ex_env : map_txn :=
  <[ (0, NUM_BLOCKS_KEY) := u64_to_key_bytes 0 ]> {[ (6, NUM_TX_OUTS_KEY) := u64_to_key_bytes 0 ]}.

Lemma ex_fresh : LedgerProps.fresh (∅ : map_txn).
Proof. intros db k. simpl. by rewrite lookup_empty. Qed.

Lemma ex_created : ledger_create ex_ledger (∅ : map_txn) = Done (Ok tt, ex_env).
Proof. done. Qed.

Lemma ex_env_ok : ledger_ok (Sig:=unit) (Meta:=unit) ex_ledger ex_env [].
Proof. apply (LedgerProps.create_ok _ ∅); [exact ex_ledger_wf|exact ex_fresh|exact ex_created]. Qed.

Lemma ex_appendable : appendable [] ex_origin.
Proof. by constructor; [vm_compute..|constructor|constructor|constructor]. Qed.

Lemma ex_acceptable : acceptable [] ex_origin.
Proof.
  constructor.
  - constructor; try done; [by left|]. intros o Ho.
    apply list_elem_of_singleton in Ho as ->. done.
  - intros d' k Hd'. by apply elem_of_nil in Hd'.
  - apply NoDup_singleton.
  - apply NoDup_singleton.
  - exists ∅, ∅. split; constructor.
  - split; [constructor|]. intros tx Htx. by apply elem_of_nil in Htx.
  - split; [constructor|]. intros v Hv. by apply elem_of_nil in Hv.
Qed.

Lemma append_block_accepts_witness :
  ∃ t', append_block_data ex_ledger ex_origin ex_env = Done (Ok tt, t') ∧
        ledger_ok ex_ledger t' [ex_origin].
Proof.
  apply (append_block_accepts ex_ledger ex_env [] ex_origin);
    [done|exact ex_ledger_wf|exact ex_env_ok|exact ex_appendable|exact ex_acceptable].
Defined.

(** The block with the repeated key image is appended as a whole. *)
Lemma repeated_key_image_accepted_witness :
  key_images (bd_contents ex_origin) = replicate 2 ex_image ∧
  (∃ t', append_block_data ex_ledger ex_origin ex_env = Done (Ok tt, t')) ∧
  ∃ t', write_key_images ex_ledger ex_env 0 (replicate 2 ex_image) ex_env = Done (Ok tt, t') ∧
    (2 ≠ 0 → db_get t' (ldb_key_images ex_ledger) (vec_to_list ex_image) = Ok (le_bytes 8 0))%nat.
Proof.
  split; [done|]. split.
  - destruct (append_block_succeeds ex_ledger ex_env [] ex_origin ex_ledger_wf ex_env_ok
      ex_appendable ex_acceptable) as ([] & t' & E).
    exists t'. unfold append_block_data, append_block. by rewrite E.
  - apply (repeated_key_image_accepted ex_ledger ex_env 0 ex_image 2 ex_env ex_ledger_wf).
    apply (contains_key_image_unspent (Sig:=unit) (Meta:=unit) ex_ledger [] ex_env); [exact ex_env_ok|].
    by intros d Hd%elem_of_nil.
Defined.

Lemma ex_appended :
  ∃ t', append_block_data ex_ledger ex_origin ex_env = Done (Ok tt, t') ∧
        LedgerProps.ledger_run ex_ledger t' [ex_origin].
Proof.
  destruct (append_block_succeeds ex_ledger ex_env [] ex_origin ex_ledger_wf ex_env_ok
    ex_appendable ex_acceptable) as ([] & t' & E).
  assert (append_block_data ex_ledger ex_origin ex_env = Done (Ok tt, t')) as Ea
    by (unfold append_block_data, append_block; by rewrite E).
  exists t'. split; [done|]. apply (LedgerProps.run_append _ ex_env [] ex_origin); [|exact ex_appendable|done].
  apply (LedgerProps.run_create _ ∅); [exact ex_fresh|exact ex_created].
Qed.

Lemma append_block_refines_witness :
  ∃ t', append_block_data ex_ledger ex_origin ex_env = Done (Ok tt, t') ∧
        ledger_ok ex_ledger t' ([] ++ [ex_origin]) ∧ valid_next [] ex_origin.
Proof.
  destruct ex_appended as (t' & E & _). exists t'. split; [exact E|].
  exact (LedgerProps.append_block_refines ex_ledger ex_env [] ex_origin (Ok tt) t' ex_ledger_wf
    ex_env_ok ex_appendable E).
Defined.

Lemma ledger_roundtrip_witness :
  ∃ t', num_blocks ex_ledger t' = Done (Ok 1, t') ∧
        get_block_data ex_ledger 0 t' = Done (Ok ex_origin, t').
Proof.
  destruct ex_appended as (t' & _ & Hrun). exists t'.
  destruct (LedgerProps.ledger_roundtrip ex_ledger t' [ex_origin] ex_ledger_wf Hrun) as [Hn Hd].
  split; [exact Hn|exact (Hd 0%nat ex_origin eq_refl)].
Defined.

Lemma no_double_spend_witness :
  ∃ t', check_key_image ex_ledger ex_image t' = Done (Ok (Some 0), t') ∧
        NoDup (public_key <$> chain_outputs [ex_origin]).
Proof.
  destruct ex_appended as (t' & _ & Hrun). exists t'.
  destruct (LedgerProps.no_double_spend ex_ledger t' [ex_origin] ex_ledger_wf Hrun) as (H1 & _ & H3).
  split; [apply (H1 0%nat ex_origin ex_image eq_refl); by left|exact H3].
Defined.
End LedgerAcceptProps.
