(* ===== verification/LedgerApi.v ===== *)
(** * The ledger as the consensus service uses it

    The trait [Ledger] of [ledger/db/src/ledger_trait.rs], as a class: the
    components of the consensus service are generic in the ledger.  [LedgerDB]
    implements it, each method in a transaction of its own on the committed
    state of the environment. *)

From stdpp Require Import vector strings.
From S2P Require Import Prelude Ord Bytes Lmdb TxOut Membership TxOutStore BlockVersion MaskedAmount Tx TxValidation Multisig Mint MintStore Block LedgerDb.

Open Scope N_scope.

(** ** The trait *)

Class LedgerReads (L : Type) : Type := {
  l_num_blocks : L → exec (result N Error);
  l_get_block : L → N → exec (result Block Error);
  l_contains_key_image : L → KeyImage → exec (result bool Error);
  l_contains_tx_out_public_key : L → CompressedRistrettoPublic → exec (result bool Error);
  l_get_tx_out_proof_of_memberships : L → list N → exec (result (list TxOutMembershipProof) Error);
  l_get_root_tx_out_membership_element : L → exec (result TxOutMembershipElement Error);
  l_check_mint_config_tx_nonce : L → N → bytes → exec (result (option N) Error);
  l_check_mint_tx_nonce : L → N → bytes → exec (result (option N) Error);
  l_get_active_mint_configs : L → TokenId → exec (result (option ActiveMintConfigs) Error);
  l_get_active_mint_config_for_mint_tx : L → MintTx → exec (result ActiveMintConfig Error)
}.

Class LedgerAppends (L Sig Meta : Type) : Type :=
  l_append_block_data : L → BlockData Sig Meta → exec (result unit Error * L).

(** The default method [get_latest_block]. *)
Definition l_get_latest_block `{LedgerReads L} (l : L) : exec (result Block Error) :=
  let^ num := l_num_blocks l in
  if num =? 0 then Done (Err NotFound) else l_get_block l (u64_sub num 1).

(** ** [impl Ledger for LedgerDB] *)

Section ledger_db.
Context {T : Type} `{Transaction T} `{Commit T} `{D : Digests} `{C : TxOutCodec}.
Context `{V : Verifier Ed25519Public Ed25519Signature} `{DG : MintDigests} `{MC : MintCodec}.
Context {Sig Meta : Type} `{LC : LedgerCodec Sig Meta} `{BD : BlockDigests}.

(** A method in a read-only transaction of its own. *)
Definition ro {A} (m : dbm T A) (env : T) : exec (result A Error) :=
  let! (r, _) := m env in Done r.

(** The mint lookups of [LedgerDB], which call the stores. *)
Definition ledger_check_mint_config_tx_nonce (self : LedgerDB) (env : T) (token_id : N) (nonce : bytes) :
    exec (result (option N) Error) :=
  ro (check_mint_config_tx_nonce (mint_config_store self) token_id nonce) env.
Definition ledger_check_mint_tx_nonce (self : LedgerDB) (env : T) (token_id : N) (nonce : bytes) :
    exec (result (option N) Error) :=
  ro (check_mint_tx_nonce (mint_tx_store self) token_id nonce) env.
Definition ledger_get_active_mint_configs (self : LedgerDB) (env : T) (token_id : TokenId) :
    exec (result (option ActiveMintConfigs) Error) :=
  ro (get_active_mint_configs (mint_config_store self) token_id) env.
Definition ledger_get_active_mint_config_for_mint_tx (self : LedgerDB) (env : T) (mint_tx : MintTx) :
    exec (result ActiveMintConfig Error) :=
  ro (get_active_mint_config_for_mint_tx (mint_config_store self) mint_tx) env.

#[export] Instance LedgerDB_reads (self : LedgerDB) : LedgerReads T := {
  l_num_blocks := ro (num_blocks self);
  l_get_block env n := ro (get_block self n) env;
  l_contains_key_image env k := ro (contains_key_image self k) env;
  l_contains_tx_out_public_key env k := ro (contains_tx_out_public_key self k) env;
  l_get_tx_out_proof_of_memberships env l := ro (get_tx_out_proof_of_memberships self l) env;
  l_get_root_tx_out_membership_element := ro (get_root_tx_out_membership_element self);
  l_check_mint_config_tx_nonce := ledger_check_mint_config_tx_nonce self;
  l_check_mint_tx_nonce := ledger_check_mint_tx_nonce self;
  l_get_active_mint_configs := ledger_get_active_mint_configs self;
  l_get_active_mint_config_for_mint_tx := ledger_get_active_mint_config_for_mint_tx self
}.

#[export] Instance LedgerDB_appends (self : LedgerDB) : LedgerAppends T Sig Meta :=
  λ env d, append_block_data self d env.
End ledger_db.
