(* ===== verification/MintTxManager.v ===== *)
(** * The mint transaction manager

    [consensus/service/src/mint_tx_manager]: the validation of mint and
    mint-config transactions against the ledger, and the choice of those that
    go into a block.  [consensus/enclave/api/src/governors_map.rs]: the
    governors of each token.

    Both choices are greedy: the candidates are sorted, and each one is taken
    unless it clashes with one taken before. *)

From stdpp Require Import vector strings.
From S2P Require Import Prelude Ord Bytes Lmdb TxOut Membership TxOutStore BlockVersion MaskedAmount Tx TxValidation Multisig Mint MintOrd MintStore Block LedgerDb LedgerApi.

Open Scope N_scope.

(** ** Governors *)

Module GovernorsMap.
Record GovernorsMap := mkGovernorsMap { map : gmap TokenId (SignerSet Ed25519Public) }.

Inductive Error := MobTokenNotAllowed | InvalidSignerSet (t : TokenId).

(** The entries of a [BTreeMap], in the order of the keys. *)
Definition entries (m : gmap TokenId (SignerSet Ed25519Public)) : list (TokenId * SignerSet Ed25519Public) :=
  omap (λ k, pair k <$> m !! k) (btree_iter (dom m)).

Definition is_valid_map (m : gmap TokenId (SignerSet Ed25519Public)) : result unit Error :=
  if bool_decide (is_Some (m !! TOKEN_MOB)) then Err MobTokenNotAllowed
  else for_each (λ e, if signer_set_is_valid e.2 then Ok tt else Err (InvalidSignerSet e.1)) (entries m).

Definition try_from (m : gmap TokenId (SignerSet Ed25519Public)) : result GovernorsMap Error :=
  let? _ := is_valid_map m in Ok (mkGovernorsMap m).

(** [BTreeMap::from_iter]: of two entries for a token the later one is kept. *)
Definition try_from_iter (l : list (TokenId * SignerSet Ed25519Public)) : result GovernorsMap Error :=
  try_from (foldl (λ m e, <[ e.1 := e.2 ]> m) ∅ l).

Definition get_governors_for_token (self : GovernorsMap) (t : TokenId) : option (SignerSet Ed25519Public) :=
  map self !! t.

(** The result and the map after the call. *)
Definition update_or_default (self : GovernorsMap) (m : option (gmap TokenId (SignerSet Ed25519Public))) :
    result unit Error * GovernorsMap :=
  match m with
  | Some m =>
      match is_valid_map m with
      | Ok _ => (Ok tt, mkGovernorsMap m)
      | Err e => (Err e, self)
      end
  | None => (Ok tt, mkGovernorsMap ∅)
  end.
End GovernorsMap.
Notation GovernorsMap := GovernorsMap.GovernorsMap.

(** ** The manager *)

Module MintTxManagerError.
Inductive Error :=
| MintValidation (e : MintError.Error)
| LedgerDb (e : Lmdb.Error).
End MintTxManagerError.
Notation MintTxManagerError := MintTxManagerError.Error.

Record MintTxManagerImpl (L : Type) := mkMintTxManagerImpl {
  mtm_ledger_db : L;
  mtm_block_version : BlockVersion;
  token_id_to_governors : GovernorsMap
}.
Arguments mkMintTxManagerImpl {L} _ _ _.
Arguments mtm_ledger_db {L} _.
Arguments mtm_block_version {L} _.
Arguments token_id_to_governors {L} _.

(** [NonceByTokenId]. *)
Definition NonceByTokenId : Type := bytes * N.
Definition config_nonce (tx : MintConfigTx) : NonceByTokenId :=
  (mct_nonce (mct_prefix tx), mct_token_id (mct_prefix tx)).
Definition mint_nonce_id (tx : MintTx) : NonceByTokenId :=
  (mint_nonce (mint_prefix tx), mint_token_id (mint_prefix tx)).

(** What the closure of a [combine] captured: the nonces seen, and, for mint
    transactions, the configurations used. *)
Definition Seen : Type := gset NonceByTokenId * gset MintConfig.

Section manager.
Context {L : Type} `{LR : LedgerReads L}.
Context `{X : TxCrypto} `{V : Verifier Ed25519Public Ed25519Signature} `{DG : MintDigests}.
Implicit Types self : MintTxManagerImpl L.

Definition from_ledger {A} (m : exec (result A Lmdb.Error)) : exec (result A MintTxManagerError) :=
  emap_err MintTxManagerError.LedgerDb m.

Definition mtm_validate_mint_config_tx self (tx : MintConfigTx) : exec (result unit MintTxManagerError) :=
  let^ seen := from_ledger (l_check_mint_config_tx_nonce (mtm_ledger_db self)
    (mct_token_id (mct_prefix tx)) (mct_nonce (mct_prefix tx))) in
  match seen with
  | Some _ => Done (Err (MintTxManagerError.MintValidation MintError.NonceAlreadyUsed))
  | None =>
      let token_id := mct_token_id (mct_prefix tx) in
      match GovernorsMap.get_governors_for_token (token_id_to_governors self) token_id with
      | None => Done (Err (MintTxManagerError.MintValidation (MintError.NoGovernors token_id)))
      | Some governors =>
          let^ current_block_index := from_ledger (l_num_blocks (mtm_ledger_db self)) in
          Done (map_err MintTxManagerError.MintValidation
            (MintValidation.validate_mint_config_tx tx (Some current_block_index)
               (mtm_block_version self) governors))
      end
  end.

(** The closure of [combine_mint_config_txs]. *)
Definition select_config (max_elements : nat) (seen_nonces : gset NonceByTokenId) (tx : MintConfigTx) :
    exec (bool * gset NonceByTokenId) :=
  let nonce_with_token_id := config_nonce tx in
  if (max_elements <=? size seen_nonces)%nat then Done (false, seen_nonces)
  else if bool_decide (nonce_with_token_id ∈ seen_nonces) then Done (false, seen_nonces)
  else Done (true, {[ nonce_with_token_id ]} ∪ seen_nonces).

Definition combine_mint_config_txs self (txs : list MintConfigTx) (max_elements : nat) :
    exec (result (list MintConfigTx) MintTxManagerError) :=
  let candidates := sort txs in
  let! (allowed_txs, _rejected_txs, _) := partition_mut (select_config max_elements) ∅ candidates in
  Done (Ok allowed_txs).

(** The [map_err] of the search for a configuration. *)
Definition config_lookup_error (err : Lmdb.Error) : MintTxManagerError :=
  match err with
  | NotFound => MintTxManagerError.MintValidation MintError.NoMatchingMintConfig
  | MintLimitExceeded _ _ _ => MintTxManagerError.MintValidation MintError.AmountExceedsMintLimit
  | err => MintTxManagerError.LedgerDb err
  end.

Definition mtm_validate_mint_tx self (tx : MintTx) : exec (result unit MintTxManagerError) :=
  let^ seen := from_ledger (l_check_mint_tx_nonce (mtm_ledger_db self)
    (mint_token_id (mint_prefix tx)) (mint_nonce (mint_prefix tx))) in
  match seen with
  | Some _ => Done (Err (MintTxManagerError.MintValidation MintError.NonceAlreadyUsed))
  | None =>
      let^ active_mint_config :=
        emap_err config_lookup_error (l_get_active_mint_config_for_mint_tx (mtm_ledger_db self) tx) in
      let^ current_block_index := from_ledger (l_num_blocks (mtm_ledger_db self)) in
      Done (map_err MintTxManagerError.MintValidation
        (MintValidation.validate_mint_tx tx current_block_index (mtm_block_version self)
           (amc_mint_config active_mint_config)))
  end.

(** The closure of [combine_mint_txs]. *)
Definition select_mint self (max_elements : nat) (seen : Seen) (tx : MintTx) : exec (bool * Seen) :=
  let '(seen_nonces, seen_mint_configs) := seen in
  let nonce_with_token_id := mint_nonce_id tx in
  if (max_elements <=? size seen_nonces)%nat then Done (false, seen)
  else if bool_decide (nonce_with_token_id ∈ seen_nonces) then Done (false, seen)
  else
    let! r := l_get_active_mint_config_for_mint_tx (mtm_ledger_db self) tx in
    match r with
    | Err _ => Done (false, seen)
    | Ok active_mint_config =>
        if bool_decide (amc_mint_config active_mint_config ∈ seen_mint_configs) then Done (false, seen)
        else Done (true, ({[ nonce_with_token_id ]} ∪ seen_nonces,
                          {[ amc_mint_config active_mint_config ]} ∪ seen_mint_configs))
    end.

Definition combine_mint_txs self (txs : list MintTx) (max_elements : nat) :
    exec (result (list MintTx) MintTxManagerError) :=
  let candidates := sort txs in
  let! (allowed_txs, _rejected_txs, _) := partition_mut (select_mint self max_elements) (∅, ∅) candidates in
  Done (Ok allowed_txs).

(** [mint_txs_with_config]: the transaction of each entry, the one that set the
    configurations of its token, and the configuration that accepts it. *)
Definition mint_tx_with_config self (mint_tx : MintTx) :
    exec (result (MintTx * MintConfigTx * MintConfig) MintTxManagerError) :=
  let^ o := from_ledger (l_get_active_mint_configs (mtm_ledger_db self)
    (mint_token_id (mint_prefix mint_tx))) in
  let^ active_mint_configs :=
    Done (ok_or o (MintTxManagerError.MintValidation MintError.NoMatchingMintConfig)) in
  let^ active_mint_config :=
    from_ledger (Done (amcs_get_config_for_mint_tx active_mint_configs mint_tx)) in
  Done (Ok (mint_tx, amcs_mint_config_tx active_mint_configs, amc_mint_config active_mint_config)).

Definition mint_txs_with_config self (txs : list MintTx) :
    exec (result (list (MintTx * MintConfigTx * MintConfig)) MintTxManagerError) :=
  emap (mint_tx_with_config self) txs.
End manager.
