(* ===== verification/MintTxManagerProps.v ===== *)
(** * Correctness of the mint transaction manager

    What the two [combine]s choose: a bounded, sorted selection of the
    candidates without clashes, to which no candidate left out could be added,
    and which does not depend on the order of the candidates.  For mint
    transactions the selection can be charged to the active configurations one
    after another exactly when it stays within the total limit of every token,
    which the choice does not look at. *)

From stdpp Require Import vector strings.
From S2P Require Import Prelude Ord Bytes Lmdb TxOut Membership MerkleTree TxOutStore TxOutStoreProps BlockVersion MaskedAmount Tx TxValidation Multisig Mint MintOrd MintStore MintStoreProps Block LedgerDb LedgerFrame LedgerProps LedgerAccept LedgerApi MintTxManager.

Open Scope N_scope.

(** ** Greedy choices *)

Section greedy.
Context {A S : Type} (f : S → A → exec (bool * S)).
Context (Inv : S → list A → Prop) (Rej : S → A → Prop).

(** Each call accepts its element, and the invariant holds with it added, or
    rejects it for a reason and changes nothing; reasons persist. *)
Lemma partition_mut_greedy l : ∀ s acc,
  (∀ s acc x, x ∈ l → Inv s acc → ∃ b s', f s x = Done (b, s') ∧
     if b : bool then Inv s' (acc ++ [x]) ∧ (∀ y, Rej s y → Rej s' y) else s' = s ∧ Rej s x) →
  Inv s acc →
  ∃ yes no s', partition_mut f s l = Done (yes, no, s') ∧ Inv s' (acc ++ yes) ∧
    yes `sublist_of` l ∧ (∀ y, y ∈ l → y ∈ yes ∨ Rej s' y) ∧ (∀ y, Rej s y → Rej s' y).
Proof.
  induction l as [|x l IH]; intros s acc Hf HI; simpl.
  { exists [], [], s. rewrite app_nil_r. split_and!; try done. by intros y ?%elem_of_nil. }
  destruct (Hf s acc x) as (b & s1 & -> & Hb); [by left|done|]. simpl.
  assert (Inv s1 (if b then acc ++ [x] else acc)) as HI1.
  { destruct b; [apply Hb|]. by destruct Hb as [-> _]. }
  destruct (IH s1 (if b then acc ++ [x] else acc)) as (yes & no & s2 & -> & HI2 & Hsub & Hall & Hmono);
    [by intros s0 acc0 y Hy; apply Hf; right|done|].
  destruct b; simpl.
  - destruct Hb as [_ Hr]. exists (x :: yes), no, s2. rewrite <-app_assoc in HI2. split_and!; [done|done|by constructor|..].
    + intros y [->|Hy]%elem_of_cons; [by left; left|]. destruct (Hall y Hy); [left; by right|by right].
    + auto.
  - destruct Hb as [-> Hr]. exists yes, (x :: no), s2. split_and!; [done|done|by constructor| |done].
    intros y [->|Hy]%elem_of_cons; [right; auto|auto].
Qed.
End greedy.

Section combine.
Context {L : Type} `{LR : LedgerReads L}.
Context `{X : TxCrypto} `{V : Verifier Ed25519Public Ed25519Signature} `{DG : MintDigests}.
Implicit Types self : MintTxManagerImpl L.

(** A new nonce, when the nonces seen are those of the transactions taken. *)
Lemma seen_add {A} (g : A → NonceByTokenId) acc x :
  NoDup (g <$> acc) → g x ∉ (list_to_set (g <$> acc) : gset _) →
  NoDup (g <$> acc ++ [x]) ∧
  {[ g x ]} ∪ list_to_set (g <$> acc) = (list_to_set (g <$> acc ++ [x]) : gset NonceByTokenId).
Proof.
  intros Hnd Hx. rewrite fmap_app. split.
  - apply NoDup_app. split_and!; [done| |apply NoDup_singleton].
    intros y Hy ->%list_elem_of_singleton. apply Hx, elem_of_list_to_set, Hy.
  - rewrite list_to_set_app_L. set_solver.
Qed.

Lemma combine_config_spec self txs max :
  ∃ l, combine_mint_config_txs self txs max = Done (Ok l) ∧ l `sublist_of` sort txs ∧
    (length l <= max)%nat ∧ NoDup (config_nonce <$> l) ∧
    ∀ tx, tx ∈ txs → tx ∈ l ∨ length l = max ∨ config_nonce tx ∈ config_nonce <$> l.
Proof.
  destruct (partition_mut_greedy (select_config max)
    (λ s acc, s = list_to_set (config_nonce <$> acc) ∧ NoDup (config_nonce <$> acc) ∧ (length acc <= max)%nat)
    (λ s x, (max <= size s)%nat ∨ config_nonce x ∈ s) (sort txs) ∅ [])
    as (yes & no & s & E & (-> & Hnd & Hlen) & Hsub & Hall & _).
  - intros s acc x _ (-> & Hnd & Hlen). unfold select_config.
    assert (size (list_to_set (config_nonce <$> acc) : gset _) = length acc) as Es.
    { by rewrite size_list_to_set, length_fmap. }
    destruct (Nat.leb_spec max (size (list_to_set (config_nonce <$> acc) : gset NonceByTokenId))) as [Hge|Hlt].
    { exists false. eexists. split; [reflexivity|]. split; [reflexivity|by left]. }
    case_bool_decide as Hin. { exists false. eexists. split; [reflexivity|]. split; [reflexivity|by right]. }
    destruct (seen_add config_nonce acc x Hnd Hin) as [Hnd' Eu].
    exists true, (list_to_set (config_nonce <$> acc ++ [x])). rewrite Eu. split; [reflexivity|].
    split; [split_and!; [reflexivity|exact Hnd'|rewrite length_app; simpl; lia]|].
    rewrite <-Eu. intros y [Hy|Hy]; [left|right; by apply elem_of_union_r].
    etrans; [exact Hy|]. apply subseteq_size, union_subseteq_r.
  - split_and!; [done|constructor|simpl; lia].
  - exists yes. unfold combine_mint_config_txs. rewrite E. split_and!; [done..|].
    intros tx Htx. rewrite size_list_to_set, length_fmap in Hall by done.
    destruct (Hall tx) as [?|[?|Hn]]; [by apply elem_of_sort_by|by left|right; left; simpl in *; lia|].
    right; right. by apply elem_of_list_to_set in Hn.
Qed.

(** The configuration the ledger finds for a transaction. *)
Definition active_config self (tx : MintTx) (c : MintConfig) : Prop :=
  ∃ a, l_get_active_mint_config_for_mint_tx (mtm_ledger_db self) tx = Done (Ok a) ∧ amc_mint_config a = c.

(** The closure of [combine_mint_txs] keeps the nonces and the configurations
    of what it has accepted. *)
Definition mints_seen self (max : nat) (s : Seen) (acc : list MintTx) : Prop :=
  s.1 = list_to_set (mint_nonce_id <$> acc) ∧ NoDup (mint_nonce_id <$> acc) ∧ (length acc <= max)%nat ∧
  ∃ cs, Forall2 (active_config self) acc cs ∧ NoDup cs ∧ s.2 = list_to_set cs.

Definition mint_rejected self (max : nat) (s : Seen) (tx : MintTx) : Prop :=
  (max <= size s.1)%nat ∨ mint_nonce_id tx ∈ s.1 ∨ (∀ c, ¬ active_config self tx c) ∨
  ∃ c, active_config self tx c ∧ c ∈ s.2.

Lemma mint_rejected_mono self max s s' tx :
  s.1 ⊆ s'.1 → s.2 ⊆ s'.2 → mint_rejected self max s tx → mint_rejected self max s' tx.
Proof.
  intros H1 H2 [Hs|[Hn|[Hc|(c & Hc & Hin)]]].
  - left. etrans; [exact Hs|]. by apply subseteq_size.
  - right; left. by apply H1.
  - right; right; by left.
  - right; right; right. exists c. split; [done|by apply H2].
Qed.

Lemma select_mint_spec self max s acc tx :
  (∃ r, l_get_active_mint_config_for_mint_tx (mtm_ledger_db self) tx = Done r) →
  mints_seen self max s acc →
  ∃ b s', select_mint self max s tx = Done (b, s') ∧
    if b : bool
    then mints_seen self max s' (acc ++ [tx]) ∧
         (∀ y, mint_rejected self max s y → mint_rejected self max s' y)
    else s' = s ∧ mint_rejected self max s tx.
Proof.
  intros [r Hr] (Es & Hnd & Hlen & cs & Hcs & Hndc & Ec). destruct s as [ns ss]. simpl in Es, Ec.
  unfold select_mint. rewrite Hr. simpl.
  destruct (Nat.leb_spec max (size ns)) as [Hge|Hlt]; [exists false; eexists; split; [reflexivity|]; split; [reflexivity|by left]|].
  case_bool_decide as Hin.
  { exists false. eexists. split; [reflexivity|]. split; [reflexivity|]. right; by left. }
  destruct r as [c|e].
  2:{ exists false. eexists. split; [reflexivity|]. split; [reflexivity|]. right; right; left. intros c (a & Ha & _). congruence. }
  case_bool_decide as Hc.
  { exists false. eexists. split; [reflexivity|]. split; [reflexivity|]. right; right; right.
    exists (amc_mint_config c). split; [by exists c|done]. }
  exists true. eexists. split; [reflexivity|]. subst ns ss. split.
  - destruct (seen_add mint_nonce_id acc tx Hnd Hin) as [Hnd' Eu].
    rewrite size_list_to_set, length_fmap in Hlt by done.
    split_and!; [done..|rewrite length_app; simpl; lia|].
    exists (cs ++ [amc_mint_config c]). split_and!.
    + apply Forall2_app; [done|]. constructor; [by exists c|constructor].
    + apply NoDup_app. split_and!; [done| |apply NoDup_singleton].
      intros y Hy ->%list_elem_of_singleton. apply Hc. simpl. by apply elem_of_list_to_set.
    + simpl. rewrite list_to_set_app_L. set_solver.
  - intros y. apply mint_rejected_mono; simpl; set_solver.
Qed.

Lemma combine_mints_spec self txs max :
  (∀ tx, tx ∈ txs → ∃ r, l_get_active_mint_config_for_mint_tx (mtm_ledger_db self) tx = Done r) →
  ∃ l cs, combine_mint_txs self txs max = Done (Ok l) ∧ l `sublist_of` sort txs ∧
    (length l <= max)%nat ∧ NoDup (mint_nonce_id <$> l) ∧
    Forall2 (active_config self) l cs ∧ NoDup cs ∧
    ∀ tx, tx ∈ txs → tx ∈ l ∨ length l = max ∨ mint_nonce_id tx ∈ mint_nonce_id <$> l ∨
      (∀ c, ¬ active_config self tx c) ∨ ∃ c, active_config self tx c ∧ c ∈ cs.
Proof.
  intros Hr.
  destruct (partition_mut_greedy (select_mint self max) (mints_seen self max) (mint_rejected self max)
    (sort txs) (∅, ∅) []) as (yes & no & s & E & (Es & Hnd & Hlen & cs & Hcs & Hndc & Ec) & Hsub & Hall & _).
  - intros s acc x Hx. apply select_mint_spec, Hr. by apply elem_of_sort_by in Hx.
  - split_and!; [done|constructor|simpl; lia|]. exists []. by split_and!; [constructor|constructor|].
  - exists yes, cs. unfold combine_mint_txs. rewrite E. split_and!; [done..|].
    intros tx Htx. destruct (Hall tx) as [?|Hrej]; [by apply elem_of_sort_by|by left|].
    destruct Hrej as [Hs|[Hn|[Hc|(c & Hc & Hin)]]].
    + right; left. rewrite Es, size_list_to_set, length_fmap in Hs by done. simpl in *. lia.
    + right; right; left. rewrite Es in Hn. by apply elem_of_list_to_set in Hn.
    + right; right; right; by left.
    + right; right; right; right. exists c. split; [done|]. rewrite Ec in Hin. by apply elem_of_list_to_set in Hin.
Qed.

Lemma combine_config_perm self txs txs' max :
  txs ≡ₚ txs' → combine_mint_config_txs self txs' max = combine_mint_config_txs self txs max.
Proof. intros Hp. unfold combine_mint_config_txs. by rewrite (sort_perm_eq txs txs' Hp). Qed.

Lemma combine_mints_perm self txs txs' max :
  txs ≡ₚ txs' → combine_mint_txs self txs' max = combine_mint_txs self txs max.
Proof. intros Hp. unfold combine_mint_txs. by rewrite (sort_perm_eq txs txs' Hp). Qed.
End combine.

(** ** Charging the selection *)

Section charge.
Context `{V : Verifier Ed25519Public Ed25519Signature} `{DG : MintDigests}.
Implicit Types (tx : MintTx) (m : gmap N ActiveMintConfigs).

(** [c] is the first configuration that accepts the transaction. *)
Definition selects m tx (c : MintConfig) : Prop :=
  ∃ a l1 x l2, m !! mint_token_id (mint_prefix tx) = Some a ∧ amcs_configs a = l1 ++ x :: l2 ∧
    amc_mint_config x = c ∧ mint_accepts tx x ∧ Forall (λ y, ¬ mint_accepts tx y) l1.

(** The total limits have room for a block. *)
Definition within_limits m (txs : list MintTx) : Prop :=
  ∀ tok a, m !! tok = Some a → minted_sum a + block_mints txs tok <= amcs_total_mint_limit a.

Lemma block_mints_cons tx txs tok :
  block_mints (tx :: txs) tok =
  (if decide (mint_token_id (mint_prefix tx) = tok) then mint_amount (mint_prefix tx) else 0)
  + block_mints txs tok.
Proof.
  unfold block_mints. case_decide; [rewrite filter_cons_True by done|rewrite filter_cons_False by done];
    [|lia]. done.
Qed.

Lemma accepts_add tx x amount : mint_accepts tx (add_minted x amount) → mint_accepts tx x.
Proof. unfold mint_accepts. simpl. intros [? ?]. split; [done|lia]. Qed.

Lemma selects_mint_step m tx c :
  selects m tx c →
  (∀ a, m !! mint_token_id (mint_prefix tx) = Some a →
     minted_sum a + mint_amount (mint_prefix tx) <= amcs_total_mint_limit a) →
  ∃ m', mint_step m tx m'.
Proof.
  intros (a & l1 & x & l2 & Ha & E & _ & Hx & Hn) Hlim. eexists. eapply mint_step_intro; eauto.
Qed.

(** A step leaves the choice of the other configurations as it is. *)
Lemma selects_step m tx m' c tx' c' :
  map_ok m → mint_step m tx m' → selects m tx c → selects m tx' c' → c ≠ c' → selects m' tx' c'.
Proof.
  intros Hok Hstep (a0 & k1 & x & k2 & Ha0 & E0 & Hc & Hx & Hn0) (b & l1' & y & l2' & Hb & E' & Hc' & Hy & Hn') Hne.
  destruct Hstep as [a l1 z l2 Ha E Hz Hn _].
  assert (a0 = a) as -> by congruence.
  destruct (first_split (mint_accepts tx) _ _ _ _ _ _ (eq_trans (eq_sym E) E0) Hz Hx Hn Hn0) as (<- & <- & <-).
  destruct (decide (mint_token_id (mint_prefix tx) = mint_token_id (mint_prefix tx'))) as [Et|Et].
  2:{ exists b, l1', y, l2'. by rewrite lookup_insert_ne. }
  rewrite Et in *. assert (b = a) as -> by congruence. unfold selects. setoid_rewrite lookup_insert_eq.
  rewrite E in E'.
  apply app_eq_inv in E' as [(k & -> & Ek)|(k & -> & Ek)].
  - destruct k as [|w k]; simpl in Ek; injection Ek as Ey El; subst.
    { done. }
    eexists _, l1', w, (k ++ add_minted z (mint_amount (mint_prefix tx)) :: l2).
    split_and!; [reflexivity|cbn [amcs_configs]; by rewrite <-app_assoc|done..].
  - destruct k as [|w k]; simpl in Ek; injection Ek as Ey El; subst.
    { done. }
    eexists _, (l1 ++ add_minted w (mint_amount (mint_prefix tx)) :: k), y, l2'.
    split_and!; [reflexivity|cbn [amcs_configs]; by rewrite <-app_assoc|done|done|].
    rewrite Forall_app, Forall_cons in *. destruct Hn' as (? & Hw & ?). split_and!; [done| |done].
    by intros ?%accepts_add.
Qed.

Lemma within_limits_step m tx txs m' :
  mint_step m tx m' → within_limits m (tx :: txs) → within_limits m' txs.
Proof.
  intros Hs Hw tok a' Ha'. destruct Hs as [a l1 c l2 Ha E _ _ _].
  apply lookup_insert_Some in Ha' as [[<- <-]|[Hne Ha']].
  - specialize (Hw _ _ Ha). rewrite block_mints_cons, decide_True in Hw by done.
    rewrite minted_sum_add, <-E. destruct a as [l ctx]. unfold amcs_total_mint_limit in *.
    cbn [amcs_configs amcs_mint_config_tx] in *. lia.
  - specialize (Hw _ _ Ha'). by rewrite block_mints_cons, decide_False in Hw.
Qed.

Lemma Forall2_impl_r {A B} (P Q : A → B → Prop) l k :
  Forall2 P l k → (∀ x y, y ∈ k → P x y → Q x y) → Forall2 Q l k.
Proof.
  induction 1 as [|x y l k Hxy _ IH]; intros HQ; constructor.
  - apply HQ; [by left|done].
  - apply IH. intros x' y' Hy'. apply HQ. by right.
Qed.

Lemma selected_steps m txs cs :
  map_ok m → Forall2 (selects m) txs cs → NoDup cs → within_limits m txs →
  ∃ m', steps mint_step m txs m'.
Proof.
  intros Hok Hsel. revert m Hok Hsel. revert cs. induction txs as [|tx txs IH]; intros cs m Hok Hsel Hnd Hw.
  { exists m. constructor. }
  inversion Hsel as [|? c ? cs' Htx Htxs]; subst. apply NoDup_cons in Hnd as [Hc Hnd].
  destruct (selects_mint_step m tx c Htx) as [m1 Hs].
  { intros a Ha. specialize (Hw _ _ Ha). rewrite block_mints_cons, decide_True in Hw by done. lia. }
  destruct (IH cs' m1) as [m' Hm']; [by eapply map_ok_step| |done|by eapply within_limits_step|].
  - eapply Forall2_impl_r; [exact Htxs|]. intros tx' c' Hc' Hsel'.
    eapply selects_step; [done..|]. intros ->. done.
  - exists m'. by econstructor.
Qed.

(** What can be charged is within the limits. *)
Lemma steps_within_limits m txs m' :
  map_ok m → steps mint_step m txs m' → within_limits m txs.
Proof.
  intros Hok Hs tok a Ha. pose proof (map_ok_steps _ _ _ Hok Hs) as Hok'.
  pose proof (minted_steps _ _ _ tok Hs) as Hm. unfold minted in Hm. rewrite Ha in Hm. simpl in Hm.
  assert (∃ a', m' !! tok = Some a' ∧ amcs_total_mint_limit a' = amcs_total_mint_limit a) as (a' & Ha' & El).
  { clear Hm Hok Hok'. revert a Ha. induction Hs as [m|m tx m1 txs m2 Hs _ IH]; intros a Ha; [by exists a|].
    destruct Hs as [b l1 c l2 Hb E _ _ _].
    destruct (decide (mint_token_id (mint_prefix tx) = tok)) as [<-|Hne].
    - destruct (IH _ (lookup_insert_eq _ _ _)) as (a' & Ha' & Hl).
      exists a'. split; [done|]. rewrite Hl. by replace b with a by congruence.
    - apply IH. by rewrite lookup_insert_ne. }
  rewrite Ha' in Hm. simpl in Hm. rewrite <-Hm, <-El. by apply ao_total with tok, Hok'.
Qed.
End charge.

(** ** With the ledger's database *)

Section database.
Context {T : Type} `{Transaction T} `{!TransactionLaws T} `{D : Digests} `{C : TxOutCodec}.
Context `{X : TxCrypto} `{V : Verifier Ed25519Public Ed25519Signature} `{DG : MintDigests} `{MC : MintCodec}.
Context {Sig Meta : Type} `{LC : LedgerCodec Sig Meta}.
Context (db : LedgerDB).
#[local] Existing Instance LedgerDB_reads.
Implicit Types (self : MintTxManagerImpl T) (m : gmap N ActiveMintConfigs).

Lemma db_active_config m env tx :
  active_view (mint_config_store db) env m → mint_token_id (mint_prefix tx) < u64_modulus →
  l_get_active_mint_config_for_mint_tx (LedgerReads:=LedgerDB_reads db) env tx =
  Done (match m !! mint_token_id (mint_prefix tx) with
        | Some a => amcs_get_config_for_mint_tx a tx
        | None => Err NotFound
        end).
Proof.
  intros Hv Htok. simpl. unfold ledger_get_active_mint_config_for_mint_tx, ro.
  by rewrite (get_config_for_tx _ _ _ _ Hv Htok).
Qed.

Lemma active_config_selects m self tx c :
  active_view (mint_config_store db) (mtm_ledger_db self) m → map_ok m →
  mint_token_id (mint_prefix tx) < u64_modulus →
  active_config (LR:=LedgerDB_reads db) self tx c → selects m tx c.
Proof.
  intros Hv Hok Htok (x & Hx & <-). rewrite (db_active_config m) in Hx by done.
  destruct (m !! _) as [a|] eqn:Ha; [|done]. injection Hx as Hx.
  apply (get_config_Ok _ _ _ _ (Hok _ _ Ha)) in Hx as (_ & l1 & l2 & E & Hacc & Hn).
  by exists a, l1, x, l2.
Qed.
End database.

(** ** Theorems *)

Module MintTxManagerProps.
Section props.
Context {L : Type} `{LR : LedgerReads L}.
Context `{X : TxCrypto} `{V : Verifier Ed25519Public Ed25519Signature} `{DG : MintDigests}.
Implicit Types self : MintTxManagerImpl L.

(** The mint-config transactions of a block are a sorted selection of at
    most [max_elements] candidates, no two of which have the same nonce for the
    same token; a candidate is left out only when the block is full or its nonce
    is taken; and the selection does not depend on the order of the candidates. *)
Theorem combine_mint_config_txs_correct self txs max_elements :
  ∃ l, (∀ txs', txs' ≡ₚ txs → combine_mint_config_txs self txs' max_elements = Done (Ok l)) ∧
    l `sublist_of` sort txs ∧ (length l <= max_elements)%nat ∧ NoDup (config_nonce <$> l) ∧
    ∀ tx, tx ∈ txs → tx ∈ l ∨ length l = max_elements ∨ config_nonce tx ∈ config_nonce <$> l.
Proof.
  destruct (combine_config_spec self txs max_elements) as (l & E & Hl). exists l. split; [|done].
  intros txs' Hp. rewrite <-E. unfold combine_mint_config_txs. by rewrite (sort_perm_eq _ _ Hp).
Qed.

(** The mint transactions of a block are a sorted selection of at most
    [max_elements] candidates, each accepted by an active configuration, with no
    nonce and no configuration used twice; a candidate is left out only when the
    block is full, its nonce is taken, no configuration accepts it or the one
    that does is taken; and the selection does not depend on the order of the
    candidates. *)
Theorem combine_mint_txs_correct self txs max_elements :
  (∀ tx, tx ∈ txs → ∃ r, l_get_active_mint_config_for_mint_tx (mtm_ledger_db self) tx = Done r) →
  ∃ l cs, (∀ txs', txs' ≡ₚ txs → combine_mint_txs self txs' max_elements = Done (Ok l)) ∧
    l `sublist_of` sort txs ∧ (length l <= max_elements)%nat ∧ NoDup (mint_nonce_id <$> l) ∧
    Forall2 (active_config self) l cs ∧ NoDup cs ∧
    ∀ tx, tx ∈ txs → tx ∈ l ∨ length l = max_elements ∨ mint_nonce_id tx ∈ mint_nonce_id <$> l ∨
      (∀ c, ¬ active_config self tx c) ∨ ∃ c, active_config self tx c ∧ c ∈ cs.
Proof.
  intros Hr. destruct (combine_mints_spec self txs max_elements Hr) as (l & cs & E & Hl).
  exists l, cs. split; [|done]. intros txs' Hp. rewrite <-E. by apply combine_mints_perm.
Qed.
End props.

Section database.
Context {T : Type} `{Transaction T} `{!TransactionLaws T} `{D : Digests} `{C : TxOutCodec}.
Context `{X : TxCrypto} `{V : Verifier Ed25519Public Ed25519Signature} `{DG : MintDigests} `{MC : MintCodec}.
Context {Sig Meta : Type} `{LC : LedgerCodec Sig Meta}.
Implicit Types (self : MintTxManagerImpl T) (m : gmap N ActiveMintConfigs).

(** The mint transactions chosen for a block can be charged to the active
    configurations of the ledger, one after another, exactly when together they
    stay within the total limit of every token. *)
Theorem combined_mint_txs_chargeable (db : LedgerDB) self m txs max_elements l :
  active_view (mint_config_store db) (mtm_ledger_db self) m → map_ok m →
  (∀ tx, tx ∈ txs → mint_token_id (mint_prefix tx) < u64_modulus) →
  combine_mint_txs (LR:=LedgerDB_reads db) self txs max_elements = Done (Ok l) →
  (∃ m', steps mint_step m l m') ↔ within_limits m l.
Proof.
  intros Hv Hok Htok E. split; [intros [m' Hm']; by eapply steps_within_limits|]. intros Hw.
  destruct (combine_mints_spec (LR:=LedgerDB_reads db) self txs max_elements)
    as (l' & cs & E' & Hsub & _ & _ & Hcs & Hnd & _).
  { intros tx Htx. rewrite (db_active_config db m) by auto. by eexists. }
  rewrite E in E'. injection E' as <-. eapply selected_steps; [done| |exact Hnd|done].
  apply Forall2_flip in Hcs. apply Forall2_flip. eapply Forall2_impl_r; [exact Hcs|].
  intros c tx Htx Hc. unfold flip in *. eapply (active_config_selects db); [done..| |done].
  apply Htok. by eapply elem_of_sort_by, elem_of_sublist.
Qed.
End database.

(** *** An example: two configurations that share a total limit *)

#[local] Existing Instance MembershipProps.toy_digests.
#[local] Existing Instance StoreProps.toy_codec.
#[local] Existing Instance MintStoreProps.toy_ed25519.
#[local] Existing Instance MintStoreProps.toy_mint_digests.
#[local] Existing Instance MintStoreProps.toy_mint_codec.
#[local] Existing Instance ValidationProps.toy_tx_crypto.
#[local] Existing Instance LedgerAcceptProps.toy_ledger_codec.

Definition ex_signer (k : N) : SignerSet bytes32 := SignerSet_new [vreplicate 32 (u8 k)] 1.
Definition ex_two_configs : MintConfigTx :=
  MintStoreProps.ex_config_tx [mkMintConfig 5 (ex_signer 3) 50; mkMintConfig 5 (ex_signer 4) 60] 90.
Definition ex_active2 : ActiveMintConfigs := ActiveMintConfigs_from ex_two_configs.
Definition ex_mint_by (k amount : N) : MintTx :=
  mkMintTx (mkMintTxPrefix 5 amount (vreplicate 32 (u8 0)) (vreplicate 32 (u8 0))
    (replicate 64 (u8 k)) 10 None) (mkMultiSig [vreplicate 64 (u8 k)]).

(** A ledger of one block in which these configurations are active. *)
Definition ex_db : LedgerDB :=
  mkLedgerDB 5 6 7 8 9 10 (mkTxOutStore 11 12 13 14 15) 16 17 MintStoreProps.ex_config_store
    MintStoreProps.ex_mint_store.
Definition ex_env : map_txn :=
  <[ (5, NUM_BLOCKS_KEY) := u64_to_key_bytes 1 ]> (MintStoreProps.ex_state ex_active2).
Definition ex_manager : MintTxManagerImpl map_txn :=
  mkMintTxManagerImpl ex_env 3 (GovernorsMap.mkGovernorsMap ∅).
#[local] Instance ex_reads : LedgerReads map_txn := LedgerDB_reads ex_db.

(** What is chosen for a block need not be safe to append.  Here both
    transactions are valid on their own and both are chosen, since they use
    different configurations, but together they exceed the total limit of their
    token, and writing them fails. *)
Theorem combined_mint_txs_exceed_limit :
  let txs := [ex_mint_by 3 50; ex_mint_by 4 60] in
  Forall (λ tx, mtm_validate_mint_tx ex_manager tx = Done (Ok tt)) txs ∧
  combine_mint_txs ex_manager txs MAX_MINT_TXS_PER_BLOCK = Done (Ok txs) ∧
  ∃ t', write_mint_txs (mint_tx_store ex_db) 1 txs (mint_config_store ex_db) ex_env =
        Done (Err (MintLimitExceeded 60 50 90), t').
Proof.
  intros txs. split.
  { constructor; [vm_compute; reflexivity|].
    constructor; [vm_compute; reflexivity|constructor]. }
  split; [vm_compute; reflexivity|].
  assert (match write_mint_txs (mint_tx_store ex_db) 1 txs (mint_config_store ex_db) ex_env with
          | Done (r, _) => Some r | _ => None end = Some (Err (MintLimitExceeded 60 50 90))) as Hr
    by (vm_compute; reflexivity).
  destruct (write_mint_txs _ _ _ _ _) as [[r t']| |]; [|discriminate Hr..].
  exists t'. by injection Hr as ->.
Qed.

(** *** Witnesses *)

Lemma ex_env_view : active_view (mint_config_store ex_db) ex_env {[ 5 := ex_active2 ]}.
Proof.
  eapply active_view_same; [|apply MintStoreProps.ex_view].
  intros k. unfold ex_env. simpl. by rewrite lookup_insert_ne.
Qed.

Lemma ex_active2_ok : map_ok {[ 5 := ex_active2 ]}.
Proof.
  intros tok a [<- <-]%lookup_singleton_Some. apply (active_from_ok ex_two_configs); [done|].
  split_and!; [|by repeat constructor|done]. apply NoDup_cons. split; [|apply NoDup_singleton].
  intros E%list_elem_of_singleton. discriminate E.
Qed.

Lemma combine_mint_txs_correct_witness :
  ∃ l cs, combine_mint_txs ex_manager [ex_mint_by 4 60; ex_mint_by 3 20] 1 = Done (Ok l) ∧
    Forall2 (active_config ex_manager) l cs ∧ (length l <= 1)%nat.
Proof.
  destruct (combine_mint_txs_correct ex_manager [ex_mint_by 3 20; ex_mint_by 4 60] 1)
    as (l & cs & E & _ & Hlen & _ & Hcs & _).
  - intros tx Htx. eexists. apply (db_active_config ex_db {[ 5 := ex_active2 ]}); [exact ex_env_view|].
    apply elem_of_cons in Htx as [->| ->%list_elem_of_singleton]; done.
  - exists l, cs. split; [apply E, Permutation_swap|split; [exact Hcs|exact Hlen]].
Defined.

Lemma combined_mint_txs_chargeable_witness :
  let l := [ex_mint_by 3 20; ex_mint_by 4 60] in
  combine_mint_txs ex_manager l 10 = Done (Ok l) ∧ ∃ m', steps mint_step {[ 5 := ex_active2 ]} l m'.
Proof.
  intros l. assert (combine_mint_txs ex_manager l 10 = Done (Ok l)) as E by (vm_compute; reflexivity).
  split; [exact E|].
  apply (combined_mint_txs_chargeable ex_db ex_manager {[ 5 := ex_active2 ]} l 10 l);
    [exact ex_env_view|exact ex_active2_ok| |exact E|].
  - intros tx [->| ->%list_elem_of_singleton]%elem_of_cons; done.
  - intros tok a [<- <-]%lookup_singleton_Some. vm_compute. discriminate.
Defined.
End MintTxManagerProps.
