(* ===== verification/CtArith.v ===== *)
(** * Constant-time arithmetic of the enclave

    [consensus/enclave/impl/src/constant_time_division.rs]: the long division
    that gives a transaction its priority.
    [consensus/enclave/impl/src/constant_time_token_map.rs]: the map from token
    ids to fees, whose operations scan all its entries, and the sort that moves
    the tokens without fees to the end.  What is modelled is the result of the
    operations, not the time they take. *)

From S2P Require Import Prelude Ord Bytes TxOut BlockVersion MaskedAmount Tx.

Open Scope N_scope.

(** ** Division *)

Definition u64_mul (a b : N) : N := (a * b) mod u64_modulus.

(** One bit of the quotient. *)
Definition ct_divide_step (n d : N) (qr : N * N) (i : N) : N * N :=
  let q := u64_shl qr.1 1 in
  let r := u64_shl qr.2 1 in
  let r := u64_add r (N.land (N.shiftr n i) 1) in
  let must_reduce := N.b2n (negb (r <? d)) in
  let r := u64_sub r (u64_mul d must_reduce) in
  let q := u64_add q must_reduce in
  (q, r).

Definition ct_u64_divide (n d : N) : exec (N * N) :=
  assert! negb (d =? 0) in
  Done (foldl (ct_divide_step n d) (0, 0) (N.of_nat <$> rev (seq 0 64))).

(** ** The token map *)

(** A [CtTokenMap] is its [storage]. *)
Notation CtTokenMap T := (list (N * T)).

Section token_map.
Context {T : Type}.
Implicit Types m : CtTokenMap T.

(** [get]: the last entry with the key. *)
Definition ct_get m (token_id : N) : option T :=
  foldl (λ result e, if e.1 =? token_id then Some e.2 else result) None m.

(** [set] and [add], with whether the token is present. *)
Definition ct_update (f : T → T) m (token_id : N) : bool * CtTokenMap T :=
  (existsb (λ e, e.1 =? token_id) m, (λ e, (e.1, if e.1 =? token_id then f e.2 else e.2)) <$> m).
Definition ct_set m (token_id : N) (new_val : T) : bool * CtTokenMap T := ct_update (λ _, new_val) m token_id.

Definition ct_keys m : list N := m.*1.

(** [FromIterator<TokenId>]. *)
Definition ct_from_keys (zero : T) (keys : list N) : CtTokenMap T := (λ k, (k, zero)) <$> keys.

(** [sort_zeroes_to_end]: the pass of one element over those on its left. *)
Context (is_zero : T → bool).
Fixpoint swap_pass (lefts : CtTokenMap T) (next : N * T) : CtTokenMap T * (N * T) :=
  match lefts with
  | [] => ([], next)
  | candidate :: lefts =>
      let should_swap := is_zero candidate.2 && negb (is_zero next.2) in
      let '(candidate, next) := if should_swap then (next, candidate) else (candidate, next) in
      let '(lefts, next) := swap_pass lefts next in
      (candidate :: lefts, next)
  end.

Definition sort_step m (split_pos : nat) : CtTokenMap T :=
  match drop split_pos m with
  | next :: rights =>
      let '(lefts, next) := swap_pass (take split_pos m) next in lefts ++ next :: rights
  | [] => m
  end.

Definition sort_zeroes_to_end m : CtTokenMap T :=
  if (length m <? 2)%nat then m
  else foldl sort_step m (rev (seq 1 (length m - 1))).
End token_map.

(** [add] of a [u128]. *)
Definition ct_add_u128 (m : CtTokenMap N) (token_id addend : N) : bool * CtTokenMap N :=
  ct_update (λ val, u128_add addend val) m token_id.

(** ** Properties *)

Module CtArithProps.

(** *** Division *)

Lemma shiftr_succ n i : N.shiftr n i = 2 * N.shiftr n (i + 1) + N.b2n (N.testbit n i).
Proof.
  rewrite N.add_1_r, N.shiftr_succ_r, (N.div2_odd (N.shiftr n i)) at 1.
  f_equal. f_equal. by rewrite <-N.bit0_odd, N.shiftr_spec', N.add_0_l.
Qed.

Lemma shiftr_bit n i : N.land (N.shiftr n i) 1 = N.b2n (N.testbit n i).
Proof.
  change 1 with (N.ones 1). rewrite N.land_ones. change (2 ^ 1) with 2.
  rewrite <-N.bit0_mod, N.shiftr_spec', N.add_0_l. done.
Qed.

Lemma ct_divide_step_ok n d i :
  0 < d → n < u64_modulus → d < u64_modulus →
  ct_divide_step n d (N.shiftr n (i + 1) / d, N.shiftr n (i + 1) mod d) i =
  (N.shiftr n i / d, N.shiftr n i mod d).
Proof.
  intros Hd Hn Hd'. unfold ct_divide_step. cbn [fst snd].
  rewrite shiftr_bit, (shiftr_succ n i). set (a := N.shiftr n (i + 1)). set (b := N.b2n (N.testbit n i)).
  assert (b <= 1) as Hb by (unfold b; destruct (N.testbit n i); simpl; lia).
  assert (2 * a + b < u64_modulus) as Hx.
  { unfold a, b. rewrite <-shiftr_succ. rewrite N.shiftr_div_pow2.
    eapply N.le_lt_trans; [|exact Hn]. apply N.div_le_upper_bound; [lia|]. nia. }
  pose proof (N.div_mod' a d) as Ha. pose proof (N.mod_lt a d ltac:(lia)) as Hr.
  set (q := a / d) in *. set (r := a mod d) in *. clearbody q r a b.
  assert (q <= d * q) as Hq by nia.
  assert (∀ x, 2 * x < u64_modulus → u64_shl x 1 = 2 * x) as Hshl.
  { intros x Hlt. unfold u64_shl. change (1 mod 64) with 1. rewrite N.shiftl_mul_pow2, N.mod_small; lia. }
  rewrite !Hshl by lia. rewrite !(u64_add_small (2 * r) b) by lia.
  destruct (N.ltb_spec (2 * r + b) d) as [Hlt|Hge]; cbn [negb N.b2n].
  - unfold u64_mul. rewrite N.mul_0_r. change (0 mod u64_modulus) with 0.
    unfold u64_sub. change (u64_modulus - 0 mod u64_modulus) with (1 * u64_modulus).
    rewrite N.Div0.mod_add, (N.mod_small (2 * r + b)), (u64_add_small (2 * q) 0), N.add_0_r by lia.
    f_equal; [eapply (N.div_unique _ _ _ (2 * r + b))|eapply (N.mod_unique _ _ (2 * q))]; nia.
  - unfold u64_mul. rewrite N.mul_1_r, (N.mod_small d) by lia.
    unfold u64_sub. rewrite (N.mod_small d) by lia.
    replace (2 * r + b + (u64_modulus - d)) with (2 * r + b - d + 1 * u64_modulus) by lia.
    rewrite N.Div0.mod_add, (N.mod_small (2 * r + b - d)), (u64_add_small (2 * q) 1) by nia.
    f_equal; [eapply (N.div_unique _ _ _ (2 * r + b - d))|eapply (N.mod_unique _ _ (2 * q + 1))]; nia.
Qed.
Lemma ct_divide_loop n d k :
  0 < d → n < u64_modulus → d < u64_modulus →
  foldl (ct_divide_step n d) (N.shiftr n (N.of_nat k) / d, N.shiftr n (N.of_nat k) mod d)
    (N.of_nat <$> rev (seq 0 k)) = (n / d, n mod d).
Proof.
  intros Hd Hn Hd'. induction k as [|k IH]; [done|].
  rewrite seq_S, rev_app_distr. cbn [rev app fmap list_fmap foldl]. rewrite Nat.add_0_l.
  replace (N.of_nat (S k)) with (N.of_nat k + 1) by lia.
  by rewrite ct_divide_step_ok.
Qed.

Lemma ct_divide_exact n d :
  n < u64_modulus → d < u64_modulus →
  ct_u64_divide n d = if d =? 0 then Panic else Done (n / d, n mod d).
Proof.
  intros Hn Hd. unfold ct_u64_divide. destruct (N.eqb_spec d 0) as [->|Hne]; [done|]. simpl negb. cbv iota.
  f_equal. rewrite <-(ct_divide_loop n d 64) by lia. f_equal.
  assert (N.shiftr n (N.of_nat 64) = 0) as ->.
  { rewrite N.shiftr_div_pow2. apply N.div_small. exact Hn. }
  rewrite N.Div0.div_0_l, N.Div0.mod_0_l. done.
Qed.

(** The constant-time division is division: for every divisor but 0, on
    which it panics, it returns the quotient and the remainder.  No step
    overflows, however large the divisor. *)
Theorem ct_u64_divide_correct n d :
  n < u64_modulus → d < u64_modulus →
  ct_u64_divide n d = if d =? 0 then Panic else Done (n / d, n mod d).
Proof. apply ct_divide_exact. Qed.

Lemma ct_u64_divide_correct_witness :
  ct_u64_divide u64_max 9223372036854775809 = Done (1, 9223372036854775806).
Proof. rewrite (ct_u64_divide_correct u64_max 9223372036854775809) by reflexivity. reflexivity. Defined.

(** *** The map *)

Lemma ct_get_spec {T} (m : CtTokenMap T) token_id :
  ct_get m token_id = snd <$> last (filter (λ e, e.1 = token_id) m).
Proof.
  unfold ct_get. induction m as [|e m IH] using rev_ind; [done|].
  rewrite foldl_app, filter_app. simpl. destruct (N.eqb_spec e.1 token_id) as [He|He].
  - rewrite filter_cons_True, filter_nil by done. by rewrite last_snoc.
  - rewrite filter_cons_False, filter_nil, app_nil_r by done. exact IH.
Qed.

Lemma ct_get_In {T} (m : CtTokenMap T) token_id v : ct_get m token_id = Some v → (token_id, v) ∈ m.
Proof.
  rewrite ct_get_spec. intros (e & He & ->)%fmap_Some. apply last_Some_elem_of in He.
  apply list_elem_of_filter in He as [<- He]. by destruct e.
Qed.

(** The keys with values that are not zero. *)
Section sorting.
Context {T : Type} (is_zero : T → bool).
Implicit Types m : CtTokenMap T.
Notation zero_at := (λ e : N * T, is_zero e.2 = true).
Notation used := (λ e : N * T, is_zero e.2 = false).

Lemma swap_pass_zero m e : is_zero e.2 = true → swap_pass is_zero m e = (m, e).
Proof.
  intros He. induction m as [|c m IH]; simpl; [done|]. rewrite He, andb_false_r. by rewrite IH.
Qed.

Lemma swap_pass_used m e : Forall used m → swap_pass is_zero m e = (m, e).
Proof.
  induction 1 as [|c m Hc _ IH]; simpl; [done|]. rewrite Hc. simpl. by rewrite IH.
Qed.

(** A pass either finds a zero on the left and brings one back, or there is none. *)
Lemma swap_pass_ok m e :
  (swap_pass is_zero m e).1 ++ [(swap_pass is_zero m e).2] ≡ₚ m ++ [e] ∧
  length (swap_pass is_zero m e).1 = length m ∧
  (is_zero (swap_pass is_zero m e).2.2 = true ∨ Forall used m).
Proof.
  induction m as [|c m IH]; simpl; [split_and!; [done|done|by right]|].
  destruct (is_zero c.2) eqn:Hc, (is_zero e.2) eqn:He; simpl.
  - rewrite swap_pass_zero by done. split_and!; [done|done|by left].
  - rewrite swap_pass_zero by done. simpl. split_and!; [|done|by left].
    rewrite (Permutation_app_comm m [c]), (Permutation_app_comm m [e]). apply perm_swap.
  - rewrite swap_pass_zero by done. split_and!; [done|done|by left].
  - destruct (swap_pass is_zero m e) as [l x]. simpl in *. destruct IH as (Hp & Hl & Hz).
    split_and!; [by rewrite Hp|by rewrite Hl|]. destruct Hz; [by left|right; by constructor].
Qed.

(** The part from position [k] on is sorted, and consists of zeros if there are
    zeros on its left. *)
Definition sorted_from (k : nat) m : Prop :=
  ∃ l u z, m = l ++ u ++ z ∧ length l = k ∧ Forall used u ∧ Forall zero_at z ∧ (Forall used l ∨ u = []).

Lemma sort_step_ok m k :
  sorted_from (S k) m → sorted_from k (sort_step is_zero m k) ∧ sort_step is_zero m k ≡ₚ m.
Proof.
  intros (l & u & z & -> & Hlen & Hu & Hz & Hc).
  destruct l as [|e l _] using rev_ind; [done|]. rewrite length_app in Hlen. simpl in Hlen.
  assert (length l = k) as <- by lia. unfold sort_step.
  rewrite <-app_assoc, drop_app_length, take_app_length. simpl.
  pose proof (swap_pass_ok l e) as (Hp & Hl & Hr).
  destruct (swap_pass is_zero l e) as [l' e'] eqn:Es. simpl in *. split.
  2:{ change (l' ++ [e'] ++ u ++ z ≡ₚ l ++ [e] ++ u ++ z). by rewrite !app_assoc, Hp. }
  destruct (is_zero e.2) eqn:He; [|destruct (decide (Forall used l)) as [Hf|Hf]].
  - rewrite swap_pass_zero in Es by done. injection Es as <- <-.
    destruct Hc as [Hc| ->]; [by apply Forall_app in Hc as [_ [? _]%Forall_cons]; congruence|].
    exists l, [], (e :: z). split_and!; [done|done|constructor|by constructor|by right].
  - rewrite swap_pass_used in Es by done. injection Es as <- <-.
    exists l, (e :: u), z. split_and!; [done|done|by constructor|done|by left].
  - destruct Hr as [Hr|?]; [|done]. destruct Hc as [[? _]%Forall_app| ->]; [done|].
    exists l', [], (e' :: z). split_and!; [done|done|constructor|by constructor|by right].
Qed.

Lemma sort_steps_ok m k :
  sorted_from (S k) m →
  sorted_from 1 (foldl (sort_step is_zero) m (rev (seq 1 k))) ∧ foldl (sort_step is_zero) m (rev (seq 1 k)) ≡ₚ m.
Proof.
  revert m. induction k as [|k IH]; intros m Hs; [done|].
  rewrite seq_S, rev_app_distr. simpl. destruct (sort_step_ok m (S k) Hs) as [Hs' Hp].
  destruct (IH _ Hs') as [? Hp']. split; [done|]. by rewrite Hp', Hp.
Qed.

Lemma sort_zeroes_ok m :
  sort_zeroes_to_end is_zero m ≡ₚ m ∧
  ∃ u z, sort_zeroes_to_end is_zero m = u ++ z ∧ Forall used u ∧ Forall zero_at z.
Proof.
  assert (∀ e, ∃ u z, [e] = u ++ z ∧ Forall used u ∧ Forall zero_at z) as Hone.
  { intros e. destruct (is_zero e.2) eqn:He; [exists [], [e]|exists [e], []]; (split_and!; [done|..]);
      repeat constructor; done. }
  unfold sort_zeroes_to_end. destruct (Nat.ltb_spec (length m) 2).
  { split; [done|]. destruct m as [|e [|]]; simpl in *; [|apply Hone|lia]. exists [], []. by repeat constructor. }
  destruct (sort_steps_ok m (length m - 1)) as [(l & u & z & -> & Hl & Hu & Hz & Hc) Hp].
  { exists m, [], []. rewrite !app_nil_r. split_and!; [done|lia|constructor|constructor|by right]. }
  split; [done|]. destruct l as [|e [|]]; [done| |done]. destruct Hc as [Hc| ->].
  - exists (e :: u), z. split_and!; [done| |done]. apply Forall_cons in Hc as [? _]. by constructor.
  - destruct (is_zero e.2) eqn:He; [exists [], (e :: z)|exists [e], z];
      (split_and!; [done|..]); repeat constructor; done.
Qed.

(** [sort_zeroes_to_end] only moves entries, and moves those with value
    zero behind the others. *)
Theorem sort_zeroes_to_end_correct m :
  sort_zeroes_to_end is_zero m ≡ₚ m ∧
  ∃ u z, sort_zeroes_to_end is_zero m = u ++ z ∧ Forall used u ∧ Forall zero_at z.
Proof. apply sort_zeroes_ok. Qed.
End sorting.
End CtArithProps.
