(* ===== verification/MessageCipher.v ===== *)
(** * The message cipher of the enclave

    [crypto/message-cipher/src]: encryption of the data an enclave keeps outside,
    with keys that are changed when the nonces of one are used up.  The
    authenticated encryption itself (AES-GCM) is third-party code: the class
    [Aead].  The random keys come from a generator, the class [KeyRng]. *)

From stdpp Require Import vector.
From S2P Require Import Prelude Ord Bytes.

Open Scope N_scope.

(** Encryption of a message under a key and a nonce, with its tag; decryption
    fails if the tag is wrong. *)
Class Aead (Key : Type) : Type := {
  aead_encrypt : Key → bytes → bytes → bytes;
  aead_decrypt : Key → bytes → bytes → option bytes;
  aead_decrypt_encrypt : ∀ k nonce p, aead_decrypt k nonce (aead_encrypt k nonce p) = Some p;
  nonce_size : nat;
  nonce_size_pos : (0 < nonce_size)%nat
}.
Class KeyRng (Key R : Type) : Type := fill_key : R → Key * R.

Inductive CipherError := TooShort | UnknownKey | MacFailure.

(** ** Nonces *)

Definition nonce_is_max (nonce : bytes) : bool := forallb (λ b, bool_decide (b = u8 255)) nonce.

(** [inc]: the first byte is the lowest. *)
Fixpoint nonce_inc (nonce : bytes) : bytes :=
  match nonce with
  | [] => []
  | b :: nonce =>
      let b := u8 (Byte.to_N b + 1) in
      if bool_decide (b = u8 0) then b :: nonce_inc nonce else b :: nonce
  end.

Section cipher.
Context {Key : Type} `{EqDecision Key} `{A : !Aead Key} {R : Type} `{G : !KeyRng Key R}.

Definition nonce_new : bytes := replicate nonce_size (u8 0).

(** The keys are kept with the ciphers made from them. *)
Record AeadMessageCipher := mkCipher { ciphers : list Key; nonce : bytes }.
Implicit Types self : AeadMessageCipher.

(** [new]. *)
Definition cipher_new (rng : R) : AeadMessageCipher * R :=
  let '(key, rng) := fill_key rng in (mkCipher [key] nonce_new, rng).

(** The loop that draws keys until one is new. *)
Fixpoint sample_key (fuel : nat) (old : list Key) (rng : R) : exec (Key * R) :=
  match fuel with
  | O => NoFuel
  | S fuel =>
      let '(key, rng) := fill_key rng in
      if bool_decide (key ∈ old) then sample_key fuel old rng else Done (key, rng)
  end.

(** [encrypt_bytes]. *)
Definition encrypt_bytes (fuel : nat) self (rng : R) (plaintext : bytes) :
    exec (bytes * AeadMessageCipher * R) :=
  match last (ciphers self) with
  | None => Panic
  | Some key =>
      let result := aead_encrypt key (nonce self) plaintext in
      let key_num := N.of_nat (length (ciphers self) - 1) mod u64_modulus in
      let result := result ++ le_bytes 8 key_num ++ nonce self in
      let nonce' := nonce_inc (nonce self) in
      if nonce_is_max nonce' then
        let! (key, rng) := sample_key fuel (ciphers self) rng in
        Done (result, mkCipher (ciphers self ++ [key]) nonce_new, rng)
      else Done (result, mkCipher (ciphers self) nonce', rng)
  end.

(** [decrypt_bytes]. *)
Definition decrypt_bytes self (ciphertext : bytes) : result bytes CipherError :=
  let key_num_offset := (nonce_size + 8)%nat in
  if (length ciphertext <? key_num_offset)%nat then Err TooShort
  else
    let key_num := le_value (take 8 (drop (length ciphertext - key_num_offset) ciphertext)) in
    if N.of_nat (length (ciphers self)) <=? key_num then Err UnknownKey
    else
      let nonce := drop (length ciphertext - nonce_size) ciphertext in
      match ciphers self !! N.to_nat key_num with
      | None => Err UnknownKey
      | Some key =>
          match aead_decrypt key nonce (take (length ciphertext - key_num_offset) ciphertext) with
          | Some result => Ok result
          | None => Err MacFailure
          end
      end.
End cipher.
Arguments AeadMessageCipher : clear implicits.
Arguments mkCipher {Key} _ _.

(** ** Properties *)

Lemma le_value_cons b l : le_value (b :: l) = Byte.to_N b + 256 * le_value l.
Proof. unfold le_value. simpl. rewrite be_value_snoc. lia. Qed.

Lemma u8_eq_0 n : u8 n = u8 0 ↔ n mod 256 = 0.
Proof.
  split; [|intros E; unfold u8; by rewrite E].
  intros E%(f_equal Byte.to_N). by rewrite !to_N_u8 in E.
Qed.

Lemma nonce_inc_length l : length (nonce_inc l) = length l.
Proof. induction l as [|b l IH]; simpl; [done|]. case_bool_decide; simpl; [by rewrite IH|done]. Qed.

Lemma u8_to_N b : u8 (Byte.to_N b) = b.
Proof. unfold u8. rewrite N.mod_small by apply to_N_lt. by rewrite Byte.of_to_N. Qed.

(** The greatest nonce, as a number. *)
Lemma nonce_max_value l : nonce_is_max l = true ↔ le_value l + 1 = 256 ^ N.of_nat (length l).
Proof.
  induction l as [|b l IH]; [done|]. cbn [nonce_is_max forallb length]. fold (nonce_is_max l).
  rewrite andb_true_iff, bool_decide_eq_true, le_value_cons, IH.
  pose proof (to_N_lt b) as Hb. pose proof (le_value_lt l) as Hl.
  rewrite Nat2N.inj_succ, N.pow_succ_r'. split.
  - intros [-> ?]. rewrite to_N_u8. change (255 mod 256) with 255. lia.
  - intros E. assert (Byte.to_N b = 255) as Eb by lia. split; [|lia]. by rewrite <-(u8_to_N b), Eb.
Qed.

Lemma nonce_inc_value l : nonce_is_max l = false → le_value (nonce_inc l) = le_value l + 1.
Proof.
  induction l as [|b l IH]; [done|]. cbn [nonce_inc]. intros Hm. pose proof (to_N_lt b) as Hb.
  case_bool_decide as Hz; rewrite !le_value_cons, to_N_u8.
  - apply u8_eq_0 in Hz. assert (Byte.to_N b = 255) as Eb.
    { destruct (N.eq_dec (Byte.to_N b) 255); [done|]. rewrite N.mod_small in Hz; lia. }
    rewrite IH, Eb; [change ((255 + 1) mod 256) with 0; lia|]. revert Hm. cbn [nonce_is_max forallb].
    fold (nonce_is_max l). by rewrite bool_decide_true by by rewrite <-(u8_to_N b), Eb.
  - rewrite N.mod_small; [lia|]. rewrite u8_eq_0 in Hz.
    destruct (N.eq_dec (Byte.to_N b) 255) as [Eb|]; [by rewrite Eb in Hz|lia].
Qed.

Module MessageCipherProps.
Section props.
Context {Key : Type} `{EqDecision Key} `{A : !Aead Key} {R : Type} `{G : !KeyRng Key R}.
Implicit Types self : AeadMessageCipher Key.

(** A message encrypted: the key and the nonce used, the plaintext and the
    ciphertext. *)
Record Encrypted := mkEncrypted { e_key : Key; e_nonce : bytes; e_plain : bytes; e_cipher : bytes }.

(** The states of a cipher, with the messages it has encrypted. *)
Inductive cipher_run : AeadMessageCipher Key → list Encrypted → Prop :=
| run_new rng : cipher_run (cipher_new rng).1 []
| run_encrypt fuel self sent rng rng' key p c self' :
    cipher_run self sent → last (ciphers self) = Some key →
    encrypt_bytes fuel self rng p = Done (c, self', rng') →
    cipher_run self' (sent ++ [mkEncrypted key (nonce self) p c]).

Lemma sample_key_fresh fuel old rng key rng' : sample_key fuel old rng = Done (key, rng') → key ∉ old.
Proof.
  revert rng. induction fuel as [|fuel IH]; intros rng; simpl; [done|].
  destruct (fill_key rng) as [k r]. case_bool_decide; [apply IH|]. by intros [= <- _].
Qed.

(** What was encrypted carries the number of its key and its nonce, and the
    current nonce is beyond those used with the current key. *)
Record cipher_ok self (sent : list Encrypted) : Prop := {
  co_keys : NoDup (ciphers self);
  co_some : ciphers self ≠ [];
  co_nonce : length (nonce self) = nonce_size ∧ nonce_is_max (nonce self) = false;
  co_sent : ∀ e, e ∈ sent → ∃ i, ciphers self !! i = Some (e_key e) ∧ length (e_nonce e) = nonce_size ∧
    e_cipher e = aead_encrypt (e_key e) (e_nonce e) (e_plain e) ++
      le_bytes 8 (N.of_nat i mod u64_modulus) ++ e_nonce e;
  co_order : ∀ e, e ∈ sent → last (ciphers self) = Some (e_key e) → le_value (e_nonce e) < le_value (nonce self);
  co_fresh : NoDup ((λ e, (e_key e, e_nonce e)) <$> sent)
}.

Lemma nonce_new_ok : length (nonce_new (Key:=Key)) = nonce_size ∧ nonce_is_max (nonce_new (Key:=Key)) = false.
Proof.
  unfold nonce_new. rewrite length_replicate. split; [done|]. pose proof nonce_size_pos.
  destruct nonce_size; [lia|done].
Qed.

(** The entry of a message just encrypted. *)
Lemma new_entry_ok self sent key p c fuel rng self' rng' :
  cipher_ok self sent → last (ciphers self) = Some key →
  encrypt_bytes fuel self rng p = Done (c, self', rng') →
  (∃ i, ciphers self !! i = Some key ∧
     c = aead_encrypt key (nonce self) p ++ le_bytes 8 (N.of_nat i mod u64_modulus) ++ nonce self) ∧
  (self' = mkCipher (ciphers self) (nonce_inc (nonce self)) ∧ nonce_is_max (nonce_inc (nonce self)) = false ∨
   ∃ k, k ∉ ciphers self ∧ self' = mkCipher (ciphers self ++ [k]) nonce_new).
Proof.
  intros Hok Hk. unfold encrypt_bytes. rewrite Hk. intros He. split.
  - exists (length (ciphers self) - 1)%nat. rewrite last_lookup in Hk.
    split; [by rewrite Nat.sub_1_r|]. destruct (nonce_is_max _); [|by injection He as <- _ _].
    by apply exec_bind_Done in He as ([] & _ & [= <- _ _]).
  - destruct (nonce_is_max _) eqn:Em; [|left; by injection He as _ <- _].
    apply exec_bind_Done in He as ([k r] & Hs & [= _ <- _]). right. exists k.
    split; [by eapply sample_key_fresh|done].
Qed.

Lemma cipher_run_ok self sent : cipher_run self sent → cipher_ok self sent.
Proof.
  induction 1 as [rng|fuel self sent rng rng' key p c self' _ IH Hk He].
  { unfold cipher_new. destruct (fill_key rng) as [k r].
    by constructor; cbn; [apply NoDup_singleton|done|apply nonce_new_ok|intros e ?%elem_of_nil..|constructor]. }
  destruct (new_entry_ok _ _ _ _ _ _ _ _ _ IH Hk He) as [(i & Hi & Ec) Hself].
  destruct IH as [Hnd Hne [Hlen Hmax] Hsent Hord Hfresh].
  assert (NoDup ((λ e, (e_key e, e_nonce e)) <$> sent ++ [mkEncrypted key (nonce self) p c])) as Hnew.
  { rewrite fmap_app. apply NoDup_app. split_and!; [done| |apply NoDup_singleton].
    intros x (e & -> & Hin)%list_elem_of_fmap [= Ek En]%list_elem_of_singleton.
    specialize (Hord e Hin). rewrite Ek, En in Hord. specialize (Hord Hk). lia. }
  assert (∀ e, e ∈ sent ++ [mkEncrypted key (nonce self) p c] →
    ∃ i, ciphers self !! i = Some (e_key e) ∧ length (e_nonce e) = nonce_size ∧
      e_cipher e = aead_encrypt (e_key e) (e_nonce e) (e_plain e) ++
        le_bytes 8 (N.of_nat i mod u64_modulus) ++ e_nonce e) as Hall.
  { intros e [Hin| ->%list_elem_of_singleton]%elem_of_app; [by apply Hsent|by exists i]. }
  destruct Hself as [[-> Hm]|(k & Hnk & ->)]; constructor; cbn [ciphers nonce]; try done.
  - by rewrite nonce_inc_length.
  - rewrite (nonce_inc_value _ Hmax). intros e [Hin| ->%list_elem_of_singleton]%elem_of_app Hl; simpl; [|lia].
    specialize (Hord e Hin Hl). lia.
  - apply NoDup_app. split_and!; [done| |apply NoDup_singleton]. by intros x Hx ->%list_elem_of_singleton.
  - by intros [_ ?]%app_nil.
  - apply nonce_new_ok.
  - intros e Hin. destruct (Hall e Hin) as (j & Hj & ?). exists j. split; [|done]. by apply lookup_app_l_Some.
  - intros e Hin. rewrite last_snoc. intros [= ->]. destruct (Hall e Hin) as (j & Hj & _).
    destruct Hnk. by apply list_elem_of_lookup_2 in Hj.
Qed.

(** C37: the cipher never uses a nonce twice with the same key, whatever it
    encrypts and whatever keys are drawn. *)
Theorem nonces_never_reused self sent :
  cipher_run self sent → NoDup ((λ e, (e_key e, e_nonce e)) <$> sent).
Proof. intros Hrun. apply (co_fresh _ _ (cipher_run_ok _ _ Hrun)). Qed.

Lemma decrypt_sent self sent e :
  cipher_run self sent → N.of_nat (length (ciphers self)) < u64_modulus → e ∈ sent →
  decrypt_bytes self (e_cipher e) = Ok (e_plain e).
Proof.
  intros Hrun Hlen Hin. destruct (co_sent _ _ (cipher_run_ok _ _ Hrun) e Hin) as (i & Hi & Hn & ->).
  pose proof (lookup_lt_Some _ _ _ Hi) as Hlt. rewrite N.mod_small by lia. unfold decrypt_bytes.
  set (ct := aead_encrypt _ _ _). set (num := le_bytes 8 (N.of_nat i)).
  assert (length num = 8%nat) as Hnum by apply length_le_bytes.
  assert (length (ct ++ num ++ e_nonce e) = length ct + (8 + nonce_size))%nat as El.
  { by rewrite !length_app, Hnum, Hn. }
  rewrite El. destruct (Nat.ltb_spec (length ct + (8 + nonce_size)) (nonce_size + 8)); [lia|].
  replace (length ct + (8 + nonce_size) - (nonce_size + 8))%nat with (length ct) by lia.
  replace (length ct + (8 + nonce_size) - nonce_size)%nat with (length ct + 8)%nat by lia.
  rewrite drop_app_length, take_app_length, take_app_length' by done.
  rewrite app_assoc, drop_app_length' by (rewrite length_app; lia).
  unfold num. rewrite le_value_bytes by (change (256 ^ N.of_nat 8) with u64_modulus; lia).
  destruct (N.leb_spec (N.of_nat (length (ciphers self))) (N.of_nat i)); [lia|].
  rewrite Nat2N.id, Hi. unfold ct. by rewrite aead_decrypt_encrypt.
Qed.

(** Everything a cipher has encrypted it still decrypts, through any
    number of changes of its key (fewer than [2^64]). *)
Theorem cipher_roundtrip self sent e :
  cipher_run self sent → N.of_nat (length (ciphers self)) < u64_modulus → e ∈ sent →
  decrypt_bytes self (e_cipher e) = Ok (e_plain e).
Proof. apply decrypt_sent. Qed.

(** The [n]-th draw of the generator. *)
Fixpoint draw (n : nat) (rng : R) : Key :=
  match n with O => (fill_key rng).1 | S n => draw n (fill_key rng).2 end.

(** Encryption terminates: it returns as soon as a draw gives a new key. *)
Lemma sample_key_total fuel old rng n :
  (n < fuel)%nat → draw n rng ∉ old → ∃ key rng', sample_key fuel old rng = Done (key, rng').
Proof.
  revert rng n. induction fuel as [|fuel IH]; intros rng n Hn Hd; [lia|]. simpl.
  destruct (fill_key rng) as [k r] eqn:Ef. case_bool_decide as Hk; [|by eexists _, _].
  destruct n as [|n]; simpl in Hd; rewrite Ef in Hd; [done|]. apply (IH r n); [lia|done].
Qed.

Lemma encrypt_total self sent rng p n :
  cipher_run self sent → draw n rng ∉ ciphers self →
  ∃ c self' rng', encrypt_bytes (S n) self rng p = Done (c, self', rng').
Proof.
  intros Hrun Hd. unfold encrypt_bytes. destruct (last (ciphers self)) as [key|] eqn:Hl.
  2:{ by apply last_None, (co_some _ _ (cipher_run_ok _ _ Hrun)) in Hl. }
  destruct (nonce_is_max _); [|by eexists _, _, _].
  destruct (sample_key_total (S n) (ciphers self) rng n) as (k & r & ->); [lia|done|]. by eexists _, _, _.
Qed.

(** Encryption returns, for every plaintext and every state of a running
    cipher, as soon as one of the keys drawn is new. *)
Theorem encrypt_terminates self sent rng p n :
  cipher_run self sent → draw n rng ∉ ciphers self →
  ∃ c self' rng', encrypt_bytes (S n) self rng p = Done (c, self', rng').
Proof. apply encrypt_total. Qed.
End props.

(** *** Witnesses: keys are numbers, drawn one after another *)

#[local] Program Instance toy_aead : Aead N := {|
  aead_encrypt k nonce p := p;
  aead_decrypt k nonce c := Some c;
  nonce_size := 1%nat
|}.
Next Obligation. done. Qed.
Next Obligation. lia. Qed.
#[local] Instance counting_rng : KeyRng N N := λ r, (r, r + 1).

Fixpoint encrypt_many (n : nat) (self : AeadMessageCipher N) (rng : N) (sent : list (Encrypted (Key:=N))) :
    exec (AeadMessageCipher N * list (Encrypted (Key:=N))) :=
  match n with
  | O => Done (self, sent)
  | S n =>
      let! (c, self', rng') := encrypt_bytes 1 self rng [u8 9] in
      encrypt_many n self' rng' (sent ++ [mkEncrypted (default 0 (last (ciphers self))) (nonce self) [u8 9] c])
  end.

Lemma encrypt_many_run n : ∀ self rng sent self' sent',
  cipher_run self sent → encrypt_many n self rng sent = Done (self', sent') → cipher_run self' sent'.
Proof.
  induction n as [|n IH]; intros self rng sent self' sent' Hrun; cbn [encrypt_many]; [by intros [= <- <-]|].
  intros ([[c s] r] & He & Hr)%exec_bind_Done. eapply IH; [|exact Hr]. eapply run_encrypt; [exact Hrun| |exact He].
  destruct (last (ciphers self)) eqn:El; [done|]. unfold encrypt_bytes in He. by rewrite El in He.
Qed.

Definition after_300 : exec (AeadMessageCipher N * list (Encrypted (Key:=N))) :=
  encrypt_many 300 (cipher_new 7).1 8 [].

Lemma after_300_run self sent : after_300 = Done (self, sent) → cipher_run self sent.
Proof. apply encrypt_many_run. apply (run_new 7). Qed.

(** 300 messages, with two keys. *)
Lemma nonces_never_reused_witness :
  ∃ self sent, after_300 = Done (self, sent) ∧ length (ciphers self) = 2%nat ∧ length sent = 300%nat ∧
    NoDup ((λ e, (e_key e, e_nonce e)) <$> sent).
Proof.
  assert (match after_300 with Done (c, l) => (length (ciphers c) =? 2)%nat && (length l =? 300)%nat | _ => false end
    = true) as Hc by by vm_compute.
  destruct after_300 as [[self sent]| |] eqn:E; [|done..]. apply andb_prop in Hc as [H1%Nat.eqb_eq H2%Nat.eqb_eq].
  exists self, sent. split_and!; [done|done|done|]. apply (nonces_never_reused self sent). by apply after_300_run.
Defined.

Lemma cipher_roundtrip_witness :
  ∃ self sent e, after_300 = Done (self, sent) ∧ sent !! 0%nat = Some e ∧ decrypt_bytes self (e_cipher e) = Ok (e_plain e).
Proof.
  assert (match after_300 with
    | Done (c, l) => (N.of_nat (length (ciphers c)) <? u64_modulus) && (0 <? length l)%nat | _ => false end = true)
    as Hc by by vm_compute.
  destruct after_300 as [[self sent]| |] eqn:E; [|done..]. apply andb_prop in Hc as [H1%N.ltb_lt H2].
  destruct sent as [|e sent]; [done|]. exists self, (e :: sent), e. split_and!; [done|done|].
  apply (cipher_roundtrip self (e :: sent) e); [by apply after_300_run|exact H1|by left].
Defined.

Lemma encrypt_terminates_witness :
  ∃ c self' rng', encrypt_bytes 1 (cipher_new 7).1 8 [u8 1] = Done (c, self', rng').
Proof.
  apply (encrypt_terminates (cipher_new 7).1 [] 8 [u8 1] 0); [apply (run_new 7)|]. by apply (bool_decide_unpack _).
Defined.
End MessageCipherProps.
