(* ===== verification/Config.v ===== *)
(** * The configuration of the block chain

    [transaction/core/src/fee_map.rs]: the minimum fee of each token.
    [consensus/enclave/api/src/config.rs]: the configuration the enclave applies
    (fees, governors, block version) and its validation.  The Merlin digests of
    both are third-party code: the class [ConfigDigests]. *)

From stdpp Require Import vector strings.
From S2P Require Import Prelude Ord Bytes Lmdb TxOut Membership BlockVersion MaskedAmount Tx TxValidation Multisig Mint MintOrd MintStore Block LedgerDb LedgerApi MintTxManager.

Open Scope N_scope.

(** ** [FeeMap] *)

Definition SMALLEST_MINIMUM_FEE_LOG2 : N := 7.
Definition MOB_MINIMUM_FEE : N := 400 * 1000000.

Module FeeMap.
Inductive Error :=
| InvalidFeeTooSmall (t : TokenId) (fee : N)
| InvalidFeeNotDivisible (t : TokenId) (fee : N)
| MissingFee (t : TokenId).

Record FeeMap := mkFeeMap { map : gmap TokenId N }.

Definition default_map : gmap TokenId N := {[ TOKEN_MOB := MOB_MINIMUM_FEE ]}.
Definition default : FeeMap := mkFeeMap default_map.

Definition is_valid_map (minimum_fees : gmap TokenId N) : result unit Error :=
  match find_first (λ e, N.shiftr e.2 SMALLEST_MINIMUM_FEE_LOG2 =? 0) (btree_entries minimum_fees) with
  | Some (t, fee) => Err (InvalidFeeTooSmall t fee)
  | None =>
      match find_first (λ e, negb (e.2 mod N.shiftl 1 SMALLEST_MINIMUM_FEE_LOG2 =? 0))
              (btree_entries minimum_fees) with
      | Some (t, fee) => Err (InvalidFeeNotDivisible t fee)
      | None =>
          if negb (bool_decide (is_Some (minimum_fees !! TOKEN_MOB))) then Err (MissingFee TOKEN_MOB)
          else Ok tt
      end
  end.

Definition try_from (m : gmap TokenId N) : result FeeMap Error :=
  let? _ := is_valid_map m in Ok (mkFeeMap m).

(** Of two entries for a token the later one is kept. *)
Definition try_from_iter (l : list (TokenId * N)) : result FeeMap Error :=
  try_from (foldl (λ m e, <[ e.1 := e.2 ]> m) ∅ l).

Definition get_fee_for_token (self : FeeMap) (t : TokenId) : option N := map self !! t.

(** The result and the map after the call. *)
Definition update_or_default (self : FeeMap) (minimum_fees : option (gmap TokenId N)) :
    result unit Error * FeeMap :=
  match minimum_fees with
  | Some minimum_fees =>
      match is_valid_map minimum_fees with
      | Ok _ => (Ok tt, mkFeeMap minimum_fees)
      | Err e => (Err e, self)
      end
  | None => (Ok tt, mkFeeMap default_map)
  end.
End FeeMap.
Notation FeeMap := FeeMap.FeeMap.

(** ** [BlockchainConfig] *)

Inductive ConfigError :=
| FeeMapError (e : FeeMap.Error)
| MissingGovernorsSignature
| InvalidGovernorsSignature
| NestedMultiSigGovernorsNotSupported (t : TokenId) (v : BlockVersion).

Record BlockchainConfig := mkBlockchainConfig {
  fee_map : FeeMap;
  governors_map : GovernorsMap;
  governors_signature : option Ed25519Signature;
  config_block_version : BlockVersion
}.

Class ConfigDigests : Type := {
  governors_map_digest : GovernorsMap → bytes32;
  (** The hexadecimal digest of the configuration. *)
  config_digest : BlockchainConfig → string;
  canonical_digest : FeeMap → bytes32
}.

Section config.
Context `{V : Verifier Ed25519Public Ed25519Signature} `{CD : ConfigDigests}.

(** [Default]. *)
Definition BlockchainConfig_default : BlockchainConfig :=
  mkBlockchainConfig FeeMap.default (GovernorsMap.mkGovernorsMap ∅) None VERSION_MAX.

(** [verify_governors_map] of [governors_sig.rs]. *)
Definition verify_governors_map (key : Ed25519Public) (m : GovernorsMap) (sig : Ed25519Signature) : bool :=
  sig_verify key (vec_to_list (governors_map_digest m)) sig.

(** [validate]. *)
Definition config_validate (self : BlockchainConfig) (minting_trust_root_public_key : Ed25519Public) :
    result unit ConfigError :=
  let? _ := map_err FeeMapError (FeeMap.is_valid_map (FeeMap.map (fee_map self))) in
  let? _ :=
    (if negb (bool_decide (GovernorsMap.map (governors_map self) = ∅)) then
       let? signature := ok_or (governors_signature self) MissingGovernorsSignature in
       if verify_governors_map minting_trust_root_public_key (governors_map self) signature
       then Ok tt else Err InvalidGovernorsSignature
     else Ok tt) in
  if negb (nested_multisigs_are_supported (config_block_version self)) then
    for_each (λ e, if negb (bool_decide (multi_signers e.2 = []))
                   then Err (NestedMultiSigGovernorsNotSupported e.1 (config_block_version self))
                   else Ok tt) (btree_entries (GovernorsMap.map (governors_map self)))
  else Ok tt.

Record BlockchainConfigWithDigest := mkConfigWithDigest {
  get_config : BlockchainConfig;
  cached_digest : string;
  canonical_fee_map_digest : bytes32
}.

Definition ConfigWithDigest_from (config : BlockchainConfig) : BlockchainConfigWithDigest :=
  mkConfigWithDigest config (config_digest config) (canonical_digest (fee_map config)).

(** [responder_id]: the id with the digest of the configuration. *)
Definition config_responder_id (self : BlockchainConfigWithDigest) (responder_id : string) : string :=
  (responder_id +:+ "-" +:+ cached_digest self)%string.
End config.

(** ** Properties *)

Module ConfigProps.

Lemma find_first_None {A} (f : A → bool) l : find_first f l = None ↔ ∀ x, x ∈ l → f x = false.
Proof.
  unfold find_first. rewrite fmap_None, list_find_None, Forall_forall.
  split; intros Hf x Hx; [by apply not_true_is_false, Hf|by rewrite (Hf x Hx)].
Qed.

(** A map of fees is valid when every fee is a positive multiple of 128 and MOB
    has one. *)
Definition fees_ok (m : gmap TokenId N) : Prop :=
  (∀ t fee, m !! t = Some fee → 128 <= fee ∧ fee mod 128 = 0) ∧ is_Some (m !! TOKEN_MOB).

Lemma shiftr_7_pos fee : N.shiftr fee SMALLEST_MINIMUM_FEE_LOG2 = 0 ↔ fee < 128.
Proof.
  rewrite N.shiftr_div_pow2. change (2 ^ SMALLEST_MINIMUM_FEE_LOG2) with 128. apply N.div_small_iff. done.
Qed.

Lemma is_valid_map_Ok m : FeeMap.is_valid_map m = Ok tt ↔ fees_ok m.
Proof.
  unfold FeeMap.is_valid_map, fees_ok. change (N.shiftl 1 SMALLEST_MINIMUM_FEE_LOG2) with 128.
  destruct (find_first _ _) as [[t fee]|] eqn:E1.
  { split; [done|]. intros [Hm _]. exfalso. enough (find_first (λ e : N * N, N.shiftr e.2 SMALLEST_MINIMUM_FEE_LOG2 =? 0)
      (btree_entries m) = None) by congruence.
    apply find_first_None. intros [t' f'] [Hf _]%elem_of_btree_entries%Hm. apply N.eqb_neq. simpl.
    rewrite shiftr_7_pos. lia. }
  destruct (find_first (λ e, negb _) _) as [[t fee]|] eqn:E2.
  { split; [done|]. intros [Hm _]. exfalso. enough (find_first (λ e : N * N, negb (e.2 mod 128 =? 0))
      (btree_entries m) = None) by congruence.
    apply find_first_None. intros [t' f'] [_ Hf]%elem_of_btree_entries%Hm. simpl. by rewrite Hf. }
  rewrite find_first_None in E1, E2. case_bool_decide as Hmob; simpl; [|naive_solver].
  split; [intros _; split; [|done]|done]. intros t fee Hin%elem_of_btree_entries.
  specialize (E1 _ Hin). specialize (E2 _ Hin). simpl in *. apply N.eqb_neq in E1. rewrite shiftr_7_pos in E1.
  apply negb_false_iff, N.eqb_eq in E2. lia.
Qed.

Section props.
Context `{V : Verifier Ed25519Public Ed25519Signature} `{CD : ConfigDigests}.

(** A configuration is accepted exactly when every minimum fee is a
    positive multiple of 128 and MOB has one, the governors, if there are any,
    are signed by the minting trust root, and no governors are nested before
    the block version that supports it. *)
Theorem config_validate_iff self key :
  config_validate self key = Ok tt ↔
  fees_ok (FeeMap.map (fee_map self)) ∧
  (GovernorsMap.map (governors_map self) ≠ ∅ →
   ∃ s, governors_signature self = Some s ∧ verify_governors_map key (governors_map self) s = true) ∧
  (config_block_version self < VERSION_THREE →
   ∀ t g, GovernorsMap.map (governors_map self) !! t = Some g → multi_signers g = []).
Proof.
  unfold config_validate. rewrite <-is_valid_map_Ok.
  destruct (FeeMap.is_valid_map _) as [[]|]; simpl; [|naive_solver].
  set (gs := governors_map self).
  transitivity ((if negb (bool_decide (GovernorsMap.map gs = ∅))
    then let? signature := ok_or (governors_signature self) MissingGovernorsSignature in
         if verify_governors_map key gs signature then Ok tt else Err InvalidGovernorsSignature
    else Ok tt) = Ok tt ∧
    (config_block_version self < VERSION_THREE →
     ∀ t g, GovernorsMap.map gs !! t = Some g → multi_signers g = [])).
  - destruct (if negb (bool_decide (GovernorsMap.map gs = ∅)) then _ else _) as [[]|]; simpl; [|naive_solver].
    unfold nested_multisigs_are_supported. destruct (N.leb_spec VERSION_THREE (config_block_version self)); simpl.
    { split; [|done]. intros _. split; [done|]. lia. }
    rewrite for_each_Ok, Forall_forall. split.
    + intros Hf. split; [done|]. intros _ t g Hg%elem_of_btree_entries. specialize (Hf _ Hg). simpl in Hf.
      by case_bool_decide.
    + intros [_ Hf] [t g] Hg%elem_of_btree_entries. simpl. by rewrite bool_decide_true by by eapply Hf.
  - destruct (decide (GovernorsMap.map gs = ∅)) as [He|He]; [rewrite bool_decide_true by done; naive_solver|].
    rewrite bool_decide_false by done. simpl.
    assert ((let? signature := ok_or (governors_signature self) MissingGovernorsSignature in
       if verify_governors_map key gs signature then Ok tt else Err InvalidGovernorsSignature) = Ok tt ↔
      ∃ s, governors_signature self = Some s ∧ verify_governors_map key gs s = true) as ->.
    { destruct (governors_signature self) as [s|]; simpl.
      - destruct (verify_governors_map key gs s) eqn:Ev; (split; [|]); [by exists s|done|done|].
        intros (s' & [= <-] & Hs). congruence.
      - split; [done|]. by intros (s & ? & _). }
    split; [intros [? ?]; split_and!; auto|intros (_ & Hs & ?); split; auto].
Qed.
End props.
End ConfigProps.
