(* ===== verification/Ristretto.v ===== *)
(** * Scalars, curve points and Pedersen commitments

    What [crypto/ring-signature] and [transaction/core] use of the Ristretto
    group.  Scalars, points, the hash functions and the stream cipher come from
    third-party crates ([curve25519-dalek], [blake2], [hkdf], [aes], [ctr],
    [schnorrkel]) and are the class [Curve]; the class [CurveLaws] states that
    they are a module of scalars acting on a commutative group and that
    compression is injective.  The generators, the Pedersen commitments, the
    hash to a point and the key image are translated from the sources. *)

From stdpp Require Import vector strings.
From S2P Require Import Prelude Ord Bytes BlockVersion TxOut MaskedAmount.

Open Scope N_scope.

Class Curve : Type := {
  scalar : Type;
  scalar_eq_dec :: EqDecision scalar;
  s_zero : scalar;
  s_add : scalar → scalar → scalar;
  s_sub : scalar → scalar → scalar;
  s_mul : scalar → scalar → scalar;
  (** [Scalar::from] a [u64], [as_bytes], [from_bytes_mod_order], [from_hash]. *)
  s_of_u64 : N → scalar;
  s_bytes : scalar → bytes32;
  s_from_bytes : bytes32 → scalar;
  s_from_wide : vec byte 64 → scalar;
  point : Type;
  point_eq_dec :: EqDecision point;
  basepoint : point;
  p_identity : point;
  p_add : point → point → point;
  p_sub : point → point → point;
  p_mul : scalar → point → point;
  (** [RistrettoPoint::from_hash], [compress] and [decompress]. *)
  p_from_wide : vec byte 64 → point;
  compress : point → bytes32;
  decompress : bytes32 → option point;
  (** [Blake2b512], [Hkdf::<Sha512>], the keystream of AES-256 in counter mode
      and [sign_schnorrkel]. *)
  blake512 : bytes → vec byte 64;
  hkdf_sha512 : bytes → bytes32 → bytes → ∀ n : nat, vec byte n;
  aes256ctr : bytes → bytes → ∀ n : nat, vec byte n;
  sign_schnorrkel : scalar → bytes → bytes → bytes
}.

(** The laws of the group and of its encoding. *)
Class CurveLaws `{Curve} : Prop := {
  s_add_comm a b : s_add a b = s_add b a;
  s_add_assoc a b c : s_add a (s_add b c) = s_add (s_add a b) c;
  s_zero_l a : s_add s_zero a = a;
  s_mul_comm a b : s_mul a b = s_mul b a;
  s_sub_add a b : s_add (s_sub a b) b = a;
  s_add_sub a b : s_sub (s_add a b) b = a;
  s_of_u64_add m n : s_of_u64 (m + n) = s_add (s_of_u64 m) (s_of_u64 n);
  s_from_bytes_bytes a : s_from_bytes (s_bytes a) = a;
  p_identity_l p : p_add p_identity p = p;
  p_add_comm p q : p_add p q = p_add q p;
  p_add_assoc p q r : p_add p (p_add q r) = p_add (p_add p q) r;
  p_add_sub p q : p_sub (p_add p q) q = p;
  p_mul_s_add a b p : p_mul (s_add a b) p = p_add (p_mul a p) (p_mul b p);
  p_mul_p_add a p q : p_mul a (p_add p q) = p_add (p_mul a p) (p_mul a q);
  p_mul_mul a b p : p_mul a (p_mul b p) = p_mul (s_mul a b) p;
  decompress_compress p : decompress (compress p) = Some p
}.

Section ristretto.
Context `{C : Curve}.

(** [RistrettoPublic::from(&RistrettoPrivate)]. *)
Definition public_of (x : scalar) : point := p_mul x basepoint.

Definition HASH_TO_POINT_DOMAIN_TAG : bytes := str_bytes "mc_onetime_key_hash_to_point".
Definition HASH_TO_SCALAR_DOMAIN_TAG : bytes := str_bytes "mc_onetime_key_hash_to_scalar".
Definition RING_MLSAG_CHALLENGE_DOMAIN_TAG : bytes := str_bytes "mc_ring_mlsag_challenge".

(** [B_BLINDING]. *)
Definition B_BLINDING : point := basepoint.

Record PedersenGens := mkPedersenGens { B : point; B_blinding : point }.

(** [PedersenGens::commit]. *)
Definition commit (g : PedersenGens) (value blinding : scalar) : point :=
  p_add (p_mul value (B g)) (p_mul blinding (B_blinding g)).

(** The exclusive or of two bytes and of two strings of bytes. *)
Definition byte_xor (a b : byte) : byte := u8 (N.lxor (Byte.to_N a) (Byte.to_N b)).
Definition bytes_xor (a b : bytes) : bytes := zip_with byte_xor a b.

(** [generators]: the token id is written over the first eight bytes of the
    compressed base point. *)
Definition generators (token_id : N) : PedersenGens :=
  let id_bytes := le_bytes 8 token_id in
  let buf := vec_to_list (compress basepoint) in
  let buf := bytes_xor (take 8 buf) id_bytes ++ drop 8 buf in
  mkPedersenGens (p_from_wide (blake512 (HASH_TO_POINT_DOMAIN_TAG ++ buf))) B_BLINDING.

(** [hash_to_point]. *)
Definition hash_to_point (ristretto_public : point) : point :=
  p_from_wide (blake512 (HASH_TO_POINT_DOMAIN_TAG ++ vec_to_list (compress ristretto_public))).

(** [hash_to_scalar] of [onetime_keys.rs]. *)
Definition hash_to_scalar (p : point) : scalar :=
  s_from_wide (blake512 (HASH_TO_SCALAR_DOMAIN_TAG ++ vec_to_list (compress p))).

(** [KeyImage::from(&RistrettoPrivate)]. *)
Definition key_image_of (x : scalar) : bytes32 :=
  compress (p_mul x (hash_to_point (public_of x))).

(** [Commitment::new] and [CompressedCommitment::new]. *)
Definition Commitment_new (value : N) (blinding : scalar) (g : PedersenGens) : point :=
  commit g (s_of_u64 value) blinding.
Definition CompressedCommitment_new (value : N) (blinding : scalar) (g : PedersenGens) : bytes32 :=
  compress (Commitment_new value blinding g).

(** The functions the masked amounts are built from. *)
#[export] Instance curve_amount_crypto : AmountCrypto := {|
  Scalar := scalar;
  scalar_bytes := s_bytes;
  blake2b512 := blake512;
  scalar_from_wide := s_from_wide;
  hkdf := hkdf_sha512;
  pedersen := λ value blinding token_id,
    CompressedCommitment_new value blinding (generators token_id)
|}.
End ristretto.

Section laws.
Context `{CL : CurveLaws}.

Lemma compress_inj p q : compress p = compress q → p = q.
Proof.
  intros E. apply (inj Some). by rewrite <-(decompress_compress p), <-(decompress_compress q), E.
Qed.

Lemma p_sub_unique p q r : p_add r q = p → p_sub p q = r.
Proof. intros <-. apply p_add_sub. Qed.

Lemma s_add_cancel a b c : s_add a c = s_add b c → a = b.
Proof. intros E. rewrite <-(s_add_sub a c), E. apply s_add_sub. Qed.

Lemma p_add_cancel p q r : p_add p r = p_add q r → p = q.
Proof. intros E. rewrite <-(p_add_sub p r), E. apply p_add_sub. Qed.

Lemma p_sub_self p : p_sub p p = p_identity.
Proof. apply p_sub_unique, p_identity_l. Qed.

Lemma p_mul_zero p : p_mul s_zero p = p_identity.
Proof. apply (p_add_cancel _ _ (p_mul s_zero p)). by rewrite <-p_mul_s_add, s_zero_l, p_identity_l. Qed.

Lemma p_mul_comm a b p : p_mul a (p_mul b p) = p_mul b (p_mul a p).
Proof. by rewrite !p_mul_mul, s_mul_comm. Qed.

Lemma p_mul_s_sub a b p : p_add (p_mul (s_sub a b) p) (p_mul b p) = p_mul a p.
Proof. by rewrite <-p_mul_s_add, s_sub_add. Qed.

(** A response closes the ring: [(alpha - c * x) * P + c * (x * P) = alpha * P]. *)
Lemma response_closes alpha c x p :
  p_add (p_mul (s_sub alpha (s_mul c x)) p) (p_mul c (p_mul x p)) = p_mul alpha p.
Proof. by rewrite p_mul_mul, p_mul_s_sub. Qed.

(** Two commitments to one value differ by a multiple of the base point. *)
Lemma commitment_difference g value blinding output_blinding :
  p_sub (Commitment_new value output_blinding g) (Commitment_new value blinding g)
  = p_mul (s_sub output_blinding blinding) (B_blinding g).
Proof.
  apply p_sub_unique. unfold Commitment_new, commit.
  by rewrite p_add_assoc, (p_add_comm (p_mul (s_sub _ _) _)), <-p_add_assoc, p_mul_s_sub.
Qed.
End laws.

(** Masking twice with the same string gives the bytes back. *)
Lemma byte_xor_twice a b : byte_xor (byte_xor a b) b = a.
Proof.
  apply (inj Some). rewrite <-(Byte.of_to_N a), <-(Byte.of_to_N (byte_xor _ _)). f_equal.
  unfold byte_xor. pose proof (to_N_lt a). pose proof (to_N_lt b).
  assert (N.lxor (Byte.to_N a) (Byte.to_N b) < 2 ^ 8) by (apply lxor_lt; done).
  rewrite !to_N_u8. rewrite (N.mod_small (N.lxor (Byte.to_N a) (Byte.to_N b))) by done.
  rewrite xor_unmask. by apply N.mod_small.
Qed.

Lemma bytes_xor_twice a k : length a = length k → bytes_xor (bytes_xor a k) k = a.
Proof.
  revert k. induction a as [|x a IH]; intros [|y k] E; simplify_eq/=; [done|].
  by rewrite byte_xor_twice, IH.
Qed.

(** ** A model of the laws: the field and the group with two elements *)

Definition bit_vec (b : bool) : bytes32 := vreplicate 32 (u8 (if b then 1 else 0)).

Definition bit_curve : Curve := {|
  scalar := bool;
  s_zero := false;
  s_add := xorb;
  s_sub := xorb;
  s_mul := andb;
  s_of_u64 := N.odd;
  s_bytes := bit_vec;
  s_from_bytes := λ v, bool_decide (v = bit_vec true);
  s_from_wide := λ v, N.odd (be_value (vec_to_list v));
  point := bool;
  basepoint := true;
  p_identity := false;
  p_add := xorb;
  p_sub := xorb;
  p_mul := andb;
  p_from_wide := λ v, N.odd (be_value (vec_to_list v));
  compress := bit_vec;
  decompress := λ v, if bool_decide (v = bit_vec true) then Some true
                     else if bool_decide (v = bit_vec false) then Some false else None;
  blake512 := λ l, vreplicate 64 (u8 (be_value l));
  hkdf_sha512 := λ salt ikm info n, vreplicate n (u8 (be_value (vec_to_list ikm ++ info)));
  aes256ctr := λ key nonce n, vreplicate n (u8 (be_value (key ++ nonce)));
  sign_schnorrkel := λ x ctx msg, u8 (if x then 1 else 0) :: msg
|}.

Lemma bit_curve_laws : @CurveLaws bit_curve.
Proof.
  split; try (repeat intros []; reflexivity). intros m n. apply N.odd_add.
Qed.
