(* ===== verification/OnetimeKeys.v ===== *)
(** * One-time keys, accounts, memos and outputs

    How an output is addressed, recognised and spent:
    [crypto/ring-signature/src/onetime_keys.rs] (target key, public key, shared
    secret, recovery), [core/src/subaddress.rs] and
    [account-keys/src/account_keys.rs] (subaddresses of an account, from its
    private keys and from its view key), [transaction/core/src/memo.rs]
    (encrypted memos) and the constructors and readers of [TxOut] in
    [transaction/core/src/tx.rs] and [lib.rs]. *)

From stdpp Require Import vector strings.
From S2P Require Import Prelude Ord Bytes BlockVersion TxOut MaskedAmount Tx Ristretto.

Open Scope N_scope.

Definition SUBADDRESS_DOMAIN_TAG : bytes := str_bytes "mc_subaddress".
Definition DEFAULT_SUBADDRESS_INDEX : N := 0.
Definition INVALID_SUBADDRESS_INDEX : N := u64_max.
Definition CHANGE_SUBADDRESS_INDEX : N := u64_max - 1.
Definition GIFT_CODE_SUBADDRESS_INDEX : N := u64_max - 2.

(** [context] of [fog/sig/authority]. *)
Definition authority_context : bytes := str_bytes "Fog authority signature".

Inductive KeyError := InvalidPublicKey.

Inductive MemoError :=
| MemoUtf8Decoding
| BadLength (n : N)
| MemoMaxFeeExceeded (max_fee attempted_fee : N).

(** The failures of a memo callback. *)
Inductive NewMemoError :=
| LimitsExceeded (what : bytes)
| MultipleChangeOutputs
| OutputsAfterChange
| FeeAfterChange
| InvalidRecipient
| MultipleOutputs
| MissingOutput
| MissingInput (what : bytes)
| MixedTokenIds
| DestinationMemoNotAllowed
| BadInputs (what : bytes)
| Creation (e : MemoError)
| Utf8Decoding
| MaxFeeExceeded (max_fee attempted_fee : N)
| RequestAndIntentIdSet
| DefragWithChange
| Other (what : bytes).

Inductive NewTxError :=
| NewTxAmount (e : AmountError)
| NewTxMemo (e : NewMemoError).

Inductive ViewKeyMatchError :=
| MatchKey (e : KeyError)
| MatchAmount (e : AmountError)
| MatchUnknownMaskedAmountVersion.

Section onetime.
Context `{C : Curve}.

(** [PublicAddress]. *)
Record PublicAddress := mkPublicAddress {
  view_public_key : point;
  spend_public_key : point;
  fog_report_url : bytes;
  fog_report_id : bytes;
  fog_authority_sig : bytes
}.

(** [PublicAddress::new]. *)
Definition PublicAddress_new (spend_public view_public : point) : PublicAddress :=
  mkPublicAddress view_public spend_public [] [] [].

(** ** Keys of an output *)

Definition create_tx_out_target_key (tx_private_key : scalar) (recipient : PublicAddress) : point :=
  let Hs := hash_to_scalar (p_mul tx_private_key (view_public_key recipient)) in
  p_add (p_mul Hs basepoint) (spend_public_key recipient).

Definition create_tx_out_public_key (tx_out_private_key : scalar) (recipient_spend_key : point) : point :=
  p_mul tx_out_private_key recipient_spend_key.

Definition recover_public_subaddress_spend_key (view_private_key : scalar)
    (tx_out_target_key tx_out_public_key : point) : point :=
  let Hs := hash_to_scalar (p_mul view_private_key tx_out_public_key) in
  p_sub tx_out_target_key (p_mul Hs basepoint).

Definition recover_onetime_private_key (tx_out_public_key : point)
    (view_private_key subaddress_spend_private_key : scalar) : scalar :=
  let Hs := hash_to_scalar (p_mul view_private_key tx_out_public_key) in
  s_add Hs subaddress_spend_private_key.

Definition create_shared_secret (public_key : point) (private_key : scalar) : point :=
  p_mul private_key public_key.

(** [get_tx_out_shared_secret]. *)
Definition get_tx_out_shared_secret (view_key : scalar) (tx_public_key : point) : point :=
  create_shared_secret tx_public_key view_key.

(** ** Subaddresses *)

(** [Hs(a || n)]. *)
Definition subaddress_hash (a : scalar) (index : N) : scalar :=
  s_from_wide (blake512 (SUBADDRESS_DOMAIN_TAG ++ vec_to_list (s_bytes a)
                         ++ vec_to_list (s_bytes (s_of_u64 index)))).

(** [Subaddress for (&RootViewPrivate, &RootSpendPrivate)]: the view and the
    spend private key. *)
Definition private_subaddress (a b : scalar) (index : N) : scalar * scalar :=
  let Hs := subaddress_hash a index in
  (s_mul a (s_add Hs b), s_add Hs b).

(** [Subaddress for (&RootViewPrivate, &RootSpendPublic)]: the view and the
    spend public key. *)
Definition public_subaddress (a : scalar) (spend_public : point) (index : N) : point * point :=
  let Hs := subaddress_hash a index in
  let C := p_add (public_of Hs) spend_public in
  (p_mul a C, C).

(** [AccountKey]. *)
Record AccountKey := mkAccountKey {
  view_private_key : scalar;
  spend_private_key : scalar;
  ak_fog_report_url : bytes;
  ak_fog_report_id : bytes;
  fog_authority_spki : bytes
}.

(** [AccountKey::new], [new_with_fog] and [with_fog]. *)
Definition AccountKey_new (spend_private view_private : scalar) : AccountKey :=
  mkAccountKey view_private spend_private [] [] [].
Definition AccountKey_new_with_fog (spend_private view_private : scalar) (url id spki : bytes) : AccountKey :=
  mkAccountKey view_private spend_private url id spki.
Definition with_fog (self : AccountKey) (url id spki : bytes) : AccountKey :=
  AccountKey_new_with_fog (spend_private_key self) (view_private_key self) url id spki.

Definition subaddress_spend_private (self : AccountKey) (index : N) : scalar :=
  (private_subaddress (view_private_key self) (spend_private_key self) index).2.
Definition subaddress_view_private (self : AccountKey) (index : N) : scalar :=
  (private_subaddress (view_private_key self) (spend_private_key self) index).1.

(** [sign_authority] of a private key. *)
Definition sign_authority (x : scalar) (spki_bytes : bytes) : bytes :=
  sign_schnorrkel x authority_context spki_bytes.

(** [AccountKey::subaddress]. *)
Definition subaddress (self : AccountKey) (index : N) : PublicAddress :=
  let view_public := public_of (subaddress_view_private self index) in
  let spend_public := public_of (subaddress_spend_private self index) in
  let sig :=
    if negb (bool_decide (ak_fog_report_url self = []))
    then sign_authority (subaddress_view_private self index) (fog_authority_spki self)
    else [] in
  mkPublicAddress view_public spend_public (ak_fog_report_url self) (ak_fog_report_id self) sig.

Definition default_subaddress (self : AccountKey) : PublicAddress := subaddress self DEFAULT_SUBADDRESS_INDEX.
Definition change_subaddress (self : AccountKey) : PublicAddress := subaddress self CHANGE_SUBADDRESS_INDEX.
Definition gift_code_subaddress (self : AccountKey) : PublicAddress := subaddress self GIFT_CODE_SUBADDRESS_INDEX.

(** [ViewAccountKey], an account that cannot spend. *)
Record ViewAccountKey := mkViewAccountKey {
  vk_view_private_key : scalar;
  vk_spend_public_key : point
}.

(** [From<&AccountKey>]. *)
Definition ViewAccountKey_from (k : AccountKey) : ViewAccountKey :=
  mkViewAccountKey (view_private_key k) (public_of (spend_private_key k)).

(** [ViewAccountKey::subaddress]: never with fog. *)
Definition vk_subaddress (self : ViewAccountKey) (index : N) : PublicAddress :=
  let '(view_public, spend_public) :=
    public_subaddress (vk_view_private_key self) (vk_spend_public_key self) index in
  mkPublicAddress view_public spend_public [] [] [].

Definition vk_subaddress_spend_public (self : ViewAccountKey) (index : N) : point :=
  (public_subaddress (vk_view_private_key self) (vk_spend_public_key self) index).2.
Definition vk_subaddress_view_public (self : ViewAccountKey) (index : N) : point :=
  (public_subaddress (vk_view_private_key self) (vk_spend_public_key self) index).1.

(** ** Memos *)

(** [MemoPayload] and [EncryptedMemo] hold 66 bytes. *)
Definition MEMO_LEN : nat := 66.

Definition MemoPayload_default : bytes := replicate MEMO_LEN (u8 0).

(** [MemoPayload::new], [get_memo_type] and [get_memo_data]. *)
Definition MemoPayload_new (memo_type : vec byte 2) (memo_data : vec byte 64) : bytes :=
  vec_to_list memo_type ++ vec_to_list memo_data.
Definition get_memo_type (memo : bytes) : bytes := take 2 memo.
Definition get_memo_data (memo : bytes) : bytes := drop 2 memo.

(** [apply_keystream]: the key and the nonce come from the shared secret. *)
Definition apply_keystream (buf : bytes) (shared_secret : point) : bytes :=
  let okm := vec_to_list (hkdf_sha512 (str_bytes "mc-memo-okm") (compress shared_secret) [] 48%nat) in
  bytes_xor buf (vec_to_list (aes256ctr (take 32 okm) (drop 32 okm) (length buf))).

(** [MemoPayload::encrypt] and [decrypt_from]. *)
Definition memo_encrypt (memo : bytes) (shared_secret : point) : bytes :=
  apply_keystream memo shared_secret.
Definition memo_decrypt (e_memo : bytes) (shared_secret : point) : bytes :=
  apply_keystream e_memo shared_secret.

(** ** Outputs *)

(** [RistrettoPublic::try_from(&CompressedRistrettoPublic)]. *)
Definition point_try_from (c : bytes32) : result point KeyError :=
  match decompress c with Some p => Ok p | None => Err InvalidPublicKey end.

(** [TxOut::new_with_memo]; the memo is made after the keys, from the public
    key of the output. *)
Definition new_with_memo (block_version : BlockVersion) (amount : Amount) (recipient : PublicAddress)
    (tx_private_key : scalar) (hint : bytes) (memo_fn : point → result bytes NewMemoError) :
    result TxOut NewTxError :=
  let target_key := compress (create_tx_out_target_key tx_private_key recipient) in
  let public_key := create_tx_out_public_key tx_private_key (spend_public_key recipient) in
  let shared_secret := create_shared_secret (view_public_key recipient) tx_private_key in
  let? masked_amount :=
    map_err NewTxAmount (MaskedAmount_new block_version amount (compress shared_secret)) in
  let? e_memo :=
    if e_memo_feature_is_supported block_version then
      let? memo := map_err NewTxMemo (memo_fn public_key) in
      Ok (Some (memo_encrypt memo shared_secret))
    else Ok None in
  Ok (mkTxOut (Some masked_amount) target_key (compress public_key) hint e_memo).

(** [TxOut::new]. *)
Definition TxOut_new (block_version : BlockVersion) (amount : Amount) (recipient : PublicAddress)
    (tx_private_key : scalar) (hint : bytes) : result TxOut NewTxError :=
  new_with_memo block_version amount recipient tx_private_key hint (λ _, Ok MemoPayload_default).

(** [TxOut::view_key_match]. *)
Definition view_key_match (self : TxOut) (view_private_key : scalar) :
    result (Amount * point) ViewKeyMatchError :=
  let? public_key := map_err MatchKey (point_try_from (public_key self)) in
  let tx_out_shared_secret := get_tx_out_shared_secret view_private_key public_key in
  let? a := match masked_amount self with
            | Some a => Ok a
            | None => Err MatchUnknownMaskedAmountVersion
            end in
  let? (amount, _) := map_err MatchAmount (get_value a (compress tx_out_shared_secret)) in
  Ok (amount, tx_out_shared_secret).

(** [TxOut::decrypt_memo]. *)
Definition decrypt_memo (self : TxOut) (tx_out_shared_secret : point) : bytes :=
  match e_memo self with
  | Some e => memo_decrypt e tx_out_shared_secret
  | None => MemoPayload_default
  end.

(** [subaddress_matches_tx_out]. *)
Definition subaddress_matches_tx_out (acct : AccountKey) (subaddress_index : N) (output : TxOut) :
    result bool KeyError :=
  let? target := point_try_from (target_key output) in
  let? public := point_try_from (public_key output) in
  let sub_addr_spend := recover_public_subaddress_spend_key (view_private_key acct) target public in
  Ok (bool_decide (sub_addr_spend = public_of (subaddress_spend_private acct subaddress_index))).
End onetime.

Module OnetimeKeysProps.
Section props.
Context `{CL : CurveLaws}.

Lemma public_of_add a b : public_of (s_add a b) = p_add (public_of a) (public_of b).
Proof. apply p_mul_s_add. Qed.

(** The keys of a subaddress come out the same from the private spend key and
    from the public one. *)
Lemma public_of_private_subaddress a b i :
  (public_of (private_subaddress a b i).1, public_of (private_subaddress a b i).2)
  = public_subaddress a (public_of b) i.
Proof.
  unfold private_subaddress, public_subaddress. simpl. rewrite public_of_add. f_equal.
  unfold public_of. by rewrite <-p_mul_mul, p_mul_s_add.
Qed.

(** Sender and recipient compute the same shared secret: [r * C = a * R]. *)
Lemma shared_secret_agrees acct i r :
  create_shared_secret (view_public_key (subaddress acct i)) r
  = get_tx_out_shared_secret (view_private_key acct)
      (create_tx_out_public_key r (spend_public_key (subaddress acct i))).
Proof.
  unfold create_shared_secret, get_tx_out_shared_secret, create_tx_out_public_key, subaddress,
    subaddress_view_private, subaddress_spend_private, private_subaddress, public_of, create_shared_secret.
  simpl. by rewrite <-p_mul_mul, (p_mul_comm r).
Qed.

Lemma target_key_spend acct i r :
  let R := create_tx_out_public_key r (spend_public_key (subaddress acct i)) in
  create_tx_out_target_key r (subaddress acct i)
  = public_of (recover_onetime_private_key R (view_private_key acct) (subaddress_spend_private acct i)).
Proof.
  cbv zeta. unfold create_tx_out_target_key, recover_onetime_private_key.
  rewrite public_of_add.
  change (p_mul r (view_public_key (subaddress acct i)))
    with (create_shared_secret (view_public_key (subaddress acct i)) r).
  by rewrite shared_secret_agrees.
Qed.

Lemma recover_spend_key acct i r :
  recover_public_subaddress_spend_key (view_private_key acct)
    (create_tx_out_target_key r (subaddress acct i))
    (create_tx_out_public_key r (spend_public_key (subaddress acct i)))
  = spend_public_key (subaddress acct i).
Proof.
  rewrite target_key_spend. unfold recover_onetime_private_key, recover_public_subaddress_spend_key.
  rewrite public_of_add, p_add_comm. unfold public_of. apply p_add_sub.
Qed.

Lemma memo_roundtrip memo ss : memo_decrypt (memo_encrypt memo ss) ss = memo.
Proof.
  unfold memo_decrypt, memo_encrypt, apply_keystream.
  generalize (vec_to_list (hkdf_sha512 (str_bytes "mc-memo-okm") (compress ss) [] 48)). intros okm.
  set (k := vec_to_list (aes256ctr (take 32 okm) (drop 32 okm) (length memo))).
  assert (length k = length memo) as Hk by apply length_vec_to_list.
  replace (length (bytes_xor memo k)) with (length memo).
  - fold k. by apply bytes_xor_twice.
  - unfold bytes_xor. rewrite length_zip_with. lia.
Qed.

Lemma point_try_from_compress p : point_try_from (compress p) = Ok p.
Proof. unfold point_try_from. by rewrite decompress_compress. Qed.

(** What an output built for [recipient] holds. *)
Lemma new_with_memo_Ok block_version amount recipient r hint memo_fn memo :
  let R := create_tx_out_public_key r (spend_public_key recipient) in
  let ss := create_shared_secret (view_public_key recipient) r in
  memo_fn R = Ok memo →
  new_with_memo block_version amount recipient r hint memo_fn
  = match MaskedAmount_new block_version amount (compress ss) with
    | Err e => Err (NewTxAmount e)
    | Ok a => Ok (mkTxOut (Some a) (compress (create_tx_out_target_key r recipient)) (compress R) hint
                    (if e_memo_feature_is_supported block_version
                     then Some (memo_encrypt memo ss) else None))
    end.
Proof.
  cbv zeta. intros Hm. unfold new_with_memo. destruct (MaskedAmount_new _ _ _) as [a|e]; simpl; [|done].
  rewrite Hm. simpl. by destruct (e_memo_feature_is_supported block_version).
Qed.

(** A view key that gives the shared secret of an address matches the outputs
    made for the address. *)
Lemma new_output_matches_key x recipient block_version amount r hint memo_fn out :
  create_shared_secret (view_public_key recipient) r
    = get_tx_out_shared_secret x (create_tx_out_public_key r (spend_public_key recipient)) →
  token_id amount < 2 ^ 64 →
  new_with_memo block_version amount recipient r hint (λ R, Ok (memo_fn R)) = Ok out →
  masked_amount out ≠ None ∧ ∃ ss, view_key_match out x = Ok (amount, ss).
Proof.
  intros Hss Ht. erewrite new_with_memo_Ok by reflexivity.
  set (ss := create_shared_secret _ r).
  pose proof (MaskedAmountProps.masked_amount_roundtrip block_version amount (compress ss) Ht) as Ha.
  destruct (negb _ && _); [by rewrite Ha|]. destruct Ha as (a & blinding & -> & Hget & _).
  intros E. assert (∀ o, Ok (E:=NewTxError) o = Ok out → out = o) as Hi by congruence. apply Hi in E. subst out.
  split; [done|]. exists ss. unfold view_key_match. cbn [public_key masked_amount].
  rewrite point_try_from_compress. cbn [map_err result_bind]. rewrite <-Hss. fold ss.
  by rewrite Hget.
Qed.

Lemma new_output_matches acct i block_version amount r hint memo_fn out :
  token_id amount < 2 ^ 64 →
  new_with_memo block_version amount (subaddress acct i) r hint (λ R, Ok (memo_fn R)) = Ok out →
  masked_amount out ≠ None ∧ ∃ ss, view_key_match out (view_private_key acct) = Ok (amount, ss).
Proof. apply new_output_matches_key, shared_secret_agrees. Qed.

(** An output reaches the account it is sent to.  For every account,
    subaddress and transaction key, [TxOut::new_with_memo] either refuses a
    token id that the block version does not support, or gives an output that
    the view key of the account matches to the same amount, whose memo decrypts
    to the one given, whose subaddress is recognised (and no other index with
    another spend key), and whose target key is the public key of the one-time
    private key the account recovers. *)
Theorem output_roundtrip acct i block_version amount r hint memo_fn :
  token_id amount < 2 ^ 64 →
  let recipient := subaddress acct i in
  let result := new_with_memo block_version amount recipient r hint (λ R, Ok (memo_fn R)) in
  if negb (masked_token_id_feature_is_supported block_version) && negb (token_id amount =? 0)
  then result = Err (NewTxAmount TokenIdNotSupportedAtBlockVersion)
  else ∃ out R ss, result = Ok out ∧ decompress (public_key out) = Some R ∧
    view_key_match out (view_private_key acct) = Ok (amount, ss) ∧
    decrypt_memo out ss
      = (if e_memo_feature_is_supported block_version then memo_fn R else MemoPayload_default) ∧
    (∀ j, subaddress_matches_tx_out acct j out
          = Ok (bool_decide (spend_public_key recipient = spend_public_key (subaddress acct j)))) ∧
    target_key out = compress (public_of (recover_onetime_private_key R (view_private_key acct)
                                            (subaddress_spend_private acct i))).
Proof.
  intros Ht. cbv zeta. erewrite new_with_memo_Ok by reflexivity.
  set (recipient := subaddress acct i).
  set (R := create_tx_out_public_key r (spend_public_key recipient)).
  set (ss := create_shared_secret (view_public_key recipient) r).
  pose proof (MaskedAmountProps.masked_amount_roundtrip block_version amount (compress ss) Ht) as Ha.
  destruct (negb _ && _); [by rewrite Ha|].
  destruct Ha as (a & blinding & -> & Hget & _).
  eexists _, R, ss. split; [reflexivity|]. cbn [public_key target_key].
  split; [apply decompress_compress|]. split; [|split; [|split]].
  - unfold view_key_match. cbn [public_key masked_amount]. rewrite point_try_from_compress.
    cbn [map_err result_bind]. unfold R, recipient. rewrite <-shared_secret_agrees.
    fold recipient ss. by rewrite Hget.
  - unfold decrypt_memo. cbn [e_memo]. destruct (e_memo_feature_is_supported _); [|done].
    apply memo_roundtrip.
  - intros j. unfold subaddress_matches_tx_out. cbn [public_key target_key].
    rewrite !point_try_from_compress. cbn [result_bind]. unfold R, recipient.
    by rewrite recover_spend_key.
  - unfold R, recipient. by rewrite target_key_spend.
Qed.

(** The subaddresses of a view-only account are those of the account it
    comes from: the public keys derived from the view private key and the spend
    public key are the public keys of the private ones, at every index, and a
    view account holds no fog data. *)
Theorem view_account_subaddresses acct i :
  let v := vk_subaddress (ViewAccountKey_from acct) i in
  v = PublicAddress_new (spend_public_key (subaddress acct i)) (view_public_key (subaddress acct i)) ∧
  (ak_fog_report_url acct = [] → ak_fog_report_id acct = [] → v = subaddress acct i).
Proof.
  cbv zeta. unfold vk_subaddress, ViewAccountKey_from. cbn [vk_view_private_key vk_spend_public_key].
  rewrite <-public_of_private_subaddress. split; [done|].
  intros Hu Hi. unfold subaddress. by rewrite Hu, Hi.
Qed.
End props.

#[local] Instance bc : Curve := bit_curve.
#[local] Instance bl : CurveLaws := bit_curve_laws.

Definition toy_account : AccountKey := @AccountKey_new bit_curve true false.
Definition toy_scalar : scalar := @s_of_u64 bit_curve 1.

Lemma output_roundtrip_witness :
  ∃ out R ss,
    new_with_memo VERSION_THREE (mkAmount 700 3) (subaddress toy_account 5) toy_scalar []
      (λ _, Ok (replicate 66 (u8 9))) = Ok out ∧
    decompress (public_key out) = Some R ∧
    view_key_match out (view_private_key toy_account) = Ok (mkAmount 700 3, ss) ∧
    decrypt_memo out ss = replicate 66 (u8 9).
Proof.
  destruct (output_roundtrip toy_account 5 VERSION_THREE (mkAmount 700 3) toy_scalar []
              (λ _, replicate 66 (u8 9))) as (out & R & ss & E1 & E2 & E3 & E4 & _); [done|].
  exists out, R, ss. done.
Defined.

Lemma view_account_subaddresses_witness :
  vk_subaddress (ViewAccountKey_from toy_account) 7 = subaddress toy_account 7.
Proof. apply (view_account_subaddresses toy_account 7); reflexivity. Defined.
End OnetimeKeysProps.
