(* ===== verification/Mlsag.v ===== *)
(** * Ring signatures

    [crypto/ring-signature/src/ring_signature]: the signer, an incremental
    context that goes round the ring from the real input
    ([mlsag_sign.rs]), the verifier, which goes round it from index 0
    ([mlsag_verify.rs]), and [RingMLSAG] that owns the buffers of both
    ([mlsag.rs]).  The source's trait [Ring] is a class with the two instances
    of [mod.rs].  Random scalars come from a parameter, the class
    [ScalarRng]. *)

From stdpp Require Import vector strings.
From S2P Require Import Prelude Ord Bytes BlockVersion TxOut MaskedAmount Tx Ristretto.

Open Scope nat_scope.

Inductive MlsagError :=
| RingLengthMismatch (expected found : nat)
| RingIndexOutOfBounds
| RingInvalidCurvePoint
| RingInvalidSignature
| RingInvalidKeyImage
| RingValueNotConserved
| RingUnexpectedTxout
| RingInvalidState.

#[export] Instance MlsagError_eq_dec : EqDecision MlsagError.
Proof. solve_decision. Defined.

(** [Scalar::random(&mut rng)]. *)
Class ScalarRng `{Curve} (R : Type) := random_scalar : R → scalar * R.

(** The trait [Ring]. *)
Class Ring `{Curve} (T : Type) : Type := {
  ring_size : T → nat;
  ring_index : T → nat → result (point * point) MlsagError;
  ring_check : T → result unit MlsagError
}.

Section mlsag.
Context `{C : Curve} {R : Type} `{!ScalarRng R}.

#[export] Instance scalar_inhabited : Inhabited scalar := populate s_zero.
#[export] Instance point_inhabited : Inhabited point := populate basepoint.

(** [challenge]. *)
Definition challenge (message : bytes) (key_image : bytes32) (L0 R0 L1 : point) : scalar :=
  s_from_wide (blake512 (RING_MLSAG_CHALLENGE_DOMAIN_TAG ++ message ++ vec_to_list key_image
    ++ vec_to_list (compress L0) ++ vec_to_list (compress R0) ++ vec_to_list (compress L1))).

(** [TryFrom<&ReducedTxOut> for (RistrettoPublic, Commitment)]. *)
Definition expand_reduced (r : ReducedTxOut) : result (point * point) MlsagError :=
  match decompress (reduced_target_key r) with
  | None => Err RingInvalidCurvePoint
  | Some public =>
      match decompress (reduced_commitment r) with
      | None => Err RingInvalidCurvePoint
      | Some commitment => Ok (public, commitment)
      end
  end.

(** [Ring] for slices of decompressed elements. *)
#[export] Instance decompressed_ring : Ring (list (point * point)) := {|
  ring_size := length;
  ring_index := λ self index,
    match self !! index with Some v => Ok v | None => Err RingIndexOutOfBounds end;
  ring_check := λ _, Ok tt
|}.

(** [Ring] for slices of reduced outputs: every access decompresses. *)
Definition reduced_index (self : list ReducedTxOut) (index : nat) : result (point * point) MlsagError :=
  match self !! index with Some r => expand_reduced r | None => Err RingIndexOutOfBounds end.

Fixpoint check_indices (self : list ReducedTxOut) (l : list nat) : result unit MlsagError :=
  match l with
  | [] => Ok tt
  | i :: l => let? _ := reduced_index self i in check_indices self l
  end.

#[export] Instance reduced_ring : Ring (list ReducedTxOut) := {|
  ring_size := length;
  ring_index := reduced_index;
  ring_check := λ self, check_indices self (seq 0 (length self))
|}.

(** ** Signing *)

(** [MlsagSignParams]. *)
Record MlsagSignParams := mkSignParams {
  p_ring_size : nat;
  p_message : bytes;
  real_index : nat;
  onetime_private_key : scalar;
  p_value : N;
  blinding : scalar;
  output_blinding : scalar;
  generator : PedersenGens;
  check_value_is_preserved : bool
}.

(** [MlsagSignCtx]. *)
Record MlsagSignCtx := mkSignCtx {
  alpha_0 : scalar;
  alpha_1 : scalar;
  ctx_G : point;
  ctx_I : point;
  real_input : option (point * point);
  ring_count : nat;
  ctx_responses : list scalar;
  real_challenge : option scalar;
  last_challenge : option scalar;
  zeroth_challenge : option scalar;
  ctx_key_image : bytes32;
  output_commitment : point;
  complete : bool
}.

(** The loop of [init] that fills the responses of the decoys; the buffer has
    two entries for each index. *)
Fixpoint fill_responses (real : nat) (indices : list nat) (r : list scalar) (rng : R) : list scalar * R :=
  match indices with
  | [] => (r, rng)
  | i :: indices =>
      if bool_decide (i = real) then fill_responses real indices r rng
      else
        let (x, rng) := random_scalar rng in
        let r := <[2 * i := x]> r in
        let (y, rng) := random_scalar rng in
        let r := <[2 * i + 1 := y]> r in
        fill_responses real indices r rng
  end.

(** [MlsagSignCtx::init]. *)
Definition sign_init (params : MlsagSignParams) (rng : R) (responses : list scalar) :
    result (MlsagSignCtx * R) MlsagError :=
  let G := B_BLINDING in
  if negb (bool_decide (length responses = p_ring_size params * 2))
  then Err (RingLengthMismatch (p_ring_size params * 2) (length responses))
  else
    let key_image := key_image_of (onetime_private_key params) in
    match decompress key_image with
    | None => Err RingInvalidKeyImage
    | Some point_I =>
        let output_commitment :=
          Commitment_new (p_value params) (output_blinding params) (generator params) in
        let r := (λ _, s_zero) <$> responses in
        let (r, rng) := fill_responses (real_index params) (seq 0 (p_ring_size params)) r rng in
        let (alpha_0, rng) := random_scalar rng in
        let (alpha_1, rng) := random_scalar rng in
        Ok (mkSignCtx alpha_0 alpha_1 G point_I None 0 r None None None key_image output_commitment false, rng)
    end.

(** The challenge that follows a decoy. *)
Definition decoy_challenge (message : bytes) (key_image : bytes32) (G I output_commitment : point)
    (tx_out : point * point) (r0 r1 c : scalar) : scalar :=
  let (P_i, input_commitment) := tx_out in
  let L0 := p_add (p_mul r0 G) (p_mul c P_i) in
  let R0 := p_add (p_mul r0 (hash_to_point P_i)) (p_mul c I) in
  let L1 := p_add (p_mul r1 G) (p_mul c (p_sub output_commitment input_commitment)) in
  challenge message key_image L0 R0 L1.

(** The challenge that follows the real input. *)
Definition real_commitment_challenge (message : bytes) (key_image : bytes32) (G : point)
    (tx_out : point * point) (alpha_0 alpha_1 : scalar) : scalar :=
  challenge message key_image (p_mul alpha_0 G) (p_mul alpha_0 (hash_to_point tx_out.1)) (p_mul alpha_1 G).

(** [MlsagSignCtx::update]; taking the remainder by an empty ring and reading
    past the responses panic. *)
Definition sign_update (self : MlsagSignCtx) (params : MlsagSignParams) (i : nat) (tx_out : point * point) :
    exec (result MlsagSignCtx MlsagError) :=
  let n := p_ring_size params in
  let real := real_index params in
  assert! negb (bool_decide (n = 0)) in
  if negb (bool_decide (i = (real + ring_count self) mod n)) then Done (Err RingUnexpectedTxout)
  else
    let^ c :=
      if bool_decide (i = real)
      then Done (Ok (real_commitment_challenge (p_message params) (ctx_key_image self) (ctx_G self) tx_out
                       (alpha_0 self) (alpha_1 self)))
      else
        match last_challenge self with
        | None => Done (Err RingIndexOutOfBounds)
        | Some last =>
            let! r0 := unwrap (ctx_responses self !! (2 * i)) in
            let! r1 := unwrap (ctx_responses self !! (2 * i + 1)) in
            Done (Ok (decoy_challenge (p_message params) (ctx_key_image self) (ctx_G self) (ctx_I self)
                        (output_commitment self) tx_out r0 r1 last))
        end in
    Done (Ok (mkSignCtx (alpha_0 self) (alpha_1 self) (ctx_G self) (ctx_I self)
      (if bool_decide (i = real) then Some tx_out else real_input self)
      (ring_count self + 1) (ctx_responses self)
      (if bool_decide ((i + 1) mod n = real) then Some c else real_challenge self)
      (Some c)
      (if bool_decide ((i + 1) mod n = 0) then Some c else zeroth_challenge self)
      (ctx_key_image self) (output_commitment self) (complete self))).

(** [MlsagSignCtx::finalise]: the responses of the real index close the
    ring. *)
Definition sign_finalise (self : MlsagSignCtx) (params : MlsagSignParams) :
    exec (result (bytes32 * scalar * MlsagSignCtx) MlsagError) :=
  let real := real_index params in
  if negb (bool_decide (p_ring_size params = ring_count self)) then Done (Err RingIndexOutOfBounds)
  else
    match real_challenge self, zeroth_challenge self with
    | Some c_real, Some c_zero =>
        let s := onetime_private_key params in
        assert! bool_decide (2 * real < length (ctx_responses self)) in
        let r := <[2 * real := s_sub (alpha_0 self) (s_mul c_real s)]> (ctx_responses self) in
        let z := s_sub (output_blinding params) (blinding params) in
        assert! bool_decide (2 * real + 1 < length r) in
        let r := <[2 * real + 1 := s_sub (alpha_1 self) (s_mul c_real z)]> r in
        let done_ctx := mkSignCtx (alpha_0 self) (alpha_1 self) (ctx_G self) (ctx_I self) (real_input self)
          (ring_count self) r (real_challenge self) (last_challenge self) (zeroth_challenge self)
          (ctx_key_image self) (output_commitment self) true in
        if check_value_is_preserved params then
          match real_input self with
          | None => Done (Err RingIndexOutOfBounds)
          | Some (_, input_commitment) =>
              let difference := p_sub (output_commitment self) input_commitment in
              if negb (bool_decide (difference = p_mul z (ctx_G self)))
              then Done (Err RingValueNotConserved)
              else Done (Ok (ctx_key_image self, c_zero, done_ctx))
          end
        else Done (Ok (ctx_key_image self, c_zero, done_ctx))
    | _, _ => Done (Err RingInvalidState)
    end.

(** The loop of [sign], over [n] in [0..ring_size]. *)
Fixpoint sign_loop {T} `{!Ring T} (params : MlsagSignParams) (ring : T) (ctx : MlsagSignCtx)
    (ns : list nat) : exec (result MlsagSignCtx MlsagError) :=
  match ns with
  | [] => Done (Ok ctx)
  | n :: ns =>
      let i := (real_index params + n) mod ring_size ring in
      let^ tx_out := Done (ring_index ring i) in
      let^ ctx := sign_update ctx params i tx_out in
      sign_loop params ring ctx ns
  end.

(** [MlsagSignParams::sign]: the key image, the zeroth challenge and the
    responses left in the buffer. *)
Definition params_sign {T} `{!Ring T} (self : MlsagSignParams) (ring : T) (rng : R) (responses : list scalar) :
    exec (result (bytes32 * scalar * list scalar * R) MlsagError) :=
  let n := ring_size ring in
  if bool_decide (n <= real_index self) then Done (Err RingIndexOutOfBounds)
  else if negb (bool_decide (length responses = 2 * n))
  then Done (Err (RingLengthMismatch (2 * n) (length responses)))
  else
    let^ _ := Done (ring_check ring) in
    let^ (ctx, rng) := Done (sign_init self rng responses) in
    let^ ctx := sign_loop self ring ctx (seq 0 n) in
    let^ (key_image, c_zero, ctx) := sign_finalise ctx self in
    Done (Ok (key_image, c_zero, ctx_responses ctx, rng)).

(** ** Verifying *)

(** [MlsagVerify]. *)
Record MlsagVerify (T : Type) := mkVerify {
  v_key_image : bytes32;
  v_c_zero : scalar;
  v_message : bytes;
  v_ring : T;
  v_responses : list scalar;
  v_output_commitment : bytes32
}.

(** The loop of [verify], which fills [recomputed_c]. *)
Fixpoint verify_loop {T} `{!Ring T} (self : MlsagVerify T) (I output_commitment : point)
    (recomputed_c : list scalar) (indices : list nat) : exec (result (list scalar) MlsagError) :=
  match indices with
  | [] => Done (Ok recomputed_c)
  | i :: indices =>
      let n := ring_size (v_ring T self) in
      let^ tx_out := Done (ring_index (v_ring T self) i) in
      let! c_i := if bool_decide (i = 0) then Done (v_c_zero T self) else unwrap (recomputed_c !! i) in
      let! r0 := unwrap (v_responses T self !! (2 * i)) in
      let! r1 := unwrap (v_responses T self !! (2 * i + 1)) in
      let next := (i + 1) mod n in
      assert! bool_decide (next < length recomputed_c) in
      let recomputed_c :=
        <[next := decoy_challenge (v_message T self) (v_key_image T self) B_BLINDING I output_commitment
                    tx_out r0 r1 c_i]> recomputed_c in
      verify_loop self I output_commitment recomputed_c indices
  end.

(** [MlsagVerify::verify]; the buffer is scratch space, cleared at the end. *)
Definition mlsag_verify {T} `{!Ring T} (self : MlsagVerify T) (recomputed_c : list scalar) :
    exec (result unit MlsagError) :=
  let n := ring_size (v_ring T self) in
  if negb (bool_decide (length (v_responses T self) = 2 * n))
  then Done (Err (RingLengthMismatch (2 * n) (length (v_responses T self))))
  else if negb (bool_decide (length recomputed_c = n))
  then Done (Err (RingLengthMismatch n (length recomputed_c)))
  else
    match decompress (v_key_image T self) with
    | None => Done (Err RingInvalidKeyImage)
    | Some point_I =>
        match decompress (v_output_commitment T self) with
        | None => Done (Err RingInvalidCurvePoint)
        | Some output_commitment =>
            let^ _ := Done (ring_check (v_ring T self)) in
            let recomputed_c := (λ _, s_zero) <$> recomputed_c in
            let^ recomputed_c := verify_loop self point_I output_commitment recomputed_c (seq 0 n) in
            let! c_0 := unwrap (recomputed_c !! 0) in
            Done (if bool_decide (v_c_zero T self = c_0) then Ok tt else Err RingInvalidSignature)
        end
    end.

(** ** [RingMLSAG] *)

(** The signature before its scalars are encoded as bytes. *)
Record SignedRing := mkSignedRing {
  ring_c_zero : scalar;
  ring_responses : list scalar;
  ring_key_image : bytes32
}.

(** [RingMLSAG::sign_with_balance_check]: the ring is decompressed first. *)
Definition sign_with_balance_check (message : bytes) (ring : list ReducedTxOut) (real : nat)
    (onetime_private_key : scalar) (value : N) (blinding output_blinding : scalar)
    (generator : PedersenGens) (check : bool) (rng : R) : exec (result (SignedRing * R) MlsagError) :=
  let n := length ring in
  let responses := replicate (2 * n) s_zero in
  let^ decompressed_ring := Done (result_map expand_reduced ring) in
  let opts := mkSignParams n message real onetime_private_key value blinding output_blinding generator check in
  let^ (key_image, c_zero, responses, rng) := params_sign opts decompressed_ring rng responses in
  Done (Ok (mkSignedRing c_zero responses key_image, rng)).

(** [RingMLSAG::sign]. *)
Definition ring_sign (message : bytes) (ring : list ReducedTxOut) (real : nat)
    (onetime_private_key : scalar) (value : N) (blinding output_blinding : scalar)
    (generator : PedersenGens) (rng : R) : exec (result (SignedRing * R) MlsagError) :=
  sign_with_balance_check message ring real onetime_private_key value blinding output_blinding
    generator true rng.

(** [RingMLSAG::verify]. *)
Definition ring_verify (self : SignedRing) (message : bytes) (ring : list ReducedTxOut)
    (output_commitment : bytes32) : exec (result unit MlsagError) :=
  let n := length ring in
  let recomputed_c := replicate n s_zero in
  let^ decompressed_ring := Done (result_map expand_reduced ring) in
  mlsag_verify (mkVerify (list (point * point)) (ring_key_image self) (ring_c_zero self) message
                  decompressed_ring (ring_responses self) output_commitment) recomputed_c.
End mlsag.

Module MlsagProps.
#[local] Arguments Nat.mul : simpl never.
#[local] Arguments Nat.modulo : simpl never.

(** ** Going round the ring *)
Section round.
Context `{CL : CurveLaws} {R : Type} `{!ScalarRng R}.
Variables (message : bytes) (key_image : bytes32) (I oc : point) (ring : list (point * point)).

(** One step of the verifier, at index [i], with given responses. *)
Definition ring_step (resp : list scalar) (i : nat) (c : scalar) : scalar :=
  decoy_challenge message key_image B_BLINDING I oc (ring !!! i) (resp !!! (2 * i)) (resp !!! (2 * i + 1)) c.

(** The challenges of the verifier. *)
Fixpoint verify_seq (resp : list scalar) (c_zero : scalar) (i : nat) : scalar :=
  match i with
  | O => c_zero
  | S i => ring_step resp i (verify_seq resp c_zero i)
  end.

(** The challenges of the signer, from the one after the real input. *)
Fixpoint sign_seq (resp : list scalar) (real : nat) (first : scalar) (k : nat) : scalar :=
  match k with
  | O => first
  | S k => ring_step resp ((real + S k) mod length ring) (sign_seq resp real first k)
  end.

Lemma lookup_total_Some {A} `{Inhabited A} (l : list A) i : i < length l → l !! i = Some (l !!! i).
Proof. intros. by apply list_lookup_lookup_total_lt. Qed.

(** The buffer of the verifier holds the challenges of [verify_seq]. *)
Lemma verify_loop_spec resp c_zero oc_bytes (rc : list scalar) i m :
  let v := mkVerify (list (point * point)) key_image c_zero message ring resp oc_bytes in
  length resp = 2 * length ring → length rc = length ring → i + m = length ring →
  (i = 0 ∨ rc !! (i mod length ring) = Some (verify_seq resp c_zero i)) →
  ∃ rc', verify_loop v I oc rc (seq i m) = Done (Ok rc') ∧
    (length ring = 0 ∨ rc' !! 0 = Some (verify_seq resp c_zero (length ring))).
Proof.
  cbv zeta. intros Hresp. revert rc i. induction m as [|m IH]; intros rc i Hrc Him Hi; simpl.
  { exists rc. split; [done|]. assert (i = length ring) as -> by lia.
    destruct Hi as [->|Hi]; [by left|]. destruct (decide (length ring = 0)) as [E|E]; [by left|].
    right. by rewrite Nat.Div0.mod_same in Hi. }
  rewrite (lookup_total_Some ring i) by lia. simpl.
  assert (∀ k, (if bool_decide (i = 0) then Done c_zero else unwrap (rc !! i)) = k →
               k = Done (verify_seq resp c_zero i)) as Hc.
  { intros k <-. case_bool_decide as E; [by subst|]. destruct Hi as [->|Hi]; [done|].
    rewrite Nat.mod_small in Hi by lia. by rewrite Hi. }
  erewrite (Hc _ eq_refl). simpl.
  rewrite (lookup_total_Some resp (2 * i)), (lookup_total_Some resp (2 * i + 1)) by lia. simpl.
  assert ((i + 1) mod length ring < length ring) as Hnext by (apply Nat.mod_upper_bound; lia).
  rewrite bool_decide_true by lia.
  apply IH; [by rewrite length_insert|lia|]. right.
  rewrite Nat.add_1_r in *. rewrite list_lookup_insert_eq by lia. done.
Qed.

(** What the signer's challenges are at the index 0 and at the real index, and
    that the verifier meets them. *)
Lemma rounds_agree resp0 resp real first :
  real < length ring →
  (∀ i, i ≠ real → resp !!! (2 * i) = resp0 !!! (2 * i) ∧ resp !!! (2 * i + 1) = resp0 !!! (2 * i + 1)) →
  ring_step resp real (sign_seq resp0 real first (length ring - 1)) = first →
  let c_zero := sign_seq resp0 real first (length ring - real - 1) in
  verify_seq resp c_zero (length ring) = c_zero.
Proof.
  intros Hreal Hresp Hclose c_zero.
  assert (∀ i c, i ≠ real → ring_step resp i c = ring_step resp0 i c) as Hstep.
  { intros i c Hi. unfold ring_step. destruct (Hresp i Hi) as [-> ->]. done. }
  assert (∀ i, i ≤ real → verify_seq resp c_zero i
               = sign_seq resp0 real first (length ring - real - 1 + i)) as H1.
  { induction i as [|i IH]; intros Hi; simpl; [by rewrite Nat.add_0_r|].
    rewrite IH, Hstep by lia. rewrite Nat.add_succ_r. simpl.
    replace ((real + S (length ring - real - 1 + i)) mod length ring) with i; [done|].
    replace (real + S (length ring - real - 1 + i)) with (i + 1 * length ring) by lia.
    rewrite Nat.Div0.mod_add. rewrite Nat.mod_small; lia. }
  assert (∀ j, real + 1 + j ≤ length ring →
               verify_seq resp c_zero (S (real + j)) = sign_seq resp0 real first j) as H2.
  { induction j as [|j IH]; intros Hj.
    - rewrite Nat.add_0_r. cbn [verify_seq]. rewrite H1 by lia.
      replace (length ring - real - 1 + real) with (length ring - 1) by lia. done.
    - rewrite Nat.add_succ_r. cbn [verify_seq]. rewrite <-Nat.add_succ_r, Nat.add_succ_r.
      change (ring_step resp (real + j) (verify_seq resp c_zero (real + j)))
        with (verify_seq resp c_zero (S (real + j))).
      rewrite IH by lia. rewrite Hstep by lia. cbn [sign_seq].
      rewrite (Nat.mod_small (real + S j)) by lia. by rewrite Nat.add_succ_r. }
  specialize (H2 (length ring - real - 1)).
  replace (S (real + (length ring - real - 1))) with (length ring) in H2 by lia.
  apply H2. lia.
Qed.
End round.

(** ** The signer *)
Section signer.
Context `{CL : CurveLaws} {R : Type} `{!ScalarRng R}.
Variables (params : MlsagSignParams) (I : point) (ring : list (point * point)).
Variables (a0 a1 : scalar) (resp0 : list scalar).
Hypothesis (Hsize : p_ring_size params = length ring) (Hreal : real_index params < length ring).
Hypothesis (Hresp : length resp0 = 2 * length ring).

Notation n := (length ring).
Notation real := (real_index params).
Notation ki := (key_image_of (onetime_private_key params)).
Notation oc := (Commitment_new (p_value params) (output_blinding params) (generator params)).

Definition first_challenge : scalar :=
  real_commitment_challenge (p_message params) ki B_BLINDING (ring !!! real) a0 a1.
Definition challenge_at (k : nat) : scalar :=
  sign_seq (p_message params) ki I oc ring resp0 real first_challenge k.

(** The context after [k] elements of the ring. *)
Definition ctx_start : MlsagSignCtx :=
  mkSignCtx a0 a1 B_BLINDING I None 0 resp0 None None None ki oc false.
Definition ctx_at (k : nat) : MlsagSignCtx :=
  mkSignCtx a0 a1 B_BLINDING I (Some (ring !!! real)) k resp0
    (if bool_decide (k = n) then Some (challenge_at (n - 1)) else None)
    (Some (challenge_at (k - 1)))
    (if bool_decide (n - real ≤ k) then Some (challenge_at (n - real - 1)) else None) ki oc false.

(** Where a step of the round ends up. *)
Lemma next_index k :
  k < n → let i := (real + k) mod n in
  i < n ∧ (i = real ↔ k = 0) ∧ ((i + 1) mod n = real ↔ k + 1 = n) ∧ ((i + 1) mod n = 0 ↔ k + 1 = n - real).
Proof.
  intros Hk i.
  assert (i = real + k ∧ real + k < n ∨ i + n = real + k ∧ i < n) as Hi.
  { unfold i. destruct (decide (real + k < n)) as [Hlt|Hge]; [left; by rewrite Nat.mod_small|right].
    replace (real + k) with ((real + k - n) + 1 * n) by lia.
    rewrite Nat.Div0.mod_add, Nat.mod_small by lia. lia. }
  clearbody i. destruct (decide (i + 1 = n)) as [E|E].
  - rewrite E, Nat.Div0.mod_same. lia.
  - rewrite (Nat.mod_small (i + 1)) by lia. lia.
Qed.

(** The guard and the bookkeeping of [update], for an element of the round. *)
Lemma update_at ctx k c :
  k < n → ring_count ctx = k →
  (let i := (real + k) mod n in
   (if bool_decide (i = real)
    then Done (Ok (real_commitment_challenge (p_message params) (ctx_key_image ctx) (ctx_G ctx) (ring !!! i)
                     (alpha_0 ctx) (alpha_1 ctx)))
    else match last_challenge ctx with
         | None => Done (Err RingIndexOutOfBounds)
         | Some last =>
            let! r0 := unwrap (ctx_responses ctx !! (2 * i)) in
            let! r1 := unwrap (ctx_responses ctx !! (2 * i + 1)) in
            Done (Ok (decoy_challenge (p_message params) (ctx_key_image ctx) (ctx_G ctx) (ctx_I ctx)
                        (output_commitment ctx) (ring !!! i) r0 r1 last))
         end) = Done (Ok c)) →
  sign_update ctx params ((real + k) mod n) (ring !!! ((real + k) mod n))
  = Done (Ok (mkSignCtx (alpha_0 ctx) (alpha_1 ctx) (ctx_G ctx) (ctx_I ctx)
      (if bool_decide (k = 0) then Some (ring !!! real) else real_input ctx)
      (k + 1) (ctx_responses ctx)
      (if bool_decide (k + 1 = n) then Some c else real_challenge ctx) (Some c)
      (if bool_decide (k + 1 = n - real) then Some c else zeroth_challenge ctx)
      (ctx_key_image ctx) (output_commitment ctx) (complete ctx))).
Proof.
  intros Hk Hcount Hc. destruct (next_index k Hk) as (Hi & Hr & Hn & H0). cbv zeta in Hc.
  unfold sign_update. rewrite Hsize, Hcount.
  rewrite (bool_decide_false (n = 0)) by lia. cbn [negb].
  rewrite (bool_decide_true (_ = _ mod _)) by done. cbn [negb]. rewrite Hc. cbn [ebind].
  rewrite (bool_decide_ext _ _ Hr), (bool_decide_ext _ _ Hn), (bool_decide_ext _ _ H0).
  destruct (decide (k = 0)) as [Ek|Ek]; [|by rewrite (bool_decide_false (k = 0))].
  rewrite (bool_decide_true (k = 0)) by done.
  replace ((real + k) mod n) with real by (symmetry; by apply Hr). reflexivity.
Qed.

Lemma update_first :
  sign_update ctx_start params ((real + 0) mod n) (ring !!! ((real + 0) mod n)) = Done (Ok (ctx_at 1)).
Proof.
  assert ((real + 0) mod n = real) as E by (rewrite Nat.add_0_r, Nat.mod_small; lia).
  erewrite update_at; [|lia|done|cbv zeta; rewrite E, bool_decide_true by done; reflexivity].
  cbn [alpha_0 alpha_1 ctx_G ctx_I real_input ctx_responses real_challenge zeroth_challenge
    ctx_key_image output_commitment complete ctx_start]. fold first_challenge.
  unfold ctx_at. do 3 f_equal.
  - case_bool_decide as H1; case_bool_decide as H2; try lia; [|done]. by rewrite <-H1.
  - case_bool_decide as H1; case_bool_decide as H2; try lia; [|done].
    by replace (n - real - 1) with 0 by lia.
Qed.

Lemma update_next k :
  1 ≤ k → k < n →
  sign_update (ctx_at k) params ((real + k) mod n) (ring !!! ((real + k) mod n)) = Done (Ok (ctx_at (k + 1))).
Proof.
  intros H1 Hk. destruct (next_index k Hk) as (Hi & Hr & _ & _).
  erewrite (update_at (ctx_at k) k (challenge_at k)); [|lia|done|].
  - unfold ctx_at. cbn [alpha_0 alpha_1 ctx_G ctx_I real_input ctx_responses real_challenge zeroth_challenge
      ctx_key_image output_commitment complete].
    rewrite (bool_decide_false (k = 0)), (bool_decide_false (k = n)) by lia.
    replace (k + 1 - 1) with k by lia. do 3 f_equal.
    + case_bool_decide; [|done]. by replace (n - 1) with k by lia.
    + repeat case_bool_decide; try lia; try done. by replace (n - real - 1) with k by lia.
  - cbv zeta. rewrite bool_decide_false by lia. unfold ctx_at.
    cbn [last_challenge ctx_responses ctx_key_image ctx_G ctx_I output_commitment].
    rewrite !lookup_total_Some by lia. cbn [unwrap exec_bind]. unfold challenge_at, ring_step.
    destruct k as [|k]; [lia|]. replace (S k - 1) with k by lia. reflexivity.
Qed.

Lemma sign_loop_spec k m :
  1 ≤ k → k + m = n → sign_loop params ring (ctx_at k) (seq k m) = Done (Ok (ctx_at n)).
Proof.
  revert k. induction m as [|m IH]; intros k H1 Hk; simpl.
  - by replace k with n by lia.
  - destruct (next_index k ltac:(lia)) as (Hi & _).
    rewrite lookup_total_Some by done. cbn [ebind]. rewrite update_next by lia. cbn [ebind].
    rewrite Nat.add_1_r. apply IH; lia.
Qed.

Lemma sign_loop_all : sign_loop params ring ctx_start (seq 0 n) = Done (Ok (ctx_at n)).
Proof.
  replace (seq 0 n) with (0 :: seq 1 (n - 1)) by (rewrite cons_seq; f_equal; lia).
  cbn [sign_loop ring_size ring_index decompressed_ring].
  destruct (next_index 0 ltac:(lia)) as (Hi & _).
  rewrite lookup_total_Some by done. cbn [ebind]. rewrite update_first. cbn [ebind].
  apply sign_loop_spec; lia.
Qed.

(** The responses after [finalise]. *)
Definition final_responses : list scalar :=
  let c_real := challenge_at (n - 1) in
  let z := s_sub (output_blinding params) (blinding params) in
  <[2 * real + 1 := s_sub a1 (s_mul c_real z)]>
    (<[2 * real := s_sub a0 (s_mul c_real (onetime_private_key params))]> resp0).

Definition value_conserved : bool :=
  bool_decide (p_sub oc (ring !!! real).2
               = p_mul (s_sub (output_blinding params) (blinding params)) B_BLINDING).

Lemma finalise_spec :
  ∃ ctx, ctx_responses ctx = final_responses ∧
  sign_finalise (ctx_at n) params
  = Done (if negb (check_value_is_preserved params) || value_conserved
          then Ok (ki, challenge_at (n - real - 1), ctx) else Err RingValueNotConserved).
Proof.
  unfold sign_finalise, ctx_at. rewrite Hsize.
  cbn [alpha_0 alpha_1 ctx_G ctx_I real_input ctx_responses real_challenge zeroth_challenge
    ctx_key_image output_commitment complete ring_count].
  rewrite (bool_decide_true (n = n)), (bool_decide_true (n - real ≤ n)) by lia. cbn [negb].
  rewrite (bool_decide_true (2 * real < _)) by lia.
  rewrite (bool_decide_true (2 * real + 1 < _)) by (rewrite length_insert; lia).
  unfold value_conserved. destruct (ring !!! real) as [P Cm]. cbn [snd].
  eexists. split; cycle 1.
  { destruct (check_value_is_preserved params); cbn [negb orb]; [|reflexivity].
    case_bool_decide; cbn [negb]; reflexivity. }
  reflexivity.
Qed.

Lemma final_lookup_decoy i :
  i ≠ real → final_responses !!! (2 * i) = resp0 !!! (2 * i) ∧
             final_responses !!! (2 * i + 1) = resp0 !!! (2 * i + 1).
Proof. intros Hi. unfold final_responses. split; rewrite !list_lookup_total_insert_ne by lia; done. Qed.

Lemma length_final_responses : length final_responses = 2 * n.
Proof. unfold final_responses. by rewrite !length_insert. Qed.

(** The verifier computes the signer's first challenge at the real index. *)
Lemma final_closes :
  (ring !!! real).1 = public_of (onetime_private_key params) → value_conserved = true →
  I = p_mul (onetime_private_key params) (hash_to_point (ring !!! real).1) →
  ring_step (p_message params) ki I oc ring final_responses real (challenge_at (n - 1)) = first_challenge.
Proof.
  intros HP Hv HI. apply bool_decide_eq_true in Hv.
  unfold ring_step, decoy_challenge, first_challenge, real_commitment_challenge, final_responses.
  rewrite list_lookup_total_insert_eq by (rewrite length_insert; lia).
  rewrite list_lookup_total_insert_ne, list_lookup_total_insert_eq by lia.
  destruct (ring !!! real) as [P Cm]. cbn [fst snd] in *. rewrite Hv, HI. subst P.
  unfold public_of, B_BLINDING. by rewrite !response_closes.
Qed.

Lemma verify_final oc_bytes :
  (ring !!! real).1 = public_of (onetime_private_key params) → value_conserved = true →
  decompress ki = Some I → decompress oc_bytes = Some oc →
  mlsag_verify (mkVerify (list (point * point)) ki (challenge_at (n - real - 1)) (p_message params) ring
                  final_responses oc_bytes) (replicate n s_zero) = Done (Ok tt).
Proof.
  intros HP Hv HI Hoc. unfold mlsag_verify.
  cbn [v_responses v_ring v_key_image v_output_commitment ring_size ring_check decompressed_ring ebind].
  rewrite length_final_responses, length_replicate.
  rewrite !bool_decide_true by done. cbn [negb]. rewrite HI, Hoc.
  destruct (verify_loop_spec (p_message params) ki I oc ring final_responses
    (challenge_at (n - real - 1)) oc_bytes ((λ _, s_zero) <$> replicate n s_zero) 0 n)
    as (rc & -> & Hrc); [apply length_final_responses|by rewrite length_fmap, length_replicate|lia|by left|].
  destruct Hrc as [Hrc|Hrc]; [lia|]. cbn [ebind]. rewrite Hrc. cbn [unwrap exec_bind v_c_zero].
  rewrite bool_decide_true; [done|]. symmetry.
  apply (rounds_agree (p_message params) ki I oc ring resp0 final_responses real first_challenge).
  - done.
  - apply final_lookup_decoy.
  - apply final_closes; [done|done|]. unfold key_image_of in HI.
    rewrite decompress_compress in HI. rewrite HP. by injection HI.
Qed.
End signer.

Section claims.
Context `{CL : CurveLaws} {R : Type} `{!ScalarRng R}.

Lemma length_fill_responses real l (r : list scalar) (rng : R) :
  length (fill_responses real l r rng).1 = length r.
Proof.
  revert r rng. induction l as [|i l IH]; intros r rng; simpl; [done|].
  case_bool_decide; [apply IH|].
  destruct (random_scalar rng) as [x rng1]. destruct (random_scalar rng1) as [y rng2].
  by rewrite IH, !length_insert.
Qed.

Lemma key_image_decompresses x :
  decompress (key_image_of x) = Some (p_mul x (hash_to_point (public_of x))).
Proof. apply decompress_compress. Qed.

(** Signing a decompressed ring, up to [finalise]. *)
Lemma params_sign_spec params ring (rng : R) :
  p_ring_size params = length ring → real_index params < length ring →
  let x := onetime_private_key params in
  let I := p_mul x (hash_to_point (public_of x)) in
  ∃ a0 a1 resp0 rng', length resp0 = 2 * length ring ∧
    params_sign params ring rng (replicate (2 * length ring) s_zero)
    = Done (if negb (check_value_is_preserved params) || value_conserved params ring
            then Ok (key_image_of x, challenge_at params I ring a0 a1 resp0 (length ring - real_index params - 1),
                     final_responses params I ring a0 a1 resp0, rng')
            else Err RingValueNotConserved).
Proof.
  intros Hsize Hreal x I. unfold params_sign. cbn [ring_size ring_check decompressed_ring ebind].
  rewrite (bool_decide_false (_ ≤ _)), length_replicate, bool_decide_true by lia. cbn [negb].
  unfold sign_init. rewrite length_replicate, Hsize, bool_decide_true by lia. cbn [negb].
  fold x. rewrite key_image_decompresses. fold I.
  pose proof (length_fill_responses (real_index params) (seq 0 (length ring))
    ((λ _, s_zero) <$> replicate (2 * length ring) s_zero) rng) as Hlen.
  destruct (fill_responses _ _ _ _) as [resp0 rng1]. cbn [fst] in Hlen.
  rewrite length_fmap, length_replicate in Hlen.
  destruct (random_scalar rng1) as [a0 rng2]. destruct (random_scalar rng2) as [a1 rng3].
  exists a0, a1, resp0, rng3. split; [done|]. cbn [ebind].
  pose proof (sign_loop_all params I ring a0 a1 resp0 Hsize Hreal Hlen) as Hloop.
  unfold ctx_start in Hloop. fold x in Hloop. rewrite Hloop. cbn [ebind].
  destruct (finalise_spec params I ring a0 a1 resp0 Hsize Hreal Hlen) as (ctx & Hctx & ->).
  destruct (negb _ || _); cbn [ebind]; [|done]. by rewrite Hctx.
Qed.

Lemma expand_Ok r p : expand_reduced r = Ok p ↔
  decompress (reduced_target_key r) = Some p.1 ∧ decompress (reduced_commitment r) = Some p.2.
Proof.
  unfold expand_reduced. destruct (decompress (reduced_target_key r)), (decompress (reduced_commitment r));
    destruct p; naive_solver.
Qed.

Lemma result_map_expand_Err ring e :
  result_map expand_reduced ring = Err e → e = RingInvalidCurvePoint.
Proof.
  intros (r & _ & Hr)%result_map_Err. unfold expand_reduced in Hr.
  destruct (decompress (reduced_target_key r)), (decompress (reduced_commitment r)); congruence.
Qed.

(** The outcome of signing a ring, for every input: a ring member that
    is not a pair of curve points is refused, then a real index past the end,
    then a real input whose commitment does not hold the value with the given
    blinding; otherwise a signature is made, with two responses for each member
    and the key image of the one-time key.  Signing never panics. *)
Theorem ring_sign_outcome message ring real x value b ob g (rng : R) :
  let run := ring_sign message ring real x value b ob g rng in
  match result_map expand_reduced ring with
  | Err e => run = Done (Err e) ∧ e = RingInvalidCurvePoint
  | Ok members =>
      match members !! real with
      | None => run = Done (Err RingIndexOutOfBounds)
      | Some (_, input_commitment) =>
          if bool_decide (p_sub (Commitment_new value ob g) input_commitment = p_mul (s_sub ob b) B_BLINDING)
          then ∃ sig rng', run = Done (Ok (sig, rng')) ∧ ring_key_image sig = key_image_of x ∧
                 length (ring_responses sig) = 2 * length ring
          else run = Done (Err RingValueNotConserved)
      end
  end.
Proof.
  cbv zeta. unfold ring_sign, sign_with_balance_check.
  destruct (result_map expand_reduced ring) as [members|e] eqn:Em; cbn [ebind]; cycle 1.
  { split; [done|]. by apply result_map_expand_Err in Em. }
  apply result_map_Ok, Forall2_length in Em. rewrite Em.
  set (params := mkSignParams _ _ _ _ _ _ _ _ _).
  destruct (members !! real) as [[P Cm]|] eqn:Er; cycle 1.
  { apply lookup_ge_None in Er. unfold params_sign. cbn [ring_size decompressed_ring real_index params].
    by rewrite bool_decide_true. }
  assert (real < length members) as Hlt by (by eapply lookup_lt_Some).
  destruct (params_sign_spec params members rng eq_refl Hlt) as (a0 & a1 & resp0 & rng' & Hlen & ->).
  unfold value_conserved. cbn [check_value_is_preserved negb orb params real_index p_value output_blinding
    generator blinding]. rewrite (list_lookup_total_correct _ _ _ Er). cbn [snd].
  case_bool_decide; cbn [ebind]; [|done].
  do 2 eexists. split; [reflexivity|]. split; [done|]. by apply length_final_responses.
Qed.

(** A signature that was made verifies, when the real member pays to the
    signer's one-time key. *)
Lemma ring_sign_verifies message ring real r x value b ob g (rng rng' : R) sig :
  ring_sign message ring real x value b ob g rng = Done (Ok (sig, rng')) →
  ring !! real = Some r → decompress (reduced_target_key r) = Some (public_of x) →
  ring_verify sig message ring (CompressedCommitment_new value ob g) = Done (Ok tt).
Proof.
  unfold ring_sign, sign_with_balance_check. intros Hs Hr Ht.
  destruct (result_map expand_reduced ring) as [members|e] eqn:Em; [|done].
  pose proof Em as Hmem. apply result_map_Ok in Hmem.
  destruct (Forall2_lookup_l _ _ _ _ _ Hmem Hr) as ([P Cm] & Hp & He).
  apply expand_Ok in He as [HP _]. rewrite Ht in HP. injection HP as HP. cbn [fst] in HP.
  assert (length ring = length members) as El by (by eapply Forall2_length).
  assert (real < length members) as Hlt by (by eapply lookup_lt_Some).
  cbn [ebind] in Hs. rewrite El in Hs. revert Hs. set (params := mkSignParams _ _ _ _ _ _ _ _ _).
  destruct (params_sign_spec params members rng eq_refl Hlt) as (a0 & a1 & resp0 & rng1 & Hlen & ->).
  cbn [check_value_is_preserved params negb orb].
  destruct (value_conserved params members) eqn:Hv; cbn [ebind]; [|done]. intros [= <- _].
  unfold ring_verify. rewrite Em, El. cbn [ebind ring_key_image ring_c_zero ring_responses].
  apply (verify_final params); try done.
  - cbn [real_index params onetime_private_key]. by rewrite (list_lookup_total_correct _ _ _ Hp).
  - apply key_image_decompresses.
  - apply decompress_compress.
Qed.

(** Signing succeeds when the real member commits to the value. *)
Lemma ring_sign_succeeds message ring real r x value b ob g (rng : R) :
  Forall (λ m, is_ok (expand_reduced m) = true) ring → ring !! real = Some r →
  reduced_commitment r = CompressedCommitment_new value b g → B_blinding g = B_BLINDING →
  ∃ sig rng', ring_sign message ring real x value b ob g rng = Done (Ok (sig, rng')) ∧
    ring_key_image sig = key_image_of x.
Proof.
  intros Hring Hr Hc Hg. unfold ring_sign, sign_with_balance_check.
  destruct (result_map expand_reduced ring) as [members|e] eqn:Em; cycle 1.
  { apply result_map_Err in Em as (m & Hm & Ee). eapply Forall_forall in Hring; [|exact Hm].
    by rewrite Ee in Hring. }
  apply result_map_Ok in Em. destruct (Forall2_lookup_l _ _ _ _ _ Em Hr) as ([P Cm] & Hp & He).
  apply expand_Ok in He as [_ HCm]. unfold CompressedCommitment_new in Hc.
  rewrite Hc, decompress_compress in HCm. injection HCm as HCm. cbn [snd] in HCm.
  apply Forall2_length in Em. cbn [ebind]. rewrite Em. set (params := mkSignParams _ _ _ _ _ _ _ _ _).
  assert (real < length members) as Hlt by (by eapply lookup_lt_Some).
  destruct (params_sign_spec params members rng) as (a0 & a1 & resp0 & rng' & Hlen & ->); [done|done|].
  assert (value_conserved params members = true) as ->.
  { unfold value_conserved. cbn [real_index params p_value output_blinding generator blinding].
    rewrite (list_lookup_total_correct _ _ _ Hp). cbn [snd]. apply bool_decide_eq_true.
    by rewrite <-HCm, commitment_difference, Hg. }
  cbn [check_value_is_preserved params negb orb ebind]. do 2 eexists. by split.
Qed.

(** Ring signatures are complete.  In a ring of valid points where the
    real member pays to the public key of the signer's one-time key and commits
    to the signed value with the given blinding, signing succeeds for every
    random generator, message and decoys, and the signature verifies on the same
    ring and message against the commitment to the value with the new
    blinding. *)
Theorem ring_signature_verifies message ring real r x value b ob g (rng : R) :
  Forall (λ m, is_ok (expand_reduced m) = true) ring →
  ring !! real = Some r →
  reduced_target_key r = compress (public_of x) →
  reduced_commitment r = CompressedCommitment_new value b g →
  B_blinding g = B_BLINDING →
  ∃ sig rng', ring_sign message ring real x value b ob g rng = Done (Ok (sig, rng')) ∧
    ring_verify sig message ring (CompressedCommitment_new value ob g) = Done (Ok tt) ∧
    ring_key_image sig = key_image_of x.
Proof.
  intros Hring Hr Ht Hc Hg.
  destruct (ring_sign_succeeds message ring real r x value b ob g rng Hring Hr Hc Hg)
    as (sig & rng' & Hs & Hki).
  exists sig, rng'. split; [done|]. split; [|done].
  eapply ring_sign_verifies; [exact Hs|exact Hr|]. by rewrite Ht, decompress_compress.
Qed.

(** A ring without members makes [verify] read an element of an empty
    buffer. *)
Theorem empty_ring_verify_panics c_zero message x b g value :
  ring_verify (mkSignedRing c_zero [] (key_image_of x)) message [] (CompressedCommitment_new value b g) = Panic.
Proof.
  unfold ring_verify, mlsag_verify. simpl. unfold CompressedCommitment_new.
  by rewrite key_image_decompresses, decompress_compress.
Qed.
End claims.

(** A generator of scalars that repeats one, over the group with two elements. *)
#[local] Instance bc : Curve := bit_curve.
#[local] Instance bl : CurveLaws := bit_curve_laws.
#[local] Instance bit_rng : ScalarRng unit := λ _, (@s_of_u64 bit_curve 1, tt).

Definition toy_key : scalar := @s_of_u64 bit_curve 1.
Definition toy_blinding : scalar := @s_of_u64 bit_curve 0.
Definition toy_member (target : point) (value : N) : ReducedTxOut :=
  mkReducedTxOut (compress basepoint) (compress target)
    (CompressedCommitment_new value toy_blinding (generators 0)).
Definition toy_ring : list ReducedTxOut :=
  [toy_member (@p_from_wide bit_curve (vreplicate 64 (u8 0))) 5; toy_member (public_of toy_key) 700;
   toy_member (@p_from_wide bit_curve (vreplicate 64 (u8 0))) 6].

Lemma ring_signature_verifies_witness :
  ∃ sig rng', ring_sign [u8 1; u8 2] toy_ring 1 toy_key 700 toy_blinding toy_key (generators 0) tt
    = Done (Ok (sig, rng')) ∧
    ring_verify sig [u8 1; u8 2] toy_ring (CompressedCommitment_new 700 toy_key (generators 0)) = Done (Ok tt).
Proof.
  destruct (ring_signature_verifies [u8 1; u8 2] toy_ring 1 (toy_member (public_of toy_key) 700)
    toy_key 700 toy_blinding toy_key (generators 0) tt) as (sig & rng' & E1 & E2 & _);
    [repeat constructor|reflexivity..|].
  exact (ex_intro _ sig (ex_intro _ rng' (conj E1 E2))).
Defined.
End MlsagProps.
