(* ===== verification/RingCt.v ===== *)
(** * Confidential transaction signatures

    [transaction/core/src/ring_ct]: the data a signature is made from
    ([SigningData]), signing, verification and the digest the ring signatures
    sign ([rct_bulletproofs.rs], [signing_digest.rs], [generator_cache.rs]), with
    the range proofs ([range_proofs/mod.rs]), the summary of a transaction
    ([tx_summary.rs]), [zip_exact] and the signers of
    [crypto/ring-signature/signer].  Bulletproofs and the Merlin digests come
    from third-party crates: the classes [Bulletproofs] and [RctDigests]. *)

From stdpp Require Import vector strings.
From S2P Require Import Prelude Ord Bytes TxOut BlockVersion MaskedAmount Tx Ristretto OnetimeKeys Mlsag.

Open Scope nat_scope.

(** [RangeProof] of the crate [bulletproofs]: aggregated proofs for 64 bits. *)
Class Bulletproofs `{Curve} (R : Type) : Type := {
  RangeProof : Type;
  ProofError : Type;
  prove_multiple : PedersenGens → list N → list scalar → R →
    result (RangeProof * list bytes32) ProofError * R;
  verify_multiple : RangeProof → PedersenGens → list bytes32 → R → result unit ProofError * R;
  proof_to_bytes : RangeProof → bytes;
  proof_from_bytes : bytes → option RangeProof
}.

(** A proof that was made is accepted for the commitments to its values, and
    survives its encoding, which is not empty. *)
Class BulletproofLaws `{Bulletproofs} : Prop := {
  prove_verify g values blindings rng proof comms rng' rng'' :
    prove_multiple g values blindings rng = (Ok (proof, comms), rng') →
    length values = length blindings →
    ∃ rng3, verify_multiple proof g
              (zip_with (λ v b, CompressedCommitment_new v b g) values blindings) rng'' = (Ok tt, rng3);
  proof_roundtrip proof : proof_from_bytes (proof_to_bytes proof) = Some proof;
  proof_bytes_nonempty proof : proof_to_bytes proof ≠ []
}.

(** ** The summary of a transaction *)

Record TxOutSummary := mkTxOutSummary {
  sum_masked_amount : option MaskedAmount;
  sum_target_key : CompressedRistrettoPublic;
  sum_public_key : CompressedRistrettoPublic;
  associated_to_input_rules : bool
}.

Record TxInSummary := mkTxInSummary {
  pseudo_output_commitment : CompressedCommitment;
  input_rules_digest : bytes
}.

Record TxSummary := mkTxSummary {
  sum_outputs : list TxOutSummary;
  sum_inputs : list TxInSummary;
  sum_fee : N;
  sum_fee_token_id : N;
  sum_tombstone_block : N
}.

(** The Merlin digests. *)
Class RctDigests : Type := {
  tx_prefix_hash : TxPrefix → bytes32;
  input_rules_canonical_digest : InputRules → bytes32;
  digest_extended_message : bytes → list CompressedCommitment → bytes → list bytes → bytes32;
  digest_message_and_summary : bytes → TxSummary → bytes32
}.

Definition zip_exact {A B} (a : list A) (b : list B) : result (list (A * B)) (nat * nat) :=
  if bool_decide (length a = length b) then Ok (zip a b) else Err (length a, length b).

Section digests.
Context `{RctDigests}.

(** The loop over the inputs, with the outputs their rules name;
    [BTreeMap::append] lets the later entries win. *)
Fixpoint summarize_inputs (l : list (TxIn * CompressedCommitment))
    (assoc : gmap CompressedRistrettoPublic TxOut) :
    list TxInSummary * gmap CompressedRistrettoPublic TxOut :=
  match l with
  | [] => ([], assoc)
  | (input, commitment) :: l =>
      let '(digest, assoc) :=
        match input_rules input with
        | Some rules => (vec_to_list (input_rules_canonical_digest rules), associated_tx_outs rules ∪ assoc)
        | None => ([], assoc)
        end in
      let '(rest, assoc) := summarize_inputs l assoc in
      (mkTxInSummary commitment digest :: rest, assoc)
  end.

(** [TxSummary::new]. *)
Definition TxSummary_new (tx_prefix : TxPrefix) (pseudo_output_commitments : list CompressedCommitment) :
    result TxSummary (nat * nat) :=
  let? l := zip_exact (inputs tx_prefix) pseudo_output_commitments in
  let '(ins, assoc) := summarize_inputs l ∅ in
  let outs := (λ src, mkTxOutSummary (masked_amount src) (target_key src) (public_key src)
    (match assoc !! public_key src with
     | Some o => bool_decide (target_key o = target_key src)
     | None => false
     end)) <$> outputs tx_prefix in
  Ok (mkTxSummary outs ins (fee tx_prefix) (fee_token_id tx_prefix) (tombstone_block tx_prefix)).

(** [extend_message]. *)
Definition extend_message (message : bytes) (pseudo_output_commitments : list CompressedCommitment)
    (range_proof_bytes : bytes) : bytes :=
  message ++ (pseudo_output_commitments ≫= vec_to_list) ++ range_proof_bytes.

Definition compute_extended_message_either_version (block_version : BlockVersion) (message : bytes)
    (pseudo_output_commitments : list CompressedCommitment) (range_proof_bytes : bytes)
    (range_proofs : list bytes) : bytes :=
  if mlsags_sign_extended_message_digest block_version
  then vec_to_list (digest_extended_message message pseudo_output_commitments range_proof_bytes range_proofs)
  else extend_message message pseudo_output_commitments range_proof_bytes.

(** [compute_mlsag_signing_digest]. *)
Definition compute_mlsag_signing_digest (block_version : BlockVersion) (tx_prefix : TxPrefix)
    (pseudo_output_commitments : list CompressedCommitment) (range_proof_bytes : bytes)
    (range_proofs : list bytes) : result (bytes * TxSummary * bytes) (nat * nat) :=
  let message := vec_to_list (tx_prefix_hash tx_prefix) in
  let extended_message := compute_extended_message_either_version block_version message
    pseudo_output_commitments range_proof_bytes range_proofs in
  let? tx_summary := TxSummary_new tx_prefix pseudo_output_commitments in
  let mlsag_signing_digest :=
    if mlsags_sign_extended_message_and_tx_summary_digest block_version
    then vec_to_list (digest_message_and_summary extended_message tx_summary)
    else extended_message in
  Ok (mlsag_signing_digest, tx_summary, extended_message).
End digests.

(** ** Input rings *)

Inductive SignerError :=
| TrueInputNotOwned
| SignerKeys (e : KeyError)
| RealInputIndexOutOfBounds
| SignerRingSignature (e : MlsagError)
| NoPathToSpendKey.

Section rings.
Context `{C : Curve}.

Inductive OneTimeKeyDeriveData :=
| OneTimeKey (key : scalar)
| SubaddressIndex (index : N).

Record InputSecret := mkInputSecret {
  onetime_key_derive_data : OneTimeKeyDeriveData;
  is_amount : Amount;
  is_blinding : scalar
}.

Record SignableInputRing := mkSignableInputRing {
  signable_members : list ReducedTxOut;
  real_input_index : nat;
  input_secret : InputSecret
}.

Record OutputSecret := mkOutputSecret {
  os_amount : Amount;
  os_blinding : scalar
}.

Record PresignedInputRing := mkPresignedInputRing {
  mlsag : RingMLSAG;
  pseudo_output_secret : OutputSecret
}.

Inductive InputRing :=
| Signable (r : SignableInputRing)
| Presigned (r : PresignedInputRing).

(** [InputRing::amount]. *)
Definition ring_amount (r : InputRing) : Amount :=
  match r with
  | Signable r => is_amount (input_secret r)
  | Presigned r => os_amount (pseudo_output_secret r)
  end.

(** A signature as a transaction holds it, with its scalars as bytes. *)
Definition mlsag_encode (s : SignedRing) : RingMLSAG :=
  mkRingMLSAG (s_bytes (ring_c_zero s)) (s_bytes <$> ring_responses s) (ring_key_image s).
Definition mlsag_decode (s : RingMLSAG) : SignedRing :=
  mkSignedRing (s_from_bytes (c_zero s)) (s_from_bytes <$> responses s) (key_image s).

(** [GeneratorCache::get]: the generators and the cache after the call. *)
Definition cache_get (cache : gmap N PedersenGens) (t : N) : PedersenGens * gmap N PedersenGens :=
  match cache !! t with
  | Some g => (g, cache)
  | None => (generators t, <[ t := generators t ]> cache)
  end.

(** Every entry of a cache that began empty is the generators of its token. *)
Definition cache_ok (cache : gmap N PedersenGens) : Prop := map_Forall (λ t g, g = generators t) cache.

Lemma cache_get_ok cache t :
  cache_ok cache → (cache_get cache t).1 = generators t ∧ cache_ok (cache_get cache t).2.
Proof.
  intros Hc. unfold cache_get. destruct (cache !! t) as [g|] eqn:E; simpl.
  - split; [by apply Hc in E|done].
  - split; [done|]. by apply map_Forall_insert_2.
Qed.
End rings.

(** The trait [RingSigner]. *)
Class RingSigner `{Curve} (R S : Type) : Type :=
  signer_sign : S → bytes → SignableInputRing → scalar → R → exec (result (RingMLSAG * R) SignerError).

Section signers.
Context `{C : Curve} {R : Type} `{!ScalarRng R}.

(** The steps shared by the two signers: the check of the one-time key against
    the real member, then the ring signature. *)
Definition sign_with_key (message : bytes) (ring : SignableInputRing) (pseudo_output_blinding : scalar)
    (rng : R) (onetime_key : ReducedTxOut → result scalar SignerError) :
    exec (result (RingMLSAG * R) SignerError) :=
  match signable_members ring !! real_input_index ring with
  | None => Done (Err RealInputIndexOutOfBounds)
  | Some real_input =>
      let^ target_key := Done (map_err SignerKeys (point_try_from (reduced_target_key real_input))) in
      let^ onetime_private_key := Done (onetime_key real_input) in
      if negb (bool_decide (public_of onetime_private_key = target_key)) then Done (Err TrueInputNotOwned)
      else
        let secret := input_secret ring in
        let generator := generators (token_id (is_amount secret)) in
        let^ (s, rng) := emap_err SignerRingSignature
          (ring_sign message (signable_members ring) (real_input_index ring) onetime_private_key
             (value (is_amount secret)) (is_blinding secret) pseudo_output_blinding generator rng) in
        Done (Ok (mlsag_encode s, rng))
  end.

(** [LocalRingSigner]. *)
Record LocalRingSigner := mkLocalRingSigner { signer_key : AccountKey }.

#[export] Instance local_ring_signer : RingSigner R LocalRingSigner := λ self message ring blinding rng,
  sign_with_key message ring blinding rng (λ real_input,
    match onetime_key_derive_data (input_secret ring) with
    | OneTimeKey key => Ok key
    | SubaddressIndex subaddress_index =>
        let? public_key := map_err SignerKeys (point_try_from (reduced_public_key real_input)) in
        Ok (recover_onetime_private_key public_key (view_private_key (signer_key self))
              (subaddress_spend_private (signer_key self) subaddress_index))
    end).

(** [NoKeysRingSigner]. *)
Inductive NoKeysRingSigner := mkNoKeysRingSigner.

#[export] Instance no_keys_ring_signer : RingSigner R NoKeysRingSigner := λ _ message ring blinding rng,
  sign_with_key message ring blinding rng (λ _,
    match onetime_key_derive_data (input_secret ring) with
    | OneTimeKey key => Ok key
    | SubaddressIndex _ => Err NoPathToSpendKey
    end).
End signers.

(** ** Signing and verifying *)

Inductive RangeProofError `{B : Bulletproofs} :=
| BulletproofError (e : ProofError)
| ResizeError.

Inductive RctError `{B : Bulletproofs} :=
| RctLengthMismatch (expected found : nat)
| RctIndexOutOfBounds
| RctNoInputs
| RctInvalidRingSize (n : nat)
| RctDuplicateKeyImage
| RctValueNotConserved
| RctRangeProof (e : RangeProofError)
| RctRangeProofDeserialization
| RctTokenIdNotAllowed
| RctMissingPseudoOutputTokenIds
| RctMissingOutputTokenIds
| RctPseudoOutputTokenIdsNotAllowed
| RctOutputTokenIdsNotAllowed
| RctMixedTransactionsNotAllowed
| RctTooManyRangeProofs
| RctUnexpectedRangeProof
| RctMissingRangeProofs (expected found : nat)
| RctNoCommitmentsForTokenId (t : N)
| RctAllRingsPresigned
| RctSignedInputRulesNotAllowed
| RctZipExact (lens : nat * nat)
| RctRingSignature (e : MlsagError)
| RctSigner (e : SignerError).

Section signing_data.
Context `{C : Curve}.

(** [SigningData]. *)
Record SigningData := mkSigningData {
  sd_mlsag_signing_digest : bytes;
  sd_pseudo_output_blindings : list scalar;
  sd_pseudo_output_commitments : list CompressedCommitment;
  sd_range_proof_bytes : bytes;
  sd_range_proofs : list bytes;
  sd_pseudo_output_token_ids : list N;
  sd_output_token_ids : list N
}.
End signing_data.

Section ringct.
Context `{C : Curve} {R : Type} `{!ScalarRng R} `{B : !Bulletproofs R} `{D : !RctDigests}.

(** [FEE_BLINDING]. *)
Definition FEE_BLINDING : scalar := s_zero.

(** [sum] over scalars and points. *)
Definition s_sum (l : list scalar) : scalar := foldl s_add s_zero l.
Definition p_sum (l : list point) : point := foldl p_add p_identity l.

(** [resize_slice_to_pow2]: the last element is repeated; an empty slice
    panics. *)
Definition resize_slice_to_pow2 {A} (slice : list A) : exec (result (list A) RangeProofError) :=
  match checked_next_power_of_two (len slice) with
  | Some next_power_of_two =>
      let diff := N.to_nat next_power_of_two - length slice in
      let! x := unwrap (last slice) in
      Done (Ok (slice ++ replicate diff x))
  | None => Done (Err ResizeError)
  end.

(** [generate_range_proofs]. *)
Definition generate_range_proofs (values : list N) (blindings : list scalar) (g : PedersenGens) (rng : R) :
    exec (result (RangeProof * list bytes32 * R) RangeProofError) :=
  let^ values_padded := resize_slice_to_pow2 values in
  let^ blindings_padded := resize_slice_to_pow2 blindings in
  let (r, rng) := prove_multiple g values_padded blindings_padded rng in
  Done (let? (proof, comms) := map_err BulletproofError r in Ok (proof, comms, rng)).

(** [check_range_proofs]. *)
Definition check_range_proofs (range_proof : RangeProof) (commitments : list bytes32) (g : PedersenGens)
    (rng : R) : exec (result R RangeProofError) :=
  let^ resized_commitments := resize_slice_to_pow2 commitments in
  let (r, rng) := verify_multiple range_proof g resized_commitments rng in
  Done (let? _ := map_err BulletproofError r in Ok rng).

Definition is_signable (r : InputRing) : bool :=
  match r with Signable _ => true | Presigned _ => false end.

(** [rposition]. *)
Fixpoint rposition {A} (f : A → bool) (l : list A) : option nat :=
  match l with
  | [] => None
  | x :: l =>
      match rposition f l with
      | Some i => Some (S i)
      | None => if f x then Some 0 else None
      end
  end.

(** The closure of [compute_pseudo_output_blindings]. *)
Fixpoint assign_blindings (total : scalar) (last_unsigned_ring_index idx : nat) (rings : list InputRing)
    (running_sum : scalar) (rng : R) : list scalar * R :=
  match rings with
  | [] => ([], rng)
  | Signable _ :: rings =>
      if bool_decide (idx = last_unsigned_ring_index) then
        let (rest, rng) := assign_blindings total last_unsigned_ring_index (S idx) rings running_sum rng in
        (s_sub total running_sum :: rest, rng)
      else
        let (random, rng) := random_scalar rng in
        let (rest, rng) := assign_blindings total last_unsigned_ring_index (S idx) rings
                             (s_add running_sum random) rng in
        (random :: rest, rng)
  | Presigned ring :: rings =>
      let (rest, rng) := assign_blindings total last_unsigned_ring_index (S idx) rings running_sum rng in
      (os_blinding (pseudo_output_secret ring) :: rest, rng)
  end.

Definition presigned_blindings (rings : list InputRing) : list scalar :=
  omap (λ r, match r with
             | Presigned r => Some (os_blinding (pseudo_output_secret r))
             | Signable _ => None
             end) rings.

(** [compute_pseudo_output_blindings]. *)
Definition compute_pseudo_output_blindings (rings : list InputRing) (output_secrets : list OutputSecret)
    (rng : R) : result (list scalar * R) RctError :=
  let sum_of_output_blindings := s_sum (os_blinding <$> output_secrets) in
  let sum_of_presigned := s_sum (presigned_blindings rings) in
  match rposition is_signable rings with
  | None => Err RctAllRingsPresigned
  | Some last => Ok (assign_blindings sum_of_output_blindings last 0 rings sum_of_presigned rng)
  end.

(** The checks at the head of [new_with_summary]. *)
Definition check_versions (block_version : BlockVersion) (rings : list InputRing)
    (output_secrets : list OutputSecret) (fee : Amount) : result unit RctError :=
  if negb (masked_token_id_feature_is_supported block_version) && negb (token_id fee =? 0)%N
  then Err RctTokenIdNotAllowed
  else if negb (mixed_transactions_are_supported block_version)
     && existsb (λ ring, negb (token_id (ring_amount ring) =? token_id fee)%N) rings
  then Err RctMixedTransactionsNotAllowed
  else if negb (mixed_transactions_are_supported block_version)
     && existsb (λ sec, negb (token_id (os_amount sec) =? token_id fee)%N) output_secrets
  then Err RctMixedTransactionsNotAllowed
  else if negb (signed_input_rules_are_supported block_version)
     && existsb (λ ring, negb (is_signable ring)) rings
  then Err RctSignedInputRulesNotAllowed
  else if bool_decide (rings = []) then Err RctNoInputs
  else Ok tt.

(** The size of the first ring that is to be signed. *)
Definition find_ring_size (rings : list InputRing) : option nat :=
  head (omap (λ r, match r with
                   | Signable r => Some (length (signable_members r))
                   | Presigned _ => None
                   end) rings).

Fixpoint check_rings (n : nat) (rings : list InputRing) : result unit RctError :=
  match rings with
  | [] => Ok tt
  | Signable ring :: rings =>
      if negb (bool_decide (length (signable_members ring) = n))
      then Err (RctInvalidRingSize (length (signable_members ring)))
      else if bool_decide (n ≤ real_input_index ring) then Err RctIndexOutOfBounds
      else check_rings n rings
  | Presigned _ :: rings => check_rings n rings
  end.

(** The values and blindings of one token, pseudo-outputs first. *)
Definition token_secrets (t : N) (rings : list (InputRing * scalar)) (output_secrets : list OutputSecret) :
    list (N * scalar) :=
  omap (λ p, if (token_id (ring_amount p.1) =? t)%N then Some (value (ring_amount p.1), p.2) else None) rings
  ++ omap (λ s, if (token_id (os_amount s) =? t)%N then Some (value (os_amount s), os_blinding s) else None)
       output_secrets.

(** One range proof for each token. *)
Fixpoint token_range_proofs (rings : list InputRing) (blindings : list scalar)
    (output_secrets : list OutputSecret) (token_ids : list N) (rng : R) :
    exec (result (list bytes * R) RctError) :=
  match token_ids with
  | [] => Done (Ok ([], rng))
  | t :: token_ids =>
      let^ l := Done (map_err RctZipExact (zip_exact rings blindings)) in
      let secrets := token_secrets t l output_secrets in
      if bool_decide (secrets = []) then Done (Err (RctNoCommitmentsForTokenId t))
      else
        let^ (proof, _, rng) := emap_err RctRangeProof
          (generate_range_proofs secrets.*1 secrets.*2 (generators t) rng) in
        let^ (rest, rng) := token_range_proofs rings blindings output_secrets token_ids rng in
        Done (Ok (proof_to_bytes proof :: rest, rng))
  end.

(** The proof of old block versions, or the proofs of new ones. *)
Definition make_range_proofs (block_version : BlockVersion) (rings : list InputRing)
    (blindings : list scalar) (output_secrets : list OutputSecret) (fee : Amount) (rng : R) :
    exec (result (bytes * list bytes * R) RctError) :=
  let^ l := Done (map_err RctZipExact (zip_exact rings blindings)) in
  if negb (mixed_transactions_are_supported block_version) then
    let secrets := ((λ p, (value (ring_amount p.1), p.2)) <$> l)
                   ++ ((λ s, (value (os_amount s), os_blinding s)) <$> output_secrets) in
    let^ (proof, _, rng) := emap_err RctRangeProof
      (generate_range_proofs secrets.*1 secrets.*2 (generators (token_id fee)) rng) in
    Done (Ok (proof_to_bytes proof, [], rng))
  else
    let token_ids := btree_iter (list_to_set (token_id fee :: ((λ r, token_id (ring_amount r)) <$> rings)
      ++ ((λ s, token_id (os_amount s)) <$> output_secrets)) : gset N) in
    let^ (proofs, rng) := token_range_proofs rings blindings output_secrets token_ids rng in
    Done (Ok ([], proofs, rng)).

(** Commitments with the generators of their token. *)
Definition amount_commitment (a : Amount) (blinding : scalar) : point :=
  commit (generators (token_id a)) (s_of_u64 (value a)) blinding.

(** Outputs and fee minus pseudo-outputs. *)
Definition balance (output_commitments pseudo_outputs : list point) (fee : Amount) : point :=
  p_sub (p_add (p_sum output_commitments) (amount_commitment fee FEE_BLINDING)) (p_sum pseudo_outputs).

(** [SigningData::new_with_summary]. *)
Definition new_with_summary (block_version : BlockVersion) (tx_prefix : TxPrefix) (rings : list InputRing)
    (output_secrets : list OutputSecret) (fee : Amount) (check_value_is_preserved : bool) (rng : R) :
    exec (result (SigningData * TxSummary * bytes * R) RctError) :=
  let^ _ := Done (check_versions block_version rings output_secrets fee) in
  let^ n := Done (ok_or (find_ring_size rings) RctAllRingsPresigned) in
  if bool_decide (n = 0) then Done (Err (RctInvalidRingSize 0))
  else
    let^ _ := Done (check_rings n rings) in
    let^ (blindings, rng) := Done (compute_pseudo_output_blindings rings output_secrets rng) in
    let^ (range_proof, range_proofs, rng) :=
      make_range_proofs block_version rings blindings output_secrets fee rng in
    let^ l := Done (map_err RctZipExact (zip_exact rings blindings)) in
    let pseudo_outputs := (λ p, amount_commitment (ring_amount p.1) p.2) <$> l in
    let outs := (λ s, amount_commitment (os_amount s) (os_blinding s)) <$> output_secrets in
    if check_value_is_preserved && negb (bool_decide (balance outs pseudo_outputs fee = p_identity))
    then Done (Err RctValueNotConserved)
    else
      let pseudo_output_commitments := compress <$> pseudo_outputs in
      let^ (digest, tx_summary, extended) := Done (map_err RctZipExact
        (compute_mlsag_signing_digest block_version tx_prefix pseudo_output_commitments range_proof range_proofs)) in
      let mixed := mixed_transactions_are_supported block_version in
      assert! (if mixed then bool_decide (range_proof = []) else negb (bool_decide (range_proof = []))) in
      assert! (if mixed then negb (bool_decide (range_proofs = [])) else bool_decide (range_proofs = [])) in
      Done (Ok (mkSigningData digest blindings pseudo_output_commitments range_proof range_proofs
        (if mixed then (λ r, token_id (ring_amount r)) <$> rings else [])
        (if mixed then (λ s, token_id (os_amount s)) <$> output_secrets else []),
        tx_summary, extended, rng)).

Section signing.
Context {S : Type} `{!RingSigner R S}.

(** The signature of each ring. *)
Fixpoint sign_rings (digest : bytes) (l : list (InputRing * scalar)) (signer : S) (rng : R) :
    exec (result (list RingMLSAG * R) RctError) :=
  match l with
  | [] => Done (Ok ([], rng))
  | (ring, blinding) :: l =>
      let^ (s, rng) :=
        match ring with
        | Signable ring => emap_err RctSigner (signer_sign signer digest ring blinding rng)
        | Presigned ring => Done (Ok (mlsag ring, rng))
        end in
      let^ (rest, rng) := sign_rings digest l signer rng in
      Done (Ok (s :: rest, rng))
  end.

(** [SigningData::sign]. *)
Definition signing_data_sign (self : SigningData) (rings : list InputRing) (signer : S) (rng : R) :
    exec (result (SignatureRctBulletproofs * R) RctError) :=
  let^ l := Done (map_err RctZipExact (zip_exact rings (sd_pseudo_output_blindings self))) in
  let^ (sigs, rng) := sign_rings (sd_mlsag_signing_digest self) l signer rng in
  Done (Ok (mkSignature sigs (sd_pseudo_output_commitments self) (sd_range_proof_bytes self)
    (sd_range_proofs self) (sd_pseudo_output_token_ids self) (sd_output_token_ids self), rng)).

(** [SignatureRctBulletproofs::sign]. *)
Definition rct_sign (block_version : BlockVersion) (tx_prefix : TxPrefix) (input_rings : list InputRing)
    (output_secrets : list OutputSecret) (fee : Amount) (signer : S) (rng : R) :
    exec (result (SignatureRctBulletproofs * R) RctError) :=
  let^ (signing_data, _, _, rng) :=
    new_with_summary block_version tx_prefix input_rings output_secrets fee true rng in
  signing_data_sign signing_data input_rings signer rng.
End signing.

(** [Commitment::try_from] for each element. *)
Definition decompress_all (l : list CompressedCommitment) : result (list point) RctError :=
  result_map (λ c, match decompress c with
                   | Some p => Ok p
                   | None => Err (RctRingSignature RingInvalidCurvePoint)
                   end) l.

(** The lengths [verify] checks first, and the key images. *)
Definition verify_shape (self : SignatureRctBulletproofs) (block_version : BlockVersion)
    (rings : list SignedInputRing) (output_commitments : list CompressedCommitment) (fee : Amount) :
    result unit RctError :=
  if negb (masked_token_id_feature_is_supported block_version) && negb (token_id fee =? 0)%N
  then Err RctTokenIdNotAllowed
  else if forallb (λ ring, bool_decide (is_Some (ring_signed_digest ring))) rings then Err RctAllRingsPresigned
  else if negb (bool_decide (length rings = length (ring_signatures self)))
  then Err (RctLengthMismatch (length rings) (length (ring_signatures self)))
  else if negb (bool_decide (length rings = length (pseudo_output_commitments self)))
  then Err (RctLengthMismatch (length rings) (length (pseudo_output_commitments self)))
  else
    let? _ :=
      if mixed_transactions_are_supported block_version then
        if negb (bool_decide (length (pseudo_output_commitments self) = length (pseudo_output_token_ids self)))
        then Err RctMissingPseudoOutputTokenIds
        else if negb (bool_decide (length output_commitments = length (output_token_ids self)))
        then Err RctMissingOutputTokenIds
        else Ok tt
      else if negb (bool_decide (pseudo_output_token_ids self = [])) then Err RctPseudoOutputTokenIdsNotAllowed
      else if negb (bool_decide (output_token_ids self = [])) then Err RctOutputTokenIdsNotAllowed
      else Ok tt in
    if negb (bool_decide (NoDup (key_image <$> ring_signatures self))) then Err RctDuplicateKeyImage
    else Ok tt.

(** The loop over the tokens and their range proofs. *)
Fixpoint verify_token_proofs (self : SignatureRctBulletproofs) (output_commitments : list CompressedCommitment)
    (l : list (N * bytes)) (rng : R) : exec (result R RctError) :=
  match l with
  | [] => Done (Ok rng)
  | (t, proof_bytes) :: l =>
      let^ pseudo := Done (map_err RctZipExact
        (zip_exact (pseudo_output_commitments self) (pseudo_output_token_ids self))) in
      let^ outs := Done (map_err RctZipExact (zip_exact output_commitments (output_token_ids self))) in
      let commitments := omap (λ p, if (t =? p.2)%N then Some p.1 else None) (pseudo ++ outs) in
      if bool_decide (commitments = []) then Done (Err (RctNoCommitmentsForTokenId t))
      else
        match proof_from_bytes proof_bytes with
        | None => Done (Err RctRangeProofDeserialization)
        | Some proof =>
            let^ rng := emap_err RctRangeProof (check_range_proofs proof commitments (generators t) rng) in
            verify_token_proofs self output_commitments l rng
        end
  end.

(** The range proofs of either kind of block version. *)
Definition verify_range_proofs (self : SignatureRctBulletproofs) (block_version : BlockVersion)
    (output_commitments : list CompressedCommitment) (fee : Amount) (rng : R) : exec (result R RctError) :=
  let token_ids := btree_iter (list_to_set (token_id fee :: output_token_ids self
    ++ pseudo_output_token_ids self) : gset N) in
  if negb (mixed_transactions_are_supported block_version) then
    if negb (bool_decide (range_proofs self = [])) then Done (Err RctTooManyRangeProofs)
    else
      match proof_from_bytes (range_proof_bytes self) with
      | None => Done (Err RctRangeProofDeserialization)
      | Some proof => emap_err RctRangeProof (check_range_proofs proof
          (pseudo_output_commitments self ++ output_commitments) (generators (token_id fee)) rng)
      end
  else if negb (bool_decide (range_proof_bytes self = [])) then Done (Err RctUnexpectedRangeProof)
  else if negb (bool_decide (length token_ids = length (range_proofs self)))
  then Done (Err (RctMissingRangeProofs (length token_ids) (length (range_proofs self))))
  else
    let^ l := Done (map_err RctZipExact (zip_exact token_ids (range_proofs self))) in
    verify_token_proofs self output_commitments l rng.

(** The loop over the ring signatures. *)
Fixpoint verify_rings (self : SignatureRctBulletproofs) (digest : bytes) (i : nat)
    (rings : list SignedInputRing) : exec (result unit RctError) :=
  match rings with
  | [] => Done (Ok tt)
  | ring :: rings =>
      let this_was_signed :=
        match ring_signed_digest ring with Some d => vec_to_list d | None => digest end in
      let! ring_signature := unwrap (ring_signatures self !! i) in
      let! pseudo_output := unwrap (pseudo_output_commitments self !! i) in
      let^ _ := emap_err RctRingSignature
        (ring_verify (mlsag_decode ring_signature) this_was_signed (members ring) pseudo_output) in
      verify_rings self digest (S i) rings
  end.

(** [SignatureRctBulletproofs::verify]; on success, the random generator after
    the call. *)
Definition rct_verify (self : SignatureRctBulletproofs) (block_version : BlockVersion) (tx_prefix : TxPrefix)
    (rings : list SignedInputRing) (output_commitments : list CompressedCommitment) (fee : Amount) (rng : R) :
    exec (result R RctError) :=
  let^ _ := Done (verify_shape self block_version rings output_commitments fee) in
  let^ outs := Done (decompress_all output_commitments) in
  let^ pseudo := Done (decompress_all (pseudo_output_commitments self)) in
  let^ rng := verify_range_proofs self block_version output_commitments fee rng in
  if negb (bool_decide (balance outs pseudo fee = p_identity)) then Done (Err RctValueNotConserved)
  else
    let^ (digest, _, _) := Done (map_err RctZipExact
      (compute_mlsag_signing_digest block_version tx_prefix (pseudo_output_commitments self)
         (range_proof_bytes self) (range_proofs self))) in
    let^ _ := verify_rings self digest 0 rings in
    Done (Ok rng).
End ringct.
