(* ===== verification/RingCtProps.v ===== *)
(** * Properties of confidential transaction signatures

    The blindings of the pseudo-outputs balance those of the outputs, a
    transaction whose values balance passes the value check, and a signature
    that was made verifies. *)

From stdpp Require Import vector strings.
From S2P Require Import Prelude Ord Bytes TxOut BlockVersion MaskedAmount Tx Ristretto OnetimeKeys Mlsag RingCt.

Open Scope nat_scope.

Module RingCtProps.

(** ** Sums *)
Section sums.
Context `{CL : CurveLaws}.

Lemma foldl_s_add a l : foldl s_add a l = s_add a (s_sum l).
Proof.
  revert a. unfold s_sum. induction l as [|x l IH]; intros a; simpl.
  - by rewrite s_add_comm, s_zero_l.
  - by rewrite (IH (s_add a x)), (IH (s_add s_zero x)), s_zero_l, s_add_assoc.
Qed.

Lemma s_sum_cons x l : s_sum (x :: l) = s_add x (s_sum l).
Proof. unfold s_sum at 1. simpl. by rewrite foldl_s_add, s_zero_l. Qed.

Lemma foldl_p_add a l : foldl p_add a l = p_add a (p_sum l).
Proof.
  revert a. unfold p_sum. induction l as [|x l IH]; intros a; simpl.
  - by rewrite p_add_comm, p_identity_l.
  - by rewrite (IH (p_add a x)), (IH (p_add p_identity x)), p_identity_l, p_add_assoc.
Qed.

Lemma p_sum_cons x l : p_sum (x :: l) = p_add x (p_sum l).
Proof. unfold p_sum at 1. simpl. by rewrite foldl_p_add, p_identity_l. Qed.

Lemma p_add_swap a b c : p_add a (p_add b c) = p_add b (p_add a c).
Proof. by rewrite !p_add_assoc, (p_add_comm a). Qed.
Lemma s_add_swap a b c : s_add a (s_add b c) = s_add b (s_add a c).
Proof. by rewrite !s_add_assoc, (s_add_comm a). Qed.
End sums.

(** ** Blindings of the pseudo-outputs *)
Section blindings.
Context `{CL : CurveLaws} {R : Type} `{!ScalarRng R} `{B : !Bulletproofs R}.

Lemma presigned_cons_signable r rings :
  presigned_blindings (Signable r :: rings) = presigned_blindings rings.
Proof. done. Qed.
Lemma presigned_cons_presigned r rings :
  presigned_blindings (Presigned r :: rings) = os_blinding (pseudo_output_secret r) :: presigned_blindings rings.
Proof. done. Qed.

#[local] Arguments presigned_blindings : simpl never.

(** After the last ring to be signed only presigned blindings are left. *)
Lemma assign_presigned total last idx rings running (rng : R) :
  rposition is_signable rings = None →
  (assign_blindings total last idx rings running rng).1 = presigned_blindings rings.
Proof.
  revert idx running rng. induction rings as [|[r|r] rings IH]; intros idx running rng Hr; [done|..]; simpl in Hr.
  - by destruct (rposition is_signable rings).
  - destruct (rposition is_signable rings) eqn:E; [done|]. simpl.
    specialize (IH (S idx) running rng eq_refl). by destruct (assign_blindings _ _ _ _ _ _); simpl in *; subst.
Qed.

Lemma assign_sum total idx k rings running (rng : R) :
  rposition is_signable rings = Some k →
  s_add (s_sum (assign_blindings total (idx + k) idx rings running rng).1) running
  = s_add total (s_sum (presigned_blindings rings)).
Proof.
  revert idx k running rng. induction rings as [|[r|r] rings IH]; intros idx k running rng Hr; [done|..];
    simpl in Hr; destruct (rposition is_signable rings) as [i|] eqn:E; simplify_eq/=.
  - rewrite bool_decide_false by lia. destruct (random_scalar rng) as [x rng1].
    specialize (IH (S idx) i (s_add running x) rng1 eq_refl).
    rewrite Nat.add_succ_comm in IH. destruct (assign_blindings _ _ _ _ _ _) as [rest rng2].
    simpl in *. rewrite s_sum_cons, presigned_cons_signable, <-IH.
    rewrite (s_add_comm running x), !s_add_assoc. f_equal. apply s_add_comm.
  - rewrite Nat.add_0_r, bool_decide_true by done.
    pose proof (assign_presigned total idx (S idx) rings running rng E) as Hp.
    destruct (assign_blindings _ _ _ _ _ _) as [rest rng2]. simpl in *. subst rest.
    rewrite s_sum_cons, presigned_cons_signable.
    by rewrite (s_add_comm (s_sub _ _)), <-s_add_assoc, s_sub_add, s_add_comm.
  - specialize (IH (S idx) i running rng eq_refl). rewrite Nat.add_succ_comm in IH.
    destruct (assign_blindings _ _ _ _ _ _) as [rest rng2]. simpl in *.
    rewrite presigned_cons_presigned, !s_sum_cons, <-s_add_assoc, IH. apply s_add_swap.
Qed.

Lemma length_assign total last idx rings running (rng : R) :
  length (assign_blindings total last idx rings running rng).1 = length rings.
Proof.
  revert idx running rng. induction rings as [|[r|r] rings IH]; intros idx running rng; simpl; [done|..].
  - case_bool_decide; [|destruct (random_scalar rng) as [x rng1]].
    + specialize (IH (S idx) running rng). destruct (assign_blindings _ _ _ _ _ _); simpl in *; lia.
    + specialize (IH (S idx) (s_add running x) rng1). destruct (assign_blindings _ _ _ _ _ _); simpl in *; lia.
  - specialize (IH (S idx) running rng). destruct (assign_blindings _ _ _ _ _ _); simpl in *; lia.
Qed.

Lemma assign_kept total last idx rings running (rng : R) i r :
  rings !! i = Some (Presigned r) →
  (assign_blindings total last idx rings running rng).1 !! i = Some (os_blinding (pseudo_output_secret r)).
Proof.
  revert idx running rng i. induction rings as [|[r'|r'] rings IH]; intros idx running rng [|i] Hi;
    simplify_eq/=.
  - case_bool_decide; [|destruct (random_scalar rng) as [x rng1]].
    + specialize (IH (S idx) running rng i Hi). by destruct (assign_blindings _ _ _ _ _ _).
    + specialize (IH (S idx) (s_add running x) rng1 i Hi). by destruct (assign_blindings _ _ _ _ _ _).
  - by destruct (assign_blindings _ _ _ _ _ _).
  - specialize (IH (S idx) running rng i Hi). by destruct (assign_blindings _ _ _ _ _ _).
Qed.

Lemma blindings_sum rings output_secrets (rng rng' : R) blindings :
  compute_pseudo_output_blindings rings output_secrets rng = Ok (blindings, rng') →
  length blindings = length rings ∧ s_sum blindings = s_sum (os_blinding <$> output_secrets) ∧
  ∀ i r, rings !! i = Some (Presigned r) → blindings !! i = Some (os_blinding (pseudo_output_secret r)).
Proof.
  unfold compute_pseudo_output_blindings. destruct (rposition is_signable rings) as [k|] eqn:E; [|done].
  intros [= Hb].
  assert (blindings = (assign_blindings (s_sum (os_blinding <$> output_secrets)) k 0 rings
            (s_sum (presigned_blindings rings)) rng).1) as -> by (by rewrite Hb).
  split_and!.
  - apply length_assign.
  - apply (s_add_cancel _ _ (s_sum (presigned_blindings rings))). by apply (assign_sum _ 0 k).
  - intros i r. apply assign_kept.
Qed.
End blindings.

(** ** Balanced values *)

(** The total of one token. *)
Definition token_total (t : N) (l : list Amount) : N :=
  foldr (λ a acc, if (token_id a =? t)%N then (value a + acc)%N else acc) 0%N l.

Section values.
Context `{CL : CurveLaws}.

(** The value part of a sum of commitments. *)
Definition value_sum (l : list Amount) : point :=
  p_sum ((λ a, p_mul (s_of_u64 (value a)) (Ristretto.B (generators (token_id a)))) <$> l).

Definition token_sum (f : N → N) (ts : list N) : point :=
  p_sum ((λ t, p_mul (s_of_u64 (f t)) (Ristretto.B (generators t))) <$> ts).

Lemma s_of_u64_0 : s_of_u64 0 = s_zero.
Proof. apply (s_add_cancel _ _ (s_of_u64 0)). by rewrite <-s_of_u64_add, s_zero_l. Qed.

Lemma token_sum_zero ts : token_sum (λ _, 0%N) ts = p_identity.
Proof.
  induction ts as [|t ts IH]; [done|]. unfold token_sum in *. cbn [fmap list_fmap]. rewrite p_sum_cons, IH.
  by rewrite s_of_u64_0, p_mul_zero, p_identity_l.
Qed.

Lemma token_sum_ext f g ts : (∀ t, t ∈ ts → f t = g t) → token_sum f ts = token_sum g ts.
Proof.
  intros E. unfold token_sum. f_equal. apply list_fmap_ext. intros i t Ht. by rewrite E by (by eapply list_elem_of_lookup_2).
Qed.

(** Adding to one token adds one multiple of its generator. *)
Lemma token_sum_add f t v ts :
  NoDup ts → t ∈ ts →
  token_sum (λ u, if (t =? u)%N then (v + f u)%N else f u) ts
  = p_add (p_mul (s_of_u64 v) (Ristretto.B (generators t))) (token_sum f ts).
Proof.
  induction 1 as [|u ts Hu Hnd IH]; [by intros ?%not_elem_of_nil|].
  intros Ht. unfold token_sum in *. cbn [fmap list_fmap]. rewrite !p_sum_cons.
  destruct (N.eqb_spec t u) as [->|Hne].
  - rewrite s_of_u64_add, p_mul_s_add, <-p_add_assoc. do 2 f_equal. apply token_sum_ext.
    intros w Hw. destruct (N.eqb_spec u w) as [->|]; [by destruct Hu|done].
  - rewrite p_add_swap. f_equal. apply IH. set_solver.
Qed.

Lemma value_sum_tokens l ts :
  NoDup ts → (∀ a, a ∈ l → token_id a ∈ ts) → value_sum l = token_sum (λ t, token_total t l) ts.
Proof.
  intros Hnd. induction l as [|a l IH]; intros Hin; [by rewrite token_sum_zero|].
  simpl token_total. rewrite token_sum_add by (try done; apply Hin; by left).
  rewrite <-IH by (intros; apply Hin; by right). unfold value_sum. cbn [fmap list_fmap]. by rewrite p_sum_cons.
Qed.

Lemma value_sum_eq l1 l2 : (∀ t, token_total t l1 = token_total t l2) → value_sum l1 = value_sum l2.
Proof.
  intros E. pose (ts := remove_dups (token_id <$> (l1 ++ l2))).
  rewrite (value_sum_tokens l1 ts), (value_sum_tokens l2 ts);
    try apply NoDup_remove_dups; try (intros a Ha; apply elem_of_remove_dups, list_elem_of_fmap_2; set_solver).
  by apply token_sum_ext.
Qed.

(** A sum of commitments is the sum of its values and of its blindings. *)
Lemma commitments_sum (l : list (Amount * scalar)) :
  p_sum ((λ p, amount_commitment p.1 p.2) <$> l)
  = p_add (value_sum l.*1) (p_mul (s_sum l.*2) basepoint).
Proof.
  induction l as [|[a b] l IH].
  - unfold value_sum, p_sum, s_sum. simpl. by rewrite p_mul_zero, p_identity_l.
  - unfold value_sum in *. cbn [fmap list_fmap fst snd]. rewrite !p_sum_cons, s_sum_cons, IH.
    unfold amount_commitment, commit. cbn [B_blinding generators]. rewrite p_mul_s_add.
    rewrite <-!p_add_assoc. f_equal. apply p_add_swap.
Qed.

Lemma balance_identity (pseudo : list (Amount * scalar)) output_secrets fee :
  s_sum pseudo.*2 = s_sum (os_blinding <$> output_secrets) →
  (∀ t, token_total t pseudo.*1 = token_total t (fee :: (os_amount <$> output_secrets))) →
  balance ((λ s, amount_commitment (os_amount s) (os_blinding s)) <$> output_secrets)
    ((λ p, amount_commitment p.1 p.2) <$> pseudo) fee = p_identity.
Proof.
  intros Hb Hv. unfold balance.
  pose (outs := (λ s, (os_amount s, os_blinding s)) <$> output_secrets).
  replace ((λ s, amount_commitment (os_amount s) (os_blinding s)) <$> output_secrets)
    with ((λ p, amount_commitment p.1 p.2) <$> outs) by (unfold outs; by rewrite <-list_fmap_compose).
  assert (outs.*1 = os_amount <$> output_secrets ∧ outs.*2 = os_blinding <$> output_secrets) as [E1 E2].
  { unfold outs. rewrite <-!list_fmap_compose. done. }
  rewrite p_add_comm, <-(p_sum_cons _ ((λ p, amount_commitment p.1 p.2) <$> outs)).
  change (amount_commitment fee FEE_BLINDING) with ((λ p, amount_commitment p.1 p.2) (fee, FEE_BLINDING)).
  rewrite <-fmap_cons. rewrite !commitments_sum, !fmap_cons, E1, E2, s_sum_cons. cbn [fst snd].
  unfold FEE_BLINDING. rewrite s_zero_l, <-Hb, <-(value_sum_eq _ _ Hv). apply p_sub_self.
Qed.
End values.

(** ** Range proofs *)
Section range_proofs.
Context `{CL : CurveLaws} {R : Type} `{!ScalarRng R} `{B : !Bulletproofs R} `{BL : !BulletproofLaws}.

Lemma resize_fmap {X Y} (f : X → Y) (l : list X) :
  resize_slice_to_pow2 (f <$> l)
  = (let^ l := resize_slice_to_pow2 l in Done (Ok (f <$> l))) :> exec (result _ (RangeProofError (R := R))).
Proof.
  unfold resize_slice_to_pow2, len. rewrite length_fmap, fmap_last.
  destruct (checked_next_power_of_two _); [|done]. destruct (last l); [|done]. simpl.
  by rewrite fmap_app, fmap_replicate.
Qed.

(** A range proof that was made is accepted for the commitments to its
    secrets. *)
Lemma range_proof_accepted (secrets : list (N * scalar)) g (rng rng' rng'' : R) proof comms :
  generate_range_proofs secrets.*1 secrets.*2 g rng = Done (Ok (proof, comms, rng')) →
  ∃ rng3, check_range_proofs proof ((λ p, CompressedCommitment_new p.1 p.2 g) <$> secrets) g rng''
          = Done (Ok rng3).
Proof.
  unfold generate_range_proofs, check_range_proofs. rewrite !resize_fmap.
  destruct (resize_slice_to_pow2 secrets) as [[ps|e]| |]; simpl; try done.
  destruct (prove_multiple g ps.*1 ps.*2 rng) as [[[pf cs]|e] rng1] eqn:Ep; simpl; [|done].
  intros [= <- <- <-]. eapply (prove_verify _ _ _ _ _ _ _ rng'') in Ep as [rng3 Hv];
    [|by rewrite !length_fmap].
  exists rng3. replace (zip_with _ _ _) with ((λ p, CompressedCommitment_new p.1 p.2 g) <$> ps) in Hv.
  - by rewrite Hv.
  - clear. induction ps as [|[v b] ps IH]; [done|]. simpl. by f_equal.
Qed.

(** The commitments of one token, picked out of the signature. *)
Lemma token_commitments t (rings : list (InputRing * scalar)) output_secrets :
  omap (λ p, if (t =? p.2)%N then Some p.1 else None)
    (zip (compress <$> ((λ p, amount_commitment (ring_amount p.1) p.2) <$> rings))
         ((λ p, token_id (ring_amount p.1)) <$> rings)
     ++ zip (compress <$> ((λ s, amount_commitment (os_amount s) (os_blinding s)) <$> output_secrets))
         ((λ s, token_id (os_amount s)) <$> output_secrets))
  = (λ p, CompressedCommitment_new p.1 p.2 (generators t)) <$> token_secrets t rings output_secrets.
Proof.
  unfold token_secrets. rewrite omap_app, fmap_app. f_equal.
  - induction rings as [|[r b] rings IH]; [done|]. simpl. rewrite N.eqb_sym.
    destruct (N.eqb_spec (token_id (ring_amount r)) t) as [<-|]; simpl; [|apply IH]. f_equal. apply IH.
  - induction output_secrets as [|o outs IH]; [done|]. simpl. rewrite N.eqb_sym.
    destruct (N.eqb_spec (token_id (os_amount o)) t) as [<-|]; simpl; [|apply IH]. f_equal. apply IH.
Qed.

Lemma zip_exact_Ok {X Y} (a : list X) (b : list Y) : length a = length b → zip_exact a b = Ok (zip a b).
Proof. intros E. unfold zip_exact. by rewrite bool_decide_true. Qed.

Section tokens.
Variables (rings : list InputRing) (blindings : list scalar) (output_secrets : list OutputSecret).
Hypothesis (Hlen : length rings = length blindings).
Variable self : SignatureRctBulletproofs.
Variable output_commitments : list CompressedCommitment.
Hypothesis (Hpc : pseudo_output_commitments self
  = compress <$> ((λ p, amount_commitment (ring_amount p.1) p.2) <$> zip rings blindings)).
Hypothesis (Hpt : pseudo_output_token_ids self = (λ r, token_id (ring_amount r)) <$> rings).
Hypothesis (Hoc : output_commitments
  = compress <$> ((λ s, amount_commitment (os_amount s) (os_blinding s)) <$> output_secrets)).
Hypothesis (Hot : output_token_ids self = (λ s, token_id (os_amount s)) <$> output_secrets).

Lemma token_proofs_verify token_ids (rng rng' rng'' : R) proofs :
  token_range_proofs rings blindings output_secrets token_ids rng = Done (Ok (proofs, rng')) →
  length token_ids = length proofs ∧
  ∃ rng3, verify_token_proofs self output_commitments (zip token_ids proofs) rng'' = Done (Ok rng3).
Proof.
  revert rng proofs rng''. induction token_ids as [|t ts IH]; intros rng proofs rng'' Hp; simpl in Hp.
  { injection Hp as <- <-. split; [done|]. by eexists. }
  rewrite zip_exact_Ok in Hp by done. simpl in Hp.
  case_bool_decide as Hne; [done|]. apply ebind_Ok in Hp as ([[proof comms] rng1] & Hg & Hp).
  apply emap_err_Ok in Hg. apply ebind_Ok in Hp as ([rest rng2] & Hrest & [= <- <-]).
  destruct (range_proof_accepted _ _ _ _ rng'' _ _ Hg) as [rng3 Hc].
  destruct (IH rng1 rest rng3 Hrest) as [El [rng4 Hv]]. split; [simpl; lia|].
  exists rng4. cbn [zip zip_with verify_token_proofs].
  assert (pseudo_output_token_ids self = (λ p, token_id (ring_amount p.1)) <$> zip rings blindings) as Et.
  { rewrite Hpt. rewrite <-(fst_zip rings blindings) at 1 by lia. by rewrite <-list_fmap_compose. }
  rewrite (zip_exact_Ok (pseudo_output_commitments self)) by (by rewrite Hpc, Et, !length_fmap).
  rewrite (zip_exact_Ok output_commitments) by (by rewrite Hoc, Hot, !length_fmap).
  cbn [map_err ebind].
  assert (omap (λ p, if (t =? p.2)%N then Some p.1 else None)
            (zip (pseudo_output_commitments self) (pseudo_output_token_ids self)
             ++ zip output_commitments (output_token_ids self))
          = (λ p, CompressedCommitment_new p.1 p.2 (generators t)) <$> token_secrets t (zip rings blindings) output_secrets)
    as -> by (rewrite Hpc, Et, Hoc, Hot; apply token_commitments).
  rewrite bool_decide_false by (by intros ?%fmap_nil_inv).
  by rewrite proof_roundtrip, Hc.
Qed.
End tokens.
End range_proofs.

(** ** Signers *)

(** What a signature needs of a signer: the ring signatures it returns verify
    against the commitment to the amount of the input with the new blinding. *)
Class RingSignerSound `{Curve} {R S : Type} `{!RingSigner R S} : Prop :=
  signer_sound s message ring b (rng : R) sig rng' :
    signer_sign s message ring b rng = Done (Ok (sig, rng')) →
    ring_verify (mlsag_decode sig) message (signable_members ring)
      (compress (amount_commitment (is_amount (input_secret ring)) b)) = Done (Ok tt).

Section signers.
Context `{CL : CurveLaws} {R : Type} `{!ScalarRng R}.

Lemma mlsag_decode_encode s : mlsag_decode (mlsag_encode s) = s.
Proof.
  destruct s as [c r k]. unfold mlsag_decode, mlsag_encode. simpl. rewrite s_from_bytes_bytes. f_equal.
  rewrite <-list_fmap_compose. rewrite <-(list_fmap_id r) at 2. apply list_fmap_ext.
  intros i x _. apply s_from_bytes_bytes.
Qed.

Lemma sign_with_key_sound message ring b (rng : R) key sig rng' :
  sign_with_key message ring b rng key = Done (Ok (sig, rng')) →
  ring_verify (mlsag_decode sig) message (signable_members ring)
    (compress (amount_commitment (is_amount (input_secret ring)) b)) = Done (Ok tt).
Proof.
  unfold sign_with_key. destruct (signable_members ring !! real_input_index ring) as [r|] eqn:Er; [|done].
  unfold point_try_from. destruct (decompress (reduced_target_key r)) as [P|] eqn:Ep; simpl; [|done].
  destruct (key r) as [x|]; simpl; [|done]. case_bool_decide as Ex; simpl; [|done].
  intros Hs. apply ebind_Ok in Hs as ([s rng1] & Hs & [= <- _]). apply emap_err_Ok in Hs.
  rewrite mlsag_decode_encode.
  eapply MlsagProps.ring_sign_verifies; [exact Hs|exact Er|by rewrite Ep, Ex].
Qed.

#[export] Instance local_signer_sound : RingSignerSound (R := R) (S := LocalRingSigner).
Proof. intros s message ring b rng sig rng'. apply sign_with_key_sound. Qed.
#[export] Instance no_keys_signer_sound : RingSignerSound (R := R) (S := NoKeysRingSigner).
Proof. intros s message ring b rng sig rng'. apply sign_with_key_sound. Qed.
End signers.

(** ** Made signatures verify *)
Section claims.
Context `{CL : CurveLaws} {R : Type} `{!ScalarRng R} `{B : !Bulletproofs R} `{BL : !BulletproofLaws}.
Context `{D : !RctDigests} {S : Type} `{!RingSigner R S} `{SS : !RingSignerSound}.

(** The ring a verifier sees for an input ring: the members, and a digest of
    its own for a presigned ring, whose signature verifies. *)
Definition ring_matches (r : InputRing) (s : SignedInputRing) : Prop :=
  match r with
  | Signable r => members s = signable_members r ∧ ring_signed_digest s = None
  | Presigned r =>
      ∃ d, ring_signed_digest s = Some d ∧
        ring_verify (mlsag_decode (mlsag r)) (vec_to_list d) (members s)
          (compress (amount_commitment (os_amount (pseudo_output_secret r)) (os_blinding (pseudo_output_secret r))))
        = Done (Ok tt)
  end.

Lemma sign_rings_length digest l (signer : S) (rng rng' : R) sigs :
  sign_rings digest l signer rng = Done (Ok (sigs, rng')) → length sigs = length l.
Proof.
  revert rng sigs. induction l as [|[r b] l IH]; intros rng sigs Hs; simpl in Hs; [by injection Hs as <- <-|].
  apply ebind_Ok in Hs as ([s rng1] & _ & Hs). apply ebind_Ok in Hs as ([rest rng2] & Hrest & [= <- <-]).
  simpl. f_equal. by eapply IH.
Qed.

Lemma sign_rings_verify digest l signed (signer : S) (rng rng' : R) sigs self i :
  sign_rings digest l signer rng = Done (Ok (sigs, rng')) →
  Forall2 (λ p s, ring_matches p.1 s ∧
             ∀ r, p.1 = Presigned r → p.2 = os_blinding (pseudo_output_secret r)) l signed →
  drop i (ring_signatures self) = sigs →
  drop i (pseudo_output_commitments self)
    = compress <$> ((λ p, amount_commitment (ring_amount p.1) p.2) <$> l) →
  verify_rings self digest i signed = Done (Ok tt).
Proof.
  intros Hs Hm. revert rng sigs i Hs. induction Hm as [|[r b] s l signed [Hr Hb] Hm IH];
    intros rng sigs i Hs Hsig Hpc; [done|]. cbn [sign_rings] in Hs.
  apply ebind_Ok in Hs as ([sig rng1] & Hsign & Hs). apply ebind_Ok in Hs as ([rest rng2] & Hrest & [= <- <-]).
  cbn [fmap list_fmap fst snd] in Hpc. cbn [verify_rings].
  assert (∀ X (l : list X) x l', drop i l = x :: l' → l !! i = Some x ∧ drop (Datatypes.S i) l = l') as Hdrop.
  { intros X k x l' E. split.
    - rewrite <-(Nat.add_0_r i), <-lookup_drop. by rewrite E.
    - rewrite <-Nat.add_1_r, <-drop_drop, E. done. }
  apply Hdrop in Hsig as [-> Hsig]. apply Hdrop in Hpc as [-> Hpc]. cbn [unwrap exec_bind].
  assert (ring_verify (mlsag_decode sig) match ring_signed_digest s with Some d => vec_to_list d | None => digest end
            (members s) (compress (amount_commitment (ring_amount r) b)) = Done (Ok tt)) as ->.
  { destruct r as [r|r]; simpl in Hr.
    - destruct Hr as [-> ->]. apply emap_err_Ok in Hsign. by apply signer_sound in Hsign.
    - destruct Hr as (d & -> & Hv). injection Hsign as <- <-.
      rewrite <-(Hb r eq_refl) in Hv. exact Hv. }
  cbn [emap_err exec_bind map_err ebind]. by eapply IH.
Qed.

Definition secret_commitment (s : OutputSecret) : point := amount_commitment (os_amount s) (os_blinding s).

(** Before mixed transactions every amount has the token of the fee. *)
Lemma check_versions_tokens block_version rings output_secrets fee :
  check_versions block_version rings output_secrets fee = Ok tt →
  mixed_transactions_are_supported block_version = false →
  Forall (λ r, token_id (ring_amount r) = token_id fee) rings ∧
  Forall (λ s, token_id (os_amount s) = token_id fee) output_secrets.
Proof.
  intros Hc Hm. unfold check_versions in Hc. rewrite Hm in Hc. simpl in Hc.
  destruct (negb _ && negb _); [done|].
  destruct (existsb _ rings) eqn:E1; [done|]. destruct (existsb _ output_secrets) eqn:E2; [done|].
  split; apply Forall_forall; intros x Hx; apply N.eqb_eq, negb_false_iff;
    [clear E2; rename E1 into E|clear E1; rename E2 into E];
    apply not_true_iff_false; intros Ht; apply not_true_iff_false in E; apply E, existsb_exists;
    exists x; split; try done; by apply list_elem_of_In.
Qed.

Lemma range_proofs_verify block_version rings blindings output_secrets fee (rng rng' rng'' : R) rp rps sigs :
  check_versions block_version rings output_secrets fee = Ok tt → length rings = length blindings →
  make_range_proofs block_version rings blindings output_secrets fee rng = Done (Ok (rp, rps, rng')) →
  let mixed := mixed_transactions_are_supported block_version in
  ∃ rng3, verify_range_proofs
    (mkSignature sigs (compress <$> ((λ p, amount_commitment (ring_amount p.1) p.2) <$> zip rings blindings))
       rp rps (if mixed then (λ r, token_id (ring_amount r)) <$> rings else [])
       (if mixed then (λ s, token_id (os_amount s)) <$> output_secrets else []))
    block_version (compress <$> (secret_commitment <$> output_secrets)) fee rng'' = Done (Ok rng3).
Proof.
  intros Hc Hlen Hp. cbv zeta. unfold make_range_proofs in Hp. rewrite zip_exact_Ok in Hp by done.
  cbn [map_err ebind] in Hp. unfold verify_range_proofs.
  cbn [output_token_ids pseudo_output_token_ids range_proofs range_proof_bytes pseudo_output_commitments].
  destruct (mixed_transactions_are_supported block_version) eqn:Hm; cbn [negb] in *.
  - apply ebind_Ok in Hp as ([ps rng1] & Hp & [= <- <- <-]).
    rewrite (bool_decide_true ([] = [])) by done. cbn [negb].
    set (ids := btree_iter _) in Hp.
    replace (btree_iter _) with ids; cycle 1.
    { unfold ids. f_equal. apply leibniz_equiv. intros x. rewrite !elem_of_list_to_set, !elem_of_cons, !elem_of_app. tauto. }
    set (self := mkSignature _ _ _ _ _ _).
    destruct (token_proofs_verify rings blindings output_secrets Hlen self
      (compress <$> (secret_commitment <$> output_secrets)) eq_refl eq_refl eq_refl eq_refl _ _ _ rng'' _ Hp)
      as [El [rng3 Hv]].
    rewrite bool_decide_true by done. cbn [negb]. rewrite zip_exact_Ok by done. by exists rng3.
  - destruct (check_versions_tokens _ _ _ _ Hc Hm) as [Hr Ho].
    apply ebind_Ok in Hp as ([[proof comms] rng1] & Hg & [= <- <- <-]). apply emap_err_Ok in Hg.
    rewrite (bool_decide_true ([] = [])) by done. cbn [negb]. rewrite proof_roundtrip.
    destruct (range_proof_accepted _ _ _ _ rng'' _ _ Hg) as [rng3 Hv]. exists rng3.
    rewrite fmap_app, <-!list_fmap_compose in Hv. rewrite <-!list_fmap_compose.
    apply emap_err_Ok. rewrite <-Hv. f_equal. f_equal.
    + apply list_fmap_ext. intros k [r b] Hk. simpl. unfold amount_commitment, CompressedCommitment_new, Commitment_new.
      apply list_elem_of_lookup_2, elem_of_zip_l in Hk. eapply Forall_forall in Hr; [|exact Hk].
      by rewrite Hr.
    + apply list_fmap_ext. intros k o Hk. simpl. unfold secret_commitment, amount_commitment, CompressedCommitment_new, Commitment_new.
      apply list_elem_of_lookup_2 in Hk. eapply Forall_forall in Ho; [|exact Hk]. by rewrite Ho.
Qed.

(** A ring that is to be signed has no digest of its own. *)
Lemma not_all_presigned rings signed :
  is_Some (find_ring_size rings) → Forall2 ring_matches rings signed →
  forallb (λ ring, bool_decide (is_Some (ring_signed_digest ring))) signed = false.
Proof.
  intros Hsize. induction 1 as [|r s rings signed Hr Hm IH]; simpl; [by destruct Hsize|].
  destruct r as [r|r].
  - simpl in Hr. destruct Hr as [_ ->]. by rewrite bool_decide_false by (by intros []).
  - rewrite IH by done. apply andb_false_r.
Qed.

Lemma shape_ok block_version rings blindings output_secrets fee signed sigs rp rps :
  check_versions block_version rings output_secrets fee = Ok tt → is_Some (find_ring_size rings) →
  Forall2 ring_matches rings signed → length signed = length sigs → length blindings = length rings →
  NoDup (key_image <$> sigs) →
  let mixed := mixed_transactions_are_supported block_version in
  verify_shape
    (mkSignature sigs (compress <$> ((λ p, amount_commitment (ring_amount p.1) p.2) <$> zip rings blindings))
       rp rps (if mixed then (λ r, token_id (ring_amount r)) <$> rings else [])
       (if mixed then (λ s, token_id (os_amount s)) <$> output_secrets else []))
    block_version signed (compress <$> (secret_commitment <$> output_secrets)) fee = Ok tt.
Proof.
  intros Hc Hsize Hm Hsigs Hlen Hki. cbv zeta. unfold verify_shape, check_versions in *.
  cbn [ring_signatures pseudo_output_commitments pseudo_output_token_ids output_token_ids].
  destruct (negb (masked_token_id_feature_is_supported _) && _); [done|].
  rewrite (not_all_presigned _ _ Hsize Hm). rewrite (bool_decide_true (length signed = length sigs)) by done.
  pose proof (Forall2_length _ _ _ Hm). cbn [negb].
  rewrite !length_fmap, length_zip_with, (bool_decide_true (length signed = _)) by lia. cbn [negb].
  destruct (mixed_transactions_are_supported block_version); cbn [negb].
  - rewrite !length_fmap, !bool_decide_true by (try done; lia). done.
  - rewrite !bool_decide_true by done. done.
Qed.

Lemma decompress_all_compress (l : list point) : decompress_all (compress <$> l) = Ok l.
Proof.
  unfold decompress_all. apply result_map_Ok. induction l as [|p l IH]; simpl; constructor; [|done].
  by rewrite decompress_compress.
Qed.

(** What a successful [new_with_summary] computed. *)
Lemma new_with_summary_Ok block_version tx_prefix rings output_secrets fee check (rng rng' : R) sd summary ext :
  new_with_summary block_version tx_prefix rings output_secrets fee check rng
    = Done (Ok (sd, summary, ext, rng')) →
  ∃ blindings rng1 rp rps,
    check_versions block_version rings output_secrets fee = Ok tt ∧
    is_Some (find_ring_size rings) ∧
    compute_pseudo_output_blindings rings output_secrets rng = Ok (blindings, rng1) ∧
    make_range_proofs block_version rings blindings output_secrets fee rng1 = Done (Ok (rp, rps, rng')) ∧
    let pseudo := (λ p, amount_commitment (ring_amount p.1) p.2) <$> zip rings blindings in
    let mixed := mixed_transactions_are_supported block_version in
    (check = true → balance (secret_commitment <$> output_secrets) pseudo fee = p_identity) ∧
    compute_mlsag_signing_digest block_version tx_prefix (compress <$> pseudo) rp rps
      = Ok (sd_mlsag_signing_digest sd, summary, ext) ∧
    sd = mkSigningData (sd_mlsag_signing_digest sd) blindings (compress <$> pseudo) rp rps
      (if mixed then (λ r, token_id (ring_amount r)) <$> rings else [])
      (if mixed then (λ s, token_id (os_amount s)) <$> output_secrets else []).
Proof.
  unfold new_with_summary. intros Hn.
  apply ebind_Ok in Hn as ([] & [= Hc] & Hn). apply ebind_Ok in Hn as (n & [= Hsize] & Hn).
  case_bool_decide; [done|]. apply ebind_Ok in Hn as ([] & [= _] & Hn).
  apply ebind_Ok in Hn as ([blindings rng1] & [= Hb] & Hn).
  apply ebind_Ok in Hn as ([[rp rps] rng2] & Hp & Hn).
  destruct (blindings_sum _ _ _ _ _ Hb) as (Hlen & _). rewrite zip_exact_Ok in Hn by done.
  cbn [map_err ebind] in Hn. destruct (check && _) eqn:Ev; [done|].
  destruct (compute_mlsag_signing_digest _ _ _ _ _) as [[[digest sum'] ext']|] eqn:Hd; [|done].
  cbn [map_err ebind] in Hn.
  destruct (if mixed_transactions_are_supported block_version then bool_decide (rp = []) else _); [|done].
  destruct (if mixed_transactions_are_supported block_version then negb (bool_decide (rps = [])) else _); [|done].
  injection Hn as <- <- <- <-. exists blindings, rng1, rp, rps. split; [done|].
  split; [destruct (find_ring_size rings); by eauto|]. split; [done|]. split; [done|].
  cbv zeta. split; [|split; [|done]].
  - intros ->. simpl in Ev. by apply negb_false_iff, bool_decide_eq_true in Ev.
  - done.
Qed.

Lemma rct_sign_verifies block_version tx_prefix rings output_secrets fee (signer : S) (rng rng' rng'' : R)
    sig signed :
  rct_sign block_version tx_prefix rings output_secrets fee signer rng = Done (Ok (sig, rng')) →
  Forall2 ring_matches rings signed →
  NoDup (key_image <$> ring_signatures sig) →
  ∃ rng3, rct_verify sig block_version tx_prefix signed
            (compress <$> (secret_commitment <$> output_secrets)) fee rng'' = Done (Ok rng3).
Proof.
  intros Hs Hm Hki. unfold rct_sign in Hs.
  apply ebind_Ok in Hs as ([[[sd summary] ext] rng0] & Hn & Hs).
  destruct (new_with_summary_Ok _ _ _ _ _ _ _ _ _ _ _ Hn)
    as (blindings & rng1 & rp & rps & Hc & Hsize & Hb & Hp & Hv & Hd & Esd). specialize (Hv eq_refl).
  destruct (blindings_sum _ _ _ _ _ Hb) as (Hlen & _ & Hkept).
  unfold signing_data_sign in Hs. rewrite Esd in Hs. cbn [sd_mlsag_signing_digest sd_pseudo_output_blindings
    sd_pseudo_output_commitments sd_range_proof_bytes sd_range_proofs sd_pseudo_output_token_ids
    sd_output_token_ids] in Hs. rewrite zip_exact_Ok in Hs by done. cbn [map_err ebind] in Hs.
  apply ebind_Ok in Hs as ([sigs rng2] & Hsigs & [= <- <-]). cbn [ring_signatures] in Hki.
  destruct (range_proofs_verify _ _ _ _ _ _ _ rng'' _ _ sigs Hc ltac:(done) Hp) as [rng3 Hrp].
  pose proof (sign_rings_length _ _ _ _ _ _ Hsigs) as Hls.
  rewrite length_zip_with, Hlen, Nat.min_id in Hls.
  unfold rct_verify. rewrite shape_ok by (try done; by rewrite Hls, (Forall2_length _ _ _ Hm)).
  cbn [ebind pseudo_output_commitments]. rewrite !decompress_all_compress. cbn [ebind]. rewrite Hrp. cbn [ebind].
  rewrite Hv, bool_decide_true by done. cbn [negb range_proof_bytes range_proofs]. rewrite Hd.
  cbn [map_err ebind]. erewrite sign_rings_verify; [by exists rng3|exact Hsigs|..]; try done.
  apply Forall2_same_length_lookup. split; [rewrite length_zip_with, Hlen, Nat.min_id; by eapply Forall2_length|].
  intros k [r b] s [Hr Hb']%lookup_zip_Some Hk. split; [by eapply (Forall2_lookup_lr ring_matches)|].
  intros r' E. simpl in *. subst r. apply Hkept in Hr. congruence.
Qed.

(** C15: A transaction signature that was made verifies.  When
    [SignatureRctBulletproofs::sign] succeeds, with any sound signer, then
    [verify] accepts its result at the same block version, for the same prefix
    and fee, for the rings it signed and the commitments of the output secrets:
    the shape, the range proofs, the balance of values and every ring signature
    are in order.  The key images have to differ, and a presigned ring has to
    carry a valid signature of its own. *)
Theorem signature_verifies block_version tx_prefix rings output_secrets fee (signer : S) (rng rng' rng'' : R)
    sig signed :
  rct_sign block_version tx_prefix rings output_secrets fee signer rng = Done (Ok (sig, rng')) →
  Forall2 ring_matches rings signed →
  NoDup (key_image <$> ring_signatures sig) →
  ∃ rng3, rct_verify sig block_version tx_prefix signed
            (compress <$> (secret_commitment <$> output_secrets)) fee rng'' = Done (Ok rng3).
Proof. apply rct_sign_verifies. Qed.

(** The value check never rejects a balanced transaction.  When for
    every token the inputs are worth the outputs and the fee together, signing
    data is made or refused exactly as it would be without the check, whatever
    the blindings and the random generator: the pseudo-output blindings add up
    to those of the outputs. *)
Theorem balanced_values_pass block_version tx_prefix rings output_secrets fee (rng : R) :
  (∀ t, token_total t (ring_amount <$> rings) = token_total t (fee :: (os_amount <$> output_secrets))) →
  new_with_summary block_version tx_prefix rings output_secrets fee true rng
  = new_with_summary block_version tx_prefix rings output_secrets fee false rng.
Proof.
  intros Hv. unfold new_with_summary.
  destruct (check_versions _ _ _ _); [|done]. cbn [ebind].
  destruct (ok_or _ _) as [n|]; [|done]. cbn [ebind]. case_bool_decide; [done|].
  destruct (check_rings _ _); [|done]. cbn [ebind].
  destruct (compute_pseudo_output_blindings rings output_secrets rng) as [[blindings rng1]|] eqn:Eb; [|done].
  cbn [ebind]. destruct (make_range_proofs _ _ _ _ _ _) as [[[[rp rps] rng2]|]| |]; try done. cbn [ebind].
  destruct (blindings_sum _ _ _ _ _ Eb) as (Hlen & Hsum & _). rewrite zip_exact_Ok by done. cbn [map_err ebind].
  pose (pseudo := (λ p, (ring_amount p.1, p.2)) <$> zip rings blindings).
  pose proof (balance_identity pseudo output_secrets fee) as Hbal.
  assert (pseudo.*1 = ring_amount <$> rings ∧ pseudo.*2 = blindings) as [E1 E2].
  { unfold pseudo. rewrite <-!list_fmap_compose. split.
    - rewrite <-(fst_zip rings blindings) at 2 by lia. by rewrite <-list_fmap_compose.
    - rewrite <-(snd_zip rings blindings) at 2 by lia. done. }
  rewrite E1, E2 in Hbal. specialize (Hbal Hsum Hv). unfold pseudo in Hbal.
  rewrite <-list_fmap_compose in Hbal. unfold compose in Hbal. cbn [fst snd] in Hbal.
  rewrite Hbal, bool_decide_true by done. done.
Qed.
End claims.

(** ** A small instance *)

#[local] Instance bc : Curve := bit_curve.
#[local] Instance bl : CurveLaws := bit_curve_laws.
#[local] Instance bit_rng : ScalarRng unit := λ _, (@s_of_u64 bit_curve 1, tt).

(** Proofs that hold nothing and are always accepted. *)
#[local] Instance toy_proofs : Bulletproofs unit := {|
  RangeProof := unit;
  ProofError := unit;
  prove_multiple := λ _ _ _ rng, (Ok (tt, []), rng);
  verify_multiple := λ _ _ _ rng, (Ok tt, rng);
  proof_to_bytes := λ _, [u8 1];
  proof_from_bytes := λ _, Some tt
|}.

#[local] Instance toy_proof_laws : BulletproofLaws.
Proof. split; [intros; by eexists|by intros []|done]. Qed.

#[local] Instance toy_digests : RctDigests := {|
  tx_prefix_hash := λ p, vreplicate 32 (u8 (fee p));
  input_rules_canonical_digest := λ r, vreplicate 32 (u8 0);
  digest_extended_message := λ m _ _ _, vreplicate 32 (u8 (len m));
  digest_message_and_summary := λ m _, vreplicate 32 (u8 (len m))
|}.

Definition toy_rings : list InputRing :=
  [Signable (mkSignableInputRing MlsagProps.toy_ring 1
     (mkInputSecret (OneTimeKey MlsagProps.toy_key) (mkAmount 700 0) MlsagProps.toy_blinding))].
Definition toy_secrets : list OutputSecret := [mkOutputSecret (mkAmount 600 0) MlsagProps.toy_key].
Definition toy_prefix : TxPrefix := mkTxPrefix [mkTxIn [] [] None] [] 100 0 0.
Definition toy_signed : list SignedInputRing := [mkSignedInputRing MlsagProps.toy_ring None].

Definition toy_signature : SignatureRctBulletproofs :=
  match rct_sign VERSION_THREE toy_prefix toy_rings toy_secrets (mkAmount 100 0) mkNoKeysRingSigner tt with
  | Done (Ok (s, _)) => s
  | _ => mkSignature [] [] [] [] [] []
  end.

Lemma signature_verifies_witness :
  ∃ rng3, rct_verify toy_signature VERSION_THREE toy_prefix toy_signed
            (compress <$> (secret_commitment <$> toy_secrets)) (mkAmount 100 0) tt = Done (Ok rng3).
Proof.
  apply (signature_verifies VERSION_THREE toy_prefix toy_rings toy_secrets (mkAmount 100 0)
    mkNoKeysRingSigner tt tt tt toy_signature toy_signed).
  - vm_cast_no_check (eq_refl (rct_sign VERSION_THREE toy_prefix toy_rings toy_secrets (mkAmount 100 0)
                                mkNoKeysRingSigner tt)).
  - repeat constructor.
  - apply (bool_decide_unpack _). vm_cast_no_check Logic.I.
Defined.

Lemma balanced_values_pass_witness :
  new_with_summary VERSION_THREE toy_prefix toy_rings toy_secrets (mkAmount 100 0) true tt
  = new_with_summary VERSION_THREE toy_prefix toy_rings toy_secrets (mkAmount 100 0) false tt.
Proof.
  apply balanced_values_pass. by intros [].
Defined.
End RingCtProps.
