(* ===== verification/EnclaveError.v ===== *)
(** * Errors of the consensus enclave

    [consensus/enclave/api/src/error.rs].  The variants that carry a text have
    the cases the enclave writes into it. *)

From stdpp Require Import vector.
From S2P Require Import Prelude Ord Bytes TxOut Membership BlockVersion MaskedAmount Tx TxValidation Mint OnetimeKeys MessageCipher Config.

(** The texts of [FormBlock]. *)
Inductive FormBlockError :=
| DuplicateTransaction (tx_hash : bytes32)
| DuplicateKeyImage (key_image : bytes32)
| DuplicateOutputPublicKey (public_key : CompressedRistrettoPublic)
| DuplicateMintConfigTxNonce (t : TokenId) (nonce : bytes)
| DuplicateMintTxNonce (t : TokenId) (nonce : bytes)
| MintTxTokenMismatch (mint_tx_token mint_config_tx_token : TokenId)
| MintConfigNotInMintConfigTx
| AttemptedToMintMob
| NewTx (e : NewTxError).

(** The texts of [BlockVersion]. *)
Inductive BlockVersionFault :=
| BlockVersionCannotDecrease (parent config : N)
| CannotMintTokenAtBlockVersion.

Inductive EnclaveError `{X : TxCrypto} :=
| Attest
| CacheCipher (e : CipherError)
| Serialization
| MalformedTx (e : TransactionValidationError)
| MalformedMintingTx (e : MintError.Error)
| InvalidLocalMembershipProof
| InvalidLocalMembershipRootElement
| FormBlock (e : FormBlockError)
| Signature
| FeePublicAddress
| NotInitialized
| BlockVersionError (e : BlockVersionFault)
| IntelSealing
| ConfigInvalid (e : ConfigError)
| ParseMintingTrustRootPublicKey
| FeeMapDigestMismatch.
