(* ===== verification/TxManager.v ===== *)
(** * Well-formed transactions and their manager

    [consensus/enclave/api/src/lib.rs]: what the enclave tells of a transaction
    it found well formed, and the order of transactions in a block.
    [consensus/service/src/validators.rs]: the part of validation that only
    needs the ledger, and the choice of the transactions of a block.
    [consensus/service/src/tx_manager]: the cache of well-formed transactions.

    The enclave is an interface here, the class [ConsensusEnclave].  The ledger
    is shared with the rest of the service: operations that read it take its
    current state. *)

From stdpp Require Import vector strings.
From S2P Require Import Prelude Ord Bytes Lmdb TxOut Membership TxOutStore BlockVersion MaskedAmount Tx TxValidation Multisig Mint MintStore Block LedgerDb LedgerApi EnclaveError.

Open Scope N_scope.

Notation TxHash := bytes32 (only parsing).

(** ** Contexts *)

Record WellFormedTxContext := mkWellFormedTxContext {
  priority : N;
  wf_tx_hash : TxHash;
  wf_tombstone_block : N;
  wf_key_images : list KeyImage;
  wf_highest_indices : list N;
  wf_output_public_keys : list CompressedRistrettoPublic
}.

(** [Tx::tx_hash], by the digestible derivation. *)
Class TxDigest : Type := tx_digest : Tx → TxHash.

Definition WellFormedTxContext_from_tx `{TxDigest} (tx : Tx) (priority : N) : WellFormedTxContext :=
  mkWellFormedTxContext priority (tx_digest tx) (tombstone_block (prefix tx)) (Tx.key_images tx)
    (get_membership_proof_highest_indices (prefix tx)) (output_public_keys tx).

(** The fields compared after the priority. *)
Definition context_key (c : WellFormedTxContext) :
    TxHash * (N * (list KeyImage * (list N * list CompressedRistrettoPublic))) :=
  (wf_tx_hash c, (wf_tombstone_block c, (wf_key_images c, (wf_highest_indices c, wf_output_public_keys c)))).

(** [impl Ord for WellFormedTxContext]: by priority, from high to low. *)
#[export] Instance WellFormedTxContext_ord : Ord WellFormedTxContext := λ a b,
  if negb (priority a =? priority b) then N.compare (priority b) (priority a)
  else cmp (context_key a) (context_key b).

#[export] Instance WellFormedTxContext_total_ord : TotalOrd WellFormedTxContext.
Proof.
  assert (∀ a b, cmp (A:=WellFormedTxContext) a b =
    cmp_then (N.compare (priority b) (priority a)) (cmp (context_key a) (context_key b))) as Hcmp.
  { intros a b. unfold cmp at 1, WellFormedTxContext_ord.
    destruct (N.eqb_spec (priority a) (priority b)) as [->|Hne]; simpl; [by rewrite N.compare_refl|].
    destruct (N.compare_spec (priority b) (priority a)); [by subst|done..]. }
  split.
  - intros a b. rewrite Hcmp. destruct (N.compare_spec (priority b) (priority a)) as [Hp|Hp|Hp]; simpl.
    + rewrite cmp_eq_iff. unfold context_key. destruct a, b; simpl in *. naive_solver.
    + split; [done|]. intros ->. lia.
    + split; [done|]. intros ->. lia.
  - intros a b. rewrite !Hcmp, (N.compare_antisym (priority b)), (cmp_opp (context_key a)).
    by destruct (priority b ?= priority a).
  - intros a b c. rewrite !Hcmp. pose proof (cmp_lt_trans (context_key a) (context_key b) (context_key c)).
    destruct (N.compare_spec (priority b) (priority a)) as [E1|H1|H1]; simpl; try done;
      destruct (N.compare_spec (priority c) (priority b)) as [E2|H2|H2]; simpl; try done;
      destruct (N.compare_spec (priority c) (priority a)); simpl; intros; try done; try lia; auto.
Qed.

Record TxContext := mkTxContext {
  locally_encrypted_tx : bytes;
  tc_tx_hash : TxHash;
  tc_highest_indices : list N;
  tc_key_images : list KeyImage;
  tc_output_public_keys : list CompressedRistrettoPublic
}.

(** ** The untrusted part of validation: [validators.rs] *)

Section validators.
Context {L : Type} `{LR : LedgerReads L} `{X : TxCrypto}.
Implicit Types ledger : L.
Notation TVE := TransactionValidationError.

(** [map_err(|e| TransactionValidationError::Ledger(e.to_string()))]. *)
Definition to_ledger_error {A} (m : exec (result A Error)) : exec (result A TVE) :=
  emap_err (λ _, Ledger) m.

(** [get_tx_out_proof_of_memberships]. *)
Definition ui_get_tx_out_proof_of_memberships ledger (indexes : list N) :
    exec (result (list TxOutMembershipProof) TVE) :=
  emap_err (λ e, match e with
                 | TxOutIndexOutOfBounds index => LedgerTxOutIndexOutOfBounds index
                 | _ => Ledger
                 end) (l_get_tx_out_proof_of_memberships ledger indexes).

Definition well_formed_check ledger (tx_context : TxContext) :
    exec (result (N * list TxOutMembershipProof) TVE) :=
  let^ membership_proofs := ui_get_tx_out_proof_of_memberships ledger (tc_highest_indices tx_context) in
  let^ num_blocks := to_ledger_error (l_num_blocks ledger) in
  Done (Ok (u64_sub num_blocks 1, membership_proofs)).

(** [iter().any(f)] with [unwrap_or(true)]: stop at the first [true]. *)
Fixpoint any_or_error {A} (f : A → exec (result bool Error)) (l : list A) : exec bool :=
  match l with
  | [] => Done false
  | x :: l =>
      let! r := f x in
      match r with
      | Ok false => any_or_error f l
      | _ => Done true
      end
  end.

Definition is_valid ledger (context : WellFormedTxContext) : exec (result unit TVE) :=
  let^ current_block_index := to_ledger_error (l_num_blocks ledger) in
  let^ _ := Done (TxValidation.validate_tombstone current_block_index (wf_tombstone_block context)) in
  let! contains_spent_key_image :=
    any_or_error (l_contains_key_image ledger) (wf_key_images context) in
  if contains_spent_key_image : bool then Done (Err ContainsSpentKeyImage)
  else
    let! contains_existing_public_key :=
      any_or_error (l_contains_tx_out_public_key ledger) (wf_output_public_keys context) in
    if contains_existing_public_key : bool then Done (Err ContainsExistingOutputPublicKey)
    else Done (Ok tt).
End validators.

(** The loop of [combine]: the candidates allowed, in order.  [used] are the
    key images and the output public keys of those allowed so far. *)
Fixpoint combine_loop (max_elements : nat) (allowed : nat)
    (used : gset KeyImage * gset CompressedRistrettoPublic)
    (candidates : list WellFormedTxContext) : list WellFormedTxContext :=
  match candidates with
  | [] => []
  | candidate :: candidates =>
      if (max_elements <=? allowed)%nat then []
      else
        let key_images : gset KeyImage := list_to_set (wf_key_images candidate) in
        if negb (bool_decide (used.1 ## key_images)) then combine_loop max_elements allowed used candidates
        else
          let output_public_keys : gset CompressedRistrettoPublic :=
            list_to_set (wf_output_public_keys candidate) in
          if negb (bool_decide (used.2 ## output_public_keys))
          then combine_loop max_elements allowed used candidates
          else candidate :: combine_loop max_elements (S allowed)
                 (used.1 ∪ key_images, used.2 ∪ output_public_keys) candidates
  end.

(** [combine]. *)
Definition ui_combine (tx_contexts : list WellFormedTxContext) (max_elements : nat) : list TxHash :=
  wf_tx_hash <$> combine_loop max_elements 0 (∅, ∅) (sort tx_contexts).

(** ** The enclave, as the manager uses it *)

Class ConsensusEnclave `{X : TxCrypto} (E PeerSession EnclaveMessage : Type) : Type := {
  (** The result and the enclave after the call: encryption draws randomness. *)
  tx_is_well_formed : E → bytes → N → list TxOutMembershipProof →
    exec (result (bytes * WellFormedTxContext) EnclaveError * E);
  txs_for_peer : E → list bytes → bytes → PeerSession → exec (result EnclaveMessage EnclaveError * E)
}.

(** ** The manager *)

Inductive TxManagerError `{X : TxCrypto} :=
| TmEnclave (e : EnclaveError)
| TmTransactionValidation (e : TransactionValidationError)
| TmNotInCache (tx_hashes : list TxHash)
| TmLedgerDb (e : Error).

(** [From<ConsensusEnclaveError>]. *)
Definition TxManagerError_from_enclave `{X : TxCrypto} (err : EnclaveError) : TxManagerError :=
  match err with
  | MalformedTx e => TmTransactionValidation e
  | err => TmEnclave err
  end.

Record CacheEntry := mkCacheEntry {
  encrypted_tx : bytes;
  entry_context : WellFormedTxContext
}.

Definition MAX_TRANSACTIONS_PER_BLOCK : nat := 5000.

Record TxManagerImpl (E : Type) := mkTxManagerImpl {
  tm_enclave : E;
  cache : gmap TxHash CacheEntry
}.
Arguments mkTxManagerImpl {E} _ _.
Arguments tm_enclave {E} _.
Arguments cache {E} _.

Section manager.
Context {L : Type} `{LR : LedgerReads L} `{X : TxCrypto} `{HI : HashIter}.
Context {E PeerSession EnclaveMessage : Type} `{CE : !ConsensusEnclave E PeerSession EnclaveMessage}.
Implicit Types (self : TxManagerImpl E) (ledger : L).

(** [TxManagerImpl::new]. *)
Definition TxManagerImpl_new (enclave : E) : TxManagerImpl E := mkTxManagerImpl enclave ∅.

(** [is_well_formed]. *)
Definition is_well_formed ledger self (tx_context : TxContext) :
    exec (result CacheEntry TxManagerError * TxManagerImpl E) :=
  let! r := well_formed_check ledger tx_context in
  match r with
  | Err e => Done (Err (TmTransactionValidation e), self)
  | Ok (current_block_index, highest_index_proofs) =>
      let! (r, enclave) := tx_is_well_formed (tm_enclave self) (locally_encrypted_tx tx_context)
                             current_block_index highest_index_proofs in
      let self := mkTxManagerImpl enclave (cache self) in
      match r with
      | Err e => Done (Err (TxManagerError_from_enclave e), self)
      | Ok (well_formed_encrypted_tx, well_formed_tx_context) =>
          Done (Ok (mkCacheEntry well_formed_encrypted_tx well_formed_tx_context), self)
      end
  end.

(** [insert]. *)
Definition insert_tx ledger self (tx_context : TxContext) :
    exec (result TxHash TxManagerError * TxManagerImpl E) :=
  let tx_hash := tc_tx_hash tx_context in
  match cache self !! tx_hash with
  | Some entry => Done (Ok (wf_tx_hash (entry_context entry)), self)
  | None =>
      let! (r, self) := is_well_formed ledger self tx_context in
      match r with
      | Err e => Done (Err e, self)
      | Ok new_entry =>
          Done (Ok tx_hash, mkTxManagerImpl (tm_enclave self) (<[ tx_hash := new_entry ]> (cache self)))
      end
  end.

(** [remove_expired]: the hashes removed, and the manager without them. *)
Definition expired (block_index : N) (entry : CacheEntry) : Prop :=
  wf_tombstone_block (entry_context entry) <= block_index.
#[export] Instance expired_dec block_index entry : Decision (expired block_index entry) :=
  N.le_dec _ _.

Definition remove_expired self (block_index : N) : gset TxHash * TxManagerImpl E :=
  (dom (filter (λ e, expired block_index e.2) (cache self)),
   mkTxManagerImpl (tm_enclave self) (filter (λ e, ¬ expired block_index e.2) (cache self))).

Definition contains self (tx_hash : TxHash) : bool := bool_decide (is_Some (cache self !! tx_hash)).
Definition num_entries self : nat := size (cache self).

(** [validate]. *)
Definition validate_tx ledger self (tx_hash : TxHash) : exec (result unit TxManagerError) :=
  match cache self !! tx_hash with
  | Some entry => emap_err TmTransactionValidation (is_valid ledger (entry_context entry))
  | None => Done (Err (TmNotInCache [tx_hash]))
  end.

(** [get_cache_entries]. *)
Definition get_cache_entries self (tx_hashes : list TxHash) : result (list CacheEntry) TxManagerError :=
  let not_found := filter (λ h, cache self !! h = None) tx_hashes in
  if bool_decide (not_found ≠ []) then Err (TmNotInCache not_found)
  else Ok (omap (λ h, cache self !! h) tx_hashes).

(** [combine]: the hashes are put in a [HashSet] first. *)
Definition combine_txs self (tx_hashes : list TxHash) : result (list TxHash) TxManagerError :=
  let? cache_entries := get_cache_entries self (hs_iter (list_to_set tx_hashes)) in
  Ok (ui_combine (entry_context <$> cache_entries) MAX_TRANSACTIONS_PER_BLOCK).

(** [tx_hashes_to_well_formed_encrypted_txs_and_proofs]. *)
Definition entry_with_proofs ledger (entry : CacheEntry) :
    exec (result (bytes * list TxOutMembershipProof) TxManagerError) :=
  let^ highest_index_proofs := emap_err TmTransactionValidation
    (ui_get_tx_out_proof_of_memberships ledger (wf_highest_indices (entry_context entry))) in
  Done (Ok (encrypted_tx entry, highest_index_proofs)).

Definition tx_hashes_to_well_formed_encrypted_txs_and_proofs ledger self (tx_hashes : list TxHash) :
    exec (result (list (bytes * list TxOutMembershipProof)) TxManagerError) :=
  let^ cache_entries := Done (get_cache_entries self tx_hashes) in
  emap (entry_with_proofs ledger) cache_entries.

(** [encrypt_for_peer]. *)
Definition encrypt_for_peer self (tx_hashes : list TxHash) (aad : bytes) (peer : PeerSession) :
    exec (result EnclaveMessage TxManagerError * TxManagerImpl E) :=
  let not_found := filter (λ h, cache self !! h = None) tx_hashes in
  if bool_decide (not_found ≠ []) then Done (Err (TmNotInCache not_found), self)
  else
    let encrypted_txs := omap (λ h, encrypted_tx <$> cache self !! h) tx_hashes in
    let! (r, enclave) := txs_for_peer (tm_enclave self) encrypted_txs aad peer in
    Done (map_err TxManagerError_from_enclave r, mkTxManagerImpl enclave (cache self)).

Definition get_encrypted_tx self (tx_hash : TxHash) : option bytes := encrypted_tx <$> cache self !! tx_hash.
End manager.
