(* ===== verification/TxManagerProps.v ===== *)
(** * Correctness of the transaction manager

    The choice of the transactions of a block, and the cache it reads.  With
    the ledger's database: transactions that passed validation and were chosen
    together spend no key image twice and create no output key twice, within
    the block or with respect to the chain, which is what the ledger asks of a
    block; the contexts meant are those that the cache holds for the hashes that
    were chosen. *)

From stdpp Require Import vector strings.
From S2P Require Import Prelude Ord Bytes Lmdb TxOut Membership MerkleTree TxOutStore TxOutStoreProps BlockVersion MaskedAmount Tx TxValidation Multisig Mint MintOrd MintStore MintStoreProps Block LedgerDb LedgerFrame LedgerProps LedgerAccept LedgerApi EnclaveError TxManager.

Open Scope N_scope.

(** ** The choice *)

(** No key belongs to two entries. *)
Definition disjoint_keys {A K} (f : A → list K) (l : list A) : Prop :=
  ∀ i j a b k, l !! i = Some a → l !! j = Some b → k ∈ f a → k ∈ f b → i = j.

Section keys.
Context {A K : Type} (f : A → list K).

Lemma disjoint_keys_nil : disjoint_keys f [].
Proof. intros i j a b k Ha. by rewrite lookup_nil in Ha. Qed.

Lemma disjoint_keys_cons x l :
  disjoint_keys f l → (∀ y k, y ∈ l → k ∈ f x → k ∉ f y) → disjoint_keys f (x :: l).
Proof.
  intros Hl Hx [|i] [|j] a b k; simpl; intros Ha Hb Hka Hkb.
  - done.
  - simplify_eq. exfalso. apply (Hx b k); [by eapply list_elem_of_lookup_2|done..].
  - simplify_eq. exfalso. apply (Hx a k); [by eapply list_elem_of_lookup_2|done..].
  - f_equal. by eapply Hl.
Qed.

Lemma disjoint_keys_cons_inv x l :
  disjoint_keys f (x :: l) → disjoint_keys f l ∧ ∀ y k, y ∈ l → k ∈ f x → k ∉ f y.
Proof.
  intros Hd. split.
  - intros i j a b k Ha Hb Hka Hkb. pose proof (Hd (S i) (S j) a b k Ha Hb Hka Hkb). lia.
  - intros y k (j & Hj)%list_elem_of_lookup Hx Hy. pose proof (Hd 0%nat (S j) x y k eq_refl Hj Hx Hy). lia.
Qed.

(** Without repetitions inside the entries there are none at all. *)
Lemma disjoint_keys_NoDup l :
  disjoint_keys f l → (∀ a, a ∈ l → NoDup (f a)) → NoDup (l ≫= f).
Proof.
  induction l as [|x l IH]; intros Hd Hn; [constructor|]. rewrite bind_cons.
  apply disjoint_keys_cons_inv in Hd as [Hd Hx]. apply NoDup_app. split_and!.
  - apply Hn. by left.
  - intros k Hk (y & Hy & Hin)%list_elem_of_bind. by eapply Hx.
  - apply IH; [done|]. intros a Ha. apply Hn. by right.
Qed.
End keys.

(** A candidate cannot join the selection: a key image or an output key of it
    is used. *)
Definition clashes (used : gset KeyImage * gset CompressedRistrettoPublic) (sel : list WellFormedTxContext)
    (c : WellFormedTxContext) : Prop :=
  (∃ k, k ∈ wf_key_images c ∧ (k ∈ used.1 ∨ ∃ d, d ∈ sel ∧ k ∈ wf_key_images d)) ∨
  (∃ k, k ∈ wf_output_public_keys c ∧ (k ∈ used.2 ∨ ∃ d, d ∈ sel ∧ k ∈ wf_output_public_keys d)).

Lemma not_disjoint_elem `{Countable K} (u : gset K) (l : list K) :
  ¬ (u ## (list_to_set l : gset K)) → ∃ k, k ∈ l ∧ k ∈ u.
Proof.
  intros Hd. destruct (decide (Exists (λ k, k ∈ u) l)) as [He|He].
  - apply Exists_exists in He as (k & ? & ?). by exists k.
  - exfalso. apply Hd. intros k Hu Hl%elem_of_list_to_set. apply He, Exists_exists. by exists k.
Qed.

Lemma combine_loop_spec max l : ∀ allowed used,
  let sel := combine_loop max allowed used l in
  sel `sublist_of` l ∧ (length sel <= max - allowed)%nat ∧
  disjoint_keys wf_key_images sel ∧ disjoint_keys wf_output_public_keys sel ∧
  (∀ c, c ∈ sel → (∀ k, k ∈ wf_key_images c → k ∉ used.1) ∧ (∀ k, k ∈ wf_output_public_keys c → k ∉ used.2)) ∧
  (∀ c, c ∈ l → c ∈ sel ∨ (max <= allowed + length sel)%nat ∨ clashes used sel c).
Proof.
  induction l as [|x l IH]; intros allowed used; cbn [combine_loop].
  { split_and!; [constructor|simpl; lia|apply disjoint_keys_nil..|by intros c ?%elem_of_nil|by intros c ?%elem_of_nil]. }
  destruct (Nat.leb_spec max allowed) as [Hfull|Hroom].
  { split_and!; [apply sublist_nil_l|simpl; lia|apply disjoint_keys_nil..|by intros c ?%elem_of_nil|].
    intros c _. right; left. simpl. lia. }
  destruct (bool_decide_reflect (used.1 ## (list_to_set (wf_key_images x) : gset KeyImage))) as [H1|H1]; simpl.
  2:{ destruct (IH allowed used) as (Hs & Hl & Hk & Ho & Hu & Hm). split_and!; [by constructor|done..|].
      intros c [->|Hc]%elem_of_cons; [|by apply Hm]. right; right; left.
      destruct (not_disjoint_elem _ _ H1) as (k & ? & ?). by exists k; auto. }
  destruct (bool_decide_reflect (used.2 ## (list_to_set (wf_output_public_keys x) : gset _))) as [H2|H2]; simpl.
  2:{ destruct (IH allowed used) as (Hs & Hl & Hk & Ho & Hu & Hm). split_and!; [by constructor|done..|].
      intros c [->|Hc]%elem_of_cons; [|by apply Hm]. right; right; right.
      destruct (not_disjoint_elem _ _ H2) as (k & ? & ?). by exists k; auto. }
  destruct (IH (S allowed) (used.1 ∪ list_to_set (wf_key_images x), used.2 ∪ list_to_set (wf_output_public_keys x)))
    as (Hs & Hl & Hk & Ho & Hu & Hm). simpl in Hu.
  set (sel := combine_loop _ _ _ l) in *. split_and!.
  - by constructor.
  - simpl. lia.
  - apply disjoint_keys_cons; [done|]. intros y k Hy Hx Hky. destruct (Hu y Hy) as [Hu1 _].
    apply (Hu1 k Hky), elem_of_union_r, elem_of_list_to_set, Hx.
  - apply disjoint_keys_cons; [done|]. intros y k Hy Hx Hky. destruct (Hu y Hy) as [_ Hu2].
    apply (Hu2 k Hky), elem_of_union_r, elem_of_list_to_set, Hx.
  - intros c [->|Hc]%elem_of_cons.
    + split; intros k Hk' Huk; [apply (H1 k)|apply (H2 k)]; try done; by apply elem_of_list_to_set.
    + destruct (Hu c Hc) as [Hu1 Hu2]. split; intros k Hk' Huk;
        [apply (Hu1 k Hk')|apply (Hu2 k Hk')]; by apply elem_of_union_l.
  - intros c [->|Hc]%elem_of_cons; [by left; left|].
    destruct (Hm c Hc) as [?|[?|Hcl]]; [left; by right|right; left; simpl; lia|right; right].
    destruct Hcl as [(k & Hk' & Hin)|(k & Hk' & Hin)]; [left|right]; exists k; (split; [done|]);
      (destruct Hin as [Hin|(d & Hd & ?)]; [|right; exists d; split; [by right|done]]);
      cbn [fst snd] in Hin; apply elem_of_union in Hin as [?|Hin%elem_of_list_to_set]; first [by left|right; exists x; split; [by left|done]].
Qed.

(** ** The cache *)

Section cache.
Context `{X : TxCrypto} {E : Type}.
Implicit Types self : TxManagerImpl E.

Lemma get_cache_entries_Ok self hs es :
  get_cache_entries self hs = Ok es ↔ Forall2 (λ h e, cache self !! h = Some e) hs es.
Proof.
  unfold get_cache_entries. induction hs as [|h hs IH] in es |- *; simpl.
  { split; [intros [= <-]; constructor|by inversion 1]. }
  destruct (cache self !! h) as [e|] eqn:Eh.
  - rewrite filter_cons_False by congruence. split.
    + destruct (bool_decide_reflect (filter (λ h, cache self !! h = None) hs ≠ [])); [done|].
      intros [= <-]. constructor; [done|]. by apply IH.
    + inversion 1 as [|? e' ? es' He Hes]; subst. apply IH in Hes.
      destruct (bool_decide _); [done|]. injection Hes as <-. by simplify_eq.
  - rewrite filter_cons_True by done. rewrite bool_decide_true by done. split; [done|].
    inversion 1; congruence.
Qed.

Lemma get_cache_entries_Err self hs e :
  get_cache_entries self hs = Err e ↔
  e = TmNotInCache (filter (λ h, cache self !! h = None) hs) ∧ ∃ h, h ∈ hs ∧ cache self !! h = None.
Proof.
  unfold get_cache_entries. case_bool_decide as Hne.
  - split; [|by intros [-> _]]. intros [= <-]. split; [done|].
    destruct (filter _ hs) as [|h l] eqn:Ef; [done|]. exists h.
    assert (h ∈ filter (λ h, cache self !! h = None) hs) as [??]%list_elem_of_filter by (rewrite Ef; by left).
    done.
  - split; [done|]. intros (_ & h & Hh & Hn). exfalso.
    apply (not_elem_of_nil h). rewrite <-Hne. by apply list_elem_of_filter.
Qed.

Lemma get_cache_entries_missing self (HI : HashIter) hs h es :
  h ∈ hs → cache self !! h = None → get_cache_entries self (hs_iter (list_to_set hs : gset TxHash)) ≠ Ok es.
Proof.
  intros Hh Hn Ee. apply get_cache_entries_Ok in Ee.
  assert (h ∈ hs_iter (list_to_set hs : gset TxHash)) as [i Hi]%list_elem_of_lookup
    by (by apply elem_of_hs_iter, elem_of_list_to_set).
  destruct (Forall2_lookup_l _ _ _ _ _ Ee Hi) as (e & _ & He). congruence.
Qed.
End cache.

(** ** Validation against the ledger's database *)

Section database.
Context {T : Type} `{Transaction T} `{!TransactionLaws T} `{Commit T} `{D : Digests} `{C : TxOutCodec}.
Context `{X : TxCrypto} `{V : Verifier Ed25519Public Ed25519Signature} `{DG : MintDigests} `{MC : MintCodec}.
Context {Sig Meta : Type} `{LC : LedgerCodec Sig Meta} `{BD : BlockDigests}.
Context (db : LedgerDB).
Implicit Types (t : T) (chain : list (BlockData Sig Meta)).

Definition unspent chain (k : KeyImage) : Prop := ∀ d, d ∈ chain → k ∉ Block.key_images (bd_contents d).
Definition fresh_key chain (k : CompressedRistrettoPublic) : Prop := k ∉ public_key <$> chain_outputs chain.

Lemma contains_key_image_false_iff t chain k :
  ledger_ok db t chain →
  (ro (contains_key_image db k) t = Done (Ok false) ∧ unspent chain k) ∨
  (ro (contains_key_image db k) t = Done (Ok true) ∧ ¬ unspent chain k).
Proof.
  intros Hok. unfold ro.
  destruct (decide (Exists (λ d, k ∈ Block.key_images (bd_contents d)) chain)) as [He|He].
  - right. apply Exists_exists in He as (d & Hd & Hk). split; [|intros Hu; by apply (Hu d)].
    apply list_elem_of_lookup in Hd as [i Hi]. unfold contains_key_image.
    by dstep (check_key_image_ok _ _ _ _ _ _ Hok Hi Hk).
  - left. assert (unspent chain k) as Hu.
    { intros d Hd Hk. apply He, Exists_exists. by exists d. }
    split; [|done]. by rewrite (contains_key_image_unspent _ _ _ _ Hok Hu).
Qed.

Lemma contains_public_key_false_iff t chain k :
  ledger_ok db t chain →
  (ro (contains_tx_out_public_key db k) t = Done (Ok false) ∧ fresh_key chain k) ∨
  (ro (contains_tx_out_public_key db k) t = Done (Ok true) ∧ ¬ fresh_key chain k).
Proof.
  intros Hok. pose proof (lo_store _ _ _ Hok) as Hs. unfold ro, fresh_key.
  destruct (decide (k ∈ public_key <$> chain_outputs chain)) as [Hin|Hin].
  - right. split; [|auto]. apply list_elem_of_fmap in Hin as (o & -> & [i Hi]%list_elem_of_lookup).
    destruct Hs as [Hcap [_ _ _ [Hix _]] _].
    unfold contains_tx_out_public_key, get_tx_out_index_by_public_key, dbind, get.
    rewrite (Hix i o Hi). unfold dexec. rewrite key_round_trip; [done|].
    apply lookup_lt_Some in Hi. unfold len in Hcap. lia.
  - left. split; [|done]. rewrite (contains_key_fresh _ _ _ _ Hs); [done|].
    intros o Ho <-. apply Hin. by apply list_elem_of_fmap_2.
Qed.

Lemma any_or_error_false {A} (f : A → exec (result bool Error)) (Q : A → Prop) l :
  (∀ a, a ∈ l → (f a = Done (Ok false) ∧ Q a) ∨ (f a = Done (Ok true) ∧ ¬ Q a)) →
  ∃ b, any_or_error f l = Done b ∧ (b = false ↔ ∀ a, a ∈ l → Q a).
Proof.
  induction l as [|x l IH]; intros Hf; simpl.
  { exists false. split; [done|]. split; [by intros _ a ?%elem_of_nil|done]. }
  destruct (Hf x) as [[-> HQ]|[-> HQ]]; [by left| |]; simpl.
  - destruct IH as (b & -> & Hb); [intros a Ha; apply Hf; by right|]. exists b. split; [done|].
    rewrite Hb. split; [intros Hl a [->|Ha]%elem_of_cons; auto|]. intros Hl a Ha. apply Hl. by right.
  - exists true. split; [done|]. split; [done|]. intros Hl. exfalso. apply HQ, Hl. by left.
Qed.

Lemma is_valid_Ok t chain context :
  ledger_ok db t chain →
  is_valid (LR:=LedgerDB_reads db) t context = Done (Ok tt) ↔
  MintValidationProps.tombstone_in_range (len chain) (wf_tombstone_block context) ∧
  (∀ k, k ∈ wf_key_images context → unspent chain k) ∧
  (∀ k, k ∈ wf_output_public_keys context → fresh_key chain k).
Proof.
  intros Hok. unfold is_valid. cbn [l_num_blocks l_contains_key_image l_contains_tx_out_public_key LedgerDB_reads].
  unfold ro at 1. rewrite (num_blocks_ok _ _ _ Hok). simpl.
  unfold MintValidationProps.tombstone_in_range. rewrite <-ValidationProps.tombstone_Ok.
  destruct (validate_tombstone (len chain) (wf_tombstone_block context)) as [[]|e] eqn:Et; simpl;
    [|naive_solver].
  destruct (any_or_error_false (λ k, ro (contains_key_image db k) t) (unspent chain) (wf_key_images context))
    as (b1 & -> & Hb1); [by intros; apply contains_key_image_false_iff|].
  destruct (any_or_error_false (λ k, ro (contains_tx_out_public_key db k) t) (fresh_key chain)
    (wf_output_public_keys context)) as (b2 & E2 & Hb2); [by intros; apply contains_public_key_false_iff|].
  simpl. destruct b1; [naive_solver|]. rewrite E2. simpl. destruct b2; naive_solver.
Qed.
End database.

(** ** Theorems *)

Module TxManagerProps.
Section combine.
Context `{X : TxCrypto} {E : Type}.
Implicit Types self : TxManagerImpl E.

(** The contexts the cache holds for these hashes. *)
Definition contexts_of self (hs : list TxHash) : list WellFormedTxContext :=
  omap (λ h, entry_context <$> cache self !! h) hs.

(** The same, each hash once and in some order. *)
Definition cached_contexts self (hs : list TxHash) : list WellFormedTxContext :=
  contexts_of self (elements (list_to_set hs : gset TxHash)).

Lemma elem_of_contexts_of self hs c :
  c ∈ contexts_of self hs ↔ ∃ h e, h ∈ hs ∧ cache self !! h = Some e ∧ c = entry_context e.
Proof.
  unfold contexts_of. rewrite list_elem_of_omap. split.
  - intros (h & Hh & He). destruct (cache self !! h) as [e|] eqn:Ec; [|done]. injection He as <-. by exists h, e.
  - intros (h & e & Hh & He & ->). exists h. by rewrite He.
Qed.

Lemma elem_of_cached_contexts self hs c :
  c ∈ cached_contexts self hs ↔ ∃ h e, h ∈ hs ∧ cache self !! h = Some e ∧ c = entry_context e.
Proof.
  unfold cached_contexts. rewrite elem_of_contexts_of. by setoid_rewrite elem_of_elements; setoid_rewrite elem_of_list_to_set.
Qed.

Lemma combine_txs_eq self hs (HI : HashIter) l :
  (∀ h, h ∈ hs → is_Some (cache self !! h)) → (∀ h, h ∈ l ↔ h ∈ hs) →
  combine_txs self l = Ok (ui_combine (cached_contexts self hs) MAX_TRANSACTIONS_PER_BLOCK).
Proof.
  intros Hc Hl. unfold combine_txs.
  destruct (get_cache_entries self (hs_iter (list_to_set l))) as [es|e] eqn:Ee; simpl.
  2:{ apply get_cache_entries_Err in Ee as (_ & h & Hh & Hn).
      apply elem_of_hs_iter, elem_of_list_to_set, Hl, Hc in Hh. rewrite Hn in Hh. by destruct Hh. }
  f_equal. unfold ui_combine. do 2 f_equal. apply sort_perm_eq.
  apply get_cache_entries_Ok in Ee.
  assert (entry_context <$> es =
    omap (λ h, entry_context <$> cache self !! h) (hs_iter (list_to_set l : gset TxHash))) as ->.
  { induction Ee as [|h e hs' es' He _ IH]; [done|]. rewrite fmap_cons, IH. simpl. by rewrite He. }
  unfold cached_contexts, contexts_of. rewrite hs_iter_perm.
  replace (list_to_set l : gset TxHash) with (list_to_set hs : gset TxHash); [done|].
  apply set_eq. intros h. by rewrite !elem_of_list_to_set, Hl.
Qed.

(** [combine] chooses the transactions of a block.  When all are cached,
    the choice depends only on the set of hashes, not on their order or on that
    of the hash set; it takes at most the maximal number of transactions, sorted
    by priority, no two of which spend the same key image or create the same
    output key; and one is left out only when the block is full or it clashes
    with one taken.  Otherwise the error names the hashes that are missing. *)
Theorem combine_txs_correct self hs :
  ((∀ h, h ∈ hs → is_Some (cache self !! h)) →
   ∃ sel, (∀ (HI : HashIter) l, (∀ h, h ∈ l ↔ h ∈ hs) → combine_txs self l = Ok (wf_tx_hash <$> sel)) ∧
     sel `sublist_of` sort (cached_contexts self hs) ∧ (length sel <= MAX_TRANSACTIONS_PER_BLOCK)%nat ∧
     disjoint_keys wf_key_images sel ∧ disjoint_keys wf_output_public_keys sel ∧
     ∀ c, c ∈ cached_contexts self hs →
       c ∈ sel ∨ length sel = MAX_TRANSACTIONS_PER_BLOCK ∨ clashes (∅, ∅) sel c) ∧
  (∀ (HI : HashIter) h, h ∈ hs → cache self !! h = None →
   ∃ missing, combine_txs self hs = Err (TmNotInCache missing) ∧
     ∀ h', h' ∈ missing ↔ h' ∈ hs ∧ cache self !! h' = None).
Proof.
  split.
  - intros Hc.
    destruct (combine_loop_spec MAX_TRANSACTIONS_PER_BLOCK (sort (cached_contexts self hs)) 0 (∅, ∅))
      as (Hs & Hlen & Hk & Ho & _ & Hm).
    eexists. split; [intros HI l Hl; by apply combine_txs_eq|].
    split_and!; [done|by rewrite Nat.sub_0_r in Hlen|done|done|].
    intros c Hc'. destruct (Hm c) as [?|[?|?]]; [by apply elem_of_sort_by|by left| |by auto].
    right; left. lia.
  - intros HI h Hh Hn. unfold combine_txs.
    destruct (get_cache_entries self (hs_iter (list_to_set hs))) as [es|e] eqn:Ee; simpl.
    + by destruct (get_cache_entries_missing self HI hs h es).
    + apply get_cache_entries_Err in Ee as [-> _]. eexists. split; [done|]. intros h'.
      rewrite list_elem_of_filter, elem_of_hs_iter, elem_of_list_to_set. naive_solver.
Qed.
End combine.

(** *** The cache *)

Section cache.
Context {L : Type} `{LR : LedgerReads L} `{X : TxCrypto}.
Context {E PeerSession EnclaveMessage : Type} `{CE : !ConsensusEnclave E PeerSession EnclaveMessage}.
Implicit Types (self : TxManagerImpl E) (ledger : L).

(** The enclave issued the context: the hash is that of the transaction it
    encrypted.  The enclave only finds a transaction well formed that has this
    hash and does not repeat a key. *)
Variable issued : E → TxContext → Prop.
Hypothesis well_formed_context : ∀ enclave c block_index ps x w enclave',
  issued enclave c →
  tx_is_well_formed enclave (locally_encrypted_tx c) block_index ps = Done (Ok (x, w), enclave') →
  wf_tx_hash w = tc_tx_hash c ∧ NoDup (wf_key_images w) ∧ NoDup (wf_output_public_keys w).

(** The managers reachable from a new one.  The enclave is shared: others may
    have used it between two calls. *)
Inductive manager_run : TxManagerImpl E → Prop :=
| run_new enclave : manager_run (TxManagerImpl_new enclave)
| run_insert self ledger c r self' :
    manager_run self → issued (tm_enclave self) c → insert_tx ledger self c = Done (r, self') → manager_run self'
| run_remove_expired self block_index : manager_run self → manager_run (remove_expired self block_index).2
| run_enclave self enclave : manager_run self → manager_run (mkTxManagerImpl enclave (cache self)).

Definition entry_ok (h : TxHash) (e : CacheEntry) : Prop :=
  wf_tx_hash (entry_context e) = h ∧
  NoDup (wf_key_images (entry_context e)) ∧ NoDup (wf_output_public_keys (entry_context e)).

(** An insertion finds the entry, fails, or adds one. *)
Lemma insert_tx_cases ledger self c r self' :
  issued (tm_enclave self) c → insert_tx ledger self c = Done (r, self') →
  (∃ e, cache self !! tc_tx_hash c = Some e ∧ r = Ok (wf_tx_hash (entry_context e)) ∧ self' = self) ∨
  (cache self !! tc_tx_hash c = None ∧ is_ok r = false ∧ cache self' = cache self) ∨
  (cache self !! tc_tx_hash c = None ∧ r = Ok (tc_tx_hash c) ∧
   ∃ e, entry_ok (tc_tx_hash c) e ∧ cache self' = <[ tc_tx_hash c := e ]> (cache self)).
Proof.
  intros Hi. unfold insert_tx. destruct (cache self !! tc_tx_hash c) as [e|] eqn:Ec.
  { intros [= <- <-]. left. by exists e. }
  intros (rs & Ew & Hr)%exec_bind_Done. destruct rs as [r1 self1]. unfold is_well_formed in Ew.
  apply exec_bind_Done in Ew as (rw & _ & Ew). destruct rw as [[i ps]|err].
  2:{ injection Ew as <- <-. injection Hr as <- <-. right; left. done. }
  apply exec_bind_Done in Ew as ([[[x w]|err] enclave'] & Et & Ew).
  2:{ injection Ew as <- <-. injection Hr as <- <-. right; left. done. }
  injection Ew as <- <-. injection Hr as <- <-. right; right. split_and!; [done..|].
  eexists. split; [|done]. by eapply well_formed_context.
Qed.

Lemma remove_expired_lookup self block_index h :
  (h ∈ (remove_expired self block_index).1 ↔
     ∃ e, cache self !! h = Some e ∧ wf_tombstone_block (entry_context e) <= block_index) ∧
  cache (remove_expired self block_index).2 !! h =
    if decide (h ∈ (remove_expired self block_index).1) then None else cache self !! h.
Proof.
  unfold remove_expired. cbn [fst snd cache].
  assert (h ∈ dom (filter (λ e, expired block_index e.2) (cache self)) ↔
    ∃ e, cache self !! h = Some e ∧ expired block_index e) as Hiff.
  { rewrite elem_of_dom. split.
    - intros [e He]. apply map_lookup_filter_Some in He as [??]. by exists e.
    - intros (e & ? & ?). exists e. by apply map_lookup_filter_Some. }
  split; [done|]. case_decide as Hin.
  - apply Hiff in Hin as (e & He & Hx). apply map_lookup_filter_None. right. intros e' He' Hn.
    simpl in Hn. by simplify_eq.
  - destruct (cache self !! h) as [e|] eqn:Ec.
    + apply map_lookup_filter_Some. split; [done|]. intros Hx. apply Hin, Hiff. by exists e.
    + apply map_lookup_filter_None. by left.
Qed.

Lemma manager_run_entries self : manager_run self → ∀ h e, cache self !! h = Some e → entry_ok h e.
Proof.
  induction 1 as [enclave|self ledger c r self' _ IH Hi Hins|self block_index _ IH|self enclave _ IH].
  - intros h e. cbn. by rewrite lookup_empty.
  - destruct (insert_tx_cases _ _ _ _ _ Hi Hins) as [(e & _ & _ & ->)|[(_ & _ & ->)|(_ & _ & e & He & ->)]];
      [done..|]. intros h e' [[<- <-]|[_ ?]]%lookup_insert_Some; auto.
  - intros h e. rewrite (proj2 (remove_expired_lookup self block_index h)). case_decide; [done|apply IH].
  - apply IH.
Qed.

(** The cache is sound.  In every reachable manager an entry is the one
    of its hash and repeats no key.  An insertion that succeeds returns the
    transaction's hash, which is cached then, one that fails changes nothing, and
    neither disturbs another entry.  [remove_expired] removes exactly the entries
    whose tombstone block has come, and reports their hashes. *)
Theorem tx_cache_sound self :
  manager_run self →
  (∀ h e, cache self !! h = Some e → entry_ok h e) ∧
  (∀ ledger c r self', issued (tm_enclave self) c → insert_tx ledger self c = Done (r, self') →
     match r with
     | Ok h => h = tc_tx_hash c ∧ contains self' h = true
     | Err _ => cache self' = cache self
     end ∧ ∀ h e, cache self !! h = Some e → cache self' !! h = Some e) ∧
  (∀ block_index h,
     (h ∈ (remove_expired self block_index).1 ↔
        ∃ e, cache self !! h = Some e ∧ wf_tombstone_block (entry_context e) <= block_index) ∧
     cache (remove_expired self block_index).2 !! h =
       if decide (h ∈ (remove_expired self block_index).1) then None else cache self !! h).
Proof.
  intros Hrun. pose proof (manager_run_entries _ Hrun) as Hinv.
  split; [done|]. split; [|intros; apply remove_expired_lookup].
  intros ledger c r self' Hi Hins. unfold contains.
  destruct (insert_tx_cases _ _ _ _ _ Hi Hins)
    as [(e & He & -> & ->)|[(_ & Hr & ->)|(Hn & -> & e & He & ->)]].
  - destruct (Hinv _ _ He) as [-> _]. split; [|done]. split; [done|]. apply bool_decide_true. by exists e.
  - by destruct r.
  - split; [split; [done|]|].
    + apply bool_decide_true. rewrite lookup_insert_eq. by eexists.
    + intros h e' Hh. rewrite lookup_insert_ne; [done|]. congruence.
Qed.
End cache.

(** *** The choice against the ledger *)

Section hashes.
Context `{X : TxCrypto} {E : Type} (self : TxManagerImpl E).
Hypothesis entries : ∀ h e, cache self !! h = Some e → wf_tx_hash (entry_context e) = h.

(** The hashes of cached contexts lead back to these contexts. *)
Lemma contexts_of_hashes cs :
  (∀ c, c ∈ cs → ∃ h e, cache self !! h = Some e ∧ c = entry_context e) →
  contexts_of self (wf_tx_hash <$> cs) = cs.
Proof.
  unfold contexts_of. induction cs as [|c cs IH]; intros Hc; [done|]. rewrite fmap_cons. simpl.
  destruct (Hc c) as (h & e & He & ->); [by left|]. rewrite (entries _ _ He), He. simpl. f_equal.
  apply IH. intros c' Hc'. apply Hc. by right.
Qed.

Lemma hashes_of_contexts hs :
  (∀ h, h ∈ hs → is_Some (cache self !! h)) → wf_tx_hash <$> contexts_of self hs = hs.
Proof.
  unfold contexts_of. induction hs as [|h hs IH]; intros Hc; [done|]. simpl.
  destruct (Hc h) as [e He]; [by left|]. rewrite He. simpl. rewrite (entries _ _ He). f_equal.
  apply IH. intros h' Hh'. apply Hc. by right.
Qed.

(** What [combine] returns are hashes asked for, each once, and their contexts
    are those of the selection. *)
Lemma combine_hashes sel hs :
  (∀ h, h ∈ hs → is_Some (cache self !! h)) → sel `sublist_of` sort (cached_contexts self hs) →
  contexts_of self (wf_tx_hash <$> sel) = sel ∧ NoDup (wf_tx_hash <$> sel) ∧ wf_tx_hash <$> sel ⊆ hs.
Proof.
  intros Hc Hs.
  assert (∀ c, c ∈ sel → ∃ h e, h ∈ hs ∧ cache self !! h = Some e ∧ c = entry_context e) as Hsel.
  { intros c Hin. apply elem_of_cached_contexts. by apply (elem_of_sublist _ _ _ Hin), elem_of_sort_by in Hs. }
  split_and!.
  - apply contexts_of_hashes. intros c (h & e & _ & ? & ?)%Hsel. by exists h, e.
  - eapply sublist_NoDup; [|by apply fmap_sublist]. unfold sort. rewrite sort_by_perm.
    unfold cached_contexts. rewrite hashes_of_contexts; [apply NoDup_elements|].
    intros h Hh%elem_of_elements%elem_of_list_to_set. auto.
  - intros h (c & -> & Hin)%list_elem_of_fmap. apply Hsel in Hin as (h & e & Hh & He & ->).
    by rewrite (entries _ _ He).
Qed.
End hashes.

Section database.
Context {T : Type} `{Transaction T} `{!TransactionLaws T} `{Commit T} `{D : Digests} `{C : TxOutCodec}.
Context `{X : TxCrypto} `{V : Verifier Ed25519Public Ed25519Signature} `{DG : MintDigests} `{MC : MintCodec}.
Context {Sig Meta : Type} `{LC : LedgerCodec Sig Meta} `{BD : BlockDigests}.
Context {E PeerSession EnclaveMessage : Type} `{CE : !ConsensusEnclave E PeerSession EnclaveMessage}.
Implicit Types (self : TxManagerImpl E) (chain : list (BlockData Sig Meta)).

(** As for the cache. *)
Variable issued : E → TxContext → Prop.
Hypothesis well_formed_context : ∀ enclave c block_index ps x w enclave',
  issued enclave c →
  tx_is_well_formed enclave (locally_encrypted_tx c) block_index ps = Done (Ok (x, w), enclave') →
  wf_tx_hash w = tc_tx_hash c ∧ NoDup (wf_key_images w) ∧ NoDup (wf_output_public_keys w).

(** C34: the transactions chosen for a block can go into one.  Take a manager
    reached by insertions and removals, whose enclave finds a transaction well
    formed only under its own hash and without repeated keys, and hashes that
    each pass validation against a ledger that holds a chain.  The list [combine]
    returns has no hash twice and only hashes asked for, at most the number a
    block holds.  The cached contexts of the hashes it returns, one for each and
    in the order of priority, together spend no key image twice and none that the
    chain has spent, and create no output key twice and none that is in the
    chain.  A hash is left out only when the block is full or its cached context
    shares a key image or an output key with one chosen. *)
Theorem combined_txs_safe (db : LedgerDB) t chain self (HI : HashIter) hs l :
  ledger_ok db t chain → manager_run (LR:=LedgerDB_reads db) issued self →
  (∀ h, h ∈ hs → validate_tx (LR:=LedgerDB_reads db) t self h = Done (Ok tt)) →
  combine_txs self hs = Ok l →
  let chosen := contexts_of self l in
  l ⊆ hs ∧ NoDup l ∧ (length l <= MAX_TRANSACTIONS_PER_BLOCK)%nat ∧
  wf_tx_hash <$> chosen = l ∧ chosen `sublist_of` sort (cached_contexts self hs) ∧
  NoDup (chosen ≫= wf_key_images) ∧ (∀ k, k ∈ chosen ≫= wf_key_images → unspent chain k) ∧
  NoDup (chosen ≫= wf_output_public_keys) ∧ (∀ k, k ∈ chosen ≫= wf_output_public_keys → fresh_key chain k) ∧
  ∀ h e, h ∈ hs → cache self !! h = Some e →
    h ∈ l ∨ length l = MAX_TRANSACTIONS_PER_BLOCK ∨ clashes (∅, ∅) chosen (entry_context e).
Proof.
  intros Hok Hrun Hval Hcomb.
  pose proof (manager_run_entries (LR:=LedgerDB_reads db) issued well_formed_context self Hrun) as Hent.
  assert (∀ h, h ∈ hs → is_Some (cache self !! h)) as Hc.
  { intros h Hh. specialize (Hval h Hh). unfold validate_tx in Hval. by destruct (cache self !! h). }
  rewrite (combine_txs_eq self hs HI hs Hc ltac:(done)) in Hcomb. injection Hcomb as <-.
  destruct (combine_loop_spec MAX_TRANSACTIONS_PER_BLOCK (sort (cached_contexts self hs)) 0 (∅, ∅))
    as (Hs & Hlen & Hk & Ho & _ & Hm).
  unfold ui_combine. set (sel := combine_loop _ _ _ _) in *.
  destruct (combine_hashes self (λ h e He, proj1 (Hent h e He)) sel hs Hc Hs) as (Hch & Hnd & Hsub).
  cbv zeta. rewrite Hch, length_fmap. rewrite Nat.sub_0_r in Hlen.
  assert (∀ c, c ∈ sel → NoDup (wf_key_images c) ∧ NoDup (wf_output_public_keys c) ∧
    is_valid (LR:=LedgerDB_reads db) t c = Done (Ok tt)) as Hsel.
  { intros c Hin. apply (elem_of_sublist _ _ _ Hin), elem_of_sort_by, elem_of_cached_contexts in Hs
      as (h & e & Hh & He & ->). specialize (Hval h Hh). unfold validate_tx in Hval. rewrite He in Hval.
    apply emap_err_Ok in Hval. by destruct (Hent h e He) as (_ & ? & ?). }
  split_and!; [done..| | | | |].
  - apply disjoint_keys_NoDup; [done|]. by intros c (? & _)%Hsel.
  - intros k (c & Hkc & (_ & _ & Hv)%Hsel)%list_elem_of_bind.
    apply (is_valid_Ok db _ chain _ Hok) in Hv as (_ & Hki & _). by apply Hki.
  - apply disjoint_keys_NoDup; [done|]. by intros c (_ & ? & _)%Hsel.
  - intros k (c & Hkc & (_ & _ & Hv)%Hsel)%list_elem_of_bind.
    apply (is_valid_Ok db _ chain _ Hok) in Hv as (_ & _ & Hko). by apply Hko.
  - intros h e Hh He. destruct (Hm (entry_context e)) as [Hin|[Hf|Hx]]; [|left|right; left; lia|by auto].
    + apply elem_of_sort_by, elem_of_cached_contexts. by exists h, e.
    + rewrite <-(proj1 (Hent h e He)). by apply list_elem_of_fmap_2.
Qed.
End database.

(** *** Witnesses *)

#[local] Existing Instance MembershipProps.toy_digests.
#[local] Existing Instance StoreProps.toy_codec.
#[local] Existing Instance MintStoreProps.toy_ed25519.
#[local] Existing Instance MintStoreProps.toy_mint_digests.
#[local] Existing Instance MintStoreProps.toy_mint_codec.
#[local] Existing Instance ValidationProps.toy_tx_crypto.
#[local] Existing Instance LedgerAcceptProps.toy_ledger_codec.
#[local] Existing Instance LedgerAcceptProps.toy_block_digests.
#[local] Existing Instance LedgerAcceptProps.map_commit.
#[local] Existing Instance elements_iter.

(** Everything about a transaction is its first byte. *)
Definition ex_fill (k : byte) : bytes32 := vreplicate 32 k.
Definition ex_context (k : byte) : WellFormedTxContext :=
  mkWellFormedTxContext (Byte.to_N k) (ex_fill k) 10 [ex_fill k] [] [ex_fill k].

#[local] Instance toy_enclave : ConsensusEnclave unit unit unit := {|
  tx_is_well_formed _ tx _ _ :=
    Done (match tx with [] => Err NotInitialized | k :: _ => Ok (tx, ex_context k) end, tt);
  txs_for_peer _ _ _ _ := Done (Ok tt, tt)
|}.

Definition ex_issued (enclave : unit) (c : TxContext) : Prop :=
  match locally_encrypted_tx c with [] => True | k :: _ => tc_tx_hash c = ex_fill k end.

Lemma ex_issued_context : ∀ (enclave : unit) c (block_index : N) (ps : list TxOutMembershipProof) x w enclave',
  ex_issued enclave c →
  tx_is_well_formed enclave (locally_encrypted_tx c) block_index ps = Done (Ok (x, w), enclave') →
  wf_tx_hash w = tc_tx_hash c ∧ NoDup (wf_key_images w) ∧ NoDup (wf_output_public_keys w).
Proof.
  intros enclave c bi ps x w enclave'. unfold ex_issued. simpl.
  destruct (locally_encrypted_tx c) as [|k l]; intros Hi [=]. subst. by split_and!; [|apply NoDup_singleton..].
Qed.

Definition ex_tx_context (k : byte) : TxContext := mkTxContext [k] (ex_fill k) [] [ex_fill k] [ex_fill k].
Definition ex_entry (k : byte) : CacheEntry := mkCacheEntry [k] (ex_context k).
Definition ex_manager (l : list byte) : TxManagerImpl unit :=
  mkTxManagerImpl tt (list_to_map ((λ k, (ex_fill k, ex_entry k)) <$> l)).
#[local] Instance ex_reads : LedgerReads map_txn := LedgerDB_reads LedgerAcceptProps.ex_ledger.

Lemma tx_cache_sound_witness :
  ∃ self, insert_tx LedgerAcceptProps.ex_env (TxManagerImpl_new tt) (ex_tx_context (u8 7)) =
            Done (Ok (ex_fill (u8 7)), self) ∧
    contains self (ex_fill (u8 7)) = true ∧
    ∀ h e, cache self !! h = Some e → entry_ok h e.
Proof.
  assert (insert_tx LedgerAcceptProps.ex_env (TxManagerImpl_new tt) (ex_tx_context (u8 7)) =
    Done (Ok (ex_fill (u8 7)), ex_manager [u8 7])) as E by reflexivity.
  assert (manager_run ex_issued (TxManagerImpl_new tt)) as Hnew by constructor.
  assert (manager_run ex_issued (ex_manager [u8 7])) as Hrun
    by (by eapply (run_insert ex_issued (TxManagerImpl_new tt)); [..|exact E]).
  exists (ex_manager [u8 7]). split; [exact E|].
  destruct (tx_cache_sound ex_issued ex_issued_context (TxManagerImpl_new tt) Hnew) as (_ & Hins & _).
  destruct (tx_cache_sound ex_issued ex_issued_context (ex_manager [u8 7]) Hrun) as (Hinv & _ & _).
  split; [|exact Hinv].
  destruct (Hins LedgerAcceptProps.ex_env (ex_tx_context (u8 7)) _ _ eq_refl E) as [[_ Hc] _]. exact Hc.
Defined.

(** Two insertions. *)
Lemma ex_manager_run : manager_run ex_issued (ex_manager [u8 7; u8 9]).
Proof.
  assert (manager_run ex_issued (ex_manager [u8 9])) as Hrun.
  { eapply (run_insert ex_issued (TxManagerImpl_new tt) LedgerAcceptProps.ex_env (ex_tx_context (u8 9)));
      [constructor|reflexivity|vm_compute; reflexivity]. }
  eapply (run_insert ex_issued _ LedgerAcceptProps.ex_env (ex_tx_context (u8 7))); [exact Hrun|reflexivity|].
  vm_compute. reflexivity.
Qed.

Lemma combined_txs_safe_witness :
  combine_txs (ex_manager [u8 7; u8 9]) [ex_fill (u8 7); ex_fill (u8 9)] = Ok [ex_fill (u8 9); ex_fill (u8 7)] ∧
  contexts_of (ex_manager [u8 7; u8 9]) [ex_fill (u8 9); ex_fill (u8 7)] = [ex_context (u8 9); ex_context (u8 7)] ∧
  NoDup ([ex_context (u8 9); ex_context (u8 7)] ≫= wf_key_images) ∧
  NoDup ([ex_context (u8 9); ex_context (u8 7)] ≫= wf_output_public_keys).
Proof.
  assert (combine_txs (ex_manager [u8 7; u8 9]) [ex_fill (u8 7); ex_fill (u8 9)] =
    Ok [ex_fill (u8 9); ex_fill (u8 7)]) as Ec by (vm_compute; reflexivity).
  assert (contexts_of (ex_manager [u8 7; u8 9]) [ex_fill (u8 9); ex_fill (u8 7)] =
    [ex_context (u8 9); ex_context (u8 7)]) as Ectx by (vm_compute; reflexivity).
  split; [exact Ec|]. split; [exact Ectx|]. rewrite <-Ectx.
  destruct (combined_txs_safe (Sig:=unit) (Meta:=unit) ex_issued ex_issued_context LedgerAcceptProps.ex_ledger
    LedgerAcceptProps.ex_env [] (ex_manager [u8 7; u8 9]) elements_iter [ex_fill (u8 7); ex_fill (u8 9)]
    [ex_fill (u8 9); ex_fill (u8 7)]) as (_ & _ & _ & _ & _ & Hk & _ & Ho & _).
  - exact LedgerAcceptProps.ex_env_ok.
  - exact ex_manager_run.
  - intros h [->| ->%list_elem_of_singleton]%elem_of_cons; vm_compute; reflexivity.
  - exact Ec.
  - split; [exact Hk|exact Ho].
Defined.
End TxManagerProps.
