(* ===== verification/ConsensusMsg.v ===== *)
(** * Consensus values and messages

    [peers/src/consensus_msg.rs]: the values the nodes agree on, and the signed
    messages they exchange.  [consensus/service/src/byzantine_ledger/mod.rs]: the
    validation and combination callbacks that tie the SCP node to the managers of
    transactions.  The transcript digest of a message and the signing key are
    third-party code: the class [MsgCrypto]. *)

From stdpp Require Import vector strings.
From S2P Require Import Prelude Ord QuorumSet ScpMsg Bytes Lmdb TxOut Membership TxOutStore BlockVersion MaskedAmount Tx TxValidation Multisig Mint MintOrd MintStore Block LedgerDb LedgerApi MintTxManager TxManager.

Open Scope N_scope.

(** ** Values *)

Inductive ConsensusValue :=
| CvTxHash (tx_hash : TxHash)
| CvMintConfigTx (tx : MintConfigTx)
| CvMintTx (tx : MintTx).

(** [derive(Ord)] of an enumeration: by variant, then by field. *)
Definition value_key (v : ConsensusValue) : N * (option TxHash * (option MintConfigTx * option MintTx)) :=
  match v with
  | CvTxHash h => (0, (Some h, (None, None)))
  | CvMintConfigTx t => (1, (None, (Some t, None)))
  | CvMintTx t => (2, (None, (None, Some t)))
  end.

#[export] Instance value_key_inj : Inj (=) (=) value_key.
Proof. intros [] [] E; simpl in E; by simplify_eq. Qed.

#[export] Instance ConsensusValue_ord : Ord ConsensusValue := λ a b, cmp (value_key a) (value_key b).
#[export] Instance ConsensusValue_total_ord : TotalOrd ConsensusValue.
Proof. apply (total_ord_key value_key). Qed.

#[export] Instance ConsensusValue_eq_dec : EqDecision ConsensusValue.
Proof. solve_decision. Defined.
#[export] Instance ConsensusValue_countable : Countable ConsensusValue.
Proof.
  refine (inj_countable' (λ v, match v with
    | CvTxHash h => inl h | CvMintConfigTx t => inr (inl t) | CvMintTx t => inr (inr t) end)
    (λ x, match x with
    | inl h => CvTxHash h | inr (inl t) => CvMintConfigTx t | inr (inr t) => CvMintTx t end) _).
  by intros [].
Defined.

(** The values of each kind, in order: the loop that splits a list of values. *)
Definition tx_hashes_of (vs : list ConsensusValue) : list TxHash :=
  omap (λ v, match v with CvTxHash h => Some h | _ => None end) vs.
Definition mint_config_txs_of (vs : list ConsensusValue) : list MintConfigTx :=
  omap (λ v, match v with CvMintConfigTx t => Some t | _ => None end) vs.
Definition mint_txs_of (vs : list ConsensusValue) : list MintTx :=
  omap (λ v, match v with CvMintTx t => Some t | _ => None end) vs.

(** ** Messages *)

Section messages.
Context {ID : Type} `{Countable ID}.

Record ConsensusMsg := mkConsensusMsg {
  scp_msg : Msg ConsensusValue ID;
  prev_block_id : BlockID;
  cm_signature : Ed25519Signature
}.

Inductive ConsensusMsgError :=
| ZeroSlot
| LedgerDbError (e : Error)
| CmSerialization
| CmKeyError
| CmSignatureError.

(** The digest of the contents, [Ed25519Pair::try_sign] of it with the key of
    the node, and the public key in the identity of a sender. *)
Class MsgCrypto : Type := {
  msg_digest : Msg ConsensusValue ID → BlockID → bytes;
  try_sign : bytes → result Ed25519Signature unit;
  id_public_key : ID → Ed25519Public
}.

Context `{LR : LedgerReads L} `{MX : MsgCrypto} `{V : Verifier Ed25519Public Ed25519Signature}.

Definition from_scp_msg (ledger : L) (msg : Msg ConsensusValue ID) :
    exec (result ConsensusMsg ConsensusMsgError) :=
  if msg_slot_index msg =? 0 then Done (Err ZeroSlot)
  else
    let^ block := emap_err LedgerDbError (l_get_block ledger (u64_sub (msg_slot_index msg) 1)) in
    let^ signature := Done (map_err (λ _, CmSignatureError) (try_sign (msg_digest msg (id block)))) in
    Done (Ok (mkConsensusMsg msg (id block) signature)).

Definition verify_signature (self : ConsensusMsg) : result unit ConsensusMsgError :=
  if sig_verify (id_public_key (sender_id (scp_msg self)))
       (msg_digest (scp_msg self) (prev_block_id self)) (cm_signature self)
  then Ok tt else Err CmSignatureError.

(** [TryFrom<ConsensusMsg> for VerifiedConsensusMsg]: a verified message is the
    message. *)
Definition try_from (src : ConsensusMsg) : result ConsensusMsg ConsensusMsgError :=
  let? _ := verify_signature src in Ok src.
End messages.

(** ** The callbacks of the SCP node *)

Section callbacks.
Context {L : Type} `{LR : LedgerReads L} `{X : TxCrypto} `{HI : HashIter}.
Context `{V : Verifier Ed25519Public Ed25519Signature} `{DG : MintDigests} {E : Type}.

Inductive UnifiedNodeError :=
| FromTxManager (e : TxManagerError)
| FromMintTxManager (e : MintTxManagerError).

Implicit Types (ledger : L) (txm : TxManagerImpl E) (mtm : MintTxManagerImpl L).

(** The validation callback. *)
Definition validate_value ledger txm mtm (scp_value : ConsensusValue) : exec (result unit UnifiedNodeError) :=
  match scp_value with
  | CvTxHash tx_hash => emap_err FromTxManager (validate_tx ledger txm tx_hash)
  | CvMintConfigTx tx => emap_err FromMintTxManager (mtm_validate_mint_config_tx mtm tx)
  | CvMintTx tx => emap_err FromMintTxManager (mtm_validate_mint_tx mtm tx)
  end.

(** The combine callback. *)
Definition combine_values txm mtm (scp_values : list ConsensusValue) :
    exec (result (list ConsensusValue) UnifiedNodeError) :=
  let^ tx_hashes := Done (map_err FromTxManager (combine_txs txm (tx_hashes_of scp_values))) in
  let^ mint_config_txs := emap_err FromMintTxManager
    (combine_mint_config_txs mtm (mint_config_txs_of scp_values) MAX_MINT_CONFIG_TXS_PER_BLOCK) in
  let^ mint_txs := emap_err FromMintTxManager
    (combine_mint_txs mtm (mint_txs_of scp_values) MAX_MINT_TXS_PER_BLOCK) in
  Done (Ok ((CvTxHash <$> tx_hashes) ++ (CvMintConfigTx <$> mint_config_txs) ++ (CvMintTx <$> mint_txs))).
End callbacks.
