(* ===== verification/ConsensusMsgProps.v ===== *)
(** * Correctness of the callbacks and of signed messages

    The combine callback of the SCP node chooses among the values it is given,
    stays within the limits of a block, and depends on neither the order of the
    values nor that of hash sets, so that nodes with the same ledger combine
    alike.  A message the node signs is one its peers accept. *)

From stdpp Require Import vector strings.
From S2P Require Import Prelude Ord QuorumSet ScpMsg Bytes Lmdb TxOut Membership TxOutStore BlockVersion MaskedAmount Tx TxValidation Multisig Mint MintOrd MintStore MintStoreProps Block LedgerDb LedgerApi MintTxManager MintTxManagerProps TxManager TxManagerProps ConsensusMsg.

Open Scope N_scope.

Lemma elem_of_tx_hashes_of h vs : h ∈ tx_hashes_of vs ↔ CvTxHash h ∈ vs.
Proof. unfold tx_hashes_of. rewrite list_elem_of_omap. split; [intros ([] & ? & [=]); by subst|by exists (CvTxHash h)]. Qed.
Lemma elem_of_mint_config_txs_of t vs : t ∈ mint_config_txs_of vs ↔ CvMintConfigTx t ∈ vs.
Proof.
  unfold mint_config_txs_of. rewrite list_elem_of_omap.
  split; [intros ([] & ? & [=]); by subst|by exists (CvMintConfigTx t)].
Qed.
Lemma elem_of_mint_txs_of t vs : t ∈ mint_txs_of vs ↔ CvMintTx t ∈ vs.
Proof. unfold mint_txs_of. rewrite list_elem_of_omap. split; [intros ([] & ? & [=]); by subst|by exists (CvMintTx t)]. Qed.

(** The values of a combination, split again. *)
Lemma split_values hs cs ms :
  let r := (CvTxHash <$> hs) ++ (CvMintConfigTx <$> cs) ++ (CvMintTx <$> ms) in
  tx_hashes_of r = hs ∧ mint_config_txs_of r = cs ∧ mint_txs_of r = ms.
Proof.
  assert (∀ {A B} (f : A → ConsensusValue) (g : ConsensusValue → option B) (h : A → option B) (l : list A),
    (∀ a, g (f a) = h a) → omap g (f <$> l) = omap h l) as Hf.
  { intros A B f g h l Hg. induction l as [|a l IH]; [done|]. simpl. rewrite Hg. destruct (h a); [f_equal|]; exact IH. }
  assert (∀ {A} (l : list A), omap Some l = l) as Hs by (intros A l; induction l; simpl; by f_equal).
  assert (∀ {A B} (l : list A), omap (λ _, @None B) l = []) as Hn by (intros A B l; by induction l).
  intros r. unfold r, tx_hashes_of, mint_config_txs_of, mint_txs_of.
  rewrite !omap_app. split_and!; rewrite ?(Hf _ _ _ _ Some), ?(Hf _ _ _ _ (λ _, None)), ?Hs, ?Hn, ?app_nil_r by done; done.
Qed.

Module ConsensusMsgProps.
Section callbacks.
Context {L : Type} `{LR : LedgerReads L} `{X : TxCrypto}.
Context `{V : Verifier Ed25519Public Ed25519Signature} `{DG : MintDigests} {E : Type}.
Implicit Types (txm : TxManagerImpl E) (mtm : MintTxManagerImpl L) (vs : list ConsensusValue).

(** The hashes [combine] of the transaction manager chooses. *)
Lemma chosen_hashes txm hs h :
  (∀ h e, cache txm !! h = Some e → wf_tx_hash (entry_context e) = h) →
  h ∈ ui_combine (TxManagerProps.cached_contexts txm hs) MAX_TRANSACTIONS_PER_BLOCK → h ∈ hs.
Proof.
  intros Hc. unfold ui_combine. intros (c & -> & Hin)%list_elem_of_fmap.
  destruct (combine_loop_spec MAX_TRANSACTIONS_PER_BLOCK (sort (TxManagerProps.cached_contexts txm hs)) 0 (∅, ∅))
    as (Hs & _). apply (elem_of_sublist _ _ _ Hin) in Hs. apply elem_of_sort_by in Hs.
  unfold TxManagerProps.cached_contexts in Hs. apply list_elem_of_omap in Hs as (h & Hh & He).
  apply fmap_Some in He as (e & He & ->). rewrite (Hc h e He). by apply elem_of_elements, elem_of_list_to_set in Hh.
Qed.

Lemma chosen_length txm hs :
  (length (ui_combine (TxManagerProps.cached_contexts txm hs) MAX_TRANSACTIONS_PER_BLOCK) <=
   MAX_TRANSACTIONS_PER_BLOCK)%nat.
Proof.
  unfold ui_combine. rewrite length_fmap.
  destruct (combine_loop_spec MAX_TRANSACTIONS_PER_BLOCK (sort (TxManagerProps.cached_contexts txm hs)) 0 (∅, ∅))
    as (_ & Hl & _). by rewrite Nat.sub_0_r in Hl.
Qed.

(** The combine callback, when every transaction it is given is cached
    under its hash, returns a selection of the values it is given that fits in a
    block; nodes that agree on the ledger and on the values return the same one,
    whatever the order of the values and of their hash sets.  A transaction that
    is not cached makes it fail. *)
Theorem combine_values_correct txm mtm vs :
  (∀ h e, cache txm !! h = Some e → wf_tx_hash (entry_context e) = h) →
  (∀ tx, CvMintTx tx ∈ vs → ∃ r, l_get_active_mint_config_for_mint_tx (mtm_ledger_db mtm) tx = Done r) →
  ((∀ h, CvTxHash h ∈ vs → is_Some (cache txm !! h)) →
   ∃ r, (∀ (HI : HashIter) vs', vs' ≡ₚ vs → combine_values txm mtm vs' = Done (Ok r)) ∧
     (∀ v, v ∈ r → v ∈ vs) ∧
     (length (tx_hashes_of r) <= MAX_TRANSACTIONS_PER_BLOCK)%nat ∧
     (length (mint_config_txs_of r) <= MAX_MINT_CONFIG_TXS_PER_BLOCK)%nat ∧
     (length (mint_txs_of r) <= MAX_MINT_TXS_PER_BLOCK)%nat) ∧
  (∀ (HI : HashIter) h, CvTxHash h ∈ vs → cache txm !! h = None →
   ∃ e, combine_values txm mtm vs = Done (Err e)).
Proof.
  intros Hkeys Hmint. split.
  - intros Hc. set (hs := tx_hashes_of vs).
    set (sel := ui_combine (TxManagerProps.cached_contexts txm hs) MAX_TRANSACTIONS_PER_BLOCK).
    destruct (combine_config_spec mtm (mint_config_txs_of vs) MAX_MINT_CONFIG_TXS_PER_BLOCK)
      as (cs & Ecs & Hcs & Hlcs & _).
    destruct (combine_mints_spec mtm (mint_txs_of vs) MAX_MINT_TXS_PER_BLOCK) as (ms & ? & Ems & Hms & Hlms & _).
    { intros tx Htx. by apply Hmint, elem_of_mint_txs_of. }
    exists ((CvTxHash <$> sel) ++ (CvMintConfigTx <$> cs) ++ (CvMintTx <$> ms)).
    destruct (split_values sel cs ms) as (-> & -> & ->). split_and!; [| |exact (chosen_length txm hs)|done|done].
    + intros HI vs' Hp. unfold combine_values.
      rewrite (TxManagerProps.combine_txs_eq txm hs).
      2:{ intros h Hh. by apply Hc, elem_of_tx_hashes_of. }
      2:{ intros h. unfold hs. rewrite !elem_of_tx_hashes_of. by rewrite Hp. }
      rewrite (combine_config_perm mtm (mint_config_txs_of vs)) by by apply omap_Permutation.
      rewrite (combine_mints_perm mtm (mint_txs_of vs)) by by apply omap_Permutation.
      by rewrite Ecs, Ems.
    + intros v. rewrite !elem_of_app, !list_elem_of_fmap.
      intros [(h & -> & Hh%(chosen_hashes _ _ _ Hkeys))|[(t & -> & Ht)|(t & -> & Ht)]]; [by apply elem_of_tx_hashes_of|..].
      * apply (elem_of_sublist _ _ _ Ht), elem_of_sort_by in Hcs. by apply elem_of_mint_config_txs_of.
      * apply (elem_of_sublist _ _ _ Ht), elem_of_sort_by in Hms. by apply elem_of_mint_txs_of.
  - intros HI h Hh Hn. unfold combine_values, combine_txs.
    destruct (get_cache_entries txm (hs_iter (list_to_set (tx_hashes_of vs)))) as [es|e] eqn:Ee; simpl; [|by eexists].
    exfalso. eapply get_cache_entries_missing; [|exact Hn|exact Ee]. by apply elem_of_tx_hashes_of.
Qed.
End callbacks.

Section messages.
Context {ID : Type} `{Countable ID} {L : Type} `{LR : LedgerReads L} `{MX : !MsgCrypto (ID:=ID)}.
Context `{V : Verifier Ed25519Public Ed25519Signature}.
(** The key pair of the node: its public key, in its identity, verifies what it signs. *)
Context (local : ID) (sign_verifies : ∀ d s, try_sign d = Ok s → sig_verify (id_public_key local) d s = true).

(** A message that the node signs is one its peers accept: its signature
    verifies, it carries the SCP message, and it names the block before the slot
    in the ledger of the node.  No message is made for slot 0. *)
Theorem signed_msg_verifies ledger (msg : Msg ConsensusValue ID) m :
  from_scp_msg ledger msg = Done (Ok m) →
  msg_slot_index msg ≠ 0 ∧ scp_msg m = msg ∧
  (∃ block, l_get_block ledger (u64_sub (msg_slot_index msg) 1) = Done (Ok block) ∧ prev_block_id m = id block) ∧
  (sender_id msg = local → try_from m = Ok m).
Proof.
  unfold from_scp_msg. destruct (N.eqb_spec (msg_slot_index msg) 0) as [|Hz]; [done|].
  intros (block & Hb%emap_err_Ok & Hr)%ebind_Ok. apply ebind_Ok in Hr as (s & Hs & [= <-]).
  split_and!; [done|done|by exists block|]. intros Hl. unfold try_from, verify_signature. simpl.
  destruct (try_sign _) as [s'|] eqn:Es; [|done]. injection Hs as ->. by rewrite Hl, (sign_verifies _ _ Es).
Qed.
End messages.

(** ** Witnesses *)

#[local] Existing Instance MintStoreProps.toy_ed25519.
#[local] Existing Instance MintStoreProps.toy_mint_digests.
#[local] Existing Instance ValidationProps.toy_tx_crypto.
#[local] Existing Instance elements_iter.

(** A ledger with one block and no mint configurations. *)
Definition one_block : Block :=
  mkBlock (vreplicate 32 (u8 3)) 0 (vreplicate 32 (u8 0)) 0 0 (mkElement (mkRange 0 0) (vreplicate 32 (u8 0)))
    (vreplicate 32 (u8 0)).
#[local] Instance one_block_reads : LedgerReads unit := {|
  l_num_blocks _ := Done (Ok 1);
  l_get_block _ n := Done (if n =? 0 then Ok one_block else Err NotFound);
  l_contains_key_image _ _ := Done (Ok false);
  l_contains_tx_out_public_key _ _ := Done (Ok false);
  l_get_tx_out_proof_of_memberships _ _ := Done (Ok []);
  l_get_root_tx_out_membership_element _ := Done (Ok (root_element one_block));
  l_check_mint_config_tx_nonce _ _ _ := Done (Ok None);
  l_check_mint_tx_nonce _ _ _ := Done (Ok None);
  l_get_active_mint_configs _ _ := Done (Ok None);
  l_get_active_mint_config_for_mint_tx _ _ := Done (Err NotFound)
|}.

Lemma combine_values_correct_witness :
  ∃ r, combine_values (TxManagerProps.ex_manager [u8 7; u8 9])
         (mkMintTxManagerImpl tt VERSION_MAX (GovernorsMap.mkGovernorsMap ∅))
         [CvTxHash (TxManagerProps.ex_fill (u8 7)); CvTxHash (TxManagerProps.ex_fill (u8 9))] = Done (Ok r) ∧
    ∀ v, v ∈ r → v ∈ [CvTxHash (TxManagerProps.ex_fill (u8 7)); CvTxHash (TxManagerProps.ex_fill (u8 9))].
Proof.
  destruct (combine_values_correct (TxManagerProps.ex_manager [u8 7; u8 9])
    (mkMintTxManagerImpl tt VERSION_MAX (GovernorsMap.mkGovernorsMap ∅))
    [CvTxHash (TxManagerProps.ex_fill (u8 7)); CvTxHash (TxManagerProps.ex_fill (u8 9))]) as [Hok _].
  - intros h e He. apply elem_of_list_to_map_2, list_elem_of_fmap in He as (k & [= -> ->] & _). reflexivity.
  - intros tx _. by eexists.
  - destruct Hok as (r & Hr & Hin & _).
    { intros h [[= ->]|[= ->]%list_elem_of_singleton]%elem_of_cons; by apply (bool_decide_unpack _). }
    exists r. split; [by apply Hr|exact Hin].
Defined.

(** A key signs with its own first byte. *)
#[local] Instance one_key : MsgCrypto (ID:=N) := {|
  msg_digest _ _ := [];
  try_sign _ := Ok (vreplicate 64 (u8 4));
  id_public_key i := vreplicate 32 (u8 i)
|}.

Lemma one_key_verifies d s : try_sign (ID:=N) d = Ok s → sig_verify (id_public_key (ID:=N) 4) d s = true.
Proof. by intros [= <-]. Qed.

Lemma signed_msg_verifies_witness :
  ∃ m, from_scp_msg tt (mkMsg 4 1 (Ctor.new 1 [Node 2]) (Nominate (mkNominate ∅ ∅))) = Done (Ok m) ∧
    try_from m = Ok m.
Proof.
  eexists. split; [reflexivity|].
  by eapply (signed_msg_verifies 4 one_key_verifies tt (mkMsg 4 1 (Ctor.new 1 [Node 2]) (Nominate (mkNominate ∅ ∅)))).
Defined.
End ConsensusMsgProps.
