(* ===== verification/PendingValues.v ===== *)
(** * Pending values

    [consensus/service/src/byzantine_ledger/pending_values.rs]: the values the
    node wants to submit, in the order they came, with the time at which a
    client submitted them.

    The queue and the map hold the same values; the code asserts that they have
    the same length. *)

From S2P Require Import Prelude Ord Bytes TxOut Mint MintOrd ConsensusMsg.

Open Scope N_scope.

Record PendingValues := mkPendingValues {
  pv_values : list ConsensusValue;
  pv_map : gmap ConsensusValue (option N)
}.

Section pending_values.
Implicit Types (self : PendingValues) (value : ConsensusValue).

Definition PendingValues_new : PendingValues := mkPendingValues [] ∅.

(** [assert_eq!(self.pending_values.len(), self.pending_values_map.len())]. *)
Definition same_len self : bool := (length (pv_values self) =? size (pv_map self))%nat.

Definition pv_is_empty self : exec bool :=
  assert! same_len self in Done (bool_decide (pv_values self = [])).

Definition pv_len self : exec nat :=
  assert! same_len self in Done (length (pv_values self)).

(** [push]; [validate] is the validation of the managers, by the kind of the
    value. *)
Definition pv_push {E} (validate : ConsensusValue → exec (result unit E)) value (timestamp : option N) self :
    exec (bool * PendingValues) :=
  match pv_map self !! value with
  | Some _ => Done (false, self)
  | None =>
      let! r := validate value in
      if is_ok r
      then Done (true, mkPendingValues (pv_values self ++ [value]) (<[ value := timestamp ]> (pv_map self)))
      else Done (false, self)
  end.

Definition get_timestamp_for_value self value : option N := mjoin (pv_map self !! value).

(** [HashMap::retain] with a predicate that may panic: the order of its calls
    does not matter, as it changes nothing. *)
Definition retain_map {E} (predicate : ConsensusValue → exec E) (keep : E → bool)
    (m : gmap ConsensusValue (option N)) : exec (gmap ConsensusValue (option N)) :=
  foldr (λ kv acc,
    let! m := acc in let! b := predicate kv.1 in
    Done (if keep b then <[ kv.1 := kv.2 ]> m else m)) (Done ∅) (map_to_list m).

(** [retain]. *)
Definition pv_retain_with {E} (predicate : ConsensusValue → exec E) (keep : E → bool) self : exec PendingValues :=
  let! m := retain_map predicate keep (pv_map self) in
  let self := mkPendingValues (filter (λ v, is_Some (m !! v)) (pv_values self)) m in
  assert! same_len self in Done self.

Definition pv_retain (predicate : ConsensusValue → bool) : PendingValues → exec PendingValues :=
  pv_retain_with (λ v, Done (predicate v)) (λ b, b).

(** [clear_invalid_values]. *)
Definition clear_invalid_values {E} (validate : ConsensusValue → exec (result unit E)) :
    PendingValues → exec PendingValues :=
  pv_retain_with validate is_ok.
End pending_values.

(** ** The invariant *)

Record pending_ok (self : PendingValues) : Prop := {
  po_nodup : NoDup (pv_values self);
  po_map : ∀ v, is_Some (pv_map self !! v) ↔ v ∈ pv_values self
}.

Section props.
Implicit Types (self : PendingValues) (value : ConsensusValue).

Lemma pending_ok_len self : pending_ok self → same_len self = true.
Proof.
  intros [Hnd Hm]. apply Nat.eqb_eq. rewrite <-size_dom.
  replace (dom (pv_map self)) with (list_to_set (pv_values self) : gset ConsensusValue).
  - by rewrite size_list_to_set.
  - apply set_eq. intros v. by rewrite elem_of_list_to_set, elem_of_dom, Hm.
Qed.

Lemma pending_ok_new : pending_ok PendingValues_new.
Proof.
  split; [constructor|]. intros v. simpl. rewrite lookup_empty. split; [by intros []|by intros ?%elem_of_nil].
Qed.

Lemma pv_is_empty_ok self :
  pending_ok self → pv_is_empty self = Done (bool_decide (pv_values self = [])).
Proof. intros Hok. unfold pv_is_empty. by rewrite pending_ok_len. Qed.

Lemma pv_push_ok {E} (validate : ConsensusValue → exec (result unit E)) value timestamp self r :
  pending_ok self → validate value = Done r →
  ∃ self', pending_ok self' ∧
    pv_push validate value timestamp self = Done (is_ok r && negb (bool_decide (value ∈ pv_values self)), self') ∧
    pv_values self' =
      pv_values self ++ (if is_ok r && negb (bool_decide (value ∈ pv_values self)) then [value] else []).
Proof.
  intros Hok Hr. unfold pv_push. destruct (pv_map self !! value) as [x|] eqn:Ex.
  - exists self. rewrite (bool_decide_true (value ∈ _)) by (apply (po_map _ Hok); by eexists).
    by rewrite andb_false_r, app_nil_r.
  - assert (value ∉ pv_values self) as Hn.
    { intros Hv%(po_map _ Hok). rewrite Ex in Hv. by destruct Hv. }
    rewrite bool_decide_false, andb_true_r, Hr by done. simpl. destruct (is_ok r).
    + eexists. split; [|split; [reflexivity|done]]. split; cbn [pv_values pv_map].
      * apply NoDup_app. split_and!; [apply Hok| |apply NoDup_singleton].
        by intros v Hv ->%list_elem_of_singleton.
      * intros v. rewrite elem_of_app, list_elem_of_singleton, <-(po_map _ Hok).
        destruct (decide (v = value)) as [->|]; [rewrite lookup_insert_eq|rewrite lookup_insert_ne by done];
          naive_solver.
    + exists self. by rewrite app_nil_r.
Qed.

(** The values kept are those of the queue that satisfy the predicate. *)
Lemma retain_map_spec {E} (predicate : ConsensusValue → exec E) (keep : E → bool) (m : gmap ConsensusValue (option N)) :
  (∀ v, is_Some (m !! v) → ∃ b, predicate v = Done b) →
  ∃ m', retain_map predicate keep m = Done m' ∧
    ∀ v x, m' !! v = Some x ↔ m !! v = Some x ∧ ∃ b, predicate v = Done b ∧ keep b = true.
Proof.
  intros Hp. unfold retain_map.
  assert (∀ l : list (ConsensusValue * option N), NoDup l.*1 → (∀ kv, kv ∈ l → ∃ b, predicate kv.1 = Done b) →
    ∃ m' : gmap ConsensusValue (option N), foldr (λ kv acc, let! m := acc in let! b := predicate kv.1 in
             Done (if keep b then <[ kv.1 := kv.2 ]> m else m)) (Done ∅) l = Done m' ∧
    ∀ v x, m' !! v = Some x ↔ (v, x) ∈ l ∧ ∃ b, predicate v = Done b ∧ keep b = true) as Hl.
  { induction l as [|[k y] l IH]; intros Hnd Hpl; simpl.
    { exists ∅. split; [done|]. intros v x. rewrite lookup_empty. split; [done|]. by intros [?%elem_of_nil _]. }
    apply NoDup_cons in Hnd as [Hk Hnd]. destruct IH as (m' & -> & Hm'); [done|intros; apply Hpl; by right|].
    simpl. destruct (Hpl (k, y)) as [b Hb]; [by left|]. simpl in Hb. rewrite Hb. simpl.
    eexists. split; [done|]. intros v x. rewrite elem_of_cons.
    assert (∀ z, (k, z) ∉ l) as Hkl.
    { intros z Hz. apply Hk. by apply (list_elem_of_fmap_2 fst) in Hz. }
    destruct (keep b) eqn:Eb; [destruct (decide (v = k)) as [->|Hne]|].
    - rewrite lookup_insert_eq. split; [intros [= ->]; split; [by left|by exists b]|].
      intros [[[= ->]|Hx] _]; [done|]. by apply Hkl in Hx.
    - rewrite lookup_insert_ne, Hm' by done. naive_solver.
    - rewrite Hm'. split; [naive_solver|]. intros [[[= -> ->]|Hx] (b' & Hb' & Hkb)]; [congruence|].
      split; [done|]. by exists b'. }
  destruct (Hl (map_to_list m)) as (m' & Hm' & Hspec).
  - apply NoDup_fst_map_to_list.
  - intros [k y] Hin%elem_of_map_to_list. apply Hp. by eexists.
  - exists m'. split; [done|]. intros v x. by rewrite Hspec, elem_of_map_to_list.
Qed.

Lemma pv_retain_ok {E} (predicate : ConsensusValue → exec E) (keep : E → bool) self :
  pending_ok self → (∀ v, v ∈ pv_values self → ∃ b, predicate v = Done b) →
  ∃ self', pv_retain_with predicate keep self = Done self' ∧ pending_ok self' ∧
    pv_values self' `sublist_of` pv_values self ∧
    ∀ v, v ∈ pv_values self' ↔ v ∈ pv_values self ∧ ∃ b, predicate v = Done b ∧ keep b = true.
Proof.
  intros Hok Hp. unfold pv_retain_with.
  destruct (retain_map_spec predicate keep (pv_map self)) as (m & -> & Hm).
  { intros v Hv. apply Hp, (po_map _ Hok), Hv. }
  simpl. set (self' := mkPendingValues _ m).
  assert (∀ v, is_Some (m !! v) ↔ v ∈ pv_values self ∧ ∃ b, predicate v = Done b ∧ keep b = true) as Hs.
  { intros v. rewrite <-(po_map _ Hok). split.
    - intros [x [Hx Hb]%Hm]. split; [by eexists|done].
    - intros [[x Hx] Hb]. exists x. by apply Hm. }
  assert (pending_ok self') as Hok'.
  { split; simpl; [apply NoDup_filter, Hok|]. intros v. rewrite list_elem_of_filter, Hs. naive_solver. }
  rewrite (pending_ok_len _ Hok'). exists self'. split_and!; [done..|apply sublist_filter|].
  intros v. simpl. rewrite list_elem_of_filter, Hs. naive_solver.
Qed.

(** The same for calls known to return. *)
Lemma pv_push_inv {E} (validate : ConsensusValue → exec (result unit E)) value timestamp self b self' :
  pending_ok self → pv_push validate value timestamp self = Done (b, self') →
  pending_ok self' ∧ pv_values self' = pv_values self ++ (if b : bool then [value] else []).
Proof.
  intros Hok Hp. destruct (validate value) as [r| |] eqn:Ev.
  1:{ destruct (pv_push_ok validate value timestamp self r Hok Ev) as (s & Hs & Ep & El).
      rewrite Hp in Ep. by injection Ep as -> ->. }
  all: unfold pv_push in Hp; destruct (pv_map self !! value); [|by rewrite Ev in Hp];
    injection Hp as <- <-; by rewrite app_nil_r.
Qed.

Lemma retain_map_inv {E} (predicate : ConsensusValue → exec E) keep (m : gmap ConsensusValue (option N)) m' :
  retain_map predicate keep m = Done m' → ∀ v, is_Some (m !! v) → ∃ b, predicate v = Done b.
Proof.
  unfold retain_map. intros Hm v [x Hx%elem_of_map_to_list]. revert m' Hm.
  induction (map_to_list m) as [|kv l IH]; intros m' Hm; [by apply elem_of_nil in Hx|].
  simpl in Hm. apply exec_bind_Done in Hm as (m1 & Hm1 & Hm). apply exec_bind_Done in Hm as (b & Hb & _).
  apply elem_of_cons in Hx as [<-|Hx]; [by exists b|by eapply IH].
Qed.

Lemma pv_retain_inv {E} (predicate : ConsensusValue → exec E) (keep : E → bool) self self' :
  pending_ok self → pv_retain_with predicate keep self = Done self' →
  pending_ok self' ∧ pv_values self' `sublist_of` pv_values self ∧
  ∀ v, v ∈ pv_values self' ↔ v ∈ pv_values self ∧ ∃ b, predicate v = Done b ∧ keep b = true.
Proof.
  intros Hok Hr. destruct (pv_retain_ok predicate keep self Hok) as (s & Es & Hs).
  - intros v Hv. unfold pv_retain_with in Hr. apply exec_bind_Done in Hr as (m & Hm & _).
    eapply retain_map_inv; [exact Hm|]. by apply (po_map _ Hok).
  - rewrite Hr in Es. by injection Es as ->.
Qed.
End props.
