(* ===== verification/NetworkState.v ===== *)
(** * The state of the network, as a node sees it

    [ledger/sync/src/network_state/scp_network_state.rs]: the highest slot each
    peer is known to have externalized, whether the peers that are ahead are
    enough to conclude that the node is behind, and the highest block the network
    agrees on.  The searches are those of SCP, run on made-up messages of the
    peers in question. *)

From stdpp Require Import strings.
From S2P Require Import Prelude Ord QuorumSet ScpMsg Predicates QuorumSearch Multisig.

Open Scope N_scope.

Section network_state.
Context {ID RID : Type} `{Countable ID} `{Countable RID} (as_ref : ID → RID).

Record SCPNetworkState := mkSCPNetworkState {
  local_node_id : ID;
  local_quorum_set : QuorumSet ID;
  id_to_current_slot : gmap ID N
}.
Implicit Types self : SCPNetworkState.

Definition SCPNetworkState_new (node_id : ID) (quorum_set : QuorumSet ID) : SCPNetworkState :=
  mkSCPNetworkState node_id quorum_set ∅.

(** The highest slot index that the message implies its sender externalized. *)
Definition implied_slot {V} `{Countable V} (msg : Msg V ID) : N :=
  match topic msg with
  | Externalize _ => msg_slot_index msg
  | _ => u64_sub (msg_slot_index msg) 1
  end.

(** [push]. *)
Definition ns_push {V} `{Countable V} (msg : Msg V ID) self : SCPNetworkState :=
  let new_slot_index := implied_slot msg in
  let update := match id_to_current_slot self !! sender_id msg with
                | None => true
                | Some i => i <? new_slot_index
                end in
  if update
  then mkSCPNetworkState (local_node_id self) (local_quorum_set self)
         (<[ sender_id msg := new_slot_index ]> (id_to_current_slot self))
  else self.

(** The message made up for a responder. *)
Definition dummy_msg (responder_id : RID) : Msg string RID :=
  mkMsg responder_id 1 Ctor.empty (Externalize (mkExternalize (Ballot_new 1 ["fake"%string]) 1)).

Definition dummy_msgs (responder_ids : gset RID) : gmap RID (Msg string RID) :=
  set_to_map (λ r, (r, dummy_msg r)) responder_ids.

(** [is_blocking_and_quorum]. *)
Definition is_blocking_and_quorum self (responder_ids : gset RID) : exec bool :=
  let msg_map := dummy_msgs responder_ids in
  let quorum_set := to_responder_ids as_ref (local_quorum_set self) in
  let fp := mkFunc (λ msg : Msg string RID, bool_decide (sender_id msg ∈ responder_ids)) in
  let! (node_ids, _) := findBlockingSet quorum_set msg_map fp in
  if bool_decide (node_ids = ∅) then Done false
  else
    let! (node_ids, _) := findQuorum quorum_set (as_ref (local_node_id self)) msg_map fp in
    Done (negb (bool_decide (node_ids = ∅))).

(** The responders of the peers whose slot satisfies a condition. *)
Definition peers_where self (f : N → bool) : gset RID :=
  set_map as_ref (dom (filter (λ e : ID * N, f e.2 = true) (id_to_current_slot self))).

(** [is_behind]. *)
Definition ns_is_behind self (local_block_index : N) : exec bool :=
  is_blocking_and_quorum self (peers_where self (λ block_index, local_block_index <? block_index)).

(** The loop of [highest_block_index_on_network], from the highest candidate. *)
Fixpoint highest_loop self (candidates : list N) : exec (option N) :=
  match candidates with
  | [] => Done None
  | i :: candidates =>
      let! b := is_blocking_and_quorum self (peers_where self (λ block_index, i <=? block_index)) in
      if b : bool then Done (Some i) else highest_loop self candidates
  end.

Definition highest_block_index_on_network self : exec (option N) :=
  let seen_block_indexes := dedup (sort ((map_to_list (id_to_current_slot self)).*2)) in
  highest_loop self (reverse seen_block_indexes).
End network_state.
Arguments SCPNetworkState ID {_ _}.

(** ** What the searches decide here *)

Section props.
Context {ID RID : Type} `{Countable ID} `{Countable RID} (as_ref : ID → RID).
Implicit Types (self : SCPNetworkState ID) (S : gset RID).

Abbreviation quorum_set_of self := (to_responder_ids as_ref (local_quorum_set self)).

(** Every slice of the node meets [S], and [S] with the node contains one. *)
Definition blocking_and_quorum self S : Prop :=
  (∀ W, is_slice W (quorum_set_of self) = true → ∃ n, n ∈ W ∧ n ∈ S) ∧
  is_slice ({[ as_ref (local_node_id self) ]} ∪ S) (quorum_set_of self) = true.

Lemma dummy_msgs_lookup S n msg : dummy_msgs S !! n = Some msg ↔ n ∈ S ∧ msg = dummy_msg n.
Proof.
  unfold dummy_msgs. rewrite lookup_set_to_map by (by intros ? ? _ _ [= ?]).
  split; [intros (r & ? & [= -> <-]); done|]. intros [? ->]. by exists n.
Qed.

Lemma blocking_and_quorum_mono self S S' :
  S ⊆ S' → blocking_and_quorum self S → blocking_and_quorum self S'.
Proof.
  intros Hs [Hb Hq]. split.
  - intros W HW. destruct (Hb W HW) as (n & ? & ?). exists n. split; [done|by apply Hs].
  - eapply is_slice_mono; [|exact Hq]. set_solver.
Qed.

Lemma is_blocking_and_quorum_spec self S :
  is_valid (quorum_set_of self) = true → qs_small (quorum_set_of self) = true →
  ∃ b, is_blocking_and_quorum as_ref self S = Done b ∧ (b = true ↔ blocking_and_quorum self S).
Proof.
  intros Hv Hsm. unfold is_blocking_and_quorum.
  set (f := λ msg : Msg string RID, bool_decide (sender_id msg ∈ S)).
  destruct (findBlockingSet_spec (quorum_set_of self) (dummy_msgs S) f Hv Hsm) as (U & -> & HU & _). simpl.
  assert ((∃ n msg, n ∈ S ∧ dummy_msgs S !! n = Some msg ∧ f msg = true) ↔ ∃ n, n ∈ S) as Hex.
  { split; [naive_solver|]. intros [n Hn]. exists n, (dummy_msg n). split; [done|].
    split; [by apply dummy_msgs_lookup|]. by apply bool_decide_true. }
  assert (∀ n, (∃ msg, dummy_msgs S !! n = Some msg ∧ f msg = true) ↔ n ∈ S) as Hmsg.
  { intros n. split; [by intros (msg & [? ->]%dummy_msgs_lookup & _)|]. intros Hn.
    exists (dummy_msg n). split; [by apply dummy_msgs_lookup|by apply bool_decide_true]. }
  assert (U ≠ ∅ ↔ ∀ W, is_slice W (quorum_set_of self) = true → ∃ n, n ∈ W ∧ n ∈ S) as HU'.
  { rewrite HU. split; intros HW W HsW; destruct (HW W HsW) as (n & Hn).
    - destruct Hn as (msg & ? & Hmsg'). exists n. split; [done|]. apply Hmsg. by exists msg.
    - destruct Hn as [? (msg & ? & ?)%Hmsg]. by exists n, msg. }
  case_bool_decide as HUe.
  { exists false. split; [done|]. split; [done|]. intros [Hb _]. by apply HU' in Hb. }
  destruct (findQuorum_spec (quorum_set_of self) (as_ref (local_node_id self)) (dummy_msgs S) f)
    as (W & -> & HW & _). simpl.
  exists (negb (bool_decide (W = ∅))). split; [done|].
  rewrite negb_true_iff, bool_decide_eq_false, HW. unfold blocking_and_quorum. rewrite <-HU'. split.
  - intros (Y & (Hself & Hsl & _) & Hf). split; [done|]. eapply is_slice_mono; [|exact Hsl].
    intros n Hn. destruct (decide (n = as_ref (local_node_id self))) as [->|Hne]; [set_solver|].
    apply elem_of_union_r, Hmsg. by apply Hf.
  - intros [_ Hsl]. eexists. split; [split; [|split; [exact Hsl|]]|].
    + set_solver.
    + intros n Hn Hne. apply elem_of_union in Hn as [Hn%elem_of_singleton|Hn]; [done|].
      exists (dummy_msg n). split; [by apply dummy_msgs_lookup|done].
    + intros n Hn Hne. apply elem_of_union in Hn as [Hn%elem_of_singleton|Hn]; [done|]. by apply Hmsg.
Qed.

Lemma elem_of_peers_where self f r :
  r ∈ peers_where as_ref self f ↔ ∃ n i, as_ref n = r ∧ id_to_current_slot self !! n = Some i ∧ f i = true.
Proof.
  unfold peers_where. rewrite elem_of_map. setoid_rewrite elem_of_dom. split.
  - intros (n & -> & i & [Hi Hf]%map_lookup_filter_Some). by exists n, i.
  - intros (n & i & <- & Hi & Hf). exists n. split; [done|]. exists i. by apply map_lookup_filter_Some.
Qed.

Lemma reverse_sorted {A} (R : relation A) l : StronglySorted R l → StronglySorted (flip R) (reverse l).
Proof.
  induction 1 as [|x l _ IH Hx]; [constructor|]. rewrite reverse_cons, StronglySorted_app.
  split_and!; [|done|by repeat constructor]. intros y z Hy ->%list_elem_of_singleton.
  rewrite Forall_forall in Hx. unfold flip. by apply Hx, elem_of_reverse.
Qed.

(** The candidates are the slots of the peers, from the highest down. *)
Lemma candidates_spec self :
  let l := reverse (dedup (sort ((map_to_list (id_to_current_slot self)).*2))) in
  (∀ i, i ∈ l ↔ ∃ n, id_to_current_slot self !! n = Some i) ∧ StronglySorted (flip ord_lt) l.
Proof.
  intros l. split; [|apply reverse_sorted, sort_dedup_sorted].
  intros i. unfold l. rewrite elem_of_reverse, elem_of_sort_dedup, list_elem_of_fmap. split.
  - intros ([n j] & -> & Hn%elem_of_map_to_list). by exists n.
  - intros (n & Hn). exists (n, i). split; [done|]. by apply elem_of_map_to_list.
Qed.

Abbreviation at_least self i := (peers_where as_ref self (λ block_index, i <=? block_index)).

Lemma highest_loop_spec self l :
  is_valid (quorum_set_of self) = true → qs_small (quorum_set_of self) = true →
  StronglySorted (flip ord_lt) l →
  ∃ o, highest_loop as_ref self l = Done o ∧
    (∀ i, o = Some i → i ∈ l ∧ blocking_and_quorum self (at_least self i)) ∧
    (∀ i, i ∈ l → blocking_and_quorum self (at_least self i) → ∃ j, o = Some j ∧ i <= j).
Proof.
  intros Hv Hs. induction 1 as [|x l _ IH Hx]; simpl.
  { exists None. split_and!; [done|done|]. by intros i ?%elem_of_nil. }
  destruct (is_blocking_and_quorum_spec self (at_least self x) Hv Hs) as (b & -> & Hb). simpl.
  destruct b.
  - exists (Some x). split_and!; [done| |].
    + intros i [= <-]. split; [by left|by apply Hb].
    + intros i [->|Hi]%elem_of_cons _; [by exists x|]. exists x. split; [done|].
      rewrite Forall_forall in Hx. specialize (Hx i Hi). change (i < x) in Hx. lia.
  - destruct IH as (o & -> & Ho & Hmax). exists o. split_and!; [done| |].
    + intros i Hi. destruct (Ho i Hi). split; [by right|done].
    + intros i [->|Hi]%elem_of_cons Hp; [by apply Hb in Hp|by apply Hmax].
Qed.

(** The least slot of a peer that is at least [i]. *)
Lemma least_slot self i r :
  r ∈ at_least self i →
  ∃ j n, id_to_current_slot self !! n = Some j ∧ i <= j ∧ at_least self i ⊆ at_least self j.
Proof.
  intros (n & j & _ & Hn & Hij%N.leb_le)%elem_of_peers_where.
  set (l := filter (λ k, i <= k) ((map_to_list (id_to_current_slot self)).*2)).
  assert (∀ k, k ∈ l ↔ i <= k ∧ ∃ n, id_to_current_slot self !! n = Some k) as Hl.
  { intros k. unfold l. rewrite list_elem_of_filter, list_elem_of_fmap. split.
    - intros (? & [n' k'] & -> & Hn'%elem_of_map_to_list). split; [done|]. by exists n'.
    - intros (? & n' & Hn'). split; [done|]. exists (n', k). split; [done|]. by apply elem_of_map_to_list. }
  destruct (iter_min l) as [m|] eqn:Em.
  - apply iter_min_Some in Em as [(Him & n' & Hn')%Hl Hmin]. exists m, n'. split_and!; [done..|].
    intros r' (n2 & k & <- & Hk & Hik%N.leb_le)%elem_of_peers_where. apply elem_of_peers_where.
    exists n2, k. split_and!; [done..|]. apply N.leb_le, N_ord_le, Hmin, Hl. split; [done|by exists n2].
  - apply iter_min_None in Em. exfalso. apply (not_elem_of_nil j). rewrite <-Em. apply Hl.
    split; [done|by exists n].
Qed.
End props.

(** ** Theorems *)

Module NetworkStateProps.
Section props.
Context {ID RID : Type} `{Countable ID} `{Countable RID} (as_ref : ID → RID).
Implicit Types self : SCPNetworkState ID.

(** C35: the two views of the network are right, and agree.  For a valid
    quorum set both computations end.  The highest block the network agrees on
    is the greatest index such that the peers that externalized it, or a later
    one, meet every slice of the node's quorum set and together with the node
    contain one; and the node is reported behind exactly when that index is
    above its own block. *)
Theorem network_view_correct self local_block_index :
  is_valid (to_responder_ids as_ref (local_quorum_set self)) = true →
  qs_small (to_responder_ids as_ref (local_quorum_set self)) = true →
  ∃ behind highest, ns_is_behind as_ref self local_block_index = Done behind ∧
    highest_block_index_on_network as_ref self = Done highest ∧
    (∀ i, highest = Some i →
       blocking_and_quorum as_ref self (peers_where as_ref self (λ block_index, i <=? block_index))) ∧
    (∀ i, blocking_and_quorum as_ref self (peers_where as_ref self (λ block_index, i <=? block_index)) →
       ∃ j, highest = Some j ∧ i <= j) ∧
    (behind = true ↔ ∃ i, highest = Some i ∧ local_block_index < i).
Proof.
  intros Hv Hs. destruct (candidates_spec self) as [Hc Hsorted].
  destruct (highest_loop_spec as_ref self _ Hv Hs Hsorted) as (o & Eo & Ho & Hmax).
  assert (∀ i, blocking_and_quorum as_ref self (peers_where as_ref self (λ block_index, i <=? block_index)) →
    ∃ j, o = Some j ∧ i <= j) as Hmax'.
  { intros i Hp. destruct Hp as [Hb Hq].
    destruct (Hb _ Hq) as (r & _ & Hr).
    destruct (least_slot as_ref self i r Hr) as (j & n & Hn & Hij & Hsub).
    destruct (Hmax j) as (k & -> & ?); [apply Hc; by exists n| |exists k; split; [done|lia]].
    by eapply blocking_and_quorum_mono. }
  destruct (is_blocking_and_quorum_spec as_ref self
    (peers_where as_ref self (λ block_index, local_block_index <? block_index)) Hv Hs) as (b & Eb & Hb).
  exists b, o. split_and!; [done|done| |done|].
  - intros i Hi. by apply Ho.
  - rewrite Hb. split.
    + intros Hp. destruct (Hmax' (local_block_index + 1)) as (j & -> & ?); [|exists j; split; [done|lia]].
      eapply blocking_and_quorum_mono; [|exact Hp]. intros r (n & k & ? & ? & Hk%N.ltb_lt)%elem_of_peers_where.
      apply elem_of_peers_where. exists n, k. split_and!; [done..|]. apply N.leb_le. lia.
    + intros (i & -> & Hi). destruct (Ho i eq_refl) as [_ Hp]. eapply blocking_and_quorum_mono; [|exact Hp].
      intros r (n & k & ? & ? & Hk%N.leb_le)%elem_of_peers_where.
      apply elem_of_peers_where. exists n, k. split_and!; [done..|]. apply N.ltb_lt. lia.
Qed.

(** A message for slot 0 that does not externalize wraps around: its
    sender counts as having externalized the last slot there can be. *)
Theorem slot_zero_wraps {V} `{Countable V} self (msg : Msg V ID) :
  msg_slot_index msg = 0 → (∀ p, topic msg ≠ Externalize p) →
  id_to_current_slot self !! sender_id msg = None →
  id_to_current_slot (ns_push msg self) !! sender_id msg = Some u64_max.
Proof.
  intros Hz Ht Hn. unfold ns_push. rewrite Hn. simpl. rewrite lookup_insert_eq. unfold implied_slot.
  rewrite Hz. destruct (topic msg); try done. by destruct (Ht payload).
Qed.
End props.

(** *** Witness: three peers, of which two are needed besides the node *)

Definition ex_state : SCPNetworkState N :=
  mkSCPNetworkState 1 (Ctor.new 2 [Node 2; Node 3; Node 4]) (list_to_map [(2, 7); (3, 5); (4, 3)]).

Lemma network_view_correct_witness :
  highest_block_index_on_network (λ n : N, n) ex_state = Done (Some 5) ∧
  ns_is_behind (λ n : N, n) ex_state 4 = Done true.
Proof.
  destruct (network_view_correct (λ n : N, n) ex_state 4 ltac:(reflexivity) ltac:(reflexivity))
    as (b & h & Eb & Eh & _ & _ & Hb).
  assert (h = Some 5) as -> by (vm_compute in Eh; congruence).
  split; [exact Eh|]. rewrite Eb. f_equal. apply Hb. exists 5. split; [reflexivity|lia].
Defined.
End NetworkStateProps.
