(* ===== verification/Worker.v ===== *)
(** * The consensus worker

    [consensus/service/src/byzantine_ledger/worker.rs]: the loop that ties
    consensus to the ledger.  One [tick] reads the queued tasks, follows the
    state of synchronization, proposes pending values, processes messages and
    timeouts, and appends a block when the current slot has externalized.

    The SCP node, ledger sync, the connections to peers and the enclave's
    [form_block] are traits or trait objects in the source: classes here.  The
    ledger and the managers are shared with the callbacks of the SCP node, which
    take their current state.  [now] is the time at the start of a tick, [later]
    the one of its other calls of [Instant::now], in milliseconds.  Metrics and
    logging are left out. *)

From stdpp Require Import vector strings.
From S2P Require Import Prelude Ord QuorumSet ScpMsg Bytes Lmdb TxOut Membership TxOutStore BlockVersion MaskedAmount Tx TxValidation Multisig Mint MintOrd MintStore Block LedgerDb LedgerApi MintTxManager TxManager ConsensusMsg PendingValues NetworkState.

Open Scope N_scope.

Definition IS_BEHIND_GRACE_PERIOD : N := 10000.
Definition MAX_PENDING_VALUES_TO_NOMINATE : nat := 100.
Definition CONSENSUS_MSG_BATCH_SIZE : nat := 5.

Inductive LedgerSyncState :=
| InSync
| MaybeBehind (behind_since : N)
| IsBehind (attempt_sync_at : N) (num_sync_attempts : N).

#[export] Instance LedgerSyncState_eq_dec : EqDecision LedgerSyncState.
Proof. solve_decision. Defined.

Inductive PeerError := TxHashesNotInCache (tx_hashes : list TxHash) | OtherPeerError.

(** [slice::chunks]. *)
Fixpoint chunks_fuel {A} (fuel n : nat) (l : list A) : list (list A) :=
  match fuel with
  | O => []
  | S fuel => match l with [] => [] | _ => take n l :: chunks_fuel fuel n (drop n l) end
  end.
Definition chunks {A} (n : nat) (l : list A) : list (list A) := chunks_fuel (length l) n l.

(** The length of the list is enough: nothing is lost. *)
Lemma concat_chunks {A} (n : nat) (l : list A) : (0 < n)%nat → concat (chunks n l) = l.
Proof.
  intros Hn. unfold chunks. assert (∀ fuel (l : list A), (length l <= fuel)%nat → concat (chunks_fuel fuel n l) = l) as Hf.
  { induction fuel as [|fuel IH]; intros [|x k] Hk; simpl in *; [done|lia|done|].
    rewrite IH; [by destruct n as [|m]; [lia|]; simpl; rewrite take_drop|].
    rewrite length_drop. simpl. lia. }
  by apply Hf.
Qed.

Section worker.
Context {ID RID : Type} `{Countable ID} `{Countable RID}.
Notation Msg := (Msg ConsensusValue ID).
Notation ConsensusMsg := (ConsensusMsg (ID:=ID)).

(** [VerifiedConsensusMsg]s are messages whose signature was checked. *)
Inductive TaskMessage :=
| Values (timestamp : option N) (new_values : list ConsensusValue)
| ConsensusMsgTask (consensus_msg : ConsensusMsg) (from_responder_id : RID)
| StopTrigger.

(** ** The interfaces *)

(** What the callbacks of the SCP node read: the ledger and the cache. *)
Context {L E : Type}.
Definition CallbackState : Type := L * TxManagerImpl E.

(** The trait [ScpNode]. *)
Class ScpNode (N' : Type) : Type := {
  scp_node_id : N' → ID;
  scp_quorum_set : N' → QuorumSet ID;
  scp_propose_values : CallbackState → N → gset ConsensusValue → N' →
    exec (result (option Msg) string * N');
  scp_handle_messages : CallbackState → N → list Msg → N' → exec (result (list Msg) string * N');
  scp_max_externalized_slots : N' → N;
  scp_get_externalized_values : N' → N → exec (option (list ConsensusValue));
  scp_process_timeouts : CallbackState → N → N' → exec (list Msg * N');
  scp_reset_slot_index : N → N' → exec N'
}.

(** The trait [LedgerSync]; a sync appends blocks to the ledger. *)
Class LedgerSync (LS : Type) : Type := {
  ls_is_behind : LS → L → SCPNetworkState ID → exec bool;
  ls_attempt_ledger_sync : SCPNetworkState ID → N → LS * L → exec (result unit unit * (LS * L))
}.

(** [ConnectionManager::conn] and [fetch_txs] with its retries. *)
Class PeerConnections (PC : Type) : Type := {
  pc_conn : PC → RID → bool;
  pc_fetch_txs : PC → RID → list TxHash → result (list TxContext) PeerError * PC
}.

(** [ConsensusEnclave::form_block], [BlockSignature::set_signed_at] included,
    and [get_block_metadata]. *)
Class BlockFormer (E Sig Meta : Type) : Type := {
  form_block : E → Block → list (bytes * list TxOutMembershipProof) → list MintConfigTx →
    list (MintTx * MintConfigTx * MintConfig) → TxOutMembershipElement →
    exec (Block * BlockContents * Sig);
  worker_block_metadata : E → BlockID → exec Meta
}.

Context `{LR : LedgerReads L} {Sig Meta : Type} `{LA : !LedgerAppends L Sig Meta}.
Context {N' : Type} `{SN : !ScpNode N'} {LS : Type} `{LSy : !LedgerSync LS} {PC : Type} `{PCs : !PeerConnections PC}.
Context `{X : TxCrypto} `{HI : HashIter} {PeerSession EnclaveMessage : Type}.
Context `{CE : !ConsensusEnclave E PeerSession EnclaveMessage} `{BF : !BlockFormer E Sig Meta}.
Context `{V : Verifier Ed25519Public Ed25519Signature} `{DG : MintDigests} `{MX : !MsgCrypto (ID:=ID)}.
Context (responder_id : ID → RID).

(** ** The state *)

Record Worker := mkWorker {
  w_scp_node : N';
  w_connections : PC;
  w_tx_manager : TxManagerImpl E;
  w_block_version : BlockVersion;
  w_governors : GovernorsMap;
  w_unavailable_tx_hashes : gmap RID (gset TxHash);
  w_current_slot_index : N;
  w_ledger : L;
  w_ledger_sync_service : LS;
  w_ledger_sync_state : LedgerSyncState;
  w_is_behind : bool;
  w_highest_peer_block : N;
  w_highest_issued_msg : option ConsensusMsg;
  w_network_state : SCPNetworkState ID;
  w_pending_consensus_msgs : list (ConsensusMsg * RID);
  w_pending_values : PendingValues;
  w_need_nominate : bool;
  (** What was given to the broadcaster. *)
  w_broadcast : list (ConsensusMsg * RID)
}.
Implicit Types w : Worker.

(** Assignments to a field. *)
Definition set_scp_node (x : N') w : Worker :=
  mkWorker x (w_connections w) (w_tx_manager w) (w_block_version w) (w_governors w) (w_unavailable_tx_hashes
    w) (w_current_slot_index w) (w_ledger w) (w_ledger_sync_service w) (w_ledger_sync_state w) (w_is_behind w)
    (w_highest_peer_block w) (w_highest_issued_msg w) (w_network_state w) (w_pending_consensus_msgs w)
    (w_pending_values w) (w_need_nominate w) (w_broadcast w).
Definition set_connections (x : PC) w : Worker :=
  mkWorker (w_scp_node w) x (w_tx_manager w) (w_block_version w) (w_governors w) (w_unavailable_tx_hashes w)
    (w_current_slot_index w) (w_ledger w) (w_ledger_sync_service w) (w_ledger_sync_state w) (w_is_behind w)
    (w_highest_peer_block w) (w_highest_issued_msg w) (w_network_state w) (w_pending_consensus_msgs w)
    (w_pending_values w) (w_need_nominate w) (w_broadcast w).
Definition set_tx_manager (x : TxManagerImpl E) w : Worker :=
  mkWorker (w_scp_node w) (w_connections w) x (w_block_version w) (w_governors w) (w_unavailable_tx_hashes w)
    (w_current_slot_index w) (w_ledger w) (w_ledger_sync_service w) (w_ledger_sync_state w) (w_is_behind w)
    (w_highest_peer_block w) (w_highest_issued_msg w) (w_network_state w) (w_pending_consensus_msgs w)
    (w_pending_values w) (w_need_nominate w) (w_broadcast w).
Definition set_unavailable_tx_hashes (x : gmap RID (gset TxHash)) w : Worker :=
  mkWorker (w_scp_node w) (w_connections w) (w_tx_manager w) (w_block_version w) (w_governors w) x
    (w_current_slot_index w) (w_ledger w) (w_ledger_sync_service w) (w_ledger_sync_state w) (w_is_behind w)
    (w_highest_peer_block w) (w_highest_issued_msg w) (w_network_state w) (w_pending_consensus_msgs w)
    (w_pending_values w) (w_need_nominate w) (w_broadcast w).
Definition set_current_slot_index (x : N) w : Worker :=
  mkWorker (w_scp_node w) (w_connections w) (w_tx_manager w) (w_block_version w) (w_governors w)
    (w_unavailable_tx_hashes w) x (w_ledger w) (w_ledger_sync_service w) (w_ledger_sync_state w) (w_is_behind
    w) (w_highest_peer_block w) (w_highest_issued_msg w) (w_network_state w) (w_pending_consensus_msgs w)
    (w_pending_values w) (w_need_nominate w) (w_broadcast w).
Definition set_ledger (x : L) w : Worker :=
  mkWorker (w_scp_node w) (w_connections w) (w_tx_manager w) (w_block_version w) (w_governors w)
    (w_unavailable_tx_hashes w) (w_current_slot_index w) x (w_ledger_sync_service w) (w_ledger_sync_state w)
    (w_is_behind w) (w_highest_peer_block w) (w_highest_issued_msg w) (w_network_state w)
    (w_pending_consensus_msgs w) (w_pending_values w) (w_need_nominate w) (w_broadcast w).
Definition set_ledger_sync_service (x : LS) w : Worker :=
  mkWorker (w_scp_node w) (w_connections w) (w_tx_manager w) (w_block_version w) (w_governors w)
    (w_unavailable_tx_hashes w) (w_current_slot_index w) (w_ledger w) x (w_ledger_sync_state w) (w_is_behind
    w) (w_highest_peer_block w) (w_highest_issued_msg w) (w_network_state w) (w_pending_consensus_msgs w)
    (w_pending_values w) (w_need_nominate w) (w_broadcast w).
Definition set_ledger_sync_state (x : LedgerSyncState) w : Worker :=
  mkWorker (w_scp_node w) (w_connections w) (w_tx_manager w) (w_block_version w) (w_governors w)
    (w_unavailable_tx_hashes w) (w_current_slot_index w) (w_ledger w) (w_ledger_sync_service w) x (w_is_behind
    w) (w_highest_peer_block w) (w_highest_issued_msg w) (w_network_state w) (w_pending_consensus_msgs w)
    (w_pending_values w) (w_need_nominate w) (w_broadcast w).
Definition set_is_behind (x : bool) w : Worker :=
  mkWorker (w_scp_node w) (w_connections w) (w_tx_manager w) (w_block_version w) (w_governors w)
    (w_unavailable_tx_hashes w) (w_current_slot_index w) (w_ledger w) (w_ledger_sync_service w)
    (w_ledger_sync_state w) x (w_highest_peer_block w) (w_highest_issued_msg w) (w_network_state w)
    (w_pending_consensus_msgs w) (w_pending_values w) (w_need_nominate w) (w_broadcast w).
Definition set_highest_peer_block (x : N) w : Worker :=
  mkWorker (w_scp_node w) (w_connections w) (w_tx_manager w) (w_block_version w) (w_governors w)
    (w_unavailable_tx_hashes w) (w_current_slot_index w) (w_ledger w) (w_ledger_sync_service w)
    (w_ledger_sync_state w) (w_is_behind w) x (w_highest_issued_msg w) (w_network_state w)
    (w_pending_consensus_msgs w) (w_pending_values w) (w_need_nominate w) (w_broadcast w).
Definition set_highest_issued_msg (x : option ConsensusMsg) w : Worker :=
  mkWorker (w_scp_node w) (w_connections w) (w_tx_manager w) (w_block_version w) (w_governors w)
    (w_unavailable_tx_hashes w) (w_current_slot_index w) (w_ledger w) (w_ledger_sync_service w)
    (w_ledger_sync_state w) (w_is_behind w) (w_highest_peer_block w) x (w_network_state w)
    (w_pending_consensus_msgs w) (w_pending_values w) (w_need_nominate w) (w_broadcast w).
Definition set_network_state (x : SCPNetworkState ID) w : Worker :=
  mkWorker (w_scp_node w) (w_connections w) (w_tx_manager w) (w_block_version w) (w_governors w)
    (w_unavailable_tx_hashes w) (w_current_slot_index w) (w_ledger w) (w_ledger_sync_service w)
    (w_ledger_sync_state w) (w_is_behind w) (w_highest_peer_block w) (w_highest_issued_msg w) x
    (w_pending_consensus_msgs w) (w_pending_values w) (w_need_nominate w) (w_broadcast w).
Definition set_pending_consensus_msgs (x : list (ConsensusMsg * RID)) w : Worker :=
  mkWorker (w_scp_node w) (w_connections w) (w_tx_manager w) (w_block_version w) (w_governors w)
    (w_unavailable_tx_hashes w) (w_current_slot_index w) (w_ledger w) (w_ledger_sync_service w)
    (w_ledger_sync_state w) (w_is_behind w) (w_highest_peer_block w) (w_highest_issued_msg w) (w_network_state
    w) x (w_pending_values w) (w_need_nominate w) (w_broadcast w).
Definition set_pending_values (x : PendingValues) w : Worker :=
  mkWorker (w_scp_node w) (w_connections w) (w_tx_manager w) (w_block_version w) (w_governors w)
    (w_unavailable_tx_hashes w) (w_current_slot_index w) (w_ledger w) (w_ledger_sync_service w)
    (w_ledger_sync_state w) (w_is_behind w) (w_highest_peer_block w) (w_highest_issued_msg w) (w_network_state
    w) (w_pending_consensus_msgs w) x (w_need_nominate w) (w_broadcast w).
Definition set_need_nominate (x : bool) w : Worker :=
  mkWorker (w_scp_node w) (w_connections w) (w_tx_manager w) (w_block_version w) (w_governors w)
    (w_unavailable_tx_hashes w) (w_current_slot_index w) (w_ledger w) (w_ledger_sync_service w)
    (w_ledger_sync_state w) (w_is_behind w) (w_highest_peer_block w) (w_highest_issued_msg w) (w_network_state
    w) (w_pending_consensus_msgs w) (w_pending_values w) x (w_broadcast w).
Definition set_broadcast (x : list (ConsensusMsg * RID)) w : Worker :=
  mkWorker (w_scp_node w) (w_connections w) (w_tx_manager w) (w_block_version w) (w_governors w)
    (w_unavailable_tx_hashes w) (w_current_slot_index w) (w_ledger w) (w_ledger_sync_service w)
    (w_ledger_sync_state w) (w_is_behind w) (w_highest_peer_block w) (w_highest_issued_msg w) (w_network_state
    w) (w_pending_consensus_msgs w) (w_pending_values w) (w_need_nominate w) x.

(** The mint manager shares the ledger. *)
Definition mint_tx_manager w : MintTxManagerImpl L :=
  mkMintTxManagerImpl (w_ledger w) (w_block_version w) (w_governors w).
Definition callback_state w : CallbackState := (w_ledger w, w_tx_manager w).
Definition validate w (v : ConsensusValue) : exec (result unit UnifiedNodeError) :=
  validate_value (w_ledger w) (w_tx_manager w) (mint_tx_manager w) v.

(** [ByzantineLedgerWorker::new]. *)
Definition Worker_new (scp_node : N') (ledger : L) (ledger_sync_service : LS) (connections : PC)
    (tx_manager : TxManagerImpl E) (block_version : BlockVersion) (governors : GovernorsMap) : exec Worker :=
  let! current_slot_index := eexpect (l_num_blocks ledger) in
  let network_state := SCPNetworkState_new (scp_node_id scp_node) (scp_quorum_set scp_node) in
  Done (mkWorker scp_node connections tx_manager block_version governors ∅ current_slot_index ledger
    ledger_sync_service InSync false 0 None network_state [] PendingValues_new false []).

(** ** Synchronization *)

(** [next_sync_state]. *)
Definition next_sync_state w (now : N) : exec LedgerSyncState :=
  let! behind := ls_is_behind (w_ledger_sync_service w) (w_ledger w) (w_network_state w) in
  if negb behind then Done InSync
  else
    Done (match w_ledger_sync_state w with
          | InSync => MaybeBehind now
          | MaybeBehind behind_since =>
              if IS_BEHIND_GRACE_PERIOD <? now - behind_since then IsBehind now 0
              else MaybeBehind behind_since
          | IsBehind attempt_sync_at num_sync_attempts => IsBehind attempt_sync_at num_sync_attempts
          end).

(** [sync_next_blocks]. *)
Definition sync_next_blocks (later : N) (num_blocks : N) w : exec Worker :=
  match w_ledger_sync_state w with
  | IsBehind _ num_sync_attempts =>
      let! (r, (ls, ledger)) :=
        ls_attempt_ledger_sync (w_network_state w) num_blocks (w_ledger_sync_service w, w_ledger w) in
      let w := set_ledger ledger (set_ledger_sync_service ls w) in
      Done (set_ledger_sync_state
        (match r with
         | Ok _ => IsBehind later 0
         | Err _ => IsBehind (later + 1000 * N.min (u64_add num_sync_attempts 1) 60) (u64_add num_sync_attempts 1)
         end) w)
  | _ => Panic
  end.

(** ** Tasks *)

Fixpoint push_values (timestamp : option N) (new_values : list ConsensusValue) w : exec Worker :=
  match new_values with
  | [] => Done w
  | value :: new_values =>
      let! (pushed, pending) := pv_push (validate w) value timestamp (w_pending_values w) in
      let w := set_pending_values pending w in
      push_values timestamp new_values (if pushed : bool then set_need_nominate true w else w)
  end.

(** The loop of [receive_tasks]; [false] when the worker is asked to stop. *)
Fixpoint receive_loop (tasks : list TaskMessage) w : exec (bool * Worker) :=
  match tasks with
  | [] => Done (true, w)
  | Values timestamp new_values :: tasks =>
      let! w := push_values timestamp new_values w in receive_loop tasks w
  | ConsensusMsgTask consensus_msg from_responder_id :: tasks =>
      let w := set_network_state (ns_push (scp_msg consensus_msg) (w_network_state w)) w in
      receive_loop tasks
        (set_pending_consensus_msgs (w_pending_consensus_msgs w ++ [(consensus_msg, from_responder_id)]) w)
  | StopTrigger :: _ => Done (false, w)
  end.

(** [receive_tasks]. *)
Definition receive_tasks (tasks : list TaskMessage) w : exec (bool * Worker) :=
  let! (go_on, w) := receive_loop tasks w in
  if negb go_on then Done (false, w)
  else
    let! o := highest_block_index_on_network responder_id (w_network_state w) in
    Done (true, match o with Some peer_block => set_highest_peer_block peer_block w | None => w end).

(** ** Messages *)

Definition broadcast_msg (m : ConsensusMsg) (from : RID) w : Worker :=
  set_broadcast (w_broadcast w ++ [(m, from)]) w.

(** [issue_consensus_message]; its result is ignored. *)
Definition issue_consensus_message (msg : Msg) w : exec Worker :=
  let! r := from_scp_msg (w_ledger w) msg in
  match r with
  | Err _ => Done w
  | Ok consensus_msg =>
      let w := broadcast_msg consensus_msg (responder_id (scp_node_id (w_scp_node w))) w in
      Done (match w_highest_issued_msg w with
            | Some highest_msg =>
                if (msg_slot_index (scp_msg highest_msg) <? msg_slot_index (scp_msg consensus_msg)) ||
                   ord_gtb (topic (scp_msg consensus_msg)) (topic (scp_msg highest_msg))
                then set_highest_issued_msg (Some consensus_msg) w else w
            | None => set_highest_issued_msg (Some consensus_msg) w
            end)
  end.

Fixpoint issue_all (msgs : list Msg) w : exec Worker :=
  match msgs with
  | [] => Done w
  | msg :: msgs => let! w := issue_consensus_message msg w in issue_all msgs w
  end.

(** [propose_pending_values]. *)
Definition propose_pending_values (later : N) w : exec Worker :=
  let! empty := pv_is_empty (w_pending_values w) in
  assert! negb empty in
  let values : gset ConsensusValue :=
    list_to_set (take MAX_PENDING_VALUES_TO_NOMINATE (pv_values (w_pending_values w))) in
  let! (r, scp_node) := scp_propose_values (callback_state w) later values (w_scp_node w) in
  let w := set_scp_node scp_node w in
  let! msg_opt := eexpect (Done r) in
  let! w := issue_all (option_list msg_opt) w in
  Done (set_need_nominate false w).

(** [insert] for each context the peer sent (in parallel in the source, one after
    another here); failures are only logged. *)
Fixpoint insert_contexts (tx_contexts : list TxContext) w : exec Worker :=
  match tx_contexts with
  | [] => Done w
  | c :: tx_contexts =>
      let! (_, txm) := insert_tx (w_ledger w) (w_tx_manager w) c in
      insert_contexts tx_contexts (set_tx_manager txm w)
  end.

Fixpoint fetch_chunks (from : RID) (cs : list (list TxHash)) w : exec (bool * Worker) :=
  match cs with
  | [] => Done (true, w)
  | chunk :: cs =>
      let '(r, pc) := pc_fetch_txs (w_connections w) from chunk in
      let w := set_connections pc w in
      match r with
      | Ok tx_contexts =>
          if negb (length tx_contexts =? length chunk)%nat then Done (false, w)
          else let! w := insert_contexts tx_contexts w in fetch_chunks from cs w
      | Err (TxHashesNotInCache tx_hashes) =>
          let known := default ∅ (w_unavailable_tx_hashes w !! from) in
          Done (false, set_unavailable_tx_hashes
                  (<[ from := known ∪ list_to_set tx_hashes ]> (w_unavailable_tx_hashes w)) w)
      | Err OtherPeerError => Done (false, w)
      end
  end.

(** [fetch_missing_txs]. *)
Definition missing_hashes w (msg : Msg) : list TxHash :=
  filter (λ h, contains (w_tx_manager w) h = false) (tx_hashes_of (btree_iter (msg_values msg))).

Definition fetch_missing_txs (msg : Msg) (from : RID) w : exec (bool * Worker) :=
  let missing := missing_hashes w msg in
  let previously_missed := default ∅ (w_unavailable_tx_hashes w !! from) in
  if bool_decide (Exists (λ h, h ∈ previously_missed) missing) then Done (false, w)
  else if negb (pc_conn (w_connections w) from) then Done (false, w)
  else fetch_chunks from (chunks 100 missing) w.

(** Whether the message builds on the block before its slot in our ledger. *)
Fixpoint compatible_msgs w (msgs : list (ConsensusMsg * RID)) : exec (list (ConsensusMsg * RID)) :=
  match msgs with
  | [] => Done []
  | m :: msgs =>
      let! previous_block := eexpect (l_get_block (w_ledger w) (u64_sub (msg_slot_index (scp_msg m.1)) 1)) in
      let! rest := compatible_msgs w msgs in
      Done (if bool_decide (prev_block_id m.1 = id previous_block) then m :: rest else rest)
  end.

Definition process_chunk (later : N) (chunk : list (ConsensusMsg * RID)) w : exec Worker :=
  let! (resolved, _failed, w) :=
    partition_mut (λ w m, fetch_missing_txs (scp_msg m.1) m.2 w) w chunk in
  let w := foldl (λ w m, broadcast_msg m.1 m.2 w) w resolved in
  let! (r, scp_node) := scp_handle_messages (callback_state w) later ((λ m, scp_msg m.1) <$> resolved)
                          (w_scp_node w) in
  let w := set_scp_node scp_node w in
  match r with
  | Ok outgoing_msgs => issue_all outgoing_msgs w
  | Err _ => Done w
  end.

Fixpoint process_chunks (later : N) (cs : list (list (ConsensusMsg * RID))) w : exec Worker :=
  match cs with
  | [] => Done w
  | chunk :: cs => let! w := process_chunk later chunk w in process_chunks later cs w
  end.

(** [process_consensus_msgs]. *)
Definition process_consensus_msgs (later : N) w : exec Worker :=
  let current_slot_index := w_current_slot_index w in
  let oldest_slot_index := current_slot_index - scp_max_externalized_slots (w_scp_node w) in
  let slot_of (m : ConsensusMsg * RID) := msg_slot_index (scp_msg m.1) in
  let kept := filter (λ m, slot_of m ≠ 0 ∧ oldest_slot_index <= slot_of m) (w_pending_consensus_msgs w) in
  let consensus_msgs := filter (λ m, slot_of m <= current_slot_index) kept in
  let future_msgs := filter (λ m, ¬ slot_of m <= current_slot_index) kept in
  let w := set_pending_consensus_msgs future_msgs w in
  let! compatible := compatible_msgs w consensus_msgs in
  process_chunks later (chunks CONSENSUS_MSG_BATCH_SIZE compatible) w.

(** ** Blocks *)

(** [form_block_from_externalized_values]. *)
Definition form_block_from_externalized_values w (externalized_values : list ConsensusValue) :
    exec (BlockData Sig Meta) :=
  let! parent_block := eexpect (l_get_latest_block (w_ledger w)) in
  let! txs := eexpect (tx_hashes_to_well_formed_encrypted_txs_and_proofs (w_ledger w) (w_tx_manager w)
                         (tx_hashes_of externalized_values)) in
  let! mints := eexpect (mint_txs_with_config (mint_tx_manager w) (mint_txs_of externalized_values)) in
  let! root_element := eexpect (l_get_root_tx_out_membership_element (w_ledger w)) in
  let! (block, block_contents, signature) :=
    form_block (tm_enclave (w_tx_manager w)) parent_block txs (mint_config_txs_of externalized_values) mints
      root_element in
  let! metadata := worker_block_metadata (tm_enclave (w_tx_manager w)) (id block) in
  Done (mkBlockData block block_contents (Some signature) (Some metadata)).

(** The predicate of the purge after a block. *)
Definition not_expired (purged_hashes : gset TxHash) (expired_block_index : N) (value : ConsensusValue) : bool :=
  match value with
  | CvTxHash tx_hash => negb (bool_decide (tx_hash ∈ purged_hashes))
  | CvMintConfigTx tx => expired_block_index <? mct_tombstone_block (mct_prefix tx)
  | CvMintTx tx => expired_block_index <? mint_tombstone_block (mint_prefix tx)
  end.

(** [complete_current_slot]. *)
Definition complete_current_slot (externalized : list ConsensusValue) w : exec Worker :=
  let! pending := pv_retain (λ value, negb (bool_decide (value ∈ externalized))) (w_pending_values w) in
  let w := set_pending_values pending w in
  let! block_data := form_block_from_externalized_values w externalized in
  let! (r, ledger) := l_append_block_data (w_ledger w) block_data in
  let! _ := eexpect (Done r) in
  let w := set_ledger ledger w in
  let! current_slot_index := eexpect (l_num_blocks (w_ledger w)) in
  assert! current_slot_index =? u64_add (w_current_slot_index w) 1 in
  let w := set_current_slot_index current_slot_index w in
  let expired_block_index := w_current_slot_index w - scp_max_externalized_slots (w_scp_node w) in
  let '(purged_hashes, txm) := remove_expired (w_tx_manager w) expired_block_index in
  let w := set_tx_manager txm w in
  let! _len_before_purge := pv_len (w_pending_values w) in
  let! pending := pv_retain (not_expired purged_hashes expired_block_index) (w_pending_values w) in
  let w := set_pending_values pending w in
  let! _len_before_clear_invalid := pv_len (w_pending_values w) in
  let! pending := clear_invalid_values (validate w) (w_pending_values w) in
  let w := set_pending_values pending w in
  let! empty := pv_is_empty (w_pending_values w) in
  let w := if negb empty then set_need_nominate true w else w in
  let w := set_unavailable_tx_hashes ∅ w in
  Done (if bool_decide (w_ledger_sync_state w ≠ InSync) then set_ledger_sync_state InSync w else w).

(** ** The tick *)

(** The transition of the synchronization state: whether to sync now. *)
Definition sync_transition (previous : LedgerSyncState) (later : N) w : exec (bool * Worker) :=
  match previous, w_ledger_sync_state w with
  | InSync, InSync => Done (false, w)
  | InSync, MaybeBehind _ => Done (false, w)
  | InSync, IsBehind _ _ => Panic
  | MaybeBehind _, InSync => Done (false, w)
  | MaybeBehind _, MaybeBehind _ => Done (false, w)
  | MaybeBehind _, IsBehind _ _ => Done (true, set_is_behind true w)
  | IsBehind _ _, InSync =>
      let w := set_is_behind false w in
      let! current_slot_index := eexpect (l_num_blocks (w_ledger w)) in
      let w := set_current_slot_index current_slot_index w in
      let! scp_node := scp_reset_slot_index (w_current_slot_index w) (w_scp_node w) in
      let w := set_scp_node scp_node w in
      let! pending := clear_invalid_values (validate w) (w_pending_values w) in
      let w := set_pending_values pending w in
      let! empty := pv_is_empty (w_pending_values w) in
      Done (false, if negb empty then set_need_nominate true w else w)
  | IsBehind _ _, MaybeBehind _ => Panic
  | IsBehind _ _, IsBehind attempt_sync_at _ => Done (attempt_sync_at <=? later, w)
  end.

(** The part of a tick after the synchronization. *)
Definition consensus_round (later : N) w : exec Worker :=
  let! w := if w_need_nominate w then propose_pending_values later w else Done w in
  let! w := process_consensus_msgs later w in
  let! (msgs, scp_node) := scp_process_timeouts (callback_state w) later (w_scp_node w) in
  let! w := issue_all msgs (set_scp_node scp_node w) in
  let! externalized := scp_get_externalized_values (w_scp_node w) (w_current_slot_index w) in
  match externalized with
  | Some externalized_values => complete_current_slot externalized_values w
  | None => Done w
  end.

(** [tick]: [false] when the worker was asked to stop. *)
Definition tick (now later : N) (tasks : list TaskMessage) w : exec (bool * Worker) :=
  let! (go_on, w) := receive_tasks tasks w in
  if negb go_on then Done (false, w)
  else
    let! next_state := next_sync_state w now in
    let previous_sync_state := w_ledger_sync_state w in
    let! (should_sync, w) := sync_transition previous_sync_state later (set_ledger_sync_state next_state w) in
    if should_sync : bool
    then let! w := sync_next_blocks later 100 w in Done (true, w)
    else
      match w_ledger_sync_state w with
      | IsBehind _ _ => Done (true, w)
      | _ =>
          assert! negb (w_is_behind w) in
          let! w := consensus_round later w in
          let! _num_pending_values := pv_len (w_pending_values w) in
          Done (true, w)
      end.
End worker.
