(* ===== verification/WorkerProps.v ===== *)
(** * Correctness of the consensus worker

    The invariant of the worker: the pending values are consistent, the flag
    that tells other threads that the node is behind follows the state of
    synchronization, the slot worked on is the next block of the ledger unless
    the node is behind, and values are waiting when the worker means to nominate.
    Ticks preserve it and move the slot forward by one block at a time; the panics
    that guard the state of synchronization are not reached.  One assertion can
    fail: after catching up, the worker may mean to nominate values that are
    gone. *)

From stdpp Require Import vector strings.
From S2P Require Import Prelude Ord QuorumSet ScpMsg Predicates QuorumSearch Bytes Lmdb TxOut Membership TxOutStore BlockVersion MaskedAmount Tx TxValidation Multisig Mint MintOrd MintStore MintStoreProps Block LedgerDb LedgerApi MintTxManager MintTxManagerProps TxManager TxManagerProps ConsensusMsg PendingValues NetworkState Worker.

Open Scope N_scope.

Module WorkerProps.
Section props.
Context {ID RID : Type} `{Countable ID} `{Countable RID} {L E : Type}.
Context `{LR : LedgerReads L} {Sig Meta : Type} `{LA : !LedgerAppends L Sig Meta}.
Context {N' : Type} `{SN : !ScpNode (ID:=ID) (L:=L) (E:=E) N'} {LS : Type} `{LSy : !LedgerSync (ID:=ID) (L:=L) LS}.
Context {PC : Type} `{PCs : !PeerConnections (RID:=RID) PC}.
Context `{X : TxCrypto} `{HI : HashIter} {PeerSession EnclaveMessage : Type}.
Context `{CE : !ConsensusEnclave E PeerSession EnclaveMessage} `{BF : !BlockFormer E Sig Meta}.
Context `{V : Verifier Ed25519Public Ed25519Signature} `{DG : MintDigests} `{MX : !MsgCrypto (ID:=ID)}.
Context (responder_id : ID → RID).
Notation Worker := (Worker (ID:=ID) (RID:=RID) (L:=L) (E:=E) (N':=N') (LS:=LS) (PC:=PC)).
Implicit Types w : Worker.

(** ** What the steps leave alone *)

(** The part of the state that messages do not touch. *)
Definition core w :=
  (w_ledger w, w_ledger_sync_service w, w_ledger_sync_state w, w_is_behind w, w_current_slot_index w,
   w_network_state w, w_pending_values w, w_need_nominate w).

Lemma core_inv w w' :
  core w' = core w →
  w_ledger w' = w_ledger w ∧ w_ledger_sync_state w' = w_ledger_sync_state w ∧
  w_is_behind w' = w_is_behind w ∧ w_current_slot_index w' = w_current_slot_index w ∧
  w_network_state w' = w_network_state w ∧ w_pending_values w' = w_pending_values w ∧
  w_need_nominate w' = w_need_nominate w.
Proof. unfold core. by intros [= ]. Qed.

Lemma issue_core msg w w' :
  issue_consensus_message responder_id msg w = Done w' → core w' = core w.
Proof.
  unfold issue_consensus_message. intros (r & _ & Hr)%exec_bind_Done.
  destruct r as [m|]; [|by injection Hr as <-]. injection Hr as <-. cbn.
  destruct (w_highest_issued_msg w) as [h|]; [|done]. by destruct (_ || _).
Qed.

Lemma issue_all_core msgs w w' : issue_all responder_id msgs w = Done w' → core w' = core w.
Proof.
  revert w. induction msgs as [|m msgs IH]; intros w; simpl; [by intros [= <-]|].
  intros (w1 & Hm & Hr)%exec_bind_Done. rewrite (IH _ Hr). by eapply issue_core.
Qed.

Lemma insert_contexts_core cs w w' : insert_contexts cs w = Done w' → core w' = core w.
Proof.
  revert w. induction cs as [|c cs IH]; intros w; simpl; [by intros [= <-]|].
  intros ([r txm] & _ & Hr)%exec_bind_Done. by rewrite (IH _ Hr).
Qed.

Lemma fetch_chunks_core from cs w b w' : fetch_chunks from cs w = Done (b, w') → core w' = core w.
Proof.
  revert w. induction cs as [|c cs IH]; intros w; simpl; [by intros [= _ <-]|].
  destruct (pc_fetch_txs _ _ _) as [[l|[hs|]] pc]; [|by intros [= _ <-]..].
  destruct (negb _); [by intros [= _ <-]|]. intros (w1 & Hi & Hr)%exec_bind_Done.
  rewrite (IH _ Hr), (insert_contexts_core _ _ _ Hi). done.
Qed.

Lemma fetch_missing_core msg from w b w' : fetch_missing_txs msg from w = Done (b, w') → core w' = core w.
Proof.
  unfold fetch_missing_txs. destruct (bool_decide _); [by intros [= _ <-]|].
  destruct (negb _); [by intros [= _ <-]|]. apply fetch_chunks_core.
Qed.

Lemma partition_core l w yes no w' :
  partition_mut (λ w m, fetch_missing_txs (scp_msg m.1) m.2 w) w l = Done (yes, no, w') → core w' = core w.
Proof.
  revert w yes no. induction l as [|m l IH]; intros w yes no; simpl; [by intros [= _ _ <-]|].
  intros ([b w1] & Hm & Hr)%exec_bind_Done. apply exec_bind_Done in Hr as ([[y n] w2] & Hl & Hr).
  assert (w' = w2) as -> by (destruct b; congruence).
  rewrite (IH _ _ _ Hl). by eapply fetch_missing_core.
Qed.

Lemma foldl_broadcast_core l w : core (foldl (λ w m, broadcast_msg m.1 m.2 w) w l) = core w.
Proof. revert w. induction l as [|m l IH]; intros w; simpl; [done|]. by rewrite IH. Qed.

Lemma process_chunk_core later c w w' : process_chunk responder_id later c w = Done w' → core w' = core w.
Proof.
  unfold process_chunk. intros ([[yes no] w1] & Hp & Hr)%exec_bind_Done.
  apply exec_bind_Done in Hr as ([r n] & _ & Hr). apply partition_core in Hp.
  pose proof (foldl_broadcast_core yes w1) as Hb.
  destruct r as [msgs|]; [apply issue_all_core in Hr|injection Hr as <-];
    [rewrite Hr|]; (etrans; [|exact Hp]); by rewrite <-Hb.
Qed.

Lemma process_chunks_core later cs w w' : process_chunks responder_id later cs w = Done w' → core w' = core w.
Proof.
  revert w. induction cs as [|c cs IH]; intros w; simpl; [by intros [= <-]|].
  intros (w1 & Hc & Hr)%exec_bind_Done. rewrite (IH _ Hr). by eapply process_chunk_core.
Qed.

Lemma process_msgs_core later w w' : process_consensus_msgs responder_id later w = Done w' → core w' = core w.
Proof.
  unfold process_consensus_msgs. intros (l & _ & Hr)%exec_bind_Done.
  by rewrite (process_chunks_core _ _ _ _ Hr).
Qed.

(** ** The invariant *)

Definition behind (s : LedgerSyncState) : bool := match s with IsBehind _ _ => true | _ => false end.

Record worker_ok w : Prop := {
  wo_pending : pending_ok (w_pending_values w);
  wo_flag : w_is_behind w = behind (w_ledger_sync_state w);
  wo_slot : w_is_behind w = false → l_num_blocks (w_ledger w) = Done (Ok (w_current_slot_index w));
  wo_nominate : w_need_nominate w = true → pv_values (w_pending_values w) ≠ []
}.

Lemma worker_ok_core w w' : core w' = core w → worker_ok w → worker_ok w'.
Proof.
  intros (El & Es & Eb & Ei & _ & Ep & En)%core_inv [? ? ? ?].
  constructor; rewrite ?El, ?Es, ?Eb, ?Ei, ?Ep, ?En; done.
Qed.

Lemma worker_ok_new scp_node ledger ls pc txm bv gov w :
  Worker_new scp_node ledger ls pc txm bv gov = Done w → worker_ok w.
Proof.
  unfold Worker_new. intros (i & Hi%eexpect_Done & [= <-])%exec_bind_Done.
  constructor; cbn; [apply pending_ok_new|done|done|done].
Qed.

(** What receiving tasks leaves alone. *)
Definition ledger_part w :=
  (w_ledger w, w_ledger_sync_service w, w_ledger_sync_state w, w_is_behind w, w_current_slot_index w).

Lemma ledger_part_inv w w' :
  ledger_part w' = ledger_part w →
  w_ledger w' = w_ledger w ∧ w_ledger_sync_service w' = w_ledger_sync_service w ∧
  w_ledger_sync_state w' = w_ledger_sync_state w ∧ w_is_behind w' = w_is_behind w ∧
  w_current_slot_index w' = w_current_slot_index w.
Proof. unfold ledger_part. by intros [= ]. Qed.

(** Pushing values. *)
Lemma push_values_ok timestamp vs w w' :
  worker_ok w → push_values timestamp vs w = Done w' →
  worker_ok w' ∧ ledger_part w' = ledger_part w ∧
  pv_values (w_pending_values w) `prefix_of` pv_values (w_pending_values w').
Proof.
  revert w. induction vs as [|v vs IH]; intros w Hok; simpl; [by intros [= <-]|].
  intros ([b p] & Hp & Hr)%exec_bind_Done.
  destruct (pv_push_inv _ _ _ _ _ _ (wo_pending _ Hok) Hp) as [Hpok El].
  assert (pv_values (w_pending_values w) `prefix_of` pv_values p) as Hpre by (rewrite El; by eexists).
  apply IH in Hr as (Hok' & E1 & E2).
  - rewrite E1. split_and!; [done|by destruct b|]. etrans; [exact Hpre|]. by destruct b.
  - destruct Hok as [_ Hf Hs Hn]. destruct b; constructor; cbn; try done.
    + intros _. rewrite El. by intros [_ ?]%app_nil.
    + intros Hneed. rewrite El, app_nil_r. by apply Hn.
Qed.

Lemma receive_loop_ok tasks w b w' :
  worker_ok w → receive_loop tasks w = Done (b, w') →
  worker_ok w' ∧ ledger_part w' = ledger_part w ∧
  pv_values (w_pending_values w) `prefix_of` pv_values (w_pending_values w').
Proof.
  revert w. induction tasks as [|t tasks IH]; intros w Hok; simpl; [by intros [= _ <-]|].
  destruct t as [ts vs|m from|]; [| |by intros [= _ <-]].
  - intros (w1 & Hp & Hr)%exec_bind_Done.
    destruct (push_values_ok _ _ _ _ Hok Hp) as (Hok1 & A1 & Hpre).
    destruct (IH _ Hok1 Hr) as (? & -> & ?). split_and!; [done..|by etrans].
  - intros Hr. apply IH in Hr; [done|]. by destruct Hok.
Qed.

Lemma receive_tasks_ok tasks w b w' :
  worker_ok w → receive_tasks responder_id tasks w = Done (b, w') →
  worker_ok w' ∧ ledger_part w' = ledger_part w ∧
  pv_values (w_pending_values w) `prefix_of` pv_values (w_pending_values w').
Proof.
  intros Hok. unfold receive_tasks. intros ([b1 w1] & Hl & Hr)%exec_bind_Done.
  pose proof (receive_loop_ok _ _ _ _ Hok Hl) as Hw1. destruct (negb b1); [by injection Hr as <- <-|].
  apply exec_bind_Done in Hr as (o & _ & [= <- <-]). destruct o; [|done].
  destruct Hw1 as (Hok1 & ?). split; [|done]. by destruct Hok1.
Qed.

(** The end of a completed slot: nominate what is left, forget what peers did
    not have, and be in sync. *)
Lemma complete_end (e : bool) w0 w' :
  w_is_behind w0 = false → w_need_nominate w0 = false →
  (let w := if negb e then set_need_nominate true w0 else w0 in
   let w := set_unavailable_tx_hashes ∅ w in
   Done (if bool_decide (w_ledger_sync_state w ≠ InSync) then set_ledger_sync_state InSync w else w)) = Done w' →
  w_pending_values w' = w_pending_values w0 ∧ w_ledger w' = w_ledger w0 ∧
  w_current_slot_index w' = w_current_slot_index w0 ∧ validate w' = validate w0 ∧
  w_is_behind w' = false ∧ w_ledger_sync_state w' = InSync ∧ (w_need_nominate w' = true → e = false).
Proof.
  intros Hb Hn [= <-]. set (w1 := set_unavailable_tx_hashes _ _).
  assert (w_pending_values w1 = w_pending_values w0 ∧ w_ledger w1 = w_ledger w0 ∧
    w_current_slot_index w1 = w_current_slot_index w0 ∧ validate w1 = validate w0 ∧
    w_is_behind w1 = false ∧ (w_need_nominate w1 = true → e = false)) as (F1 & F2 & F3 & F4 & F5 & F6).
  { unfold w1. destruct e; [|done]. split_and!; [done..|]. cbn. by rewrite Hn. }
  assert (w_ledger_sync_state w1 = w_ledger_sync_state (if negb e then set_need_nominate true w0 else w0))
    as F7 by done.
  clearbody w1. case_bool_decide as Hs; split_and!; (assumption || reflexivity || by rewrite F7).
Qed.

(** Completing the slot appends one block. *)
Lemma complete_ok ext w w' :
  worker_ok w → w_is_behind w = false → w_need_nominate w = false →
  complete_current_slot ext w = Done w' →
  worker_ok w' ∧ w_ledger_sync_state w' = InSync ∧
  w_current_slot_index w' = u64_add (w_current_slot_index w) 1 ∧
  (∀ v, v ∈ pv_values (w_pending_values w') →
     v ∈ pv_values (w_pending_values w) ∧ v ∉ ext ∧ validate w' v = Done (Ok tt)) ∧
  ∃ d, form_block_from_externalized_values w ext = Done d ∧
    l_append_block_data (w_ledger w) d = Done (Ok tt, w_ledger w').
Proof.
  intros Hok Hb Hneed. unfold complete_current_slot.
  intros (p1 & Hp1 & Hc)%exec_bind_Done. apply exec_bind_Done in Hc as (d & Hd & Hc).
  apply exec_bind_Done in Hc as ([r l'] & Hl' & Hc). apply exec_bind_Done in Hc as ([] & Hr%eexpect_Done & Hc).
  injection Hr as ->. apply exec_bind_Done in Hc as (i & Hi%eexpect_Done & Hc).
  destruct (i =? _) eqn:Ei; [|done]. apply N.eqb_eq in Ei.
  destruct (remove_expired _ _) as [gone txm] eqn:Eg.
  apply exec_bind_Done in Hc as (n1 & _ & Hc). apply exec_bind_Done in Hc as (p2 & Hp2 & Hc).
  apply exec_bind_Done in Hc as (n2 & _ & Hc). apply exec_bind_Done in Hc as (p3 & Hp3 & Hc).
  apply exec_bind_Done in Hc as (e & He & Hc).
  destruct (pv_retain_inv _ _ _ _ (wo_pending _ Hok) Hp1) as (Hok1 & _ & H1).
  destruct (pv_retain_inv _ _ _ _ Hok1 Hp2) as (Hok2 & _ & H2).
  destruct (pv_retain_inv _ _ _ _ Hok2 Hp3) as (Hok3 & _ & H3).
  set (w0 := set_pending_values p3 _) in Hc, He.
  destruct (complete_end e w0 w' Hb Hneed Hc) as (Ep & El & Es & Hval & Ef & Est & En).
  change (w_pending_values w0) with p3 in Ep. change (w_ledger w0) with l' in El.
  change (w_current_slot_index w0) with i in Es.
  assert (∀ v, v ∈ pv_values p3 → v ∈ pv_values (w_pending_values w) ∧ v ∉ ext ∧ validate w' v = Done (Ok tt)) as Hv.
  { intros v (Hv2 & [[]|] & Hvv & ?)%H3; [|done]. rewrite Hval. apply H2 in Hv2 as [Hv1 _].
    apply H1 in Hv1 as (Hv0 & b & [= <-] & Hb1). split_and!; [done| |done].
    by apply negb_true_iff, bool_decide_eq_false in Hb1. }
  rewrite Ep, El, Est, Es. split_and!; [constructor|done|done|exact Hv|exists d; by split].
  - by rewrite Ep.
  - by rewrite Ef, Est.
  - intros _. by rewrite El, Es.
  - intros Hn%En. subst e. rewrite Ep. assert (pv_is_empty p3 = Done false) as He3 by exact He.
    rewrite (pv_is_empty_ok p3 Hok3) in He3. injection He3 as He3.
    by apply bool_decide_eq_false in He3.
Qed.

(** ** A tick *)

(** What holds when consensus goes on: all but the values to nominate. *)
Record worker_going w : Prop := {
  wg_pending : pending_ok (w_pending_values w);
  wg_flag : w_is_behind w = false;
  wg_state : behind (w_ledger_sync_state w) = false;
  wg_slot : l_num_blocks (w_ledger w) = Done (Ok (w_current_slot_index w))
}.

Lemma worker_going_ok w : worker_going w → w_need_nominate w = false → worker_ok w.
Proof. intros [? Hf Hs ?] Hn. constructor; [done|by rewrite Hf, Hs|done|by rewrite Hn]. Qed.

Lemma propose_core later w w' :
  propose_pending_values responder_id later w = Done w' →
  core w' = core (set_need_nominate false w).
Proof.
  unfold propose_pending_values. intros (e & _ & Hr)%exec_bind_Done. destruct (negb e); [|done].
  apply exec_bind_Done in Hr as ([r n] & _ & Hr). apply exec_bind_Done in Hr as (o & _ & Hr).
  apply exec_bind_Done in Hr as (w1 & Hi & [= <-]). apply issue_all_core in Hi.
  unfold core in *. cbn in Hi |- *. by injection Hi as -> -> -> -> -> -> -> _.
Qed.

(** The step to the end of the round: either the slot goes on, or it is completed. *)
Lemma consensus_round_cases later w w' :
  worker_going w → consensus_round responder_id later w = Done w' →
  ∃ w1, worker_ok w1 ∧ core w1 = core (set_need_nominate false w) ∧
    (w' = w1 ∨ ∃ ext, complete_current_slot ext w1 = Done w').
Proof.
  intros Hg. unfold consensus_round. intros (w1 & H1 & Hr)%exec_bind_Done.
  assert (core w1 = core (set_need_nominate false w)) as C1.
  { destruct (w_need_nominate w) eqn:En; [by apply (propose_core later)|]. injection H1 as <-.
    unfold core. cbn. by rewrite En. }
  apply exec_bind_Done in Hr as (w2 & H2 & Hr). apply process_msgs_core in H2.
  apply exec_bind_Done in Hr as ([ms n] & _ & Hr). apply exec_bind_Done in Hr as (w3 & H3 & Hr).
  apply issue_all_core in H3. apply exec_bind_Done in Hr as (o & _ & Hr).
  assert (core w3 = core (set_need_nominate false w)) as C3 by by rewrite H3, <-C1, <-H2.
  exists w3. split_and!; [|done|].
  - eapply worker_ok_core; [exact C3|]. apply worker_going_ok; [|done]. by destruct Hg.
  - destruct o as [ext|]; [right; by exists ext|left; by injection Hr].
Qed.

Lemma consensus_round_ok later w w' :
  worker_going w → consensus_round responder_id later w = Done w' →
  worker_ok w' ∧ w_is_behind w' = false ∧
  ((w_ledger w' = w_ledger w ∧ w_current_slot_index w' = w_current_slot_index w ∧
    w_ledger_sync_state w' = w_ledger_sync_state w) ∨
   (w_current_slot_index w' = u64_add (w_current_slot_index w) 1 ∧ w_ledger_sync_state w' = InSync ∧
    ∃ d, l_append_block_data (w_ledger w) d = Done (Ok tt, w_ledger w'))).
Proof.
  intros Hg Hr. destruct (consensus_round_cases _ _ _ Hg Hr) as (w1 & Hok1 & C1 & Hw').
  apply core_inv in C1 as (El & Es & Eb & Ei & _ & _ & En).
  change (w_ledger (set_need_nominate false w)) with (w_ledger w) in El.
  change (w_ledger_sync_state (set_need_nominate false w)) with (w_ledger_sync_state w) in Es.
  change (w_is_behind (set_need_nominate false w)) with (w_is_behind w) in Eb.
  change (w_current_slot_index (set_need_nominate false w)) with (w_current_slot_index w) in Ei.
  assert (w_is_behind w1 = false) as Hb by (rewrite Eb; apply Hg).
  destruct Hw' as [->|[ext Hc]]; [split_and!; [done|done|by left]|].
  destruct (complete_ok ext w1 w' Hok1 Hb En Hc) as (Hok' & Hs' & Hi' & _ & d & _ & Hd).
  split_and!; [done| |right; split_and!; [by rewrite Hi', Ei|done|exists d; by rewrite <-El]].
  by rewrite (wo_flag _ Hok'), Hs'.
Qed.

(** ** The state of synchronization *)

(** An attempt to sync: again at once after a success, later and later, up to a
    minute, after failures. *)
Inductive attempted (later n : N) : LedgerSyncState → Prop :=
| attempt_ok : attempted later n (IsBehind later 0)
| attempt_failed :
    attempted later n (IsBehind (later + 1000 * N.min (u64_add n 1) 60) (u64_add n 1)).

(** The steps of the state from one tick to the next, given whether ledger sync
    sees the node behind. *)
Inductive sync_step (now later : N) : bool → LedgerSyncState → LedgerSyncState → Prop :=
| step_caught_up s : sync_step now later false s InSync
| step_suspect : sync_step now later true InSync (MaybeBehind now)
| step_wait t : now - t <= IS_BEHIND_GRACE_PERIOD → sync_step now later true (MaybeBehind t) (MaybeBehind t)
| step_progress s : behind s = false → sync_step now later true s InSync
| step_behind t s' :
    IS_BEHIND_GRACE_PERIOD < now - t → attempted later 0 s' → sync_step now later true (MaybeBehind t) s'
| step_backoff at' n : later < at' → sync_step now later true (IsBehind at' n) (IsBehind at' n)
| step_retry at' n s' : at' <= later → attempted later n s' → sync_step now later true (IsBehind at' n) s'.

(** What the worker does with the ledger in a tick. *)
Inductive ledger_step w w' : Prop :=
| ledger_kept : w_ledger w' = w_ledger w → ledger_step w w'
| ledger_block d n :
    l_num_blocks (w_ledger w) = Done (Ok n) → w_current_slot_index w' = u64_add n 1 →
    l_append_block_data (w_ledger w) d = Done (Ok tt, w_ledger w') → ledger_step w w'
| ledger_synced net r :
    w_is_behind w' = true →
    ls_attempt_ledger_sync net 100 (w_ledger_sync_service w, w_ledger w) =
      Done (r, (w_ledger_sync_service w', w_ledger w')) →
    ledger_step w w'.

Lemma sync_next_ok later w w' :
  pending_ok (w_pending_values w) → (w_need_nominate w = true → pv_values (w_pending_values w) ≠ []) →
  w_is_behind w = true → sync_next_blocks later 100 w = Done w' →
  worker_ok w' ∧ ledger_step w w' ∧
  ∃ at' n, w_ledger_sync_state w = IsBehind at' n ∧ attempted later n (w_ledger_sync_state w').
Proof.
  intros Hp Hn Hb. unfold sync_next_blocks. destruct (w_ledger_sync_state w) as [|t|at' n] eqn:Es; [done..|].
  intros ([r [ls l]] & Hr & [= <-])%exec_bind_Done. split_and!.
  - constructor; cbn; [done|by rewrite Hb; destruct r|by rewrite Hb|done].
  - by eapply ledger_synced.
  - exists at', n. split; [done|]. cbn. destruct r; constructor.
Qed.

Lemma next_sync_Done w now s :
  next_sync_state w now = Done s →
  ∃ b, ls_is_behind (w_ledger_sync_service w) (w_ledger w) (w_network_state w) = Done b ∧
    match b, w_ledger_sync_state w with
    | false, _ => s = InSync
    | true, InSync => s = MaybeBehind now
    | true, MaybeBehind t =>
        (now - t <= IS_BEHIND_GRACE_PERIOD ∧ s = MaybeBehind t) ∨ (IS_BEHIND_GRACE_PERIOD < now - t ∧ s = IsBehind now 0)
    | true, IsBehind at' n => s = IsBehind at' n
    end.
Proof.
  unfold next_sync_state. intros (b & Hb & Hs)%exec_bind_Done. exists b. split; [done|].
  destruct b; injection Hs as <-; [|done].
  destruct (w_ledger_sync_state w) as [|t|at' n]; [done| |done].
  destruct (N.ltb_spec IS_BEHIND_GRACE_PERIOD (now - t)); [by right|by left].
Qed.

(** Going on after catching up: the slot is read again, invalid values go. *)
Lemma catch_up_going later w at' n b w' :
  pending_ok (w_pending_values w) → w_ledger_sync_state w = InSync →
  sync_transition (IsBehind at' n) later w = Done (b, w') →
  b = false ∧ worker_going w' ∧ w_ledger w' = w_ledger w ∧ w_ledger_sync_state w' = InSync.
Proof.
  intros Hp Hs. unfold sync_transition. rewrite Hs. intros (i & Hi%eexpect_Done & Hr)%exec_bind_Done.
  apply exec_bind_Done in Hr as (node & _ & Hr). apply exec_bind_Done in Hr as (p & Hp' & Hr).
  apply exec_bind_Done in Hr as (e & _ & [= <- <-]).
  destruct (pv_retain_inv _ _ _ _ Hp Hp') as (Hok' & _). split; [done|].
  destruct e; (split; [constructor|split]); cbn; first [done|exact Hi|by rewrite Hs].
Qed.

(** What the synchronization phase of a tick leads to. *)
Inductive sync_outcome (now later : N) w : bool → bool → Worker → Prop :=
| outcome_going b w1 :
    worker_going w1 → w_ledger w1 = w_ledger w →
    (w_is_behind w = false → w_current_slot_index w1 = w_current_slot_index w) →
    (∀ s, s = InSync ∨ s = w_ledger_sync_state w1 → sync_step now later b (w_ledger_sync_state w) s) →
    sync_outcome now later w b false w1
| outcome_waiting w1 at' n :
    worker_ok w1 → w_ledger_sync_state w1 = IsBehind at' n → w_ledger w1 = w_ledger w →
    sync_step now later true (w_ledger_sync_state w) (IsBehind at' n) → sync_outcome now later w true false w1
| outcome_sync w1 at' n :
    pending_ok (w_pending_values w1) → (w_need_nominate w1 = true → pv_values (w_pending_values w1) ≠ []) →
    w_is_behind w1 = true → w_ledger_sync_state w1 = IsBehind at' n →
    w_ledger w1 = w_ledger w → w_ledger_sync_service w1 = w_ledger_sync_service w →
    (∀ s, attempted later n s → sync_step now later true (w_ledger_sync_state w) s) →
    sync_outcome now later w true true w1.

Lemma sync_phase now later w s b w1 :
  worker_ok w → next_sync_state w now = Done s →
  sync_transition (w_ledger_sync_state w) later (set_ledger_sync_state s w) = Done (b, w1) →
  ∃ is_behind, ls_is_behind (w_ledger_sync_service w) (w_ledger w) (w_network_state w) = Done is_behind ∧
    sync_outcome now later w is_behind b w1.
Proof.
  intros [Hp Hf Hs Hn] (x & Hx & Hnext)%next_sync_Done Ht. exists x. split; [done|].
  destruct (w_ledger_sync_state w) as [|t|at' n] eqn:Es.
  - rewrite Hf in Hs. destruct x; subst s; injection Ht as <- <-; constructor; cbn; rewrite ?Es; try done;
      try (constructor; cbn; auto; fail); intros s [->| ->]; by repeat constructor.
  - rewrite Hf in Hs. destruct x; [destruct Hnext as [[Ht1 ->]|[Ht1 ->]]|subst s]; injection Ht as <- <-.
    + constructor; cbn; rewrite ?Es; try done; try (constructor; cbn; auto; fail).
      intros s [->| ->]; by constructor.
    + eapply outcome_sync; cbn; rewrite ?Es; try done. intros s Ha. by constructor.
    + constructor; cbn; rewrite ?Es; try done; try (constructor; cbn; auto; fail).
      intros s [->| ->]; by constructor.
  - destruct x; subst s.
    + injection Ht as <- <-. destruct (N.leb_spec at' later).
      * eapply outcome_sync; cbn; rewrite ?Es; try done. intros s Ha. by constructor.
      * eapply outcome_waiting; cbn; rewrite ?Es; try done; by constructor.
    + destruct (catch_up_going later (set_ledger_sync_state InSync w) _ _ _ _ Hp eq_refl Ht) as (-> & Hg & El & Es1).
      constructor; [done|done|by rewrite Hf|]. rewrite Es, Es1. intros s [->| ->]; constructor.
Qed.

Lemma tick_going now later tasks w b w' :
  worker_ok w → tick responder_id now later tasks w = Done (b, w') →
  worker_ok w' ∧ ledger_step w w' ∧
  (w_is_behind w = false → w_is_behind w' = false →
   w_current_slot_index w' = w_current_slot_index w ∨
   w_current_slot_index w' = u64_add (w_current_slot_index w) 1) ∧
  (b = true → ∃ w0 is_behind, receive_tasks responder_id tasks w = Done (true, w0) ∧
     ls_is_behind (w_ledger_sync_service w) (w_ledger w) (w_network_state w0) = Done is_behind ∧
     sync_step now later is_behind (w_ledger_sync_state w) (w_ledger_sync_state w')).
Proof.
  intros Hok. unfold tick. intros ([go w0] & Hrec & Hr)%exec_bind_Done.
  destruct (receive_tasks_ok _ _ _ _ Hok Hrec) as (Hok0 & (E1 & E2 & E3 & E4 & E5)%ledger_part_inv & _).
  destruct go; cbn [negb] in Hr; [|injection Hr as <- <-; split_and!; [done|by constructor|by left|done]].
  apply exec_bind_Done in Hr as (s & Hs & Hr). apply exec_bind_Done in Hr as ([sy w1] & Ht & Hr).
  destruct (sync_phase _ _ _ _ _ _ Hok0 Hs Ht) as (x & Hx & Hout).
  rewrite E1, E2 in Hx. rewrite <-E3, <-E4, <-E5. assert (∀ v, ledger_step w0 v → ledger_step w v) as Hfr.
  { intros v [? | d n ?? | net r ??]; [constructor 1|econstructor 2|econstructor 3]; rewrite <-?E1, <-?E2; done. }
  destruct Hout as [x w1 Hg El Ei Hst|w1 at' n Hok1 Es1 El Hst|w1 at' n Hp Hn Hb Es1 El Els Hst].
  - assert (∀ r, match w_ledger_sync_state w1 with IsBehind _ _ => r | _ =>
       (assert! negb (w_is_behind w1) in
          let! w := consensus_round responder_id later w1 in
          let! _num_pending_values := pv_len (w_pending_values w) in Done (true, w)) end = Done (b, w') →
       b = true ∧ consensus_round responder_id later w1 = Done w') as Hround.
    { intros r Hm. pose proof (wg_state _ Hg) as Hw1. destruct (w_ledger_sync_state w1); [..|done];
        (destruct (negb _) in Hm; [|done]); apply exec_bind_Done in Hm as (w2 & H2 & Hm);
        by apply exec_bind_Done in Hm as (k & _ & [= <- <-]). }
    apply Hround in Hr as [-> Hr].
    destruct (consensus_round_ok _ _ _ Hg Hr) as (Hok' & Hb' & Hcase). split_and!; [done| | |].
    + apply Hfr. destruct Hcase as [(Hl & _)|(Hi & _ & d & Hd)]; [constructor 1; by rewrite Hl|].
      econstructor 2; [|exact Hi|by rewrite <-El; exact Hd]. rewrite <-El. apply Hg.
    + intros Hb0 _. rewrite <-(Ei Hb0). destruct Hcase as [(_ & -> & _)|(-> & _)]; [by left|by right].
    + intros _. exists w0, x. split_and!; [done..|]. apply Hst. destruct Hcase as [(_ & _ & ->)|(_ & -> & _)]; [by right|by left].
  - rewrite Es1 in Hr. injection Hr as <- <-. split_and!; [done|apply Hfr; by constructor| |].
    + intros _. by rewrite (wo_flag _ Hok1), Es1.
    + intros _. exists w0, true. by rewrite Es1.
  - apply exec_bind_Done in Hr as (w2 & H2 & [= <- <-]).
    destruct (sync_next_ok _ _ _ Hp Hn Hb H2) as (Hok' & Hl & at2 & n2 & Es2 & Ha).
    rewrite Es1 in Es2. injection Es2 as <- <-. split_and!; [done| | |intros _; exists w0, true; split_and!; [done..|by apply Hst]].
    + apply Hfr. destruct Hl as [? | d n' ?? | net r ??]; [constructor 1|econstructor 2|econstructor 3];
        rewrite <-?El, <-?Els; done.
    + intros _ Hb'. rewrite (wo_flag _ Hok') in Hb'. by destruct Ha.
Qed.

(** ** The theorems *)

(** The states of a running worker. *)
Inductive reachable : Worker → Prop :=
| reach_new scp_node ledger ls pc txm bv gov w :
    Worker_new scp_node ledger ls pc txm bv gov = Done w → reachable w
| reach_tick now later tasks w w' :
    reachable w → tick responder_id now later tasks w = Done (true, w') → reachable w'.

Lemma reachable_ok w : reachable w → worker_ok w.
Proof.
  induction 1 as [????????  Hn|now later tasks w w' _ IH Ht]; [by eapply worker_ok_new|].
  by apply (tick_going _ _ _ _ _ _ IH Ht).
Qed.

(** C33: in every state of a running worker the pending values are consistent
    (no value twice, each with its time), the flag other threads read says
    whether the node is behind, the slot worked on is the next block of the
    ledger unless the node is behind, and between ticks values wait whenever the
    worker means to nominate.  A tick changes the ledger only by appending one block or by
    ledger sync while behind, and moves the slot of a node that is not behind
    by at most one. *)
Theorem worker_invariant w :
  reachable w →
  worker_ok w ∧
  ∀ now later tasks b w', tick responder_id now later tasks w = Done (b, w') →
    ledger_step w w' ∧
    (w_is_behind w = false → w_is_behind w' = false →
     w_current_slot_index w' = w_current_slot_index w ∨
     w_current_slot_index w' = u64_add (w_current_slot_index w) 1).
Proof.
  intros Hok%reachable_ok. split; [done|]. intros now later tasks b w' Ht.
  by destruct (tick_going _ _ _ _ _ _ Hok Ht) as (_ & ? & ? & _).
Qed.

(** From tick to tick the state of synchronization follows its state
    machine: a node suspects being behind first, is behind only when ledger
    sync has said so for longer than the grace period, tries to sync only
    then, waits longer after each failure but never more than a minute, and is
    in sync again when ledger sync no longer sees it behind. *)
Theorem sync_state_machine now later tasks w w' :
  reachable w → tick responder_id now later tasks w = Done (true, w') →
  (∃ w0 is_behind, receive_tasks responder_id tasks w = Done (true, w0) ∧
    ls_is_behind (w_ledger_sync_service w) (w_ledger w) (w_network_state w0) = Done is_behind ∧
    sync_step now later is_behind (w_ledger_sync_state w) (w_ledger_sync_state w')) ∧
  ∀ at' n, w_ledger_sync_state w' = IsBehind at' n → w_ledger_sync_state w' ≠ w_ledger_sync_state w →
    later <= at' <= later + 60000.
Proof.
  intros Hok%reachable_ok Ht. destruct (tick_going _ _ _ _ _ _ Hok Ht) as (_ & _ & _ & Hst).
  destruct (Hst eq_refl) as (w0 & b & Hrec & Hb & Hstep). split; [by exists w0, b|].
  intros at' n Es Hne. destruct Hstep as [s| |t ?|s ?|t s' ? Ha|a k ?|a k s' ? Ha]; try done;
    destruct Ha; injection Es as <- <-; lia.
Qed.

(** The panics of a tick that guard the state of synchronization are not
    reached: the transition panics only if the ledger, the SCP node or the
    validation of values fails while catching up; a sync starts only when
    behind; and consensus goes on only when the flag says so. *)
Theorem sync_assertions_hold now later w s :
  reachable w → next_sync_state w now = Done s →
  let r := sync_transition (w_ledger_sync_state w) later (set_ledger_sync_state s w) in
  (r = Panic → behind (w_ledger_sync_state w) = true ∧ s = InSync) ∧
  (∀ w1, r = Done (true, w1) → behind (w_ledger_sync_state w1) = true) ∧
  (∀ w1, r = Done (false, w1) → w_is_behind w1 = behind (w_ledger_sync_state w1)).
Proof.
  intros Hok%reachable_ok Hs r. split_and!.
  - subst r. apply next_sync_Done in Hs as ([] & _ & Hs); destruct (w_ledger_sync_state w) as [|t|a n];
      [|destruct Hs as [[_ Hs]|[_ Hs]]|..]; by subst s.
  - intros w1 Hr. destruct (sync_phase _ _ _ _ _ _ Hok Hs Hr) as (x & _ & Ho).
    inversion Ho as [| |w2 a k _ _ _ Es]. by rewrite Es.
  - intros w1 Hr. destruct (sync_phase _ _ _ _ _ _ Hok Hs Hr) as (x & _ & Ho).
    inversion Ho as [?? Hg|??? Hok1|]; subst; [by rewrite (wg_flag _ Hg), (wg_state _ Hg)|apply Hok1].
Qed.

(** Completing a slot appends to the ledger the block formed from the
    externalized values and moves to the next slot; the pending values that
    remain were pending before, were not externalized, and are valid for the
    new ledger. *)
Theorem complete_current_slot_correct ext w w' :
  worker_ok w → w_is_behind w = false → w_need_nominate w = false →
  complete_current_slot ext w = Done w' →
  worker_ok w' ∧ w_ledger_sync_state w' = InSync ∧
  w_current_slot_index w' = u64_add (w_current_slot_index w) 1 ∧
  (∀ v, v ∈ pv_values (w_pending_values w') →
     v ∈ pv_values (w_pending_values w) ∧ v ∉ ext ∧ validate w' v = Done (Ok tt)) ∧
  ∃ d, form_block_from_externalized_values w ext = Done d ∧
    l_append_block_data (w_ledger w) d = Done (Ok tt, w_ledger w').
Proof. apply complete_ok. Qed.

(** A node that was behind and catches up panics in its next tick if it
    means to nominate and no pending value is valid any more: the values are
    removed, the wish to nominate is not, and the proposal asserts that there
    are values. *)
Theorem catch_up_panics now later tasks w w0 at' n i node :
  receive_tasks responder_id tasks w = Done (true, w0) →
  w_ledger_sync_state w0 = IsBehind at' n → next_sync_state w0 now = Done InSync →
  w_need_nominate w0 = true → pending_ok (w_pending_values w0) →
  l_num_blocks (w_ledger w0) = Done (Ok i) → scp_reset_slot_index i (w_scp_node w0) = Done node →
  (∀ v, v ∈ pv_values (w_pending_values w0) → ∃ e, validate w0 v = Done (Err e)) →
  tick responder_id now later tasks w = Panic.
Proof.
  intros Hrec Hs Hnext Hneed Hok Hi Hreset Hinv. unfold tick. rewrite Hrec. cbn [exec_bind negb].
  rewrite Hnext. cbn [exec_bind]. rewrite Hs. unfold sync_transition. cbn [w_ledger_sync_state set_ledger_sync_state].
  set (w1 := set_is_behind false _).
  assert (eexpect (l_num_blocks (w_ledger w1)) = Done i) as -> by by apply eexpect_Done. cbn [exec_bind].
  set (w2 := set_current_slot_index i w1).
  assert (scp_reset_slot_index (w_current_slot_index w2) (w_scp_node w2) = Done node) as -> by exact Hreset.
  cbn [exec_bind]. set (w3 := set_scp_node node w2).
  destruct (pv_retain_ok (validate w3) is_ok (w_pending_values w3) Hok) as (p & Hp & Hpok & _ & Hpv).
  { intros v Hv. destruct (Hinv v Hv) as [e He]. exists (Err e). exact He. }
  assert (clear_invalid_values (validate w3) (w_pending_values w3) = Done p) as -> by exact Hp. cbn [exec_bind].
  assert (pv_values p = []) as Hnil.
  { apply elem_of_nil_inv. intros v (Hv & r & Hr & Hk)%Hpv. destruct (Hinv v Hv) as [e He].
    change (validate w0 v = Done r) in Hr. rewrite He in Hr. by injection Hr as <-. }
  cbn [w_pending_values set_pending_values].
  rewrite (pv_is_empty_ok p Hpok), (bool_decide_true _ Hnil). cbn [exec_bind negb].
  change (w_ledger_sync_state (set_pending_values p w3)) with InSync. cbv iota.
  change (w_is_behind (set_pending_values p w3)) with false. cbn [negb]. unfold consensus_round.
  change (w_need_nominate (set_pending_values p w3)) with (w_need_nominate w0). rewrite Hneed.
  unfold propose_pending_values. cbn [w_pending_values set_pending_values].
  by rewrite (pv_is_empty_ok p Hpok), (bool_decide_true _ Hnil).
Qed.

(** The message kept as the highest one issued goes back to an older slot
    when that slot issues a message of a later topic. *)
Theorem highest_issued_msg_goes_back msg m h w w' :
  from_scp_msg (w_ledger w) msg = Done (Ok m) → w_highest_issued_msg w = Some h →
  msg_slot_index (scp_msg m) < msg_slot_index (scp_msg h) →
  ord_gtb (topic (scp_msg m)) (topic (scp_msg h)) = true →
  issue_consensus_message responder_id msg w = Done w' →
  w_highest_issued_msg w' = Some m.
Proof.
  intros Hm Hh _ Ht. unfold issue_consensus_message. rewrite Hm. intros [= <-].
  cbn [w_highest_issued_msg broadcast_msg set_broadcast]. rewrite Hh, Ht, orb_true_r. done.
Qed.
End props.

(** ** Witnesses

    A worker over a chain of blocks kept in a list; its SCP node externalizes
    what it is given to propose; ledger sync knows of a length of the chain to
    reach and appends ten blocks at a time. *)

#[local] Existing Instance MintStoreProps.toy_ed25519.
#[local] Existing Instance MintStoreProps.toy_mint_digests.
#[local] Existing Instance ValidationProps.toy_tx_crypto.
#[local] Existing Instance TxManagerProps.toy_enclave.
#[local] Existing Instance elements_iter.

Definition chain_block (n : N) : Block :=
  mkBlock (vreplicate 32 (u8 n)) 0 (vreplicate 32 (u8 0)) n n (mkElement (mkRange 0 0) (vreplicate 32 (u8 0)))
    (vreplicate 32 (u8 0)).

#[local] Instance chain_reads : LedgerReads (list Block) := {|
  l_num_blocks l := Done (Ok (N.of_nat (length l)));
  l_get_block l n := Done (match l !! N.to_nat n with Some b => Ok b | None => Err NotFound end);
  l_contains_key_image _ _ := Done (Ok false);
  l_contains_tx_out_public_key _ _ := Done (Ok false);
  l_get_tx_out_proof_of_memberships _ _ := Done (Ok []);
  l_get_root_tx_out_membership_element _ := Done (Ok (mkElement (mkRange 0 0) (vreplicate 32 (u8 0))));
  l_check_mint_config_tx_nonce _ _ _ := Done (Ok None);
  l_check_mint_tx_nonce _ _ _ := Done (Ok None);
  l_get_active_mint_configs _ _ := Done (Ok None);
  l_get_active_mint_config_for_mint_tx _ _ := Done (Err NotFound)
|}.
#[local] Instance chain_appends : LedgerAppends (list Block) unit unit :=
  λ l d, Done (Ok tt, l ++ [bd_block d]).

#[local] Instance chain_sync : LedgerSync (ID:=N) (L:=list Block) N := {|
  ls_is_behind target l _ := Done (N.of_nat (length l) <? target);
  ls_attempt_ledger_sync _ _ x :=
    Done (Ok tt, (x.1, x.2 ++ ((λ k, chain_block (N.of_nat (length x.2 + k))) <$> seq 0 10)))
|}.

(** The slot and the values it externalized. *)
#[local] Instance eager_node : ScpNode (ID:=N) (L:=list Block) (E:=unit) (N * option (gset ConsensusValue)) := {|
  scp_node_id _ := 1;
  scp_quorum_set _ := Ctor.new 1 [Node 2];
  scp_propose_values _ _ vs n := Done (Ok None, (n.1, Some vs));
  scp_handle_messages _ _ _ n := Done (Ok [], n);
  scp_max_externalized_slots _ := 10;
  scp_get_externalized_values n i := Done (if n.1 =? i then elements <$> n.2 else None);
  scp_process_timeouts _ _ n := Done ([], n);
  scp_reset_slot_index i _ := Done (i, None)
|}.
#[local] Instance no_peers : PeerConnections (RID:=N) unit := {|
  pc_conn _ _ := false;
  pc_fetch_txs c _ _ := (Err OtherPeerError, c)
|}.
#[local] Instance chain_former : BlockFormer unit unit unit := {|
  form_block _ parent _ _ _ _ :=
    Done (chain_block (index parent + 1), mkBlockContents [] [] [] [], tt);
  worker_block_metadata _ _ := Done tt
|}.
#[local] Instance chain_crypto : MsgCrypto (ID:=N) := {|
  msg_digest _ _ := [];
  try_sign _ := Ok (vreplicate 64 (u8 0));
  id_public_key _ := vreplicate 32 (u8 0)
|}.

Definition toy_worker : Type :=
  Worker (ID:=N) (RID:=N) (L:=list Block) (E:=unit) (N':=N * option (gset ConsensusValue)) (LS:=N) (PC:=unit).

Definition start_worker (target : N) : exec toy_worker :=
  Worker_new (5, None) (chain_block <$> [0; 1; 2; 3; 4]) target tt (TxManagerProps.ex_manager [u8 7])
    VERSION_MAX (GovernorsMap.mkGovernorsMap ∅).
Definition toy_value : ConsensusValue := CvTxHash (TxManagerProps.ex_fill (u8 7)).
Definition toy_tick (now : N) (tasks : list (TaskMessage (ID:=N) (RID:=N))) (m : exec toy_worker) : exec toy_worker :=
  let! w := m in
  let! (go_on, w) := tick (λ n, n) now now tasks w in
  if go_on : bool then Done w else Panic.

Lemma toy_tick_reachable now tasks m :
  (∀ w, m = Done w → reachable (λ n, n) w) →
  ∀ w, toy_tick now tasks m = Done w → reachable (λ n, n) w.
Proof.
  intros Hm w (w0 & H0 & Hr)%exec_bind_Done. apply exec_bind_Done in Hr as ([go w1] & Ht & Hr).
  destruct go; [|done]. injection Hr as <-. eapply reach_tick; [by apply Hm|exact Ht].
Qed.

Lemma start_reachable target w : start_worker target = Done w → reachable (λ n, n) w.
Proof. intros Hw. eapply reach_new. exact Hw. Qed.


(** The outcome of a run, and tests on it. *)
Definition holds {A} (m : exec A) (P : A → Prop) : Prop := match m with Done a => P a | _ => False end.
Definition passes {A} (m : exec A) (c : A → bool) : bool := match m with Done a => c a | _ => false end.

Lemma holds_intro {A} (m : exec A) (c : A → bool) (P : A → Prop) :
  passes m c = true → (∀ a, m = Done a → c a = true → P a) → holds m P.
Proof. destruct m; [|done..]. intros Hc Hm. by apply Hm. Qed.

(** One tick with a new value: it is proposed, externalized and put in block 5. *)
Lemma worker_invariant_witness :
  holds (start_worker 0) (λ w, holds (tick (λ n : N, n) 0 0 [Values None [toy_value]] w) (λ r,
    ledger_step w r.2 ∧
    (w_current_slot_index r.2 = w_current_slot_index w ∨
     w_current_slot_index r.2 = u64_add (w_current_slot_index w) 1))).
Proof.
  apply (holds_intro _ (λ w, passes (tick (λ n : N, n) 0 0 [Values None [toy_value]] w)
    (λ r, negb (w_is_behind w) && negb (w_is_behind r.2)))); [by vm_compute|].
  intros w Hw Hc. eapply holds_intro; [exact Hc|]. intros [b w'] Ht [Hb%negb_true_iff Hb'%negb_true_iff]%andb_prop.
  destruct (worker_invariant (λ n : N, n) w (start_reachable _ _ Hw)) as [_ Htick].
  destruct (Htick 0 0 [Values None [toy_value]] b w' Ht) as [Hl Hi]. split; [exact Hl|by apply Hi].
Defined.

(** A node that has seen for long enough that it is behind. *)
Lemma behind_reachable w : toy_tick 0 [] (start_worker 15) = Done w → reachable (λ n : N, n) w.
Proof. apply toy_tick_reachable. intros w0. apply start_reachable. Qed.

Lemma sync_state_machine_witness :
  holds (toy_tick 0 [] (start_worker 15)) (λ w, holds (tick (λ n : N, n) 20000 20000 [] w) (λ r,
    ∃ b, sync_step 20000 20000 b (w_ledger_sync_state w) (w_ledger_sync_state r.2))).
Proof.
  apply (holds_intro _ (λ w, passes (tick (λ n : N, n) 20000 20000 [] w) (λ r, r.1))); [by vm_compute|].
  intros w Hw Hc. eapply holds_intro; [exact Hc|]. intros [b w'] Ht Hb. simpl in Hb. subst b.
  destruct (sync_state_machine (λ n : N, n) 20000 20000 [] w w' (behind_reachable w Hw) Ht)
    as [(w0 & x & _ & _ & Hs) _].
  by exists x.
Defined.

Lemma sync_assertions_hold_witness :
  holds (toy_tick 0 [] (start_worker 15)) (λ w, holds (next_sync_state w 20000) (λ s,
    sync_transition (w_ledger_sync_state w) 20000 (set_ledger_sync_state s w) ≠ Panic)).
Proof.
  apply (holds_intro _ (λ w, passes (next_sync_state w 20000) (λ s, negb (behind (w_ledger_sync_state w)))));
    [by vm_compute|].
  intros w Hw Hc. eapply holds_intro; [exact Hc|]. intros s Hs Hb.
  destruct (sync_assertions_hold (λ n : N, n) 20000 20000 w s (behind_reachable w Hw) Hs) as (Hp & _).
  intros [Hb' _]%Hp. by rewrite Hb' in Hb.
Defined.

Lemma complete_current_slot_correct_witness :
  holds (start_worker 0) (λ w, holds (complete_current_slot [toy_value] w) (λ w',
    worker_ok w' ∧ ∃ d, form_block_from_externalized_values w [toy_value] = Done d)).
Proof.
  apply (holds_intro _ (λ w, passes (complete_current_slot [toy_value] w)
    (λ _, negb (w_is_behind w) && negb (w_need_nominate w)))); [by vm_compute|].
  intros w Hw Hc. eapply holds_intro; [exact Hc|]. intros w' Hc' [Hb%negb_true_iff Hn%negb_true_iff]%andb_prop.
  destruct (complete_current_slot_correct [toy_value] w w' (reachable_ok _ _ (start_reachable _ _ Hw)) Hb Hn Hc')
    as (Hok' & _ & _ & _ & d & Hd & _).
  split; [exact Hok'|]. by exists d.
Defined.

(** The value comes in when the node turns out to be behind, and its tombstone
    block is among the blocks synced. *)
Definition caught_up (w : toy_worker) : bool :=
  behind (w_ledger_sync_state w) && w_need_nominate w &&
  passes (next_sync_state w 20001) (λ s, bool_decide (s = InSync)) &&
  forallb (λ v, passes (validate w v) (λ r, negb (is_ok r))) (pv_values (w_pending_values w)).

Lemma catch_up_panics_witness :
  holds (toy_tick 20000 [Values None [toy_value]] (toy_tick 0 [] (start_worker 15))) (λ w,
    reachable (λ n : N, n) w ∧ tick (λ n : N, n) 20001 20001 [] w = Panic).
Proof.
  apply (holds_intro _ (λ w, passes (receive_tasks (λ n : N, n) [] w) (λ r, r.1 && caught_up r.2)));
    [by vm_compute|].
  intros w Hw Hc. pose proof (toy_tick_reachable _ _ _ behind_reachable w Hw) as Hreach. split; [exact Hreach|].
  destruct (receive_tasks (λ n : N, n) [] w) as [[b w0]| |] eqn:Hrec; [|done..].
  apply andb_prop in Hc as [Hb Hc]. simpl in Hb. subst b.
  destruct (receive_tasks_ok _ _ _ _ _ (reachable_ok _ _ Hreach) Hrec) as ([Hok _ _ _] & _).
  apply andb_prop in Hc as [[[Hst Hneed]%andb_prop Hnext]%andb_prop Hval]. simpl in *.
  destruct (w_ledger_sync_state w0) as [| |at' n] eqn:Es; [done..|].
  assert (next_sync_state w0 20001 = Done InSync) as Hnext'.
  { destruct (next_sync_state w0 20001); [|done..]. by apply bool_decide_eq_true in Hnext as ->. }
  eapply (catch_up_panics (λ n : N, n) 20001 20001 [] w w0 at' n); try done.
  intros v Hv. rewrite forallb_forall in Hval. apply list_elem_of_In, Hval in Hv.
  destruct (validate w0 v) as [[|e]| |]; [done|by exists e|done..].
Defined.

(** Slot 4 nominates, then slot 3 externalizes. *)
Definition msg_of (slot : N) (t : Topic ConsensusValue) : Msg ConsensusValue N :=
  mkMsg 1 slot (Ctor.new 1 [Node 2]) t.
Definition nominate_4 := msg_of 4 (Nominate (mkNominate ∅ ∅)).
Definition externalize_3 := msg_of 3 (Externalize (mkExternalize (mkBallot 1 []) 1)).

Lemma highest_issued_msg_goes_back_witness :
  holds (let! w := start_worker 0 in issue_consensus_message (λ n : N, n) nominate_4 w) (λ w,
    holds (issue_consensus_message (λ n : N, n) externalize_3 w) (λ w',
      msg_slot_index ∘ scp_msg <$> w_highest_issued_msg w' = Some 3)).
Proof.
  apply (holds_intro _ (λ w, passes (issue_consensus_message (λ n : N, n) externalize_3 w) (λ _,
    passes (from_scp_msg (w_ledger w) externalize_3) (λ r,
      match r, w_highest_issued_msg w with
      | Ok m, Some h => (msg_slot_index (scp_msg m) <? msg_slot_index (scp_msg h)) &&
          ord_gtb (topic (scp_msg m)) (topic (scp_msg h)) && (msg_slot_index (scp_msg m) =? 3)
      | _, _ => false
      end)))); [by vm_compute|].
  intros w _ Hc. eapply holds_intro; [exact Hc|]. intros w' Hw' Hp.
  destruct (from_scp_msg (w_ledger w) externalize_3) as [[m|]| |] eqn:Em; [|done..].
  simpl in Hp. destruct (w_highest_issued_msg w) as [h|] eqn:Eh; [|done].
  apply andb_prop in Hp as [[Hs%N.ltb_lt Ht]%andb_prop H3%N.eqb_eq].
  rewrite (highest_issued_msg_goes_back (λ n : N, n) externalize_3 m h w w' Em Eh Hs Ht Hw').
  simpl. by rewrite H3.
Defined.
End WorkerProps.
