(* ===== verification/Enclave.v ===== *)
(** * The consensus enclave

    [consensus/enclave/impl/src/lib.rs]: the enclave that decrypts transactions,
    decides which are well formed, keeps them encrypted outside, and forms
    blocks: it validates the transactions again, collects the fees in outputs of
    its own, performs minting and links the block to its parent.

    The key exchange and the channels ([crypto/ake/enclave]), sealing, the
    encoding of transactions and the digests are parameters: the classes [Ake],
    [EnclaveCodec] and [EnclaveDigests].  The keys built into the enclave are the
    class [EnclaveKeys].  The ciphers draw keys from the state [mc_rng]. *)

From stdpp Require Import vector strings.
From S2P Require Import Prelude Ord Bytes Lmdb TxOut Membership BlockVersion MaskedAmount Tx TxValidation Multisig Mint MintOrd MintStore Block LedgerDb LedgerApi MintTxManager CtArith MessageCipher Config Ristretto OnetimeKeys EnclaveError TxManager.

Open Scope N_scope.

(** ** Order of membership elements *)

Definition Range_key (r : Range) : N * (N * N) := (range_len r, (range_from r, range_to r)).
Lemma Range_cmp (a b : Range) : cmp a b = cmp (Range_key a) (Range_key b).
Proof.
  unfold cmp at 1, Range_ord, Range_key. unfold cmp at 3, prod_ord. cbn [fst snd].
  destruct (N.eqb_spec (range_len a) (range_len b)) as [->|Hne]; cbn [negb].
  - by rewrite cmp_refl.
  - destruct (cmp (range_len a) (range_len b)) eqn:E; [by apply cmp_eq_iff in E|done..].
Qed.

#[export] Instance Range_total_ord : TotalOrd Range.
Proof.
  assert (Inj (=) (=) Range_key) by (intros [] []; unfold Range_key; simpl; congruence).
  split.
  - intros a b. rewrite Range_cmp, cmp_eq_iff. split; [apply (inj Range_key)|by intros ->].
  - intros a b. rewrite !Range_cmp. apply cmp_opp.
  - intros a b c. rewrite !Range_cmp. apply cmp_lt_trans.
Qed.
Definition element_key (e : TxOutMembershipElement) : Range * bytes32 := (el_range e, el_hash e).
#[export] Instance element_ord : Ord TxOutMembershipElement := λ a b, cmp (element_key a) (element_key b).
#[export] Instance element_total_ord : TotalOrd TxOutMembershipElement.
Proof.
  assert (Inj (=) (=) element_key) by (intros [] []; unfold element_key; simpl; congruence).
  apply (total_ord_key element_key).
Qed.

(** ** What the enclave uses *)

(** Attested channels and the identity of the enclave: decryption and
    encryption change the state of a channel; the block signing key is part of
    the state. *)
Class Ake (A ClientMessage PeerSession PeerMessage BlockSignature : Type) : Type := {
  ake_init : A → string → string → result unit unit * A;
  client_decrypt : A → ClientMessage → result bytes unit * A;
  peer_decrypt : A → PeerMessage → result bytes unit * A;
  is_peer_known : A → PeerSession → result bool unit;
  peer_encrypt : A → PeerSession → bytes → bytes → result PeerMessage unit * A;
  unseal_key : A → bytes → result A unit;
  seal_key : A → result bytes unit;
  sign_block : A → Block → result BlockSignature unit
}.

(** Protobuf encoding of [Tx], [WellFormedTx] and [TxList]. *)
Class EnclaveCodec : Type := {
  encode_tx : Tx → bytes;
  decode_tx : bytes → option Tx;
  encode_well_formed_tx : Tx → bytes;
  decode_well_formed_tx : bytes → option Tx;
  encode_tx_list : list Tx → bytes;
  decode_tx_list : bytes → option (list Tx)
}.

(** [rust_tx] are the values of the type [Tx]: their integers have the widths of
    the fields.  These are what decoding gives, and what is encoded of them is
    decoded again. *)
Class EnclaveCodecLaws `{EnclaveCodec} : Type := {
  rust_tx : Tx → Prop;
  rust_tx_fee tx : rust_tx tx → fee (prefix tx) < u64_modulus;
  decode_tx_rust b tx : decode_tx b = Some tx → rust_tx tx;
  decode_well_formed_tx_rust b tx : decode_well_formed_tx b = Some tx → rust_tx tx;
  decode_tx_list_rust b txs : decode_tx_list b = Some txs → Forall rust_tx txs;
  decode_encode_tx tx : rust_tx tx → decode_tx (encode_tx tx) = Some tx;
  decode_encode_well_formed_tx tx :
    rust_tx tx → decode_well_formed_tx (encode_well_formed_tx tx) = Some tx;
  decode_encode_tx_list txs : Forall rust_tx txs → decode_tx_list (encode_tx_list txs) = Some txs
}.

(** The Merlin digests that the keys of minted outputs are made from. *)
Class EnclaveDigests : Type := {
  fee_output_digest : bytes → BlockID → list Tx → Amount → nat → bytes32;
  minted_output_digest : bytes → BlockID → list MintTx → Amount → nat → bytes32
}.

(** Keys fixed when the enclave is built; [Ed25519Public::try_from]. *)
Class EnclaveKeys : Type := {
  FEE_SPEND_PUBLIC_KEY : bytes32;
  FEE_VIEW_PUBLIC_KEY : bytes32;
  MINTING_TRUST_ROOT_PUBLIC_KEY : option Ed25519Public
}.

Definition FEES_OUTPUT_PRIVATE_KEY_DOMAIN_TAG : bytes := str_bytes "mc_fees_output_private_key".
Definition MINTED_OUTPUT_PRIVATE_KEY_DOMAIN_TAG : bytes := str_bytes "mc_minted_output_private_key".

Record FormBlockInputs := mkFormBlockInputs {
  well_formed_encrypted_txs_with_proofs : list (bytes * list TxOutMembershipProof);
  fb_mint_config_txs : list MintConfigTx;
  mint_txs_with_config : list (MintTx * MintConfigTx * MintConfig)
}.

(** The first element that appears twice. *)
Fixpoint first_duplicate {A} `{EqDecision A} (seen l : list A) : option A :=
  match l with
  | [] => None
  | x :: l => if bool_decide (x ∈ seen) then Some x else first_duplicate (x :: seen) l
  end.

Section enclave.
Context {Key : Type} `{EqDecision Key} `{AE : !Aead Key} `{X : TxCrypto} `{KR : !KeyRng Key Rng}.
Context `{D : Digests} `{C : Curve} `{V : Verifier Ed25519Public Ed25519Signature} `{DG : MintDigests}.
Context `{CD : ConfigDigests} `{BD : BlockDigests} `{TD : TxDigest} `{EC : EnclaveCodec}.
Context `{ED : EnclaveDigests} `{EK : EnclaveKeys}.
Context {A ClientMessage PeerSession PeerMessage BlockSignature : Type}.
Context `{AK : !Ake A ClientMessage PeerSession PeerMessage BlockSignature}.

(** Bound on the draws of a new key. *)
Variable fuel : nat.

(** [SgxConsensusEnclave]. *)
Record SgxConsensusEnclave := mkEnclave {
  ake : A;
  locally_encrypted_tx_cipher : AeadMessageCipher Key;
  well_formed_encrypted_tx_cipher : AeadMessageCipher Key;
  blockchain_config : option BlockchainConfigWithDigest;
  ct_min_fee_map : option (CtTokenMap N);
  mc_rng : Rng
}.
Implicit Types self : SgxConsensusEnclave.

Definition set_ake self (a : A) : SgxConsensusEnclave :=
  mkEnclave a (locally_encrypted_tx_cipher self) (well_formed_encrypted_tx_cipher self)
    (blockchain_config self) (ct_min_fee_map self) (mc_rng self).
Definition set_local_cipher self (c : AeadMessageCipher Key) (rng : Rng) : SgxConsensusEnclave :=
  mkEnclave (ake self) c (well_formed_encrypted_tx_cipher self) (blockchain_config self)
    (ct_min_fee_map self) rng.
Definition set_well_formed_cipher self (c : AeadMessageCipher Key) (rng : Rng) : SgxConsensusEnclave :=
  mkEnclave (ake self) (locally_encrypted_tx_cipher self) c (blockchain_config self)
    (ct_min_fee_map self) rng.

(** [SgxConsensusEnclave::new]. *)
Definition enclave_new (ake : A) (rng : Rng) : SgxConsensusEnclave :=
  let '(local, rng) := cipher_new rng in
  let '(well_formed, rng) := cipher_new rng in
  mkEnclave ake local well_formed None None rng.

(** [encrypt_well_formed_tx]. *)
Definition encrypt_well_formed_tx self (tx : Tx) : exec (bytes * SgxConsensusEnclave) :=
  let! (c, cipher, rng) :=
    encrypt_bytes fuel (well_formed_encrypted_tx_cipher self) (mc_rng self) (encode_well_formed_tx tx) in
  Done (c, set_well_formed_cipher self cipher rng).

(** [get_well_formed_tx_context]. *)
Definition get_well_formed_tx_context (tx : Tx) (min_fee : N) : exec WellFormedTxContext :=
  let! (priority, _) := ct_u64_divide (fee (prefix tx)) (N.shiftr min_fee SMALLEST_MINIMUM_FEE_LOG2) in
  Done (WellFormedTxContext_from_tx tx priority).

(** [decrypt_well_formed_tx]. *)
Definition decrypt_well_formed_tx self (encrypted : bytes) : result Tx EnclaveError :=
  let? plaintext := map_err CacheCipher (decrypt_bytes (well_formed_encrypted_tx_cipher self) encrypted) in
  ok_or (decode_well_formed_tx plaintext) Serialization.

(** The roots the proofs imply. *)
Definition implied_roots (proofs : list TxOutMembershipProof) :
    result (list TxOutMembershipElement) EnclaveError :=
  result_map (λ p, map_err (λ _, MalformedTx InvalidLedgerContext) (compute_implied_merkle_root p)) proofs.

(** The loop of [get_txs_from_inputs]: validate, and collect the roots. *)
Fixpoint validate_txs (l : list (Tx * list TxOutMembershipProof)) (parent : Block)
    (config : BlockchainConfig) (ct_min_fees : CtTokenMap N) (rng : Rng) :
    result (list TxOutMembershipElement) EnclaveError :=
  match l with
  | [] => Ok []
  | (tx, proofs) :: l =>
      let? minimum_fee := ok_or (ct_get ct_min_fees (fee_token_id (prefix tx)))
                            (MalformedTx TokenNotYetConfigured) in
      let? _ := map_err MalformedTx
        (validate tx (u64_add (index parent) 1) (config_block_version config) proofs minimum_fee rng) in
      let? roots := implied_roots proofs in
      let? rest := validate_txs l parent config ct_min_fees rng in
      Ok (roots ++ rest)
  end.

(** [get_txs_from_inputs]. *)
Definition get_txs_from_inputs self (inputs : list (bytes * list TxOutMembershipProof)) (parent : Block)
    (root : TxOutMembershipElement) (config : BlockchainConfig) (ct_min_fees : CtTokenMap N) (rng : Rng) :
    result (list Tx) EnclaveError :=
  if bool_decide (inputs = []) then Ok []
  else
    let? l := result_map (λ p, let? tx := decrypt_well_formed_tx self p.1 in Ok (tx, p.2)) inputs in
    let? roots := validate_txs l parent config ct_min_fees rng in
    match dedup (sort roots) with
    | [root_element] =>
        if negb (bool_decide (root = root_element)) then Err InvalidLocalMembershipRootElement
        else
          let transactions := l.*1 in
          match first_duplicate [] (tx_digest <$> transactions) with
          | Some h => Err (FormBlock (DuplicateTransaction h))
          | None =>
              match first_duplicate [] (transactions ≫= Tx.key_images) with
              | Some k => Err (FormBlock (DuplicateKeyImage k))
              | None =>
                  match first_duplicate [] (transactions ≫= output_public_keys) with
                  | Some k => Err (FormBlock (DuplicateOutputPublicKey k))
                  | None => Ok transactions
                  end
              end
          end
    | _ => Err InvalidLocalMembershipProof
    end.

(** [validate_mint_config_txs]; [seen] are the nonces of the transactions
    before. *)
Fixpoint validate_mint_config_txs_from (seen : list (bytes * N)) (txs : list MintConfigTx)
    (current_block_index : option N) (config : BlockchainConfig) :
    result (list ValidatedMintConfigTx) EnclaveError :=
  match txs with
  | [] => Ok []
  | tx :: txs =>
      let nonce := mct_nonce (mct_prefix tx) in
      let t := mct_token_id (mct_prefix tx) in
      if bool_decide ((nonce, t) ∈ seen) then Err (FormBlock (DuplicateMintConfigTxNonce t nonce))
      else
        let? governors := ok_or (GovernorsMap.get_governors_for_token (governors_map config) t)
                            (MalformedMintingTx (MintError.NoGovernors t)) in
        let? _ := map_err MalformedMintingTx (MintValidation.validate_mint_config_tx tx current_block_index
                    (config_block_version config) governors) in
        let? rest := validate_mint_config_txs_from ((nonce, t) :: seen) txs current_block_index config in
        Ok (mkValidatedMintConfigTx tx governors :: rest)
  end.
Definition validate_mint_config_txs := validate_mint_config_txs_from [].

(** [validate_mint_txs]. *)
Fixpoint validate_mint_txs_from (seen : list (bytes * N)) (l : list (MintTx * MintConfigTx * MintConfig))
    (current_block_index : N) (config : BlockchainConfig) : result (list MintTx) EnclaveError :=
  match l with
  | [] => Ok []
  | (mint_tx, mint_config_tx, mint_config) :: l =>
      let nonce := mint_nonce (mint_prefix mint_tx) in
      let t := mint_token_id (mint_prefix mint_tx) in
      if bool_decide ((nonce, t) ∈ seen) then Err (FormBlock (DuplicateMintTxNonce t nonce))
      else if negb (mct_token_id (mct_prefix mint_config_tx) =? t)
      then Err (FormBlock (MintTxTokenMismatch t (mct_token_id (mct_prefix mint_config_tx))))
      else if negb (bool_decide (mint_config ∈ mct_configs (mct_prefix mint_config_tx)))
      then Err (FormBlock MintConfigNotInMintConfigTx)
      else
        let? _ := validate_mint_config_txs [mint_config_tx] None config in
        let? _ := map_err MalformedMintingTx (MintValidation.validate_mint_tx mint_tx current_block_index
                    (config_block_version config) mint_config) in
        let? rest := validate_mint_txs_from ((nonce, t) :: seen) l current_block_index config in
        Ok (mint_tx :: rest)
  end.
Definition validate_mint_txs := validate_mint_txs_from [].

(** ** The interface [ConsensusEnclave] *)

(** [enclave_init]: the sealed key and the enclave after the call; a second
    call panics. *)
Definition enclave_init self (peer_self_id client_self_id : string) (sealed_key : option bytes)
    (config : BlockchainConfig) : exec (result bytes EnclaveError * SgxConsensusEnclave) :=
  match MINTING_TRUST_ROOT_PUBLIC_KEY with
  | None => Done (Err ParseMintingTrustRootPublicKey, self)
  | Some trust_root =>
      match config_validate config trust_root with
      | Err e => Done (Err (ConfigInvalid e), self)
      | Ok _ =>
          assert! bool_decide (ct_min_fee_map self = None) in
          let with_digest := ConfigWithDigest_from config in
          let peer_self_id := config_responder_id with_digest peer_self_id in
          assert! bool_decide (blockchain_config self = None) in
          let self := mkEnclave (ake self) (locally_encrypted_tx_cipher self)
            (well_formed_encrypted_tx_cipher self) (Some with_digest)
            (Some (btree_entries (FeeMap.map (fee_map config)))) (mc_rng self) in
          let '(r, a) := ake_init (ake self) peer_self_id client_self_id in
          let self := set_ake self a in
          match r with
          | Err _ => Done (Err Attest, self)
          | Ok _ =>
              let '(r, self) :=
                match sealed_key with
                | Some sealed =>
                    match unseal_key (ake self) sealed with
                    | Ok a => (Ok tt, set_ake self a)
                    | Err _ => (Err IntelSealing, self)
                    end
                | None => (Ok tt, self)
                end in
              match r with
              | Err e => Done (Err e, self)
              | Ok _ => Done (map_err (λ _, IntelSealing) (seal_key (ake self)), self)
              end
          end
      end
  end.

(** [get_minimum_fee]. *)
Definition get_minimum_fee self (t : TokenId) : result (option N) EnclaveError :=
  let? config := ok_or (blockchain_config self) NotInitialized in
  Ok (FeeMap.get_fee_for_token (fee_map (get_config config)) t).

(** [get_fee_recipient], as the address that is made from it. *)
Definition get_fee_recipient : result PublicAddress EnclaveError :=
  let? spend := map_err (λ _, FeePublicAddress) (point_try_from FEE_SPEND_PUBLIC_KEY) in
  let? view := map_err (λ _, FeePublicAddress) (point_try_from FEE_VIEW_PUBLIC_KEY) in
  Ok (PublicAddress_new spend view).

(** A transaction encrypted for this enclave, with what the service needs to
    know of it. *)
Definition make_tx_context self (tx : Tx) (tx_bytes : bytes) : exec (TxContext * SgxConsensusEnclave) :=
  let! (c, cipher, rng) := encrypt_bytes fuel (locally_encrypted_tx_cipher self) (mc_rng self) tx_bytes in
  Done (mkTxContext c (tx_digest tx) (get_membership_proof_highest_indices (prefix tx)) (Tx.key_images tx)
          (output_public_keys tx), set_local_cipher self cipher rng).

(** [client_tx_propose]. *)
Definition client_tx_propose self (msg : ClientMessage) :
    exec (result TxContext EnclaveError * SgxConsensusEnclave) :=
  let '(r, a) := client_decrypt (ake self) msg in
  let self := set_ake self a in
  match r with
  | Err _ => Done (Err Attest, self)
  | Ok tx_bytes =>
      match decode_tx tx_bytes with
      | None => Done (Err Serialization, self)
      | Some tx =>
          let check : result unit EnclaveError :=
            if negb (bool_decide (fee_map_digest tx = [])) then
              let? config := ok_or (blockchain_config self) NotInitialized in
              if negb (bool_decide (fee_map_digest tx = vec_to_list (canonical_fee_map_digest config)))
              then Err FeeMapDigestMismatch else Ok tt
            else Ok tt in
          match check with
          | Err e => Done (Err e, self)
          | Ok _ => let! (c, self) := make_tx_context self tx tx_bytes in Done (Ok c, self)
          end
      end
  end.

(** [peer_tx_propose]. *)
Fixpoint make_tx_contexts self (txs : list Tx) : exec (list TxContext * SgxConsensusEnclave) :=
  match txs with
  | [] => Done ([], self)
  | tx :: txs =>
      let! (c, self) := make_tx_context self tx (encode_tx tx) in
      let! (rest, self) := make_tx_contexts self txs in
      Done (c :: rest, self)
  end.

Definition peer_tx_propose self (msg : PeerMessage) :
    exec (result (list TxContext) EnclaveError * SgxConsensusEnclave) :=
  let '(r, a) := peer_decrypt (ake self) msg in
  let self := set_ake self a in
  match r with
  | Err _ => Done (Err Attest, self)
  | Ok data =>
      match decode_tx_list data with
      | None => Done (Err Serialization, self)
      | Some txs => let! (cs, self) := make_tx_contexts self txs in Done (Ok cs, self)
      end
  end.

(** The checks of [tx_is_well_formed]: the transaction and its minimum fee. *)
Definition check_well_formed self (encrypted : bytes) (block_index : N) (proofs : list TxOutMembershipProof) :
    result (Tx * N) EnclaveError :=
  let? config := ok_or (blockchain_config self) NotInitialized in
  let? min_fees := ok_or (ct_min_fee_map self) NotInitialized in
  let? roots := implied_roots proofs in
  if negb (bool_decide (length (remove_dups roots) = 1%nat)) then Err InvalidLocalMembershipProof
  else
    let? bytes := map_err CacheCipher (decrypt_bytes (locally_encrypted_tx_cipher self) encrypted) in
    let? tx := ok_or (decode_tx bytes) Serialization in
    let? minimum_fee := ok_or (ct_get min_fees (fee_token_id (prefix tx))) (MalformedTx TokenNotYetConfigured) in
    let? _ := for_each (λ t, let? _ := ok_or (ct_get min_fees t) (MalformedTx TokenNotYetConfigured) in Ok tt)
                (output_token_ids (signature tx)) in
    let? _ := map_err MalformedTx (validate tx block_index (config_block_version (get_config config)) proofs
                minimum_fee (mc_rng self)) in
    Ok (tx, minimum_fee).

(** [tx_is_well_formed]. *)
Definition enclave_tx_is_well_formed self (encrypted : bytes) (block_index : N)
    (proofs : list TxOutMembershipProof) :
    exec (result (bytes * WellFormedTxContext) EnclaveError * SgxConsensusEnclave) :=
  match check_well_formed self encrypted block_index proofs with
  | Err e => Done (Err e, self)
  | Ok (tx, minimum_fee) =>
      let! context := get_well_formed_tx_context tx minimum_fee in
      let! (c, self) := encrypt_well_formed_tx self tx in
      Done (Ok (c, context), self)
  end.

(** [txs_for_peer]. *)
Definition enclave_txs_for_peer self (encrypted_txs : list bytes) (aad : bytes) (peer : PeerSession) :
    exec (result PeerMessage EnclaveError * SgxConsensusEnclave) :=
  match is_peer_known (ake self) peer with
  | Err _ | Ok false => Done (Err Attest, self)
  | Ok true =>
      match result_map (decrypt_well_formed_tx self) encrypted_txs with
      | Err e => Done (Err e, self)
      | Ok txs =>
          let '(r, a) := peer_encrypt (ake self) peer aad (encode_tx_list txs) in
          Done (map_err (λ _, Attest) r, set_ake self a)
      end
  end.

#[export] Instance sgx_enclave : ConsensusEnclave SgxConsensusEnclave PeerSession PeerMessage := {|
  tx_is_well_formed := enclave_tx_is_well_formed;
  txs_for_peer := enclave_txs_for_peer
|}.

(** ** Forming a block *)

(** [mint_output]: the private key is the digest of what is minted. *)
Definition mint_output (block_version : BlockVersion) (recipient : PublicAddress)
    (digest : Amount → nat → bytes32) (amount : Amount) (e_fog_hint : option bytes) (counter : nat) :
    result TxOut EnclaveError :=
  if negb (masked_token_id_feature_is_supported block_version) && negb (token_id amount =? 0)
  then Err (BlockVersionError CannotMintTokenAtBlockVersion)
  else
    let tx_private_key := s_from_bytes (digest amount counter) in
    map_err (λ e, FormBlock (NewTx e))
      (TxOut_new block_version amount recipient tx_private_key (default [] e_fog_hint)).

(** The amounts of the fee outputs of one token: the total in chunks of at most
    [u64::MAX], at least one, with the counter of each. *)
Fixpoint fee_chunks (fuel : nat) (t : TokenId) (total_fee : N) (counter : nat) : exec (list (Amount * nat)) :=
  match fuel with
  | O => NoFuel
  | S fuel =>
      let output_fee := N.min total_fee u64_max in
      let total_fee := total_fee - output_fee in
      if total_fee =? 0 then Done [(mkAmount output_fee t, counter)]
      else
        let! rest := fee_chunks fuel t total_fee (S counter) in
        Done ((mkAmount output_fee t, counter) :: rest)
  end.

Fixpoint all_fee_chunks (l : list (TokenId * N)) : exec (list (Amount * nat)) :=
  match l with
  | [] => Done []
  | (t, total_fee) :: l =>
      let! chunks := fee_chunks (S (N.to_nat (total_fee / u64_max))) t total_fee 0 in
      let! rest := all_fee_chunks l in
      Done (chunks ++ rest)
  end.

(** The fees of each known token, those without fees last. *)
Definition compute_total_fees (ct_min_fees : CtTokenMap N) (transactions : list Tx) : CtTokenMap N :=
  let total_fees := ct_from_keys 0 (ct_keys ct_min_fees) in
  let total_fees := foldl (λ m tx, (ct_add_u128 m (fee_token_id (prefix tx)) (fee (prefix tx))).2)
                      total_fees transactions in
  sort_zeroes_to_end (λ v, v =? 0) total_fees.

(** The fee outputs. *)
Definition make_fee_outputs (config : BlockchainConfig) (fee_recipient : PublicAddress) (parent : Block)
    (transactions : list Tx) (ct_min_fees : CtTokenMap N) : exec (result (list TxOut) EnclaveError) :=
  let total_fees := compute_total_fees ct_min_fees transactions in
  let! chunks := all_fee_chunks (take (min (length total_fees) (length transactions)) total_fees) in
  Done (result_map (λ p, mint_output (config_block_version config) fee_recipient
    (fee_output_digest FEES_OUTPUT_PRIVATE_KEY_DOMAIN_TAG (id parent) transactions) p.1 None p.2) chunks).

(** The minted outputs; the keys of a [MintTx] are points. *)
Fixpoint make_minted_outputs (config : BlockchainConfig) (parent : Block) (all l : list MintTx) (counter : nat) :
    exec (result (list TxOut) EnclaveError) :=
  match l with
  | [] => Done (Ok [])
  | mint_tx :: l =>
      let p := mint_prefix mint_tx in
      if mint_token_id p =? TOKEN_MOB then Done (Err (FormBlock AttemptedToMintMob))
      else
        let! spend := unwrap (decompress (Mint.spend_public_key p)) in
        let! view := unwrap (decompress (Mint.view_public_key p)) in
        let^ output := Done (mint_output (config_block_version config) (PublicAddress_new spend view)
          (minted_output_digest MINTED_OUTPUT_PRIVATE_KEY_DOMAIN_TAG (id parent) all)
          (mkAmount (mint_amount p) (mint_token_id p)) (mint_e_fog_hint p) counter) in
        let^ rest := make_minted_outputs config parent all l (S counter) in
        Done (Ok (output :: rest))
  end.

(** [form_block]. *)
Definition form_block self (parent : Block) (inputs : FormBlockInputs) (root : TxOutMembershipElement) :
    exec (result (Block * BlockContents * BlockSignature) EnclaveError) :=
  let^ with_digest := Done (ok_or (blockchain_config self) NotInitialized) in
  let config := get_config with_digest in
  let^ min_fees := Done (ok_or (ct_min_fee_map self) NotInitialized) in
  if config_block_version config <? version parent
  then Done (Err (BlockVersionError (BlockVersionCannotDecrease (version parent) (config_block_version config))))
  else
    let^ transactions := Done (get_txs_from_inputs self (well_formed_encrypted_txs_with_proofs inputs) parent
                                 root config min_fees (mc_rng self)) in
    let^ fee_recipient := Done (map_err (λ _, FeePublicAddress) get_fee_recipient) in
    let^ fee_outputs := make_fee_outputs config fee_recipient parent transactions min_fees in
    let^ mint_txs := Done (validate_mint_txs (mint_txs_with_config inputs) (u64_add (index parent) 1) config) in
    let outs := (transactions ≫= (λ tx, Tx.outputs (prefix tx))) ++ fee_outputs in
    let images := transactions ≫= Tx.key_images in
    let^ minted := make_minted_outputs config parent mint_txs mint_txs 0 in
    let outs := sort_by (λ a b, cmp (public_key a) (public_key b)) (outs ++ minted) in
    let images := sort images in
    let^ configs := Done (validate_mint_config_txs (fb_mint_config_txs inputs)
                            (Some (u64_add (index parent) 1)) config) in
    let contents := mkBlockContents images outs configs mint_txs in
    let block := new_with_parent (config_block_version config) parent root contents in
    let^ sig := Done (map_err (λ _, Signature) (sign_block (ake self) block)) in
    Done (Ok (block, contents, sig)).
End enclave.
