(* ===== verification/LedgerSync.v ===== *)
(** * Synchronizing the ledger with the network

    [ledger/sync/src/ledger_sync]: a node that is behind asks its peers for
    blocks, chooses the highest block that enough peers agree on, fetches the
    contents of the blocks up to it, and appends those that are safe.

    The network is a parameter, the class [SyncWorld]: which answers arrive, in
    which order, and how the threads that fetch contents are scheduled.  The
    state of the network that decides which peers are enough is the class
    [NetworkState], of which [SCPNetworkState] is an instance. *)

From stdpp Require Import vector strings.
From S2P Require Import Prelude Ord Bytes QuorumSet ScpMsg NetworkState Lmdb TxOut Membership Multisig Mint Block LedgerDb LedgerApi Worker.

Open Scope N_scope.

(** [ledger_sync_error.rs]; errors of connections and fetchers are opaque. *)
Inductive LedgerSyncError :=
| DBError (e : Error)
| NoSafeBlocks
| EmptyBlockVec
| TransactionsAndBlockMismatch
| Consensus
| TransactionFetcher
| ApiConversionError
| InvalidBlockId
| NoTransactionData.

(** The trait [NetworkState]. *)
Class NetworkState (NS RID : Type) `{Countable RID} : Type := {
  network_is_blocking_and_quorum : NS → gset RID → exec bool;
  network_is_behind : NS → N → exec bool;
  network_highest_block_index : NS → exec (option N)
}.

#[export] Instance scp_network_state {ID RID} `{Countable ID} `{Countable RID} (as_ref : ID → RID) :
    NetworkState (SCPNetworkState ID) RID := {|
  network_is_blocking_and_quorum := is_blocking_and_quorum as_ref;
  network_is_behind := ns_is_behind as_ref;
  network_highest_block_index := highest_block_index_on_network as_ref
|}.

Definition DEFAULT_GET_BLOCK_CONTENTS_TIMEOUT : N := 30 * 1000.
Definition MAX_CONCURRENT_GET_BLOCK_CONTENTS_CALLS : nat := 50.
Definition MAX_BLOCKS_PER_SYNC_ITERATION : N := 10000.

(** ** Blocks of the peers *)

Section blocks.
Context `{BD : BlockDigests} {RID : Type} `{Countable RID} `{HI : HashIter}.

(** [verify_block_ids]. *)
Fixpoint check_block_ids (blocks : list Block) (prev_block : Block) : result unit LedgerSyncError :=
  match blocks with
  | [] => Ok tt
  | block :: blocks =>
      if negb (bool_decide (parent_id block = id prev_block)) then Err InvalidBlockId
      else if negb (is_block_id_valid block) then Err InvalidBlockId
      else check_block_ids blocks block
  end.
Definition verify_block_ids (blocks : list Block) (append_after_block : Block) :
    result (list Block) LedgerSyncError :=
  let? _ := check_block_ids blocks append_after_block in Ok blocks.

(** What the thread for a peer puts in the results. *)
Definition blocks_result (append_after_block : Block) (r : result (list Block) unit) : list Block :=
  match (let? blocks := map_err (λ _, Consensus) r in verify_block_ids blocks append_after_block) with
  | Ok blocks => blocks
  | Err _ => []
  end.

(** [get_blocks], for the answers that arrived in time, in their order. *)
Definition get_blocks (arrived : list (RID * result (list Block) unit)) (append_after_block : Block) :
    gmap RID (list Block) :=
  let results := foldl (λ m a, <[ a.1 := blocks_result append_after_block a.2 ]> m) ∅ arrived in
  filter (λ e : RID * list Block, e.2 ≠ []) results.

(** [group_by_block]. *)
Definition add_to_group (m : gmap N (gmap BlockID (gset RID))) (responder_id : RID) (block : Block) :
    gmap N (gmap BlockID (gset RID)) :=
  let groups := default ∅ (m !! index block) in
  let group := default ∅ (groups !! id block) in
  <[ index block := <[ id block := {[ responder_id ]} ∪ group ]> groups ]> m.
Definition group_by_block (node_to_blocks : gmap RID (list Block)) : gmap N (gmap BlockID (gset RID)) :=
  foldl (λ m e, foldl (λ m block, add_to_group m e.1 block) m e.2) ∅ (hm_iter node_to_blocks).

(** The loops of [get_potentially_safe_blocks] over the groups. *)
Section target.
Context {NS : Type} `{NST : !NetworkState NS RID}.

Fixpoint target_in_index (network_state : NS) (groups : list (BlockID * gset RID)) :
    exec (option (BlockID * list RID)) :=
  match groups with
  | [] => Done None
  | (block_id, responder_ids) :: groups =>
      let! enough := network_is_blocking_and_quorum network_state responder_ids in
      if enough : bool then Done (Some (block_id, hs_iter responder_ids))
      else target_in_index network_state groups
  end.

Fixpoint find_sync_target (network_state : NS) (grouping : list (N * gmap BlockID (gset RID))) :
    exec (option (N * BlockID * list RID)) :=
  match grouping with
  | [] => Done None
  | (block_index, groups) :: grouping =>
      let! found := target_in_index network_state (hm_iter groups) in
      match found with
      | Some (block_id, nodes) => Done (Some (block_index, block_id, nodes))
      | None => find_sync_target network_state grouping
      end
  end.

(** The choice of [get_potentially_safe_blocks], given the blocks of the peers. *)
Definition choose_blocks (network_state : NS) (node_to_blocks : gmap RID (list Block)) :
    exec (option (list RID * N * list Block)) :=
  let grouping := group_by_block node_to_blocks in
  let! sync_target := find_sync_target network_state (reverse (btree_entries grouping)) in
  match sync_target with
  | None => Done None
  | Some (sync_to_block_index, _, responder_ids) =>
      match responder_ids with
      | [] => Done None
      | responder_id :: _ =>
          match node_to_blocks !! responder_id with
          | None => Done None
          | Some blocks =>
              Done (Some (responder_ids, sync_to_block_index,
                List.filter (λ block, index block <=? sync_to_block_index) blocks))
          end
      end
  end.
End target.
End blocks.

(** ** Contents of the blocks *)

Section contents.
Context `{BD : BlockDigests} {Sig Meta : Type}.
Notation BlockData := (BlockData Sig Meta).

(** The check of fetched data. *)
Definition check_block_data (block : Block) (r : result BlockData unit) : result BlockData LedgerSyncError :=
  let? block_data := map_err (λ _, TransactionFetcher) r in
  if negb (bool_decide (block = bd_block block_data)) then Err TransactionsAndBlockMismatch
  else if negb (bool_decide (contents_digest (bd_contents block_data) = contents_hash block))
  then Err TransactionsAndBlockMismatch
  else Ok block_data.

(** The channel with the numbers of attempts, what each worker fetches, and the
    results. *)
Record Fetching := mkFetching {
  channel : list (Block * N);
  fetching : gmap nat (Block * N);
  results : gmap N (option BlockData)
}.
Implicit Types s : Fetching.

(** What a thread does: it receives a block at a time, or the fetcher answers.
    A failed block goes back to the channel after a pause, which the event
    includes. *)
Inductive FetchEvent :=
| Receive (worker : nat) (now : N)
| Fetched (worker : nat) (answer : result BlockData unit).

(** One step of a worker; [None] when it cannot be made. *)
Definition fetch_step (num_workers : nat) (deadline : N) (ev : FetchEvent) s : exec (option Fetching) :=
  match ev with
  | Receive worker now =>
      if negb ((worker <? num_workers)%nat && bool_decide (fetching s !! worker = None)) then Done None
      else
        match channel s with
        | [] => Done None
        | (block, num_attempts) :: rest =>
            if deadline <? now
            then Done (Some (mkFetching rest (fetching s) (<[ index block := None ]> (results s))))
            else Done (Some (mkFetching rest (<[ worker := (block, num_attempts) ]> (fetching s)) (results s)))
        end
  | Fetched worker answer =>
      match fetching s !! worker with
      | None => Done None
      | Some (block, num_attempts) =>
          match check_block_data block answer with
          | Ok block_data =>
              assert! bool_decide (results s !! index block = None) in
              Done (Some (mkFetching (channel s) (delete worker (fetching s))
                (<[ index block := Some block_data ]> (results s))))
          | Err _ =>
              Done (Some (mkFetching (channel s ++ [(block, u64_add num_attempts 1)])
                (delete worker (fetching s)) (results s)))
          end
      end
  end.

(** The threads run until there are as many results as blocks; events that
    cannot happen are skipped. *)
Fixpoint fetch_run (num_blocks num_workers : nat) (deadline : N) (events : list FetchEvent) s : exec Fetching :=
  if bool_decide (size (results s) = num_blocks) then Done s
  else
    match events with
    | [] => NoFuel
    | ev :: events =>
        let! next := fetch_step num_workers deadline ev s in
        fetch_run num_blocks num_workers deadline events (default s next)
    end.

(** [get_block_contents]. *)
Definition get_block_contents (blocks : list Block) (start : N) (events : list FetchEvent) :
    exec (gmap N (option BlockData)) :=
  let num_workers := Nat.min MAX_CONCURRENT_GET_BLOCK_CONTENTS_CALLS (length blocks) in
  let deadline := start + DEFAULT_GET_BLOCK_CONTENTS_TIMEOUT in
  let! s := fetch_run (length blocks) num_workers deadline events
              (mkFetching ((λ b, (b, 0)) <$> blocks) ∅ ∅) in
  assert! bool_decide (channel s = []) in
  Done (results s).
End contents.
Arguments Fetching : clear implicits.
Arguments FetchEvent : clear implicits.

(** ** The service *)

(** The network: the answers to a request for a range of blocks that arrive in
    time, the time when contents are requested, and how the threads that fetch
    them run. *)
Class SyncWorld (W RID Sig Meta : Type) : Type := {
  fetch_blocks : W → N → N → list (RID * result (list Block) unit) * W;
  fetch_contents : W → list RID → list Block → N * list (FetchEvent Sig Meta) * W
}.

Section service.
Context `{BD : BlockDigests} {RID : Type} `{Countable RID} `{HI : HashIter}.
Context {L : Type} `{LR : LedgerReads L} {Sig Meta : Type} `{LA : !LedgerAppends L Sig Meta}.
Context {NS : Type} `{NST : !NetworkState NS RID} {W : Type} `{SW : !SyncWorld W RID Sig Meta}.
Notation BlockData := (BlockData Sig Meta).

(** [BlockMetadataProvider] is a function; this is [PassThroughMetadataProvider]. *)
Definition pass_through (d : BlockData) : option Meta := bd_metadata d.

(** The ledger is shared with the rest of the node: it is kept beside. *)
Record LedgerSyncService := mkLedgerSyncService {
  world : W;
  metadata_provider : BlockData → option Meta
}.
Implicit Types self : LedgerSyncService.
Definition set_world self (w : W) : LedgerSyncService := mkLedgerSyncService w (metadata_provider self).

(** [expect] of a result. *)
Definition expect_ok {A E} (r : result A E) : exec A :=
  match r with Ok a => Done a | Err _ => Panic end.

(** [with_metadata_provider] and [new]. *)
Definition with_metadata_provider (metadata_provider : BlockData → option Meta) (ledger : L) (w : W) :
    exec LedgerSyncService :=
  let! r := l_num_blocks ledger in
  let! num_blocks := expect_ok r in
  assert! 0 <? num_blocks in
  Done (mkLedgerSyncService w metadata_provider).
Definition LedgerSyncService_new (ledger : L) (w : W) : exec LedgerSyncService :=
  with_metadata_provider pass_through ledger w.

(** [get_potentially_safe_blocks]. *)
Definition get_potentially_safe_blocks self (ledger : L) (network_state : NS) (limit : N) :
    exec (option (list RID * N * list Block) * LedgerSyncService) :=
  let! r := l_num_blocks ledger in
  let! next_block_index := expect_ok r in
  let! r := l_get_block ledger (u64_sub next_block_index 1) in
  let! last_block := expect_ok r in
  let start := u64_add (index last_block) 1 in
  let '(arrived, w) := fetch_blocks (world self) start (u64_add start limit) in
  let! chosen := choose_blocks network_state (get_blocks arrived last_block) in
  Done (chosen, set_world self w).

(** [append_safe_blocks]. *)
Fixpoint append_safe_blocks self (blocks : list BlockData) (ledger : L) :
    exec (result unit LedgerSyncError * L) :=
  match blocks with
  | [] => Done (Ok tt, ledger)
  | block_data :: blocks =>
      let! (r, ledger) := l_append_block_data ledger
        (mkBlockData (bd_block block_data) (bd_contents block_data) None (metadata_provider self block_data)) in
      match r with
      | Err e => Done (Err (DBError e), ledger)
      | Ok _ => append_safe_blocks self blocks ledger
      end
  end.

(** The key images of a block, in [identify_safe_blocks]: those seen after it,
    unless one was seen before. *)
Fixpoint check_key_images (ledger : L) (additional_key_images : gset KeyImage) (l : list KeyImage) :
    exec (option (gset KeyImage)) :=
  match l with
  | [] => Done (Some additional_key_images)
  | key_image :: l =>
      let! r := l_contains_key_image ledger key_image in
      match r with
      | Ok false =>
          if bool_decide (key_image ∈ additional_key_images) then Done None
          else check_key_images ledger ({[ key_image ]} ∪ additional_key_images) l
      | _ => Done None
      end
  end.

(** The loop of [identify_safe_blocks]. *)
Fixpoint safe_blocks_from (ledger : L) (last_safe_block : Block) (additional_key_images : gset KeyImage)
    (blocks : list BlockData) : exec (list BlockData) :=
  match blocks with
  | [] => Done []
  | block_data :: blocks =>
      let block := bd_block block_data in
      if negb (bool_decide (parent_id block = id last_safe_block)) then Done []
      else
        let derived_block_id := compute_block_id (version block) (parent_id block) (index block)
          (cumulative_txo_count block) (root_element block) (contents_digest (bd_contents block_data)) in
        if negb (bool_decide (id block = derived_block_id)) then Done []
        else
          let! seen := check_key_images ledger additional_key_images (key_images (bd_contents block_data)) in
          match seen with
          | None => Done []
          | Some additional_key_images =>
              let! rest := safe_blocks_from ledger block additional_key_images blocks in
              Done (block_data :: rest)
          end
  end.

(** [identify_safe_blocks]. *)
Definition identify_safe_blocks (ledger : L) (blocks : list BlockData) : exec (list BlockData) :=
  let! r := l_get_latest_block ledger in
  let! highest_local_block := expect_ok r in
  safe_blocks_from ledger highest_local_block ∅ blocks.

(** The blocks with data, until one has none. *)
Fixpoint join_blocks (safe_blocks : list (N * Block)) (contents : gmap N (option BlockData)) : list BlockData :=
  match safe_blocks with
  | [] => []
  | (block_index, _) :: safe_blocks =>
      match contents !! block_index with
      | Some (Some block_data) => block_data :: join_blocks safe_blocks contents
      | _ => []
      end
  end.

(** Blocks by index; of two with an index the later one is kept. *)
Definition blocks_by_index (blocks : list Block) : gmap N Block :=
  foldl (λ m block, <[ index block := block ]> m) ∅ blocks.

(** [is_behind]. *)
Definition is_behind (ledger : L) (network_state : NS) : exec bool :=
  let! r := l_num_blocks ledger in
  let! num_blocks := expect_ok r in
  if num_blocks =? 0 then Done true else network_is_behind network_state (u64_sub num_blocks 1).

(** [attempt_ledger_sync]. *)
Definition attempt_ledger_sync self (ledger : L) (network_state : NS) (limit : N) :
    exec (result unit LedgerSyncError * (LedgerSyncService * L)) :=
  let! (potentially_safe, self) := get_potentially_safe_blocks self ledger network_state limit in
  match potentially_safe with
  | None => Done (Err NoSafeBlocks, (self, ledger))
  | Some (responder_ids, _, potentially_safe_blocks) =>
      match potentially_safe_blocks with
      | [] => Done (Err EmptyBlockVec, (self, ledger))
      | _ =>
          let '(start, events, w) := fetch_contents (world self) responder_ids potentially_safe_blocks in
          let self := set_world self w in
          let! contents := get_block_contents potentially_safe_blocks start events in
          let blocks := join_blocks (btree_entries (blocks_by_index potentially_safe_blocks)) contents in
          match blocks with
          | [] => Done (Err NoTransactionData, (self, ledger))
          | _ =>
              let! safe_blocks := identify_safe_blocks ledger blocks in
              let! (r, ledger) := append_safe_blocks self safe_blocks ledger in
              Done (r, (self, ledger))
          end
      end
  end.
End service.
Arguments LedgerSyncService : clear implicits.

(** The service implements the trait [LedgerSync] that the consensus worker uses. *)
#[export] Instance worker_ledger_sync `{BD : BlockDigests} {ID RID : Type} `{Countable ID} `{Countable RID}
    `{HI : HashIter} (as_ref : ID → RID) {L : Type} `{LR : LedgerReads L} {Sig Meta : Type}
    `{LA : !LedgerAppends L Sig Meta} {W : Type} `{SW : !SyncWorld W RID Sig Meta} :
    Worker.LedgerSync (ID:=ID) (L:=L) (LedgerSyncService Sig Meta W) := {|
  ls_is_behind _ ledger network_state := is_behind (NST:=scp_network_state as_ref) ledger network_state;
  ls_attempt_ledger_sync network_state limit p :=
    let! (r, p) := attempt_ledger_sync (NST:=scp_network_state as_ref) p.1 p.2 network_state limit in
    Done (map_err (λ _, tt) r, p)
|}.

(** ** [polling_network_state.rs] *)

Section polling.
Context {RID : Type} `{Countable RID} `{HI : HashIter}.

Record BlockInfo := mkBlockInfo {
  info_block_index : N;
  minimum_fees : gmap N N;
  network_block_version : N
}.

Definition minimum_fee_or_none (info : BlockInfo) (token_id : N) : option N :=
  match minimum_fees info !! token_id with
  | None | Some 0 => None
  | Some fee => Some fee
  end.

Record PollingNetworkState := mkPollingNetworkState {
  polling_scp : SCPNetworkState RID;
  block_infos : gmap RID BlockInfo
}.
Implicit Types self : PollingNetworkState.

(** [new]; [fake] is the node id that is made up. *)
Definition PollingNetworkState_new (fake : RID) (quorum_set : QuorumSet RID) : PollingNetworkState :=
  mkPollingNetworkState (SCPNetworkState_new fake quorum_set) ∅.

(** The answers are collected until there is one for each connection. *)
Fixpoint collect_polls (num_peers : nat) (arrived : list (RID * option BlockInfo))
    (m : gmap RID (option BlockInfo)) : exec (gmap RID (option BlockInfo)) :=
  if (num_peers <=? size m)%nat then Done m
  else
    match arrived with
    | [] => NoFuel
    | (responder_id, info) :: arrived => collect_polls num_peers arrived (<[ responder_id := info ]> m)
    end.

Definition poll_msg (responder_id : RID) (info : BlockInfo) : Msg string RID :=
  mkMsg responder_id (info_block_index info) Ctor.empty
    (Externalize (mkExternalize (Ballot_new 1 ["fake"%string]) 1)).

Definition push_poll self (e : RID * option BlockInfo) : PollingNetworkState :=
  match e.2 with
  | Some info => mkPollingNetworkState (ns_push (poll_msg e.1 info) (polling_scp self))
                   (<[ e.1 := info ]> (block_infos self))
  | None => self
  end.

(** [poll]. *)
Definition poll (num_peers : nat) (arrived : list (RID * option BlockInfo)) self : exec PollingNetworkState :=
  let! polled := collect_polls num_peers arrived ∅ in
  Done (foldl push_poll self (hm_iter polled)).

#[export] Instance polling_network_state : NetworkState PollingNetworkState RID := {|
  network_is_blocking_and_quorum self := is_blocking_and_quorum (λ r, r) (polling_scp self);
  network_is_behind self := ns_is_behind (λ r, r) (polling_scp self);
  network_highest_block_index self := highest_block_index_on_network (λ r, r) (polling_scp self)
|}.
End polling.
Arguments PollingNetworkState RID {_ _}.

(** ** [ledger_sync_service_thread.rs] *)

Section thread.
Context `{BD : BlockDigests} {RID : Type} `{Countable RID} `{HI : HashIter}.
Context {L : Type} `{LR : LedgerReads L} {Sig Meta : Type} `{LA : !LedgerAppends L Sig Meta}.
Context {W : Type} `{SW : !SyncWorld W RID Sig Meta}.
(** The answers to a poll, for the number of connections. *)
Context (num_peers : nat) (poll_answers : W → list (RID * option BlockInfo) * W).

Record SyncThread := mkSyncThread {
  st_service : LedgerSyncService Sig Meta W;
  st_ledger : L;
  st_network_state : PollingNetworkState RID;
  currently_behind : bool
}.
Implicit Types self : SyncThread.

(** One round of the loop of [thread_entrypoint], when no stop was requested. *)
Definition thread_round self : exec SyncThread :=
  let! behind := is_behind (st_ledger self) (st_network_state self) in
  let! (service, network_state, behind) :=
    (if behind : bool then Done (st_service self, st_network_state self, true)
     else
       let '(arrived, w) := poll_answers (world (st_service self)) in
       let! network_state := poll num_peers arrived (st_network_state self) in
       let! behind := is_behind (st_ledger self) network_state in
       Done (set_world (st_service self) w, network_state, behind)) in
  if behind : bool then
    let! (_, (service, ledger)) :=
      attempt_ledger_sync service (st_ledger self) network_state MAX_BLOCKS_PER_SYNC_ITERATION in
    Done (mkSyncThread service ledger network_state true)
  else Done (mkSyncThread service (st_ledger self) network_state false).
End thread.
