(* ===== verification/LedgerSyncProps.v ===== *)
(** * Properties of ledger synchronization

    Fetching contents gives the data of the blocks asked for and ends once the
    deadline has passed, whatever the fetchers answer and however the threads
    are scheduled; what is appended to the ledger are blocks that enough peers
    agree on. *)

From stdpp Require Import vector strings.
From S2P Require Import Prelude Ord Bytes QuorumSet ScpMsg NetworkState Lmdb TxOut Membership TxOutStore Multisig Mint MintStore Block LedgerDb LedgerApi LedgerProps Worker WorkerProps LedgerSync.

Open Scope N_scope.

Module LedgerSyncProps.

(** ** Fetching contents *)

Lemma size_list_to_set_le (l : list N) : (size (list_to_set l : gset N) ≤ length l)%nat.
Proof.
  induction l as [|x l IH]; [done|]. cbn [list_to_set length]. destruct (decide (x ∈ l)) as [Hx|Hx].
  - rewrite subseteq_union_1_L by set_solver. lia.
  - rewrite size_union by set_solver. rewrite size_singleton. lia.
Qed.

Section fetching.
Context `{BD : BlockDigests} {Sig Meta : Type}.
Notation BlockData := (BlockData Sig Meta).
Implicit Types (s : Fetching Sig Meta) (ev : FetchEvent Sig Meta) (events : list (FetchEvent Sig Meta)).

(** The data is that of the block. *)
Definition data_of (b : Block) (d : BlockData) : Prop :=
  bd_block d = b ∧ contents_digest (bd_contents d) = contents_hash b.

Lemma check_block_data_Ok b r d : check_block_data b r = Ok d → data_of b d.
Proof.
  unfold check_block_data. intros (d' & _ & Hd)%result_bind_Ok.
  case_bool_decide; [|done]. cbn [negb] in Hd. case_bool_decide; [|done]. by injection Hd as <-.
Qed.

(** The blocks that are not finished. *)
Definition pending s : list Block := (channel s).*1 ++ (map_to_list (fetching s)).*2.*1.

Record fetch_ok (blocks : list Block) s (finished : list Block) : Prop := {
  fk_blocks : pending s ++ finished ≡ₚ blocks;
  fk_dom : dom (results s) = list_to_set (index <$> finished);
  fk_data : ∀ i d, results s !! i = Some (Some d) → ∃ b, b ∈ blocks ∧ index b = i ∧ data_of b d
}.

Lemma fetch_init_ok blocks : fetch_ok blocks (mkFetching ((λ b, (b, 0)) <$> blocks) ∅ ∅) [].
Proof.
  constructor; cbn.
  - unfold pending. cbn. rewrite map_to_list_empty, !app_nil_r, <-list_fmap_compose. by rewrite list_fmap_id.
  - by rewrite dom_empty_L.
  - by intros i d ?%lookup_empty_Some.
Qed.

Lemma pending_take s b n rest w :
  channel s = (b, n) :: rest → fetching s !! w = None →
  pending (mkFetching rest (<[ w := (b, n) ]> (fetching s)) (results s)) ≡ₚ pending s.
Proof.
  intros Ec Hw. unfold pending. cbn [channel fetching]. rewrite Ec, map_to_list_insert by done.
  cbn. by rewrite Permutation_middle.
Qed.

Lemma pending_return s w b n rs :
  fetching s !! w = Some (b, n) →
  pending s ≡ₚ b :: pending (mkFetching (channel s) (delete w (fetching s)) rs).
Proof.
  intros Hw. unfold pending. cbn [channel fetching].
  rewrite <-(insert_delete_id (fetching s) w (b, n) Hw) at 1.
  rewrite map_to_list_insert by apply lookup_delete_eq. cbn. by rewrite Permutation_middle.
Qed.

(** A step keeps the invariant; it panics only for a repeated index. *)
Lemma fetch_step_ok blocks nw deadline ev s finished :
  fetch_ok blocks s finished →
  match fetch_step nw deadline ev s with
  | Done (Some s') => ∃ finished', fetch_ok blocks s' finished'
  | Done None => True
  | Panic => ¬ NoDup (index <$> blocks)
  | NoFuel => False
  end.
Proof.
  intros [Hb Hd Hx]. destruct ev as [w now|w answer]; cbn [fetch_step].
  - destruct (w <? nw)%nat; [|done]. case_bool_decide as Hw; [|done]. cbn [andb negb].
    destruct (channel s) as [|[b n] rest] eqn:Ec; [done|]. destruct (deadline <? now).
    + exists (b :: finished). constructor; cbn.
      * rewrite <-Hb. unfold pending. rewrite Ec. cbn. by rewrite Permutation_middle.
      * rewrite dom_insert_L, Hd. set_solver.
      * intros i d. rewrite lookup_insert. case_decide; [done|]. apply Hx.
    + exists finished. constructor; [by rewrite pending_take|done..].
  - destruct (fetching s !! w) as [[b n]|] eqn:Ef; [|done].
    destruct (check_block_data b answer) as [d|e] eqn:Eq.
    + case_bool_decide as Hr.
      * exists (b :: finished). constructor; cbn.
        -- rewrite <-Hb, (pending_return _ _ _ _ (<[ index b := Some d ]> (results s)) Ef). cbn. by rewrite Permutation_middle.
        -- rewrite dom_insert_L, Hd. set_solver.
        -- intros i d'. rewrite lookup_insert. case_decide as Ei; [|apply Hx]. intros [= <-].
           exists b. split; [|split; [done|by eapply check_block_data_Ok]].
           rewrite <-Hb, (pending_return _ _ _ _ ∅ Ef). by left.
      * intros Hnd. apply Hr. rewrite <-Hb, (pending_return _ _ _ _ ∅ Ef) in Hnd. cbn in Hnd.
        apply NoDup_cons in Hnd as [Hn _]. apply not_elem_of_dom. rewrite Hd, elem_of_list_to_set.
        intros Hin. apply Hn. rewrite fmap_app. apply elem_of_app. by right.
    + exists finished. constructor; cbn; [|done..]. rewrite <-Hb, (pending_return _ _ _ _ (results s) Ef).
      unfold pending. cbn. rewrite fmap_app. cbn. by rewrite <-Permutation_cons_append.
Qed.

(** The indices of the results are those of the finished blocks. *)
Lemma fetch_size blocks s finished :
  fetch_ok blocks s finished →
  (size (results s) ≤ length finished)%nat ∧ (length (pending s) + length finished = length blocks)%nat ∧
  dom (results s) ⊆ list_to_set (index <$> blocks).
Proof.
  intros [Hb Hd _]. rewrite <-size_dom, Hd. split_and!.
  - by rewrite size_list_to_set_le, length_fmap.
  - by rewrite <-Hb, length_app.
  - rewrite <-Hb. set_solver.
Qed.

(** A run ends with an ordinary state, or panics at a repeated index. *)
Lemma fetch_run_ok blocks nw deadline events : ∀ s finished,
  fetch_ok blocks s finished →
  match fetch_run (length blocks) nw deadline events s with
  | Done s' => size (results s') = length blocks ∧ ∃ finished', fetch_ok blocks s' finished'
  | Panic => ¬ NoDup (index <$> blocks)
  | NoFuel => True
  end.
Proof.
  induction events as [|ev events IH]; intros s finished Hok; cbn [fetch_run];
    (case_bool_decide as Hs; [by split; [|exists finished]|]); [done|].
  pose proof (fetch_step_ok blocks nw deadline ev s finished Hok) as Hstep.
  destruct (fetch_step nw deadline ev s) as [[s'|]| |]; cbn [exec_bind default]; [|by eapply IH|done..].
  destruct Hstep as [finished' Hok']. by eapply IH.
Qed.

Lemma indices_size (blocks : list Block) :
  size (list_to_set (index <$> blocks) : gset N) = length blocks → NoDup (index <$> blocks).
Proof.
  rewrite <-(length_fmap index blocks). generalize (index <$> blocks) as l.
  induction l as [|x l IH]; [constructor|]. cbn [list_to_set length]. intros Hs.
  pose proof (size_list_to_set_le l) as Hle. destruct (decide (x ∈ l)) as [Hx|Hx].
  - rewrite subseteq_union_1_L in Hs by set_solver. lia.
  - constructor; [done|]. apply IH. rewrite size_union, size_singleton in Hs by set_solver. lia.
Qed.

(** What is returned: an entry for each block, with its data if there is any.
    Nothing is returned for blocks that repeat an index. *)
Lemma contents_Ok blocks start events m :
  get_block_contents blocks start events = Done m →
  NoDup (index <$> blocks) ∧ dom m = list_to_set (index <$> blocks) ∧
  ∀ i d, m !! i = Some (Some d) → ∃ b, b ∈ blocks ∧ index b = i ∧ data_of b d.
Proof.
  unfold get_block_contents. set (nw := Nat.min _ _). intros (s & Hs & Hm)%exec_bind_Done.
  pose proof (fetch_run_ok blocks nw (start + DEFAULT_GET_BLOCK_CONTENTS_TIMEOUT) events _ _ (fetch_init_ok blocks)) as Hr.
  rewrite Hs in Hr. destruct Hr as (Hsize & finished & Hok). case_bool_decide; [|done]. injection Hm as <-.
  destruct (fetch_size _ _ _ Hok) as (_ & _ & Hsub).
  assert (dom (results s) = list_to_set (index <$> blocks)) as Hdom.
  { apply set_subseteq_size_eq; [done|]. rewrite size_dom, Hsize. etrans; [apply size_list_to_set_le|].
    by rewrite length_fmap. }
  split_and!; [|done|apply (fk_data _ _ _ Hok)].
  apply indices_size. by rewrite <-Hdom, size_dom.
Qed.

Lemma contents_no_panic blocks start events :
  NoDup (index <$> blocks) → get_block_contents blocks start events ≠ Panic.
Proof.
  intros Hnd. unfold get_block_contents. set (nw := Nat.min _ _).
  pose proof (fetch_run_ok blocks nw (start + DEFAULT_GET_BLOCK_CONTENTS_TIMEOUT) events _ _ (fetch_init_ok blocks)) as Hr.
  destruct (fetch_run _ _ _ _ _) as [s| |]; cbn [exec_bind]; [|done..].
  destruct Hr as (Hsize & finished & Hok). destruct (fetch_size _ _ _ Hok) as (Hle & Hlen & _).
  rewrite bool_decide_true; [done|].
  assert (length (pending s) = 0%nat) as Hp by lia. apply nil_length_inv in Hp. unfold pending in Hp.
  apply app_nil in Hp as [Hp _]. by apply fmap_nil_inv in Hp.
Qed.

(** *** Termination *)

(** What is left to do. *)
Definition work s : nat := (length (channel s) + 2 * size (fetching s))%nat.

Definition is_late (deadline : N) ev : bool :=
  match ev with Receive _ now => deadline <? now | Fetched _ _ => true end.

(** After the deadline every step that is made leaves less to do. *)
Lemma late_step nw deadline ev s s' :
  is_late deadline ev = true → fetch_step nw deadline ev s = Done (Some s') → (work s' < work s)%nat.
Proof.
  destruct ev as [w now|w answer]; cbn [is_late fetch_step]; intros Hl.
  - destruct (negb _); [done|]. destruct (channel s) as [|[b n] rest] eqn:Ec; [done|]. rewrite Hl.
    intros [= <-]. unfold work. cbn. rewrite Ec. cbn. lia.
  - destruct (fetching s !! w) as [[b n]|] eqn:Ef; [|done].
    assert (size (fetching s) = S (size (delete w (fetching s)))) as Hsz.
    { rewrite <-(insert_delete_id (fetching s) w (b, n) Ef) at 1. apply map_size_insert_None, lookup_delete_eq. }
    destruct (check_block_data b answer).
    + case_bool_decide; [|done]. intros [= <-]. unfold work. cbn. lia.
    + intros [= <-]. unfold work. cbn. rewrite length_app. cbn. lia.
Qed.

(** Some worker can make a step as long as blocks are pending. *)
Lemma step_enabled nw deadline s now :
  (0 < nw)%nat → pending s ≠ [] → deadline < now →
  ∃ ev, is_late deadline ev = true ∧ fetch_step nw deadline ev s ≠ Done None.
Proof.
  intros Hnw Hp Hnow. destruct (decide (fetching s = ∅)) as [He|He].
  - exists (Receive 0 now). cbn [is_late fetch_step]. split; [by apply N.ltb_lt|].
    rewrite He, lookup_empty, bool_decide_true by done. destruct (Nat.ltb_spec 0 nw); [|lia]. cbn [andb negb].
    unfold pending in Hp. rewrite He, map_to_list_empty in Hp. cbn in Hp. rewrite app_nil_r in Hp.
    destruct (channel s) as [|[b n] rest]; [done|]. by destruct (_ <? _).
  - apply map_choose in He as (w & [b n] & Hw). exists (Fetched w (Err tt)). cbn [is_late fetch_step].
    split; [done|]. by rewrite Hw.
Qed.

(** A schedule after the deadline in which every event is a step. *)
Fixpoint late_schedule (num_blocks nw : nat) (deadline : N) (events : list (FetchEvent Sig Meta)) s : Prop :=
  size (results s) = num_blocks ∨
  match events with
  | [] => True
  | ev :: events => is_late deadline ev = true ∧
      ∃ s', fetch_step nw deadline ev s = Done (Some s') ∧ late_schedule num_blocks nw deadline events s'
  end.

Lemma late_run blocks nw deadline events : ∀ s finished,
  NoDup (index <$> blocks) → fetch_ok blocks s finished → late_schedule (length blocks) nw deadline events s →
  (work s ≤ length events)%nat → ∃ s', fetch_run (length blocks) nw deadline events s = Done s'.
Proof.
  induction events as [|ev events IH]; intros s finished Hnd Hok Hl Hw; cbn [fetch_run].
  - exists s. rewrite bool_decide_true; [done|].
    destruct (fetch_size _ _ _ Hok) as (_ & Hlen & _). rewrite <-size_dom, (fk_dom _ _ _ Hok).
    assert (length (pending s) = 0%nat) as Hp.
    { unfold pending, work in *. rewrite length_app, !length_fmap, length_map_to_list. cbn in Hw. lia. }
    rewrite size_list_to_set; [rewrite length_fmap; lia|].
    rewrite <-(fk_blocks _ _ _ Hok), fmap_app in Hnd. by apply NoDup_app in Hnd as (_ & _ & ?).
  - case_bool_decide as Hs; [by exists s|]. destruct Hl as [?|(Hlate & s' & Hstep & Hl)]; [done|].
    rewrite Hstep. cbn [exec_bind default]. pose proof (late_step _ _ _ _ _ Hlate Hstep) as Hdec.
    pose proof (fetch_step_ok blocks nw deadline ev s finished Hok) as Hs'. rewrite Hstep in Hs'.
    destruct Hs' as [finished' Hok']. apply (IH s' finished'); [done..|]. cbn [length] in Hw. lia.
Qed.

(** Runs before the deadline, one after the other. *)
(** The state after some events. *)
Fixpoint reached (nw : nat) (deadline : N) (events : list (FetchEvent Sig Meta)) s : Fetching Sig Meta :=
  match events with
  | [] => s
  | ev :: events =>
      reached nw deadline events (match fetch_step nw deadline ev s with Done (Some s') => s' | _ => s end)
  end.

Lemma reached_ok blocks nw deadline events : ∀ s finished,
  fetch_ok blocks s finished → ∃ finished', fetch_ok blocks (reached nw deadline events s) finished'.
Proof.
  induction events as [|ev events IH]; intros s finished Hok; cbn [reached]; [by exists finished|].
  pose proof (fetch_step_ok blocks nw deadline ev s finished Hok) as Hs.
  destruct (fetch_step nw deadline ev s) as [[s'|]| |]; [destruct Hs as [f' Hok']|..]; by eapply IH.
Qed.

Lemma work_bound blocks s finished : fetch_ok blocks s finished → (work s ≤ 2 * length blocks)%nat.
Proof.
  intros Hok. destruct (fetch_size _ _ _ Hok) as (_ & Hlen & _). unfold work. unfold pending in Hlen.
  rewrite length_app, !length_fmap, length_map_to_list in Hlen. lia.
Qed.

Lemma fetch_run_app num nw deadline events1 : ∀ events2 s,
  fetch_run num nw deadline (events1 ++ events2) s =
  match fetch_run num nw deadline events1 s with
  | NoFuel => fetch_run num nw deadline events2 (reached nw deadline events1 s)
  | r => r
  end.
Proof.
  induction events1 as [|ev events1 IH]; intros events2 s.
  - cbn [app fetch_run reached]. destruct events2; cbn [fetch_run]; case_bool_decide; done.
  - cbn [app fetch_run reached]. case_bool_decide; [done|].
    destruct (fetch_step nw deadline ev s) as [[s'|]| |] eqn:Es; cbn [exec_bind default]; [apply IH|apply IH|done|].
    exfalso. destruct ev as [w now|w answer]; cbn [fetch_step] in Es.
    + destruct (negb _); [done|]. destruct (channel s) as [|[]]; [done|]. by destruct (_ <? _).
    + destruct (fetching s !! w) as [[b n]|]; [|done]. destruct (check_block_data b answer); [|done].
      by case_bool_decide.
Qed.

Notation workers blocks := (Nat.min MAX_CONCURRENT_GET_BLOCK_CONTENTS_CALLS (length blocks)).
Notation start_state blocks := (mkFetching ((λ b, (b, 0)) <$> blocks) ∅ ∅).

(** Fetching contents is correct.  For blocks with different indices,
    whatever the fetchers answer and however the threads run, no thread panics;
    and when the call returns, there is an entry for exactly the indices asked
    for, and the data in it is that of the block: the same block, with contents
    of its hash. *)
Theorem fetched_contents_correct blocks start events :
  NoDup (index <$> blocks) →
  get_block_contents blocks start events ≠ Panic ∧
  ∀ m, get_block_contents blocks start events = Done m →
    dom m = list_to_set (index <$> blocks) ∧
    ∀ i d, m !! i = Some (Some d) → ∃ b, b ∈ blocks ∧ index b = i ∧ data_of b d.
Proof.
  intros Hnd. split; [by apply contents_no_panic|]. by intros m (_ & ? & ?)%contents_Ok.
Qed.

(** C38: Fetching contents ends.  For at least one block, blocks with different
    indices (with repeated ones it can hang, see [repeated_index_sync_hangs]) and
    whatever happened before, as long as a block is left some thread can make a
    step after the deadline, and any schedule of such steps returns after at
    most two steps per block. *)
Theorem fetching_terminates blocks start before :
  blocks ≠ [] → NoDup (index <$> blocks) →
  let deadline := start + DEFAULT_GET_BLOCK_CONTENTS_TIMEOUT in
  let s := reached (workers blocks) deadline before (start_state blocks) in
  (pending s ≠ [] → ∃ ev, is_late deadline ev = true ∧ fetch_step (workers blocks) deadline ev s ≠ Done None) ∧
  ∀ events, late_schedule (length blocks) (workers blocks) deadline events s →
    (2 * length blocks ≤ length events)%nat →
    ∃ m, get_block_contents blocks start (before ++ events) = Done m.
Proof.
  intros Hne Hnd. cbv zeta. set (dl := start + _). set (s := reached _ _ _ _).
  destruct (reached_ok blocks (workers blocks) dl before _ _ (fetch_init_ok blocks)) as [f Hok]. fold s in Hok.
  assert (0 < workers blocks)%nat as Hw by (destruct blocks; [done|cbn; lia]). split.
  - intros Hp. by apply (step_enabled _ dl s (dl + 1)); [|done|lia].
  - intros events Hl Hlen. pose proof (contents_no_panic blocks start (before ++ events) Hnd) as Hnp.
    unfold get_block_contents in *. fold dl in Hnp |- *. rewrite fetch_run_app in *. fold s in Hnp |- *.
    destruct (fetch_run _ _ _ before _) as [s1| |]; cbn [exec_bind] in *.
    + destruct (bool_decide _); [by eexists|done].
    + done.
    + destruct (late_run blocks (workers blocks) dl events s f Hnd Hok Hl) as [s2 E];
        [etrans; [by eapply work_bound|done]|].
      rewrite E in *. cbn [exec_bind] in *. destruct (bool_decide _); [by eexists|done].
Qed.

(** Blocks that repeat an index are waited for without end. *)
Lemma repeated_index_hangs blocks start events m :
  ¬ NoDup (index <$> blocks) → get_block_contents blocks start events ≠ Done m.
Proof. intros Hnd (Hnd' & _)%contents_Ok. done. Qed.
End fetching.

(** ** Choosing blocks *)

Section choosing.
Context `{BD : BlockDigests} {RID : Type} `{Countable RID} `{HI : HashIter}.
Implicit Types (n2b : gmap RID (list Block)) (last b : Block) (l : list Block) (r : RID) (arrived : list (RID * result (list Block) unit)).

(** A chain of blocks after [last], with their ids. *)
Inductive chain_from : Block → list Block → Prop :=
| chain_nil last : chain_from last []
| chain_cons last b l : parent_id b = id last → is_block_id_valid b = true → chain_from b l →
    chain_from last (b :: l).

Lemma check_block_ids_Ok l last : check_block_ids l last = Ok tt ↔ chain_from last l.
Proof.
  revert last. induction l as [|b l IH]; intros last; cbn [check_block_ids]; [by split; [constructor|]|].
  case_bool_decide as Hp; cbn [negb]; [|split; [done|by inversion 1]].
  destruct (is_block_id_valid b) eqn:Hv; cbn [negb].
  - rewrite IH. split; [by constructor|by inversion 1].
  - split; [done|]. inversion 1. congruence.
Qed.

(** The blocks kept of the peers are theirs, and chains after the last block. *)
Lemma get_blocks_spec arrived last r l :
  get_blocks arrived last !! r = Some l → l ≠ [] ∧ chain_from last l ∧ (r, Ok l) ∈ arrived.
Proof.
  unfold get_blocks. intros [Hl Hne]%map_lookup_filter_Some. cbn in Hne. split; [done|].
  induction arrived as [|[r' a] arrived IH] using rev_ind; [cbn [foldl] in Hl; by apply lookup_empty_Some in Hl|].
  rewrite foldl_snoc in Hl. cbn [fst snd] in Hl. rewrite lookup_insert in Hl. case_decide as Er.
  - injection Hl as <-. subst r'. unfold blocks_result in *. destruct a as [bs|]; cbn [map_err result_bind] in *; [|done].
    unfold verify_block_ids in *. destruct (check_block_ids bs last) as [[]|] eqn:Ec; cbn [result_bind] in *; [|done].
    split; [by apply check_block_ids_Ok|]. set_solver.
  - destruct (IH Hl) as [? ?]. split; [done|]. set_solver.
Qed.

(** Peer [r] sent a block with this index and id. *)
Definition sent n2b (r : RID) (i : N) (bid : BlockID) : Prop :=
  ∃ l b, n2b !! r = Some l ∧ b ∈ l ∧ index b = i ∧ id b = bid.

Definition in_group (m : gmap N (gmap BlockID (gset RID))) (r : RID) (i : N) (bid : BlockID) : Prop :=
  ∃ g S, m !! i = Some g ∧ g !! bid = Some S ∧ r ∈ S.

Lemma in_group_add m r0 b r i bid :
  in_group (add_to_group m r0 b) r i bid ↔ in_group m r i bid ∨ (r = r0 ∧ index b = i ∧ id b = bid).
Proof.
  unfold in_group, add_to_group. setoid_rewrite lookup_insert. case_decide as Ei.
  - subst i. split.
    + intros (g & S & [= <-] & Hg & Hr). rewrite lookup_insert in Hg. case_decide as Ed.
      * injection Hg as <-. apply elem_of_union in Hr as [->%elem_of_singleton|Hr]; [by right|]. left.
        destruct (m !! index b) as [g|]; cbn in *; [|by rewrite lookup_empty in Hr].
        destruct (g !! id b) as [S'|] eqn:E; cbn in *; [|done]. exists g, S'. by subst.
      * left. destruct (m !! index b) as [g|]; cbn in *; [|by rewrite lookup_empty in Hg]. by exists g, S.
    + intros [(g & S & Hg & HS & Hr)|(-> & _ & <-)].
      * eexists. rewrite Hg. cbn. destruct (decide (id b = bid)) as [<-|Hne].
        -- eexists. split; [done|]. rewrite lookup_insert_eq, HS. cbn. split; [done|]. set_solver.
        -- exists S. split; [done|]. by rewrite lookup_insert_ne.
      * eexists _, _. split; [done|]. rewrite lookup_insert_eq. split; [done|]. set_solver.
  - split; [by left|]. intros [?|(_ & ? & _)]; done.
Qed.

Lemma in_group_list r0 l : ∀ m r i bid,
  in_group (foldl (λ m b, add_to_group m r0 b) m l) r i bid ↔
  in_group m r i bid ∨ (r = r0 ∧ ∃ b, b ∈ l ∧ index b = i ∧ id b = bid).
Proof.
  induction l as [|b l IH]; intros m r i bid; cbn [foldl].
  - split; [by left|]. intros [?|(_ & b & ?%not_elem_of_nil & _)]; done.
  - rewrite IH, in_group_add. setoid_rewrite elem_of_cons. naive_solver.
Qed.

(** [group_by_block] groups the peers by the blocks they sent. *)
Lemma group_by_block_spec n2b r i bid : in_group (group_by_block n2b) r i bid ↔ sent n2b r i bid.
Proof.
  unfold group_by_block, sent.
  assert (∀ (es : list (RID * list Block)) m,
    in_group (foldl (λ m e, foldl (λ m b, add_to_group m e.1 b) m e.2) m es) r i bid ↔
    in_group m r i bid ∨ ∃ e b, e ∈ es ∧ e.1 = r ∧ b ∈ e.2 ∧ index b = i ∧ id b = bid) as Hgen.
  { induction es as [|e es IH]; intros m; cbn [foldl].
    - split; [by left|]. intros [?|(e & b & ?%not_elem_of_nil & _)]; done.
    - rewrite IH, in_group_list. setoid_rewrite elem_of_cons. naive_solver. }
  rewrite Hgen. split.
  - intros [(g & S & Hg & _)|([r' l] & b & He%elem_of_hm_iter & <- & ?)]; [by rewrite lookup_empty in Hg|].
    by exists l, b.
  - intros (l & b & Hl & ?). right. exists (r, l), b. split; [by apply elem_of_hm_iter|done].
Qed.

Section target.
Context {NS : Type} `{NST : !NetworkState NS RID}.

Lemma target_in_index_Some ns groups bid nodes :
  target_in_index ns groups = Done (Some (bid, nodes)) →
  ∃ S, (bid, S) ∈ groups ∧ nodes = hs_iter S ∧ network_is_blocking_and_quorum ns S = Done true.
Proof.
  induction groups as [|[bid' S] groups IH]; cbn [target_in_index]; [done|].
  intros (e & He & Ht)%exec_bind_Done. destruct e.
  - injection Ht as <- <-. exists S. split; [by left|done].
  - apply IH in Ht as (S' & ? & ?). exists S'. split; [by right|done].
Qed.

Lemma find_sync_target_Some ns grouping i bid nodes :
  find_sync_target ns grouping = Done (Some (i, bid, nodes)) →
  ∃ g S, (i, g) ∈ grouping ∧ g !! bid = Some S ∧ nodes = hs_iter S ∧
    network_is_blocking_and_quorum ns S = Done true.
Proof.
  induction grouping as [|[i' g] grouping IH]; cbn [find_sync_target]; [done|].
  intros (o & Ho & Hf)%exec_bind_Done. destruct o as [[bid' nodes']|].
  - injection Hf as <- <- <-. apply target_in_index_Some in Ho as (S & HS & -> & Hn).
    exists g, S. split; [by left|]. split; [by apply elem_of_hm_iter|done].
  - apply IH in Hf as (g' & S & ? & ?). exists g', S. split; [by right|done].
Qed.

(** What is chosen: the blocks of one of enough peers that sent one block, up
    to the index of that block. *)
Lemma choose_blocks_Some ns n2b nodes i blocks :
  choose_blocks ns n2b = Done (Some (nodes, i, blocks)) →
  ∃ S bid r l, network_is_blocking_and_quorum ns S = Done true ∧ (∀ p, p ∈ S → sent n2b p i bid) ∧
    r ∈ S ∧ n2b !! r = Some l ∧ blocks = List.filter (λ b, index b <=? i) l.
Proof.
  unfold choose_blocks. intros (o & Ho & Hc)%exec_bind_Done. destruct o as [[[i' bid] rids]|]; [|done].
  destruct rids as [|r rids]; [done|]. destruct (n2b !! r) as [l|] eqn:El; [|done]. injection Hc as <- <- <-.
  apply find_sync_target_Some in Ho as (g & S & Hg & HS & Hn & Hq).
  rewrite elem_of_reverse, elem_of_btree_entries in Hg.
  exists S, bid, r, l. split; [done|]. split.
  { intros p Hp. apply group_by_block_spec. by exists g, S. }
  split; [|done]. apply elem_of_hs_iter. rewrite <-Hn. by left.
Qed.
End target.
End choosing.

(** ** Chains *)

Section chains.
Context `{BD : BlockDigests}.
Implicit Types (last b : Block) (l : list Block).

(** Each block names the one before as its parent. *)
Fixpoint linked last l : Prop :=
  match l with [] => True | b :: l => parent_id b = id last ∧ linked b l end.

Lemma chain_linked last l : chain_from last l → linked last l.
Proof. induction 1; [done|by split]. Qed.

Lemma linked_take last l k : linked last l → linked last (take k l).
Proof. revert last k. induction l as [|b l IH]; intros last [|k]; cbn; [done..|]. intros [? ?]. split; [done|]. by apply IH. Qed.

(** The block before position [i]. *)
Definition before (last : Block) l (i : nat) : option Block :=
  match i with O => Some last | S i => l !! i end.

Lemma linked_lookup last l i b : linked last l → l !! i = Some b → ∃ p, before last l i = Some p ∧ parent_id b = id p.
Proof.
  revert last i. induction l as [|x l IH]; intros last i; [done|]. intros [Hp Hl].
  destruct i as [|i]; cbn [lookup list_lookup before]; [intros [= <-]; by exists last|].
  intros Hb. destruct (IH x i Hl Hb) as (p & Hp' & E). exists p. split; [|done]. by destruct i.
Qed.

Lemma before_inj last l i j p q :
  NoDup (id <$> last :: l) → before last l i = Some p → before last l j = Some q → id p = id q → i = j.
Proof.
  intros Hnd Hi Hj E. apply (NoDup_lookup _ i j (id p) Hnd); rewrite list_lookup_fmap.
  - assert ((last :: l) !! i = Some p) as -> by (by destruct i). done.
  - rewrite E. assert ((last :: l) !! j = Some q) as -> by (by destruct j). done.
Qed.

(** Blocks of a chain that are linked from its root are its first blocks. *)
Lemma linked_prefix last l bs :
  linked last l → NoDup (id <$> last :: l) → linked last bs → (∀ b, b ∈ bs → b ∈ l) → bs `prefix_of` l.
Proof.
  intros Hl Hnd Hbs Hin. assert (bs = take (length bs) l) as ->; [|apply prefix_take].
  induction bs as [|b bs IH] using rev_ind; [done|].
  assert (linked last bs ∧ ∃ p, before last bs (length bs) = Some p ∧ parent_id b = id p) as (Hbs' & p & Hp & Epar).
  { split.
    - clear -Hbs. revert last Hbs. induction bs as [|x bs IH]; intros last; [done|]. intros [? ?]. split; [done|]. by apply IH.
    - apply (linked_lookup _ _ (length bs)) with (b:=b) in Hbs as (p & Hp & E); [|by rewrite lookup_app_r, Nat.sub_diag by lia].
      exists p. split; [|done]. destruct (length bs) as [|n] eqn:En; [done|]. cbn in *.
      by rewrite lookup_app_l in Hp by lia. }
  assert (bs = take (length bs) l) as Ebs by (apply IH; [done|]; intros x Hx; apply Hin, elem_of_app; by left).
  assert (before last l (length bs) = Some p) as Hp'.
  { destruct (length bs) as [|n] eqn:En; [done|]. cbn in *. rewrite Ebs in Hp. by apply lookup_take_Some in Hp as [? _]. }
  assert (b ∈ l) as (j & Hj)%list_elem_of_lookup by (apply Hin, elem_of_app; right; by left).
  destruct (linked_lookup _ _ _ _ Hl Hj) as (q & Hq & Eq).
  assert (j = length bs) as -> by (eapply before_inj; [exact Hnd|exact Hq|exact Hp'|congruence]).
  rewrite length_app, Nat.add_1_r, (take_S_r l _ b Hj). by f_equal.
Qed.

(** Two chains that contain a block agree up to it. *)
Lemma chains_agree last l l' i j b :
  linked last l → linked last l' → NoDup (id <$> last :: l) → NoDup (id <$> last :: l') →
  (∀ x y, x ∈ l → y ∈ l' → id x = id y → x = y) →
  l !! i = Some b → l' !! j = Some b → take (S i) l = take (S j) l'.
Proof.
  intros Hl Hl' Hnd Hnd' Hinj. revert j b. induction i as [|i IH]; intros j b Hi Hj.
  - destruct (linked_lookup _ _ _ _ Hl Hi) as (p & Hp & E). destruct (linked_lookup _ _ _ _ Hl' Hj) as (q & Hq & E').
    injection Hp as <-. assert (j = 0%nat) as ->.
    { eapply (before_inj last l'); [done|exact Hq|reflexivity|congruence]. }
    by rewrite (take_S_r l _ b Hi), (take_S_r l' _ b Hj), !take_0.
  - destruct (linked_lookup _ _ _ _ Hl Hi) as (p & Hp & E). destruct (linked_lookup _ _ _ _ Hl' Hj) as (q & Hq & E').
    destruct j as [|j].
    + injection Hq as <-. exfalso. assert (S i = 0%nat) as [=].
      eapply (before_inj last l); [done|exact Hp|reflexivity|congruence].
    + cbn in Hp, Hq. assert (p = q) as -> by (apply Hinj; [by eapply list_elem_of_lookup_2..|congruence]).
      rewrite (take_S_r l _ b Hi), (take_S_r l' _ b Hj). f_equal. by eapply IH.
Qed.
End chains.

(** ** What is appended *)

Lemma btree_iter_sorted (s : gset N) : StronglySorted N.lt (btree_iter s).
Proof.
  unfold btree_iter. pose proof (sort_sorted (elements s)) as Hs.
  apply Sorted_StronglySorted in Hs; [|apply _].
  assert (NoDup (sort (elements s))) as Hnd by (rewrite sort_perm; apply NoDup_elements).
  induction Hs as [|x l _ IH Hx]; [constructor|]. apply NoDup_cons in Hnd as [Hn Hnd]. constructor; [by apply IH|].
  apply Forall_forall. intros y Hy. rewrite Forall_forall in Hx. specialize (Hx y Hy).
  assert (x ≠ y) by (by intros ->). unfold ord_le in Hx. change (cmp x y) with (x ?= y) in Hx.
  destruct (N.compare_spec x y); [done|done|by destruct Hx].
Qed.

Section syncing.
Context `{BD : BlockDigests} {RID : Type} `{Countable RID} `{HI : HashIter}.
Context {L : Type} `{LR : LedgerReads L} {Sig Meta : Type} `{LA : !LedgerAppends L Sig Meta}.
Context {NS : Type} `{NST : !NetworkState NS RID} {W : Type} `{SW : !SyncWorld W RID Sig Meta}.
Notation BlockData := (BlockData Sig Meta).
Implicit Types (self : LedgerSyncService Sig Meta W) (ledger : L).

Lemma blocks_by_index_spec blocks i b :
  NoDup (index <$> blocks) → blocks_by_index blocks !! i = Some b ↔ b ∈ blocks ∧ index b = i.
Proof.
  intros Hnd. unfold blocks_by_index. revert Hnd.
  induction blocks as [|x blocks IH] using rev_ind; intros Hnd.
  { cbn [foldl]. rewrite lookup_empty. split; [done|]. by intros [?%not_elem_of_nil _]. }
  rewrite foldl_snoc, lookup_insert. rewrite fmap_app, NoDup_app in Hnd. destruct Hnd as (Hnd & Hdis & _).
  rewrite elem_of_app, list_elem_of_singleton. case_decide as Ei.
  - split; [intros [= <-]; auto|]. intros [[Hb| ->] E]; [|done]. exfalso.
    apply (Hdis (index b)); [by apply list_elem_of_fmap_2|]. rewrite E, <-Ei. by left.
  - rewrite IH by done. split; [naive_solver|]. intros [[?| ->] ?]; done.
Qed.

(** The data that is joined with the blocks is theirs, in order. *)
Lemma join_indices es (contents : gmap N (option BlockData)) :
  (∀ i d, contents !! i = Some (Some d) → index (bd_block d) = i) →
  index <$> (bd_block <$> join_blocks es contents) `prefix_of` es.*1.
Proof.
  intros Hc. induction es as [|[i b] es IH]; cbn [join_blocks]; [done|].
  destruct (contents !! i) as [[d|]|] eqn:E; [|apply prefix_nil..].
  rewrite !fmap_cons, (Hc i d E). by apply prefix_cons.
Qed.

Lemma join_elem es (contents : gmap N (option BlockData)) d :
  d ∈ join_blocks es contents → ∃ i, contents !! i = Some (Some d).
Proof.
  induction es as [|[i b] es IH]; cbn [join_blocks]; [by intros ?%not_elem_of_nil|].
  destruct (contents !! i) as [[d'|]|] eqn:E; [|by intros ?%not_elem_of_nil..].
  intros [->|Hd]%elem_of_cons; [by exists i|by apply IH].
Qed.

Lemma join_blocks_spec blocks (contents : gmap N (option BlockData)) :
  (∀ i d, contents !! i = Some (Some d) → ∃ b, b ∈ blocks ∧ index b = i ∧ data_of b d) →
  let ds := join_blocks (btree_entries (blocks_by_index blocks)) contents in
  StronglySorted N.lt (index <$> (bd_block <$> ds)) ∧
  ∀ d, d ∈ ds → bd_block d ∈ blocks ∧ data_of (bd_block d) d.
Proof.
  intros Hc. cbv zeta. split.
  - destruct (join_indices (btree_entries (blocks_by_index blocks)) contents) as [tl Htl].
    { intros i d Hd. destruct (Hc i d Hd) as (b & _ & Ei & [Eb _]). by rewrite Eb. }
    pose proof (btree_iter_sorted (dom (blocks_by_index blocks))) as Hs.
    rewrite <-btree_entries_keys, Htl in Hs. by apply StronglySorted_app in Hs as (_ & ? & _).
  - intros d (i & Hi)%join_elem. destruct (Hc i d Hi) as (b & Hb & _ & Hd). pose proof Hd as [Eb _]. by rewrite Eb.
Qed.

(** The key images that are looked at are new and different. *)
Lemma check_key_images_spec ledger l : ∀ seen seen',
  check_key_images ledger seen l = Done (Some seen') →
  NoDup l ∧ seen' = list_to_set l ∪ seen ∧
  ∀ k, k ∈ l → k ∉ seen ∧ l_contains_key_image ledger k = Done (Ok false).
Proof.
  induction l as [|k l IH]; intros seen seen'; cbn [check_key_images].
  { intros [= <-]. split_and!; [constructor|set_solver|]. by intros k ?%not_elem_of_nil. }
  intros (r & Hr & Hc)%exec_bind_Done. destruct r as [[]|]; [done| |done].
  case_bool_decide as Hk; [done|]. apply IH in Hc as (Hnd & -> & Hall). split_and!.
  - constructor; [|done]. intros Hin. destruct (Hall k Hin) as [Hn _]. set_solver.
  - set_solver.
  - intros k' [->|Hk']%elem_of_cons; [done|]. destruct (Hall k' Hk') as [Hn ?]. split; [set_solver|done].
Qed.

Definition images (ds : list BlockData) : list KeyImage := ds ≫= λ d, key_images (bd_contents d).

(** Safe blocks: a part of the blocks, from their start, linked to the last
    block of the ledger, that spends nothing twice. *)
Record safe ledger (last : Block) (seen : gset KeyImage) (ds sb : list BlockData) : Prop := {
  sf_prefix : sb `prefix_of` ds;
  sf_linked : linked last (bd_block <$> sb);
  sf_images : NoDup (images sb);
  sf_new : ∀ k, k ∈ images sb → k ∉ seen ∧ l_contains_key_image ledger k = Done (Ok false)
}.

Lemma safe_nil ledger last seen ds : safe ledger last seen ds [].
Proof. constructor; [apply prefix_nil|done|constructor|]. by intros k ?%not_elem_of_nil. Qed.

Lemma safe_blocks_spec ledger ds : ∀ last seen sb,
  safe_blocks_from ledger last seen ds = Done sb → safe ledger last seen ds sb.
Proof.
  induction ds as [|d ds IH]; intros last seen sb; cbn [safe_blocks_from]; [intros [= <-]; apply safe_nil|].
  case_bool_decide as Hp; cbn [negb]; [|intros [= <-]; apply safe_nil].
  case_bool_decide as Hid; cbn [negb]; [|intros [= <-]; apply safe_nil].
  intros (o & Ho & Hs)%exec_bind_Done. destruct o as [seen'|]; [|injection Hs as <-; apply safe_nil].
  apply exec_bind_Done in Hs as (rest & Hrest & [= <-]). apply IH in Hrest as [Hpre Hlink Hnd Hnew].
  apply check_key_images_spec in Ho as (Hnd' & -> & Hall). constructor.
  - by apply prefix_cons.
  - by split.
  - unfold images. rewrite bind_cons. apply NoDup_app. split_and!; [done| |done].
    intros k Hk Hk'. destruct (Hnew k Hk') as [Hn _]. set_solver.
  - unfold images. rewrite bind_cons. intros k [Hk|Hk]%elem_of_app; [by apply Hall|].
    destruct (Hnew k Hk) as [Hn ?]. split; [set_solver|done].
Qed.

(** *** Appending *)

(** The ledger after appending blocks. *)
Inductive appends : L → list BlockData → L → Prop :=
| appends_nil ledger : appends ledger [] ledger
| appends_cons ledger ledger1 ledger2 d ds u :
    l_append_block_data ledger d = Done (Ok u, ledger1) → appends ledger1 ds ledger2 →
    appends ledger (d :: ds) ledger2.

(** What is stored of the data: without the signature. *)
Definition stored_data self (d : BlockData) : BlockData :=
  mkBlockData (bd_block d) (bd_contents d) None (metadata_provider self d).

(** An append that fails leaves the ledger as it was. *)
Hypothesis append_error_same : ∀ ledger d e ledger',
  l_append_block_data ledger d = Done (Err e, ledger') → ledger' = ledger.

Lemma append_safe_blocks_spec self ds : ∀ ledger r ledger',
  append_safe_blocks self ds ledger = Done (r, ledger') →
  ∃ k, appends ledger (stored_data self <$> take k ds) ledger' ∧ (r = Ok tt → k = length ds).
Proof.
  induction ds as [|d ds IH]; intros ledger r ledger'; cbn [append_safe_blocks].
  { intros [= <- <-]. exists 0%nat. split; [constructor|done]. }
  intros ([[[]|e] ledger1] & Ha & Hr)%exec_bind_Done.
  - apply IH in Hr as (k & Hk & Hr). exists (S k). split; [by econstructor|]. intros ->. cbn. by rewrite Hr.
  - injection Hr as <- <-. exists 0%nat. split; [|done]. rewrite (append_error_same _ _ _ _ Ha). constructor.
Qed.

(** The blocks received have no colliding ids: a chain repeats no id, and blocks
    with the same id are the same. *)
Record no_collision (last : Block) (n2b : gmap RID (list Block)) : Prop := {
  nc_chain : ∀ r l, n2b !! r = Some l → NoDup (id <$> last :: l);
  nc_blocks : ∀ r l x r' l' y, n2b !! r = Some l → n2b !! r' = Some l' → x ∈ l → y ∈ l' → id x = id y → x = y
}.

(** Blocks with rising indices up to the index of a block of the chain do not go
    beyond it. *)
Lemma prefix_below (l bs : list Block) i b a :
  bs `prefix_of` l → l !! a = Some b → index b = i → StronglySorted N.lt (index <$> bs) →
  (∀ x, x ∈ bs → index x <= i) → (length bs ≤ S a)%nat.
Proof.
  intros [tl ->] Ha Eb Hs Hle. destruct (decide (length bs ≤ S a)%nat) as [|Hgt]; [done|].
  rewrite lookup_app_l in Ha by lia. destruct (lookup_lt_is_Some_2 bs (S a)) as [c Hc]; [lia|].
  pose proof (Hle c (list_elem_of_lookup_2 _ _ _ Hc)) as Hci.
  rewrite <-(take_drop (S a) bs), fmap_app in Hs.
  apply (StronglySorted_app_1_elem_of _ _ _ (index b) (index c)) in Hs; [lia|..].
  - apply list_elem_of_fmap_2, list_elem_of_lookup. exists a. by rewrite lookup_take_lt by lia.
  - apply list_elem_of_fmap_2, list_elem_of_lookup. exists 0%nat. by rewrite lookup_drop, Nat.add_0_r.
Qed.

(** Linked blocks with rising indices, among those chosen, are in the chains of
    all peers that agree. *)
Lemma agreed_prefix last n2b (S : gset RID) i bid r l bs p :
  no_collision last n2b → (∀ r l, n2b !! r = Some l → chain_from last l) →
  (∀ p, p ∈ S → sent n2b p i bid) → r ∈ S → n2b !! r = Some l →
  linked last bs → StronglySorted N.lt (index <$> bs) →
  (∀ b, b ∈ bs → b ∈ List.filter (λ b, index b <=? i) l) → p ∈ S →
  ∃ l', n2b !! p = Some l' ∧ bs `prefix_of` l'.
Proof.
  intros [Hnc Hinj] Hchain Hsent Hr Hl Hlink Hsort Hin Hp.
  assert (∀ b, b ∈ bs → b ∈ l ∧ index b <= i) as Hin'.
  { intros b Hb. apply Hin, list_elem_of_In, filter_In in Hb as [Hb1 Hb2%N.leb_le].
    by rewrite list_elem_of_In. }
  pose proof (chain_linked _ _ (Hchain r l Hl)) as Hll.
  assert (bs `prefix_of` l) as Hpre by (eapply linked_prefix; [done|by eapply Hnc|done|naive_solver]).
  destruct (Hsent r Hr) as (l0 & b & Hl0 & (a & Ha)%list_elem_of_lookup & Ei & Eid). assert (l0 = l) as -> by congruence.
  destruct (Hsent p Hp) as (l' & b' & Hl' & Hb' & Ei' & Eid').
  assert (b' = b) as -> by (eapply (Hinj p l' b' r l b); [done..|by eapply list_elem_of_lookup_2|congruence]).
  apply list_elem_of_lookup in Hb' as [t Ht]. exists l'. split; [done|].
  assert (take (Datatypes.S a) l = take (Datatypes.S t) l') as E.
  { eapply chains_agree; [done|by apply chain_linked, (Hchain p)|by eapply Hnc|by eapply Hnc| |done..].
    intros x y Hx Hy. exact (Hinj r l x p l' y Hl Hl' Hx Hy). }
  assert (length bs ≤ Datatypes.S a)%nat as Hlen by (eapply prefix_below; [done..|naive_solver]).
  destruct Hpre as [tl ->]. rewrite take_app_ge in E by done.
  exists (take (Datatypes.S a - length bs) tl ++ drop (Datatypes.S t) l').
  rewrite app_assoc, E. by rewrite take_drop.
Qed.

(** C17: What synchronization appends, enough peers agree on.  Whatever the
    peers answer, however the threads run and whether the call succeeds or
    fails, the ledger is extended by blocks that are the first blocks of the
    chains that every peer of some blocking set and quorum sent (unless ids of
    blocks collide); the contents are those of the blocks, and no key image
    was spent before or is spent twice. *)
Theorem synced_blocks_agreed self ledger ns limit r self' ledger' n last :
  attempt_ledger_sync self ledger ns limit = Done (r, (self', ledger')) →
  l_num_blocks ledger = Done (Ok n) → 0 < n → l_get_block ledger (u64_sub n 1) = Done (Ok last) →
  let start := u64_add (index last) 1 in
  let n2b := get_blocks (fetch_blocks (world self) start (u64_add start limit)).1 last in
  no_collision last n2b →
  ∃ ds, appends ledger (stored_data self <$> ds) ledger' ∧
    (ds = [] ∨ ∃ S, network_is_blocking_and_quorum ns S = Done true ∧
       ∀ p, p ∈ S → ∃ l, n2b !! p = Some l ∧ chain_from last l ∧ (bd_block <$> ds) `prefix_of` l) ∧
    Forall (λ d, data_of (bd_block d) d) ds ∧
    NoDup (images ds) ∧ ∀ k, k ∈ images ds → l_contains_key_image ledger k = Done (Ok false).
Proof.
  intros Ha Hn Hpos Hlast. cbv zeta. set (start := u64_add (index last) 1). set (n2b := get_blocks _ last). intros Hnc.
  assert (∀ ledger', ledger' = ledger → ∃ ds, appends ledger (stored_data self <$> ds) ledger' ∧
    (ds = [] ∨ ∃ S, network_is_blocking_and_quorum ns S = Done true ∧
       ∀ p, p ∈ S → ∃ l, n2b !! p = Some l ∧ chain_from last l ∧ (bd_block <$> ds) `prefix_of` l) ∧
    Forall (λ d, data_of (bd_block d) d) ds ∧
    NoDup (images ds) ∧ ∀ k, k ∈ images ds → l_contains_key_image ledger k = Done (Ok false)) as Hnone.
  { intros ? ->. exists []. split_and!; [constructor|by left|constructor..|by intros k ?%not_elem_of_nil]. }
  unfold attempt_ledger_sync in Ha. apply exec_bind_Done in Ha as ([ps self1] & Hps & Ha).
  unfold get_potentially_safe_blocks in Hps. rewrite Hn in Hps. cbn [exec_bind expect_ok] in Hps.
  rewrite Hlast in Hps. cbn [exec_bind expect_ok] in Hps. fold start in Hps.
  destruct (fetch_blocks (world self) start (u64_add start limit)) as [arrived w] eqn:Ef. cbn [fst] in n2b.
  apply exec_bind_Done in Hps as (chosen & Hch & [= <- <-]). fold n2b in Hch.
  destruct chosen as [[[nodes i] blocks]|]; [|injection Ha as _ _ <-; by apply Hnone].
  apply choose_blocks_Some in Hch as (S & bid & r0 & l & Hq & Hsent & Hr0 & Hl & Eblocks).
  destruct blocks as [|b0 bs]; [injection Ha as _ _ <-; by apply Hnone|]. set (blocks := b0 :: bs) in *.
  destruct (fetch_contents _ nodes blocks) as [[start' events] w'].
  apply exec_bind_Done in Ha as (contents & Hcont & Ha).
  apply contents_Ok in Hcont as (Hnd & _ & Hdata).
  destruct (join_blocks_spec blocks contents Hdata) as [Hsort Hin].
  destruct (join_blocks (btree_entries (blocks_by_index blocks)) contents) as [|d0 ds0] eqn:Ej;
    [injection Ha as _ _ <-; by apply Hnone|]. set (joined := d0 :: ds0) in *.
  apply exec_bind_Done in Ha as (sb & Hsb & Ha). apply exec_bind_Done in Ha as ([r1 ledger1] & Happ & [= _ _ <-]).
  unfold identify_safe_blocks, l_get_latest_block in Hsb. rewrite Hn in Hsb. cbn [ebind] in Hsb.
  destruct (N.eqb_spec n 0); [lia|]. rewrite Hlast in Hsb. cbn [exec_bind expect_ok] in Hsb.
  apply safe_blocks_spec in Hsb as [Hpre Hlink Hki Hnew].
  apply append_safe_blocks_spec in Happ as (k & Happ & _).
  exists (take k sb). assert (take k sb `prefix_of` joined) as Hpre' by (etrans; [apply prefix_take|done]).
  assert (∀ d, d ∈ take k sb → d ∈ joined) as Hsub by (intros d Hd; destruct Hpre' as [tl ->]; apply elem_of_app; by left).
  split; [exact Happ|]. split; [right; exists S; split; [done|]|split_and!].
  - intros p Hp. destruct (agreed_prefix last n2b S i bid r0 l (bd_block <$> take k sb) p Hnc) as (l' & Hl' & Hbs); try done.
    + intros r' l' Hl'. by apply get_blocks_spec in Hl' as (_ & ? & _).
    + apply (linked_take last (bd_block <$> sb) k) in Hlink. by rewrite fmap_take.
    + destruct Hpre' as [tl Htl]. rewrite Htl, !fmap_app in Hsort. by apply StronglySorted_app_1_l in Hsort.
    + intros b (d & -> & Hd)%list_elem_of_fmap. rewrite <-Eblocks. by apply Hin, Hsub.
    + exists l'. split; [done|]. split; [|done]. by apply get_blocks_spec in Hl' as (_ & ? & _).
  - apply Forall_forall. intros d Hd. by apply Hin, Hsub.
  - rewrite <-(take_drop k sb) in Hki. unfold images in *. rewrite bind_app in Hki. by apply NoDup_app in Hki as [? _].
  - intros k' Hk'. apply Hnew. unfold images in *. rewrite <-(take_drop k sb), bind_app. apply elem_of_app. by left.
Qed.
End syncing.

(** The ledger database has the property assumed: an append that fails changes
    nothing. *)
Lemma ledger_db_append_error_same {T : Type} `{Transaction T} `{!TransactionLaws T} `{Commit T} `{D : Digests}
    `{C : TxOutCodec} `{V : Verifier Ed25519Public Ed25519Signature} `{DG : MintDigests} `{MC : MintCodec}
    {Sig Meta : Type} `{LC : LedgerCodec Sig Meta} `{BD : BlockDigests} (db : LedgerDB) (env : T) d e env' :
  l_append_block_data (LedgerAppends:=LedgerDB_appends db) env d = Done (Err e, env') → env' = env.
Proof. apply LedgerProps.refused_same. Qed.

(** ** Polling *)

Section polling.
Context {RID : Type} `{Countable RID} `{HI : HashIter}.

Lemma hm_iter_keys {A} (m : gmap RID A) : (hm_iter m).*1 = hs_iter (dom m).
Proof.
  unfold hm_iter. assert (∀ k, k ∈ hs_iter (dom m) → is_Some (m !! k)) as Hall.
  { intros k. by rewrite elem_of_hs_iter, elem_of_dom. }
  induction (hs_iter (dom m)) as [|k l IH]; [done|]. cbn [omap list_omap].
  destruct (Hall k ltac:(by left)) as [v ->]. cbn. f_equal. apply IH. intros k' ?. apply Hall. by right.
Qed.
Lemma NoDup_hm_iter_keys {A} (m : gmap RID A) : NoDup (hm_iter m).*1.
Proof. rewrite hm_iter_keys, hs_iter_perm. apply NoDup_elements. Qed.
Lemma hm_iter_to_map {A} (m : gmap RID A) : list_to_map (hm_iter m) = m.
Proof.
  apply map_eq. intros k. apply option_eq. intros a.
  rewrite <-elem_of_list_to_map by apply NoDup_hm_iter_keys. apply elem_of_hm_iter.
Qed.

Lemma push_polls (es : list (RID * option BlockInfo)) : ∀ (self : PollingNetworkState RID) r,
  NoDup es.*1 →
  id_to_current_slot (polling_scp (foldl push_poll self es)) !! r =
    match list_to_map (M:=gmap RID (option BlockInfo)) es !! r with
    | Some (Some info) =>
        Some (match id_to_current_slot (polling_scp self) !! r with
              | Some i => N.max i (info_block_index info)
              | None => info_block_index info
              end)
    | _ => id_to_current_slot (polling_scp self) !! r
    end.
Proof.
  induction es as [|[r' o] es IH]; intros self r Hnd; [done|].
  rewrite fmap_cons, NoDup_cons in Hnd. destruct Hnd as [Hn Hnd]. cbn [foldl].
  rewrite IH by done. rewrite list_to_map_cons, lookup_insert. case_decide as Er.
  - subst r'. rewrite (not_elem_of_list_to_map_1 (M:=gmap RID) es r Hn).
    destruct o as [info|]; [|done]. unfold push_poll, ns_push. cbn [snd fst polling_scp sender_id poll_msg implied_slot topic msg_slot_index].
    destruct (id_to_current_slot (polling_scp self) !! r) as [i|] eqn:Ei.
    + destruct (N.ltb_spec i (info_block_index info)) as [Hlt|Hge]; cbn [id_to_current_slot].
      * rewrite lookup_insert_eq. f_equal. lia.
      * rewrite Ei. f_equal. lia.
    + cbn [id_to_current_slot]. by rewrite lookup_insert_eq.
  - assert (id_to_current_slot (polling_scp (push_poll self (r', o))) !! r = id_to_current_slot (polling_scp self) !! r) as ->; [|done].
    destruct o as [info|]; [|done]. unfold push_poll, ns_push. cbn [snd fst polling_scp sender_id poll_msg].
    destruct (match id_to_current_slot (polling_scp self) !! r' with Some i => _ | None => true end); [|done].
    cbn [id_to_current_slot]. by rewrite lookup_insert_ne.
Qed.

(** Polling updates what is known of the peers that answered, and of
    no others, whatever the order of the hash map: the block of a peer never
    goes back. *)
Theorem poll_correct num_peers arrived (self self' : PollingNetworkState RID) polled r :
  collect_polls num_peers arrived ∅ = Done polled → poll num_peers arrived self = Done self' →
  id_to_current_slot (polling_scp self') !! r =
    match polled !! r with
    | Some (Some info) =>
        Some (match id_to_current_slot (polling_scp self) !! r with
              | Some i => N.max i (info_block_index info)
              | None => info_block_index info
              end)
    | _ => id_to_current_slot (polling_scp self) !! r
    end.
Proof.
  intros Hp. unfold poll. rewrite Hp. cbn [exec_bind]. intros [= <-]. rewrite push_polls by apply NoDup_hm_iter_keys.
  by rewrite hm_iter_to_map.
Qed.
End polling.

(** *** Witnesses: a node with three peers, of which two are enough *)

#[local] Existing Instance elements_iter.
#[local] Existing Instance WorkerProps.chain_reads.
#[local] Existing Instance WorkerProps.chain_appends.
#[local] Instance ex_digests : BlockDigests := {|
  contents_digest := λ c, vreplicate 32 (u8 (len (key_images c)));
  compute_block_id := λ _ p i _ _ h, vreplicate 32 (u8 (7 * Byte.to_N (p !!! 0%fin) + 5 * i + Byte.to_N (h !!! 0%fin)))
|}.

Definition ex_contents (k : N) : BlockContents := mkBlockContents [vreplicate 32 (u8 k)] [] [] [].
Definition ex_block (parent : Block) (i : N) (c : BlockContents) : Block :=
  Block_new 0 (id parent) i 0 root_element_default c.
Definition ex_b0 : Block := new_origin_block [].
Definition ex_b1 : Block := ex_block ex_b0 1 (ex_contents 1).
Definition ex_b2 : Block := ex_block ex_b1 2 (ex_contents 2).
Definition ex_d1 : BlockData unit unit := mkBlockData ex_b1 (ex_contents 1) None None.
Definition ex_d2 : BlockData unit unit := mkBlockData ex_b2 (ex_contents 2) None None.

(** Peers 2 and 3 have two blocks, peer 4 has one; the second block is fetched
    first, the first one at the second attempt. *)
Definition ex_arrived : list (N * result (list Block) unit) :=
  [(4, Ok [ex_b1]); (2, Ok [ex_b1; ex_b2]); (3, Ok [ex_b1; ex_b2])].
Definition ex_events : list (FetchEvent unit unit) :=
  [Receive 0 1; Receive 1 1; Fetched 1 (Ok ex_d2); Fetched 0 (Err tt); Receive 0 2; Fetched 0 (Ok ex_d1)].
#[local] Instance ex_world : SyncWorld unit N unit unit := {|
  fetch_blocks w _ _ := (ex_arrived, w);
  fetch_contents w _ _ := (0, ex_events, w)
|}.
#[local] Instance ex_network : NetworkState (SCPNetworkState N) N := scp_network_state (λ n, n).
Definition ex_service : LedgerSyncService unit unit unit := mkLedgerSyncService tt pass_through.

Lemma ex_append_error_same (l : list Block) d e l' :
  l_append_block_data l d = Done (Err e, l') → l' = l.
Proof. done. Qed.

Lemma ex_chains r l : get_blocks ex_arrived ex_b0 !! r = Some l → l = [ex_b1] ∨ l = [ex_b1; ex_b2].
Proof.
  intros (_ & _ & Hin)%get_blocks_spec. unfold ex_arrived in Hin.
  apply elem_of_cons in Hin as [Hin|Hin]; [injection Hin as _ ->; by left|].
  apply elem_of_cons in Hin as [Hin|Hin]; [injection Hin as _ ->; by right|].
  apply elem_of_cons in Hin as [Hin|Hin]; [injection Hin as _ ->; by right|]. by apply not_elem_of_nil in Hin.
Qed.

Lemma ex_ids_differ : id ex_b1 ≠ id ex_b2.
Proof. apply (bool_decide_unpack _). vm_compute. exact I. Qed.

Lemma ex_no_collision : no_collision ex_b0 (get_blocks ex_arrived ex_b0).
Proof.
  assert (∀ r l x, get_blocks ex_arrived ex_b0 !! r = Some l → x ∈ l → x = ex_b1 ∨ x = ex_b2) as Hx.
  { intros r l x [->| ->]%ex_chains Hx.
    - apply list_elem_of_singleton in Hx. by left.
    - apply elem_of_cons in Hx as [Hx|Hx%list_elem_of_singleton]; [by left|by right]. }
  split.
  - intros r l [->| ->]%ex_chains; apply (bool_decide_unpack _); vm_compute; exact I.
  - intros r l x r' l' y Hl Hl' [->| ->]%(Hx r l x Hl) [->| ->]%(Hx r' l' y Hl') E; [reflexivity| | |reflexivity].
    + by apply ex_ids_differ in E.
    + symmetry in E. by apply ex_ids_differ in E.
Qed.

Lemma ex_attempt :
  attempt_ledger_sync ex_service [ex_b0] NetworkStateProps.ex_state 10
    = Done (Ok tt, (ex_service, [ex_b0; ex_b1; ex_b2])).
Proof. vm_compute. reflexivity. Qed.

Lemma synced_blocks_agreed_witness :
  ∃ ds, attempt_ledger_sync ex_service [ex_b0] NetworkStateProps.ex_state 10
      = Done (Ok tt, (ex_service, [ex_b0; ex_b1; ex_b2])) ∧
    appends [ex_b0] (stored_data ex_service <$> ds) [ex_b0; ex_b1; ex_b2] ∧ NoDup (images ds).
Proof.
  destruct (synced_blocks_agreed ex_append_error_same ex_service [ex_b0] NetworkStateProps.ex_state 10 (Ok tt) ex_service
    [ex_b0; ex_b1; ex_b2] 1 ex_b0 ex_attempt eq_refl eq_refl eq_refl ex_no_collision) as (ds & Happ & _ & _ & Hnd & _).
  exists ds. exact (conj ex_attempt (conj Happ Hnd)).
Defined.

Lemma fetched_contents_correct_witness :
  ∃ m, get_block_contents [ex_b1; ex_b2] 0 ex_events = Done m ∧ dom m = {[ 1; 2 ]} ∧
    ∀ i d, m !! i = Some (Some d) → ∃ b, b ∈ [ex_b1; ex_b2] ∧ index b = i ∧ data_of b d.
Proof.
  destruct (fetched_contents_correct [ex_b1; ex_b2] 0 ex_events ltac:(by apply (bool_decide_unpack _))) as [_ Hok].
  assert (∃ m, get_block_contents [ex_b1; ex_b2] 0 ex_events = Done m) as [m Hm] by (vm_compute; by eexists).
  exists m. destruct (Hok m Hm) as [Hd Hx]. split; [exact Hm|]. split; [|exact Hx]. rewrite Hd. set_solver.
Defined.

(** One block is fetched, the other is given up at the deadline. *)
Lemma fetching_terminates_witness :
  ∃ m, get_block_contents (Sig:=unit) (Meta:=unit) [ex_b1; ex_b2] 0
    ([Receive 0 1; Fetched 0 (Err tt)] ++ [Receive 0 40000; Receive 1 40000; Receive 0 40000; Receive 0 40000]) = Done m.
Proof.
  destruct (fetching_terminates (Sig:=unit) (Meta:=unit) [ex_b1; ex_b2] 0 [Receive 0 1; Fetched 0 (Err tt)] ltac:(done)
    ltac:(by apply (bool_decide_unpack _))) as [_ Hend].
  apply Hend; [|cbn; lia]. right. split; [reflexivity|]. eexists. split; [reflexivity|].
  right. split; [reflexivity|]. eexists. split; [reflexivity|]. left. reflexivity.
Defined.

Definition ex_polls : list (N * option BlockInfo) := [(2, Some (mkBlockInfo 9 ∅ 0)); (3, None)].
Definition ex_polling : PollingNetworkState N := PollingNetworkState_new 1 (Ctor.new 1 [Node 2]).

Lemma poll_correct_witness :
  ∃ self', poll 2 ex_polls ex_polling = Done self' ∧ id_to_current_slot (polling_scp self') !! 2 = Some 9.
Proof.
  destruct (collect_polls 2 ex_polls ∅) as [polled| |] eqn:Ec; [|vm_compute in Ec; discriminate Ec..].
  destruct (poll 2 ex_polls ex_polling) as [self'| |] eqn:Ep; [|vm_compute in Ep; discriminate Ep..].
  exists self'. split; [reflexivity|]. rewrite (poll_correct 2 ex_polls ex_polling self' polled 2 Ec Ep).
  vm_compute in Ec. injection Ec as <-. reflexivity.
Defined.

(** *** A peer that repeats an index *)

(** All three peers agree on the next block; peer 4 sends another block after
    it, with the same index. *)
Definition ex_again : Block := ex_block ex_b1 1 (ex_contents 3).
Definition ex_byzantine : list (N * result (list Block) unit) :=
  [(2, Ok [ex_b1]); (3, Ok [ex_b1]); (4, Ok [ex_b1; ex_again])].

Lemma ex_byzantine_chosen :
  ∃ nodes, choose_blocks NetworkStateProps.ex_state (get_blocks ex_byzantine ex_b0) = Done (Some (nodes, 1, [ex_b1; ex_again])).
Proof. eexists. vm_compute. reflexivity. Qed.

(** A single peer can keep synchronization from ever returning: it agrees with
    the others on the next block and sends another block after it that repeats
    its index.  [verify_block_ids] does not look at indices, so both blocks are
    chosen, and the contents of two blocks are waited for under one index. *)
Theorem repeated_index_sync_hangs {W} `{SW : !SyncWorld W N unit unit} (self : LedgerSyncService unit unit W) limit x :
  (fetch_blocks (world self) 1 (u64_add 1 limit)).1 = ex_byzantine →
  attempt_ledger_sync self [ex_b0] NetworkStateProps.ex_state limit ≠ Done x.
Proof.
  intros Ha. unfold attempt_ledger_sync, get_potentially_safe_blocks.
  change (l_num_blocks [ex_b0]) with (Done (Ok 1) : exec (result N Error)). cbn [exec_bind expect_ok].
  change (l_get_block [ex_b0] (u64_sub 1 1)) with (Done (Ok ex_b0) : exec (result Block Error)). cbn [exec_bind expect_ok].
  change (u64_add (index ex_b0) 1) with 1.
  destruct (fetch_blocks (world self) 1 (u64_add 1 limit)) as [arrived w]. cbn [fst] in Ha. subst arrived.
  destruct ex_byzantine_chosen as [nodes ->]. cbn [exec_bind].
  destruct (fetch_contents _ nodes [ex_b1; ex_again]) as [[start events] w'].
  destruct (get_block_contents [ex_b1; ex_again] start events) as [m| |] eqn:Em; [|discriminate..].
  exfalso. eapply repeated_index_hangs; [|exact Em]. apply (bool_decide_unpack _). vm_compute. exact I.
Qed.

Lemma repeated_index_sync_hangs_witness :
  attempt_ledger_sync (SW:={| fetch_blocks w _ _ := (ex_byzantine, w); fetch_contents w _ _ := (0, ex_events, w) |})
    ex_service [ex_b0] NetworkStateProps.ex_state 10 ≠ Done (Ok tt, (ex_service, [ex_b0])).
Proof.
  apply (repeated_index_sync_hangs
    (SW:={| fetch_blocks w _ _ := (ex_byzantine, w); fetch_contents w _ _ := (0, ex_events, w) |})). reflexivity.
Defined.
End LedgerSyncProps.
