(* ===== verification/LightClient.v ===== *)
(** * Light client

    A light client holds no ledger: it trusts a quorum set of validators and
    accepts a block that enough of them signed ([light-client/verifier/src]).
    The relayer ([light-client/relayer/src]) scans a ledger for outputs sent to
    the burn address ([account-keys/src/burn_address.rs]) and forwards their
    blocks with the signatures that a watcher collected.

    Metadata of blocks is that of [blockchain/types/src/block_metadata.rs], its
    validator for ranges of keys that of [blockchain/validators/src].  Digests
    and signatures are parameters, as elsewhere; so are the evidence of
    attestation, the watcher's database and what the relayer sends to. *)

From stdpp Require Import vector strings.
From S2P Require Import Prelude Ord Bytes TxOut Membership Multisig Mint MintOrd QuorumSet Block Lmdb TxOutStore MintStore LedgerDb LedgerApi BlockVersion MaskedAmount Tx Ristretto OnetimeKeys.

Open Scope N_scope.

(** [common/src/node_id.rs]; a [ResponderId] is a string. *)
Record NodeID := mkNodeID {
  responder_id : string;
  node_public_key : Ed25519Public
}.

(** [PartialEq] and [Hash] look at the public key alone. *)
#[export] Instance NodeID_equiv : Equiv NodeID := λ a b, node_public_key a = node_public_key b.
#[export] Instance NodeID_equivalence : Equivalence (≡@{NodeID}).
Proof. split; [done|by intros ???|intros ??? E1 E2; exact (eq_trans E1 E2)]. Qed.

(** So a [HashSet<NodeID>] is the set of the public keys of its members. *)
Definition NodeIDs := gset Ed25519Public.
Definition node_ids_collect (l : list NodeID) : NodeIDs := list_to_set (node_public_key <$> l).
Definition node_ids_contains (s : NodeIDs) (id : NodeID) : bool := bool_decide (node_public_key id ∈ (s : gset Ed25519Public)).
#[export] Instance node_ids_contains_proper : Proper (eq ==> (≡) ==> eq) node_ids_contains.
Proof. intros s ? <- a b E. unfold node_ids_contains. by rewrite E. Qed.

#[export] Instance ValidatedMintConfigTx_eq_dec' : EqDecision ValidatedMintConfigTx.
Proof. solve_decision. Defined.
#[export] Instance BlockContents_eq_dec : EqDecision BlockContents.
Proof. solve_decision. Defined.

(** ** [block_metadata.rs] *)

(** The reports of the attestation services are opaque. *)
Inductive AttestationEvidence (VR DE : Type) :=
| VerificationReport (report : VR)
| DcapEvidence (evidence : DE).
Arguments VerificationReport {VR DE} _.
Arguments DcapEvidence {VR DE} _.

Record BlockMetadataContents (VR DE : Type) := mkMetadataContents {
  meta_block_id : BlockID;
  meta_quorum_set : QuorumSet NodeID;
  meta_attestation_evidence : option (AttestationEvidence VR DE);
  meta_responder_id : string
}.
Arguments mkMetadataContents {VR DE} _ _ _ _.
Arguments meta_block_id {VR DE} _.
Arguments meta_quorum_set {VR DE} _.
Arguments meta_attestation_evidence {VR DE} _.
Arguments meta_responder_id {VR DE} _.

Record BlockMetadata (VR DE : Type) := mkBlockMetadata {
  meta_contents : BlockMetadataContents VR DE;
  node_key : Ed25519Public;
  meta_signature : Ed25519Signature
}.
Arguments mkBlockMetadata {VR DE} _ _ _.
Arguments meta_contents {VR DE} _.
Arguments node_key {VR DE} _.
Arguments meta_signature {VR DE} _.

Definition block_metadata_context : bytes := str_bytes "block_metadata".

(** [digest32] of the contents with a context. *)
Class MetadataDigest (VR DE : Type) : Type :=
  metadata_digest : bytes → BlockMetadataContents VR DE → bytes.

(** [Ed25519Pair]: its public key, and [try_sign]. *)
Class KeyPair (K : Type) : Type := {
  pair_public : K → Ed25519Public;
  pair_try_sign : K → bytes → result Ed25519Signature unit
}.

Section metadata.
Context {VR DE : Type} `{MD : MetadataDigest VR DE} `{V : Verifier Ed25519Public Ed25519Signature}.
Notation BlockMetadata := (BlockMetadata VR DE).

(** [BlockMetadataContents::new]. *)
Definition MetadataContents_new (block_id : BlockID) (quorum_set : QuorumSet NodeID)
    (attestation_evidence : AttestationEvidence VR DE) (responder_id : string) : BlockMetadataContents VR DE :=
  mkMetadataContents block_id quorum_set (Some attestation_evidence) responder_id.

(** [attestation_evidence]: decoded metadata may lack it. *)
Definition attestation_evidence (self : BlockMetadataContents VR DE) : exec (AttestationEvidence VR DE) :=
  unwrap (meta_attestation_evidence self).

(** [from_contents_and_keypair]. *)
Definition from_contents_and_keypair `{KeyPair K} (contents : BlockMetadataContents VR DE) (key_pair : K) :
    result BlockMetadata unit :=
  let? signature := pair_try_sign key_pair (metadata_digest block_metadata_context contents) in
  Ok (mkBlockMetadata contents (pair_public key_pair) signature).

(** [BlockMetadata::verify], as a test. *)
Definition metadata_verify (self : BlockMetadata) : bool :=
  sig_verify (node_key self) (metadata_digest block_metadata_context (meta_contents self)) (meta_signature self).

(** ** [blockchain/validators] *)

Inductive ValidationError := UnknownPubKey | InvalidPubKey | BadSignature.

(** [KeyRangeValidator]: inclusive ranges of indices for each key. *)
Notation KeyValidityMap := (gmap Ed25519Public (list (N * N))).

(** [KeyValidity]: a key that was parsed, with its range. *)
Record KeyValidity := mkKeyValidity {
  kv_pub_key : Ed25519Public;
  first_block_index : N;
  last_block_index : option N
}.
Definition to_range (self : KeyValidity) : N * N :=
  (first_block_index self, default u64_max (last_block_index self)).
(** The loop of [to_validity_map] after parsing. *)
Definition to_validity_map (configs : list KeyValidity) : KeyValidityMap :=
  foldl (λ m config, <[ kv_pub_key config := default [] (m !! kv_pub_key config) ++ [to_range config] ]> m) ∅ configs.

Definition key_range_validate (config : KeyValidityMap) (key : Ed25519Public) (block_index : N) :
    result unit ValidationError :=
  match config !! key with
  | None => Err UnknownPubKey
  | Some ranges =>
      if existsb (λ r, (r.1 <=? block_index) && (block_index <=? r.2)) ranges then Ok tt
      else Err InvalidPubKey
  end.

(** [MetadataValidator::validate]. *)
Definition metadata_validate (key_range : KeyValidityMap) (metadata : BlockMetadata) (block_index : N) :
    result unit ValidationError :=
  let? _ := key_range_validate key_range (node_key metadata) block_index in
  if metadata_verify metadata then Ok tt else Err BadSignature.
End metadata.

(** ** [trusted_validator_set.rs] *)

Inductive LightClientError :=
| BlockIdMismatch (id : BlockID)
| BlockMetadataSignature
| NotAQuorum
| LcInvalidBlockId
| NoMatchingValidatorSet (index : N)
| BlockContentHashMismatch (hash : BlockContentsHash)
| TxOutNotFound (public_key : bytes32)
| BlockDataMismatch
| NoBlockData.

Record TrustedValidatorSet := mkTrustedValidatorSet { quorum_set : QuorumSet NodeID }.

(** [verify_quorum_helper]; the counter is a [u32]. *)
Fixpoint verify_quorum_helper (signing_node_ids : NodeIDs) (quorum_set : QuorumSet NodeID) : bool :=
  match quorum_set with
  | QSet threshold members =>
      let satisfied_members :=
        foldl (λ satisfied_members member,
          match member with
          | None => satisfied_members
          | Some (Node id) =>
              if node_ids_contains signing_node_ids id then u32_add satisfied_members 1 else satisfied_members
          | Some (InnerSet inner_set) =>
              if verify_quorum_helper signing_node_ids inner_set then u32_add satisfied_members 1
              else satisfied_members
          end) 0 members in
      threshold <=? satisfied_members
  end.

(** ** [verifier.rs] *)

Record LightClientVerifier := mkLightClientVerifier {
  trusted_validator_set : TrustedValidatorSet;
  trusted_validator_set_start_block : N;
  historical_validator_sets : list (N * N * TrustedValidatorSet);
  known_valid_block_ids : gset BlockID
}.

Section verifier.
Context {VR DE : Type} `{MD : MetadataDigest VR DE} `{V : Verifier Ed25519Public Ed25519Signature} `{BD : BlockDigests}.
Notation BlockMetadata := (BlockMetadata VR DE).
Implicit Types self : LightClientVerifier.

(** The loop of [verify_block_id_signatures]. *)
Fixpoint check_metadata (block_id : BlockID) (block_metadata : list BlockMetadata) : result unit LightClientError :=
  match block_metadata with
  | [] => Ok tt
  | meta :: block_metadata =>
      if negb (bool_decide (meta_block_id (meta_contents meta) = block_id))
      then Err (BlockIdMismatch (meta_block_id (meta_contents meta)))
      else if negb (metadata_verify meta) then Err BlockMetadataSignature
      else check_metadata block_id block_metadata
  end.

(** The node that signed metadata. *)
Definition metadata_node_id (meta : BlockMetadata) : NodeID :=
  mkNodeID (meta_responder_id (meta_contents meta)) (node_key meta).

Definition verify_block_id_signatures (self : TrustedValidatorSet) (block_id : BlockID)
    (block_metadata : list BlockMetadata) : result unit LightClientError :=
  let? _ := check_metadata block_id block_metadata in
  let node_ids := node_ids_collect (metadata_node_id <$> block_metadata) in
  if negb (verify_quorum_helper node_ids (quorum_set self)) then Err NotAQuorum else Ok tt.

(** [From<TrustedValidatorSet>]. *)
Definition LightClientVerifier_from (src : TrustedValidatorSet) : LightClientVerifier :=
  mkLightClientVerifier src 0 [] ∅.

(** The loop of [verify_block] over historical sets, which are ranges with an
    excluded end. *)
Fixpoint verify_historical (block : Block) (metadata : list BlockMetadata)
    (sets : list (N * N * TrustedValidatorSet)) : result unit LightClientError :=
  match sets with
  | [] => Err (NoMatchingValidatorSet (index block))
  | (lo, hi, validator_set) :: sets =>
      if (lo <=? index block) && (index block <? hi)
      then verify_block_id_signatures validator_set (id block) metadata
      else verify_historical block metadata sets
  end.

Definition verify_block self (block : Block) (metadata : list BlockMetadata) : result unit LightClientError :=
  if negb (is_block_id_valid block) then Err LcInvalidBlockId
  else if bool_decide (id block ∈ known_valid_block_ids self) then Ok tt
  else if trusted_validator_set_start_block self <=? index block
  then verify_block_id_signatures (trusted_validator_set self) (id block) metadata
  else verify_historical block metadata (historical_validator_sets self).

Definition verify_block_and_block_contents self (block : Block) (block_contents : BlockContents)
    (block_metadata : list BlockMetadata) : result unit LightClientError :=
  let? _ := verify_block self block block_metadata in
  let contents_hash' := contents_digest block_contents in
  if negb (bool_decide (contents_hash' = contents_hash block)) then Err (BlockContentHashMismatch contents_hash')
  else Ok tt.

(** The loop of [verify_txos_in_block]. *)
Fixpoint find_txos (txos outputs : list TxOut) : result unit LightClientError :=
  match txos with
  | [] => Ok tt
  | txo :: txos =>
      if negb (existsb (λ o, bool_decide (o = txo)) outputs) then Err (TxOutNotFound (public_key txo))
      else find_txos txos outputs
  end.
Definition verify_txos_in_block self (txos : list TxOut) (block : Block) (block_contents : BlockContents)
    (block_metadata : list BlockMetadata) : result unit LightClientError :=
  let? _ := verify_block_and_block_contents self block block_contents block_metadata in
  find_txos txos (Block.outputs block_contents).

(** [windows(2).all(...)]. *)
Fixpoint all_same {Sig} (d : BlockData Sig BlockMetadata) (l : list (BlockData Sig BlockMetadata)) : bool :=
  match l with
  | [] => true
  | d' :: l =>
      bool_decide (bd_block d = bd_block d') && bool_decide (bd_contents d = bd_contents d') && all_same d' l
  end.
Definition verify_block_data {Sig} self (block_data : list (BlockData Sig BlockMetadata)) :
    result (Block * BlockContents) LightClientError :=
  match block_data with
  | [] => Err NoBlockData
  | first :: rest =>
      if negb (all_same first rest) then Err BlockDataMismatch
      else
        let? _ := verify_block_and_block_contents self (bd_block first) (bd_contents first)
                    (omap bd_metadata block_data) in
        Ok (bd_block first, bd_contents first)
  end.
End verifier.

(** ** [config.rs] *)

Inductive QuorumSetConfig :=
| mkQuorumSetConfig (threshold : N) (members : list (NodeID + QuorumSetConfig)).

(** [From<QuorumSet>]. *)
Fixpoint quorum_set_from (src : QuorumSetConfig) : QuorumSet NodeID :=
  match src with
  | mkQuorumSetConfig threshold members =>
      QSet threshold (map (λ m : NodeID + QuorumSetConfig, match m with
                                | inl node_id => Some (Node node_id)
                                | inr set => Some (InnerSet (quorum_set_from set))
                                end) members)
  end.

Record LightClientVerifierConfig := mkLightClientVerifierConfig {
  lc_trusted_validator_set : QuorumSetConfig;
  lc_start_block : N;
  lc_historical_validator_sets : list (N * N * QuorumSetConfig);
  lc_known_valid_block_ids : gset BlockID
}.
Definition verifier_from (config : LightClientVerifierConfig) : LightClientVerifier :=
  mkLightClientVerifier (mkTrustedValidatorSet (quorum_set_from (lc_trusted_validator_set config)))
    (lc_start_block config)
    ((λ h, (h.1, mkTrustedValidatorSet (quorum_set_from h.2))) <$> lc_historical_validator_sets config)
    (lc_known_valid_block_ids config).

(** ** [burn_address.rs] *)

Section burn.
Context `{C : Curve}.

Definition BURN_ADDRESS_DOMAIN_SEPARATOR : bytes := str_bytes "mc_burn_address_spend_public".
Definition BURN_ADDRESS_VIEW_PRIVATE_BYTES : bytes32 := vreplicate 32 (u8 1).

(** The bytes are canonical: they are below the order of the group. *)
Definition burn_address_view_private : scalar := s_from_bytes BURN_ADDRESS_VIEW_PRIVATE_BYTES.
Definition burn_address_spend_public : point := p_from_wide (blake512 BURN_ADDRESS_DOMAIN_SEPARATOR).
Definition burn_address_view_public : point := p_mul burn_address_view_private burn_address_spend_public.
Definition burn_address : PublicAddress := PublicAddress_new burn_address_spend_public burn_address_view_public.
End burn.

(** ** The relayer *)

(** [Ledger::get_block_data]; the method of [WatcherDB] that the relayer calls,
    whose map is keyed by urls; [Sender]. *)
Class BlockReader (L Sig Meta : Type) : Type :=
  read_block_data : L → N → exec (result (BlockData Sig Meta) Error).
Class Watcher (WD Url Sig Meta : Type) `{Countable Url} : Type :=
  get_block_data_map : WD → N → result (gmap Url (BlockData Sig Meta)) unit.

Record RelayedBlock (Meta : Type) := mkRelayedBlock {
  burn_tx_outs : list TxOut;
  relayed_block : Block;
  relayed_contents : BlockContents;
  relayed_signatures : list Meta
}.
Arguments mkRelayedBlock {Meta} _ _ _ _.
Arguments burn_tx_outs {Meta} _.
Arguments relayed_block {Meta} _.
Arguments relayed_contents {Meta} _.
Arguments relayed_signatures {Meta} _.

Class Sender (S Meta : Type) : Type := send : S → RelayedBlock Meta → S.

(** [TestSender] keeps what it is sent. *)
#[export] Instance TestSender {Meta} : Sender (list (RelayedBlock Meta)) Meta := λ sent b, sent ++ [b].

(** The trait [Verifier] of the relayer. *)
Class RelayVerifier (RV Meta : Type) : Type :=
  verify_relayed_block : RV → RelayedBlock Meta → result unit LightClientError.

#[export] Instance light_client_relay_verifier {VR DE : Type} `{MD : MetadataDigest VR DE}
    `{V : Verifier Ed25519Public Ed25519Signature} `{BD : BlockDigests} :
    RelayVerifier LightClientVerifier (BlockMetadata VR DE) := λ self b,
  verify_txos_in_block self (burn_tx_outs b) (relayed_block b) (relayed_contents b) (relayed_signatures b).

#[export] Instance ledger_block_reader {T : Type} `{Transaction T} `{C : TxOutCodec} `{MC : MintCodec} {Sig Meta : Type}
    `{LC : LedgerCodec Sig Meta} (self : LedgerDB) : BlockReader T Sig Meta := λ env n,
  ro (get_block_data self n) env.

Section relayer.
Context `{C : Curve} {L Sig Meta : Type} `{BR : BlockReader L Sig Meta} `{HI : HashIter}.
Context {Url WD : Type} `{Countable Url} `{WA : !Watcher WD Url Sig Meta}.
Context {S RV : Type} `{SE : Sender S Meta} `{RVE : RelayVerifier RV Meta}.

Inductive RelayerError := LightClientVerifer (e : LightClientError) | WatcherDb.

(** The state of the thread; the databases are arguments. *)
Record RelayerThread := mkRelayerThread {
  next_block_index : N;
  sender : S;
  verifier : RV
}.
Implicit Types self : RelayerThread.

Definition check_for_relevant_burns (outputs : list TxOut) : list TxOut :=
  List.filter (λ tx_out, is_ok (view_key_match tx_out burn_address_view_private)) outputs.

Definition get_block_signatures (watcher_db : WD) (block_index : N) : result (list Meta) unit :=
  let? block_data_map := get_block_data_map watcher_db block_index in
  Ok (omap (λ e, bd_metadata e.2) (hm_iter block_data_map)).

Definition process_block self (watcher_db : WD) (block_data : BlockData Sig Meta) :
    result unit RelayerError * RelayerThread :=
  let relevant_burns := check_for_relevant_burns (Block.outputs (bd_contents block_data)) in
  match relevant_burns with
  | [] => (Ok tt, self)
  | _ =>
      match get_block_signatures watcher_db (next_block_index self) with
      | Err _ => (Err WatcherDb, self)
      | Ok signatures =>
          let relayed := mkRelayedBlock relevant_burns (bd_block block_data) (bd_contents block_data) signatures in
          match verify_relayed_block (verifier self) relayed with
          | Err e => (Err (LightClientVerifer e), self)
          | Ok _ => (Ok tt, mkRelayerThread (next_block_index self) (send (sender self) relayed) (verifier self))
          end
      end
  end.

(** One round of the loop of [run], when no stop was requested; after an error
    it sleeps and tries again. *)
Definition relayer_round (ledger_db : L) (watcher_db : WD) self : exec RelayerThread :=
  let! block_data := read_block_data ledger_db (next_block_index self) in
  match block_data with
  | Err _ => Done self
  | Ok block_data =>
      let '(r, self) := process_block self watcher_db block_data in
      match r with
      | Ok _ => Done (mkRelayerThread (u64_add (next_block_index self) 1) (sender self) (verifier self))
      | Err _ => Done self
      end
  end.

(** [start]. *)
Definition relayer_start (start_block_index : N) (sender : S) (verifier : RV) : RelayerThread :=
  mkRelayerThread start_block_index sender verifier.
End relayer.
Arguments RelayerThread : clear implicits.
