(* ===== verification/LightClientProps.v ===== *)
(** * Properties of the light client

    What a light client accepts, enough trusted validators signed: the search
    for a quorum decides whether the signers are a slice ([verify_quorum_slice]),
    accepted blocks cannot fork while slices share an honest signer, and accepted
    outputs are in the chain of the honest signers.  The relayer forwards every
    block with burned outputs once and in order, and outputs for the burn address
    are recognised. *)

From stdpp Require Import vector strings.
From S2P Require Import Prelude Ord Bytes TxOut Membership Multisig Mint MintOrd QuorumSet QuorumSearch Block BlockVersion MaskedAmount Tx Ristretto OnetimeKeys Lmdb LedgerDb LedgerApi LightClient.

Open Scope N_scope.

Module LightClientProps.

(** The quorum set of the keys of a set of nodes. *)
Abbreviation keys q := (to_responder_ids node_public_key q).

(** ** Quorums *)

Section quorum.
Implicit Types q : QuorumSet NodeID.

(** What counts for a member. *)
Definition member_signed (U : NodeIDs) (m : MemberWrapper NodeID) : bool :=
  match m with
  | None => false
  | Some (Node id) => node_ids_contains U id
  | Some (InnerSet q) => verify_quorum_helper U q
  end.

Lemma count_members U ms n :
  n + len ms <= u32_max →
  foldl (λ s m, match m with
                | None => s
                | Some (Node id) => if node_ids_contains U id then u32_add s 1 else s
                | Some (InnerSet q) => if verify_quorum_helper U q then u32_add s 1 else s
                end) n ms = n + countb (member_signed U) ms.
Proof.
  revert n. induction ms as [|m ms IH]; intros n Hn; cbn [foldl countb]; [lia|].
  rewrite len_cons in Hn. unfold u32_max in *.
  assert (u32_add n 1 = n + 1) as Ha by (apply u32_add_small; unfold u32_modulus; lia).
  destruct m as [[i|q]|]; cbn [member_signed].
  - destruct (node_ids_contains U i); rewrite ?Ha, IH; lia.
  - destruct (verify_quorum_helper U q); rewrite ?Ha, IH; lia.
  - rewrite IH; lia.
Qed.

Lemma keys_unfold t ms :
  keys (QSet t ms) = QSet t (Some <$> omap (λ m, match m with
                             | Some (Node id) => Some (Node (node_public_key id))
                             | Some (InnerSet qs) => Some (InnerSet (keys qs))
                             | None => None
                             end) ms).
Proof. done. Qed.

(** The count of the code decides whether the signers are a slice. *)
Lemma verify_quorum_slice (U : NodeIDs) q :
  qs_small q = true → verify_quorum_helper U q = is_slice (U : gset Ed25519Public) (keys q).
Proof.
  induction q as [t ms IH] using QuorumSet_nested_ind.
  cbn [qs_small]. rewrite andb_true_iff, N.ltb_lt, forallb_Forall. intros [Hl Hs].
  rewrite keys_unfold, is_slice_unfold. cbn [verify_quorum_helper]. rewrite count_members by lia.
  rewrite N.add_0_l. f_equal. clear Hl.
  induction ms as [|m ms IHms]; [done|]. apply Forall_cons in IH as [Hm IH], Hs as [Hsm Hs].
  specialize (IHms IH Hs). destruct m as [[i|q]|]; cbn [omap list_omap fmap list_fmap countb member_signed];
    [|cbn [member_inner] in Hm; rewrite (Hm Hsm)|]; rewrite IHms; done.
Qed.
End quorum.

(** ** Blocks *)

(** The validator set that decides about an index, if there is one. *)
Fixpoint historical_set (i : N) (sets : list (N * N * TrustedValidatorSet)) : option TrustedValidatorSet :=
  match sets with
  | [] => None
  | (lo, hi, s) :: sets => if (lo <=? i) && (i <? hi) then Some s else historical_set i sets
  end.
Definition validator_set_at (self : LightClientVerifier) (i : N) : option TrustedValidatorSet :=
  if trusted_validator_set_start_block self <=? i then Some (trusted_validator_set self)
  else historical_set i (historical_validator_sets self).

(** All configured quorum sets have a reasonable size. *)
Definition verifier_small (self : LightClientVerifier) : Prop :=
  ∀ i s, validator_set_at self i = Some s → qs_small (quorum_set s) = true.

Section verifier.
Context {VR DE : Type} `{MD : MetadataDigest VR DE} `{V : Verifier Ed25519Public Ed25519Signature} `{BD : BlockDigests}.
Notation BlockMetadata := (BlockMetadata VR DE).
Implicit Types (self : LightClientVerifier) (b : Block) (ms : list BlockMetadata).

(** The keys that signed. *)
Definition signers ms : gset Ed25519Public := list_to_set (node_key <$> ms).

(** Metadata that is for a block and has a valid signature. *)
Definition signs (block_id : BlockID) (m : BlockMetadata) : Prop :=
  meta_block_id (meta_contents m) = block_id ∧ metadata_verify m = true.

Lemma check_metadata_Ok block_id ms : check_metadata block_id ms = Ok tt ↔ Forall (signs block_id) ms.
Proof.
  induction ms as [|m ms IH]; cbn [check_metadata]; [done|]. rewrite Forall_cons, <-IH. unfold signs.
  case_bool_decide as E; cbn [negb]; [|naive_solver].
  destruct (metadata_verify m); cbn [negb]; naive_solver.
Qed.

Lemma signers_collect ms : node_ids_collect (metadata_node_id <$> ms) = signers ms.
Proof. unfold node_ids_collect, signers. f_equal. rewrite <-list_fmap_compose. done. Qed.

Lemma verify_signatures_Ok (s : TrustedValidatorSet) block_id ms :
  qs_small (quorum_set s) = true →
  verify_block_id_signatures s block_id ms = Ok tt ↔
    Forall (signs block_id) ms ∧ is_slice (signers ms) (keys (quorum_set s)) = true.
Proof.
  intros Hs. unfold verify_block_id_signatures. rewrite <-check_metadata_Ok.
  rewrite verify_quorum_slice by done. rewrite signers_collect.
  destruct (check_metadata block_id ms) as [[]|e]; cbn [result_bind]; [|naive_solver].
  destruct (is_slice (signers ms) (keys (quorum_set s))); cbn [negb]; naive_solver.
Qed.

Lemma verify_historical_set b ms sets :
  verify_historical b ms sets =
    match historical_set (index b) sets with
    | Some s => verify_block_id_signatures s (id b) ms
    | None => Err (NoMatchingValidatorSet (index b))
    end.
Proof.
  induction sets as [|[[lo hi] s] sets IH]; cbn [verify_historical historical_set]; [done|].
  by destruct (_ && _).
Qed.

(** Enough trusted validators vouch for a block. *)
Definition vouched self b ms : Prop :=
  ∃ s, validator_set_at self (index b) = Some s ∧ Forall (signs (id b)) ms ∧
       is_slice (signers ms) (keys (quorum_set s)) = true.

Lemma verify_block_Ok self b ms :
  verifier_small self →
  verify_block self b ms = Ok tt ↔
    is_block_id_valid b = true ∧ (id b ∈ known_valid_block_ids self ∨ vouched self b ms).
Proof.
  intros Hs. unfold verify_block, vouched. destruct (is_block_id_valid b) eqn:Ei; cbn [negb]; [|naive_solver].
  case_bool_decide as Ek; [naive_solver|]. rewrite verify_historical_set.
  pose proof (Hs (index b)) as Hb. unfold validator_set_at in *. destruct (_ <=? _).
  - rewrite verify_signatures_Ok by by apply Hb. naive_solver.
  - destruct (historical_set _ _) as [s|]; [|naive_solver].
    rewrite verify_signatures_Ok by by apply Hb. naive_solver.
Qed.

Lemma find_txos_Ok txos outs : find_txos txos outs = Ok tt ↔ ∀ o, o ∈ txos → o ∈ outs.
Proof.
  induction txos as [|o txos IH]; cbn [find_txos]; [split; [by intros _ o ?%not_elem_of_nil|done]|].
  assert (existsb (λ o', bool_decide (o' = o)) outs = true ↔ o ∈ outs) as Hex.
  { rewrite existsb_exists. setoid_rewrite bool_decide_eq_true. setoid_rewrite <-list_elem_of_In. naive_solver. }
  destruct (existsb _ outs); cbn [negb].
  - rewrite IH. assert (o ∈ outs) by by apply Hex. split.
    + intros Ht o' [->|Ho]%elem_of_cons; auto.
    + intros Ht o' Ho. apply Ht. by apply elem_of_cons; right.
  - split; [done|]. intros Ht. assert (false = true) by (apply Hex, Ht, elem_of_cons; by left). done.
Qed.

Lemma verify_contents_Ok self b c ms :
  verifier_small self →
  verify_block_and_block_contents self b c ms = Ok tt ↔
    is_block_id_valid b = true ∧ (id b ∈ known_valid_block_ids self ∨ vouched self b ms) ∧
    contents_digest c = contents_hash b.
Proof.
  intros Hs. unfold verify_block_and_block_contents. pose proof (verify_block_Ok self b ms Hs) as Hv.
  destruct (verify_block self b ms) as [[]|e]; cbn [result_bind]; [|naive_solver].
  case_bool_decide as E; cbn [negb]; naive_solver.
Qed.

(** A light client accepts outputs as part of a block exactly when the
    block's id is that of its fields, the block is listed as valid or every
    metadata given signs it and the signers are a slice of the validator set
    for its index, the contents have the hash in the block, and the outputs are
    among them. *)
Theorem verify_txos_iff self txos b c ms :
  verifier_small self →
  verify_txos_in_block self txos b c ms = Ok tt ↔
    is_block_id_valid b = true ∧ (id b ∈ known_valid_block_ids self ∨ vouched self b ms) ∧
    contents_digest c = contents_hash b ∧ ∀ o, o ∈ txos → o ∈ Block.outputs c.
Proof.
  intros Hs. unfold verify_txos_in_block. rewrite <-find_txos_Ok.
  pose proof (verify_contents_Ok self b c ms Hs) as Hv.
  destruct (verify_block_and_block_contents self b c ms) as [[]|e]; cbn [result_bind]; naive_solver.
Qed.

(** *** No forks *)

(** Two blocks with the same id but different fields, or two contents with the
    same hash. *)
Definition id_collision b b' : Prop := is_block_id_valid b = true ∧ is_block_id_valid b' = true ∧ id b = id b' ∧ b ≠ b'.
Definition contents_collision (c c' : BlockContents) : Prop := contents_digest c = contents_digest c' ∧ c ≠ c'.

Lemma same_contents b1 b2 c1 c2 :
  is_block_id_valid b1 = true → is_block_id_valid b2 = true → id b1 = id b2 →
  contents_digest c1 = contents_hash b1 → contents_digest c2 = contents_hash b2 →
  c1 = c2 ∨ id_collision b1 b2 ∨ contents_collision c1 c2.
Proof.
  intros Hv1 Hv2 Hid H1 H2. destruct (decide (b1 = b2)) as [->|Hb]; [|by right; left].
  destruct (decide (c1 = c2)) as [->|Hc]; [by left|]. right; right. split; [congruence|done].
Qed.

Section honest.
(** The keys of honest validators, and what they signed: a signature of such a
    key that verifies was made by its holder. *)
Context (honest : gset Ed25519Public) (signed : Ed25519Public → BlockMetadataContents VR DE → Prop).
Hypothesis unforgeable : ∀ m : BlockMetadata,
  node_key m ∈ honest → metadata_verify m = true → signed (node_key m) (meta_contents m).

Lemma vouched_honest self b ms k :
  vouched self b ms → k ∈ honest → k ∈ signers ms →
  ∃ c, signed k c ∧ meta_block_id c = id b.
Proof.
  intros (s & _ & Hall & _) Hk (m & -> & Hm)%elem_of_list_to_set%list_elem_of_fmap.
  rewrite Forall_forall in Hall. destruct (Hall m Hm) as [Hid Hv]. exists (meta_contents m). auto.
Qed.

(** C18: No forks.  Suppose that any two slices of a validator set have an
    honest validator in common, and that an honest validator does not sign two
    blocks with one index.  Then two blocks with the same index that a light
    client accepts on the word of its validators, not because their ids are in
    its list [known_valid_block_ids], have the same id; and their
    contents, if accepted too, are the same, unless hashes collide. *)
Theorem verified_blocks_agree self b1 b2 c1 c2 ms1 ms2 :
  verifier_small self →
  (∀ i s, validator_set_at self i = Some s → ∀ U1 U2,
     is_slice U1 (keys (quorum_set s)) = true → is_slice U2 (keys (quorum_set s)) = true →
     ∃ k, k ∈ honest ∧ k ∈ U1 ∧ k ∈ U2) →
  (∀ k m1 m2 b b', k ∈ honest → signed k m1 → signed k m2 → meta_block_id m1 = id b → meta_block_id m2 = id b' →
     is_block_id_valid b = true → is_block_id_valid b' = true → index b = index b' → id b = id b') →
  verify_block_and_block_contents self b1 c1 ms1 = Ok tt → id b1 ∉ known_valid_block_ids self →
  verify_block_and_block_contents self b2 c2 ms2 = Ok tt → id b2 ∉ known_valid_block_ids self →
  index b1 = index b2 →
  id b1 = id b2 ∧ (c1 = c2 ∨ id_collision b1 b2 ∨ contents_collision c1 c2).
Proof.
  intros Hs Hint Honce H1 Hk1 H2 Hk2 Hi.
  apply verify_contents_Ok in H1 as (Hv1 & [?|Hw1] & Hc1); [done| |done].
  apply verify_contents_Ok in H2 as (Hv2 & [?|Hw2] & Hc2); [done| |done].
  pose proof Hw1 as (s & Hset & _ & Hs1). pose proof Hw2 as (s' & Hset' & _ & Hs2).
  rewrite Hi in Hset. rewrite Hset in Hset'. injection Hset' as <-.
  destruct (Hint _ _ Hset _ _ Hs1 Hs2) as (k & Hk & Hm1 & Hm2).
  destruct (vouched_honest self b1 ms1 k Hw1 Hk Hm1) as (m1 & Hsg1 & Hid1).
  destruct (vouched_honest self b2 ms2 k Hw2 Hk Hm2) as (m2 & Hsg2 & Hid2).
  assert (id b1 = id b2) as Hid by by eapply (Honce k m1 m2).
  split; [done|]. by apply same_contents.
Qed.

(** Verified outputs are in the ledger of the honest validators.  If
    every slice has an honest validator, which signs only blocks of its chain,
    then outputs a light client accepts as part of a block are outputs of a
    block of the chain with the same id, unless hashes collide or the block was
    configured as valid. *)
Theorem verified_txos_in_chain {Sig} self txos b c ms (chain : list (BlockData Sig BlockMetadata)) :
  verifier_small self →
  (∀ i s, validator_set_at self i = Some s → ∀ U, is_slice U (keys (quorum_set s)) = true → ∃ k, k ∈ honest ∧ k ∈ U) →
  (∀ k m, k ∈ honest → signed k m → ∃ d, d ∈ chain ∧ id (bd_block d) = meta_block_id m) →
  (∀ d, d ∈ chain → is_block_id_valid (bd_block d) = true ∧ contents_digest (bd_contents d) = contents_hash (bd_block d)) →
  verify_txos_in_block self txos b c ms = Ok tt → id b ∉ known_valid_block_ids self →
  ∃ d, d ∈ chain ∧ id (bd_block d) = id b ∧
    ((∀ o, o ∈ txos → o ∈ Block.outputs (bd_contents d)) ∨
     id_collision b (bd_block d) ∨ contents_collision c (bd_contents d)).
Proof.
  intros Hs Hint Hchain Hvalid. unfold verify_txos_in_block.
  destruct (verify_block_and_block_contents self b c ms) as [[]|e] eqn:Hb; cbn [result_bind]; [|done].
  rewrite find_txos_Ok. intros Ht Hk.
  apply verify_contents_Ok in Hb as (Hv & [?|Hw] & Hc); [done| |done].
  pose proof Hw as (s & Hset & _ & Hsl). destruct (Hint _ _ Hset _ Hsl) as (k & Hkh & Hks).
  destruct (vouched_honest self b ms k Hw Hkh Hks) as (m & Hsg & Hid).
  destruct (Hchain k m Hkh Hsg) as (d & Hd & Hidd). exists d. rewrite Hid in Hidd. split_and!; [done..|].
  destruct (Hvalid d Hd) as [Hvd Hcd].
  destruct (same_contents b (bd_block d) c (bd_contents d)) as [->|?]; auto.
Qed.
End honest.

(** ** Signing and verifying *)

(** A signature made with a key pair verifies with its public key. *)
Definition pairs_verify `{KeyPair K} : Prop :=
  ∀ (k : K) m s, pair_try_sign k m = Ok s → sig_verify (pair_public k) m s = true.

Lemma signed_metadata_signs `{KeyPair K} (k : K) c m :
  pairs_verify (K:=K) → from_contents_and_keypair c k = Ok m →
  signs (meta_block_id c) m ∧ node_key m = pair_public k.
Proof.
  intros Hpv. unfold from_contents_and_keypair, signs, metadata_verify.
  destruct (pair_try_sign k _) as [s|e] eqn:E; cbn [result_bind]; [|done]. intros [= <-]. naive_solver.
Qed.

(** Enough signatures are accepted.  If validators whose keys are a
    slice of the set for the index of a block sign metadata with its id, the
    light client accepts the block with that metadata, whatever else the
    metadata says. *)
Theorem signed_block_accepted `{KeyPair K} self b s (cs : list (BlockMetadataContents VR DE * K)) ms :
  pairs_verify (K:=K) → verifier_small self → is_block_id_valid b = true →
  validator_set_at self (index b) = Some s →
  Forall (λ c, meta_block_id c.1 = id b) cs →
  Forall2 (λ c m, from_contents_and_keypair c.1 c.2 = Ok m) cs ms →
  is_slice (list_to_set ((λ c, pair_public c.2) <$> cs)) (keys (quorum_set s)) = true →
  verify_block self b ms = Ok tt.
Proof.
  intros Hpv Hs Hb Hset Hids Hms Hsl. apply verify_block_Ok; [done|]. split; [done|]. right. exists s.
  assert (Forall (signs (id b)) ms ∧ signers ms = list_to_set ((λ c, pair_public c.2) <$> cs)) as [Hall Hk].
  { unfold signers. clear Hsl. induction Hms as [|c m cs ms Hm Hms IH]; [by split|].
    apply Forall_cons in Hids as [Hid Hids]. destruct (IH Hids) as [Hall Hk].
    destruct (signed_metadata_signs _ _ _ Hpv Hm) as [Hsg Hkey]. rewrite Hid in Hsg.
    split; [by constructor|]. cbn [fmap list_fmap list_to_set]. by rewrite Hkey, Hk. }
  split_and!; [done..|]. by rewrite Hk.
Qed.

(** Responder ids are not checked: what a validator set accepts depends only on
    the public keys in it, though its documentation says that signatures must
    be made with the expected keys for a responder id. *)
Theorem responder_ids_unchecked s s' block_id ms :
  qs_small (quorum_set s) = true → qs_small (quorum_set s') = true →
  keys (quorum_set s) = keys (quorum_set s') →
  verify_block_id_signatures s block_id ms = verify_block_id_signatures s' block_id ms.
Proof.
  intros Hs Hs' Hk. unfold verify_block_id_signatures. rewrite !verify_quorum_slice by done. by rewrite Hk.
Qed.
End verifier.

(** ** Ranges of keys *)

Section key_ranges.
Context {VR DE : Type} `{MD : MetadataDigest VR DE} `{V : Verifier Ed25519Public Ed25519Signature}.

Lemma validity_map_ranges configs k :
  default [] (to_validity_map configs !! k) = to_range <$> filter (λ c, kv_pub_key c = k) configs.
Proof.
  unfold to_validity_map. induction configs as [|c configs IH] using rev_ind; [done|].
  rewrite foldl_snoc, filter_app, fmap_app, <-IH. rewrite filter_cons, filter_nil.
  destruct (decide (kv_pub_key c = k)) as [<-|Hk]; [by rewrite lookup_insert_eq|].
  rewrite lookup_insert_ne by done. by rewrite app_nil_r.
Qed.

(** Metadata is valid at an index exactly when one of the configured ranges of
    its key has the index and its signature verifies; a missing end is the
    largest index. *)
Theorem metadata_validate_iff configs (m : BlockMetadata VR DE) i :
  metadata_validate (to_validity_map configs) m i = Ok tt ↔
    metadata_verify m = true ∧
    ∃ c, c ∈ configs ∧ kv_pub_key c = node_key m ∧ first_block_index c <= i <= default u64_max (last_block_index c).
Proof.
  unfold metadata_validate, key_range_validate. pose proof (validity_map_ranges configs (node_key m)) as Hr.
  assert (∀ l, existsb (λ r, (r.1 <=? i) && (i <=? r.2)) (to_range <$> l) = true ↔
            ∃ c, c ∈ l ∧ first_block_index c <= i <= default u64_max (last_block_index c)) as Hex.
  { intros l. rewrite existsb_exists. setoid_rewrite <-list_elem_of_In. setoid_rewrite list_elem_of_fmap.
    setoid_rewrite andb_true_iff. setoid_rewrite N.leb_le. split; [intros (r & (c & -> & ?) & ?)|intros (c & ? & ?)]; eauto. }
  assert ((∃ c, c ∈ filter (λ c, kv_pub_key c = node_key m) configs ∧ first_block_index c <= i <= default u64_max (last_block_index c)) ↔
    ∃ c, c ∈ configs ∧ kv_pub_key c = node_key m ∧ first_block_index c <= i <= default u64_max (last_block_index c)) as Hf.
  { setoid_rewrite list_elem_of_filter. naive_solver. }
  rewrite <-Hf, <-Hex, <-Hr.
  destruct (to_validity_map configs !! node_key m) as [l|]; cbn [default Datatypes.id result_bind existsb]; [|naive_solver].
  destruct (existsb _ l); cbn [result_bind]; [|naive_solver]. destruct (metadata_verify m); naive_solver.
Qed.
End key_ranges.

(** ** The relayer *)

Section relayer.
Context `{C : Curve} {L Sig Meta : Type} `{BR : BlockReader L Sig Meta} `{HI : HashIter}.
Context {Url WD : Type} `{Countable Url} `{WA : !Watcher WD Url Sig Meta}.
Context {S RV : Type} `{SE : Sender S Meta} `{RVE : RelayVerifier RV Meta}.
Notation BlockData := (BlockData Sig Meta).

(** Rounds of the thread, with the databases as they are in each. *)
Fixpoint relayer_rounds (envs : list (L * WD)) (self : RelayerThread S RV) : exec (RelayerThread S RV) :=
  match envs with
  | [] => Done self
  | e :: envs => let! self := relayer_round e.1 e.2 self in relayer_rounds envs self
  end.

(** The ledger answers; blocks that it has are those of [chain]. *)
Definition reads_chain (chain : list BlockData) (l : L) : Prop :=
  ∀ i, ∃ r, read_block_data l i = Done r ∧ ∀ d, r = Ok d → chain !! N.to_nat i = Some d.

(** What is to be relayed of a block, if anything. *)
Definition relay_of (d : BlockData) : option (list TxOut * Block * BlockContents) :=
  match check_for_relevant_burns (Block.outputs (bd_contents d)) with
  | [] => None
  | burns => Some (burns, bd_block d, bd_contents d)
  end.
Definition relayed_parts (b : RelayedBlock Meta) : list TxOut * Block * BlockContents :=
  (burn_tx_outs b, relayed_block b, relayed_contents b).

(** What was sent is what was to be sent of the blocks before the next one. *)
Definition relayer_inv (chain : list BlockData) (start : N) (s0 : S) (v : RV) (self : RelayerThread S RV) : Prop :=
  start <= next_block_index self <= N.max start (len chain) ∧ verifier self = v ∧
  ∃ relayed, sender self = foldl send s0 relayed ∧
    relayed_parts <$> relayed
      = omap relay_of (take (N.to_nat (next_block_index self - start)) (drop (N.to_nat start) chain)) ∧
    Forall (λ b, verify_relayed_block v b = Ok tt) relayed.

Lemma take_advance chain start n (d : BlockData) :
  start <= n → chain !! N.to_nat n = Some d →
  take (N.to_nat (n + 1 - start)) (drop (N.to_nat start) chain)
  = take (N.to_nat (n - start)) (drop (N.to_nat start) chain) ++ [d].
Proof.
  intros Hle Hd. replace (N.to_nat (n + 1 - start)) with (Datatypes.S (N.to_nat (n - start))) by lia.
  apply take_S_r. rewrite lookup_drop. rewrite <-Hd. f_equal. lia.
Qed.

Lemma omap_snoc {A B} (f : A → option B) l x :
  omap f (l ++ [x]) = omap f l ++ match f x with Some y => [y] | None => [] end.
Proof. rewrite omap_app. cbn. by destruct (f x). Qed.

Lemma relayer_round_inv chain start s0 v l w self :
  len chain < u64_modulus → reads_chain chain l → relayer_inv chain start s0 v self →
  ∃ self', relayer_round l w self = Done self' ∧ relayer_inv chain start s0 v self'.
Proof.
  intros Hlen Hl Hinv. pose proof Hinv as ([Hlo Hhi] & Hv & relayed & Hs & Hp & Hver).
  unfold relayer_round. destruct (Hl (next_block_index self)) as (r & -> & Hr). cbn [exec_bind].
  destruct r as [d|e]; [|by eauto]. specialize (Hr d eq_refl).
  pose proof (lookup_lt_Some _ _ _ Hr) as Hlt. unfold len in Hlen, Hhi.
  assert (u64_add (next_block_index self) 1 = next_block_index self + 1) as Ha
    by (apply u64_add_small; lia).
  assert (start <= next_block_index self + 1 <= N.max start (len chain)) as Hb by (unfold len; lia).
  unfold process_block. destruct (check_for_relevant_burns _) as [|o burns] eqn:Ebu.
  - eexists. split; [reflexivity|]. split; [cbn [next_block_index]; by rewrite Ha|]. split; [done|].
    exists relayed. split; [done|]. split; [|done]. cbn [next_block_index]. rewrite Ha.
    rewrite (take_advance chain start _ d) by done. rewrite omap_snoc. unfold relay_of at 2. rewrite Ebu.
    by rewrite app_nil_r.
  - destruct (get_block_signatures w _) as [sigs|e]; [|by eauto].
    set (b := mkRelayedBlock _ _ _ _). destruct (verify_relayed_block (verifier self) b) as [[]|e] eqn:Ev; [|by eauto].
    eexists. split; [reflexivity|]. split; [cbn [next_block_index]; by rewrite Ha|]. split; [done|].
    exists (relayed ++ [b]). split; [rewrite foldl_snoc; cbn [sender]; by rewrite Hs|].
    split; [|apply Forall_app; split; [done|]; constructor; [by rewrite <-Hv; destruct (verify_relayed_block _ b)|done]].
    cbn [next_block_index]. rewrite Ha, (take_advance chain start _ d) by done. rewrite omap_snoc.
    unfold relay_of at 2. rewrite Ebu. rewrite fmap_app, Hp. done.
Qed.

(** The relayer relays every block with burned outputs once, in order,
    and nothing else.  Whatever the databases answer from round to round, as
    long as the ledger's blocks are those of a chain, the blocks sent are those
    of the chain from the first index up to the next one that have outputs for
    the burn address, with exactly those outputs; and each was verified. *)
Theorem relayed_exactly_once chain start s0 v envs :
  len chain < u64_modulus → Forall (λ e, reads_chain chain e.1) envs →
  ∃ self relayed, relayer_rounds envs (relayer_start start s0 v) = Done self ∧
    start <= next_block_index self <= N.max start (len chain) ∧
    sender self = foldl send s0 relayed ∧
    relayed_parts <$> relayed
      = omap relay_of (take (N.to_nat (next_block_index self - start)) (drop (N.to_nat start) chain)) ∧
    Forall (λ b, verify_relayed_block v b = Ok tt) relayed.
Proof.
  intros Hlen Henvs.
  assert (relayer_inv chain start s0 v (relayer_start start s0 v)) as Hinv.
  { split; [cbn; lia|]. split; [done|]. exists []. cbn [next_block_index relayer_start]. by rewrite N.sub_diag. }
  revert Hinv. generalize (relayer_start start s0 v) as self.
  induction Henvs as [|[l w] envs Hl _ IH]; intros self Hinv; cbn [relayer_rounds fst snd] in *.
  - pose proof Hinv as (? & ? & relayed & ? & ? & ?). by exists self, relayed.
  - destruct (relayer_round_inv _ _ _ _ l w _ Hlen Hl Hinv) as (self' & -> & Hinv'). apply (IH self' Hinv').
Qed.
End relayer.

(** ** Burned outputs *)

Section burn.
Context `{CL : CurveLaws}.

Lemma burn_shared_secret r :
  create_shared_secret (view_public_key burn_address) r
  = get_tx_out_shared_secret burn_address_view_private (create_tx_out_public_key r (spend_public_key burn_address)).
Proof.
  unfold get_tx_out_shared_secret, create_shared_secret, create_tx_out_public_key, burn_address, PublicAddress_new.
  cbn [view_public_key spend_public_key]. unfold burn_address_view_public. rewrite !p_mul_mul. f_equal. apply s_mul_comm.
Qed.

(** Burned outputs are found.  An output made for the burn address is
    among the relevant burns of any block that holds it, with its amount: its
    view public key is related to its spend public key as that of a subaddress. *)
Theorem burn_outputs_found block_version amount r hint memo_fn out outs :
  token_id amount < 2 ^ 64 →
  new_with_memo block_version amount burn_address r hint (λ R, Ok (memo_fn R)) = Ok out → out ∈ outs →
  out ∈ check_for_relevant_burns outs ∧ ∃ ss, view_key_match out burn_address_view_private = Ok (amount, ss).
Proof.
  intros Ht Hn Hin.
  destruct (OnetimeKeysProps.new_output_matches_key _ _ _ _ _ _ _ _ (burn_shared_secret r) Ht Hn) as (_ & ss & Hm).
  split; [|by exists ss]. unfold check_for_relevant_burns. rewrite list_elem_of_In, List.filter_In, <-list_elem_of_In.
  by rewrite Hm.
Qed.
End burn.

(** ** Witnesses: three validators, of which two are enough *)

#[local] Existing Instance elements_iter.
#[local] Instance bc : Curve := bit_curve.
#[local] Instance bl : CurveLaws := bit_curve_laws.
#[local] Instance lc_digests : BlockDigests := {|
  contents_digest c := vreplicate 32 (u8 (len (Block.outputs c)));
  compute_block_id _ p i _ _ h := vreplicate 32 (u8 (7 * Byte.to_N (p !!! 0%fin) + 5 * i + Byte.to_N (h !!! 0%fin)))
|}.
#[local] Instance lc_metadata_digest : MetadataDigest unit unit := λ _ c, vec_to_list (meta_block_id c).

(** An output for the burn address, in block 1. *)
Definition lc_burn : result TxOut NewTxError :=
  new_with_memo VERSION_THREE (mkAmount 700 3) burn_address OnetimeKeysProps.toy_scalar [] (λ R, Ok (replicate 66 (u8 9))).
Definition lc_contents : BlockContents :=
  mkBlockContents [] (match lc_burn with Ok o => [o] | Err _ => [] end) [] [].
Definition lc_b0 : Block := new_origin_block [].
Definition lc_b1 : Block := Block_new 3 (id lc_b0) 1 1 root_element_default lc_contents.

(** Signatures, of everybody, are for this block only. *)
#[local] Instance lc_verifier : Verifier Ed25519Public Ed25519Signature := {|
  sig_verify k m s := bool_decide (m = vec_to_list (id lc_b1));
  sig_bytes s := vec_to_list s
|}.
#[local] Instance lc_pairs : KeyPair N := {|
  pair_public n := vreplicate 32 (u8 n);
  pair_try_sign n m := if bool_decide (m = vec_to_list (id lc_b1)) then Ok (vreplicate 64 (u8 n)) else Err tt
|}.

Definition lc_node (name : string) (n : N) : NodeID := mkNodeID name (pair_public n).
Definition lc_config : LightClientVerifierConfig :=
  mkLightClientVerifierConfig
    (mkQuorumSetConfig 2 [inl (lc_node "a" 1); inl (lc_node "b" 2); inl (lc_node "c" 3)]) 1 [] ∅.
Definition lc_self : LightClientVerifier := verifier_from lc_config.
Definition lc_meta (name : string) (n : N) : BlockMetadata unit unit :=
  mkBlockMetadata (MetadataContents_new (id lc_b1) Ctor.empty (DcapEvidence tt) name) (pair_public n)
    (vreplicate 64 (u8 n)).
Definition lc_metadata : list (BlockMetadata unit unit) := [lc_meta "a" 1; lc_meta "c" 3].
Definition lc_honest : gset Ed25519Public := {[ pair_public 1; pair_public 2; pair_public 3 ]}.
Definition lc_signed (k : Ed25519Public) (c : BlockMetadataContents unit unit) : Prop := meta_block_id c = id lc_b1.

Lemma lc_set i s : validator_set_at lc_self i = Some s → s = trusted_validator_set lc_self.
Proof. unfold validator_set_at. destruct (_ <=? _); [by intros [= <-]|]. intros Hn. discriminate Hn. Qed.

Lemma lc_small : verifier_small lc_self.
Proof. intros i s ->%lc_set. reflexivity. Qed.

Lemma lc_unforgeable (m : BlockMetadata unit unit) :
  node_key m ∈ lc_honest → metadata_verify m = true → lc_signed (node_key m) (meta_contents m).
Proof. intros _ Hv%bool_decide_eq_true. by apply vec_to_list_inj2 in Hv. Qed.

Lemma lc_slice (U : gset Ed25519Public) :
  is_slice U (keys (quorum_set (trusted_validator_set lc_self))) = true →
  (pair_public 1 ∈ U ∧ pair_public 2 ∈ U) ∨ (pair_public 1 ∈ U ∧ pair_public 3 ∈ U) ∨ (pair_public 2 ∈ U ∧ pair_public 3 ∈ U).
Proof.
  unfold lc_self, lc_config, verifier_from. cbn [trusted_validator_set lc_trusted_validator_set quorum_set quorum_set_from map].
  rewrite keys_unfold. cbn [omap list_omap fmap list_fmap]. rewrite is_slice_unfold. cbn [countb member_sat node_public_key lc_node].
  repeat case_bool_decide; cbn; naive_solver.
Qed.

Lemma two_of_three {A} `{Countable A} (k1 k2 k3 : A) (U W : gset A) :
  (k1 ∈ U ∧ k2 ∈ U) ∨ (k1 ∈ U ∧ k3 ∈ U) ∨ (k2 ∈ U ∧ k3 ∈ U) →
  (k1 ∈ W ∧ k2 ∈ W) ∨ (k1 ∈ W ∧ k3 ∈ W) ∨ (k2 ∈ W ∧ k3 ∈ W) →
  ∃ k, k ∈ ({[ k1; k2; k3 ]} : gset A) ∧ k ∈ U ∧ k ∈ W.
Proof.
  intros [[]|[[]|[]]] [[]|[[]|[]]]; first [exists k1; set_solver|exists k2; set_solver|exists k3; set_solver].
Qed.

Lemma lc_outputs_in o : lc_burn = Ok o → o ∈ Block.outputs lc_contents.
Proof. unfold lc_contents. cbn [Block.outputs]. intros ->. by apply list_elem_of_singleton. Qed.

Lemma lc_verified : verify_txos_in_block lc_self (Block.outputs lc_contents) lc_b1 lc_contents lc_metadata = Ok tt.
Proof. vm_compute. reflexivity. Qed.
Lemma lc_contents_verified : verify_block_and_block_contents lc_self lc_b1 lc_contents lc_metadata = Ok tt.
Proof. vm_compute. reflexivity. Qed.

Lemma verify_txos_iff_witness : is_slice (signers lc_metadata) (keys (quorum_set (trusted_validator_set lc_self))) = true.
Proof.
  destruct (proj1 (verify_txos_iff lc_self (Block.outputs lc_contents) lc_b1 lc_contents lc_metadata lc_small) lc_verified)
    as (_ & [Hk|(s & Hs & _ & Hsl)] & _); [by apply not_elem_of_empty in Hk|].
  apply lc_set in Hs. rewrite <-Hs. exact Hsl.
Defined.

Lemma verified_blocks_agree_witness :
  verify_block_and_block_contents lc_self lc_b1 lc_contents [lc_meta "b" 2; lc_meta "c" 3] = Ok tt ∧
  (lc_contents = lc_contents ∨ id_collision lc_b1 lc_b1 ∨ contents_collision lc_contents lc_contents).
Proof.
  assert (verify_block_and_block_contents lc_self lc_b1 lc_contents [lc_meta "b" 2; lc_meta "c" 3] = Ok tt) as H2
    by (vm_compute; reflexivity).
  split; [exact H2|].
  apply (verified_blocks_agree lc_honest lc_signed lc_unforgeable lc_self lc_b1 lc_b1 lc_contents lc_contents lc_metadata
    [lc_meta "b" 2; lc_meta "c" 3] lc_small); [| |exact lc_contents_verified|apply not_elem_of_empty|exact H2|apply not_elem_of_empty|reflexivity].
  - intros i s ->%lc_set U1 U2 H1%lc_slice H3%lc_slice. exact (two_of_three _ _ _ U1 U2 H1 H3).
  - intros k m1 m2 b b' _ E1 E2 <- <- _ _ _. by rewrite E1, E2.
Defined.

Lemma verified_txos_in_chain_witness :
  ∃ d, d ∈ [mkBlockData (Sig:=unit) lc_b1 lc_contents None (Some (lc_meta "a" 1))] ∧ id (bd_block d) = id lc_b1.
Proof.
  destruct (verified_txos_in_chain lc_honest lc_signed lc_unforgeable lc_self (Block.outputs lc_contents) lc_b1 lc_contents
    lc_metadata [mkBlockData (Sig:=unit) lc_b1 lc_contents None (Some (lc_meta "a" 1))] lc_small) as (d & Hd & Hid & _).
  - intros i s ->%lc_set U HU%lc_slice. destruct (two_of_three _ _ _ U U HU HU) as (k & Hk & HkU & _).
    exists k. exact (conj Hk HkU).
  - intros k m _ E. eexists. split; [by apply list_elem_of_singleton|]. by symmetry.
  - intros d ->%list_elem_of_singleton. split; vm_compute; reflexivity.
  - exact lc_verified.
  - apply not_elem_of_empty.
  - by exists d.
Defined.

Lemma signed_block_accepted_witness : verify_block lc_self lc_b1 lc_metadata = Ok tt.
Proof.
  apply (signed_block_accepted lc_self lc_b1 (trusted_validator_set lc_self)
    [(meta_contents (lc_meta "a" 1), 1); (meta_contents (lc_meta "c" 3), 3)] lc_metadata).
  - intros k m s. cbn [pair_try_sign lc_pairs sig_verify lc_verifier]. by case_bool_decide.
  - exact lc_small.
  - vm_compute. reflexivity.
  - reflexivity.
  - by repeat constructor.
  - repeat constructor; vm_compute; reflexivity.
  - vm_compute. reflexivity.
Defined.

(** A signer that is configured as [a] may call itself [x]. *)
Lemma responder_ids_unchecked_witness :
  verify_block_id_signatures (mkTrustedValidatorSet (Ctor.new 1 [Node (lc_node "a" 1)])) (id lc_b1) [lc_meta "x" 1] = Ok tt.
Proof.
  rewrite (responder_ids_unchecked _ (mkTrustedValidatorSet (Ctor.new 1 [Node (lc_node "x" 1)])));
    [vm_compute; reflexivity|reflexivity..].
Defined.

(** The ledger grows from one block to two; the watcher has signatures in the
    third round only. *)
Notation lc_data := (BlockData unit (BlockMetadata unit unit)).
#[local] Instance lc_reader : BlockReader (list lc_data) unit (BlockMetadata unit unit) :=
  λ l i, Done (match l !! N.to_nat i with Some d => Ok d | None => Err NotFound end).
#[local] Instance lc_watcher : Watcher bool N unit (BlockMetadata unit unit) := λ w _,
  if w : bool then Ok {[ 1 := mkBlockData lc_b1 lc_contents None (Some (lc_meta "a" 1));
                         2 := mkBlockData lc_b1 lc_contents None (Some (lc_meta "b" 2)) ]}
  else Ok ∅.
Definition lc_chain : list lc_data := [mkBlockData lc_b0 (mkBlockContents [] [] [] []) None None; mkBlockData lc_b1 lc_contents None None].
Definition lc_rounds : list (list lc_data * bool) := [(take 1 lc_chain, false); (lc_chain, false); (lc_chain, true)].

Lemma lc_reads : Forall (λ e, reads_chain lc_chain e.1) lc_rounds.
Proof.
  assert (∀ n, reads_chain lc_chain (take n lc_chain)) as Hr.
  { intros n i. eexists. split; [reflexivity|]. intros d. destruct (take n lc_chain !! N.to_nat i) as [d'|] eqn:E; [|done].
    intros [= ->]. by apply lookup_take_Some in E as [? _]. }
  repeat constructor; [apply (Hr 1%nat)|apply (Hr 2%nat)..].
Qed.

Lemma relayed_exactly_once_witness :
  ∃ self (relayed : list (RelayedBlock (BlockMetadata unit unit))), relayer_rounds lc_rounds (relayer_start 0 ([] : list (RelayedBlock (BlockMetadata unit unit))) lc_self) = Done self ∧
    next_block_index self = 2 ∧ relayed_parts <$> relayed = [(Block.outputs lc_contents, lc_b1, lc_contents)].
Proof.
  destruct (relayed_exactly_once lc_chain 0 ([] : list (RelayedBlock (BlockMetadata unit unit))) lc_self lc_rounds
    ltac:(vm_compute; reflexivity) lc_reads) as (self & relayed & Hr & _ & _ & Hp & _).
  exists self, relayed. split; [exact Hr|]. assert (next_block_index self = 2) as Hn.
  { transitivity (next_block_index (match relayer_rounds lc_rounds (relayer_start 0 ([] : list (RelayedBlock (BlockMetadata unit unit))) lc_self)
                                    with Done s => s | _ => self end)); [by rewrite Hr|]. vm_compute. reflexivity. }
  split; [exact Hn|]. rewrite Hp, Hn. vm_compute. reflexivity.
Defined.

Lemma burn_outputs_found_witness :
  ∃ out, lc_burn = Ok out ∧ out ∈ check_for_relevant_burns (Block.outputs lc_contents).
Proof.
  destruct lc_burn as [out|e] eqn:E; [|vm_compute in E; discriminate E].
  exists out. split; [reflexivity|].
  apply (burn_outputs_found VERSION_THREE (mkAmount 700 3) OnetimeKeysProps.toy_scalar [] (λ _, replicate 66 (u8 9)) out _
    ltac:(vm_compute; reflexivity) E (lc_outputs_in out E)).
Defined.
End LightClientProps.
