(* ===== verification/Memo.v ===== *)
(** * Memos

    The kinds of memo an output can carry ([transaction/extra/src/memo]) with
    their layouts in 64 bytes, the authentication of senders
    ([crypto/memo-mac]), and the builders that decide which memos the outputs of
    a transaction get ([transaction/builder/src/memo_builder]).

    Arrays are lists of bytes; [copy_from_slice] into a part of one is [put].
    HMAC and the digest of addresses are third-party code, the class
    [MemoCrypto]. *)

From stdpp Require Import vector strings.
From S2P Require Import Prelude Ord Bytes TxOut BlockVersion MaskedAmount Tx Ristretto OnetimeKeys LightClient.

Open Scope N_scope.

(** [b[i..j]], and [b[i..i + src.len()].copy_from_slice(src)]. *)
Definition slice (i j : nat) (b : bytes) : bytes := take (j - i) (drop i b).
Definition put (i : nat) (src b : bytes) : bytes := take i b ++ src ++ drop (i + length src) b.
Definition zeros (n : nat) : bytes := replicate n (u8 0).

(** [u64::from_be_bytes] of 7 bytes below a zero byte. *)
Definition be_value7 (b : bytes) : N := be_value (u8 0 :: b).

(** [HmacSha512], and the digest of an address with the context [mc-address]. *)
Class MemoCrypto `{Curve} : Type := {
  hmac_sha512 : bytes → bytes → vec byte 64;
  address_digest : PublicAddress → bytes32
}.

(** [compute_category1_hmac]. *)
Definition compute_category1_hmac `{MemoCrypto} (shared_secret : bytes32) (tx_out_public_key : CompressedRistrettoPublic)
    (memo_type_bytes memo_data_sans_mac : bytes) : bytes :=
  take 16 (vec_to_list (hmac_sha512 (vec_to_list shared_secret)
    (str_bytes "mc-memo-mac" ++ vec_to_list tx_out_public_key ++ memo_type_bytes ++ memo_data_sans_mac))).

(** ** Kinds of memos *)

Section memos.
Context `{MX : MemoCrypto}.

(** [ShortAddressHash]: 16 bytes. *)
Definition short_address_hash (src : PublicAddress) : bytes := take 16 (vec_to_list (address_digest src)).

(** [key_exchange] of a private and a public key. *)
Definition key_exchange (private : scalar) (their_public : point) : bytes32 := compress (p_mul private their_public).

Record SenderMemoCredential := mkSenderMemoCredential {
  cred_address_hash : bytes;
  subaddress_spend_private_key : scalar
}.
Definition credential_new (address : PublicAddress) (subaddress_spend_private_key : scalar) : SenderMemoCredential :=
  mkSenderMemoCredential (short_address_hash address) subaddress_spend_private_key.
Definition credential_from (src : AccountKey) : SenderMemoCredential :=
  credential_new (default_subaddress src) (subaddress_spend_private src DEFAULT_SUBADDRESS_INDEX).

(** [authenticated_common.rs]. *)
Definition validate_authenticated_sender (sender_address : PublicAddress)
    (receiving_subaddress_view_private_key : scalar) (tx_out_public_key : CompressedRistrettoPublic)
    (memo_type_bytes memo_data : bytes) : bool :=
  let shared_secret := key_exchange receiving_subaddress_view_private_key (spend_public_key sender_address) in
  let expected_hmac := compute_category1_hmac shared_secret tx_out_public_key memo_type_bytes (take 48 memo_data) in
  bool_decide (short_address_hash sender_address = slice 0 16 memo_data)
  && bool_decide (expected_hmac = drop 48 memo_data).

Definition compute_authenticated_sender_memo (memo_type_bytes : bytes) (cred : SenderMemoCredential)
    (receiving_subaddress_view_public_key : point) (tx_out_public_key : CompressedRistrettoPublic)
    (data : bytes) : bytes :=
  let memo_data := put 16 data (put 0 (cred_address_hash cred) (zeros 64)) in
  let shared_secret := key_exchange (subaddress_spend_private_key cred) receiving_subaddress_view_public_key in
  let hmac_value := compute_category1_hmac shared_secret tx_out_public_key memo_type_bytes (take 48 memo_data) in
  put 48 hmac_value memo_data.

(** The type bytes. *)
Definition UNUSED : bytes := [u8 0; u8 0].
Definition BURN_REDEMPTION : bytes := [u8 0; u8 1].
Definition GIFT_CODE_SENDER : bytes := [u8 0; u8 2].
Definition DEFRAGMENTATION : bytes := [u8 0; u8 3].
Definition AUTHENTICATED_SENDER : bytes := [u8 1; u8 0].
Definition AUTHENTICATED_SENDER_WITH_REQUEST : bytes := [u8 1; u8 1].
Definition AUTHENTICATED_SENDER_WITH_INTENT : bytes := [u8 1; u8 2].
Definition DESTINATION : bytes := [u8 2; u8 0].
Definition GIFT_CODE_FUNDING : bytes := [u8 2; u8 1].
Definition GIFT_CODE_CANCELLATION : bytes := [u8 2; u8 2].
Definition DESTINATION_WITH_REQUEST : bytes := [u8 2; u8 3].
Definition DESTINATION_WITH_INTENT : bytes := [u8 2; u8 4].

(** [AuthenticatedSenderMemo] and its variants with an id: the memo data. *)
Definition AuthenticatedSenderMemo_new (cred : SenderMemoCredential) (receiving_view_public_key : point)
    (tx_out_public_key : CompressedRistrettoPublic) : bytes :=
  compute_authenticated_sender_memo AUTHENTICATED_SENDER cred receiving_view_public_key tx_out_public_key (zeros 32).
Definition AuthenticatedSenderWithPaymentRequestIdMemo_new (cred : SenderMemoCredential)
    (receiving_view_public_key : point) (tx_out_public_key : CompressedRistrettoPublic) (payment_request_id : N) : bytes :=
  compute_authenticated_sender_memo AUTHENTICATED_SENDER_WITH_REQUEST cred receiving_view_public_key tx_out_public_key
    (put 0 (be_bytes 8 payment_request_id) (zeros 32)).
Definition AuthenticatedSenderWithPaymentIntentIdMemo_new (cred : SenderMemoCredential)
    (receiving_view_public_key : point) (tx_out_public_key : CompressedRistrettoPublic) (payment_intent_id : N) : bytes :=
  compute_authenticated_sender_memo AUTHENTICATED_SENDER_WITH_INTENT cred receiving_view_public_key tx_out_public_key
    (put 0 (be_bytes 8 payment_intent_id) (zeros 32)).
(** [sender_address_hash], and [payment_request_id] or [payment_intent_id]. *)
Definition sender_address_hash (memo_data : bytes) : bytes := slice 0 16 memo_data.
Definition payment_id (memo_data : bytes) : N := be_value (slice 16 24 memo_data).

(** [DestinationMemo], and its variants, which have an id too. *)
Record DestinationMemo := mkDestinationMemo {
  dest_address_hash : bytes;
  num_recipients : N;
  dest_fee : N;
  total_outlay : N
}.
Record DestinationWithPaymentIdMemo := mkDestinationWithPaymentIdMemo {
  dest : DestinationMemo;
  dest_payment_id : N
}.
Inductive DestinationMemoError := FeeTooLarge.

(** [set_fee]: the fee has to fit in 7 bytes. *)
Definition dest_set_fee (self : DestinationMemo) (val : N) : result DestinationMemo DestinationMemoError :=
  if negb (bool_decide (head (be_bytes 8 val) = Some (u8 0))) then Err FeeTooLarge
  else Ok (mkDestinationMemo (dest_address_hash self) (num_recipients self) val (total_outlay self)).
Definition set_num_recipients (self : DestinationMemo) (val : N) : DestinationMemo :=
  mkDestinationMemo (dest_address_hash self) val (dest_fee self) (total_outlay self).
Definition DestinationMemo_new (address_hash : bytes) (total_outlay fee : N) : result DestinationMemo DestinationMemoError :=
  dest_set_fee (mkDestinationMemo address_hash 1 0 total_outlay) fee.
Definition DestinationWithPaymentIdMemo_new (address_hash : bytes) (total_outlay fee payment_id : N) :
    result DestinationWithPaymentIdMemo DestinationMemoError :=
  let? dest := DestinationMemo_new address_hash total_outlay fee in
  Ok (mkDestinationWithPaymentIdMemo dest payment_id).

(** [compute_destination_memo] and the conversions. *)
Definition compute_destination_memo (address_hash : bytes) (fee num_recipients total_outlay : N) (data : bytes) : bytes :=
  put 32 data (put 24 (be_bytes 8 total_outlay) (put 16 [u8 num_recipients]
    (put 16 (be_bytes 8 fee) (put 0 address_hash (zeros 64))))).
Definition DestinationMemo_bytes (src : DestinationMemo) : bytes :=
  compute_destination_memo (dest_address_hash src) (dest_fee src) (num_recipients src) (total_outlay src) (zeros 32).
Definition DestinationMemo_from (src : bytes) : DestinationMemo :=
  mkDestinationMemo (slice 0 16 src) (Byte.to_N (default (u8 0) (src !! 16%nat))) (be_value7 (slice 17 24 src))
    (be_value (slice 24 32 src)).
Definition DestinationWithPaymentIdMemo_bytes (src : DestinationWithPaymentIdMemo) : bytes :=
  compute_destination_memo (dest_address_hash (dest src)) (dest_fee (dest src)) (num_recipients (dest src))
    (total_outlay (dest src)) (put 0 (be_bytes 8 (dest_payment_id src)) (zeros 32)).
Definition DestinationWithPaymentIdMemo_from (src : bytes) : DestinationWithPaymentIdMemo :=
  mkDestinationWithPaymentIdMemo (DestinationMemo_from src) (be_value (slice 32 40 src)).

(** [DefragmentationMemo]. *)
Record DefragmentationMemo := mkDefragmentationMemo {
  defrag_fee : N;
  defrag_total_outlay : N;
  defrag_memo_id : N
}.
Definition DefragmentationMemo_new (fee total_outlay defrag_id : N) : result DefragmentationMemo NewMemoError :=
  if negb (bool_decide (head (be_bytes 8 fee) = Some (u8 0))) then Err (LimitsExceeded (str_bytes "fee"))
  else Ok (mkDefragmentationMemo fee total_outlay defrag_id).
Definition DefragmentationMemo_bytes (src : DefragmentationMemo) : bytes :=
  put 15 (be_bytes 8 (defrag_memo_id src)) (put 7 (be_bytes 8 (defrag_total_outlay src))
    (put 0 (drop 1 (be_bytes 8 (defrag_fee src))) (zeros 64))).
Definition DefragmentationMemo_from (src : bytes) : DefragmentationMemo :=
  mkDefragmentationMemo (be_value7 (take 7 src)) (be_value (slice 7 15 src)) (be_value (slice 15 23 src)).

(** Gift codes; [MAX_FEE] is the same for the three kinds. *)
Definition MAX_FEE : N := N.shiftr u64_max 8.
Definition NOTE_DATA_LEN : nat := 53.
Definition SENDER_NOTE_DATA_LEN : nat := 57.

Definition GiftCodeCancellationMemo_new (global_index fee : N) : result bytes MemoError :=
  if MAX_FEE <? fee then Err (MemoMaxFeeExceeded MAX_FEE fee)
  else Ok (put 8 (drop 1 (be_bytes 8 fee)) (put 0 (be_bytes 8 global_index) (zeros 64))).
Definition cancelled_gift_code_index (memo_data : bytes) : N := be_value (take 8 memo_data).
Definition cancellation_fee (memo_data : bytes) : N := be_value7 (slice 8 15 memo_data).

Definition tx_out_public_key_short_hash (tx_out_public_key : point) : bytes :=
  take 4 (vec_to_list (blake512 (str_bytes "mc-gift-funding-tx-pub-key" ++ vec_to_list (compress tx_out_public_key)))).
Definition GiftCodeFundingMemo_new (tx_out_public_key : point) (fee : N) (note : bytes) : result bytes MemoError :=
  if MAX_FEE <? fee then Err (MemoMaxFeeExceeded MAX_FEE fee)
  else if (NOTE_DATA_LEN <? length note)%nat then Err (BadLength (len note))
  else Ok (put 11 note (put 4 (drop 1 (be_bytes 8 fee))
         (put 0 (tx_out_public_key_short_hash tx_out_public_key) (zeros 64)))).
Definition public_key_matches (memo_data : bytes) (tx_out_public_key : point) : bool :=
  bool_decide (tx_out_public_key_short_hash tx_out_public_key = take 4 memo_data).
Definition funding_fee (memo_data : bytes) : N := be_value7 (slice 4 11 memo_data).

Definition GiftCodeSenderMemo_new (fee : N) (note : bytes) : result bytes MemoError :=
  if MAX_FEE <? fee then Err (MemoMaxFeeExceeded MAX_FEE fee)
  else if (SENDER_NOTE_DATA_LEN <? length note)%nat then Err (BadLength (len note))
  else Ok (put 7 note (put 0 (drop 1 (be_bytes 8 fee)) (zeros 64))).
Definition sender_fee (memo_data : bytes) : N := be_value7 (take 7 memo_data).

(** [str::from_utf8], as a test: no overlong forms, surrogates, or values above
    the last code point. *)
Definition in_range (lo hi : N) (b : byte) : bool := (lo <=? Byte.to_N b) && (Byte.to_N b <=? hi).
Fixpoint utf8_valid (l : bytes) : bool :=
  match l with
  | [] => true
  | a :: l1 =>
      if in_range 0 127 a then utf8_valid l1
      else
        match l1 with
        | [] => false
        | b :: l2 =>
            if in_range 194 223 a then in_range 128 191 b && utf8_valid l2
            else
              match l2 with
              | [] => false
              | c :: l3 =>
                  if in_range 224 239 a then
                    in_range (if Byte.to_N a =? 224 then 160 else 128) (if Byte.to_N a =? 237 then 159 else 191) b
                    && in_range 128 191 c && utf8_valid l3
                  else
                    match l3 with
                    | [] => false
                    | d :: l4 =>
                        in_range 240 244 a
                        && in_range (if Byte.to_N a =? 240 then 144 else 128) (if Byte.to_N a =? 244 then 143 else 191) b
                        && in_range 128 191 c && in_range 128 191 d && utf8_valid l4
                    end
              end
        end
  end.

(** The bytes from an offset up to the first zero byte. *)
Fixpoint until_zero (l : bytes) : bytes :=
  match l with
  | [] => []
  | b :: l => if bool_decide (b = u8 0) then [] else b :: until_zero l
  end.
Definition read_note (offset : nat) (memo_data : bytes) : result bytes MemoError :=
  let note := until_zero (drop offset memo_data) in
  if utf8_valid note then Ok note else Err MemoUtf8Decoding.
Definition funding_note (memo_data : bytes) : result bytes MemoError := read_note 11 memo_data.
Definition sender_note (memo_data : bytes) : result bytes MemoError := read_note 7 memo_data.

(** ** [MemoType] *)

Inductive MemoType :=
| AuthenticatedSender (memo_data : bytes)
| AuthenticatedSenderWithPaymentRequestId (memo_data : bytes)
| AuthenticatedSenderWithPaymentIntentId (memo_data : bytes)
| BurnRedemption (memo_data : bytes)
| Defragmentation (memo : DefragmentationMemo)
| Destination (memo : DestinationMemo)
| DestinationWithPaymentRequestId (memo : DestinationWithPaymentIdMemo)
| DestinationWithPaymentIntentId (memo : DestinationWithPaymentIdMemo)
| GiftCodeCancellation (memo_data : bytes)
| GiftCodeFunding (memo_data : bytes)
| GiftCodeSender (memo_data : bytes)
| Unused.

Inductive MemoDecodingError := UnknownMemoType (memo_type : bytes).

(** The type bytes and the data of a memo, and its payload. *)
Definition memo_type_bytes (m : MemoType) : bytes :=
  match m with
  | AuthenticatedSender _ => AUTHENTICATED_SENDER
  | AuthenticatedSenderWithPaymentRequestId _ => AUTHENTICATED_SENDER_WITH_REQUEST
  | AuthenticatedSenderWithPaymentIntentId _ => AUTHENTICATED_SENDER_WITH_INTENT
  | BurnRedemption _ => BURN_REDEMPTION
  | Defragmentation _ => DEFRAGMENTATION
  | Destination _ => DESTINATION
  | DestinationWithPaymentRequestId _ => DESTINATION_WITH_REQUEST
  | DestinationWithPaymentIntentId _ => DESTINATION_WITH_INTENT
  | GiftCodeCancellation _ => GIFT_CODE_CANCELLATION
  | GiftCodeFunding _ => GIFT_CODE_FUNDING
  | GiftCodeSender _ => GIFT_CODE_SENDER
  | Unused => UNUSED
  end.
Definition memo_data_bytes (m : MemoType) : bytes :=
  match m with
  | AuthenticatedSender d | AuthenticatedSenderWithPaymentRequestId d | AuthenticatedSenderWithPaymentIntentId d
  | BurnRedemption d | GiftCodeCancellation d | GiftCodeFunding d | GiftCodeSender d => d
  | Defragmentation m => DefragmentationMemo_bytes m
  | Destination m => DestinationMemo_bytes m
  | DestinationWithPaymentRequestId m | DestinationWithPaymentIntentId m => DestinationWithPaymentIdMemo_bytes m
  | Unused => zeros 64
  end.
Definition memo_payload (m : MemoType) : bytes := memo_type_bytes m ++ memo_data_bytes m.

(** [TryFrom<&MemoPayload> for MemoType]. *)
Definition MemoType_try_from (src : bytes) : result MemoType MemoDecodingError :=
  let t := get_memo_type src in
  let d := get_memo_data src in
  if bool_decide (t = AUTHENTICATED_SENDER) then Ok (AuthenticatedSender d)
  else if bool_decide (t = AUTHENTICATED_SENDER_WITH_REQUEST) then Ok (AuthenticatedSenderWithPaymentRequestId d)
  else if bool_decide (t = AUTHENTICATED_SENDER_WITH_INTENT) then Ok (AuthenticatedSenderWithPaymentIntentId d)
  else if bool_decide (t = BURN_REDEMPTION) then Ok (BurnRedemption d)
  else if bool_decide (t = DEFRAGMENTATION) then Ok (Defragmentation (DefragmentationMemo_from d))
  else if bool_decide (t = DESTINATION) then Ok (Destination (DestinationMemo_from d))
  else if bool_decide (t = DESTINATION_WITH_REQUEST)
  then Ok (DestinationWithPaymentRequestId (DestinationWithPaymentIdMemo_from d))
  else if bool_decide (t = DESTINATION_WITH_INTENT)
  then Ok (DestinationWithPaymentIntentId (DestinationWithPaymentIdMemo_from d))
  else if bool_decide (t = GIFT_CODE_CANCELLATION) then Ok (GiftCodeCancellation d)
  else if bool_decide (t = GIFT_CODE_FUNDING) then Ok (GiftCodeFunding d)
  else if bool_decide (t = GIFT_CODE_SENDER) then Ok (GiftCodeSender d)
  else if bool_decide (t = UNUSED) then Ok Unused
  else Err (UnknownMemoType t).
End memos.
