(* ===== verification/MemoBuilder.v ===== *)
(** * Builders of memos

    [transaction/builder/src/memo_builder]: the trait [MemoBuilder], a policy for
    the memos of the outputs of a transaction, as a class, and its
    implementations.  A method that takes [&mut self] returns the new state
    beside its result, also when the result is an error. *)

From stdpp Require Import vector strings pretty.
From S2P Require Import Prelude Ord Bytes TxOut BlockVersion MaskedAmount Tx Ristretto OnetimeKeys LightClient Config Memo.

Open Scope N_scope.

(** [reserved_subaddresses.rs]. *)
Section reserved.
Context `{C : Curve}.

Record ReservedSubaddresses := mkReservedSubaddresses {
  primary_address : PublicAddress;
  rs_change_subaddress : PublicAddress;
  rs_gift_code_subaddress : PublicAddress
}.
Definition ReservedSubaddresses_from (src : AccountKey) : ReservedSubaddresses :=
  mkReservedSubaddresses (default_subaddress src) (change_subaddress src) (gift_code_subaddress src).
Definition ReservedSubaddresses_from_view (src : ViewAccountKey) : ReservedSubaddresses :=
  mkReservedSubaddresses (vk_subaddress src DEFAULT_SUBADDRESS_INDEX) (vk_subaddress src CHANGE_SUBADDRESS_INDEX)
    (vk_subaddress src GIFT_CODE_SUBADDRESS_INDEX).
Definition from_subaddress_index (acct : AccountKey) (change_subaddress_index gift_code_subaddress_index : option N) :
    ReservedSubaddresses :=
  mkReservedSubaddresses (default_subaddress acct)
    (match change_subaddress_index with Some i => subaddress acct i | None => change_subaddress acct end)
    (match gift_code_subaddress_index with Some i => subaddress acct i | None => gift_code_subaddress acct end).

#[export] Instance PublicAddress_eq_dec : EqDecision PublicAddress.
Proof. solve_decision. Defined.
End reserved.

(** The trait; [MemoContext] holds the public key of the output. *)
Class MemoBuilder `{Curve} (MB : Type) : Type := {
  mb_set_fee : MB → Amount → result unit NewMemoError * MB;
  make_memo_for_output : MB → Amount → PublicAddress → point → result bytes NewMemoError * MB;
  make_memo_for_change_output : MB → Amount → ReservedSubaddresses → point → result bytes NewMemoError * MB
}.

Section builders.
Context `{MX : MemoCrypto}.

Definition MOB_FEE : Amount := mkAmount MOB_MINIMUM_FEE 0.
Definition unused_memo : bytes := memo_payload Unused.

(** ** [EmptyMemoBuilder] *)

Inductive EmptyMemoBuilder := mkEmptyMemoBuilder.
#[export] Instance empty_memo_builder : MemoBuilder EmptyMemoBuilder := {|
  mb_set_fee self _ := (Ok tt, self);
  make_memo_for_output self _ _ _ := (Ok unused_memo, self);
  make_memo_for_change_output self _ _ _ := (Ok unused_memo, self)
|}.

(** ** [RTHMemoBuilder] *)

Record RTHMemoBuilder := mkRTHMemoBuilder {
  sender_cred : option SenderMemoCredential;
  payment_request_id : option N;
  payment_intent_id : option N;
  destination_memo_enabled : bool;
  wrote_destination_memo : bool;
  last_recipient : bytes;
  rth_total_outlay : N;
  outlay_token_id : option N;
  rth_num_recipients : N;
  rth_fee : Amount
}.
Implicit Types rth : RTHMemoBuilder.

Definition RTHMemoBuilder_default : RTHMemoBuilder :=
  mkRTHMemoBuilder None None None false false (zeros 16) 0 None 0 MOB_FEE.

(** The setters. *)
Definition set_sender_credential rth (cred : option SenderMemoCredential) : RTHMemoBuilder :=
  mkRTHMemoBuilder cred (payment_request_id rth) (payment_intent_id rth) (destination_memo_enabled rth)
    (wrote_destination_memo rth) (last_recipient rth) (rth_total_outlay rth) (outlay_token_id rth)
    (rth_num_recipients rth) (rth_fee rth).
Definition set_payment_request_id rth (i : option N) : RTHMemoBuilder :=
  mkRTHMemoBuilder (sender_cred rth) i (payment_intent_id rth) (destination_memo_enabled rth)
    (wrote_destination_memo rth) (last_recipient rth) (rth_total_outlay rth) (outlay_token_id rth)
    (rth_num_recipients rth) (rth_fee rth).
Definition set_payment_intent_id rth (i : option N) : RTHMemoBuilder :=
  mkRTHMemoBuilder (sender_cred rth) (payment_request_id rth) i (destination_memo_enabled rth)
    (wrote_destination_memo rth) (last_recipient rth) (rth_total_outlay rth) (outlay_token_id rth)
    (rth_num_recipients rth) (rth_fee rth).
Definition set_destination_memo_enabled rth (b : bool) : RTHMemoBuilder :=
  mkRTHMemoBuilder (sender_cred rth) (payment_request_id rth) (payment_intent_id rth) b
    (wrote_destination_memo rth) (last_recipient rth) (rth_total_outlay rth) (outlay_token_id rth)
    (rth_num_recipients rth) (rth_fee rth).
Definition rth_with_fee rth (fee : Amount) : RTHMemoBuilder :=
  mkRTHMemoBuilder (sender_cred rth) (payment_request_id rth) (payment_intent_id rth) (destination_memo_enabled rth)
    (wrote_destination_memo rth) (last_recipient rth) (rth_total_outlay rth) (outlay_token_id rth)
    (rth_num_recipients rth) fee.
Definition rth_with_token rth (token : N) : RTHMemoBuilder :=
  mkRTHMemoBuilder (sender_cred rth) (payment_request_id rth) (payment_intent_id rth) (destination_memo_enabled rth)
    (wrote_destination_memo rth) (last_recipient rth) (rth_total_outlay rth) (Some token)
    (rth_num_recipients rth) (rth_fee rth).
Definition rth_with_outlay rth (outlay : N) : RTHMemoBuilder :=
  mkRTHMemoBuilder (sender_cred rth) (payment_request_id rth) (payment_intent_id rth) (destination_memo_enabled rth)
    (wrote_destination_memo rth) (last_recipient rth) outlay (outlay_token_id rth)
    (rth_num_recipients rth) (rth_fee rth).
Definition rth_with_recipient rth (n : N) (hash : bytes) : RTHMemoBuilder :=
  mkRTHMemoBuilder (sender_cred rth) (payment_request_id rth) (payment_intent_id rth) (destination_memo_enabled rth)
    (wrote_destination_memo rth) hash (rth_total_outlay rth) (outlay_token_id rth) n (rth_fee rth).
Definition rth_wrote rth : RTHMemoBuilder :=
  mkRTHMemoBuilder (sender_cred rth) (payment_request_id rth) (payment_intent_id rth) (destination_memo_enabled rth)
    true (last_recipient rth) (rth_total_outlay rth) (outlay_token_id rth) (rth_num_recipients rth) (rth_fee rth).

Definition rth_set_fee rth (fee : Amount) : result unit NewMemoError * RTHMemoBuilder :=
  if wrote_destination_memo rth then (Err FeeAfterChange, rth) else (Ok tt, rth_with_fee rth fee).

(** The check of token ids that both methods begin with. *)
Definition rth_check_token rth (token : N) : result RTHMemoBuilder NewMemoError :=
  match outlay_token_id rth with
  | Some prev_token_id => if negb (prev_token_id =? token) then Err MixedTokenIds else Ok rth
  | None => Ok (rth_with_token rth token)
  end.

(** The memo for a recipient, with the credential of the sender. *)
Definition rth_payload rth (recipient : PublicAddress) (tx_public_key : point) : result bytes NewMemoError :=
  match sender_cred rth with
  | None => Ok unused_memo
  | Some cred =>
      match payment_request_id rth, payment_intent_id rth with
      | Some _, Some _ => Err RequestAndIntentIdSet
      | Some payment_request_id, None =>
          Ok (memo_payload (AuthenticatedSenderWithPaymentRequestId
            (AuthenticatedSenderWithPaymentRequestIdMemo_new cred (view_public_key recipient)
              (compress tx_public_key) payment_request_id)))
      | None, Some payment_intent_id =>
          Ok (memo_payload (AuthenticatedSenderWithPaymentIntentId
            (AuthenticatedSenderWithPaymentIntentIdMemo_new cred (view_public_key recipient)
              (compress tx_public_key) payment_intent_id)))
      | None, None =>
          Ok (memo_payload (AuthenticatedSender
            (AuthenticatedSenderMemo_new cred (view_public_key recipient) (compress tx_public_key))))
      end
  end.

Definition rth_make_memo_for_output rth (amount : Amount) (recipient : PublicAddress) (tx_public_key : point) :
    result bytes NewMemoError * RTHMemoBuilder :=
  if wrote_destination_memo rth then (Err OutputsAfterChange, rth)
  else
    match rth_check_token rth (token_id amount) with
    | Err e => (Err e, rth)
    | Ok rth =>
        match u64_checked_add (rth_total_outlay rth) (value amount) with
        | None => (Err (LimitsExceeded (str_bytes "total_outlay")), rth)
        | Some total_outlay =>
            let rth := rth_with_outlay rth total_outlay in
            if 255 <=? rth_num_recipients rth then (Err (LimitsExceeded (str_bytes "num_recipients")), rth)
            else
              let rth := rth_with_recipient rth (rth_num_recipients rth + 1) (short_address_hash recipient) in
              (rth_payload rth recipient tx_public_key, rth)
        end
    end.

(** The destination memo of one of the three kinds. *)
Definition rth_destination rth : result MemoType DestinationMemoError :=
  let d := DestinationMemo_new (last_recipient rth) (rth_total_outlay rth) (value (rth_fee rth)) in
  let? d := d in
  let d := set_num_recipients d (rth_num_recipients rth) in
  Ok (match payment_request_id rth, payment_intent_id rth with
      | Some payment_request_id, _ =>
          DestinationWithPaymentRequestId (mkDestinationWithPaymentIdMemo d payment_request_id)
      | None, Some payment_intent_id =>
          DestinationWithPaymentIntentId (mkDestinationWithPaymentIdMemo d payment_intent_id)
      | None, None => Destination d
      end).

Definition rth_make_memo_for_change_output rth (amount : Amount) : result bytes NewMemoError * RTHMemoBuilder :=
  if negb (destination_memo_enabled rth) then (Ok unused_memo, rth)
  else if wrote_destination_memo rth then (Err MultipleChangeOutputs, rth)
  else
    match rth_check_token rth (token_id amount) with
    | Err e => (Err e, rth)
    | Ok rth =>
        if negb (token_id (rth_fee rth) =? token_id amount) then (Err MixedTokenIds, rth)
        else
          match u64_checked_add (rth_total_outlay rth) (value (rth_fee rth)) with
          | None => (Err (LimitsExceeded (str_bytes "total_outlay")), rth)
          | Some total_outlay =>
              let rth := rth_with_outlay rth total_outlay in
              match payment_request_id rth, payment_intent_id rth with
              | Some _, Some _ => (Err RequestAndIntentIdSet, rth)
              | _, _ =>
                  match rth_destination rth with
                  | Ok d_memo => (Ok (memo_payload d_memo), rth_wrote rth)
                  | Err FeeTooLarge => (Err (LimitsExceeded (str_bytes "fee")), rth)
                  end
              end
          end
    end.

#[export] Instance rth_memo_builder : MemoBuilder RTHMemoBuilder := {|
  mb_set_fee := rth_set_fee;
  make_memo_for_output := rth_make_memo_for_output;
  make_memo_for_change_output self amount _ _ := rth_make_memo_for_change_output self amount
|}.

(** ** [BurnRedemptionMemoBuilder] *)

Record BurnRedemptionMemoBuilder := mkBurnRedemptionMemoBuilder {
  br_memo_data : bytes;
  br_destination_memo_enabled : bool;
  br_wrote_destination_memo : bool;
  burn_amount : option Amount;
  br_fee : Amount
}.
Implicit Types br : BurnRedemptionMemoBuilder.

Definition BurnRedemptionMemoBuilder_new (memo_data : bytes) : BurnRedemptionMemoBuilder :=
  mkBurnRedemptionMemoBuilder memo_data false false None MOB_FEE.
Definition br_set_destination_memo_enabled br (b : bool) : BurnRedemptionMemoBuilder :=
  mkBurnRedemptionMemoBuilder (br_memo_data br) b (br_wrote_destination_memo br) (burn_amount br) (br_fee br).

Definition br_set_fee br (fee : Amount) : result unit NewMemoError * BurnRedemptionMemoBuilder :=
  if br_wrote_destination_memo br then (Err FeeAfterChange, br)
  else (Ok tt, mkBurnRedemptionMemoBuilder (br_memo_data br) (br_destination_memo_enabled br)
                 (br_wrote_destination_memo br) (burn_amount br) fee).

Definition br_make_memo_for_output br (amount : Amount) (recipient : PublicAddress) :
    result bytes NewMemoError * BurnRedemptionMemoBuilder :=
  if negb (bool_decide (recipient = burn_address)) then (Err InvalidRecipient, br)
  else if bool_decide (is_Some (burn_amount br)) then (Err MultipleOutputs, br)
  else if br_wrote_destination_memo br then (Err OutputsAfterChange, br)
  else (Ok (memo_payload (BurnRedemption (br_memo_data br))),
        mkBurnRedemptionMemoBuilder (br_memo_data br) (br_destination_memo_enabled br)
          (br_wrote_destination_memo br) (Some amount) (br_fee br)).

Definition br_make_memo_for_change_output br (change_amount : Amount) :
    result bytes NewMemoError * BurnRedemptionMemoBuilder :=
  if negb (br_destination_memo_enabled br) then (Ok unused_memo, br)
  else if br_wrote_destination_memo br then (Err MultipleChangeOutputs, br)
  else
    match burn_amount br with
    | None => (Err MissingOutput, br)
    | Some burn_amount' =>
        if negb (token_id burn_amount' =? token_id (br_fee br))
           || negb (token_id burn_amount' =? token_id change_amount)
        then (Err MixedTokenIds, br)
        else
          match u64_checked_add (value burn_amount') (value (br_fee br)) with
          | None => (Err (LimitsExceeded (str_bytes "total_outlay")), br)
          | Some total_outlay =>
              match DestinationMemo_new (short_address_hash burn_address) total_outlay (value (br_fee br)) with
              | Ok d_memo =>
                  (Ok (memo_payload (Destination (set_num_recipients d_memo 1))),
                   mkBurnRedemptionMemoBuilder (br_memo_data br) (br_destination_memo_enabled br) true
                     (burn_amount br) (br_fee br))
              | Err FeeTooLarge => (Err (LimitsExceeded (str_bytes "fee")), br)
              end
          end
    end.

#[export] Instance burn_redemption_memo_builder : MemoBuilder BurnRedemptionMemoBuilder := {|
  mb_set_fee := br_set_fee;
  make_memo_for_output self amount recipient _ := br_make_memo_for_output self amount recipient;
  make_memo_for_change_output self amount _ _ := br_make_memo_for_change_output self amount
|}.

(** ** [DefragmentationMemoBuilder] *)

Record DefragmentationMemoBuilder := mkDefragmentationMemoBuilder {
  df_fee : Amount;
  defrag_id : N;
  wrote_main_memo : bool;
  wrote_decoy_memo : bool
}.
Implicit Types df : DefragmentationMemoBuilder.

Definition DefragmentationMemoBuilder_new (defrag_id : N) : DefragmentationMemoBuilder :=
  mkDefragmentationMemoBuilder MOB_FEE defrag_id false false.
Definition set_defrag_id df (value : N) : DefragmentationMemoBuilder :=
  mkDefragmentationMemoBuilder (df_fee df) value (wrote_main_memo df) (wrote_decoy_memo df).
Definition df_wrote_main df : DefragmentationMemoBuilder :=
  mkDefragmentationMemoBuilder (df_fee df) (defrag_id df) true (wrote_decoy_memo df).

Definition df_set_fee df (fee : Amount) : result unit NewMemoError * DefragmentationMemoBuilder :=
  if wrote_main_memo df then (Err FeeAfterChange, df)
  else (Ok tt, mkDefragmentationMemoBuilder fee (defrag_id df) (wrote_main_memo df) (wrote_decoy_memo df)).

Definition df_make_memo_for_output df (amount : Amount) : result bytes NewMemoError * DefragmentationMemoBuilder :=
  if wrote_main_memo df then (Err MultipleOutputs, df)
  else if wrote_decoy_memo df then (Err OutputsAfterChange, df)
  else if negb (token_id amount =? token_id (df_fee df)) then (Err MixedTokenIds, df)
  else
    match u64_checked_add (value (df_fee df)) (value amount) with
    | None => (Err (LimitsExceeded (str_bytes "total_outlay")), df)
    | Some total_outlay =>
        match DefragmentationMemo_new (value (df_fee df)) total_outlay (defrag_id df) with
        | Err e => (Err e, df)
        | Ok memo => (Ok (memo_payload (Defragmentation memo)), df_wrote_main df)
        end
    end.

Definition df_make_memo_for_change_output df (amount : Amount) :
    result bytes NewMemoError * DefragmentationMemoBuilder :=
  if negb (wrote_main_memo df) then (Err MissingOutput, df)
  else if wrote_decoy_memo df then (Err MultipleChangeOutputs, df)
  else if negb (token_id amount =? token_id (df_fee df)) then (Err MixedTokenIds, df)
  else if negb (value amount =? 0) then (Err DefragWithChange, df)
  else
    match DefragmentationMemo_new 0 0 (defrag_id df) with
    | Err e => (Err e, df)
    | Ok memo => (Ok (memo_payload (Defragmentation memo)), df_wrote_main df)
    end.

#[export] Instance defragmentation_memo_builder : MemoBuilder DefragmentationMemoBuilder := {|
  mb_set_fee := df_set_fee;
  make_memo_for_output self amount _ _ := df_make_memo_for_output self amount;
  make_memo_for_change_output self amount _ _ := df_make_memo_for_change_output self amount
|}.

(** ** Gift codes *)

(** [From<MemoError> for NewMemoError]. *)
Definition new_memo_error (e : MemoError) : NewMemoError :=
  match e with
  | MemoUtf8Decoding => Utf8Decoding
  | BadLength byte_len =>
      BadInputs (str_bytes ("Input of length: " +:+ pretty byte_len +:+ " exceeded max byte length"))
  | MemoMaxFeeExceeded max_fee attempted_fee => MaxFeeExceeded max_fee attempted_fee
  end.

Record GiftCodeCancellationMemoBuilder := mkGiftCodeCancellationMemoBuilder {
  gift_code_tx_out_global_index : N;
  gc_wrote_change_memo : bool;
  gc_fee : Amount
}.
Implicit Types gc : GiftCodeCancellationMemoBuilder.
Definition GiftCodeCancellationMemoBuilder_new (i : N) : GiftCodeCancellationMemoBuilder :=
  mkGiftCodeCancellationMemoBuilder i false MOB_FEE.
Definition gc_set_fee gc (fee : Amount) : result unit NewMemoError * GiftCodeCancellationMemoBuilder :=
  if gc_wrote_change_memo gc then (Err FeeAfterChange, gc)
  else if MAX_FEE <? value fee then (Err (MaxFeeExceeded MAX_FEE (value fee)), gc)
  else (Ok tt, mkGiftCodeCancellationMemoBuilder (gift_code_tx_out_global_index gc) (gc_wrote_change_memo gc) fee).
Definition gc_make_memo_for_change_output gc (amount : Amount) :
    result bytes NewMemoError * GiftCodeCancellationMemoBuilder :=
  if gc_wrote_change_memo gc then (Err MultipleChangeOutputs, gc)
  else if negb (token_id (gc_fee gc) =? token_id amount) then (Err MixedTokenIds, gc)
  else
    let gc := mkGiftCodeCancellationMemoBuilder (gift_code_tx_out_global_index gc) true (gc_fee gc) in
    (let? memo := map_err new_memo_error
       (GiftCodeCancellationMemo_new (gift_code_tx_out_global_index gc) (value (gc_fee gc))) in
     Ok (memo_payload (GiftCodeCancellation memo)), gc).
#[export] Instance gift_code_cancellation_memo_builder : MemoBuilder GiftCodeCancellationMemoBuilder := {|
  mb_set_fee := gc_set_fee;
  make_memo_for_output self _ _ _ := (Err DestinationMemoNotAllowed, self);
  make_memo_for_change_output self amount _ _ := gc_make_memo_for_change_output self amount
|}.

Record GiftCodeFundingMemoBuilder := mkGiftCodeFundingMemoBuilder {
  gift_code_tx_out_public_key : option point;
  gf_fee : Amount;
  gf_note : bytes;
  gf_wrote_change_memo : bool
}.
Implicit Types gf : GiftCodeFundingMemoBuilder.
Definition GiftCodeFundingMemoBuilder_new (note : bytes) : result GiftCodeFundingMemoBuilder NewMemoError :=
  if (NOTE_DATA_LEN <? length note)%nat
  then Err (BadInputs (str_bytes "Note memo cannot be greater than 53 bytes"))
  else Ok (mkGiftCodeFundingMemoBuilder None MOB_FEE note false).
Definition gf_set_fee gf (fee : Amount) : result unit NewMemoError * GiftCodeFundingMemoBuilder :=
  if gf_wrote_change_memo gf then (Err FeeAfterChange, gf)
  else if MAX_FEE <? value fee then (Err (MaxFeeExceeded MAX_FEE (value fee)), gf)
  else (Ok tt, mkGiftCodeFundingMemoBuilder (gift_code_tx_out_public_key gf) fee (gf_note gf) (gf_wrote_change_memo gf)).
Definition gf_make_memo_for_output gf (tx_public_key : point) : result bytes NewMemoError * GiftCodeFundingMemoBuilder :=
  if bool_decide (is_Some (gift_code_tx_out_public_key gf)) then (Err MultipleOutputs, gf)
  else if gf_wrote_change_memo gf then (Err OutputsAfterChange, gf)
  else (Ok unused_memo, mkGiftCodeFundingMemoBuilder (Some tx_public_key) (gf_fee gf) (gf_note gf) (gf_wrote_change_memo gf)).
Definition gf_make_memo_for_change_output gf (amount : Amount) (tx_public_key : point) :
    result bytes NewMemoError * GiftCodeFundingMemoBuilder :=
  if gf_wrote_change_memo gf then (Err MultipleChangeOutputs, gf)
  else if bool_decide (gift_code_tx_out_public_key gf = Some tx_public_key)
  then (Err (BadInputs (str_bytes "The public_key in the memo should be the TxOut at the gift code subaddress and not that of the memo TxOut")), gf)
  else if negb (token_id (gf_fee gf) =? token_id amount) then (Err MixedTokenIds, gf)
  else
    match gift_code_tx_out_public_key gf with
    | Some tx_out_public_key =>
        (let? memo := map_err new_memo_error (GiftCodeFundingMemo_new tx_out_public_key (value (gf_fee gf)) (gf_note gf)) in
         Ok (memo_payload (GiftCodeFunding memo)),
         mkGiftCodeFundingMemoBuilder None (gf_fee gf) (gf_note gf) true)
    | None => (Err MissingOutput, gf)
    end.
#[export] Instance gift_code_funding_memo_builder : MemoBuilder GiftCodeFundingMemoBuilder := {|
  mb_set_fee := gf_set_fee;
  make_memo_for_output self _ _ tx_public_key := gf_make_memo_for_output self tx_public_key;
  make_memo_for_change_output self amount _ tx_public_key := gf_make_memo_for_change_output self amount tx_public_key
|}.

Record GiftCodeSenderMemoBuilder := mkGiftCodeSenderMemoBuilder {
  gs_note : bytes;
  gs_wrote_change_memo : bool;
  gs_fee : Amount
}.
Implicit Types gs : GiftCodeSenderMemoBuilder.
Definition GiftCodeSenderMemoBuilder_new (note : bytes) : result GiftCodeSenderMemoBuilder NewMemoError :=
  if (SENDER_NOTE_DATA_LEN <? length note)%nat
  then Err (BadInputs (str_bytes "Note memo cannot be greater than 57 bytes"))
  else Ok (mkGiftCodeSenderMemoBuilder note false MOB_FEE).
Definition gs_set_fee gs (fee : Amount) : result unit NewMemoError * GiftCodeSenderMemoBuilder :=
  if gs_wrote_change_memo gs then (Err FeeAfterChange, gs)
  else if MAX_FEE <? value fee then (Err (MaxFeeExceeded MAX_FEE (value fee)), gs)
  else (Ok tt, mkGiftCodeSenderMemoBuilder (gs_note gs) (gs_wrote_change_memo gs) fee).
Definition gs_make_memo_for_change_output gs (amount : Amount) : result bytes NewMemoError * GiftCodeSenderMemoBuilder :=
  if gs_wrote_change_memo gs then (Err MultipleChangeOutputs, gs)
  else if negb (token_id (gs_fee gs) =? token_id amount) then (Err MixedTokenIds, gs)
  else
    let gs := mkGiftCodeSenderMemoBuilder (gs_note gs) true (gs_fee gs) in
    (let? memo := map_err new_memo_error (GiftCodeSenderMemo_new (value (gs_fee gs)) (gs_note gs)) in
     Ok (memo_payload (GiftCodeSender memo)), gs).
#[export] Instance gift_code_sender_memo_builder : MemoBuilder GiftCodeSenderMemoBuilder := {|
  mb_set_fee := gs_set_fee;
  make_memo_for_output self _ _ _ := (Err DestinationMemoNotAllowed, self);
  make_memo_for_change_output self amount _ _ := gs_make_memo_for_change_output self amount
|}.
End builders.
