(* ===== verification/MemoProps.v ===== *)
(** * Memos: proofs

    The layouts of memos round trip, memos authenticate their sender to the
    recipient of the output, and the builders write what the recipient reads
    back.  The lemmas on [put] and [slice] carry the layouts. *)

From stdpp Require Import vector strings.
From S2P Require Import Prelude Ord Bytes TxOut BlockVersion MaskedAmount Tx Ristretto OnetimeKeys LightClient Config Memo MemoBuilder.

Open Scope N_scope.

Create HintDb layout.

Module MemoProps.
Import OnetimeKeysProps.

(** ** Parts of arrays *)

Lemma length_put i src b : (i + length src <= length b)%nat → length (put i src b) = length b.
Proof. intros. unfold put. rewrite !length_app, length_take, length_drop. lia. Qed.

Lemma length_zeros n : length (zeros n) = n.
Proof. apply length_replicate. Qed.

Lemma length_slice i j b : (i <= j)%nat → (j <= length b)%nat → length (slice i j b) = (j - i)%nat.
Proof. intros. unfold slice. rewrite length_take, length_drop. lia. Qed.

Lemma slice_ext i j b b' :
  (∀ k, (i <= k < j)%nat → b !! k = b' !! k) → slice i j b = slice i j b'.
Proof.
  intros H. apply list_eq. intros k. unfold slice. destruct (decide (k < j - i)%nat).
  - rewrite !lookup_take_lt by lia. rewrite !lookup_drop. apply H. lia.
  - by rewrite !lookup_take_ge by lia.
Qed.

Lemma lookup_put_in i src b k :
  (i <= length b)%nat → (i <= k < i + length src)%nat → put i src b !! k = src !! (k - i)%nat.
Proof.
  intros Hi Hk. unfold put.
  rewrite lookup_app_r by (rewrite length_take; lia). rewrite length_take_le by lia.
  by rewrite lookup_app_l by lia.
Qed.

Lemma lookup_put_out i src b k :
  (i + length src <= length b)%nat → (k < i ∨ i + length src <= k)%nat → put i src b !! k = b !! k.
Proof.
  intros Hi [Hk|Hk]; unfold put.
  - rewrite lookup_app_l by (rewrite length_take; lia). by rewrite lookup_take_lt by lia.
  - rewrite lookup_app_r by (rewrite length_take; lia). rewrite length_take_le by lia.
    rewrite lookup_app_r by lia. rewrite lookup_drop. f_equal. lia.
Qed.

(** A part that was written is read back, also the end of one; a part beside
    it is as before. *)
Lemma slice_put_part i j k src b :
  (i <= j)%nat → (k <= i + length src)%nat → (i <= length b)%nat →
  slice j k (put i src b) = slice (j - i) (k - i) src.
Proof.
  intros Hj Hk Hi. apply list_eq. intros n. unfold slice.
  replace (k - i - (j - i))%nat with (k - j)%nat by lia.
  destruct (decide (n < k - j)%nat).
  - rewrite !lookup_take_lt, !lookup_drop by lia. rewrite lookup_put_in by lia. f_equal. lia.
  - by rewrite !lookup_take_ge by lia.
Qed.

Lemma slice_all n b : length b = n → slice 0 n b = b.
Proof. intros <-. unfold slice. rewrite Nat.sub_0_r. apply firstn_all. Qed.

Lemma slice_put i k src b :
  k = (i + length src)%nat → (i <= length b)%nat → slice i k (put i src b) = src.
Proof.
  intros -> Hi. rewrite slice_put_part by lia.
  replace (i + length src - i)%nat with (length src) by lia. rewrite Nat.sub_diag. by apply slice_all.
Qed.

Lemma slice_put_other i j k src b :
  (i + length src <= length b)%nat → (k <= i ∨ i + length src <= j)%nat →
  slice j k (put i src b) = slice j k b.
Proof. intros Hi H. apply slice_ext. intros n Hn. apply lookup_put_out; [done|lia]. Qed.

Lemma take_slice n b : take n b = slice 0 n b.
Proof. unfold slice. by rewrite Nat.sub_0_r. Qed.
Lemma drop_slice n b : drop n b = slice n (length b) b.
Proof. unfold slice. rewrite firstn_all2; [done|]. rewrite length_drop. lia. Qed.

Hint Rewrite @length_put @length_zeros @length_be_bytes @length_vec_to_list @length_drop @length_take @length_app : layout.

(** Closes a side condition on the length of what was written. *)
Ltac layout_lia := repeat (autorewrite with layout; simpl length; try lia).
(** Reads a part of an array that [put] built. *)
Ltac read_layout :=
  repeat first
    [ rewrite slice_put by layout_lia
    | rewrite slice_put_other by layout_lia ].

(** ** Integers in seven bytes *)

Lemma head_be_bytes k x : head (be_bytes (Datatypes.S k) x) = Some (u8 (x / 256 ^ N.of_nat k)).
Proof.
  revert x. induction k as [|k IH]; intros x; [simpl; by rewrite N.div_1_r|].
  change (be_bytes (Datatypes.S (Datatypes.S k)) x)
    with (be_bytes (Datatypes.S k) (x / 256) ++ [u8 x]).
  specialize (IH (x / 256)). destruct (be_bytes (Datatypes.S k) (x / 256)) as [|b l]; [done|].
  simpl in IH |- *. rewrite IH. do 2 f_equal. rewrite N.Div0.div_div. f_equal.
  rewrite Nat2N.inj_succ, N.pow_succ_r'. done.
Qed.

Lemma u8_zero x : x < 256 → u8 x = u8 0 → x = 0.
Proof. intros Hx E. apply (f_equal Byte.to_N) in E. rewrite !to_N_u8 in E. by rewrite N.mod_small in E. Qed.

(** A [u64] begins with a zero byte exactly when it fits in the other seven. *)
Lemma fits_seven x :
  x < u64_modulus → bool_decide (head (be_bytes 8 x) = Some (u8 0)) = bool_decide (x < 2 ^ 56).
Proof.
  intros Hx. apply bool_decide_ext. rewrite head_be_bytes.
  assert (x / 256 ^ N.of_nat 7 < 256) as Hq.
  { apply N.Div0.div_lt_upper_bound. exact Hx. }
  split.
  - intros [= E]. apply u8_zero in E; [|done]. apply N.div_small_iff in E; [exact E|done].
  - intros H. do 2 f_equal. by apply N.div_small.
Qed.

Lemma be_value7_bytes x : x < 2 ^ 56 → be_value7 (drop 1 (be_bytes 8 x)) = x.
Proof.
  intros Hx. unfold be_value7.
  assert (x < u64_modulus) as Hm by (unfold u64_modulus; change (2 ^ 56) with 72057594037927936 in Hx; lia).
  pose proof (fits_seven x Hm) as E. rewrite (bool_decide_eq_true_2 (x < 2 ^ 56)) in E by done.
  apply bool_decide_eq_true in E. pose proof (be_value_bytes 8 x Hm) as Hv.
  destruct (be_bytes 8 x) as [|b l]; [done|]. simpl in E. injection E as ->. exact Hv.
Qed.

Lemma be_value8_bytes x : x < u64_modulus → be_value (be_bytes 8 x) = x.
Proof. intros Hx. apply be_value_bytes. exact Hx. Qed.

Lemma MAX_FEE_pow x : (MAX_FEE <? x) = negb (bool_decide (x < 2 ^ 56)).
Proof.
  change MAX_FEE with 72057594037927935. change (2 ^ 56) with 72057594037927936.
  destruct (N.ltb_spec 72057594037927935 x); case_bool_decide; simpl; try done; lia.
Qed.

Section props.
Context `{C : Curve} {MX : MemoCrypto} {CL : CurveLaws}.

(** ** Round trip of memos *)

(** What the types of the fields of a memo guarantee, and the bound on fees
    that its constructor checks. *)
Definition dest_wf (m : DestinationMemo) : Prop :=
  length (dest_address_hash m) = 16%nat ∧ num_recipients m < 256 ∧ dest_fee m < 2 ^ 56 ∧ total_outlay m < u64_modulus.
Definition memo_wf (m : MemoType) : Prop :=
  match m with
  | AuthenticatedSender d | AuthenticatedSenderWithPaymentRequestId d | AuthenticatedSenderWithPaymentIntentId d
  | BurnRedemption d | GiftCodeCancellation d | GiftCodeFunding d | GiftCodeSender d => length d = 64%nat
  | Defragmentation m =>
      defrag_fee m < 2 ^ 56 ∧ defrag_total_outlay m < u64_modulus ∧ defrag_memo_id m < u64_modulus
  | Destination m => dest_wf m
  | DestinationWithPaymentRequestId m | DestinationWithPaymentIntentId m =>
      dest_wf (dest m) ∧ dest_payment_id m < u64_modulus
  | Unused => True
  end.

Lemma dest_from_bytes m data :
  dest_wf m → length data = 32%nat →
  let b := compute_destination_memo (dest_address_hash m) (dest_fee m) (num_recipients m) (total_outlay m) data in
  DestinationMemo_from b = m ∧ length b = 64%nat ∧ slice 32 64 b = data.
Proof.
  intros (Ha & Hn & Hf & Ht) Hd. cbv zeta. unfold compute_destination_memo, DestinationMemo_from.
  assert (∀ l : bytes, l !! 16%nat = slice 16 17 l !! 0%nat) as Hlk.
  { intros l. unfold slice. rewrite lookup_take_lt, lookup_drop by lia. done. }
  rewrite Hlk. split; [|split].
  - read_layout. simpl lookup. simpl default. rewrite to_N_u8, N.mod_small by done.
    rewrite (slice_put_part 16 17 24) by layout_lia. simpl Nat.sub.
    change (slice 1 8 (be_bytes 8 (dest_fee m))) with (drop 1 (be_bytes 8 (dest_fee m))).
    read_layout. rewrite be_value7_bytes by assumption. rewrite be_value8_bytes by assumption. by destruct m.
  - layout_lia.
  - read_layout. done.
Qed.

Lemma defrag_from_bytes m :
  memo_wf (Defragmentation m) →
  DefragmentationMemo_from (DefragmentationMemo_bytes m) = m ∧ length (DefragmentationMemo_bytes m) = 64%nat.
Proof.
  intros (Hf & Ht & Hi). unfold DefragmentationMemo_from, DefragmentationMemo_bytes. split.
  - rewrite take_slice. read_layout. rewrite be_value7_bytes by assumption. rewrite !be_value8_bytes by assumption. by destruct m.
  - layout_lia.
Qed.

Lemma dest_with_id_from_bytes m :
  dest_wf (dest m) → dest_payment_id m < u64_modulus →
  DestinationWithPaymentIdMemo_from (DestinationWithPaymentIdMemo_bytes m) = m
  ∧ length (DestinationWithPaymentIdMemo_bytes m) = 64%nat.
Proof.
  intros Hd Hi. unfold DestinationWithPaymentIdMemo_from, DestinationWithPaymentIdMemo_bytes.
  set (data := put 0 (be_bytes 8 (dest_payment_id m)) (zeros 32)).
  assert (length data = 32%nat) as Hl by (unfold data; layout_lia).
  destruct (dest_from_bytes (dest m) data Hd Hl) as (-> & -> & Hs). split; [|done].
  set (b := compute_destination_memo _ _ _ _ _) in *.
  replace (slice 32 40 b) with (slice 0 8 (slice 32 64 b)).
  - rewrite Hs. unfold data. read_layout. rewrite be_value8_bytes by assumption. by destruct m.
  - unfold slice. by rewrite drop_0, take_take.
Qed.

Lemma memo_data_length m : memo_wf m → length (memo_data_bytes m) = 64%nat.
Proof.
  destruct m as [d|d|d|d|m|m|m|m|d|d|d|]; intros Hwf; try exact Hwf.
  - by apply (defrag_from_bytes m).
  - by apply (dest_from_bytes m (zeros 32)).
  - by apply (dest_with_id_from_bytes m); apply Hwf.
  - by apply (dest_with_id_from_bytes m); apply Hwf.
  - apply length_zeros.
Qed.

Lemma memo_payload_length m : memo_wf m → length (memo_payload m) = MEMO_LEN.
Proof.
  intros Hwf. unfold memo_payload. rewrite length_app, memo_data_length by done. by destruct m.
Qed.

Lemma memo_try_from_payload m : memo_wf m → MemoType_try_from (memo_payload m) = Ok m.
Proof.
  intros Hwf.
  assert (get_memo_type (memo_payload m) = memo_type_bytes m) as Ht by (by destruct m).
  assert (get_memo_data (memo_payload m) = memo_data_bytes m) as Hd by (by destruct m).
  unfold MemoType_try_from. rewrite Ht, Hd.
  destruct m as [d|d|d|d|m|m|m|m|d|d|d|]; try reflexivity; cbn -[DestinationMemo_bytes DefragmentationMemo_bytes DestinationWithPaymentIdMemo_bytes].
  - by rewrite (proj1 (defrag_from_bytes m Hwf)).
  - unfold DestinationMemo_bytes. by rewrite (proj1 (dest_from_bytes m (zeros 32) Hwf (length_zeros 32))).
  - by rewrite (proj1 (dest_with_id_from_bytes m (proj1 Hwf) (proj2 Hwf))).
  - by rewrite (proj1 (dest_with_id_from_bytes m (proj1 Hwf) (proj2 Hwf))).
Qed.

(** Every memo reads back as itself.  For each of the twelve kinds, the
    payload of a memo whose fields are in range (the fee below 2^56, as the
    constructors demand) has 66 bytes, and [MemoType::try_from] returns the
    memo: its kind by the type bytes, and each field from its place. *)
Theorem memo_type_round_trip m :
  memo_wf m → length (memo_payload m) = MEMO_LEN ∧ MemoType_try_from (memo_payload m) = Ok m.
Proof. intros Hwf. split; [by apply memo_payload_length|by apply memo_try_from_payload]. Qed.

(** ** Authentication *)

(** Both sides exchange the same secret. *)
Lemma key_exchange_agrees (x : scalar) acct i :
  key_exchange x (view_public_key (subaddress acct i))
  = key_exchange (subaddress_view_private acct i) (public_of x).
Proof.
  unfold key_exchange. f_equal. unfold subaddress. simpl. unfold public_of.
  by rewrite !p_mul_mul, s_mul_comm.
Qed.

Lemma length_short_address_hash a : length (short_address_hash a) = 16%nat.
Proof. unfold short_address_hash. by rewrite length_take, length_vec_to_list. Qed.

Lemma length_hmac ss k t d : length (compute_category1_hmac ss k t d) = 16%nat.
Proof. unfold compute_category1_hmac. by rewrite length_take, length_vec_to_list. Qed.

(** What [compute_authenticated_sender_memo] writes, for a credential of a
    subaddress [j] of the sender. *)
Lemma authenticated_layout t cred view_public tx_out_public_key data :
  length (cred_address_hash cred) = 16%nat → length data = 32%nat →
  let m := compute_authenticated_sender_memo t cred view_public tx_out_public_key data in
  length m = 64%nat ∧ sender_address_hash m = cred_address_hash cred ∧ slice 16 48 m = data
  ∧ drop 48 m = compute_category1_hmac (key_exchange (subaddress_spend_private_key cred) view_public)
                  tx_out_public_key t (take 48 m).
Proof.
  intros Hc Hd. cbv zeta. unfold compute_authenticated_sender_memo, sender_address_hash.
  set (b := put 16 data (put 0 (cred_address_hash cred) (zeros 64))).
  assert (length b = 64%nat) as Hb by (unfold b; layout_lia).
  set (mac := compute_category1_hmac _ _ _ _).
  assert (length mac = 16%nat) as Hm by apply length_hmac.
  assert (length (put 48 mac b) = 64%nat) as Hl by (rewrite length_put; lia).
  split; [done|]. rewrite drop_slice, take_slice, Hl.
  rewrite (slice_put 48 64) by lia. rewrite !slice_put_other by lia.
  unfold mac. rewrite take_slice. split; [|split; [|done]].
  - unfold b. read_layout. done.
  - unfold b. read_layout. done.
Qed.

Lemma authenticated_validates t sender j acct i tx_out_public_key data :
  length data = 32%nat →
  let cred := credential_new (subaddress sender j) (subaddress_spend_private sender j) in
  validate_authenticated_sender (subaddress sender j) (subaddress_view_private acct i) tx_out_public_key t
    (compute_authenticated_sender_memo t cred (view_public_key (subaddress acct i)) tx_out_public_key data) = true.
Proof.
  intros Hd cred.
  destruct (authenticated_layout t cred (view_public_key (subaddress acct i)) tx_out_public_key data)
    as (Hl & Ha & _ & Hm); [apply length_short_address_hash|done|].
  unfold validate_authenticated_sender. apply andb_true_intro. split; apply bool_decide_eq_true; [by symmetry|].
  rewrite Hm. unfold cred, credential_new. cbn [subaddress_spend_private_key]. by rewrite key_exchange_agrees.
Qed.

Lemma authenticated_data_length t cred view_public tx_out_public_key data :
  length (cred_address_hash cred) = 16%nat → length data = 32%nat →
  length (compute_authenticated_sender_memo t cred view_public tx_out_public_key data) = 64%nat.
Proof. intros Hc Hd. by apply authenticated_layout. Qed.

Lemma payment_id_written t cred view_public tx_out_public_key n :
  length (cred_address_hash cred) = 16%nat → n < u64_modulus →
  payment_id (compute_authenticated_sender_memo t cred view_public tx_out_public_key
    (put 0 (be_bytes 8 n) (zeros 32))) = n.
Proof.
  intros Hc Hn.
  assert (length (put 0 (be_bytes 8 n) (zeros 32)) = 32%nat) as Hl by layout_lia.
  destruct (authenticated_layout t cred view_public tx_out_public_key _ Hc Hl) as (_ & _ & Hs & _).
  unfold payment_id. set (m := compute_authenticated_sender_memo _ _ _ _ _) in *.
  replace (slice 16 24 m) with (slice 0 8 (slice 16 48 m)) by (unfold slice; by rewrite drop_0, take_take).
  rewrite Hs. read_layout. by apply be_value8_bytes.
Qed.

(** What the recipient of an output reads from it. *)
Lemma new_output_read acct i block_version amount r hint memo_fn out :
  let recipient := subaddress acct i in
  let R := create_tx_out_public_key r (spend_public_key recipient) in
  token_id amount < 2 ^ 64 → e_memo_feature_is_supported block_version = true →
  new_with_memo block_version amount recipient r hint memo_fn = Ok out →
  ∃ memo ss, memo_fn R = Ok memo ∧ public_key out = compress R ∧
    view_key_match out (view_private_key acct) = Ok (amount, ss) ∧ decrypt_memo out ss = memo.
Proof.
  cbv zeta. set (R := create_tx_out_public_key _ _). intros Ht He Hout.
  destruct (memo_fn R) as [memo|e] eqn:Hm.
  2:{ exfalso. revert Hout. unfold new_with_memo. rewrite He. fold R.
      destruct (MaskedAmount_new _ _ _); simpl; [rewrite Hm|]; done. }
  rewrite (new_with_memo_Ok _ _ _ _ _ _ memo Hm), He in Hout. revert Hout.
  set (ss := create_shared_secret _ r).
  pose proof (MaskedAmountProps.masked_amount_roundtrip block_version amount (compress ss) Ht) as Ha.
  destruct (negb _ && _); [by rewrite Ha|]. destruct Ha as (a & blinding & -> & Hget & _).
  intros E. assert (∀ o, Ok (E:=NewTxError) o = Ok out → out = o) as Hi by congruence. apply Hi in E. subst out.
  exists memo, ss. split; [done|]. split; [done|]. split; [|apply memo_roundtrip].
  unfold view_key_match. cbn [public_key masked_amount]. rewrite point_try_from_compress. cbn [map_err result_bind].
  unfold R. rewrite <-shared_secret_agrees. fold ss. by rewrite Hget.
Qed.

(** The memo that the builder of recoverable transaction histories writes for
    an output, by the ids that are set. *)
Definition rth_kind rth (d : bytes) : MemoType :=
  match payment_request_id rth, payment_intent_id rth with
  | Some _, _ => AuthenticatedSenderWithPaymentRequestId d
  | None, Some _ => AuthenticatedSenderWithPaymentIntentId d
  | None, None => AuthenticatedSender d
  end.
Definition rth_id rth : option N :=
  match payment_request_id rth with Some q => Some q | None => payment_intent_id rth end.
Definition rth_data rth : bytes :=
  match rth_id rth with Some q => put 0 (be_bytes 8 q) (zeros 32) | None => zeros 32 end.

Lemma rth_payload_memo rth cred recipient R memo :
  sender_cred rth = Some cred → rth_payload rth recipient R = Ok memo →
  memo = memo_payload (rth_kind rth (compute_authenticated_sender_memo (memo_type_bytes (rth_kind rth []))
           cred (view_public_key recipient) (compress R) (rth_data rth))).
Proof.
  unfold rth_payload, rth_kind, rth_data, rth_id. intros ->.
  destruct (payment_request_id rth), (payment_intent_id rth); intros [= <-]; reflexivity.
Qed.

Lemma rth_output_payload rth amount recipient R memo rth' :
  rth_make_memo_for_output rth amount recipient R = (Ok memo, rth') →
  rth_payload rth recipient R = Ok memo.
Proof.
  unfold rth_make_memo_for_output, rth_check_token. destruct (wrote_destination_memo rth); [done|].
  destruct (outlay_token_id rth) as [t|]; [destruct (negb _); [done|]|];
    simpl; (destruct (u64_checked_add _ _); [|done]); simpl; (destruct (255 <=? _); [done|]); by intros [= <- _].
Qed.

Lemma rth_data_length rth : length (rth_data rth) = 32%nat.
Proof. unfold rth_data. destruct (rth_id rth); layout_lia. Qed.

Lemma rth_kind_data rth d : memo_data_bytes (rth_kind rth d) = d.
Proof. unfold rth_kind. by destruct (payment_request_id rth), (payment_intent_id rth). Qed.
Lemma rth_kind_type rth d d' : memo_type_bytes (rth_kind rth d) = memo_type_bytes (rth_kind rth d').
Proof. unfold rth_kind. by destruct (payment_request_id rth), (payment_intent_id rth). Qed.
Lemma rth_kind_parsed rth d :
  MemoType_try_from (memo_payload (rth_kind rth d)) = Ok (rth_kind rth d).
Proof. unfold rth_kind. by destruct (payment_request_id rth), (payment_intent_id rth). Qed.

(** C19: a recipient can tell who sent an output.  When the memo of an output
    was made by the builder of recoverable transaction histories with the
    credential of the account [sender], and the output was sent to a subaddress
    [i] of [acct], then what [acct] gets by matching the output with its view
    key, decrypting the memo and parsing it is a memo of the kind for the ids
    that were set, which names the short hash of the sender's address, holds
    the id, and validates for the sender's address, the private view key of the
    subaddress, and the public key of the output. *)
Theorem sender_authenticated rth sender acct i block_version amount r hint out :
  let recipient := subaddress acct i in
  sender_cred rth = Some (credential_from sender) →
  token_id amount < 2 ^ 64 → e_memo_feature_is_supported block_version = true →
  new_with_memo block_version amount recipient r hint
    (λ R, (make_memo_for_output rth amount recipient R).1) = Ok out →
  ∃ ss d, view_key_match out (view_private_key acct) = Ok (amount, ss) ∧
    MemoType_try_from (decrypt_memo out ss) = Ok (rth_kind rth d) ∧
    sender_address_hash d = short_address_hash (default_subaddress sender) ∧
    (∀ q, rth_id rth = Some q → q < u64_modulus → payment_id d = q) ∧
    validate_authenticated_sender (default_subaddress sender) (subaddress_view_private acct i) (public_key out)
      (memo_type_bytes (rth_kind rth d)) d = true.
Proof.
  cbv zeta. intros Hc Ht He Hout.
  destruct (new_output_read acct i _ _ _ _ _ _ Ht He Hout) as (memo & ss & Hmemo & Hk & Hv & Hd).
  set (R := create_tx_out_public_key r _) in *. simpl in Hmemo.
  destruct (rth_make_memo_for_output _ _ _ _) as [res rth'] eqn:E. simpl in Hmemo. subst res.
  apply rth_output_payload, (rth_payload_memo _ _ _ _ _ Hc) in E.
  set (d := compute_authenticated_sender_memo _ _ _ _ _) in E.
  exists ss, d. split; [done|]. split; [rewrite Hd, E; apply rth_kind_parsed|].
  assert (length (cred_address_hash (credential_from sender)) = 16%nat) as Hl by apply length_short_address_hash.
  split; [|split].
  - by apply authenticated_layout, rth_data_length.
  - intros q Hq Hlt. unfold d, rth_data. rewrite Hq. by apply payment_id_written.
  - rewrite Hk. rewrite (rth_kind_type rth d []).
    apply (authenticated_validates _ sender DEFAULT_SUBADDRESS_INDEX), rth_data_length.
Qed.

(** ** Totals of a payment *)

(** The memos of a list of outputs, all of which are made. *)
Fixpoint rth_outputs rth (outs : list (Amount * PublicAddress * point)) : option RTHMemoBuilder :=
  match outs with
  | [] => Some rth
  | (amount, recipient, R) :: outs =>
      match make_memo_for_output rth amount recipient R with
      | (Ok _, rth) => rth_outputs rth outs
      | (Err _, _) => None
      end
  end.

Definition outs_total (outs : list (Amount * PublicAddress * point)) : N := foldr N.add 0 ((λ o, value o.1.1) <$> outs).
Definition outs_last (h : bytes) (outs : list (Amount * PublicAddress * point)) : bytes :=
  foldl (λ _ o, short_address_hash o.1.2) h outs.

(** A builder none of whose outputs has a memo yet, with destination memos. *)
Definition rth_fresh rth : Prop :=
  rth_total_outlay rth = 0 ∧ rth_num_recipients rth = 0 ∧ outlay_token_id rth = None ∧
  wrote_destination_memo rth = false ∧ destination_memo_enabled rth = true ∧ length (last_recipient rth) = 16%nat.

Lemma rth_check_token_Ok rth t rth' :
  rth_check_token rth t = Ok rth' →
  outlay_token_id rth' = Some t ∧ (outlay_token_id rth = None ∨ outlay_token_id rth = Some t) ∧
  rth_fee rth' = rth_fee rth ∧ last_recipient rth' = last_recipient rth ∧ rth_id rth' = rth_id rth ∧
  rth_num_recipients rth' = rth_num_recipients rth ∧ rth_total_outlay rth' = rth_total_outlay rth ∧
  wrote_destination_memo rth' = wrote_destination_memo rth ∧
  destination_memo_enabled rth' = destination_memo_enabled rth ∧
  payment_request_id rth' = payment_request_id rth ∧ payment_intent_id rth' = payment_intent_id rth.
Proof.
  unfold rth_check_token. destruct (outlay_token_id rth) as [t'|] eqn:E.
  - destruct (N.eqb_spec t' t) as [->|]; cbn [negb]; [|discriminate]. intros [= <-]. repeat split; auto.
  - intros [= <-]. repeat split; auto.
Qed.

(** One output adds its value, its recipient and its token. *)
Lemma rth_output_step rth amount recipient R memo rth' :
  rth_make_memo_for_output rth amount recipient R = (Ok memo, rth') →
  rth_total_outlay rth' = rth_total_outlay rth + value amount ∧ rth_total_outlay rth' < u64_modulus ∧
  rth_num_recipients rth' = rth_num_recipients rth + 1 ∧ rth_num_recipients rth' < 256 ∧
  last_recipient rth' = short_address_hash recipient ∧
  outlay_token_id rth' = Some (token_id amount) ∧
  (outlay_token_id rth = None ∨ outlay_token_id rth = Some (token_id amount)) ∧
  wrote_destination_memo rth' = false ∧ destination_memo_enabled rth' = destination_memo_enabled rth ∧
  rth_fee rth' = rth_fee rth ∧ payment_request_id rth' = payment_request_id rth ∧
  payment_intent_id rth' = payment_intent_id rth.
Proof.
  unfold rth_make_memo_for_output. destruct (wrote_destination_memo rth) eqn:Hw; [discriminate|].
  destruct (rth_check_token rth (token_id amount)) as [rth1|e] eqn:Hc; [|discriminate].
  apply rth_check_token_Ok in Hc as (Htok & Ht & F1 & F2 & F3 & F4 & F5 & F6 & F7 & F8 & F9).
  unfold u64_checked_add. rewrite F5. destruct (_ <? u64_modulus) eqn:Hlt; [|discriminate].
  cbn [rth_num_recipients rth_with_outlay]. rewrite F4. destruct (255 <=? _) eqn:Hr; [discriminate|].
  apply N.ltb_lt in Hlt. apply N.leb_gt in Hr. intros [= _ <-]. simpl. rewrite F1, F6, F7, F8, F9.
  repeat split; try done; lia.
Qed.

Lemma rth_outputs_totals outs : ∀ rth rth',
  rth_outputs rth outs = Some rth' → wrote_destination_memo rth = false →
  rth_total_outlay rth < u64_modulus → rth_num_recipients rth < 256 →
  rth_total_outlay rth' = rth_total_outlay rth + outs_total outs ∧ rth_total_outlay rth' < u64_modulus ∧
  rth_num_recipients rth' = rth_num_recipients rth + len outs ∧ rth_num_recipients rth' < 256 ∧
  last_recipient rth' = outs_last (last_recipient rth) outs ∧
  wrote_destination_memo rth' = false ∧ destination_memo_enabled rth' = destination_memo_enabled rth ∧
  rth_fee rth' = rth_fee rth ∧ payment_request_id rth' = payment_request_id rth ∧
  payment_intent_id rth' = payment_intent_id rth ∧
  (∀ t, outlay_token_id rth' = Some t → Forall (λ o, token_id o.1.1 = t) outs) ∧
  (∀ t, outlay_token_id rth = Some t → outlay_token_id rth' = Some t) ∧
  (outs ≠ [] → outlay_token_id rth' ≠ None).
Proof.
  induction outs as [|[[amount recipient] R] outs IH]; intros rth rth' H Hw Ht Hn; simpl in H.
  { injection H as <-. unfold outs_total, len. simpl. repeat split; try done; try lia; auto. }
  destruct (rth_make_memo_for_output rth amount recipient R) as [[memo|e] rth1] eqn:E; [|done].
  apply rth_output_step in E as (E1 & E2 & E3 & E4 & E5 & E6 & E7 & E8 & E9 & E10 & E11 & E12).
  destruct (IH _ _ H E8 E2 E4) as (I1 & I2 & I3 & I4 & I5 & I6 & I7 & I8 & I9 & I10 & I11 & I12 & _).
  specialize (I12 _ E6).
  unfold outs_total, outs_last, len in *. cbn [fmap list_fmap foldr fst snd foldl length]. 
  rewrite I1, I3, E1, E3, I5, E5, I6, I7, I8, I9, I10, E9, E10, E11, E12, I12.
  repeat split; try done; try lia.
  - intros t [= <-]. constructor; [done|]. by apply I11.
  - intros t Ht'. destruct E7 as [E7|E7]; congruence.
Qed.

(** The destination memo inside one of the three kinds. *)
Definition destination_of (m : MemoType) : option DestinationMemo :=
  match m with
  | Destination d => Some d
  | DestinationWithPaymentRequestId d | DestinationWithPaymentIntentId d => Some (dest d)
  | _ => None
  end.

Lemma rth_destination_spec rth m :
  rth_destination rth = Ok m → value (rth_fee rth) < u64_modulus →
  destination_of m = Some (mkDestinationMemo (last_recipient rth) (rth_num_recipients rth) (value (rth_fee rth))
                             (rth_total_outlay rth))
  ∧ value (rth_fee rth) < 2 ^ 56.
Proof.
  unfold rth_destination, DestinationMemo_new, dest_set_fee. intros H Hf. rewrite fits_seven in H by done.
  case_bool_decide; simpl in H; [|done]. injection H as <-. split; [|done].
  by destruct (payment_request_id rth), (payment_intent_id rth).
Qed.

Lemma rth_destination_wf rth m :
  rth_destination rth = Ok m → value (rth_fee rth) < u64_modulus →
  length (last_recipient rth) = 16%nat → rth_num_recipients rth < 256 → rth_total_outlay rth < u64_modulus →
  (∀ q, rth_id rth = Some q → q < u64_modulus) → memo_wf m.
Proof.
  intros H Hf Hl Hn Ht Hq. destruct (rth_destination_spec rth m H Hf) as [_ H56]. revert H Hq.
  unfold rth_destination, DestinationMemo_new, dest_set_fee, rth_id. rewrite fits_seven by done.
  rewrite bool_decide_eq_true_2 by done. simpl.
  destruct (payment_request_id rth), (payment_intent_id rth); intros [= <-] Hq; repeat split; auto.
Qed.

Lemma outs_last_length h outs : length h = 16%nat → length (outs_last h outs) = 16%nat.
Proof.
  revert h. induction outs as [|o outs IH]; intros h Hh; [done|]. apply IH, length_short_address_hash.
Qed.

(** The change memo, when it is made, is that of the totals with the fee. *)
Lemma rth_change_step rth change memo rth' :
  destination_memo_enabled rth = true → rth_make_memo_for_change_output rth change = (Ok memo, rth') →
  ∃ rth1 m, rth_destination rth1 = Ok m ∧ memo = memo_payload m ∧ rth' = rth_wrote rth1 ∧
    rth_total_outlay rth1 = rth_total_outlay rth + value (rth_fee rth) ∧ rth_total_outlay rth1 < u64_modulus ∧
    outlay_token_id rth1 = Some (token_id change) ∧ token_id (rth_fee rth) = token_id change ∧
    (outlay_token_id rth = None ∨ outlay_token_id rth = Some (token_id change)) ∧
    rth_fee rth1 = rth_fee rth ∧ last_recipient rth1 = last_recipient rth ∧
    rth_num_recipients rth1 = rth_num_recipients rth ∧ rth_id rth1 = rth_id rth ∧
    destination_memo_enabled rth1 = true.
Proof.
  unfold rth_make_memo_for_change_output. intros Hen H. rewrite Hen in H. cbn [negb] in H.
  destruct (wrote_destination_memo rth); [discriminate|].
  destruct (rth_check_token rth (token_id change)) as [rth1|e] eqn:Hc; [|discriminate].
  apply rth_check_token_Ok in Hc as (Htok & Ht & F1 & F2 & F3 & F4 & F5 & _ & F7 & _). rewrite F1, F5 in H. rewrite Hen in F7.
  destruct (N.eqb_spec (token_id (rth_fee rth)) (token_id change)) as [Hf|]; cbn [negb] in H; [|discriminate].
  unfold u64_checked_add in H. destruct (_ <? u64_modulus) eqn:Hlt; [|discriminate]. apply N.ltb_lt in Hlt.
  set (rth2 := rth_with_outlay rth1 _) in *.
  assert (match rth_destination rth2 with
          | Ok d_memo => (Ok (memo_payload d_memo), rth_wrote rth2)
          | Err FeeTooLarge => (Err (LimitsExceeded (str_bytes "fee")), rth2)
          end = (Ok memo, rth')) as H2.
  { revert H. cbn [payment_request_id payment_intent_id rth_with_outlay rth2].
    destruct (payment_request_id rth1), (payment_intent_id rth1); [discriminate|exact id..]. }
  destruct (rth_destination rth2) as [m|[]] eqn:Hd; [|discriminate]. injection H2 as <- <-.
  exists rth2, m. repeat split; try done.
Qed.

(** The destination memo of a payment tells what it cost and who got
    it.  After memos for the outputs [outs] and then for the change, the change
    memo reads back as a destination memo whose outlay is the sum of the
    outputs and the fee, computed without wrap-around, whose fee is the fee,
    and which counts the outputs and has the hash of the last recipient (or of
    none); the outputs, the fee and the change are of one token; and the
    builder then refuses further outputs, change, and a new fee. *)
Theorem destination_memo_totals rth0 outs rth change memo rth' :
  rth_fresh rth0 → value (rth_fee rth0) < u64_modulus → (∀ q, rth_id rth0 = Some q → q < u64_modulus) →
  rth_outputs rth0 outs = Some rth →
  rth_make_memo_for_change_output rth change = (Ok memo, rth') →
  (∃ m, MemoType_try_from memo = Ok m ∧
    destination_of m = Some (mkDestinationMemo (outs_last (last_recipient rth0) outs) (len outs)
                               (value (rth_fee rth0)) (outs_total outs + value (rth_fee rth0)))) ∧
  Forall (λ o, token_id o.1.1 = token_id change) outs ∧ token_id (rth_fee rth0) = token_id change ∧
  (∀ amount recipient R fee change',
    (make_memo_for_output rth' amount recipient R).1 = Err OutputsAfterChange ∧
    (mb_set_fee rth' fee).1 = Err FeeAfterChange ∧
    (rth_make_memo_for_change_output rth' change').1 = Err MultipleChangeOutputs).
Proof.
  intros (F1 & F2 & F3 & F4 & F5 & F6) Hfee Hq Hout Hch.
  destruct (rth_outputs_totals outs rth0 rth Hout F4) as
    (T1 & T2 & T3 & T4 & T5 & T6 & T7 & T8 & T9 & T10 & T11 & _ & T12); [rewrite F1; done|rewrite F2; done|].
  apply rth_change_step in Hch as (rth1 & m & Hd & -> & -> & C1 & C2 & C3 & C4 & C5 & C6 & C7 & C8 & C9 & C10); [|by rewrite T7].
  rewrite T8 in C6, C1, C4.
  assert (rth_id rth1 = rth_id rth0) as Hid by (rewrite C9; unfold rth_id; by rewrite T9, T10).
  split; [exists m; split|split; [|split]].
  - apply memo_try_from_payload. apply (rth_destination_wf rth1 m Hd).
    + by rewrite C6.
    + rewrite C7, T5. by apply outs_last_length.
    + by rewrite C8.
    + done.
    + by rewrite Hid.
  - destruct (rth_destination_spec rth1 m Hd) as [-> _]; [by rewrite C6|].
    rewrite C6, C7, C8, C1, T1, T3, T5, F1, F2, !N.add_0_l. reflexivity.
  - destruct (decide (outs = [])) as [->|Hne]; [constructor|]. apply T11.
    destruct C5 as [C5|C5]; [by destruct (T12 Hne)|done].
  - done.
  - intros amount recipient R fee change'. cbn -[rth_make_memo_for_change_output]. repeat split.
    unfold rth_make_memo_for_change_output, rth_wrote. cbn [destination_memo_enabled]. by rewrite C10.
Qed.

(** A failure after the fee was added leaves it in the total: the memo of a
    change output, asked for while both ids are set, fails and adds the fee, so
    that a second request, after one of the ids is cleared, counts it twice. *)
Theorem failed_change_memo_adds_fee rth change q q' :
  destination_memo_enabled rth = true → wrote_destination_memo rth = false →
  outlay_token_id rth = Some (token_id change) → token_id (rth_fee rth) = token_id change →
  rth_total_outlay rth + value (rth_fee rth) < u64_modulus →
  payment_request_id rth = Some q → payment_intent_id rth = Some q' →
  rth_make_memo_for_change_output rth change
  = (Err RequestAndIntentIdSet, rth_with_outlay rth (rth_total_outlay rth + value (rth_fee rth))).
Proof.
  intros He Hw Ht Hf Hlt Hq Hq'. unfold rth_make_memo_for_change_output, rth_check_token, u64_checked_add.
  rewrite He, Hw, Ht, N.eqb_refl. cbn [negb]. rewrite Hf, N.eqb_refl. cbn [negb].
  apply N.ltb_lt in Hlt. rewrite Hlt. unfold rth_with_outlay. cbn [payment_request_id payment_intent_id].
  by rewrite Hq, Hq'.
Qed.

(** ** Defragmentation *)

(** What clients do with the builder. *)
Inductive df_reachable (id : N) : DefragmentationMemoBuilder → Prop :=
| df_start : df_reachable id (DefragmentationMemoBuilder_new id)
| df_fee_set df fee : df_reachable id df → df_reachable id (df_set_fee df fee).2
| df_output df amount : df_reachable id df → df_reachable id (df_make_memo_for_output df amount).2
| df_change df amount : df_reachable id df → df_reachable id (df_make_memo_for_change_output df amount).2.

Lemma df_no_decoy id df : df_reachable id df → wrote_decoy_memo df = false.
Proof.
  induction 1 as [|df fee _ IH|df amount _ IH|df amount _ IH]; [done|..].
  - unfold df_set_fee. by destruct (wrote_main_memo df).
  - unfold df_make_memo_for_output. repeat case_match; simplify_eq; done.
  - unfold df_make_memo_for_change_output. repeat case_match; simplify_eq; done.
Qed.

(** The builder never notes that it wrote the memo of the change: it sets
    [wrote_main_memo] again.  So it never refuses a second change output, as
    its check means to: each one of value zero gets the same memo, and the
    builder stays as it was. *)
Theorem defragmentation_change_repeats id df amount :
  df_reachable id df → wrote_main_memo df = true →
  token_id amount = token_id (df_fee df) → value amount = 0 →
  df_make_memo_for_change_output df amount
    = (Ok (memo_payload (Defragmentation (mkDefragmentationMemo 0 0 (defrag_id df)))), df)
  ∧ (∀ amount', (df_make_memo_for_change_output df amount').1 ≠ Err MultipleChangeOutputs).
Proof.
  intros Hr Hm Ht Hv. pose proof (df_no_decoy _ _ Hr) as Hd.
  unfold df_make_memo_for_change_output, df_wrote_main. rewrite Hm, Hd, Ht, Hv, N.eqb_refl. cbn [negb].
  split.
  - change (DefragmentationMemo_new 0 0 (defrag_id df)) with (Ok (E:=NewMemoError) (mkDefragmentationMemo 0 0 (defrag_id df))).
    cbv beta iota. f_equal. rewrite <-Hd, <-Hm at 1. by destruct df.
  - intros amount'. change (DefragmentationMemo_new 0 0 (defrag_id df)) with (Ok (E:=NewMemoError) (mkDefragmentationMemo 0 0 (defrag_id df))).
    destruct (_ =? _); [|discriminate]. cbn [negb]. destruct (_ =? 0); discriminate.
Qed.

(** ** Gift codes *)

Lemma until_zero_note note k : u8 0 ∉ note → until_zero (note ++ zeros k) = note.
Proof.
  induction note as [|b note IH]; intros Hn.
  - by destruct k.
  - simpl. rewrite bool_decide_eq_false_2 by (intros ->; apply Hn; left). f_equal. apply IH.
    intros H. apply Hn. by right.
Qed.

Lemma drop_put i src b n : (i + length src <= n)%nat → (i + length src <= length b)%nat → drop n (put i src b) = drop n b.
Proof.
  intros Hn Hl. apply list_eq. intros k. rewrite !lookup_drop. apply lookup_put_out; [done|lia].
Qed.

Lemma drop_put_at i src b : (i <= length b)%nat → drop i (put i src b) = src ++ drop (i + length src) b.
Proof. intros Hi. unfold put. rewrite drop_app_length'; [done|]. by rewrite length_take_le. Qed.

Lemma drop_zeros k n : drop k (zeros n) = zeros (n - k).
Proof. apply drop_replicate. Qed.

(** A note put into zero bytes is read back. *)
Lemma read_note_put i note b :
  (i + length note <= length b)%nat → (∃ k, drop (i + length note) b = zeros k) →
  u8 0 ∉ note → utf8_valid note = true → read_note i (put i note b) = Ok note.
Proof.
  intros Hl (k & Hk) Hn Hu. unfold read_note. rewrite drop_put_at by lia. rewrite Hk, until_zero_note by done.
  by rewrite Hu.
Qed.
Lemma fee_bytes_length fee : length (drop 1 (be_bytes 8 fee)) = 7%nat.
Proof. by rewrite length_drop, length_be_bytes. Qed.

(** The memos of gift codes read back.  A note of valid UTF-8 without zero
    bytes that fits, a fee below 2^56, the public key of the funded output and
    the index of the cancelled one are recovered from the memo that was made
    with them; larger fees and longer notes are refused, with the limit. *)
Theorem gift_code_memos_read_back tx_out_public_key global_index fee note :
  u8 0 ∉ note → utf8_valid note = true → global_index < u64_modulus →
  (if bool_decide (fee < 2 ^ 56) then
     (∃ m, GiftCodeCancellationMemo_new global_index fee = Ok m ∧
        cancelled_gift_code_index m = global_index ∧ cancellation_fee m = fee) ∧
     (if (length note <=? 53)%nat
      then ∃ m, GiftCodeFundingMemo_new tx_out_public_key fee note = Ok m ∧
        public_key_matches m tx_out_public_key = true ∧ funding_fee m = fee ∧ funding_note m = Ok note
      else GiftCodeFundingMemo_new tx_out_public_key fee note = Err (BadLength (len note))) ∧
     (if (length note <=? 57)%nat
      then ∃ m, GiftCodeSenderMemo_new fee note = Ok m ∧ sender_fee m = fee ∧ sender_note m = Ok note
      else GiftCodeSenderMemo_new fee note = Err (BadLength (len note)))
   else
     let e := MemoMaxFeeExceeded MAX_FEE fee in
     GiftCodeCancellationMemo_new global_index fee = Err e ∧
     GiftCodeFundingMemo_new tx_out_public_key fee note = Err e ∧ GiftCodeSenderMemo_new fee note = Err e).
Proof.
  intros Hn Hu Hi. unfold GiftCodeCancellationMemo_new, GiftCodeFundingMemo_new, GiftCodeSenderMemo_new.
  rewrite !MAX_FEE_pow. case_bool_decide as Hf; cbn [negb]; [|done].
  pose proof (fee_bytes_length fee) as Hl. split; [|split].
  - eexists. split; [reflexivity|]. unfold cancelled_gift_code_index, cancellation_fee.
    rewrite take_slice. read_layout. by rewrite be_value8_bytes, be_value7_bytes.
  - destruct (Nat.leb_spec (length note) 53) as [Hle|Hgt].
    2:{ by rewrite (proj2 (Nat.ltb_lt NOTE_DATA_LEN (length note)) Hgt). }
    rewrite (proj2 (Nat.ltb_ge NOTE_DATA_LEN (length note)) Hle).
    eexists. split; [reflexivity|]. unfold public_key_matches, funding_fee, funding_note.
    assert (length (tx_out_public_key_short_hash tx_out_public_key) = 4%nat) as Hh.
    { unfold tx_out_public_key_short_hash. by rewrite length_take, length_vec_to_list. }
    split; [|split].
    + apply bool_decide_eq_true. rewrite take_slice. read_layout. done.
    + read_layout. by apply be_value7_bytes.
    + apply read_note_put; try done; [layout_lia|]. exists (64 - (11 + length note))%nat.
      rewrite !drop_put by layout_lia. apply drop_zeros.
  - destruct (Nat.leb_spec (length note) 57) as [Hle|Hgt].
    2:{ by rewrite (proj2 (Nat.ltb_lt SENDER_NOTE_DATA_LEN (length note)) Hgt). }
    rewrite (proj2 (Nat.ltb_ge SENDER_NOTE_DATA_LEN (length note)) Hle).
    eexists. split; [reflexivity|]. unfold sender_fee, sender_note. split.
    + rewrite take_slice. read_layout. by apply be_value7_bytes.
    + apply read_note_put; try done; [layout_lia|]. exists (64 - (7 + length note))%nat.
      rewrite !drop_put by layout_lia. apply drop_zeros.
Qed.
End props.

(** ** Witnesses *)

#[local] Instance bc : Curve := bit_curve.
#[local] Instance bl : CurveLaws := bit_curve_laws.
#[local] Instance toy_memo_crypto : MemoCrypto := {|
  hmac_sha512 := λ key msg, vreplicate 64 (u8 (be_value key + be_value msg));
  address_digest := λ a, compress (view_public_key a)
|}.

Definition toy_dest : MemoType :=
  DestinationWithPaymentIntentId (mkDestinationWithPaymentIdMemo (mkDestinationMemo (zeros 16) 3 400 12345) 7).

Lemma memo_type_round_trip_witness : MemoType_try_from (memo_payload toy_dest) = Ok toy_dest.
Proof.
  apply (memo_type_round_trip toy_dest). split; [split; [reflexivity|split; [reflexivity|split; reflexivity]]|reflexivity].
Defined.

Definition toy_rth : RTHMemoBuilder :=
  set_destination_memo_enabled (set_payment_request_id
    (set_sender_credential RTHMemoBuilder_default (Some (credential_from toy_account))) (Some 42)) true.

Lemma sender_authenticated_witness :
  ∃ out ss d,
    new_with_memo VERSION_THREE (mkAmount 700 3) (subaddress toy_account 5) toy_scalar []
      (λ R, (make_memo_for_output toy_rth (mkAmount 700 3) (subaddress toy_account 5) R).1) = Ok out ∧
    MemoType_try_from (decrypt_memo out ss) = Ok (AuthenticatedSenderWithPaymentRequestId d) ∧ payment_id d = 42.
Proof.
  destruct (new_with_memo VERSION_THREE (mkAmount 700 3) (subaddress toy_account 5) toy_scalar []
      (λ R, (make_memo_for_output toy_rth (mkAmount 700 3) (subaddress toy_account 5) R).1)) as [out|e] eqn:E.
  2:{ exfalso. revert E. vm_compute. discriminate. }
  destruct (sender_authenticated toy_rth toy_account toy_account 5 VERSION_THREE (mkAmount 700 3) toy_scalar [] out)
    as (ss & d & _ & Hm & _ & Hq & _).
  - reflexivity.
  - reflexivity.
  - reflexivity.
  - exact E.
  - exists out, ss, d. split; [reflexivity|]. split; [exact Hm|]. apply Hq; reflexivity.
Defined.

Definition toy_outs : list (Amount * PublicAddress * point) :=
  [(mkAmount 700 0, subaddress toy_account 5, basepoint); (mkAmount 300 0, subaddress toy_account 6, basepoint)].

Definition toy_rth_paid : RTHMemoBuilder := default toy_rth (rth_outputs toy_rth toy_outs).
Definition toy_change : result bytes NewMemoError * RTHMemoBuilder :=
  rth_make_memo_for_change_output toy_rth_paid (mkAmount 55 0).
Definition toy_change_memo : bytes := match toy_change.1 with Ok memo => memo | Err _ => [] end.

Lemma default_made {A} (d : A) o : bool_decide (is_Some o) → o = Some (default d o).
Proof. intros H. apply bool_decide_unpack in H. destruct H as [x ->]. reflexivity. Qed.
Lemma change_made {A E S} (r : result A E * S) (d : A) :
  (match r.1 with Ok _ => True | Err _ => False end) → r = (Ok (match r.1 with Ok a => a | Err _ => d end), r.2).
Proof. destruct r as [[a|e] s]; intros H; [reflexivity|destruct H]. Qed.

Lemma destination_memo_totals_witness :
  ∃ m, MemoType_try_from toy_change_memo = Ok m ∧ (total_outlay <$> destination_of m) = Some (1000 + MOB_MINIMUM_FEE).
Proof.
  destruct (destination_memo_totals toy_rth toy_outs toy_rth_paid (mkAmount 55 0) toy_change_memo toy_change.2)
    as ((m & Hm & Hd) & _).
  - repeat split.
  - reflexivity.
  - intros q [= <-]. reflexivity.
  - apply default_made. vm_compute. exact I.
  - apply change_made. vm_compute. exact I.
  - exists m. split; [exact Hm|]. rewrite Hd. reflexivity.
Defined.

Lemma gift_code_memos_read_back_witness :
  ∃ m, GiftCodeFundingMemo_new basepoint 400 (str_bytes "Happy birthday") = Ok m ∧
    funding_fee m = 400 ∧ funding_note m = Ok (str_bytes "Happy birthday").
Proof.
  destruct (gift_code_memos_read_back basepoint 3 400 (str_bytes "Happy birthday")) as (_ & (m & E1 & _ & E2 & E3) & _).
  - apply (bool_decide_unpack _). vm_compute. exact I.
  - reflexivity.
  - reflexivity.
  - exists m. split; [exact E1|]. split; [exact E2|exact E3].
Defined.

(** The hypotheses of the two theorems on what the builders get wrong hold
    in states that the builders reach. *)
Example failed_change_memo_example :
  let r1 := rth_make_memo_for_change_output (set_payment_intent_id toy_rth (Some 9)) (mkAmount 55 0) in
  let r2 := rth_make_memo_for_change_output (set_payment_intent_id r1.2 None) (mkAmount 55 0) in
  r1.1 = Err RequestAndIntentIdSet ∧
  (memo ← (match r2.1 with Ok memo => Some memo | Err _ => None end);
   m ← (match MemoType_try_from memo with Ok m => Some m | Err _ => None end);
   total_outlay <$> destination_of m) = Some (2 * MOB_MINIMUM_FEE).
Proof. cbv zeta. split; vm_compute; reflexivity. Qed.

Example defragmentation_change_repeats_example :
  let df := (df_make_memo_for_output (DefragmentationMemoBuilder_new 8) (mkAmount 100 0)).2 in
  let r := df_make_memo_for_change_output df (mkAmount 0 0) in
  (match r.1 with Ok _ => True | Err _ => False end) ∧ r.2 = df.
Proof. cbv zeta. split; [vm_compute; exact I|vm_compute; reflexivity]. Qed.
End MemoProps.
