(* ===== verification/Digestible.v ===== *)
(** * Digests of structured data

    [crypto/digestible/src/lib.rs] and the derivation
    [crypto/digestible/derive/src/lib.rs]: an object is brought to a Merlin
    transcript in a canonical way.  A transcript is the list of the calls of
    [append_bytes], with their contexts; the Merlin transcript itself is
    third-party code, the class [Merlin].  What the macro derives for a struct is
    [derive_struct] of its fields; a transparent wrapper has the digest of what it
    wraps, and a transparent enum that of its variant. *)

From stdpp Require Import vector strings.
From S2P Require Import Prelude Ord Bytes Lmdb TxOut Membership BlockVersion MaskedAmount Tx Multisig Mint Block Ristretto OnetimeKeys Mlsag RingCt.

Open Scope N_scope.

(** ** Transcripts *)

Definition Transcript : Type := list (string * bytes).

(** [merlin::Transcript]: the digest of a labelled transcript. *)
Class Merlin : Type := merlin_digest : string → Transcript → bytes32.

(** [ast_domain_separators]. *)
Definition PRIMITIVE : bytes := str_bytes "prim".
Definition SEQUENCE : bytes := str_bytes "seq".
Definition AGGREGATE : bytes := str_bytes "agg".
Definition AGGREGATE_END : bytes := str_bytes "agg-end".
Definition NONE : bytes := [].

Definition append_primitive (context typename : string) (data : bytes) : Transcript :=
  [(context, PRIMITIVE); (typename, data)].
Definition append_seq_header (context : string) (n : nat) : Transcript :=
  [(context, SEQUENCE); ("len"%string, le_bytes 8 (N.of_nat n))].
Definition append_agg_header (context type_name : string) : Transcript :=
  [(context, AGGREGATE); ("name"%string, str_bytes type_name)].
Definition append_agg_closer (context type_name : string) : Transcript :=
  [(context, AGGREGATE_END); ("name"%string, str_bytes type_name)].
Definition append_none (context : string) : Transcript := [(context, NONE)].

(** ** The trait [Digestible] *)

(** What an implementation appends, in general and where it may be omitted. *)
Record Digestible (A : Type) := mkDigestible {
  append_to_transcript : string → A → Transcript;
  append_to_transcript_allow_omit : string → A → Transcript
}.
Arguments mkDigestible {A} _ _.
Arguments append_to_transcript {A} _ _ _.
Arguments append_to_transcript_allow_omit {A} _ _ _.

(** The default of [append_to_transcript_allow_omit]. *)
Definition never_omitted {A} (f : string → A → Transcript) : Digestible A := mkDigestible f f.

(** [digest32]. *)
Definition digest32 `{Merlin} {A} (d : Digestible A) (context : string) (x : A) : bytes32 :=
  merlin_digest "digestible" (append_to_transcript d context x).

(** Built-in types. *)
Definition dig_uint (width : nat) : Digestible N := never_omitted (λ c x, append_primitive c "uint" (le_bytes width x)).
Definition dig_u32 : Digestible N := dig_uint 4.
Definition dig_u64 : Digestible N := dig_uint 8.
Definition dig_bool : Digestible bool :=
  never_omitted (λ c b, append_primitive c "bool" [u8 (if b : bool then 1 else 0)]).
Definition dig_bytes : Digestible bytes :=
  mkDigestible (λ c l, append_primitive c "bytes" l)
    (λ c l, if bool_decide (l = []) then [] else append_primitive c "bytes" l).
(** Arrays are digested as bytes. *)
Definition dig_array {n} : Digestible (vec byte n) :=
  mkDigestible (λ c v, append_to_transcript dig_bytes c (vec_to_list v))
    (λ c v, append_to_transcript_allow_omit dig_bytes c (vec_to_list v)).
Definition dig_ristretto : Digestible bytes32 := never_omitted (λ c p, append_primitive c "ristretto" (vec_to_list p)).
Definition dig_scalar : Digestible bytes32 := never_omitted (λ c p, append_primitive c "scalar" (vec_to_list p)).
Definition dig_ed25519 : Digestible bytes32 := never_omitted (λ c p, append_primitive c "ed25519" (vec_to_list p)).
Definition dig_ed25519_signature : Digestible (vec byte 64) :=
  never_omitted (λ c p, append_primitive c "ed25519-sig" (vec_to_list p)).

Definition append_seq {A} (f : A → Transcript) (context : string) (l : list A) : Transcript :=
  match l with
  | [] => append_none context
  | _ => append_seq_header context (length l) ++ flat_map f l
  end.
Definition append_seq_allow_omit {A} (f : A → Transcript) (context : string) (l : list A) : Transcript :=
  match l with [] => [] | _ => append_seq f context l end.
Definition dig_list {A} (d : Digestible A) : Digestible (list A) :=
  mkDigestible (append_seq (append_to_transcript d "")) (append_seq_allow_omit (append_to_transcript d "")).
Definition dig_option {A} (d : Digestible A) : Digestible (option A) :=
  mkDigestible
    (λ c o, match o with None => append_none c | Some x => append_to_transcript d c x end)
    (λ c o, match o with None => [] | Some x => append_to_transcript_allow_omit d c x end).

(** ** [derive(Digestible)] *)

(** [try_digestible_struct]. *)
Definition derive_struct {A} (name : string) (fields : A → list Transcript) : Digestible A :=
  never_omitted (λ c x, append_agg_header c name ++ concat (fields x) ++ append_agg_closer c name).

(** The three kinds of field: as usual, with [never_omit], with [omit_when]. *)
Definition field {A} (d : Digestible A) (name : string) (x : A) : Transcript := append_to_transcript_allow_omit d name x.
Definition field_never_omit {A} (d : Digestible A) (name : string) (x : A) : Transcript := append_to_transcript d name x.
Definition field_omit_when {A} `{EqDecision A} (d : Digestible A) (name : string) (v x : A) : Transcript :=
  if bool_decide (x = v) then [] else field d name x.

(** ** The types of transactions *)

(** [MaskedAmount] is transparent. *)
Definition dig_masked_amount_v1 : Digestible MaskedAmountV1 := derive_struct "Amount" (λ a,
  [field dig_ristretto "commitment" (v1_commitment a); field dig_u64 "masked_value" (v1_masked_value a);
   field dig_bytes "masked_token_id" (v1_masked_token_id a)]).
Definition dig_masked_amount_v2 : Digestible MaskedAmountV2 := derive_struct "MaskedAmountV2" (λ a,
  [field dig_ristretto "commitment" (v2_commitment a); field dig_u64 "masked_value" (v2_masked_value a);
   field dig_bytes "masked_token_id" (v2_masked_token_id a)]).
Definition dig_masked_amount : Digestible MaskedAmount :=
  mkDigestible
    (λ c a, match a with V1 a => append_to_transcript dig_masked_amount_v1 c a
                       | V2 a => append_to_transcript dig_masked_amount_v2 c a end)
    (λ c a, match a with V1 a => append_to_transcript_allow_omit dig_masked_amount_v1 c a
                       | V2 a => append_to_transcript_allow_omit dig_masked_amount_v2 c a end).

(** [EncryptedMemo] is a tuple struct. *)
Definition dig_encrypted_memo : Digestible bytes := derive_struct "EncryptedMemo" (λ m, [field dig_bytes "0" m]).

Definition dig_tx_out : Digestible TxOut := derive_struct "TxOut" (λ o,
  [field (dig_option dig_masked_amount) "amount" (masked_amount o); field dig_ristretto "target_key" (target_key o);
   field dig_ristretto "public_key" (public_key o); field dig_bytes "e_fog_hint" (e_fog_hint o);
   field (dig_option dig_encrypted_memo) "e_memo" (e_memo o)]).

Definition dig_range : Digestible Range := derive_struct "Range" (λ r,
  [field dig_u64 "from" (range_from r); field dig_u64 "to" (range_to r)]).
Definition dig_element : Digestible TxOutMembershipElement := derive_struct "TxOutMembershipElement" (λ e,
  [field dig_range "range" (el_range e); field dig_array "hash" (el_hash e)]).
Definition dig_proof : Digestible TxOutMembershipProof := derive_struct "TxOutMembershipProof" (λ p,
  [field dig_u64 "index" (proof_index p); field dig_u64 "highest_index" (highest_index p);
   field (dig_list dig_element) "elements" (proof_elements p)]).

Definition dig_revealed : Digestible RevealedTxOut := derive_struct "RevealedTxOut" (λ r,
  [field dig_tx_out "tx_out" (rev_tx_out r); field dig_bytes "amount_shared_secret" (amount_shared_secret r)]).
Definition dig_input_rules : Digestible InputRules := derive_struct "InputRules" (λ r,
  [field (dig_list dig_tx_out) "required_outputs" (required_outputs r);
   field dig_u64 "max_tombstone_block" (max_tombstone_block r);
   field (dig_list dig_revealed) "partial_fill_outputs" (partial_fill_outputs r);
   field (dig_option dig_revealed) "partial_fill_change" (partial_fill_change r);
   field dig_u64 "min_partial_fill_value" (min_partial_fill_value r)]).
Definition dig_tx_in : Digestible TxIn := derive_struct "TxIn" (λ i,
  [field (dig_list dig_tx_out) "ring" (ring i); field (dig_list dig_proof) "proofs" (proofs i);
   field (dig_option dig_input_rules) "input_rules" (input_rules i)]).
Definition dig_tx_prefix : Digestible TxPrefix := derive_struct "TxPrefix" (λ p,
  [field (dig_list dig_tx_in) "inputs" (inputs p); field (dig_list dig_tx_out) "outputs" (Tx.outputs p);
   field dig_u64 "fee" (fee p); field dig_u64 "tombstone_block" (tombstone_block p);
   field_omit_when dig_u64 "fee_token_id" 0 (fee_token_id p)]).

Definition dig_mlsag : Digestible RingMLSAG := derive_struct "RingMLSAG" (λ s,
  [field dig_scalar "c_zero" (c_zero s); field (dig_list dig_scalar) "responses" (responses s);
   field dig_ristretto "key_image" (key_image s)]).
Definition dig_signature : Digestible SignatureRctBulletproofs := derive_struct "SignatureRctBulletproofs" (λ s,
  [field (dig_list dig_mlsag) "ring_signatures" (ring_signatures s);
   field (dig_list dig_ristretto) "pseudo_output_commitments" (pseudo_output_commitments s);
   field_never_omit dig_bytes "range_proof_bytes" (range_proof_bytes s);
   field (dig_list dig_bytes) "range_proofs" (range_proofs s);
   field (dig_list dig_u64) "pseudo_output_token_ids" (pseudo_output_token_ids s);
   field (dig_list dig_u64) "output_token_ids" (output_token_ids s)]).
Definition dig_tx : Digestible Tx := derive_struct "Tx" (λ t,
  [field dig_tx_prefix "prefix" (prefix t); field dig_signature "signature" (signature t);
   field dig_bytes "fee_map_digest" (fee_map_digest t)]).

Definition dig_tx_out_summary : Digestible TxOutSummary := derive_struct "TxOutSummary" (λ o,
  [field (dig_option dig_masked_amount) "masked_amount" (sum_masked_amount o);
   field dig_ristretto "target_key" (sum_target_key o); field dig_ristretto "public_key" (sum_public_key o);
   field dig_bool "associated_to_input_rules" (associated_to_input_rules o)]).
Definition dig_tx_in_summary : Digestible TxInSummary := derive_struct "TxInSummary" (λ i,
  [field dig_ristretto "pseudo_output_commitment" (pseudo_output_commitment i);
   field dig_bytes "input_rules_digest" (input_rules_digest i)]).
Definition dig_tx_summary : Digestible TxSummary := derive_struct "TxSummary" (λ s,
  [field (dig_list dig_tx_out_summary) "outputs" (sum_outputs s); field (dig_list dig_tx_in_summary) "inputs" (sum_inputs s);
   field dig_u64 "fee" (sum_fee s); field dig_u64 "fee_token_id" (sum_fee_token_id s);
   field dig_u64 "tombstone_block" (sum_tombstone_block s)]).

(** ** The types of blocks *)

(** [Ed25519Public] is a tuple struct. *)
Definition dig_ed25519_public : Digestible bytes32 := derive_struct "Ed25519Public" (λ k, [field dig_ed25519 "0" k]).

(** [SignerSet] is recursive. *)
Fixpoint append_signer_set (context : string) (s : SignerSet bytes32) {struct s} : Transcript :=
  match s with
  | mkSignerSet individual_signers multi_signers threshold =>
      append_agg_header context "SignerSet" ++
      concat [field (dig_list dig_ed25519_public) "signers" individual_signers;
              append_seq_allow_omit (append_signer_set "") "multi_signers" multi_signers;
              field dig_u32 "threshold" threshold] ++
      append_agg_closer context "SignerSet"
  end.
Definition dig_signer_set : Digestible (SignerSet bytes32) := never_omitted append_signer_set.
Definition dig_multi_sig : Digestible (MultiSig (vec byte 64)) := derive_struct "MultiSig" (λ m,
  [field (dig_list dig_ed25519_signature) "signatures" (signatures m)]).

Definition dig_mint_config : Digestible MintConfig := derive_struct "MintConfig" (λ c,
  [field dig_u64 "token_id" (config_token_id c); field dig_signer_set "signer_set" (config_signer_set c);
   field dig_u64 "mint_limit" (mint_limit c)]).
Definition dig_mint_config_tx_prefix : Digestible MintConfigTxPrefix := derive_struct "MintConfigTxPrefix" (λ p,
  [field dig_u64 "token_id" (mct_token_id p); field (dig_list dig_mint_config) "configs" (mct_configs p);
   field dig_bytes "nonce" (mct_nonce p); field dig_u64 "tombstone_block" (mct_tombstone_block p);
   field dig_u64 "total_mint_limit" (total_mint_limit p)]).
Definition dig_mint_config_tx : Digestible MintConfigTx := derive_struct "MintConfigTx" (λ t,
  [field dig_mint_config_tx_prefix "prefix" (mct_prefix t); field dig_multi_sig "signature" (mct_signature t)]).
Definition dig_validated_mint_config_tx : Digestible ValidatedMintConfigTx := derive_struct "ValidatedMintConfigTx" (λ t,
  [field dig_mint_config_tx "mint_config_tx" (mint_config_tx t); field dig_signer_set "signer_set" (validated_signer_set t)]).
Definition dig_mint_tx_prefix : Digestible MintTxPrefix := derive_struct "MintTxPrefix" (λ p,
  [field dig_u64 "token_id" (mint_token_id p); field dig_u64 "amount" (mint_amount p);
   field dig_ristretto "view_public_key" (Mint.view_public_key p);
   field dig_ristretto "spend_public_key" (Mint.spend_public_key p);
   field dig_bytes "nonce" (mint_nonce p); field dig_u64 "tombstone_block" (mint_tombstone_block p);
   field (dig_option dig_bytes) "e_fog_hint" (mint_e_fog_hint p)]).
Definition dig_mint_tx : Digestible MintTx := derive_struct "MintTx" (λ t,
  [field dig_mint_tx_prefix "prefix" (mint_prefix t); field dig_multi_sig "signature" (mint_signature t)]).

Definition dig_block_contents : Digestible BlockContents := derive_struct "BlockContents" (λ c,
  [field (dig_list dig_ristretto) "key_images" (Block.key_images c); field (dig_list dig_tx_out) "outputs" (Block.outputs c);
   field (dig_list dig_validated_mint_config_tx) "validated_mint_config_txs" (validated_mint_config_txs c);
   field (dig_list dig_mint_tx) "mint_txs" (mint_txs c)]).

(** ** The digests *)

(** The Merlin digest of an input. *)
Class TxInDigest : Type := tx_in_canonical_digest : TxIn → bytes32.

Section digests.
Context `{MR : Merlin}.

Definition Tx_tx_hash (tx : Tx) : bytes32 := digest32 dig_tx "mobilecoin-tx" tx.
Definition TxPrefix_hash (p : TxPrefix) : bytes32 := digest32 dig_tx_prefix "mobilecoin-tx-prefix" p.
Definition TxOut_hash (o : TxOut) : bytes32 := digest32 dig_tx_out "mobilecoin-txout" o.
Definition InputRules_canonical_digest (r : InputRules) : bytes32 := digest32 dig_input_rules "mc-input-rules" r.
Definition MintTxPrefix_hash (p : MintTxPrefix) : bytes32 := digest32 dig_mint_tx_prefix "mc_mint_tx_prefix" p.
Definition MintConfigTxPrefix_hash (p : MintConfigTxPrefix) : bytes32 :=
  digest32 dig_mint_config_tx_prefix "mc_mint_config_tx_prefix" p.
Definition BlockContents_hash (c : BlockContents) : bytes32 := digest32 dig_block_contents "block_contents" c.

(** The transcript of [compute_block_id], with the label of its own. *)
Definition block_id_transcript (version : N) (parent_id : bytes32) (index cumulative_txo_count : N)
    (root_element : TxOutMembershipElement) (contents_hash : bytes32) : Transcript :=
  append_to_transcript dig_u32 "version" version ++
  append_to_transcript dig_array "parent_id" parent_id ++
  append_to_transcript dig_u64 "index" index ++
  append_to_transcript dig_u64 "cumulative_txo_count" cumulative_txo_count ++
  append_to_transcript dig_element "root_element" root_element ++
  append_to_transcript dig_array "contents_hash" contents_hash.

(** The transcripts of [digest_extended_message] and of
    [compute_mlsag_signing_digest]. *)
Definition extended_message_transcript (message : bytes) (pseudo_output_commitments : list CompressedCommitment)
    (range_proof_bytes : bytes) (range_proofs : list bytes) : Transcript :=
  append_to_transcript dig_bytes "message" message ++
  append_to_transcript (dig_list dig_ristretto) "pseudo_output_commitments" pseudo_output_commitments ++
  append_to_transcript_allow_omit dig_bytes "range_proof_bytes" range_proof_bytes ++
  append_to_transcript_allow_omit (dig_list dig_bytes) "range_proofs" range_proofs.
Definition message_and_summary_transcript (extended_message : bytes) (tx_summary : TxSummary) : Transcript :=
  append_to_transcript dig_bytes "extended_message" extended_message ++
  append_to_transcript dig_tx_summary "tx_summary" tx_summary.

(** The classes of digests of the other files. *)
#[export] Instance merlin_block_digests : BlockDigests := {|
  contents_digest := BlockContents_hash;
  compute_block_id := λ version parent_id index cumulative_txo_count root_element contents_hash,
    merlin_digest "mobilecoin-block-id"
      (block_id_transcript version parent_id index cumulative_txo_count root_element contents_hash)
|}.
#[export] Instance merlin_mint_digests : MintDigests := {|
  mint_config_tx_hash := MintConfigTxPrefix_hash;
  mint_tx_hash := MintTxPrefix_hash
|}.
#[export] Instance merlin_tx_in_digest : TxInDigest := digest32 dig_tx_in "mc-input-rules-digest".
#[export] Instance merlin_rct_digests : RctDigests := {|
  tx_prefix_hash := TxPrefix_hash;
  input_rules_canonical_digest := InputRules_canonical_digest;
  digest_extended_message := λ message commitments range_proof_bytes range_proofs,
    merlin_digest "mc_extended_message" (extended_message_transcript message commitments range_proof_bytes range_proofs);
  digest_message_and_summary := λ extended_message tx_summary,
    merlin_digest "mc_extended_message_and_tx_summary" (message_and_summary_transcript extended_message tx_summary)
|}.
End digests.
