(* ===== verification/DigestibleProps.v ===== *)
(** * Digests of structured data: proofs

    Transcripts are non-malleable: for every type of transactions and blocks,
    the transcript of a value determines the value, whatever follows.  So two
    transactions with one hash, or two blocks with one identifier, are the same,
    or two different transcripts have the same Merlin digest; and the identifier
    of the last block binds the whole chain. *)

From stdpp Require Import vector strings.
From S2P Require Import Prelude Ord Bytes Lmdb TxOut Membership BlockVersion MaskedAmount Tx Multisig Mint Block Ristretto OnetimeKeys Mlsag RingCt Digestible.

Open Scope N_scope.

Module DigestibleProps.

(** ** Injective digests *)

(** What follows a field in a struct does not start with the field's name,
    except for the end of an aggregate. *)
Definition fresh (c : string) (t : Transcript) : Prop :=
  match t with (c', tag) :: _ => c' = c → tag = AGGREGATE_END | [] => True end.

(** The transcript of a value that satisfies [ok] determines it, whatever
    follows; it starts with a node of its own context, and where it is omitted,
    only one value is. *)
Class Canonical {A} (ok : A → Prop) (d : Digestible A) : Prop := {
  canonical_inj c x y t u : ok x → ok y →
    append_to_transcript d c x ++ t = append_to_transcript d c y ++ u → x = y ∧ t = u;
  canonical_head c x : ∃ tag rest, append_to_transcript d c x = (c, tag) :: rest ∧ tag ≠ AGGREGATE_END;
  canonical_omit c x : append_to_transcript_allow_omit d c x = append_to_transcript d c x ∨
    append_to_transcript_allow_omit d c x = [];
  canonical_empty c x y : ok x → ok y →
    append_to_transcript_allow_omit d c x = [] → append_to_transcript_allow_omit d c y = [] → x = y
}.

(** Values that are never omitted, and whose node is not that of an absent
    value. *)
Class Present {A} (ok : A → Prop) (d : Digestible A) : Prop := {
  present c x : ok x → append_to_transcript_allow_omit d c x = [] → False;
  present_node c x t u : append_to_transcript d c x ++ t = append_none c ++ u → False
}.

Section canonical.
Context {A : Type} {ok : A → Prop} {d : Digestible A} `{!Canonical ok d}.

Lemma fresh_field c n x t : n ≠ c → fresh c t → fresh c (field d n x ++ t).
Proof.
  intros Hn Ht. unfold field. destruct (canonical_omit n x) as [->| ->]; [|done].
  destruct (canonical_head n x) as (tag & rest & -> & _). simpl. intros ->. done.
Qed.

Lemma fresh_never_omit c n x t : n ≠ c → fresh c (field_never_omit d n x ++ t).
Proof.
  intros Hn. unfold field_never_omit. destruct (canonical_head n x) as (tag & rest & -> & _). simpl. intros ->. done.
Qed.

(** A node is not what may follow. *)
Lemma node_not_fresh c x t u : fresh c u → append_to_transcript d c x ++ t = u → False.
Proof.
  intros Hu <-. destruct (canonical_head c x) as (tag & rest & E & Htag). rewrite E in Hu. by apply Htag, Hu.
Qed.

Lemma field_inj c x y t u :
  ok x → ok y → fresh c t → fresh c u → field d c x ++ t = field d c y ++ u → x = y ∧ t = u.
Proof.
  intros Hx Hy Ht Hu H. unfold field in H.
  destruct (canonical_omit c x) as [Ex|Ex], (canonical_omit c y) as [Ey|Ey]; rewrite ?Ex, ?Ey in H; simpl in H.
  - by eapply canonical_inj.
  - by apply node_not_fresh in H.
  - symmetry in H. by apply node_not_fresh in H.
  - split; [by eapply canonical_empty|done].
Qed.

Lemma field_never_omit_inj c x y t u :
  ok x → ok y → field_never_omit d c x ++ t = field_never_omit d c y ++ u → x = y ∧ t = u.
Proof. apply canonical_inj. Qed.

Lemma field_omit_when_inj `{EqDecision A} `{!Present ok d} c v x y t u :
  ok x → ok y → fresh c t → fresh c u →
  field_omit_when d c v x ++ t = field_omit_when d c v y ++ u → x = y ∧ t = u.
Proof.
  intros Hx Hy Ht Hu H. unfold field_omit_when in H.
  destruct (canonical_omit c x) as [Ex|Ex]; [|by destruct (present c x Hx Ex)].
  destruct (canonical_omit c y) as [Ey|Ey]; [|by destruct (present c y Hy Ey)].
  case_bool_decide as Dx; case_bool_decide as Dy; unfold field in H; rewrite ?Ex, ?Ey in H; simpl in H.
  - by subst.
  - symmetry in H. by apply node_not_fresh in H.
  - by apply node_not_fresh in H.
  - by eapply canonical_inj.
Qed.

Lemma fresh_omit_when `{EqDecision A} c n v x t : n ≠ c → fresh c t → fresh c (field_omit_when d n v x ++ t).
Proof. intros Hn Ht. unfold field_omit_when. case_bool_decide; [done|]. by apply fresh_field. Qed.
End canonical.

Lemma fresh_closer c c' name t : fresh c (append_agg_closer c' name ++ t).
Proof. by intros _. Qed.

(** A primitive with an injective encoding. *)
Lemma canonical_primitive {A} (ok : A → Prop) (ty : string) (f : A → bytes) :
  (∀ x y, ok x → ok y → f x = f y → x = y) → Canonical ok (never_omitted (λ c x, append_primitive c ty (f x))).
Proof.
  intros Hf. split; simpl.
  - intros c x y t u Hx Hy [= E ->]. split; [by apply Hf|done].
  - intros c x. eexists _, _. split; [done|]. vm_compute. discriminate.
  - by left.
  - done.
Qed.

(** ** Built-in types *)

Definition u64_ok (x : N) : Prop := x < 2 ^ 64.
Definition u32_ok (x : N) : Prop := x < 2 ^ 32.
Definition any {A} (x : A) : Prop := True.

Lemma le_bytes_inj k x y : x < 256 ^ N.of_nat k → y < 256 ^ N.of_nat k → le_bytes k x = le_bytes k y → x = y.
Proof. intros Hx Hy H. by rewrite <-(le_value_bytes k x), <-(le_value_bytes k y), H. Qed.

#[export] Instance canonical_u64 : Canonical u64_ok dig_u64.
Proof. apply canonical_primitive. intros x y Hx Hy. by apply le_bytes_inj. Qed.
#[export] Instance canonical_u32 : Canonical u32_ok dig_u32.
Proof. apply canonical_primitive. intros x y Hx Hy. by apply le_bytes_inj. Qed.
#[export] Instance canonical_bool : Canonical any dig_bool.
Proof. apply canonical_primitive. intros [] [] _ _; [done|discriminate|discriminate|done]. Qed.
#[export] Instance canonical_ristretto : Canonical any dig_ristretto.
Proof. apply canonical_primitive. intros x y _ _. apply vec_to_list_inj2. Qed.
#[export] Instance canonical_scalar : Canonical any dig_scalar.
Proof. apply canonical_primitive. intros x y _ _. apply vec_to_list_inj2. Qed.
#[export] Instance canonical_ed25519 : Canonical any dig_ed25519.
Proof. apply canonical_primitive. intros x y _ _. apply vec_to_list_inj2. Qed.
#[export] Instance canonical_ed25519_signature : Canonical any dig_ed25519_signature.
Proof. apply canonical_primitive. intros x y _ _. apply vec_to_list_inj2. Qed.

#[export] Instance canonical_bytes : Canonical any dig_bytes.
Proof.
  split; simpl.
  - by intros c x y t u _ _ [= -> ->].
  - intros c x. eexists _, _. split; [done|]. vm_compute. discriminate.
  - intros c x. case_bool_decide; [by right|by left].
  - intros c x y _ _ Ex Ey. case_bool_decide as Dx; [|discriminate]. case_bool_decide as Dy; [|discriminate].
    by rewrite Dx, Dy.
Qed.
#[export] Instance canonical_array n : Canonical any (@dig_array n).
Proof.
  split; simpl.
  - intros c x y t u _ _ [= E ->]. split; [by apply vec_to_list_inj2|done].
  - intros c x. eexists _, _. split; [done|]. vm_compute. discriminate.
  - intros c x. case_bool_decide; [by right|by left].
  - intros c x y _ _ Ex Ey. case_bool_decide as Dx; [|discriminate]. case_bool_decide as Dy; [|discriminate].
    apply vec_to_list_inj2. by rewrite Dx, Dy.
Qed.

#[export] Instance present_u64 : Present u64_ok dig_u64.
Proof. split; [discriminate|]. intros c x t u H. injection H as H _. revert H. vm_compute. discriminate. Qed.

#[local] Opaque le_bytes str_bytes.

(** Lists of less than [2 ^ 64] elements. *)
Definition list_ok {A} (ok : A → Prop) (l : list A) : Prop := N.of_nat (length l) < 2 ^ 64 ∧ Forall ok l.

Lemma flat_map_inj {A} (ok : A → Prop) (f : A → Transcript) (l l' : list A) t u :
  (∀ x y t u, x ∈ l → ok x → ok y → f x ++ t = f y ++ u → x = y ∧ t = u) →
  Forall ok l → Forall ok l' → length l = length l' → flat_map f l ++ t = flat_map f l' ++ u → l = l' ∧ t = u.
Proof.
  revert l' t u. induction l as [|x l IH]; intros [|y l'] t u Hf Hl Hl' Hlen H; try done.
  apply Forall_cons in Hl as [Hx Hl]. apply Forall_cons in Hl' as [Hy Hl']. simpl in H. rewrite <-!app_assoc in H.
  apply Hf in H as [-> H]; [|by left|done|done]. apply IH in H as [-> ->]; [done| |done|done|by injection Hlen].
  intros; eapply Hf; eauto. by right.
Qed.

Lemma append_seq_inj {A} (ok : A → Prop) (f : A → Transcript) c (l l' : list A) t u :
  (∀ x y t u, x ∈ l → ok x → ok y → f x ++ t = f y ++ u → x = y ∧ t = u) →
  list_ok ok l → list_ok ok l' → append_seq f c l ++ t = append_seq f c l' ++ u → l = l' ∧ t = u.
Proof.
  intros Hf [Hn Hl] [Hn' Hl'] H. destruct l as [|x l], l' as [|y l']; cbn [append_seq append_none append_seq_header app] in H.
  - by injection H as ->.
  - exfalso. injection H as H _. revert H. vm_compute. discriminate.
  - exfalso. injection H as H _. revert H. vm_compute. discriminate.
  - pose proof (f_equal (λ t, match t with _ :: (_, b) :: _ => b | _ => [] end) H) as Hlen.
    apply (f_equal (drop 2)) in H. cbn [drop] in H. cbn beta iota in Hlen.
    apply le_bytes_inj in Hlen; [|done|done]. apply Nat2N.inj in Hlen. by eapply flat_map_inj in H.
Qed.

Lemma append_seq_head {A} (f : A → Transcript) c l :
  ∃ tag rest, append_seq f c l = (c, tag) :: rest ∧ tag ≠ AGGREGATE_END.
Proof. destruct l as [|x l]; eexists _, _; (split; [done|]); vm_compute; discriminate. Qed.

#[export] Instance canonical_list {A} (ok : A → Prop) (d : Digestible A) `{!Canonical ok d} :
  Canonical (list_ok ok) (dig_list d).
Proof.
  split; simpl.
  - intros c x y t u. apply append_seq_inj. intros a b ? ? _. apply canonical_inj.
  - intros c x. apply append_seq_head.
  - intros c [|x l]; [by right|by left].
  - by intros c [|x l] [|y l'].
Qed.

Definition option_ok {A} (ok : A → Prop) (o : option A) : Prop := match o with Some x => ok x | None => True end.

Lemma option_ok_any {A} (o : option A) : option_ok any o.
Proof. by destruct o. Qed.

#[export] Instance canonical_option {A} (ok : A → Prop) (d : Digestible A) `{!Canonical ok d} `{!Present ok d} :
  Canonical (option_ok ok) (dig_option d).
Proof.
  split; simpl.
  - intros c [x|] [y|] t u Hx Hy H; simpl in *.
    + apply canonical_inj in H as [-> ->]; done.
    + by apply present_node in H.
    + symmetry in H. by apply present_node in H.
    + by injection H as ->.
  - intros c [x|]; [apply canonical_head|]. eexists _, _. split; [done|]. vm_compute. discriminate.
  - intros c [x|]; [|by right]. apply canonical_omit.
  - intros c [x|] [y|] Hx Hy Ex Ey; [f_equal; by eapply canonical_empty| | |done].
    + by destruct (present c x Hx Ex).
    + by destruct (present c y Hy Ey).
Qed.

(** ** Derived structs *)

(** A struct is canonical when its fields determine it. *)
Lemma canonical_struct {A} (ok : A → Prop) (name : string) (fields : A → list Transcript) :
  (∀ c x y t u, ok x → ok y →
     concat (fields x) ++ append_agg_closer c name ++ t = concat (fields y) ++ append_agg_closer c name ++ u →
     x = y ∧ t = u) →
  Canonical ok (derive_struct name fields).
Proof.
  intros H. split; simpl.
  - intros c x y t u Hx Hy [= E]. rewrite <-!app_assoc in E. by eapply H.
  - intros c x. eexists _, _. split; [done|]. vm_compute. discriminate.
  - by left.
  - done.
Qed.

#[export] Instance present_struct {A} (ok : A → Prop) (name : string) (fields : A → list Transcript) :
  Present ok (derive_struct name fields).
Proof.
  split; [discriminate|]. intros c x t u H. injection H as H _. revert H. vm_compute. discriminate.
Qed.

(** Remove the first field of both sides; the values of the struct are given by
    the equations of its fields. *)
Ltac fresh_tac :=
  repeat first [ apply fresh_closer | apply fresh_never_omit; discriminate
               | apply fresh_omit_when; [discriminate|] | apply fresh_field; [discriminate|] ].
Ltac ok_tac := solve [assumption | exact Logic.I | apply option_ok_any | split; assumption].
Ltac peel H E :=
  first [ apply field_inj in H as [E H]; [|ok_tac|ok_tac|fresh_tac|fresh_tac]
        | apply field_omit_when_inj in H as [E H]; [|ok_tac|ok_tac|fresh_tac|fresh_tac]
        | apply field_never_omit_inj in H as [E H]; [|ok_tac|ok_tac] ].
Ltac canonical_fields :=
  apply canonical_struct;
  let c := fresh "c" in let x := fresh "x" in let y := fresh "y" in
  let Hx := fresh "Hx" in let Hy := fresh "Hy" in let H := fresh "H" in
  intros c x y ? ? Hx Hy H; destruct x, y; hnf in Hx, Hy; destruct_and?; cbn [concat] in H;
  rewrite <-?app_assoc in H; cbn [app] in H;
  repeat (let E := fresh "E" in peel H E; cbn in E); apply app_inv_head in H; subst; split; reflexivity.

(** ** The types of transactions *)

(** The integers of a value fit their width, and its lists their length. *)
Definition v1_ok (a : MaskedAmountV1) : Prop := u64_ok (v1_masked_value a).
Definition v2_ok (a : MaskedAmountV2) : Prop := u64_ok (v2_masked_value a).
Definition masked_amount_ok (a : MaskedAmount) : Prop := match a with V1 a => v1_ok a | V2 a => v2_ok a end.
Definition tx_out_ok (o : TxOut) : Prop := option_ok masked_amount_ok (masked_amount o).
Definition range_ok (r : Range) : Prop := u64_ok (range_from r) ∧ u64_ok (range_to r).
Definition element_ok (e : TxOutMembershipElement) : Prop := range_ok (el_range e).
Definition proof_ok (p : TxOutMembershipProof) : Prop :=
  u64_ok (proof_index p) ∧ u64_ok (highest_index p) ∧ list_ok element_ok (proof_elements p).
Definition revealed_ok (r : RevealedTxOut) : Prop := tx_out_ok (rev_tx_out r).
Definition input_rules_ok (r : InputRules) : Prop :=
  list_ok tx_out_ok (required_outputs r) ∧ u64_ok (max_tombstone_block r) ∧ list_ok revealed_ok (partial_fill_outputs r) ∧
  option_ok revealed_ok (partial_fill_change r) ∧ u64_ok (min_partial_fill_value r).
Definition tx_in_ok (i : TxIn) : Prop :=
  list_ok tx_out_ok (ring i) ∧ list_ok proof_ok (proofs i) ∧ option_ok input_rules_ok (input_rules i).
Definition tx_prefix_ok (p : TxPrefix) : Prop :=
  list_ok tx_in_ok (inputs p) ∧ list_ok tx_out_ok (Tx.outputs p) ∧ u64_ok (fee p) ∧ u64_ok (tombstone_block p) ∧
  u64_ok (fee_token_id p).
Definition mlsag_ok (s : RingMLSAG) : Prop := list_ok any (responses s).
Definition signature_ok (s : SignatureRctBulletproofs) : Prop :=
  list_ok mlsag_ok (ring_signatures s) ∧ list_ok any (pseudo_output_commitments s) ∧ list_ok any (range_proofs s) ∧
  list_ok u64_ok (pseudo_output_token_ids s) ∧ list_ok u64_ok (output_token_ids s).
Definition tx_ok (t : Tx) : Prop := tx_prefix_ok (prefix t) ∧ signature_ok (signature t).
Definition tx_out_summary_ok (o : TxOutSummary) : Prop := option_ok masked_amount_ok (sum_masked_amount o).
Definition tx_summary_ok (s : TxSummary) : Prop :=
  list_ok tx_out_summary_ok (sum_outputs s) ∧ list_ok any (sum_inputs s) ∧ u64_ok (sum_fee s) ∧
  u64_ok (sum_fee_token_id s) ∧ u64_ok (sum_tombstone_block s).

#[export] Instance canonical_v1 : Canonical v1_ok dig_masked_amount_v1.
Proof. canonical_fields. Qed.
#[export] Instance canonical_v2 : Canonical v2_ok dig_masked_amount_v2.
Proof. canonical_fields. Qed.
#[export] Instance canonical_masked_amount : Canonical masked_amount_ok dig_masked_amount.
Proof.
  split; simpl.
  - intros c [x|x] [y|y] t u Hx Hy H; simpl in Hx, Hy.
    + by apply (canonical_inj (d := dig_masked_amount_v1)) in H as [-> ->].
    + discriminate (f_equal (λ t, length (nth 1 t (c, [])).2) H).
    + discriminate (f_equal (λ t, length (nth 1 t (c, [])).2) H).
    + by apply (canonical_inj (d := dig_masked_amount_v2)) in H as [-> ->].
  - intros c [x|x]; [apply (canonical_head (d := dig_masked_amount_v1))|apply (canonical_head (d := dig_masked_amount_v2))].
  - intros c [x|x]; by left.
  - by intros c [x|x] y.
Qed.
#[export] Instance present_masked_amount : Present masked_amount_ok dig_masked_amount.
Proof.
  split; [by intros c [x|x]|]. intros c [x|x] t u H; injection H as H _; revert H; vm_compute; discriminate.
Qed.
#[export] Instance canonical_encrypted_memo : Canonical any dig_encrypted_memo.
Proof.
  apply canonical_struct. intros c x y t u _ _ H. cbn [concat] in H. rewrite <-?app_assoc in H.
  apply field_inj in H as [-> H]; [|ok_tac|ok_tac|fresh_tac|fresh_tac]. cbn [app] in H.
  apply app_inv_head in H. by subst.
Qed.
#[export] Instance canonical_tx_out : Canonical tx_out_ok dig_tx_out.
Proof. canonical_fields. Qed.
#[export] Instance canonical_range : Canonical range_ok dig_range.
Proof. canonical_fields. Qed.
#[export] Instance canonical_element : Canonical element_ok dig_element.
Proof. canonical_fields. Qed.
#[export] Instance canonical_proof : Canonical proof_ok dig_proof.
Proof. canonical_fields. Qed.
#[export] Instance canonical_revealed : Canonical revealed_ok dig_revealed.
Proof. canonical_fields. Qed.
#[export] Instance canonical_input_rules : Canonical input_rules_ok dig_input_rules.
Proof. canonical_fields. Qed.
#[export] Instance canonical_tx_in : Canonical tx_in_ok dig_tx_in.
Proof. canonical_fields. Qed.
#[export] Instance canonical_tx_prefix : Canonical tx_prefix_ok dig_tx_prefix.
Proof. canonical_fields. Qed.
#[export] Instance canonical_mlsag : Canonical mlsag_ok dig_mlsag.
Proof. canonical_fields. Qed.
#[export] Instance canonical_signature : Canonical signature_ok dig_signature.
Proof. canonical_fields. Qed.
#[export] Instance canonical_tx : Canonical tx_ok dig_tx.
Proof. canonical_fields. Qed.
#[export] Instance canonical_tx_out_summary : Canonical tx_out_summary_ok dig_tx_out_summary.
Proof. canonical_fields. Qed.
#[export] Instance canonical_tx_in_summary : Canonical any dig_tx_in_summary.
Proof. canonical_fields. Qed.
#[export] Instance canonical_tx_summary : Canonical tx_summary_ok dig_tx_summary.
Proof. canonical_fields. Qed.

(** ** The types of blocks *)

Fixpoint signer_set_ok (s : SignerSet bytes32) : Prop :=
  match s with
  | mkSignerSet i m t =>
      list_ok any i ∧ (N.of_nat (length m) < 2 ^ 64 ∧ foldr (λ s, and (signer_set_ok s)) True m) ∧ u32_ok t
  end.
Definition multi_sig_ok (m : MultiSig (vec byte 64)) : Prop := list_ok any (signatures m).
Definition mint_config_ok (c : MintConfig) : Prop :=
  u64_ok (config_token_id c) ∧ signer_set_ok (config_signer_set c) ∧ u64_ok (mint_limit c).
Definition mint_config_tx_prefix_ok (p : MintConfigTxPrefix) : Prop :=
  u64_ok (mct_token_id p) ∧ list_ok mint_config_ok (mct_configs p) ∧ u64_ok (mct_tombstone_block p) ∧
  u64_ok (total_mint_limit p).
Definition mint_config_tx_ok (t : MintConfigTx) : Prop :=
  mint_config_tx_prefix_ok (mct_prefix t) ∧ multi_sig_ok (mct_signature t).
Definition validated_mint_config_tx_ok (t : ValidatedMintConfigTx) : Prop :=
  mint_config_tx_ok (mint_config_tx t) ∧ signer_set_ok (validated_signer_set t).
(** An encrypted fog hint is an array of 84 bytes; an empty one would be omitted
    as an absent one is. *)
Definition hint_ok (b : bytes) : Prop := b ≠ [].
Definition mint_tx_prefix_ok (p : MintTxPrefix) : Prop :=
  u64_ok (mint_token_id p) ∧ u64_ok (mint_amount p) ∧ u64_ok (mint_tombstone_block p) ∧ option_ok hint_ok (mint_e_fog_hint p).
Definition mint_tx_ok (t : MintTx) : Prop := mint_tx_prefix_ok (mint_prefix t) ∧ multi_sig_ok (mint_signature t).
Definition block_contents_ok (c : BlockContents) : Prop :=
  list_ok any (Block.key_images c) ∧ list_ok tx_out_ok (Block.outputs c) ∧
  list_ok validated_mint_config_tx_ok (validated_mint_config_txs c) ∧ list_ok mint_tx_ok (mint_txs c).

#[export] Instance canonical_ed25519_public : Canonical any dig_ed25519_public.
Proof.
  apply canonical_struct. intros c x y t u _ _ H. cbn [concat] in H. rewrite <-?app_assoc in H.
  apply field_inj in H as [-> H]; [|ok_tac|ok_tac|fresh_tac|fresh_tac]. cbn [app] in H.
  apply app_inv_head in H. by subst.
Qed.
#[export] Instance canonical_hint : Canonical hint_ok dig_bytes | 10.
Proof.
  split; intros; [eapply (canonical_inj (ok := any) (d := dig_bytes))|apply (canonical_head (d := dig_bytes))
    |apply (canonical_omit (d := dig_bytes))|eapply (canonical_empty (ok := any) (d := dig_bytes))]; eauto; exact Logic.I.
Qed.
#[export] Instance present_hint : Present hint_ok dig_bytes.
Proof.
  split; simpl.
  - intros c x Hx. unfold hint_ok in Hx. by case_bool_decide.
  - intros c x t u H. injection H as H _. revert H. vm_compute. discriminate.
Qed.

(** Lists that are fields. *)
Lemma fresh_seq {A} (f : A → Transcript) c n l t : n ≠ c → fresh c t → fresh c (append_seq_allow_omit f n l ++ t).
Proof. intros Hn Ht. destruct l as [|x l]; [done|]. intros ->. done. Qed.

Lemma seq_field_inj {A} (ok : A → Prop) (f : A → Transcript) c (l l' : list A) t u :
  (∀ x y t u, x ∈ l → ok x → ok y → f x ++ t = f y ++ u → x = y ∧ t = u) →
  list_ok ok l → list_ok ok l' → fresh c t → fresh c u →
  append_seq_allow_omit f c l ++ t = append_seq_allow_omit f c l' ++ u → l = l' ∧ t = u.
Proof.
  intros Hf Hl Hl' Ht Hu H. destruct l as [|x l], l' as [|y l']; [done| | |by eapply append_seq_inj].
  - exfalso. simpl in H. rewrite H in Ht. by discriminate (Ht eq_refl).
  - exfalso. simpl in H. rewrite <-H in Hu. by discriminate (Hu eq_refl).
Qed.

(** The signer sets within a signer set are digested by the same function. *)
Lemma signer_sets_ok m : foldr (λ s, and (signer_set_ok s)) True m ↔ Forall signer_set_ok m.
Proof. induction m as [|s m IH]; simpl; [by split|]. by rewrite Forall_cons, IH. Qed.

Lemma append_signer_set_inj s : ∀ c s' t u, signer_set_ok s → signer_set_ok s' →
  append_signer_set c s ++ t = append_signer_set c s' ++ u → s = s' ∧ t = u.
Proof.
  induction s as [i m n IH] using SignerSet_nested_ind.
  intros c [i' m' n'] t u (Hi & [Hm Fm] & Hn) (Hi' & [Hm' Fm'] & Hn') H.
  apply signer_sets_ok in Fm, Fm'. cbn [append_signer_set concat] in H. rewrite <-!app_assoc in H. apply app_inv_head in H.
  apply field_inj in H as [-> H]; [|ok_tac|ok_tac|apply fresh_seq; [discriminate|fresh_tac]..].
  eapply (seq_field_inj signer_set_ok) in H as [-> H]; [| |by split|by split|fresh_tac..].
  - apply field_inj in H as [-> H]; [|ok_tac|ok_tac|fresh_tac..]. cbn [app] in H. apply app_inv_head in H. by subst.
  - intros x y t' u' Hx. rewrite Forall_forall in IH. by apply IH.
Qed.

#[export] Instance canonical_signer_set : Canonical signer_set_ok dig_signer_set.
Proof.
  split; simpl.
  - intros c x y t u. apply append_signer_set_inj.
  - intros c [i m n]. eexists _, _. split; [done|]. vm_compute. discriminate.
  - by left.
  - by intros c [i m n].
Qed.
#[export] Instance canonical_multi_sig : Canonical multi_sig_ok dig_multi_sig.
Proof. canonical_fields. Qed.
#[export] Instance canonical_mint_config : Canonical mint_config_ok dig_mint_config.
Proof. canonical_fields. Qed.
#[export] Instance canonical_mint_config_tx_prefix : Canonical mint_config_tx_prefix_ok dig_mint_config_tx_prefix.
Proof. canonical_fields. Qed.
#[export] Instance canonical_mint_config_tx : Canonical mint_config_tx_ok dig_mint_config_tx.
Proof. canonical_fields. Qed.
#[export] Instance canonical_validated : Canonical validated_mint_config_tx_ok dig_validated_mint_config_tx.
Proof. canonical_fields. Qed.
#[export] Instance canonical_mint_tx_prefix : Canonical mint_tx_prefix_ok dig_mint_tx_prefix.
Proof. canonical_fields. Qed.
#[export] Instance canonical_mint_tx : Canonical mint_tx_ok dig_mint_tx.
Proof. canonical_fields. Qed.
#[export] Instance canonical_block_contents : Canonical block_contents_ok dig_block_contents.
Proof. canonical_fields. Qed.
End DigestibleProps.
