(* ===== verification/ChainBinding.v ===== *)
(** * What a block identifier binds

    The identifier of a block is a Merlin digest of its fields, its parent's
    identifier and the digest of its contents.  Because the transcripts are
    canonical ([DigestibleProps]), the identifier of the last block of a ledger
    determines every block and all contents, unless two of the transcripts that
    were digested for the blocks collide; and a signature over a transaction
    binds the transaction in the same way. *)

From stdpp Require Import vector strings.
From S2P Require Import Prelude Ord Bytes Lmdb TxOut Membership MerkleTree TxOutStore TxOutStoreProps BlockVersion MaskedAmount Tx Multisig Mint MintStore Block LedgerDb LedgerFrame Ristretto OnetimeKeys Mlsag RingCt MintStoreProps LedgerProps LedgerAccept Digestible DigestibleProps.

Open Scope N_scope.

Module ChainBinding.
Import LedgerProps.LedgerProps DigestibleProps.DigestibleProps.

(** ** Collisions *)

Section collisions.
Context `{MR : Merlin}.

(** Two of the labelled transcripts [l] differ and have one digest. *)
Definition collision (l : list (string * Transcript)) : Prop :=
  ∃ s t, s ∈ l ∧ t ∈ l ∧ s ≠ t ∧ merlin_digest s.1 s.2 = merlin_digest t.1 t.2.

Lemma collision_subset l l' : l ⊆ l' → collision l → collision l'.
Proof. intros Hl (s & t & Hs & Ht & H). exists s, t. split_and!; [by apply Hl..| |]; apply H. Qed.

Lemma same_or_collision s t l :
  s ∈ l → t ∈ l → merlin_digest s.1 s.2 = merlin_digest t.1 t.2 → s = t ∨ collision l.
Proof. intros Hs Ht E. destruct (decide (s = t)) as [|N]; [by left|right]. by exists s, t. Qed.

(** A transcript with nothing after it. *)
Lemma transcript_inj {A} (ok : A → Prop) (d : Digestible A) `{!Canonical ok d} c x y :
  ok x → ok y → append_to_transcript d c x = append_to_transcript d c y → x = y.
Proof. intros Hx Hy H. by apply (f_equal (λ t, t ++ [])) in H; apply canonical_inj in H as [-> _]. Qed.

(** ** Blocks *)

(** What is digested for a block. *)
Definition id_transcript {Sig Meta} (d : BlockData Sig Meta) : string * Transcript :=
  let b := bd_block d in
  ("mobilecoin-block-id"%string,
   block_id_transcript (version b) (parent_id b) (index b) (cumulative_txo_count b) (root_element b) (contents_hash b)).
Definition contents_transcript {Sig Meta} (d : BlockData Sig Meta) : string * Transcript :=
  ("digestible"%string, append_to_transcript dig_block_contents "block_contents" (bd_contents d)).
Definition block_transcripts {Sig Meta} (d : BlockData Sig Meta) : list (string * Transcript) :=
  [id_transcript d; contents_transcript d].

(** The integers of the block fit their width. *)
Definition block_data_ok {Sig Meta} (d : BlockData Sig Meta) : Prop :=
  u64_ok (cumulative_txo_count (bd_block d)) ∧ element_ok (root_element (bd_block d)) ∧
  block_contents_ok (bd_contents d).

Lemma block_id_transcript_inj v p i n r h v' p' i' n' r' h' :
  u32_ok v → u32_ok v' → u64_ok i → u64_ok i' → u64_ok n → u64_ok n' → element_ok r → element_ok r' →
  block_id_transcript v p i n r h = block_id_transcript v' p' i' n' r' h' →
  v = v' ∧ p = p' ∧ i = i' ∧ n = n' ∧ r = r' ∧ h = h'.
Proof.
  intros Hv Hv' Hi Hi' Hn Hn' Hr Hr' H. unfold block_id_transcript in H.
  apply (canonical_inj (d := dig_u32)) in H as [-> H]; [|done|done].
  apply (canonical_inj (d := dig_array)) in H as [-> H]; [|done|done].
  apply (canonical_inj (d := dig_u64)) in H as [-> H]; [|done|done].
  apply (canonical_inj (d := dig_u64)) in H as [-> H]; [|done|done].
  apply (canonical_inj (d := dig_element)) in H as [-> H]; [|done|done].
  by apply (transcript_inj any dig_array) in H as ->.
Qed.

Context {Sig Meta : Type}.
Notation BlockData := (BlockData Sig Meta).
Implicit Types (d : BlockData) (chain : list BlockData).

Lemma version_ok chain d : valid_next chain d → u32_ok (version (bd_block d)).
Proof. intros [_ _ _ Hv _ _ _ _ _ _ _]. eapply N.le_lt_trans; [exact Hv|by vm_compute]. Qed.

(** The identifier of a block binds the block and its contents. *)
Lemma id_binds_block chain chain' d d' l :
  valid_next chain d → valid_next chain' d' → len chain < u64_modulus → len chain' < u64_modulus →
  block_data_ok d → block_data_ok d' → block_transcripts d ⊆ l → block_transcripts d' ⊆ l →
  id (bd_block d) = id (bd_block d') → (bd_block d = bd_block d' ∧ bd_contents d = bd_contents d') ∨ collision l.
Proof.
  intros Hv Hv' Hl Hl' (Hn & Hr & Hc) (Hn' & Hr' & Hc') Hs Hs' Hid.
  pose proof (version_ok _ _ Hv) as Hver. pose proof (version_ok _ _ Hv') as Hver'.
  destruct Hv as [_ _ Hi _ _ _ _ Eh _ Eid _], Hv' as [_ _ Hi' _ _ _ _ Eh' _ Eid' _].
  apply bool_decide_eq_true in Eid, Eid'.
  destruct (same_or_collision (id_transcript d) (id_transcript d') l) as [E|?];
    [apply Hs; by left|apply Hs'; by left|by rewrite Eid, Eid' in Hid| |by right].
  apply (f_equal snd) in E. apply block_id_transcript_inj in E as (E1 & E2 & E3 & E4 & E5 & E6);
    [|done|done|by rewrite Hi|by rewrite Hi'|done..].
  destruct (same_or_collision (contents_transcript d) (contents_transcript d') l) as [E|?];
    [apply Hs; by right; left|apply Hs'; by right; left|by rewrite Eh, Eh' in E6| |by right].
  left. apply (f_equal snd) in E. cbn [snd contents_transcript] in E.
  apply (transcript_inj block_contents_ok dig_block_contents) in E; [|exact Hc|exact Hc'].
  split; [|exact E]. clear -Hid E1 E2 E3 E4 E5 E6. destruct (bd_block d), (bd_block d'). cbn in *. congruence.
Qed.

(** Each block of the chain follows those before it. *)
Definition valid_chain chain : Prop := ∀ i d, chain !! i = Some d → valid_next (take i chain) d.

Lemma valid_chain_snoc chain d : valid_chain (chain ++ [d]) → valid_chain chain ∧ valid_next chain d.
Proof.
  intros H. split.
  - intros i b Hb. specialize (H i b). rewrite take_app_le in H by (apply lookup_lt_Some in Hb; lia).
    apply H. by apply lookup_app_l_Some.
  - specialize (H (length chain) d). rewrite take_app_length in H. apply H. by rewrite list_lookup_middle.
Qed.

Definition content_of d : Block * BlockContents := (bd_block d, bd_contents d).

Lemma last_id_binds chain : ∀ chain' d d' l,
  valid_chain chain → valid_chain chain' → len chain < u64_modulus → len chain' < u64_modulus →
  Forall block_data_ok chain → Forall block_data_ok chain' →
  (chain ≫= block_transcripts) ⊆ l → (chain' ≫= block_transcripts) ⊆ l →
  last chain = Some d → last chain' = Some d' → id (bd_block d) = id (bd_block d') →
  content_of <$> chain = content_of <$> chain' ∨ collision l.
Proof.
  induction chain as [|e chain IH] using rev_ind; [done|].
  intros chain' d d' l Hv Hv' Hl Hl' Hok Hok' Hs Hs' Hlast Hlast' Hid.
  apply last_Some in Hlast' as [c' ->]. rewrite last_snoc in Hlast. injection Hlast as ->.
  apply valid_chain_snoc in Hv as [Hv Hd], Hv' as [Hv' Hd'].
  rewrite Forall_app, Forall_singleton in Hok, Hok'. destruct Hok as [Hok Hokd], Hok' as [Hok' Hokd'].
  rewrite bind_app, bind_singleton in Hs, Hs'. rewrite len_app in Hl, Hl'. change (len [_]) with 1 in Hl, Hl'.
  destruct (id_binds_block chain c' d d' l) as [[Eb Ec]|?]; try done; [lia|lia|set_solver|set_solver| |by right].
  rewrite !fmap_app. cbn [fmap list_fmap].
  assert (content_of d = content_of d') as -> by (unfold content_of; by rewrite Eb, Ec).
  assert (len chain = len c') as Hlen.
  { pose proof (vn_index _ _ Hd) as Hi. pose proof (vn_index _ _ Hd') as Hi'. by rewrite <-Hi, <-Hi', Eb. }
  destruct (last chain) as [p|] eqn:Ep, (last c') as [p'|] eqn:Ep'.
  - edestruct (IH c' p p' l) as [->|?]; try done; [lia|lia|set_solver|set_solver| |by left|by right].
    pose proof (proj2 (vn_parent _ _ Hd p Ep)) as H1. pose proof (proj2 (vn_parent _ _ Hd' p' Ep')) as H2.
    by rewrite <-H1, <-H2, Eb.
  - apply last_None in Ep' as ->. apply last_Some in Ep as [? ->]. unfold len in Hlen. rewrite length_app in Hlen. cbn [length] in Hlen. lia.
  - apply last_None in Ep as ->. apply last_Some in Ep' as [? ->]. unfold len in Hlen. rewrite length_app in Hlen. cbn [length] in Hlen. lia.
  - apply last_None in Ep as ->. apply last_None in Ep' as ->. by left.
Qed.

(** ** Signatures *)

(** What is digested for the message that the rings of a transaction sign. *)
Definition prefix_transcript (p : TxPrefix) : string * Transcript :=
  ("digestible"%string, append_to_transcript dig_tx_prefix "mobilecoin-tx-prefix" p).
Definition extended_transcript (p : TxPrefix) (cs : list CompressedCommitment) (proof : bytes) (proofs : list bytes) :
    string * Transcript :=
  ("mc_extended_message"%string, extended_message_transcript (vec_to_list (tx_prefix_hash p)) cs proof proofs).
Definition summary_transcripts (bv : BlockVersion) (extended : bytes) (s : TxSummary) : list (string * Transcript) :=
  if mlsags_sign_extended_message_and_tx_summary_digest bv
  then [("mc_extended_message_and_tx_summary"%string, message_and_summary_transcript extended s)] else [].

Lemma extended_message_transcript_inj m cs b l m' cs' b' l' :
  list_ok any cs → list_ok any cs' → list_ok any l → list_ok any l' →
  extended_message_transcript m cs b l = extended_message_transcript m' cs' b' l' →
  m = m' ∧ cs = cs' ∧ b = b' ∧ l = l'.
Proof.
  intros Hc Hc' Hl Hl' H. unfold extended_message_transcript in H.
  apply (canonical_inj (d := dig_bytes)) in H as [-> H]; [|done|done].
  apply (canonical_inj (d := dig_list dig_ristretto)) in H as [-> H]; [|done|done].
  apply (f_equal (λ t, t ++ [])) in H. rewrite <-!app_assoc in H.
  apply (field_inj (d := dig_bytes)) in H as [-> H];
    [|done|done|apply (fresh_field (d := dig_list dig_bytes)); [discriminate|done]..].
  by apply (field_inj (d := dig_list dig_bytes)) in H as [-> H].
Qed.

Lemma extended_binds p cs b l p' cs' b' l' ts :
  tx_prefix_ok p → tx_prefix_ok p' → list_ok any cs → list_ok any cs' → list_ok any l → list_ok any l' →
  [prefix_transcript p; extended_transcript p cs b l] ⊆ ts →
  [prefix_transcript p'; extended_transcript p' cs' b' l'] ⊆ ts →
  digest_extended_message (vec_to_list (tx_prefix_hash p)) cs b l =
    digest_extended_message (vec_to_list (tx_prefix_hash p')) cs' b' l' →
  (p = p' ∧ cs = cs' ∧ b = b' ∧ l = l') ∨ collision ts.
Proof.
  intros Hp Hp' Hc Hc' Hl Hl' Hs Hs' H.
  destruct (same_or_collision (extended_transcript p cs b l) (extended_transcript p' cs' b' l') ts) as [E|?];
    [apply Hs; by right; left|apply Hs'; by right; left|exact H| |by right].
  apply (f_equal snd) in E. apply extended_message_transcript_inj in E as (E & -> & -> & ->); [|done..].
  apply vec_to_list_inj2 in E.
  destruct (same_or_collision (prefix_transcript p) (prefix_transcript p') ts) as [Ep|?];
    [apply Hs; by left|apply Hs'; by left|exact E| |by right].
  apply (f_equal snd) in Ep. cbn [snd prefix_transcript] in Ep.
  apply (transcript_inj tx_prefix_ok dig_tx_prefix) in Ep as ->; [by left|done|done].
Qed.

(** Everything digested for the message. *)
Definition signing_transcripts (bv : BlockVersion) (p : TxPrefix) (cs : list CompressedCommitment) (proof : bytes)
    (proofs : list bytes) (s : TxSummary) (extended : bytes) : list (string * Transcript) :=
  [prefix_transcript p; extended_transcript p cs proof proofs] ++ summary_transcripts bv extended s.

Lemma signing_digest_Ok bv p cs b l digest s e :
  mlsags_sign_extended_message_digest bv = true →
  compute_mlsag_signing_digest bv p cs b l = Ok (digest, s, e) →
  let d := digest_extended_message (vec_to_list (tx_prefix_hash p)) cs b l in
  e = vec_to_list d ∧
  ∃ x, x ∈ signing_transcripts bv p cs b l s e ∧ digest = vec_to_list (merlin_digest x.1 x.2) ∧
    (x = extended_transcript p cs b l ∨
     x = ("mc_extended_message_and_tx_summary"%string, message_and_summary_transcript (vec_to_list d) s)).
Proof.
  intros Hbv H. unfold compute_mlsag_signing_digest, compute_extended_message_either_version in H. rewrite Hbv in H.
  destruct (TxSummary_new p cs) as [s0|]; [|discriminate]. simpl in H. injection H as Hd -> <-. split; [done|].
  unfold signing_transcripts, summary_transcripts.
  destruct (mlsags_sign_extended_message_and_tx_summary_digest bv); rewrite <-Hd.
  - eexists. split; [apply elem_of_app; right; by left|]. split; [reflexivity|by right].
  - eexists. split; [apply elem_of_app; left; by right; left|]. split; [reflexivity|by left].
Qed.

(** C23: the message that the rings of a transaction sign binds the
    transaction, from block version 2 on.  When two calls of
    [compute_mlsag_signing_digest], at whatever versions, give one digest, then
    the prefixes, the commitments of the inputs and the range proofs are the
    same, or two different transcripts that were digested for them collide: so a
    signature cannot be moved to another transaction, whether or not the summary
    is part of what is signed. *)
Theorem signing_digest_binds_tx bv bv' p p' cs cs' b b' l l' digest s s' e e' :
  mlsags_sign_extended_message_digest bv = true → mlsags_sign_extended_message_digest bv' = true →
  tx_prefix_ok p → tx_prefix_ok p' → list_ok any cs → list_ok any cs' → list_ok any l → list_ok any l' →
  compute_mlsag_signing_digest bv p cs b l = Ok (digest, s, e) →
  compute_mlsag_signing_digest bv' p' cs' b' l' = Ok (digest, s', e') →
  (p = p' ∧ cs = cs' ∧ b = b' ∧ l = l') ∨
  collision (signing_transcripts bv p cs b l s e ++ signing_transcripts bv' p' cs' b' l' s' e').
Proof.
  intros Hbv Hbv' Hp Hp' Hc Hc' Hl Hl' H H'. set (ts := _ ++ _).
  apply signing_digest_Ok in H as (-> & x & Hx & Ex & Kx); [|done].
  apply signing_digest_Ok in H' as (-> & x' & Hx' & Ex' & Kx'); [|done].
  rewrite Ex in Ex'. apply vec_to_list_inj2 in Ex'.
  destruct (same_or_collision x x' ts) as [E|?]; [by apply elem_of_app; left|by apply elem_of_app; right|exact Ex'| |by right].
  apply extended_binds; [exact Hp|exact Hp'|exact Hc|exact Hc'|exact Hl|exact Hl'|..].
  { intros y Hy. apply elem_of_app. left. apply elem_of_app. by left. }
  { intros y Hy. apply elem_of_app. right. apply elem_of_app. by left. }
  destruct Kx as [->| ->], Kx' as [->| ->].
  - apply (f_equal (λ x, merlin_digest x.1 x.2)) in E. exact E.
  - discriminate (f_equal fst E).
  - discriminate (f_equal fst E).
  - apply (f_equal snd) in E. cbn [snd] in E. unfold message_and_summary_transcript in E.
    apply (canonical_inj (d := dig_bytes)) in E as [E _]; [|done|done]. by apply vec_to_list_inj2.
Qed.

(** ** Hashes *)

(** What [digest32] digests. *)
Definition hash_transcript {A} (d : Digestible A) (c : string) (x : A) : string * Transcript :=
  ("digestible"%string, append_to_transcript d c x).

Lemma digest_binds {A} (ok : A → Prop) (d : Digestible A) `{!Canonical ok d} c x y :
  ok x → ok y → digest32 d c x = digest32 d c y → x = y ∨ collision [hash_transcript d c x; hash_transcript d c y].
Proof.
  intros Hx Hy H.
  destruct (same_or_collision (hash_transcript d c x) (hash_transcript d c y)
    [hash_transcript d c x; hash_transcript d c y]) as [E|?]; [by left|by right; left|exact H| |by right].
  left. apply (f_equal snd) in E. exact (transcript_inj ok d c x y Hx Hy E).
Qed.

(** The hashes bind what they are hashes of.  Two transactions, input
    rules, minting transactions or minting configurations with one hash are the
    same, or their transcripts differ and collide: no field, optional field,
    list boundary or enum variant can be changed without a change of the
    transcript. *)
Theorem hashes_bind :
  (∀ x y, tx_ok x → tx_ok y → Tx_tx_hash x = Tx_tx_hash y →
     x = y ∨ collision [hash_transcript dig_tx "mobilecoin-tx" x; hash_transcript dig_tx "mobilecoin-tx" y]) ∧
  (∀ x y, input_rules_ok x → input_rules_ok y → InputRules_canonical_digest x = InputRules_canonical_digest y →
     x = y ∨ collision [hash_transcript dig_input_rules "mc-input-rules" x;
                        hash_transcript dig_input_rules "mc-input-rules" y]) ∧
  (∀ x y, mint_tx_prefix_ok x → mint_tx_prefix_ok y → MintTxPrefix_hash x = MintTxPrefix_hash y →
     x = y ∨ collision [hash_transcript dig_mint_tx_prefix "mc_mint_tx_prefix" x;
                        hash_transcript dig_mint_tx_prefix "mc_mint_tx_prefix" y]) ∧
  (∀ x y, mint_config_tx_prefix_ok x → mint_config_tx_prefix_ok y →
     MintConfigTxPrefix_hash x = MintConfigTxPrefix_hash y →
     x = y ∨ collision [hash_transcript dig_mint_config_tx_prefix "mc_mint_config_tx_prefix" x;
                        hash_transcript dig_mint_config_tx_prefix "mc_mint_config_tx_prefix" y]).
Proof.
  split_and!; intros x y Hx Hy H;
    [exact (digest_binds tx_ok dig_tx _ x y Hx Hy H)|exact (digest_binds input_rules_ok dig_input_rules _ x y Hx Hy H)
    |exact (digest_binds mint_tx_prefix_ok dig_mint_tx_prefix _ x y Hx Hy H)
    |exact (digest_binds mint_config_tx_prefix_ok dig_mint_config_tx_prefix _ x y Hx Hy H)].
Qed.
End collisions.

(** ** Ledgers *)

Section ledgers.
Context {T : Type} `{Transaction T} `{!TransactionLaws T} `{!TransactionRoom T} `{Commit T} `{D : Digests} `{C : TxOutCodec}.
Context `{V : Verifier Ed25519Public Ed25519Signature} `{DG : MintDigests} `{MC : MintCodec}.
Context {Sig Meta : Type} `{LC : LedgerCodec Sig Meta} `{MR : Merlin}.

(** C22: the identifier of the last block binds the ledger.  Two ledgers,
    however they were built, whose last blocks have one identifier hold the same
    blocks with the same contents from the origin on, or two different
    transcripts that were digested for their blocks collide.  The blocks keep to
    the limits [appendable], their fields to the widths of the types. *)
Theorem last_block_id_binds_ledger (self self' : LedgerDB) (t t' : T) (chain chain' : list (BlockData Sig Meta)) d d' :
  ledger_wf self → ledger_wf self' → ledger_run self t chain → ledger_run self' t' chain' →
  Forall block_data_ok chain → Forall block_data_ok chain' →
  last chain = Some d → last chain' = Some d' → id (bd_block d) = id (bd_block d') →
  content_of <$> chain = content_of <$> chain' ∨ collision ((chain ++ chain') ≫= block_transcripts).
Proof.
  intros Hwf Hwf' Hrun Hrun' Hok Hok' Hd Hd' Hid.
  pose proof (ledger_run_ok _ _ _ Hwf Hrun) as Hl. pose proof (ledger_run_ok _ _ _ Hwf' Hrun') as Hl'.
  eapply last_id_binds; [exact (lo_valid _ _ _ Hl)|exact (lo_valid _ _ _ Hl')|exact (lo_len _ _ _ Hl)
    |exact (lo_len _ _ _ Hl')|done|done|..|done|done|done]; rewrite bind_app; set_solver.
Qed.
End ledgers.

(** *** Witnesses *)

(** A digest with many collisions: the number of calls. *)
#[local] Instance count_merlin : Merlin := λ _ t, vreplicate 32 (u8 (N.of_nat (length t))).

(** Two prefixes that differ in the fee, at two versions. *)
Definition ex_prefix (fee : N) : TxPrefix := mkTxPrefix [] [] fee 10 0.

Lemma ex_prefix_ok fee : u64_ok fee → tx_prefix_ok (ex_prefix fee).
Proof. intros H. by split_and!; [split|split|..]. Qed.

Lemma list_ok_nil {A} (ok : A → Prop) : list_ok ok [].
Proof. by split. Qed.

Lemma signing_digest_binds_tx_witness :
  ∃ digest s s' e,
    compute_mlsag_signing_digest 2 (ex_prefix 1) [] [] [] = Ok (digest, s, e) ∧
    compute_mlsag_signing_digest 2 (ex_prefix 2) [] [] [] = Ok (digest, s', e) ∧
    ((ex_prefix 1 = ex_prefix 2 ∧ ([] : list CompressedCommitment) = [] ∧ ([] : bytes) = [] ∧ ([] : list bytes) = []) ∨
     collision (signing_transcripts 2 (ex_prefix 1) [] [] [] s e ++ signing_transcripts 2 (ex_prefix 2) [] [] [] s' e)).
Proof.
  eexists _, _, _, _. split; [reflexivity|]. split; [reflexivity|].
  eapply (signing_digest_binds_tx 2 2 (ex_prefix 1) (ex_prefix 2) [] [] [] [] [] []);
    [reflexivity|reflexivity|by apply ex_prefix_ok|by apply ex_prefix_ok|apply list_ok_nil..|reflexivity|reflexivity].
Defined.

Definition ex_tx (fee : N) : Tx := mkTx (ex_prefix fee) (mkSignature [] [] [] [] [] []) [].

Lemma ex_tx_ok fee : u64_ok fee → tx_ok (ex_tx fee).
Proof. intros H. split; [by apply ex_prefix_ok|by split_and!; apply list_ok_nil]. Qed.

Lemma hashes_bind_witness :
  Tx_tx_hash (ex_tx 1) = Tx_tx_hash (ex_tx 2) ∧
  (ex_tx 1 = ex_tx 2 ∨
   collision [hash_transcript dig_tx "mobilecoin-tx" (ex_tx 1); hash_transcript dig_tx "mobilecoin-tx" (ex_tx 2)]).
Proof.
  split; [reflexivity|]. apply (proj1 hashes_bind); [by apply ex_tx_ok|by apply ex_tx_ok|reflexivity].
Defined.

(** Two ledgers with the same origin block, one of which has its signature. *)
#[local] Existing Instance MembershipProps.toy_digests.
#[local] Existing Instance StoreProps.toy_codec.
#[local] Existing Instance MintStoreProps.toy_ed25519.
#[local] Existing Instance MintStoreProps.toy_mint_digests.
#[local] Existing Instance MintStoreProps.toy_mint_codec.
#[local] Existing Instance LedgerAcceptProps.toy_ledger_codec.
#[local] Existing Instance LedgerAcceptProps.map_commit.

Definition bound_contents : BlockContents := mkBlockContents [] [LedgerAcceptProps.ex_out] [] [].
Definition bound_origin (sig : option unit) : BlockData unit unit :=
  mkBlockData (Block_new 0 BlockID_default 0 1 root_element_default bound_contents) bound_contents sig None.

Lemma bound_run sig : ∃ t', ledger_run LedgerAcceptProps.ex_ledger t' [bound_origin sig].
Proof.
  destruct (append_block_succeeds LedgerAcceptProps.ex_ledger LedgerAcceptProps.ex_env [] (bound_origin sig))
    as ([] & t' & E).
  - exact LedgerAcceptProps.ex_ledger_wf.
  - apply (create_ok _ ∅); [exact LedgerAcceptProps.ex_ledger_wf|exact LedgerAcceptProps.ex_fresh|done].
  - by constructor; [vm_compute..|constructor|constructor|constructor].
  - constructor.
    + constructor; try done; [by left|]. intros o Ho. apply list_elem_of_singleton in Ho as ->. done.
    + intros d' k Hd'. by apply elem_of_nil in Hd'.
    + apply NoDup_singleton.
    + apply NoDup_singleton.
    + exists ∅, ∅. split; constructor.
    + split; [constructor|]. intros tx Htx. by apply elem_of_nil in Htx.
    + split; [constructor|]. intros v Hv. by apply elem_of_nil in Hv.
  - exists t'. apply (run_append _ LedgerAcceptProps.ex_env [] (bound_origin sig)).
    + apply (run_create _ ∅); [exact LedgerAcceptProps.ex_fresh|done].
    + by constructor; [vm_compute..|constructor|constructor|constructor].
    + unfold append_block_data, append_block. by rewrite E.
Qed.

Lemma bound_origin_ok sig : Forall block_data_ok [bound_origin sig].
Proof.
  constructor; [|constructor]. split_and!; [by vm_compute|by split; vm_compute|].
  split_and!; [apply list_ok_nil| |apply list_ok_nil|apply list_ok_nil].
  split; [by vm_compute|]. constructor; [by vm_compute|constructor].
Qed.

Lemma last_block_id_binds_ledger_witness :
  content_of <$> [bound_origin None] = content_of <$> [bound_origin (Some tt)] ∨
  collision (([bound_origin None] ++ [bound_origin (Some tt)]) ≫= block_transcripts).
Proof.
  destruct (bound_run None) as [t Hrun], (bound_run (Some tt)) as [t' Hrun'].
  apply (last_block_id_binds_ledger LedgerAcceptProps.ex_ledger LedgerAcceptProps.ex_ledger t t'
    [bound_origin None] [bound_origin (Some tt)] (bound_origin None) (bound_origin (Some tt)));
    [exact LedgerAcceptProps.ex_ledger_wf|exact LedgerAcceptProps.ex_ledger_wf|exact Hrun|exact Hrun'
    |apply bound_origin_ok|apply bound_origin_ok|reflexivity|reflexivity|reflexivity].
Defined.
End ChainBinding.
