(* ===== verification/CryptoBox.v ===== *)
(** * Public-key encryption and fog hints

    [crypto/box/src]: the trait [CryptoBox] with its derived methods, the scheme
    of key exchange, key derivation and authenticated encryption ([HkdfBox]),
    and the box that adds a version ([VersionedCryptoBox]).  Outputs carry a hint
    for the fog service of their recipient, encrypted with it
    ([transaction/core/src/fog_hint.rs], [encrypted_fog_hint.rs]).

    HKDF and AES-GCM are third-party code, the class [BoxAead]; a buffer that is
    encrypted in place is returned. *)

From stdpp Require Import vector strings.
From S2P Require Import Prelude Ord Bytes TxOut BlockVersion MaskedAmount Tx Ristretto OnetimeKeys Mlsag Memo.

Open Scope nat_scope.

Inductive AeadError := mkAeadError.

Inductive BoxError :=
| BoxKey (e : KeyError)
| BoxTooShort (len footer : nat)
| UnknownAlgorithm (n : N)
| WrongMagicBytes.

(** [SimpleHkdf<Blake2b512>] and [Aes256Gcm], whose decryption returns the
    buffer also when the tag does not match. *)
Class BoxAead : Type := {
  hkdf_blake2b : bytes → bytes → bytes → ∀ n : nat, vec byte n;
  gcm_encrypt : bytes → bytes → bytes → result (bytes * bytes) AeadError;
  gcm_decrypt : bytes → bytes → bytes → bytes → bool * bytes
}.

(** Encryption keeps the length, makes a tag of 16 bytes, and is undone; it
    fails only for buffers longer than the limit of the mode. *)
Class BoxAeadLaws `{BoxAead} : Prop :=
  gcm_round_trip key nonce buffer :
    (N.of_nat (length buffer) < 2 ^ 36)%N →
    ∃ ct mac, gcm_encrypt key nonce buffer = Ok (ct, mac) ∧ length ct = length buffer ∧
      length mac = 16 ∧ gcm_decrypt key nonce ct mac = (true, buffer).

(** [RistrettoPublic::from_random]. *)
Class PointRng `{Curve} (R : Type) := random_point : R → point * R.

(** The trait. *)
Class CryptoBox `{Curve} (R Self : Type) : Type := {
  FooterSize : nat;
  encrypt_in_place_detached : Self → R → point → bytes → exec (result (bytes * bytes) AeadError * R);
  decrypt_in_place_detached : Self → scalar → bytes → bytes → result (bool * bytes) BoxError
}.

(** ** The derived methods *)
Section derived.
Context `{C : Curve} {R Self : Type} `{!CryptoBox R Self}.

Definition encrypt_in_place (self : Self) (rng : R) (key : point) (buffer : bytes) :
    exec (result bytes AeadError * R) :=
  let! (r, rng) := encrypt_in_place_detached self rng key buffer in
  Done (let? (buffer, footer) := r in Ok (buffer ++ footer), rng).

Definition box_encrypt (self : Self) (rng : R) (key : point) (plaintext : bytes) :
    exec (result bytes AeadError * R) :=
  encrypt_in_place self rng key plaintext.

Definition decrypt_in_place (self : Self) (key : scalar) (cryptogram : bytes) : result (bool * bytes) BoxError :=
  if length cryptogram <? FooterSize then Err (BoxTooShort (length cryptogram) FooterSize)
  else
    let footer_pos := length cryptogram - FooterSize in
    let? (status, buffer) :=
      decrypt_in_place_detached self key (drop footer_pos cryptogram) (take footer_pos cryptogram) in
    Ok (status, buffer).

Definition box_decrypt (self : Self) (key : scalar) (cryptogram : bytes) : result (bool * bytes) BoxError :=
  decrypt_in_place self key cryptogram.

(** The lengths of the two are fixed by their types. *)
Definition encrypt_fixed_length (self : Self) (rng : R) (key : point) (buffer : bytes) :
    exec (result bytes AeadError * R) :=
  let! (r, rng) := encrypt_in_place_detached self rng key buffer in
  Done (let? (buffer, footer) := r in Ok (buffer ++ footer), rng).
Definition decrypt_fixed_length (self : Self) (key : scalar) (cryptogram : bytes) : result (bool * bytes) BoxError :=
  let pos := length cryptogram - FooterSize in
  let? (status, ciphertext) := decrypt_in_place_detached self key (drop pos cryptogram) (take pos cryptogram) in
  Ok (status, ciphertext).
End derived.

(** ** Implementations *)
Section boxes.
Context `{C : Curve} `{A : BoxAead} {R : Type} `{!ScalarRng R}.

(** [KexPublic::new_secret]. *)
Definition new_secret (self : point) (csprng : R) : point * bytes32 * R :=
  let (our_privkey, csprng) := random_scalar csprng in
  (public_of our_privkey, key_exchange our_privkey self, csprng).

(** [HkdfBox::kdf_step]. *)
Definition kdf_step (dh_secret : bytes32) : bytes * bytes :=
  let okm := vec_to_list (hkdf_blake2b (str_bytes "dei-salty-box") (vec_to_list dh_secret) (str_bytes "aead-key-iv") 44) in
  (take 32 okm, drop 32 okm).

Inductive HkdfBox := mkHkdfBox.

Definition hkdf_encrypt_in_place_detached (self : HkdfBox) (rng : R) (key : point) (buffer : bytes) :
    exec (result (bytes * bytes) AeadError * R) :=
  let '(our_public, shared_secret, rng) := new_secret key rng in
  let (aes_key, aes_nonce) := kdf_step shared_secret in
  Done (let? (buffer, mac) := gcm_encrypt aes_key aes_nonce buffer in
        Ok (buffer, vec_to_list (compress our_public) ++ mac), rng).

Definition hkdf_decrypt_in_place_detached (self : HkdfBox) (key : scalar) (tag buffer : bytes) :
    result (bool * bytes) BoxError :=
  let? public_key := map_err BoxKey
    (match to_bytes32 (take 32 tag) with Some b => point_try_from b | None => Err InvalidPublicKey end) in
  let shared_secret := key_exchange key public_key in
  let (aes_key, aes_nonce) := kdf_step shared_secret in
  Ok (gcm_decrypt aes_key aes_nonce buffer (drop 32 tag)).

#[export] Instance hkdf_box : CryptoBox R HkdfBox := {|
  FooterSize := 48;
  encrypt_in_place_detached := hkdf_encrypt_in_place_detached;
  decrypt_in_place_detached := hkdf_decrypt_in_place_detached
|}.

Definition MAJOR_VERSION : byte := u8 1.
Definition LATEST_MINOR_VERSION : N := 0.
Definition ACCEPTABLE_MINOR_VERSIONS : list N := [0%N].

Record VersionedCryptoBox := mkVersionedCryptoBox { selected_version : N }.

Inductive VersionError := NoAcceptableVersions.

(** [select_version]: the largest of the acceptable versions that the other
    side accepts. *)
Definition select_version (others_acceptable_versions : list N) : result VersionedCryptoBox VersionError :=
  match filter (λ x, x ∈ others_acceptable_versions) ACCEPTABLE_MINOR_VERSIONS with
  | [] => Err NoAcceptableVersions
  | v :: vs => Ok (mkVersionedCryptoBox (foldl N.max v vs))
  end.

Definition VersionedCryptoBox_default : VersionedCryptoBox := mkVersionedCryptoBox LATEST_MINOR_VERSION.

Definition versioned_encrypt_in_place_detached (self : VersionedCryptoBox) (rng : R) (key : point) (buffer : bytes) :
    exec (result (bytes * bytes) AeadError * R) :=
  match selected_version self with
  | 0%N =>
      let! (r, rng) := encrypt_in_place_detached mkHkdfBox rng key buffer in
      Done (let? (buffer, footer) := r in Ok (buffer, footer ++ [MAJOR_VERSION; u8 (selected_version self)]), rng)
  | _ => Panic
  end.

Definition versioned_decrypt_in_place_detached (self : VersionedCryptoBox) (key : scalar) (footer buffer : bytes) :
    result (bool * bytes) BoxError :=
  let version_data := drop (50 - 2) footer in
  let footer := take (50 - 2) footer in
  if negb (bool_decide (version_data !! 0 = Some MAJOR_VERSION)) then Err WrongMagicBytes
  else
    let minor := Byte.to_N (default (u8 0) (version_data !! 1)) in
    if (minor =? 0)%N then decrypt_in_place_detached (R := R) mkHkdfBox key footer buffer
    else Err (UnknownAlgorithm minor).

#[export] Instance versioned_box : CryptoBox R VersionedCryptoBox := {|
  FooterSize := 50;
  encrypt_in_place_detached := versioned_encrypt_in_place_detached;
  decrypt_in_place_detached := versioned_decrypt_in_place_detached
|}.

(** ** Fog hints *)

Definition ENCRYPTED_FOG_HINT_LEN : nat := 84.
Definition MAGIC_NUMBER : byte := u8 42.

Record FogHint := mkFogHint { view_pubkey : CompressedRistrettoPublic }.

Definition FogHint_from (src : PublicAddress) : FogHint := mkFogHint (compress (view_public_key src)).
Definition FogHint_new (view_pubkey : point) : FogHint := mkFogHint (compress view_pubkey).

(** [FogHint::encrypt]: a failure of the encryption panics. *)
Definition fog_hint_encrypt (self : FogHint) (ingest_server_pubkey : point) (rng : R) : exec (bytes * R) :=
  let plaintext := vec_to_list (view_pubkey self) ++ replicate 2 MAGIC_NUMBER in
  let! (r, rng) := encrypt_fixed_length VersionedCryptoBox_default rng ingest_server_pubkey plaintext in
  match r with Ok b => Done (b, rng) | Err _ => Panic end.

(** [FogHint::ct_decrypt]: the output is assigned byte by byte on success. *)
Definition fog_hint_ct_decrypt (ingest_server_private_key : scalar) (ciphertext : bytes) (output : FogHint) :
    bool * FogHint :=
  match decrypt_fixed_length (R := R) VersionedCryptoBox_default ingest_server_private_key ciphertext with
  | Err _ => (false, output)
  | Ok (success, plaintext) =>
      let success := success && forallb (λ b, bool_decide (b = MAGIC_NUMBER)) (drop 32 plaintext) in
      (success, if success
                then match to_bytes32 (take 32 plaintext) with Some b => mkFogHint b | None => output end
                else output)
  end.

(** [EncryptedFogHint::fake_onetime_hint]. *)
Definition fake_onetime_hint `{!PointRng R} (rng : R) : exec (bytes * R) :=
  let plaintext := zeros 34 in
  let (key, rng) := random_point rng in
  let! (r, rng) := encrypt_fixed_length VersionedCryptoBox_default rng key plaintext in
  match r with Ok b => Done (b, rng) | Err _ => Panic end.
End boxes.

(** What users of a box rely on: for the keys of a pair, what was encrypted
    decrypts, with a footer of the size of the box. *)
Class CryptoBoxSound `{CryptoBox R Self} (usable : Self → Prop) : Prop :=
  box_sound self (rng : R) x buffer :
    usable self → (N.of_nat (length buffer) < 2 ^ 36)%N →
    ∃ ct footer rng', encrypt_in_place_detached self rng (public_of x) buffer = Done (Ok (ct, footer), rng') ∧
      length ct = length buffer ∧ length footer = FooterSize ∧
      decrypt_in_place_detached self x footer ct = Ok (true, buffer).

Module CryptoBoxProps.
Import OnetimeKeysProps.

Section sound.
Context `{C : Curve} {CL : CurveLaws} `{A : BoxAead} {AL : BoxAeadLaws} {R : Type} `{!ScalarRng R}.

(** Both sides of the exchange get the same secret. *)
Lemma key_exchange_comm a b : key_exchange a (public_of b) = key_exchange b (public_of a).
Proof. unfold key_exchange, public_of. by rewrite !p_mul_mul, s_mul_comm. Qed.

#[export] Instance hkdf_box_sound : CryptoBoxSound (R := R) (λ _ : HkdfBox, True).
Proof.
  intros self rng x buffer _ Hb. cbn [encrypt_in_place_detached decrypt_in_place_detached hkdf_box FooterSize].
  unfold hkdf_encrypt_in_place_detached, hkdf_decrypt_in_place_detached, new_secret.
  destruct (random_scalar rng) as [r rng']. rewrite key_exchange_comm.
  destruct (kdf_step (key_exchange x (public_of r))) as [key nonce] eqn:Ek.
  destruct (gcm_round_trip key nonce buffer Hb) as (ct & mac & He & Hct & Hm & Hd).
  rewrite He. exists ct, (vec_to_list (compress (public_of r)) ++ mac), rng'.
  split; [done|]. split; [done|].
  assert (length (vec_to_list (compress (public_of r))) = 32) as Hl by apply length_vec_to_list.
  split; [rewrite length_app; lia|].
  rewrite take_app_length', drop_app_length' by done. rewrite to_bytes32_vec, point_try_from_compress.
  cbn [map_err result_bind]. rewrite Ek, Hd. done.
Qed.

#[export] Instance versioned_box_sound : CryptoBoxSound (R := R) (λ b : VersionedCryptoBox, selected_version b = 0%N).
Proof.
  intros self rng x buffer Hv Hb.
  destruct (box_sound (R := R) (Self := HkdfBox) mkHkdfBox rng x buffer I Hb) as (ct & footer & rng' & He & Hct & Hf & Hd).
  cbn [encrypt_in_place_detached decrypt_in_place_detached versioned_box FooterSize].
  unfold versioned_encrypt_in_place_detached, versioned_decrypt_in_place_detached. rewrite Hv, He.
  cbn [exec_bind result_bind]. exists ct, (footer ++ [MAJOR_VERSION; u8 0]), rng'.
  split; [done|]. split; [done|]. cbn [FooterSize hkdf_box] in Hf. split; [rewrite length_app, Hf; done|].
  rewrite take_app_length', drop_app_length' by (by rewrite Hf). exact Hd.
Qed.
End sound.

(** The derived methods, for any sound box. *)
Section client.
Context `{C : Curve} {R Self : Type} `{!CryptoBox R Self} {usable : Self → Prop} `{!CryptoBoxSound usable}.

Lemma fixed_length_round_trip self (rng : R) x buffer :
  usable self → (N.of_nat (length buffer) < 2 ^ 36)%N →
  ∃ cryptogram rng', encrypt_fixed_length self rng (public_of x) buffer = Done (Ok cryptogram, rng') ∧
    length cryptogram = length buffer + FooterSize ∧
    decrypt_fixed_length self x cryptogram = Ok (true, buffer).
Proof.
  intros Hu Hb. destruct (box_sound self rng x buffer Hu Hb) as (ct & footer & rng' & He & Hct & Hf & Hd).
  unfold encrypt_fixed_length, decrypt_fixed_length. rewrite He. cbn [exec_bind result_bind].
  exists (ct ++ footer), rng'. split; [done|]. rewrite length_app, Hf, Hct. split; [done|].
  rewrite take_app_length', drop_app_length' by lia. by rewrite Hd.
Qed.

(** Encrypting a slice and decrypting it with the private key gives it back,
    for any sound box; a cryptogram shorter than a footer is refused. *)
Lemma box_round_trip self (rng : R) x plaintext :
  usable self → (N.of_nat (length plaintext) < 2 ^ 36)%N →
  ∃ cryptogram rng', box_encrypt self rng (public_of x) plaintext = Done (Ok cryptogram, rng') ∧
    length cryptogram = length plaintext + FooterSize ∧
    box_decrypt self x cryptogram = Ok (true, plaintext).
Proof.
  intros Hu Hb. destruct (fixed_length_round_trip self rng x plaintext Hu Hb) as (c & rng' & He & Hl & Hd).
  exists c, rng'. split; [exact He|]. split; [done|].
  unfold box_decrypt, decrypt_in_place. rewrite (proj2 (Nat.ltb_ge _ _)) by lia. exact Hd.
Qed.
End client.

Section hints.
Context `{C : Curve} {CL : CurveLaws} `{A : BoxAead} {AL : BoxAeadLaws} {R : Type} `{!ScalarRng R} `{!PointRng R}.

Lemma hint_plaintext_length (hint : FogHint) :
  length (vec_to_list (view_pubkey hint) ++ replicate 2 MAGIC_NUMBER) = 34.
Proof. rewrite length_app, length_vec_to_list. done. Qed.

(** Fog hints reach the fog server of their recipient, and only real
    ones.  Encrypting a hint for the key of an ingest server never panics, gives
    84 bytes, and decrypts with the private key of the server to the hint.  A fake
    hint, made for a recipient without fog, has 84 bytes too, and a server that
    happens to hold the private key of the fake one's random key rejects it,
    leaving its output alone. *)
Theorem fog_hints_round_trip (hint output : FogHint) z (rng : R) :
  (∃ cipher rng', fog_hint_encrypt hint (public_of z) rng = Done (cipher, rng') ∧
    length cipher = ENCRYPTED_FOG_HINT_LEN ∧ fog_hint_ct_decrypt (R := R) z cipher output = (true, hint)) ∧
  ((random_point rng).1 = public_of z →
   ∃ cipher rng', fake_onetime_hint rng = Done (cipher, rng') ∧
    length cipher = ENCRYPTED_FOG_HINT_LEN ∧ fog_hint_ct_decrypt (R := R) z cipher output = (false, output)).
Proof.
  split.
  - unfold fog_hint_encrypt, fog_hint_ct_decrypt.
    set (p := vec_to_list (view_pubkey hint) ++ replicate 2 MAGIC_NUMBER).
    assert (length p = 34) as Hp by apply hint_plaintext_length.
    destruct (fixed_length_round_trip (R := R) VersionedCryptoBox_default rng z p) as (c & rng' & He & Hl & Hd);
      [done|by rewrite Hp|].
    rewrite He. cbn [exec_bind]. exists c, rng'. split; [done|]. split; [rewrite Hl, Hp; done|].
    rewrite Hd. unfold p. assert (length (vec_to_list (view_pubkey hint)) = 32) as H32 by apply length_vec_to_list.
    rewrite take_app_length', drop_app_length' by done. rewrite to_bytes32_vec. by destruct hint.
  - intros Hk. unfold fake_onetime_hint, fog_hint_ct_decrypt. destruct (random_point rng) as [key rng1].
    simpl in Hk. subst key.
    destruct (fixed_length_round_trip (R := R) VersionedCryptoBox_default rng1 z (zeros 34)) as (c & rng' & He & Hl & Hd);
      [done|done|].
    rewrite He. cbn [exec_bind]. exists c, rng'. split; [done|]. split; [exact Hl|]. by rewrite Hd.
Qed.

(** A hint that does not decrypt leaves the output as it was; one that does
    ends in the magic bytes. *)
Theorem fog_hint_decrypt_outcome z cipher output :
  let r := fog_hint_ct_decrypt (R := R) z cipher output in
  (r.1 = false → r.2 = output) ∧
  (r.1 = true → ∃ plaintext, decrypt_fixed_length (R := R) VersionedCryptoBox_default z cipher = Ok (true, plaintext) ∧
     Forall (λ b, b = MAGIC_NUMBER) (drop 32 plaintext)).
Proof.
  cbv zeta. unfold fog_hint_ct_decrypt.
  destruct (decrypt_fixed_length _ _ _) as [[ok p]|e]; simpl; [|split; [done|discriminate]].
  split.
  - intros ->. done.
  - intros [-> Hf]%andb_true_iff. exists p. split; [done|]. apply Forall_forall. intros b Hb.
    rewrite forallb_forall in Hf. apply list_elem_of_In, Hf in Hb. by apply bool_decide_eq_true in Hb.
Qed.
End hints.

(** ** A small instance *)

#[local] Instance bc : Curve := bit_curve.
#[local] Instance bl : CurveLaws := bit_curve_laws.
#[local] Instance bit_rng : ScalarRng unit := λ _, (@s_of_u64 bit_curve 1, tt).
#[local] Instance bit_point_rng : PointRng unit := λ _, (public_of (@s_of_u64 bit_curve 1), tt).
#[local] Instance toy_aead : BoxAead := {|
  hkdf_blake2b := λ _ _ _ n, vreplicate n (u8 0);
  gcm_encrypt := λ _ _ b, Ok (b, zeros 16);
  gcm_decrypt := λ _ _ b _, (true, b)
|}.
#[local] Instance toy_aead_laws : BoxAeadLaws.
Proof. intros key nonce b _. exists b, (zeros 16). done. Qed.

Definition toy_hint : FogHint := mkFogHint (vreplicate 32 (u8 7)).

Lemma fog_hints_round_trip_witness :
  ∃ cipher rng', fake_onetime_hint (R := unit) tt = Done (cipher, rng') ∧
    length cipher = ENCRYPTED_FOG_HINT_LEN ∧
    fog_hint_ct_decrypt (R := unit) (@s_of_u64 bit_curve 1) cipher toy_hint = (false, toy_hint).
Proof.
  apply (fog_hints_round_trip (R := unit) toy_hint toy_hint (@s_of_u64 bit_curve 1) tt). reflexivity.
Defined.
End CryptoBoxProps.
