(* ===== verification/Sci.v ===== *)
(** * Signed contingent inputs

    [transaction/extra/src/signed_contingent_input.rs]: an input signed ahead of
    the transaction that will spend it, with the rules its signer imposes.
    Validation checks its signature and the amounts it names, and reports them;
    the balance sheet tells what filling it changes.  Also confirmation numbers
    ([tx_out_confirmation_number.rs]) and unmasked amounts
    ([transaction/types/src/unmasked_amount.rs]). *)

From stdpp Require Import vector strings gmap.
From S2P Require Import Prelude Ord Bytes TxOut BlockVersion MaskedAmount Tx Ristretto OnetimeKeys Mlsag RingCt.

Open Scope N_scope.

(** [i128] arithmetic, with wrap-around. *)
Definition i128_wrap (z : Z) : Z := ((z + 2 ^ 127) mod 2 ^ 128 - 2 ^ 127)%Z.

Inductive SignedContingentInputError :=
| SciWrongNumberOfRequiredOutputAmounts
| SciWrongNumberOfGlobalIndices
| SciRequiredOutputMismatch
| SciMissingRules
| SciMissingProofs
| SciRingSignature (e : MlsagError)
| SciTxOutConversion (e : TxOutConversionError)
| SciPartialFillInputNotAllowedHere
| SciMissingPartialFillChange
| SciIndexOutOfBounds
| SciZeroPartialFillChange
| SciZeroPartialFillOutput
| SciMinPartialFillValueExceedsPartialChange
| SciTokenIdMismatch
| SciChangeLimitExceeded
| SciRevealedTxOut (e : RevealedTxOutError)
| SciFeatureNotSupportedAtBlockVersion (v : N) (feature : bytes)
| SciBlockVersionMismatch (v v' : N)
| SciAmount (e : AmountError)
| SciPartialFillValueTooLarge.

Section sci.
Context `{C : Curve} `{X : TxCrypto}.

(** [UnmaskedAmount], with its conversions from and to [OutputSecret] and to
    [Amount]. *)
Record UnmaskedAmount := mkUnmaskedAmount {
  um_value : N;
  um_token_id : N;
  um_blinding : scalar
}.
Definition unmasked_amount (u : UnmaskedAmount) : Amount := mkAmount (um_value u) (um_token_id u).
Definition unmasked_of_secret (s : OutputSecret) : UnmaskedAmount :=
  mkUnmaskedAmount (value (os_amount s)) (token_id (os_amount s)) (os_blinding s).
Definition secret_of_unmasked (u : UnmaskedAmount) : OutputSecret :=
  mkOutputSecret (unmasked_amount u) (um_blinding u).

Record SignedContingentInput := mkSci {
  sci_block_version : N;
  sci_tx_in : TxIn;
  sci_mlsag : RingMLSAG;
  pseudo_output_amount : UnmaskedAmount;
  required_output_amounts : list UnmaskedAmount;
  tx_out_global_indices : list N
}.

Definition sci_key_image (self : SignedContingentInput) : bytes32 := key_image (sci_mlsag self).

Record SignedContingentInputAmounts := mkSciAmounts {
  sa_pseudo_output : Amount;
  sa_required_outputs : list Amount;
  sa_partial_fill_outputs : list Amount;
  sa_partial_fill_change : option Amount
}.

(** The commitment to an unmasked amount, with the generators of the cache. *)
Definition unmasked_commitment (cache : gmap N PedersenGens) (u : UnmaskedAmount) :
    CompressedCommitment * gmap N PedersenGens :=
  let (generator, cache) := cache_get cache (um_token_id u) in
  (CompressedCommitment_new (um_value u) (um_blinding u) generator, cache).

(** The loop over the required outputs. *)
Fixpoint check_required_outputs (l : list (UnmaskedAmount * TxOut)) (cache : gmap N PedersenGens) :
    result (list Amount) SignedContingentInputError :=
  match l with
  | [] => Ok []
  | (amount, output) :: l =>
      let (expected_commitment, cache) := unmasked_commitment cache amount in
      let? a := map_err SciTxOutConversion (get_masked_amount output) in
      if negb (bool_decide (expected_commitment = commitment a)) then Err SciRequiredOutputMismatch
      else
        let? rest := check_required_outputs l cache in
        Ok (unmasked_amount amount :: rest)
  end.

(** The loop over the partial fill outputs. *)
Definition check_partial_fill_output (r : RevealedTxOut) : result Amount SignedContingentInputError :=
  let? (amount, _) := map_err SciRevealedTxOut (reveal_amount r) in
  if value amount =? 0 then Err SciZeroPartialFillOutput else Ok amount.

Definition check_rules (self : SignedContingentInput) (rules : InputRules) (cache : gmap N PedersenGens)
    (pseudo_output : Amount) : result SignedContingentInputAmounts SignedContingentInputError :=
  if negb (length (required_output_amounts self) =? length (required_outputs rules))%nat
  then Err SciWrongNumberOfRequiredOutputAmounts
  else
    let? required := check_required_outputs (zip (required_output_amounts self) (required_outputs rules)) cache in
    match partial_fill_change rules with
    | Some change =>
        let? (amount, _) := map_err SciRevealedTxOut (reveal_amount change) in
        if value amount <? min_partial_fill_value rules then Err SciMinPartialFillValueExceedsPartialChange
        else if value amount =? 0 then Err SciZeroPartialFillChange
        else
          let? partial := result_map check_partial_fill_output (partial_fill_outputs rules) in
          Ok (mkSciAmounts pseudo_output required partial (Some amount))
    | None =>
        if negb (bool_decide (partial_fill_outputs rules = [])) || negb (min_partial_fill_value rules =? 0)
        then Err SciMissingPartialFillChange
        else Ok (mkSciAmounts pseudo_output required [] None)
    end.

(** [SignedContingentInput::validate]; the verification of a ring signature
    panics for an empty ring. *)
Definition sci_validate (self : SignedContingentInput) :
    exec (result SignedContingentInputAmounts SignedContingentInputError) :=
  if negb (length (tx_out_global_indices self) =? length (ring (sci_tx_in self)))%nat
  then Done (Err SciWrongNumberOfGlobalIndices)
  else
    let result := unmasked_amount (pseudo_output_amount self) in
    let (pseudo_output, cache) := unmasked_commitment ∅ (pseudo_output_amount self) in
    let^ rules_digest := Done (ok_or (signed_digest (sci_tx_in self)) SciMissingRules) in
    let^ signed_input_ring := Done (map_err SciTxOutConversion (SignedInputRing_try_from (sci_tx_in self))) in
    let^ _ := emap_err SciRingSignature
      (ring_verify (mlsag_decode (sci_mlsag self)) (vec_to_list rules_digest) (members signed_input_ring) pseudo_output) in
    Done (match input_rules (sci_tx_in self) with
          | Some rules => check_rules self rules cache result
          | None => Ok (mkSciAmounts result [] [] None)
          end).

(** ** Balance sheets *)

(** [*balance_sheet.entry(t).or_default() += z]. *)
Definition sheet_add (t : N) (z : Z) (sheet : gmap N Z) : gmap N Z :=
  <[ t := i128_wrap (default 0%Z (sheet !! t) + z) ]> sheet.

Fixpoint sheet_add_fractions (fill_fraction : U64Ratio) (l : list Amount) (sheet : gmap N Z) :
    result unit SignedContingentInputError * gmap N Z :=
  match l with
  | [] => (Ok tt, sheet)
  | out :: l =>
      match checked_mul_round_up fill_fraction (value out) with
      | None => (Err SciPartialFillValueTooLarge, sheet)
      | Some v => sheet_add_fractions fill_fraction l (sheet_add (token_id out) (Z.of_N v) sheet)
      end
  end.

(** [add_to_balance_sheet]: the sheet is changed also when an error is
    returned. *)
Definition add_to_balance_sheet (self : SignedContingentInputAmounts) (partial_fill_value : N) (sheet : gmap N Z) :
    result unit SignedContingentInputError * gmap N Z :=
  let sheet := sheet_add (token_id (sa_pseudo_output self)) (- Z.of_N (value (sa_pseudo_output self)))%Z sheet in
  let sheet := foldl (λ sheet out, sheet_add (token_id out) (Z.of_N (value out)) sheet) sheet (sa_required_outputs self) in
  match sa_partial_fill_change self with
  | Some change =>
      match U64Ratio_new partial_fill_value (value change) with
      | None => (Err SciZeroPartialFillChange, sheet)
      | Some fill_fraction =>
          if value change <? partial_fill_value then (Err SciPartialFillValueTooLarge, sheet)
          else
            let fractional_change_value := value change - partial_fill_value in
            let sheet := sheet_add (token_id change) (Z.of_N fractional_change_value) sheet in
            sheet_add_fractions fill_fraction (sa_partial_fill_outputs self) sheet
      end
  | None => if negb (partial_fill_value =? 0) then (Err SciPartialFillValueTooLarge, sheet) else (Ok tt, sheet)
  end.

(** [compute_balance_sheet]. *)
Definition compute_balance_sheet (self : SignedContingentInputAmounts) (partial_fill_value : N) :
    result (gmap N Z) SignedContingentInputError :=
  match add_to_balance_sheet self partial_fill_value ∅ with
  | (Ok _, sheet) => Ok sheet
  | (Err e, _) => Err e
  end.

(** [From<SignedContingentInput> for PresignedInputRing]. *)
Definition presigned_of_sci (src : SignedContingentInput) : PresignedInputRing :=
  mkPresignedInputRing (sci_mlsag src) (secret_of_unmasked (pseudo_output_amount src)).
End sci.

(** ** Confirmation numbers *)

Section confirmation.
Context `{C : Curve} `{D : Digests}.

Definition TXOUT_CONFIRMATION_NUMBER_DOMAIN_TAG : bytes := str_bytes "mc_tx_out_confirmation_number".

(** [From<&RistrettoPublic>] and [validate]. *)
Definition confirmation_from (shared_secret : point) : bytes32 :=
  blake2b256 (TXOUT_CONFIRMATION_NUMBER_DOMAIN_TAG ++ vec_to_list (compress shared_secret)).
Definition confirmation_validate (self : bytes32) (tx_pubkey : point) (view_private_key : scalar) : bool :=
  bool_decide (confirmation_from (get_tx_out_shared_secret view_private_key tx_pubkey) = self).
End confirmation.
