(* ===== verification/TxBuilder.v ===== *)
(** * The transaction builder

    [transaction/builder/src/transaction_builder.rs] with the credentials of
    inputs ([input_credentials.rs]), the materials for inputs
    ([input_materials.rs]), fog resolvers ([fog/report/validation/src/lib.rs]) and
    unsigned transactions ([transaction/extra/src/unsigned_tx.rs]).

    A method that takes [&mut self] returns the new state, also beside an
    error; methods that use the random generator return it too.  A missing memo
    builder, which the code expects to be there, is a panic. *)

From stdpp Require Import vector strings.
From S2P Require Import Prelude Ord Bytes TxOut BlockVersion Membership MaskedAmount Tx Ristretto OnetimeKeys Mlsag RingCt LightClient Config TxValidation Memo MemoBuilder CryptoBox Sci.

Open Scope N_scope.

(** ** Fog resolvers *)

Inductive FogPubkeyError :=
| NoMatchingReportResponse (url : bytes)
| NoMatchingReportId (url report_id : bytes)
| NoFogReportUrl
| FogUrl
| FogDeserialization
| IngestReport (what : bytes)
| FogAuthority (what : bytes).

Section fog.
Context `{C : Curve}.

Record FullyValidatedFogPubkey := mkFogPubkey {
  fog_pubkey : point;
  pubkey_expiry : N
}.

(** The trait [FogPubkeyResolver]. *)
Class FogPubkeyResolver (FPR : Type) : Type :=
  get_fog_pubkey : FPR → PublicAddress → result FullyValidatedFogPubkey FogPubkeyError.

(** [FogResolver], a map by address. *)
Record FogResolver := mkFogResolver { fog_responses : list (PublicAddress * FullyValidatedFogPubkey) }.
#[export] Instance fog_resolver_map : FogPubkeyResolver FogResolver := λ self address,
  match find_first (λ e, bool_decide (e.1 = address)) (fog_responses self) with
  | Some e => Ok e.2
  | None => Err NoFogReportUrl
  end.
End fog.

(** ** Errors *)

Section errors.
Context `{C : Curve} {R : Type} `{B : !Bulletproofs R}.

Inductive TxBuilderError :=
| TbRingSignatureFailed (e : RctError (R := R))
| TbRangeProofFailed
| TbSerializationFailed
| TbEncodingFailed
| TbBadAmount (e : AmountError)
| TbMixedTransactionsNotAllowed (expected found : N)
| TbNewTx (e : NewTxError)
| TbInvalidRingSize
| TbRingInvalidCurvePoint
| TbNoInputs
| TbFogPublicKey (e : FogPubkeyError)
| TbKeyError (e : OnetimeKeys.KeyError)
| TbMemo (e : NewMemoError)
| TbBlockVersionTooOld (v min : N)
| TbBlockVersionTooNew (v max : N)
| TbFeatureNotSupportedAtBlockVersion (v : N) (feature : bytes)
| TbSignedInputRulesNotAllowed
| TbMissingMembershipProofs
| TbSigner (e : SignerError)
| TbTxOutConversion (e : TxOutConversionError)
| TbAlreadyHavePartialFillChange.
End errors.

(** ** Inputs *)

Section credentials.
Context `{C : Curve} {R : Type} `{B : !Bulletproofs R}.

Record InputCredentials := mkInputCredentials {
  cred_ring : list TxOut;
  membership_proofs : list TxOutMembershipProof;
  real_index : nat;
  cred_input_secret : InputSecret
}.

(** [position]. *)
Fixpoint position {A} (f : A → bool) (l : list A) : option nat :=
  match l with
  | [] => None
  | x :: l => if f x then Some O else Datatypes.S <$> position f l
  end.

(** [InputCredentials::new].  The members and their proofs are sorted together;
    [zip] stops at the shorter list, so with too few proofs the real input may
    be lost, which panics. *)
Definition InputCredentials_new (ring : list TxOut) (membership_proofs : list TxOutMembershipProof) (real_index : nat)
    (onetime_key_derive_data : OneTimeKeyDeriveData) (view_private_key : scalar) :
    exec (result InputCredentials (TxBuilderError (R := R))) :=
  if (length ring <? real_index)%nat || bool_decide (ring = []) then Done (Err TbInvalidRingSize)
  else
    let^ real_input := Done (ok_or (ring !! real_index) TbNoInputs) in
    let^ real_output_public_key := Done (map_err TbKeyError (point_try_from (public_key real_input))) in
    let tx_out_shared_secret := create_shared_secret real_output_public_key view_private_key in
    let ring_and_proofs :=
      sort_by (λ a b, cmp (public_key a.1) (public_key b.1)) (zip ring membership_proofs) in
    let ring := ring_and_proofs.*1 in
    let membership_proofs := ring_and_proofs.*2 in
    let! real_index := unwrap (position (λ e, bool_decide (e = real_input)) ring) in
    let^ masked_amount := Done (map_err TbTxOutConversion (get_masked_amount real_input)) in
    let^ (amount, blinding) := Done (map_err TbBadAmount (get_value masked_amount (compress tx_out_shared_secret))) in
    Done (Ok (mkInputCredentials ring membership_proofs real_index
                (mkInputSecret onetime_key_derive_data amount blinding))).

(** [TryFrom<InputCredentials> for SignableInputRing] and
    [From<&InputCredentials> for TxIn]. *)
Definition signable_of_credentials (src : InputCredentials) : result SignableInputRing TxOutConversionError :=
  let? members := result_map ReducedTxOut_try_from (cred_ring src) in
  Ok (mkSignableInputRing members (real_index src) (cred_input_secret src)).
Definition tx_in_of_credentials (src : InputCredentials) : TxIn :=
  mkTxIn (cred_ring src) (membership_proofs src) None.

(** [InputMaterials]. *)
Inductive InputMaterials :=
| SignableMaterials (cred : InputCredentials)
| PresignedMaterials (sci : SignedContingentInput).

Definition tx_in_of_materials (src : InputMaterials) : TxIn :=
  match src with
  | SignableMaterials cred => tx_in_of_credentials cred
  | PresignedMaterials sci => sci_tx_in sci
  end.
(** [sort_key] indexes the first member, and panics where this is [None]. *)
Definition sort_key (self : InputMaterials) : option CompressedRistrettoPublic :=
  match self with
  | SignableMaterials cred => public_key <$> head (cred_ring cred)
  | PresignedMaterials sci => public_key <$> head (ring (sci_tx_in sci))
  end.
Definition materials_amount (self : InputMaterials) : Amount :=
  match self with
  | SignableMaterials cred => is_amount (cred_input_secret cred)
  | PresignedMaterials sci => unmasked_amount (pseudo_output_amount sci)
  end.
Definition materials_ring_size (self : InputMaterials) : nat :=
  match self with
  | SignableMaterials cred => length (cred_ring cred)
  | PresignedMaterials sci => length (ring (sci_tx_in sci))
  end.
Definition input_ring_of_materials (src : InputMaterials) : result InputRing TxOutConversionError :=
  match src with
  | SignableMaterials cred => let? r := signable_of_credentials cred in Ok (Signable r)
  | PresignedMaterials sci => Ok (Presigned (presigned_of_sci sci))
  end.

(** [TxOutSummaryUnblindingData]. *)
Record TxOutSummaryUnblindingData := mkUnblindingData {
  ud_unmasked_amount : UnmaskedAmount;
  ud_address : option PublicAddress;
  ud_tx_private_key : option scalar
}.

(** ** [UnsignedTx] *)

Record UnsignedTx := mkUnsignedTx {
  ut_tx_prefix : TxPrefix;
  ut_rings : list InputRing;
  ut_tx_out_unblinding_data : list TxOutSummaryUnblindingData;
  ut_block_version : BlockVersion
}.

Record TxSummaryUnblindingData := mkTxSummaryUnblindingData {
  tsu_block_version : N;
  tsu_outputs : list TxOutSummaryUnblindingData;
  tsu_inputs : list UnmaskedAmount
}.
End credentials.

Section unsigned.
Context `{C : Curve} {R : Type} `{!ScalarRng R} `{B : !Bulletproofs R} `{D : !RctDigests} `{CD : ConfigDigests}.

Definition output_secrets_of (self : UnsignedTx) : list OutputSecret :=
  (λ data, secret_of_unmasked (ud_unmasked_amount data)) <$> ut_tx_out_unblinding_data self.
Definition prefix_fee (p : TxPrefix) : Amount := mkAmount (fee p) (fee_token_id p).

(** [UnsignedTx::sign]. *)
Definition unsigned_sign {S : Type} `{!RingSigner R S} (self : UnsignedTx) (signer : S) (fee_map : option FeeMap) (rng : R) :
    exec (result (Tx * R) (RctError (R := R))) :=
  let prefix := ut_tx_prefix self in
  let output_secrets := output_secrets_of self in
  let^ (signature, rng) :=
    rct_sign (ut_block_version self) prefix (ut_rings self) output_secrets (prefix_fee prefix) signer rng in
  let fee_map_digest := match fee_map with Some fm => vec_to_list (canonical_digest fm) | None => [] end in
  Done (Ok (mkTx prefix signature fee_map_digest, rng)).

(** [UnsignedTx::get_signing_data]. *)
Definition get_signing_data (self : UnsignedTx) (rng : R) :
    exec (result (SigningData * TxSummary * TxSummaryUnblindingData * bytes * R) (RctError (R := R))) :=
  let fee_amount := prefix_fee (ut_tx_prefix self) in
  let output_secrets := output_secrets_of self in
  let^ (signing_data, tx_summary, extended_message_digest, rng) :=
    new_with_summary (ut_block_version self) (ut_tx_prefix self) (ut_rings self) output_secrets fee_amount true rng in
  if negb (length (sd_pseudo_output_blindings signing_data) =? length (ut_rings self))%nat
  then Done (Err (RctLengthMismatch (length (sd_pseudo_output_blindings signing_data)) (length (ut_rings self))))
  else
    let data := mkTxSummaryUnblindingData (ut_block_version self) (ut_tx_out_unblinding_data self)
      (zip_with (λ blinding ring, mkUnmaskedAmount (value (ring_amount ring)) (token_id (ring_amount ring)) blinding)
         (sd_pseudo_output_blindings signing_data) (ut_rings self)) in
    Done (Ok (signing_data, tx_summary, data, extended_message_digest, rng)).
End unsigned.

(** ** [TransactionBuilder] *)

Section records.
Context `{C : Curve}.

(** [TxOutContext]. *)
Record TxOutContext := mkTxOutContext {
  ctx_tx_out : TxOut;
  ctx_confirmation : bytes32;
  ctx_shared_secret : point
}.

Record TransactionBuilder (FPR MB : Type) := mkTransactionBuilder {
  tb_block_version : BlockVersion;
  input_materials : list InputMaterials;
  outputs_and_secrets : list (TxOut * TxOutSummaryUnblindingData);
  tb_tombstone_block : N;
  tb_fee : Amount;
  tb_fog_resolver : FPR;
  fog_tombstone_block_limit : N;
  memo_builder : option MB;
  tb_fee_map : option FeeMap
}.
End records.
Arguments mkTransactionBuilder {_ _ _} _ _ _ _ _ _ _ _ _.
Arguments tb_block_version {_ _ _} _.
Arguments input_materials {_ _ _} _.
Arguments outputs_and_secrets {_ _ _} _.
Arguments tb_tombstone_block {_ _ _} _.
Arguments tb_fee {_ _ _} _.
Arguments tb_fog_resolver {_ _ _} _.
Arguments fog_tombstone_block_limit {_ _ _} _.
Arguments memo_builder {_ _ _} _.
Arguments tb_fee_map {_ _ _} _.

Section builder.
Context `{C : Curve} `{DG : Digests} `{X : TxCrypto} {R : Type} `{!ScalarRng R} `{!PointRng R} `{A : BoxAead}.
Context `{B : !Bulletproofs R} `{D : !RctDigests} `{CD : ConfigDigests}.
Context {FPR MB : Type} `{F : !FogPubkeyResolver FPR} `{M : !MemoBuilder MB}.
Notation TB := (TransactionBuilder FPR MB).
Notation Err_ := (TxBuilderError (R := R)).
Implicit Types self : TB.

(** Assignments to fields. *)
Definition with_inputs self (l : list InputMaterials) : TB :=
  mkTransactionBuilder (tb_block_version self) l (outputs_and_secrets self) (tb_tombstone_block self) (tb_fee self)
    (tb_fog_resolver self) (fog_tombstone_block_limit self) (memo_builder self) (tb_fee_map self).
Definition with_outputs self (l : list (TxOut * TxOutSummaryUnblindingData)) : TB :=
  mkTransactionBuilder (tb_block_version self) (input_materials self) l (tb_tombstone_block self) (tb_fee self)
    (tb_fog_resolver self) (fog_tombstone_block_limit self) (memo_builder self) (tb_fee_map self).
Definition with_tombstone self (tombstone limit : N) : TB :=
  mkTransactionBuilder (tb_block_version self) (input_materials self) (outputs_and_secrets self) tombstone (tb_fee self)
    (tb_fog_resolver self) limit (memo_builder self) (tb_fee_map self).
Definition with_fee self (fee : Amount) : TB :=
  mkTransactionBuilder (tb_block_version self) (input_materials self) (outputs_and_secrets self)
    (tb_tombstone_block self) fee (tb_fog_resolver self) (fog_tombstone_block_limit self) (memo_builder self)
    (tb_fee_map self).
Definition with_memo_builder self (mb : option MB) : TB :=
  mkTransactionBuilder (tb_block_version self) (input_materials self) (outputs_and_secrets self)
    (tb_tombstone_block self) (tb_fee self) (tb_fog_resolver self) (fog_tombstone_block_limit self) mb
    (tb_fee_map self).

Definition push_output self (o : TxOut) (data : TxOutSummaryUnblindingData) : TB :=
  with_outputs self (outputs_and_secrets self ++ [(o, data)]).

(** [new_with_box]. *)
Definition new_with_box (block_version : BlockVersion) (fee : Amount) (fog_resolver : FPR) (memo_builder : MB) :
    result TB Err_ :=
  let (r, memo_builder) := mb_set_fee memo_builder fee in
  let? _ := map_err TbMemo r in
  Ok (mkTransactionBuilder block_version [] [] u64_max fee fog_resolver u64_max (Some memo_builder) None).

Definition add_input self (input_credentials : InputCredentials) : TB :=
  with_inputs self (input_materials self ++ [SignableMaterials input_credentials]).
Definition add_presigned_input_raw self (sci : SignedContingentInput) : TB :=
  with_inputs self (input_materials self ++ [PresignedMaterials sci]).

Definition set_tombstone_block self (tombstone_block : N) : N * TB :=
  let t := N.min tombstone_block (fog_tombstone_block_limit self) in
  (t, with_tombstone self t (fog_tombstone_block_limit self)).
Definition impose_tombstone_block_limit self (pubkey_expiry : N) : TB :=
  let limit := N.min (fog_tombstone_block_limit self) pubkey_expiry in
  with_tombstone self (N.min limit (tb_tombstone_block self)) limit.

Definition tb_set_fee self (fee_value : N) : exec (result unit Err_ * TB) :=
  let new_fee := mkAmount fee_value (token_id (tb_fee self)) in
  let! mb := unwrap (memo_builder self) in
  let (r, mb) := mb_set_fee mb new_fee in
  let self := with_memo_builder self (Some mb) in
  Done (match r with
        | Err e => (Err (TbMemo e), self)
        | Ok _ => (Ok tt, with_fee self new_fee)
        end).
Definition set_fee_map self (fee_map : FeeMap) : TB :=
  mkTransactionBuilder (tb_block_version self) (input_materials self) (outputs_and_secrets self)
    (tb_tombstone_block self) (tb_fee self) (tb_fog_resolver self) (fog_tombstone_block_limit self)
    (memo_builder self) (Some fee_map).

(** *** Outputs *)

(** [create_fog_hint]. *)
Definition create_fog_hint (recipient : PublicAddress) (fog_resolver : FPR) (rng : R) :
    exec (result (bytes * N) Err_ * R) :=
  if bool_decide (fog_report_url recipient = []) then
    let! (hint, rng) := fake_onetime_hint rng in
    Done (Ok (hint, u64_max), rng)
  else
    match get_fog_pubkey fog_resolver recipient with
    | Err e => Done (Err (TbFogPublicKey e), rng)
    | Ok validated_fog_pubkey =>
        let! (hint, rng) := fog_hint_encrypt (FogHint_from recipient) (fog_pubkey validated_fog_pubkey) rng in
        Done (Ok (hint, pubkey_expiry validated_fog_pubkey), rng)
    end.

(** [create_output_with_fog_hint]. *)
Definition create_output_with_fog_hint (block_version : BlockVersion) (amount : Amount) (recipient : PublicAddress)
    (fog_hint : bytes) (memo_fn : point → result bytes NewMemoError) (tx_private_key : scalar) :
    result (TxOut * point) Err_ :=
  let? tx_out := map_err TbNewTx (new_with_memo block_version amount recipient tx_private_key fog_hint memo_fn) in
  let shared_secret := create_shared_secret (view_public_key recipient) tx_private_key in
  Ok (tx_out, shared_secret).

(** The memo builder after [TxOut::new_with_memo] was called with a closure
    over it: the closure runs once the amount is masked, if the block version has
    memos. *)
Definition memo_builder_after (block_version : BlockVersion) (amount : Amount) (recipient : PublicAddress)
    (memo_fn : MB → point → result bytes NewMemoError * MB) (tx_private_key : scalar) (mb : MB) : MB :=
  let shared_secret := create_shared_secret (view_public_key recipient) tx_private_key in
  match MaskedAmount_new block_version amount (compress shared_secret) with
  | Ok _ =>
      if e_memo_feature_is_supported block_version
      then (memo_fn mb (create_tx_out_public_key tx_private_key (spend_public_key recipient))).2 else mb
  | Err _ => mb
  end.

(** [add_output_with_fog_hint_address], with the memo builder that the closure
    captured. *)
Definition add_output_with_fog_hint_address self (mb : MB) (amount : Amount) (recipient fog_hint_address : PublicAddress)
    (tx_private_key : option scalar) (memo_fn : MB → point → result bytes NewMemoError * MB) (rng : R) :
    exec (result TxOutContext Err_ * TB * MB * R) :=
  let! (r, rng) := create_fog_hint fog_hint_address (tb_fog_resolver self) rng in
  match r with
  | Err e => Done (Err e, self, mb, rng)
  | Ok (hint, pubkey_expiry) =>
      if negb (mixed_transactions_are_supported (tb_block_version self))
         && negb (token_id (tb_fee self) =? token_id amount)
      then Done (Err (TbMixedTransactionsNotAllowed (token_id (tb_fee self)) (token_id amount)), self, mb, rng)
      else
        let (tx_private_key, rng) :=
          match tx_private_key with Some k => (k, rng) | None => random_scalar rng end in
        let mb' := memo_builder_after (tb_block_version self) amount recipient memo_fn tx_private_key mb in
        match create_output_with_fog_hint (tb_block_version self) amount recipient hint (λ R, (memo_fn mb R).1) tx_private_key with
        | Err e => Done (Err e, self, mb', rng)
        | Ok (tx_out, shared_secret) =>
            let! masked_amount := unwrap (masked_amount tx_out) in
            let! (amount, blinding) :=
              match get_value masked_amount (compress shared_secret) with Ok x => Done x | Err _ => Panic end in
            let unblinding_data := mkUnblindingData (unmasked_of_secret (mkOutputSecret amount blinding))
              (Some recipient) (Some tx_private_key) in
            let self := impose_tombstone_block_limit self pubkey_expiry in
            let self := push_output self tx_out unblinding_data in
            let confirmation := confirmation_from shared_secret in
            Done (Ok (mkTxOutContext tx_out confirmation shared_secret), self, mb', rng)
        end
  end.

(** The memo builder is taken, and put back afterwards. *)
Definition with_taken_memo_builder self
    (f : TB → MB → exec (result TxOutContext Err_ * TB * MB * R)) : exec (result TxOutContext Err_ * TB * R) :=
  let! mb := unwrap (memo_builder self) in
  let! (result, self, mb, rng) := f (with_memo_builder self None) mb in
  Done (result, with_memo_builder self (Some mb), rng).

Definition add_output_with_tx_private_key self (amount : Amount) (recipient : PublicAddress)
    (tx_private_key : option scalar) (rng : R) : exec (result TxOutContext Err_ * TB * R) :=
  with_taken_memo_builder self (λ self mb,
    add_output_with_fog_hint_address self mb amount recipient recipient tx_private_key
      (λ mb R, make_memo_for_output mb amount recipient R) rng).

Definition add_output self (amount : Amount) (recipient : PublicAddress) (rng : R) :
    exec (result TxOutContext Err_ * TB * R) :=
  add_output_with_tx_private_key self amount recipient None rng.

Definition add_change_output self (amount : Amount) (change_destination : ReservedSubaddresses) (rng : R) :
    exec (result TxOutContext Err_ * TB * R) :=
  with_taken_memo_builder self (λ self mb,
    add_output_with_fog_hint_address self mb amount (rs_change_subaddress change_destination)
      (primary_address change_destination) None
      (λ mb R, make_memo_for_change_output mb amount change_destination R) rng).

Definition add_gift_code_output self (amount : Amount) (reserved_subaddresses : ReservedSubaddresses) (rng : R) :
    exec (result TxOutContext Err_ * TB * R) :=
  with_taken_memo_builder self (λ self mb,
    add_output_with_fog_hint_address self mb amount (rs_gift_code_subaddress reserved_subaddresses)
      (primary_address reserved_subaddresses) None
      (λ mb R, make_memo_for_output mb amount (rs_gift_code_subaddress reserved_subaddresses) R) rng).

(** *** Presigned inputs *)

(** The loop over the required outputs. *)
Definition add_required_output_if_missing self (p : TxOut * UnmaskedAmount) : TB :=
  let '(required_output, unmasked_amount) := p in
  if negb (existsb (λ o, bool_decide (o.1 = required_output)) (outputs_and_secrets self))
  then push_output self required_output (mkUnblindingData unmasked_amount None None)
  else self.

(** [add_presigned_input_helper]. *)
Definition add_presigned_input_helper self (sci : SignedContingentInput) :
    result unit SignedContingentInputError * TB :=
  if negb (tb_block_version self =? sci_block_version sci)
  then (Err (SciBlockVersionMismatch (tb_block_version self) (sci_block_version sci)), self)
  else if negb (length (ring (sci_tx_in sci)) =? length (proofs (sci_tx_in sci)))%nat
  then (Err SciMissingProofs, self)
  else
    match input_rules (sci_tx_in sci) with
    | None => (Err SciMissingRules, self)
    | Some rules =>
        if negb (length (required_outputs rules) =? length (required_output_amounts sci))%nat
        then (Err SciWrongNumberOfRequiredOutputAmounts, self)
        else
          let self := foldl add_required_output_if_missing self
                        (zip (required_outputs rules) (required_output_amounts sci)) in
          let self := if negb (max_tombstone_block rules =? 0)
                      then impose_tombstone_block_limit self (max_tombstone_block rules) else self in
          (Ok tt, add_presigned_input_raw self sci)
    end.

(** [add_presigned_input]. *)
Definition add_presigned_input self (sci : SignedContingentInput) : result unit SignedContingentInputError * TB :=
  let partial_fill :=
    match input_rules (sci_tx_in sci) with
    | Some rules => bool_decide (is_Some (partial_fill_change rules))
                    || negb (bool_decide (partial_fill_outputs rules = []))
                    || negb (min_partial_fill_value rules =? 0)
    | None => false
    end in
  if partial_fill then (Err SciPartialFillInputNotAllowedHere, self) else add_presigned_input_helper self sci.

(** The loop that adds the fractional outputs, in the order of the rules. *)
Fixpoint add_fractional_outputs self (fill_fraction : U64Ratio) (l : list (RevealedTxOut * Amount * scalar)) :
    exec (result (list Amount) SignedContingentInputError * TB) :=
  match l with
  | [] => Done (Ok [], self)
  | (r_tx_out, amount, blinding) :: l =>
      let! v := unwrap (checked_mul_round_up fill_fraction (value amount)) in
      let fractional_amount := mkAmount v (token_id amount) in
      match change_committed_amount r_tx_out fractional_amount with
      | Err e => Done (Err (SciRevealedTxOut e), self)
      | Ok fractional_tx_out =>
          let unblinding_data :=
            mkUnblindingData (unmasked_of_secret (mkOutputSecret fractional_amount blinding)) None None in
          let! (r, self) := add_fractional_outputs (push_output self fractional_tx_out unblinding_data) fill_fraction l in
          Done (let? rest := r in Ok (fractional_amount :: rest), self)
      end
  end.

(** The checks before anything is added: the change, its amount and blinding,
    and the fill fraction. *)
Definition partial_fill_checks self (sci : SignedContingentInput) (sci_change_amount : Amount) :
    result (InputRules * RevealedTxOut * scalar * U64Ratio) SignedContingentInputError :=
  if negb (masked_amount_v2_is_supported (tb_block_version self))
  then Err (SciFeatureNotSupportedAtBlockVersion (tb_block_version self) (str_bytes "partial fills"))
  else if negb (length (ring (sci_tx_in sci)) =? length (proofs (sci_tx_in sci)))%nat then Err SciMissingProofs
  else
    let? rules := ok_or (input_rules (sci_tx_in sci)) SciMissingRules in
    let? change := ok_or (partial_fill_change rules) SciMissingPartialFillChange in
    let? (change_amount, change_blinding) := map_err SciRevealedTxOut (reveal_amount change) in
    if value change_amount =? 0 then Err SciZeroPartialFillChange
    else if value change_amount <? min_partial_fill_value rules then Err SciMinPartialFillValueExceedsPartialChange
    else if negb (token_id change_amount =? token_id sci_change_amount) then Err SciTokenIdMismatch
    else if u64_sub (value change_amount) (min_partial_fill_value rules) <? value sci_change_amount
    then Err SciChangeLimitExceeded
    else
      let? fill_fraction := ok_or (U64Ratio_new (u64_sub (value change_amount) (value sci_change_amount)) (value change_amount))
                              SciZeroPartialFillChange in
      Ok (rules, change, change_blinding, fill_fraction).

(** [add_presigned_partial_fill_input]. *)
Definition add_presigned_partial_fill_input self (sci : SignedContingentInput) (sci_change_amount : Amount) :
    exec (result (list Amount) SignedContingentInputError * TB) :=
  match partial_fill_checks self sci sci_change_amount with
  | Err e => Done (Err e, self)
  | Ok (rules, change, change_blinding, fill_fraction) =>
      match result_map (λ r, let? (amount, blinding) := reveal_amount r in Ok (r, amount, blinding))
              (partial_fill_outputs rules) with
      | Err e => Done (Err (SciRevealedTxOut e), self)
      | Ok partial_fill_outputs_and_amounts =>
          let! (r, self) := add_fractional_outputs self fill_fraction partial_fill_outputs_and_amounts in
          match r with
          | Err e => Done (Err e, self)
          | Ok fractional_amounts =>
              match change_committed_amount change sci_change_amount with
              | Err e => Done (Err (SciRevealedTxOut e), self)
              | Ok fractional_change =>
                  let self := push_output self fractional_change
                    (mkUnblindingData (unmasked_of_secret (mkOutputSecret sci_change_amount change_blinding)) None None) in
                  let (r, self) := add_presigned_input_helper self sci in
                  Done (let? _ := r in Ok fractional_amounts, self)
              end
          end
      end
  end.

(** *** Building *)

(** The check of one input. *)
Definition check_input self (input : InputMaterials) : result unit Err_ :=
  if negb (mixed_transactions_are_supported (tb_block_version self))
     && negb (token_id (materials_amount input) =? token_id (tb_fee self))
  then Err (TbMixedTransactionsNotAllowed (token_id (tb_fee self)) (token_id (materials_amount input)))
  else
    match input with
    | PresignedMaterials sci =>
        if negb (signed_input_rules_are_supported (tb_block_version self)) then Err TbSignedInputRulesNotAllowed
        else if negb (length (ring (sci_tx_in sci)) =? length (proofs (sci_tx_in sci)))%nat
        then Err TbMissingMembershipProofs else Ok tt
    | SignableMaterials cred =>
        if negb (length (cred_ring cred) =? length (membership_proofs cred))%nat
        then Err TbMissingMembershipProofs else Ok tt
    end.

(** [sort_by] with [sort_key]: comparing two elements panics if one has an empty
    ring. *)
Definition sort_inputs (l : list InputMaterials) : exec (list InputMaterials) :=
  if (2 <=? length l)%nat && existsb (λ m, bool_decide (sort_key m = None)) l then Panic
  else Done (sort_by (λ a b, match sort_key a, sort_key b with
                             | Some a, Some b => cmp a b
                             | _, _ => Eq
                             end) l).

(** [build_unsigned], for the order of outputs [O]. *)
Definition build_unsigned (O : CompressedRistrettoPublic → CompressedRistrettoPublic → comparison) self :
    exec (result UnsignedTx Err_) :=
  if tb_block_version self <? 0 then Done (Err (TbBlockVersionTooOld (tb_block_version self) 0))
  else if VERSION_MAX <? tb_block_version self
  then Done (Err (TbBlockVersionTooNew (tb_block_version self) VERSION_MAX))
  else if negb (masked_token_id_feature_is_supported (tb_block_version self)) && negb (token_id (tb_fee self) =? 0)
  then Done (Err (TbFeatureNotSupportedAtBlockVersion (tb_block_version self) (str_bytes "nonzero token id")))
  else if bool_decide (input_materials self = []) then Done (Err TbNoInputs)
  else if negb (windows_all (λ a b, (materials_ring_size a =? materials_ring_size b)%nat) (input_materials self))
  then Done (Err TbInvalidRingSize)
  else
    let^ _ := Done (for_each (check_input self) (input_materials self)) in
    let! materials := sort_inputs (input_materials self) in
    let inputs := tx_in_of_materials <$> materials in
    let outputs_and_secrets := sort_by (λ a b, O (public_key a.1) (public_key b.1)) (outputs_and_secrets self) in
    let tx_prefix := mkTxPrefix inputs outputs_and_secrets.*1 (value (tb_fee self)) (tb_tombstone_block self)
                       (token_id (tb_fee self)) in
    let^ input_rings := Done (map_err TbTxOutConversion (result_map input_ring_of_materials materials)) in
    Done (Ok (mkUnsignedTx tx_prefix input_rings outputs_and_secrets.*2 (tb_block_version self))).

(** [build_with_comparer_internal] and [build]. *)
Definition build_with_comparer {S : Type} `{!RingSigner R S}
    (O : CompressedRistrettoPublic → CompressedRistrettoPublic → comparison) self (ring_signer : S) (rng : R) :
    exec (result (Tx * R) Err_) :=
  let fee_map := tb_fee_map self in
  let^ unsigned_tx := build_unsigned O self in
  emap_err TbRingSignatureFailed (unsigned_sign unsigned_tx ring_signer fee_map rng).
Definition build {S : Type} `{!RingSigner R S} self (ring_signer : S) (rng : R) : exec (result (Tx * R) Err_) :=
  build_with_comparer cmp self ring_signer rng.
End builder.
