(* ===== verification/SciBuilder.v ===== *)
(** * The builder of signed contingent inputs

    [transaction/builder/src/signed_contingent_input_builder.rs]: plays the role
    of the transaction builder for an input that is signed ahead, with the
    outputs its rules require and those a partial fill scales down. *)

From stdpp Require Import vector strings.
From S2P Require Import Prelude Ord Bytes TxOut BlockVersion Membership MaskedAmount Tx Ristretto OnetimeKeys Mlsag RingCt LightClient Config TxValidation Memo MemoBuilder CryptoBox Sci TxBuilder.

Open Scope N_scope.

Inductive SciBuilderError :=
| SbMissingProofs (ring proofs : nat)
| SbMemo (e : NewMemoError).

Section records.
Context `{C : Curve}.

Record SignedContingentInputBuilder (FPR MB : Type) := mkSciBuilder {
  sb_block_version : BlockVersion;
  sb_input_credentials : InputCredentials;
  required_outputs_and_secrets : list (TxOut * OutputSecret);
  sb_tombstone_block : N;
  sb_partial_fill_outputs : list RevealedTxOut;
  sb_partial_fill_change : option RevealedTxOut;
  sb_min_partial_fill_value : N;
  sb_fog_resolver : FPR;
  sb_fog_tombstone_block_limit : N;
  sb_memo_builder : option MB
}.
End records.
Arguments mkSciBuilder {_ _ _} _ _ _ _ _ _ _ _ _ _.
Arguments sb_block_version {_ _ _} _.
Arguments sb_input_credentials {_ _ _} _.
Arguments required_outputs_and_secrets {_ _ _} _.
Arguments sb_tombstone_block {_ _ _} _.
Arguments sb_partial_fill_outputs {_ _ _} _.
Arguments sb_partial_fill_change {_ _ _} _.
Arguments sb_min_partial_fill_value {_ _ _} _.
Arguments sb_fog_resolver {_ _ _} _.
Arguments sb_fog_tombstone_block_limit {_ _ _} _.
Arguments sb_memo_builder {_ _ _} _.

Section builder.
Context `{C : Curve} `{DG : Digests} `{X : TxCrypto} {R : Type} `{!ScalarRng R} `{!PointRng R} `{A : BoxAead}.
Context `{B : !Bulletproofs R}.
Context {FPR MB : Type} `{F : !FogPubkeyResolver FPR} `{M : !MemoBuilder MB}.
Notation SB := (SignedContingentInputBuilder FPR MB).
Notation Err_ := (TxBuilderError (R := R)).
Implicit Types self : SB.

(** Assignments to fields. *)
Definition sb_with_required self (l : list (TxOut * OutputSecret)) : SB :=
  mkSciBuilder (sb_block_version self) (sb_input_credentials self) l (sb_tombstone_block self)
    (sb_partial_fill_outputs self) (sb_partial_fill_change self) (sb_min_partial_fill_value self)
    (sb_fog_resolver self) (sb_fog_tombstone_block_limit self) (sb_memo_builder self).
Definition sb_with_tombstone self (tombstone limit : N) : SB :=
  mkSciBuilder (sb_block_version self) (sb_input_credentials self) (required_outputs_and_secrets self) tombstone
    (sb_partial_fill_outputs self) (sb_partial_fill_change self) (sb_min_partial_fill_value self)
    (sb_fog_resolver self) limit (sb_memo_builder self).
Definition sb_with_partial self (l : list RevealedTxOut) (change : option RevealedTxOut) : SB :=
  mkSciBuilder (sb_block_version self) (sb_input_credentials self) (required_outputs_and_secrets self)
    (sb_tombstone_block self) l change (sb_min_partial_fill_value self)
    (sb_fog_resolver self) (sb_fog_tombstone_block_limit self) (sb_memo_builder self).
Definition set_min_partial_fill_value self (value : N) : SB :=
  mkSciBuilder (sb_block_version self) (sb_input_credentials self) (required_outputs_and_secrets self)
    (sb_tombstone_block self) (sb_partial_fill_outputs self) (sb_partial_fill_change self) value
    (sb_fog_resolver self) (sb_fog_tombstone_block_limit self) (sb_memo_builder self).
Definition sb_with_memo_builder self (mb : option MB) : SB :=
  mkSciBuilder (sb_block_version self) (sb_input_credentials self) (required_outputs_and_secrets self)
    (sb_tombstone_block self) (sb_partial_fill_outputs self) (sb_partial_fill_change self)
    (sb_min_partial_fill_value self) (sb_fog_resolver self) (sb_fog_tombstone_block_limit self) mb.

(** [new_with_box]: memos say that the fee is zero. *)
Definition sb_new_with_box (block_version : BlockVersion) (input_credentials : InputCredentials) (fog_resolver : FPR)
    (memo_builder : MB) : result SB SciBuilderError :=
  if negb (length (cred_ring input_credentials) =? length (membership_proofs input_credentials))%nat
  then Err (SbMissingProofs (length (cred_ring input_credentials)) (length (membership_proofs input_credentials)))
  else
    let (r, memo_builder) := mb_set_fee memo_builder (mkAmount 0 0) in
    let? _ := map_err SbMemo r in
    Ok (mkSciBuilder block_version input_credentials [] u64_max [] None 0 fog_resolver u64_max (Some memo_builder)).

Definition sb_set_tombstone_block self (tombstone_block : N) : N * SB :=
  let t := N.min tombstone_block (sb_fog_tombstone_block_limit self) in
  (t, sb_with_tombstone self t (sb_fog_tombstone_block_limit self)).
Definition sb_impose_tombstone_block_limit self (pubkey_expiry : N) : SB :=
  let limit := N.min (sb_fog_tombstone_block_limit self) pubkey_expiry in
  sb_with_tombstone self (N.min limit (sb_tombstone_block self)) limit.

(** The steps shared by the two kinds of output: the hint, then the output with
    a fresh key; also the memo builder that the closure captured. *)
Definition sb_make_output self (mb : MB) (amount : Amount) (recipient fog_hint_address : PublicAddress)
    (memo_fn : MB → point → result bytes NewMemoError * MB) (rng : R) :
    exec (result (TxOut * point * N) Err_ * MB * R) :=
  let! (r, rng) := create_fog_hint fog_hint_address (sb_fog_resolver self) rng in
  match r with
  | Err e => Done (Err e, mb, rng)
  | Ok (hint, pubkey_expiry) =>
      let (tx_private_key, rng) := random_scalar rng in
      let mb' := memo_builder_after (sb_block_version self) amount recipient memo_fn tx_private_key mb in
      Done (let? (tx_out, shared_secret) := create_output_with_fog_hint (sb_block_version self) amount recipient hint
              (λ R, (memo_fn mb R).1) tx_private_key in
            Ok (tx_out, shared_secret, pubkey_expiry), mb', rng)
  end.

(** [add_required_output_with_fog_hint_address]. *)
Definition add_required_output_with_fog_hint_address self (mb : MB) (amount : Amount)
    (recipient fog_hint_address : PublicAddress) (memo_fn : MB → point → result bytes NewMemoError * MB) (rng : R) :
    exec (result (TxOut * bytes32) Err_ * SB * MB * R) :=
  let! (r, mb, rng) := sb_make_output self mb amount recipient fog_hint_address memo_fn rng in
  match r with
  | Err e => Done (Err e, self, mb, rng)
  | Ok (tx_out, shared_secret, pubkey_expiry) =>
      let! masked_amount := unwrap (masked_amount tx_out) in
      let! (amount, blinding) :=
        match get_value masked_amount (compress shared_secret) with Ok x => Done x | Err _ => Panic end in
      let self := sb_impose_tombstone_block_limit self pubkey_expiry in
      let self := sb_with_required self (required_outputs_and_secrets self ++ [(tx_out, mkOutputSecret amount blinding)]) in
      Done (Ok (tx_out, confirmation_from shared_secret), self, mb, rng)
  end.

(** [make_partial_fill_output_with_fog_hint_address]. *)
Definition make_partial_fill_output_with_fog_hint_address self (mb : MB) (amount : Amount)
    (recipient fog_hint_address : PublicAddress) (memo_fn : MB → point → result bytes NewMemoError * MB) (rng : R) :
    exec (result (RevealedTxOut * bytes32) Err_ * SB * MB * R) :=
  if negb (masked_amount_v2_is_supported (sb_block_version self))
  then Done (Err (TbFeatureNotSupportedAtBlockVersion (sb_block_version self) (str_bytes "partial fills")), self, mb, rng)
  else
    let! (r, mb, rng) := sb_make_output self mb amount recipient fog_hint_address memo_fn rng in
    match r with
    | Err e => Done (Err e, self, mb, rng)
    | Ok (tx_out, shared_secret, pubkey_expiry) =>
        let self := sb_impose_tombstone_block_limit self pubkey_expiry in
        match compute_amount_shared_secret (sb_block_version self) (compress shared_secret) with
        | Err e => Done (Err (TbBadAmount e), self, mb, rng)
        | Ok amount_shared_secret =>
            Done (Ok (mkRevealedTxOut tx_out (vec_to_list amount_shared_secret), confirmation_from shared_secret),
                  self, mb, rng)
        end
    end.

(** The memo builder is taken, and put back afterwards. *)
Definition sb_with_taken_memo_builder {T} self (f : SB → MB → exec (result T Err_ * SB * MB * R)) :
    exec (result T Err_ * SB * R) :=
  let! mb := unwrap (sb_memo_builder self) in
  let! (result, self, mb, rng) := f (sb_with_memo_builder self None) mb in
  Done (result, sb_with_memo_builder self (Some mb), rng).

Definition add_required_output self (amount : Amount) (recipient : PublicAddress) (rng : R) :
    exec (result (TxOut * bytes32) Err_ * SB * R) :=
  sb_with_taken_memo_builder self (λ self mb,
    add_required_output_with_fog_hint_address self mb amount recipient recipient
      (λ mb R, make_memo_for_output mb amount recipient R) rng).
Definition add_required_change_output self (amount : Amount) (change_destination : ReservedSubaddresses) (rng : R) :
    exec (result (TxOut * bytes32) Err_ * SB * R) :=
  sb_with_taken_memo_builder self (λ self mb,
    add_required_output_with_fog_hint_address self mb amount (rs_change_subaddress change_destination)
      (primary_address change_destination) (λ mb R, make_memo_for_change_output mb amount change_destination R) rng).

Definition add_partial_fill_output self (amount : Amount) (recipient : PublicAddress) (rng : R) :
    exec (result (TxOut * bytes32) Err_ * SB * R) :=
  let! (r, self, rng) := sb_with_taken_memo_builder self (λ self mb,
    make_partial_fill_output_with_fog_hint_address self mb amount recipient recipient
      (λ mb R, make_memo_for_output mb amount recipient R) rng) in
  match r with
  | Err e => Done (Err e, self, rng)
  | Ok (revealed_tx_out, confirmation_number) =>
      Done (Ok (rev_tx_out revealed_tx_out, confirmation_number),
            sb_with_partial self (sb_partial_fill_outputs self ++ [revealed_tx_out]) (sb_partial_fill_change self), rng)
  end.

Definition add_partial_fill_change_output self (amount : Amount) (change_destination : ReservedSubaddresses) (rng : R) :
    exec (result (TxOut * bytes32) Err_ * SB * R) :=
  if bool_decide (is_Some (sb_partial_fill_change self)) then Done (Err TbAlreadyHavePartialFillChange, self, rng)
  else
    let! (r, self, rng) := sb_with_taken_memo_builder self (λ self mb,
      make_partial_fill_output_with_fog_hint_address self mb amount (rs_change_subaddress change_destination)
        (primary_address change_destination) (λ mb R, make_memo_for_change_output mb amount change_destination R) rng) in
    match r with
    | Err e => Done (Err e, self, rng)
    | Ok (revealed_tx_out, confirmation_number) =>
        Done (Ok (rev_tx_out revealed_tx_out, confirmation_number),
              sb_with_partial self (sb_partial_fill_outputs self) (Some revealed_tx_out), rng)
    end.

(** The rules that [build] signs; [u64::MAX] stands for no limit, and so does 0
    in the rules. *)
Definition sb_input_rules self : InputRules :=
  let required := sort_by (λ a b, cmp (public_key a.1) (public_key b.1)) (required_outputs_and_secrets self) in
  mkInputRules required.*1 (if sb_tombstone_block self =? u64_max then 0 else sb_tombstone_block self)
    (sort_by (λ a b, cmp (public_key (rev_tx_out a)) (public_key (rev_tx_out b))) (sb_partial_fill_outputs self))
    (sb_partial_fill_change self) (sb_min_partial_fill_value self).

(** [build]. *)
Definition sb_build {S : Type} `{!RingSigner R S} self (ring_signer : S) (rng : R) :
    exec (result (SignedContingentInput * R) Err_) :=
  if negb (signed_input_rules_are_supported (sb_block_version self))
     || negb (mixed_transactions_are_supported (sb_block_version self))
  then Done (Err (TbBlockVersionTooOld (sb_block_version self) VERSION_THREE))
  else if VERSION_MAX <? sb_block_version self
  then Done (Err (TbBlockVersionTooNew (sb_block_version self) VERSION_MAX))
  else
    let required := sort_by (λ a b, cmp (public_key a.1) (public_key b.1)) (required_outputs_and_secrets self) in
    let output_secrets := required.*2 in
    let input_rules := sb_input_rules self in
    let creds := sb_input_credentials self in
    let tx_out_global_indices := (λ proof, proof_index proof) <$> membership_proofs creds in
    let tx_in := mkTxIn (cred_ring creds) [] (Some input_rules) in
    let^ ring := Done (map_err TbTxOutConversion (signable_of_credentials creds)) in
    let (pseudo_output_blinding, rng) := random_scalar rng in
    let! digest := unwrap (signed_digest tx_in) in
    let^ (mlsag, rng) := emap_err TbSigner (signer_sign ring_signer (vec_to_list digest) ring pseudo_output_blinding rng) in
    let amount := is_amount (RingCt.input_secret ring) in
    let pseudo_output_amount := mkUnmaskedAmount (value amount) (token_id amount) pseudo_output_blinding in
    Done (Ok (mkSci (sb_block_version self) tx_in mlsag pseudo_output_amount
                (unmasked_of_secret <$> output_secrets) tx_out_global_indices, rng)).
End builder.
