(* ===== verification/TxBuilderProps.v ===== *)
(** * The transaction builder: proofs

    An invariant of the builder, kept by every method: outputs open their
    commitments and have the fields of the block version, the tombstone block
    respects every limit, and the rules of presigned inputs are satisfied.  From
    it, the transactions it builds pass the validation of consensus. *)

From stdpp Require Import vector strings.
From S2P Require Import Prelude Ord Bytes TxOut BlockVersion Membership MaskedAmount Tx Ristretto OnetimeKeys Mlsag RingCt RingCtProps LightClient Config TxValidation Memo MemoBuilder CryptoBox Sci TxBuilder Digestible.

Open Scope N_scope.

Module TxBuilderProps.
Import ValidationProps RingCtProps.RingCtProps.

(** ** Sorting by a key *)
Section sorting.
Context {A B : Type} `{TotalOrd B} (k : A → B).

Lemma insert_by_key_sorted x l :
  StronglySorted (λ a b, ord_le (k a) (k b)) l →
  StronglySorted (λ a b, ord_le (k a) (k b)) (insert_by (λ a b, cmp (k a) (k b)) x l).
Proof.
  induction 1 as [|y l Hl IH Hh]; simpl; [by repeat constructor|].
  assert (∀ z, ord_le (k x) (k y) → z ∈ l → ord_le (k x) (k z)) as Htr.
  { intros z Hxy Hz. rewrite Forall_forall in Hh. etrans; [exact Hxy|by apply Hh]. }
  destruct (cmp (k x) (k y)) eqn:E.
  - assert (ord_le (k x) (k y)) by (unfold ord_le; by rewrite E).
    constructor; [by constructor|]. constructor; [done|]. apply Forall_forall. auto.
  - assert (ord_le (k x) (k y)) by (unfold ord_le; by rewrite E).
    constructor; [by constructor|]. constructor; [done|]. apply Forall_forall. auto.
  - constructor; [done|]. rewrite insert_by_perm. constructor; [|done].
    apply cmp_gt_lt in E. by apply ord_lt_le.
Qed.

Lemma sort_by_key_sorted l :
  StronglySorted (λ a b, ord_le (k a) (k b)) (sort_by (λ a b, cmp (k a) (k b)) l).
Proof. induction l as [|x l IH]; simpl; [constructor|by apply insert_by_key_sorted]. Qed.

(** Distinct keys are in strictly ascending order. *)
Lemma key_sorted_strict l :
  StronglySorted (λ a b, ord_le (k a) (k b)) l → NoDup (k <$> l) →
  StronglySorted (λ a b, ord_lt (k a) (k b)) l.
Proof.
  induction 1 as [|x l Hl IH Hh]; [constructor|]. rewrite fmap_cons, NoDup_cons. intros [Hx Hn].
  constructor; [by apply IH|]. rewrite Forall_forall in Hh |- *. intros y Hy. specialize (Hh y Hy).
  unfold ord_le, ord_lt in *. destruct (cmp (k x) (k y)) eqn:E; [|done|done].
  apply cmp_eq_iff in E. destruct Hx. rewrite E. by apply list_elem_of_fmap_2.
Qed.
End sorting.

Lemma sorted_fst {A B} (R : A → A → Prop) (l : list (A * B)) :
  StronglySorted (λ x y, R x.1 y.1) l → StronglySorted R l.*1.
Proof. induction 1; simpl; constructor; [done|by apply Forall_fmap]. Qed.

(** Outputs in ascending order of their public keys. *)
Definition key_le (a b : TxOut) : Prop := ord_le (public_key a) (public_key b).

(** ** Openings of commitments *)
Section openings.
Context `{K : AmountCrypto}.

Lemma v2_value_opens a ss amount blinding :
  v2_get_value_from_amount_shared_secret a ss = Ok (amount, blinding) →
  v2_commitment a = pedersen (value amount) blinding (token_id amount) ∧ blinding = (get_blinding_factors ss).2.
Proof.
  unfold v2_get_value_from_amount_shared_secret, v2_compute_commitment. intros H.
  apply result_bind_Ok in H as ([[c am] bl] & Hc & H).
  destruct (get_blinding_factors ss) as [[vm tm] b]. destruct (bool_decide _); [|done].
  injection Hc as <- <- <-. case_bool_decide as E; simpl in H; [|done]. injection H as <- <-. done.
Qed.

(** A value that was read from a masked amount opens its commitment. *)
Lemma get_value_opens a ss amount blinding :
  get_value a ss = Ok (amount, blinding) → commitment a = pedersen (value amount) blinding (token_id amount).
Proof.
  destruct a as [a|a]; simpl; intros H.
  - unfold v1_get_value, v1_compute_commitment in H. apply result_bind_Ok in H as ([c am] & Hc & H).
    apply result_bind_Ok in Hc as (t & Ht & [= <- <-]).
    case_bool_decide as E; simpl in H; [|done]. injection H as <- <-. done.
  - by apply v2_value_opens in H as [? _].
Qed.

Lemma reveal_opens o ss amount blinding :
  try_reveal_amount o ss = Ok (amount, blinding) →
  ∃ a s, masked_amount o = Some (V2 a) ∧ to_bytes32 ss = Some s ∧
    v2_get_value_from_amount_shared_secret a s = Ok (amount, blinding).
Proof.
  unfold try_reveal_amount, get_masked_amount. intros H.
  apply result_bind_Ok in H as (s & Hs & H). apply ok_or_Ok in Hs.
  apply result_bind_Ok in H as (m & Hm & H). apply map_err_Ok in Hm, H.
  destruct (masked_amount o) as [m'|]; [|done]. injection Hm as ->.
  destruct m as [m|m]; [done|]. by exists m, s.
Qed.

Lemma eq_ignoring_amount_iff a b :
  eq_ignoring_amount a b = true ↔
  target_key a = target_key b ∧ public_key a = public_key b ∧ e_fog_hint a = e_fog_hint b ∧ e_memo a = e_memo b.
Proof.
  unfold eq_ignoring_amount. cbv zeta. rewrite bool_decide_eq_true. cbv beta. split; [by intros [= -> -> -> ->]|].
  by intros (-> & -> & -> & ->).
Qed.

(** The token of a revealed amount is a [u64]. *)
Lemma revealed_token_lt o ss amount blinding :
  try_reveal_amount o ss = Ok (amount, blinding) → token_id amount < 2 ^ 64.
Proof.
  intros (a & s & _ & _ & H)%reveal_opens. unfold v2_get_value_from_amount_shared_secret, v2_compute_commitment in H.
  apply result_bind_Ok in H as ([[c am] bl] & Hc & H). unfold get_blinding_factors in Hc.
  destruct (bool_decide (length (v2_masked_token_id a) = _)) eqn:El in Hc; [|done].
  apply bool_decide_eq_true in El. injection Hc as <- <- <-. destruct (negb _); [done|]. injection H as <- <-. simpl.
  apply lxor_lt; apply MaskedAmountProps.mask_lt; [by rewrite El|by rewrite length_vec_to_list].
Qed.

(** An output whose amount was changed commits to the new amount with the same
    blinding, and reveals it. *)
Lemma change_committed_Ok r new o amount blinding :
  reveal_amount r = Ok (amount, blinding) → change_committed_amount r new = Ok o →
  (∃ a, masked_amount o = Some a ∧ commitment a = pedersen (value new) blinding (token_id new) ∧
        length (masked_token_id a) = 8%nat) ∧
  eq_ignoring_amount (rev_tx_out r) o = true ∧
  (token_id new < 2 ^ 64 → try_reveal_amount o (amount_shared_secret r) = Ok (new, blinding)).
Proof.
  intros (a & s & Ha & Hs & Hv)%reveal_opens. apply v2_value_opens in Hv as [_ ->].
  unfold change_committed_amount, get_masked_amount. rewrite Ha, Hs. cbn [map_err result_bind ok_or].
  destruct (v2_new_from_amount_shared_secret new s) as [b|] eqn:En; [|done]. cbn [map_err result_bind].
  intros [= <-]. split; [|split].
  - exists (V2 b). split; [done|].
    unfold v2_new_from_amount_shared_secret in En. destruct (get_blinding_factors s) as [[vm tm] bl].
    injection En as <-. split; [done|]. apply length_le_bytes.
  - by apply eq_ignoring_amount_iff.
  - intros Ht. unfold try_reveal_amount, get_masked_amount. rewrite Hs. simpl.
    by rewrite (MaskedAmountProps.v2_round_trip _ _ _ Ht En).
Qed.

Lemma new_amount_token_length block_version amount ss a :
  MaskedAmount_new block_version amount ss = Ok a →
  length (masked_token_id a) = if 2 <=? block_version then 8%nat else 0%nat.
Proof.
  unfold MaskedAmount_new, masked_amount_v2_is_supported, masked_token_id_feature_is_supported, VERSION_THREE, VERSION_TWO.
  destruct (N.leb_spec 3 block_version) as [H3|H3]; [rewrite (proj2 (N.leb_le 2 block_version)) by lia|].
  - intros [= <-]. apply length_le_bytes.
  - destruct (2 <=? block_version) eqn:E2; simpl.
    + intros [= <-]. apply length_le_bytes.
    + destruct (negb _); [done|]. intros [= <-]. done.
Qed.
End openings.

(** Made outputs have the fields of their block version. *)
Lemma new_output_conforms `{C : Curve} block_version amount recipient r hint memo_fn o :
  new_with_memo block_version amount recipient r hint memo_fn = Ok o → tx_out_conforms block_version o.
Proof.
  unfold new_with_memo. intros H. apply result_bind_Ok in H as (a & Ha & H). apply map_err_Ok in Ha.
  apply result_bind_Ok in H as (m & Hm & [= <-]). split.
  - simpl. unfold e_memo_feature_is_supported, VERSION_ONE in Hm. destruct (N.leb_spec 1 block_version) as [Hv|Hv].
    + apply result_bind_Ok in Hm as (memo & _ & [= <-]). done.
    + injection Hm as <-. split; [done|lia].
  - exists a. split; [done|]. by eapply new_amount_token_length.
Qed.

(** Validation of transactions with the verification of [RingCt]; [None] is a
    panic of the verifier. *)
Section crypto.
Context `{C : Curve} `{TD : TxInDigest} {R : Type} `{B : !Bulletproofs R} `{D : !RctDigests}.

Definition rct_tx_crypto : TxCrypto := {|
  tx_in_digest := tx_in_canonical_digest;
  RingCtError := option (RctError (R := R));
  Rng := R;
  signature_verify := λ sig block_version tx_prefix rings commitments fee rng,
    match rct_verify sig block_version tx_prefix rings commitments fee rng with
    | Done (Ok _) => Ok tt
    | Done (Err e) => Err (Some e)
    | _ => Err None
    end
|}.
End crypto.

Section inv.
Context `{C : Curve} {CL : CurveLaws} `{DG : Digests} `{TD : TxInDigest} {R : Type} `{!ScalarRng R} `{!PointRng R}.
Context `{A : BoxAead} `{B : !Bulletproofs R} `{D : !RctDigests} `{CD : ConfigDigests}.
Context {FPR MB : Type} `{F : !FogPubkeyResolver FPR} `{M : !MemoBuilder MB}.
#[local] Existing Instance rct_tx_crypto.
Notation TB := (TransactionBuilder FPR MB).
Implicit Types b : TB.

(** ** The invariant *)

(** An output has the fields of the block version, and its data opens its
    commitment. *)
Definition output_ok (block_version : BlockVersion) (p : TxOut * TxOutSummaryUnblindingData) : Prop :=
  tx_out_conforms block_version p.1 ∧
  ∃ a, masked_amount p.1 = Some a ∧
    commitment a = compress (secret_commitment (secret_of_unmasked (ud_unmasked_amount p.2))).

(** The outputs have the fractional change, and at least the fraction of every
    partial fill output. *)
Definition partial_met (outs : list TxOut) (rules : InputRules) : Prop :=
  match partial_fill_change rules with
  | None => partial_fill_outputs rules = [] ∧ min_partial_fill_value rules = 0
  | Some change =>
      ∃ full bl c co, reveal_amount change = Ok (full, bl) ∧ 0 < value full ∧ token_id c = token_id full ∧
        value c + min_partial_fill_value rules <= value full ∧
        change_committed_amount change c = Ok co ∧ co ∈ outs ∧
        ∀ p, p ∈ partial_fill_outputs rules → ∃ want bl' v po, reveal_amount p = Ok (want, bl') ∧
          checked_mul_round_up (mkU64Ratio (value full - value c) (value full)) (value want) = Some v ∧
          change_committed_amount p (mkAmount v (token_id want)) = Ok po ∧ po ∈ outs
  end.

(** The outputs meet the rules of an input. *)
Definition rules_met (outs : list TxOut) (rules : InputRules) : Prop :=
  (∀ o, o ∈ required_outputs rules → o ∈ outs) ∧ partial_met outs rules.

(** What the signer of a presigned input has to see to, beyond what its
    validation checks: sorted members, and outputs with the fields of the block
    version. *)
Definition sci_conforms (block_version : BlockVersion) (sci : SignedContingentInput) : Prop :=
  StronglySorted key_lt (ring (sci_tx_in sci)) ∧
  ∀ rules, input_rules (sci_tx_in sci) = Some rules →
    Forall (tx_out_conforms block_version) (required_outputs rules) ∧
    Forall (λ r, tx_out_conforms block_version (rev_tx_out r) ∧ tx_out_u64 (rev_tx_out r))
      (partial_fill_outputs rules ++ option_list (partial_fill_change rules)).

Definition material_ok (block_version : BlockVersion) (limit : N) (outs : list TxOut) (m : InputMaterials) : Prop :=
  match m with
  | SignableMaterials cred => StronglySorted key_le (cred_ring cred)
  | PresignedMaterials sci =>
      sci_conforms block_version sci ∧ (∃ amounts, sci_validate sci = Done (Ok amounts)) ∧
      ∃ rules, input_rules (sci_tx_in sci) = Some rules ∧ rules_met outs rules ∧
        (max_tombstone_block rules = 0 ∨ limit <= max_tombstone_block rules)
  end.

Record builder_inv b : Prop := {
  bi_outputs : Forall (output_ok (tb_block_version b)) (outputs_and_secrets b);
  bi_tombstone : tb_tombstone_block b <= fog_tombstone_block_limit b;
  bi_inputs : Forall (material_ok (tb_block_version b) (fog_tombstone_block_limit b) (outputs_and_secrets b).*1)
                (input_materials b)
}.

Lemma partial_met_mono outs outs' rules : outs ⊆ outs' → partial_met outs rules → partial_met outs' rules.
Proof.
  intros Hsub Hp. unfold partial_met in *.
  destruct (partial_fill_change rules) as [change|]; [|done].
  destruct Hp as (full & bl & c & co & H1 & H2 & H3 & H4 & H5 & H6 & H7).
  exists full, bl, c, co. do 5 (split; [done|]). split; [by apply Hsub|].
  intros p Hp. destruct (H7 p Hp) as (want & bl' & v & po & G1 & G2 & G3 & G4).
  exists want, bl', v, po. do 3 (split; [done|]). by apply Hsub.
Qed.

Lemma rules_met_mono outs outs' rules : outs ⊆ outs' → rules_met outs rules → rules_met outs' rules.
Proof.
  intros Hsub [Hr Hp]. split; [intros o Ho; by apply Hsub, Hr|]. by eapply partial_met_mono.
Qed.

Lemma material_ok_mono bv limit limit' outs outs' m :
  outs ⊆ outs' → limit' <= limit → material_ok bv limit outs m → material_ok bv limit' outs' m.
Proof.
  intros Hsub Hl. destruct m as [cred|sci]; [done|]. intros (Hc & Hv & rules & Hr & Hm & Ht).
  split; [done|]. split; [done|]. exists rules. split; [done|]. split; [by eapply rules_met_mono|].
  destruct Ht; [by left|right; lia].
Qed.

(** A step that adds outputs and inputs and lowers the limit keeps the
    invariant. *)
Lemma builder_inv_extend b b' new_outs new_ms :
  builder_inv b → tb_block_version b' = tb_block_version b →
  outputs_and_secrets b' = outputs_and_secrets b ++ new_outs →
  input_materials b' = input_materials b ++ new_ms →
  fog_tombstone_block_limit b' <= fog_tombstone_block_limit b →
  tb_tombstone_block b' <= fog_tombstone_block_limit b' →
  Forall (output_ok (tb_block_version b)) new_outs →
  Forall (material_ok (tb_block_version b) (fog_tombstone_block_limit b') (outputs_and_secrets b').*1) new_ms →
  builder_inv b'.
Proof.
  intros [I1 I2 I3] Hv Ho Hm Hl Ht Hno Hnm. split.
  - rewrite Hv, Ho. by apply Forall_app.
  - done.
  - rewrite Hv, Hm. apply Forall_app. split; [|done].
    eapply Forall_impl; [exact I3|]. intros m. apply material_ok_mono; [|done].
    rewrite Ho, fmap_app. set_solver.
Qed.

(** [builder_inv] does not depend on the other fields. *)
Lemma builder_inv_same b b' :
  builder_inv b → tb_block_version b' = tb_block_version b → outputs_and_secrets b' = outputs_and_secrets b →
  input_materials b' = input_materials b → fog_tombstone_block_limit b' = fog_tombstone_block_limit b →
  tb_tombstone_block b' <= fog_tombstone_block_limit b → builder_inv b'.
Proof.
  intros Hi Hv Ho Hm Hl Ht. apply (builder_inv_extend b b' [] []); try done.
  - by rewrite Ho, app_nil_r.
  - by rewrite Hm, app_nil_r.
  - by rewrite Hl.
  - by rewrite Hl.
Qed.

(** ** The methods keep it *)

Lemma new_inv block_version fee fog_resolver mb b :
  new_with_box (R := R) block_version fee fog_resolver mb = Ok b → builder_inv b.
Proof.
  unfold new_with_box. destruct (mb_set_fee mb fee) as [[u|e] mb']; simpl; [|done]. intros [= <-].
  split; simpl; [constructor|done|constructor].
Qed.

Lemma credentials_sorted ring proofs index data view cred :
  InputCredentials_new (R := R) ring proofs index data view = Done (Ok cred) →
  StronglySorted key_le (cred_ring cred).
Proof.
  unfold InputCredentials_new. destruct (_ || _); [done|]. intros H.
  apply ebind_Ok in H as (real & _ & H). apply ebind_Ok in H as (key & _ & H).
  destruct (position _ _) as [i|]; [|done]. cbn [unwrap exec_bind] in H.
  apply ebind_Ok in H as (a & _ & H). apply ebind_Ok in H as ([amount blinding] & _ & [= <-]). cbn [cred_ring].
  apply (sorted_fst key_le), (sort_by_key_sorted (λ p, public_key p.1)).
Qed.

Lemma add_input_inv b cred :
  builder_inv b → StronglySorted key_le (cred_ring cred) →
  builder_inv (add_input b cred).
Proof.
  intros Hi Hs. apply (builder_inv_extend b _ [] [SignableMaterials cred]); try done; simpl.
  - by rewrite app_nil_r.
  - apply Hi.
  - by repeat constructor.
Qed.

Lemma set_tombstone_inv b t : builder_inv b → builder_inv (set_tombstone_block b t).2.
Proof. intros Hi. apply (builder_inv_same b); try done. simpl. lia. Qed.

Lemma impose_inv b t : builder_inv b → builder_inv (impose_tombstone_block_limit b t).
Proof.
  intros Hi. apply (builder_inv_extend b _ [] []); try done; simpl; rewrite ?app_nil_r; try done; lia.
Qed.

Lemma push_inv b o data : builder_inv b → output_ok (tb_block_version b) (o, data) → builder_inv (push_output b o data).
Proof.
  intros Hi Ho. apply (builder_inv_extend b _ [(o, data)] []); try done; simpl; rewrite ?app_nil_r; try done.
  - apply Hi.
  - by apply Forall_singleton.
Qed.

Lemma memo_builder_inv b mb : builder_inv b → builder_inv (with_memo_builder b mb).
Proof. intros Hi. apply (builder_inv_same b); try done. apply Hi. Qed.

Lemma set_fee_inv b v r b' : builder_inv b → tb_set_fee (R := R) b v = Done (r, b') → builder_inv b'.
Proof.
  unfold tb_set_fee. destruct (memo_builder b) as [mb|]; [|done]. cbn [unwrap exec_bind].
  destruct (mb_set_fee mb _) as [[u|e] mb']; intros Hi [= _ <-].
  - apply (builder_inv_same b); try done. apply Hi.
  - by apply memo_builder_inv.
Qed.

Lemma created_output_ok block_version amount recipient hint memo_fn key o ss a amount' blinding addr k :
  create_output_with_fog_hint (R := R) block_version amount recipient hint memo_fn key = Ok (o, ss) →
  masked_amount o = Some a → get_value a (compress ss) = Ok (amount', blinding) →
  output_ok block_version (o, mkUnblindingData (unmasked_of_secret (mkOutputSecret amount' blinding)) addr k).
Proof.
  unfold create_output_with_fog_hint. intros H Ha Hv. apply result_bind_Ok in H as (o' & Ho & [= -> _]).
  apply map_err_Ok in Ho. split; [by eapply new_output_conforms|]. exists a. split; [done|].
  by apply get_value_opens in Hv.
Qed.

(** What adding an output does: nothing on failure, and on success one output
    more and the limit of the fog key. *)
Lemma add_output_outcome b mb amount recipient hint_address key memo_fn (rng : R) r b' mb' rng' :
  add_output_with_fog_hint_address b mb amount recipient hint_address key memo_fn rng = Done (r, b', mb', rng') →
  match r with
  | Err _ => b' = b
  | Ok ctx =>
      ∃ o ss key' hint expiry a amount' blinding,
        create_output_with_fog_hint (R := R) (tb_block_version b) amount recipient hint (λ R, (memo_fn mb R).1) key' = Ok (o, ss) ∧
        (∀ k, key = Some k → key' = k) ∧
        masked_amount o = Some a ∧ get_value a (compress ss) = Ok (amount', blinding) ∧
        ctx = mkTxOutContext o (confirmation_from ss) ss ∧
        b' = push_output (impose_tombstone_block_limit b expiry) o
               (mkUnblindingData (unmasked_of_secret (mkOutputSecret amount' blinding)) (Some recipient) (Some key'))
  end.
Proof.
  unfold add_output_with_fog_hint_address. intros H. apply exec_bind_Done in H as ([r0 rng0] & _ & H).
  destruct r0 as [[hint expiry]|e]; [|by injection H as <- <- _ _].
  destruct (_ && _); [by injection H as <- <- _ _|].
  destruct (match key with Some k => (k, rng0) | None => random_scalar rng0 end) as [key' rng1] eqn:Ek.
  destruct (create_output_with_fog_hint _ _ _ _ _ _) as [[o ss]|e] eqn:Ec; [|by injection H as <- <- _ _].
  apply exec_bind_Done in H as (a & Ha & H). destruct (masked_amount o) as [a'|] eqn:Em; [|done]. injection Ha as ->.
  apply exec_bind_Done in H as ([amount' blinding] & Hv & H).
  destruct (get_value a (compress ss)) as [[am bl]|] eqn:Eg; [|done]. injection Hv as -> ->.
  injection H as <- <- _ _. exists o, ss, key', hint, expiry, a, amount', blinding.
  split; [done|]. split; [intros k ->; by injection Ek as -> _|]. done.
Qed.

Lemma add_output_inv b mb amount recipient hint_address key memo_fn (rng : R) r b' mb' rng' :
  builder_inv b →
  add_output_with_fog_hint_address b mb amount recipient hint_address key memo_fn rng = Done (r, b', mb', rng') →
  builder_inv b'.
Proof.
  intros Hi H. apply add_output_outcome in H. destruct r as [ctx|e]; [|by subst].
  destruct H as (o & ss & key' & hint & expiry & a & amount' & blinding & Hc & _ & Ha & Hv & _ & ->).
  apply push_inv; [by apply impose_inv|]. by eapply created_output_ok.
Qed.

Lemma taken_inv b f r b' (rng' : R) :
  builder_inv b →
  (∀ b0 mb r b' mb' rng', builder_inv b0 → f b0 mb = Done (r, b', mb', rng') → builder_inv b') →
  with_taken_memo_builder b f = Done (r, b', rng') → builder_inv b'.
Proof.
  unfold with_taken_memo_builder. intros Hi Hf H. destruct (memo_builder b) as [mb|]; [|done]. cbn [unwrap exec_bind] in H.
  apply exec_bind_Done in H as ([[[r0 b1] mb'] rng1] & E & [= <- <- <-]).
  apply memo_builder_inv. eapply Hf; [|exact E]. by apply memo_builder_inv.
Qed.

(** An output added for an address of an account is the account's: its view key
    matches it to the amount, the confirmation number is valid for it, and the
    data that is kept with it says the amount. *)
Theorem added_output_received acct i b amount key (rng : R) ctx b' rng' :
  token_id amount < 2 ^ 64 →
  add_output_with_tx_private_key b amount (subaddress acct i) key rng = Done (Ok ctx, b', rng') →
  ∃ P data, decompress (public_key (ctx_tx_out ctx)) = Some P ∧
    view_key_match (ctx_tx_out ctx) (view_private_key acct) = Ok (amount, ctx_shared_secret ctx) ∧
    confirmation_validate (ctx_confirmation ctx) P (view_private_key acct) = true ∧
    outputs_and_secrets b' = outputs_and_secrets b ++ [(ctx_tx_out ctx, data)] ∧
    unmasked_amount (ud_unmasked_amount data) = amount.
Proof.
  intros Ht H. unfold add_output_with_tx_private_key, with_taken_memo_builder in H.
  destruct (memo_builder b) as [mb|]; [|done]. cbn [unwrap exec_bind] in H.
  apply exec_bind_Done in H as ([[[r0 b1] mb'] rng1] & E & H). injection H as -> <- _.
  apply add_output_outcome in E as (o & ss & key' & hint & expiry & a & amount' & bl & Hc & _ & Ha & Hv & -> & ->).
  unfold create_output_with_fog_hint in Hc. apply result_bind_Ok in Hc as (o' & Ho & [= -> <-]). apply map_err_Ok in Ho.
  unfold new_with_memo in Ho. cbv zeta in Ho. apply result_bind_Ok in Ho as (a' & Hm & Ho). apply map_err_Ok in Hm.
  change (tb_block_version (with_memo_builder b None)) with (tb_block_version b) in Hm.
  apply result_bind_Ok in Ho as (memo & _ & [= Eo]). rewrite <-Eo in Ha. injection Ha as ->.
  pose proof (MaskedAmountProps.masked_amount_roundtrip (tb_block_version b) amount
    (compress (create_shared_secret (view_public_key (subaddress acct i)) key')) Ht) as Hrt.
  destruct (negb _ && _); [by rewrite Hm in Hrt|]. destruct Hrt as (a2 & bl2 & Hm2 & Hget & _).
  rewrite Hm in Hm2. injection Hm2 as <-. pose proof (eq_trans (eq_sym Hget) Hv) as E. injection E as <- <-.
  eexists _, _. cbn [ctx_tx_out ctx_shared_secret ctx_confirmation]. rewrite <-Eo. cbn [public_key].
  split; [apply decompress_compress|]. split; [|split; [|split; [reflexivity|]]].
  - unfold view_key_match. cbn [public_key masked_amount]. rewrite OnetimeKeysProps.point_try_from_compress.
    cbn [map_err result_bind]. pose proof (OnetimeKeysProps.shared_secret_agrees acct i key') as Hs. simpl in Hs, Hget.
    by rewrite <-Hs, Hget.
  - unfold confirmation_validate. pose proof (OnetimeKeysProps.shared_secret_agrees acct i key') as Hs. simpl in Hs.
    rewrite <-Hs. by apply bool_decide_eq_true.
  - by destruct amount.
Qed.

(** *** Presigned inputs *)

(** Outputs for the required outputs of the rules. *)
Lemma required_outputs_added l : ∀ b,
  ∃ new, let b' := foldl add_required_output_if_missing b l in
    outputs_and_secrets b' = outputs_and_secrets b ++ new ∧
    (∀ o, o ∈ l.*1 → o ∈ (outputs_and_secrets b').*1) ∧
    Forall (λ p, ∃ u, p.2 = mkUnblindingData u None None ∧ (p.1, u) ∈ l) new ∧
    tb_block_version b' = tb_block_version b ∧ input_materials b' = input_materials b ∧
    fog_tombstone_block_limit b' = fog_tombstone_block_limit b ∧ tb_tombstone_block b' = tb_tombstone_block b.
Proof.
  induction l as [|[o u] l IH]; intros b; cbn [foldl].
  { exists []. cbv zeta. simpl. rewrite app_nil_r. repeat split; [|constructor].
    intros o Ho. by apply not_elem_of_nil in Ho. }
  destruct (IH (add_required_output_if_missing b (o, u))) as (new & E1 & E2 & E3 & E4 & E5 & E6 & E7).
  assert (∃ new0, outputs_and_secrets (add_required_output_if_missing b (o, u)) = outputs_and_secrets b ++ new0 ∧
            o ∈ (outputs_and_secrets b ++ new0).*1 ∧
            Forall (λ p, ∃ u', p.2 = mkUnblindingData u' None None ∧ (p.1, u') = (o, u)) new0) as (new0 & F1 & F2 & F3).
  { unfold add_required_output_if_missing. destruct (existsb _ _) eqn:Ex; simpl.
    - exists []. rewrite app_nil_r. split; [done|]. split; [|constructor].
      apply existsb_exists in Ex as ([o' d] & Hin & Eo). apply bool_decide_eq_true in Eo. simpl in Eo. subst o'.
      apply list_elem_of_In in Hin. apply list_elem_of_fmap. by exists (o, d).
    - eexists. split; [done|]. rewrite fmap_app. split; [set_solver|]. repeat constructor. by exists u. }
  exists (new0 ++ new). cbv zeta in *. rewrite E1, F1, <-app_assoc in *.
  split; [done|]. rewrite E4, E5, E6, E7. split; [|split].
  - intros x [->|Hx]%elem_of_cons; [|by apply E2].
    rewrite app_assoc, fmap_app. apply elem_of_app. by left.
  - apply Forall_app. split.
    + eapply Forall_impl; [exact F3|]. intros p (u' & Hu & Hp). exists u'. split; [done|]. rewrite Hp. by left.
    + eapply Forall_impl; [exact E3|]. intros p (u' & Hu & Hp). exists u'. split; [done|]. by right.
  - unfold add_required_output_if_missing. by destruct (negb _).
Qed.

(** The validated amounts of the required outputs open them. *)
Lemma check_required_opens l : ∀ cache amounts,
  cache_ok cache → check_required_outputs l cache = Ok amounts →
  Forall (λ p, ∃ a, masked_amount p.2 = Some a ∧ commitment a = compress (secret_commitment (secret_of_unmasked p.1))) l.
Proof.
  induction l as [|[u o] l IH]; intros cache amounts Hc H; [constructor|]. cbn [check_required_outputs] in H.
  unfold unmasked_commitment in H. destruct (cache_get cache (um_token_id u)) as [g cache'] eqn:Eg.
  destruct (cache_get_ok cache (um_token_id u) Hc) as [Hg Hc']. rewrite Eg in Hg, Hc'. simpl in Hg, Hc'. subst g.
  apply result_bind_Ok in H as (a & Ha & H). apply map_err_Ok in Ha. case_bool_decide as Ecm; simpl in H; [|done].
  apply result_bind_Ok in H as (rest & Hrest & _). constructor; [|by eapply IH].
  exists a. unfold get_masked_amount in Ha. simpl. destruct (masked_amount o); [|done]. injection Ha as ->.
  split; [done|]. by rewrite <-Ecm.
Qed.

(** What validation established. *)
Lemma sci_validate_Ok sci amounts rules :
  sci_validate sci = Done (Ok amounts) → input_rules (sci_tx_in sci) = Some rules →
  length (required_output_amounts sci) = length (required_outputs rules) ∧
  Forall (λ p, ∃ a, masked_amount p.2 = Some a ∧ commitment a = compress (secret_commitment (secret_of_unmasked p.1)))
    (zip (required_output_amounts sci) (required_outputs rules)) ∧
  (∃ d ring, signed_digest (sci_tx_in sci) = Some d ∧ SignedInputRing_try_from (sci_tx_in sci) = Ok ring ∧
    ring_verify (mlsag_decode (sci_mlsag sci)) (vec_to_list d) (members ring)
      (compress (secret_commitment (secret_of_unmasked (pseudo_output_amount sci)))) = Done (Ok tt)) ∧
  match partial_fill_change rules with
  | None => partial_fill_outputs rules = [] ∧ min_partial_fill_value rules = 0
  | Some change => Forall (λ r, ∃ want bl, reveal_amount r = Ok (want, bl) ∧ 0 < value want) (partial_fill_outputs rules)
  end.
Proof.
  unfold sci_validate. intros H Hr. destruct (negb _); [done|].
  unfold unmasked_commitment in H. destruct (cache_get ∅ _) as [g cache] eqn:Eg.
  assert (cache_ok ∅) as H0 by apply map_Forall_empty.
  destruct (cache_get_ok ∅ (um_token_id (pseudo_output_amount sci)) H0) as [Hg Hc]. rewrite Eg in Hg, Hc.
  simpl in Hg, Hc. subst g.
  apply ebind_Ok in H as (d & Hd & H). injection Hd as Hd. apply ok_or_Ok in Hd.
  apply ebind_Ok in H as (ring & Hring & H). injection Hring as Hring. apply map_err_Ok in Hring.
  apply ebind_Ok in H as ([] & Hv & H). apply emap_err_Ok in Hv. injection H as H. rewrite Hr in H.
  unfold check_rules in H.
  destruct (Nat.eqb_spec (length (required_output_amounts sci)) (length (required_outputs rules))) as [El|]; simpl in H; [|done].
  apply result_bind_Ok in H as (req & Hreq & H).
  split; [done|]. split; [by eapply check_required_opens|]. split; [by exists d, ring|].
  destruct (partial_fill_change rules) as [change|].
  - apply result_bind_Ok in H as ([full bl] & Hf & H). destruct (_ <? _); [done|]. destruct (_ =? 0); [done|].
    apply result_bind_Ok in H as (partial & Hp & _). apply result_map_Ok in Hp.
    apply Forall_forall. intros r Hin. apply list_elem_of_lookup in Hin as [i Hi].
    destruct (Forall2_lookup_l _ _ _ _ _ Hp Hi) as (amt & _ & Hamt). unfold check_partial_fill_output in Hamt.
    apply result_bind_Ok in Hamt as ([want b'] & Hw & Hamt). apply map_err_Ok in Hw.
    destruct (N.eqb_spec (value want) 0); [done|]. exists want, b'. split; [done|lia].
  - destruct (_ || _) eqn:Eo; [done|]. apply orb_false_iff in Eo as [E1 E2].
    apply negb_false_iff in E1, E2. apply bool_decide_eq_true in E1. apply N.eqb_eq in E2. done.
Qed.
(** An input whose partial fill rules are met is added with its required
    outputs. *)
Lemma helper_inv b sci amounts r b' :
  builder_inv b → sci_conforms (tb_block_version b) sci → sci_validate sci = Done (Ok amounts) →
  (∀ rules, input_rules (sci_tx_in sci) = Some rules → partial_met (outputs_and_secrets b).*1 rules) →
  add_presigned_input_helper b sci = (r, b') → builder_inv b'.
Proof.
  intros Hi Hc Hv Hp H. unfold add_presigned_input_helper in H.
  destruct (negb _); [by injection H as _ <-|]. destruct (negb _); [by injection H as _ <-|].
  destruct (input_rules (sci_tx_in sci)) as [rules|] eqn:Er; [|by injection H as _ <-].
  destruct (negb _) eqn:El; [by injection H as _ <-|]. apply negb_false_iff, Nat.eqb_eq in El. cbv zeta in H.
  destruct (sci_validate_Ok sci amounts rules Hv Er) as (_ & Hopen & _). destruct Hc as [Hs Hc].
  destruct (Hc rules Er) as [Hreq _].
  destruct (required_outputs_added (zip (required_outputs rules) (required_output_amounts sci)) b)
    as (new & E1 & E2 & E3 & E4 & E5 & E6 & E7). cbv zeta in *.
  set (b1 := foldl add_required_output_if_missing b _) in *.
  set (b2 := if negb (max_tombstone_block rules =? 0) then _ else _) in H. injection H as _ <-.
  assert (outputs_and_secrets b2 = outputs_and_secrets b1 ∧ tb_block_version b2 = tb_block_version b1 ∧
          input_materials b2 = input_materials b1 ∧ fog_tombstone_block_limit b2 <= fog_tombstone_block_limit b1 ∧
          (max_tombstone_block rules = 0 ∨ fog_tombstone_block_limit b2 <= max_tombstone_block rules) ∧
          tb_tombstone_block b2 <= fog_tombstone_block_limit b2) as (F1 & F2 & F3 & F4 & F5 & F6).
  { pose proof (bi_tombstone _ Hi). unfold b2. destruct (N.eqb_spec (max_tombstone_block rules) 0); simpl.
    - do 3 (split; [done|]). split; [lia|]. split; [by left|]. by rewrite E6, E7.
    - do 3 (split; [done|]). split; [lia|]. split; [right; lia|lia]. }
  apply (builder_inv_extend b _ new [PresignedMaterials sci]); try done; simpl.
  - by rewrite F2, E4.
  - by rewrite F1, E1.
  - by rewrite F3, E5.
  - by rewrite <-E6.
  - eapply Forall_impl; [exact E3|]. intros [o d] (u & Hu & Hin). simpl in Hu, Hin. subst d.
    apply list_elem_of_lookup in Hin as [i Hi']. apply lookup_zip_Some in Hi' as [Ho Hu]. split; simpl.
    + rewrite Forall_forall in Hreq. apply Hreq. by eapply list_elem_of_lookup_2.
    + rewrite Forall_lookup in Hopen. apply (Hopen i (u, o)). by apply lookup_zip_Some.
  - apply Forall_singleton. simpl. split; [done|]. split; [by exists amounts|]. exists rules. split; [done|].
    split; [|done]. split.
    + intros o Ho. rewrite F1. apply E2. by rewrite fst_zip by lia.
    + eapply (partial_met_mono (outputs_and_secrets b).*1); [|by apply Hp].
      rewrite F1, E1, fmap_app. set_solver.
Qed.

Lemma add_presigned_inv b sci amounts r b' :
  builder_inv b → sci_conforms (tb_block_version b) sci → sci_validate sci = Done (Ok amounts) →
  add_presigned_input b sci = (r, b') → builder_inv b'.
Proof.
  intros Hi Hc Hv H. unfold add_presigned_input in H. destruct (input_rules (sci_tx_in sci)) as [rules|] eqn:Er.
  - destruct (_ || _) eqn:Eo; [by injection H as _ <-|]. apply orb_false_iff in Eo as [Eo1 Eo3].
    apply orb_false_iff in Eo1 as [Eo1 Eo2]. apply bool_decide_eq_false in Eo1.
    apply negb_false_iff in Eo2, Eo3. apply bool_decide_eq_true in Eo2. apply N.eqb_eq in Eo3.
    eapply helper_inv; [exact Hi|exact Hc|exact Hv| |exact H]. rewrite Er. intros rules' [= <-].
    unfold partial_met. destruct (partial_fill_change rules) as [c|]; [|done]. destruct Eo1. by exists c.
  - eapply helper_inv; [exact Hi|exact Hc|exact Hv| |exact H]. by rewrite Er.
Qed.
(** A changed output has the fields of the block version, and its data opens
    it. *)
Lemma changed_output_ok bv r new o amount blinding :
  3 <= bv → tx_out_conforms bv (rev_tx_out r) → reveal_amount r = Ok (amount, blinding) →
  change_committed_amount r new = Ok o →
  output_ok bv (o, mkUnblindingData (unmasked_of_secret (mkOutputSecret new blinding)) None None).
Proof.
  intros Hbv [Hm _] Hr Ho. destruct (change_committed_Ok _ _ _ _ _ Hr Ho) as ((a & Ha & Hc & Hl) & He & _).
  apply eq_ignoring_amount_iff in He as (_ & _ & _ & He). split; simpl.
  - split; [by rewrite <-He|]. exists a. by rewrite (proj2 (N.leb_le 2 bv)) by lia.
  - exists a. split; [done|]. rewrite Hc. done.
Qed.

(** The fractional outputs that were added open their commitments; without an
    error there is one for each partial fill output. *)
Lemma fractional_outputs_added fraction l : ∀ b r b',
  3 <= tb_block_version b →
  Forall (λ e, tx_out_conforms (tb_block_version b) (rev_tx_out e.1.1) ∧ reveal_amount e.1.1 = Ok (e.1.2, e.2)) l →
  add_fractional_outputs b fraction l = Done (r, b') →
  ∃ new, outputs_and_secrets b' = outputs_and_secrets b ++ new ∧ Forall (output_ok (tb_block_version b)) new ∧
    tb_block_version b' = tb_block_version b ∧ input_materials b' = input_materials b ∧
    fog_tombstone_block_limit b' = fog_tombstone_block_limit b ∧ tb_tombstone_block b' = tb_tombstone_block b ∧
    ∀ amounts, r = Ok amounts → ∀ p want bl, (p, want, bl) ∈ l →
      ∃ v po, checked_mul_round_up fraction (value want) = Some v ∧
        change_committed_amount p (mkAmount v (token_id want)) = Ok po ∧ po ∈ new.*1.
Proof.
  induction l as [|[[p want] bl] l IH]; intros b r b' Hbv Hl H; cbn [add_fractional_outputs] in H.
  { injection H as <- <-. exists []. rewrite app_nil_r. do 6 (split; [done|]). intros amounts _ p want bl Hin.
    by apply not_elem_of_nil in Hin. }
  apply Forall_cons in Hl as [[Hc Hr] Hl]. simpl in Hc, Hr.
  destruct (checked_mul_round_up fraction (value want)) as [v|] eqn:Ev; [|done]. cbn [unwrap exec_bind] in H.
  destruct (change_committed_amount p _) as [o|e] eqn:Eo.
  2:{ injection H as <- <-. exists []. rewrite app_nil_r. by do 6 (split; [done|]). }
  apply exec_bind_Done in H as ([r0 b1] & H & [= <- <-]).
  apply IH in H as (new & E1 & E2 & E3 & E4 & E5 & E6 & E7); [|done|done].
  exists ((o, mkUnblindingData (unmasked_of_secret (mkOutputSecret (mkAmount v (token_id want)) bl)) None None) :: new).
  rewrite E1, E3, E4, E5, E6. split; [by simpl; rewrite <-app_assoc|].
  split; [constructor; [by eapply changed_output_ok|done]|]. do 4 (split; [done|]).
  intros amounts Ha p' want' bl' [[= -> -> ->]|Hin]%elem_of_cons.
  - exists v, o. split; [done|]. split; [done|]. by left.
  - destruct r0 as [rest|]; [|done]. destruct (E7 rest eq_refl p' want' bl' Hin) as (v' & po & ? & ? & ?).
    exists v', po. split; [done|]. split; [done|]. by right.
Qed.

(** The checks of a partial fill, in exact arithmetic. *)
Lemma partial_fill_checks_Ok b sci c rules change bl fraction :
  sci_conforms (tb_block_version b) sci →
  partial_fill_checks b sci c = Ok (rules, change, bl, fraction) →
  3 <= tb_block_version b ∧ input_rules (sci_tx_in sci) = Some rules ∧ partial_fill_change rules = Some change ∧
  ∃ full, reveal_amount change = Ok (full, bl) ∧ 0 < value full < 2 ^ 64 ∧ token_id c = token_id full ∧
    value c + min_partial_fill_value rules <= value full ∧ fraction = mkU64Ratio (value full - value c) (value full).
Proof.
  intros [_ Hc] H. unfold partial_fill_checks in H.
  destruct (masked_amount_v2_is_supported _) eqn:Ev; [|discriminate]. cbn [negb] in H.
  destruct (negb _); [discriminate|].
  apply result_bind_Ok in H as (rules' & Hr & H). apply ok_or_Ok in Hr.
  apply result_bind_Ok in H as (change' & Hch & H). apply ok_or_Ok in Hch.
  apply result_bind_Ok in H as ([full bl'] & Hrev & H). apply map_err_Ok in Hrev.
  destruct (Hc rules' Hr) as [_ Hpart]. rewrite Hch in Hpart. apply Forall_app in Hpart as [_ Hpart].
  simpl in Hpart. apply Forall_singleton in Hpart as [_ Hu]. pose proof (InputRulesProps.revealed_lt _ _ _ _ Hu Hrev) as Hlt.
  destruct (N.eqb_spec (value full) 0); [discriminate|].
  destruct (N.ltb_spec (value full) (min_partial_fill_value rules')); [discriminate|].
  destruct (N.eqb_spec (token_id full) (token_id c)) as [Et|]; [|discriminate]. cbn [negb] in H.
  rewrite u64_sub_small in H by done. destruct (N.ltb_spec (value full - min_partial_fill_value rules') (value c)); [discriminate|].
  rewrite u64_sub_small in H by (done || lia). apply result_bind_Ok in H as (fr & Hfr & [= <- <- <- <-]).
  apply ok_or_Ok in Hfr. unfold U64Ratio_new in Hfr. destruct (N.eqb_spec (value full) 0); [discriminate|].
  injection Hfr as <-. split; [by apply N.leb_le in Ev|]. split; [done|]. split; [done|]. exists full.
  split; [done|]. split; [lia|]. split; [done|]. split; [lia|done].
Qed.

Lemma add_partial_fill_inv b sci amounts c r b' :
  builder_inv b → sci_conforms (tb_block_version b) sci → sci_validate sci = Done (Ok amounts) →
  add_presigned_partial_fill_input b sci c = Done (r, b') → builder_inv b'.
Proof.
  intros Hi Hc Hv H. unfold add_presigned_partial_fill_input in H.
  destruct (partial_fill_checks b sci c) as [[[[rules change] bl] fraction]|e] eqn:Ec; [|by injection H as _ <-].
  destruct (partial_fill_checks_Ok _ _ _ _ _ _ _ Hc Ec) as (Hbv & Hr & Hch & full & Hrev & Hfull & Et & Hle & ->).
  destruct (result_map _ _) as [l|e] eqn:El; [|by injection H as _ <-]. apply result_map_Ok in El.
  destruct Hc as [Hs Hc]. destruct (Hc rules Hr) as [Hreq Hpart]. rewrite Hch in Hpart. apply Forall_app in Hpart as [Hpf Hpc].
  simpl in Hpc. apply Forall_singleton in Hpc as [Hcc _].
  assert (∀ p, p ∈ partial_fill_outputs rules → ∃ want bl', reveal_amount p = Ok (want, bl') ∧ (p, want, bl') ∈ l) as Hl.
  { intros p Hp. apply list_elem_of_lookup in Hp as [i Hp]. destruct (Forall2_lookup_l _ _ _ _ _ El Hp) as (e & He & Hf).
    apply result_bind_Ok in Hf as ([want bl'] & Hf & [= <-]). exists want, bl'. split; [done|]. by eapply list_elem_of_lookup_2. }
  assert (Forall (λ e, tx_out_conforms (tb_block_version b) (rev_tx_out e.1.1) ∧ reveal_amount e.1.1 = Ok (e.1.2, e.2)) l) as Hll.
  { apply Forall_lookup. intros i e He. destruct (Forall2_lookup_r _ _ _ _ _ El He) as (p & Hp & Hf).
    apply result_bind_Ok in Hf as ([want bl'] & Hf & [= <-]). split; [|done]. simpl.
    rewrite Forall_forall in Hpf. apply Hpf. by eapply list_elem_of_lookup_2. }
  apply exec_bind_Done in H as ([r0 b1] & Hf & H).
  destruct (fractional_outputs_added _ _ _ _ _ Hbv Hll Hf) as (new & E1 & E2 & E3 & E4 & E5 & E6 & E7).
  assert (builder_inv b1) as Hi1.
  { apply (builder_inv_extend b b1 new []); try done; rewrite ?app_nil_r; try done; rewrite ?E5, ?E6; [done|apply Hi]. }
  destruct r0 as [fr|e]; [|by injection H as _ <-]. specialize (E7 fr eq_refl).
  destruct (change_committed_amount change c) as [co|e] eqn:Eco; [|by injection H as _ <-].
  destruct (add_presigned_input_helper _ sci) as [r1 b2] eqn:Eh. injection H as _ <-.
  eapply helper_inv; [| |exact Hv| |exact Eh].
  - apply push_inv; [done|]. rewrite E3. by eapply changed_output_ok.
  - simpl. by rewrite E3.
  - rewrite Hr. intros rules' [= <-]. unfold partial_met. rewrite Hch. simpl. rewrite E1.
    exists full, bl, c, co. do 5 (split; [lia||done|]). split; [rewrite !fmap_app; set_solver|].
    intros p Hp. destruct (Hl p Hp) as (want & bl' & Hw & Hin). destruct (E7 p want bl' Hin) as (v & po & F1 & F2 & F3).
    exists want, bl', v, po. do 3 (split; [done|]). rewrite !fmap_app. set_solver.
Qed.
(** *** Partial fills return *)

(** The amount of an output that reveals it can be changed. *)
Lemma change_committed_total r new amount blinding :
  reveal_amount r = Ok (amount, blinding) → ∃ o, change_committed_amount r new = Ok o.
Proof.
  intros (a & s & Ha & Hs & _)%reveal_opens. unfold change_committed_amount, get_masked_amount. rewrite Ha, Hs.
  cbn [map_err result_bind ok_or]. unfold v2_new_from_amount_shared_secret.
  destruct (get_blinding_factors s) as [[vm tm] bl]. by eexists.
Qed.

(** The fraction is at most 1, so no fractional amount overflows. *)
Lemma fractional_outputs_total full c l : ∀ b,
  0 < full < 2 ^ 64 → c <= full →
  Forall (λ e, tx_out_u64 (rev_tx_out e.1.1) ∧ reveal_amount e.1.1 = Ok (e.1.2, e.2)) l →
  ∃ amounts b', add_fractional_outputs b (mkU64Ratio (full - c) full) l = Done (Ok amounts, b') ∧
    length (outputs_and_secrets b') = (length (outputs_and_secrets b) + length l)%nat ∧
    tb_block_version b' = tb_block_version b.
Proof.
  induction l as [|[[p want] bl] l IH]; intros b Hf Hc Hl; cbn [add_fractional_outputs].
  { exists [], b. split; [done|]. split; [simpl; lia|done]. }
  apply Forall_cons in Hl as [[Hu Hr] Hl]. simpl in Hu, Hr. pose proof (InputRulesProps.revealed_lt _ _ _ _ Hu Hr) as Hw.
  destruct (RatioProps.u64_ratio_exact (mkU64Ratio (full - c) full) (mkU64Ratio (full - c) full) (value want))
    as (_ & _ & _ & _ & Ht); simpl; [lia..|]. destruct Ht as [_ [v Hv]]; [simpl; lia|]. rewrite Hv. cbn [unwrap exec_bind].
  destruct (change_committed_total p (mkAmount v (token_id want)) want bl Hr) as [o ->].
  edestruct IH as (amounts & b' & -> & Hlen & Hbv); [done|done|done|]. cbn [exec_bind result_bind].
  eexists _, b'. split; [reflexivity|]. split; [|done]. rewrite Hlen. simpl. rewrite length_app. simpl. lia.
Qed.

Lemma revealed_outputs_total l :
  Forall (λ r, tx_out_u64 (rev_tx_out r)) l →
  (∃ e, result_map (λ r, let? (amount, blinding) := reveal_amount r in Ok (r, amount, blinding)) l = Err e) ∨
  ∃ l', result_map (λ r, let? (amount, blinding) := reveal_amount r in Ok (r, amount, blinding)) l = Ok l' ∧
    length l' = length l ∧ Forall (λ e, tx_out_u64 (rev_tx_out e.1.1) ∧ reveal_amount e.1.1 = Ok (e.1.2, e.2)) l'.
Proof.
  intros Hl. destruct (result_map _ l) as [l'|e] eqn:E; [right|left; by eexists]. apply result_map_Ok in E.
  exists l'. split; [done|]. split; [symmetry; by eapply Forall2_length|]. apply Forall_lookup. intros i e He.
  destruct (Forall2_lookup_r _ _ _ _ _ E He) as (r & Hr & Hf). apply result_bind_Ok in Hf as ([amount bl] & Hf & [= <-]).
  split; [|done]. rewrite Forall_lookup in Hl. by eapply Hl.
Qed.

(** The code that the source calls unreachable is: a partial fill never
    panics. *)
Theorem partial_fill_returns b sci c :
  sci_conforms (tb_block_version b) sci → ∃ r b', add_presigned_partial_fill_input b sci c = Done (r, b').
Proof.
  intros Hc. unfold add_presigned_partial_fill_input.
  destruct (partial_fill_checks b sci c) as [[[[rules change] bl] fraction]|e] eqn:Ec; [|by do 2 eexists].
  destruct (partial_fill_checks_Ok _ _ _ _ _ _ _ Hc Ec) as (_ & Hr & _ & full & _ & Hfull & _ & Hle & ->).
  destruct Hc as [_ Hc]. destruct (Hc rules Hr) as [_ [Hpf _]%Forall_app].
  destruct (revealed_outputs_total (partial_fill_outputs rules)) as [[e ->]|(l & -> & _ & Hl)].
  { eapply Forall_impl; [exact Hpf|]. by intros ? [_ ?]. }
  { by do 2 eexists. }
  edestruct (fractional_outputs_total (value full) (value c) l b) as (amounts & b1 & -> & _); [done|lia|done|].
  cbn [exec_bind]. destruct (change_committed_amount change c); [|by do 2 eexists].
  destruct (add_presigned_input_helper _ _). by do 2 eexists.
Qed.

(** Outputs of a partial fill that is refused stay.  An input for another block
    version is refused only after its fractional outputs and its change were
    added, and they are not removed. *)
Theorem failed_partial_fill_adds_outputs b sci c rules change bl fraction :
  sci_conforms (tb_block_version b) sci → tb_block_version b ≠ sci_block_version sci →
  partial_fill_checks b sci c = Ok (rules, change, bl, fraction) →
  Forall (λ r, is_ok (reveal_amount r) = true) (partial_fill_outputs rules) →
  ∃ b', add_presigned_partial_fill_input b sci c
        = Done (Err (SciBlockVersionMismatch (tb_block_version b) (sci_block_version sci)), b') ∧
    length (outputs_and_secrets b') = (length (outputs_and_secrets b) + length (partial_fill_outputs rules) + 1)%nat.
Proof.
  intros Hc Hne Ec Hrev. unfold add_presigned_partial_fill_input. rewrite Ec.
  destruct (partial_fill_checks_Ok _ _ _ _ _ _ _ Hc Ec) as (_ & Hr & _ & full & Hrv & Hfull & _ & Hle & ->).
  destruct Hc as [_ Hc]. destruct (Hc rules Hr) as [_ [Hpf _]%Forall_app].
  destruct (revealed_outputs_total (partial_fill_outputs rules)) as [[e He]|(l & -> & Hlen & Hl)].
  { eapply Forall_impl; [exact Hpf|]. by intros ? [_ ?]. }
  { apply result_map_Err in He as (r & Hin & He). rewrite Forall_forall in Hrev. specialize (Hrev r Hin).
    by destruct (reveal_amount r) as [[]|]. }
  edestruct (fractional_outputs_total (value full) (value c) l b) as (amounts & b1 & -> & Ho & Hbv); [done|lia|done|].
  cbn [exec_bind]. destruct (change_committed_total change c _ _ Hrv) as [o ->].
  unfold add_presigned_input_helper. cbn [tb_block_version push_output with_outputs]. rewrite Hbv.
  destruct (N.eqb_spec (tb_block_version b) (sci_block_version sci)) as [|_]; [done|]. cbn [negb].
  eexists. split; [reflexivity|]. simpl. rewrite length_app, Ho, Hlen. simpl. lia.
Qed.
End inv.
End TxBuilderProps.
