(* ===== verification/TxBuilderValid.v ===== *)
(** * Built transactions are valid

    The builders that the methods of [TransactionBuilder] can produce keep the
    invariant of [TxBuilderProps]; a transaction built from one passes the
    validation of consensus ([TxValidation]), with the signature checked by
    [RingCt], once what depends on the caller and on the ledger is in order. *)

From stdpp Require Import vector strings.
From S2P Require Import Prelude Ord Bytes TxOut BlockVersion Membership MerkleTree MaskedAmount Tx Ristretto OnetimeKeys Mlsag RingCt RingCtProps LightClient Config TxValidation Memo MemoBuilder CryptoBox Sci TxBuilder Digestible TxBuilderProps.

Open Scope N_scope.

Module TxBuilderValid.
Import ValidationProps RingCtProps.RingCtProps TxBuilderProps.TxBuilderProps.

(** Sorting depends on the comparisons of members only. *)
Lemma sort_by_ext {A} (f g : A → A → comparison) (l : list A) :
  (∀ a b, a ∈ l → b ∈ l → f a b = g a b) → sort_by f l = sort_by g l.
Proof.
  induction l as [|x l IH]; intros H; [done|]. simpl. rewrite IH by (intros; apply H; by right).
  assert (∀ y, y ∈ sort_by g l → f x y = g x y) as Hx.
  { intros y Hy%elem_of_sort_by. apply H; [by left|by right]. }
  revert Hx. generalize (sort_by g l) as s. induction s as [|y s IHs]; intros Hx; [done|]. simpl.
  rewrite Hx by (by left). rewrite IHs by (intros z Hz; apply Hx; by right). done.
Qed.

Section valid.
Context `{C : Curve} {CL : CurveLaws} `{DG : Digests} `{TD : TxInDigest} {R : Type} `{!ScalarRng R} `{!PointRng R}.
Context `{A : BoxAead} `{B : !Bulletproofs R} `{BL : !BulletproofLaws} `{D : !RctDigests} `{CD : ConfigDigests}.
Context {FPR MB : Type} `{F : !FogPubkeyResolver FPR} `{M : !MemoBuilder MB}.
Context {S : Type} `{!RingSigner R S} `{SS : !RingSignerSound (R := R) (S := S)}.
#[local] Existing Instance rct_tx_crypto.
Notation TB := (TransactionBuilder FPR MB).
Implicit Types b : TB.

(** ** Reachable builders *)

(** The builders that its methods produce, whether they succeed or fail:
    inputs come from [InputCredentials::new], and presigned inputs were
    validated. *)
Inductive reachable : TB → Prop :=
| reach_new block_version fee fog_resolver mb b :
    new_with_box (R := R) block_version fee fog_resolver mb = Ok b → reachable b
| reach_input b ring proofs index data view cred :
    reachable b → InputCredentials_new (R := R) ring proofs index data view = Done (Ok cred) →
    reachable (add_input b cred)
| reach_presigned b sci amounts r b' :
    reachable b → sci_conforms (tb_block_version b) sci → sci_validate sci = Done (Ok amounts) →
    add_presigned_input b sci = (r, b') → reachable b'
| reach_partial_fill b sci amounts change r b' :
    reachable b → sci_conforms (tb_block_version b) sci → sci_validate sci = Done (Ok amounts) →
    add_presigned_partial_fill_input b sci change = Done (r, b') → reachable b'
| reach_output b amount recipient key rng r b' rng' :
    reachable b → add_output_with_tx_private_key (R := R) b amount recipient key rng = Done (r, b', rng') → reachable b'
| reach_change b amount destination rng r b' rng' :
    reachable b → add_change_output (R := R) b amount destination rng = Done (r, b', rng') → reachable b'
| reach_gift_code b amount reserved rng r b' rng' :
    reachable b → add_gift_code_output (R := R) b amount reserved rng = Done (r, b', rng') → reachable b'
| reach_tombstone b t : reachable b → reachable (set_tombstone_block b t).2
| reach_fee b v r b' : reachable b → tb_set_fee (R := R) b v = Done (r, b') → reachable b'
| reach_fee_map b m : reachable b → reachable (set_fee_map b m).

Lemma tb_reachable_inv b : reachable b → builder_inv b.
Proof.
  induction 1.
  - by eapply new_inv.
  - apply add_input_inv; [done|]. by eapply credentials_sorted.
  - by eapply add_presigned_inv.
  - by eapply add_partial_fill_inv.
  - eapply taken_inv; [done| |done]. intros *. apply add_output_inv.
  - eapply taken_inv; [done| |done]. intros *. apply add_output_inv.
  - eapply taken_inv; [done| |done]. intros *. apply add_output_inv.
  - by apply set_tombstone_inv.
  - by eapply set_fee_inv.
  - apply (builder_inv_same b); try done. apply IHreachable.
Qed.

(** ** Rules *)

(** Outputs with distinct keys are found by their key. *)
Lemma find_by_key (o : TxOut) p l :
  NoDup (public_key <$> l) → o ∈ l → eq_ignoring_amount p o = true → find_first (eq_ignoring_amount p) l = Some o.
Proof.
  induction l as [|x l IH]; intros Hn Hin Heq; [by apply not_elem_of_nil in Hin|].
  rewrite fmap_cons, NoDup_cons in Hn. destruct Hn as [Hx Hn].
  unfold find_first in *. cbn [list_find]. destruct (decide (eq_ignoring_amount p x = true)) as [Ex|Ex].
  - simpl. apply elem_of_cons in Hin as [->|Hin]; [done|]. destruct Hx.
    apply eq_ignoring_amount_iff in Ex as (_ & Ex & _), Heq as (_ & Heq & _). rewrite <-Ex, Heq.
    by apply list_elem_of_fmap_2.
  - apply elem_of_cons in Hin as [->|Hin]; [done|]. specialize (IH Hn Hin Heq).
    destruct (list_find _ l) as [[i y]|]; [|done]. simpl in *. done.
Qed.

Lemma fraction_respected full c want v :
  0 < full < 2 ^ 64 → c <= full → 0 < want < 2 ^ 64 →
  checked_mul_round_up (mkU64Ratio (full - c) full) want = Some v →
  v < 2 ^ 64 ∧ ord_ltb (mkU64Ratio v want) (mkU64Ratio (full - c) full) = false.
Proof.
  intros Hf Hc Hw Hv.
  assert (v < 2 ^ 64).
  { unfold checked_mul_round_up, try_into_u64 in Hv. rewrite u64_modulus_pow in Hv.
    destruct (N.ltb_spec (u128_add (u128_mul want (num (mkU64Ratio (full - c) full)))
      (denom (mkU64Ratio (full - c) full) - 1) / denom (mkU64Ratio (full - c) full)) (2 ^ 64)); [|done].
    by injection Hv as <-. }
  split; [done|].
  destruct (RatioProps.u64_ratio_exact (mkU64Ratio (full - c) full) (mkU64Ratio (full - c) full) want)
    as (_ & _ & _ & Hup & _); simpl; [lia..|]. apply Hup in Hv as [Hv _]. simpl in Hv.
  rewrite InputRulesProps.ratio_lt_spec by (simpl; lia). apply N.ltb_ge. simpl. lia.
Qed.

(** Met rules verify, when the keys of outputs differ. *)
Lemma rules_met_verify outs rules bv (tx : Tx) sci amounts :
  sci_conforms bv sci → sci_validate sci = Done (Ok amounts) → input_rules (sci_tx_in sci) = Some rules →
  rules_met outs rules → NoDup (public_key <$> outputs (prefix tx)) → outs ⊆ outputs (prefix tx) →
  (max_tombstone_block rules = 0 ∨ tombstone_block (prefix tx) <= max_tombstone_block rules) →
  rules_verify rules bv tx = Ok tt.
Proof.
  intros [_ Hc] Hval Hr [Hreq Hp] Hn Hsub Ht. destruct (Hc rules Hr) as [_ Hu]. apply Forall_app in Hu as [Hu1 Hu2].
  destruct (sci_validate_Ok sci amounts rules Hval Hr) as (_ & _ & _ & Hpos). unfold rules_verify.
  assert (negb (max_tombstone_block rules =? 0) && (max_tombstone_block rules <? tombstone_block (prefix tx)) = false) as ->.
  { destruct Ht as [->|Ht]; [done|]. apply N.ltb_ge in Ht. by rewrite Ht, andb_false_r. }
  assert (for_each (λ required, if negb (existsb (λ x, bool_decide (x = required)) (outputs (prefix tx)))
                                then Err MissingRequiredOutput else Ok tt) (required_outputs rules) = Ok tt) as ->.
  { apply for_each_Ok, Forall_forall. intros o Ho%Hreq%Hsub.
    assert (existsb (λ x, bool_decide (x = o)) (outputs (prefix tx)) = true) as ->; [|done].
    apply existsb_exists. exists o. split; [by apply list_elem_of_In|by apply bool_decide_eq_true]. }
  cbn [result_bind]. unfold verify_partial_fill_rules, partial_met in *.
  destruct (partial_fill_change rules) as [change|].
  2:{ destruct Hp as [-> ->]. done. }
  destruct Hp as (full & bl & c & co & H1 & H2 & H3 & H4 & H5 & H6 & H7).
  simpl in Hu2. apply Forall_singleton in Hu2 as [_ Hu2]. pose proof (InputRulesProps.revealed_lt _ _ _ _ Hu2 H1) as Hfull.
  destruct (change_committed_Ok _ _ _ _ _ H1 H5) as (_ & He & Hrev).
  rewrite H1. cbn [map_err result_bind]. rewrite (proj2 (N.ltb_ge _ _)) by lia.
  destruct (N.eqb_spec (value full) 0); [lia|]. rewrite (find_by_key co) by auto. cbn [ok_or result_bind].
  rewrite Hrev by (rewrite H3; by eapply revealed_token_lt). cbn [map_err result_bind].
  rewrite H3, N.eqb_refl. cbn [negb]. rewrite u64_sub_small by (done || lia). rewrite (proj2 (N.ltb_ge _ _)) by lia.
  rewrite u64_sub_small by (done || lia). unfold U64Ratio_new at 1.
  destruct (N.eqb_spec (value full) 0); [lia|]. cbn [ok_or result_bind].
  apply for_each_Ok, Forall_forall. intros p Hp. destruct (H7 p Hp) as (want & bl' & v & po & G1 & G2 & G3 & G4).
  rewrite Forall_forall in Hpos, Hu1. destruct (Hpos p Hp) as (want' & bl0 & G1' & Hw).
  rewrite G1 in G1'. injection G1' as <- <-. destruct (Hu1 p Hp) as [_ Hup].
  pose proof (InputRulesProps.revealed_lt _ _ _ _ Hup G1) as Hwant.
  destruct (change_committed_Ok _ _ _ _ _ G1 G3) as (_ & He' & Hrev').
  unfold verify_partial_fill_output. rewrite G1. cbn [map_err result_bind]. rewrite (find_by_key po) by auto.
  cbn [ok_or result_bind]. rewrite Hrev' by (simpl; by eapply revealed_token_lt). cbn [map_err result_bind token_id value].
  rewrite N.eqb_refl. cbn [negb]. unfold U64Ratio_new. destruct (N.eqb_spec (value want) 0); [lia|]. cbn [ok_or result_bind].
  destruct (fraction_respected (value full) (value c) (value want) v) as [_ ->]; [lia..|done|done].
Qed.
(** ** Building *)

(** What [build] makes of a builder. *)
Lemma build_Ok b (signer : S) rng tx rng' :
  build b signer rng = Done (Ok (tx, rng')) →
  ∃ materials rings,
    sort_inputs (input_materials b) = Done materials ∧
    Forall2 (λ m r, input_ring_of_materials m = Ok r) materials rings ∧
    Forall (λ m, check_input (R := R) b m = Ok tt) (input_materials b) ∧
    tb_block_version b <= 4 ∧ input_materials b ≠ [] ∧
    let sorted := sort_by (λ x y, cmp (public_key x.1) (public_key y.1)) (outputs_and_secrets b) in
    prefix tx = mkTxPrefix (tx_in_of_materials <$> materials) sorted.*1 (value (tb_fee b)) (tb_tombstone_block b)
                  (token_id (tb_fee b)) ∧
    rct_sign (tb_block_version b) (prefix tx) rings
      ((λ p, secret_of_unmasked (ud_unmasked_amount p.2)) <$> sorted) (tb_fee b) signer rng
    = Done (Ok (signature tx, rng')).
Proof.
  unfold build, build_with_comparer. intros H. apply ebind_Ok in H as (u & Hu & H). apply emap_err_Ok in H.
  unfold build_unsigned in Hu. destruct (tb_block_version b <? 0); [discriminate|].
  destruct (VERSION_MAX <? tb_block_version b) eqn:Ev; [discriminate|].
  destruct (negb _ && _); [discriminate|]. case_bool_decide as Ene; [discriminate|].
  destruct (negb _); [discriminate|]. apply ebind_Ok in Hu as ([] & Hc & Hu). injection Hc as Hc. apply for_each_Ok in Hc.
  apply exec_bind_Done in Hu as (materials & Hs & Hu). cbv zeta in Hu. apply ebind_Ok in Hu as (rings & Hr & [= <-]).
  injection Hr as Hr. apply map_err_Ok, result_map_Ok in Hr.
  unfold unsigned_sign in H. cbv zeta in H. apply ebind_Ok in H as ([sig rng1] & Hsign & [= <- <-]).
  exists materials, rings. split; [done|]. split; [done|]. split; [done|].
  split; [by apply N.ltb_ge in Ev|]. split; [done|]. cbv zeta. split; [done|].
  unfold output_secrets_of, prefix_fee in Hsign. cbn [prefix ut_tx_prefix ut_rings ut_tx_out_unblinding_data ut_block_version
    fee fee_token_id signature] in Hsign |- *. rewrite <-list_fmap_compose in Hsign. by destruct (tb_fee b).
Qed.

(** The rings that a verifier derives from the inputs match those that were
    signed. *)
Lemma ring_matches_material bv limit outs m r :
  material_ok bv limit outs m → input_ring_of_materials m = Ok r →
  ∃ s, SignedInputRing_try_from (tx_in_of_materials m) = Ok s ∧ ring_matches r s.
Proof.
  destruct m as [cred|sci]; simpl; intros Hm Hr.
  - apply result_bind_Ok in Hr as (sr & Hr & [= <-]). unfold signable_of_credentials in Hr.
    apply result_bind_Ok in Hr as (ms & Hms & [= <-]). unfold SignedInputRing_try_from, tx_in_of_credentials.
    cbn [ring]. rewrite Hms. eexists. split; [reflexivity|]. done.
  - injection Hr as <-. destruct Hm as (_ & [amounts Hv] & rules & Hr & _).
    destruct (sci_validate_Ok sci amounts rules Hv Hr) as (_ & _ & (d & s & Hd & Hs & Hver) & _).
    exists s. split; [done|]. exists d. split; [|exact Hver].
    unfold SignedInputRing_try_from in Hs. apply result_bind_Ok in Hs as (ms & _ & [= <-]). done.
Qed.

Lemma rings_match bv limit outs materials rings :
  Forall (material_ok bv limit outs) materials →
  Forall2 (λ m r, input_ring_of_materials m = Ok r) materials rings →
  ∃ signed, result_map SignedInputRing_try_from (tx_in_of_materials <$> materials) = Ok signed ∧
    Forall2 ring_matches rings signed.
Proof.
  intros Hm H. induction H as [|m r ms rs Hr H IH]; [by exists []|].
  apply Forall_cons in Hm as [Hm Hms]. destruct (ring_matches_material _ _ _ _ _ Hm Hr) as (s & Hs & Hmatch).
  destruct (IH Hms) as (signed & Hsigned & Hmatches). exists (s :: signed). rewrite fmap_cons. simpl.
  rewrite Hs, Hsigned. split; [done|by constructor].
Qed.

Lemma commitments_open bv outs :
  Forall (output_ok bv) outs →
  result_map (λ o, let? a := get_masked_amount o in Ok (commitment a)) outs.*1 =
  Ok (compress <$> (secret_commitment <$> ((λ p, secret_of_unmasked (ud_unmasked_amount p.2)) <$> outs))).
Proof.
  induction 1 as [|[o d] outs [_ (a & Ha & Hc)] H IH]; [done|]. rewrite !fmap_cons. cbn [result_map fst snd] in *.
  unfold get_masked_amount at 1. rewrite Ha. cbn [result_bind]. rewrite IH, Hc. done.
Qed.

(** The inputs are sorted by their first members. *)
Lemma sorted_inputs l materials :
  sort_inputs l = Done materials → Forall (λ m, is_Some (sort_key m)) l → NoDup (sort_key <$> l) →
  materials ≡ₚ l ∧ StronglySorted input_lt (tx_in_of_materials <$> materials).
Proof.
  unfold sort_inputs. destruct (_ && _); [done|]. intros [= <-] Hsome Hn.
  split; [apply sort_by_perm|].
  set (k := λ m, default (vreplicate 32 (u8 0)) (sort_key m)).
  assert (∀ m, m ∈ l → sort_key m = Some (k m)) as Hk.
  { intros m Hm. rewrite Forall_forall in Hsome. destruct (Hsome m Hm) as [x Hx]. unfold k. by rewrite Hx. }
  rewrite (sort_by_ext _ (λ x y, cmp (k x) (k y))).
  2:{ intros x y Hx Hy. by rewrite (Hk x Hx), (Hk y Hy). }
  set (s := sort_by _ l). assert (s ≡ₚ l) as Hs by apply sort_by_perm.
  assert (StronglySorted (λ x y, ord_lt (k x) (k y)) s) as Hst.
  { apply key_sorted_strict; [apply (sort_by_key_sorted k)|]. rewrite Hs. apply (NoDup_fmap_1 Some).
    rewrite <-list_fmap_compose. erewrite list_fmap_ext; [exact Hn|]. intros i m Hm. simpl.
    symmetry. apply Hk. by eapply list_elem_of_lookup_2. }
  assert (∀ m, m ∈ s → ∃ o, head (ring (tx_in_of_materials m)) = Some o ∧ public_key o = k m) as Hh.
  { intros m Hm. rewrite Hs in Hm. apply Hk in Hm. destruct m as [cred|sci]; simpl in *;
      apply fmap_Some in Hm as (o & Ho & E); by exists o. }
  clear -Hst Hh. induction Hst as [|m s Hst IH Hall]; [constructor|]. rewrite fmap_cons.
  constructor; [apply IH; intros m' Hm'; apply Hh; by right|].
  apply Forall_fmap, Forall_forall. intros m' Hm'. simpl. rewrite Forall_forall in Hall. specialize (Hall m' Hm').
  destruct (Hh m) as (o & Ho & E); [by left|]. destruct (Hh m') as (o' & Ho' & E'); [by right|].
  exists o, o'. split; [done|]. split; [done|]. unfold key_lt. by rewrite E, E'.
Qed.

(** What the caller has to see to: sizes, and distinct keys. *)
Record submittable b : Prop := {
  sub_inputs : (length (input_materials b) <= 16)%nat;
  sub_outputs : (1 <= length (outputs_and_secrets b) <= 16)%nat;
  sub_ring_size : Forall (λ m, materials_ring_size m = 11%nat) (input_materials b);
  sub_ring_keys : Forall (λ m, NoDup (public_key <$> ring (tx_in_of_materials m))) (input_materials b);
  sub_free_members : NoDup (free_members (tx_in_of_materials <$> input_materials b));
  sub_sort_keys : NoDup (sort_key <$> input_materials b);
  sub_output_keys : NoDup ((λ p, public_key p.1) <$> outputs_and_secrets b)
}.

Lemma free_members_perm l l' : l ≡ₚ l' → free_members l ≡ₚ free_members l'.
Proof. intros H. unfold free_members. by apply bind_Permutation. Qed.

(** The inputs of a built transaction. *)
Lemma built_rings b bv limit outs m :
  material_ok bv limit outs m → check_input (R := R) b m = Ok tt → materials_ring_size m = 11%nat →
  NoDup (public_key <$> ring (tx_in_of_materials m)) →
  length (ring (tx_in_of_materials m)) = 11%nat ∧ length (proofs (tx_in_of_materials m)) = 11%nat ∧
  StronglySorted key_lt (ring (tx_in_of_materials m)).
Proof.
  unfold check_input. destruct (_ && _); [done|]. destruct m as [cred|sci]; simpl; intros Hm Hc Hsize Hn.
  - destruct (Nat.eqb_spec (length (cred_ring cred)) (length (membership_proofs cred))) as [El|]; [|done].
    split; [done|]. split; [by rewrite <-El|]. by apply (key_sorted_strict public_key).
  - destruct (negb _); [done|].
    destruct (Nat.eqb_spec (length (ring (sci_tx_in sci))) (length (proofs (sci_tx_in sci)))) as [El|]; [|done].
    split; [done|]. split; [by rewrite <-El|]. apply Hm.
Qed.
(** The signature of a built transaction verifies. *)
Lemma built_signature b (signer : S) rng tx rng' rng'' :
  builder_inv b → build b signer rng = Done (Ok (tx, rng')) → NoDup (key_images tx) →
  validate_signature (tb_block_version b) tx rng'' = Ok tt.
Proof.
  intros Hi H Hki. destruct (build_Ok _ _ _ _ _ H) as (materials & rings & Hs & Hr & _ & _ & _ & Hp & Hsign).
  cbv zeta in *. set (sorted := sort_by _ (outputs_and_secrets b)) in *.
  assert (materials ≡ₚ input_materials b) as Hperm.
  { unfold sort_inputs in Hs. destruct (_ && _); [done|]. injection Hs as <-. apply sort_by_perm. }
  assert (sorted ≡ₚ outputs_and_secrets b) as Hout by apply sort_by_perm.
  destruct (rings_match (tb_block_version b) (fog_tombstone_block_limit b) (outputs_and_secrets b).*1 materials rings)
    as (signed & Hsigned & Hm); [rewrite Hperm; apply Hi|done|].
  destruct (rct_sign_verifies _ _ _ _ _ _ _ _ rng'' _ signed Hsign Hm Hki) as [rng3 Hver].
  unfold validate_signature, get_input_rings, output_commitments. rewrite Hp in *. cbn [inputs outputs fee fee_token_id].
  rewrite Hsigned. cbn [map_err result_bind].
  rewrite (commitments_open (tb_block_version b)) by (rewrite Hout; apply Hi). cbn [map_err result_bind].
  apply map_err_Ok. unfold signature_verify, rct_tx_crypto. destruct (tb_fee b) as [v t]. cbn [value token_id] in *.
  match goal with |- match ?x with _ => _ end = _ => assert (x = Done (Ok rng3)) as -> by exact Hver end. done.
Qed.

(** C20: Built transactions are valid.  Take a builder that the methods of
    [TransactionBuilder] produced in any order, calls that failed included, with
    presigned inputs that were validated and whose outputs have the fields of
    the block version.  If [build] returns a transaction, then [validate] accepts
    it: inputs, ring members and outputs are in order, the outputs have the
    fields of the block version, the rules of every presigned input, partial
    fills included, are respected, and the signature verifies.  What remains is
    up to the caller and the ledger: sizes and distinct keys ([submittable]),
    distinct key images, membership proofs, the minimum fee and the tombstone
    window. *)
Theorem built_tx_validates b (signer : S) rng tx rng' current root_proofs minimum_fee rng'' :
  reachable b → submittable b → build b signer rng = Done (Ok (tx, rng')) →
  NoDup (key_images tx) →
  validate_membership_proofs (prefix tx) root_proofs = Ok tt →
  minimum_fee <= value (tb_fee b) →
  current < tb_tombstone_block b ∧ tb_tombstone_block b <= u64_add current 20160 →
  validate tx current (tb_block_version b) root_proofs minimum_fee rng'' = Ok tt.
Proof.
  intros Hi%tb_reachable_inv [S1 S2 S3 S4 S5 S6 S7] H Hki Hmem Hfee Ht.
  pose proof (built_signature _ _ _ _ _ rng'' Hi H Hki) as Hsig. apply validate_Ok.
  destruct (build_Ok _ _ _ _ _ H) as (materials & rings & Hs & _ & Hc & Hv & Hne & Hp & _).
  destruct Hi as [I1 I2 I3]. cbv zeta in *. set (sorted := sort_by _ (outputs_and_secrets b)) in *.
  assert (sorted ≡ₚ outputs_and_secrets b) as Hout by apply sort_by_perm.
  assert (Forall (λ m, is_Some (sort_key m)) (input_materials b)) as Hsome.
  { eapply Forall_impl; [exact S3|]. intros [[[|o l] ? ? ?]|[? [[|o l] ? ?] ? ? ? ?]]; simpl; by eauto. }
  destruct (sorted_inputs _ _ Hs Hsome S6) as [Hperm Hsorted].
  assert (∀ i, i ∈ inputs (prefix tx) → ∃ m, i = tx_in_of_materials m ∧ m ∈ input_materials b) as Hin.
  { intros i Hi. rewrite Hp in Hi. apply list_elem_of_fmap in Hi as (m & -> & Hm). exists m. by rewrite <-Hperm. }
  assert (NoDup (public_key <$> outputs (prefix tx))) as Hkeys.
  { rewrite Hp. cbn [outputs]. rewrite Hout, <-list_fmap_compose. exact S7. }
  rewrite Forall_forall in I3, S3, S4, Hc. split.
  - done.
  - rewrite Hp. cbn [inputs]. unfold len. rewrite length_fmap, Hperm. destruct (input_materials b); [done|]. simpl in *. lia.
  - rewrite Hp. cbn [outputs]. unfold len. rewrite length_fmap, Hout. lia.
  - intros i (m & -> & Hm)%Hin. by eapply built_rings; auto.
  - rewrite Hp. cbn [inputs]. by rewrite (free_members_perm _ _ (fmap_Permutation _ _ _ Hperm)).
  - rewrite Hp. exact Hsorted.
  - done.
  - done.
  - by rewrite Hp.
  - done.
  - exact Hkeys.
  - by rewrite Hp.
  - rewrite Hp. cbn [outputs]. intros o (p & -> & Hpin)%list_elem_of_fmap. rewrite Hout in Hpin.
    rewrite Forall_forall in I1. by destruct (I1 p Hpin).
  - intros _. rewrite Hp in Hkeys |- *. cbn [outputs] in *. apply (key_sorted_strict public_key); [|done].
    apply (sorted_fst key_le), (sort_by_key_sorted (λ p, public_key p.1)).
  - intros i rules (m & -> & Hm)%Hin Hr. specialize (Hc m Hm). specialize (I3 m Hm).
    destruct m as [cred|sci]; [done|]. destruct I3 as (Hconf & [amounts Hval] & rules' & Hr' & Hmet & Hlim).
    simpl in Hr. rewrite Hr in Hr'. injection Hr' as <-. split.
    + unfold check_input in Hc. destruct (_ && _); [done|].
      destruct (signed_input_rules_are_supported _) eqn:Es; [|done]. by apply N.leb_le in Es.
    + eapply (rules_met_verify (outputs_and_secrets b).*1); [exact Hconf|exact Hval|exact Hr|exact Hmet|exact Hkeys| |].
      * intros o Ho. rewrite Hp. cbn [outputs]. by rewrite Hout.
      * rewrite Hp. cbn [tombstone_block]. destruct Hlim; [by left|right; lia].
Qed.
End valid.
(** ** A small instance *)

(** The group with one element, and hashes that are constant. *)
Definition unit_curve : Curve := {|
  scalar := unit; s_zero := tt; s_add := λ _ _, tt; s_sub := λ _ _, tt; s_mul := λ _ _, tt; s_of_u64 := λ _, tt;
  s_bytes := λ _, vreplicate 32 (u8 0); s_from_bytes := λ _, tt; s_from_wide := λ _, tt;
  point := unit; basepoint := tt; p_identity := tt; p_add := λ _ _, tt; p_sub := λ _ _, tt; p_mul := λ _ _, tt;
  p_from_wide := λ _, tt; compress := λ _, vreplicate 32 (u8 0); decompress := λ _, Some tt;
  blake512 := λ _, vreplicate 64 (u8 0); hkdf_sha512 := λ _ _ _ n, vreplicate n (u8 0);
  aes256ctr := λ _ _ n, vreplicate n (u8 0); sign_schnorrkel := λ _ _ _, []
|}.

#[local] Instance uc : Curve := unit_curve.
#[local] Instance ul : CurveLaws.
Proof. split; by repeat intros []. Qed.
#[local] Instance unit_hashes : Digests :=
  {| blake2b256 := λ _, vreplicate 32 (u8 0); tx_out_hash := λ _, vreplicate 32 (u8 0) |}.
#[local] Instance unit_rng : ScalarRng unit := λ _, (@s_zero unit_curve, tt).
#[local] Instance unit_point_rng : PointRng unit := λ _, (@p_identity unit_curve, tt).
#[local] Instance toy_box : BoxAead := CryptoBoxProps.toy_aead.
#[local] Instance toy_range_proofs : Bulletproofs unit := {|
  RangeProof := unit;
  ProofError := unit;
  prove_multiple := λ _ _ _ rng, (Ok (tt, []), rng);
  verify_multiple := λ _ _ _ rng, (Ok tt, rng);
  proof_to_bytes := λ _, [u8 1];
  proof_from_bytes := λ _, Some tt
|}.
#[local] Instance toy_range_proof_laws : BulletproofLaws.
Proof. split; [intros; by eexists|by intros []|done]. Qed.
#[local] Instance toy_rct_digests : RctDigests := RingCtProps.RingCtProps.toy_digests.
#[local] Instance toy_in_digest : TxInDigest := λ _, vreplicate 32 (u8 0).
#[local] Instance toy_config_digests : ConfigDigests :=
  {| governors_map_digest := λ _, vreplicate 32 (u8 0); config_digest := λ _, "digest"%string;
     canonical_digest := λ _, vreplicate 32 (u8 0) |}.
#[local] Existing Instance rct_tx_crypto.

(** Eleven outputs, of which the first is spent, with their proofs in a ledger of
    these. *)
Definition toy_scalar : scalar := @s_zero unit_curve.
Definition toy_recipient : PublicAddress := PublicAddress_new (public_of toy_scalar) (public_of toy_scalar).
Definition ok_default {T E} (r : result T E) (d : T) : T := match r with Ok t => t | Err _ => d end.
Definition toy_spent : TxOut :=
  ok_default (new_with_memo VERSION_THREE (mkAmount 700 0) toy_recipient toy_scalar [] (λ _, Ok (replicate 66 (u8 0))))
    (ex_member 0).
Definition toy_decoy (k : N) : TxOut :=
  mkTxOut (masked_amount toy_spent) (target_key toy_spent) (vreplicate 32 (u8 k)) [] None.
Definition toy_members : list TxOut := toy_spent :: (toy_decoy <$> (N.of_nat <$> seq 1 10)).
Definition toy_member_proofs : list TxOutMembershipProof := (λ i, path_proof toy_members (N.of_nat i) 10 4) <$> seq 0 11.

(** What a call that succeeds returns. *)
Definition returned {T E} (x : exec (result T E)) (d : T) : T := match x with Done (Ok t) => t | _ => d end.
Definition succeeds {T E} (x : exec (result T E)) : bool := match x with Done (Ok _) => true | _ => false end.
Lemma returned_Ok {T E} (x : exec (result T E)) d : succeeds x = true → x = Done (Ok (returned x d)).
Proof. by destruct x as [[]| |]. Qed.
Definition is_done {T} (x : exec T) : bool := match x with Done _ => true | _ => false end.
Lemma is_done_Done {T} (x : exec T) : is_done x = true → ∃ t, x = Done t.
Proof. destruct x; [by eexists|done..]. Qed.

Definition toy_credentials : InputCredentials :=
  returned (InputCredentials_new (R := unit) toy_members toy_member_proofs 0 (OneTimeKey toy_scalar) toy_scalar)
    (mkInputCredentials [] [] 0 (mkInputSecret (OneTimeKey toy_scalar) (mkAmount 0 0) toy_scalar)).

(** 600 of the 700 are sent, and the rest is the fee. *)
Definition toy_new : TransactionBuilder FogResolver EmptyMemoBuilder :=
  mkTransactionBuilder VERSION_THREE [] [] u64_max (mkAmount 100 0) (mkFogResolver []) u64_max (Some mkEmptyMemoBuilder) None.
Definition toy_sending : TransactionBuilder FogResolver EmptyMemoBuilder :=
  match add_output_with_tx_private_key (R := unit) (add_input toy_new toy_credentials) (mkAmount 600 0) toy_recipient None tt with
  | Done (_, b, _) => b
  | _ => toy_new
  end.
Definition toy_builder : TransactionBuilder FogResolver EmptyMemoBuilder := (set_tombstone_block toy_sending 1000).2.

Lemma toy_new_reachable : reachable (R := unit) toy_new.
Proof. by eapply (reach_new VERSION_THREE (mkAmount 100 0) (mkFogResolver []) mkEmptyMemoBuilder). Qed.

Lemma toy_reachable : reachable (R := unit) toy_builder.
Proof.
  unfold toy_builder. apply reach_tombstone. unfold toy_sending.
  destruct (add_output_with_tx_private_key _ _ _ _ _) as [[[r b] rng]| |] eqn:E; [|apply toy_new_reachable..].
  eapply reach_output; [|exact E].
  eapply (reach_input _ toy_members toy_member_proofs 0 (OneTimeKey toy_scalar) toy_scalar); [apply toy_new_reachable|].
  apply returned_Ok. vm_cast_no_check (eq_refl true).
Qed.

Definition toy_tx : Tx := (returned (build (R := unit) toy_builder mkNoKeysRingSigner tt) (ex_valid, tt)).1.
Definition toy_root_proofs : list TxOutMembershipProof := replicate 11 (path_proof toy_members 10 10 4).

Lemma built_tx_validates_witness :
  validate toy_tx 999 VERSION_THREE toy_root_proofs 100 tt = Ok tt.
Proof.
  apply (built_tx_validates toy_builder mkNoKeysRingSigner tt toy_tx
           (returned (build (R := unit) toy_builder mkNoKeysRingSigner tt) (ex_valid, tt)).2 999 toy_root_proofs 100 tt).
  - apply toy_reachable.
  - split; apply (bool_decide_unpack _); vm_cast_no_check Logic.I.
  - unfold toy_tx. rewrite <-surjective_pairing. apply returned_Ok. vm_cast_no_check (eq_refl true).
  - apply (bool_decide_unpack _). vm_cast_no_check Logic.I.
  - assert (is_ok (validate_membership_proofs (prefix toy_tx) toy_root_proofs) = true) as H by vm_cast_no_check (eq_refl true).
    by destruct (validate_membership_proofs (prefix toy_tx) toy_root_proofs) as [[]|].
  - vm_compute. discriminate.
  - vm_compute. split; [reflexivity|discriminate].
Defined.
End TxBuilderValid.
