(* ===== verification/SciProps.v ===== *)
(** * Signed contingent inputs: proofs

    What the builder of signed contingent inputs makes passes their validation,
    which reports the amounts that were asked for, if its partial fill is in
    order ([fillable], which the builder does not check), and is fit for the transaction builder ([sci_conforms] of
    [TxBuilderProps]): a counterparty can add membership proofs and fill it. *)

From stdpp Require Import vector strings gmap.
From S2P Require Import Prelude Ord Bytes TxOut BlockVersion Membership MerkleTree MaskedAmount Tx Ristretto OnetimeKeys Mlsag RingCt RingCtProps LightClient Config TxValidation Memo MemoBuilder CryptoBox Sci TxBuilder SciBuilder Digestible TxBuilderProps TxBuilderValid.

Open Scope N_scope.

Module SciProps.
Import ValidationProps RingCtProps.RingCtProps TxBuilderProps.TxBuilderProps.

Section sci.
Context `{C : Curve} {CL : CurveLaws} `{DG : Digests} `{TD : TxInDigest} {R : Type} `{!ScalarRng R} `{!PointRng R}.
Context `{A : BoxAead} `{B : !Bulletproofs R} `{D : !RctDigests}.
Context {FPR MB : Type} `{F : !FogPubkeyResolver FPR} `{M : !MemoBuilder MB}.
#[local] Existing Instance rct_tx_crypto.
Notation SB := (SignedContingentInputBuilder FPR MB).
Implicit Types b : SB.

(** ** The invariant of the builder *)

(** An output whose amount the rules reveal. *)
Definition revealed_ok (bv : BlockVersion) (r : RevealedTxOut) (amount : Amount) : Prop :=
  (tx_out_conforms bv (rev_tx_out r) ∧ tx_out_u64 (rev_tx_out r)) ∧ ∃ bl, reveal_amount r = Ok (amount, bl).

(** An output that the kept secret opens to the amount. *)
Definition required_ok (bv : BlockVersion) (p : TxOut * OutputSecret) (amount : Amount) : Prop :=
  tx_out_conforms bv p.1 ∧ os_amount p.2 = amount ∧
  ∃ a, masked_amount p.1 = Some a ∧ commitment a = compress (secret_commitment p.2).

(** What was asked of the builder, in the calls that succeeded. *)
Record Offer := mkOffer {
  of_required : list Amount;
  of_partial : list Amount;
  of_change : option Amount
}.
Definition offer_required (o : Offer) (a : Amount) : Offer := mkOffer (of_required o ++ [a]) (of_partial o) (of_change o).
Definition offer_partial (o : Offer) (a : Amount) : Offer := mkOffer (of_required o) (of_partial o ++ [a]) (of_change o).
Definition offer_change (o : Offer) (a : Amount) : Offer := mkOffer (of_required o) (of_partial o) (Some a).

Record sb_inv b (o : Offer) : Prop := {
  si_proofs : length (cred_ring (sb_input_credentials b)) = length (membership_proofs (sb_input_credentials b));
  si_sorted : StronglySorted key_le (cred_ring (sb_input_credentials b));
  si_required : Forall2 (required_ok (sb_block_version b)) (required_outputs_and_secrets b) (of_required o);
  si_partial : Forall2 (revealed_ok (sb_block_version b)) (sb_partial_fill_outputs b) (of_partial o);
  si_change : option_Forall2 (revealed_ok (sb_block_version b)) (sb_partial_fill_change b) (of_change o)
}.

(** Builders that agree on what it speaks of. *)
Definition sb_same b b' : Prop :=
  sb_block_version b' = sb_block_version b ∧ sb_input_credentials b' = sb_input_credentials b ∧
  required_outputs_and_secrets b' = required_outputs_and_secrets b ∧
  sb_partial_fill_outputs b' = sb_partial_fill_outputs b ∧ sb_partial_fill_change b' = sb_partial_fill_change b.

Lemma sb_inv_same b b' o : sb_same b b' → sb_inv b o → sb_inv b' o.
Proof. intros (E1 & E2 & E3 & E4 & E5) [I1 I2 I3 I4 I5]. split; by rewrite ?E1, ?E2, ?E3, ?E4, ?E5. Qed.

(** ** Its methods *)

Lemma sb_new_inv block_version ring proofs index data view cred fog_resolver mb b :
  InputCredentials_new (R := R) ring proofs index data view = Done (Ok cred) →
  sb_new_with_box block_version cred fog_resolver mb = Ok b → sb_inv b (mkOffer [] [] None).
Proof.
  intros Hc. unfold sb_new_with_box. destruct (negb _) eqn:El; [done|]. apply negb_false_iff, Nat.eqb_eq in El.
  destruct (mb_set_fee mb _) as [[u|e] mb']; [|done]. intros [= <-]. split; simpl; [done| |constructor..].
  by eapply credentials_sorted.
Qed.

Lemma sb_make_output_Ok b mb amount recipient hint_address memo_fn (rng : R) o ss expiry mb' rng' :
  sb_make_output b mb amount recipient hint_address memo_fn rng = Done (Ok (o, ss, expiry), mb', rng') →
  ∃ hint key, create_output_with_fog_hint (R := R) (sb_block_version b) amount recipient hint (λ R, (memo_fn mb R).1) key = Ok (o, ss).
Proof.
  unfold sb_make_output. intros H. apply exec_bind_Done in H as ([r rng1] & _ & H).
  destruct r as [[hint ex]|e]; [|done]. destruct (random_scalar rng1) as [key rng2].
  injection H as H _ _. apply result_bind_Ok in H as ([o' ss'] & H & [= <- <- _]). by exists hint, key.
Qed.

(** The shared secret of a fresh output gives its amount back. *)
Lemma created_output_amount bv amount recipient hint memo_fn key o ss a amount' bl :
  token_id amount < 2 ^ 64 →
  create_output_with_fog_hint (R := R) bv amount recipient hint memo_fn key = Ok (o, ss) →
  masked_amount o = Some a → get_value a (compress ss) = Ok (amount', bl) → amount' = amount.
Proof.
  intros Ht Hc Ha Hv. unfold create_output_with_fog_hint in Hc. apply result_bind_Ok in Hc as (o' & Ho & [= -> <-]).
  apply map_err_Ok in Ho. unfold new_with_memo in Ho. cbv zeta in Ho. apply result_bind_Ok in Ho as (a' & Hm & Ho).
  apply map_err_Ok in Hm. apply result_bind_Ok in Ho as (memo & _ & [= Eo]). rewrite <-Eo in Ha. injection Ha as ->.
  pose proof (MaskedAmountProps.masked_amount_roundtrip bv amount
    (compress (create_shared_secret (view_public_key recipient) key)) Ht) as Hrt.
  destruct (negb _ && _); [by rewrite Hm in Hrt|]. destruct Hrt as (a2 & bl2 & Hm2 & Hget & _).
  rewrite Hm in Hm2. injection Hm2 as <-. pose proof (eq_trans (eq_sym Hget) Hv) as E. by injection E as <- _.
Qed.

Lemma add_required_inv b off mb amount recipient hint_address memo_fn (rng : R) r b' mb' rng' :
  sb_inv b off → token_id amount < 2 ^ 64 →
  add_required_output_with_fog_hint_address b mb amount recipient hint_address memo_fn rng = Done (r, b', mb', rng') →
  sb_inv b' (if is_ok r then offer_required off amount else off).
Proof.
  intros Hi Ht H. unfold add_required_output_with_fog_hint_address in H.
  apply exec_bind_Done in H as ([[r0 mb1] rng1] & Hm & H). destruct r0 as [[[o ss] expiry]|e]; [|by injection H as <- <- _ _].
  apply exec_bind_Done in H as (a & Ha & H). destruct (masked_amount o) as [a'|] eqn:Ea; [|done]. injection Ha as ->.
  apply exec_bind_Done in H as ([amount' bl] & Hv & H).
  destruct (get_value a (compress ss)) as [[am bl']|] eqn:Eg; [|done]. injection Hv as -> ->. injection H as <- <- _ _.
  apply sb_make_output_Ok in Hm as (hint & key & Hc). pose proof (created_output_amount _ _ _ _ _ _ _ _ _ _ _ Ht Hc Ea Eg) as ->.
  destruct (created_output_ok _ _ _ _ _ _ _ _ _ _ _ None None Hc Ea Eg) as [H1 H2].
  destruct Hi as [I1 I2 I3 I4 I5]. split; try done. cbn.
  apply Forall2_app; [done|]. apply Forall2_cons. split; [|constructor]. by destruct amount.
Qed.

(** The amount of a fresh output is revealed by its shared secret. *)
Lemma created_output_revealed bv amount recipient hint memo_fn key o ss s :
  3 <= bv → value amount < 2 ^ 64 → token_id amount < 2 ^ 64 →
  create_output_with_fog_hint (R := R) bv amount recipient hint memo_fn key = Ok (o, ss) →
  compute_amount_shared_secret bv (compress ss) = Ok s →
  revealed_ok bv (mkRevealedTxOut o (vec_to_list s)) amount.
Proof.
  intros Hbv Hval Ht Hc Hs. unfold create_output_with_fog_hint in Hc. apply result_bind_Ok in Hc as (o' & Ho & [= -> <-]).
  apply map_err_Ok in Ho. pose proof (new_output_conforms _ _ _ _ _ _ _ Ho) as Hconf.
  unfold new_with_memo in Ho. cbv zeta in Ho. apply result_bind_Ok in Ho as (a & Ha & Ho). apply map_err_Ok in Ha.
  apply result_bind_Ok in Ho as (m & _ & [= Eo]). set (ss := create_shared_secret _ _) in *.
  assert (masked_amount_v2_is_supported bv = true) as Hsup by (by apply N.leb_le).
  unfold MaskedAmount_new in Ha. unfold compute_amount_shared_secret in Hs. rewrite Hsup in Ha, Hs. injection Hs as <-.
  apply result_bind_Ok in Ha as (v2 & Hv2 & [= <-]). unfold v2_new in Hv2.
  pose proof (MaskedAmountProps.v2_round_trip _ _ _ Ht Hv2) as Hrt.
  split; [split; [done|]|].
  - subst o. unfold tx_out_u64. simpl. unfold v2_new_from_amount_shared_secret, get_blinding_factors in Hv2.
    injection Hv2 as <-. simpl. apply lxor_lt; [done|]. apply MaskedAmountProps.mask_lt. by rewrite length_vec_to_list.
  - eexists. unfold reveal_amount, try_reveal_amount. subst o. cbn [rev_tx_out amount_shared_secret]. rewrite to_bytes32_vec. simpl.
    by rewrite Hrt.
Qed.

Lemma make_partial_outcome b mb amount recipient hint_address memo_fn (rng : R) r b' mb' rng' :
  value amount < 2 ^ 64 → token_id amount < 2 ^ 64 →
  make_partial_fill_output_with_fog_hint_address b mb amount recipient hint_address memo_fn rng = Done (r, b', mb', rng') →
  sb_same b b' ∧ ∀ revealed c, r = Ok (revealed, c) → revealed_ok (sb_block_version b) revealed amount.
Proof.
  intros Hval Ht H. unfold make_partial_fill_output_with_fog_hint_address in H.
  destruct (masked_amount_v2_is_supported (sb_block_version b)) eqn:Ev; cbn [negb] in H.
  2:{ injection H as <- <- _ _. done. }
  apply exec_bind_Done in H as ([[r0 mb1] rng1] & Hm & H).
  destruct r0 as [[[o ss] expiry]|e]; [|injection H as <- <- _ _; done]. cbn [sb_block_version sb_impose_tombstone_block_limit sb_with_tombstone] in H.
  destruct (compute_amount_shared_secret _ _) as [s|e] eqn:Es; [|injection H as <- <- _ _; done].
  injection H as <- <- _ _. split; [done|]. intros revealed c [= <- _].
  apply sb_make_output_Ok in Hm as (hint & key & Hc). apply N.leb_le in Ev. by eapply created_output_revealed.
Qed.

(** The memo builder is put back. *)
Lemma sb_taken_Done {T} b (f : SB → MB → exec (result T (TxBuilderError (R := R)) * SB * MB * R)) r b' rng' :
  sb_with_taken_memo_builder b f = Done (r, b', rng') →
  ∃ mb b1 mb', f (sb_with_memo_builder b None) mb = Done (r, b1, mb', rng') ∧ b' = sb_with_memo_builder b1 (Some mb').
Proof.
  unfold sb_with_taken_memo_builder. destruct (sb_memo_builder b) as [mb|]; [|done]. cbn [unwrap exec_bind]. intros H.
  apply exec_bind_Done in H as ([[[r0 b1] mb'] rng1] & E & [= <- <- <-]). by exists mb, b1, mb'.
Qed.

(** ** Reachable builders *)

(** The builders that calls lead to, failed ones included, and what the calls
    that succeeded asked for.  Amounts are 64 bits wide. *)
Inductive sb_reachable : SB → Offer → Prop :=
| sb_reach_new block_version ring proofs index data view cred fog_resolver mb b :
    InputCredentials_new (R := R) ring proofs index data view = Done (Ok cred) →
    sb_new_with_box block_version cred fog_resolver mb = Ok b → sb_reachable b (mkOffer [] [] None)
| sb_reach_required b off amount recipient (rng : R) r b' rng' :
    sb_reachable b off → value amount < 2 ^ 64 → token_id amount < 2 ^ 64 →
    add_required_output b amount recipient rng = Done (r, b', rng') →
    sb_reachable b' (if is_ok r then offer_required off amount else off)
| sb_reach_required_change b off amount destination (rng : R) r b' rng' :
    sb_reachable b off → value amount < 2 ^ 64 → token_id amount < 2 ^ 64 →
    add_required_change_output b amount destination rng = Done (r, b', rng') →
    sb_reachable b' (if is_ok r then offer_required off amount else off)
| sb_reach_partial b off amount recipient (rng : R) r b' rng' :
    sb_reachable b off → value amount < 2 ^ 64 → token_id amount < 2 ^ 64 →
    add_partial_fill_output b amount recipient rng = Done (r, b', rng') →
    sb_reachable b' (if is_ok r then offer_partial off amount else off)
| sb_reach_partial_change b off amount destination (rng : R) r b' rng' :
    sb_reachable b off → value amount < 2 ^ 64 → token_id amount < 2 ^ 64 →
    add_partial_fill_change_output b amount destination rng = Done (r, b', rng') →
    sb_reachable b' (if is_ok r then offer_change off amount else off)
| sb_reach_min b off v : sb_reachable b off → sb_reachable (set_min_partial_fill_value b v) off
| sb_reach_tombstone b off t : sb_reachable b off → sb_reachable (sb_set_tombstone_block b t).2 off.

Lemma add_partial_inv b off amount recipient (rng : R) r b' rng' :
  sb_inv b off → value amount < 2 ^ 64 → token_id amount < 2 ^ 64 →
  add_partial_fill_output b amount recipient rng = Done (r, b', rng') →
  sb_inv b' (if is_ok r then offer_partial off amount else off).
Proof.
  intros IH Hv Ht H. unfold add_partial_fill_output in H. apply exec_bind_Done in H as ([[r0 b0] rng0] & Hm & H).
  apply sb_taken_Done in Hm as (mb & b1 & mb' & Hm & ->). apply make_partial_outcome in Hm as [Hs Hr]; [|done..].
  assert (sb_inv (sb_with_memo_builder b1 (Some mb')) off) as Hi by (by apply (sb_inv_same b)).
  destruct r0 as [[rv c]|e]; [|by injection H as <- <- _]. injection H as <- <- _.
  specialize (Hr rv c eq_refl). destruct Hi as [I1 I2 I3 I4 I5]. split; try done. cbn.
  apply Forall2_app; [done|]. apply Forall2_cons. split; [|constructor]. by destruct Hs as [-> _].
Qed.

Lemma add_partial_change_inv b off amount destination (rng : R) r b' rng' :
  sb_inv b off → value amount < 2 ^ 64 → token_id amount < 2 ^ 64 →
  add_partial_fill_change_output b amount destination rng = Done (r, b', rng') →
  sb_inv b' (if is_ok r then offer_change off amount else off).
Proof.
  intros IH Hv Ht H. unfold add_partial_fill_change_output in H. case_bool_decide; [by injection H as <- <- _|].
  apply exec_bind_Done in H as ([[r0 b0] rng0] & Hm & H).
  apply sb_taken_Done in Hm as (mb & b1 & mb' & Hm & ->). apply make_partial_outcome in Hm as [Hs Hr]; [|done..].
  assert (sb_inv (sb_with_memo_builder b1 (Some mb')) off) as Hi by (by apply (sb_inv_same b)).
  destruct r0 as [[rv c]|e]; [|by injection H as <- <- _]. injection H as <- <- _.
  specialize (Hr rv c eq_refl). destruct Hi as [I1 I2 I3 I4 I5]. split; try done. cbn.
  constructor; by destruct Hs as [-> _].
Qed.

Lemma sb_reachable_inv b off : sb_reachable b off → sb_inv b off.
Proof.
  induction 1 as [|b off amount recipient rng r b' rng' _ IH Hv Ht H|b off amount destination rng r b' rng' _ IH Hv Ht H
    |b off amount recipient rng r b' rng' _ IH Hv Ht H|b off amount destination rng r b' rng' _ IH Hv Ht H
    |b off v _ IH|b off t _ IH].
  - by eapply sb_new_inv.
  - apply sb_taken_Done in H as (mb & b1 & mb' & H & ->). apply (sb_inv_same b1); [done|].
    eapply add_required_inv; [|done|exact H]. by apply (sb_inv_same b).
  - apply sb_taken_Done in H as (mb & b1 & mb' & H & ->). apply (sb_inv_same b1); [done|].
    eapply add_required_inv; [|done|exact H]. by apply (sb_inv_same b).
  - by eapply add_partial_inv.
  - by eapply add_partial_change_inv.
  - by apply (sb_inv_same b).
  - by apply (sb_inv_same b).
Qed.

(** ** Built inputs *)

(** The signed parts of the rules are in order: a partial fill has a change
    output of at least the minimum, and no value of it is zero. *)
Definition fillable (min : N) (off : Offer) : bool :=
  match of_change off with
  | None => bool_decide (of_partial off = []) && (min =? 0)
  | Some change => (0 <? value change) && (min <=? value change) && forallb (λ a, 0 <? value a) (of_partial off)
  end.

(** The amount that the rules reveal. *)
Definition revealed_amount (r : RevealedTxOut) : option Amount :=
  match reveal_amount r with Ok (amount, _) => Some amount | Err _ => None end.

Lemma revealed_amounts bv l amounts : Forall2 (revealed_ok bv) l amounts → omap revealed_amount l = amounts.
Proof.
  induction 1 as [|r a l amounts [_ [bl Hr]] _ IH]; [done|]. simpl.
  assert (revealed_amount r = Some a) as -> by (unfold revealed_amount; by rewrite Hr). f_equal. exact IH.
Qed.

(** The counterparty adds membership proofs. *)
Definition sci_with_proofs (sci : SignedContingentInput) (l : list TxOutMembershipProof) : SignedContingentInput :=
  mkSci (sci_block_version sci) (mkTxIn (ring (sci_tx_in sci)) l (input_rules (sci_tx_in sci))) (sci_mlsag sci)
    (pseudo_output_amount sci) (required_output_amounts sci) (tx_out_global_indices sci).

(** Required outputs that are opened by their amounts pass. *)
Lemma check_required_complete l : ∀ cache,
  cache_ok cache →
  Forall (λ p, ∃ a, masked_amount p.2 = Some a ∧ commitment a = compress (secret_commitment (secret_of_unmasked p.1))) l →
  check_required_outputs l cache = Ok (unmasked_amount <$> l.*1).
Proof.
  induction l as [|[u o] l IH]; intros cache Hc Hl; [done|]. apply Forall_cons in Hl as [(a & Ha & Ho) Hl]. simpl in Ha, Ho.
  cbn [check_required_outputs]. unfold unmasked_commitment. destruct (cache_get cache (um_token_id u)) as [g cache'] eqn:Eg.
  destruct (cache_get_ok cache (um_token_id u) Hc) as [Hg Hc']. rewrite Eg in Hg, Hc'. simpl in Hg, Hc'. subst g.
  unfold get_masked_amount. rewrite Ha. cbn [map_err result_bind]. rewrite Ho, bool_decide_true by done. cbn [negb].
  by rewrite IH.
Qed.

Lemma partial_outputs_complete l :
  Forall (λ r, ∃ a, revealed_amount r = Some a ∧ 0 < value a) l →
  result_map check_partial_fill_output l = Ok (omap revealed_amount l).
Proof.
  induction 1 as [|r l (a & Hr & Hp) Hl IH]; [done|]. cbn [result_map omap list_omap]. rewrite Hr.
  unfold revealed_amount in Hr. unfold check_partial_fill_output at 1.
  destruct (reveal_amount r) as [[want bl]|]; [|done]. injection Hr as ->. cbn [map_err result_bind].
  destruct (N.eqb_spec (value a) 0); [lia|]. cbn [result_bind]. rewrite IH. done.
Qed.

(** The partial fill that was built passes, and is reported. *)
Lemma check_partial_complete b off :
  sb_inv b off → forallb (λ a, 0 <? value a) (of_partial off) = true →
  ∃ amounts, result_map check_partial_fill_output
      (sort_by (λ x y, cmp (public_key (rev_tx_out x)) (public_key (rev_tx_out y))) (sb_partial_fill_outputs b))
    = Ok amounts ∧ amounts ≡ₚ of_partial off.
Proof.
  intros Hi Hp. eexists. split.
  - apply partial_outputs_complete. rewrite sort_by_perm. apply Forall_forall. intros r (i & Hr)%list_elem_of_lookup.
    destruct (Forall2_lookup_l _ _ _ _ _ (si_partial _ _ Hi) Hr) as (a & Ha & _ & bl & Hrev).
    exists a. unfold revealed_amount. rewrite Hrev. split; [done|]. rewrite forallb_forall in Hp.
    apply N.ltb_lt, Hp, list_elem_of_In. by eapply list_elem_of_lookup_2.
  - rewrite sort_by_perm. by rewrite (revealed_amounts _ _ _ (si_partial _ _ Hi)).
Qed.

Lemma required_amounts bv l amounts : Forall2 (required_ok bv) l amounts → os_amount <$> l.*2 = amounts.
Proof. induction 1 as [|p a l amounts (_ & Ha & _) _ IH]; [done|]. rewrite !fmap_cons. by rewrite Ha, IH. Qed.

(** The amounts that [validate] reports are those asked for. *)
Definition reports (amounts : SignedContingentInputAmounts) (pseudo : Amount) (off : Offer) : Prop :=
  sa_pseudo_output amounts = pseudo ∧ sa_required_outputs amounts ≡ₚ of_required off ∧
  sa_partial_fill_outputs amounts ≡ₚ of_partial off ∧ sa_partial_fill_change amounts = of_change off.

(** The rules that were built pass. *)
Lemma check_rules_complete b off sci pseudo cache :
  sb_inv b off → fillable (sb_min_partial_fill_value b) off = true → cache_ok cache →
  required_output_amounts sci
    = unmasked_of_secret <$> (sort_by (λ x y, cmp (public_key x.1) (public_key y.1)) (required_outputs_and_secrets b)).*2 →
  ∃ amounts, check_rules sci (sb_input_rules b) cache pseudo = Ok amounts ∧ reports amounts pseudo off.
Proof.
  intros Hi Hf Hc Hr. unfold check_rules, sb_input_rules.
  cbn [required_outputs partial_fill_outputs partial_fill_change min_partial_fill_value]. rewrite Hr.
  set (sorted := sort_by _ (required_outputs_and_secrets b)).
  assert (sorted ≡ₚ required_outputs_and_secrets b) as Hp by apply sort_by_perm.
  rewrite !length_fmap, Nat.eqb_refl. cbn [negb].
  rewrite check_required_complete; [|done|].
  2:{ assert (Forall (λ p, ∃ a, required_ok (sb_block_version b) p a) sorted) as Hs.
      { rewrite Hp. eapply Forall2_Forall_l; [apply Hi|]. apply Forall_forall. intros a _ p Hpa. by exists a. }
      clear -Hs. induction Hs as [|[o s] l (a & _ & _ & Hs) Hl IH]; simpl; [constructor|]. constructor; [|done].
      by destruct s as [[v t] bl]. }
  cbn [result_bind]. rewrite fst_zip by (rewrite !length_fmap; lia).
  assert (unmasked_amount <$> (unmasked_of_secret <$> sorted.*2) ≡ₚ of_required off) as Ha.
  { rewrite <-(required_amounts _ _ _ (si_required _ _ Hi)), <-Hp, <-list_fmap_compose.
    erewrite list_fmap_ext; [reflexivity|]. by intros i [[v t] bl] _. }
  pose proof (si_change _ _ Hi) as Hch. unfold fillable in Hf.
  destruct (of_change off) as [full|] eqn:Eo; inversion Hch as [change ? [_ [bl Hrev]] Ech|Ech]; subst.
  - apply andb_true_iff in Hf as [Hf Hpf]. apply andb_true_iff in Hf as [Hpos%N.ltb_lt Hmin%N.leb_le].
    rewrite Hrev. cbn [map_err result_bind]. rewrite (proj2 (N.ltb_ge _ _)) by done.
    destruct (N.eqb_spec (value full) 0); [lia|]. destruct (check_partial_complete b off Hi Hpf) as (partial & -> & Hpart).
    cbn [result_bind]. eexists. split; [reflexivity|]. by rewrite <-Eo in *.
  - apply andb_true_iff in Hf as [Hf%bool_decide_eq_true Hmin%N.eqb_eq].
    pose proof (si_partial _ _ Hi) as Hpart. rewrite Hf in Hpart. apply Forall2_nil_inv_r in Hpart as ->. rewrite Hmin.
    cbn. eexists. split; [reflexivity|]. unfold reports. by rewrite Hf, Eo.
Qed.

(** The outputs in the rules have the fields of the block version. *)
Lemma sb_inv_conforms b off :
  sb_inv b off →
  Forall (tx_out_conforms (sb_block_version b)) (required_outputs_and_secrets b).*1 ∧
  Forall (λ r, tx_out_conforms (sb_block_version b) (rev_tx_out r) ∧ tx_out_u64 (rev_tx_out r))
    (sb_partial_fill_outputs b ++ option_list (sb_partial_fill_change b)).
Proof.
  intros [_ _ I3 I4 I5]. split; [|apply Forall_app; split].
  - apply Forall_fmap. eapply Forall2_Forall_l; [exact I3|]. apply Forall_forall. by intros a _ p [? _].
  - eapply Forall2_Forall_l; [exact I4|]. apply Forall_forall. by intros a _ r [? _].
  - destruct I5 as [r a [? _]|]; simpl; [by apply Forall_singleton|constructor].
Qed.

(** C21: Built inputs validate, and report the offer.  Take a builder of signed
    contingent inputs and the amounts asked of it in the calls that succeeded,
    where a partial fill has a change output of at least the minimum fill and no
    amount of zero, and a minimum is set only with a partial fill, which the
    builder does not check; a ring whose members have distinct keys; and a ring
    signer whose signatures verify.  If [build] returns an input, then [validate]
    accepts it, with whatever membership proofs the counterparty adds to it, and
    reports the amount of the spent output, those of the required outputs, those
    of the partial fill outputs and that of the partial fill change, exactly as
    asked for up to the order of the outputs; and the input is fit for the
    transaction builder: its members are in order, and the outputs in its rules
    have the fields of the block version. *)
Theorem built_sci_validates {S : Type} `{!RingSigner R S} `{!RingSignerSound (R := R) (S := S)}
    b off (signer : S) (rng : R) sci rng' l :
  sb_reachable b off → fillable (sb_min_partial_fill_value b) off = true →
  NoDup (public_key <$> cred_ring (sb_input_credentials b)) →
  sb_build b signer rng = Done (Ok (sci, rng')) →
  sci_conforms (sb_block_version b) (sci_with_proofs sci l) ∧
  ∃ amounts, sci_validate (sci_with_proofs sci l) = Done (Ok amounts) ∧
    reports amounts (is_amount (cred_input_secret (sb_input_credentials b))) off.
Proof.
  intros Hi%sb_reachable_inv Hf Hn H. unfold sb_build in H. destruct (_ || _); [discriminate|].
  destruct (_ <? _); [discriminate|]. cbv zeta in H. apply ebind_Ok in H as (sring & Hring & H).
  injection Hring as Hring. apply map_err_Ok in Hring. destruct (random_scalar rng) as [blinding rng1].
  unfold signed_digest in H. cbn [unwrap exec_bind input_rules ring] in H.
  apply ebind_Ok in H as ([sig rng2] & Hsign & [= <- _]). apply emap_err_Ok in Hsign.
  unfold signable_of_credentials in Hring. apply result_bind_Ok in Hring as (ms & Hms & [= <-]).
  apply signer_sound in Hsign. cbn [signable_members RingCt.input_secret] in Hsign.
  unfold sci_with_proofs. cbn [sci_block_version sci_tx_in ring input_rules sci_mlsag pseudo_output_amount
    required_output_amounts tx_out_global_indices]. split.
  - split; cbn [sci_tx_in ring input_rules]; [by apply (key_sorted_strict public_key); [apply Hi|]|].
    intros rules [= <-]. unfold sb_input_rules. cbn [required_outputs partial_fill_outputs partial_fill_change].
    rewrite !sort_by_perm. by apply (sb_inv_conforms b off).
  - unfold sci_validate. cbn [sci_tx_in ring tx_out_global_indices pseudo_output_amount sci_mlsag].
    rewrite length_fmap, <-(si_proofs _ _ Hi), Nat.eqb_refl. cbn [negb]. unfold unmasked_commitment.
    cbn [um_token_id RingCt.input_secret]. destruct (cache_get ∅ _) as [g cache] eqn:Eg. assert (cache_ok ∅) as H0 by apply map_Forall_empty.
    destruct (cache_get_ok ∅ (token_id (is_amount (cred_input_secret (sb_input_credentials b)))) H0) as [Hg Hc].
    rewrite Eg in Hg, Hc. simpl in Hg, Hc. subst g.
    unfold signed_digest, SignedInputRing_try_from. cbn [input_rules ring ok_or ebind]. rewrite Hms.
    cbn [result_bind map_err ebind members].
    match goal with |- context [ring_verify ?x ?m ?r ?o] => assert (ring_verify x m r o = Done (Ok tt)) as -> by exact Hsign end.
    cbn [emap_err exec_bind map_err ebind].
    edestruct (check_rules_complete b) as (amounts & -> & Hp & Hr); [exact Hi|exact Hf|exact Hc|reflexivity|].
    exists amounts. split; [done|]. split; [|done]. rewrite Hp. by destruct (is_amount _).
Qed.
End sci.

(** ** A small instance *)

Import TxBuilderValid.TxBuilderValid.
#[local] Existing Instances uc ul unit_hashes unit_rng unit_point_rng toy_box toy_range_proofs toy_rct_digests toy_in_digest.
#[local] Existing Instance rct_tx_crypto.

(** An offer of up to 650 for 20 of another token, with a required output of 50,
    at least 10 of which have to be taken. *)
Definition toy_offer_new : SignedContingentInputBuilder FogResolver EmptyMemoBuilder :=
  mkSciBuilder VERSION_THREE toy_credentials [] u64_max [] None 0 (mkFogResolver []) u64_max (Some mkEmptyMemoBuilder).
Definition toy_destination : ReservedSubaddresses := mkReservedSubaddresses toy_recipient toy_recipient toy_recipient.

Definition builder_of {T U V} (x : exec (T * U * V)) (d : U) : U := match x with Done (_, b, _) => b | _ => d end.
Definition toy_offer1 := builder_of (add_required_output (R := unit) toy_offer_new (mkAmount 50 0) toy_recipient tt) toy_offer_new.
Definition toy_offer2 := builder_of (add_partial_fill_output (R := unit) toy_offer1 (mkAmount 20 1) toy_recipient tt) toy_offer1.
Definition toy_offer3 :=
  builder_of (add_partial_fill_change_output (R := unit) toy_offer2 (mkAmount 650 0) toy_destination tt) toy_offer2.
Definition toy_offer := set_min_partial_fill_value toy_offer3 10.

(** What it asks for. *)
Definition toy_asked : Offer := mkOffer [mkAmount 50 0] [mkAmount 20 1] (Some (mkAmount 650 0)).

Definition succeeded {T E U V} (x : exec (result T E * U * V)) : bool :=
  match x with Done (r, _, _) => is_ok r | _ => false end.

Lemma toy_offer_reachable : sb_reachable (R := unit) toy_offer toy_asked.
Proof.
  assert (sb_reachable (R := unit) toy_offer_new (mkOffer [] [] None)) as H0.
  { eapply (sb_reach_new VERSION_THREE toy_members toy_member_proofs 0 (OneTimeKey toy_scalar) toy_scalar toy_credentials
      (mkFogResolver []) mkEmptyMemoBuilder).
    - apply returned_Ok. vm_cast_no_check (eq_refl true).
    - vm_cast_no_check (eq_refl (Ok toy_offer_new : result _ SciBuilderError)). }
  assert (sb_reachable (R := unit) toy_offer1 (mkOffer [mkAmount 50 0] [] None)) as H1.
  { assert (succeeded (add_required_output (R := unit) toy_offer_new (mkAmount 50 0) toy_recipient tt) = true) as Hs
      by (vm_cast_no_check (eq_refl true)).
    unfold toy_offer1, builder_of. destruct (add_required_output _ _ _ _) as [[[[r|] b] rng]| |] eqn:E; [|done..].
    by refine (sb_reach_required _ _ (mkAmount 50 0) _ _ (Ok r) _ _ H0 _ _ E). }
  assert (sb_reachable (R := unit) toy_offer2 (mkOffer [mkAmount 50 0] [mkAmount 20 1] None)) as H2.
  { assert (succeeded (add_partial_fill_output (R := unit) toy_offer1 (mkAmount 20 1) toy_recipient tt) = true) as Hs
      by (vm_cast_no_check (eq_refl true)).
    unfold toy_offer2, builder_of. destruct (add_partial_fill_output _ _ _ _) as [[[[r|] b] rng]| |] eqn:E; [|done..].
    by refine (sb_reach_partial _ _ (mkAmount 20 1) _ _ (Ok r) _ _ H1 _ _ E). }
  apply sb_reach_min.
  assert (succeeded (add_partial_fill_change_output (R := unit) toy_offer2 (mkAmount 650 0) toy_destination tt) = true)
    as Hs by (vm_cast_no_check (eq_refl true)).
  unfold toy_offer3, builder_of. destruct (add_partial_fill_change_output _ _ _ _) as [[[[r|] b] rng]| |] eqn:E; [|done..].
  by refine (sb_reach_partial_change _ _ (mkAmount 650 0) _ _ (Ok r) _ _ H2 _ _ E).
Qed.

Definition toy_sci_built : SignedContingentInput * unit :=
  returned (sb_build (R := unit) toy_offer mkNoKeysRingSigner tt)
    (mkSci 0 (mkTxIn [] [] None) (mkRingMLSAG (vreplicate 32 (u8 0)) [] (vreplicate 32 (u8 1)))
       (mkUnmaskedAmount 0 0 toy_scalar) [] [], tt).
Definition toy_sci : SignedContingentInput := sci_with_proofs toy_sci_built.1 toy_member_proofs.

Lemma built_sci_validates_witness :
  ∃ amounts, sci_validate toy_sci = Done (Ok amounts) ∧
    sa_pseudo_output amounts = mkAmount 700 0 ∧ sa_required_outputs amounts ≡ₚ [mkAmount 50 0] ∧
    sa_partial_fill_outputs amounts ≡ₚ [mkAmount 20 1] ∧ sa_partial_fill_change amounts = Some (mkAmount 650 0).
Proof.
  edestruct (built_sci_validates (R := unit) toy_offer toy_asked mkNoKeysRingSigner tt toy_sci_built.1 toy_sci_built.2
    toy_member_proofs) as (_ & amounts & H1 & H2 & H3 & H4 & H5).
  - apply toy_offer_reachable.
  - vm_cast_no_check (eq_refl true).
  - apply (bool_decide_unpack _). vm_cast_no_check Logic.I.
  - rewrite <-surjective_pairing. apply returned_Ok. vm_cast_no_check (eq_refl true).
  - exists amounts. split; [exact H1|]. split; [|split; [exact H3|split; [exact H4|exact H5]]].
    rewrite H2. vm_cast_no_check (eq_refl (mkAmount 700 0)).
Defined.
End SciProps.
