(* ===== verification/TxSummary.v ===== *)
(** * Summaries of transactions

    [transaction/summary/src]: the streaming verifier of a hardware wallet.  It
    is given the summary of a transaction piece by piece with the data that
    unblinds it, checks the data, reports what changes for whom
    ([report.rs], over the map of [util/vec-map]), and computes the digest that
    the rings of the transaction sign ([verifier.rs], [data.rs]). *)

From stdpp Require Import vector strings.
From S2P Require Import Prelude Ord Bytes TxOut Membership BlockVersion MaskedAmount Tx TxValidation Ristretto OnetimeKeys Mlsag RingCt Memo Digestible Sci TxBuilder.

Open Scope N_scope.

(** ** [VecMap] *)

Record VecMap (K V : Type) := mkVecMap { vm_keys : list K; vm_values : list V }.
Arguments mkVecMap {K V} _ _.
Arguments vm_keys {K V} _.
Arguments vm_values {K V} _.

Section vec_map.
Context {K V : Type} `{EqDecision K}.
Implicit Types self : VecMap K V.

(** The vectors have room for this many entries. *)
Variable CAPACITY : nat.

Definition vm_default : VecMap K V := mkVecMap [] [].

Definition vm_get self (key : K) : exec (option V) :=
  match position (λ k, bool_decide (k = key)) (vm_keys self) with
  | Some idx => match vm_values self !! idx with Some v => Done (Some v) | None => Panic end
  | None => Done None
  end.

(** [get_mut_or_insert_with]: the index of the value the reference is to;
    [None] is [CapacityExceeded]. *)
Definition get_mut_or_insert_with self (key : K) (val : V) : exec (option nat * VecMap K V) :=
  match position (λ k, bool_decide (k = key)) (vm_keys self) with
  | Some idx => if (idx <? length (vm_values self))%nat then Done (Some idx, self) else Panic
  | None =>
      let idx := length (vm_keys self) in
      if (idx <? CAPACITY)%nat then
        if (length (vm_values self) <? CAPACITY)%nat then
          let self := mkVecMap (vm_keys self ++ [key]) (vm_values self ++ [val]) in
          if (idx <? length (vm_values self))%nat then Done (Some idx, self) else Panic
        else Panic
      else Done (None, self)
  end.

(** [VecMap::sort]; the keys are different, so that the unstable sort of the
    indices has one result. *)
Definition vm_sort `{Ord K} self : exec (VecMap K V) :=
  let indices := sort_by (λ i j, cmp (vm_keys self !! i) (vm_keys self !! j)) (seq 0 (length (vm_keys self))) in
  match mapM (λ i, vm_keys self !! i) indices, mapM (λ i, vm_values self !! i) indices with
  | Some keys, Some values => Done (mkVecMap keys values)
  | _, _ => Panic
  end.
End vec_map.

(** ** The report *)

Inductive TransactionEntity :=
| Ourself
| Address (hash : bytes)
| Swap.

#[export] Instance TransactionEntity_eq_dec : EqDecision TransactionEntity.
Proof. solve_decision. Defined.

(** The derived order: by variant, then by the hash. *)
Definition entity_key (e : TransactionEntity) : N * bytes :=
  match e with Ourself => (0, []) | Address h => (1, h) | Swap => (2, []) end.
#[export] Instance TransactionEntity_ord : Ord TransactionEntity := λ a b, cmp (entity_key a) (entity_key b).

Inductive SummaryError :=
| UnexpectedOutput
| UnexpectedInput
| StillExpectingMoreOutputs
| StillExpectingMoreInputs
| AmountVerificationFailed
| AddressVerificationFailed
| MissingTxPrivateKey
| MissingDataRequiredToVerifyTxOutRecipient
| NumericOverflow
| BufferOverflow
| SummaryBlockVersion (e : BlockVersionError)
| MissingMaskedAmount
| SummaryKey (e : KeyError)
| SummaryAmount (e : AmountError)
| SummaryZipExact (e : nat * nat).

Definition MAX_RECORDS : nat := N.to_nat (MAX_OUTPUTS + MAX_INPUTS).

Record TxSummaryUnblindingReport := mkReport {
  balance_changes : VecMap (TransactionEntity * N) Z;
  network_fee : Amount;
  report_tombstone_block : N
}.

Definition report_default : TxSummaryUnblindingReport := mkReport vm_default (mkAmount 0 0) 0.

Definition with_balances (report : TxSummaryUnblindingReport) (m : VecMap (TransactionEntity * N) Z) :
    TxSummaryUnblindingReport :=
  mkReport m (network_fee report) (report_tombstone_block report).

Definition i64_max : Z := 2 ^ 63 - 1.
Definition i64_min : Z := - 2 ^ 63.

(** [checked_add] and [checked_sub] of an [i64]. *)
Definition i64_checked (z : Z) : option Z :=
  if ((i64_min <=? z) && (z <=? i64_max))%Z then Some z else None.

Section report.
(** The number of records. *)
Variable RECORDS : nat.
Implicit Types report : TxSummaryUnblindingReport.

(** What [balance_add] and [balance_subtract] share: the entry is made before
    the new balance is found to overflow. *)
Definition balance_update (op : Z → Z → Z) report (entity : TransactionEntity) (token_id value : N) :
    exec (result unit SummaryError * TxSummaryUnblindingReport) :=
  let value := Z.of_N value in
  if (value <=? i64_max)%Z then
    let! (idx, m) := get_mut_or_insert_with RECORDS (balance_changes report) (entity, token_id) 0%Z in
    match idx with
    | None => Done (Err BufferOverflow, with_balances report m)
    | Some idx =>
        match vm_values m !! idx with
        | None => Panic
        | Some stored =>
            match i64_checked (op stored value) with
            | None => Done (Err NumericOverflow, with_balances report m)
            | Some stored => Done (Ok tt, with_balances report (mkVecMap (vm_keys m) (<[idx := stored]> (vm_values m))))
            end
        end
    end
  else Done (Err NumericOverflow, report).

Definition balance_add := balance_update Z.add.
Definition balance_subtract := balance_update Z.sub.

Definition report_sort report : exec TxSummaryUnblindingReport :=
  let! m := vm_sort (balance_changes report) in Done (with_balances report m).
End report.

(** ** The streaming verifier *)

#[export] Instance TxOutSummary_eq_dec : EqDecision TxOutSummary.
Proof. solve_decision. Defined.

Section verifier.
Context `{C : Curve} `{MX : !MemoCrypto} `{MR : Merlin}.

Record TxSummaryStreamingVerifierCtx := mkCtx {
  ctx_view_private_key : scalar;
  ctx_block_version : BlockVersion;
  (** The calls so far; the label is that of the extended message and summary. *)
  transcript : Transcript;
  expected_num_outputs : nat;
  expected_num_inputs : nat;
  output_count : nat;
  input_count : nat
}.
Implicit Types (self : TxSummaryStreamingVerifierCtx) (report : TxSummaryUnblindingReport).

Definition verifier_new (extended_message_digest : bytes32) (block_version : BlockVersion)
    (expected_num_outputs expected_num_inputs : nat) (view_private_key : scalar) : TxSummaryStreamingVerifierCtx :=
  mkCtx view_private_key block_version
    (append_to_transcript dig_array "extended_message" extended_message_digest ++
     append_agg_header "tx_summary" "TxSummary" ++
     append_seq_header "outputs" expected_num_outputs)
    expected_num_outputs expected_num_inputs 0 0.

(** [view_key_match]. *)
Definition summary_view_key_match self (tx_out_summary : TxOutSummary) : result (option Amount) SummaryError :=
  let? public_key := map_err SummaryKey (point_try_from (sum_public_key tx_out_summary)) in
  let tx_out_shared_secret := get_tx_out_shared_secret (ctx_view_private_key self) public_key in
  match sum_masked_amount tx_out_summary with
  | None => Err MissingMaskedAmount
  | Some masked_amount =>
      match get_value masked_amount (compress tx_out_shared_secret) with
      | Ok (amount, _) => Ok (Some amount)
      | Err InconsistentCommitment => Ok None
      | Err e => Err (SummaryAmount e)
      end
  end.

(** [expected_tx_out_summary]. *)
Definition expected_tx_out_summary (block_version : BlockVersion) (amount : Amount) (recipient : PublicAddress)
    (tx_private_key : scalar) : result TxOutSummary SummaryError :=
  let target_key := compress (create_tx_out_target_key tx_private_key recipient) in
  let public_key := create_tx_out_public_key tx_private_key (spend_public_key recipient) in
  let shared_secret := create_shared_secret (view_public_key recipient) tx_private_key in
  let? masked_amount := map_err SummaryAmount (MaskedAmount_new block_version amount (compress shared_secret)) in
  Ok (mkTxOutSummary (Some masked_amount) target_key (compress public_key) false).

(** Whose output it is and its amount: the first part of [digest_output]. *)
Definition output_recipient self (tx_out_summary : TxOutSummary) (unmasked_amount : UnmaskedAmount)
    (address : option (bytes * PublicAddress)) (tx_private_key : option scalar) :
    result (TransactionEntity * Amount) SummaryError :=
  let? ours := summary_view_key_match self tx_out_summary in
  match ours, address with
  | Some amount, _ => Ok (Ourself, amount)
  | None, Some (address_hash, address) =>
      let amount := mkAmount (um_value unmasked_amount) (um_token_id unmasked_amount) in
      match tx_private_key with
      | None => Err MissingTxPrivateKey
      | Some tx_private_key =>
          let? expected := expected_tx_out_summary (ctx_block_version self) amount address tx_private_key in
          if bool_decide (expected = tx_out_summary) then Ok (Address address_hash, amount)
          else Err AddressVerificationFailed
      end
  | None, None =>
      if negb (associated_to_input_rules tx_out_summary) then Err MissingDataRequiredToVerifyTxOutRecipient
      else
        let generator := generators (um_token_id unmasked_amount) in
        let expected_commitment :=
          CompressedCommitment_new (um_value unmasked_amount) (um_blinding unmasked_amount) generator in
        match sum_masked_amount tx_out_summary with
        | None => Err MissingMaskedAmount
        | Some masked_amount =>
            if negb (bool_decide (expected_commitment = commitment masked_amount)) then Err AmountVerificationFailed
            else Ok (Swap, mkAmount (um_value unmasked_amount) (um_token_id unmasked_amount))
        end
  end.

Definition with_transcript self (t : Transcript) (outputs inputs : nat) : TxSummaryStreamingVerifierCtx :=
  mkCtx (ctx_view_private_key self) (ctx_block_version self) t (expected_num_outputs self) (expected_num_inputs self)
    outputs inputs.

Section records.
Variable RECORDS : nat.

(** [digest_output]. *)
Definition digest_output self (tx_out_summary : TxOutSummary) (unmasked_amount : UnmaskedAmount)
    (address : option (bytes * PublicAddress)) (tx_private_key : option scalar) report :
    exec (result unit SummaryError * (TxSummaryStreamingVerifierCtx * TxSummaryUnblindingReport)) :=
  if (expected_num_outputs self <=? output_count self)%nat then Done (Err UnexpectedOutput, (self, report))
  else
    match output_recipient self tx_out_summary unmasked_amount address tx_private_key with
    | Err e => Done (Err e, (self, report))
    | Ok (entity, amount) =>
        let! (r, report) := balance_add RECORDS report entity (token_id amount) (value amount) in
        match r with
        | Err e => Done (Err e, (self, report))
        | Ok _ =>
            let t := transcript self ++ append_to_transcript dig_tx_out_summary "" tx_out_summary in
            let count := Datatypes.S (output_count self) in
            let t := if (count =? expected_num_outputs self)%nat
                     then t ++ append_seq_header "inputs" (expected_num_inputs self) else t in
            Done (Ok tt, (with_transcript self t count (input_count self), report))
        end
    end.

(** [digest_input]. *)
Definition digest_input self (tx_in_summary : TxInSummary) (tx_in_summary_unblinding_data : UnmaskedAmount) report :
    exec (result unit SummaryError * (TxSummaryStreamingVerifierCtx * TxSummaryUnblindingReport)) :=
  if negb (output_count self =? expected_num_outputs self)%nat then Done (Err StillExpectingMoreOutputs, (self, report))
  else if (expected_num_inputs self <=? input_count self)%nat then Done (Err UnexpectedInput, (self, report))
  else
    let value := um_value tx_in_summary_unblinding_data in
    let token_id := um_token_id tx_in_summary_unblinding_data in
    let generator := generators token_id in
    let expected_commitment := CompressedCommitment_new value (um_blinding tx_in_summary_unblinding_data) generator in
    if negb (bool_decide (expected_commitment = pseudo_output_commitment tx_in_summary))
    then Done (Err AmountVerificationFailed, (self, report))
    else
      let entity := if bool_decide (input_rules_digest tx_in_summary = []) then Ourself else Swap in
      let! (r, report) := balance_subtract RECORDS report entity token_id value in
      match r with
      | Err e => Done (Err e, (self, report))
      | Ok _ =>
          let t := transcript self ++ append_to_transcript dig_tx_in_summary "" tx_in_summary in
          Done (Ok tt, (with_transcript self t (output_count self) (Datatypes.S (input_count self)), report))
      end.
End records.

(** [finalize]: the digest and the report. *)
Definition finalize self (fee : Amount) (tombstone_block : N) report : exec (bytes32 * TxSummaryUnblindingReport) :=
  let report := mkReport (balance_changes report) fee tombstone_block in
  let! report := report_sort report in
  let t := transcript self ++
    append_to_transcript dig_u64 "fee" (value fee) ++
    append_to_transcript dig_u64 "fee_token_id" (token_id fee) ++
    append_to_transcript dig_u64 "tombstone_block" tombstone_block ++
    append_agg_closer "tx_summary" "TxSummary" in
  Done (merlin_digest "mc_extended_message_and_tx_summary" t, report).

(** ** [verify_tx_summary] *)

Notation verifier_state := (TxSummaryStreamingVerifierCtx * TxSummaryUnblindingReport)%type.

(** A call of the verifier, an error of which is returned. *)
Definition try_digest (m : exec (result unit SummaryError * verifier_state)) : exec (result verifier_state SummaryError) :=
  let! (r, s) := m in
  match r with Ok _ => Done (Ok s) | Err e => Done (Err e) end.

(** The two loops. *)
Fixpoint digest_outputs (l : list (TxOutSummary * TxOutSummaryUnblindingData)) (s : verifier_state) :
    exec (result verifier_state SummaryError) :=
  match l with
  | [] => Done (Ok s)
  | (tx_out_summary, data) :: l =>
      let address := (λ v, (short_address_hash v, v)) <$> ud_address data in
      let^ s := try_digest (digest_output MAX_RECORDS s.1 tx_out_summary (ud_unmasked_amount data) address
        (ud_tx_private_key data) s.2) in
      digest_outputs l s
  end.
Fixpoint digest_inputs (l : list (TxInSummary * UnmaskedAmount)) (s : verifier_state) :
    exec (result verifier_state SummaryError) :=
  match l with
  | [] => Done (Ok s)
  | (tx_in_summary, data) :: l =>
      let^ s := try_digest (digest_input MAX_RECORDS s.1 tx_in_summary data s.2) in
      digest_inputs l s
  end.

Definition verify_tx_summary (extended_message_digest : bytes32) (tx_summary : TxSummary)
    (unblinding_data : TxSummaryUnblindingData) (view_private_key : scalar) :
    exec (result (bytes32 * TxSummaryUnblindingReport) SummaryError) :=
  let^ block_version := Done (map_err SummaryBlockVersion (BlockVersion_try_from (tsu_block_version unblinding_data))) in
  let verifier := verifier_new extended_message_digest block_version (length (sum_outputs tx_summary))
    (length (sum_inputs tx_summary)) view_private_key in
  let^ outputs := Done (map_err SummaryZipExact (zip_exact (sum_outputs tx_summary) (tsu_outputs unblinding_data))) in
  let^ s := digest_outputs outputs (verifier, report_default) in
  let^ inputs := Done (map_err SummaryZipExact (zip_exact (sum_inputs tx_summary) (tsu_inputs unblinding_data))) in
  let^ s := digest_inputs inputs s in
  let! r := finalize s.1 (mkAmount (sum_fee tx_summary) (sum_fee_token_id tx_summary))
    (sum_tombstone_block tx_summary) s.2 in
  Done (Ok r).
End verifier.
