(* ===== verification/TxSummaryProps.v ===== *)
(** * Summaries of transactions: proofs

    What the streaming verifier accepts is what it reports: the digest is the
    one the rings sign, every output and input was opened, and the balances are
    the exact sums.  Summaries made of honest data are accepted. *)

From stdpp Require Import vector strings.
From S2P Require Import Prelude Ord Bytes TxOut Membership BlockVersion MaskedAmount Tx TxValidation Ristretto OnetimeKeys Mlsag RingCt RingCtProps Memo Digestible Sci TxBuilder TxBuilderProps TxBuilderValid TxSummary.

Open Scope N_scope.

Module TxSummaryProps.
Import TxBuilderProps.TxBuilderProps.

(** ** Vector maps *)

Section vec_map.
Context {K V : Type} `{EqDecision K}.
Implicit Types (m : VecMap K V) (k : K).

(** Different keys, and as many values. *)
Record vm_wf (capacity : nat) m : Prop := {
  vw_keys : NoDup (vm_keys m);
  vw_length : length (vm_keys m) = length (vm_values m);
  vw_capacity : (length (vm_keys m) <= capacity)%nat
}.

(** The value of a key. *)
Definition vm_lookup m k : option V :=
  idx ← position (λ k', bool_decide (k' = k)) (vm_keys m); vm_values m !! idx.

Lemma position_Some k (l : list K) i :
  NoDup l → position (λ k', bool_decide (k' = k)) l = Some i ↔ l !! i = Some k.
Proof.
  intros Hnd. revert i. induction Hnd as [|x l Hx Hl IH]; intros i; [by split|]. simpl.
  case_bool_decide as D.
  - subst x. split; [by intros [= <-]|]. destruct i as [|i]; [done|]. intros Hi.
    exfalso. apply Hx. by eapply list_elem_of_lookup_2.
  - destruct i as [|i]; simpl.
    + split; [|by intros [= ->]]. by destruct (position _ l).
    + rewrite <-IH. destruct (position _ l); simpl; naive_solver.
Qed.

Lemma position_None k (l : list K) : position (λ k', bool_decide (k' = k)) l = None ↔ k ∉ l.
Proof.
  induction l as [|x l IH]; simpl; [split; [intros _; apply not_elem_of_nil|done]|].
  rewrite not_elem_of_cons, <-IH. case_bool_decide; [naive_solver|]. destruct (position _ l); naive_solver.
Qed.

Lemma vm_lookup_Some capacity m k v :
  vm_wf capacity m → vm_lookup m k = Some v ↔ ∃ i, vm_keys m !! i = Some k ∧ vm_values m !! i = Some v.
Proof.
  intros [Hn Hl _]. unfold vm_lookup. rewrite bind_Some. by setoid_rewrite position_Some.
Qed.

Lemma vm_lookup_None capacity m k : vm_wf capacity m → vm_lookup m k = None ↔ k ∉ vm_keys m.
Proof.
  intros Hw. rewrite <-position_None. unfold vm_lookup.
  destruct (position _ _) as [i|] eqn:E; [|done]. simpl. split; [|done]. intros Hi.
  apply position_Some in E; [|apply Hw]. apply lookup_lt_Some in E. apply lookup_ge_None in Hi.
  destruct Hw as [_ Hl _]. lia.
Qed.

(** The reference is to the value of the key, which is the default when it is
    new, or there is no room. *)
Lemma get_mut_or_insert_spec capacity m k v0 :
  vm_wf capacity m →
  (∃ i m', get_mut_or_insert_with capacity m k v0 = Done (Some i, m') ∧ vm_wf capacity m' ∧
     vm_keys m' !! i = Some k ∧ vm_values m' !! i = Some (default v0 (vm_lookup m k)) ∧
     (∀ k', k' ≠ k → vm_lookup m' k' = vm_lookup m k') ∧ (∀ k', k' ∈ vm_keys m' ↔ k' = k ∨ k' ∈ vm_keys m)) ∨
  (get_mut_or_insert_with capacity m k v0 = Done (None, m) ∧ k ∉ vm_keys m ∧ (capacity <= length (vm_keys m))%nat).
Proof.
  intros Hw. pose proof Hw as [Hn Hl Hc]. unfold get_mut_or_insert_with.
  destruct (position _ _) as [i|] eqn:E.
  - left. apply position_Some in E; [|done]. pose proof (lookup_lt_Some _ _ _ E) as Hi.
    rewrite (proj2 (Nat.ltb_lt _ _)) by lia. exists i, m. split; [done|]. split; [done|]. split; [done|].
    destruct (lookup_lt_is_Some_2 (vm_values m) i) as [v Hv]; [lia|].
    assert (vm_lookup m k = Some v) as -> by (eapply vm_lookup_Some; eauto).
    split; [done|]. split; [done|]. intros k'. split; [by right|]. intros [->|]; [|done].
    by eapply list_elem_of_lookup_2.
  - pose proof E as Ek%position_None. destruct (Nat.ltb_spec (length (vm_keys m)) capacity) as [Hlt|Hge]; [left|right].
    + rewrite (proj2 (Nat.ltb_lt _ _)) by lia. cbn [vm_values]. rewrite length_app. cbn [length].
      rewrite (proj2 (Nat.ltb_lt _ _)) by lia. eexists _, _. split; [reflexivity|].
      assert (vm_wf capacity (mkVecMap (vm_keys m ++ [k]) (vm_values m ++ [v0]))) as Hw'.
      { split; simpl; [|rewrite !length_app; simpl; lia..]. apply NoDup_app.
        split; [done|]. split; [|apply NoDup_singleton]. intros x Hx ->%list_elem_of_singleton. done. }
      split; [done|]. cbn [vm_keys vm_values]. split; [by rewrite list_lookup_middle|].
      rewrite (proj2 (vm_lookup_None _ _ _ Hw) Ek). rewrite Hl, list_lookup_middle by done.
      split; [done|]. split; [|intros k'; rewrite elem_of_app, list_elem_of_singleton; naive_solver].
      intros k' Hk'. apply option_eq. intros v. rewrite (vm_lookup_Some _ _ _ _ Hw'), (vm_lookup_Some _ _ _ _ Hw).
      cbn [vm_keys vm_values]. split; intros (i & Hk & Hv).
      * exists i. destruct (decide (i < length (vm_keys m))%nat) as [Hi|Hi].
        -- rewrite lookup_app_l in Hk by lia. rewrite lookup_app_l in Hv by lia. done.
        -- exfalso. rewrite lookup_app_r in Hk by lia. apply list_lookup_singleton_Some in Hk. naive_solver.
      * exists i. split; by apply lookup_app_l_Some.
    + done.
Qed.

(** Writing to the reference. *)
Lemma vm_update_spec capacity m i k v :
  vm_wf capacity m → vm_keys m !! i = Some k →
  let m' := mkVecMap (vm_keys m) (<[i := v]> (vm_values m)) in
  vm_wf capacity m' ∧ vm_lookup m' k = Some v ∧ ∀ k', k' ≠ k → vm_lookup m' k' = vm_lookup m k'.
Proof.
  intros Hw Hi. cbv zeta. pose proof Hw as [Hn Hl Hc]. pose proof (lookup_lt_Some _ _ _ Hi) as Hlt.
  assert (vm_wf capacity (mkVecMap (vm_keys m) (<[i := v]> (vm_values m)))) as Hw'.
  { split; simpl; [done| |done]. by rewrite length_insert. }
  split; [done|]. split.
  - eapply vm_lookup_Some; [done|]. exists i. split; [done|]. simpl. apply list_lookup_insert_eq. lia.
  - intros k' Hk'. apply option_eq. intros w. rewrite (vm_lookup_Some _ _ _ _ Hw'), (vm_lookup_Some _ _ _ _ Hw). simpl.
    split; intros (j & Hk & Hv); exists j; (split; [done|]).
    + rewrite list_lookup_insert_ne in Hv; [done|]. intros ->. congruence.
    + rewrite list_lookup_insert_ne; [done|]. intros ->. congruence.
Qed.

(** Reading a permutation of the indices permutes a list. *)
Lemma mapM_lookup {A} (l : list A) (idxs : list nat) :
  (∀ i, i ∈ idxs → (i < length l)%nat) → ∃ l', mapM (λ i, l !! i) idxs = Some l' ∧ (λ i, l !! i) <$> idxs = Some <$> l'.
Proof.
  induction idxs as [|i idxs IH]; intros Hi; [by exists []|].
  destruct (lookup_lt_is_Some_2 l i) as [x Hx]; [apply Hi; by left|].
  destruct IH as (l' & E & E'); [intros j Hj; apply Hi; by right|].
  exists (x :: l'). rewrite !fmap_cons, E', Hx. simpl. rewrite Hx, E. done.
Qed.

Lemma map_lookup_seq {A} (l : list A) : (λ i, l !! i) <$> seq 0 (length l) = Some <$> l.
Proof.
  apply list_eq. intros i. rewrite !list_lookup_fmap. destruct (l !! i) as [x|] eqn:E.
  - rewrite lookup_seq_lt by by eapply lookup_lt_Some. simpl. by rewrite E.
  - apply lookup_ge_None in E. by rewrite lookup_seq_ge by lia.
Qed.

Lemma lookup_mapM {A} (l l' : list A) (idxs : list nat) j :
  (λ i, l !! i) <$> idxs = Some <$> l' → l' !! j = idxs !! j ≫= λ i, l !! i.
Proof.
  intros E. apply (f_equal (λ x, x !! j)) in E. rewrite !list_lookup_fmap in E.
  destruct (idxs !! j) as [i|]; simpl in *; destruct (l' !! j); simpl in *; congruence.
Qed.
End vec_map.

Lemma omap_Some {A} (l : list A) : omap id (Some <$> l) = l.
Proof. induction l as [|x l IH]; [done|]. simpl. f_equal. exact IH. Qed.

Lemma StronglySorted_fmap_iff {A B} (R : B → B → Prop) (f : A → B) l :
  StronglySorted (λ a b, R (f a) (f b)) l ↔ StronglySorted R (f <$> l).
Proof.
  induction l as [|x l IH]; [by split; constructor|]. rewrite fmap_cons.
  split; intros H; inversion H as [|? ? H1 H2]; subst; constructor; [by apply IH| |by apply IH|]; by apply Forall_fmap.
Qed.

Lemma vm_sort_spec {K V} `{EqDecision K} `{TotalOrd K} capacity (m : VecMap K V) :
  vm_wf capacity m →
  ∃ m', vm_sort m = Done m' ∧ vm_wf capacity m' ∧ vm_keys m' ≡ₚ vm_keys m ∧
    StronglySorted ord_lt (vm_keys m') ∧ ∀ k, vm_lookup m' k = vm_lookup m k.
Proof.
  intros Hw. pose proof Hw as [Hn Hl Hc]. unfold vm_sort.
  set (idxs := sort_by _ _).
  assert (idxs ≡ₚ seq 0 (length (vm_keys m))) as His by apply sort_by_perm.
  assert (∀ i, i ∈ idxs → (i < length (vm_keys m))%nat) as Hi.
  { intros i. rewrite His. intros Hi%elem_of_seq. lia. }
  destruct (mapM_lookup (vm_keys m) idxs) as (ks & Ek & Fk); [done|].
  destruct (mapM_lookup (vm_values m) idxs) as (vs & Ev & Fv); [by rewrite <-Hl|].
  rewrite Ek, Ev. exists (mkVecMap ks vs). split; [done|]. cbn [vm_keys vm_values].
  assert (ks ≡ₚ vm_keys m) as Hp.
  { assert (Some <$> ks ≡ₚ Some <$> vm_keys m) as Hp by by rewrite <-Fk, His, map_lookup_seq.
    apply (omap_Permutation id) in Hp. by rewrite !omap_Some in Hp. }
  assert (vm_wf capacity (mkVecMap ks vs)) as Hw'.
  { split; cbn [vm_keys vm_values]; [by rewrite Hp| |by rewrite Hp].
    apply (f_equal length) in Fk, Fv. rewrite !length_fmap in Fk. rewrite !length_fmap in Fv. lia. }
  split; [done|]. split; [done|]. split.
  - pose proof (sort_by_key_sorted (λ i, vm_keys m !! i) (seq 0 (length (vm_keys m)))) as Hs. fold idxs in Hs.
    apply key_sorted_strict in Hs; [|change (NoDup ((λ i, vm_keys m !! i) <$> idxs)); rewrite Fk; apply (NoDup_fmap_2 Some); by rewrite Hp].
    assert (StronglySorted ord_lt ((λ i, vm_keys m !! i) <$> idxs)) as Hs'.
    { exact (proj1 (StronglySorted_fmap_iff ord_lt (λ i, vm_keys m !! i) idxs) Hs). }
    rewrite Fk in Hs'. by apply (StronglySorted_fmap_iff ord_lt Some) in Hs'.
  - intros k. apply option_eq. intros v. rewrite (vm_lookup_Some _ _ _ _ Hw'), (vm_lookup_Some _ _ _ _ Hw).
    cbn [vm_keys vm_values]. split; intros (j & Hk & Hv).
    + rewrite (lookup_mapM _ _ _ _ Fk) in Hk. rewrite (lookup_mapM _ _ _ _ Fv) in Hv.
      destruct (idxs !! j) as [i|]; [|done]. by exists i.
    + assert (j ∈ idxs) as [i Hj]%list_elem_of_lookup.
      { rewrite His. apply elem_of_seq. apply lookup_lt_Some in Hk. lia. }
      exists i. rewrite (lookup_mapM _ _ _ _ Fk), (lookup_mapM _ _ _ _ Fv), Hj. done.
Qed.

(** ** Balances *)

#[export] Instance TransactionEntity_total_ord : TotalOrd TransactionEntity.
Proof.
  split; unfold cmp, TransactionEntity_ord.
  - intros x y. rewrite cmp_eq_iff. split; [|by intros ->]. destruct x, y; simpl; by intros [=]; subst.
  - intros x y. apply cmp_opp.
  - intros x y z. apply cmp_lt_trans.
Qed.

Section balances.
Implicit Types (r : TxSummaryUnblindingReport) (k : TransactionEntity * N).

Definition report_wf (records : nat) r : Prop := vm_wf records (balance_changes r).
(** The balance of an entity in a token. *)
Definition balance r k : Z := default 0%Z (vm_lookup (balance_changes r) k).
Definition listed r k : Prop := k ∈ vm_keys (balance_changes r).

Definition in_i64 (z : Z) : Prop := (i64_min <= z <= i64_max)%Z.

(** [r'] is [r] with the balance of [k] changed to [z]. *)
Record changed r r' k (z : Z) : Prop := {
  ch_balance : balance r' k = z;
  ch_other k' : k' ≠ k → balance r' k' = balance r k';
  ch_listed k' : listed r' k' ↔ k' = k ∨ listed r k'
}.

Lemma balance_update_spec records op r entity token_id value :
  report_wf records r →
  let k := (entity, token_id) in
  let z := op (balance r k) (Z.of_N value) in
  ∃ res r', balance_update records op r entity token_id value = Done (res, r') ∧ report_wf records r' ∧
    match res with
    | Ok _ => changed r r' k z ∧ in_i64 z ∧ (Z.of_N value <= i64_max)%Z
    | Err _ => ¬ in_i64 z ∨ (i64_max < Z.of_N value)%Z ∨
               (¬ listed r k ∧ (records <= length (vm_keys (balance_changes r)))%nat)
    end.
Proof.
  intros Hw. cbv zeta. unfold balance_update. destruct (Z.leb_spec (Z.of_N value) i64_max) as [Hv|Hv].
  2: { eexists _, _. split; [done|]. split; [done|]. right; left. lia. }
  destruct (get_mut_or_insert_spec records (balance_changes r) (entity, token_id) 0%Z Hw)
    as [(i & m & -> & Hm & Hk & Hval & Hother & Hkeys)|(-> & Hn & Hc)]; cbn [exec_bind].
  2: { eexists _, _. split; [done|]. split; [done|]. right; right. done. }
  rewrite Hval. unfold i64_checked. fold (balance r (entity, token_id)). set (z := op _ _).
  destruct (Z.leb_spec i64_min z) as [H1|H1]; [destruct (Z.leb_spec z i64_max) as [H2|H2]|]; cbn [andb].
  - eexists _, _. split; [done|].
    destruct (vm_update_spec records m i (entity, token_id) z Hm Hk) as (Hw' & Hz & Ho). split; [exact Hw'|].
    split; [|split; [split; lia|lia]]. split.
    + unfold balance. cbn [with_balances balance_changes]. by rewrite Hz.
    + intros k' Hk'. unfold balance. cbn [with_balances balance_changes]. rewrite Ho, Hother by done. done.
    + exact Hkeys.
  - eexists _, _. split; [done|]. split; [exact Hm|]. left. unfold in_i64. lia.
  - eexists _, _. split; [done|]. split; [exact Hm|]. left. unfold in_i64. lia.
Qed.

Lemma report_sort_spec records r :
  report_wf records r →
  ∃ r', report_sort r = Done r' ∧ report_wf records r' ∧ network_fee r' = network_fee r ∧
    report_tombstone_block r' = report_tombstone_block r ∧
    StronglySorted ord_lt (vm_keys (balance_changes r')) ∧
    (∀ k, balance r' k = balance r k) ∧ ∀ k, listed r' k ↔ listed r k.
Proof.
  intros Hw. destruct (vm_sort_spec records (balance_changes r) Hw) as (m & E & Hm & Hp & Hs & Hl).
  unfold report_sort. rewrite E. eexists. split; [done|]. split; [exact Hm|]. do 2 (split; [done|]).
  split; [exact Hs|]. split.
  - intros k. unfold balance. cbn [with_balances balance_changes]. by rewrite Hl.
  - intros k. unfold listed. cbn [with_balances balance_changes]. by rewrite Hp.
Qed.
End balances.

(** ** The verifier *)

Section verifier.
Context `{C : Curve} `{MX : !MemoCrypto} `{MR : Merlin}.
Implicit Types (ctx : TxSummaryStreamingVerifierCtx) (r : TxSummaryUnblindingReport).
Notation output_data := (TxOutSummary * TxOutSummaryUnblindingData)%type.
Notation input_data := (TxInSummary * UnmaskedAmount)%type.

(** What an output is reported as. *)
Definition recipient_of ctx (p : output_data) : result (TransactionEntity * Amount) SummaryError :=
  output_recipient ctx p.1 (ud_unmasked_amount p.2) ((λ v, (short_address_hash v, v)) <$> ud_address p.2)
    (ud_tx_private_key p.2).

(** Whose input it is. *)
Definition spender_of (i : TxInSummary) : TransactionEntity :=
  if bool_decide (input_rules_digest i = []) then Ourself else Swap.
Definition input_opens (p : input_data) : Prop :=
  CompressedCommitment_new (um_value p.2) (um_blinding p.2) (generators (um_token_id p.2)) = pseudo_output_commitment p.1.

(** There is room for a change of [k] by [v] to [z]. *)
Definition room r k (v z : Z) : Prop :=
  in_i64 z ∧ (v <= i64_max)%Z ∧ (listed r k ∨ (length (vm_keys (balance_changes r)) < MAX_RECORDS)%nat).

Definition after_output ctx (o : TxOutSummary) : TxSummaryStreamingVerifierCtx :=
  with_transcript ctx
    (transcript ctx ++ append_to_transcript dig_tx_out_summary "" o ++
     if (Datatypes.S (output_count ctx) =? expected_num_outputs ctx)%nat
     then append_seq_header "inputs" (expected_num_inputs ctx) else [])
    (Datatypes.S (output_count ctx)) (input_count ctx).
Definition after_input ctx (i : TxInSummary) : TxSummaryStreamingVerifierCtx :=
  with_transcript ctx (transcript ctx ++ append_to_transcript dig_tx_in_summary "" i)
    (output_count ctx) (Datatypes.S (input_count ctx)).

Lemma update_room op r entity token_id value :
  report_wf MAX_RECORDS r →
  let k := (entity, token_id) in
  let z := op (balance r k) (Z.of_N value) in
  ∃ res r', balance_update MAX_RECORDS op r entity token_id value = Done (res, r') ∧ report_wf MAX_RECORDS r' ∧
    match res with
    | Ok _ => changed r r' k z
    | Err _ => ¬ room r k (Z.of_N value) z
    end.
Proof.
  intros Hw. destruct (balance_update_spec MAX_RECORDS op r entity token_id value Hw) as (res & r' & E & Hw' & H).
  exists res, r'. split; [done|]. split; [done|]. destruct res; [apply H|].
  intros (H1 & H2 & H3). destruct H as [H|[H|[H4 H5]]]; [done|lia|]. destruct H3; [done|lia].
Qed.

Lemma digest_output_spec ctx o d r :
  report_wf MAX_RECORDS r → (output_count ctx < expected_num_outputs ctx)%nat →
  ∃ res, try_digest (digest_output MAX_RECORDS ctx o (ud_unmasked_amount d)
      ((λ v, (short_address_hash v, v)) <$> ud_address d) (ud_tx_private_key d) r) = Done res ∧
    match res with
    | Ok (ctx', r') => ∃ entity amount, recipient_of ctx (o, d) = Ok (entity, amount) ∧
        report_wf MAX_RECORDS r' ∧ ctx' = after_output ctx o ∧
        changed r r' (entity, token_id amount) (balance r (entity, token_id amount) + Z.of_N (value amount))%Z
    | Err e => recipient_of ctx (o, d) = Err e ∨
        ∃ entity amount, recipient_of ctx (o, d) = Ok (entity, amount) ∧
        ¬ room r (entity, token_id amount) (Z.of_N (value amount))
            (balance r (entity, token_id amount) + Z.of_N (value amount))%Z
    end.
Proof.
  intros Hw Hc. unfold digest_output. rewrite (proj2 (Nat.leb_gt _ _)) by lia.
  change (output_recipient ctx o _ _ _) with (recipient_of ctx (o, d)).
  destruct (recipient_of ctx (o, d)) as [[entity amount]|e] eqn:E.
  - destruct (update_room Z.add r entity (token_id amount) (value amount) Hw) as (res & r' & E' & Hw' & H).
    unfold balance_add. rewrite E'. cbn [exec_bind]. destruct res as [u|e]; cbn [try_digest exec_bind].
    + eexists. split; [reflexivity|]. exists entity, amount. split; [done|]. split; [done|].
      split; [|exact H]. unfold after_output. destruct (_ =? _)%nat; [by rewrite <-app_assoc|by rewrite app_nil_r].
    + eexists. split; [reflexivity|]. right. by exists entity, amount.
  - eexists. split; [reflexivity|]. by left.
Qed.

Lemma digest_input_spec ctx i u r :
  report_wf MAX_RECORDS r → output_count ctx = expected_num_outputs ctx → (input_count ctx < expected_num_inputs ctx)%nat →
  let k := (spender_of i, um_token_id u) in
  let z := (balance r k - Z.of_N (um_value u))%Z in
  ∃ res, try_digest (digest_input MAX_RECORDS ctx i u r) = Done res ∧
    match res with
    | Ok (ctx', r') => input_opens (i, u) ∧ report_wf MAX_RECORDS r' ∧ ctx' = after_input ctx i ∧ changed r r' k z
    | Err e => ¬ input_opens (i, u) ∨ ¬ room r k (Z.of_N (um_value u)) z
    end.
Proof.
  intros Hw Ho Hc. cbv zeta. unfold digest_input. rewrite Ho, Nat.eqb_refl, (proj2 (Nat.leb_gt _ _)) by lia.
  cbn [negb]. fold (input_opens (i, u)). case_bool_decide as D; cbn [negb].
  - fold (spender_of i).
    destruct (update_room Z.sub r (spender_of i) (um_token_id u) (um_value u) Hw) as (res & r' & E' & Hw' & H).
    unfold balance_subtract. rewrite E'. cbn [exec_bind]. destruct res as [x|e]; cbn [try_digest exec_bind].
    + eexists. split; [reflexivity|]. split; [exact D|]. split; [done|]. split; [|exact H].
      unfold after_input. by rewrite Ho.
    + eexists. split; [reflexivity|]. by right.
  - eexists. split; [reflexivity|]. left. exact D.
Qed.

(** ** The loops *)

(** What is added to or subtracted from the balance of [k]. *)
Notation entry := (TransactionEntity * N * N)%type.
Definition sum_for (k : TransactionEntity * N) (es : list entry) : Z :=
  foldr (λ e acc, if bool_decide (e.1 = k) then Z.of_N e.2 + acc else acc)%Z 0%Z es.
Definition total (es : list entry) : Z := foldr (λ e acc, Z.of_N e.2 + acc)%Z 0%Z es.

Definition entry_of (p : TransactionEntity * Amount) : entry := (p.1, token_id p.2, value p.2).
Definition input_entry (p : input_data) : entry := (spender_of p.1, um_token_id p.2, um_value p.2).

(** [r'] is [r] with the balances changed by [f]. *)
Record moved r r' (es : list entry) (f : Z → Z → Z) : Prop := {
  mv_balance k : balance r' k = f (balance r k) (sum_for k es);
  mv_listed k : listed r' k ↔ k ∈ es.*1 ∨ listed r k
}.

Lemma moved_cons f r r1 r2 e es :
  (∀ a b c, f (f a b) c = f a (b + c)%Z) → (∀ a, f a 0%Z = a) →
  changed r r1 e.1 (f (balance r e.1) (Z.of_N e.2)) → moved r1 r2 es f → moved r r2 (e :: es) f.
Proof.
  intros Hf Hf0 [H1 H2 H3] [G1 G2]. split; intros k.
  - rewrite G1. unfold sum_for. simpl. fold (sum_for k es). case_bool_decide as D.
    + subst k. by rewrite H1, Hf.
    + by rewrite H2.
  - rewrite G2, H3. rewrite fmap_cons, elem_of_cons. tauto.
Qed.

Lemma moved_nil f r : (∀ a, f a 0%Z = a) → moved r r [] f.
Proof. intros Hf. split; intros k; [by rewrite Hf|]. rewrite fmap_nil, elem_of_nil. tauto. Qed.

(** There is room for all entries. *)
Definition fits_outputs r (es : list entry) : Prop :=
  (∀ k, (0 <= balance r k)%Z ∧ (balance r k + total es <= i64_max)%Z) ∧
  (length (vm_keys (balance_changes r)) + length es <= MAX_RECORDS)%nat.
Definition fits_inputs r (es : list entry) : Prop :=
  (∀ k, (i64_min + total es <= balance r k <= i64_max)%Z) ∧ (total es <= i64_max)%Z ∧
  (length (vm_keys (balance_changes r)) + length es <= MAX_RECORDS)%nat.

Lemma changed_length r r' k z :
  report_wf MAX_RECORDS r' → changed r r' k z →
  (length (vm_keys (balance_changes r')) <= Datatypes.S (length (vm_keys (balance_changes r))))%nat.
Proof.
  intros [Hn _ _] [_ _ Hl]. change (Datatypes.S ?n) with (length (k :: vm_keys (balance_changes r))).
  apply submseteq_length, NoDup_submseteq; [done|]. intros x Hx. apply elem_of_cons. by apply Hl.
Qed.

Lemma total_nonneg es : (0 <= total es)%Z.
Proof. induction es as [|e es IH]; simpl; [done|]. lia. Qed.

Lemma fits_outputs_cons r e es :
  fits_outputs r (e :: es) →
  let z := (balance r e.1 + Z.of_N e.2)%Z in
  room r e.1 (Z.of_N e.2) z ∧ ∀ r', report_wf MAX_RECORDS r' → changed r r' e.1 z → fits_outputs r' es.
Proof.
  intros [Hb Hl]. cbv zeta. simpl in Hl. pose proof (total_nonneg es) as Ht.
  assert (∀ k, (0 <= balance r k)%Z ∧ (balance r k + (Z.of_N e.2 + total es) <= i64_max)%Z) as Hb' by exact Hb.
  split.
  - split; [|split; [|right; lia]].
    + unfold in_i64, i64_min. specialize (Hb' e.1). lia.
    + specialize (Hb' e.1). lia.
  - intros r' Hw Hc. split; [|pose proof (changed_length _ _ _ _ Hw Hc); lia].
    intros k. destruct (decide (k = e.1)) as [->|Hk].
    + rewrite (ch_balance _ _ _ _ Hc). specialize (Hb' e.1). lia.
    + rewrite (ch_other _ _ _ _ Hc) by done. specialize (Hb' k). lia.
Qed.

Lemma fits_inputs_cons r e es :
  fits_inputs r (e :: es) →
  let z := (balance r e.1 - Z.of_N e.2)%Z in
  room r e.1 (Z.of_N e.2) z ∧ ∀ r', report_wf MAX_RECORDS r' → changed r r' e.1 z → fits_inputs r' es.
Proof.
  intros (Hb & Hm & Hl). cbv zeta. simpl in Hl. pose proof (total_nonneg es) as Ht.
  assert (∀ k, (i64_min + (Z.of_N e.2 + total es) <= balance r k <= i64_max)%Z) as Hb' by exact Hb.
  assert (Z.of_N e.2 + total es <= i64_max)%Z as Hm' by exact Hm.
  split.
  - split; [|split; [lia|right; lia]]. unfold in_i64. specialize (Hb' e.1). lia.
  - intros r' Hw Hc. split; [|split; [lia|pose proof (changed_length _ _ _ _ Hw Hc); lia]].
    intros k. destruct (decide (k = e.1)) as [->|Hk].
    + rewrite (ch_balance _ _ _ _ Hc). specialize (Hb' e.1). lia.
    + rewrite (ch_other _ _ _ _ Hc) by done. specialize (Hb' k). lia.
Qed.

Definition after_outputs ctx (l : list TxOutSummary) : TxSummaryStreamingVerifierCtx :=
  with_transcript ctx
    (transcript ctx ++ flat_map (append_to_transcript dig_tx_out_summary "") l ++
     match l with [] => [] | _ => append_seq_header "inputs" (expected_num_inputs ctx) end)
    (output_count ctx + length l) (input_count ctx).
Definition after_inputs ctx (l : list TxInSummary) : TxSummaryStreamingVerifierCtx :=
  with_transcript ctx (transcript ctx ++ flat_map (append_to_transcript dig_tx_in_summary "") l)
    (output_count ctx) (input_count ctx + length l).

Lemma after_outputs_cons ctx o l :
  (output_count ctx + length (o :: l))%nat = expected_num_outputs ctx →
  after_outputs (after_output ctx o) l = after_outputs ctx (o :: l).
Proof.
  intros Hn. simpl in Hn. unfold after_outputs, after_output, with_transcript. cbn [output_count expected_num_outputs
    expected_num_inputs input_count transcript ctx_view_private_key ctx_block_version length flat_map]. f_equal; [|lia].
  rewrite <-!app_assoc. do 2 f_equal. destruct l as [|o' l].
  - rewrite (proj2 (Nat.eqb_eq _ _)) by (simpl in Hn; lia). by rewrite app_nil_r.
  - rewrite (proj2 (Nat.eqb_neq _ _)) by (simpl in Hn; lia). done.
Qed.

Lemma after_inputs_cons ctx i l : after_inputs (after_input ctx i) l = after_inputs ctx (i :: l).
Proof.
  unfold after_inputs, after_input, with_transcript. cbn [output_count expected_num_outputs
    expected_num_inputs input_count transcript ctx_view_private_key ctx_block_version length flat_map].
  f_equal; [by rewrite <-app_assoc|lia].
Qed.

Lemma digest_outputs_spec l : ∀ ctx r,
  report_wf MAX_RECORDS r → (output_count ctx + length l)%nat = expected_num_outputs ctx →
  ∃ res, digest_outputs l (ctx, r) = Done res ∧
    match res with
    | Ok (ctx', r') => ∃ es, Forall2 (λ p e, recipient_of ctx p = Ok e) l es ∧ report_wf MAX_RECORDS r' ∧
        ctx' = after_outputs ctx l.*1 ∧ moved r r' (entry_of <$> es) Z.add
    | Err _ => ∀ es, Forall2 (λ p e, recipient_of ctx p = Ok e) l es → ¬ fits_outputs r (entry_of <$> es)
    end.
Proof.
  induction l as [|[o d] l IH]; intros ctx r Hw Hn.
  - eexists. split; [reflexivity|]. exists []. split; [constructor|]. split; [done|].
    split; [|apply moved_nil; lia]. unfold after_outputs, with_transcript. destruct ctx. simpl.
    by rewrite app_nil_r, Nat.add_0_r.
  - cbn [digest_outputs fst snd]. simpl in Hn. destruct (digest_output_spec ctx o d r Hw) as (res & -> & H); [lia|].
    destruct res as [[ctx1 r1]|e]; cbn [ebind].
    + destruct H as (entity & amount & Hr & Hw1 & -> & Hc).
      destruct (IH (after_output ctx o) r1 Hw1) as (res & -> & G); [simpl; lia|]. eexists. split; [reflexivity|].
      destruct res as [[ctx2 r2]|e].
      * destruct G as (es & Hes & Hw2 & -> & Hm). exists ((entity, amount) :: es). split; [by constructor|].
        split; [done|]. split; [by apply after_outputs_cons; simpl; rewrite length_fmap; lia|].
        rewrite fmap_cons. eapply moved_cons; [lia|lia|exact Hc|exact Hm].
      * intros es Hes. apply Forall2_cons_inv_l in Hes as (e' & es' & He' & Hes & ->). rewrite Hr in He'.
        injection He' as <-. rewrite fmap_cons. intros [_ Hfit]%fits_outputs_cons. by eapply G; [exact Hes|eapply Hfit].
    + eexists. split; [reflexivity|]. intros es Hes. apply Forall2_cons_inv_l in Hes as (e' & es' & He' & Hes & ->).
      destruct H as [H|(entity & amount & Hr & Hroom)]; [by rewrite H in He'|].
      rewrite Hr in He'. injection He' as <-. rewrite fmap_cons. intros [Hroom' _]%fits_outputs_cons. done.
Qed.

Lemma digest_inputs_spec l : ∀ ctx r,
  report_wf MAX_RECORDS r → output_count ctx = expected_num_outputs ctx →
  (input_count ctx + length l)%nat = expected_num_inputs ctx →
  ∃ res, digest_inputs l (ctx, r) = Done res ∧
    match res with
    | Ok (ctx', r') => Forall input_opens l ∧ report_wf MAX_RECORDS r' ∧
        ctx' = after_inputs ctx l.*1 ∧ moved r r' (input_entry <$> l) Z.sub
    | Err _ => Forall input_opens l → ¬ fits_inputs r (input_entry <$> l)
    end.
Proof.
  induction l as [|[i u] l IH]; intros ctx r Hw Ho Hn.
  - eexists. split; [reflexivity|]. split; [constructor|]. split; [done|].
    split; [|apply moved_nil; lia]. unfold after_inputs, with_transcript. destruct ctx. simpl.
    by rewrite app_nil_r, Nat.add_0_r.
  - cbn [digest_inputs fst snd]. simpl in Hn. destruct (digest_input_spec ctx i u r Hw Ho) as (res & -> & H); [lia|].
    destruct res as [[ctx1 r1]|e]; cbn [ebind].
    + destruct H as (Hop & Hw1 & -> & Hc).
      destruct (IH (after_input ctx i) r1 Hw1) as (res & -> & G); [done|simpl; lia|]. eexists. split; [reflexivity|].
      destruct res as [[ctx2 r2]|e].
      * destruct G as (Hops & Hw2 & -> & Hm). split; [by constructor|]. split; [done|]. split.
        -- apply after_inputs_cons.
        -- rewrite fmap_cons. eapply moved_cons; [lia|lia|exact Hc|exact Hm].
      * intros Hops. apply Forall_cons in Hops as [_ Hops]. rewrite fmap_cons.
        intros [_ Hfit]%fits_inputs_cons. by eapply G; [exact Hops|eapply Hfit].
    + eexists. split; [reflexivity|]. intros Hops. apply Forall_cons in Hops as [Hop Hops]. rewrite fmap_cons.
      intros [Hroom _]%fits_inputs_cons. by destruct H.
Qed.

(** ** [verify_tx_summary] *)

Lemma default_wf : report_wf MAX_RECORDS report_default.
Proof. split; simpl; [constructor|done|lia]. Qed.

Lemma sum_for_bounds k es : (0 <= sum_for k es <= total es)%Z.
Proof.
  induction es as [|e es IH]; [done|]. unfold sum_for, total. simpl. fold (sum_for k es) (total es).
  case_bool_decide; lia.
Qed.

(** Outputs that fit leave room for inputs that do. *)
Lemma fits_after r outs ins :
  report_wf MAX_RECORDS r → moved report_default r outs Z.add →
  (total outs <= i64_max)%Z → (total ins <= i64_max)%Z → (length outs + length ins <= MAX_RECORDS)%nat → fits_inputs r ins.
Proof.
  intros Hw [Hb Hl] Ho Hi Hn. split; [|split; [done|]].
  - intros k. rewrite Hb. change (balance report_default k) with 0%Z. pose proof (sum_for_bounds k outs).
    unfold i64_min, i64_max in *. lia.
  - assert (length (vm_keys (balance_changes r)) <= length outs.*1)%nat as H.
    { apply submseteq_length, NoDup_submseteq; [apply Hw|]. intros k Hk. apply Hl in Hk as [Hk|Hk]; [done|].
      by apply elem_of_nil in Hk. }
    rewrite length_fmap in H. lia.
Qed.

Lemma zip_exact_inv {X Y} (a : list X) (b : list Y) :
  zip_exact a b = Ok (zip a b) ∧ length a = length b ∨ (∃ e, zip_exact a b = Err e) ∧ length a ≠ length b.
Proof. unfold zip_exact. case_bool_decide; [by left|right; eauto]. Qed.

(** The transcript of the whole summary. *)
Lemma streamed_transcript emd bv vk s :
  sum_outputs s ≠ [] → sum_inputs s ≠ [] →
  let ctx := after_inputs (after_outputs (verifier_new emd bv (length (sum_outputs s)) (length (sum_inputs s)) vk)
    (sum_outputs s)) (sum_inputs s) in
  transcript ctx ++ append_to_transcript dig_u64 "fee" (sum_fee s) ++
    append_to_transcript dig_u64 "fee_token_id" (sum_fee_token_id s) ++
    append_to_transcript dig_u64 "tombstone_block" (sum_tombstone_block s) ++ append_agg_closer "tx_summary" "TxSummary"
  = message_and_summary_transcript (vec_to_list emd) s.
Proof.
  intros Ho Hi. destruct s as [outs ins f ft tb]. cbn [sum_outputs sum_inputs sum_fee sum_fee_token_id sum_tombstone_block] in *.
  cbv zeta. unfold after_inputs, after_outputs, verifier_new, with_transcript.
  cbn [transcript expected_num_inputs]. unfold message_and_summary_transcript.
  rewrite <-!app_assoc. f_equal. unfold dig_tx_summary, derive_struct, never_omitted. cbn [append_to_transcript]. f_equal.
  cbn [concat]. unfold field, dig_list. cbn [append_to_transcript_allow_omit].
  cbn [sum_outputs sum_inputs sum_fee sum_fee_token_id sum_tombstone_block].
  destruct outs as [|o outs]; [done|]. destruct ins as [|i ins]; [done|].
  unfold append_seq_allow_omit, append_seq. rewrite <-!app_assoc. reflexivity.
Qed.

(** The conditions of acceptance. *)
Definition reader (vk : scalar) (bv : BlockVersion) : TxSummaryStreamingVerifierCtx := mkCtx vk bv [] 0 0 0 0.

Record acceptable (vk : scalar) (s : TxSummary) (data : TxSummaryUnblindingData) (bv : BlockVersion) (es : list (TransactionEntity * Amount)) : Prop := {
  ac_version : BlockVersion_try_from (tsu_block_version data) = Ok bv;
  ac_outputs_length : length (sum_outputs s) = length (tsu_outputs data);
  ac_inputs_length : length (sum_inputs s) = length (tsu_inputs data);
  ac_outputs : Forall2 (λ p e, recipient_of (reader vk bv) p = Ok e)
    (zip (sum_outputs s) (tsu_outputs data)) es;
  ac_inputs : Forall input_opens (zip (sum_inputs s) (tsu_inputs data))
}.

(** Nothing overflows. *)
Definition fits (s : TxSummary) (data : TxSummaryUnblindingData) (es : list (TransactionEntity * Amount)) : Prop :=
  (total (entry_of <$> es) <= i64_max)%Z ∧
  (total (input_entry <$> zip (sum_inputs s) (tsu_inputs data)) <= i64_max)%Z ∧
  (length (sum_outputs s) + length (sum_inputs s) <= MAX_RECORDS)%nat.

(** What is reported of an accepted summary. *)
Record reported (emd : bytes32) (s : TxSummary) (data : TxSummaryUnblindingData) (es : list (TransactionEntity * Amount)) (digest : bytes32) r : Prop := {
  rp_digest : sum_outputs s ≠ [] → sum_inputs s ≠ [] → digest = digest_message_and_summary (vec_to_list emd) s;
  rp_fee : network_fee r = mkAmount (sum_fee s) (sum_fee_token_id s);
  rp_tombstone : report_tombstone_block r = sum_tombstone_block s;
  rp_sorted : StronglySorted ord_lt (vm_keys (balance_changes r));
  rp_balance k : balance r k =
    (sum_for k (entry_of <$> es) - sum_for k (input_entry <$> zip (sum_inputs s) (tsu_inputs data)))%Z;
  rp_listed k : listed r k ↔
    k ∈ (entry_of <$> es).*1 ∨ k ∈ (input_entry <$> zip (sum_inputs s) (tsu_inputs data)).*1
}.

Lemma Forall2_fun {X Y E} (f : X → result Y E) l l1 l2 :
  Forall2 (λ x y, f x = Ok y) l l1 → Forall2 (λ x y, f x = Ok y) l l2 → l1 = l2.
Proof.
  intros H1. revert l2. induction H1 as [|x y l l1 Hx _ IH]; intros l2 H2.
  - by apply Forall2_nil_inv_l in H2.
  - apply Forall2_cons_inv_l in H2 as (y' & l' & Hy & H2 & ->). f_equal; [congruence|by apply IH].
Qed.

Lemma fst_zip_eq {X Y} (a : list X) (b : list Y) : length a = length b → (zip a b).*1 = a.
Proof. intros H. apply fst_zip. lia. Qed.

Lemma verify_spec emd s data vk :
  ∃ res, verify_tx_summary emd s data vk = Done res ∧
    match res with
    | Ok (digest, r) => ∃ bv es, acceptable vk s data bv es ∧ reported emd s data es digest r
    | Err _ => ∀ bv es, acceptable vk s data bv es → ¬ fits s data es
    end.
Proof.
  unfold verify_tx_summary.
  destruct (BlockVersion_try_from (tsu_block_version data)) as [bv|e] eqn:Ebv; cbn [map_err ebind].
  2: { eexists. split; [reflexivity|]. intros bv es [Hbv _ _ _ _]. congruence. }
  destruct (zip_exact_inv (sum_outputs s) (tsu_outputs data)) as [[Ez Ho]|[[e Ez] Ho]]; rewrite Ez; cbn [map_err ebind].
  2: { eexists. split; [reflexivity|]. by intros bv' es [_ ? _ _ _]. }
  set (ctx := verifier_new emd bv _ _ vk).
  destruct (digest_outputs_spec (zip (sum_outputs s) (tsu_outputs data)) ctx report_default default_wf) as (res & -> & H).
  { simpl. rewrite length_zip_with. lia. }
  destruct res as [[ctx1 r1]|e]; cbn [ebind].
  2: { eexists. split; [reflexivity|]. intros bv' es [Hbv _ _ Hes _] (Hf1 & Hf2 & Hf3). assert (bv' = bv) as -> by congruence.
       apply (H es Hes). split; [intros k; split; [done|exact Hf1]|].
       apply Forall2_length in Hes. rewrite length_zip_with in Hes. simpl. rewrite length_fmap. lia. }
  destruct H as (es & Hes & Hw1 & -> & Hm1). pose proof (Forall2_length _ _ _ Hes) as Hlen. rewrite length_zip_with in Hlen.
  destruct (zip_exact_inv (sum_inputs s) (tsu_inputs data)) as [[Ezi Hi]|[[e Ezi] Hi]]; rewrite Ezi; cbn [map_err ebind].
  2: { eexists. split; [reflexivity|]. by intros bv' es' [_ _ ? _ _]. }
  rewrite (fst_zip_eq _ _ Ho).
  destruct (digest_inputs_spec (zip (sum_inputs s) (tsu_inputs data)) (after_outputs ctx (sum_outputs s)) r1 Hw1)
    as (res & -> & H); [done|simpl; rewrite length_zip_with; lia|].
  destruct res as [[ctx2 r2]|e]; cbn [ebind].
  2: { eexists. split; [reflexivity|]. intros bv' es' [Hbv _ _ Hes' Hin] (Hf1 & Hf2 & Hf3).
       assert (bv' = bv) as -> by congruence.
       assert (es' = es) as ->.
       { apply (Forall2_fun (λ p, recipient_of (reader vk bv) p) _ _ _ Hes' Hes). }
       apply (H Hin). eapply fits_after; [done|exact Hm1|done|done|].
       rewrite !length_fmap, length_zip_with. lia. }
  destruct H as (Hin & Hw2 & -> & Hm2). rewrite (fst_zip_eq _ _ Hi). cbn [fst snd].
  unfold finalize.
  destruct (report_sort_spec MAX_RECORDS (mkReport (balance_changes r2) (mkAmount (sum_fee s) (sum_fee_token_id s))
    (sum_tombstone_block s)) Hw2) as (r3 & -> & Hw3 & Hfee & Htb & Hs & Hb & Hl).
  cbn [exec_bind]. eexists. split; [reflexivity|]. exists bv, es. split; [by split|]. split.
  - intros Hno Hni. cbn [value token_id]. unfold ctx. rewrite streamed_transcript by done. reflexivity.
  - by rewrite Hfee.
  - by rewrite Htb.
  - done.
  - intros k. rewrite Hb. change (balance _ k) with (balance r2 k).
    rewrite (mv_balance _ _ _ _ Hm2), (mv_balance _ _ _ _ Hm1). done.
  - intros k. rewrite Hl. change (listed _ k) with (listed r2 k).
    rewrite (mv_listed _ _ _ _ Hm2), (mv_listed _ _ _ _ Hm1). assert (¬ listed report_default k) by (apply not_elem_of_nil). tauto.
Qed.
End verifier.

(** ** What the report means *)

Section meaning.
Context `{C : Curve} {CL : CurveLaws} `{MX : !MemoCrypto} `{MR : Merlin}.
Notation output_data := (TxOutSummary * TxOutSummaryUnblindingData)%type.

(** The summary of an output. *)
Definition summary_of (o : TxOut) (associated : bool) : TxOutSummary :=
  mkTxOutSummary (masked_amount o) (target_key o) (public_key o) associated.

(** Every output with this summary is one of [amount] for the subaddress [i] of
    [acct]. *)
Definition received_by (acct : AccountKey) (i : N) (amount : Amount) (s : TxOutSummary) : Prop :=
  ∀ o b, summary_of o b = s →
    (∃ ss, view_key_match o (view_private_key acct) = Ok (amount, ss)) ∧ subaddress_matches_tx_out acct i o = Ok true.

(** What was verified of an output, by what it is reported as. *)
Definition output_verified (vk : scalar) (bv : BlockVersion) (p : output_data) (e : TransactionEntity * Amount) : Prop :=
  let '(o, d) := p in
  let '(entity, amount) := e in
  match entity with
  | Ourself => ∃ R a blinding, decompress (sum_public_key o) = Some R ∧ sum_masked_amount o = Some a ∧
      get_value a (compress (get_tx_out_shared_secret vk R)) = Ok (amount, blinding) ∧
      commitment a = pedersen (value amount) blinding (token_id amount)
  | Address h => ∃ address, ud_address d = Some address ∧ h = short_address_hash address ∧
      amount = unmasked_amount (ud_unmasked_amount d) ∧
      ∀ acct i, subaddress acct i = address → token_id amount < 2 ^ 64 → received_by acct i amount o
  | Swap => associated_to_input_rules o = true ∧ amount = unmasked_amount (ud_unmasked_amount d) ∧
      ∃ a, sum_masked_amount o = Some a ∧
        commitment a = pedersen (value amount) (um_blinding (ud_unmasked_amount d)) (token_id amount)
  end.

(** The keys and the amount of an output, as [TxOut::new] makes them. *)
Lemma expected_summary_output bv amount recipient r o :
  expected_tx_out_summary bv amount recipient r = Ok o →
  ∃ out, TxOut_new bv amount recipient r [] = Ok out ∧ o = summary_of out false.
Proof.
  unfold expected_tx_out_summary, TxOut_new, new_with_memo.
  destruct (MaskedAmount_new bv amount _) as [a|e]; cbn [map_err result_bind]; [|discriminate].
  assert (∀ x y : TxOutSummary, Ok (E := SummaryError) x = Ok y → x = y) as Hinj by congruence.
  intros <-%Hinj. destruct (e_memo_feature_is_supported bv); eexists; (split; [reflexivity|]); reflexivity.
Qed.

Lemma made_output_received bv amount acct i r hint out :
  token_id amount < 2 ^ 64 → TxOut_new bv amount (subaddress acct i) r hint = Ok out →
  received_by acct i amount (summary_of out false).
Proof.
  intros Ht Hout o b Ho. unfold summary_of in Ho.
  assert (masked_amount o = masked_amount out ∧ target_key o = target_key out ∧ public_key o = public_key out)
    as (E1 & E2 & E3) by (split_and!; congruence).
  pose proof (OnetimeKeysProps.output_roundtrip acct i bv amount r hint (λ _, MemoPayload_default) Ht) as H.
  cbv beta zeta in H. unfold TxOut_new in Hout. rewrite Hout in H. destruct (negb _ && _); [discriminate|].
  destruct H as (out' & R & ss & Eo & _ & Hv & _ & Hs & _). injection Eo as <-. split.
  - exists ss. rewrite <-Hv. unfold view_key_match. by rewrite E1, E3.
  - rewrite <-(bool_decide_eq_true_2 (spend_public_key (subaddress acct i) = spend_public_key (subaddress acct i))) by done.
    rewrite <-(Hs i). unfold subaddress_matches_tx_out. by rewrite E2, E3.
Qed.

Lemma recipient_verified vk bv p e : recipient_of (reader vk bv) p = Ok e → output_verified vk bv p e.
Proof.
  destruct p as [o d], e as [entity amount]. unfold recipient_of, output_recipient. cbn [fst snd]. intros H.
  apply result_bind_Ok in H as (ours & Hv & H). unfold summary_view_key_match in Hv.
  apply result_bind_Ok in Hv as (R & HR & Hv). apply map_err_Ok in HR. unfold point_try_from in HR.
  destruct (decompress (sum_public_key o)) as [R'|] eqn:ER; [|discriminate]. injection HR as ->.
  destruct (sum_masked_amount o) as [a|] eqn:Ea; [|discriminate].
  destruct ours as [am|].
  - injection H as <- <-. destruct (get_value a _) as [[am' bl]|[]] eqn:Eg; try discriminate. injection Hv as ->.
    exists R, a, bl. split; [done|]. split; [done|]. split; [exact Eg|]. by eapply get_value_opens.
  - clear Hv. destruct (ud_address d) as [address|] eqn:Ead; cbn [fmap option_fmap option_map] in H.
    + destruct (ud_tx_private_key d) as [r|]; [|discriminate].
      apply result_bind_Ok in H as (x & Hx & H). case_bool_decide as D; [|discriminate]. subst x.
      injection H as <- <-. apply expected_summary_output in Hx as (out & Hout & ->).
      exists address. split; [done|]. split; [done|]. split; [done|].
      intros acct i <- Ht. by eapply made_output_received.
    + destruct (associated_to_input_rules o) eqn:Eas; cbn [negb] in H; [|discriminate].
      case_bool_decide as D; cbn [negb] in H; [|discriminate]. injection H as <- <-.
      split; [done|]. split; [done|]. exists a. by split.
Qed.

(** C24: what the verifier of a hardware wallet accepts, it reports
    truthfully.  When [verify_tx_summary] accepts a summary, the digest is the one
    the rings of the transaction sign ([compute_mlsag_signing_digest]) if there
    are outputs and inputs, as there are in a valid transaction; every
    output reported for an address is received by the owner of the address; every
    other output and every input opens to the reported amount, which for an output
    reported as the wallet's own is all that is checked; and the balance of
    each party in each token is the exact sum of its outputs less its inputs,
    listed once, in order, with the fee and the tombstone block. *)
Theorem verified_summary_sound emd s data vk digest r :
  verify_tx_summary emd s data vk = Done (Ok (digest, r)) →
  ∃ bv es, BlockVersion_try_from (tsu_block_version data) = Ok bv ∧
    length (sum_outputs s) = length (tsu_outputs data) ∧ length (sum_inputs s) = length (tsu_inputs data) ∧
    Forall2 (output_verified vk bv) (zip (sum_outputs s) (tsu_outputs data)) es ∧
    Forall input_opens (zip (sum_inputs s) (tsu_inputs data)) ∧
    reported emd s data es digest r.
Proof.
  intros H. destruct (verify_spec emd s data vk) as (res & E & Hres). rewrite H in E. injection E as <-.
  destruct Hres as (bv & es & [H1 H2 H3 H4 H5] & Hr). exists bv, es. do 3 (split; [done|]). split; [|done].
  eapply Forall2_impl; [exact H4|]. intros p e. apply recipient_verified.
Qed.

(** ** Honest summaries *)

(** The token id of the masked amount has a length that can be read; then
    reading fails only with the commitment. *)
Definition readable (a : MaskedAmount) : Prop :=
  length (masked_token_id a) = 8%nat ∨ (length (masked_token_id a) = 0%nat ∧ ∃ v1, a = V1 v1).

Lemma get_value_readable a ss :
  readable a → (∃ x, get_value a ss = Ok x) ∨ get_value a ss = Err InconsistentCommitment.
Proof.
  intros Ha. destruct a as [a|a]; cbn [get_value].
  - assert (∃ t, v1_unmask_token_id (v1_masked_token_id a) ss = Ok t) as [t Ht].
    { unfold v1_unmask_token_id, TOKEN_ID_NUM_BYTES. destruct Ha as [Ha|[Ha _]]; cbn [masked_token_id] in Ha; rewrite Ha.
      - rewrite bool_decide_eq_false_2, bool_decide_eq_true_2 by done. eauto.
      - rewrite bool_decide_eq_true_2 by done. eauto. }
    unfold v1_get_value, v1_compute_commitment. rewrite Ht. cbn [result_bind].
    case_bool_decide; cbn [negb]; [left; eauto|by right].
  - destruct Ha as [Ha|[_ [v Hv]]]; [|discriminate]. cbn [masked_token_id] in Ha.
    unfold v2_get_value, v2_get_value_from_amount_shared_secret, v2_compute_commitment, TOKEN_ID_NUM_BYTES.
    destruct (get_blinding_factors _) as [[vm tm] bl]. rewrite bool_decide_eq_true_2 by done. cbn [result_bind].
    case_bool_decide; cbn [negb]; [left; eauto|by right].
Qed.

Lemma new_readable bv amount ss a : MaskedAmount_new bv amount ss = Ok a → readable a.
Proof.
  intros H. pose proof (new_amount_token_length _ _ _ _ H) as Hl.
  destruct (N.leb_spec 2 bv) as [H2|H2]; [by left|]. right. split; [done|].
  unfold MaskedAmount_new, masked_amount_v2_is_supported, VERSION_THREE in H.
  rewrite (proj2 (N.leb_gt 3 bv)) in H by lia. destruct (_ && _); [discriminate|].
  apply result_bind_Ok in H as (v & _ & H). injection H as <-. eauto.
Qed.

(** An output with the data it was made with: for an address, or for the rules of
    a presigned input. *)
Definition honest_output (bv : BlockVersion) (p : output_data) : Prop :=
  let '(o, d) := p in
  let amount := unmasked_amount (ud_unmasked_amount d) in
  (∃ address r hint out, ud_address d = Some address ∧ ud_tx_private_key d = Some r ∧
     TxOut_new bv amount address r hint = Ok out ∧ o = summary_of out false) ∨
  (ud_address d = None ∧ associated_to_input_rules o = true ∧
   ∃ a R, sum_masked_amount o = Some a ∧ decompress (sum_public_key o) = Some R ∧ readable a ∧
     commitment a = pedersen (value amount) (um_blinding (ud_unmasked_amount d)) (token_id amount)).

(** The view key opens the output at most to the amount it was made with. *)
Definition opens_as_made (vk : scalar) (bv : BlockVersion) (p : output_data) : Prop :=
  ∀ amount, summary_view_key_match (reader vk bv) p.1 = Ok (Some amount) →
    amount = unmasked_amount (ud_unmasked_amount p.2).

Lemma view_match_total vk bv o a R :
  sum_masked_amount o = Some a → decompress (sum_public_key o) = Some R → readable a →
  ∃ x, summary_view_key_match (reader vk bv) o = Ok x.
Proof.
  intros Ha HR Hr. unfold summary_view_key_match, point_try_from. rewrite HR, Ha. cbn [map_err result_bind].
  destruct (get_value_readable a (compress (get_tx_out_shared_secret (ctx_view_private_key (reader vk bv)) R)) Hr)
    as [[[am bl] ->]| ->]; eauto.
Qed.

Lemma made_summary bv amount address r hint out :
  TxOut_new bv amount address r hint = Ok out →
  expected_tx_out_summary bv amount address r = Ok (summary_of out false) ∧
  ∃ a R, masked_amount out = Some a ∧ decompress (public_key out) = Some R ∧ readable a.
Proof.
  unfold expected_tx_out_summary, TxOut_new, new_with_memo. set (Rp := create_tx_out_public_key r _).
  destruct (MaskedAmount_new bv amount _) as [a|e] eqn:Ea; cbn [map_err result_bind]; [|discriminate].
  assert (∀ x y : TxOut, Ok (E := NewTxError) x = Ok y → x = y) as Hinj by congruence.
  intros H. assert (∃ m, out = mkTxOut (Some a) (compress (create_tx_out_target_key r address)) (compress Rp) hint m) as [m ->].
  { destruct (e_memo_feature_is_supported bv); cbn [result_bind] in H; apply Hinj in H as <-; eauto. }
  split; [done|]. exists a, Rp. split; [done|]. split; [apply decompress_compress|by eapply new_readable].
Qed.

Lemma honest_recipient vk bv p :
  honest_output bv p → opens_as_made vk bv p →
  ∃ e, recipient_of (reader vk bv) p = Ok e ∧ e.2 = unmasked_amount (ud_unmasked_amount p.2).
Proof.
  destruct p as [o d]. intros Hh Hown. unfold opens_as_made in Hown. cbn [fst snd] in Hown.
  unfold recipient_of, output_recipient. cbn [fst snd].
  destruct Hh as [(address & r & hint & out & Ead & Er & Hout & ->)|(Ead & Eas & a & R & Ea & HR & Hrd & Hop)].
  - destruct (made_summary _ _ _ _ _ _ Hout) as (Hexp & a & R & Ea & HR & Hrd).
    destruct (view_match_total vk bv (summary_of out false) a R Ea HR Hrd) as [[am|] Hx]; rewrite Hx; cbn [result_bind].
    + exists (Ourself, am). split; [done|]. by apply Hown.
    + rewrite Ead, Er. cbn [fmap option_fmap option_map]. cbn [ctx_block_version reader].
      unfold unmasked_amount in Hexp. rewrite Hexp. cbn [result_bind]. rewrite bool_decide_eq_true_2 by done. eauto.
  - destruct (view_match_total vk bv o a R Ea HR Hrd) as [[am|] Hx]; rewrite Hx; cbn [result_bind].
    + exists (Ourself, am). split; [done|]. by apply Hown.
    + rewrite Ead, Eas, Ea. cbn [fmap option_fmap option_map negb]. rewrite bool_decide_eq_true_2 by done. cbn [negb]. eauto.
Qed.

Definition sum_values (l : list UnmaskedAmount) : Z := foldr (λ u acc, Z.of_N (um_value u) + acc)%Z 0%Z l.

Lemma honest_recipients vk bv l :
  Forall (honest_output bv) l → Forall (opens_as_made vk bv) l →
  ∃ es, Forall2 (λ p e, recipient_of (reader vk bv) p = Ok e) l es ∧
    es.*2 = (λ p, unmasked_amount (ud_unmasked_amount p.2)) <$> l ∧
    total (entry_of <$> es) = sum_values ((λ p, ud_unmasked_amount p.2) <$> l).
Proof.
  induction l as [|p l IH]; intros Hh Ho; [exists []; by split; [constructor|]|].
  apply Forall_cons in Hh as [Hp Hh]. apply Forall_cons in Ho as [Op Ho].
  destruct (IH Hh Ho) as (es & H1 & H2 & H3). destruct (honest_recipient vk bv p Hp Op) as (e & He & Ha).
  exists (e :: es). split; [by constructor|]. split.
  - rewrite !fmap_cons. by rewrite H2, Ha.
  - rewrite !fmap_cons. unfold total, sum_values. cbn [foldr]. fold (total (entry_of <$> es)).
    rewrite H3. unfold entry_of. cbn [snd]. by rewrite Ha.
Qed.

Lemma total_inputs l : total (input_entry <$> l) = sum_values l.*2.
Proof.
  induction l as [|p l IH]; [done|]. rewrite !fmap_cons. unfold total, sum_values. cbn [foldr].
  fold (total (input_entry <$> l)). rewrite IH. done.
Qed.

(** C25: honest summaries are accepted.  When every output comes with the data
    it was made with, which the wallet's key does not open to another amount,
    and every input with the opening of its commitment, there
    are at most 32 of them and neither side adds up to more than [i64::MAX],
    then [verify_tx_summary] accepts, without a panic, and reports every amount. *)
Theorem honest_summary_verifies emd s data vk bv :
  BlockVersion_try_from (tsu_block_version data) = Ok bv →
  length (sum_outputs s) = length (tsu_outputs data) → length (sum_inputs s) = length (tsu_inputs data) →
  (length (sum_outputs s) + length (sum_inputs s) <= MAX_RECORDS)%nat →
  Forall (honest_output bv) (zip (sum_outputs s) (tsu_outputs data)) →
  Forall (opens_as_made vk bv) (zip (sum_outputs s) (tsu_outputs data)) →
  Forall input_opens (zip (sum_inputs s) (tsu_inputs data)) →
  (sum_values (ud_unmasked_amount <$> tsu_outputs data) <= i64_max)%Z → (sum_values (tsu_inputs data) <= i64_max)%Z →
  ∃ digest r es, verify_tx_summary emd s data vk = Done (Ok (digest, r)) ∧
    es.*2 = (λ d, unmasked_amount (ud_unmasked_amount d)) <$> tsu_outputs data ∧
    reported emd s data es digest r.
Proof.
  intros Hbv Ho Hi Hn Hh Hown Hin Hso Hsi.
  destruct (honest_recipients vk bv _ Hh Hown) as (es & Hes & Ham & Htot).
  assert (∀ {B} (f : TxOutSummaryUnblindingData → B),
    (λ p, f p.2) <$> zip (sum_outputs s) (tsu_outputs data) = f <$> tsu_outputs data) as Hz.
  { intros B f. rewrite <-(snd_zip (sum_outputs s) (tsu_outputs data)) at 2 by lia. by rewrite <-list_fmap_compose. }
  rewrite (Hz _ (λ d, unmasked_amount (ud_unmasked_amount d))) in Ham. rewrite (Hz _ ud_unmasked_amount) in Htot.
  assert (acceptable vk s data bv es) as Hac by by split.
  destruct (verify_spec emd s data vk) as (res & E & Hres). destruct res as [[digest r]|e].
  - destruct Hres as (bv' & es' & [Hbv' _ _ Hes' _] & Hrep). assert (bv' = bv) as -> by congruence.
    rewrite (Forall2_fun _ _ _ _ Hes' Hes) in Hrep. by exists digest, r, es.
  - exfalso. apply (Hres bv es Hac). split; [by rewrite Htot|]. split; [|done].
    rewrite total_inputs, snd_zip by lia. done.
Qed.

(** C39: the report can be deceived about the owner of an output.  An output
    counts as the signer's own as soon as the view key of the signer opens its
    amount; its target key is not looked at.  Whoever prepares the transaction
    can take the public key and the amount of an output for any subaddress of the
    signer with the target key [public_of t] of a private key [t] of
    their own: the output is reported as [Ourself]. *)
Theorem redirected_output_reported_ours acct i bv amount r t a d ctx associated :
  ctx_view_private_key ctx = view_private_key acct → (output_count ctx < expected_num_outputs ctx)%nat →
  token_id amount < 2 ^ 64 → (Z.of_N (value amount) <= i64_max)%Z →
  MaskedAmount_new bv amount (compress (create_shared_secret (view_public_key (subaddress acct i)) r)) = Ok a →
  let o := mkTxOutSummary (Some a) (compress (public_of t))
             (compress (create_tx_out_public_key r (spend_public_key (subaddress acct i)))) associated in
  ∃ ctx' report, try_digest (digest_output MAX_RECORDS ctx o (ud_unmasked_amount d)
      ((λ v, (short_address_hash v, v)) <$> ud_address d) (ud_tx_private_key d) report_default) = Done (Ok (ctx', report)) ∧
    balance report (Ourself, token_id amount) = Z.of_N (value amount).
Proof.
  intros Hvk Hc Ht Hv Ha o.
  assert (recipient_of ctx (o, d) = Ok (Ourself, amount)) as Hr.
  { unfold recipient_of, output_recipient, summary_view_key_match, o. cbn [fst snd sum_public_key sum_masked_amount].
    rewrite OnetimeKeysProps.point_try_from_compress. cbn [map_err result_bind]. rewrite Hvk.
    rewrite <-OnetimeKeysProps.shared_secret_agrees.
    pose proof (MaskedAmountProps.masked_amount_roundtrip bv amount
      (compress (create_shared_secret (view_public_key (subaddress acct i)) r)) Ht) as H.
    destruct (negb _ && _); [by rewrite Ha in H|]. destruct H as (a' & bl & Ha' & Hg & _).
    rewrite Ha in Ha'. injection Ha' as <-. by rewrite Hg. }
  destruct (digest_output_spec ctx o d report_default default_wf Hc) as (res & E & H).
  destruct res as [[ctx' report]|e].
  - exists ctx', report. split; [exact E|]. destruct H as (entity & am & Hr' & _ & _ & Hch).
    rewrite Hr in Hr'. injection Hr' as <- <-. rewrite (ch_balance _ _ _ _ Hch). done.
  - exfalso. destruct H as [H|(entity & am & Hr' & H)]; [congruence|]. rewrite Hr in Hr'. injection Hr' as <- <-.
    apply H. change (balance report_default _) with 0%Z. split; [|split; [done|right; by apply Nat.ltb_lt]].
    unfold in_i64, i64_min, i64_max in *. lia.
Qed.
End meaning.

(** *** Witnesses *)

#[local] Instance sc : Curve := TxBuilderValid.unit_curve.
#[local] Instance sl : CurveLaws := TxBuilderValid.ul.
#[local] Instance toy_memo_crypto : MemoCrypto :=
  {| hmac_sha512 := λ _ _, vreplicate 64 (u8 0); address_digest := λ _, vreplicate 32 (u8 0) |}.
#[local] Instance toy_merlin : Merlin := λ _ t, vreplicate 32 (u8 (N.of_nat (length t))).

(** An input of 700 of which 600 are sent and 100 are the fee. *)
Definition toy_key : scalar := @s_zero TxBuilderValid.unit_curve.
Definition toy_address : PublicAddress := PublicAddress_new (public_of toy_key) (public_of toy_key).
Definition toy_amount (v : N) : UnmaskedAmount := mkUnmaskedAmount v 0 toy_key.
Definition toy_out : TxOut :=
  TxBuilderValid.ok_default (TxOut_new 3 (mkAmount 600 0) toy_address toy_key [])
    (mkTxOut None (vreplicate 32 (u8 0)) (vreplicate 32 (u8 0)) [] None).
Definition toy_summary : TxSummary :=
  mkTxSummary [summary_of toy_out false]
    [mkTxInSummary (CompressedCommitment_new 700 toy_key (generators 0)) []] 100 0 1000.
Definition toy_data : TxSummaryUnblindingData :=
  mkTxSummaryUnblindingData 3 [mkUnblindingData (toy_amount 600) (Some toy_address) (Some toy_key)] [toy_amount 700].
Definition toy_message : bytes32 := vreplicate 32 (u8 7).
Definition toy_verified := verify_tx_summary toy_message toy_summary toy_data toy_key.

Lemma verified_summary_sound_witness :
  ∃ es digest r, toy_verified = Done (Ok (digest, r)) ∧ reported toy_message toy_summary toy_data es digest r ∧
    digest = digest_message_and_summary (vec_to_list toy_message) toy_summary.
Proof.
  assert (toy_verified = Done (Ok (TxBuilderValid.returned toy_verified (toy_message, report_default)))) as E
    by (apply TxBuilderValid.returned_Ok; vm_cast_no_check (eq_refl true)).
  destruct (TxBuilderValid.returned toy_verified (toy_message, report_default)) as [digest r].
  destruct (verified_summary_sound toy_message toy_summary toy_data toy_key digest r E) as (bv & es & _ & _ & _ & _ & _ & Hr).
  exists es, digest, r. split; [exact E|]. split; [exact Hr|]. by apply (rp_digest _ _ _ _ _ _ Hr).
Defined.

Lemma honest_summary_verifies_witness :
  ∃ digest r es, toy_verified = Done (Ok (digest, r)) ∧
    es.*2 = (λ d, unmasked_amount (ud_unmasked_amount d)) <$> tsu_outputs toy_data ∧
    reported toy_message toy_summary toy_data es digest r.
Proof.
  apply (honest_summary_verifies toy_message toy_summary toy_data toy_key 3);
    [reflexivity|reflexivity|reflexivity|by apply Nat.leb_le| | | |by vm_compute|by vm_compute].
  - constructor; [|constructor]. left. exists toy_address, toy_key, [], toy_out. do 3 (split; [reflexivity|]). reflexivity.
  - constructor; [|constructor]. intros amount. vm_compute. congruence.
  - constructor; [|constructor]. reflexivity.
Defined.

Lemma redirected_output_reported_ours_witness :
  let acct := AccountKey_new toy_key toy_key in
  ∃ a ctx' report, MaskedAmount_new 3 (mkAmount 600 0)
      (compress (create_shared_secret (view_public_key (subaddress acct 0)) toy_key)) = Ok a ∧
    try_digest (digest_output MAX_RECORDS (verifier_new toy_message 3 1 1 toy_key)
      (mkTxOutSummary (Some a) (compress (public_of toy_key))
         (compress (create_tx_out_public_key toy_key (spend_public_key (subaddress acct 0)))) false)
      (toy_amount 600) None None report_default) = Done (Ok (ctx', report)) ∧
    balance report (Ourself, 0) = 600%Z.
Proof.
  cbv zeta.
  destruct (MaskedAmount_new 3 (mkAmount 600 0)
    (compress (create_shared_secret (view_public_key (subaddress (AccountKey_new toy_key toy_key) 0)) toy_key))) as [a|e] eqn:E;
    [|exfalso; revert E; vm_compute; discriminate].
  destruct (redirected_output_reported_ours (AccountKey_new toy_key toy_key) 0 3 (mkAmount 600 0) toy_key toy_key a
    (mkUnblindingData (toy_amount 600) None None) (verifier_new toy_message 3 1 1 toy_key) false)
    as (ctx' & report & H1 & H2); [reflexivity|by apply Nat.ltb_lt|by vm_compute|by vm_compute|exact E|].
  exists a, ctx', report. split; [reflexivity|]. split; [exact H1|exact H2].
Defined.
End TxSummaryProps.
